(* ===== verification/_CoqProject ===== *)
-Q . S2P
Prelude.v
Intmath.v
Bytes.v
Clocked.v
EventQueue.v
EventService.v
Bitfield.v
AddrRange.v
AddrRangeMap.v
MemCmd.v
Packet.v
PacketQueue.v
SnoopFilter.v
XBarLayer.v
XBar.v
XBarDecode.v
XBarRun.v
AbstractMem.v
PhysMem.v
PhysCkpt.v
ChunkGenerator.v
PageTable.v
PhysAlloc.v
Vma.v
MemState.v
ProcessMem.v
Regions.v
Heap.v
Paging.v
ProcessRun.v
CmdBus.v
NvmDecode.v
NvmDevice.v
DramDevice.v
DramTiming.v
DramBurst.v
DramRefresh.v
DramChoice.v
DramLegal.v
MemCtrl.v
NvmDeviceInv.v
MemCtrlQos.v
MemCtrlInv.v
MemCtrlOps.v
MemCtrlSched.v
MemCtrlRun.v
MemCtrlLive.v
Simulate.v
SimpleMem.v
SatCounter.v
BaseIndexing.v
SkewedAssociative.v
CacheIndex.v
RpBase.v
LruRP.v
MruRP.v
FifoRP.v
LfuRP.v
BipRP.v
RandomRP.v
SecondChanceRP.v
WeightedLruRP.v
BrripRP.v
Replacement.v
TreePLRU.v
CacheBlk.v
CacheTags.v
NoncoherentCache.v
CacheFlat.v
CacheCore.v
CacheSteps.v
CacheRun.v
CacheAtomic.v
CacheFunctional.v
CacheStack.v
Bridge.v
Mshr.v
CacheQueue.v
FaLru.v
FaLruRun.v
