(* ===== verification/Prelude.v ===== *)
(** * A verified model of the memory side of gem5 with an NVM address space

    The repository is the gem5 simulator (release 20.1, under
    [src/gem5-20.1/src]) changed so that an emulated process sees two memory
    spaces: volatile memory and a window of non-volatile memory (NVM) at the
    physical and virtual addresses 0x30000000 to 0x50000000.  This library
    models the code an access goes through, from the system call that creates
    a region to the commands on the NVM device, and the event queue that
    drives it.  All paths below are relative to [gem5-20.1/src].

    ** The parts and how they interact

    A process in syscall emulation ([sim/process.cc]) owns a page table and a
    list of virtual memory areas.  [mmap], [munmap], [mremap] and [brk] edit
    the list ([sim/mem_state.cc]); nothing is mapped until a page fault or a
    copy through a port proxy ([mem/translating_port_proxy.cc]) calls
    [MemState::fixupFault], which asks the system ([sim/system.cc]) for a
    physical page: from the NVM allocator when the virtual address is in the
    window, from the volatile one otherwise.  Addresses are routed with
    interleaved ranges ([base/addr_range.hh]) kept in a map with a
    recently-used cache ([base/addr_range_map.hh]).  An access to the NVM
    range reaches the memory controller ([mem/mem_ctrl.cc]), which splits it
    into bursts, queues them, and schedules them on the NVM interface
    ([mem/mem_interface.cc]); the DRAM interface of the same file schedules
    the volatile accesses.  A request travels as a packet ([mem/packet.hh])
    whose command decides how it is treated, waits in the packet queues of
    the ports ([mem/packet_queue.cc]), passes the layers of a crossbar
    ([mem/xbar.cc]) that decodes its address, and touches the bytes of its memory in
    [AbstractMemory::access] ([mem/abstract_mem.cc]); [mem/physical.cc]
    allocates those bytes and finds the memory of an address.  A simple
    memory ([mem/simple_mem.cc]) puts a latency and a bandwidth in front of
    it, and caches ([mem/cache]) keep copies of its blocks: a tag store over
    an indexing and a replacement policy, and the controller of a
    non-coherent cache, which can stand in front of a memory or of another
    cache.  Controller, interfaces and queues act when the event queue ([sim/eventq.cc]) serves
    their events.

    ** Files

    - [Prelude]: outcomes of a C++ call ([res]: a value, or a failed
      assertion, panic, fatal error, exhausted bound, undefined behaviour),
      the state monad over it, 64-, 32-, 16- and 8-bit wrap-around, bit
      lemmas, tactics ([inv_ok], [case_if], [zcmp], [zbits_ext]) and the hint
      databases [gem5] and [zbits].
    - [Intmath], [Bitfield], [ChunkGenerator]: [base/intmath.hh],
      [base/bitfield.hh] and [base/bitfield.cc], [base/chunk_generator.hh].
    - [Bytes]: the data of a packet as list of bytes, written and read at an
      offset.
    - [AddrRange], [AddrRangeMap]: [base/addr_range.hh],
      [base/addr_range_map.hh].
    - [MemCmd], [Packet] (Module [Pkt]): the command table of
      [mem/packet.cc], requests ([mem/request.hh]) and packets.
    - [PacketQueue] (Module [PQ]): [mem/packet_queue.cc] and its two classes
      of queue in [mem/packet_queue.hh].
    - [Clocked] (Module [Clk]): the clock edges of [sim/clocked_object.hh].
    - [SnoopFilter] (Module [SF]): [mem/snoop_filter.cc].
    - [XBarLayer] (Module [Lay]), [XBar] (Module [XBar]): the layers of
      [mem/xbar.cc] and the non-coherent crossbar
      ([mem/noncoherent_xbar.cc]).  Proofs: [XBarDecode] (address decoding),
      [XBarRun] (a crossbar as a transition system between its peers).
    - [AbstractMem] (Module [AbsMem]): [mem/abstract_mem.cc], with the locked
      addresses of load-locked and store-conditional.
    - [PhysMem] (Module [PhysMem]), [PhysCkpt]: [mem/physical.cc], its
      construction, its accesses and its checkpoints.
    - [SimpleMem] (Module [SMem]): [mem/simple_mem.cc].
    - [SatCounter] (Module [Sat]): [base/sat_counter.hh].
    - [BaseIndexing] (Modules [BaseIdx], [SA]), [SkewedAssociative]:
      [mem/cache/tags/indexing_policies]; [CacheIndex] (Module [Idx]) states
      what a tag store needs of them (class [Indexing] with its laws
      [IndexingOk]) and proves it.
    - [RpBase], [LruRP], [MruRP], [FifoRP], [LfuRP], [BipRP], [RandomRP],
      [SecondChanceRP], [WeightedLruRP], [BrripRP], [TreePLRU]:
      [mem/cache/replacement_policies], a file per policy, behind the class
      [ReplacementPolicy]; [Replacement] (Module [Rp]) has the laws
      [PolicyOk] and what each policy evicts.
    - [CacheBlk] (Module [Blk]), [CacheTags] (Module [Tags]):
      [mem/cache/cache_blk.hh] and the set associative tags of
      [mem/cache/tags].
    - [NoncoherentCache] (Module [NC]): [mem/cache/base.cc] with the
      overrides of [mem/cache/noncoherent_cache.cc], over a class [MemSide]
      for what is below.  Proofs: [CacheFlat] (a request on a block),
      [CacheCore] (the invariant, and the laws [MemSideOk] of the memory
      side), [CacheSteps] (evictions, fills), [CacheRun] (hits, misses,
      lines), [CacheAtomic] (atomic accesses), [CacheFunctional] (functional
      accesses, flushing), [CacheStack] (memories and caches as memory
      sides).
    - [Mshr] (Module [Mshr]): [mem/cache/mshr.cc], the registers the misses of
      a cache wait in.  [CacheQueue] (Module [CQ]): [mem/cache/queue.hh] over
      a class [QueueEntry], with [mshr_queue.cc], [write_queue.cc] and
      [write_queue_entry.cc].
    - [FaLru] (Module [FA]): [mem/cache/tags/fa_lru.cc], the fully associative
      tags.  Proofs: [FaLruRun] (Module [FAL]: chains of blocks, boundaries;
      Module [FAR]: runs against a list in order of use).
    - [Bridge] (Module [Bridge]): [mem/bridge.cc], also as a memory side.
    - [EventQueue] (Module [EQ]): [schedule], [deschedule], [reschedule],
      [serviceOne], [insert], [remove] of [sim/eventq.hh] and
      [sim/eventq.cc], at the level of the two pointers in each event.
    - [PageTable] (Module [EPT]): [mem/page_table.cc], with checkpoints.
    - [PhysAlloc] (Module [Sys]): the allocators of [sim/system.cc].
    - [Vma] (Module [Vma]): [sim/vma.hh] and [sim/vma.cc].
    - [MemState] (Module [Proc]): [Process::allocateMem] and [map]
      ([sim/process.cc]), all of [sim/mem_state.cc] that changes state, and the
      port proxies ([mem/port_proxy.cc], [mem/translating_port_proxy.cc]).
      Proofs: [ProcessMem] (frames), [Regions] (unmap, remap), [Heap] (map,
      brk, mmap search), [Paging] (copies, faults), [ProcessRun] (a process
      as a transition system).
    - [CmdBus], [NvmDecode] (Module [Nvm]), [NvmDevice] (Module [Dev]): the
      command windows of [mem/mem_ctrl.cc]; the geometry, decoding, timing
      and dynamic state of [NVMInterface] in [mem/mem_interface.cc].
    - [DramDevice] (Module [Dram]): [Bank], [Rank] and [DRAMInterface] of
      [mem/mem_interface.cc]: activation, precharge, bursts, the refresh and
      power state machines, the choice of the next packet.  Proofs:
      [DramTiming] (activations and precharges), [DramBurst] (one access),
      [DramRefresh] (refresh and power events), [DramChoice] (FR-FCFS),
      [DramLegal] (a channel as a transition system; Module [DramCycle]: a whole
      refresh).
    - [MemCtrl] (Module [Ctrl]): [MemCtrl] and the bookkeeping of
      [QoS::MemCtrl] ([mem/qos/mem_ctrl.cc]).  Proofs: [NvmDeviceInv],
      [MemCtrlQos], [MemCtrlInv], [MemCtrlOps], [MemCtrlSched],
      [MemCtrlRun] (a controller as a transition system).
    - [EventService] (class [EventService] with its laws, Module [Loop]): what
      the queue promises to its clients, and the body of the main loop
      ([sim/simulate.cc], [doSimLoop]) as an instance.
    - [MemCtrlLive] (the controller finishes its work) and [Simulate] (the
      controller under the main loop, proved against the interface).

    Records and constructors carry the names of the C++ members they stand
    for; a mutated object is the state passed along; a container indexed or
    iterated is a list or a [gmap]; an [assert] is [assertb], a [panic] or
    [fatal] the [res] of that name.

    ** What the theorems show

    - Memory separation ([ProcessRun], [PhysAlloc]): in every state a process
      reaches by faults, [munmap] and [mmap], up to a fault that finds the NVM
      window exhausted, no two virtual pages share a frame and NVM frames lie
      behind exactly the virtual NVM window; no page is handed out twice while
      the requests keep to the bounds of [vol_guard] and the NVM window.  Where
      this fails it is proved to fail ([allocations_can_overlap],
      [remap_breaks_separation]).
    - Regions: [unmapRegion], [remapRegion], [mapRegion], [updateBrkRegion],
      [extendMmap] and the slicing of areas, each with its effect on every
      address, its errors and its termination; copies through a proxy are
      read back unchanged.
    - Page table: map, unmap, remap, translation, checkpoint round trip.
    - Ranges: interleaving partitions an interval, merging is union, removing
      interleaving bits is injective; the address map decodes to the entry
      that contains the address, whatever its cache holds; counterexamples
      for [addIntlvBits] with three bits and for erasing a span of the map.
    - Controller: from any reachable state no handler fails, queues and media
      limits are respected, each accepted request is accessed exactly once
      and in the end, no wake-up is lost; [chooseNextFRFCFS] implements its specification; the
      search for a command slot terminates.  Two priority levels reach an
      assertion and a drain can hang: both are proved.
    - DRAM: whatever bursts and refreshes a channel performs, the commands it
      issues respect the timing parameters (activation window, row cycle,
      row-to-column delay, precharge, data bus), up to a refresh event that runs
      while a precharge event is pending; activations at tick 0 are not counted
      in the window; a burst that finds its row
      open issues no command but its own; the choice of a packet implements
      first-ready first-come first-served; an idle rank completes its
      refresh; a refresh that starts late is proved to reach an assertion.
    - Packets: a queue delivers every
      packet once, in order of its time, and packets to one address in the
      order they came when asked to.
    - Crossbar: whatever its peers send while the port protocol is kept, no
      check fails, every response goes to the port its request came from,
      waiting ports are told to try again in the order they came, and none is
      forgotten; a packet goes to the port that reported its address.  The
      snoop filter shows a request to every port that may have a copy, while
      the caches follow their protocol, and panics in exactly two cases: a
      snoop that misses when it is full, and a response to an untracked request
      for a tracked line; a refused request leaves no trace in it.
    - Memory: [access] on the bytes of the host refines an abstract memory
      with a set of reservations, which swaps do not clear and which stores
      clear in the block of their first byte only; a store-conditional writes
      exactly when its reservation stands, and without swaps and stores that run
      in from another block the bytes are then those the load-locked access
      left; the memories of a system behave as one flat memory
      over the union of their ranges; a checkpoint restores bytes and
      reservations.  Memories that share a backing store alias, and their
      reservations do not: both are proved.
    - Simple memory: whatever the order of requests, retries, refused
      responses and events, no check fails, requests are served in the order
      they are taken, the two events are scheduled exactly when there is
      work, and responses to one address leave in the order of their
      requests.
    - Caches: the tag store refines a map from block addresses to entries,
      with any indexing and replacement policy; what each policy evicts; the
      set of an address and back; a store-conditional on a block.  A
      non-coherent cache, with any policies and over any memory side, is
      transparent: a sequence of accesses gets the answers of a flat memory,
      in which a store-conditional succeeds only with a reservation
      ([cache_transparent]); functional accesses see and change the same
      bytes, and writing back and invalidating everything leaves them in the
      memory below.  A cache keeps the promises of a memory side, so these
      hold for stacks of caches.  The one case they exclude, an access
      before the write-back of the temporary block, is proved to return
      stale data.
    - Fully associative tags: the chain of pointers, the hash table and the
      boundaries of the smaller caches stand for a list in order of last use
      ([fa_lru_refines]), and the consistency check of the debug build
      passes.  The hits counted for the smaller caches are those of the
      whole cache ([tracked_caches_count_alike]), and a tracked cache of one
      block follows a null pointer: both are proved.
    - Miss registers and queues: whatever is deferred, snooped or promoted,
      the requests of a register are served once each and in their order of
      arrival, and no check fails before a call of [promoteWritable] that its
      own assertion stops ([mshr_serves_in_order]); the lists and counters of
      the queue agree with the state of its registers up to such a call
      ([mshr_queue_consistent]).  A delayed register blocks the queue, and a
      clean between two writes reaches an assertion: both are proved.
    - Bridge: while its peers keep the port protocol no check fails, queues
      stay within their limits, packets leave in order, none is lost, each
      no earlier than its delay, and a refused request is told to try again.
    - Event queue: the pointer structure refines a list sorted by time and
      priority and serves it in order.
    - Whole system: the main loop over the event queue, called as the handlers
      of the controller change the flags of their events, drives the controller
      through reachable states only, the queue holds exactly the controller's
      events beside those of the others, its calls of the queue succeed, and a
      run without new requests is bounded by [workload] and ends with every
      accepted request served.

    ** Bounds and fuel

    Recursion that is not structural carries a number of iterations and gives
    [Diverge] when it runs out; each theorem shows the number suffices.
    [Sys.skip_fuel] is the number of pages of the NVM window and two;
    [page_fuel] one iteration per page; [chunks] one per byte;
    [single_loop] one per recorded command; [multi_loop] three per command
    window up to the last recorded command and eight more ([multi_fuel]);
    [find_bin] and [unlink] the size of the event store; [power_loop] the 32
    bits of the exponent; the list walk of [remapRegion] every area and the
    pieces it appends; [write_passes] one pass per [INT_MAX] bytes and one
    more; [read_chunks] one chunk per byte of the file and one more; the
    walks up and down a tree of [TreePLRU] 64 and 65 levels; the second
    chance search one step per entry and one more; the walks along the chain
    of the fully associative tags one step per block.  [extendMmap] has no bound in
    the code and takes its fuel as an argument: the theorem holds for any fuel that
    reaches the first free slot.  Integers wrap at the width of their C++
    type except simulated time, which is unbounded here: runs are taken to
    stay below [MaxTick] ([fits], [in_time]).

    ** Assumptions

    The host's files and [mmap] are the parameter [Vma.Host].  The
    controller has an NVM interface only ([dram == nullptr]), one priority
    level and no QoS policy in the theorems on runs, and a configuration
    satisfying [cfg_ok], which an example instance meets.  The host's [mmap]
    gives fresh zeroed memory, a shared segment is one object, and the
    compressed file of a checkpoint reads back as it was written.  The peer of
    a packet queue accepts or refuses a packet and puts nothing in the queue
    while it decides, and a memory-side peer of a crossbar does not call it
    while it is offered a request.  A peer of a simple memory that refuses a
    response sends it no request in the same call.  The event of a cache that
    writes back its temporary block runs before the next access, and the
    ticks of an access are below 2^62.  The peers of a bridge retry after a
    refusal only and answer requests it sent; a miss register is sent when
    none of its requests is in service and answered when one is, snoops are
    fresh requests, and a prefetch is squashed when it is alone in its
    register.  The caches above a snoop filter follow the protocol of
    [SF.allowed].  Where the code reads a deleted packet
    ([processRespondEvent]) the packet is taken to be unchanged, and the end
    of an empty list to precede itself ([SimpleMemory::recvTimingReq]); both are
    undefined in C++ and noted where they are modelled.

    ** Not modelled

    DRAM energy and its power-down modes' statistics; the DRAM interface
    inside the controller's own loop (each is modelled alone); the timing
    mode of the caches, whose queues are modelled alone, coherence, prefetchers
    and compressors; sector tags; the coherent
    crossbar, Ruby, CPUs, instruction sets, devices, GPU, SystemC; process
    creation and system call decoding; QoS policies and turnaround
    algorithms; statistics, tracing and TLB flushes (the functional TLB
    keeps no state); asynchronous events between several event queues;
    Python configuration, benchmarks and build files.

    ** Plan

    Next: the timing mode of the non-coherent cache over its queues;
    snooping over the layers of the crossbar and the snoop filter; the DRAM
    interface beside the NVM one in the same controller; QoS policies;
    process cloning. *)

From stdpp Require Export prelude gmap strings.
From Stdlib Require Export ZArith Lia Bool.

#[export] Set Default Goal Selector "!".
Global Open Scope Z_scope.

(** ** Outcomes of a C++ call

    A gem5 routine either returns or stops the simulator through [assert],
    [panic] (internal error) or [fatal] (user error).  [Diverge] is what a
    loop modelled with a bound on its iterations gives when the bound is
    exhausted; the theorems show where it cannot happen.  [Undef] marks an
    operation the C++ standard leaves undefined (a shift by the width of the
    type or more). *)
Inductive failure := AssertFail | PanicFail | FatalFail | Diverge | Undef.

#[export] Instance failure_eq_dec : EqDecision failure.
Proof. solve_decision. Defined.

Inductive res (A : Type) :=
| Ok (a : A)
| Err (f : failure).
Arguments Ok {A} a.
Arguments Err {A} f.

#[export] Instance res_ret : MRet res := @Ok.
#[export] Instance res_bind : MBind res := λ A B f r,
  match r with Ok a => f a | Err e => Err e end.
#[export] Instance res_fmap : FMap res := λ A B f r,
  match r with Ok a => Ok (f a) | Err e => Err e end.

#[export] Instance res_eq_dec `{EqDecision A} : EqDecision (res A).
Proof. solve_decision. Defined.

Definition assertb (b : bool) : res unit := if b then Ok tt else Err AssertFail.
Definition panic_if (b : bool) : res unit := if b then Err PanicFail else Ok tt.
Definition fatal_if (b : bool) : res unit := if b then Err FatalFail else Ok tt.

(** State passing with failure: the monad of the stateful components. *)
Definition stM (S A : Type) : Type := S → res (A * S).
#[export] Instance stM_ret {S} : MRet (stM S) := λ A a s, Ok (a, s).
#[export] Instance stM_bind {S} : MBind (stM S) := λ A B f m s,
  match m s with Ok (a, s') => f a s' | Err e => Err e end.
Definition get_st {S} : stM S S := λ s, Ok (s, s).
Definition put_st {S} (s' : S) : stM S unit := λ _, Ok (tt, s').
Definition lift {S A} (r : res A) : stM S A := λ s,
  match r with Ok a => Ok (a, s) | Err e => Err e end.
Definition modify {S} (f : S → S) : stM S unit := λ s, Ok (tt, f s).

(** ** Fixed width integers *)
Definition u64 (x : Z) : Z := x mod 2 ^ 64.
Definition u32 (x : Z) : Z := x mod 2 ^ 32.
Definition u16 (x : Z) : Z := x mod 2 ^ 16.
Definition u8 (x : Z) : Z := x mod 2 ^ 8.
(** Conversion to a w-bit two's complement value. *)
Definition wrap_s (w x : Z) : Z := (x + 2 ^ (w - 1)) mod 2 ^ w - 2 ^ (w - 1).
Definition s32 (x : Z) : Z := wrap_s 32 x.
Definition s64 (x : Z) : Z := wrap_s 64 x.
Definition not64 (x : Z) : Z := u64 (Z.lnot x).
Definition shl64 (x n : Z) : Z := u64 (Z.shiftl x n).

Definition is_u64 (x : Z) : Prop := 0 ≤ x < 2 ^ 64.

Arguments u64 : simpl never.
Arguments u32 : simpl never.
Arguments u16 : simpl never.
Arguments u8 : simpl never.
Arguments wrap_s : simpl never.
Arguments not64 : simpl never.
Arguments shl64 : simpl never.

(** ** Automation *)
Create HintDb gem5.
Create Rewrite HintDb zbits.

(** Splits the boolean conditions of the model into propositions. *)
Ltac bool_to_prop :=
  repeat match goal with
  | H : _ && _ = true |- _ => apply andb_true_iff in H as [? ?]
  | H : _ || _ = false |- _ => apply orb_false_iff in H as [? ?]
  | H : negb _ = true |- _ => apply negb_true_iff in H
  | H : negb _ = false |- _ => apply negb_false_iff in H
  | H : _ && _ = false |- _ => apply andb_false_iff in H
  | H : _ || _ = true |- _ => apply orb_true_iff in H
  | H : (_ <=? _) = true |- _ => apply Z.leb_le in H
  | H : (_ <=? _) = false |- _ => apply Z.leb_gt in H
  | H : (_ <? _) = true |- _ => apply Z.ltb_lt in H
  | H : (_ <? _) = false |- _ => apply Z.ltb_ge in H
  | H : (_ =? _) = true |- _ => apply Z.eqb_eq in H
  | H : (_ =? _) = false |- _ => apply Z.eqb_neq in H
  end.

(** Case analysis on the innermost condition of the goal. *)
Ltac case_if :=
  match goal with
  | |- context [if ?b then _ else _] =>
      lazymatch b with context [if _ then _ else _] => fail | _ => destruct b eqn:? end
  end; bool_to_prop.

(** A hypothesis that a sequence of [res] calls returned, taken apart. *)
Ltac inv_ok :=
  repeat match goal with
  | x : unit |- _ => destruct x
  | H : Ok _ = Ok _ |- _ => injection H as H; subst
  | H : Err _ = Ok _ |- _ => discriminate H
  | H : Ok _ = Err _ |- _ => discriminate H
  | H : Err _ = Err _ |- _ => injection H as H; subst
  | H : (_, _) = (_, _) |- _ => injection H as ? ?; subst
  | H : assertb ?b = Ok _ |- _ =>
      unfold assertb in H; let E := fresh "Has" in destruct b eqn:E; [|discriminate H]
  | H : panic_if ?b = Ok _ |- _ =>
      unfold panic_if in H; let E := fresh "Hpa" in destruct b eqn:E; [discriminate H|]
  | H : fatal_if ?b = Ok _ |- _ =>
      unfold fatal_if in H; let E := fresh "Hfa" in destruct b eqn:E; [discriminate H|]
  | H : mbind _ ?m = Ok _ |- _ =>
      unfold mbind, res_bind in H; let E := fresh "Hm" in
      destruct m eqn:E; [|discriminate H]
  | H : (match ?m with Ok _ => _ | Err _ => _ end) = Ok _ |- _ =>
      let E := fresh "Hm" in destruct m eqn:E; [|discriminate H]
  end.

(** One call of such a sequence. *)
Lemma bind_ok {A B} (f : A → res B) (m : res A) b : mbind f m = Ok b → ∃ a, m = Ok a ∧ f a = Ok b.
Proof. destruct m as [a|]; [by exists a|done]. Qed.

(** ** Integers *)
Lemma u64_range x : 0 ≤ u64 x < 2 ^ 64.
Proof. unfold u64. apply Z.mod_pos_bound. lia. Qed.

Lemma u64_small x : 0 ≤ x < 2 ^ 64 → u64 x = x.
Proof. intros. unfold u64. by apply Z.mod_small. Qed.

Lemma u32_range x : 0 ≤ u32 x < 2 ^ 32.
Proof. unfold u32. apply Z.mod_pos_bound. lia. Qed.

Lemma u32_small x : 0 ≤ x < 2 ^ 32 → u32 x = x.
Proof. intros. unfold u32. by apply Z.mod_small. Qed.

Lemma u8_small x : 0 ≤ x < 2 ^ 8 → u8 x = x.
Proof. intros. unfold u8. by apply Z.mod_small. Qed.

Lemma u64_idemp x : u64 (u64 x) = u64 x.
Proof. apply u64_small, u64_range. Qed.

Lemma u64_add_l x y : u64 (u64 x + y) = u64 (x + y).
Proof. unfold u64. apply Zplus_mod_idemp_l. Qed.

Lemma u64_add_r x y : u64 (x + u64 y) = u64 (x + y).
Proof. unfold u64. apply Zplus_mod_idemp_r. Qed.

Lemma u64_sub_l x y : u64 (u64 x - y) = u64 (x - y).
Proof. unfold u64. apply Zminus_mod_idemp_l. Qed.

Lemma u64_mul_l x y : u64 (u64 x * y) = u64 (x * y).
Proof. unfold u64. apply Zmult_mod_idemp_l. Qed.

Lemma u64_mul_r x y : u64 (x * u64 y) = u64 (x * y).
Proof. unfold u64. apply Zmult_mod_idemp_r. Qed.

Lemma s32_small x : - 2 ^ 31 ≤ x < 2 ^ 31 → s32 x = x.
Proof. intros. unfold s32, wrap_s. rewrite Z.mod_small; lia. Qed.

Lemma s64_small x : - 2 ^ 63 ≤ x < 2 ^ 63 → s64 x = x.
Proof. intros. unfold s64, wrap_s. rewrite Z.mod_small; lia. Qed.

#[export] Hint Resolve u64_range u32_range : gem5.

(** ** Bits *)
Lemma u64_testbit x i : 0 ≤ i → Z.testbit (u64 x) i = (i <? 64) && Z.testbit x i.
Proof.
  intros Hi. unfold u64. destruct (Z.ltb_spec i 64).
  - by rewrite Z.mod_pow2_bits_low.
  - by rewrite Z.mod_pow2_bits_high by lia.
Qed.

Lemma not64_testbit x i :
  0 ≤ i → Z.testbit (not64 x) i = (i <? 64) && negb (Z.testbit x i).
Proof. intros Hi. unfold not64. rewrite u64_testbit by done. by rewrite Z.lnot_spec. Qed.

Lemma shl64_testbit x n i :
  0 ≤ i → Z.testbit (shl64 x n) i = (i <? 64) && Z.testbit x (i - n).
Proof. intros Hi. unfold shl64. rewrite u64_testbit by done. by rewrite Z.shiftl_spec. Qed.

Lemma testbit_above x n i : 0 ≤ x < 2 ^ n → n ≤ i → Z.testbit x i = false.
Proof.
  intros Hx Hi. destruct (Z.ltb_spec n 0).
  - rewrite Z.pow_neg_r in Hx by lia. lia.
  - rewrite <-(Z.mod_small x (2 ^ n)) by done. apply Z.mod_pow2_bits_high. lia.
Qed.

Lemma ones_testbit n i : 0 ≤ n → 0 ≤ i → Z.testbit (Z.ones n) i = (i <? n).
Proof.
  intros Hn Hi. destruct (Z.ltb_spec i n).
  - apply Z.ones_spec_low. lia.
  - apply Z.ones_spec_high. lia.
Qed.

Lemma pow2_testbit n i : 0 ≤ n → Z.testbit (2 ^ n) i = (i =? n).
Proof.
  intros Hn. destruct (Z.eqb_spec i n) as [->|].
  - apply Z.pow2_bits_true. lia.
  - by apply Z.pow2_bits_false.
Qed.

(** Numbers below [2^n] are those with no bit at [n] or above. *)
Lemma bounded_by_bits x n :
  0 ≤ n → 0 ≤ x → (∀ i, n ≤ i → Z.testbit x i = false) → x < 2 ^ n.
Proof.
  intros Hn Hx Hb. destruct (Z.ltb_spec x (2 ^ n)) as [|Hge]; [done|exfalso].
  assert (0 < x) by lia.
  assert (n ≤ Z.log2 x) by (apply Z.log2_le_pow2; lia).
  pose proof (Z.bit_log2 x ltac:(lia)) as Hbit. rewrite Hb in Hbit by done. done.
Qed.

#[export] Hint Rewrite Z.land_spec Z.lor_spec Z.lxor_spec Z.lnot_spec
  Z.shiftr_spec Z.shiftl_spec u64_testbit not64_testbit shl64_testbit
  ones_testbit pow2_testbit Z.ldiff_spec using lia : zbits.

(** Bit extensionality. *)
Ltac zbits_ext i Hi := apply Z.bits_inj'; intros i Hi; autorewrite with zbits.

(** Decides the comparisons with literals left by [autorewrite with zbits]. *)
Ltac zcmp :=
  repeat match goal with
  | |- context [?a <? ?b] => destruct (Z.ltb_spec a b); try lia
  | |- context [?a <=? ?b] => destruct (Z.leb_spec a b); try lia
  | |- context [?a =? ?b] => destruct (Z.eqb_spec a b); try lia
  end; cbn [andb orb negb]; try lia.
