(* ===== verification/Intmath.v ===== *)
(** * Integer arithmetic helpers ([base/intmath.hh])

    Executable translations of [power], [floorLog2], [ceilLog2],
    [isPowerOf2], [divCeil], [roundUp] and [roundDown] at their machine
    widths, with the mathematical functions they compute. *)

From S2P Require Import Prelude.

(** ** Definitions *)

(** The loop of [power]: square and multiply on [uint64_t]; the exponent is
    32 bits wide and loses one bit per iteration. *)
Fixpoint power_loop (fuel : nat) (result component e : Z) : res Z :=
  if e =? 0 then Ok result else
  match fuel with
  | O => Err Diverge
  | S fuel =>
      let result' := if Z.land e 1 =? 0 then result else u64 (result * component) in
      power_loop fuel result' (u64 (component * component)) (Z.shiftr e 1)
  end.
Definition power (n e : Z) : res Z := power_loop 32 1 n e.

(** [floorLog2] on an integer type of [ts] bytes. *)
Definition floorLog2_step (guard : bool) (m k : Z) (s : Z * Z) : Z * Z :=
  let '(ux, y) := s in
  if guard && negb (Z.land ux m =? 0) then (Z.shiftr ux k, y + k) else (ux, y).
Definition floorLog2 (ts x : Z) : res Z :=
  assertb (0 <? x);;
  let s := floorLog2_step (8 <=? ts) 0xffffffff00000000 32 (x, 0) in
  let s := floorLog2_step (4 <=? ts) 0x00000000ffff0000 16 s in
  let s := floorLog2_step (2 <=? ts) 0x000000000000ff00 8 s in
  let s := floorLog2_step true 0x00000000000000f0 4 s in
  let s := floorLog2_step true 0x000000000000000c 2 s in
  let '(ux, y) := s in
  Ok (if negb (Z.land ux 0x0000000000000002 =? 0) then y + 1 else y).

Definition ceilLog2 (ts n : Z) : res Z :=
  assertb (0 <? n);;
  if n =? 1 then Ok 0 else y ← floorLog2 ts (n - 1); Ok (y + 1).

Definition isPowerOf2 (n : Z) : bool := negb (n =? 0) && (Z.land n (n - 1) =? 0).

(** C++ division truncates towards zero. *)
Definition divCeil (a b : Z) : Z := Z.quot (a + b - 1) b.

(** At [T = uint64_t]. *)
Definition roundUp (val align : Z) : res Z :=
  assertb (isPowerOf2 align);;
  let mask := u64 (align - 1) in Ok (Z.land (u64 (val + mask)) (not64 mask)).

Definition roundDown (val align : Z) : res Z :=
  assertb (isPowerOf2 align);;
  let mask := u64 (align - 1) in Ok (Z.land val (not64 mask)).

(** ** [power] *)

Lemma land_1_mod e : Z.land e 1 = e mod 2.
Proof. change 1 with (Z.ones 1). rewrite Z.land_ones by lia. done. Qed.

Lemma pow_mod_base x n m : 0 ≤ n → m ≠ 0 → (x mod m) ^ n mod m = x ^ n mod m.
Proof.
  intros Hn Hm. pattern n. apply natlike_ind; [| |exact Hn].
  - by rewrite !Z.pow_0_r.
  - intros k Hk IH. rewrite !Z.pow_succ_r by done.
    rewrite <-Zmult_mod_idemp_r, IH, Zmult_mod_idemp_l, Zmult_mod_idemp_r. done.
Qed.

Lemma power_loop_spec fuel r c e :
  0 ≤ r < 2 ^ 64 → 0 ≤ e < 2 ^ Z.of_nat fuel →
  power_loop fuel r c e = Ok (u64 (r * c ^ e)).
Proof.
  revert r c e. induction fuel as [|fuel IH]; intros r c e Hr He; simpl.
  - assert (e = 0) as -> by (simpl in He; lia).
    rewrite Z.pow_0_r, Z.mul_1_r, u64_small by done. done.
  - destruct (Z.eqb_spec e 0) as [->|Hne].
    { rewrite Z.pow_0_r, Z.mul_1_r, u64_small by done. done. }
    rewrite Nat2Z.inj_succ, Z.pow_succ_r in He by lia.
    rewrite Z.shiftr_div_pow2, land_1_mod by lia. change (2 ^ 1) with 2.
    rewrite IH; [|case_if; [done|apply u64_range]|
      split; [apply Z.div_pos; lia|apply Z.div_lt_upper_bound; lia]].
    f_equal. unfold u64.
    rewrite <-Zmult_mod_idemp_r, pow_mod_base, Zmult_mod_idemp_r by (try apply Z.div_pos; lia).
    replace (c * c) with (c ^ 2) by ring.
    rewrite <-Z.pow_mul_r by (try apply Z.div_pos; lia).
    pose proof (Z.div_mod e 2 ltac:(lia)) as Hdm.
    pose proof (Z.mod_pos_bound e 2 ltac:(lia)).
    case_if.
    + f_equal. f_equal. f_equal. lia.
    + rewrite Zmult_mod_idemp_l. f_equal.
      replace (c ^ e) with (c * c ^ (2 * (e / 2))); [ring|].
      rewrite <-Z.pow_succ_r by (assert (0 ≤ e / 2) by (apply Z.div_pos; lia); lia).
      f_equal. lia.
Qed.

(** ** Logarithms *)

Lemma log2_shiftr x k : 0 ≤ k → 2 ^ k ≤ x → Z.log2 (Z.shiftr x k) = Z.log2 x - k.
Proof.
  intros Hk Hx. rewrite Z.log2_shiftr by lia.
  assert (k ≤ Z.log2 x) by (apply Z.log2_le_pow2; lia). lia.
Qed.

(** A mask of [2k] bits with the low [k] cleared tests whether [x >= 2^k]. *)
Lemma land_high_mask x k :
  0 ≤ k → 0 ≤ x < 2 ^ (2 * k) →
  (Z.land x (Z.shiftl (Z.ones k) k) =? 0) = (x <? 2 ^ k).
Proof.
  intros Hk Hx.
  assert (Z.land x (Z.shiftl (Z.ones k) k) = Z.shiftl (Z.shiftr x k) k) as ->.
  { zbits_ext i Hi. destruct (Z.ltb_spec i k).
    - rewrite (Z.testbit_neg_r (Z.ones k)) by lia.
      rewrite (Z.testbit_neg_r (Z.shiftr x k)) by lia. by rewrite andb_false_r.
    - rewrite ones_testbit, Z.shiftr_spec by lia. replace (i - k + k) with i by lia.
      destruct (Z.ltb_spec (i - k) k); [by rewrite andb_true_r|].
      rewrite (testbit_above x (2 * k)) by lia. done. }
  rewrite Z.shiftl_mul_pow2, Z.shiftr_div_pow2 by lia.
  assert (0 < 2 ^ k) by lia.
  destruct (Z.ltb_spec x (2 ^ k)).
  - rewrite Z.div_small by lia. done.
  - apply Z.eqb_neq. assert (1 ≤ x / 2 ^ k) by (apply Z.div_le_lower_bound; lia). nia.
Qed.

Lemma floorLog2_step_spec (g : bool) m k ux y :
  0 < k → m = Z.shiftl (Z.ones k) k → 0 < ux < 2 ^ (2 * k) →
  (g = false → ux < 2 ^ k) →
  ∃ ux' y', floorLog2_step g m k (ux, y) = (ux', y') ∧
    0 < ux' < 2 ^ k ∧ ux' ≤ ux ∧ y' + Z.log2 ux' = y + Z.log2 ux.
Proof.
  intros Hk -> Hux Hg. unfold floorLog2_step. rewrite land_high_mask by lia.
  assert (0 < 2 ^ k) by lia.
  destruct (Z.ltb_spec ux (2 ^ k)).
  - rewrite andb_false_r. eexists _, _. split; [done|]. repeat split; lia.
  - destruct g; [|specialize (Hg eq_refl); lia]. cbn [andb negb].
    eexists _, _. split; [done|].
    rewrite log2_shiftr by lia. rewrite Z.shiftr_div_pow2 by lia.
    replace (2 * k) with (k + k) in Hux by lia. rewrite Z.pow_add_r in Hux by lia.
    split; [split; [apply Z.div_str_pos; lia|apply Z.div_lt_upper_bound; lia]|].
    split; [apply Z.div_le_upper_bound; nia|lia].
Qed.

Lemma floorLog2_log2 ts x :
  ts ∈ [1; 2; 4; 8] → 0 < x < 2 ^ (8 * ts) → floorLog2 ts x = Ok (Z.log2 x).
Proof.
  intros Hts Hx. unfold floorLog2.
  rewrite (proj2 (Z.ltb_lt 0 x)) by lia.
  assert (x < 2 ^ 64 ∧ (ts < 8 → x < 2 ^ 32) ∧ (ts < 4 → x < 2 ^ 16) ∧ (ts < 2 → x < 2 ^ 8))
    as (H64 & H32 & H16 & H8).
  { rewrite !elem_of_cons in Hts. destruct Hts as [->|[->|[->|[->|Hn]]]];
      [..|by apply elem_of_nil in Hn]; lia. }
  unfold mbind, res_bind, assertb.
  edestruct (floorLog2_step_spec (8 <=? ts) 0xffffffff00000000 32 x 0)
    as (x1 & y1 & -> & ? & ? & E1); [lia|done|lia|intros; bool_to_prop; lia|].
  edestruct (floorLog2_step_spec (4 <=? ts) 0x00000000ffff0000 16 x1 y1)
    as (x2 & y2 & -> & ? & ? & E2); [lia|done|lia|intros; bool_to_prop; lia|].
  edestruct (floorLog2_step_spec (2 <=? ts) 0x000000000000ff00 8 x2 y2)
    as (x3 & y3 & -> & ? & ? & E3); [lia|done|lia|intros; bool_to_prop; lia|].
  edestruct (floorLog2_step_spec true 0x00000000000000f0 4 x3 y3)
    as (x4 & y4 & -> & ? & ? & E4); [lia|done|lia|done|].
  edestruct (floorLog2_step_spec true 0x000000000000000c 2 x4 y4)
    as (x5 & y5 & -> & Hx5 & ? & E5); [lia|done|lia|done|].
  assert (x5 = 1 ∨ x5 = 2 ∨ x5 = 3) as [-> | [-> | -> ]] by lia;
    simpl in *; f_equal; lia.
Qed.

Lemma log2_up_pred n : 1 < n → Z.log2_up n = Z.log2 (n - 1) + 1.
Proof.
  intros. rewrite Z.log2_up_eqn by lia.
  replace (Z.pred n) with (n - 1) by lia. lia.
Qed.

Lemma ceilLog2_log2_up ts n :
  ts ∈ [1; 2; 4; 8] → 0 < n < 2 ^ (8 * ts) → ceilLog2 ts n = Ok (Z.log2_up n).
Proof.
  intros Hts Hn. unfold ceilLog2, mbind, res_bind, assertb.
  rewrite (proj2 (Z.ltb_lt 0 n)) by lia.
  destruct (Z.eqb_spec n 1) as [->|]; [done|].
  rewrite floorLog2_log2, log2_up_pred by (done || lia). done.
Qed.

(** ** Powers of two *)

Lemma isPowerOf2_spec n : 0 ≤ n → isPowerOf2 n = true ↔ ∃ k, 0 ≤ k ∧ n = 2 ^ k.
Proof.
  intros Hn. unfold isPowerOf2. rewrite andb_true_iff, negb_true_iff, Z.eqb_neq, Z.eqb_eq.
  split.
  - intros [Hnz Hland]. exists (Z.log2 n). split; [apply Z.log2_nonneg|].
    pose proof (Z.log2_spec n ltac:(lia)) as [Hlo Hhi].
    destruct (Z.eqb_spec n (2 ^ Z.log2 n)) as [|Hne]; [done|exfalso].
    assert (n ≠ 1) by (intros ->; by apply Hne).
    assert (Z.testbit (Z.land n (n - 1)) (Z.log2 n) = true) as Hb.
    { rewrite Z.land_spec, Z.bit_log2 by lia. simpl.
      replace (Z.log2 n) with (Z.log2 (n - 1)); [apply Z.bit_log2; lia|].
      apply Z.log2_unique; [apply Z.log2_nonneg|]. lia. }
    by rewrite Hland, Z.testbit_0_l in Hb.
  - intros (k & Hk & ->). split; [lia|].
    replace (2 ^ k - 1) with (Z.ones k) by (rewrite Z.ones_equiv; lia).
    rewrite Z.land_ones by done. apply Z.mod_same. lia.
Qed.

Lemma isPowerOf2_pow2 k : 0 ≤ k → isPowerOf2 (2 ^ k) = true.
Proof. intros. apply isPowerOf2_spec; [lia|]. eauto. Qed.
#[export] Hint Resolve isPowerOf2_pow2 : gem5.

(** Clearing the low [k] bits of a 64-bit value. *)
Lemma land_not_ones x k :
  0 ≤ k ≤ 64 → 0 ≤ x < 2 ^ 64 → Z.land x (not64 (2 ^ k - 1)) = x - x mod 2 ^ k.
Proof.
  intros Hk Hx. rewrite <-Z.land_ones by lia.
  replace (2 ^ k - 1) with (Z.ones k) by (rewrite Z.ones_equiv; lia).
  assert (Z.land x (not64 (Z.ones k)) = Z.ldiff x (Z.ones k)) as ->.
  { zbits_ext i Hi. destruct (Z.ltb_spec i 64); [done|].
    rewrite (testbit_above x 64) by lia. done. }
  rewrite <-(Z.lor_ldiff_and x (Z.ones k)) at 2.
  rewrite <-Z.lxor_lor, <-Z.add_nocarry_lxor; [lia|..];
    by rewrite <-Z.land_assoc, (Z.land_comm (Z.ones k)) ||
    (apply Z.bits_inj'; intros i Hi; rewrite !Z.land_spec, Z.ldiff_spec, Z.testbit_0_l;
     destruct (Z.testbit x i), (Z.testbit (Z.ones k) i); done).
Qed.

(** Filling the low bits gives the last address of the aligned block. *)
Lemma lor_ones x k : 0 ≤ k → 0 ≤ x → Z.lor x (2 ^ k - 1) = x / 2 ^ k * 2 ^ k + (2 ^ k - 1).
Proof.
  intros Hk Hx. replace (2 ^ k - 1) with (Z.ones k) by (rewrite Z.ones_equiv; lia).
  rewrite <-Z.shiftr_div_pow2, <-Z.shiftl_mul_pow2 by lia.
  assert (Z.land (Z.shiftl (Z.shiftr x k) k) (Z.ones k) = 0) as Hd.
  { zbits_ext i Hi. rewrite Z.testbit_0_l. destruct (Z.ltb_spec i k).
    - by rewrite Z.testbit_neg_r by lia.
    - apply andb_false_r. }
  rewrite Z.add_nocarry_lxor, Z.lxor_lor by done. zbits_ext i Hi.
  destruct (Z.ltb_spec i k); [by rewrite !orb_true_r|]. rewrite !orb_false_r.
  rewrite Z.shiftr_spec by lia. f_equal. lia.
Qed.

Lemma roundDown_spec val k :
  0 ≤ k < 64 → 0 ≤ val < 2 ^ 64 →
  roundDown val (2 ^ k) = Ok (val - val mod 2 ^ k).
Proof.
  intros Hk Hv. unfold roundDown. rewrite isPowerOf2_pow2 by lia.
  unfold mbind, res_bind, assertb.
  assert (2 ^ k < 2 ^ 64) by (apply Z.pow_lt_mono_r; lia).
  rewrite u64_small by lia. by rewrite land_not_ones by lia.
Qed.

Lemma roundUp_spec val k :
  0 ≤ k < 64 → 0 ≤ val → val + 2 ^ k - 1 < 2 ^ 64 →
  roundUp val (2 ^ k) = Ok (val + (- val) mod 2 ^ k).
Proof.
  intros Hk Hv Hov. unfold roundUp. rewrite isPowerOf2_pow2 by lia.
  unfold mbind, res_bind, assertb.
  assert (2 ^ k < 2 ^ 64) by (apply Z.pow_lt_mono_r; lia).
  rewrite (u64_small (2 ^ k - 1)), u64_small by lia. rewrite land_not_ones by lia.
  f_equal. assert (0 < 2 ^ k) by lia.
  set (m := 2 ^ k) in *. clearbody m.
  pose proof (Z.div_mod val m ltac:(lia)). pose proof (Z.mod_pos_bound val m ltac:(lia)).
  destruct (Z.eqb_spec (val mod m) 0) as [E|E].
  - rewrite (Z.mod_opp_l_z val m) by lia.
    replace (val + (m - 1)) with ((m - 1) + (val / m) * m) at 2 by lia.
    rewrite Z_mod_plus_full, Z.mod_small by lia. lia.
  - rewrite (Z.mod_opp_l_nz val m) by lia.
    replace (val + (m - 1)) with ((val mod m - 1) + (val / m + 1) * m) at 2 by lia.
    rewrite Z_mod_plus_full, (Z.mod_small (val mod m - 1)) by lia. lia.
Qed.

Lemma divCeil_spec a b : 0 ≤ a → 0 < b → (divCeil a b - 1) * b < a ≤ divCeil a b * b.
Proof.
  intros Ha Hb. unfold divCeil. rewrite Z.quot_div_nonneg by lia.
  pose proof (Z.div_mod (a + b - 1) b ltac:(lia)).
  pose proof (Z.mod_pos_bound (a + b - 1) b ltac:(lia)). lia.
Qed.

(** ** Theorems *)

(** [power] computes exponentiation modulo [2^64], and its loop ends, for
    every 32-bit base and exponent. *)
Theorem power_correct n e :
  0 ≤ n < 2 ^ 32 → 0 ≤ e < 2 ^ 32 → power n e = Ok (n ^ e mod 2 ^ 64).
Proof. intros Hn He. unfold power. rewrite power_loop_spec by lia. by rewrite Z.mul_1_l. Qed.

Lemma power_correct_witness : power 3 41 = Ok (3 ^ 41 mod 2 ^ 64).
Proof. apply power_correct; lia. Defined.

(** [floorLog2] and [ceilLog2] compute the floor and the ceiling of the
    base-two logarithm for every positive value of an 8, 16, 32 or 64-bit
    type, and stop at the assertion for zero. *)
Theorem log2_correct ts x :
  ts ∈ [1; 2; 4; 8] → 0 ≤ x < 2 ^ (8 * ts) →
  floorLog2 ts x = (if x =? 0 then Err AssertFail else Ok (Z.log2 x)) ∧
  ceilLog2 ts x = (if x =? 0 then Err AssertFail else Ok (Z.log2_up x)).
Proof.
  intros Hts Hx. destruct (Z.eqb_spec x 0) as [->|]; [done|].
  by rewrite floorLog2_log2, ceilLog2_log2_up by (done || lia).
Qed.

Lemma log2_correct_witness :
  floorLog2 4 1000000 = Ok 19 ∧ ceilLog2 4 1000000 = Ok 20.
Proof. apply (log2_correct 4 1000000); [by vm_compute; repeat constructor|lia]. Defined.

(** For an alignment of [2^k] bytes [roundDown] returns the largest
    multiple of the alignment not above the value and, unless the sum wraps,
    [roundUp] the smallest one not below it; any other alignment stops at the
    assertion. *)
Theorem round_to_multiple val k :
  0 ≤ k < 64 → 0 ≤ val < 2 ^ 64 →
  (∃ d, roundDown val (2 ^ k) = Ok d ∧ (2 ^ k | d) ∧ d ≤ val < d + 2 ^ k) ∧
  (val + 2 ^ k - 1 < 2 ^ 64 →
   ∃ u, roundUp val (2 ^ k) = Ok u ∧ (2 ^ k | u) ∧ u - 2 ^ k < val ≤ u).
Proof.
  intros Hk Hv. assert (0 < 2 ^ k) by lia. split.
  - eexists. split; [by apply roundDown_spec|].
    pose proof (Z.mod_pos_bound val (2 ^ k) ltac:(lia)). split; [|lia].
    exists (val / 2 ^ k). pose proof (Z.div_mod val (2 ^ k) ltac:(lia)). lia.
  - intros Hov. eexists. split; [by apply roundUp_spec; lia|].
    pose proof (Z.mod_pos_bound (- val) (2 ^ k) ltac:(lia)). split; [|lia].
    exists (- (- val / 2 ^ k)). pose proof (Z.div_mod (- val) (2 ^ k) ltac:(lia)). lia.
Qed.

Lemma round_to_multiple_witness :
  (∃ d, roundDown 5000 (2 ^ 12) = Ok d ∧ (2 ^ 12 | d) ∧ d ≤ 5000 < d + 2 ^ 12) ∧
  (5000 + 2 ^ 12 - 1 < 2 ^ 64 →
   ∃ u, roundUp 5000 (2 ^ 12) = Ok u ∧ (2 ^ 12 | u) ∧ u - 2 ^ 12 < 5000 ≤ u).
Proof. apply (round_to_multiple 5000 12); lia. Defined.
