(* ===== verification/Bytes.v ===== *)
(** * Bytes of a memory

    A host buffer is a finite map from offsets to bytes; bytes that were never
    written are zero, as in freshly mapped memory.  [mem_write] and [mem_read]
    are the [memcpy] to and from it. *)

From S2P Require Import Prelude.

(** ** Definitions *)

Fixpoint mem_write (m : gmap Z Z) (a : Z) (data : list Z) : gmap Z Z :=
  match data with
  | [] => m
  | b :: data => mem_write (<[a := b]> m) (a + 1) data
  end.

Fixpoint mem_read (m : gmap Z Z) (a : Z) (n : nat) : list Z :=
  match n with
  | O => []
  | S n => default 0 (m !! a) :: mem_read m (a + 1) n
  end.

(** ** Lemmas *)

Lemma mem_write_lookup m a p x :
  mem_write m a p !! x =
    if (a <=? x) && (x <? a + Z.of_nat (length p)) then p !! Z.to_nat (x - a) else m !! x.
Proof.
  revert m a. induction p as [|b p IH]; intros m a; cbn [mem_write length].
  { by replace ((a <=? x) && (x <? a + Z.of_nat 0)) with false by zcmp. }
  rewrite IH. destruct (Z.eqb_spec x a) as [->|Hne].
  - rewrite (proj2 (Z.leb_gt (a + 1) a)) by lia. simpl.
    rewrite lookup_insert_eq, Z.sub_diag.
    by replace ((a <=? a) && (a <? a + Z.of_nat (S (length p)))) with true by zcmp.
  - rewrite lookup_insert_ne by done.
    replace ((a + 1 <=? x) && (x <? a + 1 + Z.of_nat (length p)))
      with ((a <=? x) && (x <? a + Z.of_nat (S (length p)))) by zcmp.
    case_match; [|done]. bool_to_prop.
    replace (Z.to_nat (x - a)) with (S (Z.to_nat (x - (a + 1)))) by lia. done.
Qed.

Lemma mem_write_app m a p1 p2 :
  mem_write m a (p1 ++ p2) = mem_write (mem_write m a p1) (a + Z.of_nat (length p1)) p2.
Proof.
  revert m a. induction p1 as [|b p1 IH]; intros m a; cbn [mem_write length app].
  - by rewrite Z.add_0_r.
  - rewrite IH. f_equal. lia.
Qed.

Lemma mem_read_length m a n : length (mem_read m a n) = n.
Proof. revert a. induction n as [|n IH]; intros a; simpl; [done|by rewrite IH]. Qed.

Lemma mem_read_lookup m a n (i : nat) :
  (i < n)%nat → mem_read m a n !! i = Some (default 0 (m !! (a + Z.of_nat i))).
Proof.
  revert a i. induction n as [|n IH]; intros a i Hi; [lia|]. simpl. destruct i as [|i].
  - by rewrite Z.add_0_r.
  - simpl. rewrite IH by lia. do 3 f_equal. lia.
Qed.

Lemma mem_read_app m a n1 n2 :
  mem_read m a (n1 + n2) = mem_read m a n1 ++ mem_read m (a + Z.of_nat n1) n2.
Proof.
  revert a. induction n1 as [|n1 IH]; intros a; simpl; [by rewrite Z.add_0_r|].
  rewrite IH. do 3 f_equal. lia.
Qed.

(** What was written is read back. *)
Lemma mem_read_write m a p : mem_read (mem_write m a p) a (length p) = p.
Proof.
  apply list_eq. intros k. destruct (decide (k < length p)%nat) as [Hk|Hk].
  - rewrite mem_read_lookup, mem_write_lookup by done.
    replace ((a <=? a + Z.of_nat k) && (a + Z.of_nat k <? a + Z.of_nat (length p))) with true by zcmp.
    replace (Z.to_nat (a + Z.of_nat k - a)) with k by lia.
    destruct (lookup_lt_is_Some_2 p k Hk) as [x ->]. done.
  - rewrite !lookup_ge_None_2; [done|lia|rewrite mem_read_length; lia].
Qed.

(** A write elsewhere is not seen. *)
Lemma mem_read_write_disjoint m a p b n :
  b + Z.of_nat n ≤ a ∨ a + Z.of_nat (length p) ≤ b → mem_read (mem_write m a p) b n = mem_read m b n.
Proof.
  intros Hd. apply list_eq. intros k. destruct (decide (k < n)%nat) as [Hk|Hk].
  - rewrite !mem_read_lookup, mem_write_lookup by done.
    by replace ((a <=? b + Z.of_nat k) && (b + Z.of_nat k <? a + Z.of_nat (length p))) with false by zcmp.
  - rewrite !lookup_ge_None_2; [done|rewrite mem_read_length; lia..].
Qed.
