(* ===== verification/Clocked.v ===== *)
(** * Clocked objects ([sim/clocked_object.hh])

    A clocked object keeps the tick and the number of the clock edge it last
    asked for, and brings them up to the current tick on demand.  The clock
    period is the one of its clock domain; ticks are unbounded. *)

From S2P Require Import Prelude.
From S2P Require Import Intmath.

Module Clk.

(** ** Definitions *)

Record Clocked := mkClocked { tick : Z; cycle : Z }.

Definition Clocked_new : Clocked := mkClocked 0 0.

Section Clock.
Context (clockPeriod : Z).

Definition update (curTick : Z) (c : Clocked) : Clocked :=
  if curTick <=? tick c then c
  else
    let c := mkClocked (tick c + clockPeriod) (cycle c + 1) in
    if curTick <=? tick c then c
    else
      let elapsedCycles := divCeil (curTick - tick c) clockPeriod in
      mkClocked (tick c + elapsedCycles * clockPeriod) (cycle c + elapsedCycles).

Definition resetClock (curTick : Z) : Clocked :=
  let elapsedCycles := divCeil curTick clockPeriod in
  mkClocked (elapsedCycles * clockPeriod) elapsedCycles.

Definition clockEdge (curTick cycles : Z) (c : Clocked) : Z * Clocked :=
  let c := update curTick c in (tick c + clockPeriod * cycles, c).
Definition curCycle (curTick : Z) (c : Clocked) : Z * Clocked :=
  let c := update curTick c in (cycle c, c).
Definition nextCycle (curTick : Z) (c : Clocked) : Z * Clocked := clockEdge curTick 1 c.
Definition ticksToCycles (t : Z) : Z := divCeil t clockPeriod.
Definition cyclesToTicks (n : Z) : Z := clockPeriod * n.

(** ** The clock edges *)

(** The start of the first cycle that has not begun before a tick. *)
Definition edge (curTick cycles : Z) : Z := divCeil curTick clockPeriod * clockPeriod + clockPeriod * cycles.

Lemma edge_bounds t n : 0 < clockPeriod → 0 ≤ t → 
  t + clockPeriod * n ≤ edge t n < t + clockPeriod * (n + 1).
Proof. intros Hp Ht. pose proof (divCeil_spec t clockPeriod Ht Hp). unfold edge. lia. Qed.

(** The kept edge is a multiple of the period and not beyond the next edge. *)
Definition in_step (curTick : Z) (c : Clocked) : Prop :=
  tick c = cycle c * clockPeriod ∧ 0 ≤ tick c < curTick + clockPeriod.

Lemma in_step_later t t' c : in_step t c → t ≤ t' → in_step t' c.
Proof. intros [? ?] ?. split; [done|lia]. Qed.

Lemma divCeil_unique a p k : 0 ≤ a → 0 < p → (k - 1) * p < a ≤ k * p → divCeil a p = k.
Proof.
  intros Ha Hp Hk. pose proof (divCeil_spec a p Ha Hp) as Hd.
  assert (k - 1 < divCeil a p) by (apply (Z.mul_lt_mono_pos_r p); lia).
  assert (divCeil a p - 1 < k) by (apply (Z.mul_lt_mono_pos_r p); lia). lia.
Qed.

(** Whatever was kept, [update] ends at the next edge. *)
Lemma update_spec t c : 0 < clockPeriod → 0 ≤ t → in_step t c →
  update t c = mkClocked (edge t 0) (divCeil t clockPeriod).
Proof.
  intros Hp Ht [Hc Hb]. unfold edge. rewrite Z.mul_0_r, Z.add_0_r.
  assert (Hdone : ∀ c', tick c' = cycle c' * clockPeriod → t ≤ tick c' < t + clockPeriod →
    c' = mkClocked (divCeil t clockPeriod * clockPeriod) (divCeil t clockPeriod)).
  { intros [tk cy] Htk Hbnd. simpl in *. rewrite (divCeil_unique t clockPeriod cy) by lia. by rewrite Htk. }
  unfold update. destruct (Z.leb_spec t (tick c)); [by apply Hdone; [|lia]|]. cbn [tick cycle].
  destruct (Z.leb_spec t (tick c + clockPeriod)).
  - apply Hdone; simpl; lia.
  - pose proof (divCeil_spec (t - (tick c + clockPeriod)) clockPeriod ltac:(lia) Hp).
    apply Hdone; simpl; lia.
Qed.

Lemma update_in_step t c : 0 < clockPeriod → 0 ≤ t → in_step t c → in_step t (update t c).
Proof.
  intros Hp Ht Hc. rewrite update_spec by done. pose proof (edge_bounds t 0 Hp Ht). split; simpl; [unfold edge|]; lia.
Qed.

(** The answer of [clockEdge] depends on the time only, not on when the object
    was last asked: it is the first edge not before now, and so many cycles
    more. *)
Lemma clockEdge_spec t n c : 0 < clockPeriod → 0 ≤ t → in_step t c →
  clockEdge t n c = (edge t n, update t c).
Proof.
  intros Hp Ht Hc. unfold clockEdge. f_equal. rewrite update_spec by done. unfold edge. simpl. lia.
Qed.

End Clock.
End Clk.
