(* ===== verification/EventQueue.v ===== *)
(** * The event queue ([sim/eventq.hh], [sim/eventq.cc])

    Scheduled events are kept in a list of bins, one per time and priority,
    each bin a stack.  The list runs through two pointers of the events
    themselves: [nextInBin] down a bin and [nextBin] from the top of a bin to
    the top of the next; [nextBin] of an event that is not on top is stale.
    The events live in a store here, so that the stale pointers are kept.
    The queue is shown to implement a list sorted by time and priority. *)

From stdpp Require Import sorting.
From S2P Require Import Prelude.

Module EQ.

(** ** Definitions *)

Definition Key : Type := Z * Z.

Record Event := mkEvent {
  e_when : Z;
  e_priority : Z;
  nextBin : option Z;
  nextInBin : option Z;
  e_scheduled : bool;
  e_squashed : bool;
}.

Definition key (e : Event) : Key := (e_when e, e_priority e).

(** [operator<], [operator<=] and [operator==] on events. *)
Definition key_ltb (l r : Key) : bool :=
  (fst l <? fst r) || ((fst l =? fst r) && (snd l <? snd r)).
Definition key_leb (l r : Key) : bool :=
  (fst l <? fst r) || ((fst l =? fst r) && (snd l <=? snd r)).
Definition key_eqb (l r : Key) : bool := (fst l =? fst r) && (snd l =? snd r).

Record EventQueue := mkQueue {
  store : gmap Z Event;
  head : option Z;
  curTick : Z;
}.

(** Dereferencing an event pointer. *)
Definition deref (h : gmap Z Event) (x : Z) : res Event :=
  match h !! x with Some e => Ok e | None => Err Undef end.

Definition set_nextBin (p : option Z) (e : Event) : Event :=
  mkEvent (e_when e) (e_priority e) p (nextInBin e) (e_scheduled e) (e_squashed e).
Definition set_nextInBin (p : option Z) (e : Event) : Event :=
  mkEvent (e_when e) (e_priority e) (nextBin e) p (e_scheduled e) (e_squashed e).
Definition set_flags (sch sq : bool) (e : Event) : Event :=
  mkEvent (e_when e) (e_priority e) (nextBin e) (nextInBin e) sch sq.
Definition setWhen (t : Z) (e : Event) : Event :=
  mkEvent t (e_priority e) (nextBin e) (nextInBin e) (e_scheduled e) (e_squashed e).

(** [event] becomes the top of its bin. *)
Definition insertBefore (h : gmap Z Event) (event : Z) (curr : option Z) : res (gmap Z Event) :=
  e ← deref h event;
  match curr with
  | None => Ok (<[event := set_nextBin None (set_nextInBin None e)]> h)
  | Some c =>
      ce ← deref h c;
      if key_ltb (key e) (key ce)
      then Ok (<[event := set_nextBin (Some c) (set_nextInBin None e)]> h)
      else Ok (<[event := set_nextBin (nextBin ce) (set_nextInBin (Some c) e)]> h)
  end.

(** [while (curr && *curr < *event)]: the last bin before [k] and the next. *)
Fixpoint find_bin (fuel : nat) (h : gmap Z Event) (k : Key) (prev : Z) (curr : option Z) :
    res (Z * option Z) :=
  match curr with
  | None => Ok (prev, None)
  | Some c =>
      ce ← deref h c;
      if key_ltb (key ce) k then
        match fuel with O => Err Diverge | S fuel => find_bin fuel h k c (nextBin ce) end
      else Ok (prev, Some c)
  end.

Definition insert (q : EventQueue) (event : Z) : res EventQueue :=
  let h := store q in
  e ← deref h event;
  at_head ← match head q with
            | None => Ok true
            | Some hd => he ← deref h hd; Ok (key_leb (key e) (key he))
            end;
  match at_head, head q with
  | true, hd => h ← insertBefore h event hd; Ok (mkQueue h (Some event) (curTick q))
  | false, Some hd =>
      he ← deref h hd;
      '(prev, curr) ← find_bin (size h) h (key e) hd (nextBin he);
      h ← insertBefore h event curr;
      pe ← deref h prev;
      Ok (mkQueue (<[prev := set_nextBin (Some event) pe]> h) (head q) (curTick q))
  | false, None => Err Undef
  end.

(** The walk of [removeItem] down the bin. *)
Fixpoint unlink (fuel : nat) (h : gmap Z Event) (event curr : Z) (next : option Z) :
    res (gmap Z Event) :=
  match next with
  | None => Err PanicFail
  | Some n =>
      ne ← deref h n;
      if n =? event then
        ce ← deref h curr; Ok (<[curr := set_nextInBin (nextInBin ne) ce]> h)
      else
        match fuel with O => Err Diverge | S fuel => unlink fuel h event n (nextInBin ne) end
  end.

(** The new top of the bin of [top], and the store. *)
Definition removeItem (h : gmap Z Event) (event top : Z) : res (option Z * gmap Z Event) :=
  te ← deref h top;
  if event =? top then
    match nextInBin te with
    | None => Ok (nextBin te, h)
    | Some n => ne ← deref h n; Ok (Some n, <[n := set_nextBin (nextBin te) ne]> h)
    end
  else h ← unlink (size h) h event top (nextInBin te); Ok (Some top, h).

Definition remove (q : EventQueue) (event : Z) : res EventQueue :=
  let h := store q in
  match head q with
  | None => Err PanicFail
  | Some hd =>
      e ← deref h event;
      he ← deref h hd;
      if key_eqb (key he) (key e) then
        '(hd, h) ← removeItem h event hd; Ok (mkQueue h hd (curTick q))
      else
        '(prev, curr) ← find_bin (size h) h (key e) hd (nextBin he);
        match curr with
        | None => Err PanicFail
        | Some c =>
            ce ← deref h c;
            panic_if (negb (key_eqb (key ce) (key e)));;
            '(top, h) ← removeItem h event c;
            pe ← deref h prev;
            Ok (mkQueue (<[prev := set_nextBin top pe]> h) (head q) (curTick q))
        end
  end.

Definition update (f : Event → Event) (x : Z) (q : EventQueue) : EventQueue :=
  mkQueue (alter f x (store q)) (head q) (curTick q).

Definition schedule (q : EventQueue) (event t : Z) : res EventQueue :=
  assertb (curTick q <=? t);;
  e ← deref (store q) event;
  assertb (negb (e_scheduled e));;
  q ← insert (update (setWhen t) event q) event;
  Ok (update (λ e, set_flags true (e_squashed e) e) event q).

Definition deschedule (q : EventQueue) (event : Z) : res EventQueue :=
  e ← deref (store q) event;
  assertb (e_scheduled e);;
  q ← remove q event;
  Ok (update (set_flags false false) event q).

Definition reschedule (q : EventQueue) (event t : Z) (always : bool) : res EventQueue :=
  assertb (curTick q <=? t);;
  e ← deref (store q) event;
  assertb (always || e_scheduled e);;
  q ← (if e_scheduled e then remove q event else Ok q);
  q ← insert (update (setWhen t) event q) event;
  Ok (update (set_flags true false) event q).

(** Takes the first event off the queue; its [process()] is the caller's. *)
Definition serviceOne (q : EventQueue) : res (Z * bool * EventQueue) :=
  match head q with
  | None => Err Undef
  | Some event =>
      let h := alter (λ e, set_flags false (e_squashed e) e) event (store q) in
      e ← deref h event;
      '(hd, h) ← match nextInBin e with
                 | Some n => ne ← deref h n; Ok (Some n, <[n := set_nextBin (nextBin e) ne]> h)
                 | None => Ok (nextBin e, h)
                 end;
      if negb (e_squashed e) then Ok (event, true, mkQueue h hd (e_when e))
      else Ok (event, false,
               mkQueue (alter (λ e, set_flags (e_scheduled e) false e) event h) hd (curTick q))
  end.

(** ** Specification: a list sorted by time and priority *)

(** A new event goes before the events of the same time and priority. *)
Fixpoint abs_insert (k : Key) (x : Z) (l : list (Key * Z)) : list (Key * Z) :=
  match l with
  | [] => [(k, x)]
  | (k', y) :: l' => if key_ltb k' k then (k', y) :: abs_insert k x l' else (k, x) :: l
  end.

Definition abs_remove (x : Z) (l : list (Key * Z)) : list (Key * Z) :=
  filter (λ p, snd p ≠ x) l.

(** *** Bins *)

Abbreviation Bin := (Key * list Z)%type.

Definition ids (bs : list Bin) : list Z := concat (snd <$> bs).
Definition flatten (bs : list Bin) : list (Key * Z) := concat ((λ b : Bin, (b.1,.) <$> b.2) <$> bs).

Definition klt (a b : Key) : Prop := fst a < fst b ∨ (fst a = fst b ∧ snd a < snd b).
Definition bins_sorted (bs : list Bin) : Prop := StronglySorted klt (fst <$> bs).

(** The stack [l] of events with key [k], from pointer [p]. *)
Fixpoint chain (h : gmap Z Event) (k : Key) (p : option Z) (l : list Z) : Prop :=
  match l with
  | [] => p = None
  | x :: l => p = Some x ∧ ∃ e, h !! x = Some e ∧ key e = k ∧ chain h k (nextInBin e) l
  end.

(** The bins from pointer [p] to pointer [r]. *)
Fixpoint bseg (h : gmap Z Event) (p : option Z) (bs : list Bin) (r : option Z) : Prop :=
  match bs with
  | [] => p = r
  | (k, l) :: bs =>
      ∃ x e, p = Some x ∧ h !! x = Some e ∧ chain h k (Some x) l ∧ bseg h (nextBin e) bs r
  end.

Record rep (q : EventQueue) (bs : list Bin) : Prop := {
  rep_seg : bseg (store q) (head q) bs None;
  rep_sorted : bins_sorted bs;
  rep_nodup : NoDup (ids bs);
}.

(** The queue holds the events of [l], in the order it will serve them, and
    exactly these are flagged as scheduled. *)
Definition holds (q : EventQueue) (l : list (Key * Z)) : Prop :=
  ∃ bs, rep q bs ∧ l = flatten bs ∧
    ∀ x e, store q !! x = Some e → e_scheduled e = bool_decide (x ∈ ids bs).

(** ** Proofs *)

(** *** Keys *)

Lemma deref_some h x e : h !! x = Some e → deref h x = Ok e.
Proof. intros He. unfold deref. by rewrite He. Qed.

Lemma key_ltb_spec a b : key_ltb a b = true ↔ klt a b.
Proof.
  unfold key_ltb, klt. rewrite orb_true_iff, andb_true_iff, !Z.ltb_lt, Z.eqb_eq. done.
Qed.

Lemma key_ltb_false a b : key_ltb a b = false ↔ ¬ klt a b.
Proof. rewrite <-key_ltb_spec. by destruct (key_ltb a b). Qed.

Lemma key_leb_spec a b : key_leb a b = negb (key_ltb b a).
Proof.
  unfold key_leb, key_ltb.
  destruct (Z.ltb_spec (fst a) (fst b)), (Z.ltb_spec (fst b) (fst a)), (Z.eqb_spec (fst a) (fst b)),
    (Z.eqb_spec (fst b) (fst a)), (Z.leb_spec (snd a) (snd b)), (Z.ltb_spec (snd b) (snd a)); done || lia.
Qed.

Lemma key_eqb_spec a b : key_eqb a b = true ↔ a = b.
Proof.
  unfold key_eqb. rewrite andb_true_iff, !Z.eqb_eq. destruct a, b; cbn. split; [by intros [-> ->]|by intros [= -> ->]].
Qed.

Lemma klt_trans a b c : klt a b → klt b c → klt a c.
Proof. unfold klt. lia. Qed.
Lemma klt_irrefl a : ¬ klt a a.
Proof. unfold klt. lia. Qed.
Lemma klt_total a b : klt a b ∨ a = b ∨ klt b a.
Proof.
  destruct a as [a1 a2], b as [b1 b2]. unfold klt. cbn.
  destruct (Z.lt_trichotomy a1 b1) as [|[->|]]; [lia| |lia].
  destruct (Z.lt_trichotomy a2 b2) as [|[->|]]; [lia| |lia]. right. by left.
Qed.

(** *** Stores *)

(** What the pointer surgery never touches. *)
Definition meta (e : Event) : Key * bool * bool := (key e, e_scheduled e, e_squashed e).
Definition same_meta (h h' : gmap Z Event) : Prop := ∀ y, meta <$> h' !! y = meta <$> h !! y.

Lemma same_meta_insert h x e e' : h !! x = Some e → meta e' = meta e → same_meta h (<[x := e']> h).
Proof.
  intros Hx Hm y. destruct (decide (x = y)) as [<-|].
  - rewrite lookup_insert_eq, Hx. cbn. by rewrite Hm.
  - by rewrite lookup_insert_ne.
Qed.

Lemma same_meta_trans h1 h2 h3 : same_meta h1 h2 → same_meta h2 h3 → same_meta h1 h3.
Proof. intros H1 H2 y. by rewrite H2, H1. Qed.

Definition links (e : Event) : Key * option Z := (key e, nextInBin e).

Lemma chain_frame h h' k p l :
  (∀ x, x ∈ l → links <$> h' !! x = links <$> h !! x) → chain h k p l → chain h' k p l.
Proof.
  revert p. induction l as [|x l IH]; intros p Hf; [done|]. intros (-> & e & He & Hk & Hc). split; [done|].
  pose proof (Hf x ltac:(constructor)) as Hx. rewrite He in Hx. cbn in Hx.
  destruct (h' !! x) as [e'|] eqn:E; [|done]. cbn in Hx.
  assert (key e' = key e ∧ nextInBin e' = nextInBin e) as [Hkey Hnext] by (unfold links in Hx; split; congruence).
  exists e'. split; [done|]. split; [congruence|]. rewrite Hnext. apply IH; [|done].
  intros y Hy. apply Hf. by constructor.
Qed.

Lemma chain_dom h k p l x : chain h k p l → x ∈ l → ∃ e, h !! x = Some e ∧ key e = k.
Proof.
  revert p. induction l as [|y l IH]; intros p Hc Hx; [by apply elem_of_nil in Hx|].
  destruct Hc as (_ & e & He & Hk & Hc). apply elem_of_cons in Hx as [->|Hx]; eauto.
Qed.

Lemma chain_top h k x l : chain h k (Some x) l → ∃ l', l = x :: l'.
Proof. destruct l as [|y l]; [done|]. intros ([= ->] & _). eauto. Qed.

Lemma bseg_app h p bs bs' r : bseg h p (bs ++ bs') r ↔ ∃ m, bseg h p bs m ∧ bseg h m bs' r.
Proof.
  revert p. induction bs as [|[k l] bs IH]; intros p; cbn.
  - split; [by eauto|]. by intros (m & -> & ?).
  - split.
    + intros (x & e & Hp & He & Hc & Hb). apply IH in Hb as (m & ? & ?). exists m. split; [|done]. by exists x, e.
    + intros (m & (x & e & Hp & He & Hc & Hb) & Hb'). exists x, e. do 3 (split; [done|]). apply IH. eauto.
Qed.

Lemma ids_app bs bs' : ids (bs ++ bs') = ids bs ++ ids bs'.
Proof. unfold ids. by rewrite fmap_app, concat_app. Qed.

Lemma ids_cons k l bs : ids ((k, l) :: bs) = l ++ ids bs.
Proof. done. Qed.

(** The bins are unchanged when keys and pointers of their events are. *)
Definition fields (e : Event) : Key * option Z * option Z := (key e, nextInBin e, nextBin e).

Lemma bseg_frame_fields h h' p bs r :
  (∀ x, x ∈ ids bs → fields <$> h' !! x = fields <$> h !! x) → bseg h p bs r → bseg h' p bs r.
Proof.
  revert p. induction bs as [|[k l] bs IH]; intros p Hf; [done|].
  intros (x & e & -> & He & Hc & Hb). destruct (chain_top _ _ _ _ Hc) as [l' ->].
  pose proof (Hf x ltac:(rewrite ids_cons; by constructor)) as Hx. rewrite He in Hx.
  destruct (h' !! x) as [e'|] eqn:E; [|done]. cbn in Hx.
  assert (nextBin e' = nextBin e) as Hn by (unfold fields in Hx; congruence).
  exists x, e'. split; [done|]. split; [done|]. split.
  - eapply chain_frame; [|exact Hc]. intros y Hy. specialize (Hf y).
    rewrite ids_cons, elem_of_app in Hf. specialize (Hf (or_introl Hy)).
    destruct (h' !! y), (h !! y); cbn in *; try done. unfold fields, links in *. congruence.
  - rewrite Hn. apply IH; [|done]. intros y Hy. apply Hf. rewrite ids_cons. apply elem_of_app. by right.
Qed.

Lemma bseg_frame h h' p bs r :
  (∀ x, x ∈ ids bs → h' !! x = h !! x) → bseg h p bs r → bseg h' p bs r.
Proof. intros Hf. apply bseg_frame_fields. intros x Hx. by rewrite Hf. Qed.

Lemma bseg_dom h p bs r x : bseg h p bs r → x ∈ ids bs → is_Some (h !! x).
Proof.
  revert p. induction bs as [|[k l] bs IH]; intros p Hb Hx; [by apply elem_of_nil in Hx|].
  destruct Hb as (y & e & _ & _ & Hc & Hb). rewrite ids_cons in Hx. apply elem_of_app in Hx as [Hx|Hx]; [|eauto].
  destruct (chain_dom _ _ _ _ _ Hc Hx) as (e' & ? & _). eauto.
Qed.

(** There are at most as many bins as events in the store. *)
Lemma bseg_size h p bs r : bseg h p bs r → NoDup (ids bs) → (length (ids bs) ≤ size h)%nat.
Proof.
  intros Hb Hnd. rewrite <-(size_list_to_set (C := gset Z)) by done.
  rewrite <-(size_dom (D := gset Z)). apply subseteq_size. intros x Hx.
  apply elem_of_list_to_set in Hx. apply elem_of_dom. by eapply bseg_dom.
Qed.

Lemma bseg_length h p bs r : bseg h p bs r → (length bs ≤ length (ids bs))%nat.
Proof.
  revert p. induction bs as [|[k l] bs IH]; intros p Hb; [done|].
  destruct Hb as (x & e & _ & _ & Hc & Hb). destruct (chain_top _ _ _ _ Hc) as [l' ->].
  rewrite ids_cons, length_app. specialize (IH _ Hb). cbn. lia.
Qed.

(** Redirecting the [nextBin] of the top of the last bin. *)
Lemma bseg_relink h p bs k x l r r' e :
  bseg h p (bs ++ [(k, x :: l)]) r → NoDup (ids (bs ++ [(k, x :: l)])) → h !! x = Some e →
  bseg (<[x := set_nextBin r' e]> h) p (bs ++ [(k, x :: l)]) r'.
Proof.
  intros Hb Hnd He. apply bseg_app in Hb as (m & Hb & Hl). apply bseg_app. exists m.
  rewrite ids_app in Hnd. apply NoDup_app in Hnd as (_ & Hdis & Hnd). split.
  - eapply bseg_frame; [|exact Hb]. intros y Hy. rewrite lookup_insert_ne; [done|]. intros <-.
    apply (Hdis x Hy). rewrite ids_cons. by constructor.
  - destruct Hl as (y & e' & -> & He' & Hc & _). destruct (chain_top _ _ _ _ Hc) as [l' [= -> ->]].
    eexists y, _. split; [done|]. rewrite lookup_insert_eq. split; [done|]. split; [|done].
    eapply chain_frame; [|exact Hc]. intros z Hz. destruct (decide (y = z)) as [<-|].
    + rewrite lookup_insert_eq, He. done.
    + by rewrite lookup_insert_ne.
Qed.

(** *** Insertion *)

Fixpoint insert_bins (k : Key) (x : Z) (bs : list Bin) : list Bin :=
  match bs with
  | [] => [(k, [x])]
  | (k', l) :: bs' =>
      if key_ltb k' k then (k', l) :: insert_bins k x bs'
      else if key_ltb k k' then (k, [x]) :: bs else (k, x :: l) :: bs'
  end.

Lemma insert_bins_app k x pre post :
  Forall (λ b : Bin, klt (fst b) k) pre → insert_bins k x (pre ++ post) = pre ++ insert_bins k x post.
Proof.
  induction pre as [|[k' l] pre IH]; intros Hf; [done|]. apply Forall_cons in Hf as [Hk Hf]. cbn in *.
  rewrite (proj2 (key_ltb_spec k' k)) by done. by rewrite IH.
Qed.

Lemma ids_insert_bins k x bs : ids (insert_bins k x bs) ≡ₚ x :: ids bs.
Proof.
  induction bs as [|[k' l] bs IH]; [done|]. cbn [insert_bins].
  destruct (key_ltb k' k); [|by destruct (key_ltb k k')].
  rewrite !ids_cons, IH. by rewrite <-Permutation_middle.
Qed.

Lemma keys_insert_bins k x bs k' :
  k' ∈ fst <$> insert_bins k x bs → k' = k ∨ k' ∈ fst <$> bs.
Proof.
  induction bs as [|[k1 l] bs IH]; cbn [insert_bins].
  - intros Hk. apply list_elem_of_singleton in Hk. by left.
  - destruct (key_ltb k1 k); [|destruct (key_ltb k k1)]; cbn; rewrite !elem_of_cons; [|tauto|].
    + intros [->|Hk]; [right; by left|]. destruct (IH Hk); [by left|right; by right].
    + tauto.
Qed.

Lemma insert_bins_sorted k x bs : bins_sorted bs → bins_sorted (insert_bins k x bs).
Proof.
  unfold bins_sorted. induction bs as [|[k1 l] bs IH]; intros Hs; cbn [insert_bins].
  { repeat constructor. }
  inversion Hs as [|? ? Hs' Hall]; subst. destruct (key_ltb k1 k) eqn:E1; [|destruct (key_ltb k k1) eqn:E2].
  - cbn. constructor; [by apply IH|]. apply Forall_forall. intros k' Hk'.
    apply keys_insert_bins in Hk' as [->|Hk']; [by apply key_ltb_spec|]. rewrite Forall_forall in Hall. by apply Hall.
  - apply key_ltb_spec in E2. constructor; [done|]. constructor; [done|].
    eapply Forall_impl; [exact Hall|]. intros k' Hk'. by eapply klt_trans.
  - apply key_ltb_false in E1, E2. destruct (klt_total k k1) as [|[->|]]; done.
Qed.

Lemma flatten_cons k l bs : flatten ((k, l) :: bs) = ((k,.) <$> l) ++ flatten bs.
Proof. done. Qed.

Lemma flatten_insert k x bs :
  bins_sorted bs → Forall (λ b : Bin, snd b ≠ []) bs →
  flatten (insert_bins k x bs) = abs_insert k x (flatten bs).
Proof.
  unfold bins_sorted. induction bs as [|[k1 l] bs IH]; intros Hs Hne; [done|].
  inversion Hs as [|? ? Hs' Hall]; subst. apply Forall_cons in Hne as [Hl Hne]. cbn in Hl.
  cbn [insert_bins]. destruct (key_ltb k1 k) eqn:E1.
  - rewrite !flatten_cons, IH by done. clear -E1. induction l as [|y l IHl]; [done|]. cbn. rewrite E1. by f_equal.
  - destruct l as [|y l]; [done|]. destruct (key_ltb k k1) eqn:E2.
    + rewrite !flatten_cons. cbn. by rewrite E1.
    + apply key_ltb_false in E1, E2. destruct (klt_total k k1) as [|[->|]]; [done| |done].
      rewrite !flatten_cons. cbn. rewrite (proj2 (key_ltb_false k1 k1)) by apply klt_irrefl. done.
Qed.

Lemma bseg_nonempty h p bs r : bseg h p bs r → Forall (λ b : Bin, snd b ≠ []) bs.
Proof.
  revert p. induction bs as [|[k l] bs IH]; intros p Hb; constructor.
  - destruct Hb as (x & e & _ & _ & Hc & _). by destruct (chain_top _ _ _ _ Hc) as [l' ->].
  - destruct Hb as (x & e & _ & _ & _ & Hb). eauto.
Qed.

Lemma insertBefore_spec h x e curr post :
  h !! x = Some e → bseg h curr post None → x ∉ ids post →
  (∀ k l post', post = (k, l) :: post' → ¬ klt k (key e)) →
  ∃ e', insertBefore h x curr = Ok (<[x := e']> h) ∧ meta e' = meta e ∧
    bseg (<[x := e']> h) (Some x) (insert_bins (key e) x post) None.
Proof.
  intros He Hb Hx Hfirst. unfold insertBefore, deref. rewrite He. cbn [mbind res_bind].
  destruct post as [|[k l] post].
  { cbn in Hb. subst curr. eexists. split; [reflexivity|]. split; [done|].
    eexists x, _. split; [done|]. rewrite lookup_insert_eq. split; [done|]. split; [|done].
    split; [done|]. eexists. rewrite lookup_insert_eq. done. }
  specialize (Hfirst k l post eq_refl). cbn [insert_bins]. rewrite (proj2 (key_ltb_false k (key e)) Hfirst).
  pose proof Hb as (c & ce & -> & Hce & Hc & Hrest). destruct (chain_top _ _ _ _ Hc) as [l' ->].
  rewrite Hce. cbn [mbind res_bind].
  assert (key ce = k) as Hk.
  { destruct (chain_dom _ _ _ _ c Hc ltac:(constructor)) as (e1 & He1 & ?). congruence. }
  rewrite Hk. rewrite ids_cons in Hx.
  assert (∀ e', bseg (<[x := e']> h) (Some c) ((k, c :: l') :: post) None) as Hfr.
  { intros e'. eapply bseg_frame; [|exact Hb]. intros y Hy. rewrite lookup_insert_ne; [done|]. intros <-. done. }
  assert (∀ e', chain (<[x := e']> h) k (Some c) (c :: l')) as Hcf.
  { intros e'. eapply chain_frame; [|exact Hc]. intros y Hy. rewrite lookup_insert_ne; [done|].
    intros <-. apply Hx. apply elem_of_app. by left. }
  assert (∀ e', bseg (<[x := e']> h) (nextBin ce) post None) as Hrf.
  { intros e'. eapply bseg_frame; [|exact Hrest]. intros y Hy. rewrite lookup_insert_ne; [done|].
    intros <-. apply Hx. apply elem_of_app. by right. }
  destruct (key_ltb (key e) k) eqn:E; eexists; (split; [reflexivity|]); (split; [done|]).
  - eexists x, _. split; [done|]. rewrite lookup_insert_eq. split; [done|]. split; [|apply Hfr].
    split; [done|]. eexists. rewrite lookup_insert_eq. done.
  - apply key_ltb_false in E. destruct (klt_total k (key e)) as [|[->|]]; [done| |done].
    eexists x, _. split; [done|]. rewrite lookup_insert_eq. split; [done|]. split; [|apply Hrf].
    split; [done|]. eexists. rewrite lookup_insert_eq. split; [done|]. split; [done|]. apply Hcf.
Qed.

(** The walk over the bins: [front] ends with the last bin before [k]. *)
Lemma find_bin_spec fuel h k bs k0 l0 prev pe :
  h !! prev = Some pe → bseg h (nextBin pe) bs None → (length bs ≤ fuel)%nat → klt k0 k →
  ∃ front kp prev' lp curr post, find_bin fuel h k prev (nextBin pe) = Ok (prev', curr) ∧
    (k0, prev :: l0) :: bs = (front ++ [(kp, prev' :: lp)]) ++ post ∧
    Forall (λ b : Bin, klt (fst b) k) (front ++ [(kp, prev' :: lp)]) ∧
    bseg h curr post None ∧ (∀ k1 l1 post', post = (k1, l1) :: post' → ¬ klt k1 k) ∧
    ∃ e, h !! prev' = Some e ∧ nextBin e = curr.
Proof.
  revert fuel k0 l0 prev pe. induction bs as [|[k1 l1] bs IH]; intros fuel k0 l0 prev pe Hp Hb Hf Hk.
  { cbn in Hb. rewrite Hb. destruct fuel; cbn [find_bin]; exists [], k0, prev, l0, None, []; cbn.
    all: split; [done|]; split; [done|]; split; [by apply Forall_singleton|]; split; [done|]; split; [done|]; eauto. }
  pose proof Hb as (c & ce & Hc & Hce & Hch & Hrest). rewrite Hc.
  assert (key ce = k1) as Hk1.
  { destruct (chain_top _ _ _ _ Hch) as [l' ->]. destruct (chain_dom _ _ _ _ c Hch ltac:(constructor)) as (e1 & He1 & ?). congruence. }
  assert (∀ g, find_bin g h k prev (Some c) = if key_ltb k1 k then
    match g with O => Err Diverge | S g => find_bin g h k c (nextBin ce) end else Ok (prev, Some c)) as Hunf.
  { intros g. destruct g; cbn [find_bin]; unfold deref; rewrite Hce; cbn [mbind res_bind]; by rewrite Hk1. }
  rewrite Hunf. destruct (key_ltb k1 k) eqn:E.
  - destruct fuel as [|fuel]; [cbn in Hf; lia|]. apply key_ltb_spec in E.
    destruct (chain_top _ _ _ _ Hch) as [l' ->].
    destruct (IH fuel k1 l' c ce Hce Hrest ltac:(cbn in Hf; lia) E)
      as (front & kp & prev' & lp & curr & post & -> & Heq & Hall & Hrest').
    exists ((k0, prev :: l0) :: front), kp, prev', lp, curr, post. split; [done|].
    split; [exact (f_equal (cons (k0, prev :: l0)) Heq)|]. split; [|done]. apply Forall_cons. by split.
  - exists [], k0, prev, l0, (Some c), ((k1, l1) :: bs). split; [done|]. split; [done|].
    split; [by apply Forall_singleton|]. split; [by rewrite <-Hc|]. split; [|by exists pe].
    intros k2 l2 post' [= <- <- <-]. by apply key_ltb_false.
Qed.

Lemma insert_spec q bs x e :
  rep q bs → store q !! x = Some e → x ∉ ids bs →
  ∃ q', insert q x = Ok q' ∧ rep q' (insert_bins (key e) x bs) ∧ same_meta (store q) (store q') ∧
    curTick q' = curTick q.
Proof.
  intros [Hb Hs Hnd] He Hx. unfold insert. cbv zeta. rewrite (deref_some _ _ _ He). cbn [mbind res_bind].
  assert (NoDup (ids (insert_bins (key e) x bs))) as Hnd' by (rewrite ids_insert_bins; by constructor).
  pose proof (insert_bins_sorted (key e) x bs Hs) as Hs'.
  destruct (match bs with [] => true | (k, _) :: _ => negb (key_ltb k (key e)) end) eqn:Hd.
  - assert (match head q with None => Ok true | Some hd => he ← deref (store q) hd; Ok (key_leb (key e) (key he)) end = Ok true) as ->.
    { destruct bs as [|[k l] bs]; [cbn in Hb; by rewrite Hb|].
      destruct Hb as (c & ce & -> & Hce & Hc & _). unfold deref. rewrite Hce. cbn. f_equal.
      destruct (chain_top _ _ _ _ Hc) as [l' ->].
      destruct (chain_dom _ _ _ _ c Hc ltac:(constructor)) as (e1 & He1 & Hk). assert (e1 = ce) as -> by congruence.
      by rewrite Hk, key_leb_spec. }
    cbn [mbind res_bind].
    destruct (insertBefore_spec (store q) x e (head q) bs He Hb Hx) as (e' & -> & Hm & Hseg).
    { intros k l post' ->. apply negb_true_iff in Hd. by apply key_ltb_false. }
    eexists. split; [reflexivity|]. split; [by constructor|]. split; [|done]. by eapply same_meta_insert.
  - destruct bs as [|[k l] bs]; [done|].
    assert (klt k (key e)) as Hk by (apply key_ltb_spec; by apply negb_false_iff).
    pose proof Hb as (c & ce & Hhd & Hce & Hc & Hrest). destruct (chain_top _ _ _ _ Hc) as [l' ->].
    assert (key ce = k) as Hkc.
    { destruct (chain_dom _ _ _ _ c Hc ltac:(constructor)) as (e1 & He1 & ?). congruence. }
    rewrite Hhd. rewrite !(deref_some _ _ _ Hce). cbn [mbind res_bind]. rewrite Hkc, key_leb_spec.
    rewrite (proj2 (key_ltb_spec k (key e)) Hk). cbn [negb].
    pose proof (bseg_size _ _ _ _ Hb Hnd) as Hsize. pose proof (bseg_length _ _ _ _ Hb) as Hlen.
    destruct (find_bin_spec (size (store q)) (store q) (key e) bs k l' c ce Hce Hrest)
      as (front & kp & prev & lp & curr & post & -> & Heq & Hall & Hpost & Hfirst & pe & Hpe & _);
      [cbn in Hlen, Hsize |- *; lia|done|]. cbn [mbind res_bind].
    rewrite Heq in Hb, Hnd, Hx, Hnd', Hs' |- *. rewrite ids_app in Hnd, Hx. rewrite not_elem_of_app in Hx. destruct Hx as [Hx1 Hx2].
    destruct (insertBefore_spec (store q) x e curr post He Hpost Hx2 Hfirst) as (e' & -> & Hm & Hseg).
    cbn [mbind res_bind].
    assert (x ≠ prev) as Hne.
    { intros ->. apply Hx1. rewrite ids_app, ids_cons. apply elem_of_app. right. by constructor. }
    unfold deref. rewrite lookup_insert_ne by done. rewrite Hpe. cbn [mbind res_bind].
    eexists. split; [reflexivity|]. split; [|split; [|done]].
    + constructor; cbn [store head]; [|done|done]. rewrite insert_bins_app by done. apply bseg_app. exists (Some x).
      apply NoDup_app in Hnd as (Hnd1 & Hdis & _). split.
      * rewrite Hhd in Hb. apply bseg_app in Hb as (m & Hb1 & _).
        eapply bseg_relink; [|done|by rewrite lookup_insert_ne].
        eapply bseg_frame; [|exact Hb1]. intros y Hy. rewrite lookup_insert_ne; [done|]. by intros <-.
      * eapply bseg_frame; [|exact Hseg]. intros y Hy. rewrite lookup_insert_ne; [done|]. intros <-.
        rewrite ids_insert_bins in Hy. apply elem_of_cons in Hy as [->|Hy]; [done|].
        apply (Hdis prev); [|done]. rewrite ids_app, ids_cons. apply elem_of_app. right. by constructor.
    + apply (same_meta_trans _ (<[x := e']> (store q))); [by eapply same_meta_insert|].
      apply (same_meta_insert _ prev pe); [by rewrite lookup_insert_ne|done].
Qed.

(** *** Removal *)

(** The bin [(k, l)] without [x], before [post]. *)
Definition drop_bin (x : Z) (k : Key) (l : list Z) (post : list Bin) : list Bin :=
  match filter (λ y, y ≠ x) l with [] => post | l' => (k, l') :: post end.

Fixpoint remove_bins (x : Z) (bs : list Bin) : list Bin :=
  match bs with
  | [] => []
  | (k, l) :: bs => if bool_decide (x ∈ l) then drop_bin x k l bs else (k, l) :: remove_bins x bs
  end.

Lemma filter_ne_id x (l : list Z) : x ∉ l → filter (λ y, y ≠ x) l = l.
Proof.
  induction l as [|y l IH]; intros Hx; [done|]. rewrite not_elem_of_cons in Hx. destruct Hx as [Hne Hx].
  rewrite filter_cons_True by done. by rewrite IH.
Qed.

Lemma unlink_spec fuel h k x curr ce l :
  h !! curr = Some ce → key ce = k → chain h k (nextInBin ce) l → NoDup (curr :: l) → (length l ≤ fuel)%nat →
  if bool_decide (x ∈ l) then
    ∃ c0 e0 p, unlink fuel h x curr (nextInBin ce) = Ok (<[c0 := set_nextInBin p e0]> h) ∧
      h !! c0 = Some e0 ∧ c0 ∈ curr :: l ∧
      chain (<[c0 := set_nextInBin p e0]> h) k (Some curr) (curr :: filter (λ y, y ≠ x) l)
  else unlink fuel h x curr (nextInBin ce) = Err PanicFail.
Proof.
  revert fuel curr ce. induction l as [|y l IH]; intros fuel curr ce Hce Hk Hc Hnd Hf.
  { rewrite bool_decide_false by apply not_elem_of_nil. cbn in Hc. rewrite Hc. by destruct fuel. }
  destruct Hc as (Hn & ye & Hye & Hky & Hc). rewrite Hn.
  assert (∀ g, unlink g h x curr (Some y) = if y =? x then Ok (<[curr := set_nextInBin (nextInBin ye) ce]> h)
    else match g with O => Err Diverge | S g => unlink g h x y (nextInBin ye) end) as Hunf.
  { intros g. destruct g; cbn [unlink]; rewrite (deref_some _ _ _ Hye), (deref_some _ _ _ Hce); done. }
  rewrite Hunf. apply NoDup_cons in Hnd as [Hcn Hnd]. pose proof Hnd as Hnd1. apply NoDup_cons in Hnd1 as [Hyn Hnd1].
  destruct (Z.eqb_spec y x) as [->|Hne].
  - rewrite bool_decide_true by constructor. eexists curr, ce, _. split; [reflexivity|]. split; [done|].
    split; [constructor|]. rewrite filter_cons_False by (intros Hz; by apply Hz). rewrite filter_ne_id by done.
    split; [done|]. eexists. rewrite lookup_insert_eq. split; [done|]. split; [done|]. cbn.
    eapply chain_frame; [|exact Hc]. intros z Hz. rewrite lookup_insert_ne; [done|]. intros <-.
    apply Hcn. by constructor.
  - destruct fuel as [|fuel]; [cbn in Hf; lia|].
    specialize (IH fuel y ye Hye Hky Hc Hnd ltac:(cbn in Hf; lia)).
    rewrite filter_cons_True by done.
    assert (bool_decide (x ∈ y :: l) = bool_decide (x ∈ l)) as ->.
    { apply bool_decide_ext. rewrite elem_of_cons. split; [intros [?|?]; [congruence|done]|by right]. }
    case_bool_decide; [|done]. destruct IH as (c0 & e0 & p & -> & He0 & Hc0 & Hch).
    exists c0, e0, p. split; [done|]. split; [done|]. split; [by constructor|].
    split; [done|]. assert (c0 ≠ curr) as Hcc by (intros ->; done).
    exists ce. rewrite lookup_insert_ne by done. split; [done|]. split; [done|]. rewrite Hn. exact Hch.
Qed.

Lemma removeItem_spec h k x top l post :
  bseg h (Some top) ((k, top :: l) :: post) None → NoDup (ids ((k, top :: l) :: post)) →
  if bool_decide (x ∈ top :: l) then
    ∃ p h', removeItem h x top = Ok (p, h') ∧ bseg h' p (drop_bin x k (top :: l) post) None ∧
      same_meta h h' ∧ (∀ y, y ∉ top :: l → h' !! y = h !! y)
  else removeItem h x top = Err PanicFail.
Proof.
  intros (top' & te & [= <-] & Hte & Hc & Hrest) Hnd. pose proof Hnd as Hnd0.
  rewrite ids_cons in Hnd. apply NoDup_app in Hnd as (Hndl & Hdis & _).
  destruct Hc as (_ & te' & Hte' & Hk & Hc). rewrite Hte in Hte'. injection Hte' as <-.
  unfold removeItem. rewrite (deref_some _ _ _ Hte). cbn [mbind res_bind].
  destruct (Z.eqb_spec x top) as [->|Hne].
  - rewrite bool_decide_true by constructor. apply NoDup_cons in Hndl as [Htl Hndl].
    assert (filter (λ y, y ≠ top) (top :: l) = l) as Hfil.
    { rewrite filter_cons_False by (intros Hz; by apply Hz). by apply filter_ne_id. }
    unfold drop_bin. rewrite Hfil. destruct l as [|n l].
    + cbn in Hc. rewrite Hc. exists (nextBin te), h. split; [done|]. split; [done|]. split; [by intros y|done].
    + destruct Hc as (Hn & ne & Hne & Hkn & Hcn). rewrite Hn, (deref_some _ _ _ Hne). cbn [mbind res_bind].
      eexists _, _. split; [reflexivity|]. split; [|split].
      * eexists n, _. split; [done|]. rewrite lookup_insert_eq. split; [done|]. split.
        -- apply (chain_frame h); [|by split; [done|eauto]]. intros y Hy. destruct (decide (n = y)) as [<-|].
           ++ rewrite lookup_insert_eq, Hne. done.
           ++ by rewrite lookup_insert_ne.
        -- eapply bseg_frame; [|exact Hrest]. intros y Hy. rewrite lookup_insert_ne; [done|]. intros <-.
           apply (Hdis n); [|done]. do 2 constructor.
      * by eapply same_meta_insert.
      * intros y Hy. rewrite lookup_insert_ne; [done|]. intros <-. apply Hy. do 2 constructor.
  - assert (bool_decide (x ∈ top :: l) = bool_decide (x ∈ l)) as ->.
    { apply bool_decide_ext. rewrite elem_of_cons. split; [intros [?|?]; [congruence|done]|by right]. }
    assert (length l ≤ size h)%nat as Hfuel.
    { assert (bseg h (Some top) ((k, top :: l) :: post) None) as Hb by (exists top, te; repeat split; eauto).
      pose proof (bseg_size _ _ _ _ Hb Hnd0) as Hs. rewrite ids_cons, length_app in Hs. cbn in Hs. lia. }
    pose proof (unlink_spec (size h) h k x top te l Hte Hk Hc Hndl Hfuel) as Hun.
    case_bool_decide as Hin; [|by rewrite Hun].
    destruct Hun as (c0 & e0 & p & -> & He0 & Hc0 & Hch). cbn [mbind res_bind].
    eexists _, _. split; [reflexivity|]. split; [|split].
    + unfold drop_bin. rewrite filter_cons_True by done.
      assert (∃ te1, <[c0 := set_nextInBin p e0]> h !! top = Some te1 ∧ nextBin te1 = nextBin te) as (te1 & Ht1 & Hn1).
      { destruct (decide (c0 = top)) as [->|].
        - rewrite lookup_insert_eq. eexists. split; [done|]. cbn. congruence.
        - rewrite lookup_insert_ne by done. eauto. }
      exists top, te1. split; [done|]. split; [done|]. split; [done|]. rewrite Hn1.
      eapply bseg_frame; [|exact Hrest]. intros y Hy. rewrite lookup_insert_ne; [done|]. intros <-.
      by apply (Hdis c0).
    + by eapply same_meta_insert.
    + intros y Hy. rewrite lookup_insert_ne; [done|]. by intros <-.
Qed.

Lemma ids_key h p bs r x e :
  bseg h p bs r → x ∈ ids bs → h !! x = Some e → ∃ pre l post, bs = pre ++ (key e, l) :: post ∧ x ∈ l.
Proof.
  revert p. induction bs as [|[k l] bs IH]; intros p Hb Hx He; [by apply elem_of_nil in Hx|].
  destruct Hb as (y & ye & _ & _ & Hc & Hb). rewrite ids_cons in Hx. apply elem_of_app in Hx as [Hx|Hx].
  - destruct (chain_dom _ _ _ _ _ Hc Hx) as (e' & He' & Hk). assert (e' = e) as -> by congruence. subst k.
    by exists [], l, bs.
  - destruct (IH _ Hb Hx He) as (pre & l' & post & -> & ?). by exists ((k, l) :: pre), l', post.
Qed.

(** Where an event of key [k] can be, in bins sorted by key. *)
Lemma sorted_bin pre k l post pre' l' post' :
  bins_sorted (pre ++ (k, l) :: post) → pre ++ (k, l) :: post = pre' ++ (k, l') :: post' → l = l'.
Proof.
  unfold bins_sorted. revert pre'. induction pre as [|[k1 l1] pre IH]; intros pre' Hs Heq.
  - destruct pre' as [|[k2 l2] pre']; cbn in Heq; [by injection Heq|]. injection Heq as <- <- ->.
    inversion Hs as [|? ? _ Hall]; subst. rewrite fmap_app, Forall_app, fmap_cons, Forall_cons in Hall.
    destruct Hall as (_ & Hk & _). by apply klt_irrefl in Hk.
  - destruct pre' as [|[k2 l2] pre']; cbn in Heq.
    + injection Heq as <- <- <-. inversion Hs as [|? ? _ Hall]; subst.
      rewrite fmap_app, Forall_app, fmap_cons, Forall_cons in Hall. destruct Hall as (_ & Hk & _). by apply klt_irrefl in Hk.
    + injection Heq as <- <- Heq. inversion Hs; subst. by apply (IH pre').
Qed.

Lemma remove_bins_app x pre post :
  x ∉ ids pre → remove_bins x (pre ++ post) = pre ++ remove_bins x post.
Proof.
  induction pre as [|[k l] pre IH]; intros Hx; [done|]. rewrite ids_cons, not_elem_of_app in Hx. destruct Hx as [Hl Hx].
  cbn. rewrite bool_decide_false by done. by rewrite IH.
Qed.

Lemma remove_bins_front x k l post : x ∈ l → remove_bins x ((k, l) :: post) = drop_bin x k l post.
Proof. intros Hx. cbn. by rewrite bool_decide_true. Qed.

Lemma ids_drop_bin x k l post : ids (drop_bin x k l post) = filter (λ y, y ≠ x) l ++ ids post.
Proof. unfold drop_bin. by destruct (filter _ l). Qed.

Lemma ids_remove_bins x bs : NoDup (ids bs) → ids (remove_bins x bs) = filter (λ y, y ≠ x) (ids bs).
Proof.
  induction bs as [|[k l] bs IH]; intros Hnd; [done|]. rewrite ids_cons in Hnd.
  apply NoDup_app in Hnd as (_ & Hdis & Hnd). cbn [remove_bins]. rewrite ids_cons, filter_app. case_bool_decide as Hx.
  - rewrite ids_drop_bin. f_equal. symmetry. apply filter_ne_id. by apply Hdis.
  - rewrite ids_cons, IH by done. by rewrite (filter_ne_id x l).
Qed.

Lemma keys_remove_bins x bs : sublist (fst <$> remove_bins x bs) (fst <$> bs).
Proof.
  induction bs as [|[k l] bs IH]; [done|]. cbn [remove_bins]. case_bool_decide.
  - unfold drop_bin. destruct (filter _ l); cbn; [by apply sublist_cons|done].
  - cbn. by apply sublist_skip.
Qed.

Lemma StronglySorted_sublist {A} (R : A → A → Prop) l k : sublist l k → StronglySorted R k → StronglySorted R l.
Proof.
  induction 1 as [|x l k Hs IH|x l k Hs IH]; intros Hk; [done| |].
  - inversion Hk as [|? ? Hk' Hall]; subst. constructor; [by apply IH|].
    rewrite Forall_forall in *. intros y Hy. apply Hall. by eapply elem_of_sublist.
  - inversion Hk; subst. by apply IH.
Qed.

Lemma flatten_remove x bs : NoDup (ids bs) → flatten (remove_bins x bs) = abs_remove x (flatten bs).
Proof.
  assert (∀ (k : Key) l, abs_remove x ((k,.) <$> l) = (k,.) <$> filter (λ y, y ≠ x) l) as Hl.
  { intros k l. unfold abs_remove. induction l as [|y l IH]; [done|]. rewrite fmap_cons, !filter_cons. cbn [snd].
    case_decide; [|done]. by rewrite fmap_cons, <-IH. }
  assert (∀ bs', x ∉ ids bs' → abs_remove x (flatten bs') = flatten bs') as Hout.
  { induction bs' as [|[k l] bs' IH]; intros Hx; [done|]. rewrite ids_cons, not_elem_of_app in Hx.
    destruct Hx as [Hx1 Hx2]. rewrite flatten_cons. unfold abs_remove in *. rewrite filter_app, IH by done.
    specialize (Hl k l). unfold abs_remove in Hl. rewrite Hl, filter_ne_id by done. done. }
  induction bs as [|[k l] bs IH]; intros Hnd; [done|]. rewrite ids_cons in Hnd.
  apply NoDup_app in Hnd as (_ & Hdis & Hnd). rewrite flatten_cons. unfold abs_remove. rewrite filter_app.
  fold (abs_remove x (flatten bs)). pose proof (Hl k l) as Hkl. unfold abs_remove at 1 in Hkl. rewrite Hkl.
  cbn [remove_bins]. case_bool_decide as Hx.
  - rewrite Hout by (by apply Hdis). unfold drop_bin. by destruct (filter _ l).
  - rewrite flatten_cons, IH by done. by rewrite (filter_ne_id x l).
Qed.

Lemma in_its_bin h p bs r x e pre l post :
  bseg h p bs r → bins_sorted bs → h !! x = Some e → bs = pre ++ (key e, l) :: post →
  x ∈ ids bs ↔ x ∈ l.
Proof.
  intros Hb Hs He Hbs. split.
  - intros Hx. destruct (ids_key _ _ _ _ _ _ Hb Hx He) as (pre' & l' & post' & Heq & Hl).
    rewrite Hbs in Hs, Heq. by rewrite (sorted_bin _ _ _ _ _ _ _ Hs Heq).
  - intros Hx. rewrite Hbs, ids_app, ids_cons, !elem_of_app. auto.
Qed.

Lemma in_no_bin h p bs r x e :
  bseg h p bs r → h !! x = Some e → key e ∉ fst <$> bs → x ∉ ids bs.
Proof.
  intros Hb He Hk Hx. destruct (ids_key _ _ _ _ _ _ Hb Hx He) as (pre & l & post & -> & _).
  apply Hk. rewrite fmap_app, elem_of_app. right. by constructor.
Qed.

Lemma bins_app_sorted pre k l post :
  bins_sorted (pre ++ (k, l) :: post) →
  Forall (λ b : Bin, klt (fst b) k) pre ∧ Forall (λ b : Bin, klt k (fst b)) post.
Proof.
  unfold bins_sorted. induction pre as [|[k1 l1] pre IH]; intros Hs; inversion Hs as [|? ? Hs' Hall]; subst.
  - split; [constructor|]. change (Forall (klt k) (fst <$> post)) in Hall.
    rewrite Forall_fmap in Hall. exact Hall.
  - destruct (IH Hs') as [H1 H2]. split; [|done]. constructor; [|done]. cbn.
    rewrite Forall_forall in Hall. apply Hall. rewrite fmap_app, elem_of_app. right. by constructor.
Qed.

Lemma rep_remove_bins q bs x h hd :
  rep q bs → bseg h hd (remove_bins x bs) None → rep (mkQueue h hd (curTick q)) (remove_bins x bs).
Proof.
  intros [_ Hs Hnd] Hb. constructor; [done| |].
  - eapply StronglySorted_sublist; [apply keys_remove_bins|done].
  - rewrite ids_remove_bins by done. by apply NoDup_filter.
Qed.

(** Removal past the first bin. *)
Lemma remove_later q x e k c l bs ce :
  rep q ((k, c :: l) :: bs) → store q !! x = Some e → head q = Some c → store q !! c = Some ce →
  bseg (store q) (nextBin ce) bs None → klt k (key e) →
  let r := '(prev, curr) ← find_bin (size (store q)) (store q) (key e) c (nextBin ce);
        match curr with
        | None => Err PanicFail
        | Some c =>
            ce ← deref (store q) c;
            panic_if (negb (key_eqb (key ce) (key e)));;
            '(top, h) ← removeItem (store q) x c;
            pe ← deref h prev;
            Ok (mkQueue (<[prev := set_nextBin top pe]> h) (head q) (curTick q))
        end in
  if bool_decide (x ∈ ids ((k, c :: l) :: bs)) then
    ∃ q', r = Ok q' ∧ rep q' (remove_bins x ((k, c :: l) :: bs)) ∧ same_meta (store q) (store q') ∧
      curTick q' = curTick q
  else r = Err PanicFail.
Proof.
  intros Hrep He Hhd Hce Hrest Hk. pose proof Hrep as [Hb Hs Hnd]. cbv zeta.
  pose proof (bseg_size _ _ _ _ Hb Hnd) as Hsize. pose proof (bseg_length _ _ _ _ Hb) as Hlen.
  destruct (find_bin_spec (size (store q)) (store q) (key e) bs k l c ce Hce Hrest)
    as (front & kp & prev & lp & curr & post & -> & Heq & Hall & Hpost & Hfirst & pe & Hpe & _);
    [cbn in Hlen, Hsize |- *; lia|done|]. cbn [mbind res_bind].
  rewrite Heq in *. set (A := front ++ [(kp, prev :: lp)]) in *.
  assert (key e ∉ fst <$> A) as HA.
  { intros Hin. apply list_elem_of_fmap in Hin as (b & Hkb & Hin). rewrite Forall_forall in Hall.
    specialize (Hall b Hin). cbn in Hall. rewrite <-Hkb in Hall. by apply klt_irrefl in Hall. }
  destruct post as [|[k2 l2] post].
  { cbn in Hpost. subst curr. rewrite bool_decide_false; [done|]. eapply in_no_bin; [exact Hb|done|].
    by rewrite app_nil_r. }
  pose proof Hpost as (c2 & ce2 & -> & Hce2 & Hc2 & _). destruct (chain_top _ _ _ _ Hc2) as [l2' ->].
  assert (key ce2 = k2) as Hk2.
  { destruct (chain_dom _ _ _ _ c2 Hc2 ltac:(constructor)) as (e1 & He1 & ?). congruence. }
  rewrite (deref_some _ _ _ Hce2). cbn [mbind res_bind]. rewrite Hk2.
  specialize (Hfirst _ _ _ eq_refl). destruct (key_eqb k2 (key e)) eqn:E; cbn [negb panic_if mbind res_bind].
  2:{ rewrite bool_decide_false; [done|]. eapply in_no_bin; [exact Hb|done|]. rewrite fmap_app, fmap_cons.
      rewrite not_elem_of_app, not_elem_of_cons. split; [done|]. cbn. split.
      - intros Heqk. assert (key_eqb k2 (key e) = true) by (by apply key_eqb_spec). congruence.
      - intros Hin. apply bins_app_sorted in Hs as [_ Hs]. apply list_elem_of_fmap in Hin as (b & Hkb & Hin).
        rewrite Forall_forall in Hs. specialize (Hs b Hin). cbn in Hs. by rewrite <-Hkb in Hs. }
  apply key_eqb_spec in E. clear Hk2. subst k2.
  rewrite (bool_decide_ext _ (x ∈ c2 :: l2')) by (by eapply in_its_bin).
  assert (NoDup (ids ((key e, c2 :: l2') :: post))) as Hnd2.
  { rewrite ids_app in Hnd. by apply NoDup_app in Hnd as (_ & _ & ?). }
  pose proof (removeItem_spec (store q) (key e) x c2 l2' post Hpost Hnd2) as Hrem.
  case_bool_decide as Hin; [|by rewrite Hrem]. destruct Hrem as (p & h' & -> & Hseg & Hmeta & Hframe).
  rewrite ids_app in Hnd. apply NoDup_app in Hnd as (Hnd1 & Hdis & _).
  assert (∀ y, y ∈ ids A → h' !! y = store q !! y) as HfA.
  { intros y Hy. apply Hframe. intros Hz. apply (Hdis y Hy). rewrite ids_cons, elem_of_app. by left. }
  assert (prev ∈ ids A) as HpA.
  { unfold A. rewrite ids_app, ids_cons, elem_of_app. right. constructor. }
  assert (h' !! prev = Some pe) as Hpe' by (by rewrite HfA).
  cbn [mbind res_bind]. rewrite (deref_some _ _ _ Hpe'). cbn [mbind res_bind].
  eexists. split; [reflexivity|]. split; [|split; [|done]].
  - apply (rep_remove_bins q); [exact Hrep|].
    rewrite remove_bins_app, remove_bins_front by (done || (intros Hz; apply (Hdis x Hz); rewrite ids_cons, elem_of_app; by left)).
    apply bseg_app. exists p. split.
    + apply bseg_app in Hb as (m & Hb1 & _). unfold A in *. eapply bseg_relink; [|done|done].
      eapply bseg_frame; [|exact Hb1]. done.
    + eapply bseg_frame; [|exact Hseg]. intros y Hy. rewrite lookup_insert_ne; [done|]. intros <-.
      apply (Hdis prev HpA). rewrite ids_drop_bin in Hy. rewrite ids_cons.
      apply elem_of_app in Hy as [Hy|Hy]; apply elem_of_app; [left|by right]. by apply list_elem_of_filter in Hy as [_ ?].
  - eapply same_meta_trans; [exact Hmeta|]. by eapply same_meta_insert.
Qed.

Lemma remove_spec q bs x e :
  rep q bs → store q !! x = Some e →
  if bool_decide (x ∈ ids bs) then
    ∃ q', remove q x = Ok q' ∧ rep q' (remove_bins x bs) ∧ same_meta (store q) (store q') ∧
      curTick q' = curTick q
  else remove q x = Err PanicFail.
Proof.
  intros Hrep He. pose proof Hrep as [Hb Hs Hnd]. unfold remove.
  destruct bs as [|[k l] bs].
  { cbn in Hb. rewrite Hb. rewrite bool_decide_false by apply not_elem_of_nil. done. }
  pose proof Hb as (c & ce & Hhd & Hce & Hc & Hrest). destruct (chain_top _ _ _ _ Hc) as [l' ->].
  assert (key ce = k) as Hk.
  { destruct (chain_dom _ _ _ _ c Hc ltac:(constructor)) as (e1 & He1 & ?). congruence. }
  rewrite Hhd. rewrite (deref_some _ _ _ He), (deref_some _ _ _ Hce). cbn [mbind res_bind]. rewrite Hk.
  destruct (klt_total k (key e)) as [Hlt|[->|Hgt]].
  - destruct (key_eqb k (key e)) eqn:E.
    { apply key_eqb_spec in E. rewrite E in Hlt. by apply klt_irrefl in Hlt. }
    rewrite <-Hhd. by apply (remove_later q x e k c l' bs ce).
  - rewrite (proj2 (key_eqb_spec (key e) (key e))) by done.
    rewrite (bool_decide_ext _ (x ∈ c :: l')) by (by apply (in_its_bin _ _ _ _ _ _ [] (c :: l') bs Hb Hs He)).
    rewrite Hhd in Hb. pose proof (removeItem_spec (store q) (key e) x c l' bs Hb Hnd) as Hrem.
    case_bool_decide as Hin; [|by rewrite Hrem]. destruct Hrem as (p & h' & -> & Hseg & Hmeta & _).
    cbn [mbind res_bind]. eexists. split; [reflexivity|]. split; [|done].
    apply (rep_remove_bins q); [done|]. by rewrite remove_bins_front.
  - destruct (key_eqb k (key e)) eqn:E.
    { apply key_eqb_spec in E. rewrite E in Hgt. by apply klt_irrefl in Hgt. }
    assert (Forall (λ b : Bin, klt (key e) (fst b)) ((k, c :: l') :: bs)) as Hall.
    { constructor; [done|]. apply (bins_app_sorted [] k (c :: l') bs) in Hs as [_ Hs].
      eapply Forall_impl; [exact Hs|]. cbn. intros b Hkb. by eapply klt_trans. }
    rewrite bool_decide_false.
    2:{ eapply in_no_bin; [exact Hb|done|]. intros Hin. apply list_elem_of_fmap in Hin as (b & Hkb & Hin).
        rewrite Forall_forall in Hall. specialize (Hall b Hin). cbn in Hall. rewrite <-Hkb in Hall.
        by apply klt_irrefl in Hall. }
    apply Forall_cons in Hall as [_ Hall]. destruct bs as [|[k2 l2] bs].
    { cbn in Hrest. rewrite Hrest. by destruct (size (store q)). }
    destruct Hrest as (c2 & ce2 & -> & Hce2 & Hc2 & _). apply Forall_cons in Hall as [Hk2 _]. cbn in Hk2.
    destruct (chain_top _ _ _ _ Hc2) as [l2' ->].
    assert (key ce2 = k2) as Hkc2.
    { destruct (chain_dom _ _ _ _ c2 Hc2 ltac:(constructor)) as (e1 & He1 & ?). congruence. }
    assert (find_bin (size (store q)) (store q) (key e) c (Some c2) = Ok (c, Some c2)) as ->.
    { destruct (size (store q)); cbn [find_bin]; rewrite (deref_some _ _ _ Hce2); cbn [mbind res_bind]; rewrite Hkc2.
      all: rewrite (proj2 (key_ltb_false k2 (key e))); [done|]. all: unfold klt in *; lia. }
    cbn [mbind res_bind]. rewrite (deref_some _ _ _ Hce2). cbn [mbind res_bind]. rewrite Hkc2.
    destruct (key_eqb k2 (key e)) eqn:E2; [|done]. apply key_eqb_spec in E2. rewrite E2 in Hk2. by apply klt_irrefl in Hk2.
Qed.

(** *** Flags and times *)

(** Changing the flags of an event, or the time of one that is not queued. *)
Lemma rep_update q bs f x :
  rep q bs → (x ∈ ids bs → ∀ e, fields (f e) = fields e) → rep (update f x q) bs.
Proof.
  intros [Hb Hs Hnd] Hf. constructor; [|done|done]. cbn. eapply bseg_frame_fields; [|exact Hb].
  intros y Hy. destruct (decide (x = y)) as [<-|].
  - rewrite lookup_alter_eq. destruct (store q !! x); [|done]. cbn. by rewrite Hf.
  - by rewrite lookup_alter_ne.
Qed.

(** Which events are flagged as scheduled. *)
Definition flagged (h : gmap Z Event) (bs : list Bin) : Prop :=
  ∀ x e, h !! x = Some e → e_scheduled e = bool_decide (x ∈ ids bs).

(** The flags after a change at [x] alone. *)
Lemma flagged_except h h' bs bs' x :
  flagged h bs → (∀ y, y ≠ x → meta <$> h' !! y = meta <$> h !! y) →
  (∀ y, y ≠ x → y ∈ ids bs' ↔ y ∈ ids bs) →
  (∀ e, h' !! x = Some e → e_scheduled e = bool_decide (x ∈ ids bs')) → flagged h' bs'.
Proof.
  intros Hf Hm Hids Hx y e Hy. destruct (decide (y = x)) as [->|Hne]; [by apply Hx|].
  specialize (Hm y Hne). rewrite Hy in Hm. destruct (h !! y) as [e0|] eqn:E; [|done]. cbn in Hm.
  assert (e_scheduled e = e_scheduled e0) as -> by (unfold meta in Hm; congruence). rewrite (Hf y e0 E).
  apply bool_decide_ext. symmetry. by apply Hids.
Qed.

Lemma flagged_other h h' bs bs' x b :
  flagged h bs → same_meta h h' → (∀ y, y ≠ x → y ∈ ids bs' ↔ y ∈ ids bs) → bool_decide (x ∈ ids bs') = b →
  ∀ f, (∀ e, e_scheduled (f e) = b) → flagged (alter f x h') bs'.
Proof.
  intros Hf Hm Hids Hb f Hfb. eapply flagged_except; [exact Hf| |exact Hids|].
  - intros y Hy. by rewrite lookup_alter_ne.
  - intros e He. rewrite lookup_alter_eq in He. destruct (h' !! x); [|done]. injection He as <-. by rewrite Hfb, Hb.
Qed.

Lemma meta_lookup h h' x e : same_meta h h' → h !! x = Some e → ∃ e', h' !! x = Some e' ∧ meta e' = meta e.
Proof.
  intros Hm He. specialize (Hm x). rewrite He in Hm. destruct (h' !! x) as [e'|]; [|done]. cbn in Hm.
  exists e'. split; [done|]. congruence.
Qed.

Lemma elem_flatten k x bs : (k, x) ∈ flatten bs → x ∈ ids bs.
Proof.
  induction bs as [|[k' l] bs IH]; [intros Hx; by apply elem_of_nil in Hx|].
  rewrite flatten_cons, ids_cons, !elem_of_app. intros [Hx|Hx]; [left|right; by apply IH]. apply list_elem_of_fmap in Hx as (y & [= <- <-] & ?). done.
Qed.

(** Inserting an event that is not queued, at a new time. *)
(** *** Priorities and squashed events *)

Definition no_squash (h : gmap Z Event) : Prop := ∀ x e, h !! x = Some e → e_squashed e = false.

(** Priorities are kept and no event becomes squashed. *)
Definition tame (h h' : gmap Z Event) : Prop :=
  (∀ y, e_priority <$> h' !! y = e_priority <$> h !! y) ∧ (no_squash h → no_squash h').

Lemma tame_trans h1 h2 h3 : tame h1 h2 → tame h2 h3 → tame h1 h3.
Proof. intros [Hp Hs] [Hp' Hs']. split; [intros y; by rewrite Hp', Hp|tauto]. Qed.

Lemma tame_except h h' x :
  (∀ y, y ≠ x → meta <$> h' !! y = meta <$> h !! y) →
  match h !! x with
  | None => h' !! x = None
  | Some e => ∃ e', h' !! x = Some e' ∧ e_priority e' = e_priority e ∧
                (e_squashed e = false → e_squashed e' = false)
  end → tame h h'.
Proof.
  intros Hm Hx. split.
  - intros y. destruct (decide (y = x)) as [->|Hne].
    + destruct (h !! x); [destruct Hx as (e' & -> & Hp & _); cbn; by rewrite Hp|by rewrite Hx].
    + specialize (Hm y Hne). destruct (h' !! y), (h !! y); try done. cbn in *. unfold meta, key in Hm. congruence.
  - intros Hn y e' Hy. destruct (decide (y = x)) as [->|Hne].
    + destruct (h !! x) as [e|] eqn:E; [|congruence]. destruct Hx as (e2 & He2 & _ & Hs).
      assert (e' = e2) as -> by congruence. by apply Hs, (Hn x).
    + specialize (Hm y Hne). rewrite Hy in Hm. destruct (h !! y) as [e|] eqn:E; [|done]. cbn in Hm.
      unfold meta in Hm. assert (e_squashed e' = e_squashed e) as -> by congruence. by apply (Hn y).
Qed.

Lemma tame_meta h h' : same_meta h h' → tame h h'.
Proof.
  intros Hm. split.
  - intros y. specialize (Hm y). destruct (h' !! y), (h !! y); try done. cbn in *. unfold meta, key in Hm. congruence.
  - intros Hn y e' Hy. specialize (Hm y). rewrite Hy in Hm. destruct (h !! y) as [e|] eqn:E; [|done]. cbn in Hm.
    unfold meta in Hm. assert (e_squashed e' = e_squashed e) as -> by congruence. by apply (Hn y).
Qed.

Lemma tame_alter f x h :
  (∀ e, e_priority (f e) = e_priority e) → (∀ e, e_squashed e = false → e_squashed (f e) = false) →
  tame h (alter f x h).
Proof.
  intros Hp Hs. apply (tame_except _ _ x).
  - intros y Hy. by rewrite lookup_alter_ne.
  - rewrite lookup_alter_eq. destruct (h !! x) as [e|]; [|done]. exists (f e). eauto.
Qed.

Lemma insert_at q bs x e t :
  rep q bs → flagged (store q) bs → store q !! x = Some e → x ∉ ids bs →
  ∃ q', insert (update (setWhen t) x q) x = Ok q' ∧ rep q' (insert_bins (t, e_priority e) x bs) ∧
    curTick q' = curTick q ∧ tame (store q) (store q') ∧
    ∀ f, (∀ e, e_scheduled (f e) = true) → (∀ e, fields (f e) = fields e) →
      holds (update f x q') (abs_insert (t, e_priority e) x (flatten bs)).
Proof.
  intros Hrep Hfl He Hx.
  assert (rep (update (setWhen t) x q) bs) as Hrep1 by (by apply rep_update).
  assert (store (update (setWhen t) x q) !! x = Some (setWhen t e)) as He1.
  { cbn. by rewrite lookup_alter_eq, He. }
  destruct (insert_spec _ bs x _ Hrep1 He1 Hx) as (q' & Hq & Hrep' & Hm & Hct).
  exists q'. do 3 (split; [done|]). split.
  { eapply tame_trans; [by apply (tame_alter (setWhen t) x)|by apply tame_meta]. }
  intros f Hf1 Hf2. exists (insert_bins (t, e_priority e) x bs). split; [by apply rep_update|]. split.
  - symmetry. apply flatten_insert; [apply Hrep|]. by eapply bseg_nonempty, Hrep.
  - eapply (flagged_other (store (update (setWhen t) x q)) (store q') bs _ x true); [|exact Hm| | |done].
    + intros y ey Hy. cbn in Hy. destruct (decide (x = y)) as [<-|].
      * rewrite lookup_alter_eq, He in Hy. injection Hy as <-. by rewrite <-(Hfl x e He).
      * rewrite lookup_alter_ne in Hy by done. by apply Hfl.
    + intros y Hy. rewrite ids_insert_bins, elem_of_cons. split; [intros [?|?]; [congruence|done]|by right].
    + apply bool_decide_true. rewrite ids_insert_bins. constructor.
Qed.

Lemma removed_ids x y bs : NoDup (ids bs) → y ≠ x → y ∈ ids (remove_bins x bs) ↔ y ∈ ids bs.
Proof. intros Hnd Hy. rewrite ids_remove_bins by done. rewrite list_elem_of_filter. tauto. Qed.

Lemma not_removed x bs : NoDup (ids bs) → x ∉ ids (remove_bins x bs).
Proof. intros Hnd. rewrite ids_remove_bins by done. rewrite list_elem_of_filter. by intros [? _]. Qed.

Lemma remove_flagged q bs x e :
  rep q bs → flagged (store q) bs → store q !! x = Some e → e_scheduled e = true →
  ∃ q', remove q x = Ok q' ∧ rep q' (remove_bins x bs) ∧ same_meta (store q) (store q') ∧
    curTick q' = curTick q.
Proof.
  intros Hrep Hfl He Hs. pose proof (remove_spec q bs x e Hrep He) as Hr.
  rewrite <-(Hfl x e He), Hs in Hr. exact Hr.
Qed.

(** The order of the abstract list. *)
Lemma flatten_sorted bs :
  bins_sorted bs → StronglySorted (λ a b : Key * Z, ¬ klt (fst b) (fst a)) (flatten bs).
Proof.
  unfold bins_sorted. induction bs as [|[k l] bs IH]; intros Hs; [constructor|].
  inversion Hs as [|? ? Hs' Hall]; subst. rewrite flatten_cons.
  assert (∀ k' y, (k', y) ∈ flatten bs → klt k k') as Hlt.
  { intros k' y Hin. assert (k' ∈ fst <$> bs) as Hk'; [|rewrite Forall_forall in Hall; by apply Hall].
    clear -Hin. induction bs as [|[k1 l1] bs IH]; [by apply elem_of_nil in Hin|].
    rewrite flatten_cons, elem_of_app in Hin. cbn. apply elem_of_cons. destruct Hin as [Hin|Hin]; [left|right; by apply IH].
    apply list_elem_of_fmap in Hin as (z & [= -> _] & _). done. }
  specialize (IH Hs'). induction l as [|y l IHl]; [exact IH|]. cbn. constructor; [by apply IHl|].
  rewrite Forall_app. split.
  - apply Forall_fmap, Forall_true. intros z. cbn. apply klt_irrefl.
  - apply Forall_forall. intros [k' z] Hin. cbn. specialize (Hlt k' z Hin). intros Hk. unfold klt in *. lia.
Qed.

Lemma flatten_ids bs : snd <$> flatten bs = ids bs.
Proof.
  induction bs as [|[k l] bs IH]; [done|]. rewrite flatten_cons, fmap_app, IH, ids_cons. f_equal.
  rewrite <-list_fmap_compose. apply list_fmap_id.
Qed.

(** The pointers of [serviceOne] are those of removing the head. *)
Lemma serviceOne_spec q k x l bs e :
  rep q ((k, x :: l) :: bs) → store q !! x = Some e →
  ∃ q', serviceOne q = Ok (x, negb (e_squashed e), q') ∧ rep q' (remove_bins x ((k, x :: l) :: bs)) ∧
    (∀ y, y ≠ x → meta <$> store q' !! y = meta <$> store q !! y) ∧
    (∃ e', store q' !! x = Some e' ∧ e_scheduled e' = false ∧ e_priority e' = e_priority e ∧
       (e_squashed e = false → e_squashed e' = false)) ∧
    curTick q' = if e_squashed e then curTick q else e_when e.
Proof.
  intros Hrep He. set (g := λ e, set_flags false (e_squashed e) e).
  assert (rep (update g x q) ((k, x :: l) :: bs)) as Hrep1 by (by apply rep_update).
  pose proof Hrep as [Hb _ Hnd]. pose proof Hb as (x' & e1 & Hhd & He1 & Hc & _).
  destruct Hc as ([= ->] & _). unfold serviceOne. rewrite Hhd.
  assert (alter g x (store q) !! x = Some (g e)) as Hg by (by rewrite lookup_alter_eq, He).
  change (λ e, set_flags false (e_squashed e) e) with g. rewrite (deref_some _ _ _ Hg). cbn [mbind res_bind].
  pose proof (rep_seg _ _ Hrep1) as Hb1. cbn [update head store] in Hb1. rewrite Hhd in Hb1.
  pose proof (removeItem_spec (alter g x (store q)) k x x l bs Hb1 Hnd) as Hrem.
  rewrite bool_decide_true in Hrem by constructor. destruct Hrem as (p & h' & Hr & Hseg & Hmeta & _).
  assert (removeItem (alter g x (store q)) x x = match nextInBin (g e) with
    | Some n => ne ← deref (alter g x (store q)) n;
        Ok (Some n, <[n := set_nextBin (nextBin (g e)) ne]> (alter g x (store q)))
    | None => Ok (nextBin (g e), alter g x (store q)) end) as Heq.
  { unfold removeItem. rewrite (deref_some _ _ _ Hg). cbn [mbind res_bind]. rewrite Z.eqb_refl.
    by destruct (nextInBin (g e)). }
  rewrite <-Heq, Hr. cbn [mbind res_bind]. change (e_squashed (g e)) with (e_squashed e).
  change (e_when (g e)) with (e_when e).
  assert (∀ t, rep (mkQueue h' p t) (remove_bins x ((k, x :: l) :: bs))) as Hrep'.
  { intros t. apply (rep_remove_bins (mkQueue (store q) (head q) t)); [by destruct Hrep|].
    rewrite remove_bins_front by constructor. exact Hseg. }
  assert (∀ y, y ≠ x → meta <$> h' !! y = meta <$> store q !! y) as Hm1.
  { intros y Hy. rewrite Hmeta. by rewrite lookup_alter_ne. }
  destruct (meta_lookup _ _ x _ Hmeta Hg) as (e' & He' & Hme').
  assert (e_scheduled e' = false ∧ e_priority e' = e_priority e ∧ e_squashed e' = e_squashed e) as (Hsch & Hpr & Hsq').
  { unfold meta, key in Hme'; cbn in Hme'. split; [congruence|]. split; congruence. }
  destruct (e_squashed e) eqn:Hsq; cbn [negb]; eexists; (split; [reflexivity|]); cbn [store curTick].
  - split; [|split; [|split; [|done]]].
    + apply (rep_update (mkQueue h' p (curTick q))); [apply Hrep'|done].
    + intros y Hy. rewrite lookup_alter_ne by done. by apply Hm1.
    + rewrite lookup_alter_eq, He'. eexists. split; [reflexivity|]. done.
  - split; [apply Hrep'|]. split; [done|]. split; [|done]. exists e'. split; [done|]. split; [done|]. split; [done|congruence].
Qed.

(** *** The operations *)

Lemma schedule_ok q l x e t :
  holds q l → store q !! x = Some e → curTick q ≤ t → e_scheduled e = false →
  ∃ q', schedule q x t = Ok q' ∧ holds q' (abs_insert (t, e_priority e) x l) ∧
    curTick q' = curTick q ∧ tame (store q) (store q').
Proof.
  intros (bs & Hrep & -> & Hfl) He Ht Hs. assert (x ∉ ids bs) as Hx.
  { apply (proj1 (bool_decide_eq_false _)). by rewrite <-(Hfl x e He). }
  destruct (insert_at q bs x e t Hrep Hfl He Hx) as (q' & Hq & _ & Hct & Hm & Hh).
  unfold schedule. rewrite (proj2 (Z.leb_le _ _) Ht), (deref_some _ _ _ He). cbn [assertb mbind res_bind].
  rewrite Hs. cbn [negb assertb mbind res_bind]. rewrite Hq. cbn [mbind res_bind].
  eexists. split; [reflexivity|]. split; [by apply Hh|]. split; [done|].
  eapply tame_trans; [exact Hm|]. by apply tame_alter.
Qed.

(** The queue with a scheduled event taken out. *)
Lemma removed_ok q bs x e :
  rep q bs → flagged (store q) bs → store q !! x = Some e → e_scheduled e = true →
  ∃ q', remove q x = Ok q' ∧ rep q' (remove_bins x bs) ∧ curTick q' = curTick q ∧
    same_meta (store q) (store q') ∧
    ∀ f, (∀ e, e_scheduled (f e) = false) → flagged (store (update f x q')) (remove_bins x bs).
Proof.
  intros Hrep Hfl He Hs. pose proof (rep_nodup _ _ Hrep) as Hnd.
  destruct (remove_flagged q bs x e Hrep Hfl He Hs) as (q1 & Hq1 & Hrep1 & Hm & Hct).
  exists q1. do 4 (split; [done|]). intros f Hf.
  eapply (flagged_other (store q) (store q1) bs _ x false); [exact Hfl|exact Hm| | |done].
  - intros y Hy. by apply removed_ids.
  - by apply bool_decide_false, not_removed.
Qed.

Lemma deschedule_ok q l x e :
  holds q l → store q !! x = Some e → e_scheduled e = true →
  ∃ q', deschedule q x = Ok q' ∧ holds q' (abs_remove x l) ∧ curTick q' = curTick q ∧
    tame (store q) (store q').
Proof.
  intros (bs & Hrep & -> & Hfl) He Hs.
  destruct (removed_ok q bs x e Hrep Hfl He Hs) as (q1 & Hq1 & Hrep1 & Hct & Hm & Hfl1).
  unfold deschedule. rewrite (deref_some _ _ _ He). cbn [mbind res_bind]. rewrite Hs. cbn [assertb mbind res_bind].
  rewrite Hq1. cbn [mbind res_bind]. eexists. split; [reflexivity|]. split; [|split; [done|]].
  - exists (remove_bins x bs). split; [by apply rep_update|].
    split; [by rewrite flatten_remove by apply Hrep|]. by apply Hfl1.
  - eapply tame_trans; [by apply tame_meta|]. by apply tame_alter.
Qed.

Lemma reschedule_ok q l x e t :
  holds q l → store q !! x = Some e → curTick q ≤ t → e_scheduled e = true →
  ∃ q', reschedule q x t false = Ok q' ∧ holds q' (abs_insert (t, e_priority e) x (abs_remove x l)) ∧
    curTick q' = curTick q ∧ tame (store q) (store q').
Proof.
  intros (bs & Hrep & -> & Hfl) He Ht Hs.
  destruct (removed_ok q bs x e Hrep Hfl He Hs) as (q1 & Hq1 & Hrep1 & Hct & Hm & _).
  destruct (meta_lookup _ _ x e Hm He) as (e1 & He1 & Hme).
  assert (e_priority e1 = e_priority e) as Hpr by (unfold meta, key in Hme; congruence).
  unfold reschedule. rewrite (proj2 (Z.leb_le _ _) Ht), (deref_some _ _ _ He). cbn [assertb mbind res_bind].
  rewrite Hs. cbn [orb assertb mbind res_bind]. rewrite Hq1. cbn [mbind res_bind].
  destruct (insert_spec (update (setWhen t) x q1) (remove_bins x bs) x (setWhen t e1)) as (q2 & Hq2 & Hrep3 & Hm2 & Hct2).
  { apply rep_update; [done|]. intros Hin. by apply not_removed in Hin; [|apply Hrep]. }
  { cbn. by rewrite lookup_alter_eq, He1. }
  { apply not_removed, Hrep. }
  rewrite Hq2. cbn [mbind res_bind]. eexists. split; [reflexivity|]. split; [|split; [cbn in *; congruence|]].
  - exists (insert_bins (t, e_priority e) x (remove_bins x bs)).
    change (key (setWhen t e1)) with (t, e_priority e1) in Hrep3. rewrite Hpr in Hrep3.
    split; [by apply rep_update|]. split.
    + rewrite flatten_insert, flatten_remove; [done|apply Hrep|apply Hrep1|eapply bseg_nonempty, Hrep1].
    + eapply (flagged_except (store q) _ bs _ x); [exact Hfl| | |].
      * intros y Hy. cbn. rewrite lookup_alter_ne by done. rewrite Hm2. cbn. rewrite lookup_alter_ne by done. apply Hm.
      * intros y Hy. rewrite ids_insert_bins, elem_of_cons. rewrite removed_ids by (done || apply Hrep). tauto.
      * intros e2 He2. cbn in He2. rewrite lookup_alter_eq in He2. destruct (store q2 !! x); [|done].
        injection He2 as <-. symmetry. apply bool_decide_true. rewrite ids_insert_bins. constructor.
  - eapply tame_trans; [by apply tame_meta|]. eapply tame_trans; [by apply (tame_alter (setWhen t) x)|].
    eapply tame_trans; [by apply tame_meta|]. by apply tame_alter.
Qed.

Lemma holds_sorted q l :
  holds q l → StronglySorted (λ a b : Key * Z, ¬ klt (fst b) (fst a)) l ∧ NoDup (snd <$> l).
Proof.
  intros (bs & [Hb Hs Hnd] & -> & _). split; [by apply flatten_sorted|]. by rewrite flatten_ids.
Qed.

Lemma abs_remove_first k x l : x ∉ snd <$> l → abs_remove x ((k, x) :: l) = l.
Proof.
  intros Hx. unfold abs_remove. rewrite filter_cons_False by (cbn; tauto).
  induction l as [|[k2 y] l IH]; [done|]. cbn in Hx. apply not_elem_of_cons in Hx as [Hy Hx].
  rewrite filter_cons_True by (cbn; congruence). by rewrite IH.
Qed.

Lemma serviceOne_ok q k x l :
  holds q ((k, x) :: l) →
  ∃ e q', store q !! x = Some e ∧ key e = k ∧ serviceOne q = Ok (x, negb (e_squashed e), q') ∧ holds q' l ∧
    tame (store q) (store q') ∧ curTick q' = if e_squashed e then curTick q else fst k.
Proof.
  intros Hh. pose proof (holds_sorted _ _ Hh) as [_ Hndl]. destruct Hh as (bs & Hrep & Hl & Hfl).
  pose proof Hrep as [Hb Hs Hnd]. pose proof (bseg_nonempty _ _ _ _ Hb) as Hne.
  destruct bs as [|[k1 l1] bs]; [done|]. apply Forall_cons in Hne as [Hl1 _]. destruct l1 as [|x1 l1]; [done|].
  pose proof Hl as Hl0. rewrite flatten_cons in Hl. cbn in Hl. injection Hl as -> -> Hl.
  pose proof Hb as (x' & e & _ & He & Hc & _). destruct Hc as ([= ->] & e' & He' & Hk & _).
  assert (e' = e) as -> by congruence.
  destruct (serviceOne_spec q k1 x1 l1 bs e Hrep He) as (q' & Hq & Hrep' & Hm & (e2 & He2 & Hsch & Hsame) & Hct).
  exists e, q'. do 3 (split; [done|]). split; [|split].
  - exists (remove_bins x1 ((k1, x1 :: l1) :: bs)). split; [done|]. split.
    + rewrite flatten_remove by done. rewrite <-Hl0. symmetry. apply abs_remove_first.
      cbn in Hndl. by apply NoDup_cons in Hndl as [? _].
    + eapply (flagged_except (store q) (store q') _ _ x1); [exact Hfl|exact Hm| |].
      * intros y Hy. by apply removed_ids.
      * intros e3 He3. rewrite He2 in He3. injection He3 as <-. rewrite Hsch. symmetry.
        by apply bool_decide_false, not_removed.
  - apply (tame_except _ _ x1); [exact Hm|]. rewrite He. exists e2. split; [done|exact Hsame].
  - rewrite Hct. by rewrite <-Hk.
Qed.

(** ** Theorems *)

(** C6: the event queue, with its bins threaded through pointers of the
    events and the stale pointers they leave, implements a list of events
    sorted by time and priority: scheduling an event puts it before the
    events of its time and priority and after all earlier ones, descheduling
    takes it out wherever it is, rescheduling moves it to its new time, and
    all three return without failing. *)
Theorem event_queue_refines q l x e t :
  holds q l → store q !! x = Some e → curTick q ≤ t →
  (e_scheduled e = false →
   (∃ q', schedule q x t = Ok q' ∧ holds q' (abs_insert (t, e_priority e) x l) ∧ curTick q' = curTick q)) ∧
  (e_scheduled e = true →
   (∃ q', deschedule q x = Ok q' ∧ holds q' (abs_remove x l) ∧ curTick q' = curTick q) ∧
   (∃ q', reschedule q x t false = Ok q' ∧ holds q' (abs_insert (t, e_priority e) x (abs_remove x l)) ∧
      curTick q' = curTick q)).
Proof.
  intros Hh He Ht. split; [intros Hs|intros Hs; split].
  - destruct (schedule_ok q l x e t) as (q' & ? & ? & ? & _); eauto.
  - destruct (deschedule_ok q l x e) as (q' & ? & ? & ? & _); eauto.
  - destruct (reschedule_ok q l x e t) as (q' & ? & ? & ? & _); eauto.
Qed.

(** Three events, none scheduled, and the queue after 1 and 2 are scheduled
    at tick 50 and 3 at tick 20. *)
Definition no_event (prio : Z) : Event := mkEvent 0 prio None None false false.
Definition idle_queue : EventQueue :=
  mkQueue {[1 := no_event 0; 2 := no_event 0; 3 := no_event 0]} None 10.
Definition busy_queue : EventQueue :=
  mkQueue {[1 := mkEvent 50 0 None None true false; 2 := mkEvent 50 0 None (Some 1) true false;
            3 := mkEvent 20 0 (Some 2) None true false]} (Some 3) 10.

Lemma idle_queue_holds : holds idle_queue [].
Proof.
  exists []. split; [by repeat constructor|]. split; [done|]. intros x e He. cbn in He.
  repeat (apply lookup_insert_Some in He as [[_ <-]|[_ He]]; [done|]).
  apply lookup_singleton_Some in He as [_ <-]. done.
Qed.

Lemma event_queue_refines_witness :
  ∃ q', schedule idle_queue 2 50 = Ok q' ∧ holds q' [((50, 0), 2)] ∧ curTick q' = 10.
Proof.
  destruct (event_queue_refines idle_queue [] 2 (no_event 0) 50) as [Hs _].
  - exact idle_queue_holds.
  - reflexivity.
  - vm_compute. discriminate.
  - destruct (Hs eq_refl) as (q' & Hq & Hh & Hc). exists q'. split; [exact Hq|]. split; [exact Hh|exact Hc].
Defined.

(** Events are served in order of time, then of priority, and last in
    first out among equals: the queue's list is sorted, [serviceOne] takes
    its first event off, clears its scheduled flag, advances the current
    tick to the event's time when it is to run, and keeps the rest. *)
Theorem events_served_in_order q k x l :
  holds q ((k, x) :: l) →
  StronglySorted (λ a b : Key * Z, ¬ klt (fst b) (fst a)) ((k, x) :: l) ∧ NoDup (snd <$> (k, x) :: l) ∧
  ∃ run q', serviceOne q = Ok (x, run, q') ∧ holds q' l ∧ (run = true → curTick q' = fst k).
Proof.
  intros Hh. destruct (holds_sorted _ _ Hh) as [Hs Hnd]. split; [done|]. split; [done|].
  destruct (serviceOne_ok q k x l Hh) as (e & q' & _ & _ & Hq & Hh' & _ & Hct).
  exists (negb (e_squashed e)), q'. split; [done|]. split; [done|].
  intros Hrun. apply negb_true_iff in Hrun. by rewrite Hct, Hrun.
Qed.

Lemma busy_queue_holds : holds busy_queue [((20, 0), 3); ((50, 0), 2); ((50, 0), 1)].
Proof.
  exists [((20, 0), [3]); ((50, 0), [2; 1])]. split; [|split; [done|]].
  - constructor.
    + eexists 3, _. split; [done|]. split; [reflexivity|]. split; [by repeat (split || eexists)|].
      eexists 2, _. split; [done|]. split; [reflexivity|]. split; [|done]. by repeat (split || eexists).
    + constructor; [by repeat constructor|]. apply Forall_singleton. by left.
    + apply (bool_decide_unpack (NoDup [3; 2; 1])). vm_compute. exact I.
  - intros x e He. cbn in He.
    repeat (apply lookup_insert_Some in He as [[<- <-]|[_ He]]; [done|]).
    apply lookup_singleton_Some in He as [<- <-]. done.
Qed.

Lemma events_served_in_order_witness :
  ∃ run q', serviceOne busy_queue = Ok (3, run, q') ∧ holds q' [((50, 0), 2); ((50, 0), 1)] ∧
    (run = true → curTick q' = 20).
Proof.
  destruct (events_served_in_order busy_queue (20, 0) 3 [((50, 0), 2); ((50, 0), 1)] busy_queue_holds)
    as (_ & _ & H). exact H.
Defined.

End EQ.
