(* ===== verification/EventService.v ===== *)
(** * What the event queue promises to the components it drives

    The components of the simulator see the event queue through
    [schedule()], [deschedule()], [reschedule()] and through the order in
    which the main loop ([sim/simulate.cc], [doSimLoop]) runs their events.
    [EventService] is that interface: an agenda of the events scheduled and
    their times, and the laws of the operations on it.  The queue of
    [sim/eventq.cc] is an instance. *)

From stdpp Require Import sorting.
From S2P Require Import Prelude.
From S2P Require Import EventQueue.

(** ** The interface *)

Class EventService (Q : Type) := {
  sv_time : Q → Z;
  sv_schedule : Q → Z → Z → res Q;
  sv_deschedule : Q → Z → res Q;
  sv_reschedule : Q → Z → Z → res Q;
  (** One iteration of the main loop: the event taken off, and whether it is
      to run. *)
  sv_next : Q → res (Z * bool * Q);
  (** The scheduled events and their times. *)
  sv_agenda : Q → gmap Z Z → Prop;
  sv_known : Q → Z → Prop;
}.

Class EventServiceLaws (Q : Type) `{EventService Q} : Prop := {
  sv_not_past q m x t : sv_agenda q m → m !! x = Some t → sv_time q ≤ t;
  sv_schedule_ok q m x t :
    sv_agenda q m → sv_known q x → m !! x = None → sv_time q ≤ t →
    ∃ q', sv_schedule q x t = Ok q' ∧ sv_agenda q' (<[x := t]> m) ∧ sv_time q' = sv_time q ∧
      ∀ y, sv_known q y → sv_known q' y;
  (** What the assertions of the operations let through. *)
  sv_schedule_inv q m x t q' :
    sv_agenda q m → sv_schedule q x t = Ok q' → sv_known q x ∧ m !! x = None ∧ sv_time q ≤ t;
  sv_deschedule_inv q m x q' : sv_agenda q m → sv_deschedule q x = Ok q' → is_Some (m !! x);
  sv_reschedule_inv q m x t q' :
    sv_agenda q m → sv_reschedule q x t = Ok q' → is_Some (m !! x) ∧ sv_time q ≤ t;
  sv_deschedule_ok q m x t :
    sv_agenda q m → m !! x = Some t →
    ∃ q', sv_deschedule q x = Ok q' ∧ sv_agenda q' (delete x m) ∧ sv_time q' = sv_time q ∧
      ∀ y, sv_known q y → sv_known q' y;
  sv_reschedule_ok q m x t0 t :
    sv_agenda q m → m !! x = Some t0 → sv_time q ≤ t →
    ∃ q', sv_reschedule q x t = Ok q' ∧ sv_agenda q' (<[x := t]> m) ∧ sv_time q' = sv_time q ∧
      ∀ y, sv_known q y → sv_known q' y;
  sv_next_empty q : sv_agenda q ∅ → sv_next q = Err AssertFail;
  (** The loop runs an event of the earliest time, at that time. *)
  sv_next_ok q m :
    sv_agenda q m → m ≠ ∅ →
    ∃ x t q', sv_next q = Ok (x, true, q') ∧ m !! x = Some t ∧
      (∀ y t', m !! y = Some t' → t ≤ t') ∧ sv_agenda q' (delete x m) ∧ sv_time q' = t ∧
      ∀ y, sv_known q y → sv_known q' y;
}.

(** ** The main loop over the event queue *)

Module Loop.
Import EQ.

Definition empty (q : EventQueue) : bool := match head q with None => true | Some _ => false end.

Definition nextTick (q : EventQueue) : res Z :=
  match head q with
  | None => Err Undef
  | Some x => e ← deref (store q) x; Ok (e_when e)
  end.

(** The body of the loop, without the requests of signal handlers. *)
Definition doSimLoop_body (q : EventQueue) : res (Z * bool * EventQueue) :=
  assertb (negb (empty q));;
  next ← nextTick q;
  assertb (curTick q <=? next);;
  serviceOne q.

(** ** The agenda of a queue *)

Definition times (l : list (Key * Z)) : gmap Z Z := list_to_map ((λ p, (snd p, fst (fst p))) <$> l).

Definition agenda (q : EventQueue) (m : gmap Z Z) : Prop :=
  ∃ l, holds q l ∧ no_squash (store q) ∧ m = times l ∧ ∀ x t, m !! x = Some t → curTick q ≤ t.

Definition known (q : EventQueue) (x : Z) : Prop := is_Some (store q !! x).

Lemma times_keys l : ((λ p : Key * Z, (snd p, fst (fst p))) <$> l).*1 = snd <$> l.
Proof. rewrite <-list_fmap_compose. by apply list_fmap_ext. Qed.

Lemma times_None l x : times l !! x = None ↔ x ∉ snd <$> l.
Proof. unfold times. rewrite <-not_elem_of_list_to_map. by rewrite times_keys. Qed.

Lemma times_perm l l' : NoDup (snd <$> l) → l ≡ₚ l' → times l = times l'.
Proof.
  intros Hnd Hp. apply list_to_map_proper; [by rewrite times_keys|]. by apply fmap_Permutation.
Qed.

Lemma abs_insert_perm k x l : abs_insert k x l ≡ₚ (k, x) :: l.
Proof.
  induction l as [|[k' y] l IH]; [done|]. cbn. destruct (key_ltb k' k); [|done].
  rewrite IH. apply Permutation_swap.
Qed.

Lemma times_insert k x l : NoDup (snd <$> l) → x ∉ snd <$> l → times (abs_insert k x l) = <[x := fst k]> (times l).
Proof.
  intros Hnd Hx. rewrite (times_perm _ ((k, x) :: l)); [done| |apply abs_insert_perm].
  rewrite abs_insert_perm. by constructor.
Qed.

Lemma times_remove x l : times (abs_remove x l) = delete x (times l).
Proof.
  unfold abs_remove, times. induction l as [|[k y] l IH]; [cbn; by rewrite delete_empty|].
  destruct (decide (y = x)) as [->|Hne].
  - rewrite filter_cons_False by (cbn; tauto). cbn. by rewrite delete_insert_eq.
  - rewrite filter_cons_True by done. cbn. rewrite delete_insert_ne by done. by rewrite IH.
Qed.

Lemma removed_keys x l : NoDup (snd <$> l) → NoDup (snd <$> abs_remove x l) ∧ x ∉ snd <$> abs_remove x l.
Proof.
  intros Hnd. split.
  - unfold abs_remove. induction l as [|[k y] l IH]; [done|].
    cbn in Hnd. apply NoDup_cons in Hnd as [Hy Hnd]. destruct (decide (y = x)) as [->|Hne].
    + rewrite filter_cons_False by (cbn; tauto). by apply IH.
    + rewrite filter_cons_True by done. cbn. constructor; [|by apply IH]. intros Hin.
      apply list_elem_of_fmap in Hin as ([k' y'] & -> & Hin). apply list_elem_of_filter in Hin as [_ Hin].
      apply Hy, list_elem_of_fmap. by exists (k', y').
  - intros Hin. apply list_elem_of_fmap in Hin as ([k' y'] & -> & Hin). apply list_elem_of_filter in Hin as [? _]. done.
Qed.

Lemma holds_flag q l x e : holds q l → store q !! x = Some e → e_scheduled e = bool_decide (x ∈ snd <$> l).
Proof. intros (bs & _ & -> & Hf) He. rewrite (Hf x e He). by rewrite flatten_ids. Qed.

Lemma holds_known q l x : holds q l → x ∈ snd <$> l → is_Some (store q !! x).
Proof. intros (bs & Hr & -> & _) Hx. rewrite flatten_ids in Hx. by eapply bseg_dom; [apply Hr|]. Qed.

Lemma tame_known h h' x : tame h h' → is_Some (h !! x) → is_Some (h' !! x).
Proof. intros [Hp _] [e He]. specialize (Hp x). rewrite He in Hp. by destruct (h' !! x). Qed.

Lemma scheduled_iff q l x e :
  holds q l → store q !! x = Some e → (e_scheduled e = true ↔ is_Some (times l !! x)).
Proof.
  intros Hh He. rewrite (holds_flag q l x e Hh He), bool_decide_eq_true.
  destruct (times l !! x) eqn:E.
  - split; [eauto|]. intros _. destruct (decide (x ∈ snd <$> l)) as [|Hn]; [done|].
    apply times_None in Hn. congruence.
  - apply times_None in E. split; [done|]. by intros [? ?].
Qed.

(** The times after [x] is put at [t]. *)
Lemma agenda_put q q' m l x t :
  (∀ y s, m !! y = Some s → curTick q ≤ s) → curTick q ≤ t → curTick q' = curTick q →
  holds q' l → no_squash (store q') → <[x := t]> m = times l → agenda q' (<[x := t]> m).
Proof.
  intros Hm Ht Hc Hh Hn He. exists l. do 3 (split; [done|]). intros y s Hy. rewrite Hc.
  apply lookup_insert_Some in Hy as [[_ <-]|[_ Hy]]; [done|by eapply Hm].
Qed.

Lemma queue_schedule q m x t :
  agenda q m → known q x → m !! x = None → curTick q ≤ t →
  ∃ q', schedule q x t = Ok q' ∧ agenda q' (<[x := t]> m) ∧ curTick q' = curTick q ∧
    ∀ y, known q y → known q' y.
Proof.
  intros (l & Hh & Hn & -> & Hm) [e He] Hx Ht. pose proof (holds_sorted _ _ Hh) as [_ Hnd].
  assert (e_scheduled e = false) as Hs.
  { apply not_true_iff_false. rewrite (scheduled_iff q l x e Hh He), Hx. by intros [? ?]. }
  destruct (schedule_ok q l x e t Hh He Ht Hs) as (q' & Hq & Hh' & Hc & Hta). exists q'. split; [done|].
  split; [|split; [done|intros y; by apply tame_known]].
  eapply (agenda_put q); [done..|by apply Hta|]. apply times_None in Hx. by rewrite times_insert.
Qed.

Lemma queue_schedule_inv q m x t q' :
  agenda q m → schedule q x t = Ok q' → known q x ∧ m !! x = None ∧ curTick q ≤ t.
Proof.
  intros (l & Hh & _ & -> & _) Hq. unfold schedule, deref in Hq. destruct (Z.leb_spec (curTick q) t); [|done].
  destruct (store q !! x) as [e|] eqn:He; [|done]. cbn in Hq. destruct (e_scheduled e) eqn:Hs; [done|].
  split; [by exists e|]. split; [|done]. apply eq_None_not_Some. rewrite <-(scheduled_iff q l x e Hh He), Hs. done.
Qed.

Lemma queue_deschedule_inv q m x q' : agenda q m → deschedule q x = Ok q' → is_Some (m !! x).
Proof.
  intros (l & Hh & _ & -> & _) Hq. unfold deschedule, deref in Hq. destruct (store q !! x) as [e|] eqn:He; [|done].
  cbn in Hq. destruct (e_scheduled e) eqn:Hs; [|done]. by apply (scheduled_iff q l x e Hh He).
Qed.

Lemma queue_reschedule_inv q m x t q' :
  agenda q m → reschedule q x t false = Ok q' → is_Some (m !! x) ∧ curTick q ≤ t.
Proof.
  intros (l & Hh & _ & -> & _) Hq. unfold reschedule, deref in Hq. destruct (Z.leb_spec (curTick q) t); [|done].
  destruct (store q !! x) as [e|] eqn:He; [|done]. cbn in Hq. destruct (e_scheduled e) eqn:Hs; [|done].
  split; [|done]. by apply (scheduled_iff q l x e Hh He).
Qed.

Lemma queue_deschedule q m x t :
  agenda q m → m !! x = Some t →
  ∃ q', deschedule q x = Ok q' ∧ agenda q' (delete x m) ∧ curTick q' = curTick q ∧
    ∀ y, known q y → known q' y.
Proof.
  intros (l & Hh & Hn & -> & Hm) Hx.
  assert (is_Some (store q !! x)) as [e He].
  { eapply holds_known; [exact Hh|]. destruct (decide (x ∈ snd <$> l)) as [|Hin]; [done|].
    apply times_None in Hin. congruence. }
  assert (e_scheduled e = true) as Hs by (rewrite (scheduled_iff q l x e Hh He); eauto).
  destruct (deschedule_ok q l x e Hh He Hs) as (q' & Hq & Hh' & Hc & Hta). exists q'. split; [done|].
  split; [|split; [done|intros y; by apply tame_known]].
  exists (abs_remove x l). split; [done|]. split; [by apply Hta|]. split; [by rewrite times_remove|].
  intros y s Hy. rewrite Hc. apply lookup_delete_Some in Hy as [_ Hy]. by eapply Hm.
Qed.

Lemma queue_reschedule q m x t0 t :
  agenda q m → m !! x = Some t0 → curTick q ≤ t →
  ∃ q', reschedule q x t false = Ok q' ∧ agenda q' (<[x := t]> m) ∧ curTick q' = curTick q ∧
    ∀ y, known q y → known q' y.
Proof.
  intros (l & Hh & Hn & -> & Hm) Hx Ht. pose proof (holds_sorted _ _ Hh) as [_ Hnd].
  assert (is_Some (store q !! x)) as [e He].
  { eapply holds_known; [exact Hh|]. destruct (decide (x ∈ snd <$> l)) as [|Hin]; [done|].
    apply times_None in Hin. congruence. }
  assert (e_scheduled e = true) as Hs by (rewrite (scheduled_iff q l x e Hh He); eauto).
  destruct (reschedule_ok q l x e t Hh He Ht Hs) as (q' & Hq & Hh' & Hc & Hta). exists q'. split; [done|].
  split; [|split; [done|intros y; by apply tame_known]].
  eapply (agenda_put q); [done..|by apply Hta|].
  destruct (removed_keys x l Hnd) as [Hnd' Hx']. rewrite times_insert by done.
  rewrite times_remove. cbn. by rewrite insert_delete_eq.
Qed.

Lemma times_first q k x l y t :
  holds q ((k, x) :: l) → times ((k, x) :: l) !! y = Some t → fst k ≤ t.
Proof.
  intros Hh Hy. destruct (holds_sorted _ _ Hh) as [Hs _]. apply StronglySorted_inv in Hs as [_ Hs].
  cbn in Hy. apply lookup_insert_Some in Hy as [[_ <-]|[_ Hy]]; [lia|].
  apply elem_of_list_to_map_2 in Hy. apply list_elem_of_fmap in Hy as ([k' y'] & [= -> ->] & Hin).
  rewrite Forall_forall in Hs. specialize (Hs _ Hin). cbn in *. unfold klt in Hs. lia.
Qed.

Lemma queue_next q m :
  agenda q m → m ≠ ∅ →
  ∃ x t q', doSimLoop_body q = Ok (x, true, q') ∧ m !! x = Some t ∧
    (∀ y t', m !! y = Some t' → t ≤ t') ∧ agenda q' (delete x m) ∧ curTick q' = t ∧
    ∀ y, known q y → known q' y.
Proof.
  intros (l & Hh & Hn & -> & Hm) Hne. destruct l as [|[k x] l]; [done|]. clear Hne.
  destruct (serviceOne_ok q k x l Hh) as (e & q' & He & Hk & Hq & Hh' & Hta & Hc).
  rewrite (Hn x e He) in Hq, Hc. cbn [negb] in Hq.
  assert (times ((k, x) :: l) !! x = Some (fst k)) as Hx by (cbn; by rewrite lookup_insert_eq).
  assert (head q = Some x) as Hhd.
  { unfold serviceOne in Hq. destruct (head q) as [z|]; [|done]. destruct (deref _ z); [|done]. cbn in Hq.
    destruct (match nextInBin _ with Some _ => _ | None => _ end) as [[hd h]|]; [|done]. cbn in Hq.
    destruct (negb _); injection Hq; congruence. }
  exists x, (fst k), q'. split.
  { unfold doSimLoop_body, empty, nextTick. rewrite Hhd. cbn [negb assertb mbind res_bind].
    rewrite (deref_some _ _ _ He). cbn [mbind res_bind].
    assert (e_when e = fst k) as -> by (by rewrite <-Hk). rewrite (proj2 (Z.leb_le _ _) (Hm x _ Hx)). exact Hq. }
  split; [done|]. split; [intros y t'; by apply (times_first q)|]. split; [|split; [done|intros y; by apply tame_known]].
  assert (delete x (times ((k, x) :: l)) = times l) as Hdel.
  { rewrite <-times_remove, abs_remove_first; [done|]. destruct (holds_sorted _ _ Hh) as [_ Hnd].
    by apply NoDup_cons in Hnd as [? _]. }
  exists l. split; [done|]. split; [by apply Hta|]. split; [done|].
  intros y t Hy. rewrite Hc. apply lookup_delete_Some in Hy as [_ Hy]. by apply (times_first q k x l y).
Qed.

Lemma queue_next_empty q : agenda q ∅ → doSimLoop_body q = Err AssertFail.
Proof.
  intros (l & (bs & Hr & -> & _) & _ & He & _). destruct bs as [|[k [|x b]] bs].
  - pose proof (rep_seg _ _ Hr) as Hb. cbn in Hb. unfold doSimLoop_body, empty. by rewrite Hb.
  - destruct (rep_seg _ _ Hr) as (z & e & _ & _ & Hc & _). cbn in Hc. done.
  - rewrite flatten_cons in He. cbn in He. symmetry in He. by apply insert_non_empty in He.
Qed.

(** ** The queue is an event service *)

#[export] Instance queue_service : EventService EventQueue := {
  sv_time := curTick;
  sv_schedule := schedule;
  sv_deschedule := deschedule;
  sv_reschedule q x t := reschedule q x t false;
  sv_next := doSimLoop_body;
  sv_agenda := agenda;
  sv_known := known;
}.

#[export] Instance queue_service_laws : EventServiceLaws EventQueue.
Proof.
  constructor; cbn.
  - intros q m x t (l & _ & _ & _ & Hm). apply Hm.
  - apply queue_schedule.
  - apply queue_schedule_inv.
  - apply queue_deschedule_inv.
  - apply queue_reschedule_inv.
  - apply queue_deschedule.
  - apply queue_reschedule.
  - apply queue_next_empty.
  - apply queue_next.
Qed.

End Loop.
