(* ===== verification/Bitfield.v ===== *)
(** * Bit field manipulation ([base/bitfield.hh], [base/bitfield.cc])

    The bit extraction and insertion helpers every address computation of
    the simulator goes through, at their 64-bit width, and the bit tricks
    (bit reversal by table, MSB/LSB search, population count, alignment to a
    power of two) with the specification each of them meets. *)

From S2P Require Import Prelude.
From S2P Require Import Intmath.

(** ** Definitions *)

Definition mask (nbits : Z) : Z :=
  if 64 <=? nbits then 2 ^ 64 - 1 else u64 (Z.shiftl 1 nbits - 1).

(** The value [bits] returns when its assertion holds. *)
Definition bits_val (val first last : Z) : Z :=
  Z.land (Z.shiftr val last) (mask (first - last + 1)).
Definition bits (val first last : Z) : res Z :=
  assertb (0 <=? first - last);; Ok (bits_val val first last).
Definition bit1 (val bit : Z) : res Z := bits val bit bit.

Definition mbits (val first last : Z) : Z :=
  Z.land val (Z.land (mask (first + 1)) (not64 (mask last))).
Definition mask2 (first last : Z) : Z := mbits (2 ^ 64 - 1) first last.

Definition sext (N val : Z) : res Z :=
  sign_bit ← bits val (N - 1) (N - 1);
  Ok (if sign_bit =? 0 then val else Z.lor val (not64 (mask N))).

Definition insertBits_val (val first last bit_val : Z) : Z :=
  let bmask := shl64 (mask (first - last + 1)) last in
  Z.lor (Z.land (shl64 bit_val last) bmask) (Z.land val (not64 bmask)).
Definition insertBits (val first last bit_val : Z) : res Z :=
  assertb (0 <=? first - last);; Ok (insertBits_val val first last bit_val).
Definition insertBit (val bit bit_val : Z) : res Z := insertBits val bit bit bit_val.
(** [replaceBits] stores what [insertBits] returns. *)
Definition replaceBits (val first last bit_val : Z) : res Z :=
  insertBits val first last bit_val.

Definition reverseLookUpTable : list Z :=
  [0x00; 0x80; 0x40; 0xC0; 0x20; 0xA0; 0x60; 0xE0; 0x10; 0x90; 0x50; 0xD0;
   0x30; 0xB0; 0x70; 0xF0; 0x08; 0x88; 0x48; 0xC8; 0x28; 0xA8; 0x68; 0xE8;
   0x18; 0x98; 0x58; 0xD8; 0x38; 0xB8; 0x78; 0xF8; 0x04; 0x84; 0x44; 0xC4;
   0x24; 0xA4; 0x64; 0xE4; 0x14; 0x94; 0x54; 0xD4; 0x34; 0xB4; 0x74; 0xF4;
   0x0C; 0x8C; 0x4C; 0xCC; 0x2C; 0xAC; 0x6C; 0xEC; 0x1C; 0x9C; 0x5C; 0xDC;
   0x3C; 0xBC; 0x7C; 0xFC; 0x02; 0x82; 0x42; 0xC2; 0x22; 0xA2; 0x62; 0xE2;
   0x12; 0x92; 0x52; 0xD2; 0x32; 0xB2; 0x72; 0xF2; 0x0A; 0x8A; 0x4A; 0xCA;
   0x2A; 0xAA; 0x6A; 0xEA; 0x1A; 0x9A; 0x5A; 0xDA; 0x3A; 0xBA; 0x7A; 0xFA;
   0x06; 0x86; 0x46; 0xC6; 0x26; 0xA6; 0x66; 0xE6; 0x16; 0x96; 0x56; 0xD6;
   0x36; 0xB6; 0x76; 0xF6; 0x0E; 0x8E; 0x4E; 0xCE; 0x2E; 0xAE; 0x6E; 0xEE;
   0x1E; 0x9E; 0x5E; 0xDE; 0x3E; 0xBE; 0x7E; 0xFE; 0x01; 0x81; 0x41; 0xC1;
   0x21; 0xA1; 0x61; 0xE1; 0x11; 0x91; 0x51; 0xD1; 0x31; 0xB1; 0x71; 0xF1;
   0x09; 0x89; 0x49; 0xC9; 0x29; 0xA9; 0x69; 0xE9; 0x19; 0x99; 0x59; 0xD9;
   0x39; 0xB9; 0x79; 0xF9; 0x05; 0x85; 0x45; 0xC5; 0x25; 0xA5; 0x65; 0xE5;
   0x15; 0x95; 0x55; 0xD5; 0x35; 0xB5; 0x75; 0xF5; 0x0D; 0x8D; 0x4D; 0xCD;
   0x2D; 0xAD; 0x6D; 0xED; 0x1D; 0x9D; 0x5D; 0xDD; 0x3D; 0xBD; 0x7D; 0xFD;
   0x03; 0x83; 0x43; 0xC3; 0x23; 0xA3; 0x63; 0xE3; 0x13; 0x93; 0x53; 0xD3;
   0x33; 0xB3; 0x73; 0xF3; 0x0B; 0x8B; 0x4B; 0xCB; 0x2B; 0xAB; 0x6B; 0xEB;
   0x1B; 0x9B; 0x5B; 0xDB; 0x3B; 0xBB; 0x7B; 0xFB; 0x07; 0x87; 0x47; 0xC7;
   0x27; 0xA7; 0x67; 0xE7; 0x17; 0x97; 0x57; 0xD7; 0x37; 0xB7; 0x77; 0xF7;
   0x0F; 0x8F; 0x4F; 0xCF; 0x2F; 0xAF; 0x6F; 0xEF; 0x1F; 0x9F; 0x5F; 0xDF;
   0x3F; 0xBF; 0x7F; 0xFF].

(** The loop of [reverseBits] for [T = uint64_t]. *)
Fixpoint reverseBits_loop (size : nat) (val output : Z) : Z :=
  match size with
  | O => output
  | S size =>
      reverseBits_loop size (Z.shiftr val 8)
        (Z.lor (shl64 output 8) (nth (Z.to_nat (Z.land val 0xff)) reverseLookUpTable 0))
  end.
Definition reverseBits (val : Z) (size : nat) : res Z :=
  assertb (Nat.leb size 8);; Ok (reverseBits_loop size val 0).

Definition findMsb_step (k : Z) (s : Z * Z) : Z * Z :=
  let '(val, msb) := s in
  if bits_val val (2 * k - 1) k =? 0 then (val, msb) else (Z.shiftr val k, msb + k).
Definition findMsbSet (val : Z) : Z :=
  if val =? 0 then 0 else
  let s := findMsb_step 2 (findMsb_step 4 (findMsb_step 8
             (findMsb_step 16 (findMsb_step 32 (val, 0))))) in
  let '(val, msb) := s in
  if bits_val val 1 1 =? 0 then msb else msb + 1.

Definition findLsb_step (k : Z) (s : Z * Z) : Z * Z :=
  let '(val, lsb) := s in
  if bits_val val (k - 1) 0 =? 0 then (Z.shiftr val k, lsb + k) else (val, lsb).
Definition findLsbSet (val : Z) : Z :=
  if val =? 0 then 64 else
  let s := findLsb_step 2 (findLsb_step 4 (findLsb_step 8
             (findLsb_step 16 (findLsb_step 32 (val, 0))))) in
  let '(val, lsb) := s in
  if bits_val val 0 0 =? 0 then lsb + 1 else lsb.

Definition isPow2 (v : Z) : bool := Z.land v (u64 (v - 1)) =? 0.

(** [__builtin_popcountl]: the number of bits set. *)
Fixpoint pos_popcount (p : positive) : Z :=
  match p with
  | xI q => 1 + pos_popcount q
  | xO q => pos_popcount q
  | xH => 1
  end.
Definition popCount (val : Z) : Z :=
  match val with Zpos p => pos_popcount p | _ => 0 end.

(** The branch of [popCount] for compilers without the builtin. *)
Definition popCount_pd (val : Z) : Z :=
  let m1 := 0x5555555555555555 in
  let m2 := 0x3333333333333333 in
  let m4 := 0x0f0f0f0f0f0f0f0f in
  let sum := 0x0101010101010101 in
  let val := u64 (val - Z.land (Z.shiftr val 1) m1) in
  let val := u64 (Z.land val m2 + Z.land (Z.shiftr val 2) m2) in
  let val := Z.land (u64 (val + Z.shiftr val 4)) m4 in
  Z.shiftr (u64 (val * sum)) 56.

Definition alignToPowerOfTwo (val : Z) : Z :=
  let val := u64 (val - 1) in
  let val := Z.lor val (Z.shiftr val 1) in
  let val := Z.lor val (Z.shiftr val 2) in
  let val := Z.lor val (Z.shiftr val 4) in
  let val := Z.lor val (Z.shiftr val 8) in
  let val := Z.lor val (Z.shiftr val 16) in
  let val := Z.lor val (Z.shiftr val 32) in
  u64 (val + 1).

(** [__builtin_ctzll]: the number of zeros below the lowest bit set. *)
Fixpoint pos_ctz (p : positive) : Z :=
  match p with xO q => 1 + pos_ctz q | _ => 0 end.
Definition ctz32 (value : Z) : Z :=
  match value with Zpos p => pos_ctz p | _ => 32 end.
Definition ctz64 (value : Z) : Z :=
  match value with Zpos p => pos_ctz p | _ => 64 end.

Arguments bits_val : simpl never.
Arguments insertBits_val : simpl never.
Arguments mask : simpl never.

(** ** Masks, extraction and insertion *)

Lemma mask_testbit n i :
  0 ≤ n → 0 ≤ i → Z.testbit (mask n) i = (i <? n) && (i <? 64).
Proof.
  intros Hn Hi. unfold mask. destruct (Z.leb_spec 64 n).
  - replace (2 ^ 64 - 1) with (Z.ones 64) by done. rewrite ones_testbit by lia. zcmp; done.
  - rewrite u64_testbit, Z.shiftl_1_l by done.
    replace (2 ^ n - 1) with (Z.ones n) by (rewrite Z.ones_equiv; lia).
    rewrite ones_testbit by lia. apply andb_comm.
Qed.
#[export] Hint Rewrite mask_testbit using lia : zbits.

Lemma mask_ones n : 0 ≤ n ≤ 64 → mask n = Z.ones n.
Proof. intros. zbits_ext i Hi. zcmp; done. Qed.

Lemma bits_val_testbit val first last i :
  0 ≤ last ≤ first → 0 ≤ i →
  Z.testbit (bits_val val first last) i =
    (i <? first - last + 1) && (i <? 64) && Z.testbit val (i + last).
Proof.
  intros. unfold bits_val. autorewrite with zbits. rewrite andb_comm. done.
Qed.

Lemma bits_val_spec val first last :
  0 ≤ last ≤ first → first < 64 →
  bits_val val first last = (val / 2 ^ last) mod 2 ^ (first - last + 1).
Proof.
  intros. unfold bits_val. rewrite mask_ones by lia.
  rewrite Z.land_ones, Z.shiftr_div_pow2 by lia. done.
Qed.

Lemma bits_ok val first last : last ≤ first → bits val first last = Ok (bits_val val first last).
Proof.
  intros. unfold bits, mbind, res_bind, assertb.
  by rewrite (proj2 (Z.leb_le 0 (first - last))) by lia.
Qed.

Lemma insertBits_ok val first last b :
  last ≤ first → insertBits val first last b = Ok (insertBits_val val first last b).
Proof.
  intros. unfold insertBits, mbind, res_bind, assertb.
  by rewrite (proj2 (Z.leb_le 0 (first - last))) by lia.
Qed.

Lemma insertBits_val_testbit val first last b i :
  0 ≤ last ≤ first → first < 64 → 0 ≤ i → is_u64 val →
  Z.testbit (insertBits_val val first last b) i =
    if (last <=? i) && (i <=? first) then Z.testbit b (i - last) else Z.testbit val i.
Proof.
  intros Hl Hf Hi Hv. unfold insertBits_val. autorewrite with zbits.
  assert (64 ≤ i → Z.testbit val i = false) as Hhi
    by (intros; by apply (testbit_above val 64)).
  destruct (Z.leb_spec last i); cbn [andb].
  - rewrite mask_testbit by lia. zcmp;
      rewrite ?andb_true_r, ?andb_false_r, ?orb_false_r, ?Hhi by lia; done.
  - rewrite (Z.testbit_neg_r (mask _)) by lia.
    zcmp; rewrite ?andb_true_r, ?andb_false_r, ?Hhi by lia; done.
Qed.

Lemma insertBits_val_range val first last b :
  0 ≤ last ≤ first → first < 64 → is_u64 val → is_u64 (insertBits_val val first last b).
Proof.
  intros Hl Hf Hv.
  assert (0 ≤ insertBits_val val first last b) as Hnn.
  { unfold insertBits_val. apply Z.lor_nonneg. split; apply Z.land_nonneg; left;
      [apply u64_range|apply Hv]. }
  split; [done|]. apply bounded_by_bits; [lia|done|].
  intros i Hi. rewrite insertBits_val_testbit by (done || lia). zcmp.
  by apply (testbit_above val 64).
Qed.

(** ** Lowest set bit *)

Lemma pos_ctz_spec p :
  0 ≤ pos_ctz p ∧ Z.testbit (Zpos p) (pos_ctz p) = true ∧
  ∀ i, 0 ≤ i < pos_ctz p → Z.testbit (Zpos p) i = false.
Proof.
  induction p as [p _|p (Hnn & Hb & Hlow)|]; cbn [pos_ctz].
  - split; [done|]. split; [done|]. intros; lia.
  - rewrite (Pos2Z.inj_xO p). split; [lia|]. split.
    + replace (1 + pos_ctz p) with (Z.succ (pos_ctz p)) by lia. by rewrite Z.double_bits_succ.
    + intros i Hi. destruct (Z.eqb_spec i 0) as [->|]; [apply Z.testbit_even_0|].
      replace i with (Z.succ (i - 1)) by lia. rewrite Z.double_bits_succ. apply Hlow. lia.
  - split; [done|]. split; [done|]. intros; lia.
Qed.

Lemma ctz64_spec v :
  0 < v → 0 ≤ ctz64 v ∧ Z.testbit v (ctz64 v) = true ∧
  ∀ i, 0 ≤ i < ctz64 v → Z.testbit v i = false.
Proof. destruct v as [|p|p]; try lia. intros _. apply pos_ctz_spec. Qed.

Lemma ctz64_unique v n :
  0 < v → 0 ≤ n → Z.testbit v n = true → (∀ i, 0 ≤ i < n → Z.testbit v i = false) →
  ctz64 v = n.
Proof.
  intros Hv Hn Hb Hlow. destruct (ctz64_spec v Hv) as (Hc & Hcb & Hcl).
  destruct (Z.lt_trichotomy (ctz64 v) n) as [Hlt|[Heq|Hgt]]; [|done|].
  - rewrite Hlow in Hcb by lia. done.
  - rewrite Hcl in Hb by lia. done.
Qed.

Lemma ctz64_lt v n : 0 < v < 2 ^ n → 0 ≤ n → ctz64 v < n.
Proof.
  intros [Hv Hlt] Hn. destruct (ctz64_spec v Hv) as (Hc & Hcb & _).
  destruct (Z.ltb_spec (ctz64 v) n); [done|].
  rewrite (testbit_above v n) in Hcb by lia. done.
Qed.

Lemma ctz64_shiftr v k : 0 < v → 0 ≤ k ≤ ctz64 v → ctz64 (Z.shiftr v k) = ctz64 v - k.
Proof.
  intros Hv Hk. destruct (ctz64_spec v Hv) as (Hc & Hcb & Hcl).
  assert (Z.testbit (Z.shiftr v k) (ctz64 v - k) = true) as Hb.
  { rewrite Z.shiftr_spec by lia. replace (ctz64 v - k + k) with (ctz64 v) by lia. done. }
  apply ctz64_unique; [|lia|done|].
  - assert (0 ≤ Z.shiftr v k) by (apply Z.shiftr_nonneg; lia).
    destruct (Z.eqb_spec (Z.shiftr v k) 0) as [E|]; [|lia].
    by rewrite E, Z.testbit_0_l in Hb.
  - intros i Hi. rewrite Z.shiftr_spec by lia. apply Hcl. lia.
Qed.

Lemma low_bits_zero v k : 0 < v → 0 ≤ k ≤ 64 →
  (bits_val v (k - 1) 0 =? 0) = (k <=? ctz64 v).
Proof.
  intros Hv Hk. destruct (ctz64_spec v Hv) as (Hc & Hcb & Hcl).
  assert (bits_val v (k - 1) 0 = v mod 2 ^ k) as ->.
  { unfold bits_val. replace (k - 1 - 0 + 1) with k by lia.
    rewrite mask_ones, Z.land_ones, Z.shiftr_0_r by lia. done. }
  destruct (Z.leb_spec k (ctz64 v)).
  - apply Z.eqb_eq. apply Z.bits_inj'. intros i Hi. rewrite Z.testbit_0_l.
    destruct (Z.ltb_spec i k).
    + rewrite Z.mod_pow2_bits_low by lia. apply Hcl. lia.
    + by rewrite Z.mod_pow2_bits_high by lia.
  - apply Z.eqb_neq. intros E.
    rewrite <-(Z.mod_pow2_bits_low v k) in Hcb by lia.
    by rewrite E, Z.testbit_0_l in Hcb.
Qed.

Lemma findLsb_step_spec k v lsb :
  0 < k ≤ 32 → 0 < v → ctz64 v < 2 * k →
  ∃ v' lsb', findLsb_step k (v, lsb) = (v', lsb') ∧ 0 < v' ∧ ctz64 v' < k ∧
    lsb' + ctz64 v' = lsb + ctz64 v.
Proof.
  intros Hk Hv Hc. unfold findLsb_step. rewrite low_bits_zero by lia.
  destruct (Z.leb_spec k (ctz64 v)).
  - eexists _, _. split; [done|]. rewrite ctz64_shiftr by lia.
    split; [|lia]. destruct (ctz64_spec v Hv) as (Hc0 & Hcb & _).
    assert (0 ≤ Z.shiftr v k) by (apply Z.shiftr_nonneg; lia).
    destruct (Z.eqb_spec (Z.shiftr v k) 0) as [E|]; [|lia].
    assert (Z.testbit (Z.shiftr v k) (ctz64 v - k) = true) as Hb.
    { rewrite Z.shiftr_spec by lia. by replace (ctz64 v - k + k) with (ctz64 v) by lia. }
    by rewrite E, Z.testbit_0_l in Hb.
  - eexists _, _. split; [done|]. lia.
Qed.

Lemma findLsbSet_ctz64 val : is_u64 val → findLsbSet val = ctz64 val.
Proof.
  intros [Hv0 Hv1]. unfold findLsbSet. destruct (Z.eqb_spec val 0) as [->|Hnz]; [done|].
  pose proof (ctz64_lt val 64 ltac:(lia) ltac:(lia)).
  edestruct (findLsb_step_spec 32 val 0) as (v1 & l1 & -> & ? & ? & ?); [lia..|].
  edestruct (findLsb_step_spec 16 v1 l1) as (v2 & l2 & -> & ? & ? & ?); [lia..|].
  edestruct (findLsb_step_spec 8 v2 l2) as (v3 & l3 & -> & ? & ? & ?); [lia..|].
  edestruct (findLsb_step_spec 4 v3 l3) as (v4 & l4 & -> & ? & ? & ?); [lia..|].
  edestruct (findLsb_step_spec 2 v4 l4) as (v5 & l5 & -> & ? & ? & ?); [lia..|].
  change (bits_val v5 0 0) with (bits_val v5 (1 - 1) 0). rewrite low_bits_zero by lia.
  destruct (ctz64_spec v5 ltac:(lia)) as (? & _). zcmp.
Qed.

(** ** Highest set bit *)

Lemma findMsb_step_spec k v msb :
  0 < k ≤ 32 → 0 < v < 2 ^ (2 * k) →
  ∃ v' msb', findMsb_step k (v, msb) = (v', msb') ∧ 0 < v' < 2 ^ k ∧
    msb' + Z.log2 v' = msb + Z.log2 v.
Proof.
  intros Hk Hv. unfold findMsb_step.
  assert (0 < 2 ^ k) by lia.
  assert (bits_val v (2 * k - 1) k = v / 2 ^ k) as ->.
  { rewrite bits_val_spec by lia. replace (2 * k - 1 - k + 1) with k by lia.
    apply Z.mod_small. replace (2 * k) with (k + k) in Hv by lia.
    rewrite Z.pow_add_r in Hv by lia.
    split; [apply Z.div_pos; lia|apply Z.div_lt_upper_bound; lia]. }
  destruct (Z.ltb_spec v (2 ^ k)).
  - rewrite Z.div_small by lia. eexists _, _. split; [done|]. lia.
  - assert (0 < v / 2 ^ k) by (apply Z.div_str_pos; lia).
    rewrite (proj2 (Z.eqb_neq _ 0)) by lia.
    eexists _, _. split; [done|]. rewrite log2_shiftr, Z.shiftr_div_pow2 by lia.
    replace (2 * k) with (k + k) in Hv by lia. rewrite Z.pow_add_r in Hv by lia.
    split; [|lia]. split; [lia|]. apply Z.div_lt_upper_bound; lia.
Qed.

Lemma findMsbSet_log2 val : 0 < val < 2 ^ 64 → findMsbSet val = Z.log2 val.
Proof.
  intros Hv. unfold findMsbSet. rewrite (proj2 (Z.eqb_neq val 0)) by lia.
  edestruct (findMsb_step_spec 32 val 0) as (v1 & m1 & -> & ? & ?); [lia..|].
  edestruct (findMsb_step_spec 16 v1 m1) as (v2 & m2 & -> & ? & ?); [lia..|].
  edestruct (findMsb_step_spec 8 v2 m2) as (v3 & m3 & -> & ? & ?); [lia..|].
  edestruct (findMsb_step_spec 4 v3 m3) as (v4 & m4 & -> & ? & ?); [lia..|].
  edestruct (findMsb_step_spec 2 v4 m4) as (v5 & m5 & -> & ? & E); [lia..|].
  assert (v5 = 1 ∨ v5 = 2 ∨ v5 = 3) as [-> | [-> | -> ]] by lia; simpl in *; lia.
Qed.

(** ** Population count *)

(** The number of bits set below position [n]. *)
Fixpoint bit_sum (n : nat) (x : Z) : Z :=
  match n with
  | O => 0
  | S n => bit_sum n x + Z.b2z (Z.testbit x (Z.of_nat n))
  end.

Lemma bit_sum_low n x :
  bit_sum (S n) x = Z.b2z (Z.testbit x 0) + bit_sum n (Z.div2 x).
Proof.
  induction n as [|n IH]; [simpl; lia|].
  change (bit_sum (S (S n)) x) with
    (bit_sum (S n) x + Z.b2z (Z.testbit x (Z.of_nat (S n)))).
  rewrite IH. cbn [bit_sum]. rewrite Z.div2_spec, Z.shiftr_spec by lia.
  replace (Z.of_nat n + 1) with (Z.of_nat (S n)) by lia. lia.
Qed.

Lemma popCount_div2 x : 0 ≤ x → popCount x = Z.b2z (Z.testbit x 0) + popCount (Z.div2 x).
Proof. destruct x as [|[p|p|]|p]; try lia; intros; reflexivity. Qed.

Lemma popCount_bit_sum n x : 0 ≤ x < 2 ^ Z.of_nat n → popCount x = bit_sum n x.
Proof.
  revert x. induction n as [|n IH]; intros x Hx.
  - change (2 ^ Z.of_nat 0) with 1 in Hx. assert (x = 0) as -> by lia. done.
  - rewrite popCount_div2, bit_sum_low by lia. f_equal. apply IH.
    rewrite Nat2Z.inj_succ, Z.pow_succ_r in Hx by lia.
    rewrite Z.div2_div. split; [apply Z.div_pos; lia|apply Z.div_lt_upper_bound; lia].
Qed.

Lemma popCount_nonneg x : 0 ≤ popCount x.
Proof. destruct x as [|p|p]; simpl; try lia. induction p; simpl; lia. Qed.

Lemma bit_sum_ext n x y :
  (∀ i, 0 ≤ i < Z.of_nat n → Z.testbit x i = Z.testbit y i) → bit_sum n x = bit_sum n y.
Proof.
  induction n as [|n IH]; intros H; [done|]. simpl. rewrite H by lia.
  f_equal. apply IH. intros. apply H. lia.
Qed.

(** A number assembled from its low [k] bits and the rest. *)
Lemma add_shifted_testbit x y k i :
  0 ≤ k → 0 ≤ x < 2 ^ k → 0 ≤ i →
  Z.testbit (x + 2 ^ k * y) i = if i <? k then Z.testbit x i else Z.testbit y (i - k).
Proof.
  intros Hk Hx Hi. rewrite Z.mul_comm, <-Z.shiftl_mul_pow2 by lia.
  assert (Z.land x (Z.shiftl y k) = 0) as Hd.
  { zbits_ext j Hj. rewrite Z.testbit_0_l. destruct (Z.ltb_spec j k).
    - rewrite (Z.testbit_neg_r y) by lia. apply andb_false_r.
    - rewrite (testbit_above x k) by lia. done. }
  rewrite Z.add_nocarry_lxor, Z.lxor_lor by done. autorewrite with zbits.
  destruct (Z.ltb_spec i k).
  - rewrite (Z.testbit_neg_r y) by lia. apply orb_false_r.
  - rewrite (testbit_above x k) by lia. done.
Qed.

Lemma bit_sum_split n k x y :
  0 ≤ x < 2 ^ Z.of_nat k →
  bit_sum (k + n) (x + 2 ^ Z.of_nat k * y) = bit_sum k x + bit_sum n y.
Proof.
  intros Hx. induction n as [|n IH].
  - rewrite Nat.add_0_r. simpl. rewrite Z.add_0_r. apply bit_sum_ext.
    intros i Hi. rewrite add_shifted_testbit by lia. zcmp; done.
  - rewrite Nat.add_succ_r. cbn [bit_sum]. rewrite IH, add_shifted_testbit by lia.
    destruct (Z.ltb_spec (Z.of_nat (k + n)) (Z.of_nat k)); [lia|].
    replace (Z.of_nat (k + n) - Z.of_nat k) with (Z.of_nat n) by lia. lia.
Qed.

Lemma popCount_split b y :
  0 ≤ b < 256 → 0 ≤ y < 2 ^ 56 → popCount (b + 256 * y) = popCount b + popCount y.
Proof.
  intros Hb Hy. rewrite (popCount_bit_sum 64), (popCount_bit_sum 8 b), (popCount_bit_sum 56 y);
    [|simpl; lia..].
  apply (bit_sum_split 56 8). simpl. lia.
Qed.

(** Masking works byte by byte when the mask repeats and a shift does not
    carry bits of one byte into another. *)
Definition byte_mask (m s : Z) : Prop :=
  (∀ i, 0 ≤ i < 56 → Z.testbit m (i + 8) = Z.testbit m i) ∧
  (∀ i, 8 - s ≤ i < 8 → 0 ≤ i → Z.testbit m i = false).

Lemma land_byte m s b y :
  byte_mask m s → 0 ≤ s → 0 ≤ m → 0 ≤ b < 256 → 0 ≤ y < 2 ^ 56 →
  Z.land (Z.shiftr (b + 256 * y) s) m =
    Z.land (Z.shiftr b s) m + 256 * Z.land (Z.shiftr y s) m.
Proof.
  intros [Hrep Hlow] Hs Hm Hb Hy. change 256 with (2 ^ 8) in *.
  assert (0 ≤ Z.land (Z.shiftr b s) m < 2 ^ 8) as Hlb.
  { assert (0 ≤ Z.land (Z.shiftr b s) m) as Hnn
      by (apply Z.land_nonneg; right; done).
    split; [done|]. apply bounded_by_bits; [lia|done|]. intros i Hi.
    rewrite Z.land_spec, Z.shiftr_spec, (testbit_above b 8) by lia. done. }
  apply Z.bits_inj'. intros i Hi.
  rewrite add_shifted_testbit by lia.
  autorewrite with zbits. rewrite add_shifted_testbit by lia.
  destruct (Z.ltb_spec i 8), (Z.ltb_spec (i + s) 8); try lia.
  - autorewrite with zbits. done.
  - autorewrite with zbits. rewrite Hlow by lia. by rewrite !andb_false_r.
  - autorewrite with zbits. replace (i - 8 + s) with (i + s - 8) by lia.
    destruct (Z.ltb_spec i 64).
    + replace (Z.testbit m i) with (Z.testbit m (i - 8 + 8)) by (f_equal; lia).
      rewrite Hrep by lia. done.
    + rewrite (testbit_above y 56) by lia. done.
Qed.

(** Bit patterns checked by evaluation. *)
Lemma forall_below (n : nat) (P : Z → bool) :
  forallb P (Z.of_nat <$> seq 0 n) = true → ∀ i, 0 ≤ i < Z.of_nat n → P i = true.
Proof.
  intros H i Hi. rewrite forallb_forall in H. apply H.
  apply list_elem_of_In, list_elem_of_fmap. exists (Z.to_nat i).
  split; [lia|]. apply elem_of_seq. lia.
Qed.

Lemma byte_mask_check m s :
  forallb (λ i, eqb (Z.testbit m (i + 8)) (Z.testbit m i)) (Z.of_nat <$> seq 0 56) = true →
  forallb (λ i, implb (8 - s <=? i) (negb (Z.testbit m i))) (Z.of_nat <$> seq 0 8) = true →
  byte_mask m s.
Proof.
  intros H1 H2. split.
  - intros i Hi. apply eqb_prop. by apply (forall_below 56 _ H1).
  - intros i Hi Hi0. pose proof (forall_below 8 _ H2 i ltac:(lia)) as E. simpl in E.
    rewrite (proj2 (Z.leb_le _ _)) in E by lia. simpl in E. by apply negb_true_iff.
Qed.

(** The three field-wise stages of [popCount_pd], without the wrap-around
    that never happens. *)
Definition pd_s1 (x : Z) : Z := x - Z.land (Z.shiftr x 1) 0x5555555555555555.
Definition pd_s2 (x : Z) : Z :=
  Z.land (Z.shiftr x 0) 0x3333333333333333 + Z.land (Z.shiftr x 2) 0x3333333333333333.
Definition pd_s3 (x : Z) : Z :=
  Z.land (x + Z.shiftr x 4) 0x0f0f0f0f0f0f0f0f.

Lemma land_le_l x y : 0 ≤ x → Z.land x y ≤ x.
Proof.
  intros Hx. assert (Z.ldiff x y = x - Z.land x y) as E.
  { rewrite <-(Z.lor_ldiff_and x y) at 2.
    rewrite <-Z.lxor_lor, <-Z.add_nocarry_lxor; [lia|..];
      (apply Z.bits_inj'; intros i Hi; rewrite !Z.land_spec, Z.ldiff_spec, Z.testbit_0_l;
       destruct (Z.testbit x i), (Z.testbit y i); done). }
  assert (0 ≤ Z.ldiff x y) by (apply Z.ldiff_nonneg; left; done). lia.
Qed.

Lemma shiftr_le x k : 0 ≤ x → 0 ≤ k → 0 ≤ Z.shiftr x k ≤ x.
Proof.
  intros Hx Hk. rewrite Z.shiftr_div_pow2 by done. assert (0 < 2 ^ k) by lia.
  split; [apply Z.div_pos; lia|apply Z.div_le_upper_bound; nia].
Qed.

Lemma pd_s1_byte b y : 0 ≤ b < 256 → 0 ≤ y < 2 ^ 56 →
  pd_s1 (b + 256 * y) = pd_s1 b + 256 * pd_s1 y ∧
  0 ≤ pd_s1 b < 256 ∧ 0 ≤ pd_s1 y < 2 ^ 56.
Proof.
  intros Hb Hy. unfold pd_s1. rewrite land_byte; [|by apply byte_mask_check|lia..].
  assert (∀ z, 0 ≤ z → 0 ≤ Z.land (Z.shiftr z 1) 0x5555555555555555 ≤ z) as H.
  { intros z Hz. pose proof (shiftr_le z 1 ltac:(lia) ltac:(lia)).
    pose proof (land_le_l (Z.shiftr z 1) 0x5555555555555555 ltac:(lia)).
    assert (0 ≤ Z.land (Z.shiftr z 1) 0x5555555555555555) by (apply Z.land_nonneg; lia). lia. }
  pose proof (H b ltac:(lia)). pose proof (H y ltac:(lia)). lia.
Qed.

Abbreviation pd_m4 := 0x0f0f0f0f0f0f0f0f.

(** One byte, by evaluation: its two nibbles after the second stage hold
    counts of at most four, and their sum is its population count. *)
Lemma pd_byte_table b : 0 ≤ b < 256 →
  0 ≤ pd_s2 (pd_s1 b) mod 16 ≤ 4 ∧ 0 ≤ pd_s2 (pd_s1 b) / 16 ≤ 4 ∧
  pd_s2 (pd_s1 b) mod 16 + pd_s2 (pd_s1 b) / 16 = popCount b.
Proof.
  intros Hb.
  pose proof (forall_below 256 (λ b,
    (0 <=? pd_s2 (pd_s1 b) mod 16) && (pd_s2 (pd_s1 b) mod 16 <=? 4) &&
    (0 <=? pd_s2 (pd_s1 b) / 16) && (pd_s2 (pd_s1 b) / 16 <=? 4) &&
    (pd_s2 (pd_s1 b) mod 16 + pd_s2 (pd_s1 b) / 16 =? popCount b))
    ltac:(vm_compute; reflexivity) b ltac:(lia)) as H.
  cbv beta in H. bool_to_prop. repeat split; assumption.
Qed.

Lemma pd_nibbles_land a b : 0 ≤ a < 16 → 0 ≤ b < 16 → Z.land (a + 16 * b) pd_m4 = a.
Proof.
  intros Ha Hb.
  pose proof (forall_below 256 (λ x, Z.land x pd_m4 =? x mod 16)
    ltac:(vm_compute; reflexivity) (a + 16 * b) ltac:(lia)) as H.
  cbv beta in H. apply Z.eqb_eq in H. rewrite H.
  rewrite Z.mul_comm, Z_mod_plus_full. by apply Z.mod_small.
Qed.

(** [x] is [n] bytes whose nibbles are at most four; [p] is their sum. *)
Fixpoint pd_nibbles (n : nat) (x p : Z) : Prop :=
  match n with
  | O => x = 0 ∧ p = 0
  | S n => ∃ l h y q, x = l + 16 * h + 256 * y ∧ 0 ≤ l ≤ 4 ∧ 0 ≤ h ≤ 4 ∧
             p = l + h + q ∧ pd_nibbles n y q
  end.

Lemma pd_nibbles_bound n x p :
  pd_nibbles n x p → 0 ≤ x ∧ 3 * x < 2 ^ (8 * Z.of_nat n) ∧ 0 ≤ x mod 16 ≤ 4.
Proof.
  revert x p. induction n as [|n IH]; intros x p; simpl.
  - intros [-> _]. done.
  - intros (l & h & y & q & -> & Hl & Hh & _ & Hy). destruct (IH _ _ Hy) as (? & ? & _).
    replace (8 * Z.of_nat (S n)) with (8 + 8 * Z.of_nat n) by lia.
    rewrite Z.pow_add_r by lia. split; [lia|]. split; [lia|].
    replace (l + 16 * h + 256 * y) with (l + (h + 16 * y) * 16) by lia.
    rewrite Z_mod_plus_full, Z.mod_small; lia.
Qed.

Lemma pd_s2_byte b y : 0 ≤ b < 256 → 0 ≤ y < 2 ^ 56 →
  pd_s2 (b + 256 * y) = pd_s2 b + 256 * pd_s2 y.
Proof.
  intros Hb Hy. unfold pd_s2. rewrite !land_byte by (by apply byte_mask_check || lia). lia.
Qed.

(** After two stages every nibble counts its own bits. *)
Lemma pd_stage12 n x : (n ≤ 8)%nat → 0 ≤ x < 2 ^ (8 * Z.of_nat n) →
  pd_nibbles n (pd_s2 (pd_s1 x)) (popCount x) ∧ 0 ≤ pd_s1 x < 2 ^ (8 * Z.of_nat n).
Proof.
  revert x. induction n as [|n IH]; intros x Hn Hx.
  { change (2 ^ (8 * Z.of_nat 0)) with 1 in *. assert (x = 0) as -> by lia. done. }
  replace (8 * Z.of_nat (S n)) with (8 + 8 * Z.of_nat n) in * by lia.
  rewrite Z.pow_add_r in * by lia. change (2 ^ 8) with 256 in *.
  assert (2 ^ (8 * Z.of_nat n) ≤ 2 ^ 56) by (apply Z.pow_le_mono_r; lia).
  pose proof (Z.div_mod x 256 ltac:(lia)) as E.
  pose proof (Z.mod_pos_bound x 256 ltac:(lia)) as Hb.
  assert (0 ≤ x / 256 < 2 ^ (8 * Z.of_nat n)) as Hy
    by (split; [apply Z.div_pos; lia|apply Z.div_lt_upper_bound; lia]).
  destruct (IH (x / 256) ltac:(lia) Hy) as (H1 & H2).
  set (b := x mod 256) in *. set (y := x / 256) in *. clearbody b y.
  replace x with (b + 256 * y) by lia.
  destruct (pd_s1_byte b y) as (-> & ? & ?); [lia..|].
  rewrite pd_s2_byte, popCount_split by lia. split; [|lia].
  destruct (pd_byte_table b Hb) as (Hl & Hh & Hp).
  exists (pd_s2 (pd_s1 b) mod 16), (pd_s2 (pd_s1 b) / 16), (pd_s2 (pd_s1 y)), (popCount y).
  pose proof (Z.div_mod (pd_s2 (pd_s1 b)) 16 ltac:(lia)).
  split; [lia|]. split; [lia|]. split; [lia|]. split; [lia|done].
Qed.

(** The third stage adds the nibbles of each byte. *)
Fixpoint pd_bytes (n : nat) (x p : Z) : Prop :=
  match n with
  | O => x = 0 ∧ p = 0
  | S n => ∃ c y q, x = c + 256 * y ∧ 0 ≤ c ≤ 8 ∧ p = c + q ∧ pd_bytes n y q
  end.

Lemma pd_stage3 n x p :
  (n ≤ 8)%nat → pd_nibbles n x p → pd_bytes n (pd_s3 x) p.
Proof.
  revert x p. induction n as [|n IH]; intros x p Hn; simpl.
  { intros [-> ->]. done. }
  intros (l & h & y & q & -> & Hl & Hh & -> & Hy).
  destruct (pd_nibbles_bound _ _ _ Hy) as (Hy0 & Hy1 & Hym).
  exists (l + h), (pd_s3 y), q.
  split; [|split; [lia|]; split; [lia|]; apply IH; [lia|done]].
  unfold pd_s3.
  assert (2 ^ (8 * Z.of_nat n) ≤ 2 ^ 56) by (apply Z.pow_le_mono_r; lia).
  pose proof (Z.div_mod y 16 ltac:(lia)) as Ey.
  assert (0 ≤ y / 16 ≤ y)
    by (split; [apply Z.div_pos; lia|apply Z.div_le_upper_bound; lia]).
  rewrite !Z.shiftr_div_pow2 by lia. change (2 ^ 4) with 16.
  replace ((l + 16 * h + 256 * y) / 16) with (h + 16 * y)
    by (apply Z.div_unique with l; lia).
  replace (l + 16 * h + 256 * y + (h + 16 * y))
    with ((l + h) + 16 * (h + y mod 16) + 256 * (y + y / 16)) by lia.
  rewrite <-(Z.shiftr_0_r (_ + _ + _)).
  rewrite land_byte; [|by apply byte_mask_check|lia..].
  rewrite !Z.shiftr_0_r, pd_nibbles_land by lia. done.
Qed.

(** The multiplication sums the eight bytes into the top one. *)
Lemma pd_horizontal_sum x p :
  pd_bytes 8 x p → 0 ≤ x < 2 ^ 64 ∧ Z.shiftr (u64 (x * 0x0101010101010101)) 56 = p.
Proof.
  intros (c0 & ? & ? & -> & ? & -> & c1 & ? & ? & -> & ? & -> & c2 & ? & ? & -> & ? & -> &
    c3 & ? & ? & -> & ? & -> & c4 & ? & ? & -> & ? & -> & c5 & ? & ? & -> & ? & -> &
    c6 & ? & ? & -> & ? & -> & c7 & ? & ? & -> & ? & -> & -> & ->).
  split; [lia|].
  set (low := (c0) + 256 * ((c0 + c1) + 256 * ((c0 + c1 + c2) + 256 * ((c0 + c1 + c2 + c3) + 256 * ((c0 + c1 + c2 + c3 + c4) + 256 * ((c0 + c1 + c2 + c3 + c4 + c5) + 256 * ((c0 + c1 + c2 + c3 + c4 + c5 + c6) + 256 * ((c0 + c1 + c2 + c3 + c4 + c5 + c6 + c7))))))))).
  set (high := (c1 + c2 + c3 + c4 + c5 + c6 + c7) + 256 * ((c2 + c3 + c4 + c5 + c6 + c7) + 256 * ((c3 + c4 + c5 + c6 + c7) + 256 * ((c4 + c5 + c6 + c7) + 256 * ((c5 + c6 + c7) + 256 * ((c6 + c7) + 256 * ((c7)))))))).
  assert (0 ≤ low < 2 ^ 64) as Hlow by (subst low; lia).
  match goal with |- Z.shiftr (u64 ?e) _ = _ =>
    replace e with (low + high * 2 ^ 64) by (subst low high; ring) end.
  unfold u64. rewrite Z_mod_plus_full, Z.mod_small by done.
  rewrite Z.shiftr_div_pow2 by lia. symmetry.
  apply Z.div_unique with (low - (c0 + c1 + c2 + c3 + c4 + c5 + c6 + c7) * 2 ^ 56); subst low high; lia.
Qed.

Lemma popCount_pd_correct x : is_u64 x → popCount_pd x = popCount x.
Proof.
  intros Hx. destruct (pd_stage12 8 x) as (Hnib & Hs1); [lia|exact Hx|].
  destruct (pd_nibbles_bound _ _ _ Hnib) as (Hs2 & Hs2' & _).
  change (2 ^ (8 * Z.of_nat 8)) with (2 ^ 64) in *.
  destruct (pd_horizontal_sum _ _ (pd_stage3 8 _ _ ltac:(lia) Hnib)) as [_ Hp].
  rewrite <-Hp. unfold popCount_pd. cbv zeta. fold (pd_s1 x). rewrite (u64_small (pd_s1 x)) by lia.
  replace (Z.land (pd_s1 x) 3689348814741910323 + Z.land (Z.shiftr (pd_s1 x) 2) 3689348814741910323)
    with (pd_s2 (pd_s1 x)) by (unfold pd_s2; by rewrite Z.shiftr_0_r).
  rewrite (u64_small (pd_s2 (pd_s1 x))) by lia.
  rewrite (u64_small (_ + Z.shiftr _ 4)); [done|].
  pose proof (shiftr_le (pd_s2 (pd_s1 x)) 4 ltac:(lia) ltac:(lia)). lia.
Qed.

(** ** Alignment to a power of two *)

(** [x] has its highest bit at [L] and the [k] bits from there down set. *)
Definition smeared (x L k : Z) : Prop :=
  (∀ i, L < i → Z.testbit x i = false) ∧
  (∀ i, 0 ≤ i → L - k < i ≤ L → Z.testbit x i = true).

Lemma smear_step x L k :
  0 ≤ k → smeared x L k → smeared (Z.lor x (Z.shiftr x k)) L (2 * k).
Proof.
  intros Hk [Hhi Hlo]. split; intros i.
  - intros Hi. destruct (Z.ltb_spec i 0).
    { by rewrite Z.testbit_neg_r by done. }
    autorewrite with zbits. rewrite !Hhi by lia. done.
  - intros Hi0 Hi. autorewrite with zbits. destruct (Z.ltb_spec (L - k) i).
    + rewrite Hlo by lia. done.
    + rewrite (Hlo (i + k)) by lia. apply orb_true_r.
Qed.

Lemma smeared_all x L k : 0 ≤ L → L < k → smeared x L k → x = Z.ones (L + 1).
Proof.
  intros HL Hk [Hhi Hlo]. zbits_ext i Hi. destruct (Z.ltb_spec i (L + 1)).
  - apply Hlo; lia.
  - apply Hhi; lia.
Qed.

Lemma alignToPowerOfTwo_spec val :
  1 ≤ val < 2 ^ 64 → alignToPowerOfTwo val = u64 (2 ^ Z.log2_up val).
Proof.
  intros Hv. unfold alignToPowerOfTwo. rewrite (u64_small (val - 1)) by lia.
  destruct (Z.eqb_spec val 1) as [->|Hne]; [done|].
  set (w := val - 1). assert (0 < w < 2 ^ 64) as Hw by lia.
  set (L := Z.log2 w).
  assert (0 ≤ L < 64) as HL.
  { split; [apply Z.log2_nonneg|]. apply Z.log2_lt_pow2; lia. }
  assert (smeared w L 1) as S1.
  { split; intros i.
    - intros Hi. apply Z.bits_above_log2; [lia|done].
    - intros _ Hi. replace i with L by lia. apply Z.bit_log2. lia. }
  apply smear_step in S1; [|lia]. apply smear_step in S1; [|lia].
  apply smear_step in S1; [|lia]. apply smear_step in S1; [|lia].
  apply smear_step in S1; [|lia]. apply smear_step in S1; [|lia].
  apply smeared_all in S1; [|lia..]. cbv zeta.
  change (2 * 1) with 2 in S1. change (2 * 2) with 4 in S1. change (2 * 4) with 8 in S1.
  change (2 * 8) with 16 in S1. change (2 * 16) with 32 in S1.
  rewrite S1, log2_up_pred by lia. fold w L. rewrite Z.ones_equiv. f_equal. lia.
Qed.

(** ** Bit reversal *)

Lemma reverseLookUpTable_spec b i :
  0 ≤ b < 256 → 0 ≤ i < 8 →
  Z.testbit (nth (Z.to_nat b) reverseLookUpTable 0) (7 - i) = Z.testbit b i.
Proof.
  intros Hb Hi.
  assert (forallb (λ b, forallb (λ i, eqb
      (Z.testbit (nth (Z.to_nat b) reverseLookUpTable 0) (7 - i)) (Z.testbit b i))
      (Z.of_nat <$> seq 0 8)) (Z.of_nat <$> seq 0 256) = true) as H
    by (vm_compute; reflexivity).
  pose proof (forall_below 256 _ H b ltac:(lia)) as Hb'. cbv beta in Hb'.
  apply eqb_prop. by apply (forall_below 8 _ Hb').
Qed.

Lemma reverseLookUpTable_range b :
  0 ≤ b < 256 → 0 ≤ nth (Z.to_nat b) reverseLookUpTable 0 < 256.
Proof.
  intros Hb.
  pose proof (forall_below 256 (λ b, (0 <=? nth (Z.to_nat b) reverseLookUpTable 0) &&
    (nth (Z.to_nat b) reverseLookUpTable 0 <? 256))
    ltac:(vm_compute; reflexivity) b ltac:(lia)) as H.
  cbv beta in H. bool_to_prop. lia.
Qed.

Lemma reverseBits_loop_testbit n val out j :
  0 ≤ j < 64 →
  Z.testbit (reverseBits_loop n val out) j =
    if j <? 8 * Z.of_nat n then Z.testbit val (8 * Z.of_nat n - 1 - j)
    else Z.testbit out (j - 8 * Z.of_nat n).
Proof.
  revert val out. induction n as [|n IH]; intros val out Hj; cbn [reverseBits_loop].
  { change (8 * Z.of_nat 0) with 0. destruct (Z.ltb_spec j 0); [lia|]. f_equal. lia. }
  rewrite IH by done. rewrite Nat2Z.inj_succ.
  assert (0 ≤ Z.land val 255 < 256) as Hb.
  { change 255 with (Z.ones 8). rewrite Z.land_ones by lia. by apply Z.mod_pos_bound. }
  destruct (Z.ltb_spec j (8 * Z.of_nat n)); zcmp.
  - rewrite Z.shiftr_spec by lia. f_equal. lia.
  - autorewrite with zbits. rewrite (Z.testbit_neg_r out) by lia.
    rewrite andb_false_r. cbn [orb].
    replace (j - 8 * Z.of_nat n) with (7 - (7 - (j - 8 * Z.of_nat n))) by lia.
    rewrite reverseLookUpTable_spec by lia.
    change 255 with (Z.ones 8). autorewrite with zbits. zcmp.
    rewrite andb_true_r. f_equal. lia.
  - autorewrite with zbits.
    rewrite (testbit_above (nth _ _ _) 8) by (try apply reverseLookUpTable_range; lia).
    rewrite orb_false_r. zcmp. f_equal. lia.
Qed.

Lemma reverseBits_loop_range n val out :
  is_u64 out → is_u64 (reverseBits_loop n val out).
Proof.
  revert val out. induction n as [|n IH]; intros val out Ho; cbn [reverseBits_loop]; [done|].
  apply IH. assert (0 ≤ Z.land val 255 < 256) as Hb.
  { change 255 with (Z.ones 8). rewrite Z.land_ones by lia. by apply Z.mod_pos_bound. }
  pose proof (reverseLookUpTable_range _ Hb) as Hr.
  assert (0 ≤ Z.lor (shl64 out 8) (nth (Z.to_nat (Z.land val 255)) reverseLookUpTable 0)) as Hnn
    by (apply Z.lor_nonneg; split; [apply u64_range|lia]).
  split; [done|]. apply bounded_by_bits; [lia|done|]. intros i Hi.
  autorewrite with zbits. zcmp. by apply (testbit_above _ 8); lia.
Qed.

(** ** Theorems *)

(** Writing a field of a 64-bit word with [insertBits] changes exactly the
    bits of the field: [bits] reads the written value back (truncated to the
    width of the field), and every field disjoint from it reads as before. *)
Theorem field_update val first last b :
  0 ≤ last ≤ first → first < 64 → is_u64 val →
  ∃ v, insertBits val first last b = Ok v ∧ is_u64 v ∧
    bits v first last = Ok (b mod 2 ^ (first - last + 1)) ∧
    ∀ f l, 0 ≤ l ≤ f → f < 64 → f < last ∨ first < l → bits v f l = bits val f l.
Proof.
  intros Hl Hf Hv. rewrite insertBits_ok by lia. eexists. split; [done|].
  split; [by apply insertBits_val_range|]. split.
  - rewrite bits_ok by lia. f_equal. apply Z.bits_inj'. intros i Hi.
    rewrite bits_val_testbit by lia. destruct (Z.ltb_spec i (first - last + 1)).
    + rewrite insertBits_val_testbit, Z.mod_pow2_bits_low by (done || lia). zcmp.
      f_equal. lia.
    + rewrite Z.mod_pow2_bits_high by lia. done.
  - intros f l Hlf Hf64 Hd. rewrite !bits_ok by lia. f_equal. apply Z.bits_inj'. intros i Hi.
    rewrite !bits_val_testbit by lia. destruct (Z.ltb_spec i (f - l + 1)); [|done].
    rewrite insertBits_val_testbit by (done || lia). by zcmp.
Qed.

Lemma field_update_witness :
  ∃ v, insertBits 0xFFFF 7 4 0 = Ok v ∧ is_u64 v ∧ bits v 7 4 = Ok (0 mod 2 ^ (7 - 4 + 1)) ∧
    ∀ f l, 0 ≤ l ≤ f → f < 64 → f < 4 ∨ 7 < l → bits v f l = bits 0xFFFF f l.
Proof. apply (field_update 0xFFFF 7 4 0); [lia|lia|split; lia]. Defined.

(** The portable parallel-sum branch of [popCount] returns the number of
    bits set in every 64-bit value, as the compiler builtin does. *)
Theorem popCount_branches_agree x :
  is_u64 x → popCount_pd x = popCount x ∧ popCount x = bit_sum 64 x.
Proof. intros Hx. split; [by apply popCount_pd_correct|by apply popCount_bit_sum]. Qed.

Lemma popCount_branches_agree_witness :
  popCount_pd 0xDEADBEEF = 24 ∧ popCount 0xDEADBEEF = 24.
Proof.
  destruct (popCount_branches_agree 0xDEADBEEF) as [H1 H2]; [split; lia|].
  rewrite H1, H2. split; reflexivity.
Defined.

(** [findMsbSet] and [findLsbSet] return the positions of the highest and
    of the lowest bit set, and [alignToPowerOfTwo] the least power of two not
    below its argument, wrapping to zero above [2^63]. *)
Theorem bit_search_correct v :
  0 < v < 2 ^ 64 →
  findMsbSet v = Z.log2 v ∧
  (Z.testbit v (findLsbSet v) = true ∧ ∀ i, 0 ≤ i < findLsbSet v → Z.testbit v i = false) ∧
  alignToPowerOfTwo v = (if v <=? 2 ^ 63 then 2 ^ Z.log2_up v else 0).
Proof.
  intros Hv. split; [by apply findMsbSet_log2|]. split.
  - rewrite findLsbSet_ctz64 by (split; lia). destruct (ctz64_spec v) as (? & ? & ?); [lia|done].
  - rewrite alignToPowerOfTwo_spec by lia. destruct (Z.leb_spec v (2 ^ 63)).
    + apply u64_small. split; [lia|]. apply Z.pow_lt_mono_r; [lia..|].
      assert (Z.log2_up v ≤ 63) by (apply Z.log2_up_le_pow2; lia). lia.
    + assert (Z.log2_up v = 64) as -> by (apply Z.log2_up_unique; lia). done.
Qed.

Lemma bit_search_correct_witness :
  findMsbSet 0x30000000 = 29 ∧
  (Z.testbit 0x30000000 (findLsbSet 0x30000000) = true ∧
   ∀ i, 0 ≤ i < findLsbSet 0x30000000 → Z.testbit 0x30000000 i = false) ∧
  alignToPowerOfTwo 0x30000000 = 0x40000000.
Proof. apply (bit_search_correct 0x30000000). lia. Defined.

(** [reverseBits] on [size] bytes mirrors the bits of its argument: bit
    [8 size - 1 - i] of the result is bit [i] of the value, and reversing
    twice restores a value of that many bytes. *)
Theorem reverseBits_mirror val n :
  (n ≤ 8)%nat → 0 ≤ val < 2 ^ (8 * Z.of_nat n) →
  ∃ v, reverseBits val n = Ok v ∧
    (∀ i, 0 ≤ i < 8 * Z.of_nat n → Z.testbit v (8 * Z.of_nat n - 1 - i) = Z.testbit val i) ∧
    reverseBits v n = Ok val.
Proof.
  intros Hn Hv. unfold reverseBits, mbind, res_bind, assertb.
  rewrite (proj2 (Nat.leb_le n 8)) by done. eexists. split; [done|].
  pose proof (reverseBits_loop_range n) as Hr.
  assert (is_u64 0) as H0 by (split; lia).
  split.
  - intros i Hi. rewrite reverseBits_loop_testbit by lia. zcmp. f_equal. lia.
  - f_equal. apply Z.bits_inj'. intros i Hi. destruct (Z.ltb_spec i 64).
    + rewrite reverseBits_loop_testbit by lia. destruct (Z.ltb_spec i (8 * Z.of_nat n)).
      * rewrite reverseBits_loop_testbit by lia. zcmp. f_equal. lia.
      * rewrite Z.testbit_0_l. symmetry. by apply (testbit_above val (8 * Z.of_nat n)).
    + rewrite (testbit_above (reverseBits_loop _ _ _) 64) by (by apply Hr || lia).
      symmetry. apply (testbit_above val (8 * Z.of_nat n)); lia.
Qed.

Lemma reverseBits_mirror_witness :
  ∃ v, reverseBits 0x30 1 = Ok v ∧
    (∀ i, 0 ≤ i < 8 * Z.of_nat 1 → Z.testbit v (8 * Z.of_nat 1 - 1 - i) = Z.testbit 0x30 i) ∧
    reverseBits v 1 = Ok 0x30.
Proof. apply (reverseBits_mirror 0x30 1); lia. Defined.
