(* ===== verification/AddrRange.v ===== *)
(** * Address ranges ([base/addr_range.hh])

    A range is an interval of addresses, possibly interleaved: bit [i] of the
    selector is the parity of the address bits picked by [masks[i]], and an
    address belongs to the range when the selector equals [intlvMatch].  The
    memory map of the simulated system (volatile memory, NVM) is a set of
    such ranges. *)

From stdpp Require Import sorting.
From S2P Require Import Prelude.
From S2P Require Import Intmath.
From S2P Require Import Bitfield.

(** ** Definitions *)

Record AddrRange := mkAddrRange {
  r_start : Z;
  r_end : Z;
  r_masks : list Z;
  r_intlvMatch : Z;
}.

#[export] Instance AddrRange_eq_dec : EqDecision AddrRange.
Proof. solve_decision. Defined.

Definition MaxAddr : Z := 2 ^ 64 - 1.

(** The constructors. *)
Definition AddrRange_empty : AddrRange := mkAddrRange 1 0 [] 0.
Definition AddrRange_of (s e : Z) : AddrRange := mkAddrRange s e [] 0.
Definition AddrRange_masks (s e : Z) (masks : list Z) (m : Z) : res AddrRange :=
  fatal_if (negb (bool_decide (masks = [])) && (shl64 1 (Z.of_nat (length masks)) <=? m));;
  Ok (mkAddrRange s e masks m).

Definition legacy_mask (intlv_high xor_high i : Z) : Z :=
  let mask := shl64 1 (u8 (intlv_high - i)) in
  if xor_high =? 0 then mask else Z.lor mask (shl64 1 (u8 (xor_high - i))).
Definition AddrRange_legacy (s e intlv_high xor_high intlv_bits m : Z) : res AddrRange :=
  fatal_if (negb (intlv_bits =? 0) && (shl64 1 intlv_bits <=? m));;
  (if negb (intlv_bits =? 0) && negb (xor_high =? 0) then
     if xor_high =? intlv_high then Err FatalFail
     else if intlv_high <? xor_high then fatal_if (xor_high - intlv_high <? intlv_bits)
     else fatal_if (intlv_high - xor_high <? intlv_bits)
   else Ok tt);;
  (* masks[_intlv_bits - i - 1] is written in iteration i *)
  Ok (mkAddrRange s e
        ((λ j : nat, legacy_mask intlv_high xor_high (intlv_bits - 1 - Z.of_nat j))
           <$> seq 0 (Z.to_nat intlv_bits)) m).

Definition RangeEx (s e : Z) : AddrRange := AddrRange_of s e.
Definition RangeIn (s e : Z) : AddrRange := AddrRange_of s (u64 (e + 1)).
Definition RangeSize (s size : Z) : AddrRange := AddrRange_of s (u64 (s + size)).

Definition interleaved (r : AddrRange) : bool :=
  match r_masks r with [] => false | _ => true end.
Definition stripes (r : AddrRange) : Z := u32 (shl64 1 (Z.of_nat (length (r_masks r)))).
Definition size (r : AddrRange) : Z :=
  Z.shiftr (u64 (r_end r - r_start r)) (Z.of_nat (length (r_masks r))).
Definition valid (r : AddrRange) : bool := r_start r <=? r_end r.

(** [combined_mask] is declared [auto combined_mask = 0], that is, an [int]. *)
Definition granularity (r : AddrRange) : res Z :=
  if interleaved r then
    let combined_mask := fold_left (λ c m, s32 (Z.lor (u64 c) m)) (r_masks r) 0 in
    let lowest_bit := ctz64 (u64 combined_mask) in
    if lowest_bit <? 64 then Ok (shl64 1 lowest_bit) else Err Undef
  else Ok (size r).

Definition mergesWith (self r : AddrRange) : bool :=
  (r_start r =? r_start self) && (r_end r =? r_end self) &&
  bool_decide (r_masks r = r_masks self).

(** The selector of an address: the loop of [contains]. *)
Fixpoint sel_loop (i : Z) (masks : list Z) (a acc : Z) : Z :=
  match masks with
  | [] => acc
  | m :: masks =>
      sel_loop (i + 1) masks a (Z.lor acc (Z.shiftl (popCount (Z.land a m) mod 2) i))
  end.
Definition contains (r : AddrRange) (a : Z) : bool :=
  let in_range := (r_start r <=? a) && (a <? r_end r) in
  if in_range then sel_loop 0 (r_masks r) a 0 =? r_intlvMatch r else false.

Definition intersects (self r : AddrRange) : res bool :=
  if (r_end r <=? r_start self) || (r_end self <=? r_start r) then Ok false
  else if negb (interleaved self) && negb (interleaved r) then Ok true
  else if size r =? 1 then Ok (contains self (r_start r))
  else if mergesWith self r then Ok (r_intlvMatch self =? r_intlvMatch r)
  else Err PanicFail.

Definition isSubset (self r : AddrRange) : res bool :=
  if interleaved self then Err PanicFail
  else if interleaved r then
    if contains r (r_start self) && contains r (u64 (r_end self - 1)) then
      g ← granularity r; Ok (size self <=? g)
    else Ok false
  else Ok ((r_start r <=? r_start self) && (r_end self <=? r_end r)).

(** The constructor that merges a collection of interleaved ranges. *)
Fixpoint merge_check (self : AddrRange) (match_ : Z) (ranges : list AddrRange) : res unit :=
  match ranges with
  | [] => Ok tt
  | r :: ranges =>
      fatal_if (negb (mergesWith self r));;
      fatal_if (negb (r_intlvMatch r =? match_));;
      merge_check self (u8 (match_ + 1)) ranges
  end.
Definition AddrRange_merge (ranges : list AddrRange) : res AddrRange :=
  match ranges with
  | [] => Ok AddrRange_empty
  | r0 :: rest =>
      if Nat.ltb 1 (length ranges) then
        fatal_if (negb (Z.of_nat (length ranges) =? shl64 1 (Z.of_nat (length (r_masks r0)))));;
        merge_check r0 0 ranges;;
        Ok (mkAddrRange (r_start r0) (r_end r0) [] 0)
      else Ok r0
  end.

(** The least significant bit of each mask, in ascending order. *)
Definition masks_lsb (r : AddrRange) : list Z := merge_sort Z.le (ctz64 <$> r_masks r).

Fixpoint remove_loop (i : Z) (lsbs : list Z) (a : Z) : res Z :=
  match lsbs with
  | [] => Ok a
  | intlv_bit :: lsbs =>
      a' ← (if 0 <? intlv_bit then insertBits (Z.shiftr a 1) (intlv_bit - i - 1) 0 a
            else Ok (Z.shiftr a 1));
      remove_loop (i + 1) lsbs a'
  end.
Definition removeIntlvBits (r : AddrRange) (a : Z) : res Z :=
  remove_loop 0 (masks_lsb r) a.

Fixpoint add_loop (i : Z) (lsbs : list Z) (a : Z) : res Z :=
  match lsbs with
  | [] => Ok a
  | intlv_bit :: lsbs =>
      a' ← (if 0 <? intlv_bit then insertBits (shl64 a 1) (intlv_bit + i - 1) 0 a
            else Ok (shl64 a 1));
      add_loop (i + 1) lsbs a'
  end.
(** [~(1 << lsb)] is computed on [int] and converted to [Addr]. *)
Definition not_int_bit (lsb : Z) : res Z :=
  if lsb <? 32 then Ok (u64 (Z.lnot (s32 (2 ^ lsb)))) else Err Undef.
Fixpoint select_loop (i : Z) (masks : list Z) (intlvMatch a : Z) : res Z :=
  match masks with
  | [] => Ok a
  | m :: masks =>
      let lsb := ctz64 m in
      intlv_bit ← bit1 intlvMatch i;
      nb ← not_int_bit lsb;
      let masked := Z.land (Z.land a m) nb in
      a' ← insertBit a lsb (Z.lxor intlv_bit (popCount masked));
      select_loop (i + 1) masks intlvMatch a'
  end.
Definition addIntlvBits (r : AddrRange) (a : Z) : res Z :=
  a' ← add_loop 0 (masks_lsb r) a;
  select_loop 0 (r_masks r) (r_intlvMatch r) a'.

Definition getOffset (r : AddrRange) (a : Z) : res Z :=
  if negb ((r_start r <=? a) && (a <? r_end r)) then Ok MaxAddr
  else if interleaved r then
    x ← removeIntlvBits r a; y ← removeIntlvBits r (r_start r); Ok (u64 (x - y))
  else Ok (u64 (a - r_start r)).

(** [operator<] and [operator==]. *)
Definition range_ltb (self r : AddrRange) : bool :=
  if negb (r_start self =? r_start r) then r_start self <? r_start r
  else r_intlvMatch self <? r_intlvMatch r.
Definition range_eqb (self r : AddrRange) : bool :=
  if negb (r_start self =? r_start r) then false
  else if negb (r_end self =? r_end r) then false
  else if negb (bool_decide (r_masks self = r_masks r)) then false
  else if negb (r_intlvMatch self =? r_intlvMatch r) then false
  else true.

Arguments size : simpl never.

(** Machine-width well-formedness of a range. *)
Definition wf_range (r : AddrRange) : Prop :=
  is_u64 (r_start r) ∧ is_u64 (r_end r) ∧ Forall (λ m, 0 < m < 2 ^ 64) (r_masks r).

(** ** Selector *)

Definition parity (m a : Z) : bool := Z.odd (popCount (Z.land a m)).

Lemma mod2_b2z x : x mod 2 = Z.b2z (Z.odd x).
Proof. rewrite Zmod_odd. destruct (Z.odd x); done. Qed.

Lemma sel_loop_testbit i masks a acc j :
  0 ≤ i → 0 ≤ j →
  Z.testbit (sel_loop i masks a acc) j =
    Z.testbit acc j || (if j <? i then false else
      match masks !! Z.to_nat (j - i) with Some m => parity m a | None => false end).
Proof.
  revert i acc. induction masks as [|m masks IH]; intros i acc Hi Hj; cbn [sel_loop].
  { case_if; by rewrite orb_false_r. }
  rewrite IH by lia. autorewrite with zbits. rewrite mod2_b2z. fold (parity m a).
  destruct (Z.ltb_spec j i).
  - rewrite (Z.testbit_neg_r (Z.b2z _)) by lia. zcmp. by rewrite !orb_false_r.
  - destruct (Z.eqb_spec j i) as [->|].
    + rewrite Z.sub_diag. zcmp. rewrite Z.b2z_bit0. by rewrite orb_false_r.
    + zcmp. replace (Z.to_nat (j - i)) with (S (Z.to_nat (j - (i + 1)))) by lia.
      replace (Z.testbit (Z.b2z (parity m a)) (j - i)) with false; [by rewrite orb_false_r|].
      symmetry. destruct (parity m a); [|apply Z.testbit_0_l].
      apply (testbit_above 1 1); lia.
Qed.

Definition sel (r : AddrRange) (a : Z) : Z := sel_loop 0 (r_masks r) a 0.

Lemma sel_testbit r a j :
  0 ≤ j →
  Z.testbit (sel r a) j =
    match r_masks r !! Z.to_nat j with Some m => parity m a | None => false end.
Proof.
  intros Hj. unfold sel. rewrite sel_loop_testbit by lia. rewrite Z.testbit_0_l.
  zcmp. by rewrite Z.sub_0_r.
Qed.

Lemma sel_loop_nonneg i masks a acc : 0 ≤ i → 0 ≤ acc → 0 ≤ sel_loop i masks a acc.
Proof.
  revert i acc. induction masks as [|m masks IH]; intros i acc Hi Ha; simpl; [done|].
  apply IH; [lia|]. apply Z.lor_nonneg. split; [done|].
  apply Z.shiftl_nonneg. by apply Z.mod_pos_bound.
Qed.

Lemma sel_range r a : 0 ≤ sel r a < 2 ^ Z.of_nat (length (r_masks r)).
Proof.
  assert (0 ≤ sel r a) by (by apply sel_loop_nonneg).
  split; [done|]. apply bounded_by_bits; [lia|done|]. intros i Hi.
  rewrite sel_testbit by lia. rewrite lookup_ge_None_2; [done|lia].
Qed.

Lemma contains_spec r a :
  contains r a = true ↔ r_start r ≤ a < r_end r ∧ sel r a = r_intlvMatch r.
Proof.
  unfold contains, sel. case_if; bool_to_prop.
  - rewrite Z.eqb_eq. naive_solver.
  - split; [done|]. intros [? ?]. destruct Heqb; bool_to_prop; lia.
Qed.

Lemma contains_plain s e a : contains (AddrRange_of s e) a = true ↔ s ≤ a < e.
Proof. rewrite contains_spec. simpl. naive_solver. Qed.

(** ** Parity of a population count is linear over exclusive or *)

Lemma bit_sum_lxor n x y :
  Z.odd (bit_sum n (Z.lxor x y)) = xorb (Z.odd (bit_sum n x)) (Z.odd (bit_sum n y)).
Proof.
  induction n as [|n IH]; [done|]. cbn [bit_sum]. rewrite !Z.odd_add, IH, Z.lxor_spec.
  destruct (Z.testbit x (Z.of_nat n)), (Z.testbit y (Z.of_nat n)),
    (Z.odd (bit_sum n x)), (Z.odd (bit_sum n y)); done.
Qed.

Lemma u64_land_r a m : is_u64 m → 0 ≤ Z.land a m < 2 ^ Z.of_nat 64.
Proof.
  intros Hm. assert (0 ≤ Z.land a m) by (apply Z.land_nonneg; right; apply Hm).
  split; [done|]. apply bounded_by_bits; [lia|done|]. intros i Hi.
  rewrite Z.land_spec, (testbit_above m 64) by (done || lia). apply andb_false_r.
Qed.

Lemma parity_lxor m a b :
  is_u64 m → parity m (Z.lxor a b) = xorb (parity m a) (parity m b).
Proof.
  intros Hm. unfold parity.
  assert (Z.land (Z.lxor a b) m = Z.lxor (Z.land a m) (Z.land b m)) as E.
  { zbits_ext i Hi. by destruct (Z.testbit a i), (Z.testbit b i), (Z.testbit m i). }
  rewrite (popCount_bit_sum 64 (Z.land (Z.lxor a b) m)) by (by apply u64_land_r).
  rewrite E, bit_sum_lxor.
  rewrite <-!(popCount_bit_sum 64) by (by apply u64_land_r). done.
Qed.

Lemma popCount_pow2 k : 0 ≤ k → popCount (2 ^ k) = 1.
Proof.
  intros Hk. pattern k. apply natlike_ind; [done| |done].
  intros n Hn IH. rewrite Z.pow_succ_r by done. rewrite popCount_div2 by lia.
  rewrite Z.testbit_even_0, Z.div2_div.
  replace (2 * 2 ^ n / 2) with (2 ^ n); [done|].
  rewrite Z.mul_comm, Z.div_mul; lia.
Qed.

(** A mask sees exactly its lowest bit of a number with no bit above it. *)
Lemma parity_single m d :
  0 < m → 0 < d → Z.log2 d = ctz64 m → parity m d = true.
Proof.
  intros Hm Hd E. destruct (ctz64_spec m Hm) as (Hc & Hcb & Hcl).
  unfold parity. assert (Z.land d m = 2 ^ ctz64 m) as ->.
  { zbits_ext i Hi. destruct (Z.eqb_spec i (ctz64 m)) as [->|].
    - rewrite Hcb, <-E, Z.bit_log2 by lia. done.
    - destruct (Z.ltb_spec i (ctz64 m)).
      + rewrite Hcl by lia. apply andb_false_r.
      + rewrite Z.bits_above_log2 by lia. done. }
  by rewrite popCount_pow2.
Qed.

(** ** Removing the interleaving bits *)

(** [x] is [a] with bit [p] dropped. *)
Definition drops_bit (p a x : Z) : Prop :=
  ∀ j, 0 ≤ j → Z.testbit x j = Z.testbit a (if j <? p then j else j + 1).

Lemma remove_step_spec i l a :
  0 ≤ i → is_u64 a → l < 64 → (l = 0 → i = 0) → i + (if 0 <? l then 1 else 0) ≤ l →
  ∃ x, (if 0 <? l then insertBits (Z.shiftr a 1) (l - i - 1) 0 a
        else Ok (Z.shiftr a 1)) = Ok x ∧ is_u64 x ∧ drops_bit (l - i) a x.
Proof.
  intros Hi Ha Hl Hl0 Hil.
  assert (is_u64 (Z.shiftr a 1)) as Hs.
  { pose proof (shiftr_le a 1 ltac:(apply Ha) ltac:(lia)). unfold is_u64 in *. lia. }
  destruct (Z.ltb_spec 0 l).
  - rewrite insertBits_ok by lia. eexists. split; [done|].
    split; [apply insertBits_val_range; (done || lia)|].
    intros j Hj. rewrite insertBits_val_testbit by (done || lia).
    rewrite Z.sub_0_r, Z.shiftr_spec by lia. zcmp; done.
  - assert (l = 0) as -> by lia. rewrite (Hl0 eq_refl).
    eexists. split; [done|]. split; [done|]. intros j Hj.
    rewrite Z.shiftr_spec by lia. zcmp; done.
Qed.

(** The positions a strictly ascending list of lowest bits denotes once [i]
    bits have been dropped. *)
Fixpoint ascending (lo : Z) (lsbs : list Z) : Prop :=
  match lsbs with
  | [] => True
  | l :: lsbs => lo ≤ l < 64 ∧ ascending (l + 1) lsbs
  end.

Lemma ascending_lower lo lsbs l : ascending lo lsbs → l ∈ lsbs → lo ≤ l < 64.
Proof.
  revert lo. induction lsbs as [|l' lsbs IH]; intros lo; [by rewrite elem_of_nil|].
  intros [H1 H2] [->|H]%elem_of_cons; [done|]. specialize (IH _ H2 H). lia.
Qed.

Lemma remove_loop_spec lsbs i a b :
  0 ≤ i → ascending (i + 1) lsbs → is_u64 a → is_u64 b →
  ∃ x y, remove_loop i lsbs a = Ok x ∧ remove_loop i lsbs b = Ok y ∧
    (x = y → ∀ j, 0 ≤ j → (j + i) ∉ lsbs → Z.testbit a j = Z.testbit b j).
Proof.
  revert i a b. induction lsbs as [|l lsbs IH]; intros i a b Hi Hasc Ha Hb; cbn [remove_loop].
  { exists a, b. split; [done|]. split; [done|]. by intros ->. }
  destruct Hasc as [Hl Hasc].
  destruct (remove_step_spec i l a) as (a' & -> & Ha' & Hda); [lia|done|lia|lia|zcmp|].
  destruct (remove_step_spec i l b) as (b' & -> & Hb' & Hdb); [lia|done|lia|lia|zcmp|].
  assert (ascending (i + 1 + 1) lsbs) as Hasc'.
  { destruct lsbs as [|l2 lsbs]; [done|]. destruct Hasc as [? ?]. split; [lia|done]. }
  destruct (IH (i + 1) a' b' ltac:(lia) Hasc' Ha' Hb') as (x & y & Hx & Hy & Hxy).
  exists x, y. split; [done|]. split; [done|]. intros E j Hj Hnot.
  assert (j ≠ l - i) by (intros ->; apply Hnot; replace (l - i + i) with l by lia; left).
  destruct (Z.ltb_spec j (l - i)).
  - specialize (Hxy E j Hj). pose proof (Hda j Hj) as E1. pose proof (Hdb j Hj) as E2.
    rewrite (proj2 (Z.ltb_lt _ _)) in E1, E2 by lia. rewrite <-E1, <-E2. apply Hxy.
    intros Hin. pose proof (ascending_lower _ _ _ Hasc Hin). lia.
  - specialize (Hxy E (j - 1) ltac:(lia)).
    pose proof (Hda (j - 1) ltac:(lia)) as E1. pose proof (Hdb (j - 1) ltac:(lia)) as E2.
    rewrite (proj2 (Z.ltb_ge _ _)) in E1, E2 by lia.
    replace (j - 1 + 1) with j in E1, E2 by lia. rewrite <-E1, <-E2. apply Hxy.
    intros Hin. apply Hnot. right. by replace (j - 1 + (i + 1)) with (j + i) in Hin by lia.
Qed.

(** Interleaving masks the code can handle: each has a lowest bit above bit
    zero of its own. *)
Definition separable (r : AddrRange) : Prop :=
  NoDup (ctz64 <$> r_masks r) ∧ Forall (λ m, 0 < m < 2 ^ 64 ∧ 0 < ctz64 m) (r_masks r).

Lemma sorted_ascending l lo :
  Sorted Z.le l → NoDup l → Forall (λ x, lo ≤ x < 64) l → ascending lo l.
Proof.
  revert lo. induction l as [|x l IH]; intros lo Hs Hn Hf; simpl; [done|].
  apply Sorted_inv in Hs as [Hs Hh]. apply NoDup_cons in Hn as [Hx Hn].
  apply Forall_cons in Hf as [Hx' Hf]. split; [done|]. apply IH; [done|done|].
  apply Forall_forall. intros y Hy. rewrite Forall_forall in Hf. specialize (Hf y Hy).
  assert (x ≤ y).
  { apply Sorted_StronglySorted in Hs; [|intros ???; lia].
    destruct l as [|z l]; [by apply elem_of_nil in Hy|].
    apply HdRel_inv in Hh. apply elem_of_cons in Hy as [->|Hy]; [done|].
    apply StronglySorted_inv in Hs as [_ Hz]. rewrite Forall_forall in Hz.
    specialize (Hz y Hy). lia. }
  assert (x ≠ y) by (intros ->; done). lia.
Qed.

Lemma masks_lsb_ascending r : separable r → ascending 1 (masks_lsb r).
Proof.
  intros [Hn Hf]. unfold masks_lsb. apply sorted_ascending.
  - apply Sorted_merge_sort. intros ??. lia.
  - by rewrite merge_sort_Permutation.
  - rewrite merge_sort_Permutation. rewrite Forall_fmap. eapply Forall_impl; [exact Hf|].
    intros m [Hm Hc]. simpl. pose proof (ctz64_lt m 64 ltac:(lia) ltac:(lia)). lia.
Qed.

Lemma masks_lsb_elem r l : l ∈ masks_lsb r ↔ ∃ m, m ∈ r_masks r ∧ l = ctz64 m.
Proof.
  unfold masks_lsb. rewrite merge_sort_Permutation, list_elem_of_fmap. naive_solver.
Qed.

(** Two addresses of a range whose other bits agree are equal: the highest
    bit they differ in would be the lowest bit of a mask, whose parity would
    then differ. *)
Lemma same_selector_unique r a b :
  Forall (λ m, 0 < m < 2 ^ 64) (r_masks r) → is_u64 a → is_u64 b → sel r a = sel r b →
  (∀ j, 0 ≤ j → j ∉ masks_lsb r → Z.testbit a j = Z.testbit b j) → a = b.
Proof.
  intros Hm Ha Hb Hsel Hbits. destruct (Z.eq_dec a b) as [|Hne]; [done|exfalso].
  set (d := Z.lxor a b).
  assert (0 < d) as Hd.
  { assert (0 ≤ d) by (apply Z.lxor_nonneg; unfold is_u64 in *; lia).
    assert (d ≠ 0) by (intros E; by apply Z.lxor_eq in E). lia. }
  pose proof (Z.bit_log2 d Hd) as Hbit. pose proof (Z.log2_nonneg d).
  assert (Z.log2 d ∈ masks_lsb r) as Hin.
  { destruct (decide (Z.log2 d ∈ masks_lsb r)) as [|Hn]; [done|exfalso].
    specialize (Hbits (Z.log2 d) ltac:(done) Hn). unfold d in Hbit at 1.
    rewrite Z.lxor_spec, Hbits, xorb_nilpotent in Hbit. done. }
  apply masks_lsb_elem in Hin as (m & Hmin & Hlog).
  rewrite Forall_forall in Hm. specialize (Hm m Hmin).
  pose proof (parity_single m d ltac:(lia) Hd Hlog) as Hpar. unfold d in Hpar.
  rewrite parity_lxor in Hpar by (unfold is_u64; lia).
  apply list_elem_of_lookup in Hmin as [k Hk].
  pose proof (sel_testbit r a (Z.of_nat k) ltac:(lia)) as E1.
  pose proof (sel_testbit r b (Z.of_nat k) ltac:(lia)) as E2.
  rewrite Nat2Z.id, Hk in E1, E2. rewrite <-E1, <-E2, Hsel, xorb_nilpotent in Hpar. done.
Qed.

Lemma removeIntlvBits_inj r a b :
  separable r → is_u64 a → is_u64 b → sel r a = sel r b →
  ∃ x y, removeIntlvBits r a = Ok x ∧ removeIntlvBits r b = Ok y ∧ (x = y → a = b).
Proof.
  intros Hsep Ha Hb Hsel.
  destruct (remove_loop_spec (masks_lsb r) 0 a b) as (x & y & Hx & Hy & Hxy);
    [lia|by apply masks_lsb_ascending|done|done|].
  exists x, y. split; [done|]. split; [done|]. intros E.
  apply (same_selector_unique r); try done.
  - destruct Hsep as [_ Hf]. eapply Forall_impl; [exact Hf|]. naive_solver.
  - intros j Hj Hn. apply Hxy; [done|done|]. by rewrite Z.add_0_r.
Qed.

(** ** Adding the interleaving bits back *)

(** No mask covers the lowest bit of another. *)
Definition cross_free (masks : list Z) : Prop :=
  ∀ j k m m', masks !! j = Some m → masks !! k = Some m' → j ≠ k →
    Z.testbit m (ctz64 m') = false.

Lemma not_int_bit_small l : 0 ≤ l < 31 → not_int_bit l = Ok (not64 (2 ^ l)).
Proof.
  intros Hl. unfold not_int_bit. rewrite (proj2 (Z.ltb_lt l 32)) by lia.
  rewrite s32_small; [done|]. assert (2 ^ l < 2 ^ 31) by (apply Z.pow_lt_mono_r; lia). lia.
Qed.

(** Clearing the lowest bit of the mask changes the parity by that bit. *)
Lemma parity_without_lsb m a x :
  is_u64 m → (∀ j, 0 ≤ j → Z.testbit x j = Z.testbit a j && Z.testbit m j && negb (j =? ctz64 m)) →
  0 < m → Z.odd (popCount x) = xorb (parity m a) (Z.testbit a (ctz64 m)).
Proof.
  intros Hm Hx Hm0. destruct (ctz64_spec m Hm0) as (Hc & Hcb & _).
  pose proof (ctz64_lt m 64 ltac:(unfold is_u64 in *; lia) ltac:(lia)).
  set (y := if Z.testbit a (ctz64 m) then 2 ^ ctz64 m else 0).
  assert (x = Z.lxor (Z.land a m) y) as ->.
  { apply Z.bits_inj'. intros j Hj. rewrite Hx, Z.lxor_spec, Z.land_spec by done.
    assert (Z.testbit y j = (j =? ctz64 m) && Z.testbit a (ctz64 m)) as ->.
    { unfold y. case_if; [rewrite pow2_testbit by lia; by rewrite andb_true_r|].
      by rewrite Z.testbit_0_l, andb_false_r. }
    destruct (Z.eqb_spec j (ctz64 m)) as [->|]; cbn [negb andb].
    - rewrite Hcb. destruct (Z.testbit a (ctz64 m)); done.
    - rewrite andb_true_r, xorb_false_r. done. }
  assert (0 ≤ y < 2 ^ Z.of_nat 64) as Hy.
  { unfold y. case_if; [|lia]. split; [lia|]. apply Z.pow_lt_mono_r; lia. }
  rewrite (popCount_bit_sum 64); [|split].
  - rewrite bit_sum_lxor. rewrite <-(popCount_bit_sum 64) by (by apply u64_land_r).
    unfold parity. f_equal. rewrite <-(popCount_bit_sum 64) by done.
    unfold y. case_if; [by rewrite popCount_pow2|done].
  - apply Z.lxor_nonneg. pose proof (u64_land_r a m Hm). lia.
  - apply bounded_by_bits; [lia| |].
    { apply Z.lxor_nonneg. pose proof (u64_land_r a m Hm). lia. }
    intros i Hi. rewrite Z.lxor_spec, (testbit_above (Z.land a m) 64), (testbit_above y 64);
      [done|done|lia|by apply u64_land_r|lia].
Qed.

Lemma select_loop_spec masks i z a mt :
  0 ≤ i → is_u64 z → is_u64 a → i + Z.of_nat (length masks) ≤ 64 →
  Forall (λ m, 0 < m < 2 ^ 64 ∧ ctz64 m < 31) masks → cross_free masks →
  (∀ k m, masks !! k = Some m → Z.testbit mt (i + Z.of_nat k) = parity m a) →
  (∀ j, 0 ≤ j → j ∉ ctz64 <$> masks → Z.testbit z j = Z.testbit a j) →
  select_loop i masks mt z = Ok a.
Proof.
  revert i z. induction masks as [|m masks IH]; intros i z Hi Hz Ha Hlen Hf Hcf Hmt Hag;
    cbn [select_loop].
  { f_equal. apply Z.bits_inj'. intros j Hj. apply Hag; [done|]. apply not_elem_of_nil. }
  apply Forall_cons in Hf as [[Hm Hc31] Hf]. simpl in Hlen.
  destruct (ctz64_spec m ltac:(lia)) as (Hc & Hcb & _).
  unfold bit1. rewrite bits_ok by lia. unfold mbind, res_bind.
  rewrite not_int_bit_small by lia. unfold insertBit. rewrite insertBits_ok by lia.
  assert (Z.odd (popCount (Z.land (Z.land z m) (not64 (2 ^ ctz64 m)))) =
          xorb (parity m a) (Z.testbit a (ctz64 m))) as Hpar.
  { apply parity_without_lsb; [unfold is_u64; lia| |lia]. intros j Hj.
    autorewrite with zbits. destruct (Z.testbit m j) eqn:Hmj; [|by rewrite !andb_false_r].
    destruct (Z.eqb_spec j (ctz64 m)); [by rewrite !andb_false_r|].
    rewrite !andb_true_r. destruct (Z.ltb_spec j 64); cbn [negb andb].
    - rewrite andb_true_r. apply Hag; [done|]. intros [->|Hin]%elem_of_cons; [done|].
      apply list_elem_of_fmap in Hin as (m' & -> & Hin). apply list_elem_of_lookup in Hin as [k Hk].
      rewrite (Hcf 0%nat (S k) m m') in Hmj by done. done.
    - rewrite (testbit_above a 64) by (done || lia). by rewrite andb_false_r. }
  apply IH; [lia| |done|lia|done| | |].
  - apply insertBits_val_range; (done || lia).
  - intros j k m1 m2 H1 H2 Hne. apply (Hcf (S j) (S k)); [done|done|]. congruence.
  - intros k m1 H1. replace (i + 1 + Z.of_nat k) with (i + Z.of_nat (S k)) by lia. by apply Hmt.
  - intros j Hj Hn. rewrite insertBits_val_testbit by (done || lia).
    destruct (Z.leb_spec (ctz64 m) j), (Z.leb_spec j (ctz64 m)); cbn [andb];
      try (apply Hag; [done|]; intros [->|Hin]%elem_of_cons; [lia|done]).
    assert (j = ctz64 m) as -> by lia. rewrite Z.sub_diag, Z.lxor_spec.
    rewrite bits_val_testbit by lia. zcmp. rewrite Z.add_0_l, Z.bit0_odd, Hpar.
    pose proof (Hmt 0%nat m eq_refl) as E. rewrite Z.add_0_r in E. rewrite E.
    destruct (parity m a), (Z.testbit a (ctz64 m)); done.
Qed.

Lemma add_step_testbit i l a :
  0 < l → l + i < 64 → 0 ≤ i → is_u64 a → ∃ z,
  (if 0 <? l then insertBits (shl64 a 1) (l + i - 1) 0 a else Ok (shl64 a 1)) = Ok z ∧
  is_u64 z ∧ ∀ j, 0 ≤ j < 64 → Z.testbit z j = Z.testbit a (if j <? l + i then j else j - 1).
Proof.
  intros Hl Hli Hi Ha. rewrite (proj2 (Z.ltb_lt 0 l)) by lia. rewrite insertBits_ok by lia.
  assert (is_u64 (shl64 a 1)) by apply u64_range.
  eexists. split; [done|]. split; [apply insertBits_val_range; (done || lia)|].
  intros j Hj. rewrite insertBits_val_testbit by (done || lia).
  rewrite Z.sub_0_r, shl64_testbit by lia. zcmp; done.
Qed.

(** With at most two interleaving bits the bits inserted by [add_loop] land
    where [remove_loop] took them from. *)
Lemma add_remove_positions lsbs a :
  (length lsbs ≤ 2)%nat → ascending 1 lsbs → is_u64 a →
  Forall (λ l, l < 63) lsbs →
  ∃ x z, remove_loop 0 lsbs a = Ok x ∧ add_loop 0 lsbs x = Ok z ∧ is_u64 z ∧
    ∀ j, 0 ≤ j → j ∉ lsbs → Z.testbit z j = Z.testbit a j.
Proof.
  intros Hlen Hasc Ha H63. destruct lsbs as [|l1 [|l2 [|? ?]]]; [..|simpl in Hlen; lia].
  - by exists a, a.
  - destruct Hasc as [Hl1 _]. cbn [remove_loop].
    destruct (remove_step_spec 0 l1 a) as (x & -> & Hx & Hd); [lia|done|lia|lia|zcmp|].
    destruct (add_step_testbit 0 l1 x) as (z & Hz & Hzr & Hzb); [lia|lia|lia|done|].
    exists x, z. split; [done|]. split; [cbn [add_loop]; by rewrite Hz|]. split; [done|].
    intros j Hj Hn. apply not_elem_of_cons in Hn as [Hn _].
    destruct (Z.ltb_spec j 64); [|by rewrite !(testbit_above _ 64) by (done || lia)].
    rewrite Hzb, Hd by zcmp. f_equal. zcmp.
  - destruct Hasc as (Hl1 & Hl2 & _). cbn [remove_loop].
    apply Forall_cons in H63 as [_ H63]. apply Forall_cons in H63 as [H63 _].
    destruct (remove_step_spec 0 l1 a) as (y & -> & Hy & Hd1); [lia|done|lia|lia|zcmp|].
    destruct (remove_step_spec 1 l2 y) as (x & Ex & Hx & Hd2); [lia|done|lia|lia|zcmp|].
    destruct (add_step_testbit 0 l1 x) as (z1 & Hz1 & Hz1r & Hz1b); [lia|lia|lia|done|].
    destruct (add_step_testbit 1 l2 z1) as (z & Hz & Hzr & Hzb); [lia|lia|lia|done|].
    exists x, z. split; [change (0 + 1) with 1; unfold mbind, res_bind; by rewrite Ex|].
    split; [cbn [add_loop]; change (0 + 1) with 1; rewrite Hz1;
      unfold mbind, res_bind; by rewrite Hz|].
    split; [done|]. intros j Hj Hn.
    apply not_elem_of_cons in Hn as [Hn1 Hn]. apply not_elem_of_cons in Hn as [Hn2 _].
    destruct (Z.ltb_spec j 64); [|by rewrite !(testbit_above _ 64) by (done || lia)].
    rewrite Hzb, Hz1b, Hd2, Hd1 by zcmp. f_equal. zcmp.
Qed.

Lemma add_remove_roundtrip r a :
  separable r → cross_free (r_masks r) → Forall (λ m, ctz64 m < 31) (r_masks r) →
  (length (r_masks r) ≤ 2)%nat → is_u64 a → sel r a = r_intlvMatch r →
  ∃ x, removeIntlvBits r a = Ok x ∧ addIntlvBits r x = Ok a.
Proof.
  intros Hsep Hcf H31 Hlen Ha Hsel.
  destruct (add_remove_positions (masks_lsb r) a) as (x & z & Hx & Hz & Hzr & Hzb).
  - unfold masks_lsb. by rewrite merge_sort_Permutation, length_fmap.
  - by apply masks_lsb_ascending.
  - done.
  - apply Forall_forall. intros l Hl. apply masks_lsb_elem in Hl as (m & Hm & ->).
    rewrite Forall_forall in H31. specialize (H31 m Hm). lia.
  - exists x. split; [done|]. unfold addIntlvBits. rewrite Hz. unfold mbind, res_bind.
    destruct Hsep as [_ Hf]. apply select_loop_spec; try done; [lia| | |].
    + rewrite Forall_forall in Hf, H31 |- *. intros m Hm.
      specialize (Hf m Hm). specialize (H31 m Hm). naive_solver.
    + intros k m Hk. rewrite <-Hsel, Z.add_0_l, sel_testbit by lia. by rewrite Nat2Z.id, Hk.
    + intros j Hj Hn. apply Hzb; [done|]. by unfold masks_lsb; rewrite merge_sort_Permutation.
Qed.

(** ** Merging interleaved ranges *)

Lemma merge_check_spec self ranges mt :
  0 ≤ mt → mt + Z.of_nat (length ranges) ≤ 256 → merge_check self mt ranges = Ok tt →
  ∀ k r, ranges !! k = Some r →
    r_start r = r_start self ∧ r_end r = r_end self ∧ r_masks r = r_masks self ∧
    r_intlvMatch r = mt + Z.of_nat k.
Proof.
  revert mt. induction ranges as [|r0 ranges IH]; intros mt H0 Hlen Hc k r Hk; [done|].
  cbn [merge_check] in Hc. simpl in Hlen. inv_ok. unfold mergesWith in *. bool_to_prop.
  destruct k as [|k]; simpl in Hk.
  - injection Hk as <-. match goal with H : bool_decide _ = true |- _ =>
      apply bool_decide_eq_true in H end. repeat split; (done || lia).
  - destruct ranges as [|r1 ranges']; [done|].
    assert (u8 (mt + 1) = mt + 1) as E by (apply u8_small; simpl in Hlen; lia).
    rewrite E in *.
    destruct (IH (mt + 1) ltac:(lia) ltac:(simpl in *; lia) ltac:(done) k r Hk) as (? & ? & ? & ?).
    repeat split; (done || lia).
Qed.

Lemma merge_contains ranges r a :
  (length ranges > 1)%nat → AddrRange_merge ranges = Ok r →
  (∀ r0, head ranges = Some r0 → (length (r_masks r0) ≤ 8)%nat) →
  contains r a = true ↔ ∃ r', r' ∈ ranges ∧ contains r' a = true.
Proof.
  intros Hlen Hm H8. unfold AddrRange_merge in Hm.
  destruct ranges as [|r0 rest]; [simpl in Hlen; lia|]. specialize (H8 r0 eq_refl).
  rewrite (proj2 (Nat.ltb_lt 1 _)) in Hm by lia. inv_ok.
  apply negb_false_iff, Z.eqb_eq in Hfa.
  assert (0 < 2 ^ Z.of_nat (length (r_masks r0)) ≤ 256) as H2.
  { split; [lia|]. change 256 with (2 ^ 8). apply Z.pow_le_mono_r; lia. }
  unfold shl64 in Hfa. rewrite Z.shiftl_1_l, u64_small in Hfa by lia.
  pose proof (merge_check_spec r0 (r0 :: rest) 0 ltac:(lia) ltac:(lia) ltac:(done)) as Hk.
  rewrite contains_spec. unfold sel at 1. simpl. split.
  - intros [Hin _]. pose proof (sel_range r0 a) as Hs.
    destruct (lookup_lt_is_Some_2 (r0 :: rest) (Z.to_nat (sel r0 a))) as [r' Hr']; [lia|].
    exists r'. split; [by eapply list_elem_of_lookup_2|].
    destruct (Hk _ _ Hr') as (E1 & E2 & E3 & E4). rewrite contains_spec, E1, E2, E4.
    split; [done|]. unfold sel. rewrite E3. fold (sel r0 a). lia.
  - intros (r' & Hr' & Hc). apply list_elem_of_lookup in Hr' as [k Hkr].
    destruct (Hk _ _ Hkr) as (E1 & E2 & E3 & E4). apply contains_spec in Hc as [Hc _].
    split; [lia|done].
Qed.

(** ** The legacy constructor *)

Lemma parity_comm m a : parity m a = parity a m.
Proof. unfold parity. by rewrite Z.land_comm. Qed.

Lemma parity_pow2 p a : 0 ≤ p < 64 → parity (2 ^ p) a = Z.testbit a p.
Proof.
  intros Hp. unfold parity.
  assert (Z.land a (2 ^ p) = if Z.testbit a p then 2 ^ p else 0) as ->.
  { zbits_ext i Hi. destruct (Z.eqb_spec i p) as [->|].
    - rewrite andb_true_r. destruct (Z.testbit a p);
        [rewrite pow2_testbit by lia; by rewrite Z.eqb_refl|by rewrite Z.testbit_0_l].
    - rewrite andb_false_r. destruct (Z.testbit a p);
        [rewrite pow2_testbit by lia; symmetry; by apply Z.eqb_neq|by rewrite Z.testbit_0_l]. }
  destruct (Z.testbit a p); [by rewrite popCount_pow2 by lia|done].
Qed.

Lemma parity_two_bits p q a :
  0 ≤ p < 64 → 0 ≤ q < 64 → p ≠ q → is_u64 a →
  parity (Z.lor (2 ^ p) (2 ^ q)) a = xorb (Z.testbit a p) (Z.testbit a q).
Proof.
  intros Hp Hq Hpq Ha.
  assert (Z.lor (2 ^ p) (2 ^ q) = Z.lxor (2 ^ p) (2 ^ q)) as ->.
  { zbits_ext i Hi. zcmp; done. }
  rewrite parity_comm, parity_lxor, !(parity_comm a), !parity_pow2 by done. done.
Qed.

Lemma shl64_pow2 p : 0 ≤ p < 64 → shl64 1 p = 2 ^ p.
Proof.
  intros Hp. unfold shl64. rewrite Z.shiftl_1_l. apply u64_small.
  split; [lia|]. apply Z.pow_lt_mono_r; lia.
Qed.

(** What the constructor's comment promises: the selector is the exclusive
    or of two [n]-bit fields of the address. *)
Definition legacy_sel (hi xhi n a : Z) : Z :=
  Z.lxor (bits_val a hi (hi - n + 1)) (if xhi =? 0 then 0 else bits_val a xhi (xhi - n + 1)).

Lemma legacy_sel_spec s e hi xhi n m r a :
  1 ≤ n ≤ 8 → n - 1 ≤ hi < 64 → (xhi = 0 ∨ n - 1 ≤ xhi < 64) → is_u64 a →
  AddrRange_legacy s e hi xhi n m = Ok r → sel r a = legacy_sel hi xhi n a.
Proof.
  intros Hn Hhi Hx Ha Hr. unfold AddrRange_legacy in Hr. inv_ok.
  assert (xhi ≠ 0 → n ≤ Z.abs (hi - xhi)) as Hapart.
  { intros Hx0. rewrite (proj2 (Z.eqb_neq n 0)), (proj2 (Z.eqb_neq xhi 0)) in Hm0 by lia.
    cbn [negb andb] in Hm0. repeat case_match; bool_to_prop; unfold fatal_if in *;
      repeat case_match; bool_to_prop; try done; lia. }
  apply Z.bits_inj'. intros j Hj. rewrite sel_testbit by done. simpl.
  unfold legacy_sel. rewrite Z.lxor_spec, bits_val_testbit by lia.
  destruct (Z.ltb_spec j n) as [Hjn|Hjn].
  - rewrite list_lookup_fmap, lookup_seq_lt by lia. simpl.
    unfold legacy_mask. rewrite !u8_small by lia. rewrite Z2Nat.id by lia.
    rewrite (shl64_pow2 (hi - _)) by lia. zcmp.
    + rewrite parity_pow2, Z.testbit_0_l, xorb_false_r by lia. f_equal. lia.
    + rewrite ?u8_small by lia.
      rewrite shl64_pow2, parity_two_bits, bits_val_testbit by (done || lia). zcmp.
      f_equal; f_equal; lia.
  - rewrite lookup_ge_None_2 by (rewrite length_fmap, length_seq; lia). zcmp.
    all: rewrite ?Z.testbit_0_l, ?bits_val_testbit by lia; by zcmp.
Qed.

(** ** Theorems *)

(** Interleaving partitions an interval: every address of [s, e) belongs
    to exactly one of the ranges that differ only in their match value. *)
Theorem interleaving_partition s e masks a :
  s ≤ a < e →
  ∃ m, (0 ≤ m < 2 ^ Z.of_nat (length masks) ∧ contains (mkAddrRange s e masks m) a = true) ∧
    ∀ m', contains (mkAddrRange s e masks m') a = true → m' = m.
Proof.
  intros Ha. exists (sel (mkAddrRange s e masks 0) a). split.
  - split; [apply (sel_range (mkAddrRange s e masks 0))|]. by rewrite contains_spec.
  - intros m' Hc. apply contains_spec in Hc as [_ Hc]. symmetry. exact Hc.
Qed.

Lemma interleaving_partition_witness :
  ∃ m, (0 ≤ m < 2 ^ Z.of_nat (length [256; 512]) ∧
        contains (mkAddrRange 0 0x20000000 [256; 512] m) 0x1234 = true) ∧
    ∀ m', contains (mkAddrRange 0 0x20000000 [256; 512] m') 0x1234 = true → m' = m.
Proof. apply interleaving_partition. lia. Defined.

(** When the merging constructor accepts two or more interleaved ranges
    (of at most eight selector bits), the range it builds contains exactly
    the addresses of the ranges merged. *)
Theorem merged_range_is_union ranges r a :
  (length ranges > 1)%nat → AddrRange_merge ranges = Ok r →
  (∀ r0, head ranges = Some r0 → (length (r_masks r0) ≤ 8)%nat) →
  contains r a = true ↔ ∃ r', r' ∈ ranges ∧ contains r' a = true.
Proof. intros. by apply merge_contains. Qed.

Lemma merged_range_is_union_witness :
  contains (mkAddrRange 0 0x1000 [] 0) 0x340 = true ↔
  ∃ r', r' ∈ [mkAddrRange 0 0x1000 [256] 0; mkAddrRange 0 0x1000 [256] 1] ∧
        contains r' 0x340 = true.
Proof.
  apply merged_range_is_union; [simpl; lia|reflexivity|].
  intros r0 E. injection E as <-. simpl. lia.
Defined.

(** For every configuration the legacy constructor accepts, an address is
    in the range iff it is in the interval and the exclusive or of its
    interleaving field and its hash field equals the match value. *)
Theorem legacy_constructor_selects s e hi xhi n m r a :
  1 ≤ n ≤ 8 → n - 1 ≤ hi < 64 → (xhi = 0 ∨ n - 1 ≤ xhi < 64) → is_u64 a →
  AddrRange_legacy s e hi xhi n m = Ok r →
  contains r a = true ↔ s ≤ a < e ∧ legacy_sel hi xhi n a = m.
Proof.
  intros Hn Hhi Hx Ha Hr. rewrite contains_spec.
  rewrite (legacy_sel_spec s e hi xhi n m) by done.
  unfold AddrRange_legacy in Hr. by inv_ok.
Qed.

Lemma legacy_constructor_selects_witness :
  contains (mkAddrRange 0 0x40000000 [Z.lor 256 65536; Z.lor 512 131072] 1) 0x10300 = true ↔
  0 ≤ 0x10300 < 0x40000000 ∧ legacy_sel 9 17 2 0x10300 = 1.
Proof.
  apply legacy_constructor_selects; [lia|lia|right; lia|split; lia|reflexivity].
Defined.

(** Removing the interleaving bits is defined and one-to-one on the
    addresses of a range, so each of them gets an offset of its own (masks
    with distinct lowest bits, none of them bit 0). *)
Theorem removeIntlvBits_one_to_one r a b :
  separable r → is_u64 a → is_u64 b → contains r a = true → contains r b = true →
  ∃ x y, removeIntlvBits r a = Ok x ∧ removeIntlvBits r b = Ok y ∧ (x = y → a = b).
Proof.
  intros Hs Ha Hb [_ Hca]%contains_spec [_ Hcb]%contains_spec.
  apply removeIntlvBits_inj; [done..|]. by rewrite Hca, Hcb.
Qed.

Lemma removeIntlvBits_one_to_one_witness :
  ∃ x y, removeIntlvBits (mkAddrRange 0 0x10000 [256; 512] 1) 0x0d00 = Ok x ∧
    removeIntlvBits (mkAddrRange 0 0x10000 [256; 512] 1) 0x1501 = Ok y ∧
    (x = y → 0x0d00 = 0x1501).
Proof.
  apply removeIntlvBits_one_to_one; [|split; lia|split; lia|reflexivity|reflexivity].
  split; [by apply (bool_decide_unpack _); vm_compute|].
  repeat constructor; simpl; lia.
Defined.

(** With at most two interleaving bits below bit 31, adding the
    interleaving bits back to the flat address of a contained address gives
    that address. *)
Theorem addIntlvBits_restores r a :
  separable r → cross_free (r_masks r) → Forall (λ m, ctz64 m < 31) (r_masks r) →
  (length (r_masks r) ≤ 2)%nat → is_u64 a → contains r a = true →
  ∃ x, removeIntlvBits r a = Ok x ∧ addIntlvBits r x = Ok a.
Proof. intros Hs Hc H31 Hl Ha [_ Hsel]%contains_spec. by apply add_remove_roundtrip. Qed.

Lemma addIntlvBits_restores_witness :
  ∃ x, removeIntlvBits (mkAddrRange 0 0x10000 [256; 512] 1) 0x0d00 = Ok x ∧
       addIntlvBits (mkAddrRange 0 0x10000 [256; 512] 1) x = Ok 0x0d00.
Proof.
  apply addIntlvBits_restores; [| | |simpl; lia|split; lia|reflexivity].
  - split; [by apply (bool_decide_unpack _); vm_compute|].
    repeat constructor; simpl; lia.
  - intros [|[|j]] [|[|k]] m m' Hm Hm' Hne;
      simplify_eq/=; reflexivity.
  - repeat constructor; simpl; lia.
Defined.

(** With three consecutive interleaving bits the same round trip loses an
    address bit: address 0xd00 of an eight-way interleaved range comes back
    as 0x500, although the unit test of the class says the round trip should
    always return the address. *)
Theorem addIntlvBits_three_bits_wrong :
  ∃ r, AddrRange_legacy 0 0x40000000 10 0 3 5 = Ok r ∧ separable r ∧ cross_free (r_masks r) ∧
    contains r 0xd00 = true ∧
    (x ← removeIntlvBits r 0xd00; addIntlvBits r x) = Ok 0x500.
Proof.
  eexists. split; [reflexivity|]. split; [|split; [|split; reflexivity]].
  - split; [by apply (bool_decide_unpack _); vm_compute|].
    repeat constructor; simpl; lia.
  - intros [|[|[|j]]] [|[|[|k]]] m m' Hm Hm' Hne;
      simplify_eq/=; reflexivity.
Qed.

(** On ranges that are not interleaved and not empty, [intersects] decides
    whether the two share an address and [isSubset] whether every address of
    the first is in the second. *)
Theorem plain_range_tests s1 e1 s2 e2 :
  s1 < e1 → s2 < e2 →
  let r1 := AddrRange_of s1 e1 in let r2 := AddrRange_of s2 e2 in
  (∃ b, intersects r1 r2 = Ok b ∧
     (b = true ↔ ∃ a, contains r1 a = true ∧ contains r2 a = true)) ∧
  (∃ b, isSubset r1 r2 = Ok b ∧
     (b = true ↔ ∀ a, contains r1 a = true → contains r2 a = true)).
Proof.
  intros H1 H2. cbv zeta. setoid_rewrite contains_plain. split.
  - unfold intersects. simpl. case_if.
    + exists false. split; [done|]. split; [done|]. intros (a & ? & ?).
      destruct Heqb; bool_to_prop; lia.
    + exists true. split; [done|]. split; [|done]. intros _. exists (Z.max s1 s2). lia.
  - unfold isSubset. simpl. eexists. split; [done|]. rewrite andb_true_iff, !Z.leb_le. split.
    + intros ? a ?. lia.
    + intros H. pose proof (H s1). pose proof (H (e1 - 1)). lia.
Qed.

Lemma plain_range_tests_witness :
  (∃ b, intersects (AddrRange_of 0 0x20000000) (AddrRange_of 0x30000000 0x50000000) = Ok b ∧
     (b = true ↔ ∃ a, contains (AddrRange_of 0 0x20000000) a = true ∧
                     contains (AddrRange_of 0x30000000 0x50000000) a = true)) ∧
  (∃ b, isSubset (AddrRange_of 0 0x20000000) (AddrRange_of 0x30000000 0x50000000) = Ok b ∧
     (b = true ↔ ∀ a, contains (AddrRange_of 0 0x20000000) a = true →
                     contains (AddrRange_of 0x30000000 0x50000000) a = true)).
Proof. apply (plain_range_tests 0 0x20000000 0x30000000 0x50000000); lia. Defined.
