(* ===== verification/AddrRangeMap.v ===== *)
(** * Address decoding ([base/addr_range_map.hh])

    [AddrRangeMap] is the map from address ranges to ports or memories that
    the crossbars and [PhysicalMemory] use to decode a physical address.  The
    [std::map] is the list of its entries in key order, and an iterator into
    it is the key it points to.  The recently-used [cache] of iterators is
    part of the state. *)

From S2P Require Import Prelude.
From S2P Require Import Bitfield.
From S2P Require Import AddrRange.

Section AddrRangeMap.
Context {V : Type} (max_cache_size : nat).

(** ** Definitions *)

Record RangeMap := mkRangeMap {
  tree : list (AddrRange * V);
  cache : list AddrRange;
}.

Definition map_empty : RangeMap := mkRangeMap [] [].

(** [tree.upper_bound(r)]: the entries before it and those from it on. *)
Fixpoint upper_bound (r : AddrRange) (l : list (AddrRange * V)) :
    list (AddrRange * V) * list (AddrRange * V) :=
  match l with
  | [] => ([], [])
  | e :: l' =>
      if range_ltb r e.1 then ([], l)
      else let '(p, s) := upper_bound r l' in (e :: p, s)
  end.

(** Dereferencing an iterator; undefined once its entry is erased. *)
Definition deref (k : AddrRange) (l : list (AddrRange * V)) : res (AddrRange * V) :=
  match list_find (λ e : AddrRange * V, e.1 = k) l with
  | Some (_, e) => Ok e
  | None => Err Undef
  end.

Definition addNewEntryToCache (it : AddrRange) (c : list AddrRange) : list AddrRange :=
  if Nat.eqb max_cache_size 0 then c
  else if Nat.leb max_cache_size (length c) then it :: removelast c
  else it :: c.

Fixpoint cache_scan (l : list (AddrRange * V)) (cond : AddrRange → res bool)
    (before after : list AddrRange) : res (option (AddrRange * V * list AddrRange)) :=
  match after with
  | [] => Ok None
  | k :: after' =>
      e ← deref k l;
      b ← cond e.1;
      if b : bool then Ok (Some (e, k :: before ++ after'))
      else cache_scan l cond (before ++ [k]) after'
  end.

(** The backward walk of [find], over the entries before the upper bound,
    nearest first. *)
Fixpoint back_loop (cond : AddrRange → res bool) (l : list (AddrRange * V)) :
    res (option (AddrRange * V)) :=
  match l with
  | [] => Ok None
  | i :: l' =>
      b ← cond i.1;
      if b : bool then Ok (Some i)
      else match l' with
           | [] => Ok None
           | p :: _ => if mergesWith p.1 i.1 then back_loop cond l' else Ok None
           end
  end.

Definition find (m : RangeMap) (r : AddrRange) (cond : AddrRange → res bool) :
    res (option (AddrRange * V) * RangeMap) :=
  hit ← cache_scan (tree m) cond [] (cache m);
  match hit with
  | Some (e, c) => Ok (Some e, mkRangeMap (tree m) c)
  | None =>
      let '(lo, hi) := upper_bound r (tree m) in
      fwd ← match hi with
            | [] => Ok None
            | next :: _ => b ← cond next.1; Ok (if b : bool then Some next else None)
            end;
      match fwd with
      | Some e => Ok (Some e, mkRangeMap (tree m) (addNewEntryToCache e.1 (cache m)))
      | None =>
          o ← back_loop cond (rev lo);
          match o with
          | Some e => Ok (Some e, mkRangeMap (tree m) (addNewEntryToCache e.1 (cache m)))
          | None => Ok (None, m)
          end
      end
  end.

Definition map_contains (m : RangeMap) (r : AddrRange) :=
  find m r (λ r1, isSubset r r1).
Definition map_contains_addr (m : RangeMap) (a : Z) := map_contains m (RangeSize a 1).
Definition map_intersects (m : RangeMap) (r : AddrRange) :=
  find m r (λ r1, intersects r r1).

(** [tree.insert]: nothing happens if an equivalent key is present. *)
Fixpoint tree_insert (r : AddrRange) (d : V) (l : list (AddrRange * V)) :
    (AddrRange * V) * list (AddrRange * V) :=
  match l with
  | [] => ((r, d), [(r, d)])
  | e :: l' =>
      if range_ltb r e.1 then ((r, d), (r, d) :: l)
      else if range_ltb e.1 r then let '(it, l'') := tree_insert r d l' in (it, e :: l'')
      else (e, l)
  end.

(** [None] is [tree.end()]. *)
Definition insert (m : RangeMap) (r : AddrRange) (d : V) :
    res (option (AddrRange * V) * RangeMap) :=
  '(o, m') ← map_intersects m r;
  match o with
  | Some _ => Ok (None, m')
  | None => let '(it, t) := tree_insert r d (tree m') in Ok (Some it, mkRangeMap t (cache m'))
  end.

Definition erase (m : RangeMap) (p : AddrRange) : RangeMap :=
  mkRangeMap (filter (λ e, e.1 ≠ p) (tree m)) (filter (λ k, k ≠ p) (cache m)).

(** [erase(p, q)] removes the keys from [p] up to but not including [q] from
    the tree; the loop body removes [p], not the loop variable, from the
    cache. *)
Definition erase_range (m : RangeMap) (p : AddrRange) (q : option AddrRange) : RangeMap :=
  let in_span (e : AddrRange * V) :=
    negb (range_ltb e.1 p) && match q with Some q => range_ltb e.1 q | None => true end in
  let c := if existsb in_span (tree m) then filter (λ k, k ≠ p) (cache m) else cache m in
  mkRangeMap (filter (λ e, in_span e = false) (tree m)) c.

Definition clear (m : RangeMap) : RangeMap := mkRangeMap [] [].

(** ** Invariant

    The entries are not interleaved, not empty, in ascending order and
    disjoint, and the cache holds iterators to entries. *)
Definition plain_entry (r : AddrRange) : Prop :=
  r_masks r = [] ∧ r_intlvMatch r = 0 ∧ r_start r < r_end r ∧
  is_u64 (r_start r) ∧ is_u64 (r_end r).

Fixpoint disjoint_from (lo : Z) (l : list (AddrRange * V)) : Prop :=
  match l with
  | [] => True
  | e :: l => plain_entry e.1 ∧ lo ≤ r_start e.1 ∧ disjoint_from (r_end e.1) l
  end.

Definition map_inv (m : RangeMap) : Prop :=
  disjoint_from 0 (tree m) ∧ Forall (λ k, k ∈ (tree m).*1) (cache m).

(** The abstract decoder: the entry an address falls into. *)
Definition decode (l : list (AddrRange * V)) (a : Z) : option (AddrRange * V) :=
  snd <$> list_find (λ e : AddrRange * V, contains e.1 a = true) l.

(** ** Ordered, disjoint entries *)

Lemma range_ltb_plain r1 r2 :
  plain_entry r1 → plain_entry r2 → range_ltb r1 r2 = (r_start r1 <? r_start r2).
Proof.
  intros (_ & M1 & _) (_ & M2 & _). unfold range_ltb. rewrite M1, M2. zcmp; done.
Qed.

Lemma contains_entry r a : plain_entry r → contains r a = true ↔ r_start r ≤ a < r_end r.
Proof.
  intros (M & I & _). rewrite contains_spec. unfold sel. rewrite M, I. simpl. naive_solver.
Qed.

Lemma disjoint_from_elem lo (l : list (AddrRange * V)) e :
  disjoint_from lo l → e ∈ l → plain_entry e.1 ∧ lo ≤ r_start e.1.
Proof.
  revert lo. induction l as [|e' l IH]; intros lo Hd He; [by apply elem_of_nil in He|].
  destruct Hd as (Hp & Hlo & Hd). apply elem_of_cons in He as [->|He]; [done|].
  destruct (IH _ Hd He) as [H1 H2]. split; [done|]. destruct Hp as (_ & _ & ? & _). lia.
Qed.

Lemma disjoint_from_app lo (l1 : list (AddrRange * V)) e l2 :
  disjoint_from lo (l1 ++ e :: l2) →
  (∀ e', e' ∈ l1 → r_end e'.1 ≤ r_start e.1) ∧ (∀ e', e' ∈ l2 → r_end e.1 ≤ r_start e'.1).
Proof.
  revert lo. induction l1 as [|e1 l1 IH]; intros lo Hd; simpl in Hd.
  - destruct Hd as (Hp & Hlo & Hd). split; [intros e' He'; by apply elem_of_nil in He'|].
    intros e' He'. by destruct (disjoint_from_elem _ _ _ Hd He').
  - destruct Hd as (Hp & Hlo & Hd). destruct (IH _ Hd) as [H1 H2]. split; [|done].
    intros e' [->|He']%elem_of_cons; [|by apply H1].
    destruct (disjoint_from_elem _ _ e Hd) as [_ ?]; [|done].
    apply elem_of_app. right. left.
Qed.

(** Two entries sharing an address are the same entry. *)
Lemma entry_unique lo (l : list (AddrRange * V)) e1 e2 a :
  disjoint_from lo l → e1 ∈ l → e2 ∈ l →
  r_start e1.1 ≤ a < r_end e1.1 → r_start e2.1 ≤ a < r_end e2.1 → e1 = e2.
Proof.
  intros Hd H1 H2 Ha1 Ha2. apply list_elem_of_split in H1 as (l1 & l2 & ->).
  destruct (disjoint_from_app _ _ _ _ Hd) as [Hb Hf].
  apply elem_of_app in H2 as [H2|[->|H2]%elem_of_cons]; [|done|].
  - specialize (Hb _ H2). lia.
  - specialize (Hf _ H2). lia.
Qed.

Lemma decode_spec lo (l : list (AddrRange * V)) a e :
  disjoint_from lo l → decode l a = Some e ↔ e ∈ l ∧ contains e.1 a = true.
Proof.
  intros Hd. unfold decode. split.
  - intros H. apply fmap_Some in H as ([i e'] & Hf & ->). apply list_find_Some in Hf as (Hl & Hc & _).
    split; [by eapply list_elem_of_lookup_2|done].
  - intros [He Hc]. destruct (list_find_elem_of (λ e : AddrRange * V, contains e.1 a = true) l e He Hc)
      as [[i e'] Hf]. rewrite Hf. simpl. f_equal.
    apply list_find_Some in Hf as (Hl & Hc' & _). apply list_elem_of_lookup_2 in Hl.
    destruct (disjoint_from_elem _ _ _ Hd He) as [Hp _].
    destruct (disjoint_from_elem _ _ _ Hd Hl) as [Hp' _].
    apply contains_entry in Hc, Hc'; [|done..]. by eapply entry_unique.
Qed.

Lemma upper_bound_spec r lo (l : list (AddrRange * V)) :
  plain_entry r → disjoint_from lo l →
  ∃ p s, upper_bound r l = (p, s) ∧ l = p ++ s ∧
    (∀ e, e ∈ p → r_start e.1 ≤ r_start r) ∧ (∀ e, e ∈ s → r_start r < r_start e.1).
Proof.
  intros Hr. revert lo. induction l as [|e l IH]; intros lo Hd; simpl.
  { exists [], []. split; [done|]. split; [done|]. split; intros e He; by apply elem_of_nil in He. }
  destruct Hd as (Hp & Hlo & Hd). rewrite range_ltb_plain by done.
  destruct (Z.ltb_spec (r_start r) (r_start e.1)).
  - exists [], (e :: l). split; [done|]. split; [done|].
    split; [intros e' He'; by apply elem_of_nil in He'|].
    intros e' [->|He']%elem_of_cons; [done|].
    destruct (disjoint_from_elem _ _ _ Hd He') as [_ ?]. destruct Hp as (_ & _ & ? & _). lia.
  - destruct (IH _ Hd) as (p & s & -> & -> & Hlow & Hhigh). exists (e :: p), s.
    split; [done|]. split; [done|]. split; [|done].
    intros e' [->|He']%elem_of_cons; [lia|by apply Hlow].
Qed.

Lemma mergesWith_distinct lo (l1 : list (AddrRange * V)) p i l2 :
  disjoint_from lo (l1 ++ p :: i :: l2) → mergesWith p.1 i.1 = false.
Proof.
  intros Hd. pose proof (disjoint_from_app _ _ _ _ Hd) as [_ Hf].
  specialize (Hf i ltac:(left)).
  destruct (disjoint_from_elem _ _ p Hd) as [Hp _]; [apply elem_of_app; right; left|].
  unfold mergesWith. destruct Hp as (_ & _ & ? & _).
  rewrite (proj2 (Z.eqb_neq (r_start i.1) (r_start p.1))) by lia. done.
Qed.

(** Only the entry just below the upper bound is looked at. *)
Lemma back_loop_last cond (c : AddrRange → bool) (l1 : list (AddrRange * V)) i lo :
  disjoint_from lo (l1 ++ [i]) → cond i.1 = Ok (c i.1) →
  back_loop cond (rev (l1 ++ [i])) = Ok (if c i.1 then Some i else None).
Proof.
  intros Hd Hc. rewrite rev_app_distr. simpl. rewrite Hc. simpl.
  destruct (c i.1); [done|]. destruct (rev l1) as [|p rl] eqn:E; [done|].
  assert (l1 = rev rl ++ [p]) as ->.
  { rewrite <-(rev_involutive l1), E. done. }
  rewrite <-app_assoc in Hd. rewrite (mergesWith_distinct _ _ _ _ _ Hd). done.
Qed.

(** ** [find] *)

Definition keys_ok (l : list (AddrRange * V)) (c : list AddrRange) : Prop :=
  Forall (λ k, k ∈ l.*1) c.

Lemma deref_ok (l : list (AddrRange * V)) k :
  k ∈ l.*1 → ∃ e, deref k l = Ok e ∧ e ∈ l ∧ e.1 = k.
Proof.
  intros Hk. apply list_elem_of_fmap in Hk as (e & -> & He). unfold deref.
  destruct (list_find_elem_of (λ e' : AddrRange * V, e'.1 = e.1) l e He eq_refl) as [[i e'] Hf].
  rewrite Hf. exists e'. apply list_find_Some in Hf as (Hl & Hc & _).
  split; [done|]. split; [by eapply list_elem_of_lookup_2|done].
Qed.

Lemma cache_scan_spec cond (c : AddrRange → bool) (l : list (AddrRange * V)) before after :
  (∀ e, e ∈ l → cond e.1 = Ok (c e.1)) → keys_ok l before → keys_ok l after →
  ∃ o, cache_scan l cond before after = Ok o ∧
    match o with
    | Some (e, c') => e ∈ l ∧ c e.1 = true ∧ keys_ok l c'
    | None => True
    end.
Proof.
  intros Hcond. revert before. induction after as [|k after IH]; intros before Hb Ha; simpl.
  { by exists None. }
  apply Forall_cons in Ha as [Hk Ha]. destruct (deref_ok l k Hk) as (e & -> & He & <-).
  simpl. rewrite Hcond by done. simpl. destruct (c e.1) eqn:Ec.
  - eexists. split; [done|]. simpl. split; [done|]. split; [done|].
    apply Forall_cons. split; [done|]. by apply Forall_app.
  - apply IH; [|done]. apply Forall_app. split; [done|]. by apply Forall_singleton.
Qed.

Lemma addNewEntryToCache_ok (l : list (AddrRange * V)) e c :
  e ∈ l → keys_ok l c → keys_ok l (addNewEntryToCache e.1 c).
Proof.
  intros He Hc. unfold addNewEntryToCache, keys_ok.
  assert (e.1 ∈ l.*1) by (by apply list_elem_of_fmap_2).
  repeat case_if; [done| |by apply Forall_cons].
  apply Forall_cons. split; [done|]. clear -Hc. unfold keys_ok in Hc.
  induction Hc as [|k c Hk Hc IH]; simpl; [constructor|].
  destruct c as [|k' c]; [constructor|]. apply Forall_cons. by split.
Qed.

(** [cond] as a total predicate on the entries, decided by the two
    neighbours of the upper bound. *)
Definition neighbours_decide (r : AddrRange) (c : AddrRange → bool)
    (l : list (AddrRange * V)) : Prop :=
  ∀ e, e ∈ l → c e.1 = true →
    (r_start r < r_start e.1 → ∀ l1 e2 l2, l = l1 ++ e2 :: l2 →
       (∀ e', e' ∈ l1 → r_start e'.1 ≤ r_start r) → r_start r < r_start e2.1 → c e2.1 = true) ∧
    (r_start e.1 ≤ r_start r → ∀ e2, e2 ∈ l → r_start e.1 < r_start e2.1 →
       r_start r < r_start e2.1).

Lemma find_spec m r cond c :
  map_inv m → plain_entry r → (∀ e, e ∈ tree m → cond e.1 = Ok (c e.1)) →
  neighbours_decide r c (tree m) →
  ∃ o m', find m r cond = Ok (o, m') ∧ tree m' = tree m ∧ map_inv m' ∧
    match o with
    | Some e => e ∈ tree m ∧ c e.1 = true
    | None => ∀ e, e ∈ tree m → c e.1 = false
    end.
Proof.
  intros [Hd Hk] Hr Hcond Hnb. unfold find.
  destruct (cache_scan_spec cond c (tree m) [] (cache m) Hcond ltac:(constructor) Hk)
    as ([[e c']|] & -> & Hhit); cbn [mbind res_bind].
  { destruct Hhit as (He & Hc & Hc'). eexists _, _. split; [done|]. split; [done|].
    split; [by split|done]. }
  destruct (upper_bound_spec r _ _ Hr Hd) as (p & s & -> & Hl & Hlow & Hhigh).
  assert (∀ e, e ∈ p → e ∈ tree m) as Hpin by (intros; rewrite Hl; apply elem_of_app; auto).
  assert (∀ e, e ∈ s → e ∈ tree m) as Hsin by (intros; rewrite Hl; apply elem_of_app; auto).
  (* the forward check *)
  assert (∃ fwd, (match s with
            | [] => Ok None
            | next :: _ => b ← cond next.1; Ok (if b : bool then Some next else None)
            end) = Ok fwd ∧
          match fwd with Some e => e ∈ s ∧ c e.1 = true
                       | None => ∀ e, e ∈ s → c e.1 = false end) as (fwd & -> & Hfwd).
  { destruct s as [|next s].
    - exists None. split; [done|]. intros e He. by apply elem_of_nil in He.
    - rewrite Hcond by (apply Hsin; left). simpl. eexists. split; [done|].
      destruct (c next.1) eqn:Ec; [split; [left|done]|].
      intros e He. destruct (c e.1) eqn:Ece; [|done].
      destruct (Hnb e (Hsin e He) Ece) as [Hn _].
      rewrite (Hn (Hhigh e He) p next s) in Ec; [done|done|done|]. apply Hhigh. left. }
  cbn [mbind res_bind]. destruct fwd as [e|].
  { destruct Hfwd as [He Hc]. eexists _, _. split; [done|]. split; [done|].
    split; [|by split; [apply Hsin|]]. split; [done|]. apply addNewEntryToCache_ok; auto. }
  destruct (decide (p = [])) as [->|Hpne].
  { simpl. eexists _, _. split; [done|]. split; [done|]. split; [by split|].
    rewrite Hl. simpl. done. }
  destruct (exists_last Hpne) as (p1 & i & ->).
  assert (disjoint_from 0 ((p1 ++ [i]) ++ s)) as Hd' by (by rewrite <-Hl).
  assert (∀ lo l1 l2, disjoint_from lo (l1 ++ l2) → disjoint_from lo l1) as Hpre.
  { clear. intros lo l1. revert lo. induction l1 as [|e l1 IH]; intros lo l2 Hd; simpl; [done|].
    destruct Hd as (? & ? & ?). split; [done|]. split; [done|]. by eapply IH. }
  assert (i ∈ tree m) as Hi by (apply Hpin, elem_of_app; right; left).
  rewrite (back_loop_last cond c p1 i 0) by (by eapply Hpre || by apply Hcond).
  cbn [mbind res_bind]. destruct (c i.1) eqn:Eci.
  { eexists _, _. split; [done|]. split; [done|]. split; [|done]. split; [done|].
    by apply addNewEntryToCache_ok. }
  eexists _, _. split; [done|]. split; [done|]. split; [by split|].
  intros e He. destruct (c e.1) eqn:Ece; [|done]. rewrite Hl in He.
  apply elem_of_app in He as [He|He]; [|by rewrite Hfwd in Ece].
  destruct (Hnb e (Hpin e He) Ece) as [_ Hn]. specialize (Hn (Hlow e He)).
  apply elem_of_app in He as [He|He].
  - rewrite <-app_assoc in Hd'. pose proof (disjoint_from_app _ _ _ _ Hd') as [Hb _].
    specialize (Hb _ He).
    destruct (disjoint_from_elem 0 (tree m) e Hd) as [(_ & _ & ? & _) _];
      [apply Hpin, elem_of_app; by left|].
    specialize (Hn i Hi ltac:(lia)).
    assert (r_start i.1 ≤ r_start r) by (apply Hlow, elem_of_app; right; left). lia.
  - apply list_elem_of_singleton in He as ->. congruence.
Qed.

(** ** Lookups and insertions *)

Lemma RangeSize_plain a : 0 ≤ a < 2 ^ 64 - 1 →
  RangeSize a 1 = mkAddrRange a (a + 1) [] 0 ∧ plain_entry (RangeSize a 1).
Proof.
  intros Ha. unfold RangeSize, AddrRange_of. rewrite u64_small by lia.
  split; [done|]. repeat split; simpl; lia.
Qed.

(** [r] lies inside [r1]. *)
Definition within (r r1 : AddrRange) : bool :=
  (r_start r1 <=? r_start r) && (r_end r <=? r_end r1).

Lemma isSubset_plain r r1 : plain_entry r → plain_entry r1 → isSubset r r1 = Ok (within r r1).
Proof.
  intros (M & _) (M1 & _). unfold isSubset, interleaved. by rewrite M, M1.
Qed.

(** The entry an address range falls into. *)
Lemma map_contains_spec m r : map_inv m → plain_entry r →
  ∃ o m', map_contains m r = Ok (o, m') ∧ tree m' = tree m ∧ map_inv m' ∧
    match o with
    | Some e => e ∈ tree m ∧ within r e.1 = true
    | None => ∀ e, e ∈ tree m → within r e.1 = false
    end.
Proof.
  intros Hinv Hp. assert (r_start r < r_end r) as Hne by apply Hp.
  unfold map_contains. apply (find_spec m r (λ r1, isSubset r r1) (within r)); [done|done| |].
  - intros e He. destruct (disjoint_from_elem _ _ _ (proj1 Hinv) He) as [Hpe _]. by apply isSubset_plain.
  - intros e He Hc. unfold within in Hc. bool_to_prop. split; [lia|].
    intros _ e2 He2 Hlt. destruct (Z.ltb_spec (r_start r) (r_start e2.1)); [done|exfalso].
    apply list_elem_of_split in He as (l1 & l2 & Hl).
    pose proof (proj1 Hinv) as Hd. rewrite Hl in Hd, He2.
    destruct (disjoint_from_app _ _ _ _ Hd) as [Hb Hf].
    destruct (disjoint_from_elem _ _ e2 Hd He2) as [(_ & _ & ? & _) _].
    apply elem_of_app in He2 as [He2|[->|He2]%elem_of_cons]; [|lia|].
    + specialize (Hb _ He2). lia.
    + specialize (Hf _ He2). lia.
Qed.

Lemma map_contains_addr_spec m a :
  map_inv m → 0 ≤ a < 2 ^ 64 - 1 →
  ∃ m', map_contains_addr m a = Ok (decode (tree m) a, m') ∧ tree m' = tree m ∧ map_inv m'.
Proof.
  intros Hinv Ha. destruct (RangeSize_plain a Ha) as [E Hp]. unfold map_contains_addr.
  destruct (map_contains_spec m (RangeSize a 1) Hinv Hp) as (o & m' & -> & Ht & Hi & Ho).
  assert (Hw : ∀ e, e ∈ tree m → within (RangeSize a 1) e.1 = contains e.1 a).
  { intros e He. destruct (disjoint_from_elem _ _ _ (proj1 Hinv) He) as [(Hm & Hmt & _) _].
    rewrite E. unfold within, contains, sel_loop. rewrite Hm, Hmt. simpl. zcmp; done. }
  exists m'. split; [|done]. do 2 f_equal. destruct o as [e|].
  - destruct Ho as [He Hc]. symmetry. apply (decode_spec 0); [apply Hinv|]. by rewrite Hw in Hc.
  - symmetry. destruct (decode (tree m) a) as [e|] eqn:Ed; [|done].
    apply (decode_spec 0) in Ed as [He Hc]; [|apply Hinv]. rewrite <- Hw, Ho in Hc; done.
Qed.

Definition overlap (r1 r2 : AddrRange) : bool :=
  (r_start r1 <? r_end r2) && (r_start r2 <? r_end r1).

Lemma intersects_plain r1 r2 :
  plain_entry r1 → plain_entry r2 → intersects r1 r2 = Ok (overlap r1 r2).
Proof.
  intros (M1 & _) (M2 & _). unfold intersects, overlap, interleaved. rewrite M1, M2. simpl.
  zcmp; done.
Qed.

Lemma map_intersects_spec m r :
  map_inv m → plain_entry r →
  ∃ o m', map_intersects m r = Ok (o, m') ∧ tree m' = tree m ∧ map_inv m' ∧
    match o with
    | Some e => e ∈ tree m ∧ overlap r e.1 = true
    | None => ∀ e, e ∈ tree m → overlap r e.1 = false
    end.
Proof.
  intros Hinv Hr. unfold map_intersects.
  apply (find_spec m r (λ r1, intersects r r1) (overlap r)); [done|done| |].
  - intros e He. apply intersects_plain; [done|].
    by destruct (disjoint_from_elem _ _ _ (proj1 Hinv) He).
  - intros e He Hc. unfold overlap in Hc. bool_to_prop. split.
    + intros Hlt l1 e2 l2 Hl Hlow Hlt2. unfold overlap.
      pose proof (proj1 Hinv) as Hd. rewrite Hl in Hd, He.
      destruct (disjoint_from_app _ _ _ _ Hd) as [Hb Hf].
      destruct (disjoint_from_elem _ _ e2 Hd) as [(_ & _ & ? & _) _];
        [apply elem_of_app; right; left|].
      apply elem_of_app in He as [He|[->|He]%elem_of_cons].
      * specialize (Hlow _ He). lia.
      * zcmp.
      * specialize (Hf _ He). zcmp.
    + intros Hle e2 He2 Hlt. destruct (Z.ltb_spec (r_start r) (r_start e2.1)); [done|exfalso].
      apply list_elem_of_split in He as (l1 & l2 & Hl).
      pose proof (proj1 Hinv) as Hd. rewrite Hl in Hd, He2.
      destruct (disjoint_from_app _ _ _ _ Hd) as [Hb Hf].
      destruct (disjoint_from_elem _ _ e2 Hd He2) as [(_ & _ & ? & _) _].
      apply elem_of_app in He2 as [He2|[->|He2]%elem_of_cons]; [|lia|].
      * specialize (Hb _ He2). lia.
      * specialize (Hf _ He2). lia.
Qed.

Lemma tree_insert_spec r d lo (l : list (AddrRange * V)) :
  plain_entry r → disjoint_from lo l → lo ≤ r_start r →
  (∀ e, e ∈ l → overlap r e.1 = false) →
  ∃ t, tree_insert r d l = ((r, d), t) ∧ disjoint_from lo t ∧
    ∀ e, e ∈ t ↔ e = (r, d) ∨ e ∈ l.
Proof.
  intros Hr. revert lo. induction l as [|e l IH]; intros lo Hd Hlo Hov; simpl.
  { eexists. split; [done|]. simpl. split; [done|]. intros e. set_solver. }
  destruct Hd as (Hp & Hle & Hd). rewrite !range_ltb_plain by done.
  assert (overlap r e.1 = false) as Hoe by (apply Hov; left).
  assert (r_start r < r_end r) as Hrne by apply Hr.
  assert (r_start e.1 < r_end e.1) as Hene by apply Hp.
  unfold overlap in Hoe. apply andb_false_iff in Hoe.
  destruct (Z.ltb_spec (r_start r) (r_start e.1)).
  - eexists. split; [done|]. simpl. split; [|intros e'; set_solver].
    split; [done|]. split; [done|]. split; [done|]. split; [|done].
    destruct Hoe; bool_to_prop; lia.
  - rewrite (proj2 (Z.ltb_lt (r_start e.1) (r_start r)))
      by (destruct Hoe; bool_to_prop; lia).
    destruct (IH (r_end e.1)) as (t & -> & Ht & Hin); [done| | |].
    + destruct Hoe; bool_to_prop; lia.
    + intros e' He'. apply Hov. by right.
    + eexists. split; [done|]. simpl. split; [done|]. intros e'. set_solver.
Qed.

(** A range is added unless it overlaps one that is there. *)
Lemma map_insert_spec m r d : map_inv m → plain_entry r →
  ∃ o m', insert m r d = Ok (o, m') ∧ map_inv m' ∧
    match o with
    | Some e => e = (r, d) ∧ (∀ e, e ∈ tree m → overlap r e.1 = false) ∧
        ∀ e, e ∈ tree m' ↔ e = (r, d) ∨ e ∈ tree m
    | None => tree m' = tree m ∧ ∃ e, e ∈ tree m ∧ overlap r e.1 = true
    end.
Proof.
  intros Hinv Hr. unfold insert.
  destruct (map_intersects_spec m r Hinv Hr) as (o & m' & -> & Ht & Hinv' & Ho).
  cbn [mbind res_bind]. destruct o as [e|].
  { eexists _, _. split; [done|]. split; [done|]. split; [done|]. by exists e. }
  rewrite Ht. destruct (tree_insert_spec r d 0 (tree m) Hr (proj1 Hinv)) as (t & -> & Hdt & Hin);
    [apply Hr|done|].
  eexists _, _. split; [done|]. split; [|by split].
  split; [done|]. destruct Hinv' as [_ Hk]. simpl. eapply Forall_impl; [exact Hk|].
  intros k Hkin. rewrite Ht in Hkin. apply list_elem_of_fmap in Hkin as (e & -> & He).
  apply list_elem_of_fmap. exists e. split; [done|]. apply Hin. by right.
Qed.

Lemma erase_inv m p : map_inv m → map_inv (erase m p).
Proof.
  intros [Hd Hk]. split; simpl.
  - generalize dependent 0. clear Hk. induction (tree m) as [|e l IH]; intros lo Hd; [done|].
    destruct Hd as (Hp & Hlo & Hd). rewrite filter_cons. case_decide; simpl.
    + split; [done|]. split; [done|]. by apply IH.
    + apply IH. clear -Hp Hlo Hd. destruct l as [|e' l]; [done|].
      destruct Hd as (? & ? & ?). destruct Hp as (_ & _ & ? & _).
      split; [done|]. split; [lia|done].
  - apply Forall_forall. intros k [Hne Hin]%list_elem_of_filter.
    rewrite Forall_forall in Hk. specialize (Hk k Hin).
    apply list_elem_of_fmap in Hk as (e & -> & He). apply list_elem_of_fmap.
    exists e. split; [done|]. by apply list_elem_of_filter.
Qed.
End AddrRangeMap.
Arguments RangeMap V : clear implicits.

(** ** Theorems *)

(** Decoding an address through a map of disjoint plain ranges finds the
    entry whose range contains it whenever there is one, whatever the
    recently-used cache holds, never dereferences a dangling iterator, and
    leaves the entries and the invariant as they were. *)
Theorem addr_map_decodes {V} n (m : RangeMap V) a :
  map_inv m → 0 ≤ a < 2 ^ 64 - 1 →
  ∃ m', map_contains_addr n m a = Ok (decode (tree m) a, m') ∧
    tree m' = tree m ∧ map_inv m' ∧
    (∀ e, decode (tree m) a = Some e ↔ e ∈ tree m ∧ r_start e.1 ≤ a < r_end e.1).
Proof.
  intros Hinv Ha. destruct (map_contains_addr_spec n m a Hinv Ha) as (m' & ? & ? & ?).
  exists m'. split; [done|]. split; [done|]. split; [done|]. intros e.
  rewrite (decode_spec 0) by apply Hinv. split; intros [He Hc]; (split; [done|]);
    apply contains_entry in Hc || apply contains_entry; try done;
    by destruct (disjoint_from_elem _ _ _ (proj1 Hinv) He).
Qed.

(** Insertion keeps the entries disjoint: a range that overlaps an entry
    is refused and nothing changes, any other range becomes the decoding of
    exactly its own addresses; erasing an entry keeps the invariant too. *)
Theorem addr_map_insert {V} n (m : RangeMap V) r d :
  map_inv m → plain_entry r →
  ∃ o m', insert n m r d = Ok (o, m') ∧ map_inv m' ∧ map_inv (erase m' r) ∧
    if existsb (λ e, overlap r e.1) (tree m) then o = None ∧ tree m' = tree m
    else o = Some (r, d) ∧ decode (tree m') (r_start r) = Some (r, d) ∧
         ∀ a, decode (tree m') a =
           if (r_start r <=? a) && (a <? r_end r) then Some (r, d) else decode (tree m) a.
Proof.
  intros Hinv Hr. destruct (map_insert_spec n m r d Hinv Hr) as (o & m' & -> & Hinv' & Ho).
  exists o, m'. split; [done|]. split; [done|]. split; [by apply erase_inv|].
  destruct o as [e|].
  2: { destruct Ho as (Ht & e & He & Hov). rewrite (proj2 (existsb_exists _ _)); [done|].
       exists e. split; [|done]. by apply list_elem_of_In. }
  destruct Ho as (-> & Hno & Hin).
  replace (existsb (λ e, overlap r e.1) (tree m)) with false.
  2: { symmetry. apply not_true_is_false. intros (e & He & Hc)%existsb_exists.
       apply list_elem_of_In in He. rewrite Hno in Hc; done. }
  assert (∀ a, decode (tree m') a =
    if (r_start r <=? a) && (a <? r_end r) then Some (r, d) else decode (tree m) a) as Hdec.
  { intros a. destruct ((r_start r <=? a) && (a <? r_end r)) eqn:Ea.
    - apply (decode_spec 0); [apply Hinv'|]. split; [apply Hin; by left|].
      bool_to_prop. by apply contains_entry.
    - apply option_eq. intros e. rewrite (decode_spec 0) by apply Hinv'.
      rewrite (decode_spec 0) by apply Hinv. rewrite Hin. split; [|naive_solver].
      intros [[->|He] Hc]; [|done]. apply contains_entry in Hc; [|done].
      exfalso. simpl in Hc. apply andb_false_iff in Ea as [?|?]; bool_to_prop; lia. }
  split; [done|]. split; [|done]. rewrite Hdec.
  assert (r_start r < r_end r) by apply Hr. zcmp; done.
Qed.

(** Two memories, as [PhysicalMemory] registers them. *)
Definition two_memories : RangeMap Z :=
  mkRangeMap [(mkAddrRange 0 0x20000000 [] 0, 1); (mkAddrRange 0x30000000 0x50000000 [] 0, 2)]
    [mkAddrRange 0 0x20000000 [] 0].

Lemma two_memories_inv : map_inv two_memories.
Proof.
  split; simpl; [repeat split; simpl; lia|]. repeat constructor; set_solver.
Qed.

Lemma addr_map_decodes_witness :
  ∃ m', map_contains_addr 1 two_memories 0x30000010 =
    Ok (Some (mkAddrRange 0x30000000 0x50000000 [] 0, 2), m').
Proof.
  destruct (addr_map_decodes 1 two_memories 0x30000010 two_memories_inv ltac:(lia))
    as (m' & E & _). exists m'. rewrite E. reflexivity.
Defined.

Lemma addr_map_insert_witness :
  ∃ m', insert 1 two_memories (mkAddrRange 0x60000000 0x60001000 [] 0) 3 =
    Ok (Some (mkAddrRange 0x60000000 0x60001000 [] 0, 3), m').
Proof.
  destruct (addr_map_insert 1 two_memories (mkAddrRange 0x60000000 0x60001000 [] 0) 3
    two_memories_inv ltac:(repeat split; simpl; lia)) as (o & m' & E & _ & _ & Ho).
  destruct Ho as [-> _]. by exists m'.
Defined.

(** [erase(p, q)] drops only [p] from the recently-used cache, so when
    the erased span holds another cached entry the invariant is lost and the
    next lookup dereferences an iterator to an erased entry. *)
Theorem erase_range_leaves_dangling :
  let p := mkAddrRange 0 0x1000 [] 0 in
  let r := mkAddrRange 0x1000 0x2000 [] 0 in
  let m := mkRangeMap [(p, 1); (r, 2)] [r] in
  map_inv m ∧ tree (erase_range m p None) = [] ∧
  map_contains_addr 1 (erase_range m p None) 0x1800 = Err Undef.
Proof.
  split; [|by vm_compute]. split; simpl; [repeat split; simpl; lia|].
  repeat constructor; set_solver.
Qed.
