(* ===== verification/MemCmd.v ===== *)
(** * Memory commands ([mem/packet.hh], [mem/packet.cc])

    The commands of a packet, their attributes and the response that answers
    each request. *)

From stdpp Require Import finite.
From S2P Require Import Prelude.

Module MemCmd.

(** ** Definitions *)

Inductive Command :=
| InvalidCmd | ReadReq | ReadResp | ReadRespWithInvalidate | WriteReq | WriteResp
| WriteCompleteResp | WritebackDirty | WritebackClean | WriteClean | CleanEvict
| SoftPFReq | SoftPFExReq | HardPFReq | SoftPFResp | HardPFResp | WriteLineReq
| UpgradeReq | SCUpgradeReq | UpgradeResp | SCUpgradeFailReq | UpgradeFailResp
| ReadExReq | ReadExResp | ReadCleanReq | ReadSharedReq | LoadLockedReq
| StoreCondReq | StoreCondFailReq | StoreCondResp | SwapReq | SwapResp
| MemFenceReq | MemSyncReq | MemSyncResp | MemFenceResp
| CleanSharedReq | CleanSharedResp | CleanInvalidReq | CleanInvalidResp
| InvalidDestError | BadAddressError | FunctionalReadError | FunctionalWriteError
| PrintReq | FlushReq | InvalidateReq | InvalidateResp | HTMReq | HTMReqResp | HTMAbort.

#[export] Instance Command_eq_dec : EqDecision Command.
Proof. solve_decision. Defined.

Inductive Attribute :=
| IsRead | IsWrite | IsUpgrade | IsInvalidate | IsClean | NeedsWritable | IsRequest
| IsResponse | NeedsResponse | IsEviction | IsSWPrefetch | IsHWPrefetch | IsLlsc
| HasData | IsError | IsPrint | IsFlush | FromCache.

#[export] Instance Attribute_eq_dec : EqDecision Attribute.
Proof. solve_decision. Defined.

(** The table [commandInfo]: attributes and response. *)
Definition commandInfo (c : Command) : list Attribute * Command :=
  match c with
  | InvalidCmd => ([], InvalidCmd)
  | ReadReq => ([IsRead; IsRequest; NeedsResponse], ReadResp)
  | ReadResp => ([IsRead; IsResponse; HasData], InvalidCmd)
  | ReadRespWithInvalidate => ([IsRead; IsResponse; HasData; IsInvalidate], InvalidCmd)
  | WriteReq => ([IsWrite; NeedsWritable; IsRequest; NeedsResponse; HasData], WriteResp)
  | WriteResp => ([IsWrite; IsResponse], InvalidCmd)
  | WriteCompleteResp => ([IsWrite; IsResponse], InvalidCmd)
  | WritebackDirty => ([IsWrite; IsRequest; IsEviction; HasData; FromCache], InvalidCmd)
  | WritebackClean => ([IsWrite; IsRequest; IsEviction; HasData; FromCache], InvalidCmd)
  | WriteClean => ([IsWrite; IsRequest; HasData; FromCache], InvalidCmd)
  | CleanEvict => ([IsRequest; IsEviction; FromCache], InvalidCmd)
  | SoftPFReq => ([IsRead; IsRequest; IsSWPrefetch; NeedsResponse], SoftPFResp)
  | SoftPFExReq =>
      ([IsRead; NeedsWritable; IsInvalidate; IsRequest; IsSWPrefetch; NeedsResponse], SoftPFResp)
  | HardPFReq => ([IsRead; IsRequest; IsHWPrefetch; NeedsResponse; FromCache], HardPFResp)
  | SoftPFResp => ([IsRead; IsResponse; IsSWPrefetch; HasData], InvalidCmd)
  | HardPFResp => ([IsRead; IsResponse; IsHWPrefetch; HasData], InvalidCmd)
  | WriteLineReq => ([IsWrite; NeedsWritable; IsRequest; NeedsResponse; HasData], WriteResp)
  | UpgradeReq =>
      ([IsInvalidate; NeedsWritable; IsUpgrade; IsRequest; NeedsResponse; FromCache], UpgradeResp)
  | SCUpgradeReq =>
      ([IsInvalidate; NeedsWritable; IsUpgrade; IsLlsc; IsRequest; NeedsResponse; FromCache], UpgradeResp)
  | UpgradeResp => ([IsUpgrade; IsResponse], InvalidCmd)
  | SCUpgradeFailReq =>
      ([IsRead; NeedsWritable; IsInvalidate; IsLlsc; IsRequest; NeedsResponse; FromCache], UpgradeFailResp)
  | UpgradeFailResp => ([IsRead; IsResponse; HasData], InvalidCmd)
  | ReadExReq =>
      ([IsRead; NeedsWritable; IsInvalidate; IsRequest; NeedsResponse; FromCache], ReadExResp)
  | ReadExResp => ([IsRead; IsResponse; HasData], InvalidCmd)
  | ReadCleanReq => ([IsRead; IsRequest; NeedsResponse; FromCache], ReadResp)
  | ReadSharedReq => ([IsRead; IsRequest; NeedsResponse; FromCache], ReadResp)
  | LoadLockedReq => ([IsRead; IsLlsc; IsRequest; NeedsResponse], ReadResp)
  | StoreCondReq => ([IsWrite; NeedsWritable; IsLlsc; IsRequest; NeedsResponse; HasData], StoreCondResp)
  | StoreCondFailReq =>
      ([IsWrite; NeedsWritable; IsLlsc; IsRequest; NeedsResponse; HasData], StoreCondResp)
  | StoreCondResp => ([IsWrite; IsLlsc; IsResponse], InvalidCmd)
  | SwapReq => ([IsRead; IsWrite; NeedsWritable; IsRequest; HasData; NeedsResponse], SwapResp)
  | SwapResp => ([IsRead; IsWrite; IsResponse; HasData], InvalidCmd)
  | MemFenceReq => ([IsRequest; NeedsResponse], MemFenceResp)
  | MemSyncReq => ([IsRequest; NeedsResponse], MemSyncResp)
  | MemSyncResp => ([IsResponse], InvalidCmd)
  | MemFenceResp => ([IsResponse], InvalidCmd)
  | CleanSharedReq => ([IsRequest; IsClean; NeedsResponse; FromCache], CleanSharedResp)
  | CleanSharedResp => ([IsResponse; IsClean], InvalidCmd)
  | CleanInvalidReq => ([IsRequest; IsInvalidate; IsClean; NeedsResponse; FromCache], CleanInvalidResp)
  | CleanInvalidResp => ([IsResponse; IsInvalidate; IsClean], InvalidCmd)
  | InvalidDestError => ([IsResponse; IsError], InvalidCmd)
  | BadAddressError => ([IsResponse; IsError], InvalidCmd)
  | FunctionalReadError => ([IsRead; IsResponse; IsError], InvalidCmd)
  | FunctionalWriteError => ([IsWrite; IsResponse; IsError], InvalidCmd)
  | PrintReq => ([IsRequest; IsPrint], InvalidCmd)
  | FlushReq => ([IsRequest; IsFlush; NeedsWritable], InvalidCmd)
  | InvalidateReq => ([IsInvalidate; IsRequest; NeedsWritable; NeedsResponse; FromCache], InvalidateResp)
  | InvalidateResp => ([IsInvalidate; IsResponse], InvalidCmd)
  | HTMReq => ([IsRead; IsRequest; NeedsResponse], HTMReqResp)
  | HTMReqResp => ([IsRead; IsResponse], InvalidCmd)
  | HTMAbort => ([IsRead; IsRequest], InvalidCmd)
  end.

Definition testCmdAttrib (c : Command) (a : Attribute) : bool := bool_decide (a ∈ (commandInfo c).1).
Definition responseCommand (c : Command) : Command := (commandInfo c).2.

Definition isRead c := testCmdAttrib c IsRead.
Definition isWrite c := testCmdAttrib c IsWrite.
Definition isUpgrade c := testCmdAttrib c IsUpgrade.
Definition isRequest c := testCmdAttrib c IsRequest.
Definition isResponse c := testCmdAttrib c IsResponse.
Definition needsWritable c := testCmdAttrib c NeedsWritable.
Definition needsResponse c := testCmdAttrib c NeedsResponse.
Definition isInvalidate c := testCmdAttrib c IsInvalidate.
Definition isEviction c := testCmdAttrib c IsEviction.
Definition isClean c := testCmdAttrib c IsClean.
Definition fromCache c := testCmdAttrib c FromCache.
Definition isWriteback c := testCmdAttrib c IsEviction && testCmdAttrib c HasData.
Definition hasData c := testCmdAttrib c HasData.
Definition isLLSC c := testCmdAttrib c IsLlsc.
Definition isPrefetch c := testCmdAttrib c IsSWPrefetch || testCmdAttrib c IsHWPrefetch.
Definition isError c := testCmdAttrib c IsError.
Definition isPrint c := testCmdAttrib c IsPrint.
Definition isFlush c := testCmdAttrib c IsFlush.

(** ** Theorems *)

(** The data a request asks for comes back with its response. *)
Definition carries (c : Command) : Prop :=
  isRequest c = true → needsResponse c = true → isRead c = true →
  isWrite c = false → isInvalidate c = false → hasData (responseCommand c) = true ∨ c = HTMReq.

Lemma reads_return_data c : carries c.
Proof. destruct c; vm_compute; intuition congruence. Qed.

End MemCmd.
