(* ===== verification/Packet.v ===== *)
(** * Packets and requests ([mem/packet.hh], [mem/packet.cc], [mem/request.hh])

    The payload side of a packet: command, address, size, data and the flags of
    its request.  Packets here have a valid address and size, as those built
    from a request with a physical address; their data buffer is their own.
    Sender states, labels and transactional memory are left out. *)

From S2P Require Import Prelude.
From S2P Require Import Bytes.
From S2P Require Import AddrRange.
From S2P Require Import MemCmd.

Module Pkt.
Import MemCmd.

(** ** Requests *)

Record Request := mkRequest {
  req_paddr : Z;
  req_size : Z;
  req_flags : Z;
  req_contextId : option Z;
  req_extraData : option Z;
  req_byteEnable : list bool;
  (** The functor of an atomic operation, on the bytes it is applied to. *)
  req_atomicOp : option (list Z → list Z);
}.

(** [Flags::isSet] *)
Definition isSet (flags mask : Z) : bool := negb (Z.land flags mask =? 0).

Definition INST_FETCH : Z := 0x100.
Definition LLSC : Z := 0x200000.
Definition MEM_SWAP : Z := 0x400000.
Definition MEM_SWAP_COND : Z := 0x800000.
Definition PREFETCH : Z := 0x1000000.
Definition PF_EXCLUSIVE : Z := 0x2000000.
Definition SECURE : Z := 0x10000000.
Definition ATOMIC_RETURN_OP : Z := 0x40000000.
Definition ATOMIC_NO_RETURN_OP : Z := 0x80000000.
Definition INVALIDATE : Z := 0x100000000.
Definition CLEAN : Z := 0x200000000.
Definition HTM_CMD : Z := 0x70000000000.
Definition HTM_ABORT : Z := 0x80000000000.

Definition req_isLLSC (r : Request) : bool := isSet (req_flags r) LLSC.
Definition req_isSwap (r : Request) : bool := isSet (req_flags r) (Z.lor MEM_SWAP MEM_SWAP_COND).
Definition req_isCondSwap (r : Request) : bool := isSet (req_flags r) MEM_SWAP_COND.
Definition req_isAtomic (r : Request) : bool :=
  isSet (req_flags r) ATOMIC_RETURN_OP || isSet (req_flags r) ATOMIC_NO_RETURN_OP.
Definition req_isPrefetch (r : Request) : bool :=
  isSet (req_flags r) PREFETCH || isSet (req_flags r) PF_EXCLUSIVE.
Definition req_isPrefetchEx (r : Request) : bool := isSet (req_flags r) PF_EXCLUSIVE.
Definition req_isCacheClean (r : Request) : bool := isSet (req_flags r) CLEAN.
Definition req_isCacheInvalidate (r : Request) : bool := isSet (req_flags r) INVALIDATE.
Definition req_isInstFetch (r : Request) : bool := isSet (req_flags r) INST_FETCH.
Definition req_isHTMCmd (r : Request) : bool := isSet (req_flags r) (Z.lor HTM_CMD HTM_ABORT).
Definition req_isHTMAbort (r : Request) : bool := isSet (req_flags r) HTM_ABORT.
Definition req_isMasked (r : Request) : bool := existsb negb (req_byteEnable r).

Definition contextId (r : Request) : res Z :=
  match req_contextId r with Some c => Ok c | None => Err AssertFail end.
Definition getExtraData (r : Request) : res Z :=
  match req_extraData r with Some x => Ok x | None => Err AssertFail end.
Definition setExtraData (x : Z) (r : Request) : Request :=
  mkRequest (req_paddr r) (req_size r) (req_flags r) (req_contextId r) (Some x) (req_byteEnable r)
    (req_atomicOp r).
Definition setByteEnable (be : list bool) (r : Request) : res Request :=
  assertb (match be with [] => true | _ => Z.of_nat (length be) =? req_size r end);;
  Ok (mkRequest (req_paddr r) (req_size r) (req_flags r) (req_contextId r) (req_extraData r) be
        (req_atomicOp r)).

(** ** Packets *)

Record Packet := mkPacket {
  cmd : Command;
  req : Request;
  data : option (list Z);
  addr : Z;
  secure : bool;
  size : Z;
  bytesValid : list bool;
  flags : Z;
}.

Definition HAS_SHARERS : Z := 0x1.
Definition EXPRESS_SNOOP : Z := 0x2.
Definition CACHE_RESPONDING : Z := 0x8.
Definition RESPONDER_FLAGS : Z := 0x9.

Definition set_cmd (c : Command) (p : Packet) : Packet :=
  mkPacket c (req p) (data p) (addr p) (secure p) (size p) (bytesValid p) (flags p).
Definition set_req (r : Request) (p : Packet) : Packet :=
  mkPacket (cmd p) r (data p) (addr p) (secure p) (size p) (bytesValid p) (flags p).
Definition set_data (d : option (list Z)) (p : Packet) : Packet :=
  mkPacket (cmd p) (req p) d (addr p) (secure p) (size p) (bytesValid p) (flags p).
Definition set_valid (v : list bool) (p : Packet) : Packet :=
  mkPacket (cmd p) (req p) (data p) (addr p) (secure p) (size p) v (flags p).
Definition set_flags (f : Z) (p : Packet) : Packet :=
  mkPacket (cmd p) (req p) (data p) (addr p) (secure p) (size p) (bytesValid p) f.

Definition Packet_new (r : Request) (c : Command) : Packet :=
  mkPacket c r None (req_paddr r) (isSet (req_flags r) SECURE) (req_size r) [] 0.

Definition makeReadCmd (r : Request) : Command :=
  if req_isHTMCmd r then (if req_isHTMAbort r then HTMAbort else HTMReq)
  else if req_isLLSC r then LoadLockedReq
  else if req_isPrefetchEx r then SoftPFExReq
  else if req_isPrefetch r then SoftPFReq
  else ReadReq.

Definition makeWriteCmd (r : Request) : Command :=
  if req_isLLSC r then StoreCondReq
  else if req_isSwap r || req_isAtomic r then SwapReq
  else if req_isCacheInvalidate r then (if req_isCacheClean r then CleanInvalidReq else InvalidateReq)
  else if req_isCacheClean r then CleanSharedReq
  else WriteReq.

Definition createRead (r : Request) : Packet := Packet_new r (makeReadCmd r).
Definition createWrite (r : Request) : Packet := Packet_new r (makeWriteCmd r).

(** Space for the data when this command or its response has any; the new
    bytes are not initialised. *)
Definition allocate (junk : list Z) (p : Packet) : res Packet :=
  if hasData (cmd p) || hasData (responseCommand (cmd p)) then
    assertb (match data p with None => true | Some _ => false end);;
    Ok (set_data (Some (take (Z.to_nat (size p)) (junk ++ replicate (Z.to_nat (size p)) 0))) p)
  else Ok p.

Definition cacheResponding (p : Packet) : bool := isSet (flags p) CACHE_RESPONDING.
Definition isMaskedWrite (p : Packet) : bool := bool_decide (cmd p = WriteReq) && req_isMasked (req p).
Definition isAtomicOp (p : Packet) : bool := req_isAtomic (req p).

Definition setCacheResponding (p : Packet) : res Packet :=
  assertb (isRequest (cmd p));;
  assertb (negb (cacheResponding p));;
  Ok (set_flags (Z.lor (flags p) CACHE_RESPONDING) p).

Definition copyResponderFlags (p from : Packet) : res Packet :=
  assertb (isRequest (cmd p));;
  assertb (negb (cacheResponding from) || negb (cacheResponding p));;
  Ok (set_flags (Z.lor (flags p) (Z.land (flags from) RESPONDER_FLAGS)) p).

Definition getAddrRange (p : Packet) : AddrRange := RangeSize (addr p) (size p).
Definition getOffset (p : Packet) (blk_size : Z) : Z := Z.land (addr p) (blk_size - 1).
Definition getBlockAddr (p : Packet) (blk_size : Z) : Z := Z.land (addr p) (not64 (blk_size - 1)).

Definition isWholeLineWrite (p : Packet) (blk_size : Z) : bool :=
  (bool_decide (cmd p = WriteReq) || bool_decide (cmd p = WriteLineReq)) &&
  (getOffset p blk_size =? 0) && (size p =? blk_size).

Definition matchAddr (p : Packet) (a : Z) (is_secure : bool) : bool :=
  (addr p =? a) && Bool.eqb (secure p) is_secure.
Definition matchBlockAddr (p : Packet) (a : Z) (is_secure : bool) (blk_size : Z) : bool :=
  (getBlockAddr p blk_size =? a) && Bool.eqb (secure p) is_secure.

Definition convertScToWrite (p : Packet) : res Packet :=
  assertb (isLLSC (cmd p));; assertb (isWrite (cmd p));; Ok (set_cmd WriteReq p).
Definition convertLlToRead (p : Packet) : res Packet :=
  assertb (isLLSC (cmd p));; assertb (isRead (cmd p));; Ok (set_cmd ReadReq p).

Definition makeResponse (p : Packet) : res Packet :=
  assertb (needsResponse (cmd p));;
  assertb (isRequest (cmd p));;
  Ok (set_flags (Z.land (flags p) (Z.lnot EXPRESS_SNOOP)) (set_cmd (responseCommand (cmd p)) p)).

Definition setFunctionalResponseStatus (success : bool) (p : Packet) : Packet :=
  if success then p
  else set_cmd (if isWrite (cmd p) then FunctionalWriteError else FunctionalReadError) p.

Definition setBadAddress (p : Packet) : res Packet :=
  assertb (isResponse (cmd p));; Ok (set_cmd BadAddressError p).

(** *** Data *)

(** [getPtr]: the buffer, to be written. *)
Definition getPtr (p : Packet) : res (list Z) :=
  match data p with
  | Some d => assertb (negb (isMaskedWrite p));; Ok d
  | None => Err AssertFail
  end.
Definition getConstPtr (p : Packet) : res (list Z) :=
  match data p with Some d => Ok d | None => Err AssertFail end.

(** Copies [size] bytes into the packet. *)
Definition setData (bytes : list Z) (p : Packet) : res Packet :=
  _ ← getPtr p; Ok (set_data (Some bytes) p).

(** [writeData]: what becomes of the [size] bytes [old] at the destination. *)
Definition writeData (p : Packet) (old : list Z) : res (list Z) :=
  d ← getConstPtr p;
  if negb (isMaskedWrite p) then Ok d
  else
    assertb (Z.of_nat (length (req_byteEnable (req p))) =? size p);;
    Ok (zip_with (λ (be : bool) '(new, old), if be then new else old)
          (req_byteEnable (req p)) (zip d old)).

(** Two accesses [[a1, a1 + n1)] and [[a2, a2 + n2)]: the offsets of their
    overlap in the first and in the second, and its size. *)
Definition overlap (a1 n1 a2 n2 : Z) : Z * Z * Z :=
  let e1 := u64 (a1 + n1 - 1) in
  let e2 := u64 (a2 + n2 - 1) in
  (if a1 <? a2 then a2 - a1 else 0, if a2 <? a1 then a1 - a2 else 0,
   u64 (Z.min e1 e2 + 1 - Z.max a1 a2)).

Definition splice {A} (d : list A) (off : nat) (bytes : list A) : list A :=
  take off d ++ bytes ++ drop (off + length bytes) d.

(** The tracking of valid bytes, initialised on first use. *)
Definition tracked_bytes (p : Packet) : list bool :=
  match bytesValid p with [] => replicate (Z.to_nat (size p)) false | _ => bytesValid p end.

(** [trySatisfyFunctional] against [other_size] bytes at [other_addr]: the
    result, the packet, and the bytes of the other side. *)
Definition trySatisfyFunctional (p : Packet) (other_addr : Z) (is_secure : bool) (other_size : Z)
    (other : option (list Z)) : res (bool * Packet * option (list Z)) :=
  let func_end := u64 (addr p + size p - 1) in
  let val_end := u64 (other_addr + other_size - 1) in
  if negb (Bool.eqb is_secure (secure p)) || (val_end <? addr p) || (func_end <? other_addr)
  then Ok (false, p, other)
  else if isPrint (cmd p) then
    assertb (match other with None => true | Some _ => false end);; Ok (false, p, other)
  else
    match other with
    | None => Ok (false, p, other)
    | Some o =>
        let '(func_offset, val_offset, n) := overlap (addr p) (size p) other_addr other_size in
        let fo := Z.to_nat func_offset in
        let vo := Z.to_nat val_offset in
        if isRead (cmd p) then
          d ← getPtr p;
          let valid := tracked_bytes p in
          let valid := splice valid fo (replicate (Z.to_nat n) true) in
          let p := set_valid valid (set_data (Some (splice d fo (take (Z.to_nat n) (drop vo o)))) p) in
          Ok (forallb id valid, p, other)
        else if isWrite (cmd p) then
          d ← getConstPtr p;
          Ok (false, p, Some (splice o vo (take (Z.to_nat n) (drop fo d))))
        else Err PanicFail
    end.

(** [trySatisfyFunctional] against another packet. *)
Definition trySatisfyFunctional_pkt (p other : Packet) : res (bool * Packet * Packet) :=
  if isMaskedWrite other then Ok (false, p, other)
  else
    o ← (if hasData (cmd other) then d ← getPtr other; Ok (Some d) else Ok None);
    '(done, p, o) ← trySatisfyFunctional p (addr other) (secure other) (size other) o;
    Ok (done, p, match o with Some d => set_data (Some d) other | None => other end).

(** *** Words *)

Inductive ByteOrder := big | little.

(** A word as bytes, least significant first. *)
Fixpoint to_bytes (n : nat) (w : Z) : list Z :=
  match n with O => [] | S n => w mod 256 :: to_bytes n (w / 256) end.
Fixpoint of_bytes (l : list Z) : Z :=
  match l with [] => 0 | b :: l => b + 256 * of_bytes l end.

Definition order (e : ByteOrder) (l : list Z) : list Z :=
  match e with big => reverse l | little => l end.

(** [getUintX] and [setUintX]: words of 1, 2, 4 or 8 bytes. *)
Definition word_size (n : Z) : bool := (n =? 1) || (n =? 2) || (n =? 4) || (n =? 8).

Definition getUintX (e : ByteOrder) (p : Packet) : res Z :=
  if word_size (size p) then d ← getConstPtr p; Ok (of_bytes (order e (take (Z.to_nat (size p)) d)))
  else Err PanicFail.

Definition setUintX (w : Z) (e : ByteOrder) (p : Packet) : res Packet :=
  if word_size (size p) then
    d ← getConstPtr p;
    Ok (set_data (Some (splice d 0 (order e (to_bytes (Z.to_nat (size p)) w)))) p)
  else Err PanicFail.

(** ** Bytes by address *)

(** The byte at address [a] of a buffer that starts at [base]. *)
Definition byte_at {A} (base : Z) (l : list A) (a : Z) : option A :=
  if base <=? a then l !! Z.to_nat (a - base) else None.

Definition covers (base n a : Z) : bool := (base <=? a) && (a <? base + n).

Lemma splice_lookup {A} (d bytes : list A) off k : (off + length bytes ≤ length d)%nat →
  splice d off bytes !! k =
  if decide (off ≤ k < off + length bytes)%nat then bytes !! (k - off)%nat else d !! k.
Proof.
  intros Hlen. unfold splice. assert (Ht : length (take off d) = off) by (rewrite length_take; lia).
  case_decide as Hk.
  - rewrite lookup_app_r, Ht, lookup_app_l by lia. done.
  - destruct (decide (k < off)%nat).
    + rewrite lookup_app_l, lookup_take_lt by lia. done.
    + rewrite lookup_app_r, lookup_app_r, lookup_drop by lia. f_equal. lia.
Qed.

Lemma splice_length {A} (d bytes : list A) off : (off + length bytes ≤ length d)%nat →
  length (splice d off bytes) = length d.
Proof. intros H. unfold splice. rewrite !length_app, length_take, length_drop. lia. Qed.

(** Two accesses that do not wrap around and overlap. *)
Record overlapping (a1 n1 a2 n2 : Z) : Prop := {
  ov_first : 0 ≤ a1 ∧ 0 < n1 < 2 ^ 32 ∧ a1 + n1 ≤ 2 ^ 64;
  ov_second : 0 ≤ a2 ∧ 0 < n2 < 2 ^ 32 ∧ a2 + n2 ≤ 2 ^ 64;
  ov_meet : a1 < a2 + n2 ∧ a2 < a1 + n1;
}.

Lemma overlap_spec a1 n1 a2 n2 : overlapping a1 n1 a2 n2 →
  overlap a1 n1 a2 n2 =
    (Z.max a1 a2 - a1, Z.max a1 a2 - a2, Z.min (a1 + n1) (a2 + n2) - Z.max a1 a2).
Proof.
  intros [H1 H2 H3]. unfold overlap.
  rewrite (u64_small (a1 + n1 - 1)), (u64_small (a2 + n2 - 1)) by lia. rewrite u64_small by lia.
  destruct (Z.ltb_spec a1 a2), (Z.ltb_spec a2 a1); f_equal; try f_equal; lia.
Qed.

(** Copying the overlap of the buffer at [a2] into the one at [a1]. *)
Lemma splice_overlap {A} a1 n1 a2 n2 (d o : list A) a : overlapping a1 n1 a2 n2 →
  Z.of_nat (length d) = n1 → Z.of_nat (length o) = n2 →
  let '(f, v, n) := overlap a1 n1 a2 n2 in
  byte_at a1 (splice d (Z.to_nat f) (take (Z.to_nat n) (drop (Z.to_nat v) o))) a =
    if covers a1 n1 a && covers a2 n2 a then byte_at a2 o a else byte_at a1 d a.
Proof.
  intros Hov Hd Ho. rewrite overlap_spec by done. destruct Hov as [H1 H2 H3].
  set (lo := Z.max a1 a2). set (hi := Z.min (a1 + n1) (a2 + n2)).
  assert (Hlen : length (take (Z.to_nat (hi - lo)) (drop (Z.to_nat (lo - a2)) o)) = Z.to_nat (hi - lo))
    by (rewrite length_take, length_drop; unfold lo, hi; lia).
  unfold byte_at, covers. destruct (Z.leb_spec a1 a); [|done]. simpl.
  rewrite splice_lookup by (rewrite Hlen; unfold lo, hi; lia). rewrite Hlen.
  destruct (Z.ltb_spec a (a1 + n1)), (Z.leb_spec a2 a), (Z.ltb_spec a (a2 + n2)); cbn [andb];
    try (rewrite decide_False by (unfold lo, hi; lia); done).
  rewrite decide_True by (unfold lo, hi; lia).
  rewrite lookup_take_lt, lookup_drop by (unfold lo, hi; lia). f_equal. unfold lo. lia.
Qed.

Lemma splice_overlap_length {A} a1 n1 a2 n2 (d o : list A) : overlapping a1 n1 a2 n2 →
  Z.of_nat (length d) = n1 → Z.of_nat (length o) = n2 →
  let '(f, v, n) := overlap a1 n1 a2 n2 in
  length (splice d (Z.to_nat f) (take (Z.to_nat n) (drop (Z.to_nat v) o))) = length d.
Proof.
  intros Hov Hd Ho. rewrite overlap_spec by done. destruct Hov. apply splice_length.
  rewrite length_take, length_drop. lia.
Qed.

Lemma overlap_replicate {A} a1 n1 a2 n2 (x : A) : overlapping a1 n1 a2 n2 →
  let '(_, v, n) := overlap a1 n1 a2 n2 in
  take (Z.to_nat n) (drop (Z.to_nat v) (replicate (Z.to_nat n2) x)) = replicate (Z.to_nat n) x.
Proof.
  intros Hov. rewrite overlap_spec by done. destruct Hov. rewrite drop_replicate, take_replicate.
  f_equal. lia.
Qed.

Lemma byte_at_replicate {A} base n (x : A) a : 0 ≤ n →
  byte_at base (replicate (Z.to_nat n) x) a = if covers base n a then Some x else None.
Proof.
  intros Hn. unfold byte_at, covers. destruct (Z.leb_spec base a); [|done]. simpl.
  destruct (Z.ltb_spec a (base + n)).
  - rewrite lookup_replicate_2 by lia. done.
  - apply lookup_ge_None_2. rewrite length_replicate. lia.
Qed.

Lemma byte_at_covers {A} base (l : list A) a : covers base (Z.of_nat (length l)) a = false →
  byte_at base l a = None.
Proof.
  unfold byte_at, covers. destruct (Z.leb_spec base a); [|done]. simpl. intros Ha%Z.ltb_ge.
  apply lookup_ge_None_2. lia.
Qed.

Lemma forallb_bytes base (v : list bool) : forallb id v = true ↔
  ∀ a, covers base (Z.of_nat (length v)) a = true → byte_at base v a = Some true.
Proof.
  rewrite forallb_forall. split.
  - intros Hall a Ha. unfold byte_at. unfold covers in Ha. bool_to_prop.
    rewrite (proj2 (Z.leb_le _ _)) by lia.
    destruct (lookup_lt_is_Some_2 v (Z.to_nat (a - base))) as [x Hx]; [lia|]. rewrite Hx.
    f_equal. apply (Hall x), list_elem_of_In. by eapply list_elem_of_lookup_2.
  - intros Hall x (k & Hk)%list_elem_of_In%list_elem_of_lookup. specialize (Hall (base + Z.of_nat k)).
    pose proof (lookup_lt_Some _ _ _ Hk). unfold covers, byte_at in Hall.
    rewrite !(proj2 (Z.leb_le _ _)), (proj2 (Z.ltb_lt _ _)) in Hall by lia.
    replace (Z.to_nat (base + Z.of_nat k - base)) with k in Hall by lia.
    rewrite Hk in Hall. by injection (Hall eq_refl).
Qed.

(** The bytes marked valid by an overlap. *)
Lemma valid_merge a1 n1 a2 n2 (v : list bool) : overlapping a1 n1 a2 n2 →
  (v = [] ∨ Z.of_nat (length v) = n1) →
  let v0 := match v with [] => replicate (Z.to_nat n1) false | _ => v end in
  let '(f, _, n) := overlap a1 n1 a2 n2 in
  let v' := splice v0 (Z.to_nat f) (replicate (Z.to_nat n) true) in
  Z.of_nat (length v') = n1 ∧
  ∀ a, byte_at a1 v' a = Some true ↔
    covers a1 n1 a = true ∧ (covers a2 n2 a = true ∨ byte_at a1 v a = Some true).
Proof.
  intros Hov Hv v0. pose proof (ov_first _ _ _ _ Hov). pose proof (ov_second _ _ _ _ Hov).
  assert (Hv0 : Z.of_nat (length v0) = n1).
  { unfold v0. destruct v; [rewrite length_replicate; lia|by destruct Hv]. }
  assert (Hold : ∀ a, byte_at a1 v0 a = Some true ↔ byte_at a1 v a = Some true).
  { intros a. unfold v0. destruct v; [|done]. rewrite byte_at_replicate by lia. unfold byte_at.
    destruct (covers a1 n1 a), (a1 <=? a); rewrite ?lookup_nil; done. }
  assert (Hr : Z.of_nat (length (replicate (Z.to_nat n2) true)) = n2) by (rewrite length_replicate; lia).
  pose proof (λ a, splice_overlap a1 n1 a2 n2 v0 (replicate (Z.to_nat n2) true) a Hov Hv0 Hr) as Hval.
  pose proof (overlap_replicate a1 n1 a2 n2 true Hov) as Hrep.
  pose proof (splice_overlap_length a1 n1 a2 n2 v0 (replicate (Z.to_nat n2) true) Hov Hv0 Hr) as Hlv.
  destruct (overlap a1 n1 a2 n2) as [[f w] n]. rewrite Hrep in *. clearbody v0.
  split; [by rewrite Hlv|]. intros a. rewrite Hval, byte_at_replicate, <- Hold by lia.
  destruct (covers a1 n1 a) eqn:H1; simpl.
  - destruct (covers a2 n2 a); naive_solver.
  - rewrite byte_at_covers by (by rewrite Hv0). naive_solver.
Qed.

(** *** Words *)

Lemma to_bytes_length n w : length (to_bytes n w) = n.
Proof. revert w; induction n as [|n IH]; intros w; simpl; [done|by rewrite IH]. Qed.

Lemma of_to_bytes n w : 0 ≤ w < 256 ^ Z.of_nat n → of_bytes (to_bytes n w) = w.
Proof.
  revert w; induction n as [|n IH]; intros w Hw; simpl to_bytes; cbn [of_bytes]; [simpl in Hw; lia|].
  rewrite Nat2Z.inj_succ, Z.pow_succ_r in Hw by lia. rewrite IH.
  - pose proof (Z.div_mod w 256). lia.
  - split; [apply Z.div_pos; lia|]. apply Z.div_lt_upper_bound; lia.
Qed.

Lemma order_order e l : order e (order e l) = l.
Proof. destruct e; [apply reverse_involutive|done]. Qed.

Lemma order_length e (l : list Z) : length (order e l) = length l.
Proof. destruct e; [apply length_reverse|done]. Qed.

(** ** Theorems *)

(** A functional access of [p] that meets [o], stored at [oa]. *)
Record meets (p : Packet) (d : list Z) (oa : Z) (o : list Z) : Prop := {
  me_data : data p = Some d;
  me_size : Z.of_nat (length d) = size p;
  me_valid : bytesValid p = [] ∨ Z.of_nat (length (bytesValid p)) = size p;
  me_range : overlapping (addr p) (size p) oa (Z.of_nat (length o));
}.

(** The guards of [trySatisfyFunctional] pass. *)
Lemma satisfy_guards p d oa o : meets p d oa o → isPrint (cmd p) = false →
  trySatisfyFunctional p oa (secure p) (Z.of_nat (length o)) (Some o) =
  let '(f, w, n) := overlap (addr p) (size p) oa (Z.of_nat (length o)) in
  if isRead (cmd p) then
    d ← getPtr p;
    let v := splice (tracked_bytes p) (Z.to_nat f) (replicate (Z.to_nat n) true) in
    Ok (forallb id v,
        set_valid v (set_data (Some (splice d (Z.to_nat f) (take (Z.to_nat n) (drop (Z.to_nat w) o)))) p),
        Some o)
  else if isWrite (cmd p) then
    d ← getConstPtr p; Ok (false, p, Some (splice o (Z.to_nat w) (take (Z.to_nat n) (drop (Z.to_nat f) d))))
  else Err PanicFail.
Proof.
  intros [_ _ _ [H1 H2 H3]] Hp. unfold trySatisfyFunctional. rewrite !u64_small by lia.
  rewrite !(proj2 (Z.ltb_ge _ _)), Bool.eqb_reflx by lia. simpl. by rewrite Hp.
Qed.

(** A functional read takes from a buffer exactly the bytes they have in
    common: byte by byte the packet holds the buffer's value where the two
    overlap and its own elsewhere, those bytes become valid and no others, the
    buffer is unchanged, and the access is reported done exactly when every
    byte of the packet has become valid. *)
Theorem functional_read_merges p d oa o : meets p d oa o →
  isRead (cmd p) = true → isPrint (cmd p) = false →
  ∃ done p' d', trySatisfyFunctional p oa (secure p) (Z.of_nat (length o)) (Some o) = Ok (done, p', Some o) ∧
    data p' = Some d' ∧ length d' = length d ∧
    (∀ a, byte_at (addr p) d' a =
       if covers (addr p) (size p) a && covers oa (Z.of_nat (length o)) a
       then byte_at oa o a else byte_at (addr p) d a) ∧
    (∀ a, byte_at (addr p) (bytesValid p') a = Some true ↔
       covers (addr p) (size p) a = true ∧
       (covers oa (Z.of_nat (length o)) a = true ∨ byte_at (addr p) (bytesValid p) a = Some true)) ∧
    (done = true ↔ ∀ a, covers (addr p) (size p) a = true → byte_at (addr p) (bytesValid p') a = Some true).
Proof.
  intros Hm Hr Hpr. rewrite (satisfy_guards p d oa o Hm Hpr), Hr. destruct Hm as [Hd Hsz Hv Hov].
  pose proof (λ a, splice_overlap (addr p) (size p) oa _ d o a Hov Hsz eq_refl) as Hbytes.
  pose proof (splice_overlap_length (addr p) (size p) oa _ d o Hov Hsz eq_refl) as Hlen.
  pose proof (valid_merge (addr p) (size p) oa _ (bytesValid p) Hov Hv) as Hval. cbv zeta in Hval.
  fold (tracked_bytes p) in Hval. destruct (overlap _ _ _ _) as [[f w] n]. destruct Hval as [Hlv Hval].
  unfold getPtr, isMaskedWrite. rewrite Hd.
  assert (bool_decide (cmd p = WriteReq) = false) as -> by (apply bool_decide_false; intros He; by rewrite He in Hr).
  cbn [andb negb assertb mbind res_bind]. do 3 eexists. split; [done|]. split; [done|]. split; [done|].
  split; [by intros a; apply Hbytes|]. split; [exact Hval|]. simpl.
  by rewrite (forallb_bytes (addr p)), Hlv.
Qed.

(** A functional write puts into a buffer exactly the bytes they have in
    common, byte by byte, and leaves the packet as it was and the access
    unfinished, so that it goes on to the memory. *)
Theorem functional_write_merges p d oa o : meets p d oa o →
  isRead (cmd p) = false → isWrite (cmd p) = true → isPrint (cmd p) = false →
  ∃ o', trySatisfyFunctional p oa (secure p) (Z.of_nat (length o)) (Some o) = Ok (false, p, Some o') ∧
    length o' = length o ∧
    ∀ a, byte_at oa o' a =
      if covers (addr p) (size p) a && covers oa (Z.of_nat (length o)) a
      then byte_at (addr p) d a else byte_at oa o a.
Proof.
  intros Hm Hr Hw Hpr. rewrite (satisfy_guards p d oa o Hm Hpr), Hr, Hw. destruct Hm as [Hd Hsz Hv Hov].
  assert (Hov' : overlapping oa (Z.of_nat (length o)) (addr p) (size p)) by (destruct Hov; split; lia).
  pose proof (λ a, splice_overlap oa _ (addr p) (size p) o d a Hov' eq_refl Hsz) as Hbytes.
  pose proof (splice_overlap_length oa _ (addr p) (size p) o d Hov' eq_refl Hsz) as Hlen.
  rewrite overlap_spec in Hbytes, Hlen by done. rewrite overlap_spec by done.
  unfold getConstPtr. rewrite Hd. cbn [mbind res_bind]. eexists. split; [done|].
  rewrite (Z.max_comm (addr p)), (Z.min_comm (addr p + _)). split; [done|].
  intros a. rewrite Hbytes. by rewrite andb_comm.
Qed.

(** [setUintX] then [getUintX], in either byte order, returns the word, for
    every word size the code accepts; other sizes make both panic. *)
Theorem uintX_roundtrip p d w e : data p = Some d → Z.of_nat (length d) = size p →
  0 ≤ w < 256 ^ size p →
  if word_size (size p)
  then ∃ p', setUintX w e p = Ok p' ∧ getUintX e p' = Ok w ∧ addr p' = addr p ∧ size p' = size p
  else setUintX w e p = Err PanicFail ∧ getUintX e p = Err PanicFail.
Proof.
  intros Hd Hlen Hw. unfold setUintX, getUintX, getConstPtr.
  destruct (word_size (size p)) eqn:Hws; [|done]. rewrite Hd. cbn [mbind res_bind].
  eexists. split; [done|]. split; [|done]. cbn [size set_data data]. rewrite Hws. cbn [mbind res_bind].
  set (l := order e (to_bytes (Z.to_nat (size p)) w)).
  assert (Hl : length l = length d) by (unfold l; rewrite order_length, to_bytes_length; lia).
  assert (Hsp : splice d 0 l = l).
  { unfold splice. simpl. rewrite Hl, drop_all. apply app_nil_r. }
  rewrite Hsp, take_ge by lia. unfold l. rewrite order_order, of_to_bytes; [done|].
  by rewrite Z2Nat.id by lia.
Qed.

(** ** Witnesses *)

Definition a_request (a n : Z) (fl : Z) : Request := mkRequest a n fl (Some 0) None [] None.
Definition a_read (a n : Z) : Packet := set_data (Some (replicate (Z.to_nat n) 0)) (createRead (a_request a n 0)).

(** A read of eight bytes at 100 meets four buffered bytes at 104. *)
Lemma functional_read_merges_witness :
  ∃ done p' d',
    trySatisfyFunctional (a_read 100 8) 104 false 4 (Some [11; 12; 13; 14]) = Ok (done, p', Some [11; 12; 13; 14]) ∧
    data p' = Some d' ∧ length d' = length (replicate 8 0) ∧
    (∀ a, byte_at 100 d' a =
       if covers 100 8 a && covers 104 4 a then byte_at 104 [11; 12; 13; 14] a
       else byte_at 100 (replicate 8 0) a) ∧
    (∀ a, byte_at 100 (bytesValid p') a = Some true ↔
       covers 100 8 a = true ∧ (covers 104 4 a = true ∨ byte_at 100 [] a = Some true)) ∧
    (done = true ↔ ∀ a, covers 100 8 a = true → byte_at 100 (bytesValid p') a = Some true).
Proof.
  apply (functional_read_merges (a_read 100 8) (replicate 8 0) 104 [11; 12; 13; 14]).
  - split; [done|done|by left|]. split; simpl; lia.
  - reflexivity.
  - reflexivity.
Defined.

Lemma functional_write_merges_witness :
  ∃ o', trySatisfyFunctional (set_data (Some [1; 2; 3; 4]) (createWrite (a_request 100 4 0))) 102 false 4
          (Some [11; 12; 13; 14]) =
        Ok (false, set_data (Some [1; 2; 3; 4]) (createWrite (a_request 100 4 0)), Some o') ∧
    length o' = 4%nat ∧
    ∀ a, byte_at 102 o' a =
      if covers 100 4 a && covers 102 4 a then byte_at 100 [1; 2; 3; 4] a else byte_at 102 [11; 12; 13; 14] a.
Proof.
  apply (functional_write_merges (set_data (Some [1; 2; 3; 4]) (createWrite (a_request 100 4 0)))
           [1; 2; 3; 4] 102 [11; 12; 13; 14]).
  - split; [done|done|by left|]. split; simpl; lia.
  - reflexivity.
  - reflexivity.
  - reflexivity.
Defined.

Lemma uintX_roundtrip_witness :
  ∃ p', setUintX 258 big (a_read 100 4) = Ok p' ∧ getUintX big p' = Ok 258 ∧ addr p' = 100 ∧ size p' = 4.
Proof.
  apply (uintX_roundtrip (a_read 100 4) (replicate 4 0) 258 big); [done|done|vm_compute; split; congruence].
Defined.

End Pkt.
