(* ===== verification/PacketQueue.v ===== *)
(** * Packet queues ([mem/packet_queue.hh], [mem/packet_queue.cc])

    The queue between a memory object and its port: packets wait for their
    tick, and for the peer when it refuses one.  The calls of the peer that
    happen while a packet is being sent are part of the reply it gives.
    Labels of print requests are left out; ticks are unbounded. *)

From stdpp Require Import sorting.
From S2P Require Import Prelude.
From S2P Require Import MemCmd.
From S2P Require Import Packet.

Module PQ.
Import MemCmd Pkt.

(** ** Definitions *)

Inductive DrainState := Running | Draining | Drained.

#[export] Instance DrainState_eq_dec : EqDecision DrainState.
Proof. solve_decision. Defined.

Record DeferredPacket := mkDeferred { tick : Z; pkt : Packet }.

Record PacketQueue := mkQueue {
  transmitList : list DeferredPacket;
  (** The time [sendEvent] is scheduled for. *)
  sendEvent : option Z;
  disableSanityCheck : bool;
  forceOrder : bool;
  waitingOnRetry : bool;
  drainState : DrainState;
}.

Definition MaxTick : Z := 2 ^ 64 - 1.

Definition set_list (l : list DeferredPacket) (q : PacketQueue) : PacketQueue :=
  mkQueue l (sendEvent q) (disableSanityCheck q) (forceOrder q) (waitingOnRetry q) (drainState q).
Definition set_event (e : option Z) (q : PacketQueue) : PacketQueue :=
  mkQueue (transmitList q) e (disableSanityCheck q) (forceOrder q) (waitingOnRetry q) (drainState q).
Definition set_waiting (b : bool) (q : PacketQueue) : PacketQueue :=
  mkQueue (transmitList q) (sendEvent q) (disableSanityCheck q) (forceOrder q) b (drainState q).
Definition set_drain (d : DrainState) (q : PacketQueue) : PacketQueue :=
  mkQueue (transmitList q) (sendEvent q) (disableSanityCheck q) (forceOrder q) (waitingOnRetry q) d.

Definition PacketQueue_new (force_order disable_sanity_check : bool) : PacketQueue :=
  mkQueue [] None disable_sanity_check force_order false Running.

Definition matchAddr_pkt (p q : Packet) : bool := matchAddr p (addr q) (secure q).
Definition matchBlockAddr_pkt (p q : Packet) (blk_size : Z) : bool :=
  matchBlockAddr p (getBlockAddr q blk_size) (secure q) blk_size.
Definition isExpressSnoop (p : Packet) : bool := isSet (flags p) EXPRESS_SNOOP.

Definition deferredPacketReady (now : Z) (q : PacketQueue) : bool :=
  match transmitList q with [] => false | d :: _ => tick d <=? now end.
Definition deferredPacketReadyTime (q : PacketQueue) : Z :=
  match transmitList q with [] => MaxTick | d :: _ => tick d end.

Definition checkConflict (p : Packet) (blk_size : Z) (q : PacketQueue) : bool :=
  existsb (λ d, matchBlockAddr_pkt (pkt d) p blk_size) (transmitList q).

Fixpoint satisfy_loop (p : Packet) (l : list DeferredPacket) : res (bool * Packet * list DeferredPacket) :=
  match l with
  | [] => Ok (false, p, [])
  | d :: l =>
      '(found, p, o) ← trySatisfyFunctional_pkt p (pkt d);
      let d := mkDeferred (tick d) o in
      if found : bool then Ok (true, p, d :: l)
      else '(found, p, l) ← satisfy_loop p l; Ok (found, p, d :: l)
  end.
Definition trySatisfyFunctional (p : Packet) (q : PacketQueue) : res (bool * Packet * PacketQueue) :=
  '(found, p, l) ← satisfy_loop p (transmitList q); Ok (found, p, set_list l q).

Definition signalDrainDone (q : PacketQueue) : PacketQueue :=
  if bool_decide (drainState q = Draining) then set_drain Drained q else q.

Definition schedSendEvent (now when : Z) (q : PacketQueue) : res PacketQueue :=
  if waitingOnRetry q then
    assertb (bool_decide (sendEvent q = None));; Ok q
  else if negb (when =? MaxTick) then
    let when := Z.max when (now + 1) in
    match sendEvent q with
    | None => Ok (set_event (Some when) q)
    | Some t => Ok (if when <? t then set_event (Some when) q else q)
    end
  else if bool_decide (drainState q = Draining) && bool_decide (transmitList q = []) &&
          bool_decide (sendEvent q = None)
  then Ok (signalDrainDone q)
  else Ok q.

(** The search from the end, over the reversed list. *)
Fixpoint insert_rev (force : bool) (d : DeferredPacket) (l : list DeferredPacket) :
    option (list DeferredPacket) :=
  match l with
  | [] => None
  | it :: l =>
      if (force && matchAddr_pkt (pkt it) (pkt d)) || (tick it <=? tick d)
      then Some (d :: it :: l)
      else match insert_rev force d l with Some r => Some (it :: r) | None => None end
  end.

Definition schedSendTiming (now : Z) (p : Packet) (when : Z) (q : PacketQueue) : res PacketQueue :=
  assertb (now <=? when);;
  assertb (negb (isExpressSnoop p));;
  panic_if (negb (disableSanityCheck q) && Nat.ltb 128 (length (transmitList q)));;
  let d := mkDeferred when p in
  match insert_rev (forceOrder q) d (reverse (transmitList q)) with
  | Some r => Ok (set_list (reverse r) q)
  | None => schedSendEvent now when (set_list (d :: transmitList q) q)
  end.

(** What the peer does with a packet: the packets it makes this queue take on
    before it answers, and whether it accepts. *)
Record Reply := mkReply { accepted : bool; during : list (Packet * Z) }.

Fixpoint sched_all (now : Z) (l : list (Packet * Z)) (q : PacketQueue) : res PacketQueue :=
  match l with
  | [] => Ok q
  | (p, when) :: l => q ← schedSendTiming now p when q; sched_all now l q
  end.

(** [sendDeferredPacket], with the packet that was taken, if it was. *)
Definition sendDeferredPacket (now : Z) (r : Reply) (q : PacketQueue) :
    res (option DeferredPacket * PacketQueue) :=
  assertb (negb (waitingOnRetry q));;
  assertb (deferredPacketReady now q);;
  match transmitList q with
  | [] => Err Undef
  | dp :: l =>
      q ← sched_all now (during r) (set_list l q);
      let q := set_waiting (negb (accepted r)) q in
      if accepted r then
        q ← schedSendEvent now (deferredPacketReadyTime q) q; Ok (Some dp, q)
      else Ok (None, set_list (dp :: transmitList q) q)
  end.

Definition retry (now : Z) (r : Reply) (q : PacketQueue) : res (option DeferredPacket * PacketQueue) :=
  assertb (waitingOnRetry q);; sendDeferredPacket now r (set_waiting false q).

Definition processSendEvent (now : Z) (r : Reply) (q : PacketQueue) :
    res (option DeferredPacket * PacketQueue) :=
  assertb (negb (waitingOnRetry q));; sendDeferredPacket now r q.

(** [drain], called by [dmDrain], which records the state returned. *)
Definition drain (q : PacketQueue) : PacketQueue :=
  set_drain (match transmitList q with [] => Drained | _ => Draining end) q.

(** ** Insertion *)

Definition stops (force : bool) (d it : DeferredPacket) : bool :=
  (force && matchAddr_pkt (pkt it) (pkt d)) || (tick it <=? tick d).

(** Where a new packet goes: after the last one that must not follow it. *)
Lemma insert_rev_spec force d l :
  match insert_rev force d (reverse l) with
  | Some r => ∃ l1 it l2, l = l1 ++ it :: l2 ∧ reverse r = l1 ++ it :: d :: l2 ∧
      stops force d it = true ∧ Forall (λ x, stops force d x = false) l2
  | None => Forall (λ x, stops force d x = false) l
  end.
Proof.
  induction l as [|it l IH] using rev_ind; [constructor|].
  rewrite reverse_app. simpl. fold (stops force d it). destruct (stops force d it) eqn:Hs.
  - exists l, it, []. rewrite !reverse_cons, reverse_involutive, <- app_assoc. done.
  - destruct (insert_rev force d (reverse l)) as [r|].
    + destruct IH as (l1 & x & l2 & -> & Hr & Hx & Hl2). exists l1, x, (l2 ++ [it]).
      rewrite reverse_cons, Hr, <- !app_assoc. split; [done|]. split; [done|]. split; [done|].
      apply Forall_app. split; [done|]. by apply Forall_singleton.
    + apply Forall_app. split; [done|]. by apply Forall_singleton.
Qed.

(** The list after an insertion. *)
Definition inserted (force : bool) (d : DeferredPacket) (l : list DeferredPacket) : list DeferredPacket :=
  match insert_rev force d (reverse l) with Some r => reverse r | None => d :: l end.

(** Packets that must keep their order keep it. *)
Lemma inserted_filter force d l (P : DeferredPacket → Prop) `{∀ x, Decision (P x)} :
  (∀ x, P x → P d → stops force d x = true) →
  filter P (inserted force d l) = filter P l ++ filter P [d].
Proof.
  intros HP. unfold inserted. pose proof (insert_rev_spec force d l) as Hs.
  assert (Hnone : ∀ l', Forall (λ x, stops force d x = false) l' → P d → filter P l' = []).
  { intros l' Hl' Hd. induction Hl' as [|x l' Hx Hl' IH]; [done|]. rewrite filter_cons_False; [done|].
    intros Hpx. by rewrite (HP x Hpx Hd) in Hx. }
  destruct (insert_rev force d (reverse l)) as [r|].
  - destruct Hs as (l1 & it & l2 & -> & -> & _ & Hl2).
    rewrite (cons_middle it l1 l2), (cons_middle it l1 (d :: l2)), !filter_app.
    destruct (decide (P d)) as [Hd|Hd].
    + rewrite !(filter_cons_True P d), (Hnone l2 Hl2 Hd), app_nil_r, <- app_assoc by done. done.
    + rewrite !(filter_cons_False P d), filter_nil, app_nil_r by done. done.
  - destruct (decide (P d)) as [Hd|Hd].
    + rewrite !(filter_cons_True P d), (Hnone l Hs Hd) by done. done.
    + rewrite !(filter_cons_False P d), filter_nil, app_nil_r by done. done.
Qed.

Lemma inserted_perm force d l : inserted force d l ≡ₚ d :: l.
Proof.
  unfold inserted. pose proof (insert_rev_spec force d l) as Hs.
  destruct (insert_rev force d (reverse l)) as [r|]; [|done].
  destruct Hs as (l1 & it & l2 & -> & -> & _). rewrite (cons_middle it l1 (d :: l2)), (cons_middle it l1 l2).
  by rewrite app_assoc, <- Permutation_middle, app_assoc.
Qed.

(** Without forced order the list stays sorted by tick. *)
Definition earlier (x y : DeferredPacket) : Prop := tick x ≤ tick y.

Lemma sorted_middle l1 it d l2 : StronglySorted earlier (l1 ++ it :: l2) → tick it ≤ tick d →
  Forall (λ x, tick d < tick x) l2 → StronglySorted earlier (l1 ++ it :: d :: l2).
Proof.
  intros Hl Hit Hl2. induction l1 as [|x l1 IH]; simpl in *.
  - apply StronglySorted_cons in Hl as [H1 H2]. apply StronglySorted_cons. split; [by apply Forall_cons|].
    apply StronglySorted_cons. split; [|done]. eapply Forall_impl; [exact Hl2|]. unfold earlier. intros; lia.
  - apply StronglySorted_cons in Hl as [H1 H2]. apply StronglySorted_cons. split; [|by apply IH].
    apply Forall_app in H1 as [H3 [H4 H5]%Forall_cons]. apply Forall_app. split; [done|].
    apply Forall_cons. split; [done|]. apply Forall_cons. split; [unfold earlier in *; lia|done].
Qed.

Lemma inserted_sorted d l : StronglySorted earlier l → StronglySorted earlier (inserted false d l).
Proof.
  intros Hl. unfold inserted. pose proof (insert_rev_spec false d l) as Hs. unfold stops in Hs. simpl in Hs.
  destruct (insert_rev false d (reverse l)) as [r|].
  - destruct Hs as (l1 & it & l2 & -> & -> & Hit & Hl2). apply sorted_middle; [done|bool_to_prop; lia|].
    eapply Forall_impl; [exact Hl2|]. simpl. intros x Hx. bool_to_prop. lia.
  - apply StronglySorted_cons. split; [|done]. eapply Forall_impl; [exact Hs|]. simpl. unfold earlier.
    intros x Hx. bool_to_prop. lia.
Qed.

(** ** The queue and its peer *)

(** The operations of the two sides, the passing of time, and a log of what was
    queued and what was taken. *)
Inductive Op :=
| Enqueue (p : Packet) (when : Z)
| Fire (r : Reply)
| Retry (r : Reply)
| Advance (t : Z)
| Drain.

Record Sys := mkSys {
  q : PacketQueue;
  now : Z;
  enq : list DeferredPacket;
  sent : list DeferredPacket;
}.

Definition queued (r : Reply) : list DeferredPacket := (λ e, mkDeferred e.2 e.1) <$> during r.

(** The queue after a packet was offered, with the logs. *)
Definition offered (s : Sys) (r : Reply) (x : res (option DeferredPacket * PacketQueue)) : res Sys :=
  '(o, q') ← x;
  Ok (mkSys q' (now s) (enq s ++ queued r) (sent s ++ match o with Some d => [d] | None => [] end)).

Definition exec (op : Op) (s : Sys) : res Sys :=
  match op with
  | Enqueue p when =>
      q' ← schedSendTiming (now s) p when (q s);
      Ok (mkSys q' (now s) (enq s ++ [mkDeferred when p]) (sent s))
  | Fire r => offered s r (processSendEvent (now s) r (set_event None (q s)))
  | Retry r => offered s r (retry (now s) r (q s))
  | Advance t => Ok (mkSys (q s) t (enq s) (sent s))
  | Drain => Ok (mkSys (drain (q s)) (now s) (enq s) (sent s))
  end.

(** A packet the queue may be given. *)
Definition sendable (now : Z) (p : Packet) (when : Z) : Prop :=
  now ≤ when < MaxTick ∧ isExpressSnoop p = false.
Definition room (n : nat) (q : PacketQueue) : Prop :=
  disableSanityCheck q = true ∨ (length (transmitList q) + n ≤ 129)%nat.
(** A peer that refuses a packet does not queue others meanwhile. *)
Definition reply_ok (s : Sys) (r : Reply) : Prop :=
  (accepted r = false → during r = []) ∧ Forall (λ e, sendable (now s) e.1 e.2) (during r) ∧
  room (length (during r)) (q s).

Definition enabled (op : Op) (s : Sys) : Prop :=
  match op with
  | Enqueue p when => sendable (now s) p when ∧ room 1 (q s)
  | Fire r => sendEvent (q s) = Some (now s) ∧ reply_ok s r
  | Retry r => waitingOnRetry (q s) = true ∧ reply_ok s r
  | Advance t => now s ≤ t ∧ ∀ e, sendEvent (q s) = Some e → t ≤ e
  | Drain => drainState (q s) = Running
  end.

Definition step (s s' : Sys) : Prop := ∃ op, enabled op s ∧ exec op s = Ok s'.
Definition start (force off : bool) (t : Z) : Sys := mkSys (PacketQueue_new force off) t [] [].

(** *** Invariant *)

(** The send event is pending whenever there is something to send and no retry
    to wait for; not before the first packet is due, and at the latest at its
    tick or one tick from now. *)
Definition event_ok (now : Z) (q : PacketQueue) : Prop :=
  match transmitList q with
  | [] => sendEvent q = None ∧ waitingOnRetry q = false
  | d :: _ =>
      if waitingOnRetry q then sendEvent q = None ∧ tick d ≤ now
      else ∃ t, sendEvent q = Some t ∧ now ≤ t ∧ tick d ≤ t ≤ Z.max (tick d) (now + 1)
  end.

Definition due (q : PacketQueue) : Prop := Forall (λ d, tick d < MaxTick) (transmitList q).

(** While a packet is being sent there may be a send event already, or not. *)
Definition sending_ok (now : Z) (q : PacketQueue) : Prop :=
  waitingOnRetry q = false ∧
  match sendEvent q with
  | None => True
  | Some t => ∃ d l, transmitList q = d :: l ∧ now ≤ t ∧ tick d ≤ t
  end.

Lemma schedSendTiming_ok now p when q : sendable now p when → room 1 q →
  (event_ok now q ∨ sending_ok now q) →
  ∃ q', schedSendTiming now p when q = Ok q' ∧
    transmitList q' = inserted (forceOrder q) (mkDeferred when p) (transmitList q) ∧
    disableSanityCheck q' = disableSanityCheck q ∧ forceOrder q' = forceOrder q ∧
    waitingOnRetry q' = waitingOnRetry q ∧
    (event_ok now q → event_ok now q') ∧ (sending_ok now q → sending_ok now q').
Proof.
  intros [Hw Hx] Hroom Hok. unfold schedSendTiming. rewrite Hx, (proj2 (Z.leb_le _ _)) by lia.
  replace (negb (disableSanityCheck q) && _) with false.
  2: { symmetry. destruct Hroom as [->|Hr]; [done|]. rewrite (proj2 (Nat.ltb_ge _ _)) by lia. apply andb_false_r. }
  cbn [negb assertb panic_if mbind res_bind]. unfold inserted.
  pose proof (insert_rev_spec (forceOrder q) (mkDeferred when p) (transmitList q)) as Hs.
  destruct (insert_rev _ _ _) as [r|].
  - eexists. split; [done|]. do 4 (split; [done|]). destruct Hs as (l1 & it & l2 & Hl & Hr & _).
    unfold event_ok, sending_ok. cbn [transmitList set_list sendEvent waitingOnRetry]. rewrite Hr, Hl.
    destruct l1 as [|x l1]; simpl; (split; [done|]); intros [H1 H2]; (split; [done|]);
      destruct (sendEvent q); try done; destruct H2 as (d & l & Heq & ?); injection Heq as -> _; eauto.
  - assert (Hwait : waitingOnRetry q = false).
    { destruct Hok as [Hok|[? _]]; [|done]. unfold event_ok in Hok. destruct (transmitList q) as [|x l]; [apply Hok|].
      destruct (waitingOnRetry q); [|done]. apply Forall_cons in Hs as [Hx' _]. unfold stops in Hx'. simpl in Hx'.
      bool_to_prop. lia. }
    unfold schedSendEvent, event_ok, sending_ok. cbn [transmitList set_list sendEvent waitingOnRetry]. rewrite Hwait.
    rewrite (proj2 (Z.eqb_neq _ _)) by lia. cbn [negb].
    assert (Hfront : ∀ x l, transmitList q = x :: l → when < tick x).
    { intros x l Hl. rewrite Hl in Hs. apply Forall_cons in Hs as [Hx' _]. unfold stops in Hx'. simpl in Hx'.
      bool_to_prop. lia. }
    destruct (sendEvent q) as [t0|] eqn:Hev; [destruct (Z.ltb_spec (Z.max when (now + 1)) t0)|];
      (eexists; split; [done|]; do 4 (split; [done|]); split; cbn;
       rewrite ?Hev, ?Hwait; [intros Hq|intros [_ Hq]; split; [done|]]).
    + eexists. split; [done|]. lia.
    + eexists _, _. split; [done|]. simpl; lia.
    + destruct (transmitList q) as [|x l] eqn:Hl; [by destruct Hq|]. destruct Hq as (t & Heq & ?). injection Heq as ->.
      specialize (Hfront x l eq_refl). eexists. split; [done|]. lia.
    + destruct Hq as (d & l & Hl & ?). specialize (Hfront d l Hl). eexists _, _. split; [done|]. simpl. lia.
    + eexists. split; [done|]. lia.
    + eexists _, _. split; [done|]. simpl. lia.
Qed.

(** The packets queued by the peer, in turn. *)
Definition all_inserted (force : bool) (ds l : list DeferredPacket) : list DeferredPacket :=
  fold_left (λ l d, inserted force d l) ds l.

Lemma all_inserted_perm force ds l : all_inserted force ds l ≡ₚ l ++ ds.
Proof.
  revert l. induction ds as [|d ds IH]; intros l; simpl; [by rewrite app_nil_r|].
  rewrite IH, inserted_perm. by rewrite <- Permutation_middle.
Qed.

Lemma all_inserted_filter force ds l (P : DeferredPacket → Prop) `{∀ x, Decision (P x)} :
  (∀ x y, P x → P y → stops force y x = true) →
  filter P (all_inserted force ds l) = filter P l ++ filter P ds.
Proof.
  intros HP. revert l. induction ds as [|d ds IH]; intros l; simpl; [by rewrite app_nil_r|].
  rewrite IH, inserted_filter by auto. rewrite <- app_assoc, <- filter_app. done.
Qed.

Lemma all_inserted_sorted ds l : StronglySorted earlier l → StronglySorted earlier (all_inserted false ds l).
Proof.
  revert l. induction ds as [|d ds IH]; intros l Hl; simpl; [done|]. apply IH. by apply inserted_sorted.
Qed.

Lemma sched_all_ok now l q : Forall (λ e, sendable now e.1 e.2) l → room (length l) q → sending_ok now q →
  ∃ q', sched_all now l q = Ok q' ∧ sending_ok now q' ∧
    transmitList q' = all_inserted (forceOrder q) ((λ e, mkDeferred e.2 e.1) <$> l) (transmitList q) ∧
    disableSanityCheck q' = disableSanityCheck q ∧ forceOrder q' = forceOrder q.
Proof.
  revert q. induction l as [|[p when] l IH]; intros q Hl Hroom Hq; cbn [sched_all]; [by exists q|].
  apply Forall_cons in Hl as [Hp Hl].
  destruct (schedSendTiming_ok now p when q) as (q1 & -> & Hl1 & Hd1 & Hf1 & _ & _ & Hs1); [done| |by right|].
  { destruct Hroom as [?|?]; [by left|right]. simpl in *. lia. }
  cbn [mbind res_bind]. destruct (IH q1) as (q' & -> & Hs & Hl' & Hd & Hf); [done| |auto|].
  { destruct Hroom as [?|?]; [left; congruence|right]. rewrite Hl1, inserted_perm. simpl in *. lia. }
  exists q'. split; [done|]. split; [done|]. rewrite Hl', Hf1, Hl1. split; [done|]. split; congruence.
Qed.

(** After a packet was taken, the next send is arranged. *)
Lemma schedSendEvent_ok now q : sending_ok now q → due q →
  ∃ q', schedSendEvent now (deferredPacketReadyTime q) q = Ok q' ∧ event_ok now q' ∧
    transmitList q' = transmitList q ∧ disableSanityCheck q' = disableSanityCheck q ∧ forceOrder q' = forceOrder q.
Proof.
  intros [Hw Hs] Hdue. unfold schedSendEvent, deferredPacketReadyTime, due in *. rewrite Hw.
  destruct (transmitList q) as [|d l] eqn:Hl.
  - rewrite Z.eqb_refl. cbn [negb].
    assert (sendEvent q = None) as Hev by (destruct (sendEvent q) as [t|]; [by destruct Hs as (? & ? & ? & _)|done]).
    assert (Hq : ∀ d, event_ok now (set_drain d q)) by (intros d; unfold event_ok; simpl; by rewrite Hl).
    assert (Heq : q = set_drain (drainState q) q) by (by destruct q).
    destruct (bool_decide (drainState q = Draining) && _ && _).
    + eexists. split; [done|]. unfold signalDrainDone. destruct (bool_decide _); [done|]. by rewrite Heq.
    + exists q. split; [done|]. rewrite Heq at 1. by rewrite Hl.
  - apply Forall_cons in Hdue as [Hd _]. rewrite (proj2 (Z.eqb_neq _ _)) by lia. cbn [negb].
    destruct (sendEvent q) as [t0|] eqn:Hev; [destruct Hs as (d' & l' & Heq & ? & ?); injection Heq as <- <-;
      destruct (Z.ltb_spec (Z.max (tick d) (now + 1)) t0)|]; eexists; (split; [done|]);
      (split; [unfold event_ok; cbn [transmitList set_event sendEvent waitingOnRetry];
        rewrite Hl, Hw, ?Hev; eexists; split; [done|lia]|done]).
Qed.

(** Offering the first packet to the peer. *)
Lemma sendDeferredPacket_ok s q0 r d l : transmitList q0 = d :: l → tick d ≤ now s →
  sendEvent q0 = None → waitingOnRetry q0 = false → due q0 → reply_ok s r →
  transmitList (q s) = transmitList q0 → disableSanityCheck (q s) = disableSanityCheck q0 →
  ∃ o q', sendDeferredPacket (now s) r q0 = Ok (o, q') ∧ event_ok (now s) q' ∧
    disableSanityCheck q' = disableSanityCheck q0 ∧ forceOrder q' = forceOrder q0 ∧ due q' ∧
    (if accepted r then o = Some d ∧ transmitList q' = all_inserted (forceOrder q0) (queued r) l
     else o = None ∧ transmitList q' = d :: l ∧ queued r = []).
Proof.
  intros Hl Htick Hev Hwait Hdue (Hrej & Hdur & Hroom) Hql Hqs. unfold sendDeferredPacket, deferredPacketReady.
  rewrite Hwait, Hl, (proj2 (Z.leb_le _ _)) by done. cbn [negb assertb mbind res_bind].
  destruct (accepted r) eqn:Hacc; cbn [negb].
  2: { unfold queued. rewrite (Hrej eq_refl). cbn. eexists _, _. split; [done|].
       split; [by unfold event_ok|]. split; [done|]. split; [done|]. split; [|done].
       unfold due in *. cbn. by rewrite Hl in Hdue. }
  destruct (sched_all_ok (now s) (during r) (set_list l q0)) as (q1 & -> & [Hw1 Hs1] & Hl1 & Hd1 & Hf1); [done| | |].
  { destruct Hroom as [?|Hr]; [left; simpl; congruence|right]. simpl. rewrite Hql, Hl in Hr. simpl in Hr. lia. }
  { split; [done|]. cbn [sendEvent set_list]. by rewrite Hev. }
  cbn [mbind res_bind]. fold (queued r) in Hl1. cbn [transmitList set_list forceOrder disableSanityCheck] in Hl1, Hd1, Hf1.
  assert (Hdue1 : due (set_waiting false q1)).
  { unfold due in *. cbn [transmitList set_waiting]. rewrite Hl1, all_inserted_perm. apply Forall_app. rewrite Hl in Hdue.
    split; [by apply Forall_cons in Hdue as [_ ?]|]. unfold queued. apply Forall_fmap.
    eapply Forall_impl; [exact Hdur|]. simpl. intros [p w] [? _]. simpl in *. lia. }
  destruct (schedSendEvent_ok (now s) (set_waiting false q1)) as (q' & -> & He & Hl' & Hd' & Hf'); [done|done|].
  cbn [mbind res_bind]. eexists _, _. split; [done|]. split; [done|]. split; [by rewrite Hd'|]. split; [by rewrite Hf'|].
  split; [unfold due in *; by rewrite Hl'|]. split; [done|]. by rewrite Hl'.
Qed.

(** *** Preservation *)

(** What every reachable state satisfies. *)
Record inv (force : bool) (s : Sys) : Prop := {
  iv_event : event_ok (now s) (q s);
  iv_due : due (q s);
  iv_force : forceOrder (q s) = force;
  iv_all : enq s ≡ₚ sent s ++ transmitList (q s);
  iv_addr : force = true → ∀ a b,
    filter (λ d, matchAddr (pkt d) a b = true) (enq s) =
    filter (λ d, matchAddr (pkt d) a b = true) (sent s ++ transmitList (q s));
  iv_tick : ∀ t, filter (λ d, tick d = t) (enq s) = filter (λ d, tick d = t) (sent s ++ transmitList (q s));
  iv_sorted : force = false → StronglySorted earlier (transmitList (q s));
}.

Lemma stops_addr a b x y : matchAddr (pkt x) a b = true → matchAddr (pkt y) a b = true → stops true y x = true.
Proof.
  unfold stops, matchAddr_pkt, matchAddr. intros [Hx1 Hx2]%andb_true_iff [Hy1 Hy2]%andb_true_iff.
  apply Z.eqb_eq in Hx1, Hy1. apply Bool.eqb_prop in Hx2, Hy2.
  by rewrite Hx1, Hx2, Hy1, Hy2, Z.eqb_refl, Bool.eqb_reflx.
Qed.

Lemma stops_tick force t x y : tick x = t → tick y = t → stops force y x = true.
Proof. intros Hx Hy. unfold stops. rewrite Hx, Hy, Z.leb_refl. apply orb_true_r. Qed.

(** The logs after some packets were queued. *)
Lemma inv_queue force s l0 ds st e : inv force s → transmitList (q s) = l0 →
  ∀ q' t', transmitList q' = all_inserted force ds l0 → event_ok t' q' → due q' → forceOrder q' = force →
  st = sent s → e = enq s ++ ds → inv force (mkSys q' t' e st).
Proof.
  intros [He Hd Hf Ha Had Ht Hs] <- q' t' Hl' He' Hd' Hf' -> ->. split; cbn [now q enq sent]; try done; rewrite ?Hl'.
  - rewrite all_inserted_perm, Ha. by rewrite app_assoc.
  - intros Hfo a b. rewrite !filter_app, all_inserted_filter, (Had Hfo), filter_app, <- app_assoc; [done|].
    rewrite Hfo. by apply stops_addr.
  - intros t. rewrite !filter_app, all_inserted_filter, Ht, filter_app, <- app_assoc; [done|]. by apply stops_tick.
  - intros ->. by apply all_inserted_sorted, Hs.
Qed.

(** The logs after the first packet was offered. *)
Lemma inv_offered force s q0 q' o r d l : inv force s → transmitList (q s) = d :: l → forceOrder q0 = force →
  event_ok (now s) q' → due q' → forceOrder q' = forceOrder q0 →
  (if accepted r then o = Some d ∧ transmitList q' = all_inserted (forceOrder q0) (queued r) l
   else o = None ∧ transmitList q' = d :: l ∧ queued r = []) →
  inv force (mkSys q' (now s) (enq s ++ queued r) (sent s ++ match o with Some d => [d] | None => [] end)).
Proof.
  intros Hinv Hl Hf0 He' Hd' Hf' Hr. rewrite Hf0 in *. destruct (accepted r).
  - destruct Hr as [-> Hl'].
    destruct Hinv as [_ Hdue _ Ha Had Ht Hs]. split; cbn [now q enq sent]; try done; rewrite ?Hl'.
    + rewrite all_inserted_perm, Ha, Hl, <- !app_assoc. done.
    + intros Hfo a b. rewrite !filter_app, all_inserted_filter, (Had Hfo), Hl; [|rewrite Hfo; by apply stops_addr].
      rewrite (cons_middle d (sent s) l), !filter_app, <- !app_assoc. done.
    + intros t. rewrite !filter_app, all_inserted_filter, Ht, Hl; [|by apply stops_tick].
      rewrite (cons_middle d (sent s) l), !filter_app, <- !app_assoc. done.
    + intros ->. apply all_inserted_sorted. specialize (Hs eq_refl). rewrite Hl in Hs.
      by apply StronglySorted_cons in Hs as [_ ?].
  - destruct Hr as (-> & Hl' & ->). rewrite !app_nil_r. destruct Hinv as [_ Hdue _ Ha Had Ht Hs].
    split; cbn [now q enq sent]; try done; rewrite ?Hl', <- Hl; done.
Qed.

Lemma exec_inv force op s : inv force s → enabled op s → ∃ s', exec op s = Ok s' ∧ inv force s'.
Proof.
  intros Hinv Hen. pose proof Hinv as [He Hd Hf _ _ _ _]. destruct op as [p when|r|r|t|]; cbn [exec enabled] in *.
  - destruct Hen as [Hp Hroom].
    destruct (schedSendTiming_ok (now s) p when (q s)) as (q' & -> & Hl' & _ & Hf' & _ & He' & _); [done|done|by left|].
    cbn [mbind res_bind]. eexists. split; [done|].
    apply (inv_queue force s (transmitList (q s)) [mkDeferred when p] _ _ Hinv); try done; simpl; try congruence; auto.
    unfold due in *. rewrite Hl', inserted_perm. apply Forall_cons. split; [|done]. simpl. destruct Hp. lia.
  - destruct Hen as [Hev Hr]. unfold event_ok in He. destruct (transmitList (q s)) as [|d l] eqn:Hl; [by destruct He; congruence|].
    destruct (waitingOnRetry (q s)) eqn:Hw; [by destruct He; congruence|]. destruct He as (t & Hev' & ? & ?).
    rewrite Hev in Hev'. injection Hev' as <-. unfold processSendEvent. cbn [waitingOnRetry set_event]. rewrite Hw.
    cbn [negb assertb mbind res_bind].
    destruct (sendDeferredPacket_ok s (set_event None (q s)) r d l) as (o & q' & Hs & He' & _ & Hf' & Hd' & Ho);
      try done; [lia|].
    unfold offered. rewrite Hs. cbn [mbind res_bind]. eexists. split; [done|].
    by apply (inv_offered force s (set_event None (q s)) q' o r d l).
  - destruct Hen as [Hw Hr]. unfold event_ok in He. destruct (transmitList (q s)) as [|d l] eqn:Hl; [by destruct He; congruence|].
    rewrite Hw in He. destruct He as [Hev Htick]. unfold retry. rewrite Hw. cbn [assertb mbind res_bind].
    destruct (sendDeferredPacket_ok s (set_waiting false (q s)) r d l) as (o & q' & Hs & He' & _ & Hf' & Hd' & Ho);
      try done.
    unfold offered. rewrite Hs. cbn [mbind res_bind]. eexists. split; [done|].
    by apply (inv_offered force s (set_waiting false (q s)) q' o r d l).
  - destruct Hen as [Ht Hev]. eexists. split; [done|]. destruct Hinv. split; try done. cbn [now q].
    unfold event_ok in *. destruct (transmitList (q s)) as [|d l]; [done|]. destruct (waitingOnRetry (q s)).
    + split; [by apply He|]. destruct He. lia.
    + destruct He as (e & Hee & ? & ?). specialize (Hev e Hee). exists e. split; [done|]. lia.
  - eexists. split; [done|]. destruct Hinv. split; done.
Qed.

Lemma start_inv force off t : inv force (start force off t).
Proof. split; try done; try constructor. Qed.

Lemma queue_reachable_inv force off t s : rtc step (start force off t) s → inv force s.
Proof.
  intros Hr. remember (start force off t) as s0 eqn:H0. assert (Hinv : inv force s0) by (subst; apply start_inv).
  clear H0. induction Hr as [s0|s0 s1 s2 (op & Hen & Hex) Hr IH]; [done|]. apply IH.
  destruct (exec_inv force op s0 Hinv Hen) as (s' & Hex' & Hinv'). rewrite Hex in Hex'. by injection Hex' as ->.
Qed.

(** ** Theorems *)

(** C20: a packet queue never trips its checks and never loses a packet: in every
    state reached, each operation the owner or the peer may perform returns;
    what was queued is exactly what was taken by the peer together with what
    still waits; and when packets wait and no retry is outstanding, the send
    event is pending for a time no earlier than the first packet's tick and at
    most one tick from now or that tick, whichever is later. *)
Theorem packet_queue_delivers force off t s : rtc step (start force off t) s →
  (∀ op, enabled op s → ∃ s', exec op s = Ok s') ∧
  enq s ≡ₚ sent s ++ transmitList (q s) ∧
  ∀ d l, transmitList (q s) = d :: l → waitingOnRetry (q s) = false →
    ∃ e, sendEvent (q s) = Some e ∧ now s ≤ e ∧ tick d ≤ e ≤ Z.max (tick d) (now s + 1).
Proof.
  intros Hinv%queue_reachable_inv. split; [|split; [apply Hinv|]].
  - intros op Hen. destruct (exec_inv force op s Hinv Hen) as (s' & ? & _). by exists s'.
  - intros d l Hl Hw. pose proof (iv_event _ _ Hinv) as He. unfold event_ok in He. by rewrite Hl, Hw in He.
Qed.

(** The order packets leave in: packets for the same tick leave in the order
    they were queued; when order is forced, so do packets for the same address
    and security space, whatever their ticks; when it is not, the waiting
    packets are sorted by tick. *)
Theorem packet_queue_order force off t s : rtc step (start force off t) s →
  (∀ k, filter (λ d, tick d = k) (sent s ++ transmitList (q s)) = filter (λ d, tick d = k) (enq s)) ∧
  (force = true → ∀ a b, filter (λ d, matchAddr (pkt d) a b = true) (sent s ++ transmitList (q s)) =
     filter (λ d, matchAddr (pkt d) a b = true) (enq s)) ∧
  (force = false → StronglySorted earlier (transmitList (q s))).
Proof.
  intros Hinv%queue_reachable_inv. split; [|split].
  - intros k. symmetry. apply Hinv.
  - intros Hf a b. symmetry. by apply Hinv.
  - apply Hinv.
Qed.

(** ** Witnesses *)

Definition rd (a : Z) : Packet := createRead (mkRequest a 8 0 (Some 0) None [] None).
Definition yes : Reply := mkReply true [].

(** Two packets queued, the second due first; at tick 20 the peer takes it and
    queues another. *)
Definition busy : Sys :=
  mkSys (mkQueue [mkDeferred 25 (rd 192); mkDeferred 30 (rd 64)] (Some 25) false false false Running) 20
    [mkDeferred 30 (rd 64); mkDeferred 20 (rd 128); mkDeferred 25 (rd 192)] [mkDeferred 20 (rd 128)].

Lemma busy_reached : rtc step (start false false 10) busy.
Proof.
  eapply rtc_l; [exists (Enqueue (rd 64) 30); split; [split; [split; [vm_compute; split; congruence|done]|right; vm_compute; lia]|reflexivity]|].
  eapply rtc_l; [exists (Enqueue (rd 128) 20); split; [split; [split; [vm_compute; split; congruence|done]|right; vm_compute; lia]|reflexivity]|].
  eapply rtc_l; [exists (Advance 20); split; [split; [vm_compute; congruence|intros e He; vm_compute in He; injection He as <-; lia]|reflexivity]|].
  eapply rtc_l; [exists (Fire (mkReply true [(rd 192, 25)])); split; [|reflexivity]|].
  { split; [done|]. split; [done|]. split; [|right; vm_compute; lia].
    apply Forall_cons. split; [|constructor]. split; [vm_compute; split; congruence|done]. }
  apply rtc_refl.
Qed.

Lemma packet_queue_delivers_witness :
  (∀ op, enabled op busy → ∃ s', exec op busy = Ok s') ∧
  enq busy ≡ₚ sent busy ++ transmitList (q busy) ∧
  ∀ d l, transmitList (q busy) = d :: l → waitingOnRetry (q busy) = false →
    ∃ e, sendEvent (q busy) = Some e ∧ now busy ≤ e ∧ tick d ≤ e ≤ Z.max (tick d) (now busy + 1).
Proof. apply (packet_queue_delivers false false 10 busy busy_reached). Defined.

Lemma packet_queue_order_witness :
  (∀ k, filter (λ d, tick d = k) (sent busy ++ transmitList (q busy)) = filter (λ d, tick d = k) (enq busy)) ∧
  (false = true → ∀ a b, filter (λ d, matchAddr (pkt d) a b = true) (sent busy ++ transmitList (q busy)) =
     filter (λ d, matchAddr (pkt d) a b = true) (enq busy)) ∧
  (false = false → StronglySorted earlier (transmitList (q busy))).
Proof. apply (packet_queue_order false false 10 busy busy_reached). Defined.

End PQ.
