(* ===== verification/SnoopFilter.v ===== *)
(** * The snoop filter ([mem/snoop_filter.hh], [mem/snoop_filter.cc])

    The filter remembers, for every cache line, the CPU-side ports of a
    crossbar that have asked for it ([requested]) and those that may have it
    ([holder]), and tells which ports a request or a snoop has to be shown to.
    A mask is a 256-bit number with a bit per snooping port, an iterator into
    the map the key it points to.  Ports are numbers; statistics and the lookup
    latency, a constant, are left out. *)

From S2P Require Import Prelude.
From S2P Require Import MemCmd.
From S2P Require Import Packet.

Module SF.
Import MemCmd Pkt.

(** ** Definitions *)

Definition SNOOP_MASK_SIZE : nat := 256.
Definition LineSecure : Z := 1.

Definition UNCACHEABLE : Z := 0x400.
Definition BLOCK_CACHED : Z := 0x10000.
Definition req_isUncacheable (r : Request) : bool := isSet (req_flags r) UNCACHEABLE.
Definition req_isCacheMaintenance (r : Request) : bool := isSet (req_flags r) (Z.lor CLEAN INVALIDATE).
Definition hasSharers (p : Packet) : bool := isSet (flags p) HAS_SHARERS.
Definition isBlockCached (p : Packet) : bool := isSet (flags p) BLOCK_CACHED.

Record SnoopItem := mkItem { requested : Z; holder : Z }.
Definition SnoopItem_new : SnoopItem := mkItem 0 0.
Definition interested (i : SnoopItem) : Z := Z.lor (holder i) (requested i).

Definition none (m : Z) : bool := m =? 0.

Record SnoopFilter := mkSF {
  cachedLocations : gmap Z SnoopItem;
  (** [reqLookupResult]: the iterator, [None] for the end, and the item. *)
  lookup_it : option Z;
  retryItem : SnoopItem;
  cpuSidePorts : list nat;
  (** The bit of a port, [None] for [InvalidPortID]. *)
  localResponsePortIds : list (option nat);
}.

Definition set_cached (m : gmap Z SnoopItem) (f : SnoopFilter) : SnoopFilter :=
  mkSF m (lookup_it f) (retryItem f) (cpuSidePorts f) (localResponsePortIds f).
Definition set_lookup (i : option Z) (r : SnoopItem) (f : SnoopFilter) : SnoopFilter :=
  mkSF (cachedLocations f) i r (cpuSidePorts f) (localResponsePortIds f).

Definition SnoopFilter_new : SnoopFilter := mkSF ∅ None SnoopItem_new [] [].

Section SnoopFilter.
Context (linesize : Z) (maxEntryCount : nat) (isSnooping : nat → bool).

(** The loop of [setCPUSidePorts] over the ports [k], ..., [k + n - 1]. *)
Fixpoint set_ports (n k id : nat) : list nat * list (option nat) * nat :=
  match n with
  | O => ([], [], id)
  | S n =>
      if isSnooping k then
        let '(ports, ids, id') := set_ports n (S k) (S id) in (k :: ports, Some id :: ids, id')
      else
        let '(ports, ids, id') := set_ports n (S k) id in (ports, None :: ids, id')
  end.

Definition setCPUSidePorts (n : nat) (f : SnoopFilter) : res SnoopFilter :=
  let '(ports, ids, id) := set_ports n 0 0 in
  fatal_if (Nat.ltb SNOOP_MASK_SIZE id);;
  Ok (mkSF (cachedLocations f) (lookup_it f) (retryItem f) (cpuSidePorts f ++ ports) ids).

(** A shift of a mask by its width or more, as by [InvalidPortID], gives no
    bit. *)
Definition portToMask (f : SnoopFilter) (port : nat) : res Z :=
  if negb (isSnooping port) then Ok 0
  else match localResponsePortIds f !! port with
       | None => Err Undef
       | Some None => Ok 0
       | Some (Some k) => Ok (if Nat.ltb k SNOOP_MASK_SIZE then Z.shiftl 1 (Z.of_nat k) else 0)
       end.

Fixpoint mask_ports (f : SnoopFilter) (mask : Z) (ports : list nat) : res (list nat) :=
  match ports with
  | [] => Ok []
  | p :: l =>
      m ← portToMask f p;
      rest ← mask_ports f mask l;
      Ok (if none (Z.land mask m) then rest else p :: rest)
  end.
Definition maskToPortList (f : SnoopFilter) (mask : Z) : res (list nat) :=
  mask_ports f mask (cpuSidePorts f).

Definition line_of (p : Packet) : Z :=
  Z.lor (getBlockAddr p linesize) (if secure p then LineSecure else 0).

Definition eraseIfNullEntry (line : Z) (f : SnoopFilter) : SnoopFilter :=
  match cachedLocations f !! line with
  | Some i => if none (Z.lor (requested i) (holder i)) then set_cached (delete line (cachedLocations f)) f else f
  | None => f
  end.

Definition lookupRequest (cpkt : Packet) (port : nat) (f : SnoopFilter) : res (list nat * SnoopFilter) :=
  let allocate := negb (req_isUncacheable (req cpkt)) && isSnooping port && fromCache (cmd cpkt) in
  let line := line_of cpkt in
  req_port ← portToMask f port;
  let hit := cachedLocations f !! line in
  if negb (bool_decide (is_Some hit)) && negb allocate then Ok ([], set_lookup None (retryItem f) f)
  else
    let sf_item := default SnoopItem_new hit in
    let f := set_lookup (Some line) sf_item (set_cached (<[line := sf_item]> (cachedLocations f)) f) in
    if negb allocate then
      ports ← maskToPortList f (Z.ldiff (interested sf_item) req_port); Ok (ports, f)
    else
      sf_item' ←
        (if needsResponse (cmd cpkt) then
           if negb (cacheResponding cpkt) then
             panic_if (negb (none (Z.land (requested sf_item) req_port)));;
             Ok (mkItem (Z.lor (requested sf_item) req_port) (holder sf_item))
           else
             panic_if (none (Z.land (holder sf_item) req_port));; Ok sf_item
         else
           assertb (isEviction (cmd cpkt));;
           panic_if (none (Z.land (holder sf_item) req_port));;
           Ok (if negb (isBlockCached cpkt)
               then mkItem (requested sf_item) (Z.ldiff (holder sf_item) req_port) else sf_item));
      let f := set_cached (<[line := sf_item']> (cachedLocations f)) f in
      ports ← maskToPortList f (Z.ldiff (interested sf_item) req_port); Ok (ports, f).

Definition finishRequest (will_retry : bool) (addr : Z) (is_secure : bool) (f : SnoopFilter) : res SnoopFilter :=
  match lookup_it f with
  | None => Ok f
  | Some it =>
      let line := Z.lor (Z.land addr (not64 (linesize - 1))) (if is_secure then LineSecure else 0) in
      match cachedLocations f !! it with
      | None => Err Undef
      | Some _ =>
          assertb (it =? line);;
          let f := if will_retry then set_cached (<[it := retryItem f]> (cachedLocations f)) f else f in
          Ok (eraseIfNullEntry it f)
      end
  end.

Definition lookupSnoop (cpkt : Packet) (f : SnoopFilter) : res (list nat * SnoopFilter) :=
  assertb (isRequest (cmd cpkt));;
  let line := line_of cpkt in
  match cachedLocations f !! line with
  | None =>
      panic_if (Nat.leb maxEntryCount (base.size (cachedLocations f)));; Ok ([], f)
  | Some sf_item =>
      assertb (isWriteback (cmd cpkt) || req_isUncacheable (req cpkt) ||
               Bool.eqb (isInvalidate (cmd cpkt)) (needsWritable (cmd cpkt)) ||
               req_isCacheMaintenance (req cpkt));;
      let f := if isInvalidate (cmd cpkt) && none (requested sf_item)
               then eraseIfNullEntry line (set_cached (<[line := mkItem (requested sf_item) 0]> (cachedLocations f)) f)
               else f in
      ports ← maskToPortList f (interested sf_item);
      Ok (ports, f)
  end.

Definition updateSnoopResponse (cpkt : Packet) (rsp_port req_port : nat) (f : SnoopFilter) : res SnoopFilter :=
  assertb (isResponse (cmd cpkt));;
  assertb (cacheResponding cpkt);;
  if req_isUncacheable (req cpkt) || negb (isSnooping req_port) then Ok f
  else
    let line := line_of cpkt in
    rsp_mask ← portToMask f rsp_port;
    req_mask ← portToMask f req_port;
    let sf_item := default SnoopItem_new (cachedLocations f !! line) in
    panic_if (none (Z.land (holder sf_item) rsp_mask));;
    panic_if (none (Z.land (requested sf_item) req_mask));;
    let h := if negb (hasSharers cpkt) then 0 else holder sf_item in
    assertb (negb (isWriteback (cmd cpkt)));;
    let sf_item := mkItem (Z.ldiff (requested sf_item) req_mask) (Z.lor h req_mask) in
    assertb (negb (none (Z.lor (requested sf_item) (holder sf_item))));;
    Ok (set_cached (<[line := sf_item]> (cachedLocations f)) f).

Definition updateSnoopForward (cpkt : Packet) (f : SnoopFilter) : res SnoopFilter :=
  assertb (isResponse (cmd cpkt));;
  assertb (cacheResponding cpkt);;
  let line := line_of cpkt in
  match cachedLocations f !! line with
  | None => Ok f
  | Some sf_item =>
      if negb (hasSharers cpkt) then
        Ok (eraseIfNullEntry line (set_cached (<[line := mkItem (requested sf_item) 0]> (cachedLocations f)) f))
      else Ok f
  end.

Definition updateResponse (cpkt : Packet) (port : nat) (f : SnoopFilter) : res SnoopFilter :=
  assertb (isResponse (cmd cpkt));;
  if req_isUncacheable (req cpkt) || negb (isSnooping port) then Ok f
  else
    let line := line_of cpkt in
    match cachedLocations f !! line with
    | None => Ok f
    | Some sf_item =>
        response_mask ← portToMask f port;
        panic_if (none (Z.land (requested sf_item) response_mask));;
        let r := Z.ldiff (requested sf_item) response_mask in
        if req_isCacheMaintenance (req cpkt) then
          let h := if isInvalidate (cmd cpkt) then Z.ldiff (holder sf_item) response_mask else holder sf_item in
          Ok (eraseIfNullEntry line (set_cached (<[line := mkItem r h]> (cachedLocations f)) f))
        else
          let h := Z.lor (holder sf_item) response_mask in
          assertb (negb (none (Z.lor h r)));;
          Ok (set_cached (<[line := mkItem r h]> (cachedLocations f)) f)
    end.


(** ** Ports and masks *)

(** The ports of the crossbar are numbered; the snooping ones have a bit each. *)
Record ports_ok (n : nat) (f : SnoopFilter) : Prop := {
  pk_ports : ∀ p, p ∈ cpuSidePorts f ↔ (p < n)%nat ∧ isSnooping p = true;
  pk_bits : ∀ p, (p < n)%nat → isSnooping p = true →
    ∃ k, localResponsePortIds f !! p = Some (Some k) ∧ (k < SNOOP_MASK_SIZE)%nat;
  pk_len : length (localResponsePortIds f) = n;
  pk_inj : ∀ p q k, localResponsePortIds f !! p = Some (Some k) → localResponsePortIds f !! q = Some (Some k) → p = q;
  pk_snoop : ∀ p k, localResponsePortIds f !! p = Some (Some k) → isSnooping p = true;
  pk_nodup : NoDup (cpuSidePorts f);
}.

Lemma set_ports_spec n k id ports ids id' : set_ports n k id = (ports, ids, id') →
  length ids = n ∧ (id ≤ id')%nat ∧
  (∀ p, p ∈ ports ↔ (k ≤ p < k + n)%nat ∧ isSnooping p = true) ∧ NoDup ports ∧
  (∀ i j, ids !! i = Some (Some j) → isSnooping (k + i) = true ∧ (id ≤ j < id')%nat) ∧
  (∀ i, (i < n)%nat → isSnooping (k + i) = true → ∃ j, ids !! i = Some (Some j)) ∧
  (∀ i1 i2 j, ids !! i1 = Some (Some j) → ids !! i2 = Some (Some j) → i1 = i2).
Proof.
  revert k id ports ids id'. induction n as [|n IH]; intros k id ports ids id' H; cbn [set_ports] in H.
  { injection H as <- <- <-. split; [done|]. split; [done|]. split; [intros p; split; [by intros ?%elem_of_nil|lia]|].
    split; [constructor|]. split; [done|]. split; [lia|done]. }
  destruct (isSnooping k) eqn:Hk.
  - destruct (set_ports n (S k) (S id)) as [[ports0 ids0] id0] eqn:E. injection H as <- <- <-.
    destruct (IH _ _ _ _ _ E) as (Hl & Hle & Hp & Hn & Hb & Hall & Hinj). split; [cbn; lia|]. split; [lia|].
    split; [|split; [|split; [|split]]].
    + intros p. rewrite elem_of_cons, Hp. split; [intros [->|[? ?]]; split; (done || lia)|].
      intros [? ?]. destruct (decide (p = k)); [by left|right]. split; [lia|done].
    + apply NoDup_cons. split; [|done]. intros [? _]%Hp. lia.
    + intros [|i] j Hj; [injection Hj as <-; rewrite Nat.add_0_r; split; [done|lia]|].
      destruct (Hb i j Hj) as [Hs ?]. rewrite Nat.add_succ_r. split; [exact Hs|lia].
    + intros [|i] Hi Hs; [by exists id|]. rewrite Nat.add_succ_r in Hs. apply (Hall i); [lia|exact Hs].
    + intros [|i1] [|i2] j H1 H2; [done| | |f_equal; by apply (Hinj i1 i2 j)].
      * injection H1 as <-. destruct (Hb i2 id H2). lia.
      * injection H2 as <-. destruct (Hb i1 id H1). lia.
  - destruct (set_ports n (S k) id) as [[ports0 ids0] id0] eqn:E. injection H as <- <- <-.
    destruct (IH _ _ _ _ _ E) as (Hl & Hle & Hp & Hn & Hb & Hall & Hinj). split; [cbn; lia|]. split; [lia|].
    split; [|split; [done|split; [|split]]].
    + intros p. rewrite Hp. split; intros [? Hs]; (split; [|done]); [lia|].
      destruct (decide (p = k)) as [->|]; [congruence|lia].
    + intros [|i] j Hj; [done|]. rewrite Nat.add_succ_r. by apply Hb.
    + intros [|i] Hi Hs; [rewrite Nat.add_0_r in Hs; congruence|]. rewrite Nat.add_succ_r in Hs. apply (Hall i); [lia|exact Hs].
    + intros [|i1] [|i2] j H1 H2; [done|done|done|f_equal; by apply (Hinj i1 i2 j)].
Qed.

Lemma setCPUSidePorts_ok n : (length (filter (λ p, isSnooping p = true) (seq 0 n)) ≤ SNOOP_MASK_SIZE)%nat →
  ∃ f, setCPUSidePorts n SnoopFilter_new = Ok f ∧ ports_ok n f ∧ cachedLocations f = ∅.
Proof.
  intros Hn. unfold setCPUSidePorts. destruct (set_ports n 0 0) as [[ports ids] id] eqn:E.
  assert (Hid : ∀ m k i ps js i', set_ports m k i = (ps, js, i') →
    i' = (i + length (filter (λ p, isSnooping p = true) (seq k m)))%nat).
  { clear. induction m as [|m IH]; intros k i ps js i' H; cbn [set_ports] in H; [injection H as <- <- <-; cbn; lia|].
    cbn [seq]. rewrite filter_cons. destruct (isSnooping k).
    - rewrite decide_True by done. destruct (set_ports m (S k) (S i)) as [[? ?] ?] eqn:E. injection H as <- <- <-.
      rewrite (IH _ _ _ _ _ E). cbn. lia.
    - rewrite decide_False by done. destruct (set_ports m (S k) i) as [[? ?] ?] eqn:E. injection H as <- <- <-.
      by rewrite (IH _ _ _ _ _ E). }
  rewrite (Hid _ _ _ _ _ _ E). cbn [Nat.add]. rewrite (proj2 (Nat.ltb_ge _ _)) by done. cbn [fatal_if mbind res_bind].
  eexists. split; [done|]. split; [|done].
  destruct (set_ports_spec _ _ _ _ _ _ E) as (Hl & _ & Hp & Hnd & Hb & Hall & Hinj). specialize (Hid _ _ _ _ _ _ E).
  split; cbn; try done.
  - intros p. rewrite Hp. split; intros [? ?]; (split; [lia|done]).
  - intros p Hpn Hs. destruct (Hall p Hpn Hs) as [k Hk]. exists k. split; [done|]. destruct (Hb p k Hk). lia.
  - intros p k Hk. by destruct (Hb p k Hk).
Qed.

(** Whether a mask has the bit of a port, and which numbers are masks. *)
Definition has (f : SnoopFilter) (m : Z) (p : nat) : bool :=
  match localResponsePortIds f !! p with Some (Some k) => Z.testbit m (Z.of_nat k) | _ => false end.
Definition mask_ok (f : SnoopFilter) (m : Z) : Prop :=
  0 ≤ m ∧ ∀ k, 0 ≤ k → Z.testbit m k = true → ∃ p, localResponsePortIds f !! p = Some (Some (Z.to_nat k)).

Section Ports.
Context (n : nat) (f : SnoopFilter) (Hf : ports_ok n f).

Lemma has_snooping m p : has f m p = true → (p < n)%nat ∧ isSnooping p = true.
Proof.
  unfold has. intros H. destruct (localResponsePortIds f !! p) as [[k|]|] eqn:E; [|done|done].
  split; [|by eapply pk_snoop]. rewrite <- (pk_len _ _ Hf). by eapply lookup_lt_Some.
Qed.

(** The mask of a port has its bit and no other. *)
Lemma portToMask_ok p : (p < n)%nat → ∃ m, portToMask f p = Ok m ∧ mask_ok f m ∧
  ∀ q, has f m q = (bool_decide (q = p) && isSnooping p).
Proof.
  intros Hp. unfold portToMask. destruct (isSnooping p) eqn:Hs; cbn [negb].
  - destruct (pk_bits _ _ Hf p Hp Hs) as (k & Hk & Hlt). rewrite Hk, (proj2 (Nat.ltb_lt _ _)) by done.
    eexists. split; [done|]. assert (Hbit : ∀ j, 0 ≤ j → Z.testbit (Z.shiftl 1 (Z.of_nat k)) j = (j =? Z.of_nat k)).
    { intros j Hj. rewrite Z.shiftl_spec by done. destruct (Z.eqb_spec j (Z.of_nat k)) as [->|Hne]; [by rewrite Z.sub_diag|].
      destruct (Z.ltb_spec j (Z.of_nat k)); [apply Z.testbit_neg_r; lia|].
      apply Z.bits_above_log2; [done|]. simpl. lia. }
    split.
    + split; [rewrite Z.shiftl_mul_pow2 by lia; lia|]. intros j Hj Hjb. rewrite Hbit in Hjb by done. apply Z.eqb_eq in Hjb as ->.
      exists p. by rewrite Nat2Z.id.
    + intros q. rewrite andb_true_r. unfold has. destruct (localResponsePortIds f !! q) as [[j|]|] eqn:Hq.
      * rewrite Hbit by lia. destruct (Z.eqb_spec (Z.of_nat j) (Z.of_nat k)) as [Heq|Hne].
        -- apply Nat2Z.inj in Heq as ->. rewrite (pk_inj _ _ Hf q p k Hq Hk). by rewrite bool_decide_true.
        -- rewrite bool_decide_false; [done|]. intros ->. congruence.
      * rewrite bool_decide_false; [done|]. intros ->. congruence.
      * rewrite bool_decide_false; [done|]. intros ->. congruence.
  - eexists. split; [done|]. split; [split; [done|]; intros k _; by rewrite Z.bits_0|]. intros q. rewrite andb_false_r.
    unfold has. destruct (localResponsePortIds f !! q) as [[j|]|]; [apply Z.bits_0|done|done].
Qed.

Lemma has_lor m1 m2 p : has f (Z.lor m1 m2) p = has f m1 p || has f m2 p.
Proof. unfold has. destruct (localResponsePortIds f !! p) as [[k|]|]; [apply Z.lor_spec|done|done]. Qed.
Lemma has_land m1 m2 p : has f (Z.land m1 m2) p = has f m1 p && has f m2 p.
Proof. unfold has. destruct (localResponsePortIds f !! p) as [[k|]|]; [apply Z.land_spec|done|done]. Qed.
Lemma has_ldiff m1 m2 p : has f (Z.ldiff m1 m2) p = has f m1 p && negb (has f m2 p).
Proof. unfold has. destruct (localResponsePortIds f !! p) as [[k|]|]; [apply Z.ldiff_spec|done|done]. Qed.
Lemma has_0 p : has f 0 p = false.
Proof. unfold has. destruct (localResponsePortIds f !! p) as [[k|]|]; [apply Z.bits_0|done|done]. Qed.

Lemma mask_ok_0 : mask_ok f 0.
Proof. split; [done|]. intros k _. by rewrite Z.bits_0. Qed.
Lemma mask_ok_lor m1 m2 : mask_ok f m1 → mask_ok f m2 → mask_ok f (Z.lor m1 m2).
Proof.
  intros [H1 B1] [H2 B2]. split; [by apply Z.lor_nonneg|]. intros k Hk. rewrite Z.lor_spec.
  intros [?|?]%orb_true_iff; auto.
Qed.
Lemma mask_ok_land m1 m2 : mask_ok f m1 → mask_ok f (Z.land m1 m2).
Proof. intros [H1 B1]. split; [apply Z.land_nonneg; by left|]. intros k Hk. rewrite Z.land_spec. intros [? _]%andb_true_iff. auto. Qed.
Lemma mask_ok_ldiff m1 m2 : mask_ok f m1 → mask_ok f (Z.ldiff m1 m2).
Proof. intros [H1 B1]. split; [apply Z.ldiff_nonneg; by left|]. intros k Hk. rewrite Z.ldiff_spec. intros [? _]%andb_true_iff. auto. Qed.

(** A mask is empty when it has no port. *)
Lemma none_spec m : mask_ok f m → none m = true ↔ ∀ p, has f m p = false.
Proof.
  intros [Hm B]. unfold none. rewrite Z.eqb_eq. split; [intros -> p; apply has_0|].
  intros H. apply Z.bits_inj_0. intros k. destruct (Z.ltb_spec k 0); [by apply Z.testbit_neg_r|].
  destruct (Z.testbit m k) eqn:E; [|done]. destruct (B k ltac:(lia) E) as [p Hp]. specialize (H p). unfold has in H.
  rewrite Hp, Z2Nat.id in H by lia. congruence.
Qed.

Lemma none_port m mp p : mask_ok f m → (∀ q, has f mp q = (bool_decide (q = p) && isSnooping p)) → isSnooping p = true →
  none (Z.land m mp) = negb (has f m p).
Proof.
  intros Hm Hp Hs. apply Bool.eq_iff_eq_true. rewrite none_spec by (by apply mask_ok_land). rewrite negb_true_iff. split.
  - intros H. specialize (H p). rewrite has_land, Hp, bool_decide_true, Hs, andb_true_r in H by done. done.
  - intros H q. rewrite has_land, Hp, Hs, andb_true_r. case_bool_decide as Hq; [subst; by rewrite H|apply andb_false_r].
Qed.

(** The list of ports of a mask. *)
Lemma mask_ports_ok m l : (∀ p, p ∈ l → (p < n)%nat ∧ isSnooping p = true) → mask_ok f m →
  ∃ ps, mask_ports f m l = Ok ps ∧ ∀ p, p ∈ ps ↔ p ∈ l ∧ has f m p = true.
Proof.
  intros Hl Hm. induction l as [|p l IH]; cbn [mask_ports].
  { exists []. split; [done|]. intros p. split; [by intros ?%elem_of_nil|]. by intros [?%elem_of_nil _]. }
  destruct (Hl p ltac:(left)) as [Hp Hs]. destruct (portToMask_ok p Hp) as (mp & -> & Hmp & Hhas). cbn [mbind res_bind].
  destruct IH as (ps & -> & Hps); [intros q Hq; apply Hl; by right|]. cbn [mbind res_bind].
  rewrite (none_port m mp p) by done. eexists. split; [done|]. intros q. destruct (has f m p) eqn:E; cbn [negb].
  - rewrite !elem_of_cons, Hps. split; [intros [->|[? ?]]; auto|]. intros [[->|?] ?]; auto.
  - rewrite elem_of_cons, Hps. split; [intros [? ?]; auto|]. intros [[->|?] ?]; [congruence|auto].
Qed.

Lemma maskToPortList_ok m : mask_ok f m →
  ∃ ps, maskToPortList f m = Ok ps ∧ ∀ p, p ∈ ps ↔ has f m p = true.
Proof.
  intros Hm. destruct (mask_ports_ok m (cpuSidePorts f)) as (ps & Hps & Hin); [intros p; by apply (pk_ports _ _ Hf)|done|].
  exists ps. split; [done|]. intros p. rewrite Hin, (pk_ports _ _ Hf). split; [by intros [_ ?]|].
  intros H. split; [by apply (has_snooping m)|done].
Qed.
End Ports.

(** ** The filter and what it stands for *)

(** The caches above the ports: which ports may have a copy of a line, which had
    one when they were shown a request for it and may still have to answer that
    request, though a snoop from below has taken the copy since, and which await
    the response to a cacheable request of theirs. *)
Record Ghost := mkGhost { copies : gset (Z * nat); owing : gset (Z * nat); inflight : gset (Z * nat) }.
Definition may (g : Ghost) : gset (Z * nat) := copies g ∪ owing g.

Definition drop_line (l : Z) (s : gset (Z * nat)) : gset (Z * nat) :=
  list_to_set (filter (λ e, e.1 ≠ l) (elements s)).

Lemma elem_of_drop_line (l : Z) (s : gset (Z * nat)) (l' : Z) (p : nat) : (l', p) ∈ drop_line l s ↔ l' ≠ l ∧ (l', p) ∈ s.
Proof. unfold drop_line. by rewrite elem_of_list_to_set, list_elem_of_filter, elem_of_elements. Qed.

(** Some port awaits the line. *)
Definition awaited (l : Z) (g : Ghost) : bool := existsb (λ e, e.1 =? l) (elements (inflight g)).

Lemma awaited_spec l g : awaited l g = true ↔ ∃ p, (l, p) ∈ inflight g.
Proof.
  unfold awaited. rewrite existsb_exists. setoid_rewrite <- list_elem_of_In. setoid_rewrite elem_of_elements. split.
  - intros ([l' p] & Hin & Hl%Z.eqb_eq). cbn in Hl. subst. eauto.
  - intros [p Hp]. exists (l, p). split; [done|]. apply Z.eqb_refl.
Qed.

(** No port has the line any more, or a copy of it to answer with. *)
Definition gone (l : Z) (g : Ghost) : Ghost := mkGhost (drop_line l (copies g)) (drop_line l (owing g)) (inflight g).
(** A snoop from below takes the copies of a line: while a request for it is in
    flight, the ports that had one may be about to answer it. *)
Definition taken (l : Z) (g : Ghost) : Ghost :=
  if awaited l g then mkGhost (drop_line l (copies g)) (owing g ∪ (copies g ∖ drop_line l (copies g))) (inflight g)
  else gone l g.

Lemma may_gone (l : Z) (g : Ghost) l' p : (l', p) ∈ may (gone l g) ↔ l' ≠ l ∧ (l', p) ∈ may g.
Proof. unfold may, gone. cbn. rewrite !elem_of_union, !elem_of_drop_line. tauto. Qed.
Lemma may_taken (l : Z) (g : Ghost) l' p : (l', p) ∈ may (taken l g) → (l', p) ∈ may g.
Proof.
  unfold taken. destruct (awaited l g); [|by intros [_ ?]%may_gone]. unfold may. cbn.
  rewrite !elem_of_union, elem_of_difference, elem_of_drop_line. tauto.
Qed.

(** The calls a crossbar makes: a request with the result of sending it on, a
    snoop from below, the response of a snooped port to another port or to
    below, and a response from below. *)
Inductive Op :=
| Request (cpkt : Packet) (port : nat) (will_retry : bool)
| Snoop (cpkt : Packet)
| SnoopResponse (cpkt : Packet) (rsp_port req_port : nat)
| SnoopForward (cpkt : Packet)
| Response (cpkt : Packet) (port : nat).

Definition exec (op : Op) (f : SnoopFilter) : res (list nat * SnoopFilter) :=
  match op with
  | Request cpkt port retry =>
      '(ports, f) ← lookupRequest cpkt port f;
      f ← finishRequest retry (addr cpkt) (secure cpkt) f; Ok (ports, f)
  | Snoop cpkt => lookupSnoop cpkt f
  | SnoopResponse cpkt rsp req => f ← updateSnoopResponse cpkt rsp req f; Ok ([], f)
  | SnoopForward cpkt => f ← updateSnoopForward cpkt f; Ok ([], f)
  | Response cpkt port => f ← updateResponse cpkt port f; Ok ([], f)
  end.

Definition cacheable (cpkt : Packet) (port : nat) : bool := negb (req_isUncacheable (req cpkt)) && isSnooping port.
Definition allocates (cpkt : Packet) (port : nat) : bool := cacheable cpkt port && fromCache (cmd cpkt).

Lemma may_minus (g : Ghost) (s r : gset (Z * nat)) e :
  e ∈ may (mkGhost (copies g ∖ s) (owing g ∖ s) r) ↔ e ∈ may g ∧ e ∉ s.
Proof. unfold may. cbn. rewrite !elem_of_union, !elem_of_difference. tauto. Qed.
Lemma may_plus (g : Ghost) (e e' : Z * nat) (r : gset (Z * nat)) :
  e' ∈ may (mkGhost ({[e]} ∪ copies g) (owing g) r) ↔ e' = e ∨ e' ∈ may g.
Proof. unfold may. cbn. rewrite !elem_of_union, elem_of_singleton. tauto. Qed.

(** What the calls mean for the caches. *)
Definition effect (op : Op) (g : Ghost) : Ghost :=
  match op with
  | Request cpkt port retry =>
      let e := (line_of cpkt, port) in
      if retry || negb (allocates cpkt port) then g
      else if needsResponse (cmd cpkt) then
        if cacheResponding cpkt then g else mkGhost (copies g) (owing g) ({[e]} ∪ inflight g)
      else if isBlockCached cpkt then g else mkGhost (copies g ∖ {[e]}) (owing g ∖ {[e]}) (inflight g)
  | Snoop cpkt => if isInvalidate (cmd cpkt) then taken (line_of cpkt) g else g
  | SnoopResponse cpkt rsp req =>
      let e := (line_of cpkt, req) in
      let g := if hasSharers cpkt then g else gone (line_of cpkt) g in
      if cacheable cpkt req then mkGhost ({[e]} ∪ copies g) (owing g) (inflight g ∖ {[e]}) else g
  | SnoopForward cpkt => if hasSharers cpkt then g else gone (line_of cpkt) g
  | Response cpkt port =>
      let e := (line_of cpkt, port) in
      if bool_decide (e ∈ inflight g) && cacheable cpkt port then
        let lost := if isInvalidate (cmd cpkt) then {[e]} else ∅ in
        if req_isCacheMaintenance (req cpkt)
        then mkGhost (copies g ∖ lost) (owing g ∖ lost) (inflight g ∖ {[e]})
        else mkGhost ({[e]} ∪ copies g) (owing g) (inflight g ∖ {[e]})
      else g
  end.

(** The filter lists a port as holder of a line. *)
Definition held (f : SnoopFilter) (l : Z) (p : nat) : Prop :=
  ∃ i, cachedLocations f !! l = Some i ∧ has f (holder i) p = true.

(** The protocol of the caches, which the filter does not see: a port has one
    request per line in flight, writes back or answers for lines it has, and
    answers another port's request only while that one awaits the line. *)
Definition allowed (n : nat) (op : Op) (g : Ghost) : Prop :=
  match op with
  | Request cpkt port _ =>
      let e := (line_of cpkt, port) in
      (port < n)%nat ∧
      (allocates cpkt port = true →
       if needsResponse (cmd cpkt) then if cacheResponding cpkt then e ∈ may g else e ∉ inflight g
       else isEviction (cmd cpkt) = true ∧ e ∈ may g)
  | Snoop cpkt =>
      isRequest (cmd cpkt) = true ∧
      (isWriteback (cmd cpkt) = true ∨ req_isUncacheable (req cpkt) = true ∨
       isInvalidate (cmd cpkt) = needsWritable (cmd cpkt) ∨ req_isCacheMaintenance (req cpkt) = true)
  | SnoopResponse cpkt rsp req =>
      isResponse (cmd cpkt) = true ∧ cacheResponding cpkt = true ∧ (rsp < n)%nat ∧ (req < n)%nat ∧
      (cacheable cpkt req = true → (line_of cpkt, rsp) ∈ may g ∧ (line_of cpkt, req) ∈ inflight g)
  | SnoopForward cpkt => isResponse (cmd cpkt) = true ∧ cacheResponding cpkt = true
  | Response cpkt port => isResponse (cmd cpkt) = true ∧ (port < n)%nat
  end.

(** The two calls on which the filter gives up: a snoop of a line it does not
    track when it is full, and a cacheable response, of a line it tracks, to a
    snooping port whose request it has not recorded. *)
Definition stops (op : Op) (f : SnoopFilter) (g : Ghost) : Prop :=
  match op with
  | Snoop cpkt =>
      cachedLocations f !! line_of cpkt = None ∧ (maxEntryCount ≤ base.size (cachedLocations f))%nat
  | Response cpkt port =>
      cacheable cpkt port = true ∧ is_Some (cachedLocations f !! line_of cpkt) ∧ (line_of cpkt, port) ∉ inflight g
  | _ => False
  end.

Record sound (n : nat) (f : SnoopFilter) (g : Ghost) : Prop := {
  so_ports : ports_ok n f;
  so_mask : ∀ l i, cachedLocations f !! l = Some i →
    mask_ok f (requested i) ∧ mask_ok f (holder i) ∧ none (Z.lor (requested i) (holder i)) = false;
  so_req : ∀ l p, (l, p) ∈ inflight g ↔ ∃ i, cachedLocations f !! l = Some i ∧ has f (requested i) p = true;
  so_copy : ∀ l p, (l, p) ∈ may g → held f l p;
}.

Lemma ports_ok_frame n f f' : ports_ok n f → cpuSidePorts f' = cpuSidePorts f →
  localResponsePortIds f' = localResponsePortIds f → ports_ok n f'.
Proof. intros [] H1 H2. split; rewrite ?H1, ?H2; done. Qed.

(** A new item for one line, dropped if it is empty. *)
Lemma sound_update n f g g' l i' li ri : sound n f g → mask_ok f (requested i') → mask_ok f (holder i') →
  (∀ l' p, l' ≠ l → ((l', p) ∈ inflight g' ↔ (l', p) ∈ inflight g) ∧ ((l', p) ∈ may g' → (l', p) ∈ may g)) →
  (∀ p, (l, p) ∈ inflight g' ↔ has f (requested i') p = true) →
  (∀ p, (l, p) ∈ may g' → has f (holder i') p = true) →
  sound n (eraseIfNullEntry l (set_lookup li ri (set_cached (<[l := i']> (cachedLocations f)) f))) g'.
Proof.
  intros [Hp Hm Hr Hc] Hr' Hh' Hoth Hin Hco. unfold eraseIfNullEntry. cbn [cachedLocations set_cached set_lookup].
  rewrite lookup_insert_eq. destruct (none (Z.lor (requested i') (holder i'))) eqn:Hn.
  - assert (Hno : ∀ p, has f (requested i') p = false ∧ has f (holder i') p = false).
    { intros p. pose proof (proj1 (none_spec f _ (mask_ok_lor f _ _ Hr' Hh')) Hn p) as Hnp.
      rewrite has_lor in Hnp. by apply orb_false_iff in Hnp. }
    assert (Hlk : ∀ l', l' ≠ l → delete l (<[l := i']> (cachedLocations f)) !! l' = cachedLocations f !! l')
      by (intros l' Hne; by rewrite lookup_delete_ne, lookup_insert_ne).
    split; [by eapply ports_ok_frame| | |]; unfold held; cbn [cachedLocations set_cached set_lookup].
    + intros l' i [Hne Hi]%lookup_delete_Some. rewrite lookup_insert_ne in Hi by done. by apply (Hm l').
    + intros l' p. destruct (decide (l' = l)) as [->|Hne].
      * rewrite Hin, lookup_delete_eq. destruct (Hno p) as [-> _]. split; [done|]. by intros (? & ? & _).
      * rewrite (proj1 (Hoth l' p Hne)), Hlk by done. apply Hr.
    + intros l' p Hlp. destruct (decide (l' = l)) as [->|Hne].
      * apply Hco in Hlp. destruct (Hno p). congruence.
      * rewrite Hlk by done. apply Hc, (Hoth l' p Hne), Hlp.
  - split; [by eapply ports_ok_frame| | |]; unfold held; cbn [cachedLocations set_cached set_lookup].
    + intros l' i Hi. apply lookup_insert_Some in Hi as [[<- <-]|[_ Hi]]; [done|by apply (Hm l')].
    + intros l' p. destruct (decide (l' = l)) as [->|Hne].
      * rewrite Hin, lookup_insert_eq. split; [by eauto|]. by intros (? & [= <-] & ?).
      * rewrite (proj1 (Hoth l' p Hne)), lookup_insert_ne by done. apply Hr.
    + intros l' p Hlp. destruct (decide (l' = l)) as [->|Hne].
      * rewrite lookup_insert_eq. eauto.
      * rewrite lookup_insert_ne by done. apply Hc, (Hoth l' p Hne), Hlp.
Qed.

Lemma erase_keep l i f : cachedLocations f !! l = Some i → none (Z.lor (requested i) (holder i)) = false →
  eraseIfNullEntry l f = f.
Proof. intros Hi Hn. unfold eraseIfNullEntry. by rewrite Hi, Hn. Qed.

Lemma sound_lookup n f g li ri : sound n f g → sound n (set_lookup li ri f) g.
Proof. intros []. split; try done. by eapply ports_ok_frame. Qed.

Lemma sound_erase n f g g' l i' : sound n f g → mask_ok f (requested i') → mask_ok f (holder i') →
  (∀ l' p, l' ≠ l → ((l', p) ∈ inflight g' ↔ (l', p) ∈ inflight g) ∧ ((l', p) ∈ may g' → (l', p) ∈ may g)) →
  (∀ p, (l, p) ∈ inflight g' ↔ has f (requested i') p = true) →
  (∀ p, (l, p) ∈ may g' → has f (holder i') p = true) →
  sound n (eraseIfNullEntry l (set_cached (<[l := i']> (cachedLocations f)) f)) g'.
Proof. apply (sound_update n f g g' l i' (lookup_it f) (retryItem f)). Qed.

Lemma sound_set n f g g' l i' : sound n f g → mask_ok f (requested i') → mask_ok f (holder i') →
  none (Z.lor (requested i') (holder i')) = false →
  (∀ l' p, l' ≠ l → ((l', p) ∈ inflight g' ↔ (l', p) ∈ inflight g) ∧ ((l', p) ∈ may g' → (l', p) ∈ may g)) →
  (∀ p, (l, p) ∈ inflight g' ↔ has f (requested i') p = true) →
  (∀ p, (l, p) ∈ may g' → has f (holder i') p = true) →
  sound n (set_cached (<[l := i']> (cachedLocations f)) f) g'.
Proof.
  intros Hs Hr Hh Hn H1 H2 H3. rewrite <- (erase_keep l i' (set_cached (<[l := i']> (cachedLocations f)) f)).
  - by eapply sound_erase.
  - apply lookup_insert_eq.
  - done.
Qed.

(** What the filter knows of a line. *)
Lemma sound_item n f g l i : sound n f g → cachedLocations f !! l = Some i →
  (∀ p, (l, p) ∈ inflight g ↔ has f (requested i) p = true) ∧ (∀ p, (l, p) ∈ may g → has f (holder i) p = true).
Proof.
  intros Hs Hi. split; intros p.
  - rewrite (so_req _ _ _ Hs), Hi. split; [by intros (? & [= <-] & ?)|eauto].
  - intros Hc. destruct (so_copy _ _ _ Hs l p Hc) as (i' & Hi' & ?). congruence.
Qed.

Lemma sound_miss n f g l : sound n f g → cachedLocations f !! l = None → ∀ p, (l, p) ∉ inflight g ∧ (l, p) ∉ may g.
Proof.
  intros Hs Hi p. split; intros Hc.
  - apply (so_req _ _ _ Hs) in Hc as (? & ? & _). congruence.
  - destruct (so_copy _ _ _ Hs l p Hc) as (? & ? & _). congruence.
Qed.

(** The item a lookup starts from. *)
Definition item_of (f : SnoopFilter) (l : Z) : SnoopItem := default SnoopItem_new (cachedLocations f !! l).

Lemma item_of_spec n f g l : sound n f g →
  mask_ok f (requested (item_of f l)) ∧ mask_ok f (holder (item_of f l)) ∧
  (∀ p, (l, p) ∈ inflight g ↔ has f (requested (item_of f l)) p = true) ∧
  (∀ p, (l, p) ∈ may g → has f (holder (item_of f l)) p = true).
Proof.
  intros Hs. unfold item_of. destruct (cachedLocations f !! l) as [i|] eqn:Hi; cbn [default from_option].
  - destruct (so_mask _ _ _ Hs l i Hi) as (H1 & H2 & _). destruct (sound_item n f g l i Hs Hi). done.
  - pose proof (sound_miss n f g l Hs Hi) as Hm. split; [apply mask_ok_0|]. split; [apply mask_ok_0|]. cbn. split; intros p.
    + rewrite has_0. split; [by intros ?%Hm|done].
    + by intros ?%Hm.
Qed.

(** *** Requests *)

(** The ports a request is shown to. *)
Definition shown_request (g : Ghost) (l : Z) (port : nat) (ps : list nat) : Prop :=
  ∀ p, (p ∈ ps → p ≠ port ∨ isSnooping port = false) ∧
       (p ≠ port → (l, p) ∈ may g ∪ inflight g → p ∈ ps).

Lemma request_list n f g l port mp : sound n f g →
  (∀ q, has f mp q = (bool_decide (q = port) && isSnooping port)) →
  ∃ ps, maskToPortList f (Z.ldiff (interested (item_of f l)) mp) = Ok ps ∧ shown_request g l port ps.
Proof.
  intros Hs Hmp. destruct (item_of_spec n f g l Hs) as (Hr & Hh & Hin & Hco).
  destruct (maskToPortList_ok n f (so_ports _ _ _ Hs) (Z.ldiff (interested (item_of f l)) mp)) as (ps & Hps & Hel).
  { apply mask_ok_ldiff. by apply mask_ok_lor. }
  exists ps. split; [done|]. intros p. rewrite Hel, has_ldiff, Hmp. unfold interested. rewrite has_lor. split.
  - intros [_ Hp]%andb_true_iff. destruct (isSnooping port); [left|by right]. rewrite andb_true_r in Hp.
    by apply negb_true_iff, bool_decide_eq_false in Hp.
  - intros Hne Hlp. rewrite bool_decide_false by done. cbn. rewrite andb_true_r.
    apply elem_of_union in Hlp as [Hlp|Hlp]; [rewrite (Hco p Hlp); done|]. rewrite (proj1 (Hin p) Hlp). by rewrite orb_true_r.
Qed.

(** The item after an accepted request. *)
Definition requested_item (cpkt : Packet) (mp : Z) (i : SnoopItem) : SnoopItem :=
  if needsResponse (cmd cpkt) then
    if cacheResponding cpkt then i else mkItem (Z.lor (requested i) mp) (holder i)
  else if isBlockCached cpkt then i else mkItem (requested i) (Z.ldiff (holder i) mp).

Lemma requested_item_sound n f g cpkt port mp : sound n f g → (port < n)%nat → allocates cpkt port = true →
  allowed n (Request cpkt port false) g → mask_ok f mp →
  (∀ q, has f mp q = (bool_decide (q = port) && isSnooping port)) →
  ∀ li ri, sound n (eraseIfNullEntry (line_of cpkt) (set_lookup li ri
    (set_cached (<[line_of cpkt := requested_item cpkt mp (item_of f (line_of cpkt))]> (cachedLocations f)) f)))
    (effect (Request cpkt port false) g).
Proof.
  intros Hs Hp Hal [_ Hok] Hmk Hmp li ri. set (l := line_of cpkt) in *.
  destruct (item_of_spec n f g l Hs) as (Hr & Hh & Hin & Hco).
  assert (Hsn : isSnooping port = true) by (unfold allocates, cacheable in Hal; by repeat apply andb_true_iff in Hal as [Hal ?]).
  rewrite Hsn in Hmp. unfold requested_item, effect. rewrite Hal. cbn [negb orb]. fold l.
  destruct (needsResponse (cmd cpkt)); [destruct (cacheResponding cpkt)|destruct (isBlockCached cpkt)].
  - by eapply sound_update.
  - eapply sound_update; [done| |done| | |done]; cbn [requested holder inflight].
    + by apply mask_ok_lor.
    + intros l' p Hne. split; [set_solver|done].
    + intros p. rewrite has_lor, Hmp, andb_true_r, orb_true_iff, bool_decide_eq_true, elem_of_union, elem_of_singleton, Hin.
      split; [intros [[= ->]|?]; auto|]. intros [?| ->]; auto.
  - by eapply sound_update.
  - eapply sound_update; [done|done| | |done|]; cbn [requested holder inflight].
    + by apply mask_ok_ldiff.
    + intros l' p Hne. split; [done|]. rewrite may_minus. tauto.
    + intros p. rewrite may_minus, elem_of_singleton, has_ldiff, Hmp, andb_true_r. intros [Hc Hne].
      rewrite (Hco p Hc), bool_decide_false; [done|]. intros ->. by apply Hne.
Qed.

Lemma line_finish cpkt : Z.lor (Z.land (addr cpkt) (not64 (linesize - 1))) (if secure cpkt then LineSecure else 0) = line_of cpkt.
Proof. done. Qed.

(** A refused request leaves no trace. *)
Lemma erase_retry n f g l i li ri : sound n f g →
  cachedLocations (eraseIfNullEntry l (set_cached (<[l := item_of f l]>
    (<[l := i]> (cachedLocations f))) (set_lookup li ri f))) = cachedLocations f.
Proof.
  intros Hs. rewrite insert_insert_eq. unfold eraseIfNullEntry, item_of. cbn [cachedLocations set_cached set_lookup].
  rewrite lookup_insert_eq. destruct (cachedLocations f !! l) as [i0|] eqn:Hi.
  - change (default SnoopItem_new (Some i0)) with i0. destruct (so_mask _ _ _ Hs l i0 Hi) as (_ & _ & ->). cbn. by rewrite insert_id.
  - cbn. by rewrite delete_insert_id.
Qed.

Lemma sound_frame n f f' g : sound n f g → cachedLocations f' = cachedLocations f → cpuSidePorts f' = cpuSidePorts f →
  localResponsePortIds f' = localResponsePortIds f → sound n f' g.
Proof.
  intros [Hp Hm Hr Hc] H1 H2 H3. assert (Hhas : ∀ m p, has f' m p = has f m p) by (intros; unfold has; by rewrite H3).
  split.
  - by eapply ports_ok_frame.
  - intros l i. rewrite H1. unfold mask_ok. rewrite H3. apply Hm.
  - intros l p. rewrite H1, Hr. by setoid_rewrite Hhas.
  - intros l p Hlp. unfold held. rewrite H1. setoid_rewrite Hhas. by apply Hc.
Qed.

(** The crossbar after [finishRequest]: the item before the lookup, or the new
    one. *)
Definition finished (retry : bool) (l : Z) (i' : SnoopItem) (f : SnoopFilter) : SnoopFilter :=
  eraseIfNullEntry l (set_cached (<[l := if retry then item_of f l else i']> (cachedLocations f))
    (set_lookup (Some l) (item_of f l) f)).

Lemma finishRequest_ok retry cpkt i' f :
  finishRequest retry (addr cpkt) (secure cpkt)
    (set_lookup (Some (line_of cpkt)) (item_of f (line_of cpkt))
       (set_cached (<[line_of cpkt := i']> (<[line_of cpkt := item_of f (line_of cpkt)]> (cachedLocations f))) f)) =
  Ok (finished retry (line_of cpkt) i' f).
Proof.
  unfold finishRequest. cbn [lookup_it set_lookup cachedLocations set_cached retryItem]. rewrite line_finish, insert_insert_eq.
  rewrite lookup_insert_eq, Z.eqb_refl. cbn [assertb mbind res_bind]. unfold finished.
  destruct retry; [|done]. cbn [cachedLocations set_lookup set_cached]. unfold set_cached at 1 3. cbn. by rewrite insert_insert_eq.
Qed.

Lemma finished_retry n f g l i' : sound n f g →
  cachedLocations (finished true l i' f) = cachedLocations f ∧ sound n (finished true l i' f) g.
Proof.
  intros Hs. pose proof (erase_retry n f g l (item_of f l) (Some l) (item_of f l) Hs) as H. rewrite insert_insert_eq in H.
  split; [exact H|]. eapply sound_frame; [done|exact H| |]; unfold finished, eraseIfNullEntry;
    destruct (cachedLocations (set_cached _ _) !! l); [destruct (none _)| |destruct (none _)|]; done.
Qed.

Lemma request_ok n f g cpkt port retry : sound n f g → allowed n (Request cpkt port retry) g →
  ∃ ps f', exec (Request cpkt port retry) f = Ok (ps, f') ∧ sound n f' (effect (Request cpkt port retry) g) ∧
    shown_request g (line_of cpkt) port ps ∧ (retry = true → cachedLocations f' = cachedLocations f).
Proof.
  intros Hs Hall. pose proof Hall as [Hp Hok]. set (l := line_of cpkt) in *. cbn [exec]. unfold lookupRequest. fold (cacheable cpkt port).
  fold (allocates cpkt port). fold l.
  destruct (portToMask_ok n f (so_ports _ _ _ Hs) port Hp) as (mp & -> & Hmk & Hmp). cbn [mbind res_bind].
  destruct (request_list n f g l port mp Hs Hmp) as (ps & Hps & Hshown).
  fold (item_of f l). assert (Hlist : ∀ f', cpuSidePorts f' = cpuSidePorts f → localResponsePortIds f' = localResponsePortIds f →
    maskToPortList f' (Z.ldiff (interested (item_of f l)) mp) = Ok ps).
  { intros f' H1 H2. rewrite <- Hps. unfold maskToPortList. rewrite H1. generalize (cpuSidePorts f) as qs.
    induction qs as [|q qs IH]; [done|]. cbn [mask_ports]. unfold portToMask. by rewrite H2, IH. }
  destruct (allocates cpkt port) eqn:Hal; cbn [negb]; rewrite ?andb_false_r, ?andb_true_r.
  - set (i' := requested_item cpkt mp (item_of f l)).
    match goal with |- context [mbind _ (mbind _ ?m)] => assert (m = Ok i') as -> end.
    { destruct (item_of_spec n f g l Hs) as (Hr & Hh & Hin & Hco). specialize (Hok eq_refl).
      assert (Hsn : isSnooping port = true) by (unfold allocates, cacheable in Hal; by repeat apply andb_true_iff in Hal as [Hal ?]).
      unfold i', requested_item. destruct (needsResponse (cmd cpkt)); [destruct (cacheResponding cpkt)|]; cbn [negb].
      - rewrite (none_port f _ mp port), (Hco port Hok) by done. done.
      - rewrite (none_port f _ mp port) by done. destruct (has f (requested (item_of f l)) port) eqn:E; [|done].
        by apply Hin in E.
      - destruct Hok as [-> Hok]. cbn [assertb mbind res_bind]. rewrite (none_port f _ mp port), (Hco port Hok) by done.
        cbn. by destruct (isBlockCached cpkt). }
    cbn [mbind res_bind]. rewrite Hlist by done. cbn [mbind res_bind cachedLocations set_lookup set_cached].
    pose proof (finishRequest_ok retry cpkt i' f) as Hfin. fold l in Hfin. unfold set_cached, set_lookup in Hfin |- *.
    cbn in Hfin |- *. rewrite Hfin. cbn [mbind res_bind]. eexists _, _. split; [done|].
    destruct retry; cbn [orb].
    + destruct (finished_retry n f g l i' Hs). done.
    + split; [|done]. exact (requested_item_sound n f g cpkt port mp Hs Hp Hal Hall Hmk Hmp (Some l) (item_of f l)).
  - destruct (cachedLocations f !! l) as [i|] eqn:Hi.
    + rewrite bool_decide_true by eauto. cbn [negb]. rewrite Hlist by done. cbn [mbind res_bind].
      pose proof (finishRequest_ok retry cpkt (item_of f l) f) as Hfin. fold l in Hfin. rewrite insert_insert_eq in Hfin.
      unfold set_cached, set_lookup in Hfin |- *. cbn in Hfin |- *. rewrite Hfin. cbn [mbind res_bind].
      eexists _, _. split; [done|]. cbn [effect]. rewrite Hal. cbn [negb]. rewrite orb_true_r.
      assert (finished retry l (item_of f l) f = finished true l (item_of f l) f) as -> by (unfold finished; by destruct retry).
      destruct (finished_retry n f g l (item_of f l) Hs). done.
    + rewrite bool_decide_false by (by intros [? ?]). cbn [negb mbind res_bind]. unfold finishRequest. cbn [lookup_it set_lookup].
      eexists _, _. split; [done|]. cbn [effect]. rewrite Hal. cbn [negb]. rewrite orb_true_r. split; [by apply sound_lookup|]. split; [|done].
      intros p. split; [by intros ?%elem_of_nil|]. destruct (sound_miss n f g l Hs Hi p) as [H1 H2].
      by intros _ [?|?]%elem_of_union.
Qed.

(** *** Snoops and responses *)

Lemma sound_drop n f g l i : sound n f g → cachedLocations f !! l = Some i →
  sound n (eraseIfNullEntry l (set_cached (<[l := mkItem (requested i) 0]> (cachedLocations f)) f)) (gone l g).
Proof.
  intros Hs Hi. destruct (so_mask _ _ _ Hs l i Hi) as (Hr & _ & _). destruct (sound_item n f g l i Hs Hi) as [Hin _].
  apply (sound_erase n f g); [done|done|apply mask_ok_0| |done|].
  - intros l' p Hne. split; [done|]. by intros [_ ?]%may_gone.
  - by intros p [? _]%may_gone.
Qed.

(** Fewer copies than the filter thinks. *)
Lemma sound_fewer n f g g' : sound n f g → inflight g' = inflight g → (∀ l p, (l, p) ∈ may g' → (l, p) ∈ may g) → sound n f g'.
Proof. intros [] Hi Hc. split; rewrite ?Hi; try done. intros l p Hlp. by apply so_copy0, Hc. Qed.

Lemma sound_gone n f g l : sound n f g → sound n f (gone l g).
Proof. intros Hs. apply (sound_fewer n f g); [done|done|]. by intros l' p [_ ?]%may_gone. Qed.
Lemma taken_inflight l g : inflight (taken l g) = inflight g.
Proof. unfold taken. by destruct (awaited l g). Qed.
Lemma sound_taken n f g l : sound n f g → sound n f (taken l g).
Proof. intros Hs. apply (sound_fewer n f g); [done|apply taken_inflight|apply may_taken]. Qed.

(** No port awaits a line the item of which lists no request. *)
Lemma not_awaited n f g l i : sound n f g → cachedLocations f !! l = Some i → none (requested i) = true → awaited l g = false.
Proof.
  intros Hs Hi Hn. destruct (awaited l g) eqn:E; [|done]. apply awaited_spec in E as [p Hp].
  destruct (so_mask _ _ _ Hs l i Hi) as (Hr & _). destruct (sound_item n f g l i Hs Hi) as [Hin _].
  apply Hin in Hp. by rewrite (proj1 (none_spec f _ Hr) Hn p) in Hp.
Qed.

Lemma snoop_ok n f g cpkt : sound n f g → allowed n (Snoop cpkt) g → ¬ stops (Snoop cpkt) f g →
  ∃ ps f', exec (Snoop cpkt) f = Ok (ps, f') ∧ sound n f' (effect (Snoop cpkt) g) ∧
    ∀ p, (line_of cpkt, p) ∈ may g ∪ inflight g → p ∈ ps.
Proof.
  intros Hs (Hreq & Hcmd) Hcap. cbn [exec effect stops] in *. unfold lookupSnoop. rewrite Hreq. cbn [assertb mbind res_bind].
  set (l := line_of cpkt) in *. destruct (cachedLocations f !! l) as [i|] eqn:Hi.
  - assert (Hb : isWriteback (cmd cpkt) || req_isUncacheable (req cpkt) ||
      Bool.eqb (isInvalidate (cmd cpkt)) (needsWritable (cmd cpkt)) || req_isCacheMaintenance (req cpkt) = true).
    { destruct Hcmd as [->|[->|[->| ->]]]; rewrite ?eqb_reflx, ?orb_true_r; done. }
    rewrite Hb. cbn [assertb mbind res_bind].
    match goal with |- context [maskToPortList ?fx _] => set (f1 := fx) end.
    assert (Hs1 : sound n f1 (if isInvalidate (cmd cpkt) then taken l g else g)).
    { unfold f1. destruct (isInvalidate (cmd cpkt)); cbn [andb]; [|done]. destruct (none (requested i)) eqn:En.
      - unfold taken. rewrite (not_awaited n f g l i) by done. by apply sound_drop.
      - by apply sound_taken. }
    assert (Hloc : localResponsePortIds f1 = localResponsePortIds f).
    { unfold f1, eraseIfNullEntry. cbn. rewrite lookup_insert_eq. by destruct (_ && _); [destruct (none _)|]. }
    destruct (so_mask _ _ _ Hs l i Hi) as (Hr & Hh & _). destruct (sound_item n f g l i Hs Hi) as [Hin Hco].
    destruct (maskToPortList_ok n f1 (so_ports _ _ _ Hs1) (interested i)) as (ps & -> & Hps).
    { unfold mask_ok. rewrite Hloc. by apply mask_ok_lor. }
    cbn [mbind res_bind]. eexists _, _. split; [done|]. split; [done|]. intros p Hlp. apply Hps. unfold interested.
    rewrite has_lor. assert (Hhas : ∀ m, has f1 m p = has f m p) by (intros; unfold has; by rewrite Hloc).
    rewrite !Hhas. apply elem_of_union in Hlp as [Hlp|Hlp]; [by rewrite (Hco p Hlp)|].
    rewrite (proj1 (Hin p) Hlp). apply orb_true_r.
  - rewrite (proj2 (Nat.leb_gt _ _)) by (apply Nat.lt_nge; intros Hge; by apply Hcap). cbn [panic_if mbind res_bind].
    eexists _, _. split; [done|]. split.
    + destruct (isInvalidate (cmd cpkt)); [|done]. by apply sound_taken.
    + intros p. destruct (sound_miss n f g l Hs Hi p). by intros [?|?]%elem_of_union.
Qed.

Lemma response_not_writeback c : isResponse c = true → isWriteback c = false.
Proof. by destruct c; vm_compute. Qed.

Lemma sharers_inflight (b : bool) l g : inflight (if b then g else gone l g) = inflight g.
Proof. by destruct b. Qed.

Lemma snoop_response_ok n f g cpkt rsp req : sound n f g → allowed n (SnoopResponse cpkt rsp req) g →
  ∃ f', updateSnoopResponse cpkt rsp req f = Ok f' ∧ sound n f' (effect (SnoopResponse cpkt rsp req) g).
Proof.
  intros Hs (Hresp & Hcr & Hrsp & Hrq & Hok). unfold updateSnoopResponse. cbn [effect]. rewrite Hresp, Hcr.
  cbn [assertb mbind res_bind]. unfold cacheable in *. set (l := line_of cpkt) in *.
  destruct (req_isUncacheable (Pkt.req cpkt)); cbn [negb andb orb] in *.
  { eexists. split; [done|]. destruct (hasSharers cpkt); [done|by apply sound_gone]. }
  destruct (isSnooping req) eqn:Hsn; cbn [negb andb orb] in *.
  2: { eexists. split; [done|]. destruct (hasSharers cpkt); [done|by apply sound_gone]. }
  destruct (Hok eq_refl) as ((i & Hi & Hhold)%(so_copy _ _ _ Hs) & Hreq).
  destruct (portToMask_ok n f (so_ports _ _ _ Hs) rsp Hrsp) as (m1 & -> & Hm1 & Hp1).
  destruct (portToMask_ok n f (so_ports _ _ _ Hs) req Hrq) as (m2 & -> & Hm2 & Hp2). cbn [mbind res_bind].
  change (default SnoopItem_new (cachedLocations f !! l)) with (item_of f l). unfold item_of. rewrite Hi.
  change (default SnoopItem_new (Some i)) with i.
  destruct (so_mask _ _ _ Hs l i Hi) as (Hr & Hh & _). destruct (sound_item n f g l i Hs Hi) as [Hin Hco].
  rewrite (none_port f _ m1 rsp), (none_port f _ m2 req), Hhold, (proj1 (Hin req) Hreq), response_not_writeback;
    [|done|done|done|done|done|done|by eapply has_snooping; [apply Hs|exact Hhold]].
  cbn [negb panic_if assertb mbind res_bind requested holder]. rewrite Hsn in Hp2.
  set (h := if negb (hasSharers cpkt) then 0 else holder i).
  assert (Hhm : mask_ok f h) by (unfold h; destruct (hasSharers cpkt); [done|apply mask_ok_0]).
  assert (Hne : none (Z.lor (Z.ldiff (requested i) m2) (Z.lor h m2)) = false).
  { apply not_true_is_false. intros Hn. apply (proj1 (none_spec f _ (mask_ok_lor f _ _ (mask_ok_ldiff f _ _ Hr) (mask_ok_lor f _ _ Hhm Hm2)))) with (p := req) in Hn.
    rewrite !has_lor, Hp2, bool_decide_true, !orb_true_r in Hn by done. done. }
  rewrite Hne. cbn [negb assertb mbind res_bind]. eexists. split; [done|].
  apply (sound_set n f g); cbn [requested holder inflight]; try done.
  - by apply mask_ok_ldiff.
  - by apply mask_ok_lor.
  - intros l' p Hne'. split; [destruct (hasSharers cpkt); set_solver|]. intros [[= ??]|Hc]%may_plus; [done|].
    destruct (hasSharers cpkt); [done|]. by apply may_gone in Hc as [_ ?].
  - intros p. rewrite sharers_inflight, has_ldiff, Hp2, andb_true_r, elem_of_difference, elem_of_singleton, Hin, andb_true_iff, negb_true_iff, bool_decide_eq_false.
    split; (intros [? Hn]; split; [done|]); [by intros ->; apply Hn|]. by intros [= ->].
  - intros p. rewrite has_lor, Hp2, andb_true_r. intros [[= ->]|Hc]%may_plus.
    + by rewrite bool_decide_true, orb_true_r.
    + unfold h. destruct (hasSharers cpkt); cbn [negb]; [by rewrite (Hco p Hc)|]. by apply may_gone in Hc as [? _].
Qed.

Lemma snoop_forward_ok n f g cpkt : sound n f g → allowed n (SnoopForward cpkt) g →
  ∃ f', updateSnoopForward cpkt f = Ok f' ∧ sound n f' (effect (SnoopForward cpkt) g).
Proof.
  intros Hs (Hresp & Hcr). unfold updateSnoopForward. cbn [effect]. rewrite Hresp, Hcr. cbn [assertb mbind res_bind].
  destruct (cachedLocations f !! line_of cpkt) as [i|] eqn:Hi.
  - destruct (hasSharers cpkt); cbn [negb]; eexists; (split; [done|]); [done|]. by apply sound_drop.
  - eexists. split; [done|]. destruct (hasSharers cpkt); [done|by apply sound_gone].
Qed.

Lemma response_ok n f g cpkt port : sound n f g → allowed n (Response cpkt port) g → ¬ stops (Response cpkt port) f g →
  ∃ f', updateResponse cpkt port f = Ok f' ∧ sound n f' (effect (Response cpkt port) g).
Proof.
  intros Hs (Hresp & Hp) Hok. unfold updateResponse. cbn [effect stops] in *. rewrite Hresp. cbn [assertb mbind res_bind].
  unfold cacheable in *. set (l := line_of cpkt) in *.
  destruct (req_isUncacheable (req cpkt)); cbn [negb andb orb] in *; [rewrite andb_false_r; by eexists|].
  destruct (isSnooping port) eqn:Hsn; cbn [negb] in *; [rewrite andb_true_r|rewrite andb_false_r; by eexists].
  destruct (cachedLocations f !! l) as [i|] eqn:Hi.
  2: { rewrite bool_decide_false; [by eexists|]. by apply (sound_miss n f g l). }
  destruct (decide ((l, port) ∈ inflight g)) as [Hreq|Hreq]; [|destruct Hok; eauto]. rewrite bool_decide_true by done.
  destruct (portToMask_ok n f (so_ports _ _ _ Hs) port Hp) as (m & -> & Hm & Hpm). cbn [mbind res_bind].
  destruct (so_mask _ _ _ Hs l i Hi) as (Hr & Hh & _). destruct (sound_item n f g l i Hs Hi) as [Hin Hco].
  rewrite (none_port f _ m port), (proj1 (Hin port) Hreq) by done. cbn [negb panic_if mbind res_bind]. rewrite Hsn in Hpm.
  assert (Hreqs : ∀ p, (l, p) ∈ inflight g ∖ {[(l, port)]} ↔ has f (Z.ldiff (requested i) m) p = true).
  { intros p. rewrite has_ldiff, Hpm, andb_true_r, elem_of_difference, elem_of_singleton, Hin, andb_true_iff, negb_true_iff, bool_decide_eq_false.
    split; (intros [? Hn]; split; [done|]); [by intros ->; apply Hn|]. by intros [= ->]. }
  destruct (req_isCacheMaintenance (req cpkt)).
  - eexists. split; [done|]. apply (sound_erase n f g); cbn [requested holder inflight]; [done|by apply mask_ok_ldiff| | |done|].
    + destruct (isInvalidate (cmd cpkt)); [by apply mask_ok_ldiff|done].
    + intros l' p Hne. split; [set_solver|]. rewrite may_minus. tauto.
    + intros p. rewrite may_minus. intros [Hc Hne]. destruct (isInvalidate (cmd cpkt)); [|by apply Hco].
      rewrite elem_of_singleton in Hne. rewrite has_ldiff, Hpm, (Hco p Hc), bool_decide_false; [done|]. intros ->. by apply Hne.
  - assert (Hne : none (Z.lor (Z.ldiff (requested i) m) (Z.lor (holder i) m)) = false).
    { apply not_true_is_false. intros Hn. apply (proj1 (none_spec f _ (mask_ok_lor f _ _ (mask_ok_ldiff f _ _ Hr) (mask_ok_lor f _ _ Hh Hm)))) with (p := port) in Hn.
      rewrite !has_lor, Hpm, bool_decide_true, !orb_true_r in Hn by done. done. }
    rewrite (Z.lor_comm (Z.lor _ _)), Hne. cbn [negb assertb mbind res_bind]. eexists. split; [done|].
    apply (sound_set n f g); cbn [requested holder inflight]; [done|by apply mask_ok_ldiff|by apply mask_ok_lor|done| |done|].
    + intros l' p Hne'. split; [set_solver|]. by intros [[= ??]|?]%may_plus.
    + intros p. rewrite has_lor, Hpm, andb_true_r. intros [[= ->]|Hc]%may_plus.
      * by rewrite bool_decide_true, orb_true_r.
      * by rewrite (Hco p Hc).
Qed.

(** ** Runs *)

Definition step (n : nat) (s s' : SnoopFilter * Ghost) : Prop :=
  ∃ op ps, allowed n op s.2 ∧ exec op s.1 = Ok (ps, s'.1) ∧ s'.2 = effect op s.2.

Definition no_copies : Ghost := mkGhost ∅ ∅ ∅.

Definition reachable (n : nat) (f : SnoopFilter) (g : Ghost) : Prop :=
  ∃ f0, setCPUSidePorts n SnoopFilter_new = Ok f0 ∧ rtc (step n) (f0, no_copies) (f, g).

(** What the ports listed by a call have to be. *)
Definition shown (op : Op) (g : Ghost) (ps : list nat) : Prop :=
  match op with
  | Request cpkt port _ => shown_request g (line_of cpkt) port ps
  | Snoop cpkt => ∀ p, (line_of cpkt, p) ∈ may g ∪ inflight g → p ∈ ps
  | _ => ps = []
  end.

Lemma stops_fail n f g op : sound n f g → allowed n op g → stops op f g → exec op f = Err PanicFail.
Proof.
  intros Hs Hok Hst. destruct op as [| cpkt | | | cpkt port]; try done; cbn [exec stops allowed] in *.
  - destruct Hst as [Hi Hle], Hok as [Hr _]. unfold lookupSnoop. rewrite Hr. cbn [assertb mbind res_bind]. rewrite Hi.
    by rewrite (proj2 (Nat.leb_le _ _)) by done.
  - destruct Hst as (Hc & [i Hi] & Hn), Hok as [Hr Hp]. unfold updateResponse. rewrite Hr. cbn [assertb mbind res_bind].
    unfold cacheable in Hc. apply andb_true_iff in Hc as [Hu%negb_true_iff Hsn]. rewrite Hu, Hsn. cbn [negb orb]. rewrite Hi.
    destruct (portToMask_ok n f (so_ports _ _ _ Hs) port Hp) as (m & -> & Hm & Hpm). cbn [mbind res_bind].
    destruct (so_mask _ _ _ Hs _ i Hi) as (Hrq & _). destruct (sound_item n f g _ i Hs Hi) as [Hin _].
    rewrite (none_port f _ m port) by done. destruct (has f (requested i) port) eqn:E; [|done]. by apply Hin in E.
Qed.

Lemma sf_exec_ok n f g op : sound n f g → allowed n op g → ¬ stops op f g →
  ∃ ps f', exec op f = Ok (ps, f') ∧ sound n f' (effect op g) ∧ shown op g ps.
Proof.
  intros Hs Hok Hns. destruct op as [cpkt port retry|cpkt|cpkt rsp rq|cpkt|cpkt port].
  - destruct (request_ok n f g cpkt port retry Hs Hok) as (ps & f' & ? & ? & ? & _). eauto.
  - destruct (snoop_ok n f g cpkt Hs Hok Hns) as (ps & f' & ? & ? & ?). eauto.
  - destruct (snoop_response_ok n f g cpkt rsp rq Hs Hok) as (f' & H & ?). cbn [exec]. rewrite H. by eexists _, _.
  - destruct (snoop_forward_ok n f g cpkt Hs Hok) as (f' & H & ?). cbn [exec]. rewrite H. by eexists _, _.
  - destruct (response_ok n f g cpkt port Hs Hok Hns) as (f' & H & ?). cbn [exec]. rewrite H. by eexists _, _.
Qed.

Lemma reachable_sound n f g : (length (filter (λ p, isSnooping p = true) (seq 0 n)) ≤ SNOOP_MASK_SIZE)%nat →
  reachable n f g → sound n f g.
Proof.
  intros Hn (f0 & Hf0 & Hrun). destruct (setCPUSidePorts_ok n Hn) as (f1 & Hf1 & Hp & He).
  rewrite Hf0 in Hf1. injection Hf1 as <-.
  assert (Hs : sound n f0 (no_copies)).
  { split; [done| | |]; unfold held; rewrite He.
    - intros l i. by rewrite lookup_empty.
    - intros l p. cbn. split; [by intros ?%elem_of_empty|]. intros (i & Hi & _). by rewrite lookup_empty in Hi.
    - intros l p. by intros ?%elem_of_empty. }
  clear Hf0 Hp He. change (sound n (f, g).1 (f, g).2). change (sound n (f0, no_copies).1 (f0, no_copies).2) in Hs.
  revert Hs. generalize dependent (f0, no_copies). generalize dependent (f, g). intros s2 s1 Hrun Hs.
  induction Hrun as [s|[f1 g1] [f2 g2] s3 (op & ps & Hok & Hex & Hg) _ IH]; [done|]. apply IH. cbn in *. subst g2.
  destruct (sf_exec_ok n f1 g1 op Hs Hok) as (ps' & f' & Hex' & Hs' & _).
  { intros Hst. rewrite (stops_fail n f1 g1 op Hs Hok Hst) in Hex. done. }
  rewrite Hex in Hex'. by injection Hex' as <- <-.
Qed.
End SnoopFilter.

(** ** Theorems *)

(** C14: the snoop filter hides no copy.  Take up to 256 snooping ports and any run
    in which the caches follow their protocol: at most one tracked request per
    port and line in flight, evictions and answers only for lines a port has or
    still owes, answers only to ports that await the line, and invalidating snoops
    that ask for a writable copy (or are writebacks, uncacheable or maintenance).
    Then a further call is handled, a request is shown to every other port that
    has, owes or awaits the line and not to the snooping port it came from, and a
    snoop from below to all of them, except for two calls, on which the filter
    always panics: a snoop of a line it does not track while it lists as many
    lines as its capacity, and a cacheable response for a tracked line to a
    snooping port whose request it did not record.  No line is listed without a
    port. *)
Theorem snoop_filter_sound linesize maxEntryCount isSnooping n f g :
  (length (filter (λ p, isSnooping p = true) (seq 0 n)) ≤ SNOOP_MASK_SIZE)%nat →
  reachable linesize maxEntryCount isSnooping n f g →
  (∀ op, allowed linesize isSnooping n op g →
     (¬ stops linesize maxEntryCount isSnooping op f g →
      ∃ ps f', exec linesize maxEntryCount isSnooping op f = Ok (ps, f') ∧ shown linesize isSnooping op g ps) ∧
     (stops linesize maxEntryCount isSnooping op f g → exec linesize maxEntryCount isSnooping op f = Err PanicFail)) ∧
  ∀ l i, cachedLocations f !! l = Some i → none (Z.lor (requested i) (holder i)) = false.
Proof.
  intros Hn Hr. apply reachable_sound in Hr as Hs; [|done]. split.
  - intros op Hok. split; [|by apply (stops_fail _ _ _ n)]. intros Hns.
    destruct (sf_exec_ok _ _ _ n f g op Hs Hok Hns) as (ps & f' & ? & _ & ?). by exists ps, f'.
  - intros l i Hi. by destruct (so_mask _ _ _ _ Hs l i Hi) as (_ & _ & ?).
Qed.

(** A request that has to be tried again leaves no trace in the filter: the
    items it made or changed are as they were. *)
Theorem snoop_retry_restores linesize maxEntryCount isSnooping n f g cpkt port :
  (length (filter (λ p, isSnooping p = true) (seq 0 n)) ≤ SNOOP_MASK_SIZE)%nat →
  reachable linesize maxEntryCount isSnooping n f g →
  allowed linesize isSnooping n (Request cpkt port true) g →
  ∃ ps f', exec linesize maxEntryCount isSnooping (Request cpkt port true) f = Ok (ps, f') ∧
    cachedLocations f' = cachedLocations f.
Proof.
  intros Hn Hr Hok. apply reachable_sound in Hr as Hs; [|done].
  destruct (request_ok _ maxEntryCount _ n f g cpkt port true Hs Hok) as (ps & f' & ? & _ & _ & H). exists ps, f'. auto.
Qed.

(** ** Witnesses *)

Definition both (p : nat) : bool := true.
Definition line_req (c : Command) (a : Z) : Packet := Packet_new (mkRequest a 64 0 (Some 0) None [] None) c.
Definition line_resp (c : Command) (a : Z) : Packet := line_req (responseCommand c) a.

Definition sf_ok {A} (r : res (A * SnoopFilter)) (f : SnoopFilter) : SnoopFilter := match r with Ok (_, f') => f' | Err _ => f end.
Definition sf0 : SnoopFilter := match setCPUSidePorts both 2 SnoopFilter_new with Ok f => f | Err _ => SnoopFilter_new end.

(** Port 0 reads a line and has it. *)
Definition sf1 : SnoopFilter := sf_ok (exec 64 16 both (Request (line_req ReadSharedReq 0x1000) 0 false) sf0) sf0.
Definition sf2 : SnoopFilter := sf_ok (exec 64 16 both (Response (line_resp ReadSharedReq 0x1000) 0) sf1) sf1.
Definition ghost2 : Ghost :=
  effect 64 both (Response (line_resp ReadSharedReq 0x1000) 0)
    (effect 64 both (Request (line_req ReadSharedReq 0x1000) 0 false) (no_copies)).

Lemma sf2_reachable : reachable 64 16 both 2 sf2 ghost2.
Proof.
  exists sf0. split; [reflexivity|].
  eapply (rtc_l _ _ (sf1, _)); [exists (Request (line_req ReadSharedReq 0x1000) 0 false), []; split; [|split; [vm_compute; reflexivity|reflexivity]]|].
  { split; [lia|]. intros _. cbn. by intros ?%elem_of_empty. }
  eapply (rtc_l _ _ (sf2, ghost2)); [exists (Response (line_resp ReadSharedReq 0x1000) 0), []; split; [|split; [vm_compute; reflexivity|reflexivity]]|].
  { split; [reflexivity|]. lia. }
  apply rtc_refl.
Qed.

Lemma snoop_filter_sound_witness :
  (∀ op, allowed 64 both 2 op ghost2 →
     (¬ stops 64 16 both op sf2 ghost2 →
      ∃ ps f', exec 64 16 both op sf2 = Ok (ps, f') ∧ shown 64 both op ghost2 ps) ∧
     (stops 64 16 both op sf2 ghost2 → exec 64 16 both op sf2 = Err PanicFail)) ∧
  ∀ l i, cachedLocations sf2 !! l = Some i → none (Z.lor (requested i) (holder i)) = false.
Proof. apply (snoop_filter_sound 64 16 both 2 sf2 ghost2); [vm_compute; lia|apply sf2_reachable]. Defined.

Lemma snoop_retry_restores_witness :
  ∃ ps f', exec 64 16 both (Request (line_req ReadExReq 0x2000) 1 true) sf2 = Ok (ps, f') ∧
    cachedLocations f' = cachedLocations sf2.
Proof.
  apply (snoop_retry_restores 64 16 both 2 sf2 ghost2); [vm_compute; lia|apply sf2_reachable|].
  split; [lia|]. intros _. apply (bool_decide_unpack _). vm_compute. exact I.
Defined.

(** The two cases of [stops] in a correct system.  A snooping port
    whose device has no cache (its [ReadReq] is not tracked) is shown a line
    another port holds, and the response it gets makes [updateResponse] panic
    over the missing request; and the capacity is checked where a snoop misses,
    which adds no entry, but not where a request adds one: a filter for one line
    takes a second and then panics on a snoop that concerns neither. *)
Theorem snoop_filter_panics :
  (∃ f3, exec 64 16 both (Request (line_req ReadReq 0x1000) 1 false) sf2 = Ok ([0%nat], f3) ∧
     exec 64 16 both (Response (line_resp ReadReq 0x1000) 1) f3 = Err PanicFail) ∧
  (∃ f3 ps, exec 64 1 both (Request (line_req ReadSharedReq 0x2000) 1 false) sf2 = Ok (ps, f3) ∧
     base.size (cachedLocations f3) = 2%nat ∧
     exec 64 1 both (Snoop (line_req ReadSharedReq 0x3000)) f3 = Err PanicFail).
Proof.
  split; [eexists|eexists _, _]; repeat split; vm_compute; reflexivity.
Qed.

End SF.
