(* ===== verification/XBarLayer.v ===== *)
(** * The layers of a crossbar ([mem/xbar.hh], [mem/xbar.cc])

    A layer is the arbitration point in front of one destination port: it is
    busy while a packet passes, makes the other source ports wait in line, and
    tells them one by one to try again.  Source ports are numbers.  The retry
    of a port calls back into the crossbar, so the operations that send one
    are written over the state of whoever owns the layer. *)

From S2P Require Import Prelude.
From S2P Require Import Clocked.
From S2P Require Import MemCmd.
From S2P Require Import Packet.
From S2P Require Import PacketQueue.

Module Lay.
Import PQ.

(** ** Definitions *)

Inductive State := IDLE | BUSY | RETRY.

#[export] Instance State_eq_dec : EqDecision State.
Proof. solve_decision. Defined.

Record Layer := mkLayer {
  state : State;
  waitingForLayer : list nat;
  waitingForPeer : option nat;
  (** The time [releaseEvent] is scheduled for. *)
  releaseEvent : option Z;
  layerDrain : DrainState;
}.

Definition Layer_new : Layer := mkLayer IDLE [] None None Running.

Definition set_state (x : State) (l : Layer) : Layer :=
  mkLayer x (waitingForLayer l) (waitingForPeer l) (releaseEvent l) (layerDrain l).
Definition set_line (w : list nat) (l : Layer) : Layer :=
  mkLayer (state l) w (waitingForPeer l) (releaseEvent l) (layerDrain l).
Definition set_peer (p : option nat) (l : Layer) : Layer :=
  mkLayer (state l) (waitingForLayer l) p (releaseEvent l) (layerDrain l).
Definition set_release (e : option Z) (l : Layer) : Layer :=
  mkLayer (state l) (waitingForLayer l) (waitingForPeer l) e (layerDrain l).
Definition set_layer_drain (d : DrainState) (l : Layer) : Layer :=
  mkLayer (state l) (waitingForLayer l) (waitingForPeer l) (releaseEvent l) d.

Definition occupyLayer (now until : Z) (l : Layer) : res Layer :=
  assertb (bool_decide (state l = BUSY));;
  assertb (negb (until =? 0));;
  (* schedule *)
  assertb (now <=? until);;
  assertb (bool_decide (releaseEvent l = None));;
  Ok (set_release (Some until) l).

Definition tryTiming (src : nat) (l : Layer) : res (bool * Layer) :=
  if bool_decide (state l = BUSY) || bool_decide (waitingForPeer l ≠ None) then
    assertb (bool_decide (src ∉ waitingForLayer l));;
    Ok (false, set_line (waitingForLayer l ++ [src]) l)
  else Ok (true, set_state BUSY l).

Definition succeededTiming (now busy_time : Z) (l : Layer) : res Layer :=
  assertb (bool_decide (state l = BUSY));; occupyLayer now busy_time l.

Definition failedTiming (now : Z) (src : nat) (busy_time : Z) (l : Layer) : res Layer :=
  assertb (bool_decide (waitingForPeer l = None));;
  let l := set_peer (Some src) l in
  assertb (bool_decide (state l = BUSY));; occupyLayer now busy_time l.

Definition layer_signalDrainDone (l : Layer) : Layer :=
  if bool_decide (layerDrain l = Draining) then set_layer_drain Drained l else l.

(** [drain], called by [dmDrain], which records the state returned. *)
Definition layer_drain (l : Layer) : Layer :=
  set_layer_drain (if bool_decide (state l ≠ IDLE) then Draining else Drained) l.

(** The owner of the layer: how it is reached, and what the retry of a port
    makes the owner do before it returns. *)
Section Owner.
Context (clockPeriod : Z) {S : Type} (get : S → res Layer) (put : Layer → S → S).
Context (sendRetry : nat → S → res S).

Definition retryWaiting (now : Z) (s : S) : res S :=
  l ← get s;
  assertb (bool_decide (waitingForLayer l ≠ []));;
  assertb (bool_decide (state l = IDLE));;
  match waitingForLayer l with
  | [] => Err Undef
  | retryingPort :: w =>
      s ← sendRetry retryingPort (put (set_line w (set_state RETRY l)) s);
      l ← get s;
      if bool_decide (state l = RETRY) then
        l ← occupyLayer now (Clk.edge clockPeriod now 0) (set_state BUSY l); Ok (put l s)
      else Ok s
  end.

(** [releaseLayer], run by its event, which is no longer scheduled then. *)
Definition releaseLayer (now : Z) (s : S) : res S :=
  l ← get s;
  assertb (bool_decide (state l = BUSY));;
  assertb (bool_decide (releaseEvent l = None));;
  let l := set_state IDLE l in
  let s := put l s in
  if bool_decide (waitingForLayer l ≠ []) then
    if bool_decide (waitingForPeer l = None) then retryWaiting now s else Ok s
  else if bool_decide (waitingForPeer l = None) && bool_decide (layerDrain l = Draining)
  then Ok (put (layer_signalDrainDone l) s)
  else Ok s.

Definition recvRetry (now : Z) (s : S) : res S :=
  l ← get s;
  match waitingForPeer l with
  | None => Err AssertFail
  | Some p =>
      let l := set_peer None (set_line (p :: waitingForLayer l) l) in
      let s := put l s in
      if bool_decide (state l = IDLE) then retryWaiting now s
      else assertb (bool_decide (state l = BUSY));; Ok s
  end.
End Owner.

(** ** Invariant *)

(** Who waits, in the order they are told to try again. *)
Definition line (l : Layer) : list nat :=
  match waitingForPeer l with Some p => p :: waitingForLayer l | None => waitingForLayer l end.

(** Between two calls a layer is idle or has its release pending, and nobody
    waits for an idle layer unless for its peer. *)
Definition layer_inv (now : Z) (l : Layer) : Prop :=
  NoDup (line l) ∧
  match state l with
  | IDLE => releaseEvent l = None ∧ (waitingForPeer l = None → waitingForLayer l = [])
  | BUSY => ∃ t, releaseEvent l = Some t ∧ now ≤ t
  | RETRY => False
  end.

(** While a port is being retried. *)
Definition retrying (l : Layer) : Prop :=
  NoDup (line l) ∧ state l = RETRY ∧ releaseEvent l = None ∧ waitingForPeer l = None.

(** How the line moves: nobody is overtaken, and only the first leaves. *)
Definition moves (w w' : list nat) : Prop :=
  (∃ new, w' = w ++ new) ∨ ∃ h t new, w = h :: t ∧ (w' = t ++ new ∨ w' = h :: t ++ new).

Lemma layer_inv_later now t l : layer_inv now l → (∀ e, releaseEvent l = Some e → t ≤ e) → layer_inv t l.
Proof.
  intros [Hn Hs] Ht. split; [done|]. destruct (state l); try done.
  destruct Hs as (e & He & _). exists e. split; [done|]. by apply Ht.
Qed.

Lemma occupyLayer_ok now until l : state l = BUSY → now ≤ until → until ≠ 0 → releaseEvent l = None →
  occupyLayer now until l = Ok (set_release (Some until) l).
Proof.
  intros Hs Hu H0 He. unfold occupyLayer. rewrite !bool_decide_true by done.
  rewrite (proj2 (Z.eqb_neq _ _)), (proj2 (Z.leb_le _ _)) by done. done.
Qed.

(** A port that is not in line is let through or put at its end. *)
Lemma tryTiming_ok now l src : layer_inv now l ∨ retrying l → src ∉ line l →
  ∃ b l', tryTiming src l = Ok (b, l') ∧ layerDrain l' = layerDrain l ∧
    if b then state l' = BUSY ∧ releaseEvent l' = None ∧ waitingForPeer l' = None ∧
              line l' = line l ∧ NoDup (line l) ∧ (state l = IDLE → line l = []) ∧ state l ≠ BUSY
    else layer_inv now l' ∧ line l' = line l ++ [src] ∧ layer_inv now l ∧
         (state l = BUSY ∨ waitingForPeer l ≠ None).
Proof.
  intros Hl Hsrc. unfold tryTiming.
  assert (Hnew : NoDup (line l) → NoDup (line l ++ [src])).
  { intros Hn. apply NoDup_app. split; [done|]. split; [|apply NoDup_singleton].
    by intros x Hx ->%list_elem_of_singleton. }
  destruct (bool_decide (state l = BUSY) || bool_decide (waitingForPeer l ≠ None)) eqn:Hb.
  - rewrite bool_decide_true; [|intros Hin; apply Hsrc; unfold line; destruct (waitingForPeer l); [by right|done]].
    cbn [assertb mbind res_bind]. eexists _, _. split; [done|]. split; [done|].
    assert (Hst : state l = BUSY ∨ waitingForPeer l ≠ None).
    { apply orb_true_iff in Hb as [Hb|Hb]; apply bool_decide_eq_true in Hb; auto. }
    destruct Hl as [Hl|(_ & Hs & _ & Hp)]; [|by destruct Hst; congruence].
    assert (Hline : line (set_line (waitingForLayer l ++ [src]) l) = line l ++ [src])
      by (unfold line, set_line; cbn [waitingForPeer waitingForLayer]; by destruct (waitingForPeer l)).
    split; [|done]. destruct Hl as [Hn Hs]. split; [rewrite Hline; auto|]. cbn [state set_line releaseEvent waitingForPeer].
    destruct (state l) eqn:E; try done. destruct Hs as [He Hw]. split; [done|]. by destruct Hst as [?|?].
  - apply orb_false_iff in Hb as [Hb1%bool_decide_eq_false Hb2%bool_decide_eq_false].
    apply dec_stable in Hb2. eexists _, _. split; [done|]. split; [done|]. cbn [state set_state releaseEvent waitingForPeer].
    split; [done|]. destruct Hl as [[Hn Hs]|(Hn & Hs & He & _)].
    + destruct (state l) eqn:E; try done. destruct Hs as [He Hw]. split; [done|]. split; [done|]. split; [done|].
      split; [done|]. split; [|done]. intros _. unfold line. rewrite Hb2. auto.
    + rewrite He. split; [done|]. split; [done|]. split; [done|]. split; [done|]. split; [|done]. by rewrite Hs.
Qed.

Lemma succeeded_inv now until l : state l = BUSY → releaseEvent l = None → now ≤ until → until ≠ 0 →
  NoDup (line l) →
  ∃ l', succeededTiming now until l = Ok l' ∧ layer_inv now l' ∧ line l' = line l ∧ state l' = BUSY ∧
    waitingForPeer l' = waitingForPeer l ∧ layerDrain l' = layerDrain l.
Proof.
  intros Hs He Hu H0 Hn. unfold succeededTiming. rewrite occupyLayer_ok, bool_decide_true by done.
  eexists. split; [done|]. split; [|done]. split; [done|]. cbn [state set_release releaseEvent]. rewrite Hs.
  by exists until.
Qed.

Lemma failed_inv now until l src : state l = BUSY → releaseEvent l = None → waitingForPeer l = None →
  now ≤ until → until ≠ 0 → NoDup (line l) → src ∉ line l →
  ∃ l', failedTiming now src until l = Ok l' ∧ layer_inv now l' ∧ line l' = src :: line l ∧ state l' = BUSY ∧
    waitingForPeer l' = Some src ∧ layerDrain l' = layerDrain l.
Proof.
  intros Hs He Hp Hu H0 Hn Hsrc. unfold failedTiming. rewrite occupyLayer_ok, !bool_decide_true by done.
  eexists. split; [done|]. assert (Hl : line (set_peer (Some src) l) = src :: line l).
  { unfold line. rewrite Hp. done. }
  split; [|split; [by rewrite <- Hl|done]]. split.
  - change (NoDup (line (set_peer (Some src) l))). rewrite Hl. by apply NoDup_cons.
  - cbn [state set_release set_peer releaseEvent]. rewrite Hs. by exists until.
Qed.

(** *** Sending a retry *)

Section OwnerLemmas.
Context (clockPeriod : Z) {S : Type} (get : S → res Layer) (put : Layer → S → S).
Context (sendRetry : nat → S → res S).

(** The layer while its first waiting port is told to try again. *)
Definition retry_layer (w : list nat) (l : Layer) : Layer := set_line w (set_state RETRY l).

Lemma retry_layer_retrying l h w : NoDup (line l) → releaseEvent l = None → waitingForPeer l = None →
  waitingForLayer l = h :: w → retrying (retry_layer w l) ∧ line (retry_layer w l) = w ∧ line l = h :: w ∧ h ∉ w.
Proof.
  intros Hn He Hp Hw. unfold line in *. rewrite Hp, Hw in *. apply NoDup_cons in Hn as [Hh Hn].
  unfold retrying, line, retry_layer. cbn. rewrite Hp. done.
Qed.

(** If the port does not come back at once, the layer is busy up to the next
    clock edge. *)
Lemma retryWaiting_ok now s l h w s1 l1 : 0 < clockPeriod → 0 < now →
  get s = Ok l → state l = IDLE → waitingForLayer l = h :: w →
  sendRetry h (put (retry_layer w l) s) = Ok s1 → get s1 = Ok l1 →
  layer_inv now l1 ∨ retrying l1 →
  ∃ s', retryWaiting clockPeriod get put sendRetry now s = Ok s' ∧
    (layer_inv now l1 ∧ s' = s1 ∨
     retrying l1 ∧ ∃ l2, s' = put l2 s1 ∧ layer_inv now l2 ∧ line l2 = line l1 ∧ state l2 = BUSY).
Proof.
  intros Hp Hnow Hg Hs Hw Hsend Hg1 Hl1. unfold retryWaiting. rewrite Hg. cbn [mbind res_bind].
  rewrite Hw, !bool_decide_true by done. cbn [assertb mbind res_bind]. fold (retry_layer w l). rewrite Hsend.
  cbn [mbind res_bind]. rewrite Hg1. cbn [mbind res_bind]. destruct Hl1 as [Hi|Hr].
  - rewrite bool_decide_false by (destruct Hi as [_ Hi]; by destruct (state l1)). exists s1. auto.
  - destruct Hr as (Hn & Hst & He & Hpe). rewrite bool_decide_true by done.
    pose proof (Clk.edge_bounds clockPeriod now 0 Hp ltac:(lia)).
    rewrite occupyLayer_ok by (done || lia). cbn [mbind res_bind]. eexists. split; [done|]. right.
    split; [done|]. eexists. split; [done|]. split; [|done]. split; [done|]. cbn. eexists. split; [done|]. lia.
Qed.
End OwnerLemmas.

End Lay.
