(* ===== verification/XBar.v ===== *)
(** * Crossbars ([mem/xbar.cc], [mem/noncoherent_xbar.cc])

    The crossbar decodes the address of a request to a memory-side port, lets
    it through the layer of that port, and remembers the CPU-side port its
    response has to go to.  Requests are known by the identity of their
    [Request] object, here a number.  What a peer does when it is offered a
    packet or told to try again is an argument of the operation: a memory-side
    peer takes a request or refuses it, and does not call the crossbar while it
    decides.  Statistics are left out. *)

From S2P Require Import Prelude.
From S2P Require Import Intmath.
From S2P Require Import Clocked.
From S2P Require Import AddrRange.
From S2P Require Import AddrRangeMap.
From S2P Require Import MemCmd.
From S2P Require Import Packet.
From S2P Require Import PacketQueue.
From S2P Require Import XBarLayer.

Module XBar.
Import MemCmd Pkt PQ Lay.

(** ** State *)

(** A packet on its way: its request object and its delays. *)
Record TPacket := mkTP {
  tp : Packet;
  reqp : nat;
  headerDelay : Z;
  payloadDelay : Z;
}.

(** The parameters; [InvalidPortID] is [None]. *)
Record Config := mkConfig {
  clockPeriod : Z;
  frontendLatency : Z;
  forwardLatency : Z;
  responseLatency : Z;
  width : Z;
  (** Ticks per microsecond. *)
  us : Z;
  useDefaultRange : bool;
  defaultPortID : option nat;
  (** Number of ports of each side, the default port included. *)
  nMem : nat;
  nCpu : nat;
}.

Record XBar := mkXBar {
  reqLayers : list Layer;
  respLayers : list Layer;
  routeTo : gmap nat nat;
  portMap : RangeMap nat;
  gotAddrRanges : list bool;
  gotAllAddrRanges : bool;
  defaultRange : AddrRange;
  xbarRanges : list AddrRange;
  (** The response queues of the CPU-side ports. *)
  cpuSidePorts : list PacketQueue;
}.

Definition set_reqLayers (l : list Layer) (x : XBar) : XBar :=
  mkXBar l (respLayers x) (routeTo x) (portMap x) (gotAddrRanges x) (gotAllAddrRanges x)
    (defaultRange x) (xbarRanges x) (cpuSidePorts x).
Definition set_respLayers (l : list Layer) (x : XBar) : XBar :=
  mkXBar (reqLayers x) l (routeTo x) (portMap x) (gotAddrRanges x) (gotAllAddrRanges x)
    (defaultRange x) (xbarRanges x) (cpuSidePorts x).
Definition set_routeTo (m : gmap nat nat) (x : XBar) : XBar :=
  mkXBar (reqLayers x) (respLayers x) m (portMap x) (gotAddrRanges x) (gotAllAddrRanges x)
    (defaultRange x) (xbarRanges x) (cpuSidePorts x).
Definition set_portMap (m : RangeMap nat) (x : XBar) : XBar :=
  mkXBar (reqLayers x) (respLayers x) (routeTo x) m (gotAddrRanges x) (gotAllAddrRanges x)
    (defaultRange x) (xbarRanges x) (cpuSidePorts x).
Definition set_got (g : list bool) (all : bool) (x : XBar) : XBar :=
  mkXBar (reqLayers x) (respLayers x) (routeTo x) (portMap x) g all
    (defaultRange x) (xbarRanges x) (cpuSidePorts x).
Definition set_defaultRange (r : AddrRange) (x : XBar) : XBar :=
  mkXBar (reqLayers x) (respLayers x) (routeTo x) (portMap x) (gotAddrRanges x) (gotAllAddrRanges x)
    r (xbarRanges x) (cpuSidePorts x).
Definition set_xbarRanges (l : list AddrRange) (x : XBar) : XBar :=
  mkXBar (reqLayers x) (respLayers x) (routeTo x) (portMap x) (gotAddrRanges x) (gotAllAddrRanges x)
    (defaultRange x) l (cpuSidePorts x).
Definition set_queues (q : list PacketQueue) (x : XBar) : XBar :=
  mkXBar (reqLayers x) (respLayers x) (routeTo x) (portMap x) (gotAddrRanges x) (gotAllAddrRanges x)
    (defaultRange x) (xbarRanges x) q.

(** The capacity of the decoder's cache, and [v[i]]. *)
Definition cache_size : nat := 3.
Definition at_ {A} (l : list A) (i : nat) : res A :=
  match l !! i with Some a => Ok a | None => Err Undef end.

Section XBar.
Context (c : Config).

Definition NoncoherentXBar_new : XBar :=
  mkXBar (replicate (nMem c) Layer_new) (replicate (nCpu c) Layer_new) ∅ map_empty
    (replicate (nMem c) false) false AddrRange_empty []
    (replicate (nCpu c) (PacketQueue_new false false)).

(** ** Timing *)

Definition calcPacketTiming (now header_delay : Z) (t : TPacket) : res TPacket :=
  let offset := Clk.edge (clockPeriod c) now 0 - now in
  let h := u32 (headerDelay t + (offset + header_delay)) in
  panic_if (us c <? h);;
  let p := if hasData (cmd (tp t))
           then u32 (Z.max (payloadDelay t) (divCeil (Pkt.size (tp t)) (width c) * clockPeriod c))
           else payloadDelay t in
  Ok (mkTP (tp t) (reqp t) h p).

(** ** Address decoding *)

Definition findPort (r : AddrRange) (x : XBar) : res (nat * XBar) :=
  assertb (gotAllAddrRanges x);;
  '(i, m) ← map_contains cache_size (portMap x) r;
  let x := set_portMap m x in
  match i with
  | Some e => Ok (e.2, x)
  | None =>
      if useDefaultRange c then
        b ← isSubset r (defaultRange x);
        if b : bool then d ← at_ (option_list (defaultPortID c)) 0; Ok (d, x)
        else Err FatalFail
      else match defaultPortID c with
           | Some d => Ok (d, x)
           | None => Err FatalFail
           end
  end.

(** Removing the entries of a port from the map. *)
Fixpoint erase_port (id : nat) (entries : list (AddrRange * nat)) (m : RangeMap nat) : RangeMap nat :=
  match entries with
  | [] => m
  | p :: l => erase_port id l (if Nat.eqb p.2 id then erase m p.1 else m)
  end.

Fixpoint insert_ranges (id : nat) (ranges : list AddrRange) (m : RangeMap nat) : res (RangeMap nat) :=
  match ranges with
  | [] => Ok m
  | r :: l =>
      '(o, m) ← insert cache_size m r id;
      match o with
      | None => Err FatalFail
      | Some _ => insert_ranges id l m
      end
  end.

(** Whether a range is kept beside the default range. *)
Definition keep (x : XBar) (r : AddrRange) : res bool :=
  if useDefaultRange c then b ← isSubset r (defaultRange x); Ok (negb b) else Ok true.
Definition push_range (x : XBar) (r : AddrRange) (acc : list AddrRange) : res (list AddrRange) :=
  b ← keep x r; Ok (if b : bool then acc ++ [r] else acc).

(** The loop over the map that merges the interleaved ranges: those not merged
    yet are in [intlv_ranges]. *)
Fixpoint aggregate (x : XBar) (entries : list (AddrRange * nat)) (intlv_ranges acc : list AddrRange) :
    res (list AddrRange) :=
  match entries with
  | [] =>
      match intlv_ranges with
      | [] => Ok acc
      | _ => merged ← AddrRange_merge intlv_ranges; push_range x merged acc
      end
  | e :: l =>
      if interleaved e.1 then
        match last intlv_ranges with
        | Some b =>
            if negb (mergesWith b e.1) then
              merged ← AddrRange_merge intlv_ranges;
              acc ← push_range x merged acc;
              aggregate x l [e.1] acc
            else aggregate x l (intlv_ranges ++ [e.1]) acc
        | None => aggregate x l (intlv_ranges ++ [e.1]) acc
        end
      else acc ← push_range x e.1 acc; aggregate x l intlv_ranges acc
  end.

Fixpoint check_partial (x : XBar) (l : list AddrRange) : res unit :=
  match l with
  | [] => Ok tt
  | r :: l =>
      i ← intersects r (defaultRange x);
      s ← (if i : bool then isSubset r (defaultRange x) else Ok true);
      fatal_if (i && negb s);;
      check_partial x l
  end.

(** [recvRangeChange], with the ranges the peer of the port answers when it is
    asked; the CPU-side peers are told of the change, and ask for the ranges
    later. *)
Definition recvRangeChange (id : nat) (ranges : list AddrRange) (x : XBar) : res XBar :=
  _ ← at_ (gotAddrRanges x) id;
  let g := <[id := true]> (gotAddrRanges x) in
  let x := set_got g (gotAllAddrRanges x || forallb (λ b, b) g) x in
  x ← (if bool_decide (Some id = defaultPortID c) then
         if useDefaultRange c then
           match ranges with [r] => Ok (set_defaultRange r x) | _ => Err FatalFail end
         else Ok x
       else
         m ← insert_ranges id ranges (erase_port id (tree (portMap x)) (portMap x));
         Ok (set_portMap m x));
  if gotAllAddrRanges x then
    acc ← (if useDefaultRange c then
             d ← at_ (option_list (defaultPortID c)) 0;
             b ← at_ (gotAddrRanges x) d;
             fatal_if (negb b);; Ok [defaultRange x]
           else Ok []);
    rs ← aggregate x (tree (portMap x)) [] acc;
    let x := set_xbarRanges rs x in
    (if useDefaultRange c then check_partial x rs else Ok tt);;
    Ok x
  else Ok x.

Definition getAddrRanges (x : XBar) : res (list AddrRange) :=
  assertb (gotAllAddrRanges x);; Ok (xbarRanges x).

(** ** Requests and responses *)

Definition get_req (i : nat) (x : XBar) : res Layer := at_ (reqLayers x) i.
Definition put_req (i : nat) (l : Layer) (x : XBar) : XBar := set_reqLayers (<[i := l]> (reqLayers x)) x.
Definition get_resp (i : nat) (x : XBar) : res Layer := at_ (respLayers x) i.
Definition put_resp (i : nat) (l : Layer) (x : XBar) : XBar := set_respLayers (<[i := l]> (respLayers x)) x.

(** [recvTimingReq], with the peer's answer to [sendTimingReq]; the packet as
    it is afterwards. *)
Definition recvTimingReq (now : Z) (answer : bool) (t : TPacket) (cpu_side_port_id : nat) (x : XBar) :
    res (bool * TPacket * XBar) :=
  _ ← at_ (cpuSidePorts x) cpu_side_port_id;
  assertb (negb (isExpressSnoop (tp t)));;
  '(mem_side_port_id, x) ← findPort (Pkt.getAddrRange (tp t)) x;
  l ← get_req mem_side_port_id x;
  '(ok, l) ← tryTiming cpu_side_port_id l;
  if negb ok then Ok (false, t, put_req mem_side_port_id l x)
  else
    let old_header_delay := headerDelay t in
    let xbar_delay := (frontendLatency c + forwardLatency c) * clockPeriod c in
    t ← calcPacketTiming now xbar_delay t;
    let packetFinishTime := Clk.edge (clockPeriod c) now 1 + payloadDelay t in
    let expect_response := needsResponse (cmd (tp t)) && negb (cacheResponding (tp t)) in
    if negb answer then
      l ← failedTiming now cpu_side_port_id (Clk.edge (clockPeriod c) now 1) l;
      Ok (false, mkTP (tp t) (reqp t) old_header_delay (payloadDelay t), put_req mem_side_port_id l x)
    else
      x ← (if expect_response then
             assertb (bool_decide (routeTo x !! reqp t = None));;
             Ok (set_routeTo (<[reqp t := cpu_side_port_id]> (routeTo x)) x)
           else Ok x);
      l ← succeededTiming now packetFinishTime l;
      Ok (true, t, put_req mem_side_port_id l x).

Definition recvTimingResp (now : Z) (t : TPacket) (mem_side_port_id : nat) (x : XBar) : res (bool * XBar) :=
  _ ← at_ (reqLayers x) mem_side_port_id;
  match routeTo x !! reqp t with
  | None => Err AssertFail
  | Some cpu_side_port_id =>
      assertb (Nat.ltb cpu_side_port_id (length (respLayers x)));;
      l ← get_resp cpu_side_port_id x;
      '(ok, l) ← tryTiming mem_side_port_id l;
      if negb ok then Ok (false, put_resp cpu_side_port_id l x)
      else
        let xbar_delay := responseLatency c * clockPeriod c in
        t ← calcPacketTiming now xbar_delay t;
        let packetFinishTime := Clk.edge (clockPeriod c) now 1 + payloadDelay t in
        let latency := headerDelay t in
        q ← at_ (cpuSidePorts x) cpu_side_port_id;
        q ← schedSendTiming now (tp t) (now + latency) q;
        let x := set_queues (<[cpu_side_port_id := q]> (cpuSidePorts x)) x in
        let x := set_routeTo (delete (reqp t) (routeTo x)) x in
        l ← succeededTiming now packetFinishTime l;
        Ok (true, put_resp cpu_side_port_id l x)
  end.

(** What the peer of a CPU-side port sends again when it is told to, each
    packet with the answer it meets; and the responses a memory-side peer sends
    again. *)
Fixpoint resend_reqs (now : Z) (sends : list (TPacket * bool)) (p : nat) (x : XBar) : res XBar :=
  match sends with
  | [] => Ok x
  | (t, answer) :: l => '(_, _, x) ← recvTimingReq now answer t p x; resend_reqs now l p x
  end.
Fixpoint resend_resps (now : Z) (sends : list TPacket) (m : nat) (x : XBar) : res XBar :=
  match sends with
  | [] => Ok x
  | t :: l => '(_, x) ← recvTimingResp now t m x; resend_resps now l m x
  end.

Definition recvReqRetry (now : Z) (sends : list (TPacket * bool)) (mem_side_port_id : nat) (x : XBar) : res XBar :=
  recvRetry (clockPeriod c) (get_req mem_side_port_id) (put_req mem_side_port_id) (resend_reqs now sends) now x.

(** The release event of a layer. *)
Definition release_req (now : Z) (sends : list (TPacket * bool)) (i : nat) (x : XBar) : res XBar :=
  l ← get_req i x;
  releaseLayer (clockPeriod c) (get_req i) (put_req i) (resend_reqs now sends) now (put_req i (set_release None l) x).
Definition release_resp (now : Z) (sends : list TPacket) (i : nat) (x : XBar) : res XBar :=
  l ← get_resp i x;
  releaseLayer (clockPeriod c) (get_resp i) (put_resp i) (resend_resps now sends) now (put_resp i (set_release None l) x).

(** [recvAtomicBackdoor]: the peer's effect on the packet and its latency are
    given. *)
Definition recvAtomic (sendAtomic : nat → Packet → res (Z * Packet)) (t : TPacket) (x : XBar) :
    res (Z * TPacket * XBar) :=
  '(mem_side_port_id, x) ← findPort (Pkt.getAddrRange (tp t)) x;
  '(response_latency, p) ← sendAtomic mem_side_port_id (tp t);
  Ok (response_latency, mkTP p (reqp t) (headerDelay t) (u32 response_latency), x).

(** [recvFunctional] looks in the response queues first. *)
Fixpoint satisfy_ports (p : Packet) (qs : list PacketQueue) : res (bool * Packet * list PacketQueue) :=
  match qs with
  | [] => Ok (false, p, [])
  | q :: qs =>
      '(found, p, q) ← PQ.trySatisfyFunctional p q;
      if found : bool then Ok (true, p, q :: qs)
      else '(found, p, qs) ← satisfy_ports p qs; Ok (found, p, q :: qs)
  end.
Definition recvFunctional (sendFunctional : nat → Packet → res Packet) (p : Packet) (x : XBar) :
    res (Packet * XBar) :=
  '(found, p, qs) ← satisfy_ports p (cpuSidePorts x);
  let x := set_queues qs x in
  if found : bool then
    p ← (if needsResponse (cmd p) then makeResponse p else Ok p); Ok (p, x)
  else
    '(dest_id, x) ← findPort (Pkt.getAddrRange p) x;
    p ← sendFunctional dest_id p; Ok (p, x).

End XBar.
End XBar.
