(* ===== verification/XBarDecode.v ===== *)
(** * How a crossbar decodes addresses

    The ports report their ranges one after the other, and may report again.
    For ranges without interleaving the crossbar then sends a packet to the
    port that reported the addresses it touches, and reports the union of all
    ranges to the other side. *)

From S2P Require Import Prelude.
From S2P Require Import AddrRange.
From S2P Require Import AddrRangeMap.
From S2P Require Import PacketQueue.
From S2P Require Import XBarLayer.
From S2P Require Import XBar.

Module Decode.
Import XBar.

Section Decode.
Context (c : Config).

(** ** Reports *)

(** The last report of each port. *)
Local Notation Reports := (gmap nat (list AddrRange)).

(** A port whose ranges are in the map. *)
Definition mapped (id : nat) : Prop := Some id ≠ defaultPortID c.

#[export] Instance mapped_dec id : Decision (mapped id).
Proof. unfold mapped. apply _. Defined.

(** The ranges that decide where a packet goes. *)
Definition known (rep : Reports) (id : nat) (r : AddrRange) : Prop :=
  ∃ rs, rep !! id = Some rs ∧ r ∈ rs ∧ (mapped id ∨ useDefaultRange c = true).

Definition apart (r1 r2 : AddrRange) : Prop := overlap r1 r2 = false.

Record report_ok (rep : Reports) (id : nat) (ranges : list AddrRange) : Prop := {
  rp_port : (id < nMem c)%nat;
  rp_plain : Forall plain_entry ranges;
  rp_default : mapped id ∨ useDefaultRange c = false ∨ ∃ r, ranges = [r];
  rp_self : mapped id → ∀ i j r1 r2, ranges !! i = Some r1 → ranges !! j = Some r2 → i ≠ j → apart r1 r2;
  (** No mapped port claims what another has. *)
  rp_apart : mapped id → ∀ j rs r1 r2, j ≠ id → mapped j → rep !! j = Some rs → r1 ∈ ranges → r2 ∈ rs → apart r1 r2;
}.

(** With a default range, every other range is inside it or apart from it. *)
Definition nested (rep : Reports) : Prop :=
  useDefaultRange c = true → ∀ d rs r id rs' r', defaultPortID c = Some d → rep !! d = Some rs → r ∈ rs →
    mapped id → rep !! id = Some rs' → r' ∈ rs' → apart r' r ∨ within r' r = true.

Inductive reported : list (nat * list AddrRange) → Reports → Prop :=
| reported_nil : reported [] ∅
| reported_snoc l rep id ranges : reported l rep → report_ok rep id ranges → nested (<[id := ranges]> rep) →
    reported (l ++ [(id, ranges)]) (<[id := ranges]> rep).

Fixpoint range_changes (l : list (nat * list AddrRange)) (x : XBar) : res XBar :=
  match l with
  | [] => Ok x
  | (id, ranges) :: l => x ← recvRangeChange c id ranges x; range_changes l x
  end.

(** ** The map after the reports *)

Record decodes (rep : Reports) (x : XBar) : Prop := {
  dc_map : map_inv (portMap x);
  dc_tree : ∀ r id, (r, id) ∈ tree (portMap x) ↔ mapped id ∧ ∃ rs, rep !! id = Some rs ∧ r ∈ rs;
  dc_len : length (gotAddrRanges x) = nMem c;
  dc_got : ∀ id, gotAddrRanges x !! id = Some true ↔ is_Some (rep !! id);
  dc_all : gotAllAddrRanges x = forallb (λ b, b) (gotAddrRanges x);
  dc_default : ∀ d, useDefaultRange c = true → defaultPortID c = Some d →
    match rep !! d with Some rs => rs = [defaultRange x] | None => True end;
  dc_plain : ∀ id rs r, rep !! id = Some rs → r ∈ rs → plain_entry r;
}.

(** *** The loops of [recvRangeChange] *)


Lemma erase_port_spec id l (m : RangeMap nat) : map_inv m →
  map_inv (erase_port id l m) ∧
  ∀ e, e ∈ tree (erase_port id l m) ↔ e ∈ tree m ∧ ∀ p, p ∈ l → p.2 = id → p.1 ≠ e.1.
Proof.
  revert m. induction l as [|p l IH]; intros m Hm; cbn [erase_port]; [split; [done|]; set_solver|].
  destruct (Nat.eqb_spec p.2 id) as [Hp|Hp].
  - destruct (IH (erase m p.1)) as [H1 H2]; [by apply erase_inv|]. split; [done|]. intros e. rewrite H2.
    cbn [erase tree]. rewrite list_elem_of_filter. setoid_rewrite elem_of_cons. split.
    + intros [[Hne He] Hl]. split; [done|]. intros q [->|Hq] Hid; [done|auto].
    + intros [He Hl]. split; [split; [|done]|]; [intros Heq; by apply (Hl p (or_introl eq_refl) Hp)|auto].
  - destruct (IH m Hm) as [H1 H2]. split; [done|]. intros e. rewrite H2. setoid_rewrite elem_of_cons. split.
    + intros [He Hl]. split; [done|]. intros q [->|Hq] Hid; [done|auto].
    + intros [He Hl]. auto.
Qed.

(** Two entries of the map with the same range are the same. *)
Lemma entry_key (m : RangeMap nat) e1 e2 : map_inv m → e1 ∈ tree m → e2 ∈ tree m → e1.1 = e2.1 → e1 = e2.
Proof.
  intros [Hd _] H1 H2 Heq. destruct (disjoint_from_elem _ _ _ Hd H1) as [Hp _].
  destruct Hp as (_ & _ & ? & _).
  apply (entry_unique 0 (tree m) e1 e2 (r_start e1.1) Hd H1 H2); [lia|rewrite <- Heq; lia].
Qed.

Lemma erase_port_all id (m : RangeMap nat) : map_inv m →
  map_inv (erase_port id (tree m) m) ∧ ∀ e, e ∈ tree (erase_port id (tree m) m) ↔ e ∈ tree m ∧ e.2 ≠ id.
Proof.
  intros Hm. destruct (erase_port_spec id (tree m) m Hm) as [H1 H2]. split; [done|].
  intros e. rewrite H2. split.
  - intros [He Hl]. split; [done|]. intros Hid. by apply (Hl e).
  - intros [He Hid]. split; [done|]. intros p Hp Hpid Heq. apply Hid. by rewrite <- (entry_key m p e).
Qed.

Lemma insert_ranges_spec id ranges (m : RangeMap nat) : map_inv m → Forall plain_entry ranges →
  (∀ i j r1 r2, ranges !! i = Some r1 → ranges !! j = Some r2 → i ≠ j → apart r1 r2) →
  (∀ r e, r ∈ ranges → e ∈ tree m → apart r e.1) →
  ∃ m', insert_ranges id ranges m = Ok m' ∧ map_inv m' ∧
    ∀ e, e ∈ tree m' ↔ e ∈ tree m ∨ e.2 = id ∧ e.1 ∈ ranges.
Proof.
  revert m. induction ranges as [|r ranges IH]; intros m Hm Hpl Hself Hap; cbn [insert_ranges].
  { exists m. split; [done|]. split; [done|]. set_solver. }
  apply Forall_cons in Hpl as [Hr Hpl].
  destruct (map_insert_spec cache_size m r id Hm Hr) as (o & m1 & -> & Hm1 & Ho). cbn [mbind res_bind].
  destruct o as [e|].
  2: { destruct Ho as (_ & e & He & Hov). specialize (Hap r e ltac:(left) He). unfold apart in Hap. congruence. }
  destruct Ho as (-> & _ & Ht). destruct (IH m1) as (m' & -> & Hm' & Ht'); [done|done| | |].
  - intros i j r1 r2 H1 H2 Hne. apply (Hself (S i) (S j)); [done|done|lia].
  - intros r' e Hr' [->|He]%Ht; [|apply Hap; [by right|done]]. simpl.
    apply list_elem_of_lookup in Hr' as [i Hi]. by apply (Hself (S i) 0%nat).
  - exists m'. split; [done|]. split; [done|]. intros [r' i]. rewrite Ht', Ht, elem_of_cons. simpl. split.
    + intros [[Heq|?]|[? ?]]; [injection Heq as -> ->; auto|auto|auto].
    + intros [?|[-> [->|?]]]; auto.
Qed.

(** Without interleaving every range of the map that is not inside the default
    range is kept. *)
Definition kept (x : XBar) (r : AddrRange) : bool :=
  if useDefaultRange c then negb (within r (defaultRange x)) else true.

Lemma push_range_plain x r acc : plain_entry r → (useDefaultRange c = true → plain_entry (defaultRange x)) →
  push_range c x r acc = Ok (acc ++ if kept x r then [r] else []).
Proof.
  intros Hr Hd. unfold push_range, keep, kept. destruct (useDefaultRange c).
  - rewrite isSubset_plain by auto. cbn [mbind res_bind]. destruct (within _ _); cbn; [by rewrite app_nil_r|done].
  - done.
Qed.

Lemma aggregate_plain x l acc : Forall (λ e, plain_entry e.1) l →
  (useDefaultRange c = true → plain_entry (defaultRange x)) →
  aggregate c x l [] acc = Ok (acc ++ filter (λ r, kept x r = true) l.*1).
Proof.
  intros Hl Hd. revert acc. induction Hl as [|e l He Hl IH]; intros acc; cbn [aggregate]; [by rewrite app_nil_r|].
  assert (interleaved e.1 = false) as -> by (destruct He as (Hm & _); unfold interleaved; by rewrite Hm).
  rewrite push_range_plain by done. cbn [mbind res_bind]. rewrite IH, <- app_assoc. cbn [fmap list_fmap].
  rewrite filter_cons. destruct (kept x e.1) eqn:E; [rewrite decide_True by done|rewrite decide_False by done]; done.
Qed.

Lemma check_partial_ok x l : Forall plain_entry l → plain_entry (defaultRange x) →
  (∀ r, r ∈ l → apart r (defaultRange x) ∨ within r (defaultRange x) = true) → check_partial x l = Ok tt.
Proof.
  intros Hl Hd Hok. induction Hl as [|r l Hr Hl IH]; cbn [check_partial]; [done|].
  rewrite intersects_plain by done. cbn [mbind res_bind]. destruct (overlap r (defaultRange x)) eqn:E.
  - rewrite isSubset_plain by done. cbn [mbind res_bind].
    destruct (Hok r ltac:(left)) as [Ha| ->]; [unfold apart in Ha; congruence|]. cbn. apply IH. set_solver.
  - cbn. apply IH. set_solver.
Qed.

(** *** A report *)

Record ports_ok : Prop := {
  po_default : ∀ d, defaultPortID c = Some d → (d < nMem c)%nat;
  po_use : useDefaultRange c = true → is_Some (defaultPortID c);
}.

Lemma new_decodes : decodes ∅ (NoncoherentXBar_new c) ∨ nMem c = 0%nat.
Proof.
  destruct (nMem c) as [|n] eqn:Hn; [by right|left]. unfold NoncoherentXBar_new. rewrite Hn.
  split; cbn [portMap gotAddrRanges gotAllAddrRanges tree map_empty].
  - split; [done|constructor].
  - intros r id. split; [by intros ?%elem_of_nil|]. intros (_ & rs & Hrs & _). by rewrite lookup_empty in Hrs.
  - rewrite length_replicate. by rewrite Hn.
  - intros id. rewrite lookup_empty. split; [|by intros [? ?]]. intros [Heq _]%lookup_replicate. done.
  - done.
  - intros d _ _. by rewrite lookup_empty.
  - intros id rs r Hrs. by rewrite lookup_empty in Hrs.
Qed.

Lemma forallb_id (l : list bool) : forallb (λ b, b) l = true ↔ ∀ i, (i < length l)%nat → l !! i = Some true.
Proof.
  rewrite forallb_forall. split.
  - intros H i [b Hb]%lookup_lt_is_Some. rewrite Hb. f_equal. apply H, list_elem_of_In. by eapply list_elem_of_lookup_2.
  - intros H b Hb%list_elem_of_In%list_elem_of_lookup. destruct Hb as [i Hi].
    pose proof (lookup_lt_Some _ _ _ Hi) as Hlt. specialize (H i Hlt). congruence.
Qed.

(** The first part of [recvRangeChange]: the range is recorded. *)
Definition record_range (id : nat) (ranges : list AddrRange) (x : XBar) : res XBar :=
  if bool_decide (Some id = defaultPortID c) then
    if useDefaultRange c then
      match ranges with [r] => Ok (set_defaultRange r x) | _ => Err FatalFail end
    else Ok x
  else
    m ← insert_ranges id ranges (erase_port id (tree (portMap x)) (portMap x));
    Ok (set_portMap m x).

Definition mark (id : nat) (x : XBar) : XBar :=
  let g := <[id := true]> (gotAddrRanges x) in set_got g (gotAllAddrRanges x || forallb (λ b, b) g) x.

Lemma mark_got rep id ranges x : decodes rep x → (id < nMem c)%nat →
  length (gotAddrRanges (mark id x)) = nMem c ∧
  (∀ j, gotAddrRanges (mark id x) !! j = Some true ↔ is_Some (<[id := ranges]> rep !! j)) ∧
  gotAllAddrRanges (mark id x) = forallb (λ b, b) (gotAddrRanges (mark id x)).
Proof.
  intros Hd Hid. unfold mark. cbn [gotAddrRanges set_got gotAllAddrRanges]. rewrite length_insert.
  split; [apply Hd|]. split.
  - intros j. destruct (decide (id = j)) as [<-|Hne].
    + rewrite list_lookup_insert_eq by (by rewrite (dc_len _ _ Hd)). rewrite lookup_insert_eq. naive_solver.
    + rewrite list_lookup_insert_ne, lookup_insert_ne by done. apply Hd.
  - rewrite (dc_all _ _ Hd). destruct (forallb _ (gotAddrRanges x)) eqn:E; [|done]. symmetry. apply forallb_id.
    rewrite length_insert. intros i Hi. pose proof (proj1 (forallb_id _) E) as Hall.
    destruct (decide (id = i)) as [<-|Hne]; [by apply list_lookup_insert_eq|]. rewrite list_lookup_insert_ne by done. auto.
Qed.

Lemma record_range_ok rep id ranges x : decodes rep x → report_ok rep id ranges →
  ∃ x', record_range id ranges (mark id x) = Ok x' ∧ decodes (<[id := ranges]> rep) x'.
Proof.
  intros Hd [Hid Hpl Hdef Hself Hap].
  destruct (mark_got rep id ranges x Hd Hid) as (Hlen & Hgot & Hall).
  assert (Hplain : ∀ j rs r, <[id := ranges]> rep !! j = Some rs → r ∈ rs → plain_entry r).
  { intros j rs r. rewrite lookup_insert_Some. intros [[_ <-]|[_ Hrs]] Hr; [|by eapply Hd].
    rewrite Forall_forall in Hpl. auto. }
  unfold record_range. destruct (bool_decide_reflect (Some id = defaultPortID c)) as [Heq|Hne].
  - assert (Hn : ¬ mapped id) by (unfold mapped; by intros ?).
    assert (Htree : ∀ r j, (r, j) ∈ tree (portMap x) ↔ mapped j ∧ ∃ rs, <[id := ranges]> rep !! j = Some rs ∧ r ∈ rs).
    { intros r j. rewrite (dc_tree _ _ Hd). split; intros [Hj (rs & Hrs & Hr)]; (split; [done|]); exists rs;
        rewrite lookup_insert_ne in * by congruence; done. }
    assert (Hx : ∀ r, (useDefaultRange c = true → ranges = [r]) →
      decodes (<[id := ranges]> rep) (set_defaultRange r (mark id x))).
    { intros r Hr. split; try done; try apply Hd. intros d Hu Hdd. rewrite <- Heq in Hdd. injection Hdd as <-.
      rewrite lookup_insert_eq. cbn. auto. }
    destruct (useDefaultRange c) eqn:Hu.
    + destruct Hdef as [?|[?|[r ->]]]; [done|done|]. eexists. split; [done|]. by apply Hx.
    + eexists. split; [done|]. specialize (Hx (defaultRange x) ltac:(done)). by destruct x.
  - destruct (erase_port_all id (portMap x) (dc_map _ _ Hd)) as [Hm1 Ht1].
    destruct (insert_ranges_spec id ranges (erase_port id (tree (portMap x)) (portMap x)))
      as (m & Hins & Hm & Ht); [done|done|by apply Hself| |].
    { intros r [r' j] Hr [He Hj]%Ht1. apply (dc_tree _ _ Hd) in He as [Hmj (rs & Hrs & Hr')]. by apply (Hap Hne j rs). }
    cbn [portMap mark set_got]. rewrite Hins. cbn [mbind res_bind]. eexists. split; [done|]. split; try done.
    + cbn. intros r j. rewrite Ht, Ht1, (dc_tree _ _ Hd). simpl. split.
      * intros [[[Hj (rs & Hrs & Hr)] Hji]|[-> Hr]]; (split; [done|]); [|exists ranges; by rewrite lookup_insert_eq].
        exists rs. by rewrite lookup_insert_ne.
      * intros [Hj (rs & Hrs & Hr)]. rewrite lookup_insert_Some in Hrs. destruct Hrs as [[<- <-]|[Hji Hrs]]; [auto|].
        left. split; [|done]. split; [done|]. by exists rs.
    + cbn. intros d Hu Hdd. rewrite lookup_insert_ne by congruence. by apply Hd.
Qed.

(** The second part: once every port has reported, the ranges are put
    together. *)
Lemma entries_plain rep x : decodes rep x → Forall (λ e, plain_entry e.1) (tree (portMap x)).
Proof.
  intros Hd. apply Forall_forall. intros e He. by destruct (disjoint_from_elem _ _ _ (proj1 (dc_map _ _ Hd)) He).
Qed.

Definition whole (rep : Reports) (x : XBar) : Prop :=
  xbarRanges x = (if useDefaultRange c then [defaultRange x] else []) ++
    filter (λ r, kept x r = true) (tree (portMap x)).*1.

Lemma recvRangeChange_ok rep id ranges x : ports_ok → decodes rep x → report_ok rep id ranges →
  nested (<[id := ranges]> rep) →
  ∃ x', recvRangeChange c id ranges x = Ok x' ∧ decodes (<[id := ranges]> rep) x' ∧
    (gotAllAddrRanges x' = true → whole (<[id := ranges]> rep) x').
Proof.
  intros Hc Hd Hok Hnest. unfold recvRangeChange, at_.
  destruct (lookup_lt_is_Some_2 (gotAddrRanges x) id) as [b ->];
    [rewrite (dc_len _ _ Hd); apply Hok|]. cbn [mbind res_bind].
  destruct (record_range_ok rep id ranges x Hd Hok) as (x1 & H1 & Hd1).
  unfold record_range, mark in H1. rewrite H1. cbn [mbind res_bind]. clear H1. set (rep1 := <[id := ranges]> rep) in *.
  destruct (gotAllAddrRanges x1) eqn:Hall; [|by exists x1; rewrite Hall].
  assert (Hent := entries_plain rep1 x1 Hd1).
  assert (Hrs : ∀ d, defaultPortID c = Some d → gotAddrRanges x1 !! d = Some true).
  { intros d Hdd. rewrite (dc_all _ _ Hd1) in Hall. apply (proj1 (forallb_id _) Hall).
    rewrite (dc_len _ _ Hd1). by apply Hc. }
  assert (Hagg : ∃ acc, (if useDefaultRange c
      then d ← match option_list (defaultPortID c) !! 0%nat with Some a => Ok a | None => Err Undef end;
           b ← match gotAddrRanges x1 !! d with Some a => Ok a | None => Err Undef end;
           fatal_if (negb b);; Ok [defaultRange x1]
      else Ok []) = Ok acc ∧ acc = (if useDefaultRange c then [defaultRange x1] else []) ∧
      (useDefaultRange c = true → plain_entry (defaultRange x1) ∧ ∃ d, defaultPortID c = Some d ∧ rep1 !! d = Some [defaultRange x1])).
  { destruct (useDefaultRange c) eqn:Hu; [|by exists []]. destruct (po_use Hc Hu) as [d Hdd]. rewrite Hdd.
    change (option_list (Some d) !! 0%nat) with (Some d). cbn [mbind res_bind]. rewrite (Hrs d Hdd). eexists. split; [done|]. split; [done|].
    intros _. pose proof (proj1 (dc_got _ _ Hd1 d) (Hrs d Hdd)) as [rs Hrsd].
    pose proof (dc_default _ _ Hd1 d Hu Hdd) as Hdef. rewrite Hrsd in Hdef. subst rs.
    split; [|by exists d]. apply (dc_plain _ _ Hd1 d _ _ Hrsd). left. }
  destruct Hagg as (acc & Heq & -> & Hdef). rewrite Heq. clear Heq. cbn [mbind res_bind].
  rewrite aggregate_plain; [|done|by intros Hu; apply Hdef]. cbn [mbind res_bind].
  match goal with |- context [set_xbarRanges ?l x1] => set (rs := l) end.
  assert (Hx2 : decodes rep1 (set_xbarRanges rs x1)) by (destruct Hd1; by split).
  destruct (useDefaultRange c) eqn:Hu.
  - destruct (Hdef eq_refl) as [Hpd (d & Hdd & Hrd)]. rewrite check_partial_ok; [|  |done|].
    + cbn [mbind res_bind]. eexists. split; [done|]. split; [done|]. intros _. unfold whole. rewrite Hu. done.
    + apply Forall_app. split; [by apply Forall_singleton|]. apply Forall_forall.
      intros r [_ (e & -> & He)%list_elem_of_fmap]%list_elem_of_filter. rewrite Forall_forall in Hent. auto.
    + intros r [->%list_elem_of_singleton|[_ ([r' j] & -> & He)%list_elem_of_fmap]%list_elem_of_filter]%elem_of_app.
      * right. unfold within. cbn. rewrite !Z.leb_refl. done.
      * apply (dc_tree _ _ Hd1) in He as [Hj (rs' & Hrs' & Hr')]. cbn.
        refine (Hnest Hu d _ _ j rs' r' Hdd Hrd _ Hj Hrs' Hr'). left.
  - cbn [mbind res_bind]. eexists. split; [done|]. split; [done|]. intros _. unfold whole. by rewrite Hu.
Qed.

(** ** Where a packet goes *)

Definition claimed (rep : Reports) (r : AddrRange) (id : nat) : Prop :=
  mapped id ∧ ∃ rs r', rep !! id = Some rs ∧ r' ∈ rs ∧ within r r' = true.

Definition in_default (rep : Reports) (r : AddrRange) : Prop :=
  useDefaultRange c = true → ∃ d r', defaultPortID c = Some d ∧ rep !! d = Some [r'] ∧ within r r' = true.

(** The port of a packet that touches the addresses [r]: the one that reported
    them, otherwise the default port if it may take them. *)
Definition destination (rep : Reports) (r : AddrRange) (o : option nat) : Prop :=
  match o with
  | Some id => claimed rep r id ∨ (∀ j, ¬ claimed rep r j) ∧ defaultPortID c = Some id ∧ in_default rep r
  | None => (∀ j, ¬ claimed rep r j) ∧ (defaultPortID c = None ∨ ¬ in_default rep r)
  end.

Lemma findPort_spec rep x r : ports_ok → decodes rep x → gotAllAddrRanges x = true → plain_entry r →
  ∃ o m, destination rep r o ∧ decodes rep (set_portMap m x) ∧ tree m = tree (portMap x) ∧
    findPort c r x = match o with Some id => Ok (id, set_portMap m x) | None => Err FatalFail end.
Proof.
  intros Hc Hd Hall Hr. unfold findPort. rewrite Hall. cbn [assertb mbind res_bind].
  destruct (map_contains_spec cache_size (portMap x) r (dc_map _ _ Hd) Hr) as (o & m & -> & Ht & Hm & Ho).
  cbn [mbind res_bind].
  assert (Hd' : decodes rep (set_portMap m x)).
  { destruct Hd. split; try done. cbn. intros. rewrite Ht. auto. }
  assert (Hcl : ∀ j, claimed rep r j ↔ ∃ e, e ∈ tree (portMap x) ∧ e.2 = j ∧ within r e.1 = true).
  { intros j. split.
    - intros [Hj (rs & r' & Hrs & Hr' & Hw)]. exists (r', j). split; [|done]. apply (dc_tree _ _ Hd). eauto.
    - intros ([r' j'] & He & <- & Hw). apply (dc_tree _ _ Hd) in He as [Hj (rs & Hrs & Hr')]. split; [done|].
      by exists rs, r'. }
  destruct o as [e|].
  { exists (Some e.2), m. split; [|done]. left. apply Hcl. exists e. destruct Ho. auto. }
  assert (Hno : ∀ j, ¬ claimed rep r j).
  { intros j Hj. apply Hcl in Hj as (e & He & _ & Hw). rewrite (Ho e He) in Hw. done. }
  cbn [defaultRange set_portMap]. destruct (useDefaultRange c) eqn:Hu.
  - destruct (po_use Hc Hu) as [d Hdd]. rewrite Hdd. change (at_ (option_list (Some d)) 0) with (@Ok nat d).
    assert (Hrd : rep !! d = Some [defaultRange x]).
    { rewrite (dc_all _ _ Hd) in Hall. pose proof (proj1 (forallb_id _) Hall d) as Hg.
      rewrite (dc_len _ _ Hd) in Hg. pose proof (proj1 (dc_got _ _ Hd d) (Hg (po_default Hc d Hdd))) as [rs Hrs].
      pose proof (dc_default _ _ Hd d Hu Hdd) as Hdef. rewrite Hrs in Hdef. by subst rs. }
    rewrite isSubset_plain; [|done|apply (dc_plain _ _ Hd d _ _ Hrd); left]. cbn [mbind res_bind].
    destruct (within r (defaultRange x)) eqn:Hw.
    + exists (Some d), m. split; [|done]. right. split; [done|]. split; [done|]. intros _. by exists d, (defaultRange x).
    + exists None, m. split; [|done]. split; [done|]. right. intros Hin. destruct (Hin Hu) as (d' & r' & Hd'' & Hr' & Hw').
      assert (r' = defaultRange x) by congruence. congruence.
  - destruct (defaultPortID c) as [d|] eqn:Hdd.
    + exists (Some d), m. split; [|done]. right. split; [done|]. split; [done|]. by intros ?; congruence.
    + exists None, m. split; [|done]. split; [done|]. by left.
Qed.

Lemma recvRangeChange_frame id ranges x x' : recvRangeChange c id ranges x = Ok x' →
  reqLayers x' = reqLayers x ∧ respLayers x' = respLayers x ∧ routeTo x' = routeTo x ∧
  cpuSidePorts x' = cpuSidePorts x.
Proof.
  unfold recvRangeChange. intros H. destruct (at_ (gotAddrRanges x) id); [|done]. cbn [mbind res_bind] in H.
  apply bind_ok in H as (x1 & H1 & H).
  assert (Hx1 : reqLayers x1 = reqLayers x ∧ respLayers x1 = respLayers x ∧ routeTo x1 = routeTo x ∧
    cpuSidePorts x1 = cpuSidePorts x).
  { repeat case_match; inv_ok; done. }
  destruct (gotAllAddrRanges x1); [|by injection H as <-]. apply bind_ok in H as (acc & _ & H).
  apply bind_ok in H as (rs & _ & H). apply bind_ok in H as (_ & _ & H). by injection H as <-.
Qed.

Lemma reported_spec l rep : ports_ok → (0 < nMem c)%nat → reported l rep →
  ∃ x, range_changes l (NoncoherentXBar_new c) = Ok x ∧ decodes rep x ∧
    (gotAllAddrRanges x = true → whole rep x) ∧
    reqLayers x = replicate (nMem c) Lay.Layer_new ∧ respLayers x = replicate (nCpu c) Lay.Layer_new ∧
    routeTo x = ∅ ∧ cpuSidePorts x = replicate (nCpu c) (PQ.PacketQueue_new false false).
Proof.
  intros Hc Hn Hrep. induction Hrep as [|l rep id ranges Hrep IH Hok Hnest].
  - eexists. split; [done|]. destruct new_decodes as [Hd|?]; [|lia]. split; [done|]. split; [|done].
    cbn. destruct (nMem c); [lia|done].
  - destruct IH as (x & Hx & Hd & _ & Hf). destruct (recvRangeChange_ok rep id ranges x Hc Hd Hok Hnest) as (x' & Hx' & Hd' & Hw).
    exists x'. split; [|split; [done|split; [done|]]].
    + clear -Hx Hx'. revert Hx. generalize (NoncoherentXBar_new c) as x0. induction l as [|[i rs] l IH]; intros x0 Hx; cbn in *.
      * injection Hx as ->. by rewrite Hx'.
      * destruct (recvRangeChange c i rs x0); [|done]. cbn in *. by apply IH.
    + destruct (recvRangeChange_frame id ranges x x' Hx') as (-> & -> & -> & ->). done.
Qed.

Lemma range_kept x r : kept x r = true ∨ useDefaultRange c = true ∧ within r (defaultRange x) = true.
Proof. unfold kept. destruct (useDefaultRange c); [|by left]. destruct (within _ _); auto. Qed.

Lemma within_contains r r' a : plain_entry r → plain_entry r' → within r r' = true →
  contains r a = true → contains r' a = true.
Proof.
  intros Hr Hr'. rewrite !contains_entry by done. unfold within. intros [H1 H2]%andb_true_iff. bool_to_prop. lia.
Qed.

(** The reported union. *)
Lemma whole_union rep x a : ports_ok → decodes rep x → gotAllAddrRanges x = true → whole rep x →
  (∃ r, r ∈ xbarRanges x ∧ contains r a = true) ↔ ∃ id r, known rep id r ∧ contains r a = true.
Proof.
  intros Hc Hd Hall Hw. rewrite Hw. unfold known.
  assert (Hdef : useDefaultRange c = true → ∃ d, defaultPortID c = Some d ∧ rep !! d = Some [defaultRange x]).
  { intros Hu. destruct (po_use Hc Hu) as [d Hdd]. exists d. split; [done|]. rewrite (dc_all _ _ Hd) in Hall.
    pose proof (proj1 (forallb_id _) Hall d) as Hg. rewrite (dc_len _ _ Hd) in Hg.
    pose proof (proj1 (dc_got _ _ Hd d) (Hg (po_default Hc d Hdd))) as [rs Hrs].
    pose proof (dc_default _ _ Hd d Hu Hdd) as Hr. rewrite Hrs in Hr. by subst rs. }
  split.
  - intros (r & [Hr|[_ ([r' j] & -> & He)%list_elem_of_fmap]%list_elem_of_filter]%elem_of_app & Ha).
    + destruct (useDefaultRange c) eqn:Hu; [|by apply elem_of_nil in Hr]. apply list_elem_of_singleton in Hr as ->.
      destruct (Hdef eq_refl) as (d & Hdd & Hrd). exists d, (defaultRange x). split; [|done].
      exists [defaultRange x]. split; [done|]. split; [left|]. by right.
    + apply (dc_tree _ _ Hd) in He as [Hj (rs & Hrs & Hr')]. exists j, r'. split; [|done]. exists rs. auto.
  - intros (id & r & (rs & Hrs & Hr & Hid) & Ha).
    destruct (decide (mapped id)) as [Hm|Hm].
    + destruct (range_kept x r) as [Hk|[Hu Hwi]].
      * exists r. split; [|done]. apply elem_of_app. right. apply list_elem_of_filter. split; [done|].
        apply list_elem_of_fmap. exists (r, id). split; [done|]. apply (dc_tree _ _ Hd). eauto.
      * exists (defaultRange x). rewrite Hu. split; [apply elem_of_app; left; left|].
        destruct (Hdef Hu) as (d & Hdd & Hrd). refine (within_contains r _ a _ _ Hwi Ha);
          [by apply (dc_plain _ _ Hd id rs)|by apply (dc_plain _ _ Hd d _ _ Hrd); left].
    + destruct Hid as [?|Hu]; [done|]. destruct (Hdef Hu) as (d & Hdd & Hrd).
      assert (id = d) as -> by (apply dec_stable in Hm; congruence).
      exists r. rewrite Hu. split; [|done]. apply elem_of_app. left. congruence.
Qed.
End Decode.

(** ** Theorems *)

(** ** Witness *)

(** Two CPU-side ports, and the volatile and the non-volatile memory on the
    other side. *)
Definition small : Config := mkConfig 1000 2 1 2 8 1000000 false None 2 2.
Definition volatile : AddrRange := AddrRange_of 0 0x30000000.
Definition nvm : AddrRange := AddrRange_of 0x30000000 0x50000000.
Definition two_reports : list (nat * list AddrRange) := [(0%nat, [volatile]); (1%nat, [nvm])].
Definition two_rep : gmap nat (list AddrRange) := <[1%nat := [nvm]]> (<[0%nat := [volatile]]> ∅).

Lemma small_ports : ports_ok small.
Proof. split; done. Qed.

Lemma plain_volatile : plain_entry volatile.
Proof. repeat split; vm_compute; congruence. Qed.
Lemma plain_nvm : plain_entry nvm.
Proof. repeat split; vm_compute; congruence. Qed.

Lemma one_self (r : AddrRange) i j r1 r2 : [r] !! i = Some r1 → [r] !! j = Some r2 → i ≠ j → apart r1 r2.
Proof. intros Hi%list_lookup_singleton_Some Hj%list_lookup_singleton_Some. lia. Qed.

Lemma two_reported : reported small two_reports two_rep.
Proof.
  unfold two_rep. change two_reports with (([] ++ [(0%nat, [volatile])]) ++ [(1%nat, [nvm])]).
  apply reported_snoc; [apply reported_snoc; [constructor| |]| |]; try (intros Hu; done).
  - split; [cbn; lia|by apply Forall_singleton, plain_volatile|by left|intros _; apply one_self|].
    intros _ j rs r1 r2 _ _ Hrs. by rewrite lookup_empty in Hrs.
  - split; [cbn; lia|by apply Forall_singleton, plain_nvm|by left|intros _; apply one_self|].
    intros _ j rs r1 r2 _ _ Hrs ->%list_elem_of_singleton Hr2. apply lookup_insert_Some in Hrs as [[_ <-]|[_ Hrs]].
    + apply list_elem_of_singleton in Hr2 as ->. done.
    + by rewrite lookup_empty in Hrs.
Qed.

Lemma two_all id : (id < nMem small)%nat → is_Some (two_rep !! id).
Proof. intros Hid. destruct id as [|[|id]]; [by eexists|by eexists|cbn in Hid; lia]. Qed.


End Decode.
