(* ===== verification/XBarRun.v ===== *)
(** * A crossbar between its peers

    The non-coherent crossbar as a transition system: the peers of its ports
    send requests and responses and answer offers, the events of its layers and
    queues fire, and time passes.  Peers follow the port protocol: a port that
    was refused waits to be told before it tries the same layer again. *)

From S2P Require Import Prelude.
From S2P Require Import Intmath.
From S2P Require Import Clocked.
From S2P Require Import AddrRange.
From S2P Require Import AddrRangeMap.
From S2P Require Import MemCmd.
From S2P Require Import Packet.
From S2P Require Import PacketQueue.
From S2P Require Import XBarLayer.
From S2P Require Import XBar.
From S2P Require Import XBarDecode.

Module XRun.
Import MemCmd Pkt PQ Lay XBar Decode.

Section Run.
Context (c : Config) (rep : gmap nat (list AddrRange)).

(** ** What the peers may do *)

(** The port a packet goes to. *)
Definition dest (x : XBar) (t : TPacket) : option nat :=
  match findPort c (Pkt.getAddrRange (tp t)) x with Ok (i, _) => Some i | Err _ => None end.

(** The line in front of a layer. *)
Definition line_at (ls : list Layer) (i : nat) : list nat :=
  match ls !! i with Some l => line l | None => [] end.

Definition expects (t : TPacket) : bool := needsResponse (cmd (tp t)) && negb (cacheResponding (tp t)).

(** Delays within what the crossbar accepts. *)
Definition delays_ok (now extra : Z) (t : TPacket) : Prop :=
  0 ≤ headerDelay t ∧ 0 ≤ payloadDelay t ∧
  headerDelay t + (Clk.edge (clockPeriod c) now 0 - now + extra) ≤ us c.

Definition req_delay : Z := (frontendLatency c + forwardLatency c) * clockPeriod c.
Definition resp_delay : Z := responseLatency c * clockPeriod c.

(** A request a CPU-side peer may send: well formed, to an address some port
    takes, with a request object that is not in flight, on a layer the port
    does not wait for already. *)
Definition sendable (now : Z) (t : TPacket) (p : nat) (x : XBar) : Prop :=
  (p < nCpu c)%nat ∧ isExpressSnoop (tp t) = false ∧ plain_entry (Pkt.getAddrRange (tp t)) ∧
  delays_ok now req_delay t ∧ (expects t = true → routeTo x !! reqp t = None) ∧
  ∃ i, dest x t = Some i ∧ p ∉ line_at (reqLayers x) i.

(** A response a memory-side peer may send: to a request in flight. *)
Definition respondable (now : Z) (t : TPacket) (m : nat) (x : XBar) : Prop :=
  (m < nMem c)%nat ∧ isExpressSnoop (tp t) = false ∧ delays_ok now resp_delay t ∧ now + us c < MaxTick ∧
  ∃ p q, routeTo x !! reqp t = Some p ∧ m ∉ line_at (respLayers x) p ∧
    cpuSidePorts x !! p = Some q ∧ PQ.room 1 q.

Fixpoint resendable (now : Z) (sends : list (TPacket * bool)) (p : nat) (x : XBar) : Prop :=
  match sends with
  | [] => True
  | (t, a) :: l => sendable now t p x ∧
      ∀ b t' x', recvTimingReq c now a t p x = Ok (b, t', x') → resendable now l p x'
  end.
Fixpoint reresponsable (now : Z) (sends : list TPacket) (m : nat) (x : XBar) : Prop :=
  match sends with
  | [] => True
  | t :: l => respondable now t m x ∧
      ∀ b x', recvTimingResp c now t m x = Ok (b, x') → reresponsable now l m x'
  end.

(** ** Invariant *)

(** All layers are between two calls, except the one whose port is retried. *)
Definition layers_ok (now : Z) (mid : option nat) (ls : list Layer) : Prop :=
  ∀ i l, ls !! i = Some l → layer_inv now l ∨ mid = Some i ∧ retrying l.

Definition queue_ok (now : Z) (q : PacketQueue) : Prop := event_ok now q ∧ due q ∧ PQ.room 0 q.

Record xinv (now : Z) (mreq mresp : option nat) (x : XBar) : Prop := {
  xi_dec : decodes c rep x;
  xi_all : gotAllAddrRanges x = true;
  xi_nreq : length (reqLayers x) = nMem c;
  xi_nresp : length (respLayers x) = nCpu c;
  xi_nq : length (cpuSidePorts x) = nCpu c;
  xi_req : layers_ok now mreq (reqLayers x);
  xi_resp : layers_ok now mresp (respLayers x);
  xi_route : ∀ r p, routeTo x !! r = Some p → (p < nCpu c)%nat;
  xi_queue : Forall (queue_ok now) (cpuSidePorts x);
}.

Record cfg_ok : Prop := {
  co_ports : ports_ok c;
  co_period : 0 < clockPeriod c;
  co_width : 0 < width c;
  co_us : 0 ≤ us c < 2 ^ 32;
  co_lat : 0 ≤ frontendLatency c ∧ 0 ≤ forwardLatency c ∧ 0 ≤ responseLatency c;
  co_claims : ∀ id, is_Some (rep !! id) → (id < nMem c)%nat;
}.
Context (Hcfg : cfg_ok).

(** The lines after a port has tried: it is at the end of a line, or, if the
    peer refused ([f]), back at the front of the one it was retried from. *)
Definition adv (f : bool) (p : nat) (l l' : Layer) : Prop :=
  (retrying l' → l' = l) ∧
  ((∃ new, line l' = line l ++ new) ∨ f = true ∧ retrying l ∧ ∃ new, line l' = p :: line l ++ new).

Lemma adv_refl f p l : adv f p l l.
Proof. split; [done|]. left. exists []. by rewrite app_nil_r. Qed.

Lemma adv_trans f1 f2 p l1 l2 l3 : adv f1 p l1 l2 → adv f2 p l2 l3 → adv (f1 || f2) p l1 l3.
Proof.
  intros [Hr1 H1] [Hr2 H2]. split; [intros H3; pose proof (Hr2 H3); subst l3; auto|].
  destruct H2 as [[n2 H2]|(Hf & Hr & n2 & H2)].
  - rewrite H2. destruct H1 as [[n1 ->]|(-> & Hr & n1 & ->)]; [left|right; split; [done|split; [done|]]]; exists (n1 ++ n2).
    + by rewrite app_assoc.
    + cbn. by rewrite app_assoc.
  - pose proof (Hr1 Hr). subst l2. right. rewrite Hf, orb_true_r. eauto.
Qed.

Definition advs (f : bool) (p : nat) (ls ls' : list Layer) : Prop :=
  length ls' = length ls ∧ ∀ i l l', ls !! i = Some l → ls' !! i = Some l' → adv f p l l'.

Lemma advs_refl f p ls : advs f p ls ls.
Proof. split; [done|]. intros i l l' H H'. rewrite H in H'. injection H' as <-. apply adv_refl. Qed.

Lemma advs_trans f1 f2 p ls1 ls2 ls3 : advs f1 p ls1 ls2 → advs f2 p ls2 ls3 → advs (f1 || f2) p ls1 ls3.
Proof.
  intros [Hn1 H1] [Hn2 H2]. split; [congruence|]. intros i l1 l3 Hl1 Hl3.
  destruct (lookup_lt_is_Some_2 ls2 i) as [l2 Hl2]; [rewrite Hn1; by eapply lookup_lt_Some|].
  eapply adv_trans; eauto.
Qed.

Lemma advs_insert f p ls i l l' : ls !! i = Some l → adv f p l l' → advs f p ls (<[i := l']> ls).
Proof.
  intros Hl Ha. split; [apply length_insert|]. intros j k k' Hk Hk'. destruct (decide (i = j)) as [<-|Hne].
  - rewrite list_lookup_insert_eq in Hk' by (by eapply lookup_lt_Some). congruence.
  - rewrite list_lookup_insert_ne in Hk' by done. rewrite Hk in Hk'. injection Hk' as <-. apply adv_refl.
Qed.

Lemma layers_ok_insert now mid ls i l : layers_ok now mid ls → layer_inv now l → layers_ok now mid (<[i := l]> ls).
Proof.
  intros Hls Hl j k Hk. apply list_lookup_insert_Some in Hk as [(-> & <- & _)|[_ Hk]]; [by left|by apply Hls].
Qed.

(** The timing of a packet. *)
Lemma calcPacketTiming_ok now extra t : 0 ≤ now → 0 ≤ extra → delays_ok now extra t →
  ∃ t', calcPacketTiming c now extra t = Ok t' ∧ tp t' = tp t ∧ reqp t' = reqp t ∧
    0 ≤ headerDelay t' ≤ us c ∧ 0 ≤ payloadDelay t'.
Proof.
  intros Hnow Hex (Hh & Hp & Hs). unfold calcPacketTiming. destruct Hcfg as [_ Hper Hwid Hus _ _].
  pose proof (Clk.edge_bounds (clockPeriod c) now 0 Hper Hnow).
  rewrite u32_small by lia. rewrite (proj2 (Z.ltb_ge _ _)) by lia. cbn [panic_if mbind res_bind].
  eexists. split; [done|]. cbn. split; [done|]. split; [done|]. split; [lia|].
  case_match; [|done]. apply u32_range.
Qed.

(** The layer a packet goes to, and the crossbar with the layer and the routes
    changed. *)
Lemma dest_layer now mreq mresp x t i : xinv now mreq mresp x → plain_entry (Pkt.getAddrRange (tp t)) → dest x t = Some i →
  ∃ m l, findPort c (Pkt.getAddrRange (tp t)) x = Ok (i, set_portMap m x) ∧ decodes c rep (set_portMap m x) ∧
    reqLayers x !! i = Some l.
Proof.
  intros Hx Hpl Hdest.
  destruct (findPort_spec c rep x _ (co_ports Hcfg) (xi_dec _ _ _ _ Hx) (xi_all _ _ _ _ Hx) Hpl) as (o & m & Ho & Hdec & Ht & Hfind).
  unfold dest in Hdest. rewrite Hfind in Hdest |- *. destruct o as [i'|]; [|done]. injection Hdest as ->.
  assert (Hi : (i < length (reqLayers x))%nat).
  { rewrite (xi_nreq _ _ _ _ Hx). destruct Ho as [[_ (rs & r' & Hrs & _)]|(_ & Hd & _)].
    - apply (co_claims Hcfg). eauto.
    - by apply (co_ports Hcfg). }
  destruct (lookup_lt_is_Some_2 _ _ Hi) as [l Hl]. by exists m, l.
Qed.

Lemma xinv_put_dest now mreq mresp x m i l rt : xinv now mreq mresp x → decodes c rep (set_portMap m x) → layer_inv now l →
  (∀ r k, rt !! r = Some k → (k < nCpu c)%nat) → xinv now mreq mresp (put_req i l (set_routeTo rt (set_portMap m x))).
Proof.
  intros [] Hdec Hl Hrt. split; cbn; try done; [destruct Hdec; by split|by rewrite length_insert|].
  by apply layers_ok_insert.
Qed.

(** A layer that has let a port through: the line is as it was, or the port is
    in front of it. *)
Lemma adv_same p l l' : line l' = line l → state l' = BUSY → adv false p l l'.
Proof. intros Hl Hs. split; [intros (_ & ? & _); congruence|]. left. exists []. by rewrite app_nil_r. Qed.

Lemma adv_front now p l l' : line l' = p :: line l → state l' = BUSY → (state l = IDLE → line l = []) → state l ≠ BUSY →
  layer_inv now l ∨ retrying l → adv true p l l'.
Proof.
  intros Hl Hs Hidle Hnb Hlay. split; [intros (_ & ? & _); congruence|]. rewrite Hl. destruct Hlay as [[_ Hlay]|Hr].
  - left. exists [p]. rewrite Hidle; [done|]. by destruct (state l).
  - right. split; [done|]. split; [done|]. exists []. by rewrite app_nil_r.
Qed.

Lemma adv_back now p l l' : line l' = line l ++ [p] → layer_inv now l' → adv false p l l'.
Proof.
  intros Hl [_ Hi]. split; [intros (_ & Hs & _); by rewrite Hs in Hi|]. left. by exists [p].
Qed.

Lemma adv_weaken f p l l' : adv false p l l' → adv f p l l'.
Proof. intros [H1 [H2|[? _]]]; [|done]. split; [done|]. by left. Qed.

(** A sent request: the crossbar answers, keeps its invariant, and the port
    either is let through or is in line. *)
Lemma xbar_recvTimingReq_ok now mreq mresp x t p a : 0 < now → xinv now mreq mresp x → sendable now t p x →
  ∃ b t' x', recvTimingReq c now a t p x = Ok (b, t', x') ∧ xinv now mreq mresp x' ∧
    respLayers x' = respLayers x ∧ cpuSidePorts x' = cpuSidePorts x ∧
    advs (negb a) p (reqLayers x) (reqLayers x') ∧
    routeTo x' = (if b && expects t then <[reqp t := p]> (routeTo x) else routeTo x) ∧
    (∀ i, dest x t = Some i → p ∈ line_at (reqLayers x') i ↔ b = false).
Proof.
  intros Hnow Hx (Hp & Hes & Hpl & Hdel & Hfresh & i & Hdest & Hline). rewrite Hdest.
  destruct (lookup_lt_is_Some_2 (cpuSidePorts x) p) as [q Hqp]; [by rewrite (xi_nq _ _ _ _ Hx)|].
  destruct (dest_layer now mreq mresp x t i Hx Hpl Hdest) as (m & l & Hfind & Hdec & Hl).
  unfold recvTimingReq. unfold at_ at 1. rewrite Hqp, Hes, Hfind. cbn [mbind res_bind negb assertb].
  unfold get_req, at_. cbn [reqLayers set_portMap]. rewrite Hl. cbn [mbind res_bind].
  unfold line_at in Hline. rewrite Hl in Hline. pose proof (lookup_lt_Some _ _ _ Hl) as Hi.
  assert (Hlay : layer_inv now l ∨ retrying l) by (destruct (xi_req _ _ _ _ Hx i l Hl) as [?|[_ ?]]; auto).
  destruct (tryTiming_ok now l p) as (ok & l1 & -> & Hdr & Hok); [done|done|]. cbn [mbind res_bind].
  assert (Hkeep : ∀ l', layer_inv now l' → xinv now mreq mresp (put_req i l' (set_portMap m x)))
    by (intros l' Hl'; apply (xinv_put_dest _ _ _ x m i l' (routeTo x)); [done|done|done|apply Hx]).
  assert (Hat : ∀ l' b, (p ∈ line l' ↔ b = false) → ∀ j, Some i = Some j → p ∈ line_at (<[i := l']> (reqLayers x)) j ↔ b = false).
  { intros l' b Hb j Hj. injection Hj as <-. unfold line_at. by rewrite list_lookup_insert_eq. }
  destruct ok; cbn [negb].
  2: { destruct Hok as (Hinv1 & Hln & _). eexists _, _, _. split; [done|]. split; [by apply Hkeep|]. do 2 (split; [done|]).
       split; [eapply advs_insert; [done|]; by eapply adv_weaken, adv_back|]. split; [done|]. apply Hat. rewrite Hln.
       split; [done|]. intros _. apply elem_of_app. right. left. }
  destruct Hok as (Hst & Hev & Hpe & Hln & Hnd & Hidle & Hnb).
  destruct (calcPacketTiming_ok now req_delay t) as (t1 & Ht1 & Htp & Hrq & Hh1 & Hp1); [lia| |done|].
  { unfold req_delay. destruct Hcfg as [_ ? _ _ (? & ? & _) _]. nia. }
  unfold req_delay in Ht1. rewrite Ht1. cbn [mbind res_bind].
  pose proof (Clk.edge_bounds (clockPeriod c) now 1 (co_period Hcfg) ltac:(lia)) as Hedge.
  pose proof (co_period Hcfg) as Hper. destruct a; cbn [negb].
  2: { destruct (failed_inv now (Clk.edge (clockPeriod c) now 1) l1 p) as (l2 & -> & Hinv2 & Hln2 & Hst2 & _);
         [done|done|done|lia|lia|by rewrite Hln|by rewrite Hln|].
       cbn [mbind res_bind]. eexists _, _, _. split; [done|]. split; [by apply Hkeep|]. do 2 (split; [done|]).
       split; [eapply advs_insert; [done|]; apply (adv_front now); [congruence|done|done|done|done]|].
       split; [done|]. apply Hat. rewrite Hln2. split; [done|]. by left. }
  destruct (succeeded_inv now (Clk.edge (clockPeriod c) now 1 + payloadDelay t1) l1)
    as (l2 & Hs & Hinv2 & Hln2 & Hst2 & _); [done|done|lia|lia|by rewrite Hln|].
  assert (Hadv : advs false p (reqLayers x) (<[i := l2]> (reqLayers x)))
    by (eapply advs_insert; [done|]; apply adv_same; [congruence|done]).
  assert (Hin : ∀ j, Some i = Some j → p ∈ line_at (<[i := l2]> (reqLayers x)) j ↔ true = false)
    by (apply Hat; rewrite Hln2, Hln; by split).
  rewrite Htp, Hrq. fold (expects t). destruct (expects t) eqn:Hexp.
  - cbn [routeTo set_portMap]. rewrite bool_decide_true by auto. cbn [assertb mbind res_bind]. rewrite Hs.
    cbn [mbind res_bind]. eexists _, _, _. split; [done|]. split; [|done].
    apply xinv_put_dest; [done|done|done|]. intros r k Hk. apply lookup_insert_Some in Hk as [[_ <-]|[_ Hk]]; [done|].
    by apply (xi_route _ _ _ _ Hx r).
  - cbn [mbind res_bind]. rewrite Hs. cbn [mbind res_bind]. eexists _, _, _. split; [done|]. split; [by apply Hkeep|done].
Qed.

(** A queue with one more response. *)
Lemma queue_ok_later now t q : queue_ok now q → now ≤ t → (∀ e, sendEvent q = Some e → t ≤ e) → queue_ok t q.
Proof.
  intros (He & Hd & Hr) Ht Hev. split; [|done]. unfold event_ok in *. destruct (transmitList q) as [|d l]; [done|].
  destruct (waitingOnRetry q); [destruct He; split; [done|lia]|].
  destruct He as (e & Hee & ? & ?). specialize (Hev e Hee). exists e. split; [done|lia].
Qed.

Lemma queue_sched now p when q : queue_ok now q → PQ.sendable now p when → PQ.room 1 q →
  ∃ q', schedSendTiming now p when q = Ok q' ∧ queue_ok now q' ∧
    length (transmitList q') = S (length (transmitList q)).
Proof.
  intros (He & Hd & Hr) Hs Hroom.
  destruct (schedSendTiming_ok now p when q Hs Hroom) as (q' & Hq & Hl & Hdis & _ & _ & Hev & _); [by left|].
  exists q'. split; [done|]. assert (Hlen : length (transmitList q') = S (length (transmitList q)))
    by (by rewrite Hl, inserted_perm). split; [|done]. split; [auto|]. split.
  - unfold due in *. rewrite Hl, inserted_perm. apply Forall_cons. split; [cbn; destruct Hs; lia|done].
  - destruct Hroom as [?|?]; [left; congruence|right]. rewrite Hlen. lia.
Qed.

(** A sent response: it is queued for the port its request came from, or the
    memory-side port is in line. *)
Lemma recvTimingResp_ok now mreq mresp x t m : 0 < now → xinv now mreq mresp x → respondable now t m x →
  ∃ b x' p, recvTimingResp c now t m x = Ok (b, x') ∧ xinv now mreq mresp x' ∧
    reqLayers x' = reqLayers x ∧ advs false m (respLayers x) (respLayers x') ∧
    routeTo x !! reqp t = Some p ∧
    routeTo x' = (if b then delete (reqp t) (routeTo x) else routeTo x) ∧
    (if b then ∃ q q', cpuSidePorts x !! p = Some q ∧ cpuSidePorts x' = <[p := q']> (cpuSidePorts x) ∧
                length (transmitList q') = S (length (transmitList q))
     else cpuSidePorts x' = cpuSidePorts x).
Proof.
  intros Hnow Hx (Hm & Hes & Hdel & Hmax & p & q & Hroute & Hline & Hq & Hroom). unfold recvTimingResp, at_.
  destruct (lookup_lt_is_Some_2 (reqLayers x) m) as [lm ->]; [by rewrite (xi_nreq _ _ _ _ Hx)|]. cbn [mbind res_bind].
  rewrite Hroute. assert (Hp := xi_route _ _ _ _ Hx _ _ Hroute).
  rewrite (proj2 (Nat.ltb_lt _ _)) by (by rewrite (xi_nresp _ _ _ _ Hx)). cbn [assertb mbind res_bind].
  unfold get_resp, at_. destruct (lookup_lt_is_Some_2 (respLayers x) p) as [l Hl]; [by rewrite (xi_nresp _ _ _ _ Hx)|].
  rewrite Hl. cbn [mbind res_bind]. unfold line_at in Hline. rewrite Hl in Hline.
  assert (Hlay := xi_resp _ _ _ _ Hx p l Hl).
  destruct (tryTiming_ok now l m) as (ok & l1 & -> & Hdr & Hok); [destruct Hlay as [?|[_ ?]]; auto|done|].
  cbn [mbind res_bind]. destruct ok; cbn [negb].
  - destruct Hok as (Hst & Hev & Hpe & Hln & Hnd & _ & _).
    destruct (calcPacketTiming_ok now resp_delay t) as (t1 & Ht1 & Htp & Hrq & Hh1 & Hp1); [lia| |done|].
    { unfold resp_delay. destruct Hcfg as [_ ? _ _ (_ & _ & ?) _]. nia. }
    unfold resp_delay in Ht1. rewrite Ht1. cbn [mbind res_bind]. rewrite Hq. cbn [mbind res_bind].
    pose proof (Clk.edge_bounds (clockPeriod c) now 1 (co_period Hcfg) ltac:(lia)) as Hedge.
    pose proof (co_period Hcfg) as Hper. pose proof (proj1 (Forall_lookup _ _) (xi_queue _ _ _ _ Hx) p q Hq) as Hqok.
    destruct (queue_sched now (tp t1) (now + headerDelay t1) q) as (q' & -> & Hq' & Hlen); [done| |done|].
    { split; [lia|by rewrite Htp]. }
    cbn [mbind res_bind].
    destruct (succeeded_inv now (Clk.edge (clockPeriod c) now 1 + payloadDelay t1) l1)
      as (l2 & -> & Hinv2 & Hln2 & Hst2 & _); [done|done|lia|lia|by rewrite Hln|].
    cbn [mbind res_bind]. eexists _, _, p. split; [done|]. split; [|split; [done|split]].
    + destruct Hx. split; cbn; try done; [destruct xi_dec0; by split|by rewrite length_insert|by rewrite length_insert| | |].
      * by apply layers_ok_insert.
      * intros r k Hk. apply lookup_delete_Some in Hk as [_ Hk]. eauto.
      * by apply Forall_insert.
    + cbn. eapply advs_insert; [done|]. apply adv_same; [congruence|done].
    + split; [done|]. rewrite <- Hrq. split; [done|]. by exists q, q'.
  - destruct Hok as (Hinv1 & Hln & Hinvl & Hwhy). eexists _, _, p. split; [done|]. split; [|split; [done|split]].
    + destruct Hx. split; cbn; try done; [destruct xi_dec0; by split|by rewrite length_insert|]. by apply layers_ok_insert.
    + cbn. eapply advs_insert; [done|]. by eapply adv_back.
    + done.
Qed.

(** ** What was accepted and what was answered *)

(** The requests let through while a port sends, that expect a response. *)
Fixpoint accepted_reqs (now : Z) (sends : list (TPacket * bool)) (p : nat) (x : XBar) : list (nat * nat) :=
  match sends with
  | [] => []
  | (t, a) :: l =>
      match recvTimingReq c now a t p x with
      | Ok (b, _, x') => (if b && expects t then [(reqp t, p)] else []) ++ accepted_reqs now l p x'
      | Err _ => []
      end
  end.

(** The ports whose queue has grown. *)
Fixpoint grown_from (k : nat) (qs qs' : list PacketQueue) : list nat :=
  match qs, qs' with
  | q :: qs, q' :: qs' =>
      (if Nat.ltb (length (transmitList q)) (length (transmitList q')) then [k] else []) ++ grown_from (S k) qs qs'
  | _, _ => []
  end.
Definition grown (qs qs' : list PacketQueue) : list nat := grown_from 0 qs qs'.

(** The responses let through, each with the port it was queued at. *)
Fixpoint answered_reqs (now : Z) (sends : list TPacket) (m : nat) (x : XBar) : list (nat * nat) :=
  match sends with
  | [] => []
  | t :: l =>
      match recvTimingResp c now t m x with
      | Ok (b, x') => (if b : bool then pair (reqp t) <$> grown (cpuSidePorts x) (cpuSidePorts x') else []) ++ answered_reqs now l m x'
      | Err _ => []
      end
  end.

Lemma grown_from_refl k qs : grown_from k qs qs = [].
Proof. revert k. induction qs as [|q qs IH]; intros k; cbn [grown_from]; [done|]. rewrite Nat.ltb_irrefl. apply IH. Qed.

Lemma grown_one qs p q q' : qs !! p = Some q → length (transmitList q') = S (length (transmitList q)) →
  grown qs (<[p := q']> qs) = [p].
Proof.
  intros Hp Hlen. unfold grown. change [p] with [(0 + p)%nat]. generalize 0%nat as k. revert p Hp.
  induction qs as [|q0 qs IH]; intros p Hp k; [done|]. destruct p as [|p].
  - injection Hp as ->. change (<[0%nat := q']> (q :: qs)) with (q' :: qs). cbn [grown_from].
    rewrite (proj2 (Nat.ltb_lt _ _)), grown_from_refl by lia. by rewrite Nat.add_0_r.
  - change (<[S p := q']> (q0 :: qs)) with (q0 :: <[p := q']> qs). cbn [grown_from]. rewrite Nat.ltb_irrefl. cbn [app]. rewrite (IH p Hp). f_equal. lia.
Qed.

Definition refusing (sends : list (TPacket * bool)) : bool := existsb (λ e, negb e.2) sends.

Lemma resend_reqs_ok now mreq mresp sends p x : 0 < now → xinv now mreq mresp x → resendable now sends p x →
  ∃ x', resend_reqs c now sends p x = Ok x' ∧ xinv now mreq mresp x' ∧
    respLayers x' = respLayers x ∧ cpuSidePorts x' = cpuSidePorts x ∧
    advs (refusing sends) p (reqLayers x) (reqLayers x') ∧
    map_to_list (routeTo x') ≡ₚ accepted_reqs now sends p x ++ map_to_list (routeTo x).
Proof.
  intros Hnow. revert x. induction sends as [|[t a] sends IH]; intros x Hx Hs; cbn [resend_reqs accepted_reqs refusing existsb].
  { exists x. do 4 (split; [done|]). split; [apply advs_refl|done]. }
  destruct Hs as [Hs Hrest].
  destruct (xbar_recvTimingReq_ok now mreq mresp x t p a Hnow Hx Hs) as (b & t' & x1 & Hr & Hx1 & Hl1 & Hq1 & Ha1 & Hm1 & _).
  rewrite Hr. cbn [mbind res_bind].
  destruct (IH x1 Hx1 (Hrest _ _ _ Hr)) as (x' & -> & Hx' & Hl & Hq & Ha & Hm).
  exists x'. split; [done|]. split; [done|]. split; [congruence|]. split; [congruence|].
  split; [by eapply advs_trans|]. rewrite Hm, Hm1. destruct (b && expects t) eqn:Hb; [|done].
  apply andb_true_iff in Hb as [-> Hexp]. destruct Hs as (_ & _ & _ & _ & Hf & _).
  rewrite map_to_list_insert by auto. cbn. by rewrite <- Permutation_middle.
Qed.

Lemma resend_resps_ok now mreq mresp sends m x : 0 < now → xinv now mreq mresp x → reresponsable now sends m x →
  ∃ x', resend_resps c now sends m x = Ok x' ∧ xinv now mreq mresp x' ∧
    reqLayers x' = reqLayers x ∧ advs false m (respLayers x) (respLayers x') ∧
    map_to_list (routeTo x) ≡ₚ answered_reqs now sends m x ++ map_to_list (routeTo x').
Proof.
  intros Hnow. revert x. induction sends as [|t sends IH]; intros x Hx Hs; cbn [resend_resps answered_reqs].
  { exists x. do 3 (split; [done|]). split; [apply advs_refl|done]. }
  destruct Hs as [Hs Hrest].
  destruct (recvTimingResp_ok now mreq mresp x t m Hnow Hx Hs) as (b & x1 & p & Hr & Hx1 & Hl1 & Ha1 & Hp & Hm1 & Hq1).
  rewrite Hr. cbn [mbind res_bind].
  destruct (IH x1 Hx1 (Hrest _ _ Hr)) as (x' & -> & Hx' & Hl & Ha & Hm).
  exists x'. split; [done|]. split; [done|]. split; [congruence|].
  split; [by eapply (advs_trans false false)|]. rewrite <- app_assoc, <- Hm, Hm1. destruct b; [|done].
  destruct Hq1 as (q & q' & Hq & -> & Hlen). rewrite (grown_one _ _ _ _ Hq Hlen). cbn.
  by rewrite <- (map_to_list_delete _ _ _ Hp).
Qed.

(** *** Retries *)

Lemma put_put_req i l l' x : put_req i l (put_req i l' x) = put_req i l x.
Proof. unfold put_req. cbn. by rewrite list_insert_insert_eq. Qed.
Lemma put_put_resp i l l' x : put_resp i l (put_resp i l' x) = put_resp i l x.
Proof. unfold put_resp. cbn. by rewrite list_insert_insert_eq. Qed.

Lemma get_put_req i l x : (i < length (reqLayers x))%nat → get_req i (put_req i l x) = Ok l.
Proof. intros Hi. unfold get_req, put_req, at_. cbn. by rewrite list_lookup_insert_eq. Qed.
Lemma get_put_resp i l x : (i < length (respLayers x))%nat → get_resp i (put_resp i l x) = Ok l.
Proof. intros Hi. unfold get_resp, put_resp, at_. cbn. by rewrite list_lookup_insert_eq. Qed.

Lemma xinv_put_req now mreq mresp i l x : xinv now mreq mresp x → 
  layer_inv now l ∨ mreq = Some i ∧ retrying l → xinv now mreq mresp (put_req i l x).
Proof.
  intros [] Hl. split; cbn; try done; [destruct xi_dec0; by split|by rewrite length_insert|].
  intros j k Hk. apply list_lookup_insert_Some in Hk as [(-> & <- & _)|[_ Hk]]; auto.
Qed.
Lemma xinv_put_resp now mreq mresp i l x : xinv now mreq mresp x → 
  layer_inv now l ∨ mresp = Some i ∧ retrying l → xinv now mreq mresp (put_resp i l x).
Proof.
  intros [] Hl. split; cbn; try done; [destruct xi_dec0; by split|by rewrite length_insert|].
  intros j k Hk. apply list_lookup_insert_Some in Hk as [(-> & <- & _)|[_ Hk]]; auto.
Qed.

Lemma layers_ok_mid now mid ls i l : layers_ok now mid ls → mid = Some i → ls !! i = Some l → layer_inv now l →
  layers_ok now None ls.
Proof.
  intros Hls -> Hl Hi j k Hk. destruct (Hls j k Hk) as [?|[Heq Hr]]; [by left|]. injection Heq as <-. left. congruence.
Qed.
Lemma layers_ok_weaken now mid ls : layers_ok now None ls → layers_ok now mid ls.
Proof. intros H i l Hl. destruct (H i l Hl) as [?|[? _]]; [by left|done]. Qed.

(** How the lines of all layers move when the first port of line [i] is told to
    try again; [f]: the peer refused it. *)
Definition told_lines (f : bool) (i : nat) (h : nat) (w : list nat) (ls ls' : list Layer) : Prop :=
  length ls' = length ls ∧
  ∀ j l l', ls !! j = Some l → ls' !! j = Some l' →
    if decide (j = i) then ∃ new, line l' = w ++ new ∨ f = true ∧ line l' = h :: w ++ new
    else ∃ new, line l' = line l ++ new.

(** *** The events of the layers *)

(** The port that is told to try again when a layer is released, and the
    crossbar it then meets; the same when the peer of the layer sends a retry. *)
Definition told_release (put : nat → Layer → XBar → XBar) (ls : list Layer) (i : nat) (x : XBar) : option (nat * XBar) :=
  match ls !! i with
  | Some l =>
      match waitingForPeer l, waitingForLayer l with
      | None, h :: w => Some (h, put i (retry_layer w (set_release None l)) x)
      | _, _ => None
      end
  | None => None
  end.
Definition told_retry (i : nat) (x : XBar) : option (nat * XBar) :=
  match reqLayers x !! i with
  | Some l =>
      match state l, waitingForPeer l with
      | IDLE, Some p => Some (p, put_req i (retry_layer (waitingForLayer l) (set_peer None l)) x)
      | _, _ => None
      end
  | None => None
  end.

Definition told_sends {A} (o : option (nat * XBar)) (ok : nat → XBar → Prop) (sends : list A) : Prop :=
  match o with Some (h, x1) => ok h x1 | None => sends = [] end.

Lemma xinv_retrying_req now i l w x : xinv now None None x → retrying (retry_layer w l) →
  xinv now (Some i) None (put_req i (retry_layer w l) x).
Proof.
  intros Hx Hr. apply xinv_put_req; [|by right]. destruct Hx. split; try done. by apply layers_ok_weaken.
Qed.
Lemma xinv_retrying_resp now i l w x : xinv now None None x → retrying (retry_layer w l) →
  xinv now None (Some i) (put_resp i (retry_layer w l) x).
Proof.
  intros Hx Hr. apply xinv_put_resp; [|by right]. destruct Hx. split; try done. by apply layers_ok_weaken.
Qed.

(** How the lines move in one step: the first port of a line leaves it only
    when it is told to try again. *)
Definition lines_step (f : bool) (o : option (nat * nat)) (ls ls' : list Layer) : Prop :=
  length ls' = length ls ∧
  ∀ j l l', ls !! j = Some l → ls' !! j = Some l' →
    (∀ h, o = Some (j, h) → ∃ w new, line l = h :: w ∧ (line l' = w ++ new ∨ f = true ∧ line l' = h :: w ++ new)) ∧
    ((∀ h, o ≠ Some (j, h)) → ∃ new, line l' = line l ++ new).

Lemma told_lines_step f i h w ls ls' l : ls !! i = Some l → line l = h :: w → told_lines f i h w ls ls' →
  lines_step f (Some (i, h)) ls ls'.
Proof.
  intros Hl Hln [Hlen H]. split; [done|]. intros j k k' Hk Hk'. specialize (H j k k' Hk Hk'). case_decide as Hj.
  - subst j. rewrite Hl in Hk. injection Hk as <-. destruct H as [new H]. split; [|intros Hn; by destruct (Hn h)].
    intros h' Hh'. injection Hh' as <-. by exists w, new.
  - split; [|done]. intros h' Hh'. by injection Hh' as -> ->.
Qed.

Lemma told_lines_put f i h w ls ls' l : told_lines f i h w (<[i := l]> ls) ls' → told_lines f i h w ls ls'.
Proof.
  intros [Hlen H]. rewrite length_insert in Hlen. split; [done|]. intros j k k' Hk Hk'.
  destruct (decide (j = i)) as [->|Hj].
  - specialize (H i l k'). rewrite decide_True in H by done. apply H; [|done].
    apply list_lookup_insert_eq. by eapply lookup_lt_Some.
  - specialize (H j k k'). rewrite decide_False in H by done. apply H; [|done]. by rewrite list_lookup_insert_ne.
Qed.

(** Steps that tell nobody. *)
Lemma lines_step_none f ls ls' : length ls' = length ls →
  (∀ j l l', ls !! j = Some l → ls' !! j = Some l' → ∃ new, line l' = line l ++ new) → lines_step f None ls ls'.
Proof. intros Hn H. split; [done|]. intros j l l' Hl Hl'. split; [done|]. intros _. by apply (H j). Qed.

Lemma lines_step_put f i ls l l' : ls !! i = Some l → line l' = line l → lines_step f None ls (<[i := l']> ls).
Proof.
  intros Hl Hln. apply lines_step_none; [by rewrite length_insert|]. intros j k k' Hk Hk'. exists []. rewrite app_nil_r.
  apply list_lookup_insert_Some in Hk' as [(-> & <- & _)|[_ Hk']]; congruence.
Qed.

Lemma lines_step_refl f ls : lines_step f None ls ls.
Proof. apply lines_step_none; [done|]. intros j k k' Hk Hk'. exists []. rewrite app_nil_r. congruence. Qed.

Lemma advs_step now f f' p ls ls' : layers_ok now None ls → advs f p ls ls' → lines_step f' None ls ls'.
Proof.
  intros Hls [Hn Ha]. apply lines_step_none; [done|]. intros j k k' Hk Hk'.
  destruct (Ha j k k' Hk Hk') as [_ [?|(_ & Hr & _)]]; [done|].
  destruct (Hls j k Hk) as [[_ Hst]|[? _]]; [|done]. destruct Hr as (_ & Hr & _). by rewrite Hr in Hst.
Qed.

(** A layer whose release event is due is busy. *)
Lemma due_busy now l : layer_inv now l → releaseEvent l = Some now → state l = BUSY.
Proof. intros [_ Hs] He. destruct (state l); [by destruct Hs; congruence|done|done]. Qed.

Lemma released_idle now l : layer_inv now l → (waitingForPeer l = None → waitingForLayer l = []) →
  ∀ d, layer_inv now (set_layer_drain d (set_state IDLE (set_release None l))).
Proof. intros [Hn _] Hw d. split; [done|]. done. Qed.

(** The retry of the first port in line, on either side of the crossbar. *)
Section Side.
Context (now : Z) (Hnow : 0 < now).
Context (layers : XBar → list Layer) (put : nat → Layer → XBar → XBar) (inv : option nat → XBar → Prop).
Context (layers_put : ∀ i l x, layers (put i l x) = <[i := l]> (layers x)).
Context (inv_layers : ∀ m x, inv m x → layers_ok now m (layers x)).
Context (inv_done : ∀ i l x, inv (Some i) x → layers x !! i = Some l → layer_inv now l → inv None x).
Context (inv_put : ∀ m i l x, inv m x → layer_inv now l → inv m (put i l x)).

Lemma retry_side (send : nat → XBar → res XBar) f i l h w x x1 :
  layers x !! i = Some l → state l = IDLE → NoDup (line l) → releaseEvent l = None →
  waitingForPeer l = None → waitingForLayer l = h :: w →
  inv (Some i) (put i (retry_layer w l) x) →
  send h (put i (retry_layer w l) x) = Ok x1 → inv (Some i) x1 →
  advs f h (layers (put i (retry_layer w l) x)) (layers x1) →
  ∃ x', retryWaiting (clockPeriod c) (λ x, at_ (layers x) i) (put i) send now x = Ok x' ∧
    inv None x' ∧ told_lines f i h w (layers x) (layers x') ∧ (x' = x1 ∨ ∃ l2, x' = put i l2 x1).
Proof.
  intros Hl Hs Hn Hev Hpe Hw Hx Hsend Hx1 [Hn1 Ha1]. pose proof (lookup_lt_Some _ _ _ Hl) as Hi.
  destruct (retry_layer_retrying l h w Hn Hev Hpe Hw) as (Hretr & Hlw & Hll & Hh).
  rewrite layers_put, length_insert in Hn1. rewrite layers_put in Ha1.
  destruct (lookup_lt_is_Some_2 (layers x1) i) as [l1 Hl1]; [by rewrite Hn1|].
  destruct (retryWaiting_ok (clockPeriod c) (λ x, at_ (layers x) i) (put i) send now x l h w x1 l1)
    as (x' & -> & Hcase); try done; [apply Hcfg|unfold at_; by rewrite Hl|unfold at_; by rewrite Hl1| |].
  { destruct (inv_layers _ _ Hx1 i l1 Hl1) as [?|[_ ?]]; auto. }
  exists x'. split; [done|].
  assert (Hend : ∃ new, line l1 = w ++ new ∨ f = true ∧ line l1 = h :: w ++ new).
  { destruct (Ha1 i (retry_layer w l) l1) as [_ [[new Hnew]|(Hf & _ & new & Hnew)]];
      [by apply list_lookup_insert_eq|done| |]; exists new; rewrite Hlw in Hnew; auto. }
  assert (Hoth : ∀ j k k', j ≠ i → layers x !! j = Some k → layers x1 !! j = Some k' → ∃ new, line k' = line k ++ new).
  { intros j k k' Hne Hk Hk'. assert (Hj : layers (put i (retry_layer w l) x) !! j = Some k)
      by (rewrite layers_put; by rewrite list_lookup_insert_ne).
    destruct (Ha1 j k k') as [_ [?|(_ & Hr & _)]]; [by rewrite list_lookup_insert_ne|done|done|].
    destruct (inv_layers _ _ Hx j k Hj) as [[_ Hst]|[Heq _]]; [destruct Hr as (_ & Hr & _); by rewrite Hr in Hst|].
    by injection Heq as ->. }
  destruct Hcase as [[Hi1 ->]|(Hr & l2 & -> & Hi2 & Hln2 & _)].
  - split; [by apply (inv_done i l1)|]. split; [|by left]. split; [done|]. intros j k k' Hk Hk'.
    case_decide as Hj; [subst j|by apply (Hoth j)]. rewrite Hl1 in Hk'. by injection Hk' as <-.
  - assert (Hl2 : layers (put i l2 x1) !! i = Some l2) by (rewrite layers_put; apply list_lookup_insert_eq; by rewrite Hn1).
    split; [by apply (inv_done i l2); [apply inv_put| |]|]. split; [|right; by exists l2].
    split; [by rewrite layers_put, length_insert|]. intros j k k' Hk Hk'. case_decide as Hj.
    + subst j. rewrite Hl2 in Hk'. injection Hk' as <-. by rewrite Hln2.
    + rewrite layers_put, list_lookup_insert_ne in Hk' by done. by apply (Hoth j).
Qed.


Context (put_put : ∀ i l l' x, put i l (put i l' x) = put i l x).
Context (inv_retrying : ∀ i l w x, inv None x → retrying (retry_layer w l) → inv (Some i) (put i (retry_layer w l) x)).

(** The release of a layer, with the retry it may send. *)
Lemma release_side (send : nat → XBar → res XBar) f i l x : inv None x → layers x !! i = Some l →
  releaseEvent l = Some now →
  (∀ h x0, told_release put (layers x) i x = Some (h, x0) →
     inv (Some i) x0 → ∃ x1, send h x0 = Ok x1 ∧ inv (Some i) x1 ∧ advs f h (layers x0) (layers x1)) →
  ∃ x', releaseLayer (clockPeriod c) (λ x, at_ (layers x) i) (put i) send now (put i (set_release None l) x) = Ok x' ∧
    inv None x' ∧ lines_step f (pair i <$> (fst <$> told_release put (layers x) i x)) (layers x) (layers x') ∧
    match told_release put (layers x) i x with
    | Some (h, x0) => ∃ x1, send h x0 = Ok x1 ∧ (x' = x1 ∨ ∃ l2, x' = put i l2 x1)
    | None => ∃ l2, x' = put i l2 x
    end.
Proof.
  intros Hx Hl Hev Hsend. pose proof (lookup_lt_Some _ _ _ Hl) as Hi.
  destruct (inv_layers _ _ Hx i l Hl) as [Hli|[? _]]; [|done]. pose proof (due_busy _ _ Hli Hev) as Hbusy.
  assert (Hget : ∀ k, at_ (layers (put i k x)) i = Ok k) by (intros k; unfold at_; by rewrite layers_put, list_lookup_insert_eq).
  unfold releaseLayer. rewrite Hget. cbn [mbind res_bind state set_release releaseEvent waitingForLayer waitingForPeer set_state layerDrain].
  rewrite Hbusy, (bool_decide_true (BUSY = BUSY)), (bool_decide_true (@None Z = None)) by done. cbn [assertb mbind res_bind]. rewrite put_put.
  unfold told_release in *. rewrite Hl in Hsend |- *. set (l0 := set_state IDLE (set_release None l)) in *.
  assert (Hstay : ∀ d, (waitingForPeer l = None → waitingForLayer l = []) →
    inv None (put i (set_layer_drain d l0) x) ∧ lines_step f None (layers x) (layers (put i (set_layer_drain d l0) x))).
  { intros d Hw. split; [apply inv_put; [done|by apply released_idle]|]. rewrite layers_put. by eapply lines_step_put. }
  assert (Hl0 : l0 = set_layer_drain (layerDrain l) l0) by done.
  destruct (waitingForPeer l) as [pp|] eqn:Hp.
  - rewrite (bool_decide_false (Some pp = None)) by done. cbn [andb].
    destruct (Hstay (layerDrain l) ltac:(done)) as [H1 H2]. rewrite <- Hl0 in H1, H2.
    exists (put i l0 x). split; [by case_bool_decide|]. split; [done|]. split; [done|]. by exists l0.
  - destruct (waitingForLayer l) as [|h w] eqn:Hw.
    + rewrite (bool_decide_false ([] ≠ [])), bool_decide_true by (done || auto). cbn [andb].
      unfold layer_signalDrainDone. cbn [layerDrain l0 set_state set_release]. fold l0.
      destruct (bool_decide (layerDrain l = Draining)); [rewrite put_put|].
      * destruct (Hstay Drained ltac:(done)) as [H1 H2]. by eauto 10.
      * destruct (Hstay (layerDrain l) ltac:(done)) as [H1 H2]. rewrite <- Hl0 in H1, H2. by eauto 10.
    + rewrite (bool_decide_true (h :: w ≠ [])), (bool_decide_true (None = None)) by done.
      destruct (retry_layer_retrying l0 h w) as (Hretr & _ & Hln & _); [apply Hli|done|done|done|].
      destruct (Hsend h _ eq_refl) as (x1 & Hx1 & Hinv1 & Ha1); [by apply (inv_retrying i l0 w x)|].
      destruct (retry_side send f i l0 h w (put i l0 x) x1) as (x' & -> & Hx' & Ht & Hor);
        rewrite ?put_put; try done; [rewrite layers_put; by apply list_lookup_insert_eq|apply Hli|by apply (inv_retrying i l0 w x)|].
      exists x'. split; [done|]. split; [done|]. split; [|by exists x1].
      cbn. eapply told_lines_step; [done| |rewrite layers_put in Ht; by eapply told_lines_put].
      unfold line in *. by rewrite Hp, Hw.
Qed.
End Side.

Lemma xinv_req_done now i l x : xinv now (Some i) None x → reqLayers x !! i = Some l → layer_inv now l → xinv now None None x.
Proof. intros [] Hl Hi. split; try done. by eapply layers_ok_mid. Qed.
Lemma xinv_resp_done now i l x : xinv now None (Some i) x → respLayers x !! i = Some l → layer_inv now l → xinv now None None x.
Proof. intros [] Hl Hi. split; try done. by eapply layers_ok_mid. Qed.

Lemma retry_req_ok now x i l h w sends : 0 < now →
  reqLayers x !! i = Some l → state l = IDLE → NoDup (line l) → releaseEvent l = None →
  waitingForPeer l = None → waitingForLayer l = h :: w →
  xinv now (Some i) None (put_req i (retry_layer w l) x) →
  resendable now sends h (put_req i (retry_layer w l) x) →
  ∃ x', retryWaiting (clockPeriod c) (get_req i) (put_req i) (resend_reqs c now sends) now x = Ok x' ∧
    xinv now None None x' ∧ respLayers x' = respLayers x ∧ cpuSidePorts x' = cpuSidePorts x ∧
    told_lines (refusing sends) i h w (reqLayers x) (reqLayers x') ∧
    map_to_list (routeTo x') ≡ₚ
      accepted_reqs now sends h (put_req i (retry_layer w l) x) ++ map_to_list (routeTo x).
Proof.
  intros Hnow Hl Hs Hn Hev Hpe Hw Hx Hre.
  destruct (resend_reqs_ok now (Some i) None sends h _ Hnow Hx Hre) as (x1 & Hsend & Hx1 & Hr1 & Hq1 & Ha1 & Hm1).
  destruct (retry_side now Hnow reqLayers put_req (λ m, xinv now m None) ltac:(done) (λ m x H, xi_req _ _ _ _ H)
    (xinv_req_done now) (λ m j k x H Hk, xinv_put_req now m None j k x H (or_introl Hk))
    (resend_reqs c now sends) (refusing sends) i l h w x x1 Hl Hs Hn Hev Hpe Hw Hx Hsend Hx1 Ha1)
    as (x' & Hret & Hx' & Ht & Hor).
  exists x'. split; [done|]. split; [done|]. destruct Hor as [->|[l2 ->]]; done.
Qed.

Lemma retry_resp_ok now x i l h w sends : 0 < now →
  respLayers x !! i = Some l → state l = IDLE → NoDup (line l) → releaseEvent l = None →
  waitingForPeer l = None → waitingForLayer l = h :: w →
  xinv now None (Some i) (put_resp i (retry_layer w l) x) →
  reresponsable now sends h (put_resp i (retry_layer w l) x) →
  ∃ x', retryWaiting (clockPeriod c) (get_resp i) (put_resp i) (resend_resps c now sends) now x = Ok x' ∧
    xinv now None None x' ∧ reqLayers x' = reqLayers x ∧
    told_lines false i h w (respLayers x) (respLayers x') ∧
    map_to_list (routeTo x) ≡ₚ
      answered_reqs now sends h (put_resp i (retry_layer w l) x) ++ map_to_list (routeTo x').
Proof.
  intros Hnow Hl Hs Hn Hev Hpe Hw Hx Hre.
  destruct (resend_resps_ok now None (Some i) sends h _ Hnow Hx Hre) as (x1 & Hsend & Hx1 & Hr1 & Ha1 & Hm1).
  destruct (retry_side now Hnow respLayers put_resp (λ m, xinv now None m) ltac:(done) (λ m x H, xi_resp _ _ _ _ H)
    (xinv_resp_done now) (λ m j k x H Hk, xinv_put_resp now None m j k x H (or_introl Hk))
    (resend_resps c now sends) false i l h w x x1 Hl Hs Hn Hev Hpe Hw Hx Hsend Hx1 Ha1)
    as (x' & Hret & Hx' & Ht & Hor).
  exists x'. split; [done|]. split; [done|]. destruct Hor as [->|[l2 ->]]; done.
Qed.


(** The release of a request layer and of a response layer. *)
Lemma release_req_ok now x i l sends : 0 < now → xinv now None None x → reqLayers x !! i = Some l →
  releaseEvent l = Some now →
  told_sends (told_release put_req (reqLayers x) i x) (resendable now sends) sends →
  ∃ x', release_req c now sends i x = Ok x' ∧ xinv now None None x' ∧
    respLayers x' = respLayers x ∧ cpuSidePorts x' = cpuSidePorts x ∧
    lines_step (refusing sends) (pair i <$> (fst <$> told_release put_req (reqLayers x) i x)) (reqLayers x) (reqLayers x') ∧
    map_to_list (routeTo x') ≡ₚ
      match told_release put_req (reqLayers x) i x with
      | Some (h, x1) => accepted_reqs now sends h x1 | None => [] end ++ map_to_list (routeTo x).
Proof.
  intros Hnow Hx Hl Hev Hs.
  assert (Hsend : ∀ h x0, told_release put_req (reqLayers x) i x = Some (h, x0) → xinv now (Some i) None x0 →
    ∃ x1, resend_reqs c now sends h x0 = Ok x1 ∧ xinv now (Some i) None x1 ∧
      respLayers x1 = respLayers x0 ∧ cpuSidePorts x1 = cpuSidePorts x0 ∧
      advs (refusing sends) h (reqLayers x0) (reqLayers x1) ∧
      map_to_list (routeTo x1) ≡ₚ accepted_reqs now sends h x0 ++ map_to_list (routeTo x0)).
  { intros h x0 Ht Hx0. rewrite Ht in Hs. by apply resend_reqs_ok. }
  destruct (release_side now Hnow reqLayers put_req (λ m, xinv now m None) ltac:(done) (λ m x H, xi_req _ _ _ _ H)
    (xinv_req_done now) (λ m j k x H Hk, xinv_put_req now m None j k x H (or_introl Hk)) put_put_req (xinv_retrying_req now)
    (resend_reqs c now sends) (refusing sends) i l x Hx Hl Hev) as (x' & Hrel & Hx' & Hst & Hor).
  { intros h x0 Ht Hx0. destruct (Hsend h x0 Ht Hx0) as (x1 & ? & ? & _ & _ & ? & _). by exists x1. }
  exists x'. unfold release_req, get_req at 2, at_. rewrite Hl. split; [exact Hrel|]. split; [done|].
  destruct (told_release put_req (reqLayers x) i x) as [[h x0]|] eqn:Ht.
  - destruct Hor as (x1 & Hx1 & Hor).
    assert (Hx0 : xinv now (Some i) None x0 ∧ respLayers x0 = respLayers x ∧ cpuSidePorts x0 = cpuSidePorts x ∧ routeTo x0 = routeTo x).
    { unfold told_release in Ht. rewrite Hl in Ht. destruct (waitingForPeer l) eqn:Hp; [done|].
      destruct (waitingForLayer l) as [|h' w] eqn:Hw; [done|]. injection Ht as -> <-. split; [|done].
      apply xinv_retrying_req; [done|]. destruct (xi_req _ _ _ _ Hx i l Hl) as [[Hn _]|[? _]]; [|done].
      by destruct (retry_layer_retrying (set_release None l) h w) as (? & _). }
    destruct Hx0 as (Hx0 & <- & <- & <-). destruct (Hsend h x0 eq_refl Hx0) as (x1' & Hx1' & _ & Hr & Hq & _ & Hm).
    rewrite Hx1 in Hx1'. injection Hx1' as <-. destruct Hor as [->|[l2 ->]]; done.
  - destruct Hor as [l2 ->]. done.
Qed.

Lemma release_resp_ok now x i l sends : 0 < now → xinv now None None x → respLayers x !! i = Some l →
  releaseEvent l = Some now →
  told_sends (told_release put_resp (respLayers x) i x) (reresponsable now sends) sends →
  ∃ x', release_resp c now sends i x = Ok x' ∧ xinv now None None x' ∧ reqLayers x' = reqLayers x ∧
    lines_step false (pair i <$> (fst <$> told_release put_resp (respLayers x) i x)) (respLayers x) (respLayers x') ∧
    map_to_list (routeTo x) ≡ₚ
      match told_release put_resp (respLayers x) i x with
      | Some (h, x1) => answered_reqs now sends h x1 | None => [] end ++ map_to_list (routeTo x').
Proof.
  intros Hnow Hx Hl Hev Hs.
  assert (Hsend : ∀ h x0, told_release put_resp (respLayers x) i x = Some (h, x0) → xinv now None (Some i) x0 →
    ∃ x1, resend_resps c now sends h x0 = Ok x1 ∧ xinv now None (Some i) x1 ∧ reqLayers x1 = reqLayers x0 ∧
      advs false h (respLayers x0) (respLayers x1) ∧
      map_to_list (routeTo x0) ≡ₚ answered_reqs now sends h x0 ++ map_to_list (routeTo x1)).
  { intros h x0 Ht Hx0. rewrite Ht in Hs. by apply resend_resps_ok. }
  destruct (release_side now Hnow respLayers put_resp (λ m, xinv now None m) ltac:(done) (λ m x H, xi_resp _ _ _ _ H)
    (xinv_resp_done now) (λ m j k x H Hk, xinv_put_resp now None m j k x H (or_introl Hk)) put_put_resp (xinv_retrying_resp now)
    (resend_resps c now sends) false i l x Hx Hl Hev) as (x' & Hrel & Hx' & Hst & Hor).
  { intros h x0 Ht Hx0. destruct (Hsend h x0 Ht Hx0) as (x1 & ? & ? & _ & ? & _). by exists x1. }
  exists x'. unfold release_resp, get_resp at 2, at_. rewrite Hl. split; [exact Hrel|]. split; [done|].
  destruct (told_release put_resp (respLayers x) i x) as [[h x0]|] eqn:Ht.
  - destruct Hor as (x1 & Hx1 & Hor).
    assert (Hx0 : xinv now None (Some i) x0 ∧ reqLayers x0 = reqLayers x ∧ routeTo x0 = routeTo x).
    { unfold told_release in Ht. rewrite Hl in Ht. destruct (waitingForPeer l) eqn:Hp; [done|].
      destruct (waitingForLayer l) as [|h' w] eqn:Hw; [done|]. injection Ht as -> <-. split; [|done].
      apply xinv_retrying_resp; [done|]. destruct (xi_resp _ _ _ _ Hx i l Hl) as [[Hn _]|[? _]]; [|done].
      by destruct (retry_layer_retrying (set_release None l) h w) as (? & _). }
    destruct Hx0 as (Hx0 & <- & <-). destruct (Hsend h x0 eq_refl Hx0) as (x1' & Hx1' & _ & Hr & _ & Hm).
    rewrite Hx1 in Hx1'. injection Hx1' as <-. destruct Hor as [->|[l2 ->]]; done.
  - destruct Hor as [l2 ->]. done.
Qed.

(** A retry from the peer of a memory-side port. *)
Lemma recvReqRetry_ok now x i l p sends : 0 < now → xinv now None None x → reqLayers x !! i = Some l →
  waitingForPeer l = Some p → told_sends (told_retry i x) (resendable now sends) sends →
  ∃ x', recvReqRetry c now sends i x = Ok x' ∧ xinv now None None x' ∧
    respLayers x' = respLayers x ∧ cpuSidePorts x' = cpuSidePorts x ∧
    lines_step (refusing sends) (pair i <$> (fst <$> told_retry i x)) (reqLayers x) (reqLayers x') ∧
    map_to_list (routeTo x') ≡ₚ
      match told_retry i x with Some (h, x1) => accepted_reqs now sends h x1 | None => [] end ++ map_to_list (routeTo x).
Proof.
  intros Hnow Hx Hl Hp Hs. pose proof (lookup_lt_Some _ _ _ Hl) as Hi.
  destruct (xi_req _ _ _ _ Hx i l Hl) as [Hli|[? _]]; [|done].
  assert (Hget : get_req i x = Ok l) by (unfold get_req, at_; by rewrite Hl).
  unfold recvReqRetry, recvRetry, told_retry in *. rewrite Hget. rewrite Hl in Hs |- *.
  cbn [mbind res_bind]. rewrite Hp in Hs |- *. cbv zeta. set (l0 := set_peer None (set_line (p :: waitingForLayer l) l)).
  assert (Hln0 : line l0 = line l) by (unfold line; by rewrite Hp).
  assert (Hst0 : state l0 = state l) by done. rewrite Hst0.
  destruct (state l) eqn:Hst; [rewrite bool_decide_true by done|rewrite bool_decide_false, bool_decide_true by done|by destruct Hli as [_ ?]; rewrite Hst in *].
  - assert (Hev : releaseEvent l = None) by (destruct Hli as [_ Hli]; rewrite Hst in Hli; apply Hli).
    destruct (retry_layer_retrying l0 p (waitingForLayer l)) as (Hretr & _ & Hln & _); [rewrite Hln0; apply Hli|done|done|done|].
    destruct (retry_req_ok now (put_req i l0 x) i l0 p (waitingForLayer l) sends) as (x' & Hret & Hx' & Hr & Hq & Ht & Hm);
      [done|by apply list_lookup_insert_eq|done|rewrite Hln0; apply Hli|done|done|done| | |].
    + rewrite put_put_req. by apply xinv_retrying_req.
    + rewrite put_put_req. exact Hs.
    + exists x'. split; [exact Hret|]. split; [done|]. do 2 (split; [done|]). rewrite put_put_req in Hm. split; [|exact Hm].
      cbn [reqLayers put_req set_reqLayers] in Ht. cbn. eapply told_lines_step; [done| |by eapply told_lines_put].
      unfold line. by rewrite Hp.
  - cbn [assertb mbind res_bind]. eexists. split; [done|]. split; [|do 2 (split; [done|]); split; [cbn; by eapply lines_step_put|done]].
    apply xinv_put_req; [done|]. left. destruct Hli as [Hn Hli]. split; [by rewrite Hln0|]. rewrite Hst0. by rewrite Hst in Hli.
Qed.

(** The response queue of a port, when its event fires or its peer sends a
    retry. *)
Lemma queue_fire now q acc : queue_ok now q → sendEvent q = Some now →
  ∃ o q', processSendEvent now (mkReply acc []) (PQ.set_event None q) = Ok (o, q') ∧ queue_ok now q'.
Proof.
  intros (He & Hd & Hr) Hev. unfold event_ok in He.
  destruct (transmitList q) as [|d l] eqn:Hl; [by destruct He; congruence|].
  destruct (waitingOnRetry q) eqn:Hw; [by destruct He; congruence|]. destruct He as (t & Ht & ? & ?).
  assert (t = now) as -> by congruence. unfold processSendEvent. cbn [waitingOnRetry PQ.set_event]. rewrite Hw.
  cbn [negb assertb mbind res_bind].
  destruct (sendDeferredPacket_ok (mkSys q now [] []) (PQ.set_event None q) (mkReply acc []) d l)
    as (o & q' & Hs & He' & Hdis & _ & Hd' & Ho); try done; [cbn; lia|].
  exists o, q'. split; [done|]. split; [done|]. split; [done|]. destruct Hr as [?|Hr]; [left; by rewrite Hdis|right].
  rewrite Hl in Hr. cbn in Hr, Ho. destruct acc; destruct Ho as (_ & Ho); [rewrite Ho|rewrite (proj1 Ho)]; cbn; lia.
Qed.

Lemma queue_retry now q acc : queue_ok now q → waitingOnRetry q = true →
  ∃ o q', retry now (mkReply acc []) q = Ok (o, q') ∧ queue_ok now q'.
Proof.
  intros (He & Hd & Hr) Hw. unfold event_ok in He.
  destruct (transmitList q) as [|d l] eqn:Hl; [by destruct He; congruence|].
  rewrite Hw in He. destruct He as [Hev Htick]. unfold retry. rewrite Hw. cbn [assertb mbind res_bind].
  destruct (sendDeferredPacket_ok (mkSys q now [] []) (PQ.set_waiting false q) (mkReply acc []) d l)
    as (o & q' & Hs & He' & Hdis & _ & Hd' & Ho); try done.
  exists o, q'. split; [done|]. split; [done|]. split; [done|]. destruct Hr as [?|Hr]; [left; by rewrite Hdis|right].
  rewrite Hl in Hr. cbn in Hr, Ho. destruct acc; destruct Ho as (_ & Ho); [rewrite Ho|rewrite (proj1 Ho)]; cbn; lia.
Qed.

(** ** The transition system *)

Inductive Op :=
| Send (p : nat) (t : TPacket) (answer : bool)
| Respond (m : nat) (t : TPacket)
| ReleaseReq (i : nat) (sends : list (TPacket * bool))
| ReleaseResp (i : nat) (sends : list TPacket)
| PeerRetry (m : nat) (sends : list (TPacket * bool))
| FireQueue (p : nat) (accepted : bool)
| RetryQueue (p : nat) (accepted : bool)
| DrainLayers
| Advance (t : Z).

(** The crossbar, the time, the requests let through that expect a response and
    the responses queued, each with its port, and the ports told to try again. *)
Record Sys := mkSys {
  xb : XBar;
  time : Z;
  passed : list (nat * nat);
  answered : list (nat * nat);
  told : list (nat * nat);
}.

Definition told_by (i : nat) (o : option (nat * XBar)) : list (nat * nat) :=
  match o with Some (h, _) => [(i, h)] | None => [] end.

Definition exec (op : Op) (s : Sys) : res Sys :=
  let x := xb s in
  let now := time s in
  match op with
  | Send p t a =>
      x' ← resend_reqs c now [(t, a)] p x;
      Ok (mkSys x' now (passed s ++ accepted_reqs now [(t, a)] p x) (answered s) (told s))
  | Respond m t =>
      x' ← resend_resps c now [t] m x;
      Ok (mkSys x' now (passed s) (answered s ++ answered_reqs now [t] m x) (told s))
  | ReleaseReq i sends =>
      let o := told_release put_req (reqLayers x) i x in
      x' ← release_req c now sends i x;
      Ok (mkSys x' now (passed s ++ match o with Some (h, x1) => accepted_reqs now sends h x1 | None => [] end)
            (answered s) (told s ++ told_by i o))
  | ReleaseResp i sends =>
      let o := told_release put_resp (respLayers x) i x in
      x' ← release_resp c now sends i x;
      Ok (mkSys x' now (passed s)
            (answered s ++ match o with Some (h, x1) => answered_reqs now sends h x1 | None => [] end) (told s))
  | PeerRetry m sends =>
      let o := told_retry m x in
      x' ← recvReqRetry c now sends m x;
      Ok (mkSys x' now (passed s ++ match o with Some (h, x1) => accepted_reqs now sends h x1 | None => [] end)
            (answered s) (told s ++ told_by m o))
  | FireQueue p acc =>
      q ← at_ (cpuSidePorts x) p;
      '(_, q) ← processSendEvent now (mkReply acc []) (PQ.set_event None q);
      Ok (mkSys (set_queues (<[p := q]> (cpuSidePorts x)) x) now (passed s) (answered s) (told s))
  | RetryQueue p acc =>
      q ← at_ (cpuSidePorts x) p;
      '(_, q) ← retry now (mkReply acc []) q;
      Ok (mkSys (set_queues (<[p := q]> (cpuSidePorts x)) x) now (passed s) (answered s) (told s))
  | DrainLayers =>
      Ok (mkSys (set_respLayers (layer_drain <$> respLayers x) (set_reqLayers (layer_drain <$> reqLayers x) x))
            now (passed s) (answered s) (told s))
  | Advance t => Ok (mkSys x t (passed s) (answered s) (told s))
  end.

Definition enabled (op : Op) (s : Sys) : Prop :=
  let x := xb s in
  let now := time s in
  match op with
  | Send p t a => sendable now t p x
  | Respond m t => respondable now t m x
  | ReleaseReq i sends => ∃ l, reqLayers x !! i = Some l ∧ releaseEvent l = Some now ∧
      told_sends (told_release put_req (reqLayers x) i x) (resendable now sends) sends
  | ReleaseResp i sends => ∃ l, respLayers x !! i = Some l ∧ releaseEvent l = Some now ∧
      told_sends (told_release put_resp (respLayers x) i x) (reresponsable now sends) sends
  | PeerRetry m sends => ∃ l p, reqLayers x !! m = Some l ∧ waitingForPeer l = Some p ∧
      told_sends (told_retry m x) (resendable now sends) sends
  | FireQueue p acc => ∃ q, cpuSidePorts x !! p = Some q ∧ sendEvent q = Some now
  | RetryQueue p acc => ∃ q, cpuSidePorts x !! p = Some q ∧ waitingOnRetry q = true
  | DrainLayers => True
  | Advance t => now ≤ t ∧
      Forall (λ l, ∀ e, releaseEvent l = Some e → t ≤ e) (reqLayers x ++ respLayers x) ∧
      Forall (λ q, ∀ e, sendEvent q = Some e → t ≤ e) (cpuSidePorts x)
  end.

Definition step (s s' : Sys) : Prop := ∃ op, enabled op s ∧ exec op s = Ok s'.

(** A crossbar that has the ranges of all its ports, at any time after the
    start. *)
Definition start (s : Sys) : Prop :=
  ∃ l t, reported c l rep ∧ (∀ id, (id < nMem c)%nat → is_Some (rep !! id)) ∧ (0 < nMem c)%nat ∧ 0 < t ∧
    range_changes c l (NoncoherentXBar_new c) = Ok (xb s) ∧ s = mkSys (xb s) t [] [] [].
Definition reachable (s : Sys) : Prop := ∃ s0, start s0 ∧ rtc step s0 s.

(** *** Every operation *)

(** Which request layer the operation tells a port of, and whether that port's
    packet was refused again. *)
Definition tells (op : Op) (x : XBar) : option (nat * nat) :=
  match op with
  | ReleaseReq i _ => pair i <$> (fst <$> told_release put_req (reqLayers x) i x)
  | PeerRetry m _ => pair m <$> (fst <$> told_retry m x)
  | _ => None
  end.
Definition refused_again (op : Op) : bool :=
  match op with ReleaseReq _ sends | PeerRetry _ sends => refusing sends | _ => false end.

Record sinv (s : Sys) : Prop := {
  si_x : xinv (time s) None None (xb s);
  si_time : 0 < time s;
  si_log : passed s ≡ₚ answered s ++ map_to_list (routeTo (xb s));
}.

Definition req_lines_step (op : Op) (s s' : Sys) : Prop :=
  told s' = told s ++ option_list (tells op (xb s)) ∧
  lines_step (refused_again op) (tells op (xb s)) (reqLayers (xb s)) (reqLayers (xb s')).

Lemma xinv_queues now qs x : xinv now None None x → length qs = length (cpuSidePorts x) → Forall (queue_ok now) qs →
  xinv now None None (set_queues qs x).
Proof. intros [] Hl Hq. split; cbn; try done; [destruct xi_dec0; by split|congruence]. Qed.

Lemma xinv_later now t x : xinv now None None x → now ≤ t →
  Forall (λ l, ∀ e, releaseEvent l = Some e → t ≤ e) (reqLayers x ++ respLayers x) →
  Forall (λ q, ∀ e, sendEvent q = Some e → t ≤ e) (cpuSidePorts x) → xinv t None None x.
Proof.
  intros [] Ht [Hl1 Hl2]%Forall_app Hq. split; try done.
  - intros i l Hl. destruct (xi_req0 i l Hl) as [?|[? _]]; [left|done]. eapply layer_inv_later; [done|].
    by apply (proj1 (Forall_lookup _ _) Hl1 i l).
  - intros i l Hl. destruct (xi_resp0 i l Hl) as [?|[? _]]; [left|done]. eapply layer_inv_later; [done|].
    by apply (proj1 (Forall_lookup _ _) Hl2 i l).
  - apply Forall_lookup. intros i q Hqi. apply (queue_ok_later now); [|done|].
    + by apply (proj1 (Forall_lookup _ _) xi_queue0 i q).
    + by apply (proj1 (Forall_lookup _ _) Hq i q).
Qed.

Lemma layer_drain_inv now l : layer_inv now l → layer_inv now (layer_drain l).
Proof. intros [? ?]. by split. Qed.

Lemma xinv_drain now x : xinv now None None x →
  xinv now None None (set_respLayers (layer_drain <$> respLayers x) (set_reqLayers (layer_drain <$> reqLayers x) x)).
Proof.
  intros []. split; cbn; try done; [destruct xi_dec0; by split|by rewrite length_fmap|by rewrite length_fmap| |];
    intros i l Hl; rewrite list_lookup_fmap in Hl; apply fmap_Some in Hl as (l0 & Hl & ->).
  - destruct (xi_req0 i l0 Hl) as [?|[? _]]; [left|done]. by apply layer_drain_inv.
  - destruct (xi_resp0 i l0 Hl) as [?|[? _]]; [left|done]. by apply layer_drain_inv.
Qed.

Lemma xbar_exec_ok op s : sinv s → enabled op s → ∃ s', exec op s = Ok s' ∧ sinv s' ∧ req_lines_step op s s'.
Proof.
  intros [Hx Ht Hlog] Hen. destruct op as [p t a|m t|i sends|i sends|m sends|p acc|p acc| |t]; cbn [enabled exec] in *.
  - destruct (resend_reqs_ok (time s) None None [(t, a)] p (xb s) Ht Hx) as (x' & -> & Hx' & _ & _ & Ha & Hm);
      [by split|]. cbn [mbind res_bind]. eexists. split; [done|]. split.
    + split; [done|done|]. cbn [passed answered xb]. rewrite Hm, Hlog. solve_Permutation.
    + split; [by rewrite app_nil_r|]. eapply advs_step; [apply Hx|done].
  - destruct (resend_resps_ok (time s) None None [t] m (xb s) Ht Hx) as (x' & -> & Hx' & Hr & _ & Hm);
      [by split|]. cbn [mbind res_bind]. eexists. split; [done|]. split.
    + split; [done|done|]. cbn [passed answered xb]. by rewrite Hlog, Hm, app_assoc.
    + split; [by rewrite app_nil_r|]. cbn [xb]. rewrite Hr. apply lines_step_refl.
  - destruct Hen as (l & Hl & Hev & Hs).
    destruct (release_req_ok (time s) (xb s) i l sends Ht Hx Hl Hev Hs) as (x' & -> & Hx' & _ & _ & Hst & Hm).
    cbn [mbind res_bind]. eexists. split; [done|]. split.
    + split; [done|done|]. cbn [passed answered xb]. rewrite Hm, Hlog. solve_Permutation.
    + split; [|exact Hst]. cbn [told tells]. f_equal. unfold told_by. by destruct (told_release _ _ _ _) as [[h ?]|].
  - destruct Hen as (l & Hl & Hev & Hs).
    destruct (release_resp_ok (time s) (xb s) i l sends Ht Hx Hl Hev Hs) as (x' & -> & Hx' & Hr & _ & Hm).
    cbn [mbind res_bind]. eexists. split; [done|]. split.
    + split; [done|done|]. cbn [passed answered xb]. by rewrite Hlog, Hm, app_assoc.
    + split; [by rewrite app_nil_r|]. cbn [xb]. rewrite Hr. apply lines_step_refl.
  - destruct Hen as (l & p & Hl & Hp & Hs).
    destruct (recvReqRetry_ok (time s) (xb s) m l p sends Ht Hx Hl Hp Hs) as (x' & -> & Hx' & _ & _ & Hst & Hm).
    cbn [mbind res_bind]. eexists. split; [done|]. split.
    + split; [done|done|]. cbn [passed answered xb]. rewrite Hm, Hlog. solve_Permutation.
    + split; [|exact Hst]. cbn [told tells]. f_equal. unfold told_by. by destruct (told_retry _ _) as [[h ?]|].
  - destruct Hen as (q & Hq & Hev). unfold at_. rewrite Hq. cbn [mbind res_bind].
    destruct (queue_fire (time s) q acc) as (o & q' & -> & Hq'); [by apply (proj1 (Forall_lookup _ _) (xi_queue _ _ _ _ Hx) p q)|done|].
    cbn [mbind res_bind]. eexists. split; [done|]. split; [|split; [by rewrite app_nil_r|apply lines_step_refl]].
    split; [|done|done]. cbn. apply xinv_queues; [done|by rewrite length_insert|]. by apply Forall_insert; [apply Hx|].
  - destruct Hen as (q & Hq & Hw). unfold at_. rewrite Hq. cbn [mbind res_bind].
    destruct (queue_retry (time s) q acc) as (o & q' & -> & Hq'); [by apply (proj1 (Forall_lookup _ _) (xi_queue _ _ _ _ Hx) p q)|done|].
    cbn [mbind res_bind]. eexists. split; [done|]. split; [|split; [by rewrite app_nil_r|apply lines_step_refl]].
    split; [|done|done]. cbn. apply xinv_queues; [done|by rewrite length_insert|]. by apply Forall_insert; [apply Hx|].
  - eexists. split; [done|]. split; [split; [by apply xinv_drain|done|done]|]. split; [by rewrite app_nil_r|].
    apply lines_step_none; [cbn; by rewrite length_fmap|]. cbn. intros j l l' Hl Hl'. rewrite list_lookup_fmap, Hl in Hl'.
    injection Hl' as <-. exists []. by rewrite app_nil_r.
  - destruct Hen as (Hle & Hl & Hq). eexists. split; [done|]. split; [|split; [by rewrite app_nil_r|apply lines_step_refl]].
    split; cbn; [by eapply xinv_later|lia|done].
Qed.

Lemma new_queue_ok now : queue_ok now (PacketQueue_new false false).
Proof. split; [done|]. split; [constructor|]. right. cbn. lia. Qed.

Lemma new_layers_ok now n : layers_ok now None (replicate n Layer_new).
Proof. intros i l [-> _]%lookup_replicate. left. split; [constructor|done]. Qed.

Lemma xbar_start_inv s : start s → sinv s.
Proof.
  intros (l & t & Hrep & Hall & Hn & Ht & Hx & ->). cbn [xb] in Hx.
  destruct (reported_spec c l rep (co_ports Hcfg) Hn Hrep) as (x & Hx' & Hd & _ & Hreq & Hresp & Hroute & Hq).
  rewrite Hx in Hx'. injection Hx' as Hxb. rewrite <- Hxb in *. clear Hxb x.
  split; cbn [xb time passed answered]; [|done|by rewrite Hroute, map_to_list_empty].
  split; try done; rewrite ?Hreq, ?Hresp, ?Hq, ?length_replicate; try done; [| | | |].
  - rewrite (dc_all _ _ _ Hd). apply forallb_id. rewrite (dc_len _ _ _ Hd). intros i Hi. by apply (dc_got _ _ _ Hd), Hall.
  - apply new_layers_ok.
  - apply new_layers_ok.
  - intros r p. by rewrite Hroute, lookup_empty.
  - apply Forall_replicate, new_queue_ok.
Qed.

Lemma reachable_sinv s : reachable s → sinv s.
Proof.
  intros (s0 & H0 & Hsteps). apply xbar_start_inv in H0. induction Hsteps as [s|s s1 s2 (op & Hen & Hex) _ IH]; [done|].
  apply IH. destruct (xbar_exec_ok op s H0 Hen) as (s' & Hex' & ? & _). rewrite Hex in Hex'. by injection Hex' as ->.
Qed.

(** ** Runs *)

Inductive run : list Op → Sys → Sys → Prop :=
| run_nil s : run [] s s
| run_cons op ops s s1 s2 : enabled op s → exec op s = Ok s1 → run ops s1 s2 → run (op :: ops) s s2.

(** The ports a layer has told, in order. *)
Definition told_at (j : nat) (l : list (nat * nat)) : list nat := snd <$> filter (λ e, e.1 = j) l.

Lemma told_at_app j l1 l2 : told_at j (l1 ++ l2) = told_at j l1 ++ told_at j l2.
Proof. unfold told_at. by rewrite filter_app, fmap_app. Qed.

Lemma told_at_one i j h : told_at j (option_list (Some (i, h))) = if decide (i = j) then [h] else [].
Proof.
  unfold told_at. change (option_list (Some (i, h))) with [(i, h)]. rewrite filter_cons, filter_nil. simpl.
  by case_decide.
Qed.

Lemma step_line op s s' j l l' : req_lines_step op s s' → refused_again op = false →
  reqLayers (xb s) !! j = Some l → reqLayers (xb s') !! j = Some l' →
  ∃ late, told_at j (option_list (tells op (xb s))) ++ line l' = line l ++ late.
Proof.
  intros (_ & _ & H) Hf Hl Hl'. destruct (H j l l' Hl Hl') as [Htold Hnot].
  destruct (tells op (xb s)) as [[i h]|]; [|by apply Hnot].
  destruct (decide (i = j)) as [->|Hij].
  - destruct (Htold h eq_refl) as (w & new & -> & [->|[Hr _]]); [|congruence]. exists new.
    by rewrite told_at_one, decide_True.
  - destruct Hnot as [new ->]; [congruence|]. exists new. by rewrite told_at_one, decide_False.
Qed.

Lemma run_line ops s s' j l : sinv s → run ops s s' → Forall (λ op, refused_again op = false) ops →
  reqLayers (xb s) !! j = Some l →
  ∃ l' new late, reqLayers (xb s') !! j = Some l' ∧ told s' = told s ++ new ∧
    told_at j new ++ line l' = line l ++ late.
Proof.
  intros Hs Hrun. revert l Hs. induction Hrun as [s|op ops s s1 s2 Hen Hex Hrun IH]; intros l Hs Hf Hl.
  { exists l, [], []. by rewrite !app_nil_r. }
  apply Forall_cons in Hf as [Hf Hfs]. destruct (xbar_exec_ok op s Hs Hen) as (s1' & Hex' & Hs1 & Hstep).
  rewrite Hex in Hex'. injection Hex' as <-.
  destruct (lookup_lt_is_Some_2 (reqLayers (xb s1)) j) as [l1 Hl1].
  { destruct Hstep as (_ & -> & _). by eapply lookup_lt_Some. }
  destruct (step_line op s s1 j l l1 Hstep Hf Hl Hl1) as [late1 H1].
  destruct (IH l1 Hs1 Hfs Hl1) as (l2 & new & late & Hl2 & Ht2 & H2).
  exists l2, (option_list (tells op (xb s)) ++ new), (late1 ++ late). split; [done|].
  split; [rewrite Ht2, (proj1 Hstep); by rewrite app_assoc|].
  by rewrite told_at_app, <- app_assoc, H2, !app_assoc, H1.
Qed.
End Run.

(** ** Theorems *)

(** C9: a crossbar whose peers follow the port protocol never trips a check: in
    every reachable state each request, response, retry and event it may meet
    is handled, whatever the peers send while they are being told to try again;
    every request let through is answered to the port it came from or still
    awaits its response; and nobody is forgotten: when a port waits for a layer,
    the layer has its release pending or its peer owes it a retry. *)
Theorem crossbar_safe c rep s : cfg_ok c rep → reachable c rep s →
  (∀ op, enabled c op s → ∃ s', exec c op s = Ok s') ∧
  passed s ≡ₚ answered s ++ map_to_list (routeTo (xb s)) ∧
  ∀ l, l ∈ reqLayers (xb s) ++ respLayers (xb s) → line l ≠ [] →
    waitingForPeer l ≠ None ∨ ∃ t, releaseEvent l = Some t ∧ time s ≤ t.
Proof.
  intros Hc Hr. apply (reachable_sinv c rep Hc) in Hr as Hs. split; [|split; [apply Hs|]].
  - intros op Hen. destruct (xbar_exec_ok c rep Hc op s Hs Hen) as (s' & ? & _). by exists s'.
  - intros l Hl Hne. assert (Hli : layer_inv (time s) l).
    { apply elem_of_app in Hl as [[i Hi]%list_elem_of_lookup|[i Hi]%list_elem_of_lookup].
      - by destruct (xi_req _ _ _ _ _ _ (si_x _ _ _ Hs) i l Hi) as [?|[? _]].
      - by destruct (xi_resp _ _ _ _ _ _ (si_x _ _ _ Hs) i l Hi) as [?|[? _]]. }
    destruct Hli as [_ Hli]. destruct (state l); [|by right|done]. left. intros Hp. apply Hne. unfold line.
    rewrite Hp. by apply Hli.
Qed.

(** C23: waiting ports are served in order: over any run in which no port that
    is told to try again is refused by the peer, the ports a layer tells,
    followed by those still in its line, are the line it had, followed by those
    that came later.  So nobody is overtaken, lost or told twice. *)
Theorem crossbar_fifo c rep s ops s' j l : cfg_ok c rep → reachable c rep s → run c ops s s' →
  Forall (λ op, refused_again op = false) ops → reqLayers (xb s) !! j = Some l →
  ∃ l' new late, reqLayers (xb s') !! j = Some l' ∧ told s' = told s ++ new ∧
    told_at j new ++ line l' = line l ++ late.
Proof. intros Hc Hr. by apply (run_line c rep Hc), reachable_sinv. Qed.

(** ** Witnesses *)

Lemma small_ok : cfg_ok small two_rep.
Proof.
  split; try (vm_compute; intuition congruence).
  - apply small_ports.
  - intros id [rs Hrs]. unfold two_rep in Hrs. apply lookup_insert_Some in Hrs as [[<- _]|[_ Hrs]]; [cbn; lia|].
    apply lookup_insert_Some in Hrs as [[<- _]|[_ Hrs]]; [cbn; lia|]. by rewrite lookup_empty in Hrs.
Qed.

(** Both ports write to the NVM; the second has to wait. *)
Definition from_ok (r : res Sys) (s : Sys) : Sys := match r with Ok s' => s' | Err _ => s end.
Definition idle_xbar : XBar :=
  match range_changes small two_reports (NoncoherentXBar_new small) with Ok x => x | Err _ => NoncoherentXBar_new small end.
Definition sys0 : Sys := mkSys idle_xbar 1000 [] [] [].
Definition wr (n : nat) (a : Z) : TPacket :=
  mkTP (set_data (Some (replicate 8 7)) (createWrite (mkRequest a 8 0 (Some 0) None [] None))) n 0 0.
Definition sys1 : Sys := from_ok (exec small (Send 0 (wr 1 0x30000040) true) sys0) sys0.
Definition sys2 : Sys := from_ok (exec small (Send 1 (wr 2 0x30000080) true) sys1) sys1.
Definition sys3 : Sys := from_ok (exec small (Advance 3000) sys2) sys2.
Definition sys4 : Sys := from_ok (exec small (ReleaseReq 1 [(wr 2 0x30000080, true)]) sys3) sys3.

Lemma sys0_start : start small two_rep sys0.
Proof.
  exists two_reports, 1000. split; [apply two_reported|]. split; [apply two_all|]. split; [cbn; lia|]. split; [lia|].
  split; [vm_compute; reflexivity|reflexivity].
Qed.

Ltac by_decide := apply (bool_decide_unpack _); vm_compute; exact I.

Lemma wr_sendable now p n a x i : (p < 2)%nat → plain_entry (Pkt.getAddrRange (tp (wr n a))) →
  delays_ok small now (req_delay small) (wr n a) → routeTo x !! n = None →
  dest small x (wr n a) = Some i → p ∉ line_at (reqLayers x) i → sendable small now (wr n a) p x.
Proof. intros. split; [done|]. split; [done|]. split; [done|]. split; [done|]. split; [done|]. by exists i. Qed.

Lemma sys1_step : enabled small (Send 0 (wr 1 0x30000040) true) sys0.
Proof.
  apply (wr_sendable _ _ _ _ _ 1%nat); [lia|repeat split; vm_compute; congruence|repeat split; vm_compute; congruence|
    vm_compute; reflexivity|vm_compute; reflexivity|by_decide].
Qed.
Lemma sys2_step : enabled small (Send 1 (wr 2 0x30000080) true) sys1.
Proof.
  apply (wr_sendable _ _ _ _ _ 1%nat); [lia|repeat split; vm_compute; congruence|repeat split; vm_compute; congruence|
    vm_compute; reflexivity|vm_compute; reflexivity|by_decide].
Qed.

Lemma sys2_reachable : reachable small two_rep sys2.
Proof.
  exists sys0. split; [apply sys0_start|].
  eapply rtc_l; [exists (Send 0 (wr 1 0x30000040) true); split; [apply sys1_step|vm_compute; reflexivity]|].
  eapply rtc_l; [exists (Send 1 (wr 2 0x30000080) true); split; [apply sys2_step|vm_compute; reflexivity]|].
  apply rtc_refl.
Qed.

Lemma crossbar_safe_witness :
  (∀ op, enabled small op sys2 → ∃ s', exec small op sys2 = Ok s') ∧
  passed sys2 ≡ₚ answered sys2 ++ map_to_list (routeTo (xb sys2)) ∧
  ∀ l, l ∈ reqLayers (xb sys2) ++ respLayers (xb sys2) → line l ≠ [] →
    waitingForPeer l ≠ None ∨ ∃ t, releaseEvent l = Some t ∧ time sys2 ≤ t.
Proof. apply (crossbar_safe small two_rep sys2 small_ok sys2_reachable). Defined.

Lemma events_after {A} (f : A → option Z) t l :
  forallb (λ x, match f x with Some e => t <=? e | None => true end) l = true →
  Forall (λ x, ∀ e, f x = Some e → t ≤ e) l.
Proof.
  intros H. apply Forall_forall. intros x Hx%list_elem_of_In e He. apply (proj1 (forallb_forall _ _) H) in Hx.
  rewrite He in Hx. by apply Z.leb_le.
Qed.

Lemma sys3_step : enabled small (Advance 3000) sys2.
Proof. split; [vm_compute; congruence|]. split; apply events_after; vm_compute; reflexivity. Qed.

Lemma sys4_run : run small [Advance 3000; ReleaseReq 1 [(wr 2 0x30000080, true)]] sys2 sys4.
Proof.
  eapply run_cons; [apply sys3_step|vm_compute; reflexivity|].
  eapply run_cons; [|vm_compute; reflexivity|apply run_nil].
  eexists. split; [vm_compute; reflexivity|]. split; [vm_compute; reflexivity|].
  vm_compute told_release. split; [|done].
  apply (wr_sendable _ _ _ _ _ 1%nat); [lia|repeat split; vm_compute; congruence|repeat split; vm_compute; congruence|
    vm_compute; reflexivity|vm_compute; reflexivity|by_decide].
Qed.

Lemma crossbar_fifo_witness :
  ∃ l l' new late, reqLayers (xb sys2) !! 1%nat = Some l ∧ line l = [1%nat] ∧
    reqLayers (xb sys4) !! 1%nat = Some l' ∧ told sys4 = told sys2 ++ new ∧ told_at 1 new ++ line l' = line l ++ late.
Proof.
  eexists. destruct (crossbar_fifo small two_rep sys2 _ sys4 1 (match reqLayers (xb sys2) !! 1%nat with Some l => l | None => Layer_new end)
    small_ok sys2_reachable sys4_run) as (l' & new & late & H1 & H2 & H3); [by repeat constructor|vm_compute; reflexivity|].
  exists l', new, late. split; [vm_compute; reflexivity|]. split; [vm_compute; reflexivity|]. auto.
Defined.

(** [drain] of a layer looks at its state only: a layer that is idle while a
    port waits for its peer reports that it is drained. *)
Example drain_ignores_waiting :
  ∃ s, exec small (Send 0 (wr 1 0x30000040) false) sys0 = Ok s ∧
    ∃ s1 s2 l, exec small (Advance 2000) s = Ok s1 ∧ exec small (ReleaseReq 1 []) s1 = Ok s2 ∧
      reqLayers (xb s2) !! 1%nat = Some l ∧ line l = [0%nat] ∧ layerDrain (layer_drain l) = Drained.
Proof. eexists. split; [vm_compute; reflexivity|]. do 3 eexists. repeat split; vm_compute; reflexivity. Qed.

End XRun.
