(* ===== verification/AbstractMem.v ===== *)
(** * Abstract memory ([mem/abstract_mem.hh], [mem/abstract_mem.cc])

    The storage behind every memory of the simulated system: reads, masked
    writes, swaps, and the reservations of load-locked and store-conditional.
    The host memory is a set of mapped objects, each a store of bytes; a
    memory points at the start of one.  Statistics, debug output and the
    loading of an image file are left out; the calls of
    [globalClearExclusive] are returned as the list of contexts they clear. *)

From S2P Require Import Prelude.
From S2P Require Import Bytes.
From S2P Require Import AddrRange.
From S2P Require Import MemCmd.
From S2P Require Import Packet.

Module AbsMem.
Import MemCmd Pkt.

(** ** Definitions *)

Definition InvalidContextID : Z := -1.

Record LockedAddr := mkLockedAddr { la_addr : Z; la_contextId : Z }.

#[export] Instance LockedAddr_eq_dec : EqDecision LockedAddr.
Proof. solve_decision. Defined.

Definition Addr_Mask : Z := 0xf.
Definition mask (paddr : Z) : Z := Z.land paddr (not64 Addr_Mask).

Definition matchesContext (l : LockedAddr) (r : Request) : res bool :=
  assertb (negb (la_contextId l =? InvalidContextID));;
  c ← contextId r;
  Ok (la_contextId l =? c).

(** Host memory: the mapped objects, by number. *)
Abbreviation Host := (gmap nat (gmap Z Z)).
Definition object (h : Host) (o : nat) : gmap Z Z := default ∅ (h !! o).
Definition host_read (h : Host) (o : nat) (off : Z) (n : nat) : list Z := mem_read (object h o) off n.
Definition host_write (h : Host) (o : nat) (off : Z) (bytes : list Z) : Host :=
  <[o := mem_write (object h o) off bytes]> h.

Record AbstractMemory := mkMemory {
  range : AddrRange;
  (** The object [pmemAddr] points at. *)
  pmemAddr : option nat;
  lockedAddrList : list LockedAddr;
  null : bool;
  confTableReported : bool;
  inAddrMap : bool;
  kvmMap : bool;
}.

Definition AbstractMemory_new (r : AddrRange) (is_null conf in_map kvm : bool) : res AbstractMemory :=
  panic_if (negb (valid r) || (AddrRange.size r =? 0));;
  Ok (mkMemory r None [] is_null conf in_map kvm).

Definition setBackingStore (o : nat) (m : AbstractMemory) : AbstractMemory :=
  mkMemory (range m) (Some o) (lockedAddrList m) (null m) (confTableReported m) (inAddrMap m) (kvmMap m).
Definition set_locks (l : list LockedAddr) (m : AbstractMemory) : AbstractMemory :=
  mkMemory (range m) (pmemAddr m) l (null m) (confTableReported m) (inAddrMap m) (kvmMap m).
Definition addLockedAddr (l : LockedAddr) (m : AbstractMemory) : AbstractMemory :=
  set_locks (lockedAddrList m ++ [l]) m.

Definition toHostAddr (m : AbstractMemory) (a : Z) : Z := a - r_start (range m).

(** *** Load-locked and store-conditional *)

Fixpoint track_loop (paddr : Z) (r : Request) (l : list LockedAddr) : res (option (list LockedAddr)) :=
  match l with
  | [] => Ok None
  | i :: l =>
      b ← matchesContext i r;
      if b : bool then Ok (Some (mkLockedAddr paddr (la_contextId i) :: l))
      else o ← track_loop paddr r l; Ok (option_map (cons i) o)
  end.

Definition trackLoadLocked (p : Packet) (l : list LockedAddr) : res (list LockedAddr) :=
  let paddr := mask (req_paddr (req p)) in
  o ← track_loop paddr (req p) l;
  match o with
  | Some l => Ok l
  | None => c ← contextId (req p); Ok (mkLockedAddr paddr c :: l)
  end.

(** The search of a store-conditional for its own record. *)
Fixpoint find_lock (paddr : Z) (r : Request) (l : list LockedAddr) : res bool :=
  match l with
  | [] => Ok false
  | i :: l =>
      b ← (if la_addr i =? paddr then matchesContext i r else Ok false);
      if b : bool then Ok true else find_lock paddr r l
  end.

(** The records left, and the contexts whose exclusive monitor is cleared. *)
Fixpoint erase_locks (paddr requestor_cid : Z) (l : list LockedAddr) :
    res (list LockedAddr * list Z) :=
  match l with
  | [] => Ok ([], [])
  | i :: l =>
      if la_addr i =? paddr then
        assertb (negb (la_contextId i =? InvalidContextID));;
        '(l, cleared) ← erase_locks paddr requestor_cid l;
        Ok (l, if negb (la_contextId i =? requestor_cid) then la_contextId i :: cleared else cleared)
      else '(l, cleared) ← erase_locks paddr requestor_cid l; Ok (i :: l, cleared)
  end.

Definition requestor (r : Request) : Z := default InvalidContextID (req_contextId r).

Definition checkLockedAddrList (p : Packet) (l : list LockedAddr) :
    res (bool * Packet * list LockedAddr * list Z) :=
  let paddr := mask (req_paddr (req p)) in
  allowStore ← (if isLLSC (cmd p) then find_lock paddr (req p) l else Ok true);
  let p := if isLLSC (cmd p) then set_req (setExtraData (if allowStore : bool then 1 else 0) (req p)) p else p in
  if allowStore : bool then
    '(l, cleared) ← erase_locks paddr (requestor (req p)) l; Ok (true, p, l, cleared)
  else Ok (false, p, l, []).

Definition writeOK (p : Packet) (l : list LockedAddr) : res (bool * Packet * list LockedAddr * list Z) :=
  match l with
  | [] =>
      Ok (negb (isLLSC (cmd p)),
          if isLLSC (cmd p) then set_req (setExtraData 0 (req p)) p else p, l, [])
  | _ => checkLockedAddrList p l
  end.

(** *** Accesses *)

Definition getAtomicOp (p : Packet) : res (list Z → list Z) :=
  match req_atomicOp (req p) with Some f => Ok f | None => Err AssertFail end.

(** [memcmp] of the extra data with the memory, on a little-endian host. *)
Definition cond_matches (p : Packet) (old : list Z) : res bool :=
  if (size p =? 8) || (size p =? 4) then
    x ← getExtraData (req p); Ok (bool_decide (to_bytes (Z.to_nat (size p)) x = old))
  else Err PanicFail.

Definition swap (m : AbstractMemory) (h : Host) (p : Packet) : res (Host * Packet) :=
  let off := toHostAddr m (addr p) in
  let n := Z.to_nat (size p) in
  if isAtomicOp p then
    match pmemAddr m with
    | None => Ok (h, p)
    | Some o =>
        let old := host_read h o off n in
        p ← setData old p;
        f ← getAtomicOp p;
        Ok (host_write h o off (f old), p)
    end
  else
    match pmemAddr m with
    | None => Err PanicFail
    | Some o =>
        let old := host_read h o off n in
        overwrite_val ← writeData p (replicate n 0);
        p ← setData old p;
        overwrite_mem ← (if req_isCondSwap (req p) then cond_matches p old else Ok true);
        assertb (negb (req_isInstFetch (req p)));;
        Ok (if overwrite_mem : bool then host_write h o off overwrite_val else h, p)
    end.

(** Reading and writing the memory under the packet, if there is any. *)
Definition read_memory (m : AbstractMemory) (h : Host) (p : Packet) : res Packet :=
  match pmemAddr m with
  | None => Ok p
  | Some o => setData (host_read h o (toHostAddr m (addr p)) (Z.to_nat (size p))) p
  end.
Definition write_memory (m : AbstractMemory) (h : Host) (p : Packet) : res Host :=
  match pmemAddr m with
  | None => Ok h
  | Some o =>
      let off := toHostAddr m (addr p) in
      bytes ← writeData p (host_read h o off (Z.to_nat (size p)));
      Ok (host_write h o off bytes)
  end.

Definition access_body (m : AbstractMemory) (h : Host) (p : Packet) :
    res (AbstractMemory * Host * Packet * list Z) :=
  if bool_decide (cmd p = SwapReq) then
    '(h, p) ← swap m h p; Ok (m, h, p, [])
  else if isRead (cmd p) then
    assertb (negb (isWrite (cmd p)));;
    l ← (if isLLSC (cmd p) then
           assertb (negb (fromCache (cmd p)));; trackLoadLocked p (lockedAddrList m)
         else Ok (lockedAddrList m));
    p ← read_memory m h p;
    Ok (set_locks l m, h, p, [])
  else if isInvalidate (cmd p) || isClean (cmd p) then
    assertb (negb (isWrite (cmd p)));; Ok (m, h, p, [])
  else if isWrite (cmd p) then
    '(ok, p, l, cleared) ← writeOK p (lockedAddrList m);
    if ok : bool then
      h ← write_memory m h p;
      assertb (negb (req_isInstFetch (req p)));;
      Ok (set_locks l m, h, p, cleared)
    else Ok (set_locks l m, h, p, cleared)
  else Err PanicFail.

Definition access (m : AbstractMemory) (h : Host) (p : Packet) :
    res (AbstractMemory * Host * Packet * list Z) :=
  if cacheResponding p then Ok (m, h, p, [])
  else if bool_decide (cmd p = CleanEvict) || bool_decide (cmd p = WritebackClean) then Ok (m, h, p, [])
  else
    inside ← isSubset (getAddrRange p) (range m);
    assertb inside;;
    '(m, h, p, cleared) ← access_body m h p;
    p ← (if needsResponse (cmd p) then makeResponse p else Ok p);
    Ok (m, h, p, cleared).

(** A print request only writes to its output stream. *)
Definition functionalAccess (m : AbstractMemory) (h : Host) (p : Packet) : res (Host * Packet) :=
  inside ← isSubset (getAddrRange p) (range m);
  assertb inside;;
  if isRead (cmd p) then p ← read_memory m h p; p ← makeResponse p; Ok (h, p)
  else if isWrite (cmd p) then h ← write_memory m h p; p ← makeResponse p; Ok (h, p)
  else if isPrint (cmd p) then Ok (h, p)
  else Err PanicFail.

(** ** Specification

    What a memory promises: bytes, and for each context at most one
    reservation of an aligned block of 16 bytes. *)

Record Spec := mkSpec { bytes : Z → Z; resv : gmap Z Z }.

Definition load (f : Z → Z) (a : Z) (n : nat) : list Z := (λ i : nat, f (a + Z.of_nat i)) <$> seq 0 n.
Definition store (f : Z → Z) (a : Z) (d : list Z) (enabled : Z → bool) : Z → Z := λ x,
  match byte_at a d x with Some b => if enabled x then b else f x | None => f x end.

Definition ignored (p : Packet) : bool :=
  cacheResponding p || bool_decide (cmd p = CleanEvict) || bool_decide (cmd p = WritebackClean).
Definition granule (p : Packet) : Z := mask (req_paddr (req p)).
Definition enabled (p : Packet) (x : Z) : bool :=
  if isMaskedWrite p then bool_decide (byte_at (addr p) (req_byteEnable (req p)) x = Some true) else true.
Definition holds (s : Spec) (p : Packet) : bool :=
  bool_decide (resv s !! requestor (req p) = Some (granule p)).

(** What a swap leaves in place of the bytes [old]. *)
Definition swapped (p : Packet) (old new : list Z) : list Z :=
  if isAtomicOp p then match req_atomicOp (req p) with Some f => f old | None => old end
  else if req_isCondSwap (req p) then
    match req_extraData (req p) with
    | Some x => if bool_decide (to_bytes (Z.to_nat (size p)) x = old) then new else old
    | None => old
    end
  else new.

(** The next state, the data read and the outcome of a store-conditional.  A
    swap does not touch the reservations: [access] handles it without
    [writeOK], against the comment there that all stores must call it. *)
Definition spec_step (s : Spec) (p : Packet) (d : list Z) : Spec * option (list Z) * option bool :=
  let old := load (bytes s) (addr p) (Z.to_nat (size p)) in
  if ignored p then (s, None, None)
  else if bool_decide (cmd p = SwapReq) then
    (mkSpec (store (bytes s) (addr p) (swapped p old d) (λ _, true)) (resv s), Some old, None)
  else if isRead (cmd p) then
    (mkSpec (bytes s) (if isLLSC (cmd p) then <[requestor (req p) := granule p]> (resv s) else resv s),
     Some old, None)
  else if isWrite (cmd p) then
    let ok := negb (isLLSC (cmd p)) || holds s p in
    (if ok then mkSpec (store (bytes s) (addr p) d (enabled p)) (filter (λ e, e.2 ≠ granule p) (resv s)) else s,
     None, if isLLSC (cmd p) then Some ok else None)
  else (s, None, None).

(** *** The memory implements it *)

Definition lock_entry (l : LockedAddr) : Z * Z := (la_contextId l, la_addr l).
Definition reservations (l : list LockedAddr) : gmap Z Z := list_to_map (lock_entry <$> l).

Record locks_ok (l : list LockedAddr) : Prop := {
  lo_nodup : NoDup (la_contextId <$> l);
  lo_valid : Forall (λ i, la_contextId i ≠ InvalidContextID) l;
}.

Record simulates (m : AbstractMemory) (h : Host) (s : Spec) : Prop := {
  si_locks : locks_ok (lockedAddrList m);
  si_resv : reservations (lockedAddrList m) = resv s;
  si_bytes : ∃ o, pmemAddr m = Some o ∧ ∀ x, bytes s x = default 0 (object h o !! toHostAddr m x);
}.

(** The commands a memory takes. *)
Definition memory_accepts (c : Command) : bool :=
  bool_decide (c = SwapReq) ||
  (if isRead c then negb (isWrite c) && negb (isLLSC c && fromCache c)
   else isInvalidate c || isClean c || isWrite c).

(** Packets the rest of the system may send to a memory. *)
Record acceptable (m : AbstractMemory) (p : Packet) (d : list Z) : Prop := {
  ac_inside : isSubset (getAddrRange p) (range m) = Ok true;
  ac_cmd : memory_accepts (cmd p) = true;
  ac_request : isRequest (cmd p) = true;
  ac_data : data p = Some d;
  ac_size : Z.of_nat (length d) = size p;
  ac_mask : isMaskedWrite p = true → Z.of_nat (length (req_byteEnable (req p))) = size p;
  ac_fetch : isWrite (cmd p) = true → req_isInstFetch (req p) = false;
  ac_context : isLLSC (cmd p) = true → ∃ c, req_contextId (req p) = Some c ∧ c ≠ InvalidContextID;
  ac_atomic : cmd p = SwapReq → isAtomicOp p = true →
    ∃ f, req_atomicOp (req p) = Some f ∧ ∀ l, length (f l) = length l;
  ac_cond : cmd p = SwapReq → req_isCondSwap (req p) = true →
    (size p = 8 ∨ size p = 4) ∧ ∃ x, req_extraData (req p) = Some x;
}.

(** ** Lemmas *)

Lemma load_length f a n : length (load f a n) = n.
Proof. unfold load. by rewrite length_fmap, length_seq. Qed.

Lemma load_lookup f a n (i : nat) : (i < n)%nat → load f a n !! i = Some (f (a + Z.of_nat i)).
Proof. intros Hi. unfold load. rewrite list_lookup_fmap, lookup_seq_lt by done. done. Qed.

(** Reading the host memory is loading. *)
Lemma host_read_load m h o s a n :
  (∀ x, bytes s x = default 0 (object h o !! toHostAddr m x)) →
  host_read h o (toHostAddr m a) n = load (bytes s) a n.
Proof.
  intros Hb. apply list_eq. intros i. destruct (decide (i < n)%nat).
  - rewrite load_lookup by done. unfold host_read. rewrite mem_read_lookup by done.
    rewrite Hb. unfold toHostAddr. do 3 f_equal. lia.
  - rewrite !lookup_ge_None_2; [done|rewrite load_length; lia|unfold host_read; rewrite mem_read_length; lia].
Qed.

Lemma object_insert h o x : object (<[o := x]> h) o = x.
Proof. unfold object. by rewrite lookup_insert_eq. Qed.

Lemma object_write h o off d : object (host_write h o off d) o = mem_write (object h o) off d.
Proof. apply object_insert. Qed.

Lemma byte_at_lookup {A} (a x : Z) (d : list A) :
  byte_at a d x = if (a <=? x) && (x <? a + Z.of_nat (length d)) then d !! Z.to_nat (x - a) else None.
Proof.
  unfold byte_at. destruct (Z.leb_spec a x); [|done]. simpl. destruct (Z.ltb_spec x (a + Z.of_nat (length d))); [done|].
  apply lookup_ge_None_2. lia.
Qed.

(** Writing the host memory is storing. *)
Lemma host_write_store m h o s a d en :
  (∀ x, bytes s x = default 0 (object h o !! toHostAddr m x)) → (∀ x, en x = true) → ∀ x,
  store (bytes s) a d en x = default 0 (object (host_write h o (toHostAddr m a) d) o !! toHostAddr m x).
Proof.
  intros Hb Hen x. rewrite object_write, mem_write_lookup. unfold store.
  rewrite byte_at_lookup, Hen. unfold toHostAddr in *.
  replace ((a - r_start (range m) <=? x - r_start (range m)) &&
    (x - r_start (range m) <? a - r_start (range m) + Z.of_nat (length d)))
    with ((a <=? x) && (x <? a + Z.of_nat (length d))) by zcmp.
  destruct ((a <=? x) && _) eqn:E; [|by rewrite Hb]. bool_to_prop.
  replace (x - r_start (range m) - (a - r_start (range m))) with (x - a) by lia.
  destruct (lookup_lt_is_Some_2 d (Z.to_nat (x - a))) as [b ->]; [lia|done].
Qed.

(** A masked write stores the enabled bytes. *)
Lemma write_memory_store m h o s p d :
  (∀ x, bytes s x = default 0 (object h o !! toHostAddr m x)) → pmemAddr m = Some o →
  data p = Some d → Z.of_nat (length d) = size p →
  (isMaskedWrite p = true → Z.of_nat (length (req_byteEnable (req p))) = size p) →
  ∃ h', write_memory m h p = Ok h' ∧
    ∀ x, store (bytes s) (addr p) d (enabled p) x = default 0 (object h' o !! toHostAddr m x).
Proof.
  intros Hb Ho Hd Hlen Hmask. unfold write_memory, writeData, getConstPtr. rewrite Ho, Hd.
  cbn [mbind res_bind]. destruct (isMaskedWrite p) eqn:Hm; cbn [negb].
  - rewrite (proj2 (Z.eqb_eq _ _)) by auto. cbn [assertb mbind res_bind]. eexists. split; [done|].
    intros x. rewrite (host_read_load m h o s) by done. rewrite <- (host_write_store m h o s _ _ (λ _, true)) by done.
    unfold store, enabled. rewrite Hm, !byte_at_lookup, length_zip_with, length_zip, load_length.
    specialize (Hmask eq_refl).
    replace (length (req_byteEnable (req p)) `min` (length d `min` Z.to_nat (size p)))%nat with (length d) by lia.
    replace (Z.of_nat (length (req_byteEnable (req p)))) with (Z.of_nat (length d)) by lia.
    destruct ((addr p <=? x) && (x <? addr p + Z.of_nat (length d))) eqn:Hx; [|done]. bool_to_prop.
    rewrite lookup_zip_with.
    destruct (lookup_lt_is_Some_2 d (Z.to_nat (x - addr p))) as [b Hbyte]; [lia|].
    destruct (lookup_lt_is_Some_2 (req_byteEnable (req p)) (Z.to_nat (x - addr p))) as [e He]; [lia|].
    rewrite Hbyte, He. cbn [mbind option_bind].
    rewrite lookup_zip_with, Hbyte, load_lookup by lia. cbn [mbind option_bind].
    replace (addr p + Z.of_nat (Z.to_nat (x - addr p))) with x by lia.
    destruct e; rewrite ?bool_decide_true, ?bool_decide_false by congruence; done.
  - eexists. split; [done|]. intros x. rewrite <- (host_write_store m h o s _ _ (λ _, true)) by done.
    unfold store, enabled. by rewrite Hm.
Qed.

(** *** Reservations *)

Lemma reservations_cons i l : reservations (i :: l) = <[la_contextId i := la_addr i]> (reservations l).
Proof. done. Qed.

Lemma reservations_none l c : c ∉ (la_contextId <$> l) → reservations l !! c = None.
Proof.
  intros Hc. apply not_elem_of_list_to_map_1. rewrite <-list_fmap_compose. exact Hc.
Qed.

Lemma locks_ok_cons i l : locks_ok (i :: l) ↔
  (la_contextId i ∉ (la_contextId <$> l)) ∧ la_contextId i ≠ InvalidContextID ∧ locks_ok l.
Proof.
  split.
  - intros [H1 H2]. apply NoDup_cons in H1 as [? ?]. apply Forall_cons in H2 as [? ?]. by repeat split.
  - intros (? & ? & [? ?]). split; [by apply NoDup_cons|by apply Forall_cons].
Qed.

Lemma matchesContext_ok i r c : la_contextId i ≠ InvalidContextID → req_contextId r = Some c →
  matchesContext i r = Ok (la_contextId i =? c).
Proof.
  intros Hi Hc. unfold matchesContext, contextId. rewrite Hc, (proj2 (Z.eqb_neq _ _)) by done. done.
Qed.

(** The record of the context is updated where it stands. *)
Lemma track_loop_ok paddr r c l : req_contextId r = Some c → locks_ok l →
  ∃ o, track_loop paddr r l = Ok o ∧
    match o with
    | Some l' => (la_contextId <$> l') = (la_contextId <$> l) ∧ c ∈ (la_contextId <$> l) ∧
        reservations l' = <[c := paddr]> (reservations l)
    | None => c ∉ (la_contextId <$> l)
    end.
Proof.
  intros Hc. induction l as [|i l IH]; intros Hl; simpl.
  { exists None. split; [done|]. apply not_elem_of_nil. }
  apply locks_ok_cons in Hl as (Hni & Hi & Hl). rewrite (matchesContext_ok i r c) by done. cbn [mbind res_bind].
  destruct (Z.eqb_spec (la_contextId i) c) as [Heq|Hne].
  - eexists. split; [done|]. simpl. split; [done|]. split; [rewrite Heq; left|].
    rewrite !reservations_cons. simpl. rewrite Heq. by rewrite insert_insert_eq.
  - destruct (IH Hl) as (o & -> & Ho). cbn [mbind res_bind]. eexists. split; [done|].
    destruct o as [l'|]; simpl.
    + destruct Ho as (He & Hin & Hr). split; [by f_equal|]. split; [by right|].
      rewrite !reservations_cons, Hr. by apply insert_insert_ne.
    + rewrite not_elem_of_cons. by split.
Qed.

Lemma trackLoadLocked_ok p c l :
  req_contextId (req p) = Some c → c ≠ InvalidContextID → locks_ok l →
  ∃ l', trackLoadLocked p l = Ok l' ∧ locks_ok l' ∧ reservations l' = <[c := granule p]> (reservations l).
Proof.
  intros Hc Hv Hl. unfold trackLoadLocked. fold (granule p).
  destruct (track_loop_ok (granule p) (req p) c l Hc Hl) as ([l'|] & -> & Ho); cbn [mbind res_bind].
  - destruct Ho as (He & Hin & Hr). exists l'. split; [done|]. split; [|done]. destruct Hl as [H1 H2].
    split; [by rewrite He|]. apply (Forall_fmap la_contextId (λ c, c ≠ InvalidContextID)).
    rewrite He. by apply Forall_fmap.
  - unfold contextId. rewrite Hc. cbn [mbind res_bind]. eexists. split; [done|].
    split; [by apply locks_ok_cons|done].
Qed.

Lemma find_lock_ok paddr r c l : req_contextId r = Some c → locks_ok l →
  find_lock paddr r l = Ok (bool_decide (reservations l !! c = Some paddr)).
Proof.
  intros Hc. induction l as [|i l IH]; intros Hl; cbn [find_lock].
  { by rewrite bool_decide_false. }
  apply locks_ok_cons in Hl as (Hni & Hi & Hl). rewrite reservations_cons, (IH Hl).
  rewrite (matchesContext_ok i r c) by done.
  destruct (Z.eqb_spec (la_contextId i) c) as [Heq|Hne].
  - rewrite Heq, lookup_insert_eq, (reservations_none l) by (by rewrite <-Heq).
    destruct (Z.eqb_spec (la_addr i) paddr) as [->|]; cbn [mbind res_bind].
    + by rewrite bool_decide_true.
    + rewrite !bool_decide_false by congruence. done.
  - rewrite lookup_insert_ne by done. by destruct (la_addr i =? paddr).
Qed.

(** Exactly the records of the block go, and every other context that had one
    is told. *)
Lemma erase_locks_ok paddr cid l : locks_ok l →
  ∃ l' cleared, erase_locks paddr cid l = Ok (l', cleared) ∧
    l' = filter (λ i, la_addr i ≠ paddr) l ∧
    cleared = filter (λ c, c ≠ cid) (la_contextId <$> filter (λ i, la_addr i = paddr) l).
Proof.
  induction l as [|i l IH]; intros Hl; cbn [erase_locks]; [by exists [], []|].
  apply locks_ok_cons in Hl as (Hni & Hi & Hl). destruct (IH Hl) as (l' & cl & -> & -> & ->).
  destruct (Z.eqb_spec (la_addr i) paddr) as [Heq|Hne].
  - rewrite (proj2 (Z.eqb_neq _ _) Hi). cbn [negb assertb mbind res_bind].
    rewrite filter_cons_False by tauto. rewrite (filter_cons_True _ i) by done.
    eexists _, _. split; [done|]. split; [done|]. simpl.
    destruct (Z.eqb_spec (la_contextId i) cid); simpl.
    + by rewrite filter_cons_False by tauto.
    + by rewrite filter_cons_True.
  - cbn [mbind res_bind]. eexists _, _. split; [done|].
    by rewrite filter_cons_True, (filter_cons_False _ i).
Qed.

Lemma filter_locks_ok paddr l : locks_ok l →
  locks_ok (filter (λ i, la_addr i ≠ paddr) l) ∧
  reservations (filter (λ i, la_addr i ≠ paddr) l) = filter (λ e, e.2 ≠ paddr) (reservations l).
Proof.
  induction l as [|i l IH]; intros Hl; [by split; [|symmetry; apply map_filter_empty]|].
  apply locks_ok_cons in Hl as (Hni & Hi & Hl). destruct (IH Hl) as [H1 H2].
  rewrite reservations_cons. destruct (decide (la_addr i ≠ paddr)).
  - rewrite filter_cons_True by done. split.
    + apply locks_ok_cons. split; [|done]. contradict Hni.
      apply list_elem_of_fmap in Hni as (j & -> & [_ Hj]%list_elem_of_filter). by apply list_elem_of_fmap_2.
    + rewrite reservations_cons, H2. by rewrite map_filter_insert_True.
  - rewrite filter_cons_False by done. split; [done|]. rewrite H2, map_filter_insert_False by done.
    rewrite delete_id; [done|by apply reservations_none].
Qed.

(** The contexts that lose a reservation to the write of another. *)
Lemma cleared_spec paddr cid l c : locks_ok l →
  c ∈ filter (λ c, c ≠ cid) (la_contextId <$> filter (λ i, la_addr i = paddr) l) ↔
  c ≠ cid ∧ reservations l !! c = Some paddr.
Proof.
  intros [Hnd _]. rewrite list_elem_of_filter, list_elem_of_fmap. unfold reservations.
  rewrite <- elem_of_list_to_map by (by rewrite <- list_fmap_compose).
  rewrite list_elem_of_fmap. unfold lock_entry. split.
  - intros (Hc & i & -> & [Ha Hi]%list_elem_of_filter). split; [done|]. exists i. by rewrite Ha.
  - intros (Hc & i & Heq & Hi). injection Heq as -> ->. split; [done|]. exists i.
    split; [done|]. by apply list_elem_of_filter.
Qed.

(** What a store does to the packet and the reservations. *)
Lemma writeOK_ok p l : locks_ok l →
  (isLLSC (cmd p) = true → ∃ c, req_contextId (req p) = Some c ∧ c ≠ InvalidContextID) →
  let ok := negb (isLLSC (cmd p)) || bool_decide (reservations l !! requestor (req p) = Some (granule p)) in
  ∃ l' cleared,
    writeOK p l = Ok (ok, if isLLSC (cmd p) then set_req (setExtraData (if ok then 1 else 0) (req p)) p else p,
                      l', cleared) ∧
    locks_ok l' ∧
    reservations l' = (if ok then filter (λ e, e.2 ≠ granule p) (reservations l) else reservations l) ∧
    ∀ c, c ∈ cleared ↔ ok = true ∧ c ≠ requestor (req p) ∧ reservations l !! c = Some (granule p).
Proof.
  intros Hl Hctx ok. destruct l as [|i l].
  { exists [], []. unfold writeOK. split; [|split; [done|]].
    - unfold ok. rewrite bool_decide_false by done. by destruct (isLLSC (cmd p)).
    - split; [|intros c; rewrite elem_of_nil; naive_solver].
      destruct ok; [|done]. symmetry. apply map_filter_empty. }
  unfold writeOK. set (l0 := i :: l) in *. clearbody l0. unfold checkLockedAddrList. fold (granule p).
  assert (Hfind : (if isLLSC (cmd p) then find_lock (granule p) (req p) l0 else Ok true) = Ok ok).
  { unfold ok. destruct (isLLSC (cmd p)); [|done]. destruct Hctx as (c & Hc & _); [done|].
    rewrite (find_lock_ok _ _ c) by done. unfold requestor. by rewrite Hc. }
  rewrite Hfind. clear Hfind. cbn [mbind res_bind].
  clearbody ok. destruct ok.
  2: { exists l0, []. do 3 (split; [done|]). intros c. rewrite elem_of_nil. naive_solver. }
  replace (requestor (req (if isLLSC (cmd p) then _ else p))) with (requestor (req p)) by (by destruct (isLLSC _)).
  destruct (erase_locks_ok (granule p) (requestor (req p)) l0 Hl) as (l' & cl & -> & -> & ->).
  destruct (filter_locks_ok (granule p) l0 Hl) as [H1 H2]. cbn [mbind res_bind].
  eexists _, _. split; [done|]. split; [done|]. split; [done|].
  intros c. rewrite cleared_spec by done. naive_solver.
Qed.

(** *** Swaps *)

Lemma store_load f a n x : store f a (load f a n) (λ _, true) x = f x.
Proof.
  unfold store. rewrite byte_at_lookup, load_length.
  destruct ((a <=? x) && _) eqn:Hx; [|done]. bool_to_prop. rewrite load_lookup by lia. f_equal. lia.
Qed.

Lemma setData_ok p d bytes : isMaskedWrite p = false → data p = Some d →
  setData bytes p = Ok (set_data (Some bytes) p).
Proof. intros Hm Hd. unfold setData, getPtr. by rewrite Hd, Hm. Qed.

Lemma swap_ok m h o s p d : acceptable m p d → cmd p = SwapReq → pmemAddr m = Some o →
  (∀ x, bytes s x = default 0 (object h o !! toHostAddr m x)) →
  let old := load (bytes s) (addr p) (Z.to_nat (size p)) in
  ∃ h', swap m h p = Ok (h', set_data (Some old) p) ∧
    ∀ x, store (bytes s) (addr p) (swapped p old d) (λ _, true) x = default 0 (object h' o !! toHostAddr m x).
Proof.
  intros Hp Hcmd Ho Hb old. unfold swap. rewrite Ho, (host_read_load m h o s) by done. fold old.
  assert (Hm : isMaskedWrite p = false) by (unfold isMaskedWrite; by rewrite Hcmd).
  pose proof (ac_data _ _ _ Hp) as Hd. rewrite (setData_ok p d old) by done. unfold swapped.
  destruct (isAtomicOp p) eqn:Hat.
  { destruct (ac_atomic _ _ _ Hp Hcmd Hat) as (f & Hf & _). unfold getAtomicOp. cbn [mbind res_bind set_data req].
    rewrite Hf. cbn [mbind res_bind]. eexists. split; [done|]. intros x. by apply host_write_store. }
  unfold writeData, getConstPtr. rewrite Hd, Hm. cbn [mbind res_bind negb set_data req].
  rewrite (ac_fetch _ _ _ Hp) by (by rewrite Hcmd). cbn [negb assertb mbind res_bind].
  destruct (req_isCondSwap (req p)) eqn:Hc; cbn [mbind res_bind].
  - destruct (ac_cond _ _ _ Hp Hcmd Hc) as (Hsz & x & Hx). unfold cond_matches, getExtraData.
    cbn [size req set_data]. rewrite Hx. replace ((size p =? 8) || (size p =? 4)) with true by (symmetry; zcmp; done).
    cbn [mbind res_bind]. destruct (bool_decide _) eqn:Hbd.
    + eexists. split; [done|]. intros y. by apply host_write_store.
    + eexists. split; [done|]. intros y. unfold old. by rewrite store_load.
  - eexists. split; [done|]. intros x. by apply host_write_store.
Qed.

(** ** Refinement *)

(** The packet that comes back: the data read, the outcome of a
    store-conditional, and the response command. *)
Definition returned (p : Packet) (read : option (list Z)) (sc : option bool) : Packet :=
  match sc with
  | Some ok => set_req (setExtraData (if ok : bool then 1 else 0) (req p)) p
  | None => match read with Some d => set_data (Some d) p | None => p end
  end.
Definition answer (p : Packet) (read : option (list Z)) (sc : option bool) : Packet :=
  let p' := returned p read sc in
  if negb (ignored p) && needsResponse (cmd p)
  then set_flags (Z.land (flags p) (Z.lnot EXPRESS_SNOOP)) (set_cmd (responseCommand (cmd p)) p')
  else p'.

(** What the body of [access] has to achieve. *)
Definition body_refines (m : AbstractMemory) (h : Host) (s : Spec) (p : Packet) (d : list Z) : Prop :=
  let '(s', read, sc) := spec_step s p d in
  ∃ m' h' cleared,
    access_body m h p = Ok (m', h', returned p read sc, cleared) ∧
    simulates m' h' s' ∧ range m' = range m ∧ (sc = Some false → h' = h) ∧
    ∀ c, c ∈ cleared ↔ isWrite (cmd p) = true ∧ cmd p ≠ SwapReq ∧ ignored p = false ∧ default true sc = true ∧
      c ≠ requestor (req p) ∧ resv s !! c = Some (granule p).

Section body.
Context (m : AbstractMemory) (h : Host) (s : Spec) (p : Packet) (d : list Z).
Context (Hp : acceptable m p d) (Hig : ignored p = false) (Hsim : simulates m h s).

Local Ltac quiet := eexists _, _, _; split; [done|];
  split; [|split; [done|split; [done|intros ?; rewrite elem_of_nil; naive_solver]]].

Lemma body_swap : cmd p = SwapReq → body_refines m h s p d.
Proof.
  intros Hsw. destruct Hsim as [Hl Hr (o & Ho & Hb)]. unfold body_refines, spec_step, access_body.
  rewrite Hig, bool_decide_true by done. destruct (swap_ok m h o s p d Hp Hsw Ho Hb) as (h' & -> & Hb').
  cbn [mbind res_bind]. quiet. split; [done|done|]. by exists o.
Qed.

Lemma body_read : cmd p ≠ SwapReq → isRead (cmd p) = true → body_refines m h s p d.
Proof.
  intros Hsw Hrd. destruct Hsim as [Hl Hr (o & Ho & Hb)]. unfold body_refines, spec_step, access_body.
  rewrite Hig, bool_decide_false, Hrd by done. pose proof (ac_cmd _ _ _ Hp) as Hcmd. unfold memory_accepts in Hcmd.
  rewrite bool_decide_false, Hrd in Hcmd by done. simpl in Hcmd.
  apply andb_true_iff in Hcmd as [Hnw%negb_true_iff Hfc%negb_true_iff]. rewrite Hnw.
  assert (Hm : isMaskedWrite p = false).
  { unfold isMaskedWrite. rewrite bool_decide_false; [done|]. intros He. by rewrite He in Hrd. }
  unfold read_memory. rewrite Ho, (host_read_load m h o s), (setData_ok p d) by (done || apply Hp).
  cbn [negb assertb mbind res_bind]. destruct (isLLSC (cmd p)) eqn:Hll; simpl in Hfc; cbn [mbind res_bind].
  - destruct (ac_context _ _ _ Hp Hll) as (c & Hc & Hv). rewrite Hfc. cbn [negb assertb mbind res_bind].
    destruct (trackLoadLocked_ok p c _ Hc Hv Hl) as (l' & -> & Hl' & Hr'). cbn [mbind res_bind].
    quiet. split; [done| |by exists o]. cbn [resv lockedAddrList set_locks]. rewrite Hr', Hr. unfold requestor.
    by rewrite Hc.
  - quiet. split; [done|done|by exists o].
Qed.

Lemma body_write : isRead (cmd p) = false → isWrite (cmd p) = true → body_refines m h s p d.
Proof.
  intros Hrd Hw. destruct Hsim as [Hl Hr (o & Ho & Hb)]. unfold body_refines, spec_step, access_body.
  assert (Hsw : cmd p ≠ SwapReq) by (intros He; by rewrite He in Hrd).
  rewrite Hig, bool_decide_false, Hrd, Hw by done.
  replace (isInvalidate (cmd p) || isClean (cmd p)) with false
    by (clear -Hw Hrd; destruct (cmd p); vm_compute in *; congruence).
  unfold holds. rewrite <- Hr.
  destruct (writeOK_ok p (lockedAddrList m) Hl (ac_context _ _ _ Hp)) as (l' & cl & -> & Hl' & Hr' & Hcl).
  set (ok := negb (isLLSC (cmd p)) || _) in *. cbn [mbind res_bind].
  set (p' := if isLLSC (cmd p) then _ else p).
  assert (Hp' : data p' = data p ∧ size p' = size p ∧ addr p' = addr p ∧ isMaskedWrite p' = isMaskedWrite p ∧
    req_byteEnable (req p') = req_byteEnable (req p) ∧ req_isInstFetch (req p') = req_isInstFetch (req p) ∧
    p' = returned p None (if isLLSC (cmd p) then Some ok else None)) by (unfold p'; by destruct (isLLSC (cmd p))).
  destruct Hp' as (Hd & Hs & Ha & Hm & Hbe & Hf & He). clearbody p'.
  assert (Hcl' : ∀ c, c ∈ cl ↔ true = true ∧ cmd p ≠ SwapReq ∧ false = false ∧
    default true (if isLLSC (cmd p) then Some ok else None) = true ∧ c ≠ requestor (req p) ∧
    reservations (lockedAddrList m) !! c = Some (granule p)).
  { intros c. rewrite Hcl. unfold ok. destruct (isLLSC (cmd p)); simpl; naive_solver. }
  clearbody ok. destruct ok.
  - destruct (write_memory_store m h o s p' d) as (h' & -> & Hb'); [done|done|rewrite Hd; apply Hp|
      rewrite Hs; apply Hp|rewrite Hm, Hbe, Hs; apply Hp|].
    rewrite Hf, (ac_fetch _ _ _ Hp Hw). cbn [negb assertb mbind res_bind]. rewrite He.
    eexists _, _, _. split; [done|]. split; [|split; [done|split; [by destruct (isLLSC (cmd p))|exact Hcl']]].
    split; [done|done|]. exists o. split; [done|]. intros x.
    etransitivity; [|apply Hb']. cbn [bytes]. unfold store, enabled. by rewrite Ha, Hm, Hbe.
  - rewrite He. eexists _, _, _. split; [done|]. split; [|split; [done|split; [done|exact Hcl']]].
    split; [done|by rewrite <- Hr|by exists o].
Qed.

Lemma access_body_refines : body_refines m h s p d.
Proof.
  destruct (decide (cmd p = SwapReq)) as [Hsw|Hsw]; [by apply body_swap|].
  destruct (isRead (cmd p)) eqn:Hrd; [by apply body_read|].
  destruct (isWrite (cmd p)) eqn:Hw; [by apply body_write|].
  unfold body_refines, spec_step, access_body. rewrite Hig, bool_decide_false, Hrd, Hw by done.
  pose proof (ac_cmd _ _ _ Hp) as Hcmd. unfold memory_accepts in Hcmd.
  rewrite bool_decide_false, Hrd, Hw, orb_false_r in Hcmd by done. simpl in Hcmd. rewrite Hcmd.
  cbn [negb assertb mbind res_bind]. by quiet.
Qed.

End body.

(** The checks around the body. *)
Lemma access_steps m h s p d : acceptable m p d → simulates m h s →
  let '(s', read, sc) := spec_step s p d in
  ∃ m' h' cleared, access m h p = Ok (m', h', answer p read sc, cleared) ∧
    simulates m' h' s' ∧ range m' = range m ∧ (sc = Some false → h' = h) ∧
    ∀ c, c ∈ cleared ↔ isWrite (cmd p) = true ∧ cmd p ≠ SwapReq ∧ ignored p = false ∧ default true sc = true ∧
      c ≠ requestor (req p) ∧ resv s !! c = Some (granule p).
Proof.
  intros Hp Hsim. unfold access. destruct (ignored p) eqn:Hig.
  { unfold spec_step, answer. rewrite Hig. exists m, h, []. split; [|split; [done|split; [done|split; [done|]]]].
    - unfold ignored in Hig. destruct (cacheResponding p); [done|]. simpl in Hig. rewrite Hig. done.
    - intros c. rewrite elem_of_nil. naive_solver. }
  pose proof (access_body_refines m h s p d Hp Hig Hsim) as Hbody. unfold body_refines in Hbody.
  rewrite Hig in Hbody. destruct (spec_step s p d) as [[s' read] sc] eqn:Hstep.
  destruct Hbody as (m' & h' & cl & Hbody & Hrest). exists m', h', cl. split; [|exact Hrest].
  pose proof Hig as Hig'. unfold ignored in Hig. apply orb_false_iff in Hig as [[Hcr Hce]%orb_false_iff Hwb].
  rewrite Hcr, Hce, Hwb, (ac_inside _ _ _ Hp). cbn [orb mbind res_bind assertb]. rewrite Hbody.
  cbn [mbind res_bind]. unfold answer. rewrite Hig'. cbn [negb andb].
  assert (cmd (returned p read sc) = cmd p ∧ flags (returned p read sc) = flags p) as [Hc Hf]
    by (by destruct sc, read).
  rewrite Hc. destruct (needsResponse (cmd p)) eqn:Hn; [|done].
  unfold makeResponse. rewrite Hc, Hn, (ac_request _ _ _ Hp), Hf. done.
Qed.

(** C19: [access] implements the memory of the specification, for every packet
    the system may send: it returns, the memory and the reservations follow
    the specification step, the packet comes back with the data read, the
    outcome of a store-conditional and its response command, and exactly the
    other contexts that held a reservation of the block of the first byte
    written are told to clear their monitors, when the packet is a write that
    is carried out and not a swap.  Swaps leave the reservations and monitors
    alone, in the code and so in the specification, although the comment on
    [writeOK] asks for it to be called on all stores. *)
Theorem access_refines m h s p d : acceptable m p d → simulates m h s →
  let '(s', read, sc) := spec_step s p d in
  ∃ m' h' cleared, access m h p = Ok (m', h', answer p read sc, cleared) ∧
    simulates m' h' s' ∧ range m' = range m ∧ (sc = Some false → h' = h) ∧
    ∀ c, c ∈ cleared ↔ isWrite (cmd p) = true ∧ cmd p ≠ SwapReq ∧ ignored p = false ∧ default true sc = true ∧
      c ≠ requestor (req p) ∧ resv s !! c = Some (granule p).
Proof. apply access_steps. Qed.

(** ** Locality of the specification *)

Lemma load_agree f g a n : (∀ x, covers a (Z.of_nat n) x = true → f x = g x) → load f a n = load g a n.
Proof.
  intros Hfg. apply list_eq. intros i. destruct (decide (i < n)%nat).
  - rewrite !load_lookup by done. f_equal. apply Hfg. unfold covers. zcmp; done.
  - rewrite !lookup_ge_None_2; [done|rewrite load_length; lia..].
Qed.

(** A step looks only at the bytes of the access... *)
Lemma spec_step_agree s1 s2 p d : 0 ≤ size p → resv s1 = resv s2 →
  (∀ x, covers (addr p) (size p) x = true → bytes s1 x = bytes s2 x) →
  (spec_step s1 p d).1.2 = (spec_step s2 p d).1.2 ∧ (spec_step s1 p d).2 = (spec_step s2 p d).2 ∧
  resv (spec_step s1 p d).1.1 = resv (spec_step s2 p d).1.1 ∧
  ∀ x, bytes s1 x = bytes s2 x → bytes (spec_step s1 p d).1.1 x = bytes (spec_step s2 p d).1.1 x.
Proof.
  intros Hsz Hr Hb. unfold spec_step, holds. rewrite Hr.
  rewrite (load_agree (bytes s1) (bytes s2)) by (by rewrite Z2Nat.id). unfold store.
  repeat (case_match; simpl; [by auto|]); repeat case_match; simpl; repeat split; auto;
    intros x Hx; simpl; repeat case_match; auto.
Qed.

(** ... and changes only those. *)
Lemma spec_step_outside s m p d x : acceptable m p d → covers (addr p) (size p) x = false →
  bytes (spec_step s p d).1.1 x = bytes s x.
Proof.
  intros Hp Hx. pose proof (ac_size _ _ _ Hp) as Hsz.
  assert (Hst : ∀ f d' en, Z.of_nat (length d') = size p → store f (addr p) d' en x = f x).
  { intros f d' en Hd. unfold store. rewrite (byte_at_covers _ d') by (by rewrite Hd). done. }
  assert (Hsw : cmd p = SwapReq → ∀ old, Z.of_nat (length old) = size p → Z.of_nat (length (swapped p old d)) = size p).
  { intros Hcmd old Ho. unfold swapped. destruct (isAtomicOp p) eqn:Ha.
    - destruct (ac_atomic _ _ _ Hp Hcmd Ha) as (f & -> & Hf). by rewrite Hf.
    - repeat case_match; done. }
  unfold spec_step. repeat case_match; simpl; try done; rewrite ?Hst; try done.
  apply Hsw; [|rewrite load_length; lia]. by eapply bool_decide_eq_true_1.
Qed.

(** ** What an access leaves alone

    Everything of the memory but its reservations, and every other object of
    the host. *)

Definition frame (m : AbstractMemory) (h : Host) (m' : AbstractMemory) (h' : Host) : Prop :=
  m' = set_locks (lockedAddrList m') m ∧ ∀ o, pmemAddr m ≠ Some o → h' !! o = h !! o.

Lemma set_locks_id m : m = set_locks (lockedAddrList m) m.
Proof. by destruct m. Qed.

Lemma host_write_frame m h o off d o' : pmemAddr m = Some o → pmemAddr m ≠ Some o' →
  host_write h o off d !! o' = h !! o'.
Proof. intros H1 H2. unfold host_write. rewrite lookup_insert_ne by congruence. done. Qed.

Lemma write_memory_frame m h p h' o : write_memory m h p = Ok h' → pmemAddr m ≠ Some o → h' !! o = h !! o.
Proof.
  unfold write_memory. destruct (pmemAddr m) as [o'|] eqn:Ho; intros H Hne; inv_ok; [|done].
  apply (host_write_frame m); congruence.
Qed.

Lemma swap_frame m h p h' p' o : swap m h p = Ok (h', p') → pmemAddr m ≠ Some o → h' !! o = h !! o.
Proof.
  unfold swap. destruct (pmemAddr m) as [o'|] eqn:Ho; intros H Hne; destruct (isAtomicOp p); inv_ok; try done.
  - apply (host_write_frame m); congruence.
  - match goal with |- context [if ?b then host_write _ _ _ _ else _] => destruct b end; [|done].
    apply (host_write_frame m); congruence.
Qed.

(** [inv_ok], taking pairs apart on the way. *)
Local Ltac inv_steps := repeat (progress inv_ok || match goal with x : (_ * _)%type |- _ => destruct x end).

Lemma access_frame m h p m' h' p' cl : access m h p = Ok (m', h', p', cl) → frame m h m' h'.
Proof.
  unfold access, access_body, frame. intros H.
  destruct (cacheResponding p); [inv_ok; split; [apply set_locks_id|done]|].
  destruct (bool_decide _ || _); [inv_ok; split; [apply set_locks_id|done]|].
  inv_steps.
  match goal with H : (if bool_decide (cmd p = SwapReq) then _ else _) = _ |- _ => rename H into Hb end.
  destruct (bool_decide (cmd p = SwapReq)).
  { inv_steps. split; [apply set_locks_id|]. intros o Ho. by eapply swap_frame. }
  destruct (isRead (cmd p)); [inv_steps; split; done|].
  destruct (isInvalidate (cmd p) || isClean (cmd p)); [inv_steps; split; [apply set_locks_id|done]|].
  destruct (isWrite (cmd p)); [|done]. inv_steps.
  match goal with H : (if ?b then _ else _) = Ok _ |- _ => is_var b; destruct b end; inv_steps; (split; [done|]); [|done].
  intros o Ho. by eapply write_memory_frame.
Qed.

(** ** Reservations over a run *)

(** A run of accesses, with the log of the packets sent and returned, the
    latest first. *)
Fixpoint run (m : AbstractMemory) (h : Host) (log : list (Packet * Packet)) (ps : list Packet) :
    res (AbstractMemory * Host * list (Packet * Packet)) :=
  match ps with
  | [] => Ok (m, h, log)
  | p :: ps => '(m, h, p', _) ← access m h p; run m h ((p, p') :: log) ps
  end.

Definition load_locked (c g : Z) (e : Packet * Packet) : Prop :=
  ignored e.1 = false ∧ isRead (cmd e.1) = true ∧ isLLSC (cmd e.1) = true ∧
  requestor (req e.1) = c ∧ granule e.1 = g.

(** A write with its first byte in the block that was carried out and went
    through [writeOK]; swaps do not. *)
Definition stored (g : Z) (e : Packet * Packet) : Prop :=
  ignored e.1 = false ∧ isWrite (cmd e.1) = true ∧ cmd e.1 ≠ SwapReq ∧ granule e.1 = g ∧
  (isLLSC (cmd e.1) = true → req_extraData (req e.2) = Some 1).

(** Context [c] has load-locked block [g], and since then it has not
    load-locked anything else and no [stored] packet has hit the block. *)
Definition reserved (log : list (Packet * Packet)) (c g : Z) : Prop :=
  ∃ newer e older, log = newer ++ e :: older ∧ load_locked c g e ∧
    ∀ e', e' ∈ newer → (∀ g', ¬ load_locked c g' e') ∧ ¬ stored g e'.

Lemma reserved_cons e log c g :
  reserved (e :: log) c g ↔
  load_locked c g e ∨ (reserved log c g ∧ (∀ g', ¬ load_locked c g' e) ∧ ¬ stored g e).
Proof.
  split.
  - intros ([|e1 newer] & e0 & older & Hlog & Hll & Hno); simplify_eq/=; [by left|right].
    split; [|apply Hno; left]. exists newer, e0, older. split; [done|]. split; [done|].
    intros e' He'. apply Hno. by right.
  - intros [Hll|((newer & e0 & older & -> & Hll & Hno) & He)].
    + exists [], e, log. split; [done|]. split; [done|]. intros e' He'. by apply elem_of_nil in He'.
    + exists (e :: newer), e0, older. split; [done|]. split; [done|].
      intros e' [->|He']%elem_of_cons; [done|by apply Hno].
Qed.

(** The reservations of the specification are those of the log. *)
Definition resv_of_log (s : Spec) (log : list (Packet * Packet)) : Prop :=
  ∀ c g, resv s !! c = Some g ↔ reserved log c g.

(** Case analysis on what an access adds to the log. *)
Local Ltac log_cases := split;
  [intros ?; solve [left; repeat split; congruence | right; split; [done|]; split;
     [intros ?|]; intros ?; destruct_and!; congruence]
  | intros [?|?]; destruct_and!; solve [congruence | exfalso; naive_solver]].

Lemma resv_of_log_step s p d log : resv_of_log s log → isRequest (cmd p) = true →
  let '(s', read, sc) := spec_step s p d in
  resv_of_log s' ((p, answer p read sc) :: log).
Proof.
  intros Hlog Hreq. destruct (spec_step s p d) as [[s' read] sc] eqn:Hstep. intros c g.
  rewrite reserved_cons, <- (Hlog c g). clear Hlog. unfold load_locked, stored. cbn [fst snd].
  unfold spec_step in Hstep. destruct (ignored p) eqn:Hig; [simplify_eq; log_cases|].
  case_bool_decide as Hsw.
  { simplify_eq. cbn [resv]. assert (isLLSC (cmd p) = false) as -> by (by rewrite Hsw). log_cases. }
  destruct (isRead (cmd p)) eqn:Hrd.
  { assert (Hw : isWrite (cmd p) = false).
    { destruct (isWrite (cmd p)) eqn:Hw; [|done]. clear -Hsw Hrd Hw Hreq. destruct (cmd p); vm_compute in *; congruence. }
    simplify_eq. cbn [resv]. destruct (isLLSC (cmd p)); [|log_cases].
    destruct (decide (requestor (req p) = c)) as [<-|Hne].
    - rewrite lookup_insert_eq. log_cases.
    - rewrite lookup_insert_ne by done. log_cases. }
  destruct (isWrite (cmd p)) eqn:Hw; [|simplify_eq; log_cases].
  assert (Hx : isLLSC (cmd p) = true → req_extraData (req (answer p read sc)) =
    Some (if negb (isLLSC (cmd p)) || holds s p then 1 else 0)).
  { intros Hll. rewrite Hll in Hstep. simplify_eq. unfold answer. rewrite Hll. by case_match. }
  set (ok := negb (isLLSC (cmd p)) || holds s p) in *.
  assert (Hst : (isLLSC (cmd p) = true → req_extraData (req (answer p read sc)) = Some 1) ↔ ok = true).
  { unfold ok in *. destruct (isLLSC (cmd p)); [|done]. rewrite Hx by done. simpl.
    destruct (holds s p); naive_solver. }
  rewrite Hst. clear Hx Hst. injection Hstep as <- <- <-. clearbody ok. destruct ok; [|log_cases].
  cbn [resv]. rewrite map_lookup_filter_Some. cbn [snd]. split.
  - intros [? ?]. right. split; [done|]. split; [intros ?|]; intros ?; destruct_and!; congruence.
  - intros [?|(? & _ & Hn)]; [destruct_and!; congruence|]. split; [done|]. intros ->. by apply Hn.
Qed.

Lemma run_follows m h s log ps : Forall (λ q, ∃ d, acceptable m q d) ps → simulates m h s → resv_of_log s log →
  ∃ m' h' log' s', run m h log ps = Ok (m', h', log') ∧ simulates m' h' s' ∧ resv_of_log s' log' ∧
    range m' = range m.
Proof.
  revert m h s log. induction ps as [|p ps IH]; intros m h s log Hps Hsim Hlog.
  { exists m, h, log, s. done. }
  apply Forall_cons in Hps as [[d Hp] Hps]. cbn [run].
  pose proof (access_steps m h s p d Hp Hsim) as Hacc.
  pose proof (resv_of_log_step s p d log Hlog (ac_request _ _ _ Hp)) as Hlog'.
  destruct (spec_step s p d) as [[s' read] sc]. destruct Hacc as (m' & h' & cl & -> & Hsim' & Hr & _).
  cbn [mbind res_bind]. destruct (IH m' h' s' ((p, answer p read sc) :: log)) as (m2 & h2 & log2 & s2 & -> & ? & ? & Hr2); [|done|done|].
  - eapply Forall_impl; [exact Hps|]. intros q [dq Hq]. exists dq. destruct Hq; split; by rewrite ?Hr.
  - exists m2, h2, log2, s2. by rewrite Hr2.
Qed.

(** A byte of the memory. *)
Definition byte_of (m : AbstractMemory) (h : Host) (x : Z) : Z :=
  match pmemAddr m with Some o => default 0 (object h o !! toHostAddr m x) | None => 0 end.
Lemma simulates_byte m h s x : simulates m h s → bytes s x = byte_of m h x.
Proof. intros [_ _ (o & Ho & Hb)]. unfold byte_of. by rewrite Ho. Qed.

(** A packet that leaves a reservation of context [c] in the hands of the code:
    no load-locked of that context, no swap, and no write beyond the block of
    its first byte. *)
Record tame (c : Z) (p : Packet) : Prop := {
  ta_lock : ¬ (isRead (cmd p) = true ∧ isLLSC (cmd p) = true ∧ requestor (req p) = c);
  ta_swap : cmd p ≠ SwapReq;
  ta_within : isWrite (cmd p) = true → ∀ x, addr p ≤ x < addr p + size p → mask x = granule p;
}.

Lemma step_keeps s p d s' read sc c g : spec_step s p d = (s', read, sc) → tame c p →
  Z.of_nat (length d) = size p → resv s' !! c = Some g →
  resv s !! c = Some g ∧ ∀ x, mask x = g → bytes s' x = bytes s x.
Proof.
  intros Hst [Hlk Hsw Hin] Hd Hc. unfold spec_step in Hst. destruct (ignored p); [by simplify_eq|].
  rewrite bool_decide_false in Hst by done. destruct (isRead (cmd p)).
  { simplify_eq. cbn [resv bytes] in *. destruct (isLLSC (cmd p)); [|done].
    rewrite lookup_insert_ne in Hc by (intros ?; by apply Hlk). done. }
  destruct (isWrite (cmd p)); [|by simplify_eq].
  destruct (negb (isLLSC (cmd p)) || holds s p); simplify_eq; [|done]. cbn [resv bytes] in *.
  apply map_lookup_filter_Some in Hc as [Hc Hg]. cbn in Hg. split; [done|]. intros x Hx. unfold store.
  destruct (byte_at (addr p) d x) as [b|] eqn:Hb; [|done]. exfalso. apply Hg. rewrite <-Hx.
  unfold byte_at in Hb. case_match; [|done]. apply lookup_lt_Some in Hb. apply Hin; [done|]. lia.
Qed.

Lemma run_keeps m h s log ps c : Forall (λ q, ∃ d, acceptable m q d) ps → Forall (tame c) ps → simulates m h s →
  ∃ m' h' log' s', run m h log ps = Ok (m', h', log') ∧ simulates m' h' s' ∧
    ∀ g, resv s' !! c = Some g → resv s !! c = Some g ∧ ∀ x, mask x = g → bytes s' x = bytes s x.
Proof.
  revert m h s log. induction ps as [|p ps IH]; intros m h s log Hps Hta Hsim.
  { exists m, h, log, s. done. }
  apply Forall_cons in Hps as [[d Hp] Hps]. apply Forall_cons in Hta as [Htp Hta]. cbn [run].
  pose proof (access_steps m h s p d Hp Hsim) as Hacc.
  destruct (spec_step s p d) as [[s1 read] sc] eqn:Hst. destruct Hacc as (m1 & h1 & cl & -> & Hsim1 & Hr & _).
  cbn [mbind res_bind]. destruct (IH m1 h1 s1 ((p, answer p read sc) :: log)) as (m2 & h2 & log2 & s2 & -> & Hsim2 & Hk); [|done|done|].
  - eapply Forall_impl; [exact Hps|]. intros q [dq Hq]. exists dq. destruct Hq; split; by rewrite ?Hr.
  - exists m2, h2, log2, s2. split; [done|]. split; [done|]. intros g Hg. destruct (Hk g Hg) as [Hg1 Hx1].
    destruct (step_keeps s p d s1 read sc c g Hst Htp (ac_size _ _ _ Hp) Hg1) as [Hg0 Hx0]. split; [done|].
    intros x Hx. by rewrite Hx1, Hx0.
Qed.

Lemma run_app m h log ps1 ps2 :
  run m h log (ps1 ++ ps2) = '(m, h, log) ← run m h log ps1; run m h log ps2.
Proof.
  revert m h log. induction ps1 as [|p ps1 IH]; intros m h log; [done|]. cbn [app run].
  destruct (access m h p) as [[[[m1 h1] p1] cl]|]; [|done]. cbn [mbind res_bind]. apply IH.
Qed.

(** C13: What a store-conditional does after any run of accesses from a memory
    without reservations.  It succeeds exactly when its context load-locked
    the same block of 16 bytes, has load-locked nothing since, and since then
    no write with its first byte in the block was carried out, where a swap
    does not count as a write; when it fails the memory is untouched, and the
    packet says which of the two happened.  So it is atomic up to the two
    kinds of stores that the code does not check: if no packet since the
    load-locked is a swap, and no write runs beyond the block of its first
    byte, then a store-conditional that succeeds finds the bytes of the block
    as the load-locked left them.  Of swaps and of stores that run in from the
    block before neither is true. *)
Theorem store_conditional_atomic m h o ps p d :
  lockedAddrList m = [] → pmemAddr m = Some o →
  Forall (λ q, ∃ d, acceptable m q d) ps → acceptable m p d →
  isWrite (cmd p) = true → isLLSC (cmd p) = true → ignored p = false →
  ∃ m' h' log m'' h'' p' cleared,
    run m h [] ps = Ok (m', h', log) ∧ access m' h' p = Ok (m'', h'', p', cleared) ∧
    ((req_extraData (req p') = Some 1 ∧ reserved log (requestor (req p)) (granule p)) ∨
     (req_extraData (req p') = Some 0 ∧ ¬ reserved log (requestor (req p)) (granule p) ∧ h'' = h')) ∧
    ∀ ps1 ps2, ps = ps1 ++ ps2 → Forall (tame (requestor (req p))) ps2 → req_extraData (req p') = Some 1 →
      ∃ m1 h1 log1, run m h [] ps1 = Ok (m1, h1, log1) ∧ ∀ x, mask x = granule p → byte_of m' h' x = byte_of m1 h1 x.
Proof.
  intros Hl Ho Hps Hp Hw Hll Hig. set (s0 := mkSpec (λ x, default 0 (object h o !! toHostAddr m x)) ∅).
  assert (Hsim : simulates m h s0).
  { split; rewrite ?Hl; [split; constructor|done|by exists o]. }
  assert (Hlog : resv_of_log s0 []).
  { intros c g. change (resv s0) with (∅ : gmap Z Z). rewrite lookup_empty. split; [done|]. by intros ([] & ? & ? & ? & _). }
  destruct (run_follows m h s0 [] ps Hps Hsim Hlog) as (m' & h' & log & s' & Hrun & Hsim' & Hlog' & Hr).
  assert (Hp' : acceptable m' p d) by (destruct Hp; split; by rewrite ?Hr).
  pose proof (access_steps m' h' s' p d Hp' Hsim') as Hacc. unfold spec_step in Hacc.
  assert (Hrd : isRead (cmd p) = false).
  { pose proof (ac_request _ _ _ Hp). clear -Hw Hll H. destruct (cmd p); vm_compute in *; congruence. }
  rewrite Hig, bool_decide_false, Hrd, Hw, Hll in Hacc by (intros He; by rewrite He in Hrd). cbn [negb orb] in Hacc.
  destruct Hacc as (m'' & h'' & cl & Hacc & _ & _ & Hsame & _).
  exists m', h', log, m'', h''. eexists _, cl. split; [done|]. split; [exact Hacc|].
  rewrite <- (Hlog' (requestor (req p)) (granule p)).
  assert (Hx : req_extraData (req (answer p None (Some (holds s' p)))) = Some (if holds s' p then 1 else 0))
    by (unfold answer; by case_match).
  rewrite Hx. unfold holds in *. case_bool_decide as Hres; [|split; [right; by rewrite Hsame|done]].
  split; [by left|]. intros ps1 ps2 -> Hta _. apply Forall_app in Hps as [Hps1 Hps2].
  destruct (run_follows m h s0 [] ps1 Hps1 Hsim Hlog) as (m1 & h1 & log1 & s1 & Hrun1 & Hsim1 & _ & Hr1).
  exists m1, h1, log1. split; [done|]. rewrite run_app, Hrun1 in Hrun. cbn [mbind res_bind] in Hrun.
  destruct (run_keeps m1 h1 s1 log1 ps2 (requestor (req p))) as (m2 & h2 & log2 & s2 & Hrun2 & Hsim2 & Hk); [|done|done|].
  { eapply Forall_impl; [exact Hps2|]. intros q [dq Hq]. exists dq. destruct Hq; split; by rewrite ?Hr1. }
  rewrite Hrun in Hrun2. injection Hrun2 as <- <- <-.
  assert (resv s2 !! requestor (req p) = Some (granule p)) as H2 by (by rewrite <-(si_resv _ _ _ Hsim2), (si_resv _ _ _ Hsim')).
  intros x Hxg. destruct (Hk _ H2) as [_ Hbytes]. rewrite <-(simulates_byte m' h' s2 x Hsim2), (Hbytes x Hxg). by apply simulates_byte.
Qed.

(** A functional access does to the memory and to the packet what the timed
    one does, for plain reads and writes that are answered; it leaves the
    reservations alone. *)
Theorem functional_matches_access m h s p d : acceptable m p d → simulates m h s →
  ignored p = false → cmd p ≠ SwapReq → isLLSC (cmd p) = false → needsResponse (cmd p) = true →
  isRead (cmd p) || isWrite (cmd p) = true →
  ∃ m' h' p' cleared, access m h p = Ok (m', h', p', cleared) ∧ functionalAccess m h p = Ok (h', p').
Proof.
  intros Hp Hsim Hig Hsw Hll Hn Hrw.
  pose proof (access_steps m h s p d Hp Hsim) as Hacc. destruct (spec_step s p d) as [[s' read] sc].
  destruct Hacc as (m' & h' & cl & Hacc & _). exists m', h', (answer p read sc), cl. split; [done|].
  unfold access in Hacc. unfold ignored in Hig. apply orb_false_iff in Hig as [[Hcr Hce]%orb_false_iff Hwb].
  rewrite Hcr, Hce, Hwb in Hacc. simpl in Hacc. unfold functionalAccess.
  rewrite (ac_inside _ _ _ Hp) in *. cbn [mbind res_bind assertb] in *.
  unfold access_body in Hacc. rewrite bool_decide_false, Hll in Hacc by done.
  destruct (isRead (cmd p)) eqn:Hrd.
  - destruct (isWrite (cmd p)); [done|]. cbn [negb assertb mbind res_bind] in Hacc.
    destruct (read_memory m h p) as [q|] eqn:Hread; [|done]. cbn [mbind res_bind] in *.
    assert (cmd q = cmd p) as Hc.
    { unfold read_memory, setData in Hread. destruct (pmemAddr m); [|by injection Hread as <-].
      destruct (getPtr p); [|done]. by injection Hread as <-. }
    rewrite Hc, Hn in Hacc. destruct (makeResponse q); [|done]. cbn [mbind res_bind] in *. by simplify_eq.
  - simpl in Hrw. rewrite Hrw in Hacc |- *.
    replace (isInvalidate (cmd p) || isClean (cmd p)) with false in Hacc
      by (clear -Hrw Hrd; destruct (cmd p); vm_compute in *; congruence).
    destruct (writeOK_ok p (lockedAddrList m) (si_locks _ _ _ Hsim) (ac_context _ _ _ Hp)) as (l' & cl' & HwOK & _).
    rewrite HwOK, Hll in Hacc. cbn [negb orb mbind res_bind] in Hacc.
    destruct (write_memory m h p) as [h2|]; [|done]. cbn [mbind res_bind] in *.
    rewrite (ac_fetch _ _ _ Hp Hrw) in Hacc. cbn [negb assertb mbind res_bind] in Hacc. rewrite Hn in Hacc.
    destruct (makeResponse p); [|done]. cbn [mbind res_bind] in *. by simplify_eq.
Qed.

(** ** Witnesses *)

Definition a_memory : AbstractMemory := mkMemory (RangeSize 0 4096) (Some 0%nat) [] false true true true.
Definition request_by (c a n fl : Z) : Request := mkRequest a n fl (Some c) None [] None.
Definition ll (c a : Z) : Packet := set_data (Some (replicate 8 0)) (createRead (request_by c a 8 LLSC)).
Definition sc (c a v : Z) : Packet := set_data (Some (to_bytes 8 v)) (createWrite (request_by c a 8 LLSC)).
Definition st (c a : Z) (d : list Z) : Packet :=
  set_data (Some d) (createWrite (request_by c a (Z.of_nat (length d)) 0)).
Definition swap_with (c a v : Z) : Packet :=
  set_data (Some (to_bytes 8 v)) (createWrite (request_by c a 8 MEM_SWAP)).

Lemma acceptable_sc c a v : c ≠ -1 → isSubset (getAddrRange (sc c a v)) (range a_memory) = Ok true →
  acceptable a_memory (sc c a v) (to_bytes 8 v).
Proof. intros Hc Hr. split; try done. intros _. by exists c. Qed.

Lemma acceptable_ll c a : c ≠ -1 → isSubset (getAddrRange (ll c a)) (range a_memory) = Ok true →
  acceptable a_memory (ll c a) (replicate 8 0).
Proof. intros Hc Hr. split; try done. intros _. by exists c. Qed.

Definition s_start : Spec := mkSpec (λ _, 0) ∅.
Lemma a_memory_simulates : simulates a_memory ∅ s_start.
Proof.
  split; [split; constructor|done|]. exists 0%nat. split; [done|]. intros x. done.
Qed.

(** A masked write of two of eight bytes. *)
Definition masked : Packet :=
  set_data (Some (to_bytes 8 (-1)))
    (createWrite (mkRequest 64 8 0 (Some 0) None [true; true; false; false; false; false; false; false] None)).

Lemma access_refines_witness :
  let '(s', read, sc) := spec_step s_start masked (to_bytes 8 (-1)) in
  ∃ m' h' cleared, access a_memory ∅ masked = Ok (m', h', answer masked read sc, cleared) ∧
    simulates m' h' s' ∧ range m' = range a_memory ∧ (sc = Some false → h' = ∅) ∧
    ∀ c, c ∈ cleared ↔ isWrite (cmd masked) = true ∧ cmd masked ≠ SwapReq ∧ ignored masked = false ∧
      default true sc = true ∧ c ≠ requestor (req masked) ∧ resv s_start !! c = Some (granule masked).
Proof.
  apply (access_refines a_memory ∅ s_start masked (to_bytes 8 (-1))); [|exact a_memory_simulates].
  split; done.
Defined.

Lemma functional_matches_access_witness :
  ∃ m' h' p' cleared, access a_memory ∅ masked = Ok (m', h', p', cleared) ∧
    functionalAccess a_memory ∅ masked = Ok (h', p').
Proof.
  apply (functional_matches_access a_memory ∅ s_start masked (to_bytes 8 (-1)));
    [split; done|exact a_memory_simulates|reflexivity|discriminate|reflexivity..].
Defined.

(** Context 1 takes the reservation of context 0 away; then the reservation of
    context 0 outlives a store elsewhere. *)
Lemma store_conditional_atomic_witness :
  (∃ m' h' log m'' h'' p' cleared,
    run a_memory ∅ [] [ll 0 256; ll 1 256; sc 1 264 7] = Ok (m', h', log) ∧
    access m' h' (sc 0 256 9) = Ok (m'', h'', p', cleared) ∧ req_extraData (req p') = Some 0) ∧
  ∃ m' h' log m1 h1 log1,
    run a_memory ∅ [] [ll 0 256; st 1 512 [1; 2]] = Ok (m', h', log) ∧ run a_memory ∅ [] [ll 0 256] = Ok (m1, h1, log1) ∧
    ∀ x, mask x = 256 → byte_of m' h' x = byte_of m1 h1 x.
Proof.
  split.
  - destruct (store_conditional_atomic a_memory ∅ 0%nat [ll 0 256; ll 1 256; sc 1 264 7] (sc 0 256 9) (to_bytes 8 9))
      as (m' & h' & log & m'' & h'' & p' & cl & Hr & Ha & Hout & _);
      [reflexivity|reflexivity| |apply acceptable_sc; [lia|reflexivity]|reflexivity|reflexivity|reflexivity|].
    + repeat (apply Forall_cons; split); [eexists; apply acceptable_ll; [lia|reflexivity]..|eexists; apply acceptable_sc; [lia|reflexivity]|constructor].
    + exists m', h', log, m'', h'', p', cl. split; [exact Hr|]. split; [exact Ha|].
      vm_compute in Hr. injection Hr as <- <- <-. vm_compute in Ha. injection Ha as <- <- <- <-. reflexivity.
  - destruct (store_conditional_atomic a_memory ∅ 0%nat [ll 0 256; st 1 512 [1; 2]] (sc 0 256 9) (to_bytes 8 9))
      as (m' & h' & log & m'' & h'' & p' & cl & Hr & Ha & _ & Hsplit);
      [reflexivity|reflexivity| |apply acceptable_sc; [lia|reflexivity]|reflexivity|reflexivity|reflexivity|].
    + repeat (apply Forall_cons; split); [eexists; apply acceptable_ll; [lia|reflexivity]|exists [1; 2]; by split|constructor].
    + destruct (Hsplit [ll 0 256] [st 1 512 [1; 2]] eq_refl) as (m1 & h1 & log1 & Hr1 & Hb).
      * apply Forall_cons. split; [|constructor]. split; [by intros (? & _)|discriminate|]. intros _ x Hx. cbn in Hx.
        assert (x = 512 ∨ x = 513) as [-> | ->] by lia; vm_compute; reflexivity.
      * vm_compute in Hr. injection Hr as <- <- <-. vm_compute in Ha. injection Ha as <- <- <- <-. reflexivity.
      * exists m', h', log, m1, h1, log1. split; [exact Hr|]. split; [exact Hr1|exact Hb].
Defined.

(** The outcome of a store-conditional of context 0 at 256, after [ps], and the
    eight bytes there before and after [ps]. *)
Definition outcome (ps : list Packet) : option (list Z * list Z * option Z) :=
  match run a_memory ∅ [] [ll 0 256] with
  | Ok (m, h, log) =>
      match run m h log ps with
      | Ok (m', h', _) =>
          match access m' h' (sc 0 256 9) with
          | Ok (_, _, p, _) => Some (host_read h 0 256 8, host_read h' 0 256 8, req_extraData (req p))
          | Err _ => None
          end
      | Err _ => None
      end
  | Err _ => None
  end.

(** Two ways around a reservation: a swap by another context, and a store by
    another context that starts in the block before and runs into the reserved
    one, change the reserved bytes, and the store-conditional still succeeds. *)
Theorem reservation_survives_change :
  outcome [swap_with 1 256 7] = Some (replicate 8 0, to_bytes 8 7, Some 1) ∧
  outcome [st 1 240 (replicate 32 5)] = Some (replicate 8 0, replicate 8 5, Some 1) ∧
  outcome [st 1 256 (replicate 8 5)] = Some (replicate 8 0, replicate 8 5, Some 0).
Proof. vm_compute. done. Qed.

End AbsMem.
