(* ===== verification/PhysMem.v ===== *)
(** * Physical memory ([mem/physical.hh], [mem/physical.cc])

    All the memories of the system: the address map that dispatches an access
    to one of them, the host storage behind them, and its checkpoint.  A
    pointer to a memory is its place in the list of memories given to the
    constructor.  Host mappings succeed; an anonymous mapping is a fresh object
    of zeros, and every mapping of the shared store is the same object, which
    is what [mmap] gives for a named segment at offset 0.  A checkpoint file is
    the sequence of bytes written to it: the compression is transparent. *)

From S2P Require Import Prelude.
From S2P Require Import Bytes.
From S2P Require Import AddrRange.
From S2P Require Import AddrRangeMap.
From S2P Require Import MemCmd.
From S2P Require Import Packet.
From S2P Require Import AbstractMem.

Module PhysMem.
Import MemCmd Pkt AbsMem.

(** ** Definitions *)

Record BackingStoreEntry := mkStore {
  bs_range : AddrRange;
  bs_pmem : nat;
  bs_confTableReported : bool;
  bs_inAddrMap : bool;
  bs_kvmMap : bool;
}.

Record PhysicalMemory := mkPhys {
  addrMap : RangeMap nat;
  memories : list nat;
  totalSize : Z;
  sharedBackstore : bool;
  backingStore : list BackingStoreEntry;
  (** The memories themselves, and the host. *)
  mems : list AbstractMemory;
  host : Host;
  nextObject : nat;
}.

Definition set_addrMap (x : RangeMap nat) (s : PhysicalMemory) : PhysicalMemory :=
  mkPhys x (memories s) (totalSize s) (sharedBackstore s) (backingStore s) (mems s) (host s) (nextObject s).
Definition set_mems (x : list AbstractMemory) (s : PhysicalMemory) : PhysicalMemory :=
  mkPhys (addrMap s) (memories s) (totalSize s) (sharedBackstore s) (backingStore s) x (host s) (nextObject s).
Definition set_host (x : Host) (s : PhysicalMemory) : PhysicalMemory :=
  mkPhys (addrMap s) (memories s) (totalSize s) (sharedBackstore s) (backingStore s) (mems s) x (nextObject s).

(** [AddrRangeMap<AbstractMemory*, 1>] *)
Definition cache_size : nat := 1.

(** The object of the shared segment; anonymous ones are numbered from 1. *)
Definition shm_object : nat := 0.

Definition mmap (s : PhysicalMemory) : nat * PhysicalMemory :=
  if sharedBackstore s then (shm_object, s)
  else (nextObject s,
        mkPhys (addrMap s) (memories s) (totalSize s) (sharedBackstore s) (backingStore s) (mems s)
          (<[nextObject s := ∅]> (host s)) (S (nextObject s))).

Definition createBackingStore (r : AddrRange) (ms : list nat) (conf in_map kvm : bool)
    (s : PhysicalMemory) : res PhysicalMemory :=
  panic_if (interleaved r);;
  let '(pmem, s) := mmap s in
  Ok (mkPhys (addrMap s) (memories s) (totalSize s) (sharedBackstore s)
        (backingStore s ++ [mkStore r pmem conf in_map kvm])
        (fold_left (λ l m, alter (setBackingStore pmem) m l) ms (mems s)) (host s) (nextObject s)).

(** One memory of the constructor's first loop. *)
Definition add_memory (i : nat) (m : AbstractMemory) (s : PhysicalMemory) : res PhysicalMemory :=
  if inAddrMap m then
    '(it, am) ← insert cache_size (addrMap s) (range m) i;
    fatal_if (match it with None => true | Some _ => false end);;
    Ok (mkPhys am (memories s ++ [i]) (u64 (totalSize s + AddrRange.size (range m))) (sharedBackstore s)
          (backingStore s) (mems s) (host s) (nextObject s))
  else
    fatal_if (interleaved (range m));;
    createBackingStore (range m) [i] (confTableReported m) (inAddrMap m) (kvmMap m) s.

Fixpoint add_memories (i : nat) (ms : list AbstractMemory) (s : PhysicalMemory) : res PhysicalMemory :=
  match ms with
  | [] => Ok s
  | m :: ms => s ← add_memory i m s; add_memories (S i) ms s
  end.

Definition same_flags (f c : AbstractMemory) : bool :=
  Bool.eqb (confTableReported f) (confTableReported c) && Bool.eqb (inAddrMap f) (inAddrMap c) &&
  Bool.eqb (kvmMap f) (kvmMap c).

Definition get_mem (s : PhysicalMemory) (i : nat) : res AbstractMemory :=
  match mems s !! i with Some m => Ok m | None => Err Undef end.

(** The interleaved ranges collected so far get one store between them. *)
Definition merge_store (intlv : list AddrRange) (curr : list nat) (s : PhysicalMemory) : res PhysicalMemory :=
  merged ← AddrRange_merge intlv;
  match curr with
  | [] => Err Undef
  | i :: _ =>
      f ← get_mem s i;
      fatal_if (negb (forallb (λ c, match mems s !! c with Some m => same_flags f m | None => false end) curr));;
      createBackingStore merged curr (confTableReported f) (inAddrMap f) (kvmMap f) s
  end.

Definition last_merges (intlv : list AddrRange) (r : AddrRange) : bool :=
  match last intlv with Some b => mergesWith b r | None => true end.

Fixpoint store_loop (entries : list (AddrRange * nat)) (intlv : list AddrRange) (curr : list nat)
    (s : PhysicalMemory) : res PhysicalMemory :=
  match entries with
  | [] => match intlv with [] => Ok s | _ => merge_store intlv curr s end
  | (r, i) :: entries =>
      m ← get_mem s i;
      if null m then store_loop entries intlv curr s
      else if interleaved r then
        if negb (last_merges intlv r) then
          s ← merge_store intlv curr s; store_loop entries [r] [i] s
        else store_loop entries (intlv ++ [r]) (curr ++ [i]) s
      else
        s ← createBackingStore r [i] (confTableReported m) (inAddrMap m) (kvmMap m) s;
        store_loop entries intlv curr s
  end.

Definition PhysicalMemory_new (ms : list AbstractMemory) (shared : bool) : res PhysicalMemory :=
  s ← add_memories 0 ms (mkPhys map_empty [] 0 shared [] ms ∅ 1);
  store_loop (tree (addrMap s)) [] [] s.

Definition isMemAddr (a : Z) (s : PhysicalMemory) : res (bool * PhysicalMemory) :=
  '(o, am) ← map_contains_addr cache_size (addrMap s) a;
  Ok (match o with Some _ => true | None => false end, set_addrMap am s).

Fixpoint conf_loop (s : PhysicalMemory) (entries : list (AddrRange * nat)) (intlv ranges : list AddrRange) :
    res (list AddrRange) :=
  match entries with
  | [] => match intlv with [] => Ok ranges | _ => r ← AddrRange_merge intlv; Ok (ranges ++ [r]) end
  | (r, i) :: entries =>
      m ← get_mem s i;
      if confTableReported m then
        if interleaved r then
          if negb (last_merges intlv r) then
            merged ← AddrRange_merge intlv; conf_loop s entries [r] (ranges ++ [merged])
          else conf_loop s entries (intlv ++ [r]) ranges
        else conf_loop s entries intlv (ranges ++ [r])
      else conf_loop s entries intlv ranges
  end.
Definition getConfAddrRanges (s : PhysicalMemory) : res (list AddrRange) :=
  conf_loop s (tree (addrMap s)) [] [].

(** The memory an access goes to. *)
Definition find_memory (p : Packet) (s : PhysicalMemory) : res (nat * AbstractMemory * PhysicalMemory) :=
  assertb (isRequest (cmd p));;
  '(o, am) ← map_contains cache_size (addrMap s) (getAddrRange p);
  match o with
  | None => Err AssertFail
  | Some (_, i) => m ← get_mem s i; Ok (i, m, set_addrMap am s)
  end.

Definition access (p : Packet) (s : PhysicalMemory) : res (Packet * list Z * PhysicalMemory) :=
  '(i, m, s) ← find_memory p s;
  '(m, h, p, cleared) ← AbsMem.access m (host s) p;
  Ok (p, cleared, set_host h (set_mems (<[i := m]> (mems s)) s)).

Definition functionalAccess (p : Packet) (s : PhysicalMemory) : res (Packet * PhysicalMemory) :=
  '(i, m, s) ← find_memory p s;
  '(h, p) ← AbsMem.functionalAccess m (host s) p;
  Ok (p, set_host h s).

(** *** Checkpoints *)

Record StoreFile := mkStoreFile { sf_store_id : nat; sf_range_size : Z; sf_bytes : list Z }.
Record Checkpoint := mkCheckpoint {
  lal_addr : list Z;
  lal_cid : list Z;
  stores : list StoreFile;
}.

Definition INT_MAX : Z := 2 ^ 31 - 1.

(** The passes of [gzwrite], each of at most [INT_MAX] bytes. *)
Fixpoint write_passes (fuel : nat) (written size : Z) (mem : gmap Z Z) : res (list Z) :=
  if written <? size then
    match fuel with
    | O => Err Diverge
    | S fuel =>
        let pass_size := if INT_MAX <? size - written then INT_MAX else size - written in
        rest ← write_passes fuel (written + pass_size) size mem;
        Ok (mem_read mem written (Z.to_nat pass_size) ++ rest)
    end
  else Ok [].

Definition serializeStore (store_id : nat) (e : BackingStoreEntry) (s : PhysicalMemory) : res StoreFile :=
  let range_size := AddrRange.size (bs_range e) in
  file ← write_passes (S (Z.to_nat (range_size / INT_MAX))) 0 range_size (object (host s) (bs_pmem e));
  Ok (mkStoreFile store_id range_size file).

Fixpoint serialize_stores (id : nat) (es : list BackingStoreEntry) (s : PhysicalMemory) : res (list StoreFile) :=
  match es with
  | [] => Ok []
  | e :: es => f ← serializeStore id e s; fs ← serialize_stores (S id) es s; Ok (f :: fs)
  end.

Definition locks_of (s : PhysicalMemory) (i : nat) : list LockedAddr :=
  match mems s !! i with Some m => lockedAddrList m | None => [] end.

Definition serialize (s : PhysicalMemory) : res Checkpoint :=
  let locks := memories s ≫= locks_of s in
  files ← serialize_stores 0 (backingStore s) s;
  Ok (mkCheckpoint (la_addr <$> locks) (la_contextId <$> locks) files).

(** The words of a chunk that are not zero are copied. *)
Fixpoint copy_words (n : nat) (off : Z) (chunk : list Z) (mem : gmap Z Z) : gmap Z Z :=
  match n with
  | O => mem
  | S n =>
      let w := take 8 chunk in
      copy_words n (off + 8) (drop 8 chunk)
        (if forallb (λ b, b =? 0) w then mem else mem_write mem off w)
  end.

Definition chunk_size : nat := Z.to_nat 16384.

Fixpoint read_chunks (fuel : nat) (curr_size size : Z) (file : list Z) (mem : gmap Z Z) : res (gmap Z Z) :=
  if curr_size <? size then
    match fuel with
    | O => Err Diverge
    | S fuel =>
        let chunk := take chunk_size file in
        match chunk with
        | [] => Ok mem
        | _ =>
            assertb (Nat.eqb (length chunk mod 8) 0);;
            read_chunks fuel (curr_size + Z.of_nat (length chunk)) size (drop chunk_size file)
              (copy_words (length chunk / 8) curr_size chunk mem)
        end
    end
  else Ok mem.

Definition unserializeStore (f : StoreFile) (s : PhysicalMemory) : res PhysicalMemory :=
  match backingStore s !! sf_store_id f with
  | None => Err Undef
  | Some e =>
      fatal_if (negb (sf_range_size f =? AddrRange.size (bs_range e)));;
      mem ← read_chunks (S (length (sf_bytes f))) 0 (AddrRange.size (bs_range e)) (sf_bytes f)
              (object (host s) (bs_pmem e));
      Ok (set_host (<[bs_pmem e := mem]> (host s)) s)
  end.

Fixpoint unserialize_stores (fs : list StoreFile) (s : PhysicalMemory) : res PhysicalMemory :=
  match fs with
  | [] => Ok s
  | f :: fs => s ← unserializeStore f s; unserialize_stores fs s
  end.

(** An address no memory holds gives [end()], which is then dereferenced. *)
Fixpoint unserialize_locks (addrs cids : list Z) (s : PhysicalMemory) : res PhysicalMemory :=
  match addrs, cids with
  | [], _ => Ok s
  | a :: addrs, c :: cids =>
      '(o, am) ← map_contains_addr cache_size (addrMap s) a;
      match o with
      | None => Err Undef
      | Some (_, i) =>
          unserialize_locks addrs cids
            (set_mems (alter (addLockedAddr (mkLockedAddr a c)) i (mems s)) (set_addrMap am s))
      end
  | _ :: _, [] => Err Undef
  end.

Definition unserialize (cp : Checkpoint) (s : PhysicalMemory) : res PhysicalMemory :=
  s ← unserialize_locks (lal_addr cp) (lal_cid cp) s;
  unserialize_stores (stores cp) s.

(** ** Invariant

    Every range of the address map is that of its memory, each memory that
    stores data has an object of the host to itself, and null memories have
    none. *)

Record entry_ok (s : PhysicalMemory) (e : AddrRange * nat) (m : AbstractMemory) : Prop := {
  en_mem : mems s !! e.2 = Some m;
  en_range : range m = e.1;
  en_locks : locks_ok (lockedAddrList m);
  en_store : null m = false ↔ is_Some (pmemAddr m);
}.

Record phys_inv (s : PhysicalMemory) : Prop := {
  pi_map : map_inv (addrMap s);
  pi_entry : ∀ e, e ∈ tree (addrMap s) → ∃ m, entry_ok s e m;
  pi_distinct : ∀ e1 e2 m1 m2 o, e1 ∈ tree (addrMap s) → e2 ∈ tree (addrMap s) →
    mems s !! e1.2 = Some m1 → mems s !! e2.2 = Some m2 →
    pmemAddr m1 = Some o → pmemAddr m2 = Some o → e1 = e2;
  pi_stores : ∀ e m o, e ∈ tree (addrMap s) → mems s !! e.2 = Some m → pmemAddr m = Some o →
    ∃ b, b ∈ backingStore s ∧ bs_pmem b = o ∧ bs_range b = e.1;
  pi_objects : NoDup (bs_pmem <$> backingStore s);
  pi_once : NoDup (memories s);
  pi_memories : ∀ i, i ∈ memories s ↔ ∃ r, (r, i) ∈ tree (addrMap s);
}.

(** The byte at a physical address. *)
Definition cell (h : Host) (m : AbstractMemory) (x : Z) : Z :=
  match pmemAddr m with Some o => default 0 (object h o !! toHostAddr m x) | None => 0 end.
Definition flat (s : PhysicalMemory) (x : Z) : Z :=
  match decode (tree (addrMap s)) x with
  | Some (_, i) => match mems s !! i with Some m => cell (host s) m x | None => 0 end
  | None => 0
  end.

Lemma flat_entry s e m x : phys_inv s → e ∈ tree (addrMap s) → mems s !! e.2 = Some m →
  contains e.1 x = true → flat s x = cell (host s) m x.
Proof.
  intros Hinv He Hm Hx. unfold flat.
  rewrite (proj2 (decode_spec 0 _ x e (proj1 (pi_map _ Hinv)))) by done. destruct e as [r i]. simpl in *. by rewrite Hm.
Qed.

Lemma entry_plain s e : phys_inv s → e ∈ tree (addrMap s) → plain_entry e.1.
Proof. intros Hinv He. apply (disjoint_from_elem 0 _ _ (proj1 (pi_map _ Hinv)) He). Qed.

(** Two entries over one address are one. *)
Lemma entry_of_addr s e1 e2 x : phys_inv s → e1 ∈ tree (addrMap s) → e2 ∈ tree (addrMap s) →
  contains e1.1 x = true → contains e2.1 x = true → e1 = e2.
Proof.
  intros Hinv H1 H2 Hx1 Hx2. eapply (entry_unique 0 _ e1 e2 x (proj1 (pi_map _ Hinv)) H1 H2);
    apply contains_entry; eauto using entry_plain.
Qed.

(** An access inside one of the ranges is dispatched to its memory. *)
Lemma find_memory_ok s p e m d : phys_inv s → e ∈ tree (addrMap s) → mems s !! e.2 = Some m →
  acceptable m p d → range m = e.1 → plain_entry (getAddrRange p) →
  ∃ am, find_memory p s = Ok (e.2, m, set_addrMap am s) ∧ tree am = tree (addrMap s) ∧ map_inv am.
Proof.
  intros Hinv He Hm Hp Hr Hplain. unfold find_memory. rewrite (ac_request _ _ _ Hp). cbn [assertb mbind res_bind].
  destruct (map_contains_spec cache_size (addrMap s) (getAddrRange p) (pi_map _ Hinv) Hplain)
    as (o & am & -> & Ht & Hi & Ho). cbn [mbind res_bind].
  pose proof (ac_inside _ _ _ Hp) as Hin. rewrite Hr, isSubset_plain in Hin by eauto using entry_plain.
  injection Hin as Hin.
  destruct o as [e'|]; [|by rewrite (Ho e He) in Hin]. destruct Ho as [He' Hin'].
  assert (e' = e) as ->.
  { apply (entry_of_addr s e' e (addr p)); [done..| |]; apply contains_entry; eauto using entry_plain;
      unfold within in *; bool_to_prop; destruct Hplain as (_ & _ & ? & _); simpl in *; lia. }
  destruct e as [r i]. unfold get_mem. simpl in *. rewrite Hm. cbn [mbind res_bind]. by exists am.
Qed.

(** Replacing one memory's reservations and its object keeps the invariant. *)
Lemma phys_inv_update s e m m' h' am : phys_inv s → e ∈ tree (addrMap s) → entry_ok s e m →
  m' = set_locks (lockedAddrList m') m → locks_ok (lockedAddrList m') →
  tree am = tree (addrMap s) → map_inv am →
  phys_inv (set_host h' (set_mems (<[e.2 := m']> (mems s)) (set_addrMap am s))).
Proof.
  intros Hinv He [Hm Hr Hl Hs] Hm' Hl' Ht Hi.
  assert (Hlook : ∀ i mi, <[e.2 := m']> (mems s) !! i = Some mi →
    ∃ mi0, mems s !! i = Some mi0 ∧ pmemAddr mi = pmemAddr mi0 ∧ range mi = range mi0 ∧ null mi = null mi0).
  { intros i mi Hmi. destruct (decide (i = e.2)) as [->|Hne].
    - rewrite list_lookup_insert_eq in Hmi by (by eapply lookup_lt_Some). injection Hmi as <-.
      exists m. rewrite Hm'. done.
    - rewrite list_lookup_insert_ne in Hmi by done. by exists mi. }
  split; cbn [addrMap mems set_host set_mems set_addrMap host memories backingStore];
    [done| | | |apply Hinv|apply Hinv|intros i; rewrite Ht; apply Hinv].
  - intros e1 He1. rewrite Ht in He1. destruct (pi_entry _ Hinv e1 He1) as [m1 [Hm1 Hr1 Hl1 Hs1]].
    destruct (decide (e1.2 = e.2)) as [Heq|Hne].
    + exists m'. rewrite Heq, Hm in Hm1. injection Hm1 as <-. split; [|rewrite Hm'; done..|done|rewrite Hm'; done].
      cbn [mems set_host set_mems]. rewrite Heq, list_lookup_insert_eq; [done|]. by eapply lookup_lt_Some.
    + exists m1. split; [|done..]. cbn [mems set_host set_mems]. by rewrite list_lookup_insert_ne.
  - intros e1 e2 m1 m2 o He1 He2 (m1' & Hm1 & Hp1 & _)%Hlook (m2' & Hm2 & Hp2 & _)%Hlook Ho1 Ho2.
    rewrite Ht in He1, He2. eapply (pi_distinct _ Hinv e1 e2 m1' m2' o); congruence.
  - intros e1 m1 o He1 (m1' & Hm1 & Hp1 & _)%Hlook Ho. rewrite Ht in He1.
    eapply (pi_stores _ Hinv e1 m1' o); congruence.
Qed.

(** The specification of the memory behind one entry. *)
Definition entry_spec (s : PhysicalMemory) (m : AbstractMemory) : Spec :=
  mkSpec (cell (host s) m) (reservations (lockedAddrList m)).

Lemma entry_simulates s e m : entry_ok s e m → null m = false → simulates m (host s) (entry_spec s m).
Proof.
  intros [Hm Hr Hl Hs] Hnull. split; [done|done|]. destruct (proj1 Hs Hnull) as [o Ho]. exists o.
  split; [done|]. intros x. unfold entry_spec, cell. simpl. by rewrite Ho.
Qed.

(** An access that does not wrap around. *)
Definition fits (p : Packet) : Prop := 0 ≤ addr p ∧ 0 < size p ∧ addr p + size p < 2 ^ 64.

Lemma fits_plain p : fits p → getAddrRange p = AddrRange_of (addr p) (addr p + size p) ∧ plain_entry (getAddrRange p).
Proof.
  intros (H1 & H2 & H3). assert (E : getAddrRange p = AddrRange_of (addr p) (addr p + size p)).
  { unfold getAddrRange, RangeSize. by rewrite u64_small by lia. }
  split; [done|]. rewrite E. repeat split; simpl; lia.
Qed.

(** It happens inside the entry's range. *)
Lemma access_inside s p e m d x : phys_inv s → e ∈ tree (addrMap s) → range m = e.1 →
  acceptable m p d → fits p → covers (addr p) (size p) x = true → contains e.1 x = true.
Proof.
  intros Hinv He Hr Hp Hfit Hx. pose proof (ac_inside _ _ _ Hp) as Hin. destruct (fits_plain p Hfit) as [E Hplain].
  rewrite Hr, isSubset_plain in Hin by eauto using entry_plain. injection Hin as Hin. rewrite E in Hin.
  apply contains_entry; [eauto using entry_plain|]. unfold within, covers in *. simpl in *. bool_to_prop. lia.
Qed.

(** What the address map shows of the memory after an access of entry [e]. *)
Lemma flat_after s s' e m m' p d S1 : phys_inv s → phys_inv s' → tree (addrMap s') = tree (addrMap s) →
  e ∈ tree (addrMap s) → entry_ok s e m → acceptable m p d → fits p →
  mems s' = <[e.2 := m']> (mems s) → frame m (host s) m' (host s') → simulates m' (host s') S1 →
  S1 = (spec_step (entry_spec s m) p d).1.1 →
  ∀ x, flat s' x = bytes (spec_step (mkSpec (flat s) (reservations (lockedAddrList m))) p d).1.1 x.
Proof.
  intros Hinv Hinv' Ht He Hen Hp Hfit Hms [Hm' Hfr] Hsim -> x. pose proof Hen as [Hm Hr _ _].
  assert (Hagree : ∀ y, contains e.1 y = true → bytes (entry_spec s m) y = flat s y).
  { intros y Hy. by rewrite (flat_entry s e m y). }
  assert (Hmm' : mems s' !! e.2 = Some m').
  { rewrite Hms, list_lookup_insert_eq; [done|]. by eapply lookup_lt_Some. }
  destruct (decide (contains e.1 x = true)) as [Hx|Hx].
  - rewrite (flat_entry s' e m' x) by (done || by rewrite Ht). destruct (si_bytes _ _ _ Hsim) as (o & Ho & Hb).
    unfold cell. rewrite Ho, <- Hb.
    apply (spec_step_agree (entry_spec s m) (mkSpec (flat s) (reservations (lockedAddrList m)))).
    + destruct Hfit; lia.
    + done.
    + intros y Hy. apply Hagree. by eapply (access_inside s p e m d).
    + by apply Hagree.
  - rewrite (spec_step_outside _ m); [|done|].
    2: { apply not_true_is_false. intros Hc. apply Hx. by eapply (access_inside s p e m d). }
    cbn [bytes]. unfold flat. rewrite Ht. destruct (decode (tree (addrMap s)) x) as [[r j]|] eqn:Hd; [|done].
    apply (decode_spec 0) in Hd as [Hj Hcj]; [|apply Hinv].
    assert (Hne : j ≠ e.2).
    { intros ->. destruct (pi_entry _ Hinv _ Hj) as [mj [Hmj Hrj _ _]]. simpl in *. congruence. }
    rewrite Hms, list_lookup_insert_ne by done. destruct (mems s !! j) as [mj|] eqn:Hmj; [|done].
    unfold cell, object. destruct (pmemAddr mj) as [o|] eqn:Ho; [|done]. rewrite Hfr; [done|].
    intros Ho'. apply Hne. pose proof (pi_distinct _ Hinv (r, j) e mj m o Hj He Hmj Hm Ho Ho') as Heq. by rewrite <- Heq.
Qed.

(** One access, through the address map. *)
Lemma access_flat s p d e m : phys_inv s → e ∈ tree (addrMap s) → mems s !! e.2 = Some m →
  null m = false → acceptable m p d → fits p →
  let '(S', read, sc) := spec_step (mkSpec (flat s) (reservations (lockedAddrList m))) p d in
  ∃ s' m' cleared, access p s = Ok (answer p read sc, cleared, s') ∧ phys_inv s' ∧
    tree (addrMap s') = tree (addrMap s) ∧ (∀ x, flat s' x = bytes S' x) ∧
    mems s' = <[e.2 := m']> (mems s) ∧ reservations (lockedAddrList m') = resv S' ∧
    m' = set_locks (lockedAddrList m') m ∧ backingStore s' = backingStore s ∧ memories s' = memories s.
Proof.
  intros Hinv He Hm Hnull Hp Hfit. destruct (pi_entry _ Hinv e He) as [m0 Hen].
  assert (m0 = m) as -> by (pose proof (en_mem _ _ _ Hen); congruence).
  destruct (fits_plain p Hfit) as [_ Hplain].
  destruct (find_memory_ok s p e m d Hinv He Hm Hp (en_range _ _ _ Hen) Hplain) as (am & Hfind & Ht & Hi).
  pose proof (access_steps m (host s) (entry_spec s m) p d Hp (entry_simulates s e m Hen Hnull)) as Hacc.
  set (S0 := mkSpec (flat s) _).
  destruct (spec_step_agree (entry_spec s m) S0 p d) as (Hrd & Hsc & Hrs & _); [destruct Hfit; lia|done| |].
  { intros y Hy. symmetry. eapply flat_entry; [done..|]. by eapply (access_inside s p e m d); eauto using en_range. }
  destruct (spec_step (entry_spec s m) p d) as [[S1 read] sc] eqn:HS1.
  destruct Hacc as (m' & h' & cl & Hacc & Hsim & _).
  pose proof (access_frame _ _ _ _ _ _ _ Hacc) as Hfr.
  set (s' := set_host h' (set_mems (<[e.2 := m']> (mems s)) (set_addrMap am s))).
  assert (Hinv' : phys_inv s').
  { eapply phys_inv_update; [done..|apply Hfr|apply Hsim|done|done]. }
  assert (Hflat : ∀ x, flat s' x = bytes (spec_step S0 p d).1.1 x).
  { apply (flat_after s s' e m m' p d S1); try done. by rewrite HS1. }
  destruct (spec_step S0 p d) as [[S' read'] sc'] eqn:HS'. simpl in *. subst read' sc'.
  exists s', m', cl. split; [|split; [done|split; [done|split; [done|split; [done|split; [|split; [apply Hfr|done]]]]]]].
  - unfold access. rewrite Hfind. cbn [mbind res_bind]. change (host (set_addrMap am s)) with (host s).
    by rewrite Hacc.
  - rewrite (si_resv _ _ _ Hsim). done.
Qed.

(** C7: the physical memory behaves as one flat memory: an access inside the
    range of a memory with storage returns, and the bytes seen through the
    address map, the packet and the reservations of that memory change as one
    step of the specification on the flat memory; the invariant is kept, and
    every other memory, with its reservations, is untouched. *)
Theorem physical_memory_flat s p d e m : phys_inv s → e ∈ tree (addrMap s) → mems s !! e.2 = Some m →
  null m = false → acceptable m p d → fits p →
  let '(S', read, sc) := spec_step (mkSpec (flat s) (reservations (lockedAddrList m))) p d in
  ∃ s' m' cleared, access p s = Ok (answer p read sc, cleared, s') ∧ phys_inv s' ∧
    tree (addrMap s') = tree (addrMap s) ∧ (∀ x, flat s' x = bytes S' x) ∧
    mems s' = <[e.2 := m']> (mems s) ∧ reservations (lockedAddrList m') = resv S'.
Proof.
  intros Hinv He Hm Hnull Hp Hfit. pose proof (access_flat s p d e m Hinv He Hm Hnull Hp Hfit) as Hacc.
  destruct (spec_step _ p d) as [[S' read] sc]. destruct Hacc as (s' & m' & cl & Hacc & ? & ? & ? & ? & ? & _).
  by exists s', m', cl.
Qed.

(** ** Construction *)

(** The memories handed to the constructor: fresh, not interleaved, and, those
    in the address map, over disjoint ranges. *)
Record fresh_memory (m : AbstractMemory) : Prop := {
  fm_plain : plain_entry (range m);
  fm_store : pmemAddr m = None;
  fm_locks : lockedAddrList m = [];
}.
Definition disjoint_memories (ms : list AbstractMemory) : Prop :=
  ∀ i j mi mj, ms !! i = Some mi → ms !! j = Some mj → i ≠ j →
    inAddrMap mi = true → inAddrMap mj = true → AddrRangeMap.overlap (range mi) (range mj) = false.

Section construction.
Context (ms : list AbstractMemory).
Context (Hfresh : Forall fresh_memory ms) (Hdisj : disjoint_memories ms).

(** A memory as it was given, or with a store. *)
Definition backed (m0 m : AbstractMemory) : Prop := m = m0 ∨ ∃ o, m = setBackingStore o m0.

(** Between two steps of the constructor, when [done] entries have got their
    stores. *)
Record built (done : list (AddrRange * nat)) (s : PhysicalMemory) : Prop := {
  b_shared : sharedBackstore s = false;
  b_map : map_inv (addrMap s);
  b_host : ∀ o, object (host s) o = ∅;
  b_fresh : ∀ i m o, mems s !! i = Some m → pmemAddr m = Some o → (o < nextObject s)%nat;
  b_tree : ∀ e, e ∈ tree (addrMap s) → ∃ m0, ms !! e.2 = Some m0 ∧ e.1 = range m0 ∧ inAddrMap m0 = true;
  b_mem : ∀ i m0, ms !! i = Some m0 → ∃ m, mems s !! i = Some m ∧ backed m0 m ∧
    (inAddrMap m0 = true → is_Some (pmemAddr m) ↔ null m0 = false ∧ (range m0, i) ∈ done);
  b_distinct : ∀ i j mi mj o, mems s !! i = Some mi → mems s !! j = Some mj →
    pmemAddr mi = Some o → pmemAddr mj = Some o → i = j;
  b_stores : ∀ i m o, mems s !! i = Some m → pmemAddr m = Some o →
    ∃ b, b ∈ backingStore s ∧ bs_pmem b = o ∧ bs_range b = range m;
  b_objects : NoDup (bs_pmem <$> backingStore s) ∧ ∀ b, b ∈ backingStore s → (bs_pmem b < nextObject s)%nat;
  b_ranges : ∀ b, b ∈ backingStore s → ∃ m0, m0 ∈ ms ∧ bs_range b = range m0;
  b_once : NoDup (memories s);
  b_memories : ∀ i, i ∈ memories s ↔ ∃ r, (r, i) ∈ tree (addrMap s);
}.

Lemma fresh_lookup i m : ms !! i = Some m → fresh_memory m.
Proof. intros Hm. by eapply Forall_lookup_1. Qed.

Lemma alter_lookup i j f (l : list AbstractMemory) :
  alter f i l !! j = if decide (i = j) then f <$> l !! j else l !! j.
Proof.
  case_decide; subst; [apply list_lookup_alter_eq|by apply list_lookup_alter_ne].
Qed.

Lemma plain_not_interleaved r : plain_entry r → interleaved r = false.
Proof. intros (Hm & _). unfold interleaved. by rewrite Hm. Qed.

(** A memory gets a new object. *)
Lemma createBackingStore_built done s i m0 c1 c2 c3 : built done s → ms !! i = Some m0 →
  ∃ s', createBackingStore (range m0) [i] c1 c2 c3 s = Ok s' ∧ addrMap s' = addrMap s ∧ memories s' = memories s ∧
    (inAddrMap m0 = true → null m0 = false → built ((range m0, i) :: done) s') ∧
    (inAddrMap m0 = false → built done s').
Proof.
  intros [Hsh Hmap Hhost Hfr Htree Hmem Hdis Hst [Hnd Hlt] Hrg Honce Hmm] Hi.
  unfold createBackingStore, mmap. rewrite (plain_not_interleaved _ (fm_plain _ (fresh_lookup i m0 Hi))), Hsh.
  eexists. split; [done|]. split; [done|]. split; [done|]. set (n := nextObject s).
  set (ms' := alter (setBackingStore n) i (mems s)).
  assert (Hobj : ∀ j m o, ms' !! j = Some m → pmemAddr m = Some o → (j = i ∧ o = n) ∨
    (j ≠ i ∧ mems s !! j = Some m ∧ (o < n)%nat)).
  { intros j m o Hj Ho. unfold ms' in Hj. rewrite alter_lookup in Hj. case_decide as Hij.
    - left. subst j. destruct (mems s !! i); [|done]. injection Hj as <-. injection Ho as <-. done.
    - right. eauto. }
  assert (Hb_mem : ∀ done' : list (AddrRange * nat), (∀ e, e ∈ done' ↔ e ∈ done ∨ (e = (range m0, i) ∧ inAddrMap m0 = true)) →
    (inAddrMap m0 = true → null m0 = false) → ∀ j mj0, ms !! j = Some mj0 → ∃ m, ms' !! j = Some m ∧ backed mj0 m ∧
    (inAddrMap mj0 = true → is_Some (pmemAddr m) ↔ null mj0 = false ∧ (range mj0, j) ∈ done')).
  { intros done' Hd Hnull j mj0 Hj. destruct (Hmem j mj0 Hj) as (m & Hm & Hbk & Hs). unfold ms'. rewrite alter_lookup, Hm.
    case_decide as Hij; simpl.
    - subst j. rewrite Hi in Hj. injection Hj as <-. eexists. split; [done|]. split.
      + right. exists n. destruct Hbk as [->|[o ->]]; done.
      + intros Hin. split; [|by eexists]. intros _. split; [auto|]. apply Hd. by right.
    - exists m. split; [done|]. split; [done|]. intros Hin. rewrite (Hs Hin), Hd. naive_solver. }
  assert (Hrest : ∀ done' : list (AddrRange * nat), (∀ j mj0, ms !! j = Some mj0 → ∃ m, ms' !! j = Some m ∧ backed mj0 m ∧
    (inAddrMap mj0 = true → is_Some (pmemAddr m) ↔ null mj0 = false ∧ (range mj0, j) ∈ done')) →
    built done' (mkPhys (addrMap s) (memories s) (totalSize s) (sharedBackstore s)
      (backingStore s ++ [mkStore (range m0) n c1 c2 c3]) ms' (<[n := ∅]> (host s)) (S n))).
  { intros done' Hm'. split; simpl; [done|done| | |done|done| | | | |done|done].
    - intros o. unfold object. destruct (decide (o = n)) as [->|]; [by rewrite lookup_insert_eq|].
      rewrite lookup_insert_ne by done. apply Hhost.
    - intros j m o Hj Ho. destruct (Hobj j m o Hj Ho) as [[_ ->]|(_ & _ & ?)]; lia.
    - intros j k mj mk o Hj Hk Hoj Hok.
      destruct (Hobj j mj o Hj Hoj) as [[-> ->]|(? & Hj' & ?)], (Hobj k mk _ Hk Hok) as [[-> ?]|(? & Hk' & ?)];
        [done|lia|lia|by eapply Hdis].
    - intros j m o Hj Ho. destruct (Hobj j m o Hj Ho) as [[-> ->]|(? & Hj' & ?)].
      + exists (mkStore (range m0) n c1 c2 c3). split; [apply elem_of_app; right; left|]. split; [done|].
        destruct (Hmem i m0 Hi) as (m1 & Hm1 & Hbk & _). unfold ms' in Hj. rewrite alter_lookup, decide_True, Hm1 in Hj by done.
        injection Hj as <-. by destruct Hbk as [->|[o ->]].
      + destruct (Hst j m o Hj' Ho) as (b & Hb & ?). exists b. split; [|done]. apply elem_of_app. by left.
    - rewrite fmap_app. split.
      + apply NoDup_app. split; [done|]. split; [|apply NoDup_singleton].
        intros o (b & -> & Hb%Hlt)%list_elem_of_fmap Ho%list_elem_of_singleton. simpl in Ho. lia.
      + intros b [Hb%Hlt| ->%list_elem_of_singleton]%elem_of_app; simpl; lia.
    - intros b [Hb| ->%list_elem_of_singleton]%elem_of_app; [by apply Hrg|].
      exists m0. split; [by eapply list_elem_of_lookup_2|done]. }
  rewrite Hsh in Hrest.
  split; intros Hin; [intros Hnull|]; apply Hrest, Hb_mem; try done.
  - intros e. rewrite elem_of_cons. split; [intros [->|?]; auto|intros [?|[-> _]]; auto].
  - intros e. split; [by left|]. intros [?|[_ ?]]; [done|congruence].
  - congruence.
Qed.

(** The first loop: the address map gets the memories in it, the others their
    stores. *)
Lemma add_memories_built k l s : ms = take k ms ++ l → built [] s →
  (∀ e, e ∈ tree (addrMap s) ↔ ∃ m, ms !! e.2 = Some m ∧ (e.2 < k)%nat ∧ e.1 = range m ∧ inAddrMap m = true) →
  (k ≤ length ms)%nat →
  ∃ s', add_memories k l s = Ok s' ∧ built [] s' ∧
    ∀ e, e ∈ tree (addrMap s') ↔ ∃ m, ms !! e.2 = Some m ∧ e.1 = range m ∧ inAddrMap m = true.
Proof.
  revert k s. induction l as [|m l IH]; intros k s Hms Hb Hin Hk; cbn [add_memories].
  { exists s. split; [done|]. split; [done|]. intros e. rewrite Hin.
    assert (Hlen : length ms = k) by (rewrite Hms, app_nil_r, length_take; lia).
    split; intros (m & Hm & ?); exists m; (split; [done|]); [naive_solver|].
    split; [|done]. rewrite <- Hlen. by eapply lookup_lt_Some. }
  assert (Hmk : ms !! k = Some m).
  { rewrite Hms, lookup_app_r by (rewrite length_take; lia). rewrite length_take.
    replace (k - k `min` length ms)%nat with 0%nat by lia. done. }
  assert (Hms' : ms = take (S k) ms ++ l).
  { rewrite (take_S_r _ _ _ Hmk), <- app_assoc. done. }
  pose proof (fm_plain _ (fresh_lookup k m Hmk)) as Hpl. pose proof (lookup_lt_Some _ _ _ Hmk) as Hlt.
  unfold add_memory. destruct (inAddrMap m) eqn:Him.
  - destruct (map_insert_spec cache_size (addrMap s) (range m) k (b_map _ _ Hb) Hpl) as (o & am & -> & Hi & Ho).
    cbn [mbind res_bind]. destruct o as [e|].
    2: { exfalso. destruct Ho as (_ & e & (me & Hme & Hlte & He1 & Hine)%Hin & Hov).
         rewrite He1, (Hdisj k e.2 m me) in Hov; [done|done|done|lia|done|done]. }
    destruct Ho as (-> & _ & Ht). cbn [fatal_if mbind res_bind]. apply IH; [done| | |lia].
    + destruct Hb. split; simpl; try done.
      * intros e [->|He]%Ht; [by exists m|auto].
      * apply NoDup_app. split; [done|]. split; [|apply NoDup_singleton].
        intros j (r & Hj)%b_memories0 ->%list_elem_of_singleton. apply Hin in Hj as (? & _ & ? & _). simpl in *. lia.
      * intros j. rewrite elem_of_app, list_elem_of_singleton, b_memories0. setoid_rewrite Ht. split.
        -- intros [[r Hr]| ->]; [by exists r; right|]. exists (range m). by left.
        -- intros [r [Heq|Hr]]; [right; congruence|left; by exists r].
    + simpl. intros e. rewrite Ht, Hin. split.
      * intros [->|(me & ? & ? & ? & ?)]; [exists m; simpl; repeat split; try done; lia|exists me; repeat split; try done; lia].
      * intros (me & Hme & Hlte & He1 & Hine). destruct (decide (e.2 = k)) as [Heq|Hne].
        -- left. destruct e as [r j]. simpl in *. congruence.
        -- right. exists me. repeat split; try done. lia.
  - rewrite (plain_not_interleaved _ Hpl). cbn [fatal_if mbind res_bind].
    destruct (createBackingStore_built [] s k m (confTableReported m) false (kvmMap m) Hb Hmk)
      as (s' & -> & Ham & _ & _ & Hb').
    cbn [mbind res_bind]. apply IH; [done|by apply Hb'| |lia].
    rewrite Ham. intros e. rewrite Hin. split; intros (me & Hme & Hlte & He1 & Hine); exists me;
      (split; [done|]); (split; [|done]); [lia|].
    destruct (decide (e.2 = k)) as [Heq|]; [|lia]. rewrite Heq in Hme. congruence.
Qed.

Lemma built_null done s i m0 : built done s → ms !! i = Some m0 → null m0 = true →
  built ((range m0, i) :: done) s.
Proof.
  intros [] Hi Hn. split; try done. intros j mj0 Hj. destruct (b_mem0 j mj0 Hj) as (m & Hm & Hbk & Hs).
  exists m. split; [done|]. split; [done|]. intros Hin. rewrite (Hs Hin), elem_of_cons.
  split; [by intros [? ?]; auto|]. intros [Hnj [Heq|?]]; [|done].
  injection Heq as Hr ->. congruence.
Qed.

(** The second loop: every memory of the address map that is not null gets its
    store. *)
Lemma store_loop_built entries done s : built done s → (∀ e, e ∈ entries → e ∈ tree (addrMap s)) →
  ∃ s', store_loop entries [] [] s = Ok s' ∧ addrMap s' = addrMap s ∧ built (reverse entries ++ done) s'.
Proof.
  revert done s. induction entries as [|[r i] entries IH]; intros done s Hb Hsub; cbn [store_loop].
  { by exists s. }
  destruct (b_tree _ _ Hb (r, i) (Hsub _ (list_elem_of_here _ _))) as (m0 & Hm0 & Hr & Hin). simpl in Hm0, Hr. subst r.
  destruct (b_mem _ _ Hb i m0 Hm0) as (m & Hm & Hbk & _). unfold get_mem. rewrite Hm. cbn [mbind res_bind].
  assert (null m = null m0) as -> by (by destruct Hbk as [->|[o ->]]).
  rewrite (plain_not_interleaved _ (fm_plain _ (fresh_lookup i m0 Hm0))).
  rewrite reverse_cons, <- app_assoc. simpl. destruct (null m0) eqn:Hnull.
  { apply IH; [by apply built_null|]. intros e He. apply Hsub. by right. }
  destruct (createBackingStore_built done s i m0 (confTableReported m) (inAddrMap m) (kvmMap m) Hb Hm0)
    as (s1 & -> & Ham & _ & Hb1 & _).
  cbn [mbind res_bind]. destruct (IH ((range m0, i) :: done) s1 (Hb1 Hin Hnull)) as (s' & -> & Ham' & Hb').
  - intros e He. rewrite Ham. apply Hsub. by right.
  - exists s'. by rewrite Ham'.
Qed.

Lemma start_built : built [] (mkPhys map_empty [] 0 false [] ms ∅ 1).
Proof.
  assert (Hnone : ∀ i m o, ms !! i = Some m → pmemAddr m ≠ Some o).
  { intros i m o Hi. rewrite (fm_store _ (fresh_lookup i m Hi)). done. }
  split; simpl; [done|split; [done|constructor]|done| | | | | |split; [constructor|]| |constructor|].
  - intros i m o Hi Ho. by eapply Hnone in Ho.
  - intros e He. by apply elem_of_nil in He.
  - intros i m Hi. exists m. split; [done|]. split; [by left|]. intros _. rewrite elem_of_nil. split; [|tauto].
    intros [o Ho]. by eapply Hnone in Ho.
  - intros i j mi mj o Hi _ Ho. by eapply Hnone in Ho.
  - intros i m o Hi Ho. by eapply Hnone in Ho.
  - intros b Hb. by apply elem_of_nil in Hb.
  - intros b Hb. by apply elem_of_nil in Hb.
  - intros i. rewrite elem_of_nil. split; [done|]. intros [r Hr]. by apply elem_of_nil in Hr.
Qed.

End construction.

Lemma new_built ms : Forall fresh_memory ms → disjoint_memories ms →
  ∃ s, PhysicalMemory_new ms false = Ok s ∧ phys_inv s ∧
    (∀ e, e ∈ tree (addrMap s) ↔ ∃ m, ms !! e.2 = Some m ∧ e.1 = range m ∧ inAddrMap m = true) ∧
    (∀ o, object (host s) o = ∅) ∧ (∀ i m, ms !! i = Some m → ∃ m', mems s !! i = Some m' ∧ backed m m') ∧
    (∀ b, b ∈ backingStore s → ∃ m, m ∈ ms ∧ bs_range b = range m).
Proof.
  intros Hfresh Hdisj. unfold PhysicalMemory_new.
  destruct (add_memories_built ms Hfresh Hdisj 0 ms _ eq_refl (start_built ms Hfresh)) as (s1 & -> & Hb1 & Hin1);
    [|lia|].
  { simpl. intros e. rewrite elem_of_nil. split; [done|]. intros (m & _ & Hlt & _). lia. }
  cbn [mbind res_bind].
  destruct (store_loop_built ms Hfresh (tree (addrMap s1)) [] s1 Hb1) as (s & -> & Ham & Hb); [done|].
  rewrite app_nil_r in Hb. exists s. split; [done|]. split; [|split; [by rewrite Ham|]].
  - split; [by destruct Hb| | | |apply (b_objects _ _ _ Hb)|by destruct Hb|by destruct Hb].
    + rewrite Ham. intros e He. destruct (proj1 (Hin1 e) He) as (m0 & Hm0 & Hr & Him).
      destruct (b_mem _ _ _ Hb e.2 m0 Hm0) as (m & Hm & Hbk & Hs). exists m. split; [done|..].
      * by destruct Hbk as [->|[o ->]].
      * replace (lockedAddrList m) with ([] : list LockedAddr); [split; constructor|].
        pose proof (fm_locks _ (fresh_lookup ms Hfresh e.2 m0 Hm0)) as Hl. destruct Hbk as [->|[o ->]]; by rewrite <- Hl.
      * rewrite (Hs Him), elem_of_reverse. replace (range m0, e.2) with e by (destruct e; simpl in *; congruence).
        destruct Hbk as [->|[o ->]]; simpl; tauto.
    + intros e1 e2 m1 m2 o He1 He2 Hm1 Hm2 Ho1 Ho2.
      pose proof (b_distinct _ _ _ Hb _ _ _ _ _ Hm1 Hm2 Ho1 Ho2) as Heq. rewrite Ham in He1, He2.
      destruct (proj1 (Hin1 e1) He1) as (n1 & Hn1 & Hr1 & _), (proj1 (Hin1 e2) He2) as (n2 & Hn2 & Hr2 & _).
      destruct e1, e2; simpl in *; congruence.
    + intros e m o He Hm Ho. destruct (b_stores _ _ _ Hb e.2 m o Hm Ho) as (b & Hbin & Hbo & Hbr).
      exists b. split; [done|]. split; [done|]. rewrite Hbr. rewrite Ham in He.
      destruct (proj1 (Hin1 e) He) as (m0 & Hm0 & -> & _). destruct (b_mem _ _ _ Hb e.2 m0 Hm0) as (m' & Hm' & Hbk & _).
      rewrite Hm in Hm'. injection Hm' as <-. by destruct Hbk as [->|[o' ->]].
  - split; [by destruct Hb|]. split; [|by destruct Hb]. intros i m Hi.
    destruct (b_mem _ _ _ Hb i m Hi) as (m' & ? & ? & _). by exists m'.
Qed.

(** Construction succeeds for any fresh memories over disjoint ranges, in
    whatever order they come: afterwards the address map holds exactly those
    meant to be in it, each with storage has a store of its own, and every
    byte of the physical memory reads zero. *)
Theorem physical_memory_built ms : Forall fresh_memory ms → disjoint_memories ms →
  ∃ s, PhysicalMemory_new ms false = Ok s ∧ phys_inv s ∧
    (∀ e, e ∈ tree (addrMap s) ↔ ∃ m, ms !! e.2 = Some m ∧ e.1 = range m ∧ inAddrMap m = true) ∧
    ∀ x, flat s x = 0.
Proof.
  intros Hfresh Hdisj. destruct (new_built ms Hfresh Hdisj) as (s & Hnew & Hinv & Hin & Hhost & _).
  exists s. split; [done|]. split; [done|]. split; [done|].
  intros x. unfold flat, cell. destruct (decode _ x) as [[r i]|]; [|done].
  destruct (mems s !! i) as [m|]; [|done]. destruct (pmemAddr m); [|done]. by rewrite Hhost.
Qed.

(** ** A volatile memory and an NVM *)

Definition dram : AbstractMemory := mkMemory (AddrRange_of 0 4096) None [] false true true true.
Definition nvm : AbstractMemory := mkMemory (AddrRange_of 4096 8192) None [] false true true true.

Fixpoint run (ps : list Packet) (s : PhysicalMemory) : res (list Packet * PhysicalMemory) :=
  match ps with
  | [] => Ok ([], s)
  | p :: ps =>
      '(p', _, s) ← access p s;
      '(rs, s) ← run ps s;
      Ok (p' :: rs, s)
  end.

(** What the last of a sequence of accesses returns: the data, and the outcome
    of a store-conditional. *)
Definition result (shared : bool) (ps : list Packet) : option (option (list Z) * option Z) :=
  match (s ← PhysicalMemory_new [dram; nvm] shared; run ps s) with
  | Ok (rs, _) => match last rs with Some p => Some (data p, req_extraData (req p)) | None => None end
  | Err _ => None
  end.

Definition ld (c a n : Z) : Packet := set_data (Some (replicate (Z.to_nat n) 0)) (createRead (request_by c a n 0)).

(** With a shared backing store every memory maps the same segment from its
    start, so a store to the volatile memory changes the NVM; with private
    stores it does not. *)
Theorem shared_backstore_aliases :
  let ps := [st 0 16 [1; 2; 3; 4]; ld 0 4112 4] in
  result true ps = Some (Some [1; 2; 3; 4], None) ∧ result false ps = Some (Some [0; 0; 0; 0], None).
Proof. vm_compute. done. Qed.

(** Each memory tracks reservations on its own, so a context holds one per
    memory rather than one: after a load-locked of the volatile memory and one
    of the NVM the store-conditional to the first succeeds, although within one
    memory the second load-locked replaces the first. *)
Theorem reservation_per_memory :
  result false [ll 0 256; ll 0 4352; sc 0 256 9] = Some (Some (to_bytes 8 9), Some 1) ∧
  result false [ll 0 256; ll 0 512; sc 0 256 9] = Some (Some (to_bytes 8 9), Some 0).
Proof. vm_compute. done. Qed.

Lemma plain_of a b : 0 ≤ a < b → b < 2 ^ 64 → plain_entry (AddrRange_of a b).
Proof. intros Ha Hb. unfold plain_entry, is_u64. simpl. split_and!; done || lia. Qed.

Lemma two_fresh : Forall fresh_memory [dram; nvm].
Proof.
  repeat (apply Forall_cons; split; [split; [apply plain_of; lia|done|done]|]). constructor.
Qed.

Lemma two_disjoint : disjoint_memories [dram; nvm].
Proof.
  intros [|[|i]] [|[|j]] mi mj Hi Hj Hne _ _; simplify_eq/=; try done; try lia.
Qed.

Definition two_built : PhysicalMemory :=
  match PhysicalMemory_new [dram; nvm] false with Ok s => s | Err _ => mkPhys map_empty [] 0 false [] [] ∅ 0 end.

Lemma two_built_inv : phys_inv two_built.
Proof.
  destruct (new_built [dram; nvm] two_fresh two_disjoint) as (s & Hs & Hinv & _).
  unfold two_built. by rewrite Hs.
Qed.

Lemma physical_memory_built_witness :
  ∃ s, PhysicalMemory_new [dram; nvm] false = Ok s ∧ phys_inv s ∧
    (∀ e, e ∈ tree (addrMap s) ↔ ∃ m, [dram; nvm] !! e.2 = Some m ∧ e.1 = range m ∧ inAddrMap m = true) ∧
    ∀ x, flat s x = 0.
Proof. apply (physical_memory_built [dram; nvm] two_fresh two_disjoint). Defined.

(** A store to the NVM. *)
Lemma physical_memory_flat_witness :
  let p := st 0 4112 [1; 2; 3; 4] in
  let '(S', read, sc) := spec_step (mkSpec (flat two_built) (reservations [])) p [1; 2; 3; 4] in
  ∃ s' m' cleared, access p two_built = Ok (answer p read sc, cleared, s') ∧ phys_inv s' ∧
    tree (addrMap s') = tree (addrMap two_built) ∧ (∀ x, flat s' x = bytes S' x) ∧
    mems s' = <[1%nat := m']> (mems two_built) ∧ reservations (lockedAddrList m') = resv S'.
Proof.
  apply (physical_memory_flat two_built (st 0 4112 [1; 2; 3; 4]) [1; 2; 3; 4] (AddrRange_of 4096 8192, 1%nat)
           (setBackingStore 2 nvm)).
  - exact two_built_inv.
  - vm_compute. right. left.
  - reflexivity.
  - reflexivity.
  - split; try done; vm_compute; try done.
  - split; [|split]; vm_compute; congruence.
Defined.

End PhysMem.
