(* ===== verification/PhysCkpt.v ===== *)
(** * Checkpoints of the physical memory ([mem/physical.cc])

    What [serialize] writes, [unserialize] restores: the bytes of every memory
    and the reservations. *)

From S2P Require Import Prelude.
From S2P Require Import Intmath.
From S2P Require Import Bytes.
From S2P Require Import AddrRange.
From S2P Require Import AddrRangeMap.
From S2P Require Import AbstractMem.
From S2P Require Import PhysMem.

Module PhysCkpt.
Import AbsMem PhysMem.

(** ** Store files *)

Lemma write_passes_ok fuel written size mem : 0 ≤ written ≤ size →
  size - written ≤ Z.of_nat fuel * INT_MAX →
  write_passes fuel written size mem = Ok (mem_read mem written (Z.to_nat (size - written))).
Proof.
  revert written. induction fuel as [|fuel IH]; intros written Hw Hf; cbn [write_passes];
    destruct (Z.ltb_spec written size).
  - lia.
  - by replace (Z.to_nat (size - written)) with 0%nat by lia.
  - set (pass := if INT_MAX <? size - written then INT_MAX else size - written).
    assert (Hpass : 0 < pass ≤ size - written ∧ (pass = INT_MAX ∨ pass = size - written)).
    { unfold pass, INT_MAX in *. destruct (Z.ltb_spec (2 ^ 31 - 1) (size - written)); lia. }
    clearbody pass. rewrite IH by (unfold INT_MAX in *; lia). cbn [mbind res_bind].
    replace (Z.to_nat (size - written)) with (Z.to_nat pass + Z.to_nat (size - (written + pass)))%nat by lia.
    by rewrite mem_read_app, Z2Nat.id by lia.
  - by replace (Z.to_nat (size - written)) with 0%nat by lia.
Qed.

Lemma serializeStore_ok id e s : 0 ≤ AddrRange.size (bs_range e) →
  let size := AddrRange.size (bs_range e) in
  serializeStore id e s = Ok (mkStoreFile id size (mem_read (object (host s) (bs_pmem e)) 0 (Z.to_nat size))).
Proof.
  intros H0 size. unfold serializeStore. fold size. rewrite write_passes_ok.
  - by rewrite Z.sub_0_r.
  - unfold size. lia.
  - assert (0 < INT_MAX) by (unfold INT_MAX; lia). pose proof (Z.mul_succ_div_gt size INT_MAX).
    assert (0 ≤ size / INT_MAX) by (apply Z.div_pos; lia).
    rewrite Nat2Z.inj_succ, Z2Nat.id, Z.mul_comm by done. lia.
Qed.

(** The byte at an offset; what was never written is zero. *)
Definition byte (mem : gmap Z Z) (x : Z) : Z := default 0 (mem !! x).

Lemma byte_write mem a d x : byte (mem_write mem a d) x =
  if (a <=? x) && (x <? a + Z.of_nat (length d)) then default 0 (d !! Z.to_nat (x - a)) else byte mem x.
Proof. unfold byte. rewrite mem_write_lookup. by case_match. Qed.

Lemma all_zero_lookup w (i : nat) : forallb (λ b, b =? 0) w = true → default 0 (w !! i) = 0.
Proof.
  intros Hw. destruct (w !! i) as [b|] eqn:Hi; [|done]. simpl.
  apply Z.eqb_eq, (proj1 (forallb_forall _ w) Hw). apply list_elem_of_In. by eapply list_elem_of_lookup_2.
Qed.

(** One word, skipped when it is zero. *)
Lemma copy_word mem off w x : (∀ y, off ≤ y → byte mem y = 0) →
  byte (if forallb (λ b, b =? 0) w then mem else mem_write mem off w) x =
  if (off <=? x) && (x <? off + Z.of_nat (length w)) then default 0 (w !! Z.to_nat (x - off)) else byte mem x.
Proof.
  intros Hz. destruct (forallb _ w) eqn:Hw; [|apply byte_write].
  case_match eqn:Hx; [|done]. bool_to_prop. rewrite Hz by lia. by rewrite all_zero_lookup.
Qed.

Lemma copy_words_ok n off chunk mem x : length chunk = (8 * n)%nat → (∀ y, off ≤ y → byte mem y = 0) →
  byte (copy_words n off chunk mem) x =
  if (off <=? x) && (x <? off + Z.of_nat (length chunk)) then default 0 (chunk !! Z.to_nat (x - off)) else byte mem x.
Proof.
  revert off chunk mem. induction n as [|n IH]; intros off chunk mem Hlen Hz; cbn [copy_words].
  { by replace ((off <=? x) && _) with false by (symmetry; zcmp; done). }
  assert (Htk : length (take 8 chunk) = 8%nat) by (rewrite length_take; lia).
  rewrite IH; [|rewrite length_drop; lia|].
  2: { intros y Hy. rewrite copy_word, Htk by done.
       replace ((off <=? y) && _) with false by (symmetry; zcmp; done). apply Hz. lia. }
  rewrite copy_word, Htk, length_drop, lookup_drop by done. rewrite !Hlen.
  destruct (Z.leb_spec (off + 8) x), (Z.leb_spec off x); try lia; cbn [andb].
  - replace (x <? off + Z.of_nat 8) with false by (symmetry; zcmp; done).
    replace (x <? off + 8 + Z.of_nat (8 * S n - 8)) with (x <? off + Z.of_nat (8 * S n)) by (zcmp; done).
    case_match; [|done]. bool_to_prop. do 2 f_equal. lia.
  - replace (x <? off + Z.of_nat 8) with true by (symmetry; zcmp; done).
    replace (x <? off + Z.of_nat (8 * S n)) with true by (symmetry; zcmp; done).
    rewrite lookup_take_lt by lia. done.
  - done.
Qed.

Lemma chunk_words : ∃ k, chunk_size = (8 * S k)%nat.
Proof. exists (Z.to_nat 2047). unfold chunk_size. lia. Qed.

(** A store read back onto zeros. *)
Lemma read_chunks_ok fuel curr file mem : (length file < fuel)%nat → (length file `mod` 8 = 0)%nat →
  (∀ y, curr ≤ y → byte mem y = 0) →
  ∃ mem', read_chunks fuel curr (curr + Z.of_nat (length file)) file mem = Ok mem' ∧
    ∀ x, byte mem' x =
      if (curr <=? x) && (x <? curr + Z.of_nat (length file)) then default 0 (file !! Z.to_nat (x - curr)) else byte mem x.
Proof.
  destruct chunk_words as [k Hk].
  revert curr file mem. induction fuel as [|fuel IH]; intros curr file mem Hf H8 Hz; [lia|].
  cbn [read_chunks]. apply Nat.Div0.mod_divides in H8 as [n Hn].
  destruct (Z.ltb_spec curr (curr + Z.of_nat (length file))) as [Hlt|Hge].
  2: { exists mem. split; [done|]. intros x. by replace ((curr <=? x) && _) with false by (symmetry; zcmp; done). }
  set (chunk := take chunk_size file).
  assert (Hc : length chunk = (chunk_size `min` length file)%nat) by apply length_take.
  assert (Hcn : ∃ c, length chunk = (8 * S c)%nat).
  { rewrite Hc, Hk, Hn. destruct (le_lt_dec (8 * S k) (8 * n)); [exists k|exists (n - 1)%nat]; lia. }
  destruct Hcn as [c Hcn]. destruct chunk as [|b chunk'] eqn:Ec; [simpl in Hcn; lia|]. rewrite <- Ec in *.
  assert (Hmod : (length chunk mod 8 = 0)%nat) by (rewrite Hcn, Nat.mul_comm; apply Nat.Div0.mod_mul).
  rewrite Hmod. cbn [Nat.eqb assertb mbind res_bind].
  assert (Hdiv : (length chunk / 8 = S c)%nat) by (rewrite Hcn, Nat.mul_comm; by apply Nat.div_mul). rewrite Hdiv.
  assert (Hcopy := λ x, copy_words_ok (S c) curr chunk mem x Hcn Hz).
  assert (Hrest : length (drop chunk_size file) = (length file - length chunk)%nat) by (rewrite length_drop; lia).
  destruct (IH (curr + Z.of_nat (length chunk)) (drop chunk_size file) (copy_words (S c) curr chunk mem))
    as (mem' & Hr & Hm').
  - rewrite Hrest. lia.
  - rewrite Hrest, Hn, Hcn, <- Nat.mul_sub_distr_l, Nat.mul_comm. apply Nat.Div0.mod_mul.
  - intros y Hy. rewrite Hcopy. replace ((curr <=? y) && _) with false by (symmetry; zcmp; done). apply Hz. lia.
  - exists mem'. split.
    + rewrite <- Hr. f_equal. rewrite Hrest. lia.
    + intros x. rewrite Hm', Hcopy, Hrest, lookup_drop.
      destruct (Z.leb_spec (curr + Z.of_nat (length chunk)) x), (Z.leb_spec curr x); try lia; cbn [andb].
      * replace (x <? curr + Z.of_nat (length chunk)) with false by (symmetry; zcmp; done).
        replace (x <? curr + Z.of_nat (length chunk) + Z.of_nat (length file - length chunk))
          with (x <? curr + Z.of_nat (length file)) by (zcmp; done).
        case_match; [|done]. bool_to_prop. do 2 f_equal. lia.
      * replace (x <? curr + Z.of_nat (length chunk)) with true by (symmetry; zcmp; done).
        replace (x <? curr + Z.of_nat (length file)) with true by (symmetry; zcmp; done).
        unfold chunk. rewrite lookup_take_lt by lia. done.
      * done.
Qed.

(** ** All stores *)

Definition store_size (e : BackingStoreEntry) : Z := AddrRange.size (bs_range e).
Definition file_of (s : PhysicalMemory) (id : nat) (e : BackingStoreEntry) : StoreFile :=
  mkStoreFile id (store_size e) (mem_read (object (host s) (bs_pmem e)) 0 (Z.to_nat (store_size e))).
Definition good_size (e : BackingStoreEntry) : Prop := 0 ≤ store_size e ∧ store_size e mod 8 = 0.

Lemma serialize_stores_ok id es s : Forall good_size es →
  serialize_stores id es s = Ok (imap (λ k e, file_of s (id + k) e) es).
Proof.
  revert id. induction es as [|e es IH]; intros id Hes; cbn [serialize_stores]; [done|].
  apply Forall_cons in Hes as [[He _] Hes]. rewrite serializeStore_ok by done. cbn [mbind res_bind].
  rewrite (IH (S id) Hes). cbn [mbind res_bind imap]. rewrite Nat.add_0_r. unfold file_of at 2. do 2 f_equal.
  apply imap_ext. intros k e' _. simpl. by rewrite Nat.add_succ_r.
Qed.

Lemma unserializeStore_ok s t id e : backingStore t !! id = Some e → good_size e →
  (∀ y, byte (object (host t) (bs_pmem e)) y = 0) →
  ∃ mem, unserializeStore (file_of s id e) t = Ok (set_host (<[bs_pmem e := mem]> (host t)) t) ∧
    ∀ x, 0 ≤ x < store_size e → byte mem x = byte (object (host s) (bs_pmem e)) x.
Proof.
  intros He [H0 H8] Hz. unfold unserializeStore, file_of. cbn [sf_store_id sf_range_size sf_bytes]. rewrite He.
  fold (store_size e). rewrite Z.eqb_refl. cbn [negb fatal_if mbind res_bind].
  set (file := mem_read _ _ _). assert (Hlen : length file = Z.to_nat (store_size e)) by apply mem_read_length.
  destruct (read_chunks_ok (S (length file)) 0 file (object (host t) (bs_pmem e))) as (mem & Hr & Hm).
  - lia.
  - rewrite Hlen. apply Nat2Z.inj. rewrite Nat2Z.inj_mod, Z2Nat.id by done. done.
  - auto.
  - rewrite Hlen, Z2Nat.id, Z.add_0_l in Hr by done. rewrite Hlen, Hr. cbn [mbind res_bind]. exists mem.
    split; [done|]. intros x Hx. rewrite Hm, Hlen.
    replace ((0 <=? x) && _) with true by (symmetry; zcmp; done). unfold file.
    rewrite mem_read_lookup by lia. unfold byte. simpl. do 2 f_equal. lia.
Qed.

Lemma object_insert_ne h o o' mem : o' ≠ o → object (<[o := mem]> h) o' = object h o'.
Proof. intros Hne. unfold object. by rewrite lookup_insert_ne. Qed.

Lemma unserialize_stores_ok s es id t : Forall good_size es → NoDup (bs_pmem <$> es) →
  (∀ k e, es !! k = Some e → backingStore t !! (id + k)%nat = Some e) →
  (∀ e y, e ∈ es → byte (object (host t) (bs_pmem e)) y = 0) →
  ∃ h', unserialize_stores (imap (λ k e, file_of s (id + k) e) es) t = Ok (set_host h' t) ∧
    (∀ e x, e ∈ es → 0 ≤ x < store_size e → byte (object h' (bs_pmem e)) x = byte (object (host s) (bs_pmem e)) x) ∧
    ∀ o, o ∉ (bs_pmem <$> es) → object h' o = object (host t) o.
Proof.
  revert id t. induction es as [|e es IH]; intros id t Hes Hnd Hbs Hz; cbn [imap unserialize_stores].
  { exists (host t). split; [by destruct t|]. split; [intros e x He; by apply elem_of_nil in He|done]. }
  apply Forall_cons in Hes as [He Hes]. apply NoDup_cons in Hnd as [Hn Hnd]. rewrite Nat.add_0_r.
  destruct (unserializeStore_ok s t id e) as (mem & -> & Hmem); [|done|intros y; apply Hz; left|].
  { specialize (Hbs 0%nat e eq_refl). by rewrite Nat.add_0_r in Hbs. }
  cbn [mbind res_bind]. set (t1 := set_host _ t).
  assert (Hne : ∀ e', e' ∈ es → bs_pmem e' ≠ bs_pmem e).
  { intros e' He' Heq. apply Hn. rewrite <- Heq. by apply list_elem_of_fmap_2. }
  destruct (IH (S id) t1 Hes Hnd) as (h' & Hun & Hin & Hout).
  - intros k e' Hk. specialize (Hbs (S k) e' Hk). by rewrite Nat.add_succ_r in Hbs.
  - intros e' y He'. unfold t1. simpl. rewrite object_insert_ne by auto. apply Hz. by right.
  - exists h'. split; [|split].
    + erewrite imap_ext; [exact Hun|]. intros k e' _. simpl. by rewrite Nat.add_succ_r.
    + intros e' x [->|He']%elem_of_cons Hx; [|by apply Hin]. rewrite Hout by done.
      unfold t1. simpl. rewrite object_insert. by apply Hmem.
    + intros o Ho. rewrite fmap_cons, not_elem_of_cons in Ho. rewrite Hout by tauto. unfold t1. simpl.
      apply object_insert_ne. tauto.
Qed.

(** ** Reservations *)

(** Each lock record with the memory it belongs to. *)
Definition tagged (s : PhysicalMemory) : list (nat * LockedAddr) :=
  memories s ≫= (λ i, (i,.) <$> locks_of s i).

Definition add_tagged (L : list (nat * LockedAddr)) (i : nat) (m : AbstractMemory) : AbstractMemory :=
  set_locks (lockedAddrList m ++ (filter (λ e, e.1 = i) L).*2) m.

Lemma unserialize_locks_ok L t : map_inv (addrMap t) →
  (∀ i l, (i, l) ∈ L → ∃ r, (r, i) ∈ tree (addrMap t) ∧ contains r (la_addr l) = true) →
  ∃ am ms, unserialize_locks (la_addr <$> L.*2) (la_contextId <$> L.*2) t = Ok (set_mems ms (set_addrMap am t)) ∧
    tree am = tree (addrMap t) ∧ map_inv am ∧
    ∀ i, ms !! i = add_tagged L i <$> mems t !! i.
Proof.
  revert t. induction L as [|[i l] L IH]; intros t Hinv HL; cbn.
  { exists (addrMap t), (mems t). split; [by destruct t|]. split; [done|]. split; [done|].
    intros i. destruct (mems t !! i) as [m|]; [|done]. simpl. unfold add_tagged. simpl. rewrite app_nil_r. by destruct m. }
  destruct (HL i l (list_elem_of_here _ _)) as (r & Hr & Hc).
  destruct (disjoint_from_elem _ _ _ (proj1 Hinv) Hr) as [Hpl _].
  assert (Ha : 0 ≤ la_addr l < 2 ^ 64 - 1).
  { apply contains_entry in Hc; [|done]. destruct Hpl as (_ & _ & _ & Hs & He). unfold is_u64 in *. simpl in *. lia. }
  destruct (map_contains_addr_spec cache_size (addrMap t) (la_addr l) Hinv Ha) as (am & -> & Ht & Hi).
  rewrite (proj2 (decode_spec 0 _ _ (r, i) (proj1 Hinv))) by done. cbn [mbind res_bind].
  destruct (IH (set_mems (alter (addLockedAddr (mkLockedAddr (la_addr l) (la_contextId l))) i (mems t)) (set_addrMap am t)))
    as (am' & ms & -> & Ht' & Hi' & Hms); [done| |].
  { intros j l' Hj. simpl. rewrite Ht. apply HL. by right. }
  exists am', ms. split; [done|]. split; [rewrite Ht'; apply Ht|]. split; [done|].
  intros j. rewrite Hms. simpl. rewrite alter_lookup. unfold add_tagged.
  case_decide as Hij.
  - subst j. rewrite filter_cons_True by done. destruct (mems t !! i) as [m|]; [|done]. simpl.
    unfold addLockedAddr. simpl. rewrite <- app_assoc. by destruct l.
  - rewrite filter_cons_False by (simpl; congruence). done.
Qed.

Lemma filter_tag (k i : nat) (L : list LockedAddr) :
  (filter (λ e : nat * LockedAddr, e.1 = i) ((k,.) <$> L)).*2 = if decide (k = i) then L else [].
Proof.
  case_decide as Hk; (induction L as [|x L IHL]; [done|]; rewrite fmap_cons).
  - rewrite filter_cons_True by done. rewrite fmap_cons. by f_equal.
  - by rewrite filter_cons_False.
Qed.

Lemma filter_tags (f : nat → list LockedAddr) l i : NoDup l →
  (filter (λ e : nat * LockedAddr, e.1 = i) (l ≫= λ k, (k,.) <$> f k)).*2 =
  if decide (i ∈ l) then f i else [].
Proof.
  induction l as [|j l IH]; intros Hnd; [by rewrite decide_False by apply not_elem_of_nil|].
  apply NoDup_cons in Hnd as [Hj Hnd]. rewrite bind_cons, filter_app, fmap_app, filter_tag, (IH Hnd).
  destruct (decide (j = i)) as [->|Hne].
  - rewrite decide_False, decide_True by (done || left). apply app_nil_r.
  - destruct (decide (i ∈ l)); [by rewrite decide_True by (by right)|].
    rewrite decide_False; [done|]. intros [?|?]%elem_of_cons; congruence.
Qed.

Lemma tagged_filter s i : NoDup (memories s) → i ∈ memories s →
  (filter (λ e, e.1 = i) (tagged s)).*2 = locks_of s i.
Proof. intros Hnd Hi. unfold tagged. rewrite filter_tags by done. by rewrite decide_True. Qed.

Lemma tagged_locks s : (tagged s).*2 = (memories s ≫= locks_of s).
Proof.
  unfold tagged. induction (memories s) as [|i l IH]; [done|]. rewrite !bind_cons, fmap_app, IH. f_equal.
  rewrite <- list_fmap_compose. apply list_fmap_id.
Qed.

(** ** The round trip *)

(** A memory as constructed, before anything was stored or reserved. *)
Record fresh_copy (s t : PhysicalMemory) : Prop := {
  fc_tree : tree (addrMap t) = tree (addrMap s);
  fc_map : map_inv (addrMap t);
  fc_memories : memories t = memories s;
  fc_stores : backingStore t = backingStore s;
  fc_mems : ∀ i, i ∈ memories s → mems t !! i = set_locks [] <$> mems s !! i;
  fc_host : ∀ o, object (host t) o = ∅;
}.

(** Every lock record lies in the range of its memory. *)
Definition locks_inside (s : PhysicalMemory) : Prop :=
  ∀ e m l, e ∈ tree (addrMap s) → mems s !! e.2 = Some m → l ∈ lockedAddrList m → contains e.1 (la_addr l) = true.

Lemma tagged_inside s : phys_inv s → locks_inside s →
  ∀ i l, (i, l) ∈ tagged s → ∃ r, (r, i) ∈ tree (addrMap s) ∧ contains r (la_addr l) = true.
Proof.
  intros Hinv Hin i l Hl. unfold tagged in Hl. apply list_elem_of_bind in Hl as (j & Hl & Hj).
  apply list_elem_of_fmap in Hl as (l' & Heq & Hl'). injection Heq as -> ->.
  apply (pi_memories _ Hinv) in Hj as [r Hr]. exists r. split; [done|]. unfold locks_of in Hl'.
  destruct (pi_entry _ Hinv _ Hr) as [m Hm]. pose proof (en_mem _ _ _ Hm) as Hm'. simpl in Hm'. rewrite Hm' in Hl'.
  by apply (Hin (r, j) m l').
Qed.

Lemma size_plain r : plain_entry r → AddrRange.size r = r_end r - r_start r.
Proof.
  intros (Hm & _ & ? & [? ?] & [? ?]). unfold AddrRange.size. rewrite Hm. simpl. rewrite Z.shiftr_0_r.
  apply u64_small. lia.
Qed.

(** The restored stores are seen through the address map as the old ones. *)
Lemma restored_flat s t h' : phys_inv s → tree (addrMap t) = tree (addrMap s) →
  (∀ e, e ∈ tree (addrMap s) → mems t !! e.2 = mems s !! e.2) →
  (∀ e x, e ∈ backingStore s → 0 ≤ x < store_size e →
     byte (object h' (bs_pmem e)) x = byte (object (host s) (bs_pmem e)) x) →
  ∀ x, flat (set_host h' t) x = flat s x.
Proof.
  intros Hinv Ht Hms Hb x. unfold flat. cbn [addrMap set_host mems host]. rewrite Ht.
  destruct (decode (tree (addrMap s)) x) as [[r i]|] eqn:Hd; [|done].
  apply (decode_spec 0) in Hd as [He Hx]; [|apply Hinv]. pose proof (entry_plain s (r, i) Hinv He) as Hpl.
  pose proof (Hms (r, i) He) as Heq. simpl in Heq. rewrite Heq.
  destruct (pi_entry _ Hinv _ He) as [m [Hm Hr _ _]]. simpl in Hm, Hr. rewrite Hm. unfold cell.
  destruct (pmemAddr m) as [o|] eqn:Ho; [|done].
  destruct (pi_stores _ Hinv (r, i) m o He Hm Ho) as (b & Hbin & <- & Hbr). apply (Hb b); [done|].
  apply contains_entry in Hx; [|done]. simpl in Hbr. unfold toHostAddr, store_size. rewrite Hbr, Hr, (size_plain r Hpl). simpl in *. lia.
Qed.

Lemma roundtrip s t : phys_inv s → locks_inside s → Forall good_size (backingStore s) → fresh_copy s t →
  ∃ cp t', serialize s = Ok cp ∧ unserialize cp t = Ok t' ∧
    (∀ x, flat t' x = flat s x) ∧ ∀ i, i ∈ memories s → mems t' !! i = mems s !! i.
Proof.
  intros Hinv Hin Hsz [Ht Hmap Hmm Hst Hms Hh]. unfold serialize. rewrite serialize_stores_ok by done. cbn [mbind res_bind].
  rewrite <- tagged_locks. set (files := imap _ _). eexists _. unfold unserialize.
  destruct (unserialize_locks_ok (tagged s) t Hmap) as (am & ms & Hul & Ham & Hami & Hms').
  { intros i l Hl. rewrite Ht. by apply tagged_inside. }
  set (t1 := set_mems ms (set_addrMap am t)) in *.
  destruct (unserialize_stores_ok s (backingStore s) 0 t1 Hsz (pi_objects _ Hinv)) as (h' & Hun & Hbytes & _).
  { intros k e Hk. simpl. by rewrite Hst. }
  { intros e y _. simpl. by rewrite Hh. }
  exists (set_host h' t1). split; [done|]. split.
  { cbn [lal_addr lal_cid stores]. rewrite Hul. exact Hun. }
  assert (Hmems : ∀ i, i ∈ memories s → ms !! i = mems s !! i).
  { intros i Hi. rewrite Hms', Hms by done. unfold add_tagged. rewrite tagged_filter by (done || apply Hinv). unfold locks_of.
    destruct (mems s !! i) as [m|]; [|done]. simpl. by destruct m. }
  split; [|done]. apply restored_flat; [done|by simpl; rewrite Ham| |done].
  intros [r i] He. apply Hmems, (pi_memories _ Hinv). by exists r.
Qed.

(** *** Memories in use *)

(** A packet sent to the memory at the address of its request. *)
Definition use (s : PhysicalMemory) (s' : PhysicalMemory) : Prop :=
  ∃ p d e m p' cleared, e ∈ tree (addrMap s) ∧ mems s !! e.2 = Some m ∧ null m = false ∧
    acceptable m p d ∧ fits p ∧ Packet.Pkt.req_paddr (Packet.Pkt.req p) = Packet.Pkt.addr p ∧
    access p s = Ok (p', cleared, s').

(** Invariant of a memory in use: it only differs from the one constructed in
    bytes and reservations. *)
Record used (t s : PhysicalMemory) : Prop := {
  us_inv : phys_inv s;
  us_inside : locks_inside s;
  us_copy : fresh_copy s t;
}.

Lemma mask_inside s e a : phys_inv s → e ∈ tree (addrMap s) → r_start e.1 mod 16 = 0 →
  contains e.1 a = true → contains e.1 (mask a) = true.
Proof.
  intros Hinv He H16 Ha. pose proof (entry_plain s e Hinv He) as Hpl. apply contains_entry in Ha; [|done].
  apply contains_entry; [done|]. destruct Hpl as (_ & _ & _ & [? ?] & [? ?]).
  unfold mask, Addr_Mask. change 0xf with (2 ^ 4 - 1). rewrite land_not_ones by lia. change (2 ^ 4) with 16.
  pose proof (Z.mod_pos_bound a 16). pose proof (Z.div_mod a 16). pose proof (Z.div_mod (r_start e.1) 16).
  assert (r_start e.1 / 16 ≤ a / 16) by (apply Z.div_le_mono; lia). lia.
Qed.

(** The lock records after an access are old ones or the one of the access. *)
Lemma lock_after s m m' p d l : locks_ok (lockedAddrList m) → locks_ok (lockedAddrList m') →
  resv s = reservations (lockedAddrList m) →
  reservations (lockedAddrList m') = resv (spec_step s p d).1.1 → l ∈ lockedAddrList m' →
  l ∈ lockedAddrList m ∨ la_addr l = granule p.
Proof.
  intros Hl Hl' Hs Hr Hin.
  assert (Hlook : ∀ n, locks_ok (lockedAddrList n) → ∀ l : LockedAddr,
    reservations (lockedAddrList n) !! la_contextId l = Some (la_addr l) ↔ l ∈ lockedAddrList n).
  { intros n [Hnd _] i. unfold reservations. rewrite <- elem_of_list_to_map by (by rewrite <- list_fmap_compose).
    rewrite list_elem_of_fmap. unfold lock_entry. split; [|by intros; exists i].
    intros (j & Heq & Hj). destruct i, j. simpl in Heq. by simplify_eq. }
  apply (Hlook m' Hl') in Hin. rewrite Hr in Hin. rewrite <- (Hlook m Hl), <- Hs. clear -Hin.
  unfold spec_step in Hin. repeat case_match; simpl in Hin; auto;
    first [by apply lookup_insert_Some in Hin as [[_ ?]|[_ ?]]; auto
          |by apply map_lookup_filter_Some in Hin as [? _]; auto].
Qed.

Lemma use_step t s s' : (∀ e, e ∈ tree (addrMap s) → r_start e.1 mod 16 = 0) → used t s → use s s' →
  used t s' ∧ tree (addrMap s') = tree (addrMap s) ∧ backingStore s' = backingStore s.
Proof.
  intros H16 [Hinv Hin Hfc] (p & d & e & m & p' & cl & He & Hm & Hnull & Hp & Hfit & Hpa & Hacc).
  pose proof (access_flat s p d e m Hinv He Hm Hnull Hp Hfit) as Hstep.
  destruct (spec_step _ p d) as [[S' read] sc] eqn:HS. destruct Hstep as (s1 & m' & cl1 & Hacc1 & Hinv1 & Ht & _ & Hms & Hr & Hm' & Hb & Hmm).
  rewrite Hacc in Hacc1. injection Hacc1 as -> -> <-. split; [|done].
  destruct (pi_entry _ Hinv e He) as [m0 Hen]. assert (m0 = m) as -> by (pose proof (en_mem _ _ _ Hen); congruence).
  assert (Hlook : mems s' !! e.2 = Some m') by (rewrite Hms, list_lookup_insert_eq; [done|by eapply lookup_lt_Some]).
  split; [done| |].
  - intros e1 m1 l He1 Hm1 Hl. rewrite Ht in He1. destruct (decide (e1.2 = e.2)) as [Heq|Hne].
    2: { rewrite Hms, list_lookup_insert_ne in Hm1 by done. by eapply Hin. }
    rewrite Heq, Hlook in Hm1. injection Hm1 as <-.
    assert (Hr1 : e1.1 = e.1).
    { destruct (pi_entry _ Hinv e1 He1) as [m1 [Hm1 <- _ _]]. rewrite Heq, Hm in Hm1. injection Hm1 as <-. apply Hen. }
    rewrite Hr1. destruct (pi_entry _ Hinv1 e) as [m2 Hen2]; [by rewrite Ht|].
    assert (m2 = m') as -> by (pose proof (en_mem _ _ _ Hen2); congruence).
    destruct (lock_after (mkSpec (flat s) (reservations (lockedAddrList m))) m m' p d l) as [Hold|Hnew];
      [apply Hen|apply Hen2|done|by rewrite HS|done|by eapply Hin|].
    rewrite Hnew. unfold granule. rewrite Hpa. apply (mask_inside s); auto.
    apply (access_inside s p e m d); [done|done|apply Hen|done|done|]. destruct Hfit as (? & ? & ?).
    unfold Packet.Pkt.covers. apply andb_true_iff. lia.
  - destruct Hfc as [? ? ? ? Hfm ?]. split; try congruence; try done. intros i Hi.
    rewrite Hfm, Hms by congruence.
    destruct (decide (i = e.2)) as [->|Hne]; [|by rewrite list_lookup_insert_ne].
    rewrite list_lookup_insert_eq by (by eapply lookup_lt_Some). rewrite Hm. simpl. by rewrite Hm'.
Qed.

Lemma uses_used t s : (∀ e, e ∈ tree (addrMap t) → r_start e.1 mod 16 = 0) → used t t → rtc use t s →
  used t s ∧ backingStore s = backingStore t.
Proof.
  intros H16 Ht Huse.
  enough (∀ u, rtc use u s → used t u → tree (addrMap u) = tree (addrMap t) → backingStore u = backingStore t →
    used t s ∧ backingStore s = backingStore t) as H by (by apply (H t)).
  clear Huse. induction 1 as [u|u v w Huv Hvw IH]; intros Hu Htr Hbs; [done|].
  destruct (use_step t u v) as (Hv & Htv & Hbv); [by rewrite Htr|done|done|].
  apply IH; congruence.
Qed.

(** C21: the checkpoint round trip: take a physical memory built from fresh
    memories with ranges that are not interleaved and do not overlap, start at
    multiples of 16 and have sizes that are multiples of 8, without a shared
    backing store, after any accesses to it.  Its checkpoint, restored onto a
    memory built the same way, gives back every byte of the physical address
    space and every reservation.  (Restoring asserts the size of each store
    to be a multiple of 8, and a reservation starts at a multiple of 16.) *)
Theorem checkpoint_roundtrip ms t s : Forall fresh_memory ms → disjoint_memories ms →
  Forall (λ m, r_start (range m) mod 16 = 0 ∧ AddrRange.size (range m) mod 8 = 0) ms →
  PhysicalMemory_new ms false = Ok t → rtc use t s →
  ∃ cp t', serialize s = Ok cp ∧ unserialize cp t = Ok t' ∧
    (∀ x, flat t' x = flat s x) ∧ ∀ i, i ∈ memories s → mems t' !! i = mems s !! i.
Proof.
  intros Hfresh Hdisj Hal Hnew Huse.
  destruct (new_built ms Hfresh Hdisj) as (t0 & Hnew' & Hinv & Hin & Hhost & Hmems & Hrg).
  rewrite Hnew in Hnew'. injection Hnew' as <-.
  assert (Hlocks : ∀ e m, e ∈ tree (addrMap t) → mems t !! e.2 = Some m → lockedAddrList m = []).
  { intros e m (m0 & Hm0 & _)%Hin Hm. destruct (Hmems e.2 m0 Hm0) as (m1 & Hm1 & Hbk). rewrite Hm in Hm1. injection Hm1 as <-.
    pose proof (fm_locks _ (fresh_lookup ms Hfresh e.2 m0 Hm0)) as Hl. by destruct Hbk as [->|[o ->]]. }
  assert (Hut : used t t).
  { split; [done| |].
    - intros e m l He Hm Hl. rewrite (Hlocks e m He Hm) in Hl. by apply elem_of_nil in Hl.
    - split; [done|apply Hinv|done|done| |done]. intros i (r & Hr)%(pi_memories _ Hinv).
      destruct (mems t !! i) as [m|] eqn:Hm; [|done]. simpl. rewrite <- (Hlocks (r, i) m Hr Hm). f_equal. apply set_locks_id. }
  destruct (uses_used t s) as [[Hinv' Hins Hfc] Hbs]; [|done|done|].
  { intros e (m0 & Hm0 & -> & _)%Hin. by apply (Forall_lookup_1 _ _ _ _ Hal Hm0). }
  apply roundtrip; [done|done| |done]. apply Forall_forall. rewrite Hbs. intros b (m & Hm & Hr)%Hrg.
  rewrite Forall_forall in Hal, Hfresh. split; unfold store_size; rewrite Hr.
  - rewrite (size_plain _ (fm_plain _ (Hfresh m Hm))). pose proof (fm_plain _ (Hfresh m Hm)) as (_ & _ & ? & _). lia.
  - by apply Hal.
Qed.

(** ** Witness *)

(** The two memories after a load-locked of the NVM. *)
Definition in_use : PhysicalMemory :=
  match access (ll 3 4352) two_built with Ok (_, _, s) => s | Err _ => two_built end.

Lemma in_use_used : use two_built in_use.
Proof.
  destruct (access (ll 3 4352) two_built) as [[[p' cl] s]|] eqn:Hacc; [|by vm_compute in Hacc].
  exists (ll 3 4352), (replicate 8 0), (AddrRange_of 4096 8192, 1%nat), (setBackingStore 2 nvm), p', cl.
  assert (s = in_use) as -> by (unfold in_use; by rewrite Hacc).
  split; [vm_compute; right; left|]. split; [done|]. split; [done|]. split.
  - split; try done; try (vm_compute; done). intros _. by exists 3.
  - split; [split; [|split]; vm_compute; congruence|]. by split.
Qed.

Lemma checkpoint_roundtrip_witness :
  ∃ cp t', serialize in_use = Ok cp ∧ unserialize cp two_built = Ok t' ∧
    (∀ x, flat t' x = flat in_use x) ∧ ∀ i, i ∈ memories in_use → mems t' !! i = mems in_use !! i.
Proof.
  apply (checkpoint_roundtrip [dram; nvm] two_built in_use two_fresh two_disjoint).
  - repeat apply Forall_cons; (split; [vm_compute; split; reflexivity|]).
    apply Forall_cons; (split; [vm_compute; split; reflexivity|]). constructor.
  - reflexivity.
  - apply rtc_once, in_use_used.
Defined.

End PhysCkpt.
