(* ===== verification/ChunkGenerator.v ===== *)
(** * Splitting a region into aligned chunks ([base/chunk_generator.hh])

    [ChunkGenerator] cuts an address/length pair into block- or page-aligned
    pieces; the port proxies and the process memory code drive every copy
    through it.  [chunks] is the loop of its documentation: build, test
    [done], use the chunk, call [next]. *)

From S2P Require Import Prelude.
From S2P Require Import Intmath.

(** ** Definitions *)

Record ChunkGenerator := mkChunkGenerator {
  curAddr : Z;
  nextAddr : Z;
  curSize : Z;
  sizeLeft : Z;
  startAddr : Z;
  chunkSize : Z;
}.

Definition ChunkGenerator_new (start totalSize chunk : Z) : res ChunkGenerator :=
  assertb ((chunk =? 0) || isPowerOf2 chunk);;
  next ← (if chunk =? 0 then Ok (u64 (start + totalSize))
          else n ← roundUp start chunk;
               Ok (if start =? n then u64 (n + chunk) else n));
  let left_in_chunk := u32 (u64 (next - start)) in
  let size := Z.min totalSize left_in_chunk in
  Ok (mkChunkGenerator start next size (totalSize - size) start chunk).

Definition complete (g : ChunkGenerator) : Z := u32 (u64 (curAddr g - startAddr g)).
Definition done (g : ChunkGenerator) : bool := curSize g =? 0.
Definition last (g : ChunkGenerator) : bool := sizeLeft g =? 0.

Definition next (g : ChunkGenerator) : bool * ChunkGenerator :=
  if sizeLeft g =? 0 then
    (false, mkChunkGenerator (curAddr g) (nextAddr g) 0 (sizeLeft g) (startAddr g) (chunkSize g))
  else
    let size := Z.min (sizeLeft g) (chunkSize g) in
    (true, mkChunkGenerator (nextAddr g) (u64 (nextAddr g + size)) size (sizeLeft g - size)
             (startAddr g) (chunkSize g)).

(** The chunks a [for] loop over the generator visits, each with its
    address, its size and what [complete] answers there. *)
Fixpoint visit (fuel : nat) (g : ChunkGenerator) : res (list (Z * Z * Z)) :=
  if done g then Ok [] else
  match fuel with
  | O => Err Diverge
  | S fuel =>
      rest ← visit fuel (next g).2;
      Ok ((curAddr g, curSize g, complete g) :: rest)
  end.

(** The loop runs at most once per byte. *)
Definition chunks (start totalSize chunk : Z) : res (list (Z * Z * Z)) :=
  g ← ChunkGenerator_new start totalSize chunk;
  visit (Z.to_nat totalSize) g.

(** ** What the chunks are

    [tiles start lo hi c l]: the chunks of [l] follow each other without gap
    from [lo] to [hi], none is empty or crosses a multiple of [c], and all
    but the last end at a multiple of [c]. *)
Fixpoint tiles (start lo hi c : Z) (l : list (Z * Z * Z)) : Prop :=
  match l with
  | [] => lo = hi
  | (a, n, k) :: l =>
      a = lo ∧ k = a - start ∧ 0 < n ∧ a mod c + n ≤ c ∧
      (a + n < hi → (a + n) mod c = 0) ∧ tiles start (a + n) hi c l
  end.

(** ** Proofs *)

(** The state between two iterations. *)
Definition gen_inv (hi : Z) (g : ChunkGenerator) : Prop :=
  let c := chunkSize g in
  0 < c < 2 ^ 32 ∧ 0 ≤ startAddr g ≤ curAddr g ∧ 0 < curSize g ∧ 0 ≤ sizeLeft g ∧
  curAddr g + curSize g + sizeLeft g = hi ∧ hi < 2 ^ 64 ∧ hi - startAddr g < 2 ^ 32 ∧
  curAddr g mod c + curSize g ≤ c ∧
  (0 < sizeLeft g → nextAddr g = curAddr g + curSize g ∧ nextAddr g mod c = 0).

Lemma next_inv hi g :
  gen_inv hi g → 0 < sizeLeft g → gen_inv hi (next g).2 ∧
  curAddr (next g).2 = curAddr g + curSize g ∧ sizeLeft (next g).2 < sizeLeft g ∧
  startAddr (next g).2 = startAddr g ∧ chunkSize (next g).2 = chunkSize g.
Proof.
  unfold gen_inv, next. intros (Hc & Hs & Hn & Hl & Hhi & Hb & Hw & Hal & Hnx) Hpos.
  destruct (Hnx Hpos) as [E M]. rewrite (proj2 (Z.eqb_neq _ _)) by lia. simpl. rewrite E in *.
  split; [|repeat split; lia].
  assert (0 < Z.min (sizeLeft g) (chunkSize g)) by lia.
  split; [done|]. split; [lia|]. split; [lia|]. split; [lia|]. split; [lia|].
  split; [lia|]. split; [lia|]. split; [lia|]. intros Hleft.
  rewrite u64_small by lia. split; [done|].
  rewrite Z.min_r by lia. rewrite <-Z.add_mod_idemp_r, Z.mod_same, Z.add_0_r by lia. done.
Qed.

Lemma visit_spec hi fuel g :
  gen_inv hi g → (Z.to_nat (sizeLeft g) < fuel)%nat →
  ∃ l, visit fuel g = Ok l ∧ tiles (startAddr g) (curAddr g) hi (chunkSize g) l.
Proof.
  revert g. induction fuel as [|fuel IH]; intros g Hinv Hf; [lia|].
  pose proof Hinv as (Hc & Hs & Hn & Hl & Hhi & Hb & Hw & Hal & Hnx).
  cbn [visit]. unfold done. rewrite (proj2 (Z.eqb_neq _ _)) by lia.
  assert (∃ l, visit fuel (next g).2 = Ok l ∧
    tiles (startAddr g) (curAddr g + curSize g) hi (chunkSize g) l) as (l & -> & Ht).
  { destruct (Z.eqb_spec (sizeLeft g) 0) as [E|E].
    - exists []. unfold next. rewrite E. simpl. split; [by destruct fuel|lia].
    - destruct (next_inv hi g Hinv ltac:(lia)) as (Hi' & E1 & E2 & E3 & E4).
      destruct (IH _ Hi') as (l & ? & Ht); [lia|]. exists l. split; [done|].
      by rewrite E1, E3, E4 in Ht. }
  simpl. eexists. split; [reflexivity|]. simpl. unfold complete.
  rewrite (u64_small (curAddr g - startAddr g)), u32_small by lia.
  split; [done|]. split; [done|]. split; [done|]. split; [done|]. split; [|done].
  intros Hlt. destruct Hnx as [<- ?]; [lia|done].
Qed.

Lemma new_inv start total k g :
  0 ≤ k < 32 → 0 ≤ start → 0 < total < 2 ^ 32 → start + total + 2 ^ k < 2 ^ 64 →
  ChunkGenerator_new start total (2 ^ k) = Ok g →
  gen_inv (start + total) g ∧ sizeLeft g < total ∧
  curAddr g = start ∧ startAddr g = start ∧ chunkSize g = 2 ^ k.
Proof.
  intros Hk Hs Ht Hov. unfold ChunkGenerator_new.
  assert (0 < 2 ^ k < 2 ^ 32) as Hp by (split; [lia|apply Z.pow_lt_mono_r; lia]).
  rewrite isPowerOf2_pow2, orb_true_r by lia. rewrite (proj2 (Z.eqb_neq _ _)) by lia.
  rewrite roundUp_spec by lia. simpl. set (o := (- start) mod 2 ^ k).
  assert (0 ≤ o < 2 ^ k) as Ho by (apply Z.mod_pos_bound; lia).
  assert ((start + o) mod 2 ^ k = 0) as Hmul.
  { unfold o. rewrite Z.add_mod_idemp_r by lia. by rewrite Z.add_opp_diag_r. }
  assert (∃ step, (if start =? start + o then u64 (start + o + 2 ^ k) else start + o) = start + step
    ∧ 0 < step ≤ 2 ^ k ∧ (start + step) mod 2 ^ k = 0 ∧ start mod 2 ^ k + step ≤ 2 ^ k)
    as (step & -> & Hst & Hsm & Hfit).
  { pose proof (Z.mod_pos_bound start (2 ^ k) ltac:(lia)).
    destruct (Z.eqb_spec start (start + o)) as [E|E].
    - exists (2 ^ k). assert (o = 0) as E0 by lia. rewrite E0, Z.add_0_r in *.
      split; [by rewrite u64_small by lia|]. split; [lia|]. split; [|lia].
      rewrite <-Z.add_mod_idemp_r, Z.mod_same, Z.add_0_r by lia. done.
    - exists o. split; [done|]. split; [lia|]. split; [done|].
      apply Z.mod_divide in Hmul as [q Hq]; [|lia].
      pose proof (Z.div_mod start (2 ^ k) ltac:(lia)) as Hdm.
      assert (q - start / 2 ^ k < 2) by (apply (Z.mul_lt_mono_pos_r (2 ^ k)); lia).
      assert ((q - start / 2 ^ k) * 2 ^ k ≤ 1 * 2 ^ k) by (apply Z.mul_le_mono_nonneg_r; lia).
      lia. }
  replace (start + step - start) with step by lia.
  rewrite u64_small, u32_small by lia. intros [= <-]. unfold gen_inv; simpl.
  repeat split; lia.
Qed.

Lemma chunks_tiles start total k :
  0 ≤ k < 32 → 0 ≤ start → 0 ≤ total < 2 ^ 32 → start + total + 2 ^ k < 2 ^ 64 →
  ∃ l, chunks start total (2 ^ k) = Ok l ∧ tiles start start (start + total) (2 ^ k) l.
Proof.
  intros Hk Hs Ht Hov. unfold chunks.
  assert (∃ g, ChunkGenerator_new start total (2 ^ k) = Ok g ∧
    (total = 0 → curSize g = 0)) as (g & Eg & H0).
  { unfold ChunkGenerator_new. rewrite isPowerOf2_pow2, orb_true_r by lia.
    rewrite (proj2 (Z.eqb_neq _ _)) by lia. rewrite roundUp_spec by lia. simpl.
    eexists. split; [reflexivity|]. simpl. intros ->.
    pose proof (u32_range (u64
      ((if start =? start + - start mod 2 ^ k
        then u64 (start + - start mod 2 ^ k + 2 ^ k) else start + - start mod 2 ^ k) - start))).
    lia. }
  rewrite Eg. cbn [mbind res_bind].
  destruct (Z.eqb_spec total 0) as [->|Hne].
  - exists []. split; [|simpl; lia]. simpl. unfold done. by rewrite H0.
  - destruct (new_inv start total k g Hk Hs ltac:(lia) Hov Eg) as (Hinv & Hlt & E1 & E2 & E3).
    destruct (visit_spec _ (Z.to_nat total) g Hinv) as (l & ? & Htl).
    { destruct Hinv as (_ & _ & _ & ? & _). lia. }
    exists l. split; [done|]. by rewrite E1, E2, E3 in Htl.
Qed.

(** Chunking a region at a power of two terminates within one iteration
    per byte and yields pieces that cover the region exactly once, in
    address order, none crossing a chunk boundary, all but the last filled
    up to one, with [complete] counting the bytes already done; with chunk
    size 0 the whole region is a single chunk, and an empty region has
    none. *)
Theorem chunks_tile_region start total k :
  0 ≤ k < 32 → 0 ≤ start → 0 ≤ total < 2 ^ 32 → start + total + 2 ^ k < 2 ^ 64 →
  (∃ l, chunks start total (2 ^ k) = Ok l ∧ tiles start start (start + total) (2 ^ k) l) ∧
  chunks start total 0 = Ok (if total =? 0 then [] else [(start, total, 0)]).
Proof.
  intros Hk Hs Ht Hov. split; [by apply chunks_tiles|]. unfold chunks.
  pose proof (Z.pow_pos_nonneg 2 k ltac:(lia) ltac:(lia)).
  unfold ChunkGenerator_new. simpl. rewrite u64_small by lia.
  replace (start + total - start) with total by lia. rewrite u64_small, u32_small by lia.
  rewrite Z.min_id, Z.sub_diag. destruct (Z.eqb_spec total 0) as [->|Hne]; [done|].
  destruct (Z.to_nat total) as [|fuel] eqn:Ef; [lia|]. cbn [visit]. unfold done; simpl.
  rewrite (proj2 (Z.eqb_neq _ _)) by done. unfold complete, next; simpl.
  rewrite Z.sub_diag. by destruct fuel.
Qed.

Lemma chunks_tile_region_witness :
  chunks 0x1ff0 0x2020 (2 ^ 12) =
    Ok [(0x1ff0, 0x10, 0); (0x2000, 0x1000, 0x10); (0x3000, 0x1000, 0x1010); (0x4000, 0x10, 0x2010)] ∧
  ∃ l, chunks 0x1ff0 0x2020 (2 ^ 12) = Ok l ∧ tiles 0x1ff0 0x1ff0 0x4010 (2 ^ 12) l.
Proof.
  split; [by vm_compute|].
  destruct (chunks_tile_region 0x1ff0 0x2020 12 ltac:(lia) ltac:(lia) ltac:(lia) ltac:(lia))
    as [H _]. exact H.
Defined.
