(* ===== verification/PageTable.v ===== *)
(** * The emulated page table ([mem/page_table.hh], [mem/page_table.cc])

    In syscall emulation mode a process owns an [EmulationPageTable]: an
    unordered map from the address of a virtual page to the address of a
    physical page and the mapping flags. *)

From S2P Require Import Prelude.
From S2P Require Import Intmath.
From S2P Require Import Bitfield.

(** ** Definitions *)

Module EPT.

Record Entry := mkEntry { paddr : Z; flags : Z }.

Record EmulationPageTable := mkPageTable {
  pTable : gmap Z Entry;
  pageSize : Z;
  offsetMask : Z;
}.

#[export] Instance Entry_eq_dec : EqDecision Entry.
Proof. solve_decision. Defined.

Definition Clobber : Z := 1.
Definition Uncacheable : Z := 4.
Definition ReadOnly : Z := 8.

Definition EmulationPageTable_new (page_size : Z) : res EmulationPageTable :=
  k ← floorLog2 8 page_size;
  assertb (isPowerOf2 page_size);;
  Ok (mkPageTable ∅ page_size (mask k)).

Definition with_table (pt : EmulationPageTable) (t : gmap Z Entry) : EmulationPageTable :=
  mkPageTable t (pageSize pt) (offsetMask pt).

Definition pageAlign (pt : EmulationPageTable) (a : Z) : Z := Z.land a (not64 (offsetMask pt)).
Definition pageOffset (pt : EmulationPageTable) (a : Z) : Z := Z.land a (offsetMask pt).

Fixpoint map_loop (fuel : nat) (ps : Z) (t : gmap Z Entry) (vaddr pa size fl : Z) :
    res (gmap Z Entry) :=
  if size <=? 0 then Ok t else
  match fuel with
  | O => Err Diverge
  | S fuel =>
      t' ← match t !! vaddr with
           | Some _ => panic_if (Z.land fl Clobber =? 0);; Ok (<[vaddr := mkEntry pa fl]> t)
           | None => Ok (<[vaddr := mkEntry pa fl]> t)
           end;
      map_loop fuel ps t' (u64 (vaddr + ps)) (u64 (pa + ps)) (s64 (size - ps)) fl
  end.

(** A page holds at least a byte, so [size] iterations are enough. *)
Definition map (pt : EmulationPageTable) (vaddr pa size fl : Z) : res EmulationPageTable :=
  assertb (pageOffset pt vaddr =? 0);;
  t ← map_loop (Z.to_nat size) (pageSize pt) (pTable pt) vaddr pa size fl;
  Ok (with_table pt t).

Fixpoint remap_loop (fuel : nat) (ps : Z) (t : gmap Z Entry) (vaddr size new_vaddr : Z) :
    res (gmap Z Entry) :=
  if size <=? 0 then Ok t else
  match fuel with
  | O => Err Diverge
  | S fuel =>
      match t !! vaddr, t !! new_vaddr with
      | Some e, None =>
          remap_loop fuel ps (delete vaddr (<[new_vaddr := e]> t))
            (u64 (vaddr + ps)) (s64 (size - ps)) (u64 (new_vaddr + ps))
      | _, _ => Err AssertFail
      end
  end.

Definition remap (pt : EmulationPageTable) (vaddr size new_vaddr : Z) : res EmulationPageTable :=
  assertb (pageOffset pt vaddr =? 0);;
  assertb (pageOffset pt new_vaddr =? 0);;
  t ← remap_loop (Z.to_nat size) (pageSize pt) (pTable pt) vaddr size new_vaddr;
  Ok (with_table pt t).

Fixpoint unmap_loop (fuel : nat) (ps : Z) (t : gmap Z Entry) (vaddr size : Z) :
    res (gmap Z Entry) :=
  if size <=? 0 then Ok t else
  match fuel with
  | O => Err Diverge
  | S fuel =>
      match t !! vaddr with
      | Some _ => unmap_loop fuel ps (delete vaddr t) (u64 (vaddr + ps)) (s64 (size - ps))
      | None => Err AssertFail
      end
  end.

Definition unmap (pt : EmulationPageTable) (vaddr size : Z) : res EmulationPageTable :=
  assertb (pageOffset pt vaddr =? 0);;
  t ← unmap_loop (Z.to_nat size) (pageSize pt) (pTable pt) vaddr size;
  Ok (with_table pt t).

Fixpoint isUnmapped_loop (fuel : nat) (ps : Z) (t : gmap Z Entry) (vaddr size offset : Z) :
    res bool :=
  if offset <? size then
    match fuel with
    | O => Err Diverge
    | S fuel =>
        match t !! u64 (vaddr + offset) with
        | Some _ => Ok false
        | None => isUnmapped_loop fuel ps t vaddr size (s64 (offset + ps))
        end
    end
  else Ok true.

Definition isUnmapped (pt : EmulationPageTable) (vaddr size : Z) : res bool :=
  assertb (pageOffset pt vaddr =? 0);;
  isUnmapped_loop (Z.to_nat size) (pageSize pt) (pTable pt) vaddr size 0.

Definition lookup (pt : EmulationPageTable) (vaddr : Z) : option Entry :=
  pTable pt !! pageAlign pt vaddr.

Definition translate (pt : EmulationPageTable) (vaddr : Z) : option Z :=
  match lookup pt vaddr with
  | None => None
  | Some e => Some (u64 (pageOffset pt vaddr + paddr e))
  end.

(** Translation of a request: [inl] carries the faulting address of a
    [GenericPageTableFault], [inr] the physical address set in the request. *)
Definition translate_req (pt : EmulationPageTable) (vaddr size : Z) : res (Z + Z) :=
  assertb (pageAlign pt (u64 (vaddr + size - 1)) =? pageAlign pt vaddr);;
  match translate pt vaddr with
  | None => Ok (inl vaddr)
  | Some pa =>
      panic_if (pageSize pt <? u64 (Z.land pa (u64 (pageSize pt - 1)) + size));; Ok (inr pa)
  end.

(** [iter] is the order in which the unordered map is walked. *)
Definition getMappings (iter : list (Z * Entry)) (addr_maps : list (Z * Z)) : list (Z * Z) :=
  addr_maps ++ ((λ e : Z * Entry, (e.1, paddr e.2)) <$> iter).

(** The [ptable] section of a checkpoint: its [size] and its [Entry<i>]
    subsections with [vaddr], [paddr] and [flags]. *)
Record Checkpoint := mkCheckpoint { cp_size : Z; cp_entries : gmap Z (Z * Z * Z) }.

Fixpoint serialize_loop (count : Z) (iter : list (Z * Entry)) (cp : gmap Z (Z * Z * Z)) :
    Z * gmap Z (Z * Z * Z) :=
  match iter with
  | [] => (count, cp)
  | (v, e) :: iter => serialize_loop (count + 1) iter (<[count := (v, paddr e, flags e)]> cp)
  end.

Definition serialize (pt : EmulationPageTable) (iter : list (Z * Entry)) : res Checkpoint :=
  let '(count, es) := serialize_loop 0 iter ∅ in
  assertb (count =? Z.of_nat (size (pTable pt)));;
  Ok (mkCheckpoint (Z.of_nat (size (pTable pt))) es).

Fixpoint unserialize_loop (n : nat) (i : Z) (cp : Checkpoint) (t : gmap Z Entry) :
    res (gmap Z Entry) :=
  match n with
  | O => Ok t
  | S n =>
      match cp_entries cp !! i with
      | None => Err FatalFail
      | Some (v, pa, fl) =>
          unserialize_loop n (i + 1) cp
            (match t !! v with Some _ => t | None => <[v := mkEntry pa fl]> t end)
      end
  end.

Definition unserialize (cp : Checkpoint) (pt : EmulationPageTable) : res EmulationPageTable :=
  t ← unserialize_loop (Z.to_nat (s32 (cp_size cp))) 0 cp (pTable pt); Ok (with_table pt t).

(** ** Invariant *)

Definition pt_wf (k : Z) (pt : EmulationPageTable) : Prop :=
  0 ≤ k < 63 ∧ pageSize pt = 2 ^ k ∧ offsetMask pt = Z.ones k ∧
  ∀ v e, pTable pt !! v = Some e →
    is_u64 v ∧ is_u64 (paddr e) ∧ v mod 2 ^ k = 0 ∧ paddr e mod 2 ^ k = 0.

(** The page addresses a region of [size] bytes from [v] touches. *)
Definition in_pages (ps v size a : Z) : bool :=
  (v <=? a) && (a <? v + size) && ((a - v) mod ps =? 0).

(** ** Arithmetic of pages *)

Lemma in_pages_step ps v size a :
  0 < ps → 0 < size →
  in_pages ps v size a = (a =? v) || in_pages ps (v + ps) (size - ps) a.
Proof.
  intros Hp Hs. unfold in_pages. replace (v + ps + (size - ps)) with (v + size) by lia.
  replace (a - (v + ps)) with (a - v + (-1) * ps) by lia. rewrite Z.mod_add by lia.
  destruct (Z.eqb_spec a v) as [->|Hne].
  { rewrite Z.sub_diag, Z.mod_0_l by lia. zcmp. }
  simpl. destruct (Z.leb_spec (v + ps) a) as [Hle|Hgt].
  { by rewrite (proj2 (Z.leb_le v a)) by lia. }
  simpl. destruct (Z.leb_spec v a); [|done]. destruct (Z.ltb_spec a (v + size)); [|done].
  rewrite Z.mod_small by lia. simpl. lia.
Qed.

Lemma in_pages_empty ps v size a : size ≤ 0 → in_pages ps v size a = false.
Proof. intros. unfold in_pages. zcmp; done. Qed.

Lemma in_pages_range ps v size a : in_pages ps v size a = true → v ≤ a < v + size.
Proof. unfold in_pages. intros. bool_to_prop. lia. Qed.

Lemma pageAlign_spec k pt a :
  pt_wf k pt → is_u64 a → pageAlign pt a = a - a mod 2 ^ k.
Proof.
  intros (Hk & _ & Hm & _) Ha. unfold pageAlign. rewrite Hm, Z.ones_equiv.
  apply land_not_ones; [lia|done].
Qed.

Lemma pageOffset_spec k pt a : pt_wf k pt → pageOffset pt a = a mod 2 ^ k.
Proof.
  intros (Hk & _ & Hm & _). unfold pageOffset. rewrite Hm. apply Z.land_ones. lia.
Qed.

Lemma pageAlign_inside k pt v off :
  pt_wf k pt → 0 ≤ v → v mod 2 ^ k = 0 → 0 ≤ off < 2 ^ k → v + off < 2 ^ 64 →
  pageAlign pt (v + off) = v ∧ pageOffset pt (v + off) = off.
Proof.
  intros Hwf Hv Hal Ho Hb. assert ((v + off) mod 2 ^ k = off) as E.
  { rewrite <-Z.add_mod_idemp_l, Hal, Z.add_0_l by lia. by apply Z.mod_small. }
  rewrite (pageAlign_spec k), (pageOffset_spec k), E by (done || unfold is_u64; lia). lia.
Qed.

Lemma new_wf k : 0 ≤ k < 63 →
  ∃ pt, EmulationPageTable_new (2 ^ k) = Ok pt ∧ pt_wf k pt ∧ pTable pt = ∅.
Proof.
  intros Hk. unfold EmulationPageTable_new.
  assert (2 ^ k < 2 ^ 64) by (apply Z.pow_lt_mono_r; lia).
  rewrite floorLog2_log2; [|set_solver|split; [lia|done]].
  rewrite Z.log2_pow2, isPowerOf2_pow2 by lia. eexists. split; [reflexivity|].
  split; [|done]. split; [done|]. split; [done|]. split; [apply mask_ones; lia|].
  intros v e Hl. simpl in Hl. by rewrite lookup_empty in Hl.
Qed.

(** ** The loops over the pages of a region

    The hypotheses of a page loop: a positive page size and no address of
    the region beyond 64 bits. *)
Definition loop_ok (ps v size : Z) : Prop :=
  0 < ps < 2 ^ 63 ∧ 0 ≤ v ∧ size < 2 ^ 63 ∧ (0 < size → v + size + ps ≤ 2 ^ 64).

Lemma loop_ok_step ps v size :
  loop_ok ps v size → 0 < size →
  u64 (v + ps) = v + ps ∧ s64 (size - ps) = size - ps ∧ loop_ok ps (v + ps) (size - ps).
Proof.
  intros (Hp & Hv & Hs & Hb) Hpos. rewrite u64_small, s64_small by lia.
  split; [done|]. split; [done|]. repeat split; lia.
Qed.

Lemma map_loop_spec fuel ps t v pa size fl :
  loop_ok ps v size → loop_ok ps pa size → (Z.to_nat size ≤ fuel)%nat →
  (Z.land fl Clobber ≠ 0 ∨ ∀ a, in_pages ps v size a = true → t !! a = None) →
  ∃ t', map_loop fuel ps t v pa size fl = Ok t' ∧
    ∀ a, t' !! a = if in_pages ps v size a then Some (mkEntry (pa + (a - v)) fl) else t !! a.
Proof.
  revert t v pa size. induction fuel as [|fuel IH]; intros t v pa size Hv Hpa Hf Hfree;
    cbn [map_loop]; destruct (Z.leb_spec size 0) as [Hle|Hgt].
  1,3: exists t; split; [done|]; intros a; by rewrite in_pages_empty.
  { lia. }
  assert (0 < ps) as Hps by apply Hv.
  destruct (loop_ok_step _ _ _ Hv Hgt) as (-> & -> & Hv').
  destruct (loop_ok_step _ _ _ Hpa Hgt) as (-> & _ & Hpa').
  assert ((match t !! v with
           | Some _ => panic_if (Z.land fl Clobber =? 0);; Ok (<[v:=mkEntry pa fl]> t)
           | None => Ok (<[v:=mkEntry pa fl]> t)
           end) = Ok (<[v:=mkEntry pa fl]> t)) as ->.
  { destruct (t !! v) eqn:E; [|done]. destruct Hfree as [Hc|Hn].
    - by rewrite (proj2 (Z.eqb_neq _ _) Hc).
    - rewrite Hn in E; [done|]. rewrite in_pages_step by lia. lia. }
  cbn [mbind res_bind].
  destruct (IH (<[v:=mkEntry pa fl]> t) (v + ps) (pa + ps) (size - ps) Hv' Hpa')
    as (t' & -> & Hl); [lia| |].
  { destruct Hfree as [Hc|Hn]; [by left|right]. intros a Ha.
    pose proof (in_pages_range _ _ _ _ Ha). rewrite lookup_insert_ne by lia.
    apply Hn. rewrite in_pages_step, Ha by lia. apply orb_true_r. }
  exists t'. split; [done|]. intros a. rewrite Hl, (in_pages_step _ _ size) by lia.
  destruct (in_pages ps (v + ps) (size - ps) a) eqn:E.
  - rewrite orb_true_r. do 2 f_equal. lia.
  - rewrite orb_false_r. destruct (Z.eqb_spec a v) as [->|].
    + rewrite lookup_insert_eq. do 2 f_equal. lia.
    + by rewrite lookup_insert_ne.
Qed.

Lemma map_loop_panics fuel ps t v pa size fl a :
  loop_ok ps v size → loop_ok ps pa size → (Z.to_nat size ≤ fuel)%nat →
  Z.land fl Clobber = 0 → in_pages ps v size a = true → is_Some (t !! a) →
  map_loop fuel ps t v pa size fl = Err PanicFail.
Proof.
  revert t v pa size. induction fuel as [|fuel IH]; intros t v pa size Hv Hpa Hf Hc Ha Hs;
    cbn [map_loop]; destruct (Z.leb_spec size 0) as [Hle|Hgt].
  1,3: by rewrite in_pages_empty in Ha.
  { lia. }
  assert (0 < ps) as Hps by apply Hv. rewrite in_pages_step in Ha by lia.
  destruct (t !! v) eqn:E; [by rewrite Hc|].
  destruct (loop_ok_step _ _ _ Hv Hgt) as (-> & -> & Hv').
  destruct (loop_ok_step _ _ _ Hpa Hgt) as (-> & _ & Hpa').
  cbn [mbind res_bind]. destruct (Z.eqb_spec a v) as [->|Hne].
  { rewrite E in Hs. by destruct Hs. }
  apply IH; try done; [lia|]. by rewrite lookup_insert_ne.
Qed.

Lemma unmap_loop_spec fuel ps t v size :
  loop_ok ps v size → (Z.to_nat size ≤ fuel)%nat →
  (∀ a, in_pages ps v size a = true → is_Some (t !! a)) →
  ∃ t', unmap_loop fuel ps t v size = Ok t' ∧
    ∀ a, t' !! a = if in_pages ps v size a then None else t !! a.
Proof.
  revert t v size. induction fuel as [|fuel IH]; intros t v size Hv Hf Hm;
    cbn [unmap_loop]; destruct (Z.leb_spec size 0) as [Hle|Hgt].
  1,3: exists t; split; [done|]; intros a; by rewrite in_pages_empty.
  { lia. }
  assert (0 < ps) as Hps by apply Hv.
  destruct (Hm v) as [e ->]; [rewrite in_pages_step by lia; lia|].
  destruct (loop_ok_step _ _ _ Hv Hgt) as (-> & -> & Hv').
  destruct (IH (delete v t) (v + ps) (size - ps) Hv') as (t' & -> & Hl); [lia| |].
  { intros a Ha. pose proof (in_pages_range _ _ _ _ Ha). rewrite lookup_delete_ne by lia.
    apply Hm. rewrite in_pages_step, Ha by lia. apply orb_true_r. }
  exists t'. split; [done|]. intros a. rewrite Hl, (in_pages_step _ _ size) by lia.
  destruct (in_pages ps (v + ps) (size - ps) a) eqn:E; [by rewrite orb_true_r|].
  rewrite orb_false_r. destruct (Z.eqb_spec a v) as [->|].
  - by rewrite lookup_delete_eq.
  - by rewrite lookup_delete_ne.
Qed.

Lemma unmap_loop_asserts fuel ps t v size a :
  loop_ok ps v size → (Z.to_nat size ≤ fuel)%nat →
  in_pages ps v size a = true → t !! a = None →
  unmap_loop fuel ps t v size = Err AssertFail.
Proof.
  revert t v size. induction fuel as [|fuel IH]; intros t v size Hv Hf Ha Hn;
    cbn [unmap_loop]; destruct (Z.leb_spec size 0) as [Hle|Hgt].
  1,3: by rewrite in_pages_empty in Ha.
  { lia. }
  assert (0 < ps) as Hps by apply Hv. rewrite in_pages_step in Ha by lia.
  destruct (t !! v) eqn:E; [|done].
  destruct (loop_ok_step _ _ _ Hv Hgt) as (-> & -> & Hv').
  destruct (Z.eqb_spec a v) as [->|Hne]; [by rewrite E in Hn|].
  apply IH; try done; [lia|]. by rewrite lookup_delete_ne.
Qed.

(** Moving a region onto a disjoint one. *)
Lemma remap_loop_spec fuel ps t v size nv :
  loop_ok ps v size → loop_ok ps nv size → (Z.to_nat size ≤ fuel)%nat →
  v + size ≤ nv ∨ nv + size ≤ v → (ps | nv - v) →
  (∀ a, in_pages ps v size a = true → is_Some (t !! a)) →
  (∀ a, in_pages ps nv size a = true → t !! a = None) →
  ∃ t', remap_loop fuel ps t v size nv = Ok t' ∧
    ∀ a, t' !! a = if in_pages ps nv size a then t !! (v + (a - nv))
                   else if in_pages ps v size a then None else t !! a.
Proof.
  revert t v size nv. induction fuel as [|fuel IH]; intros t v size nv Hv Hnv Hf Hdis Hdiv Hm Hn;
    cbn [remap_loop]; destruct (Z.leb_spec size 0) as [Hle|Hgt].
  1,3: exists t; split; [done|]; intros a; by rewrite !in_pages_empty.
  { lia. }
  assert (0 < ps) as Hps by apply Hv.
  destruct (Hm v) as [e Hve]; [rewrite in_pages_step by lia; lia|]. rewrite Hve.
  rewrite (Hn nv); [|rewrite in_pages_step by lia; lia].
  destruct (loop_ok_step _ _ _ Hv Hgt) as (-> & -> & Hv').
  destruct (loop_ok_step _ _ _ Hnv Hgt) as (-> & _ & Hnv').
  set (t1 := delete v (<[nv:=e]> t)).
  assert (∀ a, a ≠ v → a ≠ nv → t1 !! a = t !! a) as Ht1.
  { intros a ??. unfold t1. by rewrite lookup_delete_ne, lookup_insert_ne. }
  destruct Hdiv as [q Hq].
  assert (∀ a, in_pages ps (nv + ps) (size - ps) a = true → a ≠ v) as Hnoov.
  { intros a Ha ->. apply in_pages_range in Ha. nia. }
  assert (∀ a, in_pages ps (v + ps) (size - ps) a = true → a ≠ nv) as Hnoov'.
  { intros a Ha ->. apply in_pages_range in Ha. nia. }
  destruct (IH t1 (v + ps) (size - ps) (nv + ps) Hv' Hnv') as (t' & -> & Hl);
    [lia|lia|exists q; lia| | |].
  { intros a Ha. pose proof (in_pages_range _ _ _ _ Ha).
    rewrite Ht1 by (lia || by apply Hnoov').
    apply Hm. rewrite in_pages_step, Ha by lia. apply orb_true_r. }
  { intros a Ha. pose proof (in_pages_range _ _ _ _ Ha).
    rewrite Ht1 by (lia || by apply Hnoov).
    apply Hn. rewrite in_pages_step, Ha by lia. apply orb_true_r. }
  exists t'. split; [done|]. intros a. rewrite Hl, (in_pages_step _ nv), (in_pages_step _ v) by lia.
  replace (v + ps + (a - (nv + ps))) with (v + (a - nv)) by lia.
  destruct (in_pages ps (nv + ps) (size - ps) a) eqn:E.
  - rewrite orb_true_r. apply in_pages_range in E. apply Ht1; [lia|].
    destruct Hdis; [|lia]. nia.
  - rewrite orb_false_r. destruct (Z.eqb_spec a nv) as [->|].
    + rewrite Z.sub_diag, Z.add_0_r, Hve.
      destruct (in_pages ps (v + ps) (size - ps) nv) eqn:E'.
      * by destruct (Hnoov' nv).
      * unfold t1. rewrite lookup_delete_ne by lia. by rewrite lookup_insert_eq.
    + destruct (in_pages ps (v + ps) (size - ps) a) eqn:E'; [by rewrite orb_true_r|].
      rewrite orb_false_r. destruct (Z.eqb_spec a v) as [->|]; [|by apply Ht1].
      unfold t1. by rewrite lookup_delete_eq.
Qed.

Lemma isUnmapped_loop_spec fuel ps t v size off :
  0 < ps < 2 ^ 63 → 0 ≤ v → 0 ≤ off → off mod ps = 0 → v + size ≤ 2 ^ 64 → size + ps < 2 ^ 63 →
  (Z.to_nat (size - off) ≤ fuel)%nat →
  ∃ b, isUnmapped_loop fuel ps t v size off = Ok b ∧
    (b = true ↔ ∀ a, in_pages ps (v + off) (size - off) a = true → t !! a = None).
Proof.
  intros Hps Hv. revert off. induction fuel as [|fuel IH]; intros off Ho Hm Hb Hs Hf;
    cbn [isUnmapped_loop]; destruct (Z.ltb_spec off size) as [Hlt|Hge]; try lia.
  1,3: exists true; split; [done|]; split; [intros _ a Ha|done];
       by rewrite in_pages_empty in Ha by lia.
  rewrite u64_small, s64_small by lia. destruct (t !! (v + off)) as [e|] eqn:E.
  { exists false. split; [done|]. split; [done|]. intros Hall.
    rewrite Hall in E; [done|]. rewrite in_pages_step by lia. lia. }
  destruct (IH (off + ps)) as (b & -> & Hiff); [lia| |lia|lia|lia|].
  { rewrite <-Z.add_mod_idemp_r, Z.mod_same, Z.add_0_r by lia. done. }
  exists b. split; [done|]. rewrite Hiff.
  replace (v + (off + ps)) with (v + off + ps) by lia.
  replace (size - (off + ps)) with (size - off - ps) by lia.
  split; intros Hall a Ha.
  - rewrite in_pages_step in Ha by lia. destruct (Z.eqb_spec a (v + off)) as [Heq|]; [by rewrite Heq|].
    by apply Hall.
  - apply Hall. rewrite in_pages_step, Ha by lia. apply orb_true_r.
Qed.

(** ** The operations *)

Definition region_ok (k v size : Z) : Prop :=
  0 ≤ v ∧ v mod 2 ^ k = 0 ∧ 0 ≤ size < 2 ^ 63 - 2 ^ k ∧ v + size + 2 ^ k ≤ 2 ^ 64.

Lemma region_loop_ok k v size : 0 ≤ k → region_ok k v size → loop_ok (2 ^ k) v size.
Proof.
  intros Hk (H1 & _ & H3 & H4). pose proof (Z.pow_pos_nonneg 2 k ltac:(lia) Hk).
  repeat split; lia.
Qed.

Lemma region_page_aligned k v size a :
  0 ≤ k → v mod 2 ^ k = 0 → in_pages (2 ^ k) v size a = true → a mod 2 ^ k = 0.
Proof.
  unfold in_pages. intros Hk Hv Ha. bool_to_prop.
  pose proof (Z.pow_pos_nonneg 2 k ltac:(lia) Hk).
  replace a with (v + (a - v)) by lia.
  rewrite <-Z.add_mod_idemp_r by lia. replace ((a - v) mod 2 ^ k) with 0 by lia.
  by rewrite Z.add_0_r.
Qed.

Lemma region_offset_ok k pt v size :
  pt_wf k pt → region_ok k v size → (pageOffset pt v =? 0) = true.
Proof. intros Hwf (_ & Hm & _). rewrite (pageOffset_spec k) by done. lia. Qed.

Lemma translate_spec k pt a :
  pt_wf k pt → is_u64 a →
  translate pt a = (λ e, paddr e + a mod 2 ^ k) <$> pTable pt !! (a - a mod 2 ^ k).
Proof.
  intros Hwf Ha. unfold translate, lookup.
  rewrite (pageAlign_spec k), (pageOffset_spec k) by done.
  destruct (pTable pt !! (a - a mod 2 ^ k)) as [e|] eqn:E; [simpl|done]. f_equal.
  destruct Hwf as (Hk & _ & _ & Hent). destruct (Hent _ _ E) as (_ & Hp & _ & Hm).
  pose proof (Z.mod_pos_bound a (2 ^ k) ltac:(lia)).
  unfold is_u64 in Hp. rewrite u64_small; [lia|]. split; [lia|].
  assert (2 ^ 64 = 2 ^ k * 2 ^ (64 - k)) as E64 by (rewrite <-Z.pow_add_r by lia; f_equal; lia).
  pose proof (Z.div_mod (paddr e) (2 ^ k) ltac:(lia)).
  rewrite E64 in *. set (c := 2 ^ (64 - k)) in *.
  assert (paddr e / 2 ^ k + 1 ≤ c) by nia. nia.
Qed.

Lemma map_ok k pt v pa size fl :
  pt_wf k pt → region_ok k v size → region_ok k pa size →
  (Z.land fl Clobber ≠ 0 ∨ ∀ a, in_pages (2 ^ k) v size a = true → pTable pt !! a = None) →
  ∃ pt', map pt v pa size fl = Ok pt' ∧ pt_wf k pt' ∧
    ∀ a, pTable pt' !! a =
      if in_pages (2 ^ k) v size a then Some (mkEntry (pa + (a - v)) fl) else pTable pt !! a.
Proof.
  intros Hwf Hv Hpa Hfree. pose proof Hwf as (Hk & Hps & Hmask & Hent).
  unfold map. rewrite (region_offset_ok k pt v size) by done. cbn [mbind res_bind assertb].
  rewrite Hps. destruct (map_loop_spec (Z.to_nat size) (2 ^ k) (pTable pt) v pa size fl)
    as (t & -> & Hl); [(apply region_loop_ok; [lia|assumption])..|lia|done|].
  eexists. split; [done|]. split; [|done]. split; [done|]. split; [done|]. split; [done|].
  simpl. intros a e. rewrite Hl. destruct (in_pages (2 ^ k) v size a) eqn:E; [|by apply Hent].
  intros [= <-]. simpl. pose proof (in_pages_range _ _ _ _ E).
  destruct Hv as (? & Hvm & ? & ?), Hpa as (? & Hpm & ? & ?).
  assert (0 < 2 ^ k) by lia. unfold is_u64.
  assert (a mod 2 ^ k = 0) by (apply (region_page_aligned k v size); [lia|done|done]).
  split; [lia|]. split; [lia|]. split; [done|].
  rewrite <-Z.add_mod_idemp_l, Hpm, Z.add_0_l by lia.
  rewrite Zminus_mod, Hvm. replace (a mod 2 ^ k) with 0 by lia. by rewrite Z.sub_diag, Z.mod_0_l by lia.
Qed.

Lemma isUnmapped_ok k pt v size :
  pt_wf k pt → region_ok k v size →
  ∃ b, isUnmapped pt v size = Ok b ∧
    (b = true ↔ ∀ a, in_pages (2 ^ k) v size a = true → pTable pt !! a = None).
Proof.
  intros Hwf Hv. pose proof Hwf as (Hk & Hps & _). unfold isUnmapped.
  rewrite (region_offset_ok k pt v size) by done. cbn [mbind res_bind assertb].
  rewrite Hps. destruct (region_loop_ok k v size) as (? & ? & ? & ?); [lia|done|].
  destruct Hv as (? & ? & ? & ?).
  destruct (isUnmapped_loop_spec (Z.to_nat size) (2 ^ k) (pTable pt) v size 0)
    as (b & -> & Hb); [lia|lia|lia|by rewrite Z.mod_0_l by lia|lia|lia|lia|].
  exists b. split; [done|]. by rewrite Z.add_0_r, Z.sub_0_r in Hb.
Qed.

Lemma unmap_ok k pt v size :
  pt_wf k pt → region_ok k v size →
  (∀ a, in_pages (2 ^ k) v size a = true → is_Some (pTable pt !! a)) →
  ∃ pt', unmap pt v size = Ok pt' ∧ pt_wf k pt' ∧
    ∀ a, pTable pt' !! a = if in_pages (2 ^ k) v size a then None else pTable pt !! a.
Proof.
  intros Hwf Hv Hm. pose proof Hwf as (Hk & Hps & Hmask & Hent). unfold unmap.
  rewrite (region_offset_ok k pt v size) by done. cbn [mbind res_bind assertb]. rewrite Hps.
  destruct (unmap_loop_spec (Z.to_nat size) (2 ^ k) (pTable pt) v size) as (t & -> & Hl);
    [(apply region_loop_ok; [lia|assumption])|lia|done|].
  eexists. split; [done|]. split; [|done]. split; [done|]. split; [done|]. split; [done|].
  simpl. intros a e. rewrite Hl. case_match; [done|]. apply Hent.
Qed.

Lemma remap_ok k pt v size nv :
  pt_wf k pt → region_ok k v size → region_ok k nv size →
  v + size ≤ nv ∨ nv + size ≤ v →
  (∀ a, in_pages (2 ^ k) v size a = true → is_Some (pTable pt !! a)) →
  (∀ a, in_pages (2 ^ k) nv size a = true → pTable pt !! a = None) →
  ∃ pt', remap pt v size nv = Ok pt' ∧ pt_wf k pt' ∧
    ∀ a, pTable pt' !! a =
      if in_pages (2 ^ k) nv size a then pTable pt !! (v + (a - nv))
      else if in_pages (2 ^ k) v size a then None else pTable pt !! a.
Proof.
  intros Hwf Hv Hnv Hdis Hm Hn. pose proof Hwf as (Hk & Hps & Hmask & Hent). unfold remap.
  rewrite (region_offset_ok k pt v size), (region_offset_ok k pt nv size) by done.
  cbn [mbind res_bind assertb]. rewrite Hps.
  assert ((2 ^ k | nv - v)) as Hdiv.
  { destruct Hv as (_ & Hv & _), Hnv as (_ & Hnv & _).
    apply Z.divide_sub_r; apply Z.mod_divide; lia. }
  destruct (remap_loop_spec (Z.to_nat size) (2 ^ k) (pTable pt) v size nv) as (t & -> & Hl);
    [(apply region_loop_ok; [lia|assumption])..|lia|done|done|done|done|].
  eexists. split; [done|]. split; [|done]. split; [done|]. split; [done|]. split; [done|].
  simpl. intros a e. rewrite Hl. destruct (in_pages (2 ^ k) nv size a) eqn:E.
  - intros He. destruct (Hent _ _ He) as (? & ? & ? & ?).
    pose proof (in_pages_range _ _ _ _ E). destruct Hnv as (? & ? & ? & ?).
    unfold is_u64. split; [lia|]. split; [done|]. split; [|done].
    apply (region_page_aligned k nv size); [lia|done|done].
  - case_match; [done|]. apply Hent.
Qed.

(** Only the map itself changes. *)
Lemma map_frame pt v pa size fl pt' :
  map pt v pa size fl = Ok pt' → pt' = with_table pt (pTable pt').
Proof. unfold map. intros H. by inv_ok. Qed.

Lemma unmap_frame pt v size pt' : unmap pt v size = Ok pt' → pt' = with_table pt (pTable pt').
Proof. unfold unmap. intros H. by inv_ok. Qed.

Lemma remap_frame pt v size nv pt' :
  remap pt v size nv = Ok pt' → pt' = with_table pt (pTable pt').
Proof. unfold remap. intros H. by inv_ok. Qed.

(** The page of an address moves with the address. *)
Lemma page_shift k a v nv :
  0 ≤ k → v mod 2 ^ k = 0 → nv mod 2 ^ k = 0 →
  (v + (a - nv)) mod 2 ^ k = a mod 2 ^ k.
Proof.
  intros Hk Hv Hnv. pose proof (Z.pow_pos_nonneg 2 k ltac:(lia) Hk).
  rewrite <-Z.add_mod_idemp_l, Hv, Z.add_0_l by lia.
  rewrite Zminus_mod, Hnv, Z.sub_0_r. by apply Z.mod_mod; lia.
Qed.

(** Every mapped page translates inside the physical page. *)
Lemma translate_page k pt a pa :
  pt_wf k pt → is_u64 a → translate pt a = Some pa → pa mod 2 ^ k = a mod 2 ^ k ∧ is_u64 pa.
Proof.
  intros Hwf Ha Ht. assert (is_u64 pa) as Hpa.
  { unfold translate in Ht. destruct (lookup pt a); simplify_eq. apply u64_range. }
  split; [|done]. rewrite (translate_spec k) in Ht by done.
  apply fmap_Some in Ht as (e & He & ->). destruct Hwf as (Hk & _ & _ & Hent).
  destruct (Hent _ _ He) as (_ & _ & _ & Hm).
  assert (2 ^ k ≠ 0) by (pose proof (Z.pow_pos_nonneg 2 k); lia).
  rewrite <-Z.add_mod_idemp_l, Hm, Z.add_0_l by done. by apply Z.mod_mod.
Qed.

(** ** Checkpoints *)

Lemma serialize_loop_spec iter count cp :
  ∃ cp', serialize_loop count iter cp = (count + Z.of_nat (length iter), cp') ∧
    (∀ i, i < count → cp' !! i = cp !! i) ∧
    ∀ (j : nat) v e, iter !! j = Some (v, e) →
      cp' !! (count + Z.of_nat j) = Some (v, paddr e, flags e).
Proof.
  revert count cp. induction iter as [|[v e] iter IH]; intros count cp; cbn [serialize_loop].
  { exists cp. rewrite Z.add_0_r. split; [done|]. by split. }
  destruct (IH (count + 1) (<[count:=(v, paddr e, flags e)]> cp)) as (cp' & -> & Hlow & Hnew).
  exists cp'. split; [f_equal; cbn [length]; lia|]. split.
  - intros i Hi. rewrite Hlow by lia. by rewrite lookup_insert_ne by lia.
  - intros [|j] v' e' Hj; simpl in Hj; simplify_eq.
    + rewrite Z.add_0_r, Hlow by lia. by rewrite lookup_insert_eq.
    + rewrite <-(Hnew j v' e' Hj). f_equal. lia.
Qed.

Lemma unserialize_loop_spec cp iter n i (t : gmap Z Entry) :
  n = length iter → NoDup iter.*1 → (∀ v, v ∈ iter.*1 → t !! v = None) →
  (∀ (j : nat) v e, iter !! j = Some (v, e) →
     cp_entries cp !! (i + Z.of_nat j) = Some (v, paddr e, flags e)) →
  unserialize_loop n i cp t = Ok (list_to_map iter ∪ t).
Proof.
  revert n i t. induction iter as [|[v e] iter IH]; intros n i t -> Hnd Hfree Hcp; simpl.
  { by rewrite map_empty_union. }
  pose proof (Hcp 0%nat v e eq_refl) as H0. rewrite Z.add_0_r in H0. rewrite H0.
  simpl in Hnd. apply NoDup_cons in Hnd as [Hv Hnd].
  rewrite (Hfree v) by (simpl; left). replace (mkEntry (paddr e) (flags e)) with e by (by destruct e).
  rewrite (IH _ (i + 1) _ eq_refl Hnd).
  - f_equal. rewrite <-insert_union_r by (by apply not_elem_of_list_to_map).
    apply insert_union_l.
  - intros v' Hv'. rewrite lookup_insert_ne by (intros <-; done). apply Hfree. simpl. by right.
  - intros j v' e' Hj. rewrite <-(Hcp (S j) v' e' Hj). f_equal. lia.
Qed.

(** A region that is not free has a mapped page. *)
Lemma mapped_page ps v size (t : gmap Z Entry) :
  ¬ (∀ a, in_pages ps v size a = true → t !! a = None) →
  ∃ a, in_pages ps v size a = true ∧ is_Some (t !! a).
Proof.
  intros Hn. destruct (decide (map_Forall (λ a _, in_pages ps v size a = false) t)) as [Hall|Hex].
  - destruct Hn. intros a Ha. destruct (t !! a) eqn:E; [|done]. by rewrite (Hall _ _ E) in Ha.
  - apply map_not_Forall in Hex as (a & e & He & Hin); [|apply _].
    exists a. split; [by destruct (in_pages _ _ _ _)|by rewrite He].
Qed.

(** ** Theorems *)

(** [map] without the clobber flag succeeds exactly when [isUnmapped]
    says the region is free, and panics otherwise; when it returns, every
    address of the mapped pages translates to the same offset from the
    physical start and every other address translates as before. *)
Theorem map_translates k pt v pa size fl :
  pt_wf k pt → region_ok k v size → region_ok k pa size →
  ∃ free, isUnmapped pt v size = Ok free ∧
    if free || negb (Z.land fl Clobber =? 0) then
      ∃ pt', map pt v pa size fl = Ok pt' ∧ pt_wf k pt' ∧
        ∀ a, is_u64 a → translate pt' a =
          if in_pages (2 ^ k) v size (a - a mod 2 ^ k) then Some (pa + (a - v))
          else translate pt a
    else map pt v pa size fl = Err PanicFail.
Proof.
  intros Hwf Hv Hpa. destruct (isUnmapped_ok k pt v size Hwf Hv) as (b & -> & Hb).
  exists b. split; [done|]. destruct (b || negb (Z.land fl Clobber =? 0)) eqn:E.
  - destruct (map_ok k pt v pa size fl) as (pt' & -> & Hwf' & Hl); [done..| |].
    { bool_to_prop. destruct E; bool_to_prop; [right; by apply Hb|by left]. }
    exists pt'. split; [done|]. split; [done|]. intros a Ha.
    rewrite !(translate_spec k) by done. rewrite Hl. case_match; [|done]. simpl. f_equal. lia.
  - bool_to_prop. subst. pose proof Hwf as (Hk & Hps & _).
    assert (∃ a, in_pages (2 ^ k) v size a = true ∧ is_Some (pTable pt !! a)) as (a & Ha & Hs).
    { apply mapped_page. intros Hall. by apply Hb in Hall. }
    unfold map. rewrite (region_offset_ok k pt v size) by done. cbn [mbind res_bind assertb].
    rewrite Hps. rewrite (map_loop_panics _ _ _ _ _ _ _ a); try done.
    1,2: apply region_loop_ok; [lia|done].
Qed.

(** [unmap] of a fully mapped region removes exactly the translations of
    its pages; if one page of the region is not mapped it stops at the
    assertion. *)
Theorem unmap_removes_translations k pt v size :
  pt_wf k pt → region_ok k v size →
  ((∀ a, in_pages (2 ^ k) v size a = true → is_Some (pTable pt !! a)) →
   ∃ pt', unmap pt v size = Ok pt' ∧ pt_wf k pt' ∧
     ∀ a, is_u64 a → translate pt' a =
       if in_pages (2 ^ k) v size (a - a mod 2 ^ k) then None else translate pt a) ∧
  ((∃ a, in_pages (2 ^ k) v size a = true ∧ pTable pt !! a = None) →
   unmap pt v size = Err AssertFail).
Proof.
  intros Hwf Hv. pose proof Hwf as (Hk & Hps & _). split.
  - intros Hm. destruct (unmap_ok k pt v size Hwf Hv Hm) as (pt' & -> & Hwf' & Hl).
    exists pt'. split; [done|]. split; [done|]. intros a Ha.
    rewrite !(translate_spec k), Hl by done. by case_match.
  - intros (a & Ha & Hn). unfold unmap. rewrite (region_offset_ok k pt v size) by done.
    cbn [mbind res_bind assertb]. rewrite Hps.
    rewrite (unmap_loop_asserts _ _ _ _ _ a); try done.
    apply region_loop_ok; [lia|done].
Qed.

(** [remap] of a mapped region onto a free, disjoint one moves the
    translations: the new addresses translate to what the old ones did, the
    old ones no longer translate, all others are untouched. *)
Theorem remap_moves_translations k pt v size nv :
  pt_wf k pt → region_ok k v size → region_ok k nv size →
  v + size ≤ nv ∨ nv + size ≤ v →
  (∀ a, in_pages (2 ^ k) v size a = true → is_Some (pTable pt !! a)) →
  isUnmapped pt nv size = Ok true →
  ∃ pt', remap pt v size nv = Ok pt' ∧ pt_wf k pt' ∧
    ∀ a, is_u64 a → translate pt' a =
      if in_pages (2 ^ k) nv size (a - a mod 2 ^ k) then translate pt (v + (a - nv))
      else if in_pages (2 ^ k) v size (a - a mod 2 ^ k) then None else translate pt a.
Proof.
  intros Hwf Hv Hnv Hdis Hm Hfree. pose proof Hwf as (Hk & _).
  destruct (isUnmapped_ok k pt nv size Hwf Hnv) as (b & Hb & Hiff). rewrite Hfree in Hb.
  injection Hb as <-. destruct (remap_ok k pt v size nv) as (pt' & -> & Hwf' & Hl);
    [done..|by apply Hiff|].
  exists pt'. split; [done|]. split; [done|]. intros a Ha.
  rewrite (translate_spec k pt'), Hl by done.
  destruct (in_pages (2 ^ k) nv size (a - a mod 2 ^ k)) eqn:E.
  - pose proof (in_pages_range _ _ _ _ E). destruct Hv as (? & ? & ? & ?), Hnv as (? & ? & ? & ?).
    pose proof (Z.mod_pos_bound a (2 ^ k) ltac:(lia)).
    rewrite (translate_spec k) by (done || (unfold is_u64; lia)).
    rewrite (page_shift k a v nv) by (lia || done).
    by replace (v + (a - nv) - a mod 2 ^ k) with (v + (a - a mod 2 ^ k - nv)) by lia.
  - rewrite (translate_spec k pt) by done. by case_match.
Qed.

(** A request that stays inside a page either faults with its own
    address, when the page is not mapped, or gets the physical address at
    the same page offset; the check for a page crossing never fires on it.  A
    request that crosses a page boundary stops at the assertion. *)
Theorem request_translation k pt a size :
  pt_wf k pt → is_u64 a → 0 < size ≤ 2 ^ k → a + size ≤ 2 ^ 64 →
  if a mod 2 ^ k + size <=? 2 ^ k then
    translate_req pt a size = Ok (match translate pt a with Some pa => inr pa | None => inl a end) ∧
    (∀ pa, translate pt a = Some pa → pa mod 2 ^ k = a mod 2 ^ k ∧ is_u64 pa)
  else translate_req pt a size = Err AssertFail.
Proof.
  intros Hwf Ha Hs Hov. pose proof Hwf as (Hk & Hps & _). unfold is_u64 in Ha.
  assert (2 ^ k < 2 ^ 63) as Hk63 by (apply Z.pow_lt_mono_r; lia).
  pose proof (Z.mod_pos_bound a (2 ^ k) ltac:(lia)) as Hmb.
  pose proof (Z.div_mod a (2 ^ k) ltac:(lia)) as Hdm.
  unfold translate_req. rewrite (u64_small (a + size - 1)) by lia.
  rewrite !(pageAlign_spec k) by first [assumption | unfold is_u64; lia].
  destruct (Z.leb_spec (a mod 2 ^ k + size) (2 ^ k)) as [Hin|Hout].
  - assert ((a + size - 1) mod 2 ^ k = a mod 2 ^ k + size - 1) as ->.
    { symmetry. apply (Zmod_unique _ _ (a / 2 ^ k)); lia. }
    replace (a + size - 1 - (a mod 2 ^ k + size - 1) =? a - a mod 2 ^ k) with true by lia.
    cbn [mbind res_bind assertb]. split; [|by intros pa Hpa; apply (translate_page k pt a pa)].
    destruct (translate pt a) as [pa|] eqn:E; [|done].
    destruct (translate_page k pt a pa Hwf Ha E) as [Hm _].
    rewrite Hps, (u64_small (2 ^ k - 1)) by lia.
    replace (2 ^ k - 1) with (Z.ones k) by (rewrite Z.ones_equiv; lia).
    rewrite Z.land_ones, Hm, u64_small by lia.
    by rewrite (proj2 (Z.ltb_ge _ _)) by lia.
  - assert ((a + size - 1) mod 2 ^ k = a mod 2 ^ k + size - 1 - 2 ^ k) as ->.
    { symmetry. apply (Zmod_unique _ _ (a / 2 ^ k + 1)); lia. }
    by replace (a + size - 1 - (a mod 2 ^ k + size - 1 - 2 ^ k) =? a - a mod 2 ^ k) with false by lia.
Qed.

(** A page table saved to a checkpoint in any iteration order of the
    unordered map and restored into a freshly constructed table is the same
    table. *)
Theorem page_table_checkpoint pt iter pt0 :
  iter ≡ₚ map_to_list (pTable pt) → Z.of_nat (size (pTable pt)) < 2 ^ 31 →
  EmulationPageTable_new (pageSize pt) = Ok pt0 → offsetMask pt = offsetMask pt0 →
  ∃ cp, serialize pt iter = Ok cp ∧ unserialize cp pt0 = Ok pt.
Proof.
  intros Hperm Hsz Hnew Hmask. unfold serialize.
  destruct (serialize_loop_spec iter 0 ∅) as (es & -> & _ & Hes).
  assert (length iter = size (pTable pt)) as Hlen.
  { rewrite Hperm. by rewrite length_map_to_list. }
  rewrite Z.add_0_l, Hlen, Z.eqb_refl. cbn [mbind res_bind assertb].
  eexists. split; [done|]. unfold unserialize. cbn [cp_size]. rewrite s32_small by lia.
  rewrite (unserialize_loop_spec _ iter); [| | | |done].
  - simpl. unfold with_table. unfold EmulationPageTable_new in Hnew. inv_ok. simpl in *.
    rewrite map_union_empty. f_equal. destruct pt as [t ps om]. simpl in *. subst om. f_equal.
    rewrite <-(list_to_map_to_list t). apply list_to_map_proper; [|done].
    rewrite Hperm. apply NoDup_fst_map_to_list.
  - lia.
  - rewrite Hperm. apply NoDup_fst_map_to_list.
  - intros v _. unfold EmulationPageTable_new in Hnew. inv_ok. apply lookup_empty.
Qed.

(** ** A table with two pages of 4 KiB *)

Definition small_table : EmulationPageTable :=
  mkPageTable {[ 0x1000 := mkEntry 0x8000 0; 0x2000 := mkEntry 0x9000 0 ]} 4096 (Z.ones 12).

Lemma small_table_wf : pt_wf 12 small_table.
Proof.
  split; [lia|]. split; [done|]. split; [done|]. intros v e. unfold small_table; simpl.
  rewrite lookup_insert_Some, lookup_singleton_Some. unfold is_u64.
  intros [[<- <-]|[_ [<- <-]]]; vm_compute; repeat split; congruence.
Qed.

Lemma map_translates_witness :
  ∃ pt', map small_table 0x3000 0xa000 0x1800 0 = Ok pt' ∧
    translate pt' 0x4010 = Some 0xb010 ∧ translate pt' 0x2010 = Some 0x9010.
Proof.
  destruct (map_translates 12 small_table 0x3000 0xa000 0x1800 0 small_table_wf
    ltac:(repeat split; lia) ltac:(repeat split; lia)) as (free & Hf & H).
  assert (isUnmapped small_table 0x3000 0x1800 = Ok true) as E by (vm_compute; reflexivity).
  rewrite E in Hf. injection Hf as <-. destruct H as (pt' & Hm & _ & Ht).
  exists pt'. split; [exact Hm|]. rewrite !Ht by (unfold is_u64; lia).
  split; vm_compute; reflexivity.
Defined.

Lemma small_table_region : ∀ a, in_pages (2 ^ 12) 0x1000 0x2000 a = true →
  is_Some (pTable small_table !! a).
Proof.
  intros a Ha. rewrite (in_pages_step (2 ^ 12) 0x1000 0x2000) in Ha by lia.
  rewrite in_pages_step in Ha by lia. rewrite in_pages_empty, orb_false_r in Ha by lia.
  apply orb_true_iff in Ha as [Ha%Z.eqb_eq|Ha%Z.eqb_eq]; rewrite Ha; by eexists.
Qed.

Lemma unmap_removes_translations_witness :
  ∃ pt', unmap small_table 0x1000 0x2000 = Ok pt' ∧ translate pt' 0x1010 = None.
Proof.
  destruct (unmap_removes_translations 12 small_table 0x1000 0x2000 small_table_wf
    ltac:(repeat split; lia)) as [H _].
  destruct (H small_table_region) as (pt' & Hu & _ & Ht). exists pt'. split; [exact Hu|].
  rewrite Ht by (unfold is_u64; lia). vm_compute. reflexivity.
Defined.

Lemma remap_moves_translations_witness :
  ∃ pt', remap small_table 0x1000 0x2000 0x7000 = Ok pt' ∧
    translate pt' 0x8010 = Some 0x9010 ∧ translate pt' 0x2010 = None.
Proof.
  destruct (remap_moves_translations 12 small_table 0x1000 0x2000 0x7000 small_table_wf
    ltac:(repeat split; lia) ltac:(repeat split; lia) ltac:(lia) small_table_region)
    as (pt' & Hr & _ & Ht); [vm_compute; reflexivity|].
  exists pt'. split; [exact Hr|].
  split; (rewrite Ht by (unfold is_u64; lia)); vm_compute; reflexivity.
Defined.

Lemma request_translation_witness :
  translate_req small_table 0x1ff8 8 = Ok (inr 0x8ff8) ∧
  translate_req small_table 0x1ffc 8 = Err AssertFail.
Proof.
  pose proof (request_translation 12 small_table 0x1ff8 8 small_table_wf) as H1.
  destruct H1 as [H1 _]; [unfold is_u64; lia..|]. split.
  - rewrite H1. vm_compute. reflexivity.
  - exact (request_translation 12 small_table 0x1ffc 8 small_table_wf
      ltac:(unfold is_u64; lia) ltac:(lia) ltac:(lia)).
Defined.

Lemma page_table_checkpoint_witness :
  ∃ cp pt0, EmulationPageTable_new 4096 = Ok pt0 ∧
    serialize small_table (map_to_list (pTable small_table)) = Ok cp ∧
    unserialize cp pt0 = Ok small_table.
Proof.
  destruct (page_table_checkpoint small_table (map_to_list (pTable small_table))
    (mkPageTable ∅ 4096 (Z.ones 12))) as (cp & Hs & Hu);
    [reflexivity|vm_compute; reflexivity..|].
  exists cp, (mkPageTable ∅ 4096 (Z.ones 12)). split; [vm_compute; reflexivity|]. by split.
Defined.
End EPT.
