(* ===== verification/PhysAlloc.v ===== *)
(** * Physical page allocation with an NVM window ([sim/system.cc])

    The system hands out physical pages in syscall emulation mode through two
    bump pointers: [allocPhysPages] for volatile memory and
    [allocNVMPhysPages] for the NVM window at [NVM_START_ADDR].  The volatile
    pointer skips the window. *)

From S2P Require Import Prelude.
From S2P Require Import AddrRange.

Module Sys.

(** ** Definitions *)

Definition NVM_START_ADDR : Z := 0x30000000.
Definition NVM_END_ADDR : Z := 0x50000000.
Definition PageShift : Z := 12.
Definition PageBytes : Z := shl64 1 PageShift.

Record System := mkSystem {
  pagePtr : Z;
  pageNVMPtr : Z;
  m5opRange : AddrRange;
  totalSize : Z;  (** [physmem.totalSize()] *)
}.

Definition System_new (m5ops_base total : Z) : System :=
  mkSystem 0 0 (if m5ops_base =? 0 then mkAddrRange 1 0 [] 0 else RangeSize m5ops_base 0x10000)
    total.

Definition in_nvm_window (a : Z) : bool := (NVM_START_ADDR <=? a) && (a <=? NVM_END_ADDR).

(** The [while] loop of [allocPhysPages] on [return_addr] and [pagePtr];
    [next_return_addr] is [pagePtr << PageShift] at every test. *)
Fixpoint skip_loop (fuel : nat) (return_addr ptr : Z) : res (Z * Z) :=
  let next_return_addr := shl64 ptr PageShift in
  if in_nvm_window next_return_addr || in_nvm_window return_addr then
    match fuel with
    | O => Err Diverge
    | S fuel => skip_loop fuel next_return_addr (u64 (ptr + 1))
    end
  else Ok (return_addr, ptr).

(** One iteration per page of the window, and two more. *)
Definition skip_fuel : nat := Z.to_nat 0x20003.

Definition allocPhysPages (npages : Z) : stM System Z := λ s,
  let return_addr := shl64 (pagePtr s) PageShift in
  '(return_addr, ptr) ← skip_loop skip_fuel return_addr (u64 (pagePtr s + npages));
  let '(return_addr, ptr) :=
    if contains (m5opRange s) (shl64 ptr PageShift)
    then (0xffffffff, Z.shiftr 0xffffffff PageShift) else (return_addr, ptr) in
  fatal_if (totalSize s <? shl64 ptr PageShift);;
  Ok (return_addr, mkSystem ptr (pageNVMPtr s) (m5opRange s) (totalSize s)).

Definition allocNVMPhysPages (npages : Z) : stM System Z := λ s,
  let return_addr := u64 (shl64 (pageNVMPtr s) PageShift + NVM_START_ADDR) in
  Ok (return_addr,
      mkSystem (pagePtr s) (u64 (pageNVMPtr s + npages)) (m5opRange s) (totalSize s)).

Definition memSize (s : System) : Z := totalSize s.
Definition freeMemSize (s : System) : Z := u64 (totalSize s - shl64 (pagePtr s) PageShift).

(** The allocator part of a checkpoint is [pagePtr] alone. *)
Definition serialize (s : System) : Z := pagePtr s.
Definition unserialize (cp : Z) (s : System) : System :=
  mkSystem cp (pageNVMPtr s) (m5opRange s) (totalSize s).

(** ** Specification *)

(** Page numbers. *)
Definition nvm_page (p : Z) : Prop := 0x30000 ≤ p < 0x50000.

(** Between two calls the volatile pointer is below the window or above its
    end, and both pointers are page numbers. *)
Definition sys_inv (s : System) : Prop :=
  0 ≤ pagePtr s < 2 ^ 52 ∧ 0 ≤ pageNVMPtr s < 2 ^ 51 ∧
  (pagePtr s < 0x30000 ∨ 0x50000 < pagePtr s).

(** ** Proofs *)

Lemma shl12 p : 0 ≤ p < 2 ^ 52 → shl64 p PageShift = p * 4096.
Proof.
  intros Hp. unfold shl64, PageShift. rewrite Z.shiftl_mul_pow2 by lia.
  change (2 ^ 12) with 4096. apply u64_small. lia.
Qed.

Lemma in_window_page p :
  0 ≤ p < 2 ^ 52 → in_nvm_window (p * 4096) = (0x30000 <=? p) && (p <=? 0x50000).
Proof. intros Hp. unfold in_nvm_window, NVM_START_ADDR, NVM_END_ADDR. zcmp. Qed.

Lemma skip_loop_stops fuel r p :
  0 ≤ p < 2 ^ 52 → p < 0x30000 ∨ 0x50000 < p → in_nvm_window r = false →
  skip_loop fuel r p = Ok (r, p).
Proof.
  intros Hp Hw Hr. destruct fuel; cbn [skip_loop]; rewrite shl12, in_window_page, Hr by done;
    by replace ((0x30000 <=? p) && (p <=? 0x50000)) with false by zcmp.
Qed.

(** Once in the window the loop leaves it one page after its end. *)
Lemma skip_loop_leaves fuel r p :
  0x30000 ≤ p ≤ 0x50001 → p ≤ 0x50000 ∨ in_nvm_window r = true →
  (Z.to_nat (0x50002 - p) ≤ fuel)%nat →
  skip_loop fuel r p = Ok (0x50001000, 0x50002).
Proof.
  revert r p. induction fuel as [|fuel IH]; intros r p Hp Hin Hf; [lia|].
  cbn [skip_loop]. rewrite shl12, in_window_page by lia.
  destruct (Z.leb_spec p 0x50000).
  - rewrite (proj2 (Z.leb_le 0x30000 p)) by lia. simpl. rewrite u64_small by lia.
    apply IH; [lia| |lia]. right. rewrite in_window_page by lia. zcmp.
  - destruct Hin as [?|Hin]; [lia|]. rewrite Hin, orb_true_r.
    assert (p = 0x50001) as -> by lia. rewrite u64_small by lia.
    apply skip_loop_stops; [lia|lia|done].
Qed.

(** Where a request of [n] pages lands, and the next free page. *)
Definition alloc_target (p n : Z) : Z * Z :=
  if (0x30000 <=? p + n) && (p + n <=? 0x50000) then (0x50001, 0x50002) else (p, p + n).

Lemma allocPhysPages_spec s n :
  sys_inv s → 0 ≤ n < 2 ^ 31 → pagePtr s + n < 2 ^ 52 →
  let '(b, q) := alloc_target (pagePtr s) n in
  allocPhysPages n s =
    let '(a, q') := if contains (m5opRange s) (q * 4096) then (0xffffffff, 0xfffff)
                    else (b * 4096, q) in
    if totalSize s <? q' * 4096 then Err FatalFail
    else Ok (a, mkSystem q' (pageNVMPtr s) (m5opRange s) (totalSize s)).
Proof.
  intros (Hp & _ & Hw) Hn Hb. unfold allocPhysPages, alloc_target.
  rewrite (shl12 (pagePtr s)), u64_small by lia.
  assert (in_nvm_window (pagePtr s * 4096) = false) as Hret
    by (rewrite in_window_page by lia; zcmp).
  set (q := pagePtr s + n) in *.
  assert (skip_loop skip_fuel (pagePtr s * 4096) q =
    Ok (let '(b, q) := alloc_target (pagePtr s) n in (b * 4096, q)) ∧
    0 ≤ (alloc_target (pagePtr s) n).2 < 2 ^ 52) as [-> Hq].
  { unfold alloc_target. fold q. destruct ((0x30000 <=? q) && (q <=? 0x50000)) eqn:E.
    - bool_to_prop. split; [|simpl; lia]. apply skip_loop_leaves; [lia|lia|].
      unfold skip_fuel. lia.
    - split; [|simpl; lia]. apply skip_loop_stops; [lia| |done]. bool_to_prop.
      destruct E; bool_to_prop; lia. }
  cbn [mbind res_bind]. unfold alloc_target in *. fold q in Hq |- *.
  destruct ((0x30000 <=? q) && (q <=? 0x50000)); simpl in Hq; rewrite shl12 by done.
  all: (destruct (contains _ _); [change (Z.shiftr 0xffffffff PageShift) with 0xfffff|]);
    rewrite shl12 by lia; unfold fatal_if; case_match; done.
Qed.

Lemma allocNVMPhysPages_spec s n :
  sys_inv s → 0 ≤ n < 2 ^ 31 →
  allocNVMPhysPages n s =
    Ok ((0x30000 + pageNVMPtr s) * 4096,
        mkSystem (pagePtr s) (pageNVMPtr s + n) (m5opRange s) (totalSize s)).
Proof.
  intros (_ & Hp & _) Hn. unfold allocNVMPhysPages. rewrite shl12 by lia.
  unfold NVM_START_ADDR. rewrite !u64_small by lia. do 2 f_equal. lia.
Qed.

(** ** Sequences of allocations *)

(** A block of pages handed out: NVM or volatile, first page, length. *)
Record block := mkBlock { b_nvm : bool; b_page : Z; b_len : Z }.

Definition holds_page (b : block) (p : Z) : Prop := b_page b ≤ p < b_page b + b_len b.

(** A volatile request of several pages must end below the window or start
    above it; the number of pages is an [int]. *)
Definition vol_guard (s : System) (n : Z) : Prop :=
  0 ≤ n < 2 ^ 31 ∧ (n ≤ 1 ∨ pagePtr s + n < 0x30000 ∨ 0x50000 < pagePtr s).

Inductive alloc_trace : System → list block → System → Prop :=
| trace_nil s : alloc_trace s [] s
| trace_vol s n a s' l s'' :
    vol_guard s n → allocPhysPages n s = Ok (a, s') → alloc_trace s' l s'' →
    alloc_trace s (mkBlock false (a / 4096) n :: l) s''
| trace_nvm s n a s' l s'' :
    0 ≤ n ∧ pageNVMPtr s + n ≤ 0x20000 → allocNVMPhysPages n s = Ok (a, s') → alloc_trace s' l s'' →
    alloc_trace s (mkBlock true (a / 4096) n :: l) s''.

(** The memory ends below the m5ops region. *)
Definition mem_below_m5ops (s : System) : Prop :=
  totalSize s < 0xfffff000 ∧
  ∀ a, contains (m5opRange s) a = true → totalSize s < a.

Lemma alloc_vol_block s n a s' :
  sys_inv s → mem_below_m5ops s → vol_guard s n → pagePtr s * 4096 ≤ totalSize s →
  allocPhysPages n s = Ok (a, s') →
  a mod 4096 = 0 ∧ pagePtr s ≤ a / 4096 ∧ a / 4096 + n ≤ pagePtr s' ∧
  (∀ p, holds_page (mkBlock false (a / 4096) n) p → ¬ nvm_page p) ∧
  sys_inv s' ∧ mem_below_m5ops s' ∧ pageNVMPtr s' = pageNVMPtr s ∧
  pagePtr s' * 4096 ≤ totalSize s' ∧ totalSize s' = totalSize s ∧ m5opRange s' = m5opRange s.
Proof.
  intros Hinv Hm5 Hg Hmem. pose proof Hinv as (Hp & Hnv & Hw). pose proof Hm5 as [Htot Hm].
  assert (0 ≤ n < 2 ^ 31) as Hn by (by destruct Hg).
  assert (pagePtr s < 0x100000) by lia.
  pose proof (allocPhysPages_spec s n Hinv ltac:(lia) ltac:(lia)) as Hspec.
  destruct (alloc_target (pagePtr s) n) as [b q] eqn:Et. rewrite Hspec.
  destruct (contains (m5opRange s) (q * 4096)) eqn:Ec.
  { rewrite (proj2 (Z.ltb_lt _ _)) by lia. done. }
  destruct (Z.ltb_spec (totalSize s) (q * 4096)); [done|]. intros [= <- <-].
  rewrite Z.div_mul, Z.mod_mul by lia. simpl. unfold holds_page, nvm_page, sys_inv; simpl.
  unfold alloc_target in Et. case_match; simplify_eq; bool_to_prop;
    unfold vol_guard in Hg; repeat split; try done; try lia.
Qed.

Lemma alloc_nvm_block s n a s' :
  sys_inv s → 0 ≤ n → pageNVMPtr s + n ≤ 0x20000 → allocNVMPhysPages n s = Ok (a, s') →
  a = (0x30000 + pageNVMPtr s) * 4096 ∧
  s' = mkSystem (pagePtr s) (pageNVMPtr s + n) (m5opRange s) (totalSize s) ∧ sys_inv s'.
Proof.
  intros Hinv Hn Hb. pose proof Hinv as (? & ? & ?).
  rewrite allocNVMPhysPages_spec by (done || lia). intros [= <- <-].
  split; [done|]. split; [done|]. unfold sys_inv; simpl. repeat split; lia.
Qed.

(** What holds of each block of a trace from [s]. *)
Definition block_ok (s : System) (b : block) : Prop :=
  if b_nvm b then
    pageNVMPtr s + 0x30000 ≤ b_page b ∧ ∀ p, holds_page b p → nvm_page p
  else pagePtr s ≤ b_page b ∧ ∀ p, holds_page b p → ¬ nvm_page p.

Definition disjoint_blocks (b1 b2 : block) : Prop :=
  ∀ p, holds_page b1 p → holds_page b2 p → False.

Lemma block_ok_mono s s' b :
  pagePtr s ≤ pagePtr s' → pageNVMPtr s ≤ pageNVMPtr s' → block_ok s' b → block_ok s b.
Proof. unfold block_ok. intros ??. destruct (b_nvm b); intros [? ?]; split; (done || lia). Qed.

Lemma trace_blocks s l s'' :
  alloc_trace s l s'' → sys_inv s → mem_below_m5ops s → pagePtr s * 4096 ≤ totalSize s →
  Forall (block_ok s) l ∧
  ∀ i j b1 b2, (i < j)%nat → l !! i = Some b1 → l !! j = Some b2 → disjoint_blocks b1 b2.
Proof.
  assert (∀ (b : block) l,
    (∀ b', b' ∈ l → disjoint_blocks b b') →
    (∀ i j b1 b2, (i < j)%nat → l !! i = Some b1 → l !! j = Some b2 → disjoint_blocks b1 b2) →
    ∀ i j b1 b2, (i < j)%nat → (b :: l) !! i = Some b1 → (b :: l) !! j = Some b2 →
      disjoint_blocks b1 b2) as Hcons.
  { intros b l0 Hb Hl [|i] [|j] b1 b2 Hij H1 H2; try lia; simpl in *; simplify_eq.
    - apply Hb. by eapply list_elem_of_lookup_2.
    - apply (Hl i j); [lia|done|done]. }
  induction 1 as [s|s n a s' l s'' Hg Ha Ht IH|s n a s' l s'' Hn Ha Ht IH];
    intros Hinv Hm5 Hmem.
  { split; [constructor|]. intros i j b1 b2 _ H1. by rewrite lookup_nil in H1. }
  - destruct (alloc_vol_block _ _ _ _ Hinv Hm5 Hg Hmem Ha)
      as (_ & Hlo & Hhi & Hwin & Hinv' & Hm5' & Hnv & Hmem' & _).
    destruct (IH Hinv' Hm5' Hmem') as [Hall Hdis]. split.
    + apply Forall_cons. split; [by split|]. eapply Forall_impl; [exact Hall|]. intros b.
      apply block_ok_mono; [|lia]. destruct Hg; lia.
    + apply Hcons; [|done]. intros b Hb p Hp1 Hp2. rewrite Forall_forall in Hall.
      specialize (Hall b Hb). unfold block_ok in Hall. destruct (b_nvm b).
      * by apply (Hwin p), Hall.
      * destruct Hall as [Hge _]. unfold holds_page in *. simpl in *. lia.
  - destruct (alloc_nvm_block _ _ _ _ Hinv (proj1 Hn) (proj2 Hn) Ha) as (-> & -> & Hinv').
    destruct (IH Hinv' Hm5 Hmem) as [Hall Hdis]. rewrite Z.div_mul by lia.
    assert (∀ p, holds_page (mkBlock true (0x30000 + pageNVMPtr s) n) p → nvm_page p) as Hwin.
    { unfold holds_page, nvm_page; simpl. destruct Hinv as (_ & ? & _). lia. }
    split.
    + apply Forall_cons. split; [split; [simpl; lia|done]|]. eapply Forall_impl; [exact Hall|].
      intros b. apply block_ok_mono; simpl; lia.
    + apply Hcons; [|done]. intros b Hb p Hp1 Hp2. rewrite Forall_forall in Hall.
      specialize (Hall b Hb). unfold block_ok in Hall. destruct (b_nvm b).
      * destruct Hall as [Hge _]. unfold holds_page in *. simpl in *. lia.
      * destruct Hall as [_ Hnot]. by apply (Hnot p Hp2), Hwin.
Qed.

(** ** Theorems *)

(** What [allocPhysPages] returns, on every branch.  The skipping loop
    always ends; a request that would end in the NVM window is placed at page
    0x50001 instead, a pointer inside the m5ops region gives 0xffffffff, and
    running past the physical memory is a fatal error. *)
Theorem allocPhysPages_result s n :
  sys_inv s → 0 ≤ n < 2 ^ 31 → pagePtr s + n < 2 ^ 52 →
  let '(b, q) := if (0x30000 <=? pagePtr s + n) && (pagePtr s + n <=? 0x50000)
                 then (0x50001, 0x50002) else (pagePtr s, pagePtr s + n) in
  allocPhysPages n s =
    let '(a, q') := if contains (m5opRange s) (q * 4096) then (0xffffffff, 0xfffff)
                    else (b * 4096, q) in
    if totalSize s <? q' * 4096 then Err FatalFail
    else Ok (a, mkSystem q' (pageNVMPtr s) (m5opRange s) (totalSize s)).
Proof. exact (allocPhysPages_spec s n). Qed.

(** C15: take a new system whose memory ends below 0xfffff000 and below the
    m5ops region, which is absent or starts below 2^63, and any sequence of
    allocations of zero or more pages, a number that fits an [int], that
    succeed, in which a volatile request of more than one page ends below the
    NVM window or starts above it, and the NVM requests together fit in the
    window.  Then no physical page is handed out twice, every NVM block lies
    in the window and no volatile block touches it.  Without the two
    conditions on the requests pages can be handed out twice. *)
Theorem allocations_disjoint m5 total l s :
  0 ≤ total < 0xfffff000 → (m5 = 0 ∨ total < m5 < 2 ^ 63) →
  alloc_trace (System_new m5 total) l s →
  (∀ b, b ∈ l → ∀ p, holds_page b p → (b_nvm b = true ↔ nvm_page p)) ∧
  (∀ i j b1 b2 p, l !! i = Some b1 → l !! j = Some b2 →
     holds_page b1 p → holds_page b2 p → i = j).
Proof.
  intros Htot Hm5 Ht. destruct (trace_blocks _ _ _ Ht) as [Hall Hdis].
  - unfold sys_inv, System_new; simpl. lia.
  - split; simpl; [lia|]. intros a. rewrite contains_spec. unfold System_new; simpl.
    destruct Hm5 as [->|Hm5]; simpl; [lia|].
    rewrite (proj2 (Z.eqb_neq _ _)) by lia. simpl. lia.
  - simpl. lia.
  - split.
    + intros b Hb p Hp. rewrite Forall_forall in Hall. specialize (Hall b Hb).
      unfold block_ok in Hall. destruct (b_nvm b); destruct Hall as [_ Hall]; split; intros; first [done | by apply Hall | by destruct (Hall p Hp)].
    + intros i j b1 b2 p H1 H2 Hp1 Hp2. destruct (Nat.lt_total i j) as [Hlt|[?|Hgt]]; [|done|].
      * by destruct (Hdis i j b1 b2 Hlt H1 H2 p).
      * by destruct (Hdis j i b2 b1 Hgt H2 H1 p).
Qed.

Lemma allocations_disjoint_witness :
  (∀ b, b ∈ [mkBlock false 0 0x1ffff; mkBlock true 0x30000 2; mkBlock false 0x1ffff 1] →
     ∀ p, holds_page b p → (b_nvm b = true ↔ nvm_page p)) ∧
  (∀ i j b1 b2 p,
     [mkBlock false 0 0x1ffff; mkBlock true 0x30000 2; mkBlock false 0x1ffff 1] !! i = Some b1 →
     [mkBlock false 0 0x1ffff; mkBlock true 0x30000 2; mkBlock false 0x1ffff 1] !! j = Some b2 →
     holds_page b1 p → holds_page b2 p → i = j).
Proof.
  assert (alloc_trace (System_new 0xffff0000 0x60000000)
    [mkBlock false 0 0x1ffff; mkBlock true 0x30000 2; mkBlock false 0x1ffff 1]
    (mkSystem 0x20000 2 (mkAddrRange 0xffff0000 0x100000000 [] 0) 0x60000000)) as Ht.
  { eapply (trace_vol _ 0x1ffff 0); [split; simpl; lia|vm_compute; reflexivity|].
    eapply (trace_nvm _ 2 0x30000000); [simpl; lia|vm_compute; reflexivity|].
    eapply (trace_vol _ 1 0x1ffff000); [split; simpl; lia|vm_compute; reflexivity|]. constructor. }
  exact (allocations_disjoint 0xffff0000 0x60000000 _ _ ltac:(lia) ltac:(lia) Ht).
Defined.

Lemma allocPhysPages_result_witness :
  ∃ s', allocPhysPages 1 (mkSystem 0x2ffff 0 (mkAddrRange 1 0 [] 0) 0x80000000) =
    Ok (0x50001000, s').
Proof.
  eexists. refine (allocPhysPages_result (mkSystem 0x2ffff 0 (mkAddrRange 1 0 [] 0) 0x80000000) 1
    _ _ _); [unfold sys_inv; simpl; lia|lia|simpl; lia].
Defined.

(** C36: Three ways in which the allocator hands out the same physical memory
    twice.  A volatile request of four pages that reaches the window reserves
    a single page after it, so the next request overlaps it; NVM requests
    beyond the window return the pages of the volatile allocator; and a
    checkpoint does not save the NVM pointer, so a restored system hands out
    the NVM pages of the saved one again. *)
Theorem allocations_can_overlap :
  let sys p q := mkSystem p q (mkAddrRange 1 0 [] 0) 0x80000000 in
  (∃ s1 s2, allocPhysPages 4 (sys 0x2fffe 0) = Ok (0x50001000, s1) ∧
            allocPhysPages 1 s1 = Ok (0x50002000, s2)) ∧
  (∃ s1 s2, allocPhysPages 1 (sys 0x2ffff 0x20001) = Ok (0x50001000, s1) ∧
            allocNVMPhysPages 1 s1 = Ok (0x50001000, s2)) ∧
  (∃ s1 s2, allocNVMPhysPages 1 (sys 0 0) = Ok (0x30000000, s1) ∧
            allocNVMPhysPages 1 (unserialize (serialize s1) (sys 0 0)) = Ok (0x30000000, s2)).
Proof.
  split; [|split].
  - eexists _, _. split.
    + refine (allocPhysPages_spec (mkSystem 0x2fffe 0 (mkAddrRange 1 0 [] 0) 0x80000000) 4 _ _ _);
        [unfold sys_inv|..]; simpl; lia.
    + refine (allocPhysPages_spec (mkSystem 0x50002 0 (mkAddrRange 1 0 [] 0) 0x80000000) 1 _ _ _);
        [unfold sys_inv|..]; simpl; lia.
  - exists (mkSystem 0x50002 0x20001 (mkAddrRange 1 0 [] 0) 0x80000000). eexists. split.
    + refine (allocPhysPages_spec (mkSystem 0x2ffff 0x20001 (mkAddrRange 1 0 [] 0) 0x80000000) 1
        _ _ _); [unfold sys_inv|..]; simpl; lia.
    + vm_compute. reflexivity.
  - eexists _, _. split; vm_compute; reflexivity.
Qed.
End Sys.
