(* ===== verification/Vma.v ===== *)
(** * Virtual memory areas ([sim/vma.hh], [sim/vma.cc])

    A [VMA] is a page-aligned virtual range with an optional file mapped into
    the host behind it.  The host buffer pointer is the file offset of its
    first byte; the host's files, [fstat] and [mmap] are the parameter
    [Host]. *)

From S2P Require Import Prelude.
From S2P Require Import AddrRange.

Module Vma.

(** ** Definitions *)

(** What the operating system answers about an open file. *)
Record Host := mkHost {
  st_size : Z → Z;              (** size of the file behind a descriptor *)
  file_byte : Z → Z → Z;        (** its content *)
  mmap_ok : Z → Z → Z → bool;   (** whether [mmap(length, fd, offset)] succeeds *)
}.

Record VMA := mkVMA {
  addrRange : AddrRange;
  pageBytes : Z;
  origHostBuf : option Z;  (** the descriptor of the mapped file *)
  hostBuf : Z;
  hostBufLen : Z;
  vmaName : string;
}.

Definition start (v : VMA) : Z := r_start (addrRange v).
Definition end_ (v : VMA) : Z := r_end (addrRange v).
Definition hasHostBuf (v : VMA) : bool := bool_decide (origHostBuf v ≠ None).

Definition sanityCheck (v : VMA) : res unit :=
  assertb (negb (start v =? end_ v));;
  assertb (start v <? end_ v);;
  assertb (start v mod pageBytes v =? 0);;
  assertb (end_ v mod pageBytes v =? 0).

(** [MappedFileBuffer]: the length mapped.  The test on [fstat] never fires:
    the call returns 0 or -1. *)
Definition MappedFileBuffer (h : Host) (fd length offset : Z) : res Z :=
  panic_if (length =? 0);;
  panic_if (st_size h fd <? offset);;
  let len := Z.min (u64 (st_size h fd - offset)) length in
  if len =? 0 then Err PanicFail
  else panic_if (negb (mmap_ok h len fd offset));; Ok len.

Definition VMA_new (h : Host) (r : AddrRange) (page_bytes : Z) (name : string) (fd off : Z) :
    res VMA :=
  v ← (if negb (fd =? -1) then
         len ← MappedFileBuffer h fd (size r) off;
         Ok (mkVMA r page_bytes (Some fd) off len name)
       else Ok (mkVMA r page_bytes None 0 0 name));
  sanityCheck v;; Ok v.

Definition remap (v : VMA) (new_start : Z) : res VMA :=
  let v' := mkVMA (mkAddrRange new_start (u64 (new_start + size (addrRange v))) [] 0)
              (pageBytes v) (origHostBuf v) (hostBuf v) (hostBufLen v) (vmaName v) in
  sanityCheck v';; Ok v'.

(** The write [fillMemPages] asks of the port: address, file offset of the
    first byte and length. *)
Definition fillMemPages (v : VMA) (page : Z) : option (Z * Z * Z) :=
  let offset := u64 (page - start v) in
  if offset <? hostBufLen v
  then Some (page, hostBuf v + offset, Z.min (hostBufLen v - offset) (pageBytes v))
  else None.

Definition isStrictSuperset (v : VMA) (r : AddrRange) : bool :=
  (start v <? r_start r) && (r_end r <? end_ v).

Definition sliceRegionRight (v : VMA) (slice_addr : Z) : res VMA :=
  let len := if hasHostBuf v then Z.min (hostBufLen v) (u64 (slice_addr - start v))
             else hostBufLen v in
  let v' := mkVMA (mkAddrRange (start v) slice_addr [] 0) (pageBytes v) (origHostBuf v)
              (hostBuf v) len (vmaName v) in
  sanityCheck v';; Ok v'.

Definition sliceRegionLeft (v : VMA) (slice_addr : Z) : res VMA :=
  let overlap_len := u64 (slice_addr - start v) in
  let '(orig, buf, len) :=
    if hasHostBuf v then
      if hostBufLen v <=? overlap_len then (None, overlap_len, 0)
      else (origHostBuf v, hostBuf v + overlap_len, hostBufLen v - overlap_len)
    else (origHostBuf v, hostBuf v, hostBufLen v) in
  let v' := mkVMA (mkAddrRange slice_addr (end_ v) [] 0) (pageBytes v) orig buf len (vmaName v) in
  sanityCheck v';; Ok v'.

(** ** Specification *)

Definition vma_wf (v : VMA) : Prop :=
  0 < pageBytes v ∧ r_masks (addrRange v) = [] ∧ r_intlvMatch (addrRange v) = 0 ∧
  0 ≤ start v < end_ v ∧ end_ v < 2 ^ 64 ∧
  start v mod pageBytes v = 0 ∧ end_ v mod pageBytes v = 0 ∧ 0 ≤ hostBufLen v.

Definition covers (v : VMA) (a : Z) : Prop := start v ≤ a < end_ v.

(** The file byte behind an address: descriptor and file offset. *)
Definition backing (v : VMA) (a : Z) : option (Z * Z) :=
  match origHostBuf v with
  | Some fd => if a - start v <? hostBufLen v then Some (fd, hostBuf v + (a - start v)) else None
  | None => None
  end.

(** ** Proofs *)

(** Side conditions about the bounds of a concrete area. *)
Ltac vma_arith := first [done | unfold start, end_ in *; simpl in *; lia].

Lemma sanityCheck_ok v :
  0 ≤ start v < end_ v → start v mod pageBytes v = 0 → end_ v mod pageBytes v = 0 →
  sanityCheck v = Ok tt.
Proof.
  intros H1 H2 H3. unfold sanityCheck.
  rewrite (proj2 (Z.eqb_neq (start v) (end_ v))), (proj2 (Z.ltb_lt (start v) (end_ v))), H2, H3
    by lia. done.
Qed.

Lemma sanityCheck_inv v :
  sanityCheck v = Ok tt →
  start v < end_ v ∧ start v mod pageBytes v = 0 ∧ end_ v mod pageBytes v = 0.
Proof. unfold sanityCheck. intros H. inv_ok. bool_to_prop. lia. Qed.

Lemma sliceRegionRight_ok v s :
  vma_wf v → start v < s ≤ end_ v → s mod pageBytes v = 0 →
  ∃ v', sliceRegionRight v s = Ok v' ∧ vma_wf v' ∧ pageBytes v' = pageBytes v ∧
    start v' = start v ∧ end_ v' = s ∧
    ∀ a, start v ≤ a < s → backing v' a = backing v a.
Proof.
  intros (Hp & Hm & Hmt & Hr & Hb & Hs & He & Hl) Hsl Hal. unfold sliceRegionRight.
  rewrite sanityCheck_ok by vma_arith. simpl. eexists. split; [reflexivity|].
  rewrite u64_small by (unfold start, end_ in *; lia).
  split.
  { unfold vma_wf, start, end_ in *; simpl. repeat split; try done; try lia. case_if; lia. }
  split; [done|]. split; [done|]. split; [done|]. intros a Ha.
  unfold backing, hasHostBuf, start in *; simpl.
  destruct (origHostBuf v) as [fd|]; [|done]. simpl.
  destruct (Z.ltb_spec (a - r_start (addrRange v)) (hostBufLen v));
    [rewrite (proj2 (Z.ltb_lt _ _)) by lia|rewrite (proj2 (Z.ltb_ge _ _)) by lia]; done.
Qed.

Lemma sliceRegionLeft_ok v s :
  vma_wf v → start v ≤ s < end_ v → s mod pageBytes v = 0 →
  ∃ v', sliceRegionLeft v s = Ok v' ∧ vma_wf v' ∧ pageBytes v' = pageBytes v ∧
    start v' = s ∧ end_ v' = end_ v ∧
    ∀ a, s ≤ a < end_ v → backing v' a = backing v a.
Proof.
  intros (Hp & Hm & Hmt & Hr & Hb & Hs & He & Hl) Hsl Hal. unfold sliceRegionLeft.
  rewrite u64_small by (unfold start, end_ in *; lia). unfold hasHostBuf.
  destruct (origHostBuf v) as [fd|] eqn:Eo; simpl.
  - destruct (Z.leb_spec (hostBufLen v) (s - start v)) as [Hle|Hgt];
      rewrite sanityCheck_ok by vma_arith; simpl; eexists; (split; [reflexivity|]);
      (split; [unfold vma_wf, start, end_ in *; simpl; repeat split; (done || lia)|]);
      (split; [done|]); (split; [done|]); (split; [done|]); intros a Ha;
      unfold backing; rewrite Eo; simpl.
    + unfold start in *. rewrite (proj2 (Z.ltb_ge _ _)) by lia. done.
    + unfold start in *. simpl.
      replace (a - s <? hostBufLen v - (s - r_start (addrRange v)))
        with (a - r_start (addrRange v) <? hostBufLen v) by lia.
      case_match; [|done]. do 2 f_equal. lia.
  - rewrite sanityCheck_ok by vma_arith. simpl. eexists. split; [reflexivity|].
    split; [unfold vma_wf, start, end_ in *; simpl; repeat split; (done || lia)|].
    split; [done|]. split; [done|]. split; [done|]. intros a Ha. unfold backing; simpl.
    by rewrite Eo.
Qed.

Lemma remap_vma_ok v ns :
  vma_wf v → 0 ≤ ns → ns mod pageBytes v = 0 → ns + (end_ v - start v) < 2 ^ 64 →
  ∃ v', remap v ns = Ok v' ∧ vma_wf v' ∧ pageBytes v' = pageBytes v ∧
    start v' = ns ∧ end_ v' = ns + (end_ v - start v) ∧
    ∀ a, covers v' a → backing v' a = backing v (start v + (a - ns)).
Proof.
  intros (Hp & Hm & Hmt & Hr & Hb & Hs & He & Hl) Hns Hal Hov. unfold remap.
  assert (size (addrRange v) = end_ v - start v) as Hsz.
  { unfold size. rewrite Hm. unfold start, end_ in *. simpl. rewrite Z.shiftr_0_r.
    apply u64_small. lia. }
  rewrite Hsz, (u64_small (ns + _)) by lia.
  assert ((ns + (end_ v - start v)) mod pageBytes v = 0) as Hmod.
  { rewrite <-Z.add_mod_idemp_l, Hal, Z.add_0_l, Zminus_mod, Hs, He by lia.
    by rewrite Z.mod_0_l by lia. }
  rewrite sanityCheck_ok by vma_arith.
  simpl. eexists. split; [reflexivity|].
  split; [unfold vma_wf, start, end_ in *; simpl; repeat split; (done || lia)|].
  split; [done|]. split; [done|]. split; [done|]. intros a Ha. unfold backing; simpl.
  unfold start in *; simpl.
  replace (r_start (addrRange v) + (a - ns) - r_start (addrRange v)) with (a - ns) by lia. done.
Qed.

(** ** Theorems *)

(** Cutting a well-formed area at a page boundary inside it yields two
    well-formed areas that meet at the cut, and every address keeps the file
    byte it had behind it, also where the file is shorter than the area. *)
Theorem slices_partition v s :
  vma_wf v → start v < s < end_ v → s mod pageBytes v = 0 →
  ∃ l r, sliceRegionRight v s = Ok l ∧ sliceRegionLeft v s = Ok r ∧
    vma_wf l ∧ vma_wf r ∧
    (∀ a, covers v a ↔ covers l a ∨ covers r a) ∧ (∀ a, ¬ (covers l a ∧ covers r a)) ∧
    (∀ a, covers l a → backing l a = backing v a) ∧
    (∀ a, covers r a → backing r a = backing v a).
Proof.
  intros Hwf Hs Hal.
  destruct (sliceRegionRight_ok v s Hwf ltac:(lia) Hal) as (l & -> & Hl & _ & Hl1 & Hl2 & Hlb).
  destruct (sliceRegionLeft_ok v s Hwf ltac:(lia) Hal) as (r & -> & Hr & _ & Hr1 & Hr2 & Hrb).
  exists l, r. split; [done|]. split; [done|]. split; [done|]. split; [done|].
  unfold covers. rewrite Hl1, Hl2, Hr1, Hr2. split; [lia|]. split; [lia|].
  by split.
Qed.

Definition sample_vma : VMA :=
  mkVMA (mkAddrRange 0x10000 0x14000 [] 0) 4096 (Some 3) 0x200 0x2800 "file".

Lemma sample_vma_wf : vma_wf sample_vma.
Proof. repeat split; vm_compute; congruence. Qed.

Lemma slices_partition_witness :
  ∃ l r, sliceRegionRight sample_vma 0x13000 = Ok l ∧ sliceRegionLeft sample_vma 0x13000 = Ok r ∧
    backing l 0x12004 = Some (3, 0x2204) ∧ backing r 0x13004 = None.
Proof.
  destruct (slices_partition sample_vma 0x13000 sample_vma_wf ltac:(vm_compute; by split)
    ltac:(reflexivity)) as (l & r & Hl & Hr & _ & _ & Hcov & _ & Hbl & Hbr).
  exists l, r. split; [exact Hl|]. split; [exact Hr|].
  vm_compute in Hl, Hr. injection Hl as <-. injection Hr as <-.
  split; vm_compute; reflexivity.
Defined.
End Vma.
