(* ===== verification/MemState.v ===== *)
(** * Process memory ([sim/process.cc], [sim/mem_state.cc], [mem/*port_proxy.cc])

    The memory side of an emulated process: its page table, its list of
    virtual memory areas, the demand paging of [fixupFault], and the port
    proxies that copy data through the page table.  The functional TLB keeps
    no state of its own ([arch/x86/tlb.cc], [translateFunctional]), so the
    flushes of [unmapRegion] and [remapRegion] leave the model unchanged. *)

From S2P Require Import Prelude.
From S2P Require Import Intmath.
From S2P Require Import Bytes.
From S2P Require Import AddrRange.
From S2P Require Import ChunkGenerator.
From S2P Require Import PageTable.
From S2P Require Import PhysAlloc.
From S2P Require Import Vma.

Module Proc.

(** ** State *)

Record MemState := mkMemState {
  pageBytes : Z;
  brkPoint : Z;
  stackBase : Z;
  stackSize : Z;
  maxStackSize : Z;
  stackMin : Z;
  nextThreadStackBase : Z;
  mmapEnd : Z;
  endBrkPoint : Z;
  vmaList : list Vma.VMA;
}.

Record Process := mkProcess {
  system : Sys.System;
  pTable : EPT.EmulationPageTable;
  memState : MemState;
  contextIds : list Z;
  mem : gmap Z Z;  (** the bytes of physical memory; absent ones are zero *)
}.

Definition MemState_new (page brk_point stack_base max_stack next_base mmap_end : Z) : MemState :=
  mkMemState page brk_point stack_base max_stack max_stack (u64 (stack_base - max_stack))
    next_base mmap_end brk_point [].

Definition set_system (s : Sys.System) (p : Process) : Process :=
  mkProcess s (pTable p) (memState p) (contextIds p) (mem p).
Definition set_pTable (t : EPT.EmulationPageTable) (p : Process) : Process :=
  mkProcess (system p) t (memState p) (contextIds p) (mem p).
Definition set_memState (m : MemState) (p : Process) : Process :=
  mkProcess (system p) (pTable p) m (contextIds p) (mem p).
Definition set_mem (m : gmap Z Z) (p : Process) : Process :=
  mkProcess (system p) (pTable p) (memState p) (contextIds p) m.
Definition set_vmaList (l : list Vma.VMA) (m : MemState) : MemState :=
  mkMemState (pageBytes m) (brkPoint m) (stackBase m) (stackSize m) (maxStackSize m) (stackMin m)
    (nextThreadStackBase m) (mmapEnd m) (endBrkPoint m) l.
Definition set_brk (brk endbrk : Z) (m : MemState) : MemState :=
  mkMemState (pageBytes m) brk (stackBase m) (stackSize m) (maxStackSize m) (stackMin m)
    (nextThreadStackBase m) (mmapEnd m) endbrk (vmaList m).
Definition set_stackMin (s : Z) (m : MemState) : MemState :=
  mkMemState (pageBytes m) (brkPoint m) (stackBase m) (stackSize m) (maxStackSize m) s
    (nextThreadStackBase m) (mmapEnd m) (endBrkPoint m) (vmaList m).
Definition set_mmapEnd (e : Z) (m : MemState) : MemState :=
  mkMemState (pageBytes m) (brkPoint m) (stackBase m) (stackSize m) (maxStackSize m) (stackMin m)
    (nextThreadStackBase m) e (endBrkPoint m) (vmaList m).

(** ** [Process::allocateMem] *)

Definition allocateMem (vaddr size : Z) (clobber : bool) : stM Process unit := λ p,
  let npages := s32 (divCeil size Sys.PageBytes) in
  '(paddr, s) ← (if (Sys.NVM_START_ADDR <=? vaddr) && (vaddr <=? Sys.NVM_END_ADDR)
                 then Sys.allocNVMPhysPages npages (system p)
                 else Sys.allocPhysPages npages (system p));
  t ← EPT.map (pTable p) vaddr paddr size (if clobber then EPT.Clobber else 0);
  Ok (tt, set_pTable t (set_system s p)).

(** [Process::map] *)
Definition map (vaddr paddr size : Z) (cacheable : bool) : stM Process bool := λ p,
  t ← EPT.map (pTable p) vaddr paddr size (if cacheable then 0 else EPT.Uncacheable);
  Ok (true, set_pTable t p).

(** ** Port proxies *)

Inductive AllocType := Always | Never | NextPage.
Inductive Mode := Read | Write | Execute.

Section proxies.
Context (h : Vma.Host) (cacheLineSize : Z).

Fixpoint writePhys_loop (cs : list (Z * Z * Z)) (p : list Z) (m : gmap Z Z) : gmap Z Z :=
  match cs with
  | [] => m
  | (a, n, _) :: cs =>
      writePhys_loop cs (drop (Z.to_nat n) p) (mem_write m a (take (Z.to_nat n) p))
  end.

Definition writeBlobPhys (a : Z) (p : list Z) : stM Process unit := λ s,
  cs ← chunks a (Z.of_nat (length p)) cacheLineSize;
  Ok (tt, set_mem (writePhys_loop cs p (mem s)) s).

Fixpoint readPhys_loop (cs : list (Z * Z * Z)) (m : gmap Z Z) : list Z :=
  match cs with
  | [] => []
  | (a, n, _) :: cs => mem_read m a (Z.to_nat n) ++ readPhys_loop cs m
  end.

Definition readBlobPhys (a size : Z) : stM Process (list Z) := λ s,
  cs ← chunks a size cacheLineSize; Ok (readPhys_loop cs (mem s), s).

(** [TLB::translateFunctional] in syscall emulation mode; [fixup] is
    [Process::fixupFault]. *)
Definition translateFunctional (fixup : Z → stM Process bool) (vaddr : Z) (mode : Mode) :
    stM Process (option Z) :=
  p ← get_st;
  pte ← match EPT.lookup (pTable p) vaddr, mode with
        | None, (Read | Write) =>
            b ← fixup vaddr;
            if b : bool then p ← get_st; mret (EPT.lookup (pTable p) vaddr) else mret None
        | o, _ => mret o
        end;
  p ← get_st;
  mret (match pte with
        | None => None
        | Some e => Some (Z.lor (EPT.paddr e) (EPT.pageOffset (pTable p) vaddr))
        end).

(** Both lookups use the data TLB. *)
Definition tryTLBsOnce (fixup : Z → stM Process bool) (vaddr : Z) (mode : Mode) :
    stM Process (option Z) :=
  o ← translateFunctional fixup vaddr mode;
  match o with Some pa => mret (Some pa) | None => translateFunctional fixup vaddr Read end.

Definition fixupAddr (fixup : Z → stM Process bool) (alloc : AllocType) (addr : Z) (mode : Mode) :
    stM Process bool :=
  match mode, alloc with
  | Write, Always =>
      page ← lift (roundDown addr Sys.PageBytes);
      allocateMem page Sys.PageBytes false;; mret true
  | Write, NextPage => fixup addr
  | _, _ => mret false
  end.

Definition tryTLBs (fixup : Z → stM Process bool) (alloc : AllocType) (vaddr : Z) (mode : Mode) :
    stM Process (option Z) :=
  o ← tryTLBsOnce fixup vaddr mode;
  match o with
  | Some pa => mret (Some pa)
  | None =>
      b ← fixupAddr fixup alloc vaddr mode;
      if b : bool then tryTLBsOnce fixup vaddr mode else mret None
  end.

Fixpoint writeBlob_loop (fixup : Z → stM Process bool) (alloc : AllocType)
    (cs : list (Z * Z * Z)) (p : list Z) : stM Process bool :=
  match cs with
  | [] => mret true
  | (a, n, _) :: cs =>
      o ← tryTLBs fixup alloc a Write;
      match o with
      | None => mret false
      | Some pa =>
          writeBlobPhys pa (take (Z.to_nat n) p);;
          writeBlob_loop fixup alloc cs (drop (Z.to_nat n) p)
      end
  end.

Definition tryWriteBlob (fixup : Z → stM Process bool) (alloc : AllocType) (addr : Z)
    (p : list Z) : stM Process bool :=
  cs ← lift (chunks addr (Z.of_nat (length p)) Sys.PageBytes);
  writeBlob_loop fixup alloc cs p.

Fixpoint readBlob_loop (fixup : Z → stM Process bool) (alloc : AllocType)
    (cs : list (Z * Z * Z)) : stM Process (option (list Z)) :=
  match cs with
  | [] => mret (Some [])
  | (a, n, _) :: cs =>
      o ← tryTLBs fixup alloc a Read;
      match o with
      | None => mret None
      | Some pa =>
          l ← readBlobPhys pa n;
          r ← readBlob_loop fixup alloc cs;
          mret (match r with Some r => Some (l ++ r) | None => None end)
      end
  end.

Definition tryReadBlob (fixup : Z → stM Process bool) (alloc : AllocType) (addr size : Z) :
    stM Process (option (list Z)) :=
  cs ← lift (chunks addr size Sys.PageBytes);
  readBlob_loop fixup alloc cs.

Definition tryMemsetBlob (fixup : Z → stM Process bool) (alloc : AllocType) (addr v size : Z) :
    stM Process bool :=
  tryWriteBlob fixup alloc addr (replicate (Z.to_nat size) v).

(** [writeBlob]: a failure is fatal. *)
Definition writeBlob (fixup : Z → stM Process bool) (alloc : AllocType) (addr : Z)
    (p : list Z) : stM Process unit :=
  b ← tryWriteBlob fixup alloc addr p;
  lift (fatal_if (negb b)).

(** ** [MemState] *)

Definition vma_intersects (v : Vma.VMA) (r : AddrRange) : res bool :=
  intersects (Vma.addrRange v) r.

Fixpoint any_intersects (l : list Vma.VMA) (r : AddrRange) : res bool :=
  match l with
  | [] => Ok false
  | v :: l => b ← vma_intersects v r; if b : bool then Ok true else any_intersects l r
  end.

Fixpoint no_page_loop (fuel : nat) (t : EPT.EmulationPageTable) (pb start end_addr : Z) :
    res bool :=
  if start <? end_addr then
    match fuel with
    | O => Err Diverge
    | S fuel =>
        match EPT.lookup t start with
        | Some _ => Err PanicFail
        | None => no_page_loop fuel t pb (u64 (start + pb)) end_addr
        end
    end
  else Ok true.

Definition isUnmapped (p : Process) (start_addr length : Z) : res bool :=
  let end_addr := u64 (start_addr + length) in
  b ← any_intersects (vmaList (memState p)) (mkAddrRange start_addr end_addr [] 0);
  if b : bool then Ok false
  else no_page_loop (Z.to_nat length) (pTable p) (pageBytes (memState p)) start_addr end_addr.

Definition mapRegion (start_addr length : Z) (name : string) (sim_fd offset : Z) :
    stM Process unit := λ p,
  b ← isUnmapped p start_addr length;
  assertb b;;
  v ← Vma.VMA_new h (mkAddrRange start_addr (u64 (start_addr + length)) [] 0)
        (pageBytes (memState p)) name sim_fd offset;
  Ok (tt, set_memState (set_vmaList (vmaList (memState p) ++ [v]) (memState p)) p).

Definition updateBrkRegion (old_brk new_brk : Z) : stM Process unit := λ p,
  let m := memState p in
  if new_brk <? old_brk then Ok (tt, set_memState (set_brk new_brk (endBrkPoint m) m) p)
  else
    page_aligned_brk ← roundUp new_brk (pageBytes m);
    if endBrkPoint m <? page_aligned_brk then
      let length := u64 (page_aligned_brk - endBrkPoint m) in
      free ← isUnmapped p (endBrkPoint m) length;
      if free : bool then
        '(_, p) ← mapRegion (endBrkPoint m) length "heap" (-1) 0 p;
        Ok (tt, set_memState (set_brk new_brk page_aligned_brk (memState p)) p)
      else Ok (tt, p)
    else Ok (tt, set_memState (set_brk new_brk (endBrkPoint m) m) p).

(** The walk of [unmapRegion] over the list: the areas already passed, then
    the ones to come; a split appends at the end of the list. *)
Fixpoint unmap_vmas (start_addr end_addr : Z) (passed rest : list Vma.VMA) :
    res (list Vma.VMA) :=
  let range := mkAddrRange start_addr end_addr [] 0 in
  match rest with
  | [] => Ok passed
  | v :: rest =>
      if Vma.isStrictSuperset v range then
        right ← Vma.sliceRegionRight v start_addr;
        left ← Vma.sliceRegionLeft v end_addr;
        Ok (passed ++ left :: rest ++ [right])
      else
        sub ← isSubset (Vma.addrRange v) range;
        if sub : bool then unmap_vmas start_addr end_addr passed rest
        else
          b ← vma_intersects v range;
          if b : bool then
            v' ← (if Vma.start v <? start_addr then Vma.sliceRegionRight v start_addr
                  else Vma.sliceRegionLeft v end_addr);
            unmap_vmas start_addr end_addr (passed ++ [v']) rest
          else unmap_vmas start_addr end_addr (passed ++ [v]) rest
  end.

(** [do { ... } while (length > 0)] over the pages. *)
Fixpoint unmap_pages (fuel : nat) (t : EPT.EmulationPageTable) (pb start_addr length : Z) :
    res EPT.EmulationPageTable :=
  match fuel with
  | O => Err Diverge
  | S fuel =>
      free ← EPT.isUnmapped t start_addr pb;
      t' ← (if free : bool then Ok t else EPT.unmap t start_addr pb);
      let length := u64 (length - pb) in
      if 0 <? length then unmap_pages fuel t' pb (u64 (start_addr + pb)) length else Ok t'
  end.

(** A page-aligned length needs one iteration per page. *)
Definition page_fuel (pb length : Z) : nat := S (Z.to_nat (length / pb)).

Definition unmapRegion (start_addr length : Z) : stM Process unit := λ p,
  let m := memState p in
  let end_addr := u64 (start_addr + length) in
  l ← unmap_vmas start_addr end_addr [] (vmaList m);
  t ← unmap_pages (page_fuel (pageBytes m) length) (pTable p) (pageBytes m) start_addr length;
  Ok (tt, set_pTable t (set_memState (set_vmaList l m) p)).

Fixpoint remap_vmas (fuel : nat) (start_addr new_start_addr end_addr : Z)
    (passed rest : list Vma.VMA) : res (list Vma.VMA) :=
  let range := mkAddrRange start_addr end_addr [] 0 in
  match rest with
  | [] => Ok passed
  | v :: rest =>
      match fuel with
      | O => Err Diverge
      | S fuel =>
          if Vma.isStrictSuperset v range then
            c1 ← Vma.sliceRegionRight v start_addr;
            c2 ← Vma.sliceRegionLeft v end_addr;
            v1 ← Vma.sliceRegionLeft v start_addr;
            v2 ← Vma.sliceRegionRight v1 end_addr;
            v3 ← Vma.remap v2 new_start_addr;
            Ok (passed ++ v3 :: rest ++ [c1; c2])
          else
            sub ← isSubset (Vma.addrRange v) range;
            if sub : bool then
              v' ← Vma.remap v (u64 (Vma.start v - start_addr + new_start_addr));
              remap_vmas fuel start_addr new_start_addr end_addr (passed ++ [v']) rest
            else
              b ← vma_intersects v range;
              if b : bool then
                if Vma.start v <? start_addr then
                  c ← Vma.sliceRegionRight v start_addr;
                  v1 ← Vma.sliceRegionLeft v start_addr;
                  v2 ← Vma.remap v1 new_start_addr;
                  remap_vmas fuel start_addr new_start_addr end_addr (passed ++ [v2]) (rest ++ [c])
                else
                  c ← Vma.sliceRegionLeft v end_addr;
                  v1 ← Vma.sliceRegionRight v end_addr;
                  v2 ← Vma.remap v1 (u64 (new_start_addr + Vma.start v1 - start_addr));
                  remap_vmas fuel start_addr new_start_addr end_addr (passed ++ [v2]) (rest ++ [c])
              else remap_vmas fuel start_addr new_start_addr end_addr (passed ++ [v]) rest
      end
  end.

Fixpoint remap_pages (fuel : nat) (t : EPT.EmulationPageTable)
    (pb start_addr new_start_addr length : Z) : res EPT.EmulationPageTable :=
  match fuel with
  | O => Err Diverge
  | S fuel =>
      free ← EPT.isUnmapped t start_addr pb;
      t' ← (if free : bool then Ok t else EPT.remap t start_addr pb new_start_addr);
      let length := u64 (length - pb) in
      if 0 <? length
      then remap_pages fuel t' pb (u64 (start_addr + pb)) (u64 (new_start_addr + pb)) length
      else Ok t'
  end.

(** Every area of the list adds at most one more to the walk. *)
Definition remapRegion (start_addr new_start_addr length : Z) : stM Process unit := λ p,
  let m := memState p in
  let end_addr := u64 (start_addr + length) in
  l ← remap_vmas (2 * List.length (vmaList m)) start_addr new_start_addr end_addr [] (vmaList m);
  t ← remap_pages (page_fuel (pageBytes m) length) (pTable p) (pageBytes m) start_addr
        new_start_addr length;
  Ok (tt, set_pTable t (set_memState (set_vmaList l m) p)).

(** ** Demand paging *)

Fixpoint fill_contexts (fixup : Z → stM Process bool) (cids : list Z) (v : Vma.VMA) (page : Z) :
    stM Process unit :=
  match cids with
  | [] => mret tt
  | _ :: cids =>
      match Vma.origHostBuf v, Vma.fillMemPages v page with
      | Some fd, Some (a, off, n) =>
          writeBlob fixup Always a
            ((λ i, Vma.file_byte h fd (off + Z.of_nat i)) <$> seq 0 (Z.to_nat n))
      | _, _ => mret tt
      end;;
      fill_contexts fixup cids v page
  end.

Fixpoint grow_stack (fuel : nat) (vaddr : Z) : stM Process unit := λ p,
  let m := memState p in
  if vaddr <? stackMin m then
    match fuel with
    | O => Err Diverge
    | S fuel =>
        let s := u64 (stackMin m - pageBytes m) in
        fatal_if (maxStackSize m <? u64 (stackBase m - s));;
        '(_, p) ← allocateMem s (pageBytes m) false (set_memState (set_stackMin s m) p);
        grow_stack fuel vaddr p
    end
  else Ok (tt, p).

(** [fixupFault] with [fixup] for the nested call that [fillMemPages] would
    make if its page were still missing. *)
Definition fixupFault_with (fixup : Z → stM Process bool) (vaddr : Z) : stM Process bool := λ p,
  let m := memState p in
  match list_find (λ v, contains (Vma.addrRange v) vaddr = true) (vmaList m) with
  | Some (_, v) =>
      page ← roundDown vaddr (pageBytes m);
      '(_, p) ← allocateMem page (pageBytes m) false p;
      '(_, p) ← (if Vma.hasHostBuf v then fill_contexts fixup (contextIds p) v page p
                 else Ok (tt, p));
      Ok (true, p)
  | None =>
      if (stackMin m <=? vaddr) && (vaddr <? stackBase m) then
        page ← roundDown vaddr (pageBytes m);
        '(_, p) ← allocateMem page (pageBytes m) false p;
        Ok (true, p)
      else if (vaddr <? stackMin m) && (u64 (stackBase m - maxStackSize m) <=? vaddr) then
        '(_, p) ← grow_stack (S (Z.to_nat ((stackMin m - vaddr) / pageBytes m))) vaddr p;
        Ok (true, p)
      else Ok (false, p)
  end.

(** The depth bounds nested faults.  The page a fault fills has just been
    mapped, so filling it does not fault again. *)
Fixpoint fixupFault (depth : nat) (vaddr : Z) : stM Process bool :=
  match depth with
  | O => λ _, Err Diverge
  | S depth => fixupFault_with (fixupFault depth) vaddr
  end.

(** [extendMmap]; [grows_down] is [mmapGrowsDown()]. *)
Fixpoint extend_loop (fuel : nat) (p : Process) (grows_down : bool) (start length : Z) : res Z :=
  free ← isUnmapped p start length;
  if free : bool then Ok start
  else match fuel with
       | O => Err Diverge
       | S fuel =>
           let pb := pageBytes (memState p) in
           extend_loop fuel p grows_down
             (if grows_down then u64 (start - pb) else u64 (start + pb)) length
       end.

Definition extendMmap (fuel : nat) (grows_down : bool) (length : Z) : stM Process Z := λ p,
  let m := memState p in
  let start := if grows_down then u64 (mmapEnd m - length) else mmapEnd m in
  start ← extend_loop fuel p grows_down start length;
  Ok (start, set_memState
        (set_mmapEnd (if grows_down then start else u64 (start + length)) m) p).
End proxies.
End Proc.
