(* ===== verification/ProcessMem.v ===== *)
(** * Physical pages of a process

    Proofs about [Process::allocateMem] ([sim/process.cc]): the frames behind
    the page table of a process are distinct, are owned by the allocator, and
    lie in the NVM window exactly for the virtual pages of the NVM window. *)

From S2P Require Import Prelude.
From S2P Require Import Intmath.
From S2P Require Import AddrRange.
From S2P Require Import PageTable.
From S2P Require Import PhysAlloc.
From S2P Require Import Vma.
From S2P Require Import MemState.

Import Proc.

(** ** One page of the page table *)

Abbreviation page_ok := (EPT.region_ok 12).

Lemma page_region v : 0 ≤ v < 2 ^ 64 - 8191 → v mod 4096 = 0 → page_ok v 4096.
Proof. intros Hv Hm. change 4096 with (2 ^ 12) in *. repeat split; lia. Qed.

Lemma in_one_page v a : EPT.in_pages (2 ^ 12) v 4096 a = (a =? v).
Proof.
  rewrite EPT.in_pages_step by lia. rewrite EPT.in_pages_empty by lia. apply orb_false_r.
Qed.

Lemma map_one_page t v pa fl :
  EPT.pt_wf 12 t → page_ok v 4096 → page_ok pa 4096 → EPT.pTable t !! v = None →
  let t' := EPT.with_table t (<[v := EPT.mkEntry pa fl]> (EPT.pTable t)) in
  EPT.map t v pa 4096 fl = Ok t' ∧ EPT.pt_wf 12 t'.
Proof.
  intros Hwf Hv Hpa Hn. destruct (EPT.map_ok 12 t v pa 4096 fl Hwf Hv Hpa) as (t' & Hm & Hwf' & Hl).
  { right. intros a. rewrite in_one_page. intros ->%Z.eqb_eq. done. }
  assert (t' = EPT.with_table t (<[v := EPT.mkEntry pa fl]> (EPT.pTable t))) as <-; [|done].
  rewrite (EPT.map_frame _ _ _ _ _ _ Hm). f_equal.
  apply map_eq. intros a. rewrite Hl, in_one_page. destruct (Z.eqb_spec a v) as [->|].
  - rewrite lookup_insert_eq. do 2 f_equal. lia.
  - by rewrite lookup_insert_ne.
Qed.

(** ** Invariant *)

Definition frame (e : EPT.Entry) : Z := EPT.paddr e / 4096.

(** The frames the allocator has handed out. *)
Definition owned (s : Sys.System) (f : Z) : Prop :=
  0 ≤ f ∧ ((Sys.nvm_page f ∧ f < 0x30000 + Sys.pageNVMPtr s) ∨
           (¬ Sys.nvm_page f ∧ f < Sys.pagePtr s)).

Definition proc_inv (p : Process) : Prop :=
  Sys.sys_inv (system p) ∧ Sys.mem_below_m5ops (system p) ∧
  Sys.pagePtr (system p) * 4096 ≤ Sys.totalSize (system p) ∧
  Sys.pageNVMPtr (system p) ≤ 0x20000 ∧
  EPT.pt_wf 12 (pTable p) ∧
  (∀ v e, EPT.pTable (pTable p) !! v = Some e → owned (system p) (frame e)) ∧
  (∀ v1 v2 e1 e2, EPT.pTable (pTable p) !! v1 = Some e1 → EPT.pTable (pTable p) !! v2 = Some e2 →
     frame e1 = frame e2 → v1 = v2).

(** NVM frames are behind NVM virtual pages and nothing else is. *)
Definition nvm_separated (p : Process) : Prop :=
  ∀ v e, EPT.pTable (pTable p) !! v = Some e →
    Sys.in_nvm_window v = true ↔ Sys.nvm_page (frame e).

(** A page for [v] can be had: room in the NVM window, or volatile memory
    left. *)
Definition can_alloc (p : Process) (v : Z) : Prop :=
  if Sys.in_nvm_window v then Sys.pageNVMPtr (system p) < 0x20000
  else ∃ a s, Sys.allocPhysPages 1 (system p) = Ok (a, s).

Lemma divCeil_one : s32 (divCeil Sys.PageBytes Sys.PageBytes) = 1.
Proof. by vm_compute. Qed.

Lemma PageBytes_eq : Sys.PageBytes = 4096.
Proof. by vm_compute. Qed.

(** One call for one page: the frame is new and of the right kind. *)
Lemma alloc_frame p v :
  proc_inv p → can_alloc p v →
  ∃ f s, (if (Sys.NVM_START_ADDR <=? v) && (v <=? Sys.NVM_END_ADDR)
          then Sys.allocNVMPhysPages 1 (system p) else Sys.allocPhysPages 1 (system p)) =
         Ok (f * 4096, s) ∧
    0 ≤ f < 0x100000 ∧ ¬ owned (system p) f ∧ owned s f ∧
    (Sys.in_nvm_window v = true ↔ Sys.nvm_page f) ∧
    (∀ g, owned (system p) g → owned s g) ∧
    Sys.sys_inv s ∧ Sys.mem_below_m5ops s ∧ Sys.pagePtr s * 4096 ≤ Sys.totalSize s ∧
    Sys.pageNVMPtr s ≤ 0x20000.
Proof.
  intros (Hinv & Hm5 & Hmem & Hnv & _) Hcan. unfold can_alloc in Hcan.
  unfold Sys.in_nvm_window in *. pose proof Hinv as (Hp & Hq & Hw).
  destruct ((Sys.NVM_START_ADDR <=? v) && (v <=? Sys.NVM_END_ADDR)).
  - rewrite Sys.allocNVMPhysPages_spec by (done || lia). eexists _, _. split; [reflexivity|].
    unfold owned, Sys.nvm_page, Sys.sys_inv; simpl. split; [lia|].
    split; [lia|]. split; [lia|]. split; [lia|]. split; [lia|]. split; [lia|].
    split; [done|]. split; [done|lia].
  - destruct Hcan as (a & s & Ha). rewrite Ha.
    destruct (Sys.alloc_vol_block _ 1 a s Hinv Hm5 ltac:(split; lia) Hmem Ha)
      as (Hal & Hlo & Hhi & Hwin & Hinv' & Hm5' & Hnvm' & Hmem' & Htot & _).
    exists (a / 4096), s. pose proof Hinv' as (? & _). destruct Hm5' as [? ?].
    assert (¬ Sys.nvm_page (a / 4096)) as Hnn.
    { apply Hwin. unfold Sys.holds_page; simpl. lia. }
    split; [do 2 f_equal; rewrite (Z.div_mod a 4096) at 1 by lia; lia|].
    unfold owned. rewrite Hnvm'. split; [lia|].
    split; [intros [_ [[? _]|[_ ?]]]; [done|lia]|].
    split; [split; [lia|]; right; split; [done|lia]|]. split; [done|].
    split; [|split; [done|]; split; [by split|]; split; lia].
    intros g [? [?|[? ?]]]; (split; [done|]); [by left|right; split; [done|lia]].
Qed.

Lemma allocateMem_page p v :
  proc_inv p → 0 ≤ v < 2 ^ 64 - 8191 → v mod 4096 = 0 → EPT.pTable (pTable p) !! v = None →
  can_alloc p v →
  ∃ e s, let p' := set_pTable (EPT.with_table (pTable p) (<[v := e]> (EPT.pTable (pTable p))))
                    (set_system s p) in
    allocateMem v 4096 false p = Ok (tt, p') ∧ proc_inv p' ∧
    (nvm_separated p → nvm_separated p') ∧
    ¬ owned (system p) (frame e) ∧ EPT.flags e = 0 ∧ EPT.paddr e mod 4096 = 0.
Proof.
  intros Hinv Hv Hal Hn Hcan.
  destruct (alloc_frame p v Hinv Hcan)
    as (f & s & Hf & Hfr & Hnew & Hown & Hkind & Hmono & Hs1 & Hs2 & Hs3 & Hs4).
  pose proof Hinv as (_ & _ & _ & _ & Hwf & Howned & Hinj).
  destruct (map_one_page (pTable p) v (f * 4096) 0 Hwf (page_region v Hv Hal))
    as [Hmap Hwf']; [|done|].
  { apply page_region; [lia|]. apply Z.mod_mul. lia. }
  assert (frame (EPT.mkEntry (f * 4096) 0) = f) as Hfe by (apply Z.div_mul; lia).
  exists (EPT.mkEntry (f * 4096) 0), s. split.
  { unfold allocateMem. change (s32 (divCeil 4096 Sys.PageBytes)) with 1. rewrite Hf.
    cbn [mbind res_bind]. rewrite Hmap. done. }
  split; [|split; [|split; [by rewrite Hfe|split; [done|apply Z.mod_mul; lia]]]].
  - split; [done|]. split; [done|]. split; [done|]. split; [done|]. split; [done|]. simpl. split.
    + intros v' e'. rewrite lookup_insert_Some. intros [[_ <-]|[_ He]]; [by rewrite Hfe|].
      apply Hmono. by eapply Howned.
    + intros v1 v2 e1 e2. rewrite !lookup_insert_Some.
      intros [[<- <-]|[Hne1 H1]] [[<- <-]|[Hne2 H2]] Heq; [done|..]; try rewrite Hfe in Heq.
      * destruct Hnew. rewrite Heq. by eapply Howned.
      * destruct Hnew. rewrite <-Heq. by eapply Howned.
      * by eapply Hinj.
  - intros Hsep v' e'. simpl. rewrite lookup_insert_Some.
    intros [[<- <-]|[_ He]]; [by rewrite Hfe|by apply Hsep].
Qed.
