(* ===== verification/Regions.v ===== *)
(** * The regions of a process ([sim/mem_state.cc])

    Proofs about the list of virtual memory areas: it stays a list of
    disjoint page-aligned areas, [unmapRegion] removes exactly a range,
    [remapRegion] moves one, and every address keeps the file byte behind
    it. *)

From S2P Require Import Prelude.
From S2P Require Import Intmath.
From S2P Require Import AddrRange.
From S2P Require Import PageTable.
From S2P Require Import PhysAlloc.
From S2P Require Import Vma.
From S2P Require Import MemState.
From S2P Require Import ProcessMem.

Import Proc.

(** ** Lists of areas *)

Definition apart (v1 v2 : Vma.VMA) : Prop :=
  Vma.end_ v1 ≤ Vma.start v2 ∨ Vma.end_ v2 ≤ Vma.start v1.

Definition vma_ok (v : Vma.VMA) : Prop := Vma.vma_wf v ∧ Vma.pageBytes v = 4096.

Fixpoint vmas_ok (l : list Vma.VMA) : Prop :=
  match l with
  | [] => True
  | v :: l => vma_ok v ∧ Forall (apart v) l ∧ vmas_ok l
  end.

(** Address [a] lies in an area of [l] with the file byte [b] behind it. *)
Definition maps (l : list Vma.VMA) (a : Z) (b : option (Z * Z)) : Prop :=
  ∃ v, v ∈ l ∧ Vma.covers v a ∧ Vma.backing v a = b.

Lemma apart_sym v1 v2 : apart v1 v2 → apart v2 v1.
Proof. unfold apart. lia. Qed.

#[export] Instance vmas_ok_perm : Proper ((≡ₚ) ==> iff) vmas_ok.
Proof.
  assert (∀ l1 l2, l1 ≡ₚ l2 → vmas_ok l1 → vmas_ok l2) as H.
  { induction 1 as [|v l1 l2 Hp IH|v1 v2 l|l1 l2 l3 _ IH1 _ IH2]; simpl; [done|..].
    - intros (? & Ha & ?). split; [done|]. split; [by rewrite <-Hp|by apply IH].
    - intros (? & Ha & ? & Hb & ?). apply Forall_cons in Ha as [Ha1 Ha2].
      split; [done|]. split; [|done]. apply Forall_cons. split; [by apply apart_sym|done].
    - auto. }
  intros l1 l2 Hp. split; [by apply H|apply H; by symmetry].
Qed.

#[export] Instance maps_perm : Proper ((≡ₚ) ==> (=) ==> (=) ==> iff) maps.
Proof.
  intros l1 l2 Hp a _ <- b _ <-. unfold maps. by setoid_rewrite Hp.
Qed.

Lemma maps_cons v l a b :
  maps (v :: l) a b ↔ (Vma.covers v a ∧ Vma.backing v a = b) ∨ maps l a b.
Proof. unfold maps. set_solver. Qed.

Lemma maps_app l1 l2 a b : maps (l1 ++ l2) a b ↔ maps l1 a b ∨ maps l2 a b.
Proof. unfold maps. set_solver. Qed.

Lemma maps_nil a b : maps [] a b ↔ False.
Proof. unfold maps. set_solver. Qed.

Lemma vmas_ok_elem l v : vmas_ok l → v ∈ l → vma_ok v.
Proof.
  induction l as [|v' l IH]; intros Hl Hv; [by apply elem_of_nil in Hv|].
  destruct Hl as (? & _ & ?). apply elem_of_cons in Hv as [->|]; auto.
Qed.

(** A smaller area takes the place of a larger one. *)
Lemma vmas_ok_shrink v v' l :
  vmas_ok (v :: l) → vma_ok v' → Vma.start v ≤ Vma.start v' → Vma.end_ v' ≤ Vma.end_ v →
  vmas_ok (v' :: l).
Proof.
  intros (_ & Ha & ?) Hv' H1 H2. split; [done|]. split; [|done].
  eapply Forall_impl; [exact Ha|]. intros w. destruct Hv' as [(_ & _ & _ & ? & _) _].
  unfold apart. lia.
Qed.

(** Two pieces of an area take its place. *)
Lemma vmas_ok_split v v1 v2 l :
  vmas_ok (v :: l) → vma_ok v1 → vma_ok v2 → apart v1 v2 →
  Vma.start v ≤ Vma.start v1 → Vma.end_ v1 ≤ Vma.end_ v →
  Vma.start v ≤ Vma.start v2 → Vma.end_ v2 ≤ Vma.end_ v →
  vmas_ok (v1 :: v2 :: l).
Proof.
  intros Hl H1 H2 Hap Hs1 He1 Hs2 He2.
  pose proof (vmas_ok_shrink v v1 l Hl H1 Hs1 He1) as (_ & Hf1 & _).
  split; [done|]. split; [by apply Forall_cons|]. by eapply vmas_ok_shrink.
Qed.

(** ** The range tests of an area *)

Lemma range_tests v s e :
  vma_ok v → s < e →
  isSubset (Vma.addrRange v) (mkAddrRange s e [] 0) =
    Ok ((s <=? Vma.start v) && (Vma.end_ v <=? e)) ∧
  vma_intersects v (mkAddrRange s e [] 0) = Ok ((Vma.start v <? e) && (s <? Vma.end_ v)).
Proof.
  intros [(_ & Hm & _) _] Hse. unfold vma_intersects, isSubset, intersects, interleaved.
  rewrite Hm. simpl. unfold Vma.start, Vma.end_. split; f_equal; zcmp; done.
Qed.

(** ** [unmapRegion] on the areas *)

Lemma perm_append (l1 l2 : list Vma.VMA) x y : l1 ++ x :: l2 ++ [y] ≡ₚ x :: y :: l1 ++ l2.
Proof.
  rewrite <-Permutation_middle. constructor. rewrite app_assoc.
  by rewrite (Permutation_app_comm (l1 ++ l2) [y]).
Qed.

Lemma slice_right_ok v s :
  vma_ok v → Vma.start v < s ≤ Vma.end_ v → s mod 4096 = 0 →
  ∃ v', Vma.sliceRegionRight v s = Ok v' ∧ vma_ok v' ∧
    Vma.start v' = Vma.start v ∧ Vma.end_ v' = s ∧
    ∀ a, Vma.start v ≤ a < s → Vma.backing v' a = Vma.backing v a.
Proof.
  intros [Hwf Hpb] Hs Hm. rewrite <-Hpb in Hm.
  destruct (Vma.sliceRegionRight_ok v s Hwf Hs Hm) as (v' & -> & ? & E & ? & ? & ?).
  exists v'. split; [done|]. split; [by split; [|rewrite E]|]. done.
Qed.

Lemma slice_left_ok v s :
  vma_ok v → Vma.start v ≤ s < Vma.end_ v → s mod 4096 = 0 →
  ∃ v', Vma.sliceRegionLeft v s = Ok v' ∧ vma_ok v' ∧
    Vma.start v' = s ∧ Vma.end_ v' = Vma.end_ v ∧
    ∀ a, s ≤ a < Vma.end_ v → Vma.backing v' a = Vma.backing v a.
Proof.
  intros [Hwf Hpb] Hs Hm. rewrite <-Hpb in Hm.
  destruct (Vma.sliceRegionLeft_ok v s Hwf Hs Hm) as (v' & -> & ? & E & ? & ? & ?).
  exists v'. split; [done|]. split; [by split; [|rewrite E]|]. done.
Qed.

(** What the pieces of an area still map. *)
Lemma piece_maps v v' (P : Z → Prop) a b :
  (Vma.covers v' a ↔ Vma.covers v a ∧ P a) →
  (Vma.covers v' a → Vma.backing v' a = Vma.backing v a) →
  (Vma.covers v' a ∧ Vma.backing v' a = b) ↔ (Vma.covers v a ∧ Vma.backing v a = b) ∧ P a.
Proof.
  intros Hc Hb. split.
  - intros [H1 H2]. rewrite Hb in H2 by done. tauto.
  - intros [[H1 H2] HP]. assert (Vma.covers v' a) as Hc' by tauto.
    split; [done|]. by rewrite Hb.
Qed.

Lemma apart_outside v l s e a b :
  vmas_ok (v :: l) → Vma.start v ≤ s → e ≤ Vma.end_ v →
  maps l a b → ¬ (s ≤ a < e).
Proof.
  intros (_ & Ha & _) H1 H2 (w & Hw & Hc & _) Hr. rewrite Forall_forall in Ha.
  specialize (Ha w Hw). unfold apart, Vma.covers in *. lia.
Qed.

Lemma unmap_vmas_spec s e passed rest :
  vmas_ok (passed ++ rest) → s < e → s mod 4096 = 0 → e mod 4096 = 0 →
  ∃ l, unmap_vmas s e passed rest = Ok l ∧ vmas_ok l ∧
    ∀ a b, maps l a b ↔ maps passed a b ∨ (maps rest a b ∧ ¬ (s ≤ a < e)).
Proof.
  intros Hok Hse Hs He. revert passed Hok. induction rest as [|v rest IH]; intros passed Hok.
  { exists passed. rewrite app_nil_r in Hok. split; [done|]. split; [done|].
    intros a b. rewrite maps_nil. tauto. }
  assert (passed ++ v :: rest ≡ₚ v :: (passed ++ rest)) as Hperm
    by (by rewrite Permutation_middle).
  rewrite Hperm in Hok. pose proof Hok as (Hv & _ & Hrest).
  destruct (range_tests v s e Hv Hse) as [Hsub Hint].
  assert (0 ≤ Vma.start v < Vma.end_ v) as Hne by apply Hv.
  cbn [unmap_vmas]. unfold Vma.isStrictSuperset. simpl.
  destruct ((Vma.start v <? s) && (e <? Vma.end_ v)) eqn:Ess; bool_to_prop.
  { (* split *)
    destruct (slice_right_ok v s Hv ltac:(lia) Hs) as (r & -> & Hr & Hr1 & Hr2 & Hrb).
    destruct (slice_left_ok v e Hv ltac:(lia) He) as (l & -> & Hl & Hl1 & Hl2 & Hlb).
    cbn [mbind res_bind].
    pose proof (perm_append passed rest l r) as Hp2.
    eexists. split; [reflexivity|]. rewrite Hp2. split.
    { apply (vmas_ok_split v); try done; unfold apart; lia. }
    intros a b. rewrite Hp2, !maps_cons, maps_app.
    rewrite (piece_maps v l (λ a, e ≤ a) a b), (piece_maps v r (λ a, a < s) a b);
      [|unfold Vma.covers; lia|unfold Vma.covers; intros; apply Hrb; lia
       |unfold Vma.covers; lia|unfold Vma.covers; intros; apply Hlb; lia].
    pose proof (apart_outside v (passed ++ rest) s e a b Hok ltac:(lia) ltac:(lia)) as Hout.
    rewrite maps_app in Hout.
    assert (¬ (s ≤ a < e) ↔ e ≤ a ∨ a < s) as Hk by lia. clear -Hk Hout. tauto. }
  rewrite Hsub. cbn [mbind res_bind].
  destruct ((s <=? Vma.start v) && (Vma.end_ v <=? e)) eqn:Esub; bool_to_prop.
  { destruct (IH passed Hrest) as (l & -> & Hl & Hm). exists l. split; [done|].
    split; [done|]. intros a b. rewrite Hm, maps_cons.
    assert (Vma.covers v a → s ≤ a < e) by (unfold Vma.covers; lia). tauto. }
  rewrite Hint. cbn [mbind res_bind].
  destruct ((Vma.start v <? e) && (s <? Vma.end_ v)) eqn:Eint; bool_to_prop.
  - assert (∃ v', (if Vma.start v <? s then Vma.sliceRegionRight v s
                   else Vma.sliceRegionLeft v e) = Ok v' ∧ vma_ok v' ∧
      Vma.start v ≤ Vma.start v' ∧ Vma.end_ v' ≤ Vma.end_ v ∧
      ∀ a b, (Vma.covers v' a ∧ Vma.backing v' a = b) ↔
             (Vma.covers v a ∧ Vma.backing v a = b) ∧ ¬ (s ≤ a < e)) as (v' & -> & Hv' & H1 & H2 & Hp).
    { destruct (Z.ltb_spec (Vma.start v) s).
      - destruct (slice_right_ok v s Hv ltac:(lia) Hs) as (r & -> & Hr & Hr1 & Hr2 & Hrb).
        exists r. split; [done|]. split; [done|]. split; [lia|]. split; [lia|]. intros a b.
        apply (piece_maps v r (λ a, ¬ (s ≤ a < e))); unfold Vma.covers; [|intros; apply Hrb; lia].
        destruct Ess; bool_to_prop; [done|lia].
      - assert (e < Vma.end_ v) by (destruct Esub; lia).
        destruct (slice_left_ok v e Hv ltac:(lia) He) as (r & -> & Hr & Hr1 & Hr2 & Hrb).
        exists r. split; [done|]. split; [done|]. split; [lia|]. split; [lia|]. intros a b.
        apply (piece_maps v r (λ a, ¬ (s ≤ a < e))); unfold Vma.covers; [lia|intros; apply Hrb; lia]. }
    cbn [mbind res_bind]. destruct (IH (passed ++ [v'])) as (l & -> & Hl & Hm).
    { rewrite <-app_assoc. simpl. rewrite <-Permutation_middle. by eapply vmas_ok_shrink. }
    exists l. split; [done|]. split; [done|]. intros a b.
    rewrite Hm, maps_app, !maps_cons, maps_nil, Hp. tauto.
  - destruct (IH (passed ++ [v])) as (l & -> & Hl & Hm).
    { rewrite <-app_assoc. simpl. by rewrite <-Permutation_middle. }
    exists l. split; [done|]. split; [done|]. intros a b.
    rewrite Hm, maps_app, !maps_cons, maps_nil.
    assert (Vma.covers v a → ¬ (s ≤ a < e)) by (unfold Vma.covers; destruct Eint; lia).
    tauto.
Qed.

(** ** Page table loops of [unmapRegion] and [remapRegion] *)

Lemma isUnmapped_one t v :
  EPT.pt_wf 12 t → page_ok v 4096 →
  EPT.isUnmapped t v 4096 = Ok (bool_decide (EPT.pTable t !! v = None)).
Proof.
  intros Hwf Hv. destruct (EPT.isUnmapped_ok 12 t v 4096 Hwf Hv) as (b & -> & Hb). f_equal.
  symmetry. assert ((∀ a, EPT.in_pages (2 ^ 12) v 4096 a = true → EPT.pTable t !! a = None) ↔
    EPT.pTable t !! v = None) as Heq.
  { split; [intros Hall; apply Hall; rewrite in_one_page; lia|].
    intros Hn a. rewrite in_one_page. intros ->%Z.eqb_eq. done. }
  rewrite Heq in Hb. destruct b; [by apply bool_decide_true, Hb|].
  apply bool_decide_false. intros Hn%Hb. done.
Qed.

(** One iteration of the loop of [unmapRegion]. *)
Lemma unmap_one t v :
  EPT.pt_wf 12 t → page_ok v 4096 →
  ∃ t', (free ← EPT.isUnmapped t v 4096; if free : bool then Ok t else EPT.unmap t v 4096) = Ok t' ∧
    EPT.pt_wf 12 t' ∧ t' = EPT.with_table t (delete v (EPT.pTable t)).
Proof.
  intros Hwf Hv. rewrite isUnmapped_one by done. cbn [mbind res_bind]. case_bool_decide as Hn.
  - exists t. split; [done|]. split; [done|]. destruct t; unfold EPT.with_table; simpl in *.
    by rewrite delete_id.
  - destruct (EPT.unmap_ok 12 t v 4096 Hwf Hv) as (t' & Hu & Hwf' & Hl).
    { intros a. rewrite in_one_page. intros ->%Z.eqb_eq. by apply not_eq_None_Some. }
    exists t'. split; [done|]. split; [done|]. rewrite (EPT.unmap_frame _ _ _ _ Hu). f_equal.
    apply map_eq. intros a. rewrite Hl, in_one_page. destruct (Z.eqb_spec a v) as [->|].
    + by rewrite lookup_delete_eq.
    + by rewrite lookup_delete_ne.
Qed.

Lemma unmap_pages_spec n fuel t v :
  (n < fuel)%nat → EPT.pt_wf 12 t → 0 ≤ v → v mod 4096 = 0 →
  v + (Z.of_nat n + 2) * 4096 ≤ 2 ^ 64 →
  ∃ t', unmap_pages fuel t 4096 v ((Z.of_nat n + 1) * 4096) = Ok t' ∧ EPT.pt_wf 12 t' ∧
    ∀ a, EPT.pTable t' !! a =
      if EPT.in_pages 4096 v ((Z.of_nat n + 1) * 4096) a then None else EPT.pTable t !! a.
Proof.
  revert fuel t v. induction n as [|n IH]; intros fuel t v Hf Hwf Hv Hm Hb;
    (destruct fuel as [|fuel]; [lia|]); cbn [unmap_pages];
    destruct (unmap_one t v Hwf ltac:(apply page_region; [lia|done])) as (t1 & Ht1 & Hwf1 & Ht1l);
    cbn [mbind res_bind] in Ht1 |- *.
  all: destruct (EPT.isUnmapped t v 4096) as [free|] eqn:Ef; [|done];
    cbn [mbind res_bind] in Ht1 |- *; rewrite Ht1; cbn [mbind res_bind]; subst t1.
  - rewrite u64_small by lia. simpl. eexists. split; [done|].
    split; [done|]. intros a. simpl. rewrite (EPT.in_pages_step 4096) by lia.
    rewrite EPT.in_pages_empty, orb_false_r by lia. destruct (Z.eqb_spec a v) as [->|].
    + by rewrite lookup_delete_eq.
    + by rewrite lookup_delete_ne.
  - rewrite !u64_small by lia. rewrite (proj2 (Z.ltb_lt _ _)) by lia.
    replace ((Z.of_nat (S n) + 1) * 4096 - 4096) with ((Z.of_nat n + 1) * 4096) by lia.
    destruct (IH fuel _ (v + 4096) ltac:(lia) Hwf1) as (t' & -> & Hwf' & Hl); [lia| |lia|].
    { rewrite <-Z.add_mod_idemp_r, Z.mod_same, Z.add_0_r by lia. done. }
    exists t'. split; [done|]. split; [done|]. intros a. rewrite Hl. simpl.
    rewrite (EPT.in_pages_step 4096 v) by lia.
    replace ((Z.of_nat (S n) + 1) * 4096 - 4096) with ((Z.of_nat n + 1) * 4096) by lia.
    destruct (EPT.in_pages 4096 (v + 4096) _ a); [by rewrite orb_true_r|].
    rewrite orb_false_r. destruct (Z.eqb_spec a v) as [->|].
    + by rewrite lookup_delete_eq.
    + by rewrite lookup_delete_ne.
Qed.

(** One iteration of the loop of [remapRegion]. *)
Lemma remap_one t v nv :
  EPT.pt_wf 12 t → page_ok v 4096 → page_ok nv 4096 → v ≠ nv → EPT.pTable t !! nv = None →
  ∃ t', (free ← EPT.isUnmapped t v 4096;
         if free : bool then Ok t else EPT.remap t v 4096 nv) = Ok t' ∧
    EPT.pt_wf 12 t' ∧
    ∀ a, EPT.pTable t' !! a =
      if a =? nv then EPT.pTable t !! v else if a =? v then None else EPT.pTable t !! a.
Proof.
  intros Hwf Hv Hnv Hne Hfree. rewrite isUnmapped_one by done. cbn [mbind res_bind].
  case_bool_decide as Hn.
  - exists t. split; [done|]. split; [done|]. intros a. zcmp; congruence.
  - destruct (EPT.remap_ok 12 t v 4096 nv Hwf Hv Hnv) as (t' & Hu & Hwf' & Hl).
    + destruct Hv as (? & Hvm & _), Hnv as (? & Hnvm & _). change (2 ^ 12) with 4096 in *.
      apply Z.mod_divide in Hvm as [q1 ?]; [|lia]. apply Z.mod_divide in Hnvm as [q2 ?]; lia.
    + intros a. rewrite in_one_page. intros ->%Z.eqb_eq. by apply not_eq_None_Some.
    + intros a. rewrite in_one_page. by intros ->%Z.eqb_eq.
    + exists t'. split; [done|]. split; [done|]. intros a. rewrite Hl, !in_one_page.
      destruct (Z.eqb_spec a nv) as [->|]; [f_equal; lia|done].
Qed.

Lemma remap_pages_spec n fuel t v nv :
  (n < fuel)%nat → EPT.pt_wf 12 t → 0 ≤ v → v mod 4096 = 0 → 0 ≤ nv → nv mod 4096 = 0 →
  let len := (Z.of_nat n + 1) * 4096 in
  v + len + 4096 ≤ 2 ^ 64 → nv + len + 4096 ≤ 2 ^ 64 → v + len ≤ nv ∨ nv + len ≤ v →
  (∀ a, EPT.in_pages 4096 nv len a = true → EPT.pTable t !! a = None) →
  ∃ t', remap_pages fuel t 4096 v nv len = Ok t' ∧ EPT.pt_wf 12 t' ∧
    ∀ a, EPT.pTable t' !! a =
      if EPT.in_pages 4096 nv len a then EPT.pTable t !! (v + (a - nv))
      else if EPT.in_pages 4096 v len a then None else EPT.pTable t !! a.
Proof.
  revert fuel t v nv. induction n as [|n IH]; intros fuel t v nv Hf Hwf Hv Hm Hnv Hnm len Hb Hnb Hd Hfree;
    (destruct fuel as [|fuel]; [lia|]); cbn [remap_pages];
    (destruct (remap_one t v nv Hwf) as (t1 & Ht1 & Hwf1 & Ht1l);
      [apply page_region; [unfold len in *; lia|done]|apply page_region; [unfold len in *; lia|done]
      |unfold len in *; lia|apply Hfree; rewrite EPT.in_pages_step by (unfold len; lia); lia|]);
    cbn [mbind res_bind] in Ht1 |- *.
  all: destruct (EPT.isUnmapped t v 4096) as [free|] eqn:Ef; [|done];
    cbn [mbind res_bind] in Ht1 |- *; rewrite Ht1; cbn [mbind res_bind].
  - unfold len. rewrite u64_small by lia. simpl. eexists. split; [done|].
    split; [done|]. intros a. rewrite Ht1l.
    rewrite (EPT.in_pages_step 4096 nv), (EPT.in_pages_step 4096 v) by lia.
    rewrite !EPT.in_pages_empty, !orb_false_r by lia.
    destruct (Z.eqb_spec a nv) as [->|]; [f_equal; lia|done].
  - specialize (IH fuel t1 (v + 4096) (nv + 4096)). cbv zeta in IH.
    assert (len = (Z.of_nat n + 1) * 4096 + 4096) as El by (unfold len; lia). clearbody len.
    set (len' := (Z.of_nat n + 1) * 4096) in *.
    assert (0 < len') as Hlen' by (unfold len'; lia). clearbody len'.
    rewrite !u64_small by lia. rewrite (proj2 (Z.ltb_lt _ _)) by lia.
    replace (len - 4096) with len' by lia.
    assert (∀ x, x mod 4096 = 0 → (x + 4096) mod 4096 = 0) as Hstep.
    { intros x Hx. rewrite <-Z.add_mod_idemp_r, Z.mod_same, Z.add_0_r by lia. done. }
    destruct IH as (t' & Hr & Hwf' & Hl); [lia|done|lia|by apply Hstep|lia|by apply Hstep|lia|lia|lia| |].
    { intros a Ha. pose proof (EPT.in_pages_range _ _ _ _ Ha). rewrite Ht1l.
      rewrite (proj2 (Z.eqb_neq a nv)) by lia. destruct (a =? v); [done|].
      apply Hfree. rewrite El, EPT.in_pages_step by lia.
      replace (len' + 4096 - 4096) with len' by lia. rewrite Ha. apply orb_true_r. }
    exists t'. split; [done|]. split; [done|]. intros a. rewrite Hl, !Ht1l.
    rewrite (EPT.in_pages_step 4096 nv len), (EPT.in_pages_step 4096 v len) by lia.
    replace (len - 4096) with len' by lia.
    replace (v + 4096 + (a - (nv + 4096))) with (v + (a - nv)) by lia.
    destruct (EPT.in_pages 4096 (nv + 4096) len' a) eqn:E1.
    + rewrite orb_true_r. apply EPT.in_pages_range in E1. zcmp; done.
    + rewrite orb_false_r. destruct (EPT.in_pages 4096 (v + 4096) len' a) eqn:E2.
      * apply EPT.in_pages_range in E2. rewrite (proj2 (Z.eqb_neq a nv)) by lia.
        by rewrite orb_true_r.
      * rewrite orb_false_r. destruct (Z.eqb_spec a nv) as [->|]; [f_equal; lia|done].
Qed.

(** ** [remapRegion] on the areas

    The walk first cuts the areas at the bounds of the range, then shifts the
    pieces inside it; [moves] relates a piece to what it becomes. *)
Section remap.
Context (s e ns : Z).
Hypothesis Hse : s < e.
Hypothesis Hs : s mod 4096 = 0.
Hypothesis He : e mod 4096 = 0.
Hypothesis Hns : 0 ≤ ns ∧ ns mod 4096 = 0 ∧ ns + (e - s) < 2 ^ 64.

Definition moves (v0 v' : Vma.VMA) : Prop :=
  (s ≤ Vma.start v0 ∧ Vma.end_ v0 ≤ e ∧ vma_ok v' ∧
   Vma.start v' = Vma.start v0 - s + ns ∧ Vma.end_ v' = Vma.end_ v0 - s + ns ∧
   ∀ a, Vma.covers v' a → Vma.backing v' a = Vma.backing v0 (a - ns + s)) ∨
  ((Vma.end_ v0 ≤ s ∨ e ≤ Vma.start v0) ∧ v' = v0).

Lemma move_ok v :
  vma_ok v → s ≤ Vma.start v → Vma.end_ v ≤ e →
  ∃ v', Vma.remap v (u64 (Vma.start v - s + ns)) = Ok v' ∧ moves v v'.
Proof.
  intros [Hwf Hpb] H1 H2. pose proof Hwf as (_ & _ & _ & Hr & Hb & Hsm & _).
  rewrite u64_small by lia.
  destruct (Vma.remap_vma_ok v (Vma.start v - s + ns)) as (v' & -> & Hwf' & Hpb' & H3 & H4 & H5);
    [done|lia| |lia|].
  { rewrite Hpb in *. rewrite <-Z.add_mod_idemp_l, Zminus_mod, Hsm, Hs by lia. simpl. apply Hns. }
  exists v'. split; [done|]. left. split; [done|]. split; [done|].
  split; [by split; [|rewrite Hpb']|]. split; [done|]. split; [lia|].
  intros a Ha. rewrite (H5 a Ha). f_equal. lia.
Qed.

Lemma moves_refl v : Vma.end_ v ≤ s ∨ e ≤ Vma.start v → moves v v.
Proof. by right. Qed.

Definition touches (v : Vma.VMA) : Prop := Vma.start v < e ∧ s < Vma.end_ v.
#[local] Instance touches_dec v : Decision (touches v).
Proof. unfold touches. apply _. Defined.

Definition remap_fuel (l : list Vma.VMA) : nat := (length l + length (filter touches l))%nat.

Lemma remap_vmas_spec fuel pre passed rest :
  vmas_ok (pre ++ rest) → Forall2 moves pre passed → (remap_fuel rest ≤ fuel)%nat →
  ∃ pre' l, remap_vmas fuel s ns e passed rest = Ok l ∧ Forall2 moves pre' l ∧ vmas_ok pre' ∧
    ∀ a b, maps pre' a b ↔ maps (pre ++ rest) a b.
Proof.
  revert pre passed rest. induction fuel as [|fuel IH]; intros pre passed rest Hok Hmv Hf.
  { destruct rest as [|v rest]; [|unfold remap_fuel in Hf; simpl in Hf; lia].
    exists pre, passed. rewrite app_nil_r in *. by repeat split. }
  destruct rest as [|v rest]; cbn [remap_vmas].
  { exists pre, passed. rewrite app_nil_r in *. by repeat split. }
  assert (pre ++ v :: rest ≡ₚ v :: (pre ++ rest)) as Hperm by (by rewrite Permutation_middle).
  rewrite Hperm in Hok. pose proof Hok as (Hv & Hap & Hrest).
  destruct (range_tests v s e Hv Hse) as [Hsub Hint].
  assert (0 ≤ Vma.start v < Vma.end_ v) as Hne by apply Hv.
  unfold remap_fuel in Hf. rewrite filter_cons in Hf. simpl in Hf.
  unfold Vma.isStrictSuperset. simpl.
  destruct ((Vma.start v <? s) && (e <? Vma.end_ v)) eqn:Ess; bool_to_prop.
  { destruct (slice_right_ok v s Hv ltac:(lia) Hs) as (c1 & -> & Hc1 & Hc1s & Hc1e & Hc1b).
    destruct (slice_left_ok v e Hv ltac:(lia) He) as (c2 & -> & Hc2 & Hc2s & Hc2e & Hc2b).
    destruct (slice_left_ok v s Hv ltac:(lia) Hs) as (v1 & -> & Hv1 & Hv1s & Hv1e & Hv1b).
    destruct (slice_right_ok v1 e Hv1 ltac:(lia) He) as (v2 & Hv2eq & Hv2 & Hv2s & Hv2e & Hv2b).
    cbn [mbind res_bind]. rewrite Hv2eq. cbn [mbind res_bind].
    destruct (move_ok v2 Hv2 ltac:(lia) ltac:(lia)) as (v3 & Hv3 & Hmv3).
    replace (Vma.start v2 - s + ns) with ns in Hv3 by lia.
    rewrite u64_small in Hv3 by lia. rewrite Hv3. cbn [mbind res_bind].
    exists (pre ++ v2 :: rest ++ [c1; c2]), (passed ++ v3 :: rest ++ [c1; c2]).
    split; [done|]. split.
    { apply Forall2_app; [done|]. constructor; [done|]. apply Forall2_app.
      - apply Forall_Forall2_diag. apply Forall_forall. intros w Hw. apply moves_refl.
        rewrite Forall_forall in Hap. specialize (Hap w (ltac:(set_solver))).
        unfold apart in Hap. lia.
      - constructor; [apply moves_refl; lia|]. constructor; [apply moves_refl; lia|constructor]. }
    assert (pre ++ v2 :: rest ++ [c1; c2] ≡ₚ c1 :: c2 :: v2 :: pre ++ rest) as Hp2.
    { rewrite <-Permutation_middle, app_assoc, (Permutation_app_comm (pre ++ rest)). simpl.
      rewrite (perm_swap c1 v2). constructor. by rewrite perm_swap. }
    rewrite Hp2. split.
    { assert (vmas_ok (v1 :: pre ++ rest)) as Hok1 by (apply (vmas_ok_shrink v); (done || lia)).
      assert (vmas_ok (c2 :: v2 :: pre ++ rest)) as Hok2
        by (apply (vmas_ok_split v1); (done || unfold apart; lia)).
      split; [done|]. split; [|done]. destruct Hok as (_ & Hapv & _).
      apply Forall_cons. split; [unfold apart; lia|]. apply Forall_cons. split; [unfold apart; lia|].
      eapply Forall_impl; [exact Hapv|]. intros w. unfold apart. lia. }
    intros a b. rewrite Hp2, Hperm, !maps_cons.
    rewrite (piece_maps v c1 (λ a, a < s) a b), (piece_maps v c2 (λ a, e ≤ a) a b),
      (piece_maps v v2 (λ a, s ≤ a < e) a b); unfold Vma.covers;
      try (lia || (intros; (apply Hc1b || apply Hc2b || (rewrite Hv2b by lia; apply Hv1b)); lia)).
    assert (a < s ∨ e ≤ a ∨ s ≤ a < e) as Hk by lia. clear -Hk. tauto. }
  rewrite Hsub. cbn [mbind res_bind].
  destruct ((s <=? Vma.start v) && (Vma.end_ v <=? e)) eqn:Esub; bool_to_prop.
  { destruct (move_ok v Hv ltac:(lia) ltac:(lia)) as (v' & -> & Hm'). cbn [mbind res_bind].
    destruct (IH (pre ++ [v]) (passed ++ [v']) rest) as (pre' & l & ? & ? & ? & Hmaps).
    - rewrite <-app_assoc. simpl. by rewrite Hperm.
    - apply Forall2_app; [done|]. constructor; [done|constructor].
    - unfold remap_fuel. case_decide; simpl in Hf; lia.
    - exists pre', l. split; [done|]. split; [done|]. split; [done|].
      intros a b. rewrite Hmaps, <-app_assoc. done. }
  rewrite Hint. cbn [mbind res_bind].
  destruct ((Vma.start v <? e) && (s <? Vma.end_ v)) eqn:Eint; bool_to_prop.
  - assert (touches v) as Htv by (unfold touches; lia).
    rewrite decide_True in Hf by done. simpl in Hf.
    (* both cuts leave a piece inside, moved, and a piece outside, put back *)
    assert (∀ c v1 v2, vma_ok c → vma_ok v1 → moves v1 v2 → apart c v1 → ¬ touches c →
      Vma.start v ≤ Vma.start c → Vma.end_ c ≤ Vma.end_ v →
      Vma.start v ≤ Vma.start v1 → Vma.end_ v1 ≤ Vma.end_ v →
      (∀ a b, (Vma.covers v a ∧ Vma.backing v a = b) ↔
        (Vma.covers c a ∧ Vma.backing c a = b) ∨ (Vma.covers v1 a ∧ Vma.backing v1 a = b)) →
      ∃ pre' l, remap_vmas fuel s ns e (passed ++ [v2]) (rest ++ [c]) = Ok l ∧
        Forall2 moves pre' l ∧ vmas_ok pre' ∧
        ∀ a b, maps pre' a b ↔ maps (pre ++ v :: rest) a b) as Hstep.
    { intros c v1 v2 Hc Hv1 Hm12 Hapc Hnt ? ? ? ? Hcut.
      assert ((pre ++ [v1]) ++ rest ++ [c] ≡ₚ c :: v1 :: pre ++ rest) as Hp2.
      { rewrite <-app_assoc. simpl. rewrite perm_append. by rewrite perm_swap. }
      destruct (IH (pre ++ [v1]) (passed ++ [v2]) (rest ++ [c])) as (pre' & l & ? & ? & ? & Hmaps).
      - rewrite Hp2. by apply (vmas_ok_split v).
      - apply Forall2_app; [done|]. constructor; [done|constructor].
      - unfold remap_fuel. rewrite filter_app, !length_app, filter_cons.
        rewrite decide_False by done. simpl. lia.
      - exists pre', l. split; [done|]. split; [done|]. split; [done|].
        intros a b. rewrite Hmaps, Hp2, Hperm, !maps_cons, Hcut. tauto. }
    destruct (Z.ltb_spec (Vma.start v) s).
    + destruct (slice_right_ok v s Hv ltac:(lia) Hs) as (c & -> & Hc & Hcs & Hce & Hcb).
      destruct (slice_left_ok v s Hv ltac:(lia) Hs) as (v1 & -> & Hv1 & Hv1s & Hv1e & Hv1b).
      cbn [mbind res_bind].
      assert (Vma.end_ v ≤ e) by (destruct Ess; bool_to_prop; lia).
      destruct (move_ok v1 Hv1 ltac:(lia) ltac:(lia)) as (v2 & Hv2 & Hm2).
      replace (Vma.start v1 - s + ns) with ns in Hv2 by lia.
      rewrite u64_small in Hv2 by lia. rewrite Hv2. cbn [mbind res_bind].
      apply (Hstep c v1 v2); try done; try lia; [unfold apart; lia|unfold touches; lia|].
      intros a b. rewrite (piece_maps v c (λ a, a < s) a b), (piece_maps v v1 (λ a, s ≤ a) a b);
        unfold Vma.covers; try (lia || (intros; (apply Hcb || apply Hv1b); lia)).
      assert (a < s ∨ s ≤ a) as Hk by lia. clear -Hk. tauto.
    + assert (e < Vma.end_ v) by (destruct Esub; bool_to_prop; lia).
      destruct (slice_left_ok v e Hv ltac:(lia) He) as (c & -> & Hc & Hcs & Hce & Hcb).
      destruct (slice_right_ok v e Hv ltac:(lia) He) as (v1 & -> & Hv1 & Hv1s & Hv1e & Hv1b).
      cbn [mbind res_bind].
      destruct (move_ok v1 Hv1 ltac:(lia) ltac:(lia)) as (v2 & Hv2 & Hm2).
      replace (ns + Vma.start v1 - s) with (Vma.start v1 - s + ns) by lia.
      rewrite Hv2. cbn [mbind res_bind].
      apply (Hstep c v1 v2); try done; try lia; [unfold apart; lia|unfold touches; lia|].
      intros a b. rewrite (piece_maps v c (λ a, e ≤ a) a b), (piece_maps v v1 (λ a, a < e) a b);
        unfold Vma.covers; try (lia || (intros; (apply Hcb || apply Hv1b); lia)).
      assert (a < e ∨ e ≤ a) as Hk by lia. clear -Hk. tauto.
  - destruct (IH (pre ++ [v]) (passed ++ [v]) rest) as (pre' & l & ? & ? & ? & Hmaps).
    + rewrite <-app_assoc. simpl. by rewrite Hperm.
    + apply Forall2_app; [done|]. constructor; [|constructor]. apply moves_refl.
      destruct Eint; bool_to_prop; lia.
    + unfold remap_fuel. case_decide; simpl in Hf; lia.
    + exists pre', l. split; [done|]. split; [done|]. split; [done|].
      intros a b. rewrite Hmaps, <-app_assoc. done.
Qed.
End remap.

Lemma moves_disjoint s e ns v1 v2 w1 w2 :
  moves s e ns v1 w1 → moves s e ns v2 w2 → apart v1 v2 →
  (∀ v, v = v1 ∨ v = v2 → ∀ a, Vma.covers v a → ns ≤ a < ns + (e - s) → s ≤ a < e) →
  Vma.start v1 < Vma.end_ v1 → Vma.start v2 < Vma.end_ v2 → apart w1 w2.
Proof.
  unfold Vma.covers. intros H1 H2 Hap Hfree Hn1 Hn2.
  destruct H1 as [(? & ? & _ & ? & ? & _)|(Ho1 & ->)], H2 as [(? & ? & _ & ? & ? & _)|(Ho2 & ->)];
    unfold apart in *; [lia| | |done].
  - pose proof (Hfree v2 ltac:(by right) (Z.max (Vma.start v2) ns)). lia.
  - pose proof (Hfree v1 ltac:(by left) (Z.max (Vma.start v1) ns)). lia.
Qed.

Lemma moves_result s e ns pre l :
  Forall2 (moves s e ns) pre l → vmas_ok pre →
  (∀ v a, v ∈ pre → Vma.covers v a → ns ≤ a < ns + (e - s) → s ≤ a < e) →
  vmas_ok l ∧
  ∀ a b, maps l a b ↔ (maps pre a b ∧ ¬ (s ≤ a < e)) ∨
                      (ns ≤ a < ns + (e - s) ∧ s ≤ a - ns + s < e ∧ maps pre (a - ns + s) b).
Proof.
  induction 1 as [|v w pre l Hm Hf2 IH]; intros Hok Hfree.
  { split; [done|]. intros a b. rewrite !maps_nil. tauto. }
  destruct Hok as (Hv & Hap & Hok).
  destruct IH as [Hl Hmaps]; [done|intros; eapply Hfree; [by right|..]; done|].
  assert (0 ≤ Vma.start v < Vma.end_ v) as Hne by apply Hv. split.
  - split; [destruct Hm as [(_ & _ & ? & _)|(_ & ->)]; done|]. split; [|done].
    apply Forall_forall. intros w2 Hw2. apply list_elem_of_lookup in Hw2 as [i Hi].
    destruct (Forall2_lookup_r _ _ _ _ _ Hf2 Hi) as (v2 & Hi2 & Hm2).
    apply list_elem_of_lookup_2 in Hi2. rewrite Forall_forall in Hap.
    apply (moves_disjoint s e ns v v2); [done|done|by apply Hap| |lia|].
    + intros v' [->| ->] a; apply Hfree; [left|by right].
    + assert (vma_ok v2) as [(_ & _ & _ & ? & _) _] by (by apply (vmas_ok_elem pre)). lia.
  - intros a b. rewrite !maps_cons, Hmaps.
    assert ((Vma.covers w a ∧ Vma.backing w a = b) ↔
      ((Vma.covers v a ∧ Vma.backing v a = b) ∧ ¬ (s ≤ a < e)) ∨
      (ns ≤ a < ns + (e - s) ∧ s ≤ a - ns + s < e ∧
       (Vma.covers v (a - ns + s) ∧ Vma.backing v (a - ns + s) = b))) as ->; [|tauto].
    destruct Hm as [(H1 & H2 & _ & H3 & H4 & H5)|(Ho & ->)]; unfold Vma.covers in *.
    + split.
      * intros [Hc Hb]. rewrite H5 in Hb by lia. right. split; [lia|]. split; [lia|]. split; [lia|done].
      * intros [[[? _] ?]|(_ & ? & [? Hb])]; [lia|]. split; [lia|]. rewrite H5 by lia. done.
    + split.
      * intros [Hc Hb]. left. split; [done|lia].
      * intros [[[? ?] _]|(? & ? & [? _])]; [done|lia].
Qed.

(** ** Theorems *)

Definition regions_inv (p : Process) : Prop :=
  vmas_ok (vmaList (memState p)) ∧ pageBytes (memState p) = 4096 ∧ EPT.pt_wf 12 (pTable p).

(** A non-empty page-aligned range with a page to spare before the end of
    the address space. *)
Definition page_range (s len : Z) : Prop :=
  0 ≤ s ∧ s mod 4096 = 0 ∧ 0 < len < 2 ^ 63 ∧ len mod 4096 = 0 ∧ s + len + 4096 ≤ 2 ^ 64.

Lemma in_pages_align s len a :
  s mod 4096 = 0 → len mod 4096 = 0 →
  EPT.in_pages 4096 s len (a - a mod 4096) = (s <=? a) && (a <? s + len).
Proof.
  intros Hs Hl. apply Z.mod_divide in Hs as [q ->]; [|lia]. apply Z.mod_divide in Hl as [r ->]; [|lia].
  pose proof (Z.mod_pos_bound a 4096 ltac:(lia)). pose proof (Z.div_mod a 4096 ltac:(lia)) as Hdm.
  unfold EPT.in_pages. replace ((a - a mod 4096 - q * 4096) mod 4096 =? 0) with true.
  { rewrite andb_true_r. zcmp; done. }
  symmetry. apply Z.eqb_eq. replace (a - a mod 4096 - q * 4096) with ((a / 4096 - q) * 4096) by lia.
  apply Z.mod_mul. lia.
Qed.

Lemma page_range_count s len :
  page_range s len → ∃ n : nat, len = (Z.of_nat n + 1) * 4096 ∧ page_fuel 4096 len = S (S n).
Proof.
  intros (_ & _ & Hl & Hm & _). apply Z.mod_divide in Hm as [q ->]; [|lia].
  exists (Z.to_nat (q - 1)). split; [lia|]. unfold page_fuel. rewrite Z.div_mul by lia. lia.
Qed.

Lemma page_range_end s len : page_range s len → u64 (s + len) = s + len ∧ (s + len) mod 4096 = 0.
Proof.
  intros (? & Hs & ? & Hl & ?). split; [apply u64_small; lia|].
  rewrite <-Z.add_mod_idemp_l, Hs by lia. done.
Qed.

Lemma unmapRegion_ok p s len :
  regions_inv p → page_range s len →
  ∃ l t, unmapRegion s len p =
      Ok (tt, set_pTable t (set_memState (set_vmaList l (memState p)) p)) ∧
    vmas_ok l ∧ EPT.pt_wf 12 t ∧
    (∀ a b, maps l a b ↔ maps (vmaList (memState p)) a b ∧ ¬ (s ≤ a < s + len)) ∧
    (∀ a, EPT.pTable t !! a =
       if EPT.in_pages 4096 s len a then None else EPT.pTable (pTable p) !! a).
Proof.
  intros (Hok & Hpb & Hwf) Hr. pose proof Hr as (Hs0 & Hsm & Hl & Hlm & Hb).
  destruct (page_range_end s len Hr) as [E1 E2]. unfold unmapRegion. rewrite E1, Hpb.
  destruct (unmap_vmas_spec s (s + len) [] (vmaList (memState p))) as (l & -> & Hl' & Hmaps);
    [done|lia|done|done|]. cbn [mbind res_bind].
  destruct (page_range_count s len Hr) as (n & -> & ->).
  destruct (unmap_pages_spec n (S (S n)) (pTable p) s) as (t & -> & Hwf' & Ht);
    [lia|done|done|done|lia|].
  cbn [mbind res_bind]. exists l, t. split; [done|]. split; [done|]. split; [done|].
  split; [|done]. intros a b. rewrite Hmaps, maps_nil. tauto.
Qed.

(** C27: [unmapRegion] of a page-aligned range always succeeds, whatever areas
    it meets: afterwards no address of the range lies in an area or
    translates, every other address keeps its area, its file byte and its
    translation, and the areas are still disjoint and page aligned. *)
Theorem unmapRegion_removes p s len :
  regions_inv p → page_range s len →
  ∃ p', unmapRegion s len p = Ok (tt, p') ∧ regions_inv p' ∧
    (∀ a b, maps (vmaList (memState p')) a b ↔
       maps (vmaList (memState p)) a b ∧ ¬ (s ≤ a < s + len)) ∧
    (∀ a, is_u64 a → EPT.translate (pTable p') a =
       if (s <=? a) && (a <? s + len) then None else EPT.translate (pTable p) a).
Proof.
  intros Hinv Hr. destruct (unmapRegion_ok p s len Hinv Hr) as (l & t & -> & Hl & Hwf' & Hmaps & Ht).
  destruct Hinv as (_ & Hpb & Hwf). pose proof Hr as (_ & Hsm & _ & Hlm & _).
  eexists. split; [reflexivity|]. split; [by split|]. split; [done|].
  intros a Ha. simpl. rewrite !(EPT.translate_spec 12) by done. rewrite Ht.
  change (2 ^ 12) with 4096. rewrite in_pages_align by done. by case_match.
Qed.

(** [remapRegion] onto a free range away from the old one always
    succeeds: the walk over the growing list of areas terminates, each
    address of the new range takes over the area, file byte and translation
    of the old address, the old range becomes empty and nothing else
    changes. *)
Theorem remapRegion_moves p s ns len :
  regions_inv p → page_range s len → page_range ns len → s + len ≤ ns ∨ ns + len ≤ s →
  (∀ a b, maps (vmaList (memState p)) a b → ¬ (ns ≤ a < ns + len)) →
  (∀ a, ns ≤ a < ns + len → EPT.pTable (pTable p) !! a = None) →
  ∃ p', remapRegion s ns len p = Ok (tt, p') ∧ regions_inv p' ∧
    (∀ a b, maps (vmaList (memState p')) a b ↔
       if (ns <=? a) && (a <? ns + len) then maps (vmaList (memState p)) (s + (a - ns)) b
       else if (s <=? a) && (a <? s + len) then False
       else maps (vmaList (memState p)) a b) ∧
    (∀ a, is_u64 a → EPT.translate (pTable p') a =
       if (ns <=? a) && (a <? ns + len) then EPT.translate (pTable p) (s + (a - ns))
       else if (s <=? a) && (a <? s + len) then None else EPT.translate (pTable p) a).
Proof.
  intros (Hok & Hpb & Hwf) Hr Hnr Hd Hvfree Hpfree. pose proof Hr as (Hs0 & Hsm & Hl & Hlm & Hb).
  pose proof Hnr as (Hns0 & Hnsm & _ & _ & Hnb).
  destruct (page_range_end s len Hr) as [E1 E2]. unfold remapRegion. rewrite E1, Hpb.
  destruct (remap_vmas_spec s (s + len) ns ltac:(lia) Hsm E2 ltac:(lia)
    (2 * length (vmaList (memState p))) [] [] (vmaList (memState p)))
    as (pre & l & Hrv & Hmv & Hpok & Hpre).
  { done. } { constructor. }
  { unfold remap_fuel. etrans; [apply Nat.add_le_mono_l, length_filter|lia]. }
  rewrite Hrv. cbn [mbind res_bind].
  destruct (page_range_count s len Hr) as (n & Hn & ->).
  destruct (remap_pages_spec n (S (S n)) (pTable p) s ns) as (t & Ht & Hwf' & Htl);
    [lia|done|done|done|done|done|lia|lia|lia| |].
  { intros a Ha. apply Hpfree. rewrite Hn. by apply EPT.in_pages_range in Ha. }
  rewrite <-Hn in Ht, Htl. rewrite Ht. cbn [mbind res_bind].
  destruct (moves_result s (s + len) ns pre l Hmv Hpok) as [Hlok Hlm'].
  { intros v a Hv Hc Ha. exfalso. apply (Hvfree a (Vma.backing v a)); [|lia].
    apply Hpre. by exists v. }
  eexists. split; [reflexivity|]. split; [by split|]. simpl. split.
  - intros a b. rewrite Hlm', !Hpre. simpl. replace (a - ns + s) with (s + (a - ns)) by lia.
    pose proof (Hvfree a b).
    destruct (Z.leb_spec ns a), (Z.ltb_spec a (ns + len)), (Z.leb_spec s a),
      (Z.ltb_spec a (s + len)); simpl; intuition lia.
  - intros a Ha. rewrite (EPT.translate_spec 12 t) by done. rewrite Htl.
    change (2 ^ 12) with 4096. rewrite !in_pages_align by done.
    destruct ((ns <=? a) && (a <? ns + len)) eqn:E; bool_to_prop.
    + rewrite (EPT.translate_spec 12) by (done || (unfold is_u64; lia)).
      rewrite (EPT.page_shift 12 a s ns) by (done || lia). change (2 ^ 12) with 4096.
      by replace (s + (a - ns) - a mod 4096) with (s + (a - a mod 4096 - ns)) by lia.
    + rewrite (EPT.translate_spec 12) by done. change (2 ^ 12) with 4096. by case_match.
Qed.

(** ** A small process

    A file-backed area with two resident pages and an anonymous area in the
    NVM window with one. *)
Definition demo : Process :=
  mkProcess (Sys.mkSystem 4 1 (mkAddrRange 1 0 [] 0) 0x20000000)
    (EPT.mkPageTable
       {[ 0x10000 := EPT.mkEntry 0x1000 0; 0x11000 := EPT.mkEntry 0x3000 0;
          0x30000000 := EPT.mkEntry 0x30000000 0 ]} 4096 (Z.ones 12))
    (mkMemState 4096 0x8000 0x7fff0000 0x10000 0x10000 0x7ffe0000 0 0x11000 0x8000
       [Vma.sample_vma;
        Vma.mkVMA (mkAddrRange 0x30000000 0x30002000 [] 0) 4096 None 0 0 "anon"])
    [0] ∅.

Lemma demo_entries v e :
  EPT.pTable (pTable demo) !! v = Some e →
  (v = 0x10000 ∧ e = EPT.mkEntry 0x1000 0) ∨ (v = 0x11000 ∧ e = EPT.mkEntry 0x3000 0) ∨
  (v = 0x30000000 ∧ e = EPT.mkEntry 0x30000000 0).
Proof.
  unfold demo. cbn [pTable EPT.pTable].
  rewrite !lookup_insert_Some, lookup_singleton_Some. naive_solver.
Qed.

Lemma demo_free lo hi :
  hi ≤ 0x10000 ∨ 0x11000 < lo ∧ hi ≤ 0x30000000 ∨ 0x30000000 < lo →
  ∀ a, lo ≤ a < hi → EPT.pTable (pTable demo) !! a = None.
Proof.
  intros Hr a Ha. destruct (EPT.pTable (pTable demo) !! a) as [e|] eqn:E; [|done].
  apply demo_entries in E. lia.
Qed.

Lemma demo_regions : regions_inv demo.
Proof.
  split; [|split; [done|]].
  - split; [split; [apply Vma.sample_vma_wf|done]|]. split.
    + apply Forall_singleton. left. vm_compute. congruence.
    + split; [|done]. split; [|done]. repeat split; vm_compute; congruence.
  - split; [lia|]. split; [done|]. split; [done|]. intros v e He. apply demo_entries in He.
    unfold is_u64. naive_solver lia.
Qed.

Lemma demo_maps a b : maps (vmaList (memState demo)) a b →
  0x10000 ≤ a < 0x14000 ∨ 0x30000000 ≤ a < 0x30002000.
Proof.
  unfold demo. cbn [memState vmaList]. rewrite !maps_cons, maps_nil.
  intros [[Hc _]|[[Hc _]|[]]]; [left|right]; exact Hc.
Qed.

Lemma unmapRegion_removes_witness :
  ∃ p', unmapRegion 0x11000 0x2000 demo = Ok (tt, p') ∧
    EPT.translate (pTable p') 0x11010 = None ∧ EPT.translate (pTable p') 0x10010 = Some 0x1010.
Proof.
  destruct (unmapRegion_removes demo 0x11000 0x2000 demo_regions ltac:(repeat split; lia))
    as (p' & Hu & _ & _ & Ht).
  exists p'. split; [exact Hu|]. rewrite !Ht by (unfold is_u64; lia). split; vm_compute; reflexivity.
Defined.

Lemma remapRegion_moves_witness :
  ∃ p', remapRegion 0x11000 0x40000 0x2000 demo = Ok (tt, p') ∧
    EPT.translate (pTable p') 0x40010 = Some 0x3010 ∧ EPT.translate (pTable p') 0x11010 = None.
Proof.
  destruct (remapRegion_moves demo 0x11000 0x40000 0x2000 demo_regions
    ltac:(repeat split; lia) ltac:(repeat split; lia) ltac:(lia)) as (p' & Hu & _ & _ & Ht).
  { intros a b Hm. apply demo_maps in Hm. lia. }
  { intros a Ha. apply (demo_free 0x40000 0x42000); lia. }
  exists p'. split; [exact Hu|]. rewrite !Ht by (unfold is_u64; lia). split; vm_compute; reflexivity.
Defined.
