(* ===== verification/Heap.v ===== *)
(** * Creating regions ([sim/mem_state.cc])

    Proofs about [isUnmapped], [mapRegion], [updateBrkRegion] and
    [extendMmap]: new areas never overlap old ones, the heap grows without
    gaps, and the search for free address space ends at the first free
    slot. *)

From S2P Require Import Prelude.
From S2P Require Import Intmath.
From S2P Require Import AddrRange.
From S2P Require Import PageTable.
From S2P Require Import PhysAlloc.
From S2P Require Import Vma.
From S2P Require Import MemState.
From S2P Require Import ProcessMem.
From S2P Require Import Regions.

Import Proc.

(** ** [isUnmapped] *)

Definition vma_free (p : Process) (s len : Z) : Prop :=
  ∀ v, v ∈ vmaList (memState p) → Vma.end_ v ≤ s ∨ s + len ≤ Vma.start v.
Definition pages_free (p : Process) (s len : Z) : Prop :=
  ∀ a, EPT.in_pages 4096 s len a = true → EPT.pTable (pTable p) !! a = None.

Lemma any_intersects_spec l s e :
  vmas_ok l → s < e →
  ∃ b, any_intersects l (mkAddrRange s e [] 0) = Ok b ∧
    (b = false ↔ ∀ v, v ∈ l → Vma.end_ v ≤ s ∨ e ≤ Vma.start v).
Proof.
  intros Hok Hse. induction l as [|v l IH]; cbn [any_intersects].
  { exists false. split; [done|]. split; [|done]. intros _ v Hv. by apply elem_of_nil in Hv. }
  destruct Hok as (Hv & _ & Hok). destruct (range_tests v s e Hv Hse) as [_ ->].
  cbn [mbind res_bind]. destruct ((Vma.start v <? e) && (s <? Vma.end_ v)) eqn:E; bool_to_prop.
  - exists true. split; [done|]. split; [done|]. intros Hall. specialize (Hall v ltac:(left)). lia.
  - destruct (IH Hok) as (b & -> & Hb). exists b. split; [done|]. rewrite Hb.
    split; intros Hall w; [|intros; apply Hall; by right].
    intros [->|Hw]%elem_of_cons; [destruct E; bool_to_prop; lia|by apply Hall].
Qed.

Lemma no_page_loop_spec n fuel t s :
  (n ≤ fuel)%nat → EPT.pt_wf 12 t → 0 ≤ s → s mod 4096 = 0 →
  s + (Z.of_nat n + 1) * 4096 ≤ 2 ^ 64 →
  let len := Z.of_nat n * 4096 in
  ∃ r, no_page_loop fuel t 4096 s (s + len) = r ∧
    ((∀ a, EPT.in_pages 4096 s len a = true → EPT.pTable t !! a = None) → r = Ok true) ∧
    ((∃ a, EPT.in_pages 4096 s len a = true ∧ is_Some (EPT.pTable t !! a)) → r = Err PanicFail).
Proof.
  revert fuel s. induction n as [|n IH]; intros fuel s Hf Hwf Hs Hm Hb len.
  { exists (Ok true). unfold len. rewrite Z.mul_0_l, Z.add_0_r.
    split; [destruct fuel; cbn [no_page_loop]; by rewrite (proj2 (Z.ltb_ge _ _)) by lia|].
    split; [done|]. intros (a & Ha & _). by rewrite EPT.in_pages_empty in Ha by lia. }
  destruct fuel as [|fuel]; [lia|]. cbn [no_page_loop]. unfold len.
  rewrite (proj2 (Z.ltb_lt _ _)) by lia.
  assert (EPT.lookup t s = EPT.pTable t !! s) as ->.
  { unfold EPT.lookup. rewrite (EPT.pageAlign_spec 12) by (done || (unfold is_u64; lia)).
    change (2 ^ 12) with 4096. by rewrite Hm, Z.sub_0_r. }
  rewrite u64_small by lia.
  replace (s + Z.of_nat (S n) * 4096) with (s + 4096 + Z.of_nat n * 4096) by lia.
  destruct (IH fuel (s + 4096)) as (r & Hr & Hfree & Hused); [lia|done|lia| |lia|].
  { rewrite <-Z.add_mod_idemp_r, Z.mod_same, Z.add_0_r by lia. done. }
  assert (∀ a, EPT.in_pages 4096 s (Z.of_nat (S n) * 4096) a =
    (a =? s) || EPT.in_pages 4096 (s + 4096) (Z.of_nat n * 4096) a) as Hstep.
  { intros a. rewrite EPT.in_pages_step by lia. do 2 f_equal; lia. }
  destruct (EPT.pTable t !! s) as [e|] eqn:E.
  - exists (Err PanicFail). split; [done|]. split; [|done]. intros Hall.
    rewrite Hall in E; [done|]. rewrite Hstep. lia.
  - exists r. split; [done|]. split.
    + intros Hall. apply Hfree. intros a Ha. apply Hall. by rewrite Hstep, Ha, orb_true_r.
    + intros (a & Ha & Hx). apply Hused. exists a. split; [|done]. rewrite Hstep in Ha.
      destruct (Z.eqb_spec a s) as [Heq|]; [|done]. rewrite Heq, E in Hx. by destruct Hx.
Qed.

Lemma isUnmapped_spec p s len :
  regions_inv p → page_range s len →
  (vma_free p s len → pages_free p s len → isUnmapped p s len = Ok true) ∧
  (vma_free p s len → ¬ pages_free p s len → isUnmapped p s len = Err PanicFail) ∧
  (¬ vma_free p s len → isUnmapped p s len = Ok false).
Proof.
  intros (Hok & Hpb & Hwf) Hr. unfold isUnmapped.
  destruct (page_range_end s len Hr) as [-> _]. pose proof Hr as (Hs & Hm & Hl & Hlm & Hb).
  destruct (any_intersects_spec _ s (s + len) Hok ltac:(lia)) as (b & -> & Hb').
  cbn [mbind res_bind]. rewrite Hpb.
  apply Z.mod_divide in Hlm as [q ->]; [|lia].
  destruct (no_page_loop_spec (Z.to_nat q) (Z.to_nat (q * 4096)) (pTable p) s) as (r & Hr' & Hf & Hu);
    [lia|done|done|done|lia|].
  rewrite Z2Nat.id in Hr', Hf, Hu by lia. rewrite Hr'. unfold vma_free, pages_free. split; [|split].
  - intros Hv Hp. rewrite (proj2 Hb' Hv). by apply Hf.
  - intros Hv Hp. rewrite (proj2 Hb' Hv). apply Hu. by apply EPT.mapped_page.
  - intros Hv. destruct b; [done|]. destruct Hv. by apply Hb'.
Qed.

(** ** [mapRegion] *)

(** The file behind the new area: [fd = -1] is an anonymous mapping. *)
Definition file_ok (h : Vma.Host) (fd off len : Z) : Prop :=
  fd = -1 ∨ (0 ≤ off < Vma.st_size h fd ∧ Vma.st_size h fd < 2 ^ 63 ∧
             Vma.mmap_ok h (Z.min (Vma.st_size h fd - off) len) fd off = true).

Definition new_backing (h : Vma.Host) (fd off s len a : Z) : option (Z * Z) :=
  if fd =? -1 then None
  else if a - s <? Z.min (Vma.st_size h fd - off) len then Some (fd, off + (a - s)) else None.

Lemma VMA_new_ok h s len name fd off :
  page_range s len → file_ok h fd off len →
  ∃ v, Vma.VMA_new h (mkAddrRange s (s + len) [] 0) 4096 name fd off = Ok v ∧ vma_ok v ∧
    Vma.start v = s ∧ Vma.end_ v = s + len ∧
    ∀ a, Vma.backing v a = new_backing h fd off s len a.
Proof.
  intros Hr Hfile. pose proof Hr as (Hs & Hm & Hl & Hlm & Hb).
  destruct (page_range_end s len Hr) as [_ He]. unfold Vma.VMA_new, new_backing.
  assert (size (mkAddrRange s (s + len) [] 0) = len) as Hsz.
  { unfold size. simpl. rewrite Z.shiftr_0_r. replace (s + len - s) with len by lia.
    apply u64_small. lia. }
  destruct (Z.eqb_spec fd (-1)) as [->|Hfd]; simpl.
  - rewrite Vma.sanityCheck_ok by (unfold Vma.start, Vma.end_; simpl; (done || lia)).
    simpl. eexists. split; [reflexivity|]. split; [|done].
    split; [|done]. unfold Vma.vma_wf, Vma.start, Vma.end_; simpl. repeat split; (done || lia).
  - destruct Hfile as [?|(Ho & Hst & Hmm)]; [done|]. rewrite Hsz. unfold Vma.MappedFileBuffer.
    rewrite (proj2 (Z.eqb_neq len 0)), (proj2 (Z.ltb_ge _ _)) by lia.
    rewrite u64_small by lia. cbn [mbind res_bind panic_if].
    rewrite (proj2 (Z.eqb_neq _ 0)) by lia. rewrite Hmm. simpl.
    rewrite Vma.sanityCheck_ok by (unfold Vma.start, Vma.end_; simpl; (done || lia)).
    simpl. eexists. split; [reflexivity|]. split; [|done].
    split; [|done]. unfold Vma.vma_wf, Vma.start, Vma.end_; simpl. repeat split; (done || lia).
Qed.

Lemma option_eq_sym (x y : option (Z * Z)) : x = y ↔ y = x.
Proof. by split. Qed.

Lemma mapRegion_ok h p s len name fd off :
  regions_inv p → page_range s len → file_ok h fd off len →
  vma_free p s len → pages_free p s len →
  ∃ v, let p' := set_memState (set_vmaList (vmaList (memState p) ++ [v]) (memState p)) p in
    mapRegion h s len name fd off p = Ok (tt, p') ∧ regions_inv p' ∧
    Vma.start v = s ∧ Vma.end_ v = s + len ∧
    ∀ a, Vma.backing v a = new_backing h fd off s len a.
Proof.
  intros Hinv Hr Hfile Hv Hp. destruct (isUnmapped_spec p s len Hinv Hr) as (Hu & _).
  destruct Hinv as (Hok & Hpb & Hwf). unfold mapRegion. rewrite (Hu Hv Hp).
  cbn [mbind res_bind assertb]. destruct (page_range_end s len Hr) as [-> _]. rewrite Hpb.
  destruct (VMA_new_ok h s len name fd off Hr Hfile) as (v & -> & Hvok & H1 & H2 & H3).
  exists v. split; [done|]. split; [|done]. split; [|by split]. simpl.
  rewrite Permutation_app_comm. simpl. split; [done|]. split; [|done].
  apply Forall_forall. intros w Hw. specialize (Hv w Hw). unfold apart. lia.
Qed.

(** [mapRegion] accepts a range exactly when no area meets it, and then
    the new area covers the range and nothing else, with the bytes of the
    file behind it as far as the file reaches; a range that meets an area is
    stopped by the assertion, and pages mapped outside every area by the
    panic. *)
Theorem mapRegion_adds h p s len name fd off :
  regions_inv p → page_range s len → file_ok h fd off len →
  (vma_free p s len → pages_free p s len →
   ∃ p', mapRegion h s len name fd off p = Ok (tt, p') ∧ regions_inv p' ∧
     pTable p' = pTable p ∧
     ∀ a b, maps (vmaList (memState p')) a b ↔
       if (s <=? a) && (a <? s + len) then b = new_backing h fd off s len a
       else maps (vmaList (memState p)) a b) ∧
  (vma_free p s len → ¬ pages_free p s len →
   mapRegion h s len name fd off p = Err PanicFail) ∧
  (¬ vma_free p s len → mapRegion h s len name fd off p = Err AssertFail).
Proof.
  intros Hinv Hr Hfile. destruct (isUnmapped_spec p s len Hinv Hr) as (_ & Hu2 & Hu3).
  split; [|split].
  - intros Hv Hp. destruct (mapRegion_ok h p s len name fd off Hinv Hr Hfile Hv Hp)
      as (v & Hm & Hinv' & H1 & H2 & H3).
    eexists. split; [exact Hm|]. split; [done|]. split; [done|]. intros a b. simpl.
    rewrite maps_app, maps_cons, maps_nil, H3. unfold Vma.covers. rewrite H1, H2.
    assert (maps (vmaList (memState p)) a b → ¬ (s ≤ a < s + len)) as Hout.
    { intros (w & Hw & Hc & _) Ha. specialize (Hv w Hw). unfold Vma.covers in Hc. lia. }
    rewrite (option_eq_sym _ b).
    destruct (Z.leb_spec s a), (Z.ltb_spec a (s + len)); simpl; intuition lia.
  - intros Hv Hp. unfold mapRegion. by rewrite Hu2.
  - intros Hv. unfold mapRegion. by rewrite Hu3.
Qed.

(** ** The heap *)

(** [updateBrkRegion] on every branch.  Shrinking the break, or moving it
    inside the pages already mapped, only records it; growing it past them
    maps exactly the missing pages as a new area and records both break and
    end; and when another area is in the way nothing changes at all. *)
Theorem brk_grows_or_fails h p old new :
  regions_inv p → 0 ≤ old → 0 ≤ new < 2 ^ 62 →
  0 ≤ endBrkPoint (memState p) < 2 ^ 63 → endBrkPoint (memState p) mod 4096 = 0 →
  let m := memState p in
  let top := new + (- new) mod 4096 in
  let len := top - endBrkPoint m in
  (new < old ∨ top ≤ endBrkPoint m →
   updateBrkRegion h old new p = Ok (tt, set_memState (set_brk new (endBrkPoint m) m) p)) ∧
  (old ≤ new → endBrkPoint m < top → vma_free p (endBrkPoint m) len →
   pages_free p (endBrkPoint m) len →
   ∃ p', updateBrkRegion h old new p = Ok (tt, p') ∧ regions_inv p' ∧
     brkPoint (memState p') = new ∧ endBrkPoint (memState p') = top ∧
     ∀ a b, maps (vmaList (memState p')) a b ↔
       if (endBrkPoint m <=? a) && (a <? top) then b = None else maps (vmaList m) a b) ∧
  (old ≤ new → endBrkPoint m < top → ¬ vma_free p (endBrkPoint m) len →
   updateBrkRegion h old new p = Ok (tt, p)).
Proof.
  intros Hinv Hold Hnew Hend Hem m top len.
  pose proof Hinv as (Hok & Hpb & Hwf). fold m in Hpb, Hend, Hem.
  pose proof (Z.mod_pos_bound (- new) 4096 ltac:(lia)) as Hmb.
  assert (roundUp new (pageBytes m) = Ok top) as Hru.
  { rewrite Hpb. change 4096 with (2 ^ 12). rewrite roundUp_spec by lia. done. }
  assert (top mod 4096 = 0) as Htm.
  { unfold top. rewrite Z.add_mod_idemp_r by lia. by rewrite Z.add_opp_diag_r. }
  assert (endBrkPoint m < top → page_range (endBrkPoint m) len ∧ u64 len = len) as Hrange.
  { intros Hlt. unfold len. split; [|apply u64_small; unfold top in *; lia].
    repeat split; try lia.
    rewrite Zminus_mod, Htm, Hem. done. }
  unfold updateBrkRegion. fold m. rewrite Hru. split; [|split].
  - intros Hc. destruct (Z.ltb_spec new old); [done|]. cbn [mbind res_bind].
    rewrite (proj2 (Z.ltb_ge _ _)) by lia. done.
  - intros Hge Hlt Hv Hp. destruct (Hrange Hlt) as [Hr Hu].
    rewrite (proj2 (Z.ltb_ge new old)) by lia. cbn [mbind res_bind].
    rewrite (proj2 (Z.ltb_lt _ _) Hlt). fold len. rewrite Hu.
    destruct (isUnmapped_spec p _ _ Hinv Hr) as (Hum & _). rewrite (Hum Hv Hp).
    cbn [mbind res_bind].
    destruct (mapRegion_ok h p (endBrkPoint m) len "heap" (-1) 0 Hinv Hr ltac:(by left) Hv Hp)
      as (v & -> & Hinv' & H1 & H2 & H3).
    eexists. split; [reflexivity|]. split; [exact Hinv'|]. split; [done|]. split; [done|].
    intros a b. simpl. rewrite maps_app, maps_cons, maps_nil, H3. unfold Vma.covers.
    rewrite H1, H2. fold m. replace (endBrkPoint m + len) with top by (unfold len; lia).
    assert (maps (vmaList m) a b → ¬ (endBrkPoint m ≤ a < top)) as Hout.
    { intros (w & Hw & Hc & _) Ha. specialize (Hv w Hw). unfold Vma.covers, len in *. lia. }
    unfold new_backing. simpl. rewrite (option_eq_sym _ b).
    destruct (Z.leb_spec (endBrkPoint m) a), (Z.ltb_spec a top); simpl; intuition lia.
  - intros Hge Hlt Hv. destruct (Hrange Hlt) as [Hr Hu].
    rewrite (proj2 (Z.ltb_ge new old)) by lia. cbn [mbind res_bind].
    rewrite (proj2 (Z.ltb_lt _ _) Hlt). fold len. rewrite Hu.
    destruct (isUnmapped_spec p _ _ Hinv Hr) as (_ & _ & Hum). by rewrite (Hum Hv).
Qed.

(** ** The search for free address space *)

(** The [i]-th place tried. *)
Definition slot (p : Process) (down : bool) (len : Z) (i : Z) : Z :=
  if down then mmapEnd (memState p) - len - i * 4096 else mmapEnd (memState p) + i * 4096.

(** [extendMmap] returns the first place, going down or up from the end
    of the mmap area a page at a time, whose range meets no area, and moves
    the end of the mmap area there; it ends after as many steps as there are
    occupied places before it. *)
Theorem extendMmap_first_fit p down len (n fuel : nat) :
  regions_inv p → (n ≤ fuel)%nat →
  (∀ i, 0 ≤ i ≤ Z.of_nat n → page_range (slot p down len i) len) →
  (∀ i, 0 ≤ i < Z.of_nat n → ¬ vma_free p (slot p down len i) len) →
  vma_free p (slot p down len (Z.of_nat n)) len →
  pages_free p (slot p down len (Z.of_nat n)) len →
  let start := slot p down len (Z.of_nat n) in
  extendMmap fuel down len p =
    Ok (start, set_memState (set_mmapEnd (if down then start else start + len) (memState p)) p).
Proof.
  intros Hinv Hfuel Hrange Hocc Hv Hp start. pose proof Hinv as (_ & Hpb & _).
  assert (∀ (j : nat) f, (j ≤ n)%nat → (j ≤ f)%nat →
    extend_loop f p down (slot p down len (Z.of_nat n - Z.of_nat j)) len = Ok start) as Hloop.
  { induction j as [|j IH]; intros f Hj Hf.
    - rewrite Z.sub_0_r. fold start. pose proof (Hrange (Z.of_nat n) ltac:(lia)) as Hr.
      destruct (isUnmapped_spec p start len Hinv Hr) as (Hu & _).
      destruct f; cbn [extend_loop]; by rewrite (Hu Hv Hp).
    - destruct f as [|f]; [lia|]. cbn [extend_loop].
      pose proof (Hrange (Z.of_nat n - Z.of_nat (S j)) ltac:(lia)) as Hr.
      destruct (isUnmapped_spec p _ len Hinv Hr) as (_ & _ & Hu).
      rewrite Hu by (apply Hocc; lia). cbn [mbind res_bind]. rewrite Hpb.
      assert ((if down then u64 (slot p down len (Z.of_nat n - Z.of_nat (S j)) - 4096)
        else u64 (slot p down len (Z.of_nat n - Z.of_nat (S j)) + 4096)) =
        slot p down len (Z.of_nat n - Z.of_nat j)) as ->; [|apply IH; lia].
      destruct (Hrange (Z.of_nat n - Z.of_nat j) ltac:(lia)) as (? & _ & ? & _ & ?).
      unfold slot in *. destruct down; rewrite u64_small; lia. }
  unfold extendMmap.
  assert ((if down then u64 (mmapEnd (memState p) - len) else mmapEnd (memState p)) =
    slot p down len (Z.of_nat n - Z.of_nat n)) as ->.
  { rewrite Z.sub_diag. destruct (Hrange 0 ltac:(lia)) as (? & _ & ? & _ & ?).
    unfold slot in *. destruct down; [rewrite u64_small|]; lia. }
  rewrite Hloop by lia. cbn [mbind res_bind].
  pose proof (Hrange (Z.of_nat n) ltac:(lia)) as (? & _ & ? & _ & ?).
  rewrite u64_small by (unfold start; lia). done.
Qed.

(** ** Instances *)

Definition demo_host : Vma.Host := Vma.mkHost (λ _, 0x2a00) (λ _ o, o mod 256) (λ _ _ _, true).

Lemma demo_vma_free s len :
  s + len ≤ 0x10000 ∨ (0x14000 ≤ s ∧ s + len ≤ 0x30000000) → vma_free demo s len.
Proof.
  intros Hr v Hv. unfold demo in Hv. cbn [memState vmaList] in Hv.
  rewrite !elem_of_cons, elem_of_nil in Hv. destruct Hv as [->|[->|[]]];
    unfold Vma.start, Vma.end_; simpl; lia.
Qed.

Lemma demo_pages_free s len :
  s + len ≤ 0x10000 ∨ (0x14000 ≤ s ∧ s + len ≤ 0x30000000) → pages_free demo s len.
Proof.
  intros Hr a Ha. apply EPT.in_pages_range in Ha. apply (demo_free s (s + len)); lia.
Qed.

Lemma mapRegion_adds_witness :
  ∃ p', mapRegion demo_host 0x20000 0x3000 "file" 3 0x200 demo = Ok (tt, p') ∧
    maps (vmaList (memState p')) 0x21004 (Some (3, 0x1204)).
Proof.
  destruct (mapRegion_adds demo_host demo 0x20000 0x3000 "file" 3 0x200 demo_regions
    ltac:(repeat split; lia)) as [H _].
  { right. simpl. repeat split; lia. }
  destruct (H ltac:(apply demo_vma_free; lia) ltac:(apply demo_pages_free; lia))
    as (p' & Hm & _ & _ & Hmaps).
  exists p'. split; [exact Hm|]. apply Hmaps. reflexivity.
Defined.

Lemma brk_grows_or_fails_witness :
  ∃ p', updateBrkRegion demo_host 0x8000 0x9800 demo = Ok (tt, p') ∧
    endBrkPoint (memState p') = 0xa000 ∧ maps (vmaList (memState p')) 0x9900 None.
Proof.
  destruct (brk_grows_or_fails demo_host demo 0x8000 0x9800 demo_regions ltac:(lia) ltac:(lia)
    ltac:(simpl; lia) ltac:(reflexivity)) as (_ & H & _).
  destruct (H ltac:(lia) ltac:(vm_compute; reflexivity)
    ltac:(apply demo_vma_free; vm_compute; left; congruence)
    ltac:(apply demo_pages_free; vm_compute; left; congruence)) as (p' & Hu & _ & _ & He & Hm).
  exists p'. split; [exact Hu|]. split; [exact He|]. apply Hm. reflexivity.
Defined.

Lemma extendMmap_first_fit_witness :
  ∃ p', extendMmap 8 true 0x1000 demo = Ok (0xf000, p').
Proof.
  eexists. refine (extendMmap_first_fit demo true 0x1000 1 8 demo_regions _ _ _ _ _).
  - lia.
  - intros i Hi. assert (i = 0 ∨ i = 1) as [->| ->] by lia; repeat split; vm_compute; congruence.
  - intros i Hi Hfree. assert (i = 0) as -> by lia.
    specialize (Hfree Vma.sample_vma ltac:(left)). vm_compute in Hfree. destruct Hfree; congruence.
  - apply demo_vma_free. vm_compute. left. congruence.
  - apply demo_pages_free. vm_compute. left. congruence.
Defined.
