(* ===== verification/Paging.v ===== *)
(** * Copies through the page table and demand paging

    Proofs about the port proxies ([mem/port_proxy.cc],
    [mem/translating_port_proxy.cc]) and [MemState::fixupFault]
    ([sim/mem_state.cc]). *)

From S2P Require Import Prelude.
From S2P Require Import Intmath.
From S2P Require Import Bytes.
From S2P Require Import AddrRange.
From S2P Require Import ChunkGenerator.
From S2P Require Import PageTable.
From S2P Require Import PhysAlloc.
From S2P Require Import Vma.
From S2P Require Import MemState.
From S2P Require Import ProcessMem.
From S2P Require Import Regions.

Import Proc.

Lemma writePhys_loop_spec st lo hi c cs p m :
  tiles st lo hi c cs → Z.of_nat (length p) = hi - lo →
  writePhys_loop cs p m = mem_write m lo p.
Proof.
  revert lo p m. induction cs as [|[[a n] k] cs IH]; intros lo p m Ht Hl; simpl in Ht.
  - destruct p; [done|]. simpl in Hl. lia.
  - destruct Ht as (-> & _ & Hn & _ & _ & Ht). cbn [writePhys_loop].
    assert (lo + n ≤ hi) as Hle.
    { clear -Ht. revert Ht. generalize (lo + n). induction cs as [|[[a' n'] k'] cs IH]; simpl;
        [lia|]. intros z (-> & _ & ? & _ & _ & Ht). specialize (IH _ Ht). lia. }
    assert (length (take (Z.to_nat n) p) = Z.to_nat n) as Htk by (rewrite length_take; lia).
    rewrite (IH (lo + n)); [|done|rewrite length_drop; lia].
    rewrite <-(take_drop (Z.to_nat n) p) at 3. rewrite mem_write_app, Htk. f_equal. lia.
Qed.

Lemma tiles_le st lo hi c cs : tiles st lo hi c cs → lo ≤ hi.
Proof.
  revert lo. induction cs as [|[[a n] k] cs IH]; simpl; intros lo Ht; [lia|].
  destruct Ht as (-> & _ & ? & _ & _ & Ht). specialize (IH _ Ht). lia.
Qed.

Lemma readPhys_loop_spec st lo hi c cs m :
  tiles st lo hi c cs → readPhys_loop cs m = mem_read m lo (Z.to_nat (hi - lo)).
Proof.
  revert lo. induction cs as [|[[a n] k] cs IH]; intros lo Ht; simpl in Ht.
  - subst. by rewrite Z.sub_diag.
  - destruct Ht as (-> & _ & Hn & _ & _ & Ht). cbn [readPhys_loop]. rewrite (IH _ Ht).
    pose proof (tiles_le _ _ _ _ _ Ht).
    replace (Z.to_nat (hi - lo)) with (Z.to_nat n + Z.to_nat (hi - (lo + n)))%nat by lia.
    rewrite mem_read_app. do 2 f_equal. lia.
Qed.

(** ** Translation *)

(** Where the page table puts an address, if anywhere. *)
Abbreviation tr s a := (EPT.translate (pTable s) a).

Lemma lor_offset f off : 0 ≤ f → 0 ≤ off < 4096 → Z.lor (f * 4096) off = f * 4096 + off.
Proof.
  intros Hf Ho. symmetry. rewrite Z.add_nocarry_lxor, Z.lxor_lor; try done;
    apply Z.bits_inj'; intros i Hi; rewrite Z.land_spec, Z.testbit_0_l;
    change 4096 with (2 ^ 12) in *; rewrite Z.mul_pow2_bits by lia;
    (destruct (Z.ltb_spec i 12); [by rewrite Z.testbit_neg_r by lia|]);
    rewrite (testbit_above off 12 i) by lia; apply andb_false_r.
Qed.

Lemma translateFunctional_mapped fixup a mode s pa :
  EPT.pt_wf 12 (pTable s) → is_u64 a → tr s a = Some pa →
  translateFunctional fixup a mode s = Ok (Some pa, s).
Proof.
  intros Hwf Ha Htr. unfold translateFunctional. unfold mbind, stM_bind, get_st; simpl.
  unfold EPT.translate in Htr.
  destruct (EPT.lookup (pTable s) a) as [e|] eqn:El; [|done]. injection Htr as <-.
  unfold mret, stM_ret. do 4 f_equal.
  pose proof (EPT.pageOffset_spec 12 (pTable s) a Hwf) as Eo. change (2 ^ 12) with 4096 in Eo.
  rewrite Eo. pose proof (Z.mod_pos_bound a 4096 ltac:(lia)).
  unfold EPT.lookup in El. destruct Hwf as (_ & _ & _ & Hent).
  destruct (Hent _ _ El) as (_ & Hp & _ & Hm). change (2 ^ 12) with 4096 in Hm.
  unfold is_u64 in Hp. apply Z.mod_divide in Hm as [q Hq]; [|lia]. rewrite Hq in *.
  rewrite lor_offset by lia. rewrite u64_small; lia.
Qed.

Lemma tryTLBs_mapped fixup alloc a mode s pa :
  EPT.pt_wf 12 (pTable s) → is_u64 a → tr s a = Some pa →
  tryTLBs fixup alloc a mode s = Ok (Some pa, s).
Proof.
  intros Hwf Ha Htr. unfold tryTLBs, tryTLBsOnce. unfold mbind, stM_bind.
  by rewrite (translateFunctional_mapped fixup a mode s pa).
Qed.

(** Inside a page, translation adds the offset. *)
Lemma tr_offset s a i pa :
  EPT.pt_wf 12 (pTable s) → is_u64 a → 0 ≤ i → a mod 4096 + i < 4096 → is_u64 (a + i) →
  tr s a = Some pa → tr s (a + i) = Some (pa + i).
Proof.
  intros Hwf Ha Hi Hin Ha'. rewrite !(EPT.translate_spec 12) by done. change (2 ^ 12) with 4096.
  pose proof (Z.mod_pos_bound a 4096 ltac:(lia)).
  assert ((a + i) mod 4096 = a mod 4096 + i) as ->.
  { symmetry. apply (Zmod_unique _ _ (a / 4096)); [lia|].
    pose proof (Z.div_mod a 4096 ltac:(lia)). lia. }
  replace (a + i - (a mod 4096 + i)) with (a - a mod 4096) by lia.
  intros (e & -> & ->)%fmap_Some. simpl. f_equal. lia.
Qed.

Lemma tr_inj s a b pa :
  proc_inv s → is_u64 a → is_u64 b → tr s a = Some pa → tr s b = Some pa → a = b.
Proof.
  intros (_ & _ & _ & _ & Hwf & _ & Hinj) Ha Hb Hta Htb.
  destruct (EPT.translate_page 12 _ a pa Hwf Ha Hta) as [Hma _].
  destruct (EPT.translate_page 12 _ b pa Hwf Hb Htb) as [Hmb _].
  rewrite (EPT.translate_spec 12) in Hta, Htb by done. change (2 ^ 12) with 4096 in *.
  apply fmap_Some in Hta as (e1 & H1 & E1). apply fmap_Some in Htb as (e2 & H2 & E2).
  assert (a - a mod 4096 = b - b mod 4096).
  { eapply Hinj; [exact H1|exact H2|]. unfold frame. f_equal. lia. }
  lia.
Qed.

Lemma tr_bound s a pa : proc_inv s → is_u64 a → tr s a = Some pa → 0 ≤ pa < 2 ^ 33.
Proof.
  intros (Hs & Hm5 & Hmem & Hnv & Hwf & Hown & _) Ha Ht.
  rewrite (EPT.translate_spec 12) in Ht by done. change (2 ^ 12) with 4096 in *.
  apply fmap_Some in Ht as (e & He & ->). pose proof (Z.mod_pos_bound a 4096 ltac:(lia)).
  destruct (Hown _ _ He) as [H0 Ho]. unfold frame, Sys.nvm_page in *.
  destruct Hwf as (_ & _ & _ & Hent). destruct (Hent _ _ He) as (_ & _ & _ & Hm).
  pose proof (Z.div_mod (EPT.paddr e) 4096 ltac:(lia)). destruct Hm5 as [? _].
  change (2 ^ 12) with 4096 in Hm. assert (EPT.paddr e / 4096 < 0x100000) by lia. lia.
Qed.

Section paging.
Context (h : Vma.Host) (lc : Z).
Hypothesis Hlc : 0 ≤ lc < 16.

Lemma line_bound : 0 < 2 ^ lc < 2 ^ 16.
Proof. split; [lia|]. apply Z.pow_lt_mono_r; lia. Qed.

Lemma writeBlobPhys_spec a p s :
  0 ≤ a < 2 ^ 34 → Z.of_nat (length p) < 2 ^ 31 →
  writeBlobPhys (2 ^ lc) a p s = Ok (tt, set_mem (mem_write (mem s) a p) s).
Proof.
  intros Ha Hp. pose proof line_bound.
  destruct (chunks_tiles a (Z.of_nat (length p)) lc) as (cs & Hc & Ht); [lia..|].
  unfold writeBlobPhys. rewrite Hc. cbn [mbind res_bind].
  rewrite (writePhys_loop_spec _ _ _ _ _ _ _ Ht) by lia. done.
Qed.

Lemma readBlobPhys_spec a n s :
  0 ≤ a < 2 ^ 34 → 0 ≤ n < 2 ^ 31 →
  readBlobPhys (2 ^ lc) a n s = Ok (mem_read (mem s) a (Z.to_nat n), s).
Proof.
  intros Ha Hn. pose proof line_bound.
  destruct (chunks_tiles a n lc) as (cs & Hc & Ht); [lia..|].
  unfold readBlobPhys. rewrite Hc. cbn [mbind res_bind].
  rewrite (readPhys_loop_spec _ _ _ _ _ _ Ht). by replace (a + n - a) with n by lia.
Qed.

(** The whole region is mapped. *)
Definition mapped (s : Process) (lo hi : Z) : Prop :=
  ∀ a, lo ≤ a < hi → ∃ pa, tr s a = Some pa.

Lemma writeBlob_loop_spec fixup alloc st lo hi cs p s :
  proc_inv s → 0 ≤ lo → hi < 2 ^ 64 → hi - lo < 2 ^ 31 →
  tiles st lo hi 4096 cs → mapped s lo hi → Z.of_nat (length p) = hi - lo →
  ∃ m, writeBlob_loop (2 ^ lc) fixup alloc cs p s = Ok (true, set_mem m s) ∧
    (∀ a pa, lo ≤ a < hi → tr s a = Some pa → m !! pa = p !! Z.to_nat (a - lo)) ∧
    (∀ x, (∀ a, lo ≤ a < hi → tr s a ≠ Some x) → m !! x = mem s !! x).
Proof.
  intros Hinv. revert s lo p Hinv. induction cs as [|[[a n] k] cs IH];
    intros s lo p Hinv Hlo Hhi Hsz Ht Hmap Hlen; cbn [writeBlob_loop].
  { simpl in Ht. exists (mem s). split; [by destruct s|]. split; [lia|done]. }
  simpl in Ht. destruct Ht as (-> & _ & Hn & Hfit & _ & Ht).
  pose proof (tiles_le _ _ _ _ _ Ht) as Hle.
  destruct (Hmap lo ltac:(lia)) as [pa Hpa]. pose proof Hinv as (_ & _ & _ & _ & Hwf & _).
  assert (is_u64 lo) as Hulo by (unfold is_u64; lia).
  pose proof (tr_bound _ _ _ Hinv Hulo Hpa) as Hpab.
  unfold mbind, stM_bind. rewrite (tryTLBs_mapped fixup alloc lo Write s pa) by done.
  pose proof (Z.mod_pos_bound lo 4096 ltac:(lia)).
  assert (length (take (Z.to_nat n) p) = Z.to_nat n) as Htk by (rewrite length_take; lia).
  rewrite writeBlobPhys_spec by (rewrite ?Htk; lia).
  set (s1 := set_mem (mem_write (mem s) pa (take (Z.to_nat n) p)) s).
  destruct (IH s1 (lo + n) (drop (Z.to_nat n) p)) as (m & Hm & Hin & Hout);
    [done|lia|lia|lia|done|intros b Hb; apply Hmap; lia|rewrite length_drop; lia|].
  exists m. split; [exact Hm|].
  assert (∀ i, 0 ≤ i < n → tr s (lo + i) = Some (pa + i)) as Hch.
  { intros i Hi. apply tr_offset; (done || unfold is_u64; lia). }
  split.
  - intros b pb Hb Htb. destruct (Z.ltb_spec b (lo + n)).
    + assert (pb = pa + (b - lo)) as ->.
      { pose proof (Hch (b - lo) ltac:(lia)) as Hx. replace (lo + (b - lo)) with b in Hx by lia.
        congruence. }
      rewrite Hout.
      * simpl. rewrite mem_write_lookup, Htk.
        replace ((pa <=? pa + (b - lo)) && (pa + (b - lo) <? pa + Z.of_nat (Z.to_nat n)))
          with true by zcmp.
        replace (pa + (b - lo) - pa) with (b - lo) by lia.
        apply lookup_take_lt. lia.
      * intros c Hc Htc. assert (c = b) as ->; [|lia].
        apply (tr_inj s c b (pa + (b - lo))); (done || unfold is_u64; lia).
    + rewrite (Hin b pb) by (done || lia). rewrite lookup_drop. f_equal. lia.
  - intros x Hx. rewrite Hout by (intros c Hc; apply Hx; lia). simpl.
    rewrite mem_write_lookup, Htk. case_match eqn:E; [|done]. bool_to_prop.
    destruct (Hx (lo + (x - pa)) ltac:(lia)). rewrite Hch by lia. f_equal. lia.
Qed.

Lemma readBlob_loop_spec fixup alloc st lo hi cs s :
  proc_inv s → 0 ≤ lo → hi < 2 ^ 64 → hi - lo < 2 ^ 31 →
  tiles st lo hi 4096 cs → mapped s lo hi →
  ∃ l, readBlob_loop (2 ^ lc) fixup alloc cs s = Ok (Some l, s) ∧
    Z.of_nat (length l) = hi - lo ∧
    (∀ a pa, lo ≤ a < hi → tr s a = Some pa →
       l !! Z.to_nat (a - lo) = Some (default 0 (mem s !! pa))).
Proof.
  intros Hinv. revert lo. induction cs as [|[[a n] k] cs IH];
    intros lo Hlo Hhi Hsz Ht Hmap; cbn [readBlob_loop].
  { simpl in Ht. exists []. split; [done|]. split; [simpl; lia|lia]. }
  simpl in Ht. destruct Ht as (-> & _ & Hn & Hfit & _ & Ht).
  pose proof (tiles_le _ _ _ _ _ Ht) as Hle.
  destruct (Hmap lo ltac:(lia)) as [pa Hpa]. pose proof Hinv as (_ & _ & _ & _ & Hwf & _).
  assert (is_u64 lo) as Hulo by (unfold is_u64; lia).
  pose proof (tr_bound _ _ _ Hinv Hulo Hpa) as Hpab.
  unfold mbind, stM_bind. rewrite (tryTLBs_mapped fixup alloc lo Read s pa) by done.
  rewrite readBlobPhys_spec by lia.
  destruct (IH (lo + n)) as (l & -> & Hll & Hl);
    [lia|lia|lia|done|intros b Hb; apply Hmap; lia|].
  eexists. split; [reflexivity|]. rewrite length_app, mem_read_length. split; [lia|].
  intros b pb Hb Htb. pose proof (Z.mod_pos_bound lo 4096 ltac:(lia)).
  destruct (Z.ltb_spec b (lo + n)).
  - rewrite lookup_app_l by (rewrite mem_read_length; lia).
    rewrite mem_read_lookup by lia. do 3 f_equal.
    pose proof (tr_offset s lo (b - lo) pa Hwf Hulo) as Hx.
    replace (lo + (b - lo)) with b in Hx by lia.
    rewrite Hx in Htb by (done || unfold is_u64; lia). injection Htb as <-. lia.
  - rewrite lookup_app_r by (rewrite mem_read_length; lia). rewrite mem_read_length.
    rewrite <-(Hl b pb) by (done || lia). f_equal. lia.
Qed.

Lemma tryWriteBlob_spec fixup alloc lo p s :
  proc_inv s → 0 ≤ lo → lo + Z.of_nat (length p) < 2 ^ 63 → Z.of_nat (length p) < 2 ^ 31 →
  mapped s lo (lo + Z.of_nat (length p)) →
  ∃ m, tryWriteBlob (2 ^ lc) fixup alloc lo p s = Ok (true, set_mem m s) ∧
    (∀ a pa, lo ≤ a < lo + Z.of_nat (length p) → tr s a = Some pa →
       m !! pa = p !! Z.to_nat (a - lo)) ∧
    (∀ x, (∀ a, lo ≤ a < lo + Z.of_nat (length p) → tr s a ≠ Some x) → m !! x = mem s !! x).
Proof.
  intros Hinv Hlo Hhi Hsz Hmap.
  destruct (chunks_tiles lo (Z.of_nat (length p)) 12) as (cs & Hc & Ht); [lia..|].
  unfold tryWriteBlob. rewrite PageBytes_eq. unfold mbind, stM_bind, lift.
  change 4096 with (2 ^ 12). rewrite Hc.
  apply (writeBlob_loop_spec fixup alloc lo lo (lo + Z.of_nat (length p)) cs p s);
    [done|lia|lia|lia|done|done|lia].
Qed.

Lemma set_mem_translates m s a : tr (set_mem m s) a = tr s a.
Proof. done. Qed.

(** ** Faults *)

(** Only the bytes of memory change while a page is filled. *)
Lemma fill_contexts_spec fixup cids v page s fd :
  proc_inv s → vma_ok v → Vma.end_ v < 2 ^ 62 → Vma.origHostBuf v = Some fd →
  page mod 4096 = 0 → Vma.start v ≤ page → page + 4096 ≤ Vma.end_ v →
  is_Some (EPT.pTable (pTable s) !! page) →
  ∃ m, fill_contexts h (2 ^ lc) fixup cids v page s = Ok (tt, set_mem m s) ∧
    (cids = [] → m = mem s) ∧
    (cids ≠ [] → ∀ a pa fo, page ≤ a < page + 4096 → tr s a = Some pa →
       Vma.backing v a = Some (fd, fo) → m !! pa = Some (Vma.file_byte h fd fo)).
Proof.
  intros Hinv Hv Hend Hfd Hpm Hs He Hpg. revert s Hinv Hpg.
  induction cids as [|c cids IH]; intros s Hinv Hpg.
  { exists (mem s). split; [by destruct s|]. by split. }
  assert (0 ≤ Vma.start v) as Hs0 by apply Hv.
  assert (Vma.pageBytes v = 4096) as Hpb by apply Hv.
  pose proof Hinv as (_ & _ & _ & _ & Hwf & _).
  assert (mapped s page (page + 4096)) as Hmapped.
  { intros a Ha. rewrite (EPT.translate_spec 12) by (done || (unfold is_u64; lia)).
    change (2 ^ 12) with 4096.
    assert (a mod 4096 = a - page) as ->.
    { symmetry. apply Z.mod_divide in Hpm as [q Hq]; [|lia].
      apply (Zmod_unique _ _ q); lia. }
    replace (a - (a - page)) with page by lia. destruct Hpg as [e ->]. by eexists. }
  cbn [fill_contexts]. rewrite Hfd. unfold Vma.fillMemPages. rewrite Hpb.
  rewrite u64_small by lia. unfold mbind, stM_bind.
  destruct (Z.ltb_spec (page - Vma.start v) (Vma.hostBufLen v)) as [Hlt|Hge].
  - set (n := Z.min (Vma.hostBufLen v - (page - Vma.start v)) 4096).
    set (data := (λ i, Vma.file_byte h fd (Vma.hostBuf v + (page - Vma.start v) + Z.of_nat i)) <$>
      seq 0 (Z.to_nat n)).
    assert (Z.of_nat (length data) = n) as Hdl by (unfold data; rewrite length_fmap, length_seq; lia).
    destruct (tryWriteBlob_spec fixup Always page data s) as (m & Hw & Hin & Hout);
      [done|lia|lia|lia|intros a Ha; apply Hmapped; lia|].
    unfold writeBlob, mbind, stM_bind. rewrite Hw. unfold lift; simpl.
    destruct (IH (set_mem m s)) as (m' & -> & Hm0 & Hm'); [done|done|].
    exists m'. split; [done|]. split; [done|]. intros _ a pa fo Ha Hta Hb.
    destruct cids as [|c' cids]; [|by apply (Hm' ltac:(done) a pa fo)].
    rewrite (Hm0 eq_refl). simpl.
    unfold Vma.backing in Hb. rewrite Hfd in Hb.
    destruct (Z.ltb_spec (a - Vma.start v) (Vma.hostBufLen v)); [|done]. injection Hb as <-.
    rewrite (Hin a pa) by (done || lia). unfold data. rewrite list_lookup_fmap.
    rewrite lookup_seq_lt by lia. simpl. do 2 f_equal. lia.
  - simpl. destruct (IH s Hinv Hpg) as (m & -> & _). exists m. split; [done|].
    split; [done|]. intros _ a pa fo Ha _ Hb. unfold Vma.backing in Hb. rewrite Hfd in Hb.
    rewrite (proj2 (Z.ltb_ge _ _)) in Hb by lia. done.
Qed.

Lemma find_vma l vaddr :
  vmas_ok l →
  match list_find (λ v, contains (Vma.addrRange v) vaddr = true) l with
  | Some (_, v) => v ∈ l ∧ Vma.covers v vaddr
  | None => ∀ v, v ∈ l → ¬ Vma.covers v vaddr
  end.
Proof.
  intros Hok. assert (∀ v, v ∈ l → contains (Vma.addrRange v) vaddr = true ↔ Vma.covers v vaddr) as Hc.
  { intros v Hv. destruct (vmas_ok_elem l v Hok Hv) as [(_ & Hm & Hmt & _) _].
    rewrite contains_spec. unfold sel. rewrite Hm, Hmt. unfold Vma.covers, Vma.start, Vma.end_.
    simpl. naive_solver. }
  destruct (list_find _ l) as [[i v]|] eqn:E.
  - apply list_find_Some in E as (Hl & Hp & _). apply list_elem_of_lookup_2 in Hl.
    split; [done|]. by apply Hc.
  - apply list_find_None in E. rewrite Forall_forall in E. intros v Hv Hcov.
    apply (E v Hv). by apply Hc.
Qed.

Lemma vma_unique l v1 v2 a :
  vmas_ok l → v1 ∈ l → v2 ∈ l → Vma.covers v1 a → Vma.covers v2 a → v1 = v2.
Proof.
  intros Hok H1 H2. apply list_elem_of_split in H1 as (l1 & l2 & ->).
  rewrite <-Permutation_middle in Hok, H2.
  destruct Hok as (_ & Hap & _). rewrite Forall_forall in Hap.
  apply elem_of_cons in H2 as [->|H2]; [done|]. specialize (Hap v2 H2).
  unfold apart, Vma.covers in *. lia.
Qed.

(** A page-aligned area that holds an address holds its page. *)
Lemma vma_holds_page v a :
  vma_ok v → Vma.covers v a →
  Vma.start v ≤ a - a mod 4096 ∧ a - a mod 4096 + 4096 ≤ Vma.end_ v.
Proof.
  intros [(_ & _ & _ & _ & _ & Hs & He & _) Hpb] [H1 H2]. rewrite Hpb in *.
  apply Z.mod_divide in Hs as [q Hq]; [|lia]. apply Z.mod_divide in He as [r Hr]; [|lia].
  pose proof (Z.mod_pos_bound a 4096 ltac:(lia)). pose proof (Z.div_mod a 4096 ltac:(lia)). lia.
Qed.

(** Where [fixupFault] is willing to put a page. *)
Definition in_stack (m : MemState) (a : Z) : Prop := stackMin m ≤ a < stackBase m.

Lemma fixupFault_page fixup p vaddr :
  proc_inv p → regions_inv p →
  (∀ v, v ∈ vmaList (memState p) → Vma.end_ v < 2 ^ 62) → 0 ≤ vaddr < 2 ^ 62 →
  tr p vaddr = None → can_alloc p (vaddr - vaddr mod 4096) →
  (∃ b, maps (vmaList (memState p)) vaddr b) ∨ in_stack (memState p) vaddr →
  ∃ p' pa, fixupFault_with h (2 ^ lc) fixup vaddr p = Ok (true, p') ∧
    proc_inv p' ∧ (nvm_separated p → nvm_separated p') ∧
    memState p' = memState p ∧ contextIds p' = contextIds p ∧
    tr p' vaddr = Some pa ∧ ¬ owned (system p) (pa / 4096) ∧
    (∀ a, is_u64 a → a - a mod 4096 ≠ vaddr - vaddr mod 4096 → tr p' a = tr p a) ∧
    (contextIds p ≠ [] → ∀ a fd fo x, a - a mod 4096 = vaddr - vaddr mod 4096 →
       maps (vmaList (memState p)) a (Some (fd, fo)) → tr p' a = Some x →
       mem p' !! x = Some (Vma.file_byte h fd fo)).
Proof.
  intros Hinv (Hok & Hpb & Hwf) Hends Hva Hun Hcan Hwhere.
  set (page := vaddr - vaddr mod 4096) in *.
  pose proof (Z.mod_pos_bound vaddr 4096 ltac:(lia)) as Hmb.
  assert (page mod 4096 = 0 ∧ 0 ≤ page) as [Hpm Hp0].
  { pose proof (Z.div_mod vaddr 4096 ltac:(lia)). pose proof (Z.div_pos vaddr 4096).
    replace page with (vaddr / 4096 * 4096) by (unfold page; lia).
    split; [apply Z.mod_mul; lia|lia]. }
  assert (EPT.pTable (pTable p) !! page = None) as Hnone.
  { rewrite (EPT.translate_spec 12) in Hun by (done || (unfold is_u64; lia)).
    by apply fmap_None in Hun. }
  destruct (allocateMem_page p page Hinv ltac:(lia) Hpm Hnone Hcan)
    as (e & s & Hal & Hinv' & Hsep & Hnew & Hfl & Hem).
  set (p1 := set_pTable _ _) in *.
  assert (roundDown vaddr 4096 = Ok page) as Hrd.
  { change 4096 with (2 ^ 12). rewrite roundDown_spec by (unfold is_u64; lia). done. }
  assert (EPT.pt_wf 12 (pTable p1)) as Hwf1 by apply Hinv'.
  assert (∀ a, is_u64 a → tr p1 a =
    if a - a mod 4096 =? page then Some (EPT.paddr e + a mod 4096) else tr p a) as Htr.
  { intros a Ha. rewrite !(EPT.translate_spec 12) by done. change (2 ^ 12) with 4096.
    unfold p1; simpl. destruct (Z.eqb_spec (a - a mod 4096) page) as [->|].
    - by rewrite lookup_insert_eq.
    - by rewrite lookup_insert_ne. }
  assert (tr p1 vaddr = Some (EPT.paddr e + vaddr mod 4096)) as Htv.
  { rewrite Htr by (unfold is_u64; lia). unfold page. by rewrite Z.eqb_refl. }
  assert ((EPT.paddr e + vaddr mod 4096) / 4096 = frame e) as Hfe.
  { unfold frame. apply Z.mod_divide in Hem as [q Hq]; [|lia]. rewrite Hq.
    rewrite Z.div_mul by lia. symmetry. apply (Z.div_unique _ _ _ (vaddr mod 4096)); lia. }
  unfold fixupFault_with. rewrite Hpb, Hrd.
  pose proof (find_vma (vmaList (memState p)) vaddr Hok) as Hfind.
  destruct (list_find _ (vmaList (memState p))) as [[i v]|].
  - destruct Hfind as [Hvin Hcov]. pose proof (vmas_ok_elem _ v Hok Hvin) as Hvok.
    destruct (vma_holds_page v vaddr Hvok Hcov) as [Hl1 Hl2]. fold page in Hl1, Hl2.
    cbn [mbind res_bind]. rewrite Hal. cbn [mbind res_bind].
    assert (∃ m, (if Vma.hasHostBuf v
        then fill_contexts h (2 ^ lc) fixup (contextIds p1) v page p1 else Ok (tt, p1)) =
        Ok (tt, set_mem m p1) ∧ (contextIds p ≠ [] → ∀ a pa fd fo, page ≤ a < page + 4096 →
          tr p1 a = Some pa → Vma.backing v a = Some (fd, fo) →
          m !! pa = Some (Vma.file_byte h fd fo))) as (m & -> & Hm).
    { unfold Vma.hasHostBuf. destruct (Vma.origHostBuf v) as [fd|] eqn:Efd;
        [rewrite bool_decide_true by done|rewrite bool_decide_false by (by intros Hn; destruct Hn)].
      - destruct (fill_contexts_spec fixup (contextIds p1) v page p1 fd) as (m & -> & _ & Hm);
          [done|done|by apply Hends|done|done|lia|lia|unfold p1; simpl; rewrite lookup_insert_eq; by eexists|].
        exists m. split; [done|]. intros Hc a pa fd' fo Ha Hta Hb.
        assert (fd' = fd) as -> by (unfold Vma.backing in Hb; rewrite Efd in Hb; by case_match; simplify_eq).
        by eapply Hm.
      - exists (mem p1). split; [by destruct p1|]. intros _ a pa fd fo _ _ Hb.
        unfold Vma.backing in Hb. by rewrite Efd in Hb. }
    cbn [mbind res_bind]. exists (set_mem m p1), (EPT.paddr e + vaddr mod 4096).
    split; [done|]. split; [done|]. split; [done|]. split; [done|]. split; [done|].
    split; [done|]. split; [by rewrite Hfe|]. split.
    + intros a Ha Hne. rewrite set_mem_translates, Htr by done.
      by rewrite (proj2 (Z.eqb_neq _ _)).
    + intros Hc a fd fo x Hap (w & Hw & Hcw & Hb) Htx.
      pose proof (Z.mod_pos_bound a 4096 ltac:(lia)).
      assert (w = v) as ->.
      { apply (vma_unique (vmaList (memState p)) w v a); [done..|]. unfold Vma.covers. lia. }
      apply (Hm Hc a x fd fo); [lia|done|done].
  - assert (in_stack (memState p) vaddr) as Hst.
    { destruct Hwhere as [(b & v & Hv & Hcov & _)|]; [|done]. by destruct (Hfind v Hv). }
    unfold in_stack in Hst.
    replace ((stackMin (memState p) <=? vaddr) && (vaddr <? stackBase (memState p))) with true by zcmp.
    cbn [mbind res_bind]. rewrite Hal. cbn [mbind res_bind].
    exists p1, (EPT.paddr e + vaddr mod 4096).
    split; [done|]. split; [done|]. split; [done|]. split; [done|]. split; [done|].
    split; [done|]. split; [by rewrite Hfe|]. split.
    + intros a Ha Hne. rewrite Htr by done. by rewrite (proj2 (Z.eqb_neq _ _)).
    + intros _ a fd fo x Hap (w & Hw & Hcw & _) _. exfalso. apply (Hfind w Hw).
      pose proof (vma_holds_page w a (vmas_ok_elem _ w Hok Hw) Hcw).
      unfold Vma.covers. lia.
Qed.
End paging.
