(* ===== verification/ProcessRun.v ===== *)
(** * A process over time

    The memory operations of an emulated process as a transition system, and
    the properties of every state it can reach: page frames are never shared,
    and NVM frames lie behind exactly the virtual pages of the NVM window. *)

From S2P Require Import Prelude.
From S2P Require Import Intmath.
From S2P Require Import AddrRange.
From S2P Require Import ChunkGenerator.
From S2P Require Import PageTable.
From S2P Require Import PhysAlloc.
From S2P Require Import Vma.
From S2P Require Import MemState.
From S2P Require Import ProcessMem.
From S2P Require Import Regions.
From S2P Require Import Heap.
From S2P Require Import Paging.

Import Proc.

(** ** The transition system *)

Section steps.
Context (h : Vma.Host) (lc : Z).

Definition low_vmas (p : Process) : Prop :=
  ∀ a b, maps (vmaList (memState p)) a b → a < 2 ^ 62 - 1.

(** The events of a process: a page fault on an address of an area or of the
    stack as it is, [munmap], and [mmap] or the growth of the heap through
    [mapRegion]. *)
Inductive proc_step (p : Process) : Process → Prop :=
| step_fault vaddr d p' :
    0 ≤ vaddr < 2 ^ 62 → tr p vaddr = None →
    (∃ b, maps (vmaList (memState p)) vaddr b) ∨ in_stack (memState p) vaddr →
    fixupFault h (2 ^ lc) (S d) vaddr p = Ok (true, p') → proc_step p p'
| step_unmap s len p' :
    page_range s len → unmapRegion s len p = Ok (tt, p') → proc_step p p'
| step_map s len name fd off p' :
    page_range s len → s + len < 2 ^ 62 → file_ok h fd off len →
    vma_free p s len → pages_free p s len →
    mapRegion h s len name fd off p = Ok (tt, p') → proc_step p p'.

Definition run_inv (p : Process) : Prop :=
  proc_inv p ∧ regions_inv p ∧ low_vmas p ∧ nvm_separated p.

Lemma low_vma_end p v : regions_inv p → low_vmas p → v ∈ vmaList (memState p) → Vma.end_ v < 2 ^ 62.
Proof.
  intros (Hok & _) Hlow Hv. destruct (vmas_ok_elem _ v Hok Hv) as [(_ & _ & _ & Hr & _) _].
  pose proof (Hlow (Vma.end_ v - 1) (Vma.backing v (Vma.end_ v - 1))) as H.
  assert (Vma.end_ v - 1 < 2 ^ 62 - 1); [|lia]. apply H. exists v. split; [done|].
  split; [unfold Vma.covers; lia|done].
Qed.

(** Removing entries from the page table keeps the invariants. *)
Lemma proc_inv_subset p t :
  proc_inv p → EPT.pt_wf 12 t →
  (∀ a e, EPT.pTable t !! a = Some e → EPT.pTable (pTable p) !! a = Some e) →
  proc_inv (set_pTable t p) ∧ (nvm_separated p → nvm_separated (set_pTable t p)).
Proof.
  intros (H1 & H2 & H3 & H4 & _ & H6 & H7) Hwf Hsub. split.
  - split; [done|]. split; [done|]. split; [done|]. split; [done|]. split; [done|]. simpl. split.
    + intros v e He. eapply H6. by apply Hsub.
    + intros v1 v2 e1 e2 He1 He2. apply H7; by apply Hsub.
  - intros Hsep v e He. by apply Hsep, Hsub.
Qed.

Hypothesis Hlc : 0 ≤ lc < 16.

(** A fault on an area or on the stack starts with the page. *)
Lemma fault_allocates fixup p vaddr :
  pageBytes (memState p) = 4096 → 0 ≤ vaddr < 2 ^ 62 → vmas_ok (vmaList (memState p)) →
  (∃ b, maps (vmaList (memState p)) vaddr b) ∨ in_stack (memState p) vaddr →
  fixupFault_with h (2 ^ lc) fixup vaddr p =
  match allocateMem (vaddr - vaddr mod 4096) 4096 false p with
  | Ok _ => fixupFault_with h (2 ^ lc) fixup vaddr p
  | Err e => Err e
  end.
Proof.
  intros Hpb Hv Hok Hw. destruct (allocateMem _ _ _ p) as [|e] eqn:Ha; [done|].
  unfold fixupFault_with. rewrite Hpb. replace (roundDown vaddr 4096) with (Ok (vaddr - vaddr mod 4096)).
  2:{ change 4096 with (2 ^ 12). rewrite roundDown_spec by (unfold is_u64; lia). done. }
  cbn [mbind res_bind]. pose proof (find_vma lc Hlc (vmaList (memState p)) vaddr Hok) as Hfind.
  destruct (list_find _ (vmaList (memState p))) as [[i v]|]; [by rewrite Ha|].
  assert (in_stack (memState p) vaddr) as Hst.
  { destruct Hw as [(b & v & Hvv & Hcov & _)|]; [|done]. by destruct (Hfind v Hvv). }
  unfold in_stack in Hst.
  replace ((stackMin (memState p) <=? vaddr) && (vaddr <? stackBase (memState p))) with true by zcmp.
  by rewrite Ha.
Qed.

(** A fault that was served found a page, unless it took one beyond the NVM
    window. *)
Lemma served_alloc fixup p vaddr p' :
  pageBytes (memState p) = 4096 → 0 ≤ vaddr < 2 ^ 62 → vmas_ok (vmaList (memState p)) →
  (∃ b, maps (vmaList (memState p)) vaddr b) ∨ in_stack (memState p) vaddr →
  fixupFault_with h (2 ^ lc) fixup vaddr p = Ok (true, p') →
  Sys.pageNVMPtr (system p) < 0x20000 ∨ Sys.in_nvm_window (vaddr - vaddr mod 4096) = false →
  can_alloc p (vaddr - vaddr mod 4096).
Proof.
  intros Hpb Hv Hok Hw Hf Hroom. unfold can_alloc. destruct (Sys.in_nvm_window _) eqn:Hwin; [by destruct Hroom|].
  rewrite (fault_allocates fixup p vaddr Hpb Hv Hok Hw) in Hf. destruct (allocateMem _ _ _ p) as [r|] eqn:Hr; [|done].
  unfold allocateMem in Hr. change (s32 (divCeil 4096 Sys.PageBytes)) with 1 in Hr. unfold Sys.in_nvm_window in Hwin.
  rewrite Hwin in Hr. destruct (Sys.allocPhysPages 1 (system p)) as [[a s]|]; [by eexists _, _|done].
Qed.

Lemma fault_fails fixup p vaddr e :
  pageBytes (memState p) = 4096 → 0 ≤ vaddr < 2 ^ 62 → vmas_ok (vmaList (memState p)) →
  (∃ b, maps (vmaList (memState p)) vaddr b) ∨ in_stack (memState p) vaddr →
  Sys.in_nvm_window (vaddr - vaddr mod 4096) = false → Sys.allocPhysPages 1 (system p) = Err e →
  fixupFault_with h (2 ^ lc) fixup vaddr p = Err e.
Proof.
  intros Hpb Hv Hok Hw Hwin He.
  assert (allocateMem (vaddr - vaddr mod 4096) 4096 false p = Err e) as Ha.
  { unfold allocateMem. change (s32 (divCeil 4096 Sys.PageBytes)) with 1. unfold Sys.in_nvm_window in Hwin.
    by rewrite Hwin, He. }
  rewrite (fault_allocates fixup p vaddr Hpb Hv Hok Hw). by rewrite Ha.
Qed.

(** The step takes a page beyond the NVM window, whose pages are all handed
    out. *)
Definition exhausts (p p' : Process) : Prop :=
  Sys.pageNVMPtr (system p) = 0x20000 ∧
  ∃ vaddr d, Sys.in_nvm_window (vaddr - vaddr mod 4096) = true ∧ tr p vaddr = None ∧
    fixupFault h (2 ^ lc) (S d) vaddr p = Ok (true, p').

Lemma proc_step_inv p p' : proc_step p p' → run_inv p → run_inv p' ∨ exhausts p p'.
Proof.
  intros Hst (Hinv & Hreg & Hlow & Hsep).
  destruct Hst as [vaddr d p' Hv Hun Hw Hf|s len p' Hr Hu|s len name fd off p' Hr Hb Hfi Hvf Hpf Hm].
  - destruct (decide (Sys.pageNVMPtr (system p) < 0x20000 ∨ Sys.in_nvm_window (vaddr - vaddr mod 4096) = false)) as [Hroom|Hfull].
    2:{ right. pose proof Hinv as (_ & _ & _ & Hnv & _). split; [lia|]. exists vaddr, d.
        split; [|done]. apply not_false_iff_true. tauto. }
    left. pose proof Hreg as (Hvok & Hpb & _).
    pose proof (served_alloc (fixupFault h (2 ^ lc) d) p vaddr p' Hpb Hv Hvok Hw Hf Hroom) as Hcan.
    destruct (fixupFault_page h lc Hlc (fixupFault h (2 ^ lc) d) p vaddr Hinv Hreg
      (λ v, low_vma_end p v Hreg Hlow) Hv Hun Hcan Hw)
      as (p2 & pa & Hf2 & Hinv' & Hsep' & Hms & _).
    cbn [fixupFault] in Hf. rewrite Hf2 in Hf. injection Hf as <-.
    split; [done|]. split; [|split; [|by apply Hsep']].
    + destruct Hreg as (? & ? & _). unfold regions_inv. rewrite Hms. split; [done|].
      split; [done|]. apply Hinv'.
    + unfold low_vmas. by rewrite Hms.
  - left. destruct (unmapRegion_ok p s len Hreg Hr) as (l & t & Hu2 & Hl & Hwf' & Hmaps & Ht).
    rewrite Hu2 in Hu. injection Hu as <-.
    destruct (proc_inv_subset p t Hinv Hwf') as [Hinv' Hsep'].
    { intros a e. rewrite Ht. by case_match. }
    split; [done|]. split; [|split; [|by apply Hsep']].
    + destruct Hreg as (_ & ? & _). by split.
    + intros a b. simpl. rewrite Hmaps. intros [? _]. by eapply Hlow.
  - left. destruct (mapRegion_ok h p s len name fd off Hreg Hr Hfi Hvf Hpf) as (v & Hm2 & Hreg' & H1 & H2 & _).
    rewrite Hm2 in Hm. injection Hm as <-. split; [done|]. split; [done|]. split; [|done].
    intros a b. simpl. rewrite maps_app, maps_cons, maps_nil. unfold Vma.covers.
    intros [?|[[? _]|[]]]; [by eapply Hlow|lia].
Qed.

Lemma run_inv_reachable p p' : rtc proc_step p p' → run_inv p →
  run_inv p' ∨ ∃ p1 p2, rtc proc_step p p1 ∧ exhausts p1 p2 ∧ rtc proc_step p2 p'.
Proof.
  induction 1 as [|p p1 p2 Hst Hrun IH]; [by left|]. intros Hp. destruct (proc_step_inv p p1 Hst Hp) as [Hp1|Hex].
  - destruct (IH Hp1) as [?|(q1 & q2 & ? & ? & ?)]; [by left|]. right. exists q1, q2. split; [|done]. by eapply rtc_l.
  - right. by exists p, p1.
Qed.
End steps.

(** A process just started: no areas and an empty page table. *)
Definition fresh_process (m5 total brk stack_base max_stack mmap_end : Z) (ctxs : list Z)
    (t : EPT.EmulationPageTable) (m : gmap Z Z) : Process :=
  mkProcess (Sys.System_new m5 total) t
    (MemState_new 4096 brk stack_base max_stack 0 mmap_end) ctxs m.

Lemma fresh_run_inv m5 total brk sb ms me ctxs t m :
  0 ≤ total < 0xfffff000 → m5 = 0 ∨ total < m5 < 2 ^ 63 → EPT.pt_wf 12 t → EPT.pTable t = ∅ →
  run_inv (fresh_process m5 total brk sb ms me ctxs t m).
Proof.
  intros Htot Hm5 Hwf Hemp. split; [|split; [|split]].
  - split; [unfold Sys.sys_inv; simpl; lia|]. split.
    { split; simpl; [lia|]. intros a. rewrite contains_spec.
      destruct Hm5 as [->|Hm5]; simpl; [lia|]. rewrite (proj2 (Z.eqb_neq _ _)) by lia. simpl. lia. }
    split; [simpl; lia|]. split; [simpl; lia|]. split; [done|]. simpl. rewrite Hemp.
    split; intros v; intros; by rewrite lookup_empty in *.
  - by split.
  - intros a b. simpl. by rewrite maps_nil.
  - intros v e. simpl. rewrite Hemp. by rewrite lookup_empty.
Qed.

(** ** Theorems *)

(** C1: take a process on a fresh system whose memory ends below 0xfffff000 and
    below the m5ops region, and whatever sequence of page faults on its areas
    and its stack, [munmap]s of page ranges, and [mmap]s of page ranges that
    are free, all below 2^62.  Two virtual pages never share a physical page,
    a physical page lies in the NVM window exactly when its virtual page
    does, and its areas stay disjoint and page aligned; unless on the way all
    0x20000 pages of the NVM window had been handed out and yet another page
    of it was faulted in, which [allocNVMPhysPages] serves from beyond the
    window. *)
Theorem reachable_memory_separated h lc m5 total brk sb ms me ctxs t m p :
  0 ≤ lc < 16 → 0 ≤ total < 0xfffff000 → m5 = 0 ∨ total < m5 < 2 ^ 63 →
  EPT.EmulationPageTable_new 4096 = Ok t →
  rtc (proc_step h lc) (fresh_process m5 total brk sb ms me ctxs t m) p →
  (vmas_ok (vmaList (memState p)) ∧
   (∀ v e, EPT.pTable (pTable p) !! v = Some e →
      Sys.in_nvm_window v = true ↔ Sys.nvm_page (EPT.paddr e / 4096)) ∧
   (∀ v1 v2 e1 e2, EPT.pTable (pTable p) !! v1 = Some e1 → EPT.pTable (pTable p) !! v2 = Some e2 →
      EPT.paddr e1 / 4096 = EPT.paddr e2 / 4096 → v1 = v2)) ∨
  ∃ p1 p2, rtc (proc_step h lc) (fresh_process m5 total brk sb ms me ctxs t m) p1 ∧ exhausts h lc p1 p2 ∧
    rtc (proc_step h lc) p2 p.
Proof.
  intros Hlc Htot Hm5 Ht Hrun.
  destruct (EPT.new_wf 12 ltac:(lia)) as (t' & Ht' & Hwf & Hemp).
  change (2 ^ 12) with 4096 in Ht'. rewrite Ht in Ht'. injection Ht' as <-.
  pose proof (fresh_run_inv m5 total brk sb ms me ctxs t m Htot Hm5 Hwf Hemp) as H0.
  destruct (run_inv_reachable h lc Hlc _ _ Hrun H0) as [(Hinv & (Hok & _) & _ & Hsep)|Hex]; [left|by right].
  split; [done|]. split; [exact Hsep|]. apply Hinv.
Qed.

(** C28: Take a process whose frames and areas are in order (the invariants of
    the runs above), and a page fault on an address of an area or of the stack
    whose page is missing.  If a page can be had, that is, a page of the NVM
    window is left when the address is in the window, and the volatile
    allocator succeeds when it is not, the fault maps that page, and only it,
    to a frame never handed out before, of the NVM window if and only if the
    address is in it; if the area has a file behind it and the process has a
    thread context, the page then holds the bytes of the file.  If the
    volatile allocator fails, the fault fails with the same error. *)
Theorem fault_maps_one_page h lc d p vaddr :
  0 ≤ lc < 16 → proc_inv p → regions_inv p → nvm_separated p →
  (∀ v, v ∈ vmaList (memState p) → Vma.end_ v < 2 ^ 62) → 0 ≤ vaddr < 2 ^ 62 →
  EPT.translate (pTable p) vaddr = None →
  (∃ b, maps (vmaList (memState p)) vaddr b) ∨ in_stack (memState p) vaddr →
  (can_alloc p (vaddr - vaddr mod 4096) →
   ∃ p' pa, fixupFault h (2 ^ lc) (S d) vaddr p = Ok (true, p') ∧
    EPT.translate (pTable p') vaddr = Some pa ∧ ¬ owned (system p) (pa / 4096) ∧
    nvm_separated p' ∧
    (∀ a, is_u64 a → a - a mod 4096 ≠ vaddr - vaddr mod 4096 →
       EPT.translate (pTable p') a = EPT.translate (pTable p) a) ∧
    (contextIds p ≠ [] → ∀ a fd fo x, a - a mod 4096 = vaddr - vaddr mod 4096 →
       maps (vmaList (memState p)) a (Some (fd, fo)) → EPT.translate (pTable p') a = Some x →
       mem p' !! x = Some (Vma.file_byte h fd fo))) ∧
  (∀ e, Sys.in_nvm_window (vaddr - vaddr mod 4096) = false → Sys.allocPhysPages 1 (system p) = Err e →
     fixupFault h (2 ^ lc) (S d) vaddr p = Err e).
Proof.
  intros Hlc Hinv Hreg Hsep Hends Hv Hun Hw. split.
  2:{ intros e. pose proof Hreg as (Hvok & Hpb & _). by apply (fault_fails h lc Hlc (fixupFault h (2 ^ lc) d) p vaddr e). }
  intros Hcan. destruct (fixupFault_page h lc Hlc (fixupFault h (2 ^ lc) d) p vaddr Hinv Hreg Hends Hv Hun Hcan Hw)
    as (p' & pa & Hf & Hinv' & Hsep' & _ & _ & Htr & Hnew & Hoth & Hfile).
  exists p', pa. split; [exact Hf|]. split; [done|]. split; [done|]. split; [by apply Hsep'|].
  by split.
Qed.

(** C33: Bytes written to a mapped range of virtual memory through a port
    proxy are read back unchanged, across page and cache line boundaries, and
    no byte of physical memory outside the frames of the range changes. *)
Theorem blob_roundtrip lc fixup alloc alloc' lo data p :
  0 ≤ lc < 16 → proc_inv p → 0 ≤ lo → lo + Z.of_nat (length data) < 2 ^ 63 →
  Z.of_nat (length data) < 2 ^ 31 →
  (∀ a, lo ≤ a < lo + Z.of_nat (length data) → ∃ pa, EPT.translate (pTable p) a = Some pa) →
  ∃ p', tryWriteBlob (2 ^ lc) fixup alloc lo data p = Ok (true, p') ∧
    tryReadBlob (2 ^ lc) fixup alloc' lo (Z.of_nat (length data)) p' = Ok (Some data, p') ∧
    (∀ x, (∀ a, lo ≤ a < lo + Z.of_nat (length data) → EPT.translate (pTable p) a ≠ Some x) →
       mem p' !! x = mem p !! x).
Proof.
  intros Hlc Hinv Hlo Hhi Hsz Hmap.
  destruct (tryWriteBlob_spec lc Hlc fixup alloc lo data p Hinv Hlo Hhi Hsz Hmap)
    as (m & -> & Hin & Hout).
  exists (set_mem m p). split; [done|]. split; [|done].
  destruct (chunks_tiles lo (Z.of_nat (length data)) 12) as (cs & Hc & Ht); [lia..|].
  unfold tryReadBlob. rewrite PageBytes_eq. unfold mbind, stM_bind, lift.
  change 4096 with (2 ^ 12). rewrite Hc.
  destruct (readBlob_loop_spec lc Hlc fixup alloc' lo lo (lo + Z.of_nat (length data)) cs (set_mem m p))
    as (l & -> & Hll & Hl); [done|lia|lia|lia|done|done|].
  do 3 f_equal. apply list_eq. intros i. destruct (decide (i < length data)%nat) as [Hi|Hi].
  - destruct (Hmap (lo + Z.of_nat i) ltac:(lia)) as [pa Hpa].
    pose proof (Hl (lo + Z.of_nat i) pa ltac:(lia) Hpa) as E1.
    pose proof (Hin (lo + Z.of_nat i) pa ltac:(lia) Hpa) as E2. simpl in E1.
    replace (Z.to_nat (lo + Z.of_nat i - lo)) with i in E1, E2 by lia. rewrite E1, E2.
    destruct (lookup_lt_is_Some_2 data i Hi) as [x Hx]. by rewrite Hx.
  - rewrite !lookup_ge_None_2 by lia. done.
Qed.

(** ** Instances *)

Lemma demo_proc_inv : proc_inv demo.
Proof.
  split; [unfold Sys.sys_inv; simpl; lia|]. split.
  { split; simpl; [lia|]. intros a. rewrite contains_spec. simpl. lia. }
  split; [simpl; lia|]. split; [simpl; lia|]. split; [apply demo_regions|]. split.
  - intros v e He. apply demo_entries in He. unfold owned, frame, Sys.nvm_page.
    destruct He as [[_ ->]|[[_ ->]|[_ ->]]]; unfold demo;
      cbn [system Sys.pageNVMPtr Sys.pagePtr EPT.paddr]; Z.div_mod_to_equations; lia.
  - intros v1 v2 e1 e2 H1 H2. apply demo_entries in H1, H2. unfold frame.
    destruct H1 as [[-> ->]|[[-> ->]|[-> ->]]], H2 as [[-> ->]|[[-> ->]|[-> ->]]];
      vm_compute; congruence.
Qed.

Lemma demo_separated : nvm_separated demo.
Proof.
  intros v e He. apply demo_entries in He. unfold Sys.nvm_page, frame, Sys.in_nvm_window.
  destruct He as [[-> ->]|[[-> ->]|[-> ->]]]; cbn [EPT.paddr];
    (split; [intros Hb; vm_compute in Hb; try discriminate|intros; try reflexivity]);
    Z.div_mod_to_equations; lia.
Qed.

Lemma demo_low : low_vmas demo.
Proof. intros a b Hm. apply demo_maps in Hm. lia. Qed.

(** The next page of the file-backed area, then of the NVM area. *)
Lemma fault_maps_one_page_witness :
  ∃ p' pa, fixupFault demo_host (2 ^ 6) 1 0x12010 demo = Ok (true, p') ∧
    EPT.translate (pTable p') 0x12010 = Some pa ∧ ¬ owned (system demo) (pa / 4096).
Proof.
  destruct (fault_maps_one_page demo_host 6 0 demo 0x12010 ltac:(lia) demo_proc_inv demo_regions
    demo_separated) as [Hfault _].
  - intros v Hv. exact (low_vma_end demo v demo_regions demo_low Hv).
  - lia.
  - vm_compute. reflexivity.
  - left. eexists. apply maps_cons. left. split; [vm_compute; split; congruence|reflexivity].
  - destruct Hfault as (p' & pa & Hf & Ht & Hn & _).
    { unfold can_alloc. assert (Sys.in_nvm_window (0x12010 - 0x12010 mod 4096) = false) as -> by done.
      exists 0x4000, (Sys.mkSystem 5 1 (mkAddrRange 1 0 [] 0) 0x20000000). vm_compute. reflexivity. }
    exists p', pa. split; [exact Hf|]. split; [exact Ht|exact Hn].
Defined.

Lemma blob_roundtrip_witness :
  ∃ p', tryWriteBlob (2 ^ 6) (fixupFault demo_host (2 ^ 6) 1) Always 0x10ffe [1; 2; 3; 4] demo =
      Ok (true, p') ∧
    tryReadBlob (2 ^ 6) (fixupFault demo_host (2 ^ 6) 1) Never 0x10ffe 4 p' =
      Ok (Some [1; 2; 3; 4], p').
Proof.
  destruct (blob_roundtrip 6 (fixupFault demo_host (2 ^ 6) 1) Always Never 0x10ffe [1; 2; 3; 4] demo
    ltac:(lia) demo_proc_inv ltac:(lia) ltac:(simpl; lia) ltac:(simpl; lia)) as (p' & Hw & Hr & _).
  - intros a Ha. simpl in Ha.
    assert (a = 0x10ffe ∨ a = 0x10fff ∨ a = 0x11000 ∨ a = 0x11001) as Hc by lia.
    destruct Hc as [->|[->|[->| ->]]]; eexists; vm_compute; reflexivity.
  - exists p'. split; [exact Hw|exact Hr].
Defined.

(** A process that maps two pages of the NVM window and touches one. *)
Lemma reachable_memory_separated_witness :
  ∃ t p, EPT.EmulationPageTable_new 4096 = Ok t ∧
    rtc (proc_step demo_host 6) (fresh_process 0 0x20000000 0 0x7fff0000 0x10000 0x70000000 [0] t ∅) p ∧
    ((∀ v e, EPT.pTable (pTable p) !! v = Some e →
        Sys.in_nvm_window v = true ↔ Sys.nvm_page (EPT.paddr e / 4096)) ∨ ∃ p1 p2, exhausts demo_host 6 p1 p2).
Proof.
  assert (EPT.EmulationPageTable_new 4096 = Ok (EPT.mkPageTable ∅ 4096 (Z.ones 12))) as Ht
    by (vm_compute; reflexivity).
  set (p0 := fresh_process 0 0x20000000 0 0x7fff0000 0x10000 0x70000000 [0]
    (EPT.mkPageTable ∅ 4096 (Z.ones 12)) ∅).
  assert (run_inv p0) as H0.
  { apply fresh_run_inv; [lia|by left| |done]. split; [lia|]. split; [done|]. split; [done|].
    intros v e. simpl. by rewrite lookup_empty. }
  pose proof H0 as (_ & Hreg & _).
  destruct (mapRegion_ok demo_host p0 0x30000000 0x2000 "nvm" (-1) 0 Hreg
    ltac:(repeat split; lia) ltac:(by left)) as (v & Hm & _ & H1 & H2 & H3).
  { intros w Hw. by apply elem_of_nil in Hw. }
  { intros a _. simpl. apply lookup_empty. }
  set (p1 := set_memState _ p0) in Hm.
  assert (proc_step demo_host 6 p0 p1) as Hs1.
  { eapply (step_map demo_host 6 p0 0x30000000 0x2000 "nvm" (-1) 0); try exact Hm;
      [repeat split; lia|lia|by left| |].
    - intros w Hw. by apply elem_of_nil in Hw.
    - intros a _. simpl. apply lookup_empty. }
  destruct (proc_step_inv demo_host 6 ltac:(lia) p0 p1 Hs1 H0) as [(Hp1 & Hr1 & Hl1 & _)|[Hx _]];
    [|vm_compute in Hx; discriminate].
  assert (∃ b, maps (vmaList (memState p1)) 0x30000010 b) as Hmaps.
  { exists (Vma.backing v 0x30000010). apply maps_cons. left. split; [|done].
    unfold Vma.covers. rewrite H1, H2. lia. }
  destruct (fixupFault_page demo_host 6 ltac:(lia) (fixupFault demo_host (2 ^ 6) 0) p1 0x30000010
    Hp1 Hr1 (λ w, low_vma_end p1 w Hr1 Hl1) ltac:(lia)) as (p2 & pa & Hf & _);
    [reflexivity|vm_compute; reflexivity|by left|].
  assert (rtc (proc_step demo_host 6) p0 p2) as Hrun.
  { eapply rtc_l; [exact Hs1|]. apply rtc_once.
    apply (step_fault demo_host 6 p1 0x30000010 0);
      [lia|reflexivity|by left|exact Hf]. }
  exists (EPT.mkPageTable ∅ 4096 (Z.ones 12)), p2. split; [exact Ht|]. split; [exact Hrun|].
  destruct (reachable_memory_separated demo_host 6 0 0x20000000 0 0x7fff0000 0x10000
    0x70000000 [0] _ ∅ p2 ltac:(lia) ltac:(lia) ltac:(by left) Ht Hrun) as [(_ & Hsep & _)|(q1 & q2 & _ & Hex & _)];
    [left; exact Hsep|right; exists q1, q2; exact Hex].
Defined.

(** C37: [mremap] moves pages without moving their frames, so a page of the
    NVM window moved to another address keeps its NVM frame: separation by
    virtual address is not preserved by [remapRegion]. *)
Theorem remap_breaks_separation :
  nvm_separated demo ∧
  ∃ p', remapRegion 0x30000000 0x40000 0x1000 demo = Ok (tt, p') ∧ ¬ nvm_separated p' ∧
    EPT.translate (pTable p') 0x40000 = Some 0x30000000.
Proof.
  split; [exact demo_separated|].
  destruct (remapRegion 0x30000000 0x40000 0x1000 demo) as [[[] p']|] eqn:E;
    [|vm_compute in E; discriminate].
  exists p'. split; [done|]. vm_compute in E. injection E as <-. split; [|by vm_compute].
  intros Hsep. specialize (Hsep 0x40000 (EPT.mkEntry 0x30000000 0) eq_refl).
  destruct Hsep as [_ H]. assert (Sys.in_nvm_window 0x40000 = true) as Hw
    by (apply H; vm_compute; split; congruence). vm_compute in Hw. discriminate.
Qed.
