(* ===== verification/CmdBus.v ===== *)
(** * The command bus of the memory controller ([mem/mem_ctrl.cc])

    [burstTicks] is a multiset of command windows: one entry per command
    issued in the window that starts at that tick.  [verifySingleCmd] and
    [verifyMultiCmd] look for a window with bandwidth left and record the
    command there.  Ticks are natural numbers of picoseconds that stay below
    the 64-bit limit. *)

From S2P Require Import Prelude.

Module CmdBus.

(** ** Definitions *)

Abbreviation Tick := Z.
Definition MaxTick : Tick := 2 ^ 64 - 1.

Definition count (t : Tick) (ticks : list Tick) : Z :=
  Z.of_nat (length (filter (λ x, x = t) ticks)).

Definition pruneBurstTick (curTick : Tick) (ticks : list Tick) : list Tick :=
  filter (λ t, ¬ (t < curTick)) ticks.

Definition getBurstWindow (commandWindow cmd_tick : Tick) : Tick :=
  let burst_offset := cmd_tick mod commandWindow in cmd_tick - burst_offset.

Fixpoint single_loop (fuel : nat) (w max_cmds : Z) (ticks : list Tick) (burst_tick cmd_at : Tick) :
    res (Tick * Tick) :=
  if max_cmds <=? count burst_tick ticks then
    match fuel with
    | O => Err Diverge
    | S fuel => single_loop fuel w max_cmds ticks (burst_tick + w) (burst_tick + w)
    end
  else Ok (burst_tick, cmd_at).

(** Every full window holds a command, so there are at most as many as
    entries. *)
Definition verifySingleCmd (w : Z) (ticks : list Tick) (cmd_tick max_cmds : Z) :
    res (Tick * list Tick) :=
  '(burst_tick, cmd_at) ←
    single_loop (length ticks) w max_cmds ticks (getBurstWindow w cmd_tick) cmd_tick;
  Ok (cmd_at, burst_tick :: ticks).

(** [while (max_multi_cmd_split > first_cmd_offset + burst_offset)] *)
Fixpoint offset_loop (fuel : nat) (w split first_cmd_offset burst_offset : Z) : res Z :=
  if first_cmd_offset + burst_offset <? split then
    match fuel with
    | O => Err Diverge
    | S fuel => offset_loop fuel w split first_cmd_offset (burst_offset + w)
    end
  else Ok burst_offset.

Fixpoint multi_loop (fuel : nat) (w max_cmds split : Z) (ticks : list Tick)
    (burst_tick first_cmd_tick cmd_at : Tick) : res (Tick * Tick * Tick) :=
  let same_burst := burst_tick =? first_cmd_tick in
  let first_cmd_count := count first_cmd_tick ticks in
  let second_cmd_count := if same_burst then first_cmd_count + 1 else count burst_tick ticks in
  let first_can_issue := first_cmd_count <? max_cmds in
  let second_can_issue := second_cmd_count <? max_cmds in
  let '(burst_tick', cmd_at') :=
    if negb second_can_issue then (burst_tick + w, burst_tick + w) else (burst_tick, cmd_at) in
  let gap_violated := negb same_burst && (split <? burst_tick' - first_cmd_tick) in
  let first_cmd_tick' :=
    if negb first_can_issue || (negb second_can_issue && gap_violated)
    then first_cmd_tick + w else first_cmd_tick in
  if first_can_issue && second_can_issue then Ok (burst_tick', first_cmd_tick', cmd_at')
  else match fuel with
       | O => Err Diverge
       | S fuel => multi_loop fuel w max_cmds split ticks burst_tick' first_cmd_tick' cmd_at'
       end.

(** The last entry of the multiset. *)
Definition last_tick (ticks : list Tick) : Tick := foldr Z.max 0 ticks.

(** Enough iterations to pass every window in use with both commands. *)
Definition multi_fuel (w : Z) (ticks : list Tick) : nat :=
  Z.to_nat (3 * (last_tick ticks / w) + 8).

Definition verifyMultiCmd (w : Z) (ticks : list Tick) (cmd_tick max_cmds split : Z) :
    res (Tick * list Tick) :=
  let burst_tick := getBurstWindow w cmd_tick in
  let first_cmd_offset := cmd_tick mod w in
  burst_offset ← offset_loop (Z.to_nat split) w split first_cmd_offset 0;
  let first_cmd_tick := burst_tick - Z.min burst_offset burst_tick in
  '(burst_tick, first_cmd_tick, cmd_at) ←
    multi_loop (multi_fuel w ticks) w max_cmds split ticks burst_tick first_cmd_tick cmd_tick;
  Ok (cmd_at, first_cmd_tick :: burst_tick :: ticks).

(** ** Counting *)

Lemma count_nonneg t ticks : 0 ≤ count t ticks.
Proof. unfold count. lia. Qed.

Lemma count_cons t x ticks : count t (x :: ticks) = count t ticks + if decide (x = t) then 1 else 0.
Proof. unfold count. rewrite filter_cons. case_decide; simpl; lia. Qed.

Lemma count_zero t ticks : last_tick ticks < t → count t ticks = 0.
Proof.
  unfold count, last_tick. induction ticks as [|x ticks IH]; intros Ht; [done|]. simpl in Ht.
  rewrite filter_cons. rewrite decide_False by lia. apply IH. lia.
Qed.

Lemma last_tick_nonneg ticks : 0 ≤ last_tick ticks.
Proof. unfold last_tick. induction ticks; simpl; lia. Qed.

(** Entries at or after [t]. *)
Definition at_least (t : Tick) (ticks : list Tick) : nat := length (filter (λ x, t ≤ x) ticks).

Lemma at_least_drop t t' ticks :
  t < t' → 1 ≤ count t ticks → (at_least t' ticks < at_least t ticks)%nat.
Proof.
  intros Hlt. unfold count, at_least. induction ticks as [|x ticks IH]; simpl; [lia|].
  rewrite !filter_cons. intros Hc.
  assert ((length (filter (λ x, (t' ≤ x)%Z) ticks) ≤ length (filter (λ x, (t ≤ x)%Z) ticks))%nat) as Hmono.
  { clear -Hlt. induction ticks as [|x ticks IH]; [done|]. rewrite !filter_cons.
    repeat case_decide; simpl; lia. }
  repeat case_decide; simpl in *; try lia.
Qed.

(** ** [verifySingleCmd] *)

Lemma single_loop_spec fuel w max ticks b c :
  0 < w → 1 ≤ max → (at_least b ticks ≤ fuel)%nat → b ≤ c < b + w →
  ∃ k, 0 ≤ k ∧ single_loop fuel w max ticks b c =
      Ok (b + k * w, if k =? 0 then c else b + k * w) ∧
    count (b + k * w) ticks < max ∧
    (∀ j, 0 ≤ j < k → max ≤ count (b + j * w) ticks).
Proof.
  intros Hw Hmax. revert b c. induction fuel as [|fuel IH]; intros b c Hf Hbc; cbn [single_loop];
    destruct (Z.leb_spec max (count b ticks)) as [Hfull|Hfree].
  2,4: exists 0; rewrite Z.mul_0_l, Z.add_0_r; split; [lia|]; split; [done|]; split; [done|lia].
  { pose proof (at_least_drop b (b + w) ticks). lia. }
  pose proof (at_least_drop b (b + w) ticks ltac:(lia) ltac:(lia)) as Hdrop.
  destruct (IH (b + w) (b + w)) as (k & Hk & -> & Hcnt & Hall); [lia|lia|].
  exists (k + 1). replace (b + (k + 1) * w) with (b + w + k * w) by lia.
  rewrite (proj2 (Z.eqb_neq (k + 1) 0)) by lia.
  split; [lia|]. split; [|split; [done|]].
  - destruct (Z.eqb_spec k 0) as [->|]; [|done]. do 2 f_equal. lia.
  - intros j Hj. destruct (Z.eqb_spec j 0) as [->|]; [by rewrite Z.mul_0_l, Z.add_0_r|].
    replace (b + j * w) with (b + w + (j - 1) * w) by lia. apply Hall. lia.
Qed.

Lemma window_bounds w t : 0 < w → 0 ≤ t →
  0 ≤ getBurstWindow w t ≤ t ∧ t < getBurstWindow w t + w ∧ getBurstWindow w t mod w = 0.
Proof.
  intros Hw Ht. unfold getBurstWindow. pose proof (Z.mod_pos_bound t w Hw).
  pose proof (Z.div_mod t w ltac:(lia)) as Hdm. split; [|split].
  - pose proof (Z.mod_le t w). lia.
  - lia.
  - replace (t - t mod w) with (t / w * w) by lia. apply Z.mod_mul. lia.
Qed.

(** The command issues no earlier than asked, in the first window from there
    on with bandwidth left, and the window is charged for it. *)
Lemma verifySingleCmd_spec w ticks t max :
  0 < w → 1 ≤ max → 0 ≤ t →
  ∃ k, 0 ≤ k ∧
    let b := getBurstWindow w t in
    verifySingleCmd w ticks t max =
      Ok (if k =? 0 then t else b + k * w, (b + k * w) :: ticks) ∧
    count (b + k * w) ticks < max ∧
    (∀ j, 0 ≤ j < k → max ≤ count (b + j * w) ticks).
Proof.
  intros Hw Hmax Ht. destruct (window_bounds w t Hw Ht) as (Hb & Hbt & _).
  destruct (single_loop_spec (length ticks) w max ticks (getBurstWindow w t) t Hw Hmax)
    as (k & Hk & Hl & Hc & Hall); [apply length_filter|lia|].
  exists k. split; [done|]. cbv zeta. split; [|done]. unfold verifySingleCmd. by rewrite Hl.
Qed.

(** ** [verifyMultiCmd] *)

Lemma offset_loop_spec fuel w split o b :
  0 < w → (Z.to_nat (split - (o + b)) ≤ fuel)%nat →
  ∃ b', offset_loop fuel w split o b = Ok b' ∧ b ≤ b' ∧ (w | b' - b) ∧ split ≤ o + b' ∧
    (b < b' → o + b' < split + w).
Proof.
  intros Hw. revert b. induction fuel as [|fuel IH]; intros b Hf; cbn [offset_loop];
    destruct (Z.ltb_spec (o + b) split) as [Hlt|Hge].
  2,4: exists b; split; [done|]; split; [lia|]; split; [exists 0; lia|]; lia.
  { lia. }
  destruct (IH (b + w)) as (b' & -> & ? & [q Hq] & ? & ?); [lia|].
  exists b'. split; [done|]. split; [lia|]. split; [exists (q + 1); lia|]. lia.
Qed.

(** Each unsuccessful iteration moves the second command past a window in
    use, or the first one.  [todo] counts the windows still ahead of them,
    twice for the first command, which may run into the window of the second
    and push it out. *)
Section multi.
Context (w max split : Z) (ticks : list Tick).
Hypothesis Hw : 0 < w.
Hypothesis Hmax : 1 ≤ max.

Let last_w := last_tick ticks / w.

Lemma full_window t : t mod w = 0 → 0 ≤ t → 1 ≤ count t ticks → t / w ≤ last_w.
Proof.
  intros Hm Ht Hc. unfold last_w. apply Z.div_le_mono; [lia|].
  destruct (Z.leb_spec t (last_tick ticks)); [done|].
  rewrite count_zero in Hc by lia. lia.
Qed.

Definition ahead (t : Tick) : Z := Z.max 0 (last_w + 1 - t / w).

Lemma ahead_step t : t / w ≤ last_w → ahead (t + w) = ahead t - 1 ∧ 0 < ahead t.
Proof.
  intros Ht. unfold ahead.
  replace (t + w) with (t + 1 * w) by lia. rewrite Z.div_add by lia. lia.
Qed.

Lemma ahead_mono t : ahead (t + w) ≤ ahead t.
Proof.
  unfold ahead. replace (t + w) with (t + 1 * w) by lia. rewrite Z.div_add by lia. lia.
Qed.

Definition todo (b f : Tick) : Z :=
  ahead b + 2 * ahead f + (if b =? f then 1 else 0).

Lemma aligned_step t : t mod w = 0 → (t + w) mod w = 0.
Proof. intros Ht. rewrite <-Z.add_mod_idemp_r, Z.mod_same, Z.add_0_r by lia. done. Qed.

Lemma multi_loop_spec fuel b f c :
  0 ≤ f → f ≤ b → b mod w = 0 → f mod w = 0 → c < b + w → todo b f < Z.of_nat fuel →
  ∃ b' f' c', multi_loop fuel w max split ticks b f c = Ok (b', f', c') ∧
    b ≤ b' ∧ f ≤ f' ≤ b' ∧ c ≤ c' ∧ ((c' = c ∧ b' = b) ∨ c' = b') ∧ b' mod w = 0 ∧ f' mod w = 0 ∧
    count f' ticks < max ∧ count b' ticks + (if b' =? f' then 1 else 0) < max.
Proof.
  revert b f c. induction fuel as [|fuel IH]; intros b f c Hf Hfb Hbm Hfm Hc Ht.
  { unfold todo, ahead in Ht. case_match; lia. }
  cbn [multi_loop]. set (same := b =? f). set (c1 := count f ticks).
  set (c2 := if same then c1 + 1 else count b ticks).
  assert (c2 = count b ticks + if b =? f then 1 else 0) as Hc2.
  { unfold c2, same, c1. destruct (Z.eqb_spec b f) as [->|]; lia. }
  destruct (Z.ltb_spec c1 max) as [H1|H1]; destruct (Z.ltb_spec c2 max) as [H2|H2]; simpl.
  - (* both issue *)
    exists b, f, c. split; [done|]. split; [lia|]. split; [lia|]. split; [lia|]. split; [by left|].
    split; [done|]. split; [done|]. split; [done|]. lia.
  - (* the second is blocked *)
    set (f2 := if negb same && (split <? b + w - f) then f + w else f).
    assert (f2 = f ∨ (f2 = f + w ∧ f ≠ b)) as Hf2.
    { unfold f2, same. destruct (Z.eqb_spec b f); simpl; [by left|]. case_match; [right; lia|by left]. }
    assert (f2 mod w = 0) as Hf2m by (destruct Hf2 as [->|[-> _]]; [done|by apply aligned_step]).
    destruct (IH (b + w) f2 (b + w)) as (b' & f' & c' & Hl & ? & ? & ? & Hcc & ? & ? & ? & ?);
      [destruct Hf2; lia|destruct Hf2; lia|by apply aligned_step|done|lia| |].
    { unfold todo in *. rewrite (proj2 (Z.eqb_neq (b + w) f2)).
      - assert (ahead f2 ≤ ahead f) by (destruct Hf2 as [->|[-> _]]; [lia|apply ahead_mono]).
        pose proof (ahead_mono b). destruct (Z.eqb_spec b f) as [Hbf|Hbf]; [lia|].
        destruct (ahead_step b) as [? ?]; [|lia].
        apply full_window; [done|lia|]. cbv iota in Hc2. lia.
      - destruct Hf2; lia. }
    exists b', f', c'. split; [exact Hl|]. split; [lia|].
    split; [destruct Hf2; lia|]. split; [lia|]. split; [destruct Hcc; [right; lia|by right]|]. done.
  - (* the first is blocked: its window is full, so it is not the second's *)
    assert (b ≠ f) as Hne.
    { intros ->. unfold c1 in H1. rewrite Z.eqb_refl in Hc2. lia. }
    destruct (IH b (f + w) c) as (b' & f' & c' & Hl & ? & ? & ? & Hcc & ? & ? & ? & ?);
      [lia| |done|by apply aligned_step|lia| |].
    { assert (f / w < b / w).
      { apply Z.div_lt_upper_bound; [lia|].
        pose proof (Z.div_mod b w ltac:(lia)). lia. }
      pose proof (Z.div_mod b w ltac:(lia)). pose proof (Z.div_mod f w ltac:(lia)).
      assert (w * (f / w + 1) ≤ w * (b / w)) by (apply Z.mul_le_mono_nonneg_l; lia). lia. }
    { destruct (ahead_step f) as [? ?]; [apply full_window; [done|lia|unfold c1 in H1; lia]|].
      unfold todo in *. rewrite (proj2 (Z.eqb_neq b f)) in Ht by done.
      assert ((if b =? f + w then 1 else 0) ≤ 1) by (destruct (b =? f + w); lia). cbv iota in Ht. lia. }
    exists b', f', c'. split; [exact Hl|]. split; [lia|]. split; [lia|]. done.
  - (* both are blocked *)
    destruct (IH (b + w) (f + w) (b + w)) as (b' & f' & c' & Hl & ? & ? & ? & Hcc & ? & ? & ? & ?);
      [lia|lia|by apply aligned_step|by apply aligned_step|lia| |].
    { destruct (ahead_step f) as [? ?]; [apply full_window; [done|lia|unfold c1 in H1; lia]|].
      pose proof (ahead_mono b). unfold todo in *.
      replace (b + w =? f + w) with (b =? f) by lia. lia. }
    exists b', f', c'. split; [exact Hl|]. split; [lia|]. split; [lia|]. split; [lia|].
    split; [destruct Hcc; [right; lia|by right]|]. done.
Qed.
End multi.

Lemma verifyMultiCmd_spec w ticks t max split :
  0 < w → 1 ≤ max → 0 ≤ t →
  ∃ c b f, verifyMultiCmd w ticks t max split = Ok (c, f :: b :: ticks) ∧
    t ≤ c ∧ (c = t ∧ b = getBurstWindow w t ∨ c = b) ∧ 0 ≤ f ≤ b ∧
    b mod w = 0 ∧ f mod w = 0 ∧
    count f ticks < max ∧ count b ticks + (if b =? f then 1 else 0) < max.
Proof.
  intros Hw Hmax Ht. destruct (window_bounds w t Hw Ht) as (Hb & Hbt & Hbm).
  unfold verifyMultiCmd.
  destruct (offset_loop_spec (Z.to_nat split) w split (t mod w) 0 Hw) as (o & -> & Ho & [q Hq] & _).
  { pose proof (Z.mod_pos_bound t w Hw). lia. }
  cbn [mbind res_bind]. set (b := getBurstWindow w t) in *. set (f := b - Z.min o b).
  assert (f mod w = 0) as Hfm.
  { unfold f. destruct (Z.min_spec o b) as [[_ ->]|[_ ->]].
    - replace (b - o) with (b + (- q) * w) by lia. by rewrite Z.mod_add by lia.
    - by rewrite Z.sub_diag, Z.mod_0_l by lia. }
  destruct (multi_loop_spec w max split ticks Hw Hmax (multi_fuel w ticks) b f t)
    as (b' & f' & c' & -> & ? & ? & ? & Hc & ? & ? & ? & ?); [unfold f; lia|unfold f; lia|done|done|lia| |].
  { unfold multi_fuel, todo, ahead.
    pose proof (Z.div_pos b w ltac:(lia) Hw). assert (0 ≤ f) by (unfold f; lia).
    pose proof (Z.div_pos f w ltac:(lia) Hw).
    pose proof (Z.div_pos (last_tick ticks) w (last_tick_nonneg ticks) Hw).
    assert ((if b =? f then 1 else 0) ≤ 1) by (destruct (b =? f); lia). lia. }
  cbn [mbind res_bind]. exists c', b', f'. split; [done|]. split; [lia|]. split; [lia|].
  split; [unfold f in *; lia|]. done.
Qed.

(** ** Theorems *)

(** C34: The search for a command slot always ends, even when every recorded
    window is full.  A single command is placed in the first window from the
    requested tick on that still has bandwidth; a two-part command gets two
    windows with room for both parts, the first not after the second.  Neither
    issues before it was asked to, and afterwards no window in use holds more
    commands than the limit unless it did before. *)
Theorem command_slots_found w ticks t max split :
  0 < w → 1 ≤ max → 0 ≤ t →
  (∃ k, 0 ≤ k ∧
     let b := getBurstWindow w t + k * w in
     verifySingleCmd w ticks t max = Ok (if k =? 0 then t else b, b :: ticks) ∧
     t ≤ (if k =? 0 then t else b) ∧ count b (b :: ticks) ≤ max ∧
     ∀ j, 0 ≤ j < k → max ≤ count (getBurstWindow w t + j * w) ticks) ∧
  (∃ c b f, verifyMultiCmd w ticks t max split = Ok (c, f :: b :: ticks) ∧
     t ≤ c ∧ 0 ≤ f ≤ b ∧
     count b (f :: b :: ticks) ≤ max ∧ count f (f :: b :: ticks) ≤ max).
Proof.
  intros Hw Hmax Ht. split.
  - destruct (verifySingleCmd_spec w ticks t max Hw Hmax Ht) as (k & Hk & Hv & Hc & Hall).
    exists k. split; [done|]. cbv zeta in *. split; [done|].
    destruct (window_bounds w t Hw Ht) as (? & ? & _).
    split; [destruct (Z.eqb_spec k 0); nia|]. split; [|done].
    rewrite count_cons, decide_True by done. lia.
  - destruct (verifyMultiCmd_spec w ticks t max split Hw Hmax Ht)
      as (c & b & f & Hv & Hc & _ & Hf & _ & _ & Hc1 & Hc2).
    exists c, b, f. split; [done|]. split; [done|]. split; [done|].
    rewrite !count_cons. destruct (Z.eqb_spec b f) as [->|Hne].
    + rewrite !decide_True by done. lia.
    + rewrite (decide_True (P := b = b)), (decide_True (P := f = f)) by done.
      rewrite !decide_False by congruence. lia.
Qed.

Lemma command_slots_found_witness :
  verifySingleCmd 10 [20; 20; 30; 30] 25 2 = Ok (40, [40; 20; 20; 30; 30]) ∧
  ∃ c b f, verifyMultiCmd 10 [20; 20; 30; 30] 25 2 1 = Ok (c, [f; b; 20; 20; 30; 30]) ∧ 25 ≤ c.
Proof.
  split; [vm_compute; reflexivity|].
  destruct (command_slots_found 10 [20; 20; 30; 30] 25 2 1 ltac:(lia) ltac:(lia) ltac:(lia))
    as [_ (c & b & f & Hv & Hc & _)].
  exists c, b, f. split; [exact Hv|exact Hc].
Defined.
End CmdBus.
