(* ===== verification/NvmDecode.v ===== *)
(** * NVM geometry and address decoding ([mem/mem_interface.cc])

    The part of [MemInterface] and [NVMInterface] that is fixed when the
    simulation starts: the geometry computed by the constructors, the timing
    parameters, and [decodePacket], which splits an address into rank, bank
    and row. *)

From S2P Require Import Prelude.
From S2P Require Import Intmath.
From S2P Require Import AddrRange.

Module Nvm.

(** ** Definitions *)

Inductive AddrMap := RoRaBaChCo | RoRaBaCoCh | RoCoRaBaCh.
#[export] Instance AddrMap_eq_dec : EqDecision AddrMap.
Proof. solve_decision. Defined.

(** The parameters of [NVMInterface] and of the controller it is hooked to. *)
Record Params := mkParams {
  addr_mapping : AddrMap;
  addr_range : AddrRange;
  devices_per_rank : Z;
  burst_length : Z;
  device_bus_width : Z;
  device_rowbuffer_size : Z;
  ranks_per_channel : Z;
  banks_per_rank : Z;
  p_tCK : Z; p_tCS : Z; p_tBURST : Z; p_tRTW : Z; p_tWTR : Z;
  p_tREAD : Z; p_tWRITE : Z; p_tSEND : Z;
  max_pending_writes : Z;
  max_pending_reads : Z;
  two_cycle_rdwr : bool;
  read_buffer_size : Z;
  write_buffer_size : Z;
  command_window : Z;
}.

Record Interface := mkInterface {
  addrMapping : AddrMap;
  range : AddrRange;
  burstSize : Z;
  rowBufferSize : Z;
  burstsPerRowBuffer : Z;
  burstsPerStripe : Z;
  ranksPerChannel : Z;
  banksPerRank : Z;
  rowsPerBank : Z;
  tCK : Z; tCS : Z; tBURST : Z; tRTW : Z; tWTR : Z;
  tREAD : Z; tWRITE : Z; tSEND : Z;
  maxPendingWrites : Z;
  maxPendingReads : Z;
  twoCycleRdWr : bool;
  readBufferSize : Z;
  writeBufferSize : Z;
  maxCommandsPerWindow : Z;
}.

(** Unsigned division; a zero divisor is undefined. *)
Definition udiv (a b : Z) : res Z := if b =? 0 then Err Undef else Ok (a / b).

(** The constructors of [MemInterface] and [NVMInterface], and [setCtrl]. *)
Definition NVMInterface_new (p : Params) : res Interface :=
  let burst := u32 (u32 (devices_per_rank p * burst_length p * device_bus_width p) / 8) in
  let rowbuf := u32 (devices_per_rank p * device_rowbuffer_size p) in
  per_row ← udiv rowbuf burst;
  per_stripe ← (if interleaved (addr_range p)
                then g ← granularity (addr_range p); n ← udiv g burst; Ok (u32 n)
                else Ok 1);
  fatal_if (negb (isPowerOf2 burst));;
  fatal_if (negb (isPowerOf2 (ranks_per_channel p)));;
  k ← ceilLog2 8 (size (addr_range p));
  let capacity := shl64 1 k in
  rows ← udiv capacity (u32 (rowbuf * banks_per_rank p * ranks_per_channel p));
  cmds ← udiv (command_window p) (p_tCK p);
  Ok (mkInterface (addr_mapping p) (addr_range p) burst rowbuf per_row per_stripe
        (ranks_per_channel p) (banks_per_rank p) (u32 rows)
        (p_tCK p) (p_tCS p) (p_tBURST p) (p_tRTW p) (p_tWTR p) (p_tREAD p) (p_tWRITE p) (p_tSEND p)
        (max_pending_writes p) (max_pending_reads p) (two_cycle_rdwr p)
        (read_buffer_size p) (write_buffer_size p) (u32 cmds)).

(** What [decodePacket] stores in the memory packet. *)
Record Location := mkLocation { l_rank : Z; l_bank : Z; l_row : Z; l_bankId : Z }.

Definition NO_ROW : Z := 2 ^ 32 - 1.

(** The divisions by the bank and rank counts both mappings share. *)
Definition bank_rank (i : Interface) (addr : Z) : res (Z * Z * Z) :=
  if (banksPerRank i =? 0) || (ranksPerChannel i =? 0) then Err Undef
  else
    let bank := u8 (addr mod banksPerRank i) in
    let addr := addr / banksPerRank i in
    let rank := u8 (addr mod ranksPerChannel i) in
    Ok (bank, rank, addr / ranksPerChannel i).

Definition decodePacket (i : Interface) (pkt_addr : Z) : res Location :=
  offset ← getOffset (range i) pkt_addr;
  addr ← udiv offset (burstSize i);
  '(bank, rank, addr) ←
    match addrMapping i with
    | RoRaBaChCo | RoRaBaCoCh =>
        addr ← udiv addr (burstsPerRowBuffer i);
        bank_rank i addr
    | RoCoRaBaCh =>
        addr ← (if burstsPerRowBuffer i <? burstsPerStripe i
                then udiv addr (burstsPerRowBuffer i) else udiv addr (burstsPerStripe i));
        '(bank, rank, addr) ← bank_rank i addr;
        if burstsPerStripe i <? burstsPerRowBuffer i
        then q ← udiv (burstsPerRowBuffer i) (burstsPerStripe i);
             addr ← udiv addr q; Ok (bank, rank, addr)
        else Ok (bank, rank, addr)
    end;
  if rowsPerBank i =? 0 then Err Undef else
  let row := addr mod rowsPerBank i in
  assertb (rank <? ranksPerChannel i);;
  assertb (bank <? banksPerRank i);;
  assertb (row <? rowsPerBank i);;
  assertb (row <? NO_ROW);;
  Ok (mkLocation rank bank row (u16 (banksPerRank i * rank + bank))).

Definition writeToReadDelay (i : Interface) : Z := tBURST i + tWTR i.
Definition readToWriteDelay (i : Interface) : Z := tBURST i + tRTW i.
Definition rankToRankDelay (i : Interface) : Z := tBURST i + tCS i.
Definition minReadToWriteDataGap (i : Interface) : Z := Z.min (tRTW i) (tCS i).
Definition minWriteToReadDataGap (i : Interface) : Z := Z.min (tWTR i) (tCS i).
Definition commandOffset (i : Interface) : Z := tBURST i.
Definition accessLatency (i : Interface) : Z := tREAD i + tSEND i.

(** ** Specification *)

(** A geometry the decoder can work with. *)
Definition geometry_ok (i : Interface) : Prop :=
  0 < burstSize i ∧ 0 < burstsPerRowBuffer i ∧ 0 < burstsPerStripe i ∧
  0 < banksPerRank i ≤ 256 ∧ 0 < ranksPerChannel i ≤ 256 ∧
  0 < rowsPerBank i < 2 ^ 32 - 1.

(** The bytes the ranks of the channel hold. *)
Definition capacity (i : Interface) : Z :=
  burstSize i * burstsPerRowBuffer i * banksPerRank i * ranksPerChannel i * rowsPerBank i.

(** The burst number a location and a column stand for, for the mappings
    with the columns at the bottom. *)
Definition burst_at (i : Interface) (l : Location) (column : Z) : Z :=
  ((l_row l * ranksPerChannel i + l_rank l) * banksPerRank i + l_bank l) *
    burstsPerRowBuffer i + column.

(** ** Proofs *)

Lemma udiv_ok a b : 0 < b → udiv a b = Ok (a / b).
Proof. intros. unfold udiv. by rewrite (proj2 (Z.eqb_neq b 0)) by lia. Qed.

Lemma u8_mod a n : 0 < n ≤ 256 → u8 (a mod n) = a mod n.
Proof.
  intros Hn. apply u8_small. pose proof (Z.mod_pos_bound a n ltac:(lia)). lia.
Qed.

Lemma bank_rank_ok i addr :
  geometry_ok i →
  bank_rank i addr = Ok (addr mod banksPerRank i,
    (addr / banksPerRank i) mod ranksPerChannel i,
    addr / banksPerRank i / ranksPerChannel i).
Proof.
  intros (_ & _ & _ & Hb & Hr & _). unfold bank_rank.
  rewrite (proj2 (Z.eqb_neq (banksPerRank i) 0)), (proj2 (Z.eqb_neq (ranksPerChannel i) 0)) by lia.
  simpl. by rewrite !u8_mod.
Qed.

(** Decoding with the columns at the bottom, in closed form. *)
Lemma decodePacket_column_low i a off :
  geometry_ok i → addrMapping i = RoRaBaChCo ∨ addrMapping i = RoRaBaCoCh →
  getOffset (range i) a = Ok off →
  let n := off / burstSize i / burstsPerRowBuffer i in
  decodePacket i a = Ok (mkLocation
    ((n / banksPerRank i) mod ranksPerChannel i) (n mod banksPerRank i)
    ((n / banksPerRank i / ranksPerChannel i) mod rowsPerBank i)
    (u16 (banksPerRank i * ((n / banksPerRank i) mod ranksPerChannel i) + n mod banksPerRank i))).
Proof.
  intros Hg Hmap Hoff n. pose proof Hg as (Hbs & Hrb & _ & Hb & Hr & Hrow).
  unfold decodePacket. rewrite Hoff. cbn [mbind res_bind]. rewrite (udiv_ok off (burstSize i) Hbs).
  cbn [mbind res_bind].
  assert ((match addrMapping i with
    | RoRaBaChCo | RoRaBaCoCh => addr ← udiv (off / burstSize i) (burstsPerRowBuffer i); bank_rank i addr
    | RoCoRaBaCh =>
        addr ← (if burstsPerRowBuffer i <? burstsPerStripe i
                then udiv (off / burstSize i) (burstsPerRowBuffer i)
                else udiv (off / burstSize i) (burstsPerStripe i));
        '(bank, rank, addr) ← bank_rank i addr;
        if burstsPerStripe i <? burstsPerRowBuffer i
        then q ← udiv (burstsPerRowBuffer i) (burstsPerStripe i);
             addr ← udiv addr q; Ok (bank, rank, addr)
        else Ok (bank, rank, addr)
    end) = bank_rank i n) as ->.
  { destruct Hmap as [-> | ->]; rewrite udiv_ok by done; reflexivity. }
  rewrite bank_rank_ok by done. cbn [mbind res_bind].
  rewrite (proj2 (Z.eqb_neq (rowsPerBank i) 0)) by lia.
  pose proof (Z.mod_pos_bound (n / banksPerRank i) (ranksPerChannel i) ltac:(lia)).
  pose proof (Z.mod_pos_bound n (banksPerRank i) ltac:(lia)).
  pose proof (Z.mod_pos_bound (n / banksPerRank i / ranksPerChannel i) (rowsPerBank i) ltac:(lia)).
  unfold NO_ROW. rewrite !(proj2 (Z.ltb_lt _ _)) by lia. done.
Qed.

(** Every mapping decodes every address to a rank and bank in range. *)
Lemma decodePacket_total i a off :
  geometry_ok i → getOffset (range i) a = Ok off →
  ∃ l, decodePacket i a = Ok l ∧
    0 ≤ l_rank l < ranksPerChannel i ∧ 0 ≤ l_bank l < banksPerRank i.
Proof.
  intros Hg Hoff. pose proof Hg as (Hbs & Hrb & Hst & Hb & Hr & Hrow).
  destruct (decide (addrMapping i = RoCoRaBaCh)) as [Hmap|Hmap].
  2:{ rewrite (decodePacket_column_low i a off Hg) by (done || (destruct (addrMapping i); tauto)).
      eexists. split; [reflexivity|]. split; apply Z.mod_pos_bound; lia. }
  unfold decodePacket. rewrite Hoff, Hmap. cbn [mbind res_bind].
  rewrite (udiv_ok off (burstSize i) Hbs). cbn [mbind res_bind].
  assert (∃ x, (if burstsPerRowBuffer i <? burstsPerStripe i
    then udiv (off / burstSize i) (burstsPerRowBuffer i)
    else udiv (off / burstSize i) (burstsPerStripe i)) = Ok x) as [x ->].
  { destruct (_ <? _); rewrite udiv_ok by done; eauto. }
  cbn [mbind res_bind]. rewrite bank_rank_ok by done. cbn [mbind res_bind].
  pose proof (Z.mod_pos_bound (x / banksPerRank i) (ranksPerChannel i) ltac:(lia)).
  pose proof (Z.mod_pos_bound x (banksPerRank i) ltac:(lia)).
  assert (∀ y, ∃ l, (if rowsPerBank i =? 0 then Err Undef else
    let row := y mod rowsPerBank i in
    assertb ((x / banksPerRank i) mod ranksPerChannel i <? ranksPerChannel i);;
    assertb (x mod banksPerRank i <? banksPerRank i);;
    assertb (row <? rowsPerBank i);; assertb (row <? NO_ROW);;
    Ok (mkLocation ((x / banksPerRank i) mod ranksPerChannel i) (x mod banksPerRank i) row
      (u16 (banksPerRank i * ((x / banksPerRank i) mod ranksPerChannel i) + x mod banksPerRank i))))
    = Ok l ∧ 0 ≤ l_rank l < ranksPerChannel i ∧ 0 ≤ l_bank l < banksPerRank i) as Hrest.
  { intros y. rewrite (proj2 (Z.eqb_neq (rowsPerBank i) 0)) by lia.
    pose proof (Z.mod_pos_bound y (rowsPerBank i) ltac:(lia)).
    unfold NO_ROW. rewrite !(proj2 (Z.ltb_lt _ _)) by lia. eexists. split; [reflexivity|]. done. }
  destruct (Z.ltb_spec (burstsPerStripe i) (burstsPerRowBuffer i)).
  - rewrite (udiv_ok (burstsPerRowBuffer i)) by done. cbn [mbind res_bind].
    assert (0 < burstsPerRowBuffer i / burstsPerStripe i) by (apply Z.div_str_pos; lia).
    rewrite udiv_ok by done. cbn [mbind res_bind]. apply Hrest.
  - cbn [mbind res_bind]. apply Hrest.
Qed.

(** ** Theorems *)

(** With the column bits at the bottom, decoding an address inside the
    capacity of the channel gives a rank, bank and row in range from which,
    with the column, the burst is recovered exactly: two bursts share a bank
    and row only if they are in the same row buffer, and no assertion of the
    decoder fails. *)
Theorem decode_recovers_burst i a off :
  geometry_ok i → addrMapping i = RoRaBaChCo ∨ addrMapping i = RoRaBaCoCh →
  getOffset (range i) a = Ok off → 0 ≤ off < capacity i →
  ∃ l, decodePacket i a = Ok l ∧
    0 ≤ l_rank l < ranksPerChannel i ∧ 0 ≤ l_bank l < banksPerRank i ∧
    0 ≤ l_row l < rowsPerBank i ∧
    burst_at i l (off / burstSize i mod burstsPerRowBuffer i) = off / burstSize i.
Proof.
  intros Hg Hmap Hoff Hcap. pose proof Hg as (Hbs & Hrb & _ & Hb & Hr & Hrow).
  rewrite (decodePacket_column_low i a off Hg Hmap Hoff). eexists. split; [reflexivity|]. simpl.
  set (n := off / burstSize i / burstsPerRowBuffer i).
  split; [apply Z.mod_pos_bound; lia|]. split; [apply Z.mod_pos_bound; lia|].
  split; [apply Z.mod_pos_bound; lia|]. unfold burst_at; simpl.
  assert (n / banksPerRank i / ranksPerChannel i < rowsPerBank i) as Hlt.
  { unfold n. unfold capacity in Hcap.
    repeat (apply Z.div_lt_upper_bound; [lia|]). lia. }
  rewrite (Z.mod_small (n / banksPerRank i / ranksPerChannel i)).
  2:{ split; [|done]. unfold n. repeat (apply Z.div_pos; [|lia]). lia. }
  rewrite (Z.mul_comm (n / banksPerRank i / ranksPerChannel i)), <-Z.div_mod by lia.
  rewrite (Z.mul_comm (n / banksPerRank i)), <-Z.div_mod by lia.
  unfold n. rewrite (Z.mul_comm (off / burstSize i / _)), <-Z.div_mod by lia. done.
Qed.

Definition nvm_params : Params :=
  mkParams RoRaBaCoCh (mkAddrRange 0x30000000 0x50000000 [] 0) 1 8 64 256 1 16
    833 2 3332 5 5 150000 500000 14160 128 64 true 64 128 10000.

Lemma decode_recovers_burst_witness :
  ∃ i l, NVMInterface_new nvm_params = Ok i ∧ decodePacket i 0x30012345 = Ok l ∧
    burst_at i l (0x12345 / burstSize i mod burstsPerRowBuffer i) = 0x12345 / 64.
Proof.
  destruct (NVMInterface_new nvm_params) as [i|] eqn:E; [|vm_compute in E; discriminate].
  vm_compute in E. injection E as <-.
  destruct (decode_recovers_burst (mkInterface RoRaBaCoCh (mkAddrRange 0x30000000 0x50000000 [] 0)
    64 256 4 1 1 16 131072 833 2 3332 5 5 150000 500000 14160 128 64 true 64 128 12)
    0x30012345 0x12345) as (l & Hl & _ & _ & _ & Hb).
  - repeat split; simpl; lia.
  - by right.
  - vm_compute. reflexivity.
  - vm_compute. split; congruence.
  - eexists _, l. split; [reflexivity|]. split; [exact Hl|]. exact Hb.
Defined.
End Nvm.
