(* ===== verification/NvmDevice.v ===== *)
(** * The NVM interface of the memory controller ([mem/mem_interface.cc])

    The dynamic state of [NVMInterface]: banks, the queue of issued reads
    whose data is not ready, the queue of writes the media has not completed,
    and the two events that empty them.  Event flags follow
    [EventQueue::schedule] and [reschedule] ([sim/eventq.hh]).  Times are
    unbounded integers: a simulation is assumed to stay below [MaxTick]. *)

From stdpp Require Import sorting.
From S2P Require Import Prelude.
From S2P Require Import Intmath.
From S2P Require Import AddrRange.
From S2P Require Import CmdBus.
From S2P Require Import NvmDecode.

Module Dev.
Export CmdBus Nvm.

(** ** Events *)

Record Event := mkEvent { scheduled : bool; when : Tick }.

Definition idle : Event := mkEvent false 0.

Definition schedule (curTick : Tick) (e : Event) (t : Tick) : res Event :=
  assertb (curTick <=? t);;
  assertb (negb (scheduled e));;
  Ok (mkEvent true t).

Definition reschedule (curTick : Tick) (e : Event) (t : Tick) : res Event :=
  assertb (curTick <=? t);;
  assertb (scheduled e);;
  Ok (mkEvent true t).

(** [serviceOne] clears the flag before it runs the handler. *)
Definition fired (e : Event) : Event := mkEvent false (when e).

(** ** Packets *)

(** The fields of [Packet] the controller reads. *)
Record Packet := mkPacket {
  p_id : Z;
  p_addr : Z;
  p_size : Z;
  p_isRead : bool;
  p_isWrite : bool;
  p_cacheResponding : bool;
  p_needsResponse : bool;
  p_requestorId : Z;
  p_qosValue : Z;
  p_headerDelay : Tick;
  p_payloadDelay : Tick;
}.

(** [MemPacket]; [isDram()] is false throughout. *)
Record MemPacket := mkMemPacket {
  entryTime : Tick;
  readyTime : Tick;
  m_pkt : Packet;
  m_read : bool;
  m_loc : Location;
  m_addr : Z;
  m_size : Z;
  burstHelper : option Z;
  m_qos : Z;
}.

Definition m_requestorId (p : MemPacket) : Z := p_requestorId (m_pkt p).

Definition set_ready (t : Tick) (p : MemPacket) : MemPacket :=
  mkMemPacket (entryTime p) t (m_pkt p) (m_read p) (m_loc p) (m_addr p) (m_size p)
    (burstHelper p) (m_qos p).

Definition set_helper (h : option Z) (p : MemPacket) : MemPacket :=
  mkMemPacket (entryTime p) (readyTime p) (m_pkt p) (m_read p) (m_loc p) (m_addr p)
    (m_size p) h (m_qos p).

(** The constructor, as [decodePacket] calls it. *)
Definition MemPacket_new (curTick : Tick) (p : Packet) (is_read : bool) (l : Location)
    (addr size : Z) : MemPacket :=
  mkMemPacket curTick curTick p is_read l addr size None (p_qosValue p).

(** ** Bus direction *)

Inductive BusState := READ | WRITE.
#[export] Instance BusState_eq_dec : EqDecision BusState.
Proof. solve_decision. Defined.

Definition is_READ (b : BusState) : bool := match b with READ => true | WRITE => false end.

(** ** State of the interface *)

Record Bank := mkBank {
  openRow : Z;
  bank : Z;
  rdAllowedAt : Tick;
  wrAllowedAt : Tick;
  actAllowedAt : Tick;
  bytesAccessed : Z;
}.

Definition Bank_new (b : Z) : Bank := mkBank NO_ROW b 0 0 0 0.

Record NVM := mkNVM {
  ranks : list (list Bank);
  nextReadAt : Tick;
  numPendingReads : Z;
  numReadDataReady : Z;
  numReadsToIssue : Z;
  numWritesQueued : Z;
  writeRespQueue : list Tick;
  readReadyQueue : list Tick;
  writeRespondEvent : Event;
  readReadyEvent : Event;
}.

(** The ranks the constructor creates. *)
Definition ranks_new (i : Interface) : list (list Bank) :=
  (λ _, Bank_new <$> seqZ 0 (banksPerRank i)) <$> seqZ 0 (ranksPerChannel i).

Definition NVM_new (i : Interface) : NVM :=
  mkNVM (ranks_new i) 0 0 0 0 0 [] [] idle idle.

Definition set_ranks (r : list (list Bank)) (n : NVM) : NVM :=
  mkNVM r (nextReadAt n) (numPendingReads n) (numReadDataReady n) (numReadsToIssue n)
    (numWritesQueued n) (writeRespQueue n) (readReadyQueue n) (writeRespondEvent n)
    (readReadyEvent n).

Definition set_readReadyEvent (e : Event) (n : NVM) : NVM :=
  mkNVM (ranks n) (nextReadAt n) (numPendingReads n) (numReadDataReady n) (numReadsToIssue n)
    (numWritesQueued n) (writeRespQueue n) (readReadyQueue n) (writeRespondEvent n) e.

Definition set_writeRespondEvent (e : Event) (n : NVM) : NVM :=
  mkNVM (ranks n) (nextReadAt n) (numPendingReads n) (numReadDataReady n) (numReadsToIssue n)
    (numWritesQueued n) (writeRespQueue n) (readReadyQueue n) e (readReadyEvent n).

Definition get_bank (n : NVM) (l : Location) : res Bank :=
  match ranks n !! Z.to_nat (l_rank l) with
  | Some banks => match banks !! Z.to_nat (l_bank l) with Some b => Ok b | None => Err Undef end
  | None => Err Undef
  end.

Definition set_bank (l : Location) (b : Bank) (n : NVM) : NVM :=
  set_ranks (alter (λ banks, <[Z.to_nat (l_bank l) := b]> banks) (Z.to_nat (l_rank l)) (ranks n)) n.

(** ** Operations *)

Section Operations.
Context (i : Interface) (commandWindow : Z).

Definition writeRespQueueEmpty (n : NVM) : bool :=
  match writeRespQueue n with [] => true | _ => false end.

Definition writeRespQueueFull (n : NVM) : bool :=
  Z.of_nat (length (writeRespQueue n)) =? maxPendingWrites i.

Definition readsWaitingToIssue (n : NVM) : bool :=
  negb (numReadsToIssue n =? 0) && (numPendingReads n <? maxPendingReads i).

Definition setupRank (is_read : bool) (n : NVM) : NVM :=
  if is_read then
    mkNVM (ranks n) (nextReadAt n) (numPendingReads n) (numReadDataReady n)
      (u16 (numReadsToIssue n + 1)) (numWritesQueued n) (writeRespQueue n)
      (readReadyQueue n) (writeRespondEvent n) (readReadyEvent n)
  else
    mkNVM (ranks n) (nextReadAt n) (numPendingReads n) (numReadDataReady n)
      (numReadsToIssue n) (u32 (numWritesQueued n + 1)) (writeRespQueue n)
      (readReadyQueue n) (writeRespondEvent n) (readReadyEvent n).

(** [next] is [ctrl->inReadBusState(true)]. *)
Definition burstReady (curTick : Tick) (next : BusState) (n : NVM) (p : MemPacket) : bool :=
  let read_rdy := m_read p && is_READ next && (readyTime p <=? curTick) && (0 <? numReadDataReady n) in
  let write_rdy := negb (m_read p) && negb (is_READ next) && negb (writeRespQueueFull n) in
  read_rdy || write_rdy.

Definition col_allowed (b : Bank) (p : MemPacket) : Tick :=
  if m_read p then rdAllowedAt b else wrAllowedAt b.

(** The loop of [chooseNextFRFCFS]: iterators are positions in the queue. *)
Fixpoint frfcfs_loop (curTick : Tick) (next : BusState) (n : NVM) (min_col_at : Tick)
    (queue : list MemPacket) (idx : nat) (found_prepped_pkt : bool)
    (selected : option nat * Tick) : res (option nat * Tick) :=
  match queue with
  | [] => Ok selected
  | p :: queue =>
      b ← get_bank n (m_loc p);
      if burstReady curTick next n p then
        if col_allowed b p <=? min_col_at then Ok (Some idx, col_allowed b p)
        else if negb found_prepped_pkt then
          frfcfs_loop curTick next n min_col_at queue (S idx) true (Some idx, col_allowed b p)
        else frfcfs_loop curTick next n min_col_at queue (S idx) found_prepped_pkt selected
      else frfcfs_loop curTick next n min_col_at queue (S idx) found_prepped_pkt selected
  end.

Definition chooseNextFRFCFS (curTick : Tick) (next : BusState) (n : NVM)
    (queue : list MemPacket) (min_col_at : Tick) : res (option nat * Tick) :=
  frfcfs_loop curTick next n min_col_at queue 0 false (None, MaxTick).

(** A read the media has not been asked for yet. *)
Definition unissued (p : MemPacket) : Prop := readyTime p = MaxTick ∧ m_read p = true.
#[global] Instance unissued_dec p : Decision (unissued p).
Proof. unfold unissued. apply _. Defined.

(** The command slots of a read or write command. *)
Definition verify_rdwr (two : bool) (ticks : list Tick) (cmd_at : Tick) : res (Tick * list Tick) :=
  if two then verifyMultiCmd commandWindow ticks cmd_at (maxCommandsPerWindow i) (tCK i)
  else verifySingleCmd commandWindow ticks cmd_at (maxCommandsPerWindow i).

(** The bank after a read of [row] is issued at [cmd_at]. *)
Definition read_bank (row : Z) (cmd_at : Tick) (b : Bank) : Bank :=
  let bytes := u32 (bytesAccessed b + burstSize i) in
  if negb (openRow b =? row) then
    mkBank row (bank b) (rdAllowedAt b) (wrAllowedAt b)
      (Z.max cmd_at (actAllowedAt b) + tREAD i) 0
  else mkBank (openRow b) (bank b) (rdAllowedAt b) (wrAllowedAt b) (actAllowedAt b) bytes.

(** The event that signals the first data, when a read becomes ready at [t]. *)
Definition ready_event (curTick : Tick) (n : NVM) (t : Tick) : res Event :=
  match readReadyQueue n with
  | [] => assertb (negb (scheduled (readReadyEvent n)));; schedule curTick (readReadyEvent n) t
  | _ =>
      if t <? when (readReadyEvent n) then reschedule curTick (readReadyEvent n) t
      else assertb (scheduled (readReadyEvent n));; Ok (readReadyEvent n)
  end.

(** Issues the read [p] to the media: the body of the loop of [chooseRead]. *)
Definition issue_read (curTick : Tick) (ticks : list Tick) (n : NVM) (p : MemPacket) :
    res (Tick * list Tick * NVM) :=
  b ← get_bank n (m_loc p);
  let pending := u16 (numPendingReads n + 1) in
  assertb (pending <=? maxPendingReads i);;
  '(cmd_at, ticks) ← verify_rdwr (twoCycleRdWr i) ticks (Z.max curTick (nextReadAt n));
  let b := read_bank (l_row (m_loc p)) cmd_at b in
  let ready := Z.max cmd_at (actAllowedAt b) in
  ev ← ready_event curTick n ready;
  let n := set_bank (m_loc p) b n in
  Ok (ready, ticks,
      mkNVM (ranks n) (cmd_at + tCK i) pending (numReadDataReady n) (numReadsToIssue n)
        (numWritesQueued n) (writeRespQueue n) (readReadyQueue n ++ [ready])
        (writeRespondEvent n) ev).

Definition chooseRead (curTick : Tick) (ticks : list Tick) (n : NVM) (queue : list MemPacket) :
    res (list Tick * NVM * list MemPacket) :=
  assertb (negb (bool_decide (length queue = 0%nat)));;
  assertb (0 <? numReadsToIssue n);;
  let n := mkNVM (ranks n) (nextReadAt n) (numPendingReads n) (numReadDataReady n)
             (u16 (numReadsToIssue n - 1)) (numWritesQueued n) (writeRespQueue n)
             (readReadyQueue n) (writeRespondEvent n) (readReadyEvent n) in
  match list_find unissued queue with
  | None => Ok (ticks, n, queue)
  | Some (k, p) =>
      '(ready, ticks, n) ← issue_read curTick ticks n p;
      Ok (ticks, n, <[k := set_ready ready p]> queue)
  end.

(** The scan of [processReadReadyEvent]: the position and value of the
    smallest entry, and the next smallest. *)
Fixpoint ready_scan (queue : list Tick) (idx : nat) (ready_it : nat) (ready_at next : Tick) :
    nat * Tick * Tick :=
  match queue with
  | [] => (ready_it, ready_at, next)
  | t :: queue =>
      if t <? ready_at then ready_scan queue (S idx) idx t ready_at
      else if (t <? next) && negb (idx =? ready_it)%nat
      then ready_scan queue (S idx) ready_it ready_at t
      else ready_scan queue (S idx) ready_it ready_at next
  end.

(** The handler without the final restart of the controller's scheduler. *)
Definition processReadReadyEvent (curTick : Tick) (n : NVM) : res NVM :=
  match readReadyQueue n with
  | [] => Err Undef
  | first :: _ =>
      let '(ready_it, ready_at, next_ready_at) := ready_scan (readReadyQueue n) 0 0 first MaxTick in
      assertb (ready_at =? curTick);;
      let queue := delete ready_it (readReadyQueue n) in
      ev ← match queue with
           | [] => Ok (readReadyEvent n)
           | front :: _ =>
               assertb (curTick <=? front);;
               assertb (negb (scheduled (readReadyEvent n)));;
               schedule curTick (readReadyEvent n) next_ready_at
           end;
      Ok (mkNVM (ranks n) (nextReadAt n) (numPendingReads n) (u16 (numReadDataReady n + 1))
            (numReadsToIssue n) (numWritesQueued n) (writeRespQueue n) queue
            (writeRespondEvent n) ev)
  end.

(** Delays to later commands on a bank of rank [r] after a burst of [p]. *)
Definition bank_delay (p : MemPacket) (cmd_at : Tick) (r : nat) (b : Bank) : Bank :=
  let same := l_rank (m_loc p) =? Z.of_nat r in
  let dly_to_rd_cmd := if same then (if m_read p then tBURST i else writeToReadDelay i)
                       else rankToRankDelay i in
  let dly_to_wr_cmd := if same then (if m_read p then readToWriteDelay i else tBURST i)
                       else rankToRankDelay i in
  mkBank (openRow b) (bank b) (Z.max (cmd_at + dly_to_rd_cmd) (rdAllowedAt b))
    (Z.max (cmd_at + dly_to_wr_cmd) (wrAllowedAt b)) (actAllowedAt b) (bytesAccessed b).

(** The bank after a write of [p] whose data arrives at [ready]. *)
Definition write_bank (p : MemPacket) (ready : Tick) (b : Bank) : Bank :=
  let l := m_loc p in
  let bytes := u32 (bytesAccessed b + burstSize i) in
  let act := Z.max ready (actAllowedAt b) + tWRITE i in
  if (bank b =? l_bank l) && negb (openRow b =? l_row l) then
    mkBank (l_row l) (bank b) (rdAllowedAt b) (wrAllowedAt b) act 0
  else mkBank (openRow b) (bank b) (rdAllowedAt b) (wrAllowedAt b) act bytes.

(** The read half of [doBurstAccess]. *)
Definition burst_read (n : NVM) : res NVM :=
  assertb (negb (numPendingReads n =? 0));;
  assertb (negb (numReadDataReady n =? 0));;
  Ok (mkNVM (ranks n) (nextReadAt n) (u16 (numPendingReads n - 1)) (u16 (numReadDataReady n - 1))
        (numReadsToIssue n) (numWritesQueued n) (writeRespQueue n) (readReadyQueue n)
        (writeRespondEvent n) (readReadyEvent n)).

(** The event that completes the first write, when one completes at [t]. *)
Definition respond_event (curTick : Tick) (n : NVM) (t : Tick) : res Event :=
  ev ← (if writeRespQueueEmpty n then
          assertb (negb (scheduled (writeRespondEvent n)));;
          schedule curTick (writeRespondEvent n) t
        else assertb (scheduled (writeRespondEvent n));; Ok (writeRespondEvent n));
  if t <? when ev then reschedule curTick ev t else Ok ev.

(** The write half of [doBurstAccess]. *)
Definition burst_write (curTick : Tick) (p : MemPacket) (ready : Tick) (n : NVM) : res NVM :=
  assertb (0 <? numWritesQueued n);;
  b ← get_bank n (m_loc p);
  let b := write_bank p ready b in
  assertb (negb (writeRespQueueFull n));;
  ev ← respond_event curTick n (actAllowedAt b);
  let n := set_bank (m_loc p) b n in
  Ok (mkNVM (ranks n) (nextReadAt n) (numPendingReads n) (numReadDataReady n) (numReadsToIssue n)
        (u32 (numWritesQueued n - 1)) (merge_sort Z.le (writeRespQueue n ++ [actAllowedAt b]))
        (readReadyQueue n) ev (readReadyEvent n)).

Definition doBurstAccess (curTick : Tick) (ticks : list Tick) (n : NVM) (p : MemPacket)
    (next_burst_at : Tick) : res (Tick * Tick * MemPacket * list Tick * NVM) :=
  b ← get_bank n (m_loc p);
  let cmd_at := Z.max (Z.max (col_allowed b p) curTick) next_burst_at in
  '(cmd_at, ticks) ← verify_rdwr (negb (m_read p || negb (twoCycleRdWr i))) ticks cmd_at;
  let ready := cmd_at + tSEND i + tBURST i in
  let n := set_ranks (imap (λ r banks, bank_delay p cmd_at r <$> banks) (ranks n)) n in
  n ← (if m_read p then burst_read n else burst_write curTick p ready n);
  Ok (cmd_at, cmd_at + tBURST i, set_ready ready p, ticks, n).

(** The handler without the final restart of the controller's scheduler. *)
Definition processWriteRespondEvent (curTick : Tick) (n : NVM) : res NVM :=
  match writeRespQueue n with
  | [] => Err Undef
  | _ :: queue =>
      ev ← match queue with
           | [] => Ok (writeRespondEvent n)
           | front :: _ =>
               assertb (curTick <=? front);;
               assertb (negb (scheduled (writeRespondEvent n)));;
               schedule curTick (writeRespondEvent n) front
           end;
      Ok (mkNVM (ranks n) (nextReadAt n) (numPendingReads n) (numReadDataReady n)
            (numReadsToIssue n) (numWritesQueued n) queue (readReadyQueue n) ev
            (readReadyEvent n))
  end.

Definition addRankToRankDelay (cmd_at : Tick) (n : NVM) : NVM :=
  let delay b := mkBank (openRow b) (bank b)
      (Z.max (cmd_at + rankToRankDelay i) (rdAllowedAt b))
      (Z.max (cmd_at + rankToRankDelay i) (wrAllowedAt b))
      (actAllowedAt b) (bytesAccessed b) in
  set_ranks (map (map delay) (ranks n)) n.

Definition isBusy (next : BusState) (n : NVM) (read_queue_empty all_writes_nvm : bool) : bool :=
  if is_READ next then (numReadDataReady n =? 0) && negb read_queue_empty
  else writeRespQueueFull n && read_queue_empty && all_writes_nvm.

End Operations.
End Dev.
