(* ===== verification/DramDevice.v ===== *)
(** * The DRAM interface of the memory controller ([mem/mem_interface.cc])

    [DRAMInterface] and its ranks: row activation and precharge, read and
    write bursts with their timing constraints, the choice of a packet, and
    the refresh and power state machines.  What the interface asks of the
    controller (bus direction, scheduled events, draining) is the record
    [CtrlView]; the commands passed on to the external power library are
    recorded in [sent].  Statistics are left out. *)

From stdpp Require Import sorting.
From S2P Require Import Prelude.
From S2P Require Import Intmath.
From S2P Require Import Bitfield.
From S2P Require Import CmdBus.
From S2P Require Import NvmDecode.
From S2P Require Import NvmDevice.

Module Dram.
Import CmdBus.

Abbreviation Event := Dev.Event.
Abbreviation scheduled := Dev.scheduled.
Abbreviation when := Dev.when.

(** Difference of times: unsigned, it wraps below zero. *)
Definition usub (a b : Tick) : Tick := if b <=? a then a - b else a - b + 2 ^ 64.

(** ** Parameters *)

Inductive PageManage := open | open_adaptive | close | close_adaptive.
#[export] Instance PageManage_eq_dec : EqDecision PageManage.
Proof. solve_decision. Defined.

(** The constants of the interface after construction. *)
Record Interface := mkInterface {
  burstSize : Z;
  ranksPerChannel : Z;
  banksPerRank : Z;
  bankGroupsPerRank : Z;
  bankGroupArch : bool;
  tCK : Tick; tCS : Tick; tBURST : Tick; tRTW : Tick; tWTR : Tick;
  tCL : Tick; tBURST_MIN : Tick; tBURST_MAX : Tick; tCCD_L_WR : Tick; tCCD_L : Tick;
  tRCD : Tick; tRP : Tick; tRAS : Tick; tWR : Tick; tRTP : Tick;
  tRFC : Tick; tREFI : Tick; tRRD : Tick; tRRD_L : Tick; tPPD : Tick; tAAD : Tick;
  tXAW : Tick; tXP : Tick; tXS : Tick;
  clkResyncDelay : Tick;
  dataClockSync : bool;
  burstInterleave : bool;
  twoCycleActivate : bool;
  activationLimit : Z;
  wrToRdDlySameBG : Tick;
  rdToWrDlySameBG : Tick;
  pageMgmt : PageManage;
  maxAccessesPerRow : Z;
  enableDRAMPowerdown : bool;
  maxCommandsPerWindow : Z;
  commandWindow : Tick;
}.

Definition writeToReadDelay (i : Interface) : Tick := tBURST i + tWTR i + tCL i.
Definition readToWriteDelay (i : Interface) : Tick := tBURST i + tRTW i.
Definition rankToRankDelay (i : Interface) : Tick := tBURST i + tCS i.
Definition commandOffset (i : Interface) : Tick := tRP i + tRCD i.
Definition accessLatency (i : Interface) : Tick := tRP i + tRCD i + tCL i.
Definition burstDelay (i : Interface) : Tick :=
  if burstInterleave i then tBURST_MAX i / 2 else tBURST i.

(** The parameters of the constructor. *)
Record Params := mkParams {
  burst_size : Z; ranks_per_channel : Z; banks_per_rank : Z; bank_groups_per_rank : Z;
  p_tCK : Tick; p_tCS : Tick; p_tBURST : Tick; p_tRTW : Tick; p_tWTR : Tick;
  p_tCL : Tick; p_tBURST_MIN : Tick; p_tBURST_MAX : Tick; p_tCCD_L_WR : Tick; p_tCCD_L : Tick;
  p_tRCD : Tick; p_tRP : Tick; p_tRAS : Tick; p_tWR : Tick; p_tRTP : Tick;
  p_tRFC : Tick; p_tREFI : Tick; p_tRRD : Tick; p_tRRD_L : Tick; p_tPPD : Tick; p_tAAD : Tick;
  p_tXAW : Tick; p_tXP : Tick; p_tXS : Tick; p_tWTR_L : Tick;
  data_clock_sync : bool; two_cycle_activate : bool; activation_limit : Z;
  page_policy : PageManage; max_accesses_per_row : Z; enable_dram_powerdown : bool;
  command_window : Tick;
}.

(** The constructor and [setCtrl]; geometry and decoding are those of
    [MemInterface]. *)
Definition DRAMInterface_new (p : Params) : res Interface :=
  let groups := 0 <? bank_groups_per_rank p in
  fatal_if (negb (isPowerOf2 (burst_size p)));;
  fatal_if (negb (isPowerOf2 (ranks_per_channel p)));;
  fatal_if ((p_tREFI p <=? p_tRP p) || (p_tREFI p <=? p_tRFC p));;
  (if groups then
     fatal_if (banks_per_rank p <? bank_groups_per_rank p);;
     fatal_if (negb (banks_per_rank p mod bank_groups_per_rank p =? 0));;
     fatal_if (p_tCCD_L p <=? p_tBURST p);;
     fatal_if (p_tCCD_L_WR p <=? p_tBURST p);;
     fatal_if (p_tRRD_L p <? p_tRRD p)
   else Ok tt);;
  cmds ← Nvm.udiv (command_window p) (p_tCK p);
  Ok (mkInterface (burst_size p) (ranks_per_channel p) (banks_per_rank p) (bank_groups_per_rank p)
        groups (p_tCK p) (p_tCS p) (p_tBURST p) (p_tRTW p) (p_tWTR p) (p_tCL p) (p_tBURST_MIN p)
        (p_tBURST_MAX p) (p_tCCD_L_WR p) (p_tCCD_L p) (p_tRCD p) (p_tRP p) (p_tRAS p) (p_tWR p)
        (p_tRTP p) (p_tRFC p) (p_tREFI p) (p_tRRD p) (p_tRRD_L p) (p_tPPD p) (p_tAAD p) (p_tXAW p)
        (p_tXP p) (p_tXS p) (p_tCL p + p_tBURST_MAX p) (data_clock_sync p)
        (negb (p_tBURST p =? p_tBURST_MIN p)) (two_cycle_activate p) (activation_limit p)
        (p_tCL p + p_tBURST_MAX p + p_tWTR_L p) (p_tRTW p + p_tBURST_MAX p) (page_policy p)
        (max_accesses_per_row p) (enable_dram_powerdown p) (u32 cmds) (command_window p)).

(** ** State *)

Definition NO_ROW : Z := 2 ^ 32 - 1.

Record Bank := mkBank {
  openRow : Z;
  bank : Z;
  bankgr : Z;
  rdAllowedAt : Tick;
  wrAllowedAt : Tick;
  preAllowedAt : Tick;
  actAllowedAt : Tick;
  rowAccesses : Z;
  bytesAccessed : Z;
}.

Inductive PowerState := PWR_IDLE | PWR_REF | PWR_SREF | PWR_PRE_PDN | PWR_ACT | PWR_ACT_PDN.
#[export] Instance PowerState_eq_dec : EqDecision PowerState.
Proof. solve_decision. Defined.

Inductive RefreshState :=
  REF_IDLE | REF_DRAIN | REF_PD_EXIT | REF_SREF_EXIT | REF_PRE | REF_START | REF_RUN.
#[export] Instance RefreshState_eq_dec : EqDecision RefreshState.
Proof. solve_decision. Defined.

Inductive MemCommand :=
  ACT | PRE | PREA | RD | WR | REF | PDN_F_ACT | PDN_F_PRE | PUP_ACT | PUP_PRE | SREN | SREX.
#[export] Instance MemCommand_eq_dec : EqDecision MemCommand.
Proof. solve_decision. Defined.

Record Command := mkCommand { c_type : MemCommand; c_bank : Z; timeStamp : Tick }.

(** [sortTime] *)
Definition earlier (a b : Command) : Prop := timeStamp a ≤ timeStamp b.
#[export] Instance earlier_dec a b : Decision (earlier a b).
Proof. unfold earlier. apply _. Defined.

Record Power := mkPower {
  pwrState : PowerState;
  pwrStateTrans : PowerState;
  pwrStatePostRefresh : PowerState;
  pwrStateTick : Tick;
  inLowPowerState : bool;
  wakeUpAllowedAt : Tick;
}.

(** The events of a rank. *)
Record Events := mkEvents {
  writeDoneEvent : Event;
  activateEvent : Event;
  prechargeEvent : Event;
  refreshEvent : Event;
  powerEvent : Event;
  wakeUpEvent : Event;
}.

Record Rank := mkRank {
  rank : Z;
  pw : Power;
  refreshState : RefreshState;
  refreshDueAt : Tick;
  readEntries : Z;
  writeEntries : Z;
  outstandingEvents : Z;
  evs : Events;
  banks : list Bank;
  numBanksActive : Z;
  actTicks : list Tick;
  lastBurstTick : Tick;
  cmdList : list Command;
  sent : list (MemCommand * Z * Z);
}.

(** What a rank reads from the controller. *)
Record CtrlView := mkCtrlView {
  busNext : Dev.BusState;
  busNow : Dev.BusState;
  requestEventScheduled : bool;
  respondEventScheduled : bool;
  draining : bool;
}.

(** *** Updates *)

Definition set_pw (p : Power) (r : Rank) : Rank :=
  mkRank (rank r) p (refreshState r) (refreshDueAt r) (readEntries r) (writeEntries r)
    (outstandingEvents r) (evs r) (banks r) (numBanksActive r) (actTicks r) (lastBurstTick r)
    (cmdList r) (sent r).
Definition set_refreshState (f : RefreshState) (r : Rank) : Rank :=
  mkRank (rank r) (pw r) f (refreshDueAt r) (readEntries r) (writeEntries r)
    (outstandingEvents r) (evs r) (banks r) (numBanksActive r) (actTicks r) (lastBurstTick r)
    (cmdList r) (sent r).
Definition set_refreshDueAt (t : Tick) (r : Rank) : Rank :=
  mkRank (rank r) (pw r) (refreshState r) t (readEntries r) (writeEntries r)
    (outstandingEvents r) (evs r) (banks r) (numBanksActive r) (actTicks r) (lastBurstTick r)
    (cmdList r) (sent r).
Definition set_entries (rd wr : Z) (r : Rank) : Rank :=
  mkRank (rank r) (pw r) (refreshState r) (refreshDueAt r) rd wr
    (outstandingEvents r) (evs r) (banks r) (numBanksActive r) (actTicks r) (lastBurstTick r)
    (cmdList r) (sent r).
Definition set_outstanding (n : Z) (r : Rank) : Rank :=
  mkRank (rank r) (pw r) (refreshState r) (refreshDueAt r) (readEntries r) (writeEntries r)
    n (evs r) (banks r) (numBanksActive r) (actTicks r) (lastBurstTick r) (cmdList r) (sent r).
Definition set_evs (e : Events) (r : Rank) : Rank :=
  mkRank (rank r) (pw r) (refreshState r) (refreshDueAt r) (readEntries r) (writeEntries r)
    (outstandingEvents r) e (banks r) (numBanksActive r) (actTicks r) (lastBurstTick r)
    (cmdList r) (sent r).
Definition set_banks (b : list Bank) (r : Rank) : Rank :=
  mkRank (rank r) (pw r) (refreshState r) (refreshDueAt r) (readEntries r) (writeEntries r)
    (outstandingEvents r) (evs r) b (numBanksActive r) (actTicks r) (lastBurstTick r)
    (cmdList r) (sent r).
Definition set_numBanksActive (n : Z) (r : Rank) : Rank :=
  mkRank (rank r) (pw r) (refreshState r) (refreshDueAt r) (readEntries r) (writeEntries r)
    (outstandingEvents r) (evs r) (banks r) n (actTicks r) (lastBurstTick r) (cmdList r) (sent r).
Definition set_actTicks (l : list Tick) (r : Rank) : Rank :=
  mkRank (rank r) (pw r) (refreshState r) (refreshDueAt r) (readEntries r) (writeEntries r)
    (outstandingEvents r) (evs r) (banks r) (numBanksActive r) l (lastBurstTick r) (cmdList r)
    (sent r).
Definition set_lastBurstTick (t : Tick) (r : Rank) : Rank :=
  mkRank (rank r) (pw r) (refreshState r) (refreshDueAt r) (readEntries r) (writeEntries r)
    (outstandingEvents r) (evs r) (banks r) (numBanksActive r) (actTicks r) t (cmdList r) (sent r).
Definition push_cmd (c : Command) (r : Rank) : Rank :=
  mkRank (rank r) (pw r) (refreshState r) (refreshDueAt r) (readEntries r) (writeEntries r)
    (outstandingEvents r) (evs r) (banks r) (numBanksActive r) (actTicks r) (lastBurstTick r)
    (cmdList r ++ [c]) (sent r).
Definition set_cmds (l : list Command) (s : list (MemCommand * Z * Z)) (r : Rank) : Rank :=
  mkRank (rank r) (pw r) (refreshState r) (refreshDueAt r) (readEntries r) (writeEntries r)
    (outstandingEvents r) (evs r) (banks r) (numBanksActive r) (actTicks r) (lastBurstTick r) l s.

Definition set_writeDoneEvent (e : Event) (v : Events) : Events :=
  mkEvents e (activateEvent v) (prechargeEvent v) (refreshEvent v) (powerEvent v) (wakeUpEvent v).
Definition set_activateEvent (e : Event) (v : Events) : Events :=
  mkEvents (writeDoneEvent v) e (prechargeEvent v) (refreshEvent v) (powerEvent v) (wakeUpEvent v).
Definition set_prechargeEvent (e : Event) (v : Events) : Events :=
  mkEvents (writeDoneEvent v) (activateEvent v) e (refreshEvent v) (powerEvent v) (wakeUpEvent v).
Definition set_refreshEvent (e : Event) (v : Events) : Events :=
  mkEvents (writeDoneEvent v) (activateEvent v) (prechargeEvent v) e (powerEvent v) (wakeUpEvent v).
Definition set_powerEvent (e : Event) (v : Events) : Events :=
  mkEvents (writeDoneEvent v) (activateEvent v) (prechargeEvent v) (refreshEvent v) e (wakeUpEvent v).
Definition set_wakeUpEvent (e : Event) (v : Events) : Events :=
  mkEvents (writeDoneEvent v) (activateEvent v) (prechargeEvent v) (refreshEvent v) (powerEvent v) e.

Definition set_openRow (row : Z) (b : Bank) : Bank :=
  mkBank row (bank b) (bankgr b) (rdAllowedAt b) (wrAllowedAt b) (preAllowedAt b) (actAllowedAt b)
    (rowAccesses b) (bytesAccessed b).
Definition set_counts (accesses bytes : Z) (b : Bank) : Bank :=
  mkBank (openRow b) (bank b) (bankgr b) (rdAllowedAt b) (wrAllowedAt b) (preAllowedAt b)
    (actAllowedAt b) accesses bytes.
Definition set_preAllowedAt (t : Tick) (b : Bank) : Bank :=
  mkBank (openRow b) (bank b) (bankgr b) (rdAllowedAt b) (wrAllowedAt b) t (actAllowedAt b)
    (rowAccesses b) (bytesAccessed b).
Definition set_actAllowedAt (t : Tick) (b : Bank) : Bank :=
  mkBank (openRow b) (bank b) (bankgr b) (rdAllowedAt b) (wrAllowedAt b) (preAllowedAt b) t
    (rowAccesses b) (bytesAccessed b).
(** [x = std::max(t, x)] on the times for reads and writes. *)
Definition delay_cols (rd wr : Tick) (b : Bank) : Bank :=
  mkBank (openRow b) (bank b) (bankgr b) (Z.max rd (rdAllowedAt b)) (Z.max wr (wrAllowedAt b))
    (preAllowedAt b) (actAllowedAt b) (rowAccesses b) (bytesAccessed b).
Definition delay_act (t : Tick) (b : Bank) : Bank := set_actAllowedAt (Z.max t (actAllowedAt b)) b.
Definition delay_pre (t : Tick) (b : Bank) : Bank := set_preAllowedAt (Z.max t (preAllowedAt b)) b.

Definition get_bank (r : Rank) (k : nat) : res Bank :=
  match banks r !! k with Some b => Ok b | None => Err Undef end.
Definition upd_bank (k : nat) (f : Bank → Bank) (r : Rank) : Rank :=
  set_banks (alter f k (banks r)) r.
Definition upd_all (f : Bank → Bank) (r : Rank) : Rank := set_banks (f <$> banks r) r.

(** ** Construction *)

Definition Bank_new (i : Interface) (b : Z) : Bank :=
  mkBank NO_ROW b (if 0 <? bankGroupsPerRank i then b mod bankGroupsPerRank i else b) 0 0 0 0 0 0.

Definition Rank_new (i : Interface) (n : Z) : Rank :=
  mkRank n (mkPower PWR_IDLE PWR_IDLE PWR_IDLE 0 false 0) REF_IDLE 0 0 0 0
    (mkEvents Dev.idle Dev.idle Dev.idle Dev.idle Dev.idle Dev.idle)
    (Bank_new i <$> seqZ 0 (banksPerRank i)) 0 (replicate (Z.to_nat (activationLimit i)) 0) 0 [] [].

(** The interface: its ranks, the rank of the last burst, and the offset of
    the time stamps passed to the power library. *)
Record DRAM := mkDRAM { ranks : list Rank; activeRank : Z; timeStampOffset : Z }.

Definition DRAM_new (i : Interface) : DRAM :=
  mkDRAM (Rank_new i <$> seqZ 0 (ranksPerChannel i)) 0 0.

Definition set_rank (k : nat) (r : Rank) (d : DRAM) : DRAM :=
  mkDRAM (<[k := r]> (ranks d)) (activeRank d) (timeStampOffset d).
Definition get_rank (d : DRAM) (k : nat) : res Rank :=
  match ranks d !! k with Some r => Ok r | None => Err Undef end.

Definition inRefIdleState (r : Rank) : bool := bool_decide (refreshState r = REF_IDLE).
Definition inPwrIdleState (r : Rank) : bool := bool_decide (pwrState (pw r) = PWR_IDLE).

(** ** Power and refresh helpers *)

Section Operations.
Context (i : Interface).

Definition pwr_trans (t : PowerState) (p : Power) : Power :=
  mkPower (pwrState p) t (pwrStatePostRefresh p) (pwrStateTick p) (inLowPowerState p)
    (wakeUpAllowedAt p).
Definition pwr_post (t : PowerState) (p : Power) : Power :=
  mkPower (pwrState p) (pwrStateTrans p) t (pwrStateTick p) (inLowPowerState p) (wakeUpAllowedAt p).
Definition pwr_low (low : bool) (wake : Tick) (p : Power) : Power :=
  mkPower (pwrState p) (pwrStateTrans p) (pwrStatePostRefresh p) (pwrStateTick p) low wake.
Definition pwr_now (s : PowerState) (t : Tick) (p : Power) : Power :=
  mkPower s (pwrStateTrans p) (pwrStatePostRefresh p) t (inLowPowerState p) (wakeUpAllowedAt p).

Definition isQueueEmpty (v : CtrlView) (r : Rank) : bool :=
  (Dev.is_READ (busNext v) && (readEntries r =? 0)) ||
  (negb (Dev.is_READ (busNext v)) && (writeEntries r =? 0)).

Definition forceSelfRefreshExit (v : CtrlView) (r : Rank) : bool :=
  negb (readEntries r =? 0) || (negb (Dev.is_READ (busNext v)) && negb (writeEntries r =? 0)).

Definition schedulePowerEvent (curTick : Tick) (s : PowerState) (t : Tick) (r : Rank) : res Rank :=
  assertb (curTick <=? t);;
  if negb (scheduled (powerEvent (evs r))) then
    e ← Dev.schedule curTick (powerEvent (evs r)) t;
    Ok (set_evs (set_powerEvent e (evs r)) (set_pw (pwr_trans s (pw r)) r))
  else Err PanicFail.

(** Commits to a low power state at [t]. *)
Definition powerDownSleep (curTick : Tick) (s : PowerState) (t : Tick) (r : Rank) : res Rank :=
  r ← match s with
      | PWR_ACT_PDN =>
          r ← schedulePowerEvent curTick s t r; Ok (push_cmd (mkCommand PDN_F_ACT 0 t) r)
      | PWR_PRE_PDN =>
          r ← schedulePowerEvent curTick s t r; Ok (push_cmd (mkCommand PDN_F_PRE 0 t) r)
      | PWR_REF =>
          r ← schedulePowerEvent curTick PWR_PRE_PDN t r; Ok (push_cmd (mkCommand PDN_F_PRE 0 t) r)
      | PWR_SREF =>
          assertb (bool_decide (pwrStatePostRefresh (pw r) = PWR_PRE_PDN));;
          r ← schedulePowerEvent curTick PWR_SREF t r; Ok (push_cmd (mkCommand SREN 0 t) r)
      | PWR_IDLE | PWR_ACT => Ok r
      end;
  Ok (set_pw (pwr_low true (t + tCK i) (pw r)) r).

Definition wake_cmd (s : PowerState) (t : Tick) (r : Rank) : Rank :=
  match s with
  | PWR_ACT_PDN => push_cmd (mkCommand PUP_ACT 0 t) r
  | PWR_PRE_PDN => push_cmd (mkCommand PUP_PRE 0 t) r
  | PWR_SREF => push_cmd (mkCommand SREX 0 t) r
  | _ => r
  end.

Definition scheduleWakeUpEvent (curTick exit_delay : Tick) (r : Rank) : res Rank :=
  let wake_up_tick := Z.max curTick (wakeUpAllowedAt (pw r)) in
  let post := if bool_decide (refreshState r = REF_PD_EXIT) then pwrState (pw r) else PWR_IDLE in
  e ← Dev.schedule curTick (wakeUpEvent (evs r)) wake_up_tick;
  let t := wake_up_tick + exit_delay in
  let r := upd_all (λ b, delay_cols t t (delay_pre t (delay_act t b))) r in
  let r := set_evs (set_wakeUpEvent e (evs r)) r in
  let r := set_pw (pwr_low false (wakeUpAllowedAt (pw r)) (pwr_post post (pw r))) r in
  Ok (wake_cmd (pwrStateTrans (pw r)) wake_up_tick r).

(** ** Rows *)

Definition verify (two : bool) (split : Tick) (ticks : list Tick) (t : Tick) :
    res (Tick * list Tick) :=
  if two then verifyMultiCmd (commandWindow i) ticks t (maxCommandsPerWindow i) split
  else verifySingleCmd (commandWindow i) ticks t (maxCommandsPerWindow i).

(** The oldest of the last activations is recorded and closer than [tXAW]. *)
Definition window_full (act_at : Tick) (l : list Tick) : bool :=
  match last l with
  | Some b => negb (b =? 0) && (usub act_at b <? tXAW i)
  | None => false
  end.

(** [tRRD], or [tRRD_L] inside a bank group, after an activation of [b0]. *)
Definition act_delay (b0 b : Bank) : Tick :=
  if bankGroupArch i && (bankgr b0 =? bankgr b) then tRRD_L i else tRRD i.

(** The activation window, after an activation at [act_at]. *)
Definition record_act (act_at : Tick) (r : Rank) : res Rank :=
  match actTicks r with
  | [] => Ok r
  | _ =>
      panic_if (window_full act_at (actTicks r));;
      let l := act_at :: removelast (actTicks r) in
      let r := set_actTicks l r in
      Ok (if window_full act_at l
          then upd_all (delay_act (default 0 (last l) + tXAW i)) r else r)
  end.

Definition activateBank (curTick : Tick) (ticks : list Tick) (r : Rank) (k : nat)
    (act_tick row : Z) : res (list Tick * Rank) :=
  assertb (Z.of_nat (length (actTicks r)) =? activationLimit i);;
  '(act_at, ticks) ← verify (twoCycleActivate i) (tAAD i) ticks act_tick;
  b0 ← get_bank r k;
  assertb (openRow b0 =? NO_ROW);;
  let r := upd_bank k (λ b, set_counts 0 0 (set_openRow row b)) r in
  let r := set_numBanksActive (u32 (numBanksActive r + 1)) r in
  assertb (numBanksActive r <=? banksPerRank i);;
  let r := push_cmd (mkCommand ACT (bank b0) act_at) r in
  let r := upd_bank k (λ b, delay_cols (act_at + tRCD i) (act_at + tRCD i)
                              (set_preAllowedAt (act_at + tRAS i) b)) r in
  let r := upd_all (λ b, delay_act (act_at + act_delay b0 b) b) r in
  r ← record_act act_at r;
  let e := activateEvent (evs r) in
  e ← (if negb (scheduled e) then Dev.schedule curTick e act_at
       else if act_at <? when e then Dev.reschedule curTick e act_at else Ok e);
  Ok (ticks, set_evs (set_activateEvent e (evs r)) r).

Definition prechargeBank (curTick : Tick) (ticks : list Tick) (r : Rank) (k : nat) (pre_tick : Tick)
    (auto_or_preall trace : bool) : res (list Tick * Rank) :=
  b0 ← get_bank r k;
  assertb (negb (openRow b0 =? NO_ROW));;
  let r := upd_bank k (set_openRow NO_ROW) r in
  '(pre_at, ticks, r) ←
    (if auto_or_preall then Ok (pre_tick, ticks, upd_bank k (set_preAllowedAt pre_tick) r)
     else
       '(pre_at, ticks) ← verify false 0 ticks pre_tick;
       Ok (pre_at, ticks, upd_all (delay_pre (pre_at + tPPD i)) r));
  let pre_done_at := pre_at + tRP i in
  let r := upd_bank k (delay_act pre_done_at) r in
  assertb (negb (numBanksActive r =? 0));;
  let r := set_numBanksActive (u32 (numBanksActive r - 1)) r in
  let r := if trace then push_cmd (mkCommand PRE (bank b0) pre_at) r else r in
  let e := prechargeEvent (evs r) in
  if negb (scheduled e) then
    e ← Dev.schedule curTick e pre_done_at;
    Ok (ticks, set_outstanding (u8 (outstandingEvents r + 1))
                 (set_evs (set_prechargeEvent e (evs r)) r))
  else if when e <? pre_done_at then
    e ← Dev.reschedule curTick e pre_done_at;
    Ok (ticks, set_evs (set_prechargeEvent e (evs r)) r)
  else Ok (ticks, r).

(** ** Bursts *)

(** A packet of the controller's queues; [isDram()] tells the interface. *)
Record QPacket := mkQPacket { isDram : bool; q_pkt : Dev.MemPacket }.
Definition loc (p : QPacket) : Nvm.Location := Dev.m_loc (q_pkt p).
Definition isRead (p : QPacket) : bool := Dev.m_read (q_pkt p).

(** The delays to later reads and writes on bank [b] of rank [j] after a burst
    of [p] to bank [b0]. *)
Definition col_delays (p : QPacket) (b0 : Bank) (burst_gap : Tick) (j : nat) (b : Bank) :
    Tick * Tick :=
  if Nvm.l_rank (loc p) =? Z.of_nat j then
    if bankGroupArch i && (bankgr b0 =? bankgr b) then
      (if isRead p then tCCD_L i else Z.max (tCCD_L i) (wrToRdDlySameBG i),
       if isRead p then Z.max (tCCD_L i) (rdToWrDlySameBG i) else tCCD_L_WR i)
    else
      (if isRead p then burst_gap else writeToReadDelay i,
       if isRead p then readToWriteDelay i else burst_gap)
  else (rankToRankDelay i, rankToRankDelay i).

Definition delay_bursts (p : QPacket) (b0 : Bank) (burst_gap cmd_at : Tick) (d : DRAM) : DRAM :=
  mkDRAM
    (imap (λ j r, upd_all (λ b, let '(rd, wr) := col_delays p b0 burst_gap j b in
                                delay_cols (cmd_at + rd) (cmd_at + wr) b) r) (ranks d))
    (activeRank d) (timeStampOffset d).

(** Is a queued packet, other than the one at [self], a row hit or a bank
    conflict?  The walk over one queue stops at the first hit. *)
Fixpoint scan_queue (m : QPacket) (self : option nat) (queue : list QPacket) (idx : nat)
    (hits conflict : bool) : bool * bool :=
  match queue with
  | [] => (hits, conflict)
  | p :: queue =>
      if hits then (hits, conflict)
      else
        let '(hits, conflict) :=
          if bool_decide (self = Some idx) then (hits, conflict)
          else
            let same_rank_bank := (Nvm.l_rank (loc m) =? Nvm.l_rank (loc p)) &&
                                  (Nvm.l_bank (loc m) =? Nvm.l_bank (loc p)) in
            let same_row := Nvm.l_row (loc m) =? Nvm.l_row (loc p) in
            (hits || (same_rank_bank && same_row), conflict || (same_rank_bank && negb same_row)) in
        scan_queue m self queue (S idx) hits conflict
  end.

Fixpoint scan_queues (m : QPacket) (prio idx : nat) (queues : list (list QPacket)) (n : nat)
    (hits conflict : bool) : bool * bool :=
  match queues with
  | [] => (hits, conflict)
  | q :: queues =>
      let '(hits, conflict) := scan_queue m (if (n =? prio)%nat then Some idx else None) q 0 hits conflict in
      if hits then (hits, conflict) else scan_queues m prio idx queues (S n) hits conflict
  end.

(** Whether the burst closes its row; [m] is packet [idx] of queue [prio]. *)
Definition auto_precharge (m : QPacket) (prio idx : nat) (queues : list (list QPacket)) (b : Bank) :
    bool :=
  let limit := bool_decide (pageMgmt i = close) || (rowAccesses b =? maxAccessesPerRow i) in
  if negb limit && (bool_decide (pageMgmt i = open_adaptive) || bool_decide (pageMgmt i = close_adaptive))
  then
    let '(hits, conflict) := scan_queues m prio idx queues 0 false false in
    negb hits && (conflict || bool_decide (pageMgmt i = close_adaptive))
  else limit.

(** Opens the row of the packet. *)
Definition open_row (curTick : Tick) (ticks : list Tick) (r : Rank) (k : nat) (row : Z) :
    res (list Tick * Rank) :=
  b ← get_bank r k;
  if openRow b =? row then Ok (ticks, r)
  else
    '(ticks, r) ← (if negb (openRow b =? NO_ROW)
                   then prechargeBank curTick ticks r k (Z.max (preAllowedAt b) curTick) false true
                   else Ok (ticks, r));
    b ← get_bank r k;
    activateBank curTick ticks r k (Z.max (actAllowedAt b) curTick) row.

(** The tick of the burst command and the gap to the next. *)
Definition burst_at (ticks : list Tick) (r : Rank) (cmd_at : Tick) : res (Tick * Tick * list Tick) :=
  '(cmd_at, ticks) ←
    verify (dataClockSync i && (clkResyncDelay i <? usub cmd_at (lastBurstTick r))) (tCK i) ticks cmd_at;
  if burstInterleave i then
    if cmd_at =? lastBurstTick r + tBURST_MIN i then Ok (cmd_at, tBURST i, ticks)
    else if cmd_at <? lastBurstTick r + tBURST i
    then Ok (lastBurstTick r + tBURST i, tBURST_MIN i, ticks)
    else Ok (cmd_at, tBURST_MIN i, ticks)
  else Ok (cmd_at, tBURST_MIN i, ticks).

(** The end of a burst: event counts and the write-done event. *)
Definition burst_done (curTick : Tick) (rd : bool) (ready : Tick) (r : Rank) : res Rank :=
  if rd then Ok (set_outstanding (u8 (outstandingEvents r + 1)) r)
  else
    let e := writeDoneEvent (evs r) in
    r ← (if negb (scheduled e) then
           e ← Dev.schedule curTick e ready;
           Ok (set_outstanding (u8 (outstandingEvents r + 1)) (set_evs (set_writeDoneEvent e (evs r)) r))
         else if when e <? ready then
           e ← Dev.reschedule curTick e ready; Ok (set_evs (set_writeDoneEvent e (evs r)) r)
         else Ok r);
    Ok (set_entries (readEntries r) (u32 (writeEntries r - 1)) r).

(** [mem_pkt] is packet [idx] of queue [prio] of [queues]. *)
Definition doBurstAccess (curTick : Tick) (ticks : list Tick) (d : DRAM) (m : QPacket)
    (next_burst_at : Tick) (prio idx : nat) (queues : list (list QPacket)) :
    res (Tick * Tick * QPacket * list Tick * DRAM) :=
  let kr := Z.to_nat (Nvm.l_rank (loc m)) in
  let k := Z.to_nat (Nvm.l_bank (loc m)) in
  r ← get_rank d kr;
  assertb (inRefIdleState r);;
  r ← (if inLowPowerState (pw r)
       then assertb (negb (bool_decide (pwrState (pw r) = PWR_SREF)));;
            scheduleWakeUpEvent curTick (tXP i) r
       else Ok r);
  '(ticks, r) ← open_row curTick ticks r k (Nvm.l_row (loc m));
  b0 ← get_bank r k;
  let col_allowed_at := if isRead m then rdAllowedAt b0 else wrAllowedAt b0 in
  '(cmd_at, burst_gap, ticks) ←
    burst_at ticks r (Z.max (Z.max col_allowed_at next_burst_at) curTick);
  let ready := cmd_at + tCL i + tBURST i in
  let d := delay_bursts m b0 burst_gap cmd_at (set_rank kr (set_lastBurstTick cmd_at r) d) in
  let d := mkDRAM (ranks d) (Nvm.l_rank (loc m)) (timeStampOffset d) in
  r ← get_rank d kr;
  let r := upd_bank k (λ b, set_counts (u32 (rowAccesses b + 1)) (u32 (bytesAccessed b + burstSize i))
                 (delay_pre (if isRead m then cmd_at + tRTP i else ready + tWR i) b)) r in
  b ← get_bank r k;
  let r := push_cmd (mkCommand (if isRead m then RD else WR) (Nvm.l_bank (loc m)) cmd_at) r in
  '(ticks, r) ← (if auto_precharge m prio idx queues b
                 then prechargeBank curTick ticks r k (Z.max curTick (preAllowedAt b)) true true
                 else Ok (ticks, r));
  r ← burst_done curTick (isRead m) ready r;
  Ok (cmd_at, cmd_at + burst_gap, mkQPacket (isDram m) (Dev.set_ready ready (q_pkt m)), ticks,
      set_rank kr r d).

Definition addRankToRankDelay (cmd_at : Tick) (d : DRAM) : DRAM :=
  let t := cmd_at + rankToRankDelay i in
  mkDRAM (upd_all (delay_cols t t) <$> ranks d) (activeRank d) (timeStampOffset d).

(** ** Choosing a packet *)

(** Does a packet wait for bank [j] of rank [k], of a rank that can serve it? *)
Definition got_waiting (d : DRAM) (queue : list QPacket) : res (list Z) :=
  foldr (λ p acc,
    acc ← acc;
    if isDram p then
      r ← get_rank d (Z.to_nat (Nvm.l_rank (loc p)));
      Ok (if inRefIdleState r then Nvm.l_bankId (loc p) :: acc else acc)
    else Ok acc) (Ok []) queue.

(** The variables of the loops of [minBankPrep]. *)
Record Prep := mkPrep {
  bank_mask : list Z;
  min_act_at : Tick;
  found_seamless_bank : bool;
  hidden_bank_prep : bool;
}.

(** The earliest activation and burst of a bank. *)
Definition bank_times (curTick : Tick) (now_bus : Dev.BusState) (b : Bank) : Tick * Tick :=
  let act_at := if openRow b =? NO_ROW then Z.max (actAllowedAt b) curTick
                else Z.max (preAllowedAt b) curTick + tRP i in
  let col_allowed_at := if Dev.is_READ now_bus then rdAllowedAt b else wrAllowedAt b in
  (act_at, Z.max col_allowed_at (act_at + tRCD i)).

Definition prep_step (curTick : Tick) (now_bus : Dev.BusState) (min_col_at : Tick) (k j : nat)
    (b : Bank) (s : Prep) : res Prep :=
  let hidden_act_max := Z.max (usub min_col_at (tRCD i)) curTick in
  let '(act_at, col_at) := bank_times curTick now_bus b in
  let new_seamless_bank := col_at <=? min_col_at in
  if new_seamless_bank || (negb (found_seamless_bank s) && (act_at <=? min_act_at s)) then
    let mask := if negb (found_seamless_bank s) && (new_seamless_bank || (act_at <? min_act_at s))
                then (λ _, 0) <$> bank_mask s else bank_mask s in
    m ← match mask !! k with Some m => Ok m | None => Err Undef end;
    m ← replaceBits m (Z.of_nat j) (Z.of_nat j) 1;
    Ok (mkPrep (<[k := m]> mask) act_at (found_seamless_bank s || new_seamless_bank)
          (act_at <=? hidden_act_max))
  else Ok s.

Fixpoint prep_banks (curTick : Tick) (now_bus : Dev.BusState) (min_col_at : Tick) (waiting : list Z)
    (k j : nat) (r : Rank) (bs : list Bank) (s : Prep) : res Prep :=
  match bs with
  | [] => Ok s
  | b :: bs =>
      s ← (if bool_decide (u16 (Z.of_nat k * banksPerRank i + Z.of_nat j) ∈ waiting)
           then assertb (inRefIdleState r);;
                prep_step curTick now_bus min_col_at k j b s
           else Ok s);
      prep_banks curTick now_bus min_col_at waiting k (S j) r bs s
  end.

Fixpoint prep_ranks (curTick : Tick) (now_bus : Dev.BusState) (min_col_at : Tick) (waiting : list Z)
    (k : nat) (rs : list Rank) (s : Prep) : res Prep :=
  match rs with
  | [] => Ok s
  | r :: rs =>
      s ← prep_banks curTick now_bus min_col_at waiting k 0 r (banks r) s;
      prep_ranks curTick now_bus min_col_at waiting (S k) rs s
  end.

Definition minBankPrep (curTick : Tick) (now_bus : Dev.BusState) (d : DRAM) (queue : list QPacket)
    (min_col_at : Tick) : res (list Z * bool) :=
  waiting ← got_waiting d queue;
  s ← prep_ranks curTick now_bus min_col_at waiting 0 (ranks d)
        (mkPrep (replicate (Z.to_nat (ranksPerChannel i)) 0) MaxTick false false);
  Ok (bank_mask s, hidden_bank_prep s).

Definition burstReady (d : DRAM) (p : QPacket) : res bool :=
  r ← get_rank d (Z.to_nat (Nvm.l_rank (loc p))); Ok (inRefIdleState r).

(** The variables of the loop of [chooseNextFRFCFS]. *)
Record Choice := mkChoice {
  found_hidden_bank : bool;
  found_prepped_pkt : bool;
  found_earliest_pkt : bool;
  selected : option nat * Tick;
}.

(** One packet; [Some true] ends the loop with it selected. *)
Definition choose_step (prep : res (list Z * bool)) (d : DRAM) (min_col_at : Tick) (p : QPacket)
    (idx : nat) (s : Choice) : res (bool * Choice) :=
  if isDram p then
    r ← get_rank d (Z.to_nat (Nvm.l_rank (loc p)));
    b ← get_bank r (Z.to_nat (Nvm.l_bank (loc p)));
    let col_allowed_at := if isRead p then rdAllowedAt b else wrAllowedAt b in
    if inRefIdleState r then
      if openRow b =? Nvm.l_row (loc p) then
        if col_allowed_at <=? min_col_at then
          Ok (true, mkChoice (found_hidden_bank s) (found_prepped_pkt s) (found_earliest_pkt s)
                      (Some idx, col_allowed_at))
        else if negb (found_hidden_bank s) && negb (found_prepped_pkt s) then
          Ok (false, mkChoice (found_hidden_bank s) true (found_earliest_pkt s)
                       (Some idx, col_allowed_at))
        else Ok (false, s)
      else if negb (found_earliest_pkt s) then
        '(earliest_banks, hidden) ← prep;
        m ← match earliest_banks !! Z.to_nat (Nvm.l_rank (loc p)) with
            | Some m => Ok m | None => Err Undef end;
        bit ← bits m (Nvm.l_bank (loc p)) (Nvm.l_bank (loc p));
        if negb (bit =? 0) then
          Ok (false, mkChoice hidden (found_prepped_pkt s) true
                (if hidden || negb (found_prepped_pkt s) then (Some idx, col_allowed_at) else selected s))
        else Ok (false, s)
      else Ok (false, s)
    else Ok (false, s)
  else Ok (false, s).

Fixpoint choose_loop (prep : res (list Z * bool)) (d : DRAM) (min_col_at : Tick)
    (queue : list QPacket) (idx : nat) (s : Choice) : res (option nat * Tick) :=
  match queue with
  | [] => Ok (selected s)
  | p :: queue =>
      '(stop, s) ← choose_step prep d min_col_at p idx s;
      if stop : bool then Ok (selected s) else choose_loop prep d min_col_at queue (S idx) s
  end.

(** [minBankPrep] is computed when first needed; it does not change. *)
Definition chooseNextFRFCFS (curTick : Tick) (now_bus : Dev.BusState) (d : DRAM)
    (queue : list QPacket) (min_col_at : Tick) : res (option nat * Tick) :=
  choose_loop (minBankPrep curTick now_bus d queue min_col_at) d min_col_at queue 0
    (mkChoice false false false (None, MaxTick)).

(** ** The events of a rank *)

(** Commands up to now go to the power library, in order of time. *)
Definition flushCmdList (curTick offset : Z) (r : Rank) : Rank :=
  let l := merge_sort earlier (cmdList r) in
  let done := filter (λ c, timeStamp c ≤ curTick) l in
  set_cmds (filter (λ c, ¬ timeStamp c ≤ curTick) l)
    (sent r ++ ((λ c, (c_type c, c_bank c, divCeil (timeStamp c) (tCK i) - offset)) <$> done)) r.

Definition fire (set : Event → Events → Events) (get : Events → Event) (r : Rank) : Rank :=
  set_evs (set (Dev.fired (get (evs r))) (evs r)) r.

Definition schedule_refresh (curTick t : Tick) (r : Rank) : res Rank :=
  e ← Dev.schedule curTick (refreshEvent (evs r)) t;
  Ok (set_evs (set_refreshEvent e (evs r)) r).

Definition Rank_startup (curTick ref_tick : Tick) (r : Rank) : res Rank :=
  assertb (curTick <? ref_tick);;
  schedule_refresh curTick ref_tick (set_pw (pwr_now (pwrState (pw r)) curTick (pw r)) r).

Definition Rank_suspend (curTick offset : Z) (r : Rank) : res Rank :=
  assertb (scheduled (refreshEvent (evs r)));;
  let r := fire set_refreshEvent refreshEvent r in
  let r := flushCmdList curTick offset r in
  Ok (set_pw (pwr_post PWR_IDLE (pw r)) r).

Definition checkDrainDone (curTick : Tick) (r : Rank) : res Rank :=
  match refreshState r with
  | REF_DRAIN => schedule_refresh curTick curTick (set_refreshState REF_PD_EXIT r)
  | _ => Ok r
  end.

Definition processActivateEvent (curTick : Tick) (r : Rank) : res Rank :=
  if negb (bool_decide (pwrState (pw r) = PWR_ACT)) then schedulePowerEvent curTick PWR_ACT curTick r
  else Ok r.

Definition processPrechargeEvent (v : CtrlView) (curTick : Tick) (r : Rank) : res Rank :=
  assertb (0 <? outstandingEvents r);;
  let r := set_outstanding (u8 (outstandingEvents r - 1)) r in
  if numBanksActive r =? 0 then
    if isQueueEmpty v r && (outstandingEvents r =? 0) && enableDRAMPowerdown i then
      assertb (bool_decide (pwrState (pw r) = PWR_ACT));;
      powerDownSleep curTick PWR_PRE_PDN curTick r
    else schedulePowerEvent curTick PWR_IDLE curTick r
  else Ok r.

Definition processWriteDoneEvent (r : Rank) : res Rank :=
  assertb (0 <? outstandingEvents r);;
  Ok (set_outstanding (u8 (outstandingEvents r - 1)) r).

Definition processWakeUpEvent (curTick : Tick) (r : Rank) : res Rank :=
  match pwrState (pw r) with
  | PWR_ACT_PDN => schedulePowerEvent curTick PWR_ACT curTick r
  | PWR_PRE_PDN | PWR_SREF => schedulePowerEvent curTick PWR_IDLE curTick r
  | _ => Err AssertFail
  end.

(** *** Refresh *)

(** Precharges every open bank at [pre_at]. *)
Fixpoint preall_loop (curTick pre_at : Tick) (n k : nat) (r : Rank) : res Rank :=
  match n with
  | O => Ok r
  | S n =>
      b ← get_bank r k;
      r ← (if negb (openRow b =? NO_ROW)
           then '(_, r) ← prechargeBank curTick [] r k pre_at true false; Ok r
           else Ok (upd_bank k (λ b, delay_pre pre_at (delay_act (pre_at + tRP i) b)) r));
      preall_loop curTick pre_at n (S k) r
  end.

(** State [REF_PRE]. *)
Definition refresh_pre (v : CtrlView) (curTick : Tick) (r : Rank) : res Rank :=
  r ← (if negb (numBanksActive r =? 0) then
         let pre_at := foldl (λ t b, Z.max (preAllowedAt b) t) curTick (banks r) in
         r ← preall_loop curTick pre_at (length (banks r)) 0 r;
         Ok (push_cmd (mkCommand PREA 0 pre_at) r)
       else if bool_decide (pwrState (pw r) = PWR_IDLE) && (outstandingEvents r =? 1)
       then schedulePowerEvent curTick PWR_REF curTick r
       else assertb (scheduled (prechargeEvent (evs r)) || respondEventScheduled v);; Ok r);
  assertb (numBanksActive r =? 0);;
  Ok r.

(** State [REF_START]. *)
Definition refresh_start (curTick offset : Z) (r : Rank) : res Rank :=
  assertb (numBanksActive r =? 0);;
  assertb (bool_decide (pwrState (pw r) = PWR_REF));;
  let ref_done_at := curTick + tRFC i in
  let r := upd_all (set_actAllowedAt ref_done_at) r in
  let r := push_cmd (mkCommand REF 0 curTick) r in
  let r := flushCmdList curTick offset r in
  let r := set_refreshDueAt (refreshDueAt r + tREFI i) r in
  fatal_if (refreshDueAt r <? ref_done_at);;
  schedule_refresh curTick ref_done_at (set_refreshState REF_RUN r).

(** State [REF_RUN]. *)
Definition refresh_run (v : CtrlView) (curTick : Tick) (r : Rank) : res Rank :=
  assertb (numBanksActive r =? 0);;
  assertb (bool_decide (pwrState (pw r) = PWR_REF));;
  assertb (negb (scheduled (powerEvent (evs r))));;
  r ← (if draining v then schedulePowerEvent curTick PWR_IDLE curTick r
       else if negb (bool_decide (pwrStatePostRefresh (pw r) = PWR_IDLE))
       then powerDownSleep curTick (pwrState (pw r)) curTick r
       else if isQueueEmpty v r && enableDRAMPowerdown i then
         assertb (outstandingEvents r =? 1);;
         powerDownSleep curTick PWR_PRE_PDN curTick r
       else schedulePowerEvent curTick PWR_IDLE curTick r);
  schedule_refresh curTick (refreshDueAt r - tRP i) r.

(** [active] is the rank of the last burst. *)
Definition processRefreshEvent (v : CtrlView) (active curTick offset : Z) (r : Rank) : res Rank :=
  let r := if bool_decide (refreshState r = REF_IDLE) || bool_decide (refreshState r = REF_SREF_EXIT)
           then set_outstanding (u8 (outstandingEvents r + 1))
                  (set_refreshState REF_DRAIN (set_refreshDueAt curTick r))
           else r in
  if bool_decide (refreshState r = REF_DRAIN) && (rank r =? active) && requestEventScheduled v
  then Ok r
  else
    let r := if bool_decide (refreshState r = REF_DRAIN) then set_refreshState REF_PD_EXIT r else r in
    if bool_decide (refreshState r = REF_PD_EXIT) && inLowPowerState (pw r)
    then scheduleWakeUpEvent curTick (tXP i) r
    else
      let r := if bool_decide (refreshState r = REF_PD_EXIT) then set_refreshState REF_PRE r else r in
      match refreshState r with
      | REF_PRE => refresh_pre v curTick r
      | REF_START => refresh_start curTick offset r
      | REF_RUN => refresh_run v curTick r
      | _ => Ok r
      end.

(** *** Power *)

(** The refresh is over; [true] asks for a restart of the request scheduler. *)
Definition after_refresh (v : CtrlView) (r : Rank) : res (Rank * bool) :=
  assertb (outstandingEvents r =? 1);;
  let r := set_refreshState REF_IDLE (set_outstanding (u8 (outstandingEvents r - 1)) r) in
  assertb (bool_decide (pwrState (pw r) = PWR_IDLE) || bool_decide (pwrState (pw r) = PWR_PRE_PDN));;
  Ok (r, negb (requestEventScheduled v)).

(** What follows from the new power state for a pending refresh. *)
Definition power_refresh (prev : PowerState) (curTick : Tick) (r : Rank) : res Rank :=
  if bool_decide (pwrState (pw r) = PWR_ACT) && bool_decide (refreshState r = REF_PD_EXIT) then
    assertb (bool_decide (prev = PWR_ACT_PDN));;
    schedule_refresh curTick curTick (set_refreshState REF_PRE r)
  else if bool_decide (pwrState (pw r) = PWR_IDLE) then
    if bool_decide (prev = PWR_SREF) then
      schedule_refresh curTick (curTick + tXS i) (set_refreshState REF_SREF_EXIT r)
    else
      match refreshState r with
      | REF_PD_EXIT =>
          if negb (scheduled (activateEvent (evs r))) then
            assertb (negb (scheduled (powerEvent (evs r))));;
            assertb (bool_decide (prev = PWR_PRE_PDN));;
            schedulePowerEvent curTick PWR_REF (curTick + tXP i) r
          else assertb (scheduled (prechargeEvent (evs r)));; Ok r
      | REF_PRE =>
          if negb (scheduled (activateEvent (evs r))) then
            assertb (negb (scheduled (powerEvent (evs r))));;
            Ok (set_pw (pwr_now PWR_REF (pwrStateTick (pw r)) (pw r)) r)
          else assertb (scheduled (prechargeEvent (evs r)));; Ok r
      | _ => Ok r
      end
  else Ok r.

(** Entry to the refresh state: a refresh, or self refresh instead. *)
Definition enter_refresh (v : CtrlView) (curTick : Tick) (r : Rank) : res Rank :=
  assertb (bool_decide (refreshState r = REF_PRE) || bool_decide (refreshState r = REF_PD_EXIT));;
  if bool_decide (pwrStatePostRefresh (pw r) = PWR_PRE_PDN) && isQueueEmpty v r &&
     negb (draining v) && enableDRAMPowerdown i then
    r ← powerDownSleep curTick PWR_SREF curTick r;
    assertb (outstandingEvents r =? 1);;
    let r := set_outstanding (u8 (outstandingEvents r - 1)) r in
    Ok (set_pw (pwr_now PWR_IDLE (pwrStateTick (pw r)) (pw r)) r)
  else
    assertb (negb (scheduled (powerEvent (evs r))));;
    r ← schedule_refresh curTick curTick r;
    Ok (set_refreshState REF_START r).

Definition processPowerEvent (v : CtrlView) (curTick : Tick) (r : Rank) : res (Rank * bool) :=
  assertb (pwrStateTick (pw r) <=? curTick);;
  let prev_state := pwrState (pw r) in
  let r := set_pw (pwr_now (pwrStateTrans (pw r)) curTick (pw r)) r in
  '(r, restart) ← (if bool_decide (prev_state = PWR_REF) then after_refresh v r else Ok (r, false));
  r ← power_refresh prev_state curTick r;
  r ← (if bool_decide (pwrState (pw r) = PWR_REF) then enter_refresh v curTick r else Ok r);
  Ok (r, restart).

(** ** The interface *)

Fixpoint each_rank (f : Rank → res Rank) (l : list Rank) : res (list Rank) :=
  match l with
  | [] => Ok []
  | r :: l => r ← f r; l ← each_rank f l; Ok (r :: l)
  end.

Definition startup (timing : bool) (curTick : Tick) (d : DRAM) : res DRAM :=
  if timing then
    rs ← each_rank (Rank_startup curTick (curTick + tREFI i - tRP i)) (ranks d);
    Ok (mkDRAM rs (activeRank d) (divCeil curTick (tCK i)))
  else Ok d.

Definition suspend (curTick : Tick) (d : DRAM) : res DRAM :=
  rs ← each_rank (Rank_suspend curTick (timeStampOffset d)) (ranks d);
  Ok (mkDRAM rs (activeRank d) (timeStampOffset d)).

(** A refreshing rank is busy; a rank in self refresh may have to wake up. *)
Definition busy_rank (v : CtrlView) (curTick : Tick) (r : Rank) : res Rank :=
  if inRefIdleState r then Ok r
  else
    r ← (if negb (bool_decide (pwrState (pw r) = PWR_SREF)) then checkDrainDone curTick r else Ok r);
    if bool_decide (pwrState (pw r) = PWR_SREF) && inLowPowerState (pw r) && forceSelfRefreshExit v r
    then scheduleWakeUpEvent curTick (tXS i) r else Ok r.

Definition isBusy (v : CtrlView) (curTick : Tick) (d : DRAM) : res (bool * DRAM) :=
  let busy := filter (λ r, inRefIdleState r = false ∧ pwrState (pw r) ≠ PWR_SREF) (ranks d) in
  rs ← each_rank (busy_rank v curTick) (ranks d);
  Ok (Z.of_nat (length busy) =? ranksPerChannel i, mkDRAM rs (activeRank d) (timeStampOffset d)).

Definition setupRank (k : nat) (is_read : bool) (d : DRAM) : res DRAM :=
  r ← get_rank d k;
  Ok (set_rank k (if is_read then set_entries (u32 (readEntries r + 1)) (writeEntries r) r
                  else set_entries (readEntries r) (u32 (writeEntries r + 1)) r) d).

Definition respond_rank (v : CtrlView) (curTick : Tick) (r : Rank) : res Rank :=
  let r := set_entries (u32 (readEntries r - 1)) (writeEntries r) r in
  assertb (0 <? outstandingEvents r);;
  let r := set_outstanding (u8 (outstandingEvents r - 1)) r in
  assertb (negb (bool_decide (pwrState (pw r) = PWR_SREF)) &&
           negb (bool_decide (pwrState (pw r) = PWR_PRE_PDN)) &&
           negb (bool_decide (pwrState (pw r) = PWR_ACT_PDN)));;
  if isQueueEmpty v r && (outstandingEvents r =? 0) && inRefIdleState r && enableDRAMPowerdown i then
    assertb (negb (scheduled (activateEvent (evs r))));;
    assertb (negb (scheduled (prechargeEvent (evs r))));;
    powerDownSleep curTick
      (if bool_decide (pwrState (pw r) = PWR_IDLE) then PWR_PRE_PDN else PWR_ACT_PDN) curTick r
  else Ok r.

Definition respondEvent (v : CtrlView) (curTick : Tick) (k : nat) (d : DRAM) : res DRAM :=
  r ← get_rank d k; r ← respond_rank v curTick r; Ok (set_rank k r d).

Definition checkRefreshState (curTick : Tick) (k : nat) (d : DRAM) : res DRAM :=
  r ← get_rank d k;
  if bool_decide (refreshState r = REF_PRE) && negb (scheduled (prechargeEvent (evs r))) then
    r ← schedule_refresh curTick curTick r; Ok (set_rank k r d)
  else Ok d.

Definition drainRanks (curTick : Tick) (d : DRAM) : res DRAM :=
  rs ← each_rank (λ r, if bool_decide (pwrState (pw r) = PWR_SREF)
                       then scheduleWakeUpEvent curTick (tXS i) r else Ok r) (ranks d);
  Ok (mkDRAM rs (activeRank d) (timeStampOffset d)).

Definition allRanksDrained (d : DRAM) : bool :=
  forallb (λ r, inPwrIdleState r && inRefIdleState r) (ranks d).

End Operations.

(** ** A device

    [DDR3_1600_8x8] of [mem/DRAMInterface.py] with two ranks, in picoseconds. *)

Definition ddr3_1600 : Params :=
  mkParams 64 2 8 0 1250 2500 5000 2500 7500 13750 5000 5000 0 0 13750 13750 35000 15000 7500
    260000 7800000 6000 0 0 1250 30000 6000 270000 7500 false false 4 open_adaptive 16 false 10000.

Definition ddr3 : Interface :=
  mkInterface 64 2 8 0 false 1250 2500 5000 2500 7500 13750 5000 5000 0 0 13750 13750 35000
    15000 7500 260000 7800000 6000 0 0 1250 30000 6000 270000 18750 false false false 4
    26250 7500 open_adaptive 16 false 8 10000.

Example ddr3_constructed : DRAMInterface_new ddr3_1600 = Ok ddr3.
Proof. reflexivity. Qed.

(** A packet for a row of a bank. *)
Definition dram_packet (rd : bool) (rank bank row : Z) : QPacket :=
  mkQPacket true (Dev.mkMemPacket 0 0 (Dev.mkPacket 0 0 64 rd (negb rd) false true 0 0 0 0) rd
    (Nvm.mkLocation rank bank row (rank * 8 + bank)) 0 64 None 0).

End Dram.
