(* ===== verification/DramTiming.v ===== *)
(** * Timing of the DRAM commands

    The commands a DRAM interface issues, in the order in which it issues
    them, obey the timing constraints of the device: the delays between
    activates, column commands, precharges and refreshes, the limit on
    activates in a window, and the protocol of opening and closing rows. *)

From S2P Require Import Prelude.
From S2P Require Import Intmath.
From S2P Require Import CmdBus.
From S2P Require Import NvmDecode.
From S2P Require Import NvmDevice.
From S2P Require Import DramDevice.

Module DramTiming.
Import CmdBus.
Export Dram.

(** ** The constraints of the device *)

(** What a command does to a bank. *)
Inductive Kind := KAct | KRead | KWrite | KPre.

Abbreviation Log := (list (nat * Command)).

Section Constraints.
Context (i : Interface).

Definition group (b : Z) : Z := if 0 <? bankGroupsPerRank i then b mod bankGroupsPerRank i else b.
Definition same_group (a b : Z) : bool := bankGroupArch i && (group a =? group b).

(** The least time from command [c] on rank [j] to one of kind [q] on bank [k]
    of rank [j']. *)
Definition spacing (j : nat) (c : Command) (j' k : nat) (q : Kind) : option Tick :=
  let rk := bool_decide (j = j') in
  let bk := rk && (c_bank c =? Z.of_nat k) in
  let sg := same_group (c_bank c) (Z.of_nat k) in
  let when_ (b : bool) (t : Tick) := if b then Some t else None in
  match c_type c, q with
  | ACT, KAct => when_ rk (if sg then tRRD_L i else tRRD i)
  | ACT, (KRead | KWrite) => when_ bk (tRCD i)
  | ACT, KPre => when_ bk (tRAS i)
  | RD, KRead => Some (if rk then if sg then tCCD_L i else tBURST_MIN i else rankToRankDelay i)
  | RD, KWrite =>
      Some (if rk then if sg then Z.max (tCCD_L i) (rdToWrDlySameBG i) else readToWriteDelay i
            else rankToRankDelay i)
  | RD, KPre => when_ bk (tRTP i)
  | WR, KRead =>
      Some (if rk then if sg then Z.max (tCCD_L i) (wrToRdDlySameBG i) else writeToReadDelay i
            else rankToRankDelay i)
  | WR, KWrite => Some (if rk then if sg then tCCD_L_WR i else tBURST_MIN i else rankToRankDelay i)
  | WR, KPre => when_ bk (tCL i + tBURST i + tWR i)
  | PRE, KAct => when_ bk (tRP i)
  | PREA, KAct => when_ rk (tRP i)
  | REF, KAct => when_ rk (tRFC i)
  | _, _ => None
  end.

(** The banks a command acts on, and how. *)
Definition targets (c : Command) (k : nat) (q : Kind) : Prop :=
  match c_type c, q with
  | ACT, KAct | RD, KRead | WR, KWrite | PRE, KPre => c_bank c = Z.of_nat k
  | PREA, KPre => True
  | _, _ => False
  end.

(** Is the row of bank [k] of rank [j] open after the commands of [log],
    newest first? *)
Fixpoint is_open (j k : nat) (log : Log) : bool :=
  match log with
  | [] => false
  | (j', c) :: log =>
      if bool_decide (j = j') then
        match c_type c with
        | ACT => (c_bank c =? Z.of_nat k) || is_open j k log
        | PRE => negb (c_bank c =? Z.of_nat k) && is_open j k log
        | PREA => false
        | _ => is_open j k log
        end
      else is_open j k log
  end.

(** The activates of rank [j], newest first. *)
Fixpoint acts (j : nat) (log : Log) : list Tick :=
  match log with
  | [] => []
  | (j', c) :: log =>
      if bool_decide (j = j' ∧ c_type c = ACT) then timeStamp c :: acts j log else acts j log
  end.

(** [c] may follow the commands of [log] on rank [j]. *)
Record may_follow (log : Log) (j : nat) (c : Command) : Prop := {
  mf_spacing j0 c0 k q t : (j0, c0) ∈ log → targets c k q → Z.of_nat k < banksPerRank i →
    spacing j0 c0 j k q = Some t → timeStamp c0 + t ≤ timeStamp c;
  mf_rows : match c_type c with
    | ACT => ∀ k, c_bank c = Z.of_nat k → is_open j k log = false
    | RD | WR | PRE => ∃ k, c_bank c = Z.of_nat k ∧ is_open j k log = true
    | REF => ∀ k, Z.of_nat k < banksPerRank i → is_open j k log = false
    | _ => True
    end;
  (** A recorded tick of zero stands for no activate. *)
  mf_window t : c_type c = ACT → 0 < activationLimit i →
    acts j log !! Z.to_nat (activationLimit i - 1) = Some t → t = 0 ∨ t + tXAW i ≤ timeStamp c;
}.

Fixpoint legal (log : Log) : Prop :=
  match log with
  | [] => True
  | (j, c) :: log => may_follow log j c ∧ legal log
  end.

(** ** The invariant *)

Definition allowed (q : Kind) (b : Bank) : Tick :=
  match q with
  | KAct => actAllowedAt b | KRead => rdAllowedAt b | KWrite => wrAllowedAt b | KPre => preAllowedAt b
  end.

(** Every precharge of the rank is done at this time. *)
Definition horizon (now : Tick) (r : Rank) : Tick :=
  if scheduled (prechargeEvent (evs r)) then when (prechargeEvent (evs r)) else now.

(** The oldest of the activates recorded, if one is. *)
Definition oldest (l : list Tick) : Tick := default 0 (last l).

Record bank_inv (log : Log) (H old : Tick) (j k : nat) (b : Bank) : Prop := {
  bi_bank : bank b = Z.of_nat k;
  bi_group : bankgr b = group (Z.of_nat k);
  bi_dom j0 c q t : (j0, c) ∈ log → spacing j0 c j k q = Some t → timeStamp c + t ≤ allowed q b;
  bi_closed c t : openRow b = NO_ROW → (j, c) ∈ log → spacing j c j k KPre = Some t →
    timeStamp c + t + tRP i ≤ actAllowedAt b ∧ timeStamp c + t + tRP i ≤ H;
  bi_open : bool_decide (openRow b ≠ NO_ROW) = is_open j k log;
  bi_window : old = 0 ∨ old + tXAW i ≤ actAllowedAt b;
}.

Definition active (l : list Bank) : Z := Z.of_nat (length (filter (λ b, openRow b ≠ NO_ROW) l)).

Record rank_inv (log : Log) (now : Tick) (j : nat) (r : Rank) : Prop := {
  ri_banks k b : banks r !! k = Some b → bank_inv log (horizon now r) (oldest (actTicks r)) j k b;
  ri_length : Z.of_nat (length (banks r)) = banksPerRank i;
  ri_active : numBanksActive r = active (banks r);
  ri_acts : actTicks r = take (Z.to_nat (activationLimit i))
    (acts j log ++ replicate (Z.to_nat (activationLimit i)) 0);
  ri_pre c : (j, c) ∈ log → c_type c = PRE ∨ c_type c = PREA → timeStamp c + tRP i ≤ horizon now r;
  ri_ref c : (j, c) ∈ log → c_type c = REF → timeStamp c ≤ now;
  ri_event : now ≤ horizon now r;
  ri_range c : (j, c) ∈ log → c_type c = ACT → ∃ k, c_bank c = Z.of_nat k ∧ Z.of_nat k < banksPerRank i;
}.

(** What is assumed of the parameters. *)
Record timing_ok : Prop := {
  to_window : 0 < commandWindow i;
  to_cmds : 1 ≤ maxCommandsPerWindow i;
  to_banks : 0 ≤ banksPerRank i < 2 ^ 32;
  to_limit : 0 ≤ activationLimit i;
  to_pos : 0 ≤ tRCD i ∧ 0 ≤ tRP i ∧ 0 ≤ tRAS i ∧ 0 ≤ tWR i ∧ 0 ≤ tRTP i ∧ 0 ≤ tCL i ∧ 0 ≤ tBURST i ∧
    0 ≤ tRRD i ∧ 0 ≤ tRRD_L i ∧ 0 ≤ tXAW i ∧ 0 ≤ tRFC i ∧ 0 ≤ tXP i ∧ 0 ≤ tXS i ∧ 0 ≤ tAAD i ∧ 0 ≤ tCK i;
  to_burst : 0 ≤ tBURST_MIN i ≤ tBURST i;
  to_refresh : tRRD i ≤ tRFC i ∧ tRRD_L i ≤ tRFC i ∧ tXAW i ≤ tRFC i ∧ tRP i ≤ tRFC i;
}.

(** ** Counting open rows *)

Lemma active_nonneg l : 0 ≤ active l.
Proof. unfold active. lia. Qed.

Lemma active_le l : active l ≤ Z.of_nat (length l).
Proof. unfold active. pose proof (length_filter (λ b, openRow b ≠ NO_ROW) l). lia. Qed.

Lemma active_cons b l : active (b :: l) = (if decide (openRow b ≠ NO_ROW) then 1 else 0) + active l.
Proof. unfold active. rewrite filter_cons. case_decide; simpl length; lia. Qed.

Lemma active_fmap f l : (∀ b, openRow (f b) = openRow b) → active (f <$> l) = active l.
Proof.
  intros Hf. induction l as [|b l IH]; [done|]. rewrite fmap_cons, !active_cons, IH, Hf. done.
Qed.

Lemma active_alter f k l b : l !! k = Some b →
  active (alter f k l) + (if decide (openRow b ≠ NO_ROW) then 1 else 0) =
  active l + (if decide (openRow (f b) ≠ NO_ROW) then 1 else 0).
Proof.
  revert k; induction l as [|a l IH]; intros [|k] Hk; simplify_eq/=.
  - rewrite !active_cons. lia.
  - rewrite !active_cons.
    specialize (IH k Hk). lia.
Qed.

Lemma active_alter_same f k l : (∀ b, openRow (f b) = openRow b) → active (alter f k l) = active l.
Proof.
  intros Hf. revert k; induction l as [|a l IH]; intros [|k]; simpl; [done..| |].
  - rewrite !active_cons, Hf. done.
  - rewrite !active_cons. f_equal. apply IH.
Qed.

Lemma active_zero l : active l = 0 ↔ ∀ b, b ∈ l → openRow b = NO_ROW.
Proof.
  induction l as [|b l IH]; [split; [by intros _ b Hb%not_elem_of_nil|done]|].
  rewrite active_cons. pose proof (active_nonneg l). setoid_rewrite elem_of_cons.
  destruct (decide (openRow b ≠ NO_ROW)) as [Hd|Hd]; split.
  - lia.
  - intros Hall. by destruct Hd; apply Hall; left.
  - intros H1 b' [->|Hb]; [by apply dec_stable|]. apply IH; [lia|done].
  - intros Hall. assert (active l = 0) by (apply IH; auto). lia.
Qed.

(** ** The effect of the operations on rows *)

Lemma verify_ok (two : bool) split ticks t : timing_ok → 0 ≤ t →
  ∃ c ticks', verify i two split ticks t = Ok (c, ticks') ∧ t ≤ c.
Proof.
  intros Hi Ht. destruct Hi. unfold verify. destruct two.
  - destruct (verifyMultiCmd_spec (commandWindow i) ticks t (maxCommandsPerWindow i) split)
      as (c & b & f & Hv & Hc & _); eauto.
  - destruct (verifySingleCmd_spec (commandWindow i) ticks t (maxCommandsPerWindow i))
      as (k & Hk & Hv & _); [done..|]. rewrite Hv. do 2 eexists. split; [done|].
    destruct (window_bounds (commandWindow i) t) as (Hb & Hbt & _); [done..|].
    destruct (Z.eqb_spec k 0); nia.
Qed.

(** An activate of bank [k] at [t]: what changes in bank [k']. *)
Record activated (b0 : Bank) (k : nat) (t : Tick) (row : Z) (old : Tick) (k' : nat) (b b' : Bank) :
    Prop := {
  ac_bank : bank b' = bank b ∧ bankgr b' = bankgr b;
  ac_row : openRow b' = if decide (k = k') then row else openRow b;
  ac_pre : preAllowedAt b' = if decide (k = k') then t + tRAS i else preAllowedAt b;
  ac_mono : rdAllowedAt b ≤ rdAllowedAt b' ∧ wrAllowedAt b ≤ wrAllowedAt b' ∧
    actAllowedAt b ≤ actAllowedAt b';
  ac_col : k = k' → t + tRCD i ≤ rdAllowedAt b' ∧ t + tRCD i ≤ wrAllowedAt b';
  ac_act : t + act_delay i b0 b ≤ actAllowedAt b';
  ac_window : old = 0 ∨ old + tXAW i ≤ actAllowedAt b';
}.

(** What a rank keeps through the operations on its rows. *)
Record same_state (r r' : Rank) : Prop := {
  ss_rank : rank r' = rank r;
  ss_pw : pw r' = pw r;
  ss_refresh : refreshState r' = refreshState r;
  ss_due : refreshDueAt r' = refreshDueAt r;
  ss_length : length (banks r') = length (banks r);
}.

Lemma delay_act_id b : delay_act (actAllowedAt b) b = b.
Proof. unfold delay_act, set_actAllowedAt. rewrite Z.max_id. by destruct b. Qed.

Lemma window_full_false t l : window_full i t l = false → (∀ a, a ∈ l → a ≤ t) →
  oldest l = 0 ∨ oldest l + tXAW i ≤ t.
Proof.
  unfold window_full, oldest. destruct (last l) as [b|] eqn:Hl; [|auto]. simpl.
  intros [Hb|Hb]%andb_false_iff Hle; bool_to_prop; [auto|right].
  apply last_Some_elem_of in Hl. specialize (Hle b Hl).
  unfold usub in Hb. rewrite (proj2 (Z.leb_le _ _) Hle) in Hb. lia.
Qed.

Lemma record_act_ok t r : window_full i t (actTicks r) = false →
  (∀ a, a ∈ actTicks r → a ≤ t) → (∀ b, b ∈ banks r → t ≤ actAllowedAt b) →
  ∃ r', record_act i t r = Ok r' ∧ same_state r r' ∧ evs r' = evs r ∧ cmdList r' = cmdList r ∧
    numBanksActive r' = numBanksActive r ∧ active (banks r') = active (banks r) ∧
    actTicks r' = match actTicks r with [] => [] | l => t :: removelast l end ∧
    ∀ k b', banks r' !! k = Some b' → ∃ b d, banks r !! k = Some b ∧ b' = delay_act d b ∧
      (oldest (actTicks r') = 0 ∨ oldest (actTicks r') + tXAW i ≤ actAllowedAt b').
Proof.
  intros Hwin Hle Hbanks. unfold record_act.
  destruct (actTicks r) as [|a l] eqn:Hl.
  { exists r. rewrite Hl. split_and!; [done|by constructor|done..|].
    intros k b Hk. exists b, (actAllowedAt b). rewrite delay_act_id. auto. }
  unfold panic_if. rewrite Hwin. cbn [mbind res_bind].
  set (l' := t :: removelast (a :: l)).
  assert (Hle' : ∀ x, x ∈ l' → x ≤ t).
  { intros x [->|Hx]%elem_of_cons; [lia|]. apply Hle.
    rewrite (app_removelast_last (l := a :: l) 0) by done. set_solver. }
  destruct (window_full i t l') eqn:Hw; eexists; (split; [done|]).
  - split_and!; [by constructor; simpl; rewrite ?length_fmap|done..|by apply active_fmap|done|].
    intros k b'. simpl. rewrite list_lookup_fmap. intros (b & Hk & ->)%fmap_Some.
    exists b. eexists. split; [done|]. split; [done|]. right. unfold oldest. simpl. lia.
  - split_and!; [by constructor|done..|].
    intros k b Hk. exists b, (actAllowedAt b). rewrite delay_act_id. split_and!; [done..|].
    simpl. apply list_elem_of_lookup_2, Hbanks in Hk.
    destruct (window_full_false t l' Hw Hle'); [auto|right; lia].
Qed.

Lemma alter_alter (f g : Bank → Bank) (k : nat) (l : list Bank) : alter f k (alter g k l) = alter (λ b, f (g b)) k l.
Proof.
  apply list_eq. intros m. destruct (decide (m = k)) as [->|Hm].
  - rewrite !list_lookup_alter_eq. by destruct (l !! k).
  - by rewrite !list_lookup_alter_ne.
Qed.

Lemma lookup_alter_if (f : Bank → Bank) (k : nat) (l : list Bank) m b' : alter f k l !! m = Some b' →
  ∃ b, l !! m = Some b ∧ b' = if decide (k = m) then f b else b.
Proof.
  case_decide as Hd; [subst m; rewrite list_lookup_alter_eq; intros (b & ? & ->)%fmap_Some; eauto|].
  rewrite list_lookup_alter_ne by done. eauto.
Qed.

Lemma activate_event_ok now r t : now ≤ t → ∃ e,
  (let e := activateEvent (evs r) in
   if negb (scheduled e) then Dev.schedule now e t
   else if t <? when e then Dev.reschedule now e t else Ok e) = Ok e.
Proof.
  intros Ht. unfold Dev.schedule, Dev.reschedule, assertb. rewrite (proj2 (Z.leb_le _ _) Ht).
  destruct (scheduled (activateEvent (evs r))) eqn:Hs; simpl; [|eauto].
  case_if; eauto.
Qed.

Lemma activateBank_ok now ticks r k b0 t row : timing_ok → 0 ≤ now ≤ t →
  banks r !! k = Some b0 → openRow b0 = NO_ROW → row ≠ NO_ROW →
  Z.of_nat (length (actTicks r)) = activationLimit i → numBanksActive r = active (banks r) →
  Z.of_nat (length (banks r)) = banksPerRank i →
  (∀ a, t ≤ a → window_full i a (actTicks r) = false) → (∀ a, a ∈ actTicks r → a ≤ t) →
  ∃ act_at ticks' r', activateBank i now ticks r k t row = Ok (ticks', r') ∧ t ≤ act_at ∧
    same_state r r' ∧ cmdList r' = cmdList r ++ [mkCommand ACT (bank b0) act_at] ∧
    prechargeEvent (evs r') = prechargeEvent (evs r) ∧ numBanksActive r' = active (banks r') ∧
    actTicks r' = match actTicks r with [] => [] | l => act_at :: removelast l end ∧
    ∀ k' b', banks r' !! k' = Some b' → ∃ b, banks r !! k' = Some b ∧
      activated b0 k act_at row (oldest (actTicks r')) k' b b'.
Proof.
  intros Hi Ht Hk Hrow Hne Hlim Hact Hlen Hwin Hle. unfold activateBank, get_bank.
  rewrite (proj2 (Z.eqb_eq _ _) Hlim). cbn [assertb mbind res_bind].
  destruct (verify_ok (twoCycleActivate i) (tAAD i) ticks t Hi) as (a & ticks' & -> & Ha); [lia|].
  cbn [mbind res_bind]. rewrite Hk. cbn [mbind res_bind].
  rewrite Hrow, Z.eqb_refl. cbn [assertb mbind res_bind]. unfold upd_bank, upd_all.
  cbn -[u32 Z.add Z.leb record_act Dev.schedule Dev.reschedule].
  rewrite alter_alter.
  set (f := λ b, delay_cols _ _ _). set (g := λ b, delay_act _ b).
  assert (Hn : active (alter f k (banks r)) = numBanksActive r + 1).
  { pose proof (active_alter f k _ _ Hk) as H1.
    rewrite decide_False in H1 by (intros []; done). rewrite decide_True in H1 by done. lia. }
  pose proof (active_le (alter f k (banks r))) as Hb. rewrite length_alter in Hb.
  pose proof (active_nonneg (banks r)).
  rewrite (u32_small (numBanksActive r + 1)) by (destruct Hi; lia).
  rewrite (proj2 (Z.leb_le _ _)) by lia. cbn [assertb mbind res_bind].
  match goal with |- context [record_act i a ?x] => set (r1 := x) end.
  destruct (record_act_ok a r1) as (r2 & -> & Hss & Hev & Hc & Hn2 & Ha2 & Ht2 & Hb2).
  { apply Hwin. lia. }
  { intros x Hx. specialize (Hle x Hx). lia. }
  { intros b (b1 & -> & Hb1)%list_elem_of_fmap. unfold g, act_delay. simpl.
    destruct Hi. case_if; lia. }
  cbn [mbind res_bind]. destruct (activate_event_ok now r2 a) as (e & He); [lia|].
  cbv zeta in He. rewrite He. cbn [mbind res_bind].
  exists a, ticks'. eexists. split; [done|]. split; [done|].
  split; [destruct Hss as [? ? ? ? Hl2]; constructor; try done; simpl; rewrite Hl2; simpl;
          by rewrite length_fmap, length_alter|].
  split; [done|]. split; [simpl; by rewrite Hev|].
  split; [simpl; rewrite Hn2, Ha2; unfold r1; simpl; rewrite active_fmap by done; lia|].
  split; [done|]. intros k' b' Hk'. destruct (Hb2 k' b' Hk') as (b1 & d & Hb1 & -> & Hw).
  unfold r1 in Hb1. simpl in Hb1. rewrite list_lookup_fmap in Hb1.
  apply fmap_Some in Hb1 as (b2 & Hb2' & ->). apply lookup_alter_if in Hb2' as (b & Hb' & ->).
  exists b. split; [done|]. unfold f, g. constructor; try (by destruct (decide (k = k'))).
  - destruct (decide (k = k')); simpl; lia.
  - intros ->. rewrite decide_True by done. simpl. lia.
  - destruct (decide (k = k')); unfold act_delay; simpl; lia.
Qed.

(** A precharge of bank [k] at [t]. *)
Record precharged (auto : bool) (k : nat) (t : Tick) (k' : nat) (b b' : Bank) : Prop := {
  pc_bank : bank b' = bank b ∧ bankgr b' = bankgr b;
  pc_row : openRow b' = if decide (k = k') then NO_ROW else openRow b;
  pc_mono q : allowed q b ≤ allowed q b';
  pc_act : k = k' → t + tRP i ≤ actAllowedAt b';
  pc_other : auto = true → k ≠ k' → b' = b;
}.

Lemma dev_schedule_ok now e t : now ≤ t → scheduled e = false →
  Dev.schedule now e t = Ok (Dev.mkEvent true t).
Proof.
  intros Ht He. unfold Dev.schedule, assertb. by rewrite (proj2 (Z.leb_le _ _) Ht), He.
Qed.

Lemma dev_reschedule_ok now e t : now ≤ t → scheduled e = true →
  Dev.reschedule now e t = Ok (Dev.mkEvent true t).
Proof.
  intros Ht He. unfold Dev.reschedule, assertb. by rewrite (proj2 (Z.leb_le _ _) Ht), He.
Qed.

(** The end of [prechargeBank]: the event is not before [t]. *)
Lemma precharge_event_ok now ticks r t : now ≤ t → now ≤ horizon now r → ∃ n e,
  (let e := prechargeEvent (evs r) in
   if negb (scheduled e) then
     e ← Dev.schedule now e t;
     Ok (ticks, set_outstanding (u8 (outstandingEvents r + 1))
                  (set_evs (set_prechargeEvent e (evs r)) r))
   else if when e <? t then
     e ← Dev.reschedule now e t; Ok (ticks, set_evs (set_prechargeEvent e (evs r)) r)
   else Ok (ticks, r)) =
  Ok (ticks : list Tick, set_outstanding n (set_evs (set_prechargeEvent e (evs r)) r)) ∧
  scheduled e = true ∧ horizon now r ≤ when e ∧ t ≤ when e.
Proof.
  intros Ht Hh. unfold horizon in *. cbv zeta.
  destruct (scheduled (prechargeEvent (evs r))) eqn:Hs; cbn [negb].
  - case_if.
    + rewrite dev_reschedule_ok by done. exists (outstandingEvents r), (Dev.mkEvent true t).
      split_and!; [by destruct r|done|simpl; lia..].
    + exists (outstandingEvents r), (prechargeEvent (evs r)).
      split_and!; [by destruct r as [? ? ? ? ? ? ? []]|done|lia..].
  - rewrite dev_schedule_ok by done. do 2 eexists. split; [done|]. simpl. lia.
Qed.

(** The row is closed: the times of the banks before the event. *)
Lemma precharge_times_ok now ticks r k b0 t (auto : bool) : timing_ok → 0 ≤ now ≤ t →
  banks r !! k = Some b0 → openRow b0 ≠ NO_ROW → preAllowedAt b0 ≤ t →
  ∃ pre_at ticks' bs r1,
    (let r := upd_bank k (set_openRow NO_ROW) r in
     '(pre_at, ticks, r) ←
       (if auto then Ok (t, ticks, upd_bank k (set_preAllowedAt t) r)
        else '(pre_at, ticks) ← verify i false 0 ticks t;
             Ok (pre_at, ticks, upd_all (delay_pre (pre_at + tPPD i)) r));
     Ok (pre_at, ticks, upd_bank k (delay_act (pre_at + tRP i)) r)) =
      Ok (pre_at, ticks', r1) ∧ r1 = set_banks bs r ∧
    t ≤ pre_at ∧ (auto = true → pre_at = t) ∧ length bs = length (banks r) ∧
    active (banks r) = active bs + 1 ∧
    ∀ k' b', bs !! k' = Some b' → ∃ b, banks r !! k' = Some b ∧ precharged auto k pre_at k' b b'.
Proof.
  intros Hi Ht Hk Hrow Hpre. unfold upd_bank, upd_all. cbv zeta.
  assert (Hn : ∀ f, (∀ b, openRow (f b) = NO_ROW) → active (banks r) = active (alter f k (banks r)) + 1).
  { intros f Hf. pose proof (active_alter f k _ _ Hk) as H1. rewrite Hf in H1.
    rewrite decide_True in H1 by done. rewrite decide_False in H1 by (intros []; done). lia. }
  destruct auto.
  - eexists _, _, _, _. cbn [mbind res_bind]. split; [done|]. split; [done|]. split; [lia|]. split; [done|].
    cbn [banks set_banks]. split; [by rewrite !length_alter|].
    split; [rewrite !alter_alter; by apply Hn|].
    intros k' b' (b1 & Hb1 & ->)%lookup_alter_if.
    apply lookup_alter_if in Hb1 as (b2 & Hb2 & ->). apply lookup_alter_if in Hb2 as (b & Hb & ->).
    exists b. split; [done|]. destruct (decide (k = k')) as [<-|Hne]; [simplify_eq|].
    + constructor; rewrite ?decide_True by done; try done; [|simpl; lia]. intros []; simpl; lia.
    + constructor; rewrite ?decide_False by done; done.
  - destruct (verify_ok false 0 ticks t Hi) as (a & ticks' & -> & Ha); [lia|].
    eexists _, _, _, _. cbn [mbind res_bind]. split; [done|]. split; [done|]. split; [lia|]. split; [done|].
    cbn [banks set_banks]. split; [by rewrite length_alter, length_fmap, length_alter|].
    split; [rewrite active_alter_same, active_fmap by done; by apply Hn|].
    intros k' b' (b1 & Hb1 & ->)%lookup_alter_if.
    rewrite list_lookup_fmap in Hb1. apply fmap_Some in Hb1 as (b2 & Hb2 & ->).
    apply lookup_alter_if in Hb2 as (b & Hb & ->).
    exists b. split; [done|]. destruct (decide (k = k')) as [<-|Hne].
    + constructor; rewrite ?decide_True by done; try done; [|simpl; lia]. intros []; simpl; lia.
    + constructor; rewrite ?decide_False by done; try done. intros []; simpl; lia.
Qed.

Lemma prechargeBank_ok now ticks r k b0 t (auto trace : bool) : timing_ok → 0 ≤ now ≤ t →
  banks r !! k = Some b0 → openRow b0 ≠ NO_ROW → preAllowedAt b0 ≤ t →
  numBanksActive r = active (banks r) → Z.of_nat (length (banks r)) = banksPerRank i →
  now ≤ horizon now r →
  ∃ pre_at ticks' r', prechargeBank i now ticks r k t auto trace = Ok (ticks', r') ∧ t ≤ pre_at ∧
    (auto = true → pre_at = t) ∧ same_state r r' ∧
    cmdList r' = cmdList r ++ (if trace then [mkCommand PRE (bank b0) pre_at] else []) ∧
    numBanksActive r' = active (banks r') ∧ active (banks r) = active (banks r') + 1 ∧
    actTicks r' = actTicks r ∧ horizon now r ≤ horizon now r' ∧ pre_at + tRP i ≤ horizon now r' ∧
    ∀ k' b', banks r' !! k' = Some b' → ∃ b, banks r !! k' = Some b ∧
      precharged auto k pre_at k' b b'.
Proof.
  intros Hi Ht Hk Hrow Hpre Hact Hlen Hh. unfold prechargeBank, get_bank.
  rewrite Hk. cbn [mbind res_bind]. rewrite (proj2 (Z.eqb_neq _ _) Hrow).
  cbn [negb assertb mbind res_bind].
  destruct (precharge_times_ok now ticks r k b0 t auto Hi Ht Hk Hrow Hpre)
    as (a & ticks' & bs & r0 & Heq & H & Ha & Haut & Hl & Hn & Hb). cbv zeta in Heq.
  match type of Heq with mbind _ ?m = _ => destruct m as [[[a' ticks1] r1]|]; [|done] end.
  cbn [mbind res_bind] in *. inv_ok.
  pose proof (active_nonneg bs). pose proof (active_le (banks r)).
  assert (Hnum : numBanksActive (upd_bank k (delay_act (a + tRP i)) r1) = active bs + 1)
    by (rewrite H; simpl; lia).
  rewrite H, (proj2 (Z.eqb_neq _ 0)) by (simpl; lia).
  cbn [negb assertb mbind res_bind].
  match goal with |- context [set_numBanksActive ?n ?x] =>
    replace n with (active bs) by (simpl; rewrite u32_small; destruct Hi; lia);
    set (r2 := if trace then _ else set_numBanksActive (active bs) x) end.
  assert (H2 : same_state r r2 ∧ banks r2 = bs ∧ evs r2 = evs r ∧ actTicks r2 = actTicks r ∧
    numBanksActive r2 = active bs ∧
    cmdList r2 = cmdList r ++ (if trace then [mkCommand PRE (bank b0) a] else [])).
  { unfold r2. destruct trace; (split; [by constructor|]); split_and!; try done. by rewrite app_nil_r. }
  destruct H2 as ([] & Hb2 & He2 & Ha2 & Hn2 & Hc2).
  assert (Hhor : horizon now r2 = horizon now r) by (unfold horizon; by rewrite He2).
  destruct (precharge_event_ok now ticks' r2 (a + tRP i)) as (n & e & He & Hs & Hw & Hd);
    [destruct Hi; lia|lia|].
  cbv zeta in He. rewrite He. exists a, ticks'. eexists. split; [done|].
  split_and!; [done|done|by constructor|done|simpl; congruence|simpl; congruence|done|..].
  - unfold horizon at 2. simpl. rewrite Hs. lia.
  - unfold horizon. simpl. rewrite Hs. lia.
  - simpl. by rewrite Hb2.
Qed.

(** ** Preservation *)

Lemma elem_of_acts j log a : a ∈ acts j log → ∃ c, (j, c) ∈ log ∧ c_type c = ACT ∧ timeStamp c = a.
Proof.
  induction log as [|[j' c] log IH]; simpl; [by intros ?%not_elem_of_nil|].
  case_bool_decide as Hd; [destruct Hd as [<- Hc]|]; rewrite ?elem_of_cons.
  - intros [->|Ha]; [exists c; rewrite elem_of_cons; auto|].
    destruct (IH Ha) as (c' & ? & ?). exists c'. rewrite elem_of_cons. auto.
  - intros Ha. destruct (IH Ha) as (c' & ? & ?). exists c'. rewrite elem_of_cons. auto.
Qed.

Lemma take_acts_length (l : list Tick) n : length (take n (l ++ replicate n 0)) = n.
Proof. rewrite length_take, length_app, length_replicate. lia. Qed.

(** One activate more: the window forgets its oldest entry. *)
Lemma take_acts_cons (l : list Tick) n t :
  take n (t :: l ++ replicate n 0) =
  match take n (l ++ replicate n 0) with [] => [] | k => t :: removelast k end.
Proof.
  destruct n as [|n]; [done|].
  pose proof (take_acts_length l (S n)) as Hlen.
  destruct (take (S n) _) as [|x k] eqn:Hk; [done|].
  rewrite firstn_cons. f_equal. rewrite <- Hk.
  rewrite removelast_firstn; [done|]. rewrite length_app, length_replicate. lia.
Qed.

Lemma act_spacing j b t j' k q d : spacing j (mkCommand ACT b t) j' k q = Some d →
  j' = j ∧ match q with
    | KAct => d = if same_group b (Z.of_nat k) then tRRD_L i else tRRD i
    | KRead | KWrite => b = Z.of_nat k ∧ d = tRCD i
    | KPre => b = Z.of_nat k ∧ d = tRAS i
    end.
Proof.
  unfold spacing. simpl.
  destruct q; case_bool_decide; simpl; try case_if; naive_solver.
Qed.

Lemma pre_spacing j c j' k d : spacing j c j' k KPre = Some d → j = j' ∧ c_bank c = Z.of_nat k.
Proof.
  unfold spacing. destruct (c_type c); try done; case_bool_decide; simpl; try done;
    destruct (Z.eqb_spec (c_bank c) (Z.of_nat k)); naive_solver.
Qed.

Lemma oldest_acts (l : list Tick) n t : l !! n = Some t → oldest (take (S n) (l ++ replicate (S n) 0)) = t.
Proof.
  intros Hl. unfold oldest. rewrite last_lookup, take_acts_length. simpl pred.
  rewrite lookup_take_lt by lia. by rewrite lookup_app_l, Hl by (by eapply lookup_lt_Some).
Qed.

(** Commands that constrain other ranks too. *)
Definition is_column (c : Command) : bool := match c_type c with RD | WR => true | _ => false end.

(** The rows and the recorded activates of a rank stay, its times only grow. *)
Record raised (r r' : Rank) : Prop := {
  ra_length : length (banks r') = length (banks r);
  ra_bank k b' : banks r' !! k = Some b' → ∃ b, banks r !! k = Some b ∧
    bank b' = bank b ∧ bankgr b' = bankgr b ∧ openRow b' = openRow b ∧ ∀ q, allowed q b ≤ allowed q b';
  ra_active : numBanksActive r' = numBanksActive r;
  ra_acts : actTicks r' = actTicks r;
  ra_event : prechargeEvent (evs r') = prechargeEvent (evs r);
}.

Lemma raised_refl r : raised r r.
Proof. constructor; try done. intros k b Hk. exists b. split_and!; try done. Qed.

Lemma raised_trans r1 r2 r3 : raised r1 r2 → raised r2 r3 → raised r1 r3.
Proof.
  intros [Hl Hb Hn Ha He] [Hl' Hb' Hn' Ha' He']. constructor; try congruence.
  intros k b3 Hk. destruct (Hb' k b3 Hk) as (b2 & Hk2 & ? & ? & ? & Hq').
  destruct (Hb k b2 Hk2) as (b1 & Hk1 & ? & ? & ? & Hq). exists b1.
  split_and!; try congruence. intros q. specialize (Hq q). specialize (Hq' q). lia.
Qed.

Lemma active_ext l l' : length l' = length l →
  (∀ (k : nat) b', l' !! k = Some b' → ∃ b, l !! k = Some b ∧ openRow b' = openRow b) → active l' = active l.
Proof.
  revert l'. induction l as [|b l IH]; intros [|b' l'] Hl Hb; try done.
  rewrite !active_cons. destruct (Hb 0%nat b' eq_refl) as (? & [= <-] & ->). f_equal.
  apply IH; [by injection Hl|]. intros k. apply (Hb (S k)).
Qed.

Lemma raised_active r r' : raised r r' → active (banks r') = active (banks r).
Proof.
  intros [Hl Hb _ _ _]. apply active_ext; [done|]. intros k b' Hk.
  destruct (Hb k b' Hk) as (b & ? & _ & _ & ? & _). eauto.
Qed.

(** A command that leaves the rows of rank [j] alone. *)
Definition quiet (j jr : nat) (c : Command) : Prop :=
  match c_type c with ACT | PRE | PREA | REF => j ≠ jr | _ => True end.

Lemma quiet_rows j jr c k log : quiet j jr c → is_open j k ((jr, c) :: log) = is_open j k log.
Proof. unfold quiet. simpl. case_bool_decide; [|done]. by destruct (c_type c). Qed.

Lemma quiet_acts j jr c log : quiet j jr c → acts j ((jr, c) :: log) = acts j log.
Proof.
  unfold quiet. simpl. case_bool_decide as Hd; [|done]. destruct Hd as [-> ->]. done.
Qed.

Section Rank.
Context (Hi : timing_ok) (log : Log) (now : Tick) (j : nat) (r : Rank).
Hypothesis Hnow : 0 ≤ now.
Hypothesis Hinv : rank_inv log now j r.

Lemma rank_window k b t : banks r !! k = Some b → actAllowedAt b ≤ t → now ≤ t →
  (∀ a, a ∈ actTicks r → a ≤ t) ∧ ∀ a, t ≤ a → window_full i a (actTicks r) = false.
Proof.
  intros Hk Hb Ht. destruct (ri_banks _ _ _ _ Hinv k b Hk) as [_ _ Hdom _ _ Hwin].
  assert (Hle : ∀ a, a ∈ actTicks r → a ≤ t).
  { intros a. rewrite (ri_acts _ _ _ _ Hinv). intros (m & Hm & _)%elem_of_take.
    apply list_elem_of_lookup_2, elem_of_app in Hm as [Ha|Ha].
    - apply elem_of_acts in Ha as (c & Hc & Hty & <-).
      assert (∃ d, spacing j c j k KAct = Some d ∧ 0 ≤ d) as (d & Hd & Hpos).
      { unfold spacing. rewrite Hty, bool_decide_true by done. eexists. split; [done|].
        destruct Hi; case_if; lia. }
      specialize (Hdom j c KAct d Hc Hd). simpl in Hdom. lia.
    - apply elem_of_replicate in Ha as [-> _]. lia. }
  split; [done|]. intros a Ha. unfold window_full. destruct (last (actTicks r)) as [o|] eqn:Ho; [|done].
  unfold oldest in Hwin. rewrite Ho in Hwin. simpl in Hwin. apply last_Some_elem_of in Ho.
  specialize (Hle o Ho). destruct Hwin as [->|Hw]; [done|].
  unfold usub. rewrite (proj2 (Z.leb_le _ _)) by lia. rewrite (proj2 (Z.ltb_ge _ _)) by lia. apply andb_false_r.
Qed.

Lemma activate_may_follow k b0 t : banks r !! k = Some b0 → openRow b0 = NO_ROW →
  actAllowedAt b0 ≤ t → may_follow log j (mkCommand ACT (Z.of_nat k) t).
Proof.
  intros Hk Hrow Ht. destruct (ri_banks _ _ _ _ Hinv k b0 Hk) as [_ _ Hdom _ Hopen Hwin].
  constructor; simpl.
  - intros j0 c0 k' q d Hin Htg _ Hs. destruct q; try done. apply Nat2Z.inj in Htg as ->.
    specialize (Hdom j0 c0 KAct d Hin Hs). simpl in Hdom. lia.
  - intros k' <-%Nat2Z.inj. by rewrite <- Hopen, Hrow, bool_decide_false by auto.
  - intros a _ Hl Ha. revert Hwin. rewrite (ri_acts _ _ _ _ Hinv).
    replace (Z.to_nat (activationLimit i)) with (S (Z.to_nat (activationLimit i - 1))) by lia.
    rewrite (oldest_acts _ _ a Ha). lia.
Qed.

Lemma activate_bank_inv k b0 t row old H k' b b' : banks r !! k = Some b0 → openRow b0 = NO_ROW →
  row ≠ NO_ROW → actAllowedAt b0 ≤ t → banks r !! k' = Some b → H = horizon now r →
  activated b0 k t row old k' b b' →
  bank_inv ((j, mkCommand ACT (Z.of_nat k) t) :: log) H old j k' b'.
Proof.
  intros Hk Hrow Hne Ht Hk' -> [[Hb Hg] Hr Hpre Hmono Hcol Hact Hw].
  pose proof (ri_banks _ _ _ _ Hinv k b0 Hk) as [Hbk0 Hgr0 _ Hcl0 _ _].
  pose proof (ri_banks _ _ _ _ Hinv k' b Hk') as [Hbk Hgr Hdom Hcl Hop _].
  constructor; [congruence..| | | |done].
  - intros j0 c q d [[= -> ->]|Hin]%elem_of_cons Hs.
    + apply act_spacing in Hs as [_ Hs]. destruct q; simpl.
      * unfold act_delay, same_group in *. rewrite Hgr0, Hgr in Hact. subst d. done.
      * destruct Hs as [->%Nat2Z.inj ->]. by apply Hcol.
      * destruct Hs as [->%Nat2Z.inj ->]. by apply Hcol.
      * destruct Hs as [->%Nat2Z.inj ->]. rewrite Hpre, decide_True by done. simpl. lia.
    + specialize (Hdom j0 c q d Hin Hs). destruct q; simpl in *; [lia..|].
      rewrite Hpre. case_decide as Hd; [subst k'; simplify_eq|lia].
      apply pre_spacing in Hs as Hj. destruct Hj as [-> _].
      destruct (Hcl0 c d Hrow Hin Hs). destruct Hi; lia.
  - intros c d Hro Hin Hs. rewrite Hr in Hro. case_decide as Hd; [done|].
    apply elem_of_cons in Hin as [[= ->]|Hin].
    + apply pre_spacing in Hs as [_ Hs]. simpl in Hs. lia.
    + destruct (Hcl c d Hro Hin Hs). lia.
  - simpl. rewrite (bool_decide_true (j = j)) by done. rewrite Hr, <- Hop.
    case_decide as Hd; [subst; rewrite Z.eqb_refl, bool_decide_true by done; done|].
    by rewrite (proj2 (Z.eqb_neq _ _)) by lia.
Qed.

(** [activateBank] opens the row, legally. *)
Lemma rank_activate ticks k b0 row : banks r !! k = Some b0 → openRow b0 = NO_ROW → row ≠ NO_ROW →
  ∃ c ticks' r', activateBank i now ticks r k (Z.max (actAllowedAt b0) now) row = Ok (ticks', r') ∧
    same_state r r' ∧ cmdList r' = cmdList r ++ [c] ∧ c_type c = ACT ∧ may_follow log j c ∧
    rank_inv ((j, c) :: log) now j r' ∧
    ∃ b', banks r' !! k = Some b' ∧ openRow b' = row.
Proof.
  intros Hk Hrow Hne. destruct (rank_window k b0 (Z.max (actAllowedAt b0) now) Hk) as [Hle Hwin]; [lia..|].
  pose proof (ri_banks _ _ _ _ Hinv k b0 Hk) as Hb0.
  destruct (activateBank_ok now ticks r k b0 (Z.max (actAllowedAt b0) now) row Hi)
    as (a & ticks' & r' & Heq & Ha & Hss & Hc & Hev & Hn & Hat & Hb); try done; try apply Hinv; [lia| |].
  { rewrite (ri_acts _ _ _ _ Hinv), take_acts_length. destruct Hi; lia. }
  rewrite (bi_bank _ _ _ _ _ _ Hb0) in Hc.
  exists (mkCommand ACT (Z.of_nat k) a), ticks', r'. split; [done|]. split; [done|]. split; [done|].
  split; [done|]. split; [by apply activate_may_follow with b0; [..|lia]|].
  assert (Hhor : horizon now r' = horizon now r) by (unfold horizon; by rewrite Hev).
  split.
  - constructor; rewrite ?Hhor; try apply Hinv.
    + intros k' b' Hk'. destruct (Hb k' b' Hk') as (b & Hk1 & Hac).
      eapply activate_bank_inv; eauto; lia.
    + rewrite (ss_length _ _ Hss). apply Hinv.
    + done.
    + rewrite Hat, (ri_acts _ _ _ _ Hinv). simpl. rewrite bool_decide_true by done.
      by rewrite <- take_acts_cons.
    + intros c [[= ->]|Hin]%elem_of_cons; [simpl; naive_solver|]. by apply Hinv.
    + intros c [[= ->]|Hin]%elem_of_cons; [done|]. by apply Hinv.
    + intros c [[= ->]|Hin]%elem_of_cons; [|by apply Hinv]. exists k. split; [done|].
      rewrite <- (ri_length _ _ _ _ Hinv). apply lookup_lt_Some in Hk. lia.
  - destruct (lookup_lt_is_Some_2 (banks r') k) as [b' Hb'].
    { rewrite (ss_length _ _ Hss). by eapply lookup_lt_Some. }
    exists b'. split; [done|]. destruct (Hb k b' Hb') as (b & _ & [_ Hr _ _ _ _ _]).
    by rewrite decide_True in Hr.
Qed.

Lemma precharge_may_follow k b0 t : banks r !! k = Some b0 → openRow b0 ≠ NO_ROW →
  preAllowedAt b0 ≤ t → may_follow log j (mkCommand PRE (Z.of_nat k) t).
Proof.
  intros Hk Hrow Ht. destruct (ri_banks _ _ _ _ Hinv k b0 Hk) as [_ _ Hdom _ Hopen _].
  constructor; [|exists k; by rewrite <- Hopen, bool_decide_true|done].
  intros j0 c0 k' q d Hin Htg _ Hs. destruct q; try done. apply Nat2Z.inj in Htg as ->.
  specialize (Hdom j0 c0 KPre d Hin Hs). simpl in *. lia.
Qed.

Lemma precharge_bank_inv auto k b0 t H k' b b' : banks r !! k = Some b0 →
  preAllowedAt b0 ≤ t → banks r !! k' = Some b → horizon now r ≤ H → t + tRP i ≤ H →
  precharged auto k t k' b b' →
  bank_inv ((j, mkCommand PRE (Z.of_nat k) t) :: log) H (oldest (actTicks r)) j k' b'.
Proof.
  intros Hk Ht Hk' HH Hdone [[Hb Hg] Hr Hmono Hact _].
  pose proof (ri_banks _ _ _ _ Hinv k' b Hk') as [Hbk Hgr Hdom Hcl Hop Hw].
  pose proof (Hmono KAct) as Hma. simpl in Hma.
  constructor; [congruence..| | | |lia].
  - intros j0 c q d [[= -> ->]|Hin]%elem_of_cons Hs.
    + unfold spacing in Hs. simpl in Hs. rewrite bool_decide_true in Hs by done.
      destruct q; try done. simpl in *. destruct (Z.eqb_spec (Z.of_nat k) (Z.of_nat k')); [|done].
      injection Hs as <-. apply Hact. lia.
    + specialize (Hdom j0 c q d Hin Hs). specialize (Hmono q). lia.
  - intros c d Hro Hin Hs. apply elem_of_cons in Hin as [[= ->]|Hin]; [done|].
    rewrite Hr in Hro. case_decide as Hd.
    + subst k'. simplify_eq. specialize (Hdom j c KPre d Hin Hs). simpl in Hdom.
      specialize (Hact eq_refl). lia.
    + destruct (Hcl c d Hro Hin Hs). lia.
  - simpl. rewrite (bool_decide_true (j = j)) by done. rewrite Hr, <- Hop.
    case_decide as Hd; [subst; by rewrite Z.eqb_refl, bool_decide_false by auto|].
    by rewrite (proj2 (Z.eqb_neq _ _)) by lia.
Qed.

(** [prechargeBank] closes the row, legally. *)
Lemma rank_precharge ticks k b0 t auto : banks r !! k = Some b0 → openRow b0 ≠ NO_ROW →
  preAllowedAt b0 ≤ t → now ≤ t →
  ∃ c ticks' r', prechargeBank i now ticks r k t auto true = Ok (ticks', r') ∧
    same_state r r' ∧ cmdList r' = cmdList r ++ [c] ∧ c_type c = PRE ∧ may_follow log j c ∧
    rank_inv ((j, c) :: log) now j r' ∧
    ∃ b', banks r' !! k = Some b' ∧ openRow b' = NO_ROW.
Proof.
  intros Hk Hrow Hpre Ht. pose proof (ri_banks _ _ _ _ Hinv k b0 Hk) as Hb0.
  destruct (prechargeBank_ok now ticks r k b0 t auto true Hi)
    as (a & ticks' & r' & Heq & Ha & _ & Hss & Hc & Hn & _ & Hat & Hh & Hd & Hb);
    try done; try apply Hinv; try lia.
  rewrite (bi_bank _ _ _ _ _ _ Hb0) in Hc.
  exists (mkCommand PRE (Z.of_nat k) a), ticks', r'. split; [done|]. split; [done|]. split; [done|].
  split; [done|]. split; [by apply precharge_may_follow with b0; [..|lia]|]. split.
  - constructor.
    + intros k' b' Hk'. destruct (Hb k' b' Hk') as (b & Hk1 & Hpc). rewrite Hat.
      eapply precharge_bank_inv; eauto; lia.
    + rewrite (ss_length _ _ Hss). apply Hinv.
    + done.
    + rewrite Hat. simpl. rewrite bool_decide_false by naive_solver. apply Hinv.
    + intros c [[= ->]|Hin]%elem_of_cons Hty; [done|].
      pose proof (ri_pre _ _ _ _ Hinv c Hin Hty). lia.
    + intros c [[= ->]|Hin]%elem_of_cons; [done|]. by apply Hinv.
    + pose proof (ri_event _ _ _ _ Hinv). lia.
    + intros c [[= ->]|Hin]%elem_of_cons; [done|]. by apply Hinv.
  - destruct (lookup_lt_is_Some_2 (banks r') k) as [b' Hb'].
    { rewrite (ss_length _ _ Hss). by eapply lookup_lt_Some. }
    exists b'. split; [done|]. destruct (Hb k b' Hb') as (b & _ & [_ Hr _ _ _]).
    by rewrite decide_True in Hr.
Qed.

Lemma rank_raise r' : raised r r' → rank_inv log now j r'.
Proof.
  intros Hr. pose proof (raised_active _ _ Hr) as Hact. destruct Hr as [Hl Hb Hn Ha He].
  assert (Hh : horizon now r' = horizon now r) by (unfold horizon; by rewrite He).
  constructor; rewrite ?Hh, ?Ha, ?Hl; try apply Hinv.
  - intros k b' Hk. destruct (Hb k b' Hk) as (b & Hkb & Hid & Hgr & Hro & Hq).
    destruct (ri_banks _ _ _ _ Hinv k b Hkb) as [Hbk Hbg Hdom Hcl Hop Hw].
    specialize (Hq KAct) as Hqa. simpl in Hqa.
    constructor; [congruence..| | |by rewrite Hro|lia].
    + intros j0 c q d Hin Hs. specialize (Hdom j0 c q d Hin Hs). specialize (Hq q). lia.
    + intros c d Hrow Hin Hs. rewrite Hro in Hrow. specialize (Hcl c d Hrow Hin Hs). lia.
  - rewrite Hn, Hact. apply Hinv.
Qed.

(** A command of rank [jr] that is respected by the times of this rank. *)
Lemma rank_extend jr c r' : quiet j jr c → raised r r' →
  (∀ k b' q d, banks r' !! k = Some b' → spacing jr c j k q = Some d → timeStamp c + d ≤ allowed q b') →
  (∀ k b' d, banks r' !! k = Some b' → spacing jr c j k KPre = Some d → openRow b' ≠ NO_ROW) →
  rank_inv ((jr, c) :: log) now j r'.
Proof.
  intros Hquiet Hr Hnew Hpre. pose proof (rank_raise r' Hr) as Hinv'. constructor; try apply Hinv'.
  - intros k b' Hk. destruct (ri_banks _ _ _ _ Hinv' k b' Hk) as [Hbk Hbg Hdom Hcl Hop Hw].
    constructor; try done.
    + intros j0 c0 q d [[= -> ->]|Hin]%elem_of_cons Hs; eauto.
    + intros c0 d Hrow [[= -> ->]|Hin]%elem_of_cons Hs; [|eauto]. by destruct (Hpre k b' d Hk Hs).
    + by rewrite quiet_rows.
  - rewrite quiet_acts by done. apply Hinv'.
  - intros c0 [[= -> ->]|Hin]%elem_of_cons Hty; [|by apply Hinv'].
    unfold quiet in Hquiet. destruct Hty as [Hty|Hty]; by rewrite Hty in Hquiet.
  - intros c0 [[= -> ->]|Hin]%elem_of_cons Hty; [|by apply Hinv'].
    unfold quiet in Hquiet. by rewrite Hty in Hquiet.
  - intros c0 [[= -> ->]|Hin]%elem_of_cons Hty; [|by apply Hinv'].
    unfold quiet in Hquiet. by rewrite Hty in Hquiet.
Qed.

(** Row commands of another rank, and power commands. *)
Lemma rank_frame jr c : quiet j jr c → is_column c = false → rank_inv ((jr, c) :: log) now j r.
Proof.
  intros Hq Hc. assert (Hs : ∀ k q, spacing jr c j k q = None).
  { intros k q. unfold quiet, is_column, spacing in *.
    destruct (c_type c); try done; destruct q; try done; by rewrite bool_decide_false by auto. }
  apply rank_extend; [done|apply raised_refl|intros k b' q d _; by rewrite Hs|].
  intros k b' d _. by rewrite Hs.
Qed.

End Rank.

(** ** Sequences of commands on one rank *)

Definition issue (j : nat) (cmds : list Command) (log : Log) : Log :=
  foldl (λ log c, (j, c) :: log) log cmds.

Lemma issue_app j cs cs' log : issue j (cs ++ cs') log = issue j cs' (issue j cs log).
Proof. apply foldl_app. Qed.

(** Rank [j] issued [cmds], legally, and becomes [r']. *)
Record issued (log : Log) (now : Tick) (j : nat) (r : Rank) (cmds : list Command) (r' : Rank) :
    Prop := {
  is_cmds : cmdList r' = cmdList r ++ cmds;
  is_rows : Forall (λ c, is_column c = false) cmds;
  is_legal : legal log → legal (issue j cmds log);
  is_inv : rank_inv (issue j cmds log) now j r';
}.

Lemma issued_nil log now j r r' : rank_inv log now j r → raised r r' → cmdList r' = cmdList r →
  issued log now j r [] r'.
Proof.
  intros Hinv Hr Hc. constructor; [by rewrite app_nil_r|constructor|done|]. by eapply rank_raise.
Qed.

Lemma issued_trans log now j r1 cs1 r2 cs2 r3 : issued log now j r1 cs1 r2 →
  issued (issue j cs1 log) now j r2 cs2 r3 → issued log now j r1 (cs1 ++ cs2) r3.
Proof.
  intros [Hc1 Hr1 Hl1 Hi1] [Hc2 Hr2 Hl2 Hi2]. constructor.
  - by rewrite Hc2, Hc1, app_assoc.
  - by apply Forall_app.
  - rewrite issue_app. auto.
  - by rewrite issue_app.
Qed.

Lemma issued_one log now j r c r' : cmdList r' = cmdList r ++ [c] → is_column c = false →
  may_follow log j c → rank_inv ((j, c) :: log) now j r' → issued log now j r [c] r'.
Proof. intros Hc Hty Hm Hinv. constructor; [done|by constructor| |done]. by split. Qed.

(** Other ranks do not notice. *)
Lemma frame_issue log now j jr cmds r : j ≠ jr → rank_inv log now j r →
  Forall (λ c, is_column c = false) cmds → rank_inv (issue jr cmds log) now j r.
Proof.
  intros Hj. revert log; induction cmds as [|c cmds IH]; intros log Hinv Hc; [done|].
  inversion_clear Hc. apply IH; [|done]. apply rank_frame; [done| |done].
  unfold quiet. by destruct (c_type c).
Qed.

Lemma open_row_ok log now j r ticks k b row : timing_ok → 0 ≤ now → rank_inv log now j r →
  banks r !! k = Some b → row ≠ NO_ROW →
  ∃ ticks' r' cmds, open_row i now ticks r k row = Ok (ticks', r') ∧ same_state r r' ∧
    issued log now j r cmds r' ∧ ∃ b', banks r' !! k = Some b' ∧ openRow b' = row.
Proof.
  intros Hi Hnow Hinv Hk Hrow. unfold open_row, get_bank. rewrite Hk. cbn [mbind res_bind].
  destruct (Z.eqb_spec (openRow b) row) as [Heq|Hne].
  { exists ticks, r, []. split; [done|]. split; [by constructor|].
    split; [by apply issued_nil; [|apply raised_refl|]|]. eauto. }
  destruct (Z.eqb_spec (openRow b) NO_ROW) as [Hno|Hno]; cbn [negb mbind res_bind].
  - rewrite Hk. cbn [mbind res_bind].
    destruct (rank_activate Hi log now j r Hnow Hinv ticks k b row Hk Hno Hrow)
      as (c & ticks' & r' & -> & Hss & Hc & Hty & Hm & Hinv' & Hb').
    exists ticks', r', [c]. split; [done|]. split; [done|]. split; [|done].
    apply issued_one; try done. unfold is_column. by rewrite Hty.
  - destruct (rank_precharge Hi log now j r Hnow Hinv ticks k b (Z.max (preAllowedAt b) now) false)
      as (c & ticks1 & r1 & -> & Hss & Hc & Hty & Hm & Hinv1 & b1 & Hk1 & Hr1); [done|done|lia..|].
    cbn [mbind res_bind]. rewrite Hk1. cbn [mbind res_bind].
    destruct (rank_activate Hi _ now j r1 Hnow Hinv1 ticks1 k b1 row Hk1 Hr1 Hrow)
      as (c2 & ticks2 & r2 & -> & Hss2 & Hc2 & Hty2 & Hm2 & Hinv2 & Hb2).
    exists ticks2, r2, ([c] ++ [c2]). split; [done|].
    split; [destruct Hss, Hss2; constructor; congruence|]. split; [|done].
    eapply issued_trans; apply issued_one; try done; unfold is_column; by rewrite ?Hty, ?Hty2.
Qed.

(** *** Power commands *)

Definition inert (c : Command) : bool :=
  match c_type c with
  | PDN_F_ACT | PDN_F_PRE | PUP_ACT | PUP_PRE | SREN | SREX => true
  | _ => false
  end.

Lemma issued_inert log now j r cmds r' : rank_inv log now j r → raised r r' →
  cmdList r' = cmdList r ++ cmds → Forall (λ c, inert c = true) cmds → issued log now j r cmds r'.
Proof.
  intros Hinv Hr Hc Hin. constructor; [done|..].
  - eapply Forall_impl; [done|]. intros c. unfold inert, is_column. by destruct (c_type c).
  - clear Hc. revert log Hinv. induction Hin as [|c cmds Hc _ IH]; intros log Hinv Hl; [done|].
    apply IH; [|split; [|done]].
    + apply rank_frame; [done|..]; unfold inert, quiet, is_column in *; by destruct (c_type c).
    + unfold inert in Hc. constructor; [|by destruct (c_type c)..].
      intros j0 c0 k q t _ Htg. unfold targets in Htg. by destruct (c_type c), q.
  - clear Hc. apply (rank_raise log now j r Hinv) in Hr. clear Hinv. revert log Hr.
    induction Hin as [|c cmds Hc _ IH]; intros log Hinv; [done|]. apply IH.
    apply rank_frame; [done|..]; unfold inert, quiet, is_column in *; by destruct (c_type c).
Qed.

Lemma raised_upd_all f r : (∀ b, bank (f b) = bank b ∧ bankgr (f b) = bankgr b ∧
  openRow (f b) = openRow b ∧ ∀ q, allowed q b ≤ allowed q (f b)) → raised r (upd_all f r).
Proof.
  intros Hf. constructor; try done; simpl; [by rewrite length_fmap|].
  intros k b'. rewrite list_lookup_fmap. intros (b & Hb & ->)%fmap_Some. exists b. split; [done|apply Hf].
Qed.

Lemma wake_cmd_shape st t r : ∃ cmds,
  wake_cmd st t r = set_cmds (cmdList r ++ cmds) (sent r) r ∧ Forall (λ c, inert c = true) cmds.
Proof.
  destruct st; simpl; first [by exists []; rewrite app_nil_r; split; [destruct r|]|
    eexists [_]; split; [done|]; by repeat constructor].
Qed.

Lemma scheduleWakeUpEvent_ok now d r : scheduled (wakeUpEvent (evs r)) = false →
  ∃ r' cmds, scheduleWakeUpEvent now d r = Ok r' ∧ raised r r' ∧ cmdList r' = cmdList r ++ cmds ∧
    Forall (λ c, inert c = true) cmds ∧ refreshState r' = refreshState r ∧
    inLowPowerState (pw r') = false.
Proof.
  intros Hw. unfold scheduleWakeUpEvent. rewrite dev_schedule_ok by (done || lia). cbn [mbind res_bind].
  set (t := Z.max now (wakeUpAllowedAt (pw r)) + d).
  assert (Hr : raised r (upd_all (λ b, delay_cols t t (delay_pre t (delay_act t b))) r)).
  { apply raised_upd_all. intros b. split_and!; try done. intros []; simpl; lia. }
  match goal with |- context [wake_cmd ?x ?y ?z] => destruct (wake_cmd_shape x y z) as (cmds & -> & Hc) end.
  eexists _, cmds. split; [done|]. split; [destruct Hr; by constructor|]. done.
Qed.

(** *** Column commands *)

Definition column (p : QPacket) (k : nat) (t : Tick) : Command :=
  mkCommand (if isRead p then RD else WR) (Z.of_nat k) t.

Lemma burst_at_ok ticks r t : timing_ok → 0 ≤ t →
  ∃ c gap ticks', burst_at i ticks r t = Ok (c, gap, ticks') ∧ t ≤ c ∧ tBURST_MIN i ≤ gap.
Proof.
  intros Hi Ht. unfold burst_at.
  match goal with |- context [verify i ?x ?y ticks t] =>
    destruct (verify_ok x y ticks t Hi Ht) as (c & ticks' & -> & Hc) end.
  cbn [mbind res_bind]. destruct (burstInterleave i); [case_if; [|case_if]|];
    do 3 eexists; (split; [done|]); destruct Hi; lia.
Qed.

(** The delays of the code are those of the device. *)
Lemma col_delays_spacing p b0 b gap jr k0 j k t q d : tBURST_MIN i ≤ gap →
  Nvm.l_rank (loc p) = Z.of_nat jr → bankgr b0 = group (Z.of_nat k0) → bankgr b = group (Z.of_nat k) →
  spacing jr (column p k0 t) j k q = Some d →
  match q with
  | KAct => False
  | KRead => d ≤ (col_delays i p b0 gap j b).1
  | KWrite => d ≤ (col_delays i p b0 gap j b).2
  | KPre => jr = j ∧ k0 = k ∧ d = if isRead p then tRTP i else tCL i + tBURST i + tWR i
  end.
Proof.
  intros Hgap Hr Hg0 Hg Hs.
  assert (Hrk : (Z.of_nat jr =? Z.of_nat j) = bool_decide (jr = j))
    by (case_bool_decide; [by subst; apply Z.eqb_refl|apply Z.eqb_neq; lia]).
  unfold col_delays. rewrite Hr, Hrk, Hg0, Hg. unfold spacing, column, same_group in Hs. simpl in Hs.
  set (sg := bankGroupArch i && (group (Z.of_nat k0) =? group (Z.of_nat k))) in *. clearbody sg.
  destruct (bool_decide (jr = j)) eqn:Hj, sg, q, (isRead p); simpl in *;
    simplify_eq/=; try lia.
  all: apply bool_decide_eq_true in Hj; destruct (Z.eqb_spec (Z.of_nat k0) (Z.of_nat k)); [|done].
  all: split_and!; [done|lia|congruence].
Qed.

Lemma column_may_follow log now j r p k b t : rank_inv log now j r → banks r !! k = Some b →
  openRow b ≠ NO_ROW → (if isRead p then rdAllowedAt b else wrAllowedAt b) ≤ t →
  may_follow log j (column p k t).
Proof.
  intros Hinv Hk Hrow Ht. destruct (ri_banks _ _ _ _ Hinv k b Hk) as [_ _ Hdom _ Hopen _].
  constructor; unfold column; simpl.
  - intros j0 c0 k' q d Hin Htg _ Hs. unfold targets in Htg. simpl in Htg.
    destruct (isRead p), q; try done; apply Nat2Z.inj in Htg as ->;
      specialize (Hdom j0 c0 _ d Hin Hs); simpl in Hdom; lia.
  - destruct (isRead p); exists k; by rewrite <- Hopen, bool_decide_true.
  - by destruct (isRead p).
Qed.

(** A rank after the delays of a burst on rank [jr]. *)
Lemma burst_delays_inv log now j r p b0 gap jr k0 t : tBURST_MIN i ≤ gap →
  Nvm.l_rank (loc p) = Z.of_nat jr → bankgr b0 = group (Z.of_nat k0) → j ≠ jr → rank_inv log now j r →
  rank_inv ((jr, column p k0 t) :: log) now j
    (upd_all (λ b, let '(rd, wr) := col_delays i p b0 gap j b in delay_cols (t + rd) (t + wr) b) r).
Proof.
  intros Hgap Hr Hg Hj Hinv.
  assert (Hra : raised r (upd_all (λ b, let '(rd, wr) := col_delays i p b0 gap j b in
    delay_cols (t + rd) (t + wr) b) r)).
  { apply raised_upd_all. intros b. destruct (col_delays i p b0 gap j b).
    split_and!; try done. intros []; simpl; lia. }
  apply (rank_extend log now j r Hinv); [by unfold quiet, column; simpl; destruct (isRead p)|done|..].
  - intros k b' q d Hk Hs. simpl in Hk. rewrite list_lookup_fmap in Hk.
    apply fmap_Some in Hk as (b & Hk & ->).
    pose proof (bi_group _ _ _ _ _ _ (ri_banks _ _ _ _ Hinv k b Hk)) as Hgb.
    pose proof (col_delays_spacing p b0 b gap jr k0 j k t q d Hgap Hr Hg Hgb Hs) as Hd.
    destruct (col_delays i p b0 gap j b). destruct q; simpl in *; lia.
  - intros k b' d Hk Hs. by apply pre_spacing in Hs as [-> _].
Qed.

(** The rank of the burst: the delays, then the count and the precharge time
    of the bank. *)
Definition burst_rank (p : QPacket) (b0 : Bank) (gap t ready : Tick) (j k : nat) (r : Rank) : Rank :=
  push_cmd (mkCommand (if isRead p then RD else WR) (Nvm.l_bank (loc p)) t)
    (upd_bank k (λ b, set_counts (u32 (rowAccesses b + 1)) (u32 (bytesAccessed b + burstSize i))
                   (delay_pre (if isRead p then t + tRTP i else ready + tWR i) b))
      (upd_all (λ b, let '(rd, wr) := col_delays i p b0 gap j b in delay_cols (t + rd) (t + wr) b)
        (set_lastBurstTick t r))).

Lemma burst_rank_lookup p b0 gap t ready j k r m b' :
  banks (burst_rank p b0 gap t ready j k r) !! m = Some b' →
  ∃ b, banks r !! m = Some b ∧ bank b' = bank b ∧ bankgr b' = bankgr b ∧ openRow b' = openRow b ∧
    actAllowedAt b' = actAllowedAt b ∧
    rdAllowedAt b' = Z.max (t + (col_delays i p b0 gap j b).1) (rdAllowedAt b) ∧
    wrAllowedAt b' = Z.max (t + (col_delays i p b0 gap j b).2) (wrAllowedAt b) ∧
    preAllowedAt b' = if decide (k = m)
      then Z.max (if isRead p then t + tRTP i else ready + tWR i) (preAllowedAt b) else preAllowedAt b.
Proof.
  simpl. intros (b1 & Hb1 & ->)%lookup_alter_if. rewrite list_lookup_fmap in Hb1.
  apply fmap_Some in Hb1 as (b & Hb & ->). exists b. split; [done|].
  destruct (col_delays i p b0 gap j b); destruct (decide (k = m)); split_and!; done.
Qed.

Lemma burst_rank_inv log now j r p b0 gap t k : tBURST_MIN i ≤ gap → rank_inv log now j r →
  Nvm.l_rank (loc p) = Z.of_nat j → Nvm.l_bank (loc p) = Z.of_nat k →
  banks r !! k = Some b0 → openRow b0 ≠ NO_ROW →
  rank_inv ((j, column p k t) :: log) now j
    (burst_rank p b0 gap t (t + tCL i + tBURST i) j k r).
Proof.
  intros Hgap Hinv Hr Hbk Hk Hrow.
  pose proof (bi_group _ _ _ _ _ _ (ri_banks _ _ _ _ Hinv k b0 Hk)) as Hg.
  apply (rank_extend log now j r Hinv).
  - unfold quiet, column. simpl. by destruct (isRead p).
  - constructor; try done; [by simpl; rewrite length_alter, length_fmap|].
    intros m b' Hm. apply burst_rank_lookup in Hm as (b & Hm & ? & ? & ? & ? & ? & ? & Hp).
    exists b. split_and!; try done. intros []; simpl; [lia..|]. rewrite Hp. case_decide; lia.
  - intros m b' q d Hm Hs. apply burst_rank_lookup in Hm as (b & Hm & ? & ? & ? & ? & Hrd & Hwr & Hp).
    pose proof (bi_group _ _ _ _ _ _ (ri_banks _ _ _ _ Hinv m b Hm)) as Hgb.
    pose proof (col_delays_spacing p b0 b gap j k j m t q d Hgap Hr Hg Hgb Hs) as Hd.
    destruct q; simpl in *; [done|lia..|].
    destruct Hd as (_ & -> & ->). rewrite Hp, decide_True by done. destruct (isRead p); lia.
  - intros m b' d Hm Hs. apply burst_rank_lookup in Hm as (b & Hm & ? & ? & -> & _).
    apply pre_spacing in Hs as [_ Hs%Nat2Z.inj]. simpl in Hs. by simplify_eq.
Qed.

End Constraints.
End DramTiming.
