(* ===== verification/DramBurst.v ===== *)
(** * Bursts and the timing of the DRAM device

    [doBurstAccess] on a rank that is not refreshing: it never fails, and the
    commands it issues (wake up, precharge, activate, read or write, auto
    precharge) respect the constraints of the device with regard to every
    earlier command of the channel. *)

From S2P Require Import Prelude.
From S2P Require Import Intmath.
From S2P Require Import CmdBus.
From S2P Require Import NvmDecode.
From S2P Require Import NvmDevice.
From S2P Require Import DramDevice.
From S2P Require Import DramTiming.

Module DramBurst.
Import CmdBus.
Export DramTiming.

Section Burst.
Context (i : Interface).

Definition dram_inv (log : Log) (now : Tick) (d : DRAM) : Prop :=
  ∀ j r, ranks d !! j = Some r → rank_inv i log now j r.

(** A rank that a burst may be sent to. *)
Record accepts (r : Rank) : Prop := {
  ac_idle : refreshState r = REF_IDLE;
  ac_power : inLowPowerState (pw r) = true →
    pwrState (pw r) ≠ PWR_SREF ∧ scheduled (wakeUpEvent (evs r)) = false;
}.

(** A decoded packet: bank [k] of rank [j]. *)
Record decoded (m : QPacket) (j k : nat) : Prop := {
  de_rank : Nvm.l_rank (loc m) = Z.of_nat j;
  de_bank : Nvm.l_bank (loc m) = Z.of_nat k;
  de_range : Z.of_nat k < banksPerRank i;
  de_row : Nvm.l_row (loc m) ≠ NO_ROW;
}.

(** The rank is woken up and the row opened. *)
Lemma burst_prepare_ok log now j r ticks k row : timing_ok i → 0 ≤ now → rank_inv i log now j r →
  accepts r → Z.of_nat k < banksPerRank i → row ≠ NO_ROW →
  ∃ ticks' r' cmds b',
    (r ← (if inLowPowerState (pw r)
          then assertb (negb (bool_decide (pwrState (pw r) = PWR_SREF)));;
               scheduleWakeUpEvent now (tXP i) r
          else Ok r);
     open_row i now ticks r k row) = Ok (ticks', r') ∧
    issued i log now j r cmds r' ∧ refreshState r' = REF_IDLE ∧
    banks r' !! k = Some b' ∧ openRow b' = row.
Proof.
  intros Hi Hnow Hinv [Hidle Hpow] Hk Hrow.
  assert (Hstep : ∃ r1 cmds, (if inLowPowerState (pw r)
          then assertb (negb (bool_decide (pwrState (pw r) = PWR_SREF)));;
               scheduleWakeUpEvent now (tXP i) r
          else Ok r) = Ok r1 ∧ issued i log now j r cmds r1 ∧ refreshState r1 = REF_IDLE).
  { destruct (inLowPowerState (pw r)).
    - destruct Hpow as [Hs Hw]; [done|]. rewrite bool_decide_false by done. cbn [negb assertb mbind res_bind].
      destruct (scheduleWakeUpEvent_ok now (tXP i) r Hw) as (r1 & cmds & -> & Hr & Hc & Hin & Hrs & _).
      exists r1, cmds. split; [done|]. split; [by apply issued_inert|congruence].
    - exists r, []. split; [done|]. split; [by apply issued_nil; [|apply raised_refl|]|done]. }
  destruct Hstep as (r1 & cs1 & -> & Hiss1 & Hst1). cbn [mbind res_bind].
  pose proof (is_inv _ _ _ _ _ _ _ Hiss1) as Hinv1.
  destruct (lookup_lt_is_Some_2 (banks r1) k) as [b Hb].
  { pose proof (ri_length _ _ _ _ _ Hinv1). lia. }
  destruct (open_row_ok i _ now j r1 ticks k b row Hi Hnow Hinv1 Hb Hrow)
    as (ticks' & r' & cs2 & -> & Hss & Hiss2 & b' & Hb' & Hr').
  exists ticks', r', (cs1 ++ cs2), b'. split; [done|].
  split; [by eapply issued_trans|]. split; [|done]. rewrite (ss_refresh _ _ Hss). done.
Qed.

Lemma burst_done_ok now rd ready r : now ≤ ready →
  ∃ r', burst_done now rd ready r = Ok r' ∧ raised r r' ∧ cmdList r' = cmdList r ∧
    refreshState r' = refreshState r.
Proof.
  intros Ht. unfold burst_done. destruct rd.
  { eexists. split; [done|]. split; [|done]. destruct (raised_refl r); by constructor. }
  assert (∃ n e, (if negb (scheduled (writeDoneEvent (evs r))) then
           e ← Dev.schedule now (writeDoneEvent (evs r)) ready;
           Ok (set_outstanding (u8 (outstandingEvents r + 1)) (set_evs (set_writeDoneEvent e (evs r)) r))
         else if when (writeDoneEvent (evs r)) <? ready then
           e ← Dev.reschedule now (writeDoneEvent (evs r)) ready; Ok (set_evs (set_writeDoneEvent e (evs r)) r)
         else Ok r) = Ok (set_outstanding n (set_evs (set_writeDoneEvent e (evs r)) r))) as (n & e & ->).
  { destruct (scheduled (writeDoneEvent (evs r))) eqn:Hs; cbn [negb].
    - case_if; [rewrite dev_reschedule_ok by done; exists (outstandingEvents r); eexists; by destruct r|].
      exists (outstandingEvents r), (writeDoneEvent (evs r)). by destruct r as [? ? ? ? ? ? ? []].
    - rewrite dev_schedule_ok by done. by do 2 eexists. }
  cbn [mbind res_bind]. eexists. split; [done|]. split; [|done]. destruct (raised_refl r); by constructor.
Qed.

(** The precharge that ends a burst, when the row is not to be kept. *)
Lemma burst_close_ok log now j r ticks k b (auto : bool) : timing_ok i → 0 ≤ now →
  rank_inv i log now j r → banks r !! k = Some b → openRow b ≠ NO_ROW →
  ∃ ticks' r' cmds,
    (if auto then prechargeBank i now ticks r k (Z.max now (preAllowedAt b)) true true
     else Ok (ticks, r)) = Ok (ticks', r') ∧
    issued i log now j r cmds r' ∧ refreshState r' = refreshState r.
Proof.
  intros Hi Hnow Hinv Hk Hrow. destruct auto.
  - destruct (rank_precharge i Hi log now j r Hnow Hinv ticks k b (Z.max now (preAllowedAt b)) true)
      as (c & ticks' & r' & -> & Hss & Hc & Hty & Hm & Hinv' & _); [done|done|lia..|].
    exists ticks', r', [c]. split; [done|]. split; [|apply Hss].
    apply issued_one; try done. unfold is_column. by rewrite Hty.
  - exists ticks, r, []. split; [done|]. split; [by apply issued_nil; [|apply raised_refl|]|done].
Qed.

(** The channel after the delays of a burst on rank [j]. *)
Lemma delay_bursts_inv log now d m j k b0 gap t r : tBURST_MIN i ≤ gap → decoded m j k →
  bankgr b0 = group i (Z.of_nat k) →
  (∀ j' r0, j' ≠ j → ranks d !! j' = Some r0 → rank_inv i log now j' r0) →
  ∀ j' r', j' ≠ j → ranks (delay_bursts i m b0 gap t (set_rank j r d)) !! j' = Some r' →
  rank_inv i ((j, column m k t) :: log) now j' r' ∧
  ∃ r0, ranks d !! j' = Some r0 ∧ cmdList r' = cmdList r0.
Proof.
  intros Hgap [Hr _ _ _] Hg Hinv j' r' Hj Hj'. simpl in Hj'. rewrite list_lookup_imap in Hj'.
  rewrite list_lookup_insert_ne in Hj' by done. apply fmap_Some in Hj' as (r0 & Hr0 & ->).
  split; [|by exists r0]. apply burst_delays_inv; eauto.
Qed.

(** The result of a burst: the packet [m] is on the bus from [t] on; [cmds] are
    the commands of its rank. *)
Record burst_result (log : Log) (now : Tick) (d : DRAM) (m : QPacket) (j : nat) (r : Rank)
    (t next : Tick) (m' : QPacket) (cmds : list Command) (d' : DRAM) (r' : Rank) : Prop := {
  br_rank : ranks d' !! j = Some r';
  br_cmds : cmdList r' = cmdList r ++ cmds;
  br_legal : legal i (issue j cmds log);
  br_inv : dram_inv (issue j cmds log) now d';
  br_length : length (ranks d') = length (ranks d);
  br_other j' r1 : j' ≠ j → ranks d' !! j' = Some r1 → ∃ r0, ranks d !! j' = Some r0 ∧ cmdList r1 = cmdList r0;
  br_idle : refreshState r' = REF_IDLE;
  br_time : now ≤ t ∧ t + tBURST_MIN i ≤ next;
  br_packet : m' = mkQPacket (isDram m) (Dev.set_ready (t + tCL i + tBURST i) (q_pkt m));
  br_column : column m (Z.to_nat (Nvm.l_bank (loc m))) t ∈ cmds;
}.

(** The burst itself on the prepared rank [r1]: the column command, the
    precharge if the row is not to be kept, and the events. *)
Lemma burst_finish_ok log now ticks r1 m j k b0 gap t (auto : Bank → bool) :
  timing_ok i → 0 ≤ now ≤ t → tBURST_MIN i ≤ gap → rank_inv i log now j r1 → decoded m j k →
  banks r1 !! k = Some b0 → openRow b0 ≠ NO_ROW →
  (if isRead m then rdAllowedAt b0 else wrAllowedAt b0) ≤ t → legal i log →
  let r2 := burst_rank i m b0 gap t (t + tCL i + tBURST i) j k r1 in
  ∃ b ticks' r3 r' cmds, banks r2 !! k = Some b ∧
    (if auto b then prechargeBank i now ticks r2 k (Z.max now (preAllowedAt b)) true true
     else Ok (ticks, r2)) = Ok (ticks', r3) ∧
    burst_done now (isRead m) (t + tCL i + tBURST i) r3 = Ok r' ∧
    cmdList r' = cmdList r1 ++ column m k t :: cmds ∧ Forall (λ c, is_column c = false) cmds ∧
    legal i (issue j cmds ((j, column m k t) :: log)) ∧
    rank_inv i (issue j cmds ((j, column m k t) :: log)) now j r' ∧ refreshState r' = refreshState r1.
Proof.
  intros Hi Hnow Hgap Hinv [Hrk Hbk Hkr _] Hb0 Hrow Ht Hleg r2.
  pose proof (burst_rank_inv i log now j r1 m b0 gap t k Hgap Hinv Hrk Hbk Hb0 Hrow) as Hinv2.
  fold r2 in Hinv2. destruct (lookup_lt_is_Some_2 (banks r2) k) as [b Hb].
  { pose proof (ri_length _ _ _ _ _ Hinv2). lia. }
  assert (Hrb : openRow b ≠ NO_ROW).
  { apply burst_rank_lookup in Hb as (b1 & Hb1 & _ & _ & -> & _). by simplify_eq. }
  destruct (burst_close_ok _ now j r2 ticks k b (auto b) Hi ltac:(lia) Hinv2 Hb Hrb)
    as (ticks' & r3 & cs & Hclose & [Hc3 Hr3 Hl3 Hi3] & Hst3).
  destruct (burst_done_ok now (isRead m) (t + tCL i + tBURST i) r3) as (r' & Hdone & Hra & Hc & Hst).
  { destruct Hi; lia. }
  exists b, ticks', r3, r', cs. split_and!; try done.
  - rewrite Hc, Hc3. unfold r2, burst_rank, push_cmd, column. simpl. by rewrite Hbk, <- app_assoc.
  - apply Hl3. split; [|done]. by eapply column_may_follow.
  - by eapply rank_raise.
  - by rewrite Hst, Hst3.
Qed.

Lemma burst_result_intro log now d m j k r r1 b0 gap t cs1 cs2 r' :
  dram_inv log now d → ranks d !! j = Some r → decoded m j k → issued i log now j r cs1 r1 →
  banks r1 !! k = Some b0 → tBURST_MIN i ≤ gap → now ≤ t → refreshState r' = REF_IDLE →
  cmdList r' = cmdList r1 ++ column m k t :: cs2 → Forall (λ c, is_column c = false) cs2 →
  let log' := issue j cs2 ((j, column m k t) :: issue j cs1 log) in
  legal i log' → rank_inv i log' now j r' →
  let dd := delay_bursts i m b0 gap t (set_rank j (set_lastBurstTick t r1) d) in
  burst_result log now d m j r t (t + gap)
    (mkQPacket (isDram m) (Dev.set_ready (t + tCL i + tBURST i) (q_pkt m)))
    (cs1 ++ column m k t :: cs2)
    (set_rank j r' (mkDRAM (ranks dd) (Z.of_nat j) (timeStampOffset dd))) r'.
Proof.
  intros Hinv Hj Hdec Hiss Hb0 Hgap Ht Hst Hc Hcs2 log' Hleg Hr' dd.
  assert (Hlen : length (ranks dd) = length (ranks d))
    by (unfold dd; simpl; by rewrite length_imap, length_insert).
  assert (Hlt : (j < length (ranks d))%nat) by (by eapply lookup_lt_Some).
  assert (Hother : ∀ j' r0, j' ≠ j → ranks dd !! j' = Some r0 →
    rank_inv i ((j, column m k t) :: issue j cs1 log) now j' r0 ∧
    ∃ r2, ranks d !! j' = Some r2 ∧ cmdList r0 = cmdList r2).
  { eapply delay_bursts_inv; try done; [by eapply bi_group, (is_inv _ _ _ _ _ _ _ Hiss)|].
    intros j' r0 Hj' Hr0. apply frame_issue; [done|by apply Hinv|apply Hiss]. }
  assert (Hlog : issue j (cs1 ++ column m k t :: cs2) log = log') by apply issue_app.
  clearbody dd.
  constructor; rewrite ?Hlog; try done; cbn [set_rank ranks].
  - apply list_lookup_insert_eq. by rewrite Hlen.
  - by rewrite Hc, (is_cmds _ _ _ _ _ _ _ Hiss), <- app_assoc.
  - intros j' r0. simpl. destruct (decide (j' = j)) as [->|Hne].
    + rewrite list_lookup_insert_eq by (by rewrite Hlen). by intros [= <-].
    + rewrite list_lookup_insert_ne by done. intros Hr0. apply frame_issue; [done| |done].
      by apply Hother.
  - by rewrite length_insert.
  - intros j' r0 Hne. rewrite list_lookup_insert_ne by done. intros Hr0. by apply Hother.
  - lia.
  - rewrite (de_bank _ _ _ Hdec), Nat2Z.id. set_solver.
Qed.

Lemma doBurstAccess_ok log now ticks d m next_burst_at prio idx queues j k r :
  timing_ok i → 0 ≤ now → dram_inv log now d → legal i log → ranks d !! j = Some r →
  accepts r → decoded m j k →
  ∃ t next m' ticks' d' r' cmds,
    doBurstAccess i now ticks d m next_burst_at prio idx queues = Ok (t, next, m', ticks', d') ∧
    burst_result log now d m j r t next m' cmds d' r'.
Proof.
  intros Hi Hnow Hinv Hleg Hj Hacc Hdec. pose proof Hdec as [Hrk Hbk Hkr Hrow].
  unfold doBurstAccess, get_rank. rewrite Hrk, Hbk, !Nat2Z.id, Hj. cbn [mbind res_bind].
  unfold inRefIdleState. rewrite (ac_idle _ Hacc). cbn [bool_decide decide decide_rel assertb mbind res_bind].
  destruct (burst_prepare_ok log now j r ticks k (Nvm.l_row (loc m)) Hi Hnow (Hinv j r Hj) Hacc Hkr Hrow)
    as (ticks1 & r1 & cs1 & b0 & Heq1 & [Hc1 Hr1 Hl1 Hi1] & Hst1 & Hb0 & Hr0).
  match type of Heq1 with mbind _ ?x = _ => destruct x as [rw|]; [|done] end.
  cbn [mbind res_bind] in *. rewrite Heq1. cbn [mbind res_bind]. unfold get_bank. rewrite Hb0.
  cbn [mbind res_bind].
  set (allow := if isRead m then rdAllowedAt b0 else wrAllowedAt b0).
  destruct (burst_at_ok i ticks1 r1 (Z.max (Z.max allow next_burst_at) now) Hi)
    as (t & gap & ticks2 & -> & Ht & Hgap); [lia|]. cbn [mbind res_bind].
  assert (Hlt : (j < length (ranks d))%nat) by (by eapply lookup_lt_Some).
  destruct (burst_finish_ok (issue j cs1 log) now ticks2 r1 m j k b0 gap t
    (auto_precharge i m prio idx queues) Hi ltac:(lia) Hgap Hi1 Hdec Hb0 ltac:(congruence))
    as (b & ticks3 & r3 & r' & cs2 & Hb & Hclose & Hdone & Hc2 & Hr2 & Hl2 & Hi2 & Hst2);
    [unfold allow in Ht; lia|by apply Hl1|].
  set (dd := delay_bursts i m b0 gap t (set_rank j (set_lastBurstTick t r1) d)).
  assert (Hdd : ranks dd !! j = Some (upd_all (λ b, let '(rd, wr) := col_delays i m b0 gap j b in
    delay_cols (t + rd) (t + wr) b) (set_lastBurstTick t r1))).
  { unfold dd. simpl. by rewrite list_lookup_imap, list_lookup_insert_eq. }
  cbn [ranks]. rewrite Hdd. cbn [mbind res_bind]. unfold burst_rank in Hb, Hclose. rewrite Hbk in *.
  cbn [push_cmd banks] in Hb. rewrite Hb. cbn [mbind res_bind]. rewrite Hclose.
  cbn [mbind res_bind]. rewrite Hdone. cbn [mbind res_bind].
  do 5 eexists. exists r', (cs1 ++ column m k t :: cs2). split; [done|].
  eapply burst_result_intro; try done; [lia|congruence].
Qed.

End Burst.
End DramBurst.
