(* ===== verification/DramRefresh.v ===== *)
(** * Refresh, power states and the timing of the DRAM device

    The events of a rank keep the timing invariant: the power handlers only
    delay commands, a precharge of all banks and the refresh itself are legal
    with regard to what the rank did before. *)

From stdpp Require Import sorting.
From S2P Require Import Prelude.
From S2P Require Import Intmath.
From S2P Require Import CmdBus.
From S2P Require Import NvmDecode.
From S2P Require Import NvmDevice.
From S2P Require Import DramDevice.
From S2P Require Import DramTiming.

Module DramRefresh.
Import CmdBus.
Export DramTiming.

(** ** Steps that only delay *)

(** [r'] delays commands and issues power commands only. *)
Record quietly (r r' : Rank) : Prop := {
  qu_raised : raised r r';
  qu_cmds : ∃ cmds, cmdList r' = cmdList r ++ cmds ∧ Forall (λ c, inert c = true) cmds;
}.

Create HintDb dram.

#[local] Instance quietly_refl : Reflexive quietly.
Proof. intros r. split; [apply raised_refl|]. exists []. by rewrite app_nil_r. Qed.

#[local] Instance quietly_trans : Transitive quietly.
Proof.
  intros r1 r2 r3 [Hr1 (c1 & Hc1 & Hf1)] [Hr2 (c2 & Hc2 & Hf2)].
  split; [by eapply raised_trans|]. exists (c1 ++ c2). rewrite Hc2, Hc1, app_assoc.
  split; [done|]. by apply Forall_app.
Qed.

Lemma quietly_same r r' : banks r' = banks r → numBanksActive r' = numBanksActive r →
  actTicks r' = actTicks r → prechargeEvent (evs r') = prechargeEvent (evs r) →
  cmdList r' = cmdList r → quietly r r'.
Proof.
  intros Hb Hn Ha He Hc. split; [|exists []; by rewrite app_nil_r].
  constructor; rewrite ?Hb; try done. intros k b Hk. exists b. by split_and!.
Qed.

Lemma quietly_push c r r' : inert c = true → quietly r r' → quietly r (push_cmd c r').
Proof.
  intros Hc [Hr (cs & Hcs & Hf)]. split; [destruct Hr; by constructor|].
  exists (cs ++ [c]). simpl. rewrite Hcs, app_assoc. split; [done|]. apply Forall_app. auto.
Qed.

(** *** Calls *)

(** If the call returns, its result follows quietly from [r]. *)
Definition keeps (r : Rank) (m : res Rank) : Prop := ∀ r', m = Ok r' → quietly r r'.

Lemma keeps_ok r r' : quietly r r' → keeps r (Ok r').
Proof. by intros H ? [= <-]. Qed.

Lemma keeps_err r f : keeps r (Err f).
Proof. by intros ?. Qed.

Lemma keeps_bind r m f : keeps r m → (∀ r1, quietly r r1 → keeps r (f r1)) → keeps r (mbind f m).
Proof. intros Hm Hf r'. destruct m as [r1|]; [|done]. simpl. apply Hf. by apply Hm. Qed.

Lemma keeps_unit r (m : res unit) f : keeps r (f tt) → keeps r (mbind f m).
Proof. intros Hf. destruct m as [[]|]; [done|]. by intros ?. Qed.

Lemma keeps_event r (m : res Event) f : (∀ e, keeps r (f e)) → keeps r (mbind f m).
Proof. intros Hf. destruct m; [apply Hf|]. by intros ?. Qed.

Lemma keeps_from r r1 m : quietly r r1 → keeps r1 m → keeps r m.
Proof. intros Hq Hm r' Hr'. etransitivity; [done|]. by apply Hm. Qed.

Lemma quietly_set r r1 r' : quietly r r1 → banks r' = banks r1 → numBanksActive r' = numBanksActive r1 →
  actTicks r' = actTicks r1 → prechargeEvent (evs r') = prechargeEvent (evs r1) →
  cmdList r' = cmdList r1 → quietly r r'.
Proof. intros Hq **. etransitivity; [done|]. by apply quietly_same. Qed.

(** Reads a call backwards, one construct at a time; [tac] knows the calls
    already treated. *)
Ltac keep_with tac :=
  repeat match goal with
  | |- quietly ?r ?r => reflexivity
  | H : quietly ?r ?r' |- quietly ?r ?r' => exact H
  | |- quietly _ (push_cmd _ _) => apply quietly_push; [done|]
  | |- quietly _ (set_pw _ ?x) => apply (quietly_set _ x); [|done..]
  | |- quietly _ (set_evs _ ?x) => apply (quietly_set _ x); [|done..]
  | |- quietly _ (set_refreshState _ ?x) => apply (quietly_set _ x); [|done..]
  | |- quietly _ (set_refreshDueAt _ ?x) => apply (quietly_set _ x); [|done..]
  | |- quietly _ (set_outstanding _ ?x) => apply (quietly_set _ x); [|done..]
  | |- quietly _ (set_entries _ _ ?x) => apply (quietly_set _ x); [|done..]
  | |- quietly _ (if ?b then _ else _) => destruct b
  | |- keeps _ (Ok _) => apply keeps_ok
  | |- keeps _ (Err _) => apply keeps_err
  | |- keeps _ (if ?b then _ else _) => destruct b
  | |- keeps _ (match ?m with PWR_IDLE => _ | _ => _ end) => destruct m
  | |- keeps _ (match ?m with REF_IDLE => _ | _ => _ end) => destruct m
  | |- keeps _ (mbind _ _) => first [apply keeps_unit|apply keeps_event; intros ?|apply keeps_bind; [|intros ? ?]]
  | |- keeps _ _ => progress cbv zeta
  | |- keeps _ _ => tac tt
  end.

Lemma schedulePowerEvent_keeps now s t r : keeps r (schedulePowerEvent now s t r).
Proof. unfold schedulePowerEvent. keep_with ltac:(fun _ => fail). Qed.

Lemma schedule_refresh_keeps now t r : keeps r (schedule_refresh now t r).
Proof. unfold schedule_refresh. keep_with ltac:(fun _ => fail). Qed.

Ltac keep_calls _ :=
  eapply keeps_from; [|first [apply schedulePowerEvent_keeps|apply schedule_refresh_keeps]].

Lemma powerDownSleep_keeps i now s t r : keeps r (powerDownSleep i now s t r).
Proof. unfold powerDownSleep. keep_with keep_calls. Qed.

Lemma scheduleWakeUpEvent_keeps now d r : keeps r (scheduleWakeUpEvent now d r).
Proof.
  intros r' H. assert (Hs : scheduled (wakeUpEvent (evs r)) = false).
  { unfold scheduleWakeUpEvent, Dev.schedule in H.
    destruct (scheduled (wakeUpEvent (evs r))); [|done].
    destruct (now <=? _); discriminate H. }
  destruct (scheduleWakeUpEvent_ok now d r Hs) as (r1 & cmds & Heq & Hr & Hc & Hin & _).
  rewrite Heq in H. inv_ok. split; eauto.
Qed.

Ltac keep_more _ :=
  first [keep_calls tt
        |eapply keeps_from; [|first [apply powerDownSleep_keeps|apply scheduleWakeUpEvent_keeps]]].
Ltac keep := keep_with keep_more.

Section Handlers.
Context (i : Interface) (v : CtrlView) (now : Tick).

Lemma checkDrainDone_keeps r : keeps r (checkDrainDone now r).
Proof. unfold checkDrainDone. keep. Qed.

Lemma processActivateEvent_keeps r : keeps r (processActivateEvent now r).
Proof. unfold processActivateEvent. keep. Qed.

Lemma processPrechargeEvent_keeps r : keeps r (processPrechargeEvent i v now r).
Proof. unfold processPrechargeEvent. keep. Qed.

Lemma processWriteDoneEvent_keeps r : keeps r (processWriteDoneEvent r).
Proof. unfold processWriteDoneEvent. keep. Qed.

Lemma processWakeUpEvent_keeps r : keeps r (processWakeUpEvent now r).
Proof. unfold processWakeUpEvent. keep. Qed.

Lemma refresh_run_keeps r : keeps r (refresh_run i v now r).
Proof. unfold refresh_run. keep. Qed.

Lemma power_refresh_keeps prev r : keeps r (power_refresh i prev now r).
Proof. unfold power_refresh. keep. Qed.

Lemma enter_refresh_keeps r : keeps r (enter_refresh i v now r).
Proof. unfold enter_refresh. keep. Qed.

Lemma after_refresh_quiet r r' b : after_refresh v r = Ok (r', b) → quietly r r'.
Proof.
  unfold after_refresh. intros H. inv_ok. keep.
Qed.

Lemma processPowerEvent_quiet r r' b : processPowerEvent i v now r = Ok (r', b) → quietly r r'.
Proof.
  unfold processPowerEvent. cbv zeta. set (r0 := set_pw _ r).
  assert (H0 : quietly r r0) by (unfold r0; keep). clearbody r0. destruct (assertb _); [|done]. simpl.
  destruct (if _ : bool then _ else _) as [[r1 restart]|] eqn:H1; [|done]. simpl.
  assert (Hq1 : quietly r r1).
  { destruct (bool_decide _); [|by inv_ok].
    etransitivity; [done|]. by eapply after_refresh_quiet. }
  destruct (power_refresh _ _ _ r1) as [r2|] eqn:H2; [|done]. simpl.
  apply power_refresh_keeps in H2.
  intros H. etransitivity; [done|]. etransitivity; [done|].
  destruct (bool_decide (pwrState (pw r2) = PWR_REF)); simpl in H; inv_ok; [|reflexivity].
  by eapply enter_refresh_keeps.
Qed.

Lemma Rank_startup_keeps t r : keeps r (Rank_startup now t r).
Proof. unfold Rank_startup. keep. Qed.

Lemma respond_rank_keeps r : keeps r (respond_rank i v now r).
Proof. unfold respond_rank. keep. Qed.

Lemma busy_rank_keeps r : keeps r (busy_rank i v now r).
Proof. unfold busy_rank, checkDrainDone. keep. Qed.

(** ** Precharging all banks *)

(** The banks below [k] are closed, the others as they were. *)
Record closing (t : Tick) (k : nat) (r r' : Rank) : Prop := {
  cl_state : same_state r r';
  cl_acts : actTicks r' = actTicks r;
  cl_cmds : cmdList r' = cmdList r;
  cl_active : numBanksActive r' = active (banks r');
  cl_horizon : horizon now r ≤ horizon now r';
  cl_done : active (banks r') < active (banks r) → t + tRP i ≤ horizon now r';
  cl_bank m b' : banks r' !! m = Some b' → ∃ b, banks r !! m = Some b ∧
    bank b' = bank b ∧ bankgr b' = bankgr b ∧
    if decide (m < k)%nat
    then openRow b' = NO_ROW ∧ (∀ q, allowed q b ≤ allowed q b') ∧ t + tRP i ≤ actAllowedAt b'
    else b' = b;
}.

Lemma closing_refl t r : numBanksActive r = active (banks r) → closing t 0 r r.
Proof.
  intros Hn. constructor; try done; try lia.
  intros m b Hm. exists b. by rewrite decide_False by lia.
Qed.

(** One bank of the loop. *)
Lemma preall_step t k r0 r b : timing_ok i → 0 ≤ now ≤ t → now ≤ horizon now r0 →
  Z.of_nat (length (banks r0)) = banksPerRank i → closing t k r0 r → banks r !! k = Some b →
  preAllowedAt b ≤ t →
  ∃ r', (if negb (openRow b =? NO_ROW)
         then '(_, r) ← prechargeBank i now [] r k t true false; Ok r
         else Ok (upd_bank k (λ b, delay_pre t (delay_act (t + tRP i) b)) r)) = Ok r' ∧
    closing t (S k) r0 r'.
Proof.
  intros Hi Hnow Hh Hlen [Hss Ha Hc Hn Hhor Hd Hb] Hk Hpre.
  destruct (Z.eqb_spec (openRow b) NO_ROW) as [Hrow|Hrow]; cbn [negb].
  - eexists. split; [done|].
    assert (Hact : active (banks (upd_bank k (λ b, delay_pre t (delay_act (t + tRP i) b)) r)) = active (banks r))
      by (by apply active_alter_same).
    constructor; rewrite ?Hact; try done.
    + destruct Hss; constructor; try done. simpl. by rewrite length_alter.
    + intros m b' (b1 & Hb1 & ->)%lookup_alter_if. destruct (Hb m b1 Hb1) as (b2 & Hb2 & Hid & Hgr & Hcl).
      exists b2. split; [done|]. destruct (decide (k = m)) as [<-|Hne].
      * rewrite decide_False in Hcl by lia. subst b1. simplify_eq.
        rewrite decide_True by lia. split_and!; try done; [intros []; simpl; lia|simpl; lia].
      * split_and!; try done. destruct (decide (m < k)%nat); [rewrite decide_True by lia; done|].
        rewrite decide_False by lia. done.
  - assert (Hlr : length (banks r) = length (banks r0)) by apply Hss.
    destruct (prechargeBank_ok i now [] r k b t true false)
      as (a & ticks' & r' & -> & Hta & Haut & Hss' & Hc' & Hn' & Hact & Hat & Hh' & Hd' & Hb');
      try done; try lia.
    rewrite app_nil_r in Hc'. specialize (Haut eq_refl) as ->.
    exists r'. split; [done|]. constructor; try congruence; try lia.
    + destruct Hss, Hss'; constructor; congruence.
    + intros m b' Hm. destruct (Hb' m b' Hm) as (b1 & Hb1 & [[Hid1 Hgr1] Hr1 Hm1 Ha1 Ho1]).
      destruct (Hb m b1 Hb1) as (b2 & Hb2 & Hid & Hgr & Hcl).
      exists b2. split_and!; [done|congruence..|]. destruct (decide (k = m)) as [<-|Hne].
      * rewrite decide_True by lia. rewrite decide_False in Hcl by lia. subst b1. auto.
      * rewrite (Ho1 eq_refl Hne). destruct (decide (m < k)%nat); [rewrite decide_True by lia; done|].
        rewrite decide_False by lia. done.
Qed.

Lemma preall_loop_ok t r0 : timing_ok i → 0 ≤ now ≤ t → now ≤ horizon now r0 →
  Z.of_nat (length (banks r0)) = banksPerRank i → (∀ b, b ∈ banks r0 → preAllowedAt b ≤ t) →
  ∀ n k r, (k + n)%nat = length (banks r0) → closing t k r0 r →
  ∃ r', preall_loop i now t n k r = Ok r' ∧ closing t (length (banks r0)) r0 r'.
Proof.
  intros Hi Hnow Hh Hlen Hpre. induction n as [|n IH]; intros k r Hk Hcl; simpl.
  { exists r. split; [done|]. by rewrite <- Hk, Nat.add_0_r. }
  unfold get_bank. destruct (lookup_lt_is_Some_2 (banks r) k) as [b Hb].
  { rewrite (ss_length _ _ (cl_state _ _ _ _ Hcl)). lia. }
  rewrite Hb. cbn [mbind res_bind].
  destruct (preall_step t k r0 r b Hi Hnow Hh Hlen Hcl Hb) as (r1 & -> & Hcl1).
  { destruct (cl_bank _ _ _ _ Hcl k b Hb) as (b0 & Hb0 & _ & _ & He).
    rewrite decide_False in He by lia. subst b0. by eapply Hpre, list_elem_of_lookup_2. }
  cbn [mbind res_bind]. apply IH; [lia|done].
Qed.

Lemma closing_all t r r' m b : closing t (length (banks r)) r r' → banks r' !! m = Some b →
  openRow b = NO_ROW.
Proof.
  intros Hcl Hm. destruct (cl_bank _ _ _ _ Hcl m b Hm) as (b0 & Hb0 & _ & _ & Hd).
  apply lookup_lt_Some in Hb0. rewrite decide_True in Hd by done. apply Hd.
Qed.

Lemma preall_bank_inv log j t r r' m b' : timing_ok i → rank_inv i log now j r →
  closing t (length (banks r)) r r' → (∀ b, b ∈ banks r → preAllowedAt b ≤ t) →
  t + tRP i ≤ horizon now r' → banks r' !! m = Some b' →
  bank_inv i ((j, mkCommand PREA 0 t) :: log) (horizon now r') (oldest (actTicks r')) j m b'.
Proof.
  intros Hi Hinv Hcl Hpre Hdone Hm. pose proof (closing_all _ _ _ _ _ Hcl Hm) as Hno.
  destruct (cl_bank _ _ _ _ Hcl m b' Hm) as (b & Hb & Hid & Hgr & Hd).
  pose proof (lookup_lt_Some _ _ _ Hb). rewrite decide_True in Hd by done.
  destruct Hd as (_ & Hmono & Hact). specialize (Hmono KAct) as Hma. simpl in Hma.
  destruct (ri_banks _ _ _ _ _ Hinv m b Hb) as [Hbk Hbg Hdom _ Hop Hw].
  constructor; [congruence..| | | |].
  - intros j0 c q d [[= -> ->]|Hin]%elem_of_cons Hs.
    + unfold spacing in Hs. simpl in Hs. rewrite bool_decide_true in Hs by done.
      destruct q; try done. injection Hs as <-. done.
    + specialize (Hdom j0 c q d Hin Hs). specialize (Hmono q). lia.
  - intros c d _ [[= ->]|Hin]%elem_of_cons Hs; [done|].
    specialize (Hdom j c KPre d Hin Hs). simpl in Hdom.
    specialize (Hpre b (list_elem_of_lookup_2 _ _ _ Hb)). lia.
  - simpl. rewrite (bool_decide_true (j = j)) by done. by rewrite bool_decide_false by auto.
  - rewrite (cl_acts _ _ _ _ Hcl). lia.
Qed.

(** [PREA] is legal and closes every row. *)
Lemma preall_issued log j t r r' : timing_ok i → rank_inv i log now j r →
  closing t (length (banks r)) r r' → (∀ b, b ∈ banks r → preAllowedAt b ≤ t) →
  numBanksActive r ≠ 0 →
  issued i log now j r [mkCommand PREA 0 t] (push_cmd (mkCommand PREA 0 t) r') ∧ numBanksActive r' = 0.
Proof.
  intros Hi Hinv Hcl Hpre Hn. rewrite (ri_active _ _ _ _ _ Hinv) in Hn.
  pose proof (active_nonneg (banks r)).
  assert (Hz : active (banks r') = 0).
  { apply active_zero. intros b (m & Hm)%list_elem_of_lookup. by eapply closing_all. }
  assert (Hdone : t + tRP i ≤ horizon now r') by (apply (cl_done _ _ _ _ Hcl); lia).
  assert (Hhor : horizon now (push_cmd (mkCommand PREA 0 t) r') = horizon now r') by done.
  pose proof (cl_horizon _ _ _ _ Hcl).
  split; [|by rewrite (cl_active _ _ _ _ Hcl)].
  apply issued_one; [simpl; by rewrite (cl_cmds _ _ _ _ Hcl)|done|..].
  - constructor; try done. intros j0 c0 k q d Hin Htg Hk Hs. destruct q; try done.
    destruct (lookup_lt_is_Some_2 (banks r) k) as [b Hb].
    { pose proof (ri_length _ _ _ _ _ Hinv). lia. }
    pose proof (bi_dom _ _ _ _ _ _ _ (ri_banks _ _ _ _ _ Hinv k b Hb) j0 c0 KPre d Hin Hs) as Hd.
    specialize (Hpre b (list_elem_of_lookup_2 _ _ _ Hb)). simpl in *. lia.
  - constructor; rewrite ?Hhor.
    + intros m b' Hm. by apply (preall_bank_inv log j t r r').
    + simpl. rewrite (ss_length _ _ (cl_state _ _ _ _ Hcl)). apply Hinv.
    + simpl. by rewrite (cl_active _ _ _ _ Hcl).
    + simpl. rewrite (cl_acts _ _ _ _ Hcl), bool_decide_false by naive_solver. apply Hinv.
    + intros c [[= ->]|Hin]%elem_of_cons Hty; [exact Hdone|].
      pose proof (ri_pre _ _ _ _ _ Hinv c Hin Hty). lia.
    + intros c [[= ->]|Hin]%elem_of_cons; [done|]. by apply Hinv.
    + pose proof (ri_event _ _ _ _ _ Hinv). lia.
    + intros c [[= ->]|Hin]%elem_of_cons; [done|]. by apply Hinv.
Qed.

Lemma latest_pre (l : list Bank) t : t ≤ foldl (λ t b, Z.max (preAllowedAt b) t) t l ∧
  ∀ b, b ∈ l → preAllowedAt b ≤ foldl (λ t b, Z.max (preAllowedAt b) t) t l.
Proof.
  revert t. induction l as [|b l IH]; intros t; simpl; [split; [lia|by intros ? ?%not_elem_of_nil]|].
  destruct (IH (Z.max (preAllowedAt b) t)) as [H1 H2]. split; [lia|].
  intros b' [->|Hb]%elem_of_cons; [lia|auto].
Qed.

(** State [REF_PRE]. *)
Lemma refresh_pre_issued log j r r' : timing_ok i → 0 ≤ now → rank_inv i log now j r →
  refresh_pre i v now r = Ok r' → ∃ cmds, issued i log now j r cmds r'.
Proof.
  intros Hi Hnow Hinv. unfold refresh_pre. destruct (Z.eqb_spec (numBanksActive r) 0) as [Hz|Hz]; cbn [negb].
  - intros H. inv_ok. assert (Hq : quietly r r').
    { match goal with H : ?m = Ok r' |- _ => assert (Hk : keeps r m) by keep; exact (Hk r' H) end. }
    destruct Hq as [Hr (cs & Hcs & Hin)]. exists cs. by apply issued_inert.
  - destruct (latest_pre (banks r) now) as [Ht Hpre]. cbv zeta.
    set (t := foldl _ now (banks r)) in *.
    destruct (preall_loop_ok t r Hi ltac:(lia) (ri_event _ _ _ _ _ Hinv) (ri_length _ _ _ _ _ Hinv) Hpre
      (length (banks r)) 0 r eq_refl) as (r1 & -> & Hcl); [apply closing_refl, Hinv|].
    cbn [mbind res_bind]. intros H. inv_ok.
    eexists. by apply preall_issued.
Qed.

(** ** The refresh *)

Lemma oldest_in (l : list Tick) n : oldest (take n (l ++ replicate n 0)) ≠ 0 →
  oldest (take n (l ++ replicate n 0)) ∈ l.
Proof.
  unfold oldest. destruct (last _) as [t|] eqn:Ht; [|done]. simpl. intros Hne.
  apply last_Some_elem_of, elem_of_take in Ht as (m & Hm & _).
  apply list_elem_of_lookup_2, elem_of_app in Hm as [|Hm]; [done|].
  by apply elem_of_replicate in Hm as [-> _].
Qed.

(** Nothing is in flight: every command of the rank is in the past. *)
Lemma rank_settled log j r k b : timing_ok i → rank_inv i log now j r → numBanksActive r = 0 →
  scheduled (prechargeEvent (evs r)) = false → banks r !! k = Some b →
  (∀ j0 c d, (j0, c) ∈ log → spacing i j0 c j k KAct = Some d → timeStamp c + d ≤ now + tRFC i) ∧
  (oldest (actTicks r) = 0 ∨ oldest (actTicks r) + tXAW i ≤ now + tRFC i).
Proof.
  intros Hi Hinv Hz He Hk. assert (Hhor : horizon now r = now) by (unfold horizon; by rewrite He).
  rewrite (ri_active _ _ _ _ _ Hinv) in Hz. pose proof (proj1 (active_zero _) Hz) as Hno.
  assert (Hact : ∀ c, (j, c) ∈ log → c_type c = ACT → timeStamp c ≤ now).
  { intros c Hin Hty. destruct (ri_range _ _ _ _ _ Hinv c Hin Hty) as (k' & Hk' & Hlt).
    destruct (lookup_lt_is_Some_2 (banks r) k') as [b' Hb'].
    { pose proof (ri_length _ _ _ _ _ Hinv). lia. }
    destruct (bi_closed _ _ _ _ _ _ _ (ri_banks _ _ _ _ _ Hinv k' b' Hb') c (tRAS i)) as [_ Hd].
    - by eapply Hno, list_elem_of_lookup_2.
    - done.
    - unfold spacing. by rewrite Hty, bool_decide_true, Hk', Z.eqb_refl by done.
    - destruct Hi; lia. }
  split.
  - intros j0 c d Hin Hs. unfold spacing in Hs.
    destruct (c_type c) eqn:Hty; try done; case_bool_decide as Hj; simpl in Hs; try done; subst j0.
    + specialize (Hact c Hin Hty). destruct Hi. destruct (same_group _ _ _); simplify_eq; lia.
    + pose proof (ri_pre _ _ _ _ _ Hinv c Hin (or_introl Hty)). destruct Hi.
      destruct (c_bank c =? Z.of_nat k); simplify_eq; lia.
    + pose proof (ri_pre _ _ _ _ _ Hinv c Hin (or_intror Hty)). destruct Hi. simplify_eq; lia.
    + pose proof (ri_ref _ _ _ _ _ Hinv c Hin Hty). simplify_eq; lia.
  - destruct (decide (oldest (actTicks r) = 0)) as [|Hold]; [by left|right].
    rewrite (ri_acts _ _ _ _ _ Hinv) in *.
    assert (Hin : oldest (take (Z.to_nat (activationLimit i))
      (acts j log ++ replicate (Z.to_nat (activationLimit i)) 0)) ∈ acts j log) by (by apply oldest_in).
    apply elem_of_acts in Hin as (c & Hin & Hty & <-). specialize (Hact c Hin Hty). destruct Hi; lia.
Qed.

Lemma refresh_bank_inv log j r k b : timing_ok i → rank_inv i log now j r → numBanksActive r = 0 →
  scheduled (prechargeEvent (evs r)) = false → banks r !! k = Some b →
  bank_inv i ((j, mkCommand REF 0 now) :: log) now (oldest (actTicks r)) j k
    (set_actAllowedAt (now + tRFC i) b).
Proof.
  intros Hi Hinv Hz He Hk. destruct (rank_settled log j r k b Hi Hinv Hz He Hk) as [Hset Hw].
  assert (Hhor : horizon now r = now) by (unfold horizon; by rewrite He).
  destruct (ri_banks _ _ _ _ _ Hinv k b Hk) as [Hbk Hbg Hdom Hcl Hop _]. rewrite Hhor in Hcl.
  constructor; try done.
  - intros j0 c q d [[= -> ->]|Hin]%elem_of_cons Hs.
    + unfold spacing in Hs. simpl in Hs. rewrite bool_decide_true in Hs by done.
      destruct q; try done. simplify_eq/=. lia.
    + destruct q; simpl; [by eapply Hset|..];
        [apply (Hdom j0 c KRead d)|apply (Hdom j0 c KWrite d)|apply (Hdom j0 c KPre d)]; done.
  - intros c d Hro [[= ->]|Hin]%elem_of_cons Hs; [done|].
    destruct (Hcl c d Hro Hin Hs). simpl. destruct Hi; lia.
  - simpl. by rewrite (bool_decide_true (j = j)).
Qed.

(** State [REF_START]: the refresh command. *)
Lemma refresh_start_issued log j r r' offset : timing_ok i → rank_inv i log now j r →
  scheduled (prechargeEvent (evs r)) = false → refresh_start i now offset r = Ok r' →
  may_follow i log j (mkCommand REF 0 now) ∧ rank_inv i ((j, mkCommand REF 0 now) :: log) now j r' ∧
  refreshState r' = REF_RUN.
Proof.
  intros Hi Hinv He. unfold refresh_start, schedule_refresh. intros H. inv_ok. bool_to_prop.
  assert (Hhor : horizon now r = now) by (unfold horizon; by rewrite He).
  assert (Hall : active (banks r) = 0) by (by rewrite <- (ri_active _ _ _ _ _ Hinv)).
  split; [|split; [|done]].
  - constructor; [|intros k Hk|done].
    + intros j0 c0 k q d _ Htg. by destruct q.
    + destruct (lookup_lt_is_Some_2 (banks r) k) as [b Hb].
      { pose proof (ri_length _ _ _ _ _ Hinv). lia. }
      rewrite <- (bi_open _ _ _ _ _ _ _ (ri_banks _ _ _ _ _ Hinv k b Hb)). apply bool_decide_false.
      rewrite (proj1 (active_zero _) Hall b) by (by eapply list_elem_of_lookup_2). auto.
  - constructor.
    + intros k b' Hk. simpl in Hk. rewrite list_lookup_fmap in Hk. apply fmap_Some in Hk as (b & Hk & ->).
      unfold horizon. simpl. rewrite He. by apply refresh_bank_inv.
    + simpl. rewrite length_fmap. apply Hinv.
    + simpl. rewrite active_fmap by done. apply Hinv.
    + simpl. rewrite bool_decide_false by naive_solver. apply Hinv.
    + intros c [[= ->]|Hin]%elem_of_cons Hty; [naive_solver|]. by apply (ri_pre _ _ _ _ _ Hinv c).
    + intros c [[= ->]|Hin]%elem_of_cons Hty; [simpl; lia|]. by apply Hinv.
    + apply Hinv.
    + intros c [[= ->]|Hin]%elem_of_cons; [done|]. by apply Hinv.
Qed.

Lemma quiet_issued log j r r' : rank_inv i log now j r → quietly r r' → ∃ cmds, issued i log now j r cmds r'.
Proof. intros Hinv [Hr (cs & Hcs & Hin)]. exists cs. by apply issued_inert. Qed.

Lemma refresh_last_issued log j r r1 r' offset : timing_ok i → 0 ≤ now → rank_inv i log now j r →
  quietly r r1 → refreshState r1 ≠ REF_START →
  match refreshState r1 with
  | REF_PRE => refresh_pre i v now r1
  | REF_START => refresh_start i now offset r1
  | REF_RUN => refresh_run i v now r1
  | _ => Ok r1
  end = Ok r' → ∃ cmds, issued i log now j r cmds r'.
Proof.
  intros Hi Hnow Hinv Hq Hne H. destruct (quiet_issued log j r r1 Hinv Hq) as (cs & Hiss).
  destruct (refreshState r1); try done; try (inv_ok; by eauto).
  - destruct (refresh_pre_issued (issue j cs log) j r1 r' Hi Hnow) as (cs2 & H2); [apply Hiss|done|].
    exists (cs ++ cs2). by eapply issued_trans.
  - apply refresh_run_keeps in H. apply quiet_issued; [done|]. by etransitivity.
Qed.

(** A refresh event that does not start the refresh. *)
Lemma processRefreshEvent_issued log j r r' active_rank offset : timing_ok i → 0 ≤ now →
  rank_inv i log now j r → refreshState r ≠ REF_START →
  processRefreshEvent i v active_rank now offset r = Ok r' → ∃ cmds, issued i log now j r cmds r'.
Proof.
  intros Hi Hnow Hinv Hne. unfold processRefreshEvent. cbv zeta.
  set (r1 := if _ || _ then _ else r).
  assert (H1 : quietly r r1 ∧ refreshState r1 ≠ REF_START)
    by (unfold r1; split; [keep|destruct (_ || _); done]).
  destruct H1 as [Hq1 Hs1]. clearbody r1.
  destruct (_ && requestEventScheduled v); [intros [= <-]; by apply quiet_issued|].
  set (r2 := if bool_decide (refreshState r1 = REF_DRAIN) then _ else r1).
  assert (H2 : quietly r r2 ∧ refreshState r2 ≠ REF_START)
    by (unfold r2; split; [keep|destruct (bool_decide _); done]).
  destruct H2 as [Hq2 Hs2]. clearbody r2.
  destruct (_ && inLowPowerState (pw r2)).
  { intros H%scheduleWakeUpEvent_keeps. apply quiet_issued; [done|]. by etransitivity. }
  apply refresh_last_issued; try done; [keep|]. by destruct (bool_decide _).
Qed.

Lemma processRefreshEvent_start r active_rank offset : refreshState r = REF_START →
  processRefreshEvent i v active_rank now offset r = refresh_start i now offset r.
Proof. intros Hr. destruct r. simpl in Hr. by subst. Qed.

End Handlers.

End DramRefresh.
