(* ===== verification/DramChoice.v ===== *)
(** * The choice of a DRAM packet

    [minBankPrep] marks the banks that can be prepared first, and
    [chooseNextFRFCFS] implements first-ready, first-come-first-served with
    hidden bank preparation; both are compared with a direct definition. *)

From S2P Require Import Prelude.
From S2P Require Import Intmath.
From S2P Require Import Bitfield.
From S2P Require Import CmdBus.
From S2P Require Import NvmDecode.
From S2P Require Import NvmDevice.
From S2P Require Import DramDevice.

Module DramChoice.
Import CmdBus.
Export Dram.

Section Choice.
Context (i : Interface) (curTick : Tick) (now_bus : Dev.BusState) (min_col_at : Tick).

(** ** The banks to prepare *)

Definition act_at (b : Bank) : Tick := (bank_times i curTick now_bus b).1.
Definition seamless (b : Bank) : bool := (bank_times i curTick now_bus b).2 <=? min_col_at.

(** The last activate that delays no burst: [tRCD] before [min_col_at], a
    difference of unsigned numbers, or now. *)
Definition hidden_act_max : Tick := Z.max (usub min_col_at (tRCD i)) curTick.

(** A bank of the channel with its position. *)
Abbreviation Place := (nat * nat * Bank)%type.
Abbreviation place_bank p := (snd p).

(** The state of the loops after the waiting banks of [l]. *)
Record prep_inv (n : nat) (l : list Place) (s : Prep) : Prop := {
  pi_length : length (bank_mask s) = n;
  pi_found : found_seamless_bank s = existsb (λ p, seamless (place_bank p)) l;
  pi_range k m : bank_mask s !! k = Some m → is_u64 m;
  pi_bits k m j : bank_mask s !! k = Some m →
    Z.testbit m (Z.of_nat j) = true ↔
    ∃ b, (k, j, b) ∈ l ∧ if found_seamless_bank s then seamless b = true else act_at b = min_act_at s;
  pi_min : found_seamless_bank s = false → (l = [] ∧ min_act_at s = MaxTick) ∨
    (∃ p, p ∈ l ∧ act_at (place_bank p) = min_act_at s) ∧
    ∀ p, p ∈ l → min_act_at s ≤ act_at (place_bank p);
  pi_hidden : (l = [] ∧ min_act_at s = MaxTick ∧ found_seamless_bank s = false) ∨
    hidden_bank_prep s = (min_act_at s <=? hidden_act_max) ∧
    (found_seamless_bank s = true → min_act_at s ≤ hidden_act_max);
}.

(** A seamless bank is prepared in time. *)
Lemma seamless_hidden b : 0 ≤ act_at b → seamless b = true → act_at b ≤ hidden_act_max.
Proof.
  unfold seamless, act_at, hidden_act_max, usub, bank_times. cbn [fst snd]. intros Ha Hs%Z.leb_le.
  destruct (Z.leb_spec (tRCD i) min_col_at); lia.
Qed.

Lemma set_bit m j j' : (j < 64)%nat → is_u64 m →
  Z.testbit (insertBits_val m (Z.of_nat j) (Z.of_nat j) 1) (Z.of_nat j') = true ↔
  j' = j ∨ Z.testbit m (Z.of_nat j') = true.
Proof.
  intros Hj Hm. rewrite insertBits_val_testbit by (done || lia).
  destruct (decide (j' = j)) as [->|Hne].
  - rewrite !(proj2 (Z.leb_le _ _)) by lia. rewrite Z.sub_diag. simpl. tauto.
  - destruct (Z.leb_spec (Z.of_nat j) (Z.of_nat j')), (Z.leb_spec (Z.of_nat j') (Z.of_nat j));
      simpl; try lia; tauto.
Qed.

(** The mask without the bits that a better bank makes obsolete. *)
Definition kept_mask (s : Prep) (b : Bank) : list Z :=
  if negb (found_seamless_bank s) && (seamless b || (act_at b <? min_act_at s))
  then (λ _, 0) <$> bank_mask s else bank_mask s.

Lemma prep_step_eq k j b s : prep_step i curTick now_bus min_col_at k j b s =
  if seamless b || (negb (found_seamless_bank s) && (act_at b <=? min_act_at s)) then
    m ← match kept_mask s b !! k with Some m => Ok m | None => Err Undef end;
    m ← replaceBits m (Z.of_nat j) (Z.of_nat j) 1;
    Ok (mkPrep (<[k := m]> (kept_mask s b)) (act_at b) (found_seamless_bank s || seamless b)
          (act_at b <=? Z.max (usub min_col_at (tRCD i)) curTick))
  else Ok s.
Proof.
  unfold prep_step, kept_mask, act_at, seamless. destruct (bank_times i curTick now_bus b) as [a c].
  done.
Qed.

Lemma kept_mask_length s b : length (kept_mask s b) = length (bank_mask s).
Proof. unfold kept_mask. destruct (_ && _); [apply length_fmap|done]. Qed.

Lemma kept_mask_lookup n l s b k m : prep_inv n l s → kept_mask s b !! k = Some m →
  is_u64 m ∧ ∀ j, Z.testbit m (Z.of_nat j) = true ↔
    negb (found_seamless_bank s) && (seamless b || (act_at b <? min_act_at s)) = false ∧
    ∃ b', (k, j, b') ∈ l ∧ if found_seamless_bank s then seamless b' = true else act_at b' = min_act_at s.
Proof.
  intros Hinv. unfold kept_mask. destruct (_ && _).
  - rewrite list_lookup_fmap. intros (x & _ & ->)%fmap_Some. split; [done|].
    intros j. rewrite Z.bits_0. naive_solver.
  - intros Hk. split; [by eapply pi_range|]. intros j. rewrite (pi_bits _ _ _ Hinv k m j Hk). naive_solver.
Qed.

Lemma existsb_false_iff (l : list Place) : existsb (λ p, seamless (place_bank p)) l = false →
  ∀ p, p ∈ l → seamless (place_bank p) = false.
Proof.
  intros He p Hp. destruct (seamless (place_bank p)) eqn:Hs; [|done].
  rewrite <- He. symmetry. apply existsb_exists. exists p. by rewrite <- list_elem_of_In.
Qed.

(** The condition of the loop after the bank at [(k, j)]. *)
Lemma prep_bits n l s k j b k' j' : prep_inv n l s → act_at b ≤ MaxTick →
  seamless b || (negb (found_seamless_bank s) && (act_at b <=? min_act_at s)) = true →
  ((k' = k ∧ j' = j) ∨
   negb (found_seamless_bank s) && (seamless b || (act_at b <? min_act_at s)) = false ∧
   ∃ b', (k', j', b') ∈ l ∧ if found_seamless_bank s then seamless b' = true else act_at b' = min_act_at s) ↔
  ∃ b', (k', j', b') ∈ (k, j, b) :: l ∧
    if found_seamless_bank s || seamless b then seamless b' = true else act_at b' = act_at b.
Proof.
  intros Hinv Hmax Hadd. pose proof (pi_found _ _ _ Hinv) as Hf. pose proof (pi_min _ _ _ Hinv) as Hmin.
  setoid_rewrite elem_of_cons.
  destruct (found_seamless_bank s), (seamless b) eqn:Hs; simpl in *; try done.
  - naive_solver.
  - pose proof (existsb_false_iff l (eq_sym Hf)) as Hno. split.
    + intros [[-> ->]|[? _]]; [|done]. eauto.
    + intros (b' & [[= -> -> ->]|Hin] & Hb'); [auto|]. specialize (Hno _ Hin). simpl in Hno. congruence.
  - apply Z.leb_le in Hadd. specialize (Hmin eq_refl). split.
    + intros [[-> ->]|(Hlt%Z.ltb_ge & b' & Hin & Hb')]; [eauto|]. exists b'. split; [auto|lia].
    + intros (b' & [[= -> -> ->]|Hin] & Hb'); [auto|]. right.
      destruct Hmin as [[-> _]|[_ Hall]]; [by apply not_elem_of_nil in Hin|].
      specialize (Hall _ Hin). simpl in Hall. split; [apply Z.ltb_ge; lia|]. exists b'. split; [done|lia].
Qed.

Lemma prep_step_ok n l s k j b : prep_inv n l s → (k < n)%nat → (j < 64)%nat → 0 ≤ act_at b ≤ MaxTick →
  ∃ s', prep_step i curTick now_bus min_col_at k j b s = Ok s' ∧ prep_inv n ((k, j, b) :: l) s'.
Proof.
  intros Hinv Hk Hj [Hpos Hmax]. rewrite prep_step_eq. pose proof Hinv as [Hlen Hf Hrange Hbits Hmin Hhid].
  destruct (seamless b || _) eqn:Hadd.
  - assert (Hkl : length (kept_mask s b) = n) by (by rewrite kept_mask_length).
    destruct (lookup_lt_is_Some_2 (kept_mask s b) k) as [m Hm]; [lia|]. rewrite Hm. cbn [mbind res_bind].
    unfold replaceBits. rewrite insertBits_ok by lia. cbn [mbind res_bind]. eexists. split; [done|].
    constructor; cbn [bank_mask found_seamless_bank min_act_at hidden_bank_prep].
    + by rewrite length_insert.
    + simpl. rewrite Hf. apply orb_comm.
    + intros k' m' [(? & ? & _)|[Hne Hk']]%list_lookup_insert_Some.
      * subst k' m'. apply insertBits_val_range; [lia..|]. apply (kept_mask_lookup n l s b k m Hinv Hm).
      * apply (kept_mask_lookup n l s b k' m' Hinv Hk').
    + intros k' m' j' Hk'. rewrite <- (prep_bits n l s k j b k' j' Hinv Hmax Hadd).
      apply list_lookup_insert_Some in Hk' as [(? & ? & _)|[Hne Hk']].
      * subst k' m'. destruct (kept_mask_lookup n l s b k m Hinv Hm) as [Hu Hbk]. rewrite set_bit, Hbk by done. naive_solver.
      * destruct (kept_mask_lookup n l s b k' m' Hinv Hk') as [Hu Hbk]. rewrite Hbk. naive_solver.
    + intros [Hf' Hs]%orb_false_iff. right. rewrite Hf', Hs in Hadd. simpl in Hadd. apply Z.leb_le in Hadd.
      split; [exists (k, j, b); split; [by left|done]|].
      intros p [->|Hp]%elem_of_cons; [simpl; lia|].
      destruct (Hmin Hf') as [[-> _]|[_ Hall]]; [by apply not_elem_of_nil in Hp|]. specialize (Hall p Hp). lia.
    + right. split; [done|]. intros Hfs. destruct (seamless b) eqn:Hs; [by apply seamless_hidden|].
      rewrite orb_false_r in Hfs. by rewrite Hfs in Hadd.
  - exists s. split; [done|]. apply orb_false_iff in Hadd as [Hs Hadd].
    constructor; try done; simpl; rewrite ?Hs; [done|..].
    + intros k' m' j' Hk'. rewrite (Hbits k' m' j' Hk'). setoid_rewrite elem_of_cons.
      split; [naive_solver|]. intros (b' & [[= -> -> ->]|Hin] & Hb'); [|eauto].
      destruct (found_seamless_bank s); [congruence|]. simpl in Hadd. apply Z.leb_gt in Hadd. lia.
    + intros Hf'. rewrite Hf' in Hadd. simpl in Hadd. apply Z.leb_gt in Hadd.
      destruct (Hmin Hf') as [[_ ?]|[(p & Hp & He) Hall]]; [lia|]. right. split; [exists p; split; [by right|done]|].
      intros p' [->|Hp']%elem_of_cons; [simpl; lia|auto].
    + right. destruct Hhid as [(-> & Hm & Hf')|?]; [|done]. rewrite Hf' in Hadd. simpl in Hadd. apply Z.leb_gt in Hadd. lia.
Qed.

(** ** The loops of [minBankPrep] *)

(** The shape of a channel; the mask of a rank has 32 bits. *)
Record shape (d : DRAM) : Prop := {
  sh_ranks : Z.of_nat (length (ranks d)) = ranksPerChannel i;
  sh_banks r : r ∈ ranks d → Z.of_nat (length (banks r)) = banksPerRank i;
  sh_mask : banksPerRank i ≤ 32;
  sh_ids : ranksPerChannel i * banksPerRank i ≤ 2 ^ 16;
  sh_times r b : r ∈ ranks d → b ∈ banks r → 0 ≤ act_at b ≤ MaxTick;
}.

(** A decoded packet: bank [k] of rank [j]. *)
Definition at_bank (d : DRAM) (p : QPacket) (j k : nat) : Prop :=
  isDram p = true ∧ Nvm.l_rank (loc p) = Z.of_nat j ∧ Nvm.l_bank (loc p) = Z.of_nat k ∧
  (j < length (ranks d))%nat ∧ Z.of_nat k < banksPerRank i ∧
  Nvm.l_bankId (loc p) = Z.of_nat j * banksPerRank i + Z.of_nat k.

Definition queue_ok (d : DRAM) (queue : list QPacket) : Prop :=
  ∀ p, p ∈ queue → isDram p = true → ∃ j k, at_bank d p j k.

(** Some packet of the queue waits for the bank, and its rank can serve it. *)
Definition waiting_at (d : DRAM) (queue : list QPacket) (j k : nat) : Prop :=
  ∃ p r, p ∈ queue ∧ at_bank d p j k ∧ ranks d !! j = Some r ∧ inRefIdleState r = true.

Context (d : DRAM) (Hshape : shape d).

Lemma got_waiting_ok queue : queue_ok d queue → ∃ w, got_waiting d queue = Ok w ∧
  ∀ z, z ∈ w ↔ ∃ j k, waiting_at d queue j k ∧ z = Z.of_nat j * banksPerRank i + Z.of_nat k.
Proof.
  induction queue as [|p queue IH]; intros Hq.
  { exists []. split; [done|]. intros z. split; [by intros ?%not_elem_of_nil|].
    intros (j & k & (p & r & Hp & _) & _). by apply not_elem_of_nil in Hp. }
  destruct IH as (w & Hw & Hz); [intros p' Hp'; apply Hq; by right|]. unfold got_waiting in *.
  cbn [foldr]. rewrite Hw. cbn [mbind res_bind].
  destruct (isDram p) eqn:Hd.
  - destruct (Hq p) as (j & k & Hat); [by left|done|]. pose proof Hat as (_ & Hj & Hk & Hlt & _ & Hid).
    unfold get_rank. rewrite Hj, Nat2Z.id. destruct (lookup_lt_is_Some_2 (ranks d) j Hlt) as [r Hr].
    rewrite Hr. cbn [mbind res_bind]. destruct (inRefIdleState r) eqn:Hidle.
    + eexists. split; [done|]. intros z. rewrite elem_of_cons, Hz. split.
      * intros [->|(j' & k' & (p' & r' & Hp' & Hrest) & ->)].
        -- exists j, k. split; [|done]. exists p, r. split; [by left|done].
        -- exists j', k'. split; [|done]. exists p', r'. split; [by right|done].
      * intros (j' & k' & (p' & r' & [->|Hp']%elem_of_cons & Hat' & Hr') & ->).
        -- left. destruct Hat' as (_ & _ & _ & _ & _ & ->). done.
        -- right. exists j', k'. split; [|done]. by exists p', r'.
    + eexists. split; [done|]. intros z. rewrite Hz. split.
      * intros (j' & k' & (p' & r' & Hp' & Hrest) & ->). exists j', k'. split; [|done].
        exists p', r'. split; [by right|done].
      * intros (j' & k' & (p' & r' & [->|Hp']%elem_of_cons & Hat' & Hr' & Hi') & ->).
        -- destruct Hat' as (_ & Hj' & _). rewrite Hj in Hj'. apply Nat2Z.inj in Hj' as <-. congruence.
        -- exists j', k'. split; [|done]. by exists p', r'.
  - exists w. split; [done|]. intros z. rewrite Hz. split.
    + intros (j' & k' & (p' & r' & Hp' & Hrest) & ->). exists j', k'. split; [|done].
      exists p', r'. split; [by right|done].
    + intros (j' & k' & (p' & r' & [->|Hp']%elem_of_cons & Hat' & Hr') & ->).
      * destruct Hat' as (Hd' & _). congruence.
      * exists j', k'. split; [|done]. by exists p', r'.
Qed.

Section Loops.
Context (queue : list QPacket) (w : list Z).
Hypothesis Hw : ∀ z, z ∈ w ↔ ∃ j k, waiting_at d queue j k ∧ z = Z.of_nat j * banksPerRank i + Z.of_nat k.

Lemma waiting_test j k : (j < length (ranks d))%nat → Z.of_nat k < banksPerRank i →
  u16 (Z.of_nat j * banksPerRank i + Z.of_nat k) ∈ w ↔ waiting_at d queue j k.
Proof.
  intros Hj Hk. pose proof (sh_ranks _ Hshape). pose proof (sh_ids _ Hshape).
  assert (Hr : 0 ≤ Z.of_nat j * banksPerRank i + Z.of_nat k < 2 ^ 16) by nia.
  unfold u16. rewrite Z.mod_small, Hw by done. split; [|by exists j, k].
  intros (j' & k' & Hwait & Heq).
  assert (Z.of_nat k' < banksPerRank i) by (destruct Hwait as (? & ? & _ & (_ & _ & _ & _ & ? & _) & _); done).
  assert (Z.of_nat j = Z.of_nat j') by nia. assert (j = j') as <- by lia. assert (k = k') as <- by lia. done.
Qed.

Lemma prep_banks_ok k r bs s l : ∀ j, ranks d !! k = Some r → drop j (banks r) = bs →
  prep_inv (length (ranks d)) l s →
  ∃ s' l', prep_banks i curTick now_bus min_col_at w k j r bs s = Ok s' ∧
    prep_inv (length (ranks d)) l' s' ∧
    ∀ q, q ∈ l' ↔ q ∈ l ∨ ∃ x b, q = (k, (j + x)%nat, b) ∧ bs !! x = Some b ∧ waiting_at d queue k (j + x).
Proof.
  revert s l. induction bs as [|b bs IH]; intros s l j Hk Hbs Hinv; simpl.
  { exists s, l. split; [done|]. split; [done|]. intros q. split; [by left|].
    intros [?|(x & b & _ & Hx & _)]; [done|]. by rewrite lookup_nil in Hx. }
  assert (Hb : banks r !! j = Some b) by (by rewrite <- (Nat.add_0_r j), <- lookup_drop, Hbs).
  assert (Hj : Z.of_nat j < banksPerRank i).
  { pose proof (sh_banks _ Hshape r (list_elem_of_lookup_2 _ _ _ Hk)). apply lookup_lt_Some in Hb. lia. }
  assert (Hbs' : drop (S j) (banks r) = bs) by (by rewrite <- Nat.add_1_r, <- drop_drop, Hbs).
  pose proof (lookup_lt_Some _ _ _ Hk) as Hlt.
  assert (Hsplit : ∀ (q : Place) x b', q = (k, (j + x)%nat, b') ∧ (b :: bs) !! x = Some b' ∧ waiting_at d queue k (j + x) ↔
    (x = 0%nat ∧ q = (k, j, b') ∧ b' = b ∧ waiting_at d queue k j) ∨
    ∃ y, x = S y ∧ q = (k, (S j + y)%nat, b') ∧ bs !! y = Some b' ∧ waiting_at d queue k (S j + y)).
  { intros q [|x] b'; simpl.
    - rewrite Nat.add_0_r. naive_solver.
    - rewrite Nat.add_succ_r. naive_solver. }
  setoid_rewrite Hsplit. case_bool_decide as Hwait.
  - apply waiting_test in Hwait; [|done..]. pose proof Hwait as (p & r' & _ & _ & Hr' & Hidle).
    rewrite Hk in Hr'. injection Hr' as <-. rewrite Hidle. cbn [assertb mbind res_bind].
    destruct (prep_step_ok (length (ranks d)) l s k j b Hinv Hlt) as (s1 & -> & Hinv1).
    { pose proof (sh_mask _ Hshape). lia. }
    { apply (sh_times _ Hshape r); by eapply list_elem_of_lookup_2. }
    cbn [mbind res_bind]. destruct (IH s1 _ (S j) Hk Hbs' Hinv1) as (s' & l' & -> & Hinv' & Hl').
    exists s', l'. split; [done|]. split; [done|]. intros q. rewrite Hl', elem_of_cons. naive_solver.
  - assert (Hno : ¬ waiting_at d queue k j) by (by rewrite <- waiting_test).
    cbn [mbind res_bind]. destruct (IH s l (S j) Hk Hbs' Hinv) as (s' & l' & -> & Hinv' & Hl').
    exists s', l'. split; [done|]. split; [done|]. intros q. rewrite Hl'. naive_solver.
Qed.

(** A waiting bank of the channel. *)
Definition candidate (q : Place) : Prop :=
  let '(j, k, b) := q in
  waiting_at d queue j k ∧ ∃ r, ranks d !! j = Some r ∧ banks r !! k = Some b.

Lemma prep_ranks_ok rs : ∀ k s l, drop k (ranks d) = rs → prep_inv (length (ranks d)) l s →
  (∀ q, q ∈ l ↔ candidate q ∧ (q.1.1 < k)%nat) →
  ∃ s' l', prep_ranks i curTick now_bus min_col_at w k rs s = Ok s' ∧
    prep_inv (length (ranks d)) l' s' ∧ ∀ q, q ∈ l' ↔ candidate q.
Proof.
  induction rs as [|r rs IH]; intros k s l Hrs Hinv Hl; simpl.
  { exists s, l. split; [done|]. split; [done|]. intros [[j0 k0] b]. rewrite Hl. simpl. split; [tauto|].
    intros Hc. split; [done|]. destruct Hc as (_ & r & Hr & _). apply lookup_lt_Some in Hr.
    apply (f_equal length) in Hrs. rewrite length_drop in Hrs. simpl in Hrs. lia. }
  assert (Hr : ranks d !! k = Some r) by (by rewrite <- (Nat.add_0_r k), <- lookup_drop, Hrs).
  destruct (prep_banks_ok k r (banks r) s l 0 Hr eq_refl Hinv) as (s1 & l1 & -> & Hinv1 & Hl1).
  cbn [mbind res_bind]. apply (IH (S k) s1 l1); [by rewrite <- Nat.add_1_r, <- drop_drop, Hrs|done|].
  intros [[j0 k0] b]. rewrite Hl1, Hl. simpl. split.
  - intros [[Hc Hlt]|(x & b' & [= -> -> ->] & Hx & Hwt)]; [split; [done|lia]|]. split; [|lia].
    split; [done|]. eauto.
  - intros [[Hwt (r' & Hr' & Hb)] Hlt]. destruct (decide (j0 = k)) as [->|Hne].
    + right. rewrite Hr in Hr'. injection Hr' as <-. eauto 10.
    + left. split; [|lia]. eauto.
Qed.

End Loops.

(** The banks to prepare: the seamless ones, or the earliest. *)
Definition preferred (queue : list QPacket) (q : Place) : Prop :=
  candidate queue q ∧
  (seamless (place_bank q) = true ∨
   ∀ q', candidate queue q' →
     seamless (place_bank q') = false ∧ act_at (place_bank q) ≤ act_at (place_bank q')).

Lemma prep_preferred queue l s k j b : prep_inv (length (ranks d)) l s → (∀ q, q ∈ l ↔ candidate queue q) →
  ((k, j, b) ∈ l ∧ if found_seamless_bank s then seamless b = true else act_at b = min_act_at s) ↔
  preferred queue (k, j, b).
Proof.
  intros Hinv Hl. pose proof (pi_found _ _ _ Hinv) as Hf. pose proof (pi_min _ _ _ Hinv) as Hmin.
  unfold preferred. setoid_rewrite <- Hl. simpl. destruct (found_seamless_bank s).
  - split; [tauto|]. intros [Hin [Hs|Hall]]; [done|]. symmetry in Hf.
    apply existsb_exists in Hf as (q & Hq%list_elem_of_In & Hs). destruct (Hall q Hq). congruence.
  - pose proof (existsb_false_iff l (eq_sym Hf)) as Hno.
    destruct (Hmin eq_refl) as [[-> _]|[(q & Hq & Hqa) Hall]]; [by split; intros [?%not_elem_of_nil _]|].
    split.
    + intros [Hin ->]. auto.
    + intros [Hin [Hs|Hb]]; [specialize (Hno _ Hin); simpl in Hno; congruence|]. split; [done|].
      destruct (Hb q Hq) as [_ Hle]. specialize (Hall _ Hin). simpl in Hall. lia.
Qed.

(** The test for hidden preparation is the one of every preferred bank. *)
Lemma prep_hidden queue l s k j b : prep_inv (length (ranks d)) l s → (∀ q, q ∈ l ↔ candidate queue q) →
  preferred queue (k, j, b) → hidden_bank_prep s = (act_at b <=? hidden_act_max).
Proof.
  intros Hinv Hl Hp. pose proof Hp as [Hc _]. apply (prep_preferred queue l s k j b Hinv Hl) in Hp as [Hin Hb].
  destruct (pi_hidden _ _ _ Hinv) as [(-> & _)|[-> Hf]]; [by apply not_elem_of_nil in Hin|].
  destruct (found_seamless_bank s); [|by rewrite Hb]. rewrite (proj2 (Z.leb_le _ _) (Hf eq_refl)). symmetry. apply Z.leb_le.
  apply seamless_hidden; [|done]. destruct Hc as (_ & r & Hr & Hbk). apply (sh_times _ Hshape r); by eapply list_elem_of_lookup_2.
Qed.

Lemma preferred_exists queue l s q : prep_inv (length (ranks d)) l s → (∀ q, q ∈ l ↔ candidate queue q) →
  candidate queue q → ∃ q', preferred queue q'.
Proof.
  intros Hinv Hl Hq%Hl. pose proof (pi_found _ _ _ Hinv) as Hf.
  destruct (found_seamless_bank s) eqn:Hfs.
  - symmetry in Hf. apply existsb_exists in Hf as (q' & Hq'%list_elem_of_In & Hs).
    exists q'. split; [by apply Hl|by left].
  - destruct (pi_min _ _ _ Hinv Hfs) as [[-> _]|[(q' & Hq' & Hmin) Hall]]; [by apply not_elem_of_nil in Hq|].
    exists q'. split; [by apply Hl|]. right. intros q1 Hq1%Hl.
    split; [by apply (existsb_false_iff l)|]. rewrite Hmin. auto.
Qed.

Lemma initial_prep : prep_inv (length (ranks d)) []
  (mkPrep (replicate (Z.to_nat (ranksPerChannel i)) 0) MaxTick false false).
Proof.
  rewrite <- (sh_ranks _ Hshape), Nat2Z.id. constructor; simpl; try done.
  - apply length_replicate.
  - by intros k m [-> _]%lookup_replicate.
  - intros k m j [-> _]%lookup_replicate. rewrite Z.bits_0.
    split; [done|]. by intros (b & ?%not_elem_of_nil & _).
  - by left.
  - by left.
Qed.

(** [minBankPrep] marks exactly the preferred banks. *)
Lemma minBankPrep_ok queue : queue_ok d queue →
  ∃ mask hidden, minBankPrep i curTick now_bus d queue min_col_at = Ok (mask, hidden) ∧
    length mask = length (ranks d) ∧ (∀ q, candidate queue q → ∃ q', preferred queue q') ∧
    (∀ q, preferred queue q → hidden = (act_at (place_bank q) <=? hidden_act_max)) ∧
    ∀ k m j, mask !! k = Some m →
      is_u64 m ∧ (Z.testbit m (Z.of_nat j) = true ↔ ∃ b, preferred queue (k, j, b)).
Proof.
  intros Hq. unfold minBankPrep. destruct (got_waiting_ok queue Hq) as (w & -> & Hw). cbn [mbind res_bind].
  destruct (prep_ranks_ok queue w Hw (ranks d) 0 _ [] eq_refl initial_prep) as (s & l & -> & Hinv & Hl).
  { intros q. split; [by intros ?%not_elem_of_nil|]. intros [_ ?]. lia. }
  cbn [mbind res_bind]. do 2 eexists. split; [done|]. split; [by eapply pi_length|].
  split; [intros q; by eapply preferred_exists|].
  split; [intros [[k j] b]; by eapply prep_hidden|]. intros k m j Hk. split; [by eapply pi_range|]. rewrite (pi_bits _ _ _ Hinv k m j Hk).
  by setoid_rewrite (prep_preferred queue l s _ _ _ Hinv Hl).
Qed.

(** ** The choice *)

(** The bank of a packet that can be served now. *)
Definition ready_bank (p : QPacket) : option Bank :=
  if isDram p then
    r ← ranks d !! Z.to_nat (Nvm.l_rank (loc p));
    if inRefIdleState r then banks r !! Z.to_nat (Nvm.l_bank (loc p)) else None
  else None.

Definition col_at (p : QPacket) : Tick :=
  match ready_bank p with
  | Some b => if isRead p then rdAllowedAt b else wrAllowedAt b
  | None => 0
  end.

Definition row_hit (p : QPacket) : bool :=
  match ready_bank p with Some b => openRow b =? Nvm.l_row (loc p) | None => false end.
Definition seamless_hit (p : QPacket) : bool := row_hit p && (col_at p <=? min_col_at).

(** A miss on one of the banks of the mask. *)
Definition early_miss (mask : list Z) (p : QPacket) : bool :=
  match ready_bank p with
  | Some b => negb (openRow b =? Nvm.l_row (loc p)) &&
      Z.testbit (default 0 (mask !! Z.to_nat (Nvm.l_rank (loc p)))) (Nvm.l_bank (loc p))
  | None => false
  end.

(** The first packet of the queue with a property. *)
Fixpoint first (P : QPacket → bool) (queue : list QPacket) (idx : nat) : option (nat * Tick) :=
  match queue with
  | [] => None
  | p :: queue => if P p then Some (idx, col_at p) else first P queue (S idx)
  end.

(** A seamless hit; else a miss whose bank can be prepared in time; else a
    hit; else an earliest miss. *)
Definition frfcfs (mask : list Z) (hidden : bool) (queue : list QPacket) : option (nat * Tick) :=
  match first seamless_hit queue 0 with
  | Some s => Some s
  | None =>
      match first (early_miss mask) queue 0, first row_hit queue 0 with
      | Some e, Some h => Some (if hidden then e else h)
      | Some e, None => Some e
      | None, h => h
      end
  end.

Lemma bits_single m j : (j < 64)%nat →
  ∃ x, bits m (Z.of_nat j) (Z.of_nat j) = Ok x ∧ negb (x =? 0) = Z.testbit m (Z.of_nat j).
Proof.
  intros Hj. rewrite bits_ok by lia. eexists. split; [done|]. rewrite bits_val_spec by lia.
  replace (Z.of_nat j - Z.of_nat j + 1) with 1 by lia. rewrite Z.pow_1_r, <- Z.testbit_spec' by lia.
  by destruct (Z.testbit m (Z.of_nat j)).
Qed.

Section Loop.
Context (queue : list QPacket) (mask : list Z).
Hypothesis Hq : queue_ok d queue.
Hypothesis Hmask : length mask = length (ranks d).

Lemma choose_step_eq hidden p idx s : p ∈ queue →
  choose_step (Ok (mask, hidden)) d min_col_at p idx s =
  Ok (if seamless_hit p then
        (true, mkChoice (found_hidden_bank s) (found_prepped_pkt s) (found_earliest_pkt s) (Some idx, col_at p))
      else if row_hit p then
        (false, if negb (found_hidden_bank s) && negb (found_prepped_pkt s)
                then mkChoice (found_hidden_bank s) true (found_earliest_pkt s) (Some idx, col_at p) else s)
      else if early_miss mask p && negb (found_earliest_pkt s) then
        (false, mkChoice hidden (found_prepped_pkt s) true
                  (if hidden || negb (found_prepped_pkt s) then (Some idx, col_at p) else selected s))
      else (false, s)).
Proof.
  intros Hp. unfold choose_step, seamless_hit, row_hit, early_miss, col_at, ready_bank.
  destruct (isDram p) eqn:Hd; [|done]. destruct (Hq p Hp Hd) as (j & k & _ & Hj & Hk & Hlt & Hkb & _).
  rewrite Hj, Hk, !Nat2Z.id. destruct (lookup_lt_is_Some_2 (ranks d) j Hlt) as [r Hr].
  destruct (lookup_lt_is_Some_2 (banks r) k) as [b Hb].
  { pose proof (sh_banks _ Hshape r (list_elem_of_lookup_2 _ _ _ Hr)). lia. }
  unfold get_rank, get_bank. rewrite Hr. cbn [mbind res_bind option_bind]. rewrite Hb.
  cbn [mbind res_bind option_bind]. destruct (inRefIdleState r); [|done].
  destruct (openRow b =? Nvm.l_row (loc p)); cbn [andb negb].
  - destruct (_ <=? min_col_at); [done|]. by destruct (negb _ && negb _).
  - destruct (lookup_lt_is_Some_2 mask j) as [m Hm]; [lia|]. rewrite Hm. cbn [mbind res_bind default].
    destruct (bits_single m k) as (x & -> & Hx); [pose proof (sh_mask _ Hshape); lia|].
    cbn [mbind res_bind]. simpl. rewrite Hx. destruct (found_earliest_pkt s), (Z.testbit m (Z.of_nat k)); done.
Qed.

(** What the rest of a queue makes of the variables of the loop. *)
Definition finish (hidden : bool) (s : Choice) (e h : option (nat * Tick)) : option nat * Tick :=
  let pick x := (Some x.1, x.2) : option nat * Tick in
  let e := if found_earliest_pkt s then None else e in
  let h := if found_prepped_pkt s || found_hidden_bank s then None else h in
  match e, h with
  | Some e, Some h => pick (if hidden then e else h)
  | Some e, None => if hidden || negb (found_prepped_pkt s) then pick e else selected s
  | None, Some h => pick h
  | None, None => selected s
  end.

Lemma choose_loop_eq hidden q : ∀ n s, (∀ p, p ∈ q → p ∈ queue) →
  found_hidden_bank s = found_earliest_pkt s && hidden →
  choose_loop (Ok (mask, hidden)) d min_col_at q n s =
  Ok (match first seamless_hit q n with
      | Some x => (Some x.1, x.2)
      | None => finish hidden s (first (early_miss mask) q n) (first row_hit q n)
      end).
Proof.
  induction q as [|p q IH]; intros n s Hin Hs; simpl.
  { unfold finish. destruct (found_earliest_pkt s), (found_prepped_pkt s || found_hidden_bank s); done. }
  rewrite choose_step_eq by (apply Hin; by left). cbn [mbind res_bind].
  destruct (seamless_hit p) eqn:Hsh; [done|].
  assert (Hexcl : row_hit p = true → early_miss mask p = false).
  { unfold row_hit, early_miss. destruct (ready_bank p); [|done]. by intros ->. }
  assert (Hin' : ∀ p, p ∈ q → p ∈ queue) by (intros; apply Hin; by right).
  destruct s as [fh fp fe sel]. simpl in Hs. subst fh. cbn [found_hidden_bank found_prepped_pkt found_earliest_pkt selected].
  destruct (row_hit p) eqn:Hrow.
  - rewrite (Hexcl eq_refl). destruct fe, hidden, fp; cbn [negb andb orb]; rewrite IH by done;
      destruct (first seamless_hit q (S n)); try done; unfold finish; simpl;
      destruct (first (early_miss mask) q (S n)), (first row_hit q (S n)); done.
  - destruct (early_miss mask p), fe; cbn [negb andb]; destruct hidden, fp; cbn [negb andb orb];
      rewrite IH by done; destruct (first seamless_hit q (S n)); try done; unfold finish; simpl;
      destruct (first (early_miss mask) q (S n)), (first row_hit q (S n)); done.
Qed.

End Loop.

(** [mask] has the bits of the preferred banks. *)
Definition marks_preferred (queue : list QPacket) (mask : list Z) : Prop :=
  length mask = length (ranks d) ∧
  ∀ k m j, mask !! k = Some m → Z.testbit m (Z.of_nat j) = true ↔ ∃ b, preferred queue (k, j, b).

Lemma first_some P q p n : p ∈ q → P p = true → ∃ x, first P q n = Some x.
Proof.
  revert n; induction q as [|a q IH]; intros n; [by intros ?%not_elem_of_nil|].
  intros [->|Hp]%elem_of_cons HP; simpl; [rewrite HP; eauto|]. destruct (P a); eauto.
Qed.

Lemma first_sound P q n x t : first P q n = Some (x, t) →
  ∃ p, q !! (x - n)%nat = Some p ∧ (n ≤ x)%nat ∧ P p = true ∧ t = col_at p.
Proof.
  revert n; induction q as [|a q IH]; intros n; simpl; [done|].
  destruct (P a) eqn:HP; [intros [= <- <-]; exists a; by rewrite Nat.sub_diag|].
  intros (p & Hp & Hle & Hrest)%IH. exists p. split; [|split; [lia|done]].
  by replace (x - n)%nat with (S (x - S n)) by lia.
Qed.

Lemma ready_waiting queue p b : queue_ok d queue → p ∈ queue → ready_bank p = Some b →
  ∃ j k, at_bank d p j k ∧ candidate queue (j, k, b).
Proof.
  intros Hq Hp. unfold ready_bank. destruct (isDram p) eqn:Hd; [|done].
  destruct (Hq p Hp Hd) as (j & k & Hat). pose proof Hat as (_ & -> & -> & _). rewrite !Nat2Z.id.
  destruct (ranks d !! j) as [r|] eqn:Hr; [|done]. simpl. destruct (inRefIdleState r) eqn:Hi; [|done].
  intros Hb. exists j, k. split; [done|]. split; [|by exists r]. by exists p, r.
Qed.

Lemma preferred_packet queue mask j k b : marks_preferred queue mask → preferred queue (j, k, b) →
  ∃ p, p ∈ queue ∧ (row_hit p = true ∨ early_miss mask p = true).
Proof.
  intros [Hlen Hm] Hpref. pose proof Hpref as [[(p & r & Hp & Hat & Hr & Hidle) (r' & Hr' & Hb)] _].
  rewrite Hr in Hr'. injection Hr' as <-. exists p. split; [done|].
  destruct Hat as (Hd & Hj & Hk & Hlt & _ & _). unfold row_hit, early_miss, ready_bank.
  rewrite Hd, Hj, Hk, !Nat2Z.id, Hr. simpl. rewrite Hidle, Hb.
  destruct (openRow b =? Nvm.l_row (loc p)); [by left|right]. simpl.
  destruct (lookup_lt_is_Some_2 mask j) as [m Hmk]; [lia|]. rewrite Hmk. simpl.
  apply (Hm j m k Hmk). eauto.
Qed.

Lemma frfcfs_finds queue mask hidden p b : queue_ok d queue → marks_preferred queue mask →
  (∀ q, candidate queue q → ∃ q', preferred queue q') → p ∈ queue → ready_bank p = Some b →
  ∃ x, frfcfs mask hidden queue = Some x.
Proof.
  intros Hq Hm Hex Hp Hb. destruct (ready_waiting queue p b Hq Hp Hb) as (j & k & _ & Hc).
  destruct (Hex _ Hc) as ([[j' k'] b'] & Hpref).
  destruct (preferred_packet queue mask j' k' b' Hm Hpref) as (p' & Hp' & Hor).
  unfold frfcfs. destruct (first seamless_hit queue 0); [eauto|].
  destruct Hor as [Hh|He].
  - destruct (first_some row_hit queue p' 0 Hp' Hh) as (x & ->).
    destruct (first (early_miss mask) queue 0); eauto.
  - destruct (first_some (early_miss mask) queue p' 0 Hp' He) as (x & ->).
    destruct (first row_hit queue 0); eauto.
Qed.

Lemma frfcfs_ready queue mask hidden x t : frfcfs mask hidden queue = Some (x, t) →
  ∃ p b, queue !! x = Some p ∧ ready_bank p = Some b ∧ t = col_at p.
Proof.
  assert (H : ∀ P, (∀ p, P p = true → ∃ b, ready_bank p = Some b) →
    first P queue 0 = Some (x, t) → ∃ p b, queue !! x = Some p ∧ ready_bank p = Some b ∧ t = col_at p).
  { intros P HP (p & Hp & _ & HPp & Ht)%first_sound. rewrite Nat.sub_0_r in Hp.
    destruct (HP p HPp) as (b & Hb). eauto. }
  assert (Hh : ∀ p, row_hit p = true → ∃ b, ready_bank p = Some b)
    by (intros p; unfold row_hit; destruct (ready_bank p); eauto; done).
  assert (Hs : ∀ p, seamless_hit p = true → ∃ b, ready_bank p = Some b)
    by (intros p [? _]%andb_true_iff; auto).
  assert (He : ∀ p, early_miss mask p = true → ∃ b, ready_bank p = Some b)
    by (intros p; unfold early_miss; destruct (ready_bank p); eauto; done).
  unfold frfcfs. destruct (first seamless_hit queue 0) eqn:H1; [intros [= ->]; eauto|].
  destruct (first (early_miss mask) queue 0) eqn:H2, (first row_hit queue 0) eqn:H3; [destruct hidden|..];
    intros [= ->]; eauto.
Qed.

(** ** Theorems *)

(** C31: [chooseNextFRFCFS] of the DRAM interface always returns, and returns
    what first-ready, first-come-first-served with hidden bank preparation
    prescribes: the first seamless row hit; else the first miss on a preferred
    bank if its preparation is hidden; else the first row hit; else the first
    miss on a preferred bank.  The preferred banks, which [minBankPrep] marks,
    are the waiting banks whose burst can follow seamlessly, or those with the
    earliest activate when there is none; the preparation of a preferred bank
    is hidden if and only if its activate can come at [hidden_act_max] or
    before, which is the later of the present and of [tRCD] before the next
    slot on the data bus, an unsigned difference: with a slot before [tRCD] it
    wraps, and every preparation counts as hidden.  A packet is selected whenever the
    rank of some queued packet is available, and only such a packet. *)
Theorem dram_choice_frfcfs queue : queue_ok d queue →
  ∃ mask hidden,
    minBankPrep i curTick now_bus d queue min_col_at = Ok (mask, hidden) ∧
    marks_preferred queue mask ∧
    (∀ q, preferred queue q → hidden = (act_at (place_bank q) <=? hidden_act_max)) ∧
    chooseNextFRFCFS i curTick now_bus d queue min_col_at =
      Ok (match frfcfs mask hidden queue with Some x => (Some x.1, x.2) | None => (None, MaxTick) end) ∧
    ((∃ x, frfcfs mask hidden queue = Some x) ↔ ∃ p b, p ∈ queue ∧ ready_bank p = Some b).
Proof.
  intros Hq. destruct (minBankPrep_ok queue Hq) as (mask & hidden & Hprep & Hlen & Hex & Hhid & Hbits).
  assert (Hm : marks_preferred queue mask) by (split; [done|]; intros k m j Hk; by apply Hbits).
  exists mask, hidden. do 3 (split; [done|]). split.
  - unfold chooseNextFRFCFS. rewrite Hprep, (choose_loop_eq queue mask Hq Hlen hidden queue) by done.
    unfold frfcfs, finish. simpl. destruct (first seamless_hit queue 0); [done|].
    destruct (first (early_miss mask) queue 0), (first row_hit queue 0), hidden; done.
  - split.
    + intros ([x t] & Hx). destruct (frfcfs_ready queue mask hidden x t Hx) as (p & b & Hp & Hb & _).
      exists p, b. split; [by eapply list_elem_of_lookup_2|done].
    + intros (p & b & Hp & Hb). by eapply frfcfs_finds.
Qed.

End Choice.
Lemma ddr3_shape : shape ddr3 1000 Dev.READ (DRAM_new ddr3).
Proof.
  split; try done.
  - intros r Hr. change (r ∈ [Rank_new ddr3 0; Rank_new ddr3 1]) in Hr.
    rewrite !elem_of_cons, elem_of_nil in Hr. by destruct Hr as [->|[->|[]]].
  - intros r b Hr Hb. change (r ∈ [Rank_new ddr3 0; Rank_new ddr3 1]) in Hr.
    rewrite !elem_of_cons, elem_of_nil in Hr. destruct Hr as [->|[->|[]]];
      apply list_elem_of_fmap in Hb as (n & -> & _); vm_compute; split; discriminate.
Qed.

Lemma dram_choice_frfcfs_witness :
  ∃ mask hidden,
    minBankPrep ddr3 1000 Dev.READ (DRAM_new ddr3) [dram_packet true 0 3 5; dram_packet true 1 2 6] 20000 =
      Ok (mask, hidden) ∧
    chooseNextFRFCFS ddr3 1000 Dev.READ (DRAM_new ddr3)
      [dram_packet true 0 3 5; dram_packet true 1 2 6] 20000 =
      Ok (match frfcfs 20000 (DRAM_new ddr3) mask hidden [dram_packet true 0 3 5; dram_packet true 1 2 6] with
          | Some x => (Some x.1, x.2) | None => (None, MaxTick) end).
Proof.
  destruct (dram_choice_frfcfs ddr3 1000 Dev.READ 20000 (DRAM_new ddr3) ddr3_shape
    [dram_packet true 0 3 5; dram_packet true 1 2 6]) as (mask & hidden & Hm & _ & _ & Hc & _).
  - intros p Hp _. rewrite !elem_of_cons, elem_of_nil in Hp. destruct Hp as [->|[->|[]]].
    + exists 0%nat, 3%nat. by split_and!; try (simpl; lia).
    + exists 1%nat, 2%nat. by split_and!; try (simpl; lia).
  - exists mask, hidden. split; [exact Hm|exact Hc].
Defined.

End DramChoice.
