(* ===== verification/DramLegal.v ===== *)
(** * Every run of the DRAM interface obeys the timing of the device

    A run interleaves bursts, the events of the ranks, the calls of the
    controller and the passing of time.  The commands issued in a run, in the
    order in which they are issued, form a legal log. *)

From stdpp Require Import sorting.
From S2P Require Import Prelude.
From S2P Require Import Intmath.
From S2P Require Import CmdBus.
From S2P Require Import NvmDecode.
From S2P Require Import NvmDevice.
From S2P Require Import DramDevice.
From S2P Require Import DramTiming.
From S2P Require Import DramBurst.
From S2P Require Import DramRefresh.

Module DramLegal.
Import CmdBus.
Export DramBurst DramRefresh.

(** ** Runs *)

Inductive RankEvent := EvRefresh | EvPower | EvPrecharge | EvActivate | EvWriteDone | EvWakeUp.
#[export] Instance RankEvent_eq_dec : EqDecision RankEvent.
Proof. solve_decision. Defined.

Definition event_of (e : RankEvent) (v : Events) : Event :=
  match e with
  | EvRefresh => refreshEvent v
  | EvPower => powerEvent v
  | EvPrecharge => prechargeEvent v
  | EvActivate => activateEvent v
  | EvWriteDone => writeDoneEvent v
  | EvWakeUp => wakeUpEvent v
  end.

(** The commands that ranks [l] issued to become [l'], on top of [log]. *)
Fixpoint new_commands (j : nat) (l l' : list Rank) (log : Log) : Log :=
  match l, l' with
  | r :: l, r' :: l' =>
      new_commands (S j) l l' (issue j (drop (length (cmdList r)) (cmdList r')) log)
  | _, _ => log
  end.

Record Chan := mkChan { dram : DRAM; now : Tick; ticks : list Tick; log : Log }.

Section Runs.
Context (i : Interface).

(** An event fires: its flag is cleared, then the handler runs. *)
Definition run_event (v : CtrlView) (active curTick offset : Z) (e : RankEvent) (r : Rank) : res Rank :=
  match e with
  | EvRefresh => processRefreshEvent i v active curTick offset (fire set_refreshEvent refreshEvent r)
  | EvPower => '(r, _) ← processPowerEvent i v curTick (fire set_powerEvent powerEvent r); Ok r
  | EvPrecharge => processPrechargeEvent i v curTick (fire set_prechargeEvent prechargeEvent r)
  | EvActivate => processActivateEvent curTick (fire set_activateEvent activateEvent r)
  | EvWriteDone => processWriteDoneEvent (fire set_writeDoneEvent writeDoneEvent r)
  | EvWakeUp => processWakeUpEvent curTick (fire set_wakeUpEvent wakeUpEvent r)
  end.

(** The calls of the controller other than bursts. *)
Inductive Call :=
| CSetup (k : nat) (is_read : bool)
| CRespond (k : nat)
| CCheckRefresh (k : nat)
| CBusy
| CDrain
| CStartup
| CSuspend
| COtherBurst (cmd_at : Tick).

Definition run_call (v : CtrlView) (curTick : Tick) (c : Call) (d : DRAM) : res DRAM :=
  match c with
  | CSetup k rd => setupRank k rd d
  | CRespond k => respondEvent i v curTick k d
  | CCheckRefresh k => checkRefreshState curTick k d
  | CBusy => '(_, d) ← isBusy i v curTick d; Ok d
  | CDrain => drainRanks i curTick d
  | CStartup => startup i true curTick d
  | CSuspend => suspend i curTick d
  | COtherBurst t => Ok (addRankToRankDelay i t d)
  end.

Inductive step : Chan → Chan → Prop :=
| step_time d t t' ks lg :
    t ≤ t' →
    (∀ j r e, ranks d !! j = Some r → scheduled (event_of e (evs r)) = true →
              t' ≤ when (event_of e (evs r))) →
    step (mkChan d t ks lg) (mkChan d t' ks lg)
| step_burst d t ks lg m j k next_burst_at prio idx queues cmd_at next m' ks' d' :
    decoded i m j k →
    doBurstAccess i t ks d m next_burst_at prio idx queues = Ok (cmd_at, next, m', ks', d') →
    step (mkChan d t ks lg) (mkChan d' t ks' (new_commands 0 (ranks d) (ranks d') lg))
| step_event d t ks lg j r r' v e :
    ranks d !! j = Some r →
    scheduled (event_of e (evs r)) = true → when (event_of e (evs r)) = t →
    ¬ (e = EvRefresh ∧ refreshState r = REF_START) →
    run_event v (activeRank d) t (timeStampOffset d) e r = Ok r' →
    step (mkChan d t ks lg)
      (mkChan (set_rank j r' d) t ks (new_commands 0 (ranks d) (<[j := r']> (ranks d)) lg))
(** The refresh command. *)
| step_refresh d t ks lg j r r' v :
    ranks d !! j = Some r →
    scheduled (refreshEvent (evs r)) = true → when (refreshEvent (evs r)) = t →
    refreshState r = REF_START →
    run_event v (activeRank d) t (timeStampOffset d) EvRefresh r = Ok r' →
    step (mkChan d t ks lg) (mkChan (set_rank j r' d) t ks ((j, mkCommand REF 0 t) :: lg))
| step_call d t ks ks' lg v c d' :
    run_call v t c d = Ok d' →
    step (mkChan d t ks lg) (mkChan d' t ks' (new_commands 0 (ranks d) (ranks d') lg)).

Definition initial (s : Chan) : Prop :=
  dram s = DRAM_new i ∧ 0 ≤ now s ∧ log s = [].

Definition reachable (s : Chan) : Prop := ∃ s0, initial s0 ∧ rtc step s0 s.

(** The refresh command of a rank is due and a precharge event of the rank is
    still pending, which the handler does not check; and some state on the way
    to [s] was such. *)
Definition hasty (s : Chan) : Prop :=
  ∃ j r, ranks (dram s) !! j = Some r ∧ refreshState r = REF_START ∧ scheduled (refreshEvent (evs r)) = true ∧
    when (refreshEvent (evs r)) = now s ∧ scheduled (prechargeEvent (evs r)) = true.
Definition hastened (s : Chan) : Prop := ∃ s1, reachable s1 ∧ hasty s1 ∧ rtc step s1 s.

(** ** Logs of several ranks *)

Lemma new_commands_one l l' j0 j r r' lg : length l = length l' →
  l !! j = Some r → l' !! j = Some r' →
  (∀ k a a', k ≠ j → l !! k = Some a → l' !! k = Some a' → cmdList a' = cmdList a) →
  new_commands j0 l l' lg = issue (j0 + j) (drop (length (cmdList r)) (cmdList r')) lg.
Proof.
  revert l' j0 j lg. induction l as [|a l IH]; intros [|a' l'] j0 j lg Hlen Hj Hj' Hsame; try done.
  injection Hlen as Hlen. destruct j as [|j]; simplify_eq/=.
  - rewrite Nat.add_0_r. clear IH. generalize (issue j0 (drop (length (cmdList r)) (cmdList r')) lg).
    assert (Hs : ∀ k b b', l !! k = Some b → l' !! k = Some b' → cmdList b' = cmdList b)
      by (intros k b b'; apply (Hsame (S k)); done).
    clear Hsame. generalize (S j0). revert l' Hlen Hs.
    induction l as [|b l IH]; intros [|b' l'] Hlen Hs n lg'; try done. injection Hlen as Hlen. simpl.
    rewrite (Hs 0%nat b b'), drop_all by done. simpl. apply IH; [done|]. intros k. apply (Hs (S k)).
  - rewrite (Hsame 0%nat a a'), drop_all by done. simpl.
    rewrite (IH l' (S j0) j lg Hlen Hj Hj') by (intros k b b' Hk; apply (Hsame (S k)); congruence).
    f_equal. lia.
Qed.

(** Power commands on top of a log. *)
Inductive inert_ext : Log → Log → Prop :=
| ie_refl lg : inert_ext lg lg
| ie_cons j c lg lg' : inert c = true → inert_ext lg lg' → inert_ext lg ((j, c) :: lg').

Lemma inert_ext_issue lg lg' j cmds : inert_ext lg lg' → Forall (λ c, inert c = true) cmds →
  inert_ext lg (issue j cmds lg').
Proof.
  intros Hlg Hin. revert lg' Hlg. induction Hin as [|c cmds Hc _ IH]; intros lg' Hlg; [done|].
  apply IH. by constructor.
Qed.

Lemma inert_ext_legal lg lg' : inert_ext lg lg' → legal i lg → legal i lg'.
Proof.
  induction 1 as [|j c lg lg' Hc _ IH]; [done|]. intros Hl. split; [|auto].
  unfold inert in Hc. constructor; [|by destruct (c_type c)..].
  intros j0 c0 k q t _ Htg. unfold targets in Htg. by destruct (c_type c), q.
Qed.

Lemma inert_ext_rank lg lg' t j r : inert_ext lg lg' → rank_inv i lg t j r → rank_inv i lg' t j r.
Proof.
  induction 1 as [|j0 c lg lg' Hc _ IH]; [done|]. intros Hinv.
  apply rank_frame; [auto|..]; unfold inert, quiet, is_column in *; by destruct (c_type c).
Qed.

(** A rank that only delays, whatever becomes of the commands it has issued. *)
Definition delays (r r' : Rank) : Prop :=
  raised r r' ∧ Forall (λ c, inert c = true) (drop (length (cmdList r)) (cmdList r')).

Lemma delays_refl r : delays r r.
Proof. split; [apply raised_refl|]. by rewrite drop_all. Qed.

Lemma quietly_delays r r' : quietly r r' → delays r r'.
Proof. intros [Hr (cs & Hcs & Hin)]. split; [done|]. by rewrite Hcs, drop_app_length. Qed.

Lemma new_commands_delays l l' j lg : Forall2 delays l l' → inert_ext lg (new_commands j l l' lg).
Proof.
  intros Hd. assert (H0 : inert_ext lg lg) by constructor. revert H0.
  generalize lg at 2 4. revert j. induction Hd as [|r r' l l' [_ Hin] _ IH]; intros j lg' H; [done|].
  apply IH. by apply inert_ext_issue.
Qed.

(** ** Preservation *)

Definition chan_inv (s : Chan) : Prop :=
  0 ≤ now s ∧ legal i (log s) ∧ dram_inv i (log s) (now s) (dram s).

Lemma delays_inv lg t d d' : legal i lg → dram_inv i lg t d → Forall2 delays (ranks d) (ranks d') →
  legal i (new_commands 0 (ranks d) (ranks d') lg) ∧
  dram_inv i (new_commands 0 (ranks d) (ranks d') lg) t d'.
Proof.
  intros Hl Hinv Hd. pose proof (new_commands_delays _ _ 0 lg Hd) as Hext.
  split; [by eapply inert_ext_legal|]. intros j r' Hr'.
  destruct (Forall2_lookup_r _ _ _ _ _ Hd Hr') as (r & Hr & Hra & _).
  eapply inert_ext_rank; [done|]. eapply rank_raise; [by apply Hinv|done].
Qed.

Lemma rank_time lg t t' j r : t ≤ t' → rank_inv i lg t j r →
  (scheduled (prechargeEvent (evs r)) = true → t' ≤ when (prechargeEvent (evs r))) →
  rank_inv i lg t' j r.
Proof.
  intros Ht Hinv He.
  assert (Hh : horizon t r ≤ horizon t' r ∧ t' ≤ horizon t' r)
    by (unfold horizon; destruct (scheduled _); [specialize (He eq_refl)|]; lia).
  constructor; try apply Hinv.
  - intros k b Hk. destruct (ri_banks _ _ _ _ _ Hinv k b Hk) as [? ? ? Hcl ? ?]. constructor; try done.
    intros c d Hro Hin Hs. specialize (Hcl c d Hro Hin Hs). lia.
  - intros c Hin Hty. pose proof (ri_pre _ _ _ _ _ Hinv c Hin Hty). lia.
  - intros c Hin Hty. pose proof (ri_ref _ _ _ _ _ Hinv c Hin Hty). lia.
  - lia.
Qed.

Lemma rank_fired lg t j r e : rank_inv i lg t j r → horizon t (set_evs e r) = horizon t r →
  rank_inv i lg t j (set_evs e r).
Proof. intros Hinv Hh. constructor; rewrite ?Hh; apply Hinv. Qed.

(** *** One rank *)

Lemma rank_change lg t d j r r0 cmds r' : legal i lg → dram_inv i lg t d → ranks d !! j = Some r →
  cmdList r0 = cmdList r → issued i lg t j r0 cmds r' →
  let lg' := new_commands 0 (ranks d) (<[j := r']> (ranks d)) lg in
  legal i lg' ∧ dram_inv i lg' t (set_rank j r' d).
Proof.
  intros Hl Hinv Hj Hc0 [Hc Hrows Hleg Hr'] lg'. pose proof (lookup_lt_Some _ _ _ Hj) as Hlt.
  assert (Hlg : lg' = issue j cmds lg).
  { unfold lg'. rewrite (new_commands_one _ _ 0 j r r'); [|by rewrite length_insert|done|..].
    - by rewrite Hc, Hc0, drop_app_length.
    - by apply list_lookup_insert_eq.
    - intros k a a' Hk Ha. rewrite list_lookup_insert_ne by done. congruence. }
  rewrite Hlg. split; [auto|]. intros j' r1. simpl. destruct (decide (j' = j)) as [->|Hne].
  - rewrite list_lookup_insert_eq by done. by intros [= <-].
  - rewrite list_lookup_insert_ne by done. intros Hr1. apply frame_issue; auto.
Qed.

Lemma run_event_issued lg t j r v active_rank offset e r' : timing_ok i → 0 ≤ t → rank_inv i lg t j r →
  when (event_of e (evs r)) = t → scheduled (event_of e (evs r)) = true →
  ¬ (e = EvRefresh ∧ refreshState r = REF_START) → run_event v active_rank t offset e r = Ok r' →
  ∃ r0 cmds, cmdList r0 = cmdList r ∧ issued i lg t j r0 cmds r'.
Proof.
  intros Hi Ht Hinv Hw Hs Hns Hrun.
  assert (Hfire : ∀ ev, horizon t (set_evs ev r) = horizon t r → rank_inv i lg t j (set_evs ev r))
    by (intros ev; by apply rank_fired).
  destruct e; cbn [run_event event_of] in *; eexists (fire _ _ r).
  - apply (processRefreshEvent_issued i v t lg j) in Hrun as (cs & ?); [by exists cs|done..|by apply Hfire|].
    simpl. naive_solver.
  - unfold mbind, res_bind in Hrun. destruct (processPowerEvent _ _ _ _) as [[r1 b]|] eqn:Hp; [|done].
    injection Hrun as <-. apply processPowerEvent_quiet in Hp.
    apply (quiet_issued i t lg j) in Hp as (cs & ?); [by exists cs|by apply Hfire].
  - apply processPrechargeEvent_keeps in Hrun.
    apply (quiet_issued i t lg j) in Hrun as (cs & ?); [by exists cs|]. apply Hfire.
    unfold horizon. simpl. by rewrite Hs, Hw.
  - apply processActivateEvent_keeps in Hrun.
    apply (quiet_issued i t lg j) in Hrun as (cs & ?); [by exists cs|by apply Hfire].
  - apply processWriteDoneEvent_keeps in Hrun.
    apply (quiet_issued i t lg j) in Hrun as (cs & ?); [by exists cs|by apply Hfire].
  - apply processWakeUpEvent_keeps in Hrun.
    apply (quiet_issued i t lg j) in Hrun as (cs & ?); [by exists cs|by apply Hfire].
Qed.

Lemma refresh_command lg t d j r r' v : timing_ok i → legal i lg → dram_inv i lg t d →
  ranks d !! j = Some r → refreshState r = REF_START → scheduled (prechargeEvent (evs r)) = false →
  run_event v (activeRank d) t (timeStampOffset d) EvRefresh r = Ok r' →
  legal i ((j, mkCommand REF 0 t) :: lg) ∧ dram_inv i ((j, mkCommand REF 0 t) :: lg) t (set_rank j r' d).
Proof.
  intros Hi Hl Hinv Hj Hs He Hrun. cbn [run_event] in Hrun.
  rewrite processRefreshEvent_start in Hrun by done.
  apply (refresh_start_issued i t lg j) in Hrun as (Hm & Hr' & _); [|done|by apply rank_fired; [apply Hinv|]|done].
  split; [done|]. pose proof (lookup_lt_Some _ _ _ Hj). intros j' r1. simpl.
  destruct (decide (j' = j)) as [->|Hne].
  - rewrite list_lookup_insert_eq by done. by intros [= <-].
  - rewrite list_lookup_insert_ne by done. intros Hr1. apply rank_frame; [by apply Hinv|done..].
Qed.

(** *** Calls of the controller *)

Lemma each_rank_delays f l l' : (∀ r r', f r = Ok r' → delays r r') → each_rank f l = Ok l' →
  Forall2 delays l l'.
Proof.
  intros Hf. revert l'. induction l as [|r l IH]; intros l' H; simpl in H; inv_ok; [by constructor|].
  constructor; auto.
Qed.

Lemma set_rank_delays d j r r' : ranks d !! j = Some r → delays r r' →
  Forall2 delays (ranks d) (ranks (set_rank j r' d)).
Proof.
  intros Hj Hd. simpl. rewrite <- (list_insert_id (ranks d) j r Hj) at 1.
  apply Forall2_insert; [|done]. apply Forall_Forall2_diag, Forall_true. exact delays_refl.
Qed.

Lemma suspend_delays t offset r r' : Rank_suspend i t offset r = Ok r' → delays r r'.
Proof.
  unfold Rank_suspend. intros H. inv_ok. split; [destruct (raised_refl r); by constructor|].
  simpl. rewrite drop_ge; [done|].
  pose proof (length_filter (λ c, ¬ timeStamp c ≤ t) (merge_sort earlier (cmdList r))).
  by rewrite (merge_sort_Permutation earlier (cmdList r)) in H at 2.
Qed.

Lemma other_burst_delays t d : Forall2 delays (ranks d) (ranks (addRankToRankDelay i t d)).
Proof.
  simpl. apply Forall2_fmap_r, Forall_Forall2_diag, Forall_true. intros r. apply quietly_delays.
  split; [|exists []; by rewrite app_nil_r]. apply raised_upd_all. intros b.
  split_and!; try done. intros []; simpl; lia.
Qed.

Lemma run_call_delays v t c d d' : run_call v t c d = Ok d' → Forall2 delays (ranks d) (ranks d').
Proof.
  destruct c as [k rd|k|k| | | | |t']; cbn [run_call].
  - unfold setupRank, get_rank. destruct (ranks d !! k) as [r|] eqn:Hk; [|done]. intros [= <-].
    eapply set_rank_delays; [done|]. apply quietly_delays. destruct rd; by apply quietly_same.
  - unfold respondEvent, get_rank. destruct (ranks d !! k) as [r|] eqn:Hk; [|done]. cbn [mbind res_bind].
    intros H. inv_ok. eapply set_rank_delays; [done|]. apply quietly_delays. by eapply respond_rank_keeps.
  - unfold checkRefreshState, get_rank. destruct (ranks d !! k) as [r|] eqn:Hk; [|done]. cbn [mbind res_bind].
    destruct (_ && _); intros H; inv_ok.
    + eapply set_rank_delays; [done|]. apply quietly_delays. by eapply schedule_refresh_keeps.
    + apply Forall_Forall2_diag, Forall_true. exact delays_refl.
  - unfold isBusy. destruct (each_rank _ _) as [rs|] eqn:Hrs; [|done]. intros [= <-].
    eapply each_rank_delays; [|done].
    intros r r' Hr. apply quietly_delays. by eapply busy_rank_keeps.
  - unfold drainRanks. intros H. inv_ok. simpl. eapply each_rank_delays; [|done].
    intros r r' Hr. apply quietly_delays. revert Hr. cbv beta.
    destruct (bool_decide _); [apply scheduleWakeUpEvent_keeps|intros [= <-]; by apply quietly_same].
  - unfold startup. intros H. inv_ok. simpl. eapply each_rank_delays; [|done].
    intros r r' Hr. apply quietly_delays. by eapply Rank_startup_keeps.
  - unfold suspend. intros H. inv_ok. simpl. eapply each_rank_delays; [|done].
    intros r r'. apply suspend_delays.
  - intros [= <-]. apply other_burst_delays.
Qed.

(** *** Bursts *)

Lemma burst_accepts t ks d m j k nb prio idx queues x : decoded i m j k →
  doBurstAccess i t ks d m nb prio idx queues = Ok x → ∃ r, ranks d !! j = Some r ∧ accepts r.
Proof.
  intros Hdec. unfold doBurstAccess, get_rank. rewrite (de_rank _ _ _ _ Hdec), Nat2Z.id.
  destruct (ranks d !! j) as [r|]; [|done]. cbn [mbind res_bind]. intros H. exists r. split; [done|].
  destruct (inRefIdleState r) eqn:Hidle; [|done]. cbn [assertb mbind res_bind] in H.
  split; [by apply bool_decide_eq_true in Hidle|]. intros Hlow. rewrite Hlow in H.
  case_bool_decide as Hp; [done|]. split; [done|]. cbn [negb assertb mbind res_bind] in H.
  destruct (scheduled (wakeUpEvent (evs r))) eqn:He; [|done].
  unfold scheduleWakeUpEvent, Dev.schedule in H. rewrite He in H.
  by destruct (t <=? _).
Qed.

Lemma burst_step lg t ks d m j k nb prio idx queues cmd_at next m' ks' d' :
  timing_ok i → 0 ≤ t → legal i lg → dram_inv i lg t d → decoded i m j k →
  doBurstAccess i t ks d m nb prio idx queues = Ok (cmd_at, next, m', ks', d') →
  legal i (new_commands 0 (ranks d) (ranks d') lg) ∧
  dram_inv i (new_commands 0 (ranks d) (ranks d') lg) t d'.
Proof.
  intros Hi Ht Hl Hinv Hdec Hb. destruct (burst_accepts _ _ _ _ _ _ _ _ _ _ _ Hdec Hb) as (r & Hr & Hacc).
  destruct (doBurstAccess_ok i lg t ks d m nb prio idx queues j k r Hi Ht Hinv Hl Hr Hacc Hdec)
    as (? & ? & ? & ? & d1 & r1 & cs & Hb1 & [Hr1 Hc Hleg Hinv1 Hlen Hother _ _ _ _]).
  rewrite Hb1 in Hb. inv_ok.
  rewrite (new_commands_one _ _ 0 j r r1), Hc, drop_app_length; try done.
  intros n a a' Hn Ha Ha'. destruct (Hother n a' Hn Ha') as (r0 & ? & ?). congruence.
Qed.

Lemma step_inv s s' : timing_ok i → step s s' → chan_inv s → chan_inv s' ∨ hasty s.
Proof.
  intros Hi Hstep (Ht & Hl & Hinv). destruct Hstep; simpl in *.
  - left. split; [simpl; lia|]. split; [done|]. intros j r Hr. simpl in *.
    eapply rank_time; [done|by apply Hinv|]. by apply (H0 j r EvPrecharge).
  - left. split; [done|]. by eapply burst_step.
  - left. split; [done|]. destruct (run_event_issued lg t j r v (activeRank d) (timeStampOffset d) e r')
      as (r0 & cs & Hc & Hiss); try done; [by apply Hinv|]. by eapply rank_change.
  - destruct (scheduled (prechargeEvent (evs r))) eqn:Hpre; [right; by exists j, r|left]. split; [done|]. by eapply refresh_command.
  - left. split; [done|]. apply delays_inv; [done..|]. by eapply run_call_delays.
Qed.

Lemma active_new : active (Bank_new i <$> seqZ 0 (banksPerRank i)) = 0.
Proof. apply active_zero. by intros b (n & -> & _)%list_elem_of_fmap. Qed.

Lemma dram_initial_inv s : timing_ok i → initial s → chan_inv s.
Proof.
  intros Hi (Hd & Ht & Hl). split; [done|]. rewrite Hl. split; [done|].
  intros j r. rewrite Hd. simpl. rewrite list_lookup_fmap. intros (n & _ & ->)%fmap_Some.
  constructor; try by intros ? ?%not_elem_of_nil.
  - intros k b. simpl. rewrite list_lookup_fmap. intros (m & Hm & ->)%fmap_Some.
    apply lookup_seqZ in Hm as [-> _].
    constructor; [done|done|by intros ? ? ? ? ?%not_elem_of_nil|by intros ? ? _ ?%not_elem_of_nil|done|].
    left. unfold oldest. simpl. destruct (last _) as [x|] eqn:Hx; [|done].
    by apply last_Some_elem_of, elem_of_replicate in Hx as [-> _].
  - simpl. rewrite length_fmap, length_seqZ. destruct Hi; lia.
  - simpl. by rewrite active_new.
  - simpl. by rewrite take_ge by (by rewrite length_replicate).
  - unfold horizon. simpl. lia.
Qed.

Lemma dram_reachable_inv s : timing_ok i → reachable s → chan_inv s ∨ hastened s.
Proof.
  intros Hi (s0 & H0 & Hsteps). pose proof (dram_initial_inv _ Hi H0) as Hinv.
  assert (reachable s0) as Hr by (by exists s0). clear H0.
  induction Hsteps as [|s1 s2 s3 Hstep Hrest IH]; [by left|]. destruct (step_inv _ _ Hi Hstep Hinv) as [Hinv2|Hh].
  - apply IH; [done|]. destruct Hr as (s0 & H0 & Hs). exists s0. split; [done|]. by eapply rtc_r.
  - right. exists s1. split; [done|]. split; [done|]. by eapply rtc_l.
Qed.

(** ** Theorems *)

(** C4: in every run of a DRAM channel from its start, whatever the order of
    bursts, refresh, power and precharge events, controller calls and the
    passing of time, the commands issued are legal for the device: each
    respects the minimum distance to every earlier command (tRRD, tRCD, tRAS,
    tRTP, write recovery, tRP, tRFC, tCCD, bus turnaround and rank-to-rank
    delays), a row is opened only when the bank is closed and read, written or
    precharged only when it is open, a refresh finds all banks closed, and no
    more than the limit of activates fall into the activation window, where
    activates at tick 0 do not count, since the code takes a recorded tick of
    0 for no activate.  The one exception are runs in which at some point the
    refresh command of a rank was due while a precharge event of the rank was
    still pending, which the refresh handler does not check. *)
Theorem dram_timing_legal s : timing_ok i → reachable s → legal i (log s) ∨ hastened s.
Proof. intros Hi Hs. destruct (dram_reachable_inv s Hi Hs) as [(_ & Hl & _)|Hh]; [by left|by right]. Qed.

(** In every reachable state of the channel, up to the same exception, a burst
    to a rank that is not refreshing and is not in self refresh returns: no
    assertion, panic or divergence; the packet gets its ready time, the data
    command is issued at or after the current tick and the other ranks issue
    nothing. *)
Theorem dram_burst_served s m j k r next_burst_at prio idx queues :
  timing_ok i → reachable s → ranks (dram s) !! j = Some r → accepts r → decoded i m j k →
  (∃ t next m' ticks' d' r' cmds,
    doBurstAccess i (now s) (ticks s) (dram s) m next_burst_at prio idx queues =
      Ok (t, next, m', ticks', d') ∧
    burst_result i (log s) (now s) (dram s) m j r t next m' cmds d' r') ∨ hastened s.
Proof.
  intros Hi Hs Hj Hacc Hdec. destruct (dram_reachable_inv s Hi Hs) as [(Ht & Hl & Hinv)|Hh]; [left|by right].
  by eapply doBurstAccess_ok.
Qed.

End Runs.
(** ** A run *)

Definition ex_start : Chan := mkChan (DRAM_new ddr3) 1000 [] [].

Definition after_burst (m : QPacket) (s : Chan) : Chan :=
  match doBurstAccess ddr3 (now s) (ticks s) (dram s) m 0 0 0 [[m]] with
  | Ok (_, _, _, ks, d) => mkChan d (now s) ks (new_commands 0 (ranks (dram s)) (ranks d) (log s))
  | Err _ => s
  end.

Lemma ex_timing : timing_ok ddr3.
Proof. split; vm_compute; intuition congruence. Qed.

Lemma ex_decoded rd j k row : (j < 2)%nat → (k < 8)%nat → row ≠ NO_ROW →
  decoded ddr3 (dram_packet rd (Z.of_nat j) (Z.of_nat k) row) j k.
Proof. intros Hj Hk Hr. by split; simpl; try lia. Qed.

Lemma after_burst_step m j k s0 s : decoded ddr3 m j k → rtc (step ddr3) s0 s →
  rtc (step ddr3) s0 (after_burst m s).
Proof.
  intros Hdec Hs. etransitivity; [exact Hs|]. unfold after_burst. destruct s as [d t ks lg]. cbn [dram now ticks log].
  destruct (doBurstAccess _ _ _ _ _ _ _ _ _) as [[[[[? ?] ?] ?] ?]|] eqn:Hb; [|done].
  apply rtc_once. by eapply step_burst.
Qed.

(** Two reads of different rows of a bank, then a write to the other rank. *)
Definition ex_run : Chan :=
  after_burst (dram_packet false 1 3 9)
    (after_burst (dram_packet true 0 2 6) (after_burst (dram_packet true 0 2 5) ex_start)).

Lemma ex_run_reachable : reachable ddr3 ex_run.
Proof.
  exists ex_start. split; [done|]. unfold ex_run.
  eapply (after_burst_step _ 1 3); [by apply (ex_decoded false 1 3); [lia..|]|].
  eapply (after_burst_step _ 0 2); [by apply (ex_decoded true 0 2); [lia..|]|].
  eapply (after_burst_step _ 0 2); [by apply (ex_decoded true 0 2); [lia..|]|]. done.
Qed.

Lemma dram_timing_legal_witness :
  map (λ c : nat * Command, (Z.of_nat c.1, c_type c.2, timeStamp c.2)) (log ex_run) =
    [(1, WR, 71000); (1, ACT, 1000); (0, RD, 63500); (0, ACT, 49750); (0, PRE, 36000); (0, RD, 14750);
     (0, ACT, 1000)] ∧
  (legal ddr3 (log ex_run) ∨ hastened ddr3 ex_run).
Proof.
  split; [vm_compute; reflexivity|apply dram_timing_legal; [apply ex_timing|apply ex_run_reachable]].
Defined.

Lemma dram_burst_served_witness :
  (∃ t next m' ticks' d' r' cmds,
    doBurstAccess ddr3 (now ex_start) (ticks ex_start) (dram ex_start) (dram_packet true 0 2 5) 0 0 0 [] =
      Ok (t, next, m', ticks', d') ∧
    burst_result ddr3 (log ex_start) (now ex_start) (dram ex_start) (dram_packet true 0 2 5) 0
      (Rank_new ddr3 0) t next m' cmds d' r') ∨ hastened ddr3 ex_start.
Proof.
  apply (dram_burst_served ddr3 ex_start (dram_packet true 0 2 5) 0 2 (Rank_new ddr3 0) 0 0 0 []).
  - apply ex_timing.
  - exists ex_start. split; [done|apply rtc_refl].
  - vm_compute. reflexivity.
  - by split.
  - by apply (ex_decoded true 0 2); [lia..|].
Defined.

End DramLegal.

(** ** The refresh cycle of a rank

    A rank with all rows closed and nothing in flight refreshes through five
    events; the cycle returns it to the same kind of state, so refreshes repeat
    for ever at a fixed distance. *)
Module DramCycle.
Import CmdBus.
Export DramLegal.

Section Cycle.
Context (i : Interface) (v : CtrlView) (active_rank offset : Z).

(** [e] is the next event of the rank, at [t], and its handler returns [r']. *)
Record fires (e : RankEvent) (t : Tick) (r r' : Rank) : Prop := {
  fi_scheduled : scheduled (event_of e (evs r)) = true;
  fi_when : when (event_of e (evs r)) = t;
  fi_next e' : scheduled (event_of e' (evs r)) = true → t ≤ when (event_of e' (evs r));
  fi_run : run_event i v active_rank t offset e r = Ok r';
}.

(** Events in sequence, with their times. *)
Inductive fires_all : list (RankEvent * Tick) → Rank → Rank → Prop :=
| fa_nil r : fires_all [] r r
| fa_cons e t l r1 r2 r3 : fires e t r1 r2 → fires_all l r2 r3 → fires_all ((e, t) :: l) r1 r3.

Definition only_refresh (t : Tick) (x : Events) : Prop :=
  refreshEvent x = Dev.mkEvent true t ∧
  ∀ e, e ≠ EvRefresh → scheduled (event_of e x) = false.

(** Nothing open, nothing in flight, the next refresh at [t]. *)
Record resting (t : Tick) (r : Rank) : Prop := {
  re_power : pwrState (pw r) = PWR_IDLE ∧ pwrStatePostRefresh (pw r) = PWR_IDLE ∧
    inLowPowerState (pw r) = false ∧ pwrStateTick (pw r) ≤ t;
  re_state : refreshState r = REF_IDLE;
  re_rows : numBanksActive r = 0;
  re_count : outstandingEvents r = 0;
  re_events : only_refresh t (evs r);
}.

(** No request for the rank is being scheduled, the controller does not drain,
    and power down is off. *)
Record calm (r : Rank) : Prop := {
  ca_request : rank r ≠ active_rank ∨ requestEventScheduled v = false;
  ca_draining : draining v = false;
  ca_powerdown : enableDRAMPowerdown i = false;
}.

Definition cycle (t : Tick) : list (RankEvent * Tick) :=
  [(EvRefresh, t); (EvPower, t); (EvRefresh, t); (EvRefresh, t + tRFC i); (EvPower, t + tRFC i)].

Section Stages.
Context (rk rd wr lb : Z) (we ac pc wk : Event) (acts : list Tick) (wake : Tick).
Context (Hwe : scheduled we = false) (Hac : scheduled ac = false) (Hpc : scheduled pc = false)
  (Hwk : scheduled wk = false).
Context (Hreq : rk ≠ active_rank ∨ requestEventScheduled v = false) (Hdr : draining v = false)
  (Hpd : enableDRAMPowerdown i = false).

(** The rank at the stages of the cycle. *)
Definition stage (p : PowerState * PowerState) (tick : Tick) (st : RefreshState) (due n : Z)
    (refresh power : Event) (bs : list Bank) (cl : list Command) (se : list (MemCommand * Z * Z)) : Rank :=
  mkRank rk (mkPower p.1 p.2 PWR_IDLE tick false wake) st due rd wr n
    (mkEvents we ac pc refresh power wk) bs 0 acts lb cl se.

Lemma stage_refresh t p1 tick due e bs cl se :
  run_event i v active_rank t offset EvRefresh
    (stage (PWR_IDLE, p1) tick REF_IDLE due 0 (Dev.mkEvent true t) (Dev.mkEvent false e) bs cl se) =
  Ok (stage (PWR_IDLE, PWR_REF) tick REF_PRE t 1 (Dev.mkEvent false t) (Dev.mkEvent true t) bs cl se).
Proof.
  transitivity (if (rk =? active_rank) && requestEventScheduled v
    then Ok (stage (PWR_IDLE, p1) tick REF_DRAIN t 1 (Dev.mkEvent false t) (Dev.mkEvent false e) bs cl se)
    else r ← schedulePowerEvent t PWR_REF t
               (stage (PWR_IDLE, p1) tick REF_PRE t 1 (Dev.mkEvent false t) (Dev.mkEvent false e) bs cl se);
         assertb (numBanksActive r =? 0);; Ok r); [reflexivity|].
  assert ((rk =? active_rank) && requestEventScheduled v = false) as ->
    by (destruct Hreq as [Hr%Z.eqb_neq| ->]; [by rewrite Hr|apply andb_false_r]).
  unfold schedulePowerEvent, Dev.schedule. by rewrite Z.leb_refl.
Qed.

Lemma stage_power t p tick due e bs cl se : tick ≤ t →
  run_event i v active_rank t offset EvPower
    (stage (PWR_IDLE, PWR_REF) tick REF_PRE due 1 (Dev.mkEvent false e) (Dev.mkEvent true p) bs cl se) =
  Ok (stage (PWR_REF, PWR_REF) t REF_START due 1 (Dev.mkEvent true t) (Dev.mkEvent false p) bs cl se).
Proof.
  intros Ht%Z.leb_le. unfold run_event, processPowerEvent.
  replace (pwrStateTick _ <=? t) with true by done.
  transitivity ('(r, _) ← (r ← (r ← schedule_refresh t t
      (stage (PWR_REF, PWR_REF) t REF_PRE due 1 (Dev.mkEvent false e) (Dev.mkEvent false p) bs cl se);
    Ok (set_refreshState REF_START r)); Ok (r, false)); Ok r); [reflexivity|].
  unfold schedule_refresh, Dev.schedule. by rewrite Z.leb_refl.
Qed.

Lemma stage_start t e tick due bs cl se : 0 ≤ tRFC i → t + tRFC i ≤ due + tREFI i →
  ∃ cl' se', run_event i v active_rank t offset EvRefresh
    (stage (PWR_REF, PWR_REF) tick REF_START due 1 (Dev.mkEvent true t) (Dev.mkEvent false e) bs cl se) =
  Ok (stage (PWR_REF, PWR_REF) tick REF_RUN (due + tREFI i) 1 (Dev.mkEvent true (t + tRFC i))
        (Dev.mkEvent false e) (set_actAllowedAt (t + tRFC i) <$> bs) cl' se').
Proof.
  intros Hrfc Hdue. cbn [run_event]. rewrite processRefreshEvent_start by done.
  unfold refresh_start. cbn [numBanksActive stage fire set_evs]. rewrite Z.eqb_refl. cbn [assertb mbind res_bind].
  rewrite bool_decide_true by done. cbn [assertb mbind res_bind].
  unfold fatal_if. rewrite (proj2 (Z.ltb_ge _ _)) by (simpl; lia). cbn [mbind res_bind].
  unfold schedule_refresh. rewrite dev_schedule_ok by (done || lia). by do 2 eexists.
Qed.

Lemma stage_run t e tick due bs cl se : t ≤ due - tRP i →
  run_event i v active_rank t offset EvRefresh
    (stage (PWR_REF, PWR_REF) tick REF_RUN due 1 (Dev.mkEvent true t) (Dev.mkEvent false e) bs cl se) =
  Ok (stage (PWR_REF, PWR_IDLE) tick REF_RUN due 1 (Dev.mkEvent true (due - tRP i)) (Dev.mkEvent true t)
        bs cl se).
Proof.
  intros Hdue. set (r := stage (PWR_REF, PWR_REF) tick REF_RUN due 1 (Dev.mkEvent false t)
    (Dev.mkEvent false e) bs cl se).
  transitivity (r ← (if draining v then schedulePowerEvent t PWR_IDLE t r
    else if isQueueEmpty v r && enableDRAMPowerdown i
         then assertb (outstandingEvents r =? 1);; powerDownSleep i t PWR_PRE_PDN t r
         else schedulePowerEvent t PWR_IDLE t r);
    schedule_refresh t (refreshDueAt r - tRP i) r); [reflexivity|].
  rewrite Hdr, Hpd, andb_false_r. unfold schedulePowerEvent, schedule_refresh, Dev.schedule.
  rewrite Z.leb_refl. cbn [assertb mbind res_bind]. simpl. by rewrite (proj2 (Z.leb_le _ _) Hdue).
Qed.

Lemma stage_done t e p tick due bs cl se : tick ≤ t →
  run_event i v active_rank t offset EvPower
    (stage (PWR_REF, PWR_IDLE) tick REF_RUN due 1 (Dev.mkEvent true e) (Dev.mkEvent true p) bs cl se) =
  Ok (stage (PWR_IDLE, PWR_IDLE) t REF_IDLE due 0 (Dev.mkEvent true e) (Dev.mkEvent false p) bs cl se).
Proof.
  intros Ht%Z.leb_le. unfold run_event, processPowerEvent.
  by replace (pwrStateTick _ <=? t) with true by done.
Qed.

Lemma stage_fires p tick st due n ref pow bs cl se e t r' :
  match e with EvRefresh => ref = Dev.mkEvent true t | EvPower => pow = Dev.mkEvent true t | _ => False end →
  (scheduled ref = true → t ≤ when ref) → (scheduled pow = true → t ≤ when pow) →
  run_event i v active_rank t offset e (stage p tick st due n ref pow bs cl se) = Ok r' →
  fires e t (stage p tick st due n ref pow bs cl se) r'.
Proof.
  intros He Href Hpow Hrun. constructor; [| | |done].
  - destruct e; try done; by subst.
  - destruct e; try done; by subst.
  - intros e' He'. destruct e'; simpl in *; auto; congruence.
Qed.

Lemma stage_cycle t p1 tick due e bs cl se : tick ≤ t → 0 ≤ tRFC i → tRFC i + tRP i ≤ tREFI i → 0 ≤ tRP i →
  ∃ cl' se', fires_all (cycle t)
    (stage (PWR_IDLE, p1) tick REF_IDLE due 0 (Dev.mkEvent true t) (Dev.mkEvent false e) bs cl se)
    (stage (PWR_IDLE, PWR_IDLE) (t + tRFC i) REF_IDLE (t + tREFI i) 0
       (Dev.mkEvent true (t + tREFI i - tRP i)) (Dev.mkEvent false (t + tRFC i))
       (set_actAllowedAt (t + tRFC i) <$> bs) cl' se').
Proof.
  intros Ht Hrfc Hrefi Hrp. destruct (stage_start t t t t bs cl se Hrfc) as (cl' & se' & Hstart); [lia|].
  exists cl', se'. unfold cycle.
  eapply fa_cons; [eapply stage_fires; [done|simpl; lia|done|apply stage_refresh]|].
  eapply fa_cons; [eapply stage_fires; [done|done|simpl; lia|by apply stage_power]|].
  eapply fa_cons; [eapply stage_fires; [done|simpl; lia|done|exact Hstart]|].
  eapply fa_cons; [eapply stage_fires; [done|simpl; lia|done|apply stage_run; lia]|].
  eapply fa_cons; [eapply stage_fires; [done|simpl; lia|simpl; lia|apply stage_done; lia]|].
  constructor.
Qed.

(** The next refresh would be due before the current one ends. *)
Lemma stage_run_late t e tick due bs cl se : due - tRP i < t →
  run_event i v active_rank t offset EvRefresh
    (stage (PWR_REF, PWR_REF) tick REF_RUN due 1 (Dev.mkEvent true t) (Dev.mkEvent false e) bs cl se) =
  Err AssertFail.
Proof.
  intros Hdue. set (r := stage (PWR_REF, PWR_REF) tick REF_RUN due 1 (Dev.mkEvent false t)
    (Dev.mkEvent false e) bs cl se).
  transitivity (r ← (if draining v then schedulePowerEvent t PWR_IDLE t r
    else if isQueueEmpty v r && enableDRAMPowerdown i
         then assertb (outstandingEvents r =? 1);; powerDownSleep i t PWR_PRE_PDN t r
         else schedulePowerEvent t PWR_IDLE t r);
    schedule_refresh t (refreshDueAt r - tRP i) r); [reflexivity|].
  rewrite Hdr, Hpd, andb_false_r. unfold schedulePowerEvent, schedule_refresh, Dev.schedule.
  rewrite Z.leb_refl. cbn [assertb mbind res_bind]. simpl. by rewrite (proj2 (Z.leb_gt _ _) Hdue).
Qed.

End Stages.

Lemma refresh_cycle_step t r : resting t r → calm r → 0 ≤ tRFC i → 0 ≤ tRP i →
  tRFC i + tRP i ≤ tREFI i →
  ∃ r', fires_all (cycle t) r r' ∧ resting (t + tREFI i - tRP i) r' ∧ calm r' ∧
    ∀ b, b ∈ banks r' → actAllowedAt b = t + tRFC i.
Proof.
  intros [(Hp & Hpost & Hlow & Htick) Hst Hrows Hcount [Hev Hoth]] [Hreq Hdr Hpd] Hrfc Hrp Hrefi.
  pose proof (Hoth EvPower) as Hpw. pose proof (Hoth EvPrecharge) as Hpc. pose proof (Hoth EvActivate) as Hac.
  pose proof (Hoth EvWriteDone) as Hwe. pose proof (Hoth EvWakeUp) as Hwk.
  destruct r as [rk [ps tr post tick low wake] st due rd wr n [we ac pc ref [ps' pe] wk] bs na acts lb cl se].
  simpl in *. subst. rewrite (Hpw ltac:(done)).
  destruct (stage_cycle rk rd wr lb we ac pc wk acts wake) with (t := t) (p1 := tr) (tick := tick)
    (due := due) (e := pe) (bs := bs) (cl := cl) (se := se) as (cl' & se' & Hfires); auto.
  eexists. split; [exact Hfires|]. split; [|split].
  - constructor; simpl; try done; [split_and!; try done; lia|]. split; [done|].
    intros e' He'. destruct e'; simpl; try done; auto.
  - by constructor.
  - simpl. by intros b (b' & -> & _)%list_elem_of_fmap.
Qed.

(** ** Theorems *)

(** The events of [n] refresh cycles from [t] on. *)
Fixpoint cycles (n : nat) (t : Tick) : list (RankEvent * Tick) :=
  match n with O => [] | S n => cycle t ++ cycles n (t + tREFI i - tRP i) end.

Lemma fires_app l1 l2 r1 r2 r3 : fires_all l1 r1 r2 → fires_all l2 r2 r3 → fires_all (l1 ++ l2) r1 r3.
Proof. induction 1; [done|]. intros. simpl. econstructor; eauto. Qed.

(** A rank at rest refreshes for ever without a request being able to stop
    it: its next events are, for any number [n] of rounds, the refresh event at
    the due time, the power event, the refresh command at the same tick, the
    end of the refresh tRFC later and the return to the idle state; the rank is
    then at rest again, and the rounds are tREFI - tRP apart. *)
Theorem refresh_cycles_forever n t r : resting t r → calm r → 0 ≤ tRFC i → 0 ≤ tRP i →
  tRFC i + tRP i ≤ tREFI i →
  ∃ r', fires_all (cycles n t) r r' ∧ resting (t + Z.of_nat n * (tREFI i - tRP i)) r'.
Proof.
  intros Hr Hc Hrfc Hrp Hrefi. revert t r Hr Hc. induction n as [|n IH]; intros t r Hr Hc.
  - exists r. split; [constructor|]. by rewrite Z.add_0_r.
  - destruct (refresh_cycle_step t r Hr Hc Hrfc Hrp Hrefi) as (r1 & Hf1 & Hr1 & Hc1 & _).
    destruct (IH _ _ Hr1 Hc1) as (r2 & Hf2 & Hr2). exists r2. split; [by eapply fires_app|].
    replace (t + Z.of_nat (S n) * (tREFI i - tRP i))
      with (t + tREFI i - tRP i + Z.of_nat n * (tREFI i - tRP i)) by lia. done.
Qed.

(** A rank about to refresh; [due] is when the refresh was due. *)
Record starting (t due : Tick) (r : Rank) : Prop := {
  st_power : pwrState (pw r) = PWR_REF ∧ pwrStateTrans (pw r) = PWR_REF ∧
    pwrStatePostRefresh (pw r) = PWR_IDLE ∧ inLowPowerState (pw r) = false;
  st_state : refreshState r = REF_START;
  st_rows : numBanksActive r = 0;
  st_count : outstandingEvents r = 1;
  st_due : refreshDueAt r = due;
  st_events : only_refresh t (evs r);
}.

(** The check for a refresh that comes too late misses the last tRP: when
    the refresh ends within the tRP before the next one is due, the command is
    issued without the fatal error "Refresh was delayed so long", and the
    event at its end stops the simulator with the assertion of [schedule]. *)
Theorem late_refresh_asserts t due r : starting t due r → calm r → 0 ≤ tRFC i →
  t + tRFC i ≤ due + tREFI i < t + tRFC i + tRP i →
  ∃ r', fires EvRefresh t r r' ∧ refreshEvent (evs r') = Dev.mkEvent true (t + tRFC i) ∧
    run_event i v active_rank (t + tRFC i) offset EvRefresh r' = Err AssertFail.
Proof.
  intros [(Hp & Htr & Hpost & Hlow) Hst Hrows Hcount Hdue [Hev Hoth]] [Hreq Hdr Hpd] Hrfc Hlate.
  pose proof (Hoth EvPower) as Hpw. pose proof (Hoth EvPrecharge) as Hpc. pose proof (Hoth EvActivate) as Hac.
  pose proof (Hoth EvWriteDone) as Hwe. pose proof (Hoth EvWakeUp) as Hwk.
  destruct r as [rk [ps tr post tick low wake] st du rd wr n [we ac pc ref [ps' pe] wk] bs na acts lb cl se].
  simpl in *. subst. rewrite (Hpw ltac:(done)).
  destruct (stage_start rk rd wr lb we ac pc wk acts wake t pe tick due bs cl se Hrfc)
    as (cl' & se' & Hstart); [lia|].
  eexists. split; [eapply stage_fires in Hstart; [exact Hstart|auto; simpl; lia..]|].
  split; [done|]. apply stage_run_late; try done; lia.
Qed.

End Cycle.
(** ** Witnesses *)

(** Rank 1 of the device after [startup] at tick 0. *)
Definition started : Rank :=
  match Rank_startup 0 (tREFI ddr3 - tRP ddr3) (Rank_new ddr3 1) with Ok r => r | Err _ => Rank_new ddr3 1 end.

Definition quiet_view : CtrlView := mkCtrlView Dev.READ Dev.READ true false false.

Lemma refresh_cycles_forever_witness :
  ∃ r', fires_all ddr3 quiet_view 0 0 (cycles ddr3 3 (tREFI ddr3 - tRP ddr3)) started r' ∧
    resting (4 * (tREFI ddr3 - tRP ddr3)) r'.
Proof.
  apply (refresh_cycles_forever ddr3 quiet_view 0 0 3 (tREFI ddr3 - tRP ddr3) started).
  - constructor; [by split_and!|done..|split; [done|by intros []]].
  - constructor; [left|done..]. vm_compute. discriminate.
  - vm_compute. discriminate.
  - vm_compute. discriminate.
  - vm_compute. discriminate.
Defined.

(** A refresh that starts 7.53 us after it was due. *)
Definition late : Rank :=
  set_evs (set_refreshEvent (Dev.mkEvent true 7530000) (evs (Rank_new ddr3 1)))
    (set_outstanding 1 (set_refreshState REF_START
      (set_pw (mkPower PWR_REF PWR_REF PWR_IDLE 7530000 false 0) (Rank_new ddr3 1)))).

Lemma late_refresh_asserts_witness :
  ∃ r', fires ddr3 quiet_view 0 0 EvRefresh 7530000 late r' ∧
    refreshEvent (evs r') = Dev.mkEvent true 7790000 ∧
    run_event ddr3 quiet_view 0 7790000 0 EvRefresh r' = Err AssertFail.
Proof.
  apply (late_refresh_asserts ddr3 quiet_view 0 0 7530000 0 late).
  - constructor; [by split_and!|done..|split; [done|by intros []]].
  - constructor; [left|done..]. vm_compute. discriminate.
  - vm_compute. discriminate.
  - vm_compute. split; [discriminate|reflexivity].
Defined.

End DramCycle.
