(* ===== verification/MemCtrl.v ===== *)
(** * The memory controller ([mem/mem_ctrl.cc], [mem/qos/mem_ctrl.cc])

    The controller with an NVM interface and no DRAM interface
    ([dram == nullptr]), without QoS policies: reception and splitting of
    requests, the read, write and response queues, the bus direction state
    machine and the request scheduler.  Statistics are left out; what leaves
    the controller (accesses to the storage, responses, retries) is recorded
    in [outputs]. *)

From S2P Require Import Prelude.
From S2P Require Import Intmath.
From S2P Require Import AddrRange.
From S2P Require Import CmdBus.
From S2P Require Import NvmDecode.
From S2P Require Import NvmDevice.

Module Ctrl.
Export Dev.

(** ** Configuration *)

Inductive MemSched := fcfs | frfcfs.

Record Config := mkConfig {
  intf : Interface;
  memSchedPolicy : MemSched;
  c_readBufferSize : Z;
  c_writeBufferSize : Z;
  writeHighThreshold : Z;
  writeLowThreshold : Z;
  minWritesPerSwitch : Z;
  frontendLatency : Tick;
  backendLatency : Tick;
  commandWindow : Tick;
  numPriorities : Z;
}.

(** The thresholds are percentages of the write buffer, truncated. *)
Definition MemCtrl_config (i : Interface) (policy : MemSched)
    (write_high_thresh_perc write_low_thresh_perc min_writes_per_switch : Z)
    (static_frontend_latency static_backend_latency command_window qos_priorities : Z) :
    res Config :=
  fatal_if (write_high_thresh_perc <=? write_low_thresh_perc);;
  Ok (mkConfig i policy (readBufferSize i) (writeBufferSize i)
        (u32 (writeBufferSize i * write_high_thresh_perc) / 100)
        (u32 (writeBufferSize i * write_low_thresh_perc) / 100)
        min_writes_per_switch static_frontend_latency static_backend_latency command_window
        qos_priorities).

(** ** State *)

Record Bus := mkBus {
  busState : BusState;
  busStateNext : BusState;
  nextBurstAt : Tick;
  nextReqTime : Tick;
  burstTicks : list Tick;
  writesThisTime : Z;
  readsThisTime : Z;
}.

Record Qos := mkQos {
  requestors : gset Z;
  packetPriorities : gmap Z (list Z);
  requestTimes : gmap Z (gmap Z (list Tick));
  readQueueSizes : list Z;
  writeQueueSizes : list Z;
  totalReadQueueSize : Z;
  totalWriteQueueSize : Z;
}.

Record BurstHelper := mkBurstHelper { burstCount : Z; burstsServiced : Z }.

Record Queues := mkQueues {
  readQueue : list (list MemPacket);
  writeQueue : list (list MemPacket);
  respQueue : list MemPacket;
  isInWriteQueue : gset Z;
  helpers : gmap Z BurstHelper;
  next_helper : Z;
}.

Inductive DrainState := Running | Draining | Drained | Resuming.
#[export] Instance DrainState_eq_dec : EqDecision DrainState.
Proof. solve_decision. Defined.

Inductive Output :=
| Access (p : Packet)
| Response (p : Packet) (t : Tick)
| RetryReq
| DrainDone.

Record Front := mkFront {
  isTimingMode : bool;
  retryRdReq : bool;
  retryWrReq : bool;
  prevArrival : Tick;
  nextReqEvent : Event;
  respondEvent : Event;
  drainState : DrainState;
  outputs : list Output;
}.

Record State := mkState {
  now : Tick;
  nvm : NVM;
  bus : Bus;
  qos : Qos;
  qs : Queues;
  front : Front;
}.

Definition with_now t s := mkState t (nvm s) (bus s) (qos s) (qs s) (front s).
Definition with_nvm n s := mkState (now s) n (bus s) (qos s) (qs s) (front s).
Definition with_bus b s := mkState (now s) (nvm s) b (qos s) (qs s) (front s).
Definition with_qos q s := mkState (now s) (nvm s) (bus s) q (qs s) (front s).
Definition with_qs q s := mkState (now s) (nvm s) (bus s) (qos s) q (front s).
Definition with_front f s := mkState (now s) (nvm s) (bus s) (qos s) (qs s) f.

Definition set_nextReqEvent e f :=
  mkFront (isTimingMode f) (retryRdReq f) (retryWrReq f) (prevArrival f) e (respondEvent f)
    (drainState f) (outputs f).
Definition set_respondEvent e f :=
  mkFront (isTimingMode f) (retryRdReq f) (retryWrReq f) (prevArrival f) (nextReqEvent f) e
    (drainState f) (outputs f).
Definition set_drainState d f :=
  mkFront (isTimingMode f) (retryRdReq f) (retryWrReq f) (prevArrival f) (nextReqEvent f)
    (respondEvent f) d (outputs f).
Definition set_retryRdReq b f :=
  mkFront (isTimingMode f) b (retryWrReq f) (prevArrival f) (nextReqEvent f) (respondEvent f)
    (drainState f) (outputs f).
Definition set_retryWrReq b f :=
  mkFront (isTimingMode f) (retryRdReq f) b (prevArrival f) (nextReqEvent f) (respondEvent f)
    (drainState f) (outputs f).
Definition set_prevArrival t f :=
  mkFront (isTimingMode f) (retryRdReq f) (retryWrReq f) t (nextReqEvent f) (respondEvent f)
    (drainState f) (outputs f).
Definition emit o f :=
  mkFront (isTimingMode f) (retryRdReq f) (retryWrReq f) (prevArrival f) (nextReqEvent f)
    (respondEvent f) (drainState f) (outputs f ++ [o]).
Definition set_isTimingMode b f :=
  mkFront b (retryRdReq f) (retryWrReq f) (prevArrival f) (nextReqEvent f) (respondEvent f)
    (drainState f) (outputs f).

Definition set_readQueue r q :=
  mkQueues r (writeQueue q) (respQueue q) (isInWriteQueue q) (helpers q) (next_helper q).
Definition set_writeQueue w q :=
  mkQueues (readQueue q) w (respQueue q) (isInWriteQueue q) (helpers q) (next_helper q).
Definition set_respQueue r q :=
  mkQueues (readQueue q) (writeQueue q) r (isInWriteQueue q) (helpers q) (next_helper q).
Definition set_isInWriteQueue w q :=
  mkQueues (readQueue q) (writeQueue q) (respQueue q) w (helpers q) (next_helper q).
Definition set_helpers h q :=
  mkQueues (readQueue q) (writeQueue q) (respQueue q) (isInWriteQueue q) h (next_helper q).

Definition set_busStateNext b u :=
  mkBus (busState u) b (nextBurstAt u) (nextReqTime u) (burstTicks u) (writesThisTime u)
    (readsThisTime u).
Definition set_burstTicks t u :=
  mkBus (busState u) (busStateNext u) (nextBurstAt u) (nextReqTime u) t (writesThisTime u)
    (readsThisTime u).

(** ** QoS bookkeeping *)

(** A vector element updated in place; out of bounds is undefined. *)
Definition vec_update (f : Z → Z) (k : Z) (v : list Z) : res (list Z) :=
  match v !! Z.to_nat k with Some x => Ok (<[Z.to_nat k := f x]> v) | None => Err Undef end.

Definition addRequestor (c : Config) (id : Z) (q : Qos) : Qos :=
  if bool_decide (id ∈ requestors q) then q
  else mkQos ({[id]} ∪ requestors q)
         (<[id := replicate (Z.to_nat (numPriorities c)) 0]> (packetPriorities q))
         (requestTimes q) (readQueueSizes q) (writeQueueSizes q) (totalReadQueueSize q)
         (totalWriteQueueSize q).

(** Adds [d] entries to the sizes of the queues of direction [dir]. *)
Definition add_sizes (dir : BusState) (prio d : Z) (q : Qos) : res Qos :=
  match dir with
  | READ =>
      v ← vec_update (λ x, u64 (x + d)) prio (readQueueSizes q);
      Ok (mkQos (requestors q) (packetPriorities q) (requestTimes q) v (writeQueueSizes q)
            (u64 (totalReadQueueSize q + d)) (totalWriteQueueSize q))
  | WRITE =>
      v ← vec_update (λ x, u64 (x + d)) prio (writeQueueSizes q);
      Ok (mkQos (requestors q) (packetPriorities q) (requestTimes q) (readQueueSizes q) v
            (totalReadQueueSize q) (u64 (totalWriteQueueSize q + d)))
  end.

Definition set_packetPriorities p q :=
  mkQos (requestors q) p (requestTimes q) (readQueueSizes q) (writeQueueSizes q)
    (totalReadQueueSize q) (totalWriteQueueSize q).
Definition set_requestTimes t q :=
  mkQos (requestors q) (packetPriorities q) t (readQueueSizes q) (writeQueueSizes q)
    (totalReadQueueSize q) (totalWriteQueueSize q).

(** [requestTimes[id][addr]], an empty deque when there is none. *)
Definition times_of (q : Qos) (id addr : Z) : list Tick :=
  default [] (default ∅ (requestTimes q !! id) !! addr).

(** With one entry, as the controller calls it. *)
Definition logRequest (c : Config) (curTick : Tick) (dir : BusState) (id prio addr : Z) (q : Qos) :
    res Qos :=
  let q := addRequestor c id q in
  q ← add_sizes dir prio 1 q;
  v ← vec_update (λ x, u64 (x + 1)) prio (default [] (packetPriorities q !! id));
  let times := <[addr := times_of q id addr ++ [curTick]]> (default ∅ (requestTimes q !! id)) in
  Ok (set_requestTimes (<[id := times]> (requestTimes q))
       (set_packetPriorities (<[id := v]> (packetPriorities q)) q)).

Definition logResponse (dir : BusState) (id prio addr : Z) (q : Qos) : res Qos :=
  panic_if (negb (bool_decide (id ∈ requestors q)));;
  q ← add_sizes dir prio (-1) q;
  let v := default [] (packetPriorities q !! id) in
  n ← match v !! Z.to_nat prio with Some n => Ok n | None => Err Undef end;
  panic_if (n =? 0);;
  v ← vec_update (λ x, u64 (x - 1)) prio v;
  let times := default ∅ (requestTimes q !! id) in
  l ← match times !! addr with Some l => Ok l | None => Err PanicFail end;
  match l with
  | [] => Err Undef
  | _ :: l =>
      let times := match l with [] => delete addr times | _ => <[addr := l]> times end in
      Ok (set_requestTimes (<[id := times]> (requestTimes q))
           (set_packetPriorities (<[id := v]> (packetPriorities q)) q))
  end.

(** [qosSchedule] without a policy: the packet keeps its own priority. *)
Definition qosSchedule (c : Config) (p : Packet) : res unit :=
  assertb (p_qosValue p <? numPriorities c).

(** ** Small queries *)

Section Operations.
Context (c : Config).

Definition burst_size : Z := burstSize (intf c).

Definition burstAlign (addr : Z) : Z := Z.land addr (not64 (u32 (burst_size - 1))).

Definition read_queue_len (s : State) : Z :=
  totalReadQueueSize (qos s) + Z.of_nat (length (respQueue (qs s))).

Definition readQueueFull (s : State) (neededEntries : Z) : bool :=
  c_readBufferSize c <? u64 (read_queue_len s + neededEntries).

Definition writeQueueFull (s : State) (neededEntries : Z) : bool :=
  c_writeBufferSize c <? u64 (totalWriteQueueSize (qos s) + neededEntries).

Definition inReadBusState (u : Bus) (next_state : bool) : bool :=
  if next_state then is_READ (busStateNext u) else is_READ (busState u).

Definition inWriteBusState (u : Bus) (next_state : bool) : bool :=
  if next_state then negb (is_READ (busStateNext u)) else negb (is_READ (busState u)).

Definition packetReady (s : State) (p : MemPacket) : bool :=
  burstReady (intf c) (now s) (busStateNext (bus s)) (nvm s) p.

Definition ctrl_minReadToWriteDataGap : Tick := Z.min MaxTick (minReadToWriteDataGap (intf c)).
Definition ctrl_minWriteToReadDataGap : Tick := Z.min MaxTick (minWriteToReadDataGap (intf c)).

Definition allIntfDrained (s : State) : bool := writeRespQueueEmpty (nvm s).

(** [schedule(nextReqEvent, curTick())] unless it is scheduled already. *)
Definition kick (s : State) : res State :=
  if scheduled (nextReqEvent (front s)) then Ok s
  else e ← schedule (now s) (nextReqEvent (front s)) (now s);
       Ok (with_front (set_nextReqEvent e (front s)) s).

(** ** Start of simulation *)

Definition MemCtrl_new : State :=
  let n := Z.to_nat (numPriorities c) in
  mkState 0 (NVM_new (intf c)) (mkBus READ READ 0 0 [] 0 0)
    (mkQos ∅ ∅ ∅ (replicate n 0) (replicate n 0) 0 0)
    (mkQueues (replicate n []) (replicate n []) [] ∅ ∅ 0)
    (mkFront false false false 0 idle idle Running []).

Definition startup (sys_timing : bool) (s : State) : State :=
  let s := with_front (set_isTimingMode sys_timing (front s)) s in
  if sys_timing then
    let u := bus s in
    with_bus (mkBus (busState u) (busStateNext u) (now s + commandOffset (intf c))
                (nextReqTime u) (burstTicks u) (writesThisTime u) (readsThisTime u)) s
  else s.

(** ** Responses *)

Definition accessAndRespond (p : Packet) (static_latency : Tick) (s : State) : res State :=
  panic_if (negb (contains (range (intf c)) (p_addr p)));;
  let f := emit (Access p) (front s) in
  let f := if p_needsResponse p
           then emit (Response p (now s + static_latency + p_headerDelay p + p_payloadDelay p)) f
           else f in
  Ok (with_front f s).

(** The latency of an atomic access; the access itself is recorded. *)
Definition recvAtomic (p : Packet) (hasData : bool) (s : State) : res (Tick * State) :=
  panic_if (p_cacheResponding p);;
  panic_if (negb (contains (range (intf c)) (p_addr p)));;
  Ok (if hasData then accessLatency (intf c) else 0,
      with_front (emit (Access p) (front s)) s).

(** ** Accepting requests *)

(** The bytes of the burst of [addr] the packet covers. *)
Definition burst_end (addr : Z) : Z := u64 (Z.lor addr (u32 (burst_size - 1)) + 1).
Definition chunk_size (p : Packet) (addr : Z) : Z :=
  u32 (Z.min (burst_end addr) (u64 (p_addr p + p_size p)) - addr).

(** Is the read subsumed in an entry of this write queue? *)
Definition covers (addr size : Z) (w : MemPacket) : bool :=
  (m_addr w <=? addr) && (u64 (addr + size) <=? u64 (m_addr w + m_size w)).

(** The number of write queues with an entry that subsumes the read. *)
Definition serviced_by_writes (s : State) (addr size : Z) : Z :=
  if bool_decide (burstAlign addr ∈ isInWriteQueue (qs s)) then
    foldr (λ vec acc, acc + if existsb (covers addr size) vec then 1 else 0) 0 (writeQueue (qs s))
  else 0.

(** [queue[prio].push_back(m)] on a vector of queues. *)
Definition push_queue (prio : Z) (m : MemPacket) (v : list (list MemPacket)) :
    res (list (list MemPacket)) :=
  match v !! Z.to_nat prio with
  | Some q => Ok (<[Z.to_nat prio := q ++ [m]]> v)
  | None => Err Undef
  end.

(** Enqueues one burst of a read. *)
Definition enqueue_read (p : Packet) (addr size : Z) (helper : option Z) (s : State) : res State :=
  l ← decodePacket (intf c) addr;
  let m := set_helper helper (set_ready MaxTick (MemPacket_new (now s) p true l addr size)) in
  let s := with_nvm (setupRank true (nvm s)) s in
  assertb (negb (readQueueFull s 1));;
  r ← push_queue (m_qos m) m (readQueue (qs s));
  let s := with_qs (set_readQueue r (qs s)) s in
  q ← logRequest c (now s) READ (p_requestorId p) (p_qosValue p) addr (qos s);
  Ok (with_qos q s).

(** The burst helper of a split packet, made at its first queued burst. *)
Definition get_helper (pkt_count : Z) (helper : option Z) (s : State) : option Z * State :=
  match helper with
  | Some h => (Some h, s)
  | None =>
      if 1 <? pkt_count then
        let q := qs s in
        (Some (next_helper q),
         with_qs (mkQueues (readQueue q) (writeQueue q) (respQueue q) (isInWriteQueue q)
           (<[next_helper q := mkBurstHelper pkt_count 0]> (helpers q)) (next_helper q + 1)) s)
      else (None, s)
  end.

Fixpoint read_loop (cnt : nat) (pkt_count : Z) (p : Packet) (addr serviced : Z)
    (helper : option Z) (s : State) : res (Z * option Z * State) :=
  match cnt with
  | O => Ok (serviced, helper, s)
  | S cnt =>
      let size := chunk_size p addr in
      _ ← ceilLog2 4 size;
      let hits := serviced_by_writes s addr size in
      if 0 <? hits then read_loop cnt pkt_count p (burst_end addr) (u32 (serviced + hits)) helper s
      else
        let '(helper, s) := get_helper pkt_count helper s in
        s ← enqueue_read p addr size helper s;
        read_loop cnt pkt_count p (burst_end addr) serviced helper s
  end.

Definition addToReadQueue (p : Packet) (pkt_count : Z) (s : State) : res State :=
  assertb (negb (p_isWrite p));;
  assertb (negb (pkt_count =? 0));;
  '(serviced, helper, s) ← read_loop (Z.to_nat pkt_count) pkt_count p (p_addr p) 0 None s;
  if serviced =? pkt_count then accessAndRespond p (frontendLatency c) s
  else
    let s := match helper with
             | None => s
             | Some h =>
                 with_qs (set_helpers (alter (λ b, mkBurstHelper (burstCount b) serviced) h
                                         (helpers (qs s))) (qs s)) s
             end in
    kick s.

(** Enqueues one burst of a write, unless its burst is queued already. *)
Definition enqueue_write (p : Packet) (addr size : Z) (s : State) : res State :=
  if bool_decide (burstAlign addr ∈ isInWriteQueue (qs s)) then Ok s
  else
    l ← decodePacket (intf c) addr;
    let m := MemPacket_new (now s) p false l addr size in
    let s := with_nvm (setupRank false (nvm s)) s in
    assertb (totalWriteQueueSize (qos s) <? c_writeBufferSize c);;
    w ← push_queue (m_qos m) m (writeQueue (qs s));
    let s := with_qs (set_isInWriteQueue ({[burstAlign addr]} ∪ isInWriteQueue (qs s))
                       (set_writeQueue w (qs s))) s in
    q ← logRequest c (now s) WRITE (p_requestorId p) (p_qosValue p) addr (qos s);
    let s := with_qos q s in
    assertb (totalWriteQueueSize (qos s) =? Z.of_nat (base.size (isInWriteQueue (qs s))));;
    Ok s.

Fixpoint write_loop (cnt : nat) (p : Packet) (addr : Z) (s : State) : res State :=
  match cnt with
  | O => Ok s
  | S cnt =>
      let size := chunk_size p addr in
      _ ← ceilLog2 4 size;
      s ← enqueue_write p addr size s;
      write_loop cnt p (burst_end addr) s
  end.

Definition addToWriteQueue (p : Packet) (pkt_count : Z) (s : State) : res State :=
  assertb (p_isWrite p);;
  s ← write_loop (Z.to_nat pkt_count) p (p_addr p) s;
  s ← accessAndRespond p (frontendLatency c) s;
  kick s.

(** How many bursts the packet touches. *)
Definition pkt_count_of (p : Packet) : res Z :=
  let offset := u32 (Z.land (p_addr p) (u32 (burst_size - 1))) in
  udiv (u32 (u32 (offset + p_size p) + burst_size - 1)) burst_size.

Definition recvTimingReq (p : Packet) (s : State) : res (bool * State) :=
  panic_if (p_cacheResponding p);;
  panic_if (negb (p_isRead p || p_isWrite p));;
  let s := with_front (set_prevArrival (now s) (front s)) s in
  panic_if (negb (contains (range (intf c)) (p_addr p)));;
  pkt_count ← pkt_count_of p;
  qosSchedule c p;;
  if p_isWrite p then
    assertb (negb (p_size p =? 0));;
    if writeQueueFull s pkt_count then
      Ok (false, with_front (set_retryWrReq true (front s)) s)
    else s ← addToWriteQueue p pkt_count s; Ok (true, s)
  else
    assertb (p_isRead p);;
    assertb (negb (p_size p =? 0));;
    if readQueueFull s pkt_count then
      Ok (false, with_front (set_retryRdReq true (front s)) s)
    else s ← addToReadQueue p pkt_count s; Ok (true, s).

(** ** Draining *)

Definition signalDrainDone (s : State) : State :=
  match drainState (front s) with
  | Draining => with_front (emit DrainDone (set_drainState Drained (front s))) s
  | _ => s
  end.

(** [Drainable::dmDrain] and [MemCtrl::drain]. *)
Definition drain (s : State) : res State :=
  if negb ((totalWriteQueueSize (qos s) =? 0) && (totalReadQueueSize (qos s) =? 0) &&
           bool_decide (length (respQueue (qs s)) = 0%nat) && allIntfDrained s)
  then
    s ← (if (totalWriteQueueSize (qos s) =? 0) && negb (scheduled (nextReqEvent (front s)))
         then kick s else Ok s);
    Ok (with_front (set_drainState Draining (front s)) s)
  else Ok (with_front (set_drainState Drained (front s)) s).

(** [Drainable::dmDrainResume] and [MemCtrl::drainResume]; [dram->startup()]
    dereferences a null pointer here. *)
Definition drainResume (sys_timing : bool) (s : State) : res State :=
  panic_if (negb (bool_decide (drainState (front s) = Drained)) &&
            negb (bool_decide (drainState (front s) = Resuming)));;
  let s := with_front (set_drainState Running (front s)) s in
  if negb (isTimingMode (front s)) && sys_timing then Err Undef
  else Ok (with_front (set_isTimingMode sys_timing (front s)) s).

(** ** Completing reads *)

(** The response to the system packet of a read burst, if it is the last. *)
Definition respond_burst (m : MemPacket) (s : State) : res State :=
  let latency := frontendLatency c + backendLatency c in
  match burstHelper m with
  | None => accessAndRespond (m_pkt m) latency s
  | Some h =>
      match helpers (qs s) !! h with
      | None => Err Undef
      | Some b =>
          let b := mkBurstHelper (burstCount b) (u32 (burstsServiced b + 1)) in
          if burstsServiced b =? burstCount b then
            s ← accessAndRespond (m_pkt m) latency s;
            Ok (with_qs (set_helpers (delete h (helpers (qs s))) (qs s)) s)
          else Ok (with_qs (set_helpers (<[h := b]> (helpers (qs s))) (qs s)) s)
      end
  end.

Definition retry_read (s : State) : State :=
  if retryRdReq (front s) then with_front (emit RetryReq (set_retryRdReq false (front s))) s
  else s.

(** With an empty queue and no drain to signal, the code goes on to read
    [mem_pkt->isDram()] although the packet was deleted above, which is
    undefined; the test is taken to give what it gave before the packet was
    deleted, false for a packet of the NVM interface, so that
    [dram->checkRefreshState] is not called. *)
Definition processRespondEvent (s : State) : res State :=
  match respQueue (qs s) with
  | [] => Err Undef
  | m :: queue =>
      s ← respond_burst m s;
      let s := with_qs (set_respQueue queue (qs s)) s in
      s ← match queue with
          | m' :: _ =>
              assertb (now s <=? readyTime m');;
              e ← schedule (now s) (respondEvent (front s)) (readyTime m');
              Ok (with_front (set_respondEvent e (front s)) s)
          | [] =>
              if bool_decide (drainState (front s) = Draining) &&
                 (totalWriteQueueSize (qos s) =? 0) && (totalReadQueueSize (qos s) =? 0) &&
                 allIntfDrained s
              then Ok (signalDrainDone s) else Ok s
          end;
      Ok (retry_read s)
  end.

(** ** Scheduling requests *)

Definition ctrl_chooseNextFRFCFS (s : State) (queue : list MemPacket) (extra_col_delay : Tick) :
    res (option nat) :=
  let min_col_at := Z.max (nextBurstAt (bus s) + extra_col_delay) (now s) in
  '(selected, _) ← Dev.chooseNextFRFCFS (intf c) (now s) (busStateNext (bus s)) (nvm s) queue
                     min_col_at;
  Ok selected.

Definition chooseNext (s : State) (queue : list MemPacket) (extra_col_delay : Tick) :
    res (option nat) :=
  match queue with
  | [] => Ok None
  | [p] => Ok (if packetReady s p then Some 0%nat else None)
  | _ =>
      match memSchedPolicy c with
      | fcfs => Ok (fst <$> list_find (λ p, packetReady s p = true) queue)
      | frfcfs => ctrl_chooseNextFRFCFS s queue extra_col_delay
      end
  end.

(** The queues from the highest priority down; gives the priority and the
    position of the packet chosen. *)
Fixpoint choose_prio (s : State) (queues : list (list MemPacket)) (gap : Tick) (prio : nat) :
    res (option (nat * nat * MemPacket)) :=
  match prio with
  | O => Ok None
  | S prio =>
      match queues !! prio with
      | None => Err Undef
      | Some queue =>
          r ← chooseNext s queue gap;
          match r with
          | None => choose_prio s queues gap prio
          | Some idx =>
              match queue !! idx with Some p => Ok (Some (prio, idx, p)) | None => Err Undef end
          end
      end
  end.

(** [queue[m->qosValue()].erase(it)], [it] an iterator into queue [prio]. *)
Definition erase_packet (m : MemPacket) (prio idx : nat) (v : list (list MemPacket)) :
    res (list (list MemPacket)) :=
  if (Z.to_nat (m_qos m) =? prio)%nat then Ok (alter (delete idx) prio v) else Err Undef.

Definition ctrl_doBurstAccess (m : MemPacket) (s : State) : res (MemPacket * State) :=
  let ticks := pruneBurstTick (now s) (burstTicks (bus s)) in
  '(_, next, m, ticks, n) ←
    Dev.doBurstAccess (intf c) (commandWindow c) (now s) ticks (nvm s) m (nextBurstAt (bus s));
  let u := bus s in
  let u := mkBus (busState u) (busStateNext u) next (next - commandOffset (intf c)) ticks
             (if m_read m then writesThisTime u else u32 (writesThisTime u + 1))
             (if m_read m then u32 (readsThisTime u + 1) else readsThisTime u) in
  Ok (m, with_nvm n (with_bus u s)).

(** The bus direction of this event. *)
Definition switch_bus (s : State) : bool * State :=
  let u := bus s in
  let switched := negb (bool_decide (busState u = busStateNext u)) in
  let reads := if switched && is_READ (busState u) then 0 else readsThisTime u in
  let writes := if switched && negb (is_READ (busState u)) then 0 else writesThisTime u in
  (switched, with_bus (mkBus (busStateNext u) (busStateNext u) (nextBurstAt u) (nextReqTime u)
     (burstTicks u) writes reads) s).

(** Issues a read to the media from every queue, from the highest priority
    down, while reads wait. *)
Fixpoint issue_reads (prio : nat) (s : State) : res State :=
  match prio with
  | O => Ok s
  | S prio =>
      s ← (if readsWaitingToIssue (intf c) (nvm s) then
             match readQueue (qs s) !! prio with
             | None => Err Undef
             | Some queue =>
                 '(ticks, n, queue) ← chooseRead (intf c) (commandWindow c) (now s)
                                        (burstTicks (bus s)) (nvm s) queue;
                 Ok (with_qs (set_readQueue (<[prio := queue]> (readQueue (qs s))) (qs s))
                      (with_nvm n (with_bus (set_burstTicks ticks (bus s)) s)))
             end
           else Ok s);
      issue_reads prio s
  end.

(** An early return of the handler, or the rest of its body. *)
Inductive Flow := Return (s : State) | Continue (s : State).

(** The read burst leaves for the response queue. *)
Definition respond_later (m : MemPacket) (s : State) : res State :=
  f ← match last (respQueue (qs s)) with
      | None =>
          assertb (negb (scheduled (respondEvent (front s))));;
          e ← schedule (now s) (respondEvent (front s)) (readyTime m);
          Ok (set_respondEvent e (front s))
      | Some back =>
          assertb (readyTime back <=? readyTime m);;
          assertb (scheduled (respondEvent (front s)));;
          Ok (front s)
      end;
  Ok (with_qs (set_respQueue (respQueue (qs s) ++ [m]) (qs s)) (with_front f s)).

(** A read burst, from selection to the response queue. *)
Definition do_read (switched all_writes_nvm : bool) (s : State) : res Flow :=
  r ← choose_prio s (readQueue (qs s)) (if switched then ctrl_minWriteToReadDataGap else 0)
        (length (readQueue (qs s)));
  match r with
  | None => Ok (Return s)
  | Some (prio, idx, m) =>
      '(m, s) ← ctrl_doBurstAccess m s;
      assertb (m_size m <=? burst_size);;
      assertb (now s <=? readyTime m);;
      q ← logResponse READ (m_requestorId m) (m_qos m) (m_addr m) (qos s);
      let s := with_qos q s in
      s ← respond_later m s;
      let switch_to_writes :=
        (writeHighThreshold c <? totalWriteQueueSize (qos s)) &&
        negb (all_writes_nvm && writeRespQueueFull (intf c) (nvm s)) in
      r ← erase_packet m prio idx (readQueue (qs s));
      let s := with_qs (set_readQueue r (qs s)) s in
      Ok (Continue (if switch_to_writes then with_bus (set_busStateNext WRITE (bus s)) s else s))
  end.

Definition read_branch (switched all_writes_nvm : bool) (s : State) : res Flow :=
  if totalReadQueueSize (qos s) =? 0 then
    if negb (totalWriteQueueSize (qos s) =? 0) &&
       (bool_decide (drainState (front s) = Draining) ||
        (writeLowThreshold c <? totalWriteQueueSize (qos s)))
    then Ok (Continue (with_bus (set_busStateNext WRITE (bus s)) s))
    else if bool_decide (drainState (front s) = Draining) &&
            bool_decide (length (respQueue (qs s)) = 0%nat) && allIntfDrained s
    then Ok (Return (signalDrainDone s))
    else Ok (Return s)
  else do_read switched all_writes_nvm s.

(** When the bus turns back to reads after a write. *)
Definition back_to_reads (all_writes_nvm : bool) (s : State) : bool :=
  let writes := totalWriteQueueSize (qos s) in
  let below_threshold := u64 (writes + minWritesPerSwitch c) <? writeLowThreshold c in
  let reads := negb (totalReadQueueSize (qos s) =? 0) in
  (writes =? 0) ||
  (below_threshold && negb (bool_decide (drainState (front s) = Draining))) ||
  (reads && (minWritesPerSwitch c <=? writesThisTime (bus s))) ||
  (reads && writeRespQueueFull (intf c) (nvm s) && all_writes_nvm).

Definition write_branch (switched all_writes_nvm : bool) (s : State) : res Flow :=
  r ← choose_prio s (writeQueue (qs s)) (if switched then ctrl_minReadToWriteDataGap else 0)
        (length (writeQueue (qs s)));
  match r with
  | None => Ok (Return s)
  | Some (prio, idx, m) =>
      assertb (m_size m <=? burst_size);;
      '(m, s) ← ctrl_doBurstAccess m s;
      let s := with_qs (set_isInWriteQueue (isInWriteQueue (qs s) ∖ {[burstAlign (m_addr m)]})
                         (qs s)) s in
      q ← logResponse WRITE (m_requestorId m) (m_qos m) (m_addr m) (qos s);
      let s := with_qos q s in
      w ← erase_packet m prio idx (writeQueue (qs s));
      let s := with_qs (set_writeQueue w (qs s)) s in
      Ok (Continue (if back_to_reads all_writes_nvm s
                    then with_bus (set_busStateNext READ (bus s)) s else s))
  end.

(** The end of the handler: the next event and the retry of a write. *)
Definition finish_request (s : State) : res State :=
  f ← (if scheduled (nextReqEvent (front s)) then Ok (front s)
       else e ← schedule (now s) (nextReqEvent (front s)) (Z.max (nextReqTime (bus s)) (now s));
            Ok (set_nextReqEvent e (front s)));
  let s := with_front f s in
  Ok (if retryWrReq (front s) && (totalWriteQueueSize (qos s) <? c_writeBufferSize c)
      then with_front (emit RetryReq (set_retryWrReq false (front s))) s else s).

Definition processNextReqEvent (s : State) : res State :=
  let '(switched, s) := switch_bus s in
  s ← issue_reads (length (readQueue (qs s))) s;
  let all_writes_nvm := numWritesQueued (nvm s) =? totalWriteQueueSize (qos s) in
  let read_queue_empty := totalReadQueueSize (qos s) =? 0 in
  if isBusy (intf c) (busStateNext (bus s)) (nvm s) read_queue_empty all_writes_nvm then Ok s
  else
    r ← (if is_READ (busState (bus s)) then read_branch switched all_writes_nvm s
         else write_branch switched all_writes_nvm s);
    match r with Return s => Ok s | Continue s => finish_request s end.

(** ** The media events, with the restart of the scheduler *)

Definition read_ready (s : State) : res State :=
  n ← processReadReadyEvent (now s) (nvm s);
  kick (with_nvm n s).

Definition write_respond (s : State) : res State :=
  n ← processWriteRespondEvent (now s) (nvm s);
  kick (with_nvm n s).

End Operations.
End Ctrl.
