(* ===== verification/NvmDeviceInv.v ===== *)
(** * Invariant of the NVM interface

    The counters of [NVMInterface] against the packets in the controller's
    queues, and the two media events against the queues they serve: every
    operation of the interface keeps them and never fails an assertion. *)

From stdpp Require Import sorting.
From S2P Require Import Prelude.
From S2P Require Import Intmath.
From S2P Require Import AddrRange.
From S2P Require Import CmdBus.
From S2P Require Import NvmDecode.
From S2P Require Import NvmDevice.

Module DevInv.
Export Dev.

(** ** Counting *)

Definition cnt {A} (P : A → Prop) `{∀ x, Decision (P x)} (l : list A) : Z :=
  Z.of_nat (length (filter P l)).

Section Counting.
Context {A : Type} (P : A → Prop) `{∀ x, Decision (P x)}.

Lemma cnt_nil : cnt P [] = 0.
Proof. done. Qed.

Lemma cnt_cons x l : cnt P (x :: l) = (if decide (P x) then 1 else 0) + cnt P l.
Proof. unfold cnt. rewrite filter_cons. case_decide; simpl; lia. Qed.

Lemma cnt_app l k : cnt P (l ++ k) = cnt P l + cnt P k.
Proof. unfold cnt. rewrite filter_app, length_app. lia. Qed.

Lemma cnt_perm l k : l ≡ₚ k → cnt P l = cnt P k.
Proof. intros Hp. unfold cnt. by rewrite Hp. Qed.

Lemma cnt_nonneg l : 0 ≤ cnt P l.
Proof. unfold cnt. lia. Qed.

Lemma cnt_le_length l : cnt P l ≤ Z.of_nat (length l).
Proof. unfold cnt. pose proof (length_filter P l). lia. Qed.

Lemma cnt_pos l : 0 < cnt P l → ∃ x, x ∈ l ∧ P x.
Proof.
  unfold cnt. intros Hl. destruct (filter P l) as [|x k] eqn:E; simpl in Hl; [lia|].
  exists x. assert (x ∈ filter P l) as Hx by (rewrite E; constructor).
  apply list_elem_of_filter in Hx. tauto.
Qed.

Lemma cnt_elem l x : x ∈ l → P x → 0 < cnt P l.
Proof.
  intros Hx HP. unfold cnt.
  assert (x ∈ filter P l) as Hf by (by apply list_elem_of_filter).
  destruct (filter P l); [by apply elem_of_nil in Hf|]. simpl. lia.
Qed.
End Counting.

Lemma cnt_mono {A} (P Q : A → Prop) `{∀ x, Decision (P x), ∀ x, Decision (Q x)} l :
  (∀ x, x ∈ l → P x → Q x) → cnt P l ≤ cnt Q l.
Proof.
  induction l as [|x l IH]; intros Hpq; [done|]. rewrite !cnt_cons.
  assert (cnt P l ≤ cnt Q l) by (apply IH; intros; apply Hpq; [by constructor|done]).
  assert (P x → Q x) by (apply Hpq; constructor).
  repeat case_decide; solve [lia | tauto].
Qed.

(** An element replaced or removed, up to permutation. *)
Lemma insert_perm {A} (l : list A) k x y :
  l !! k = Some x → l ≡ₚ x :: delete k l ∧ <[k := y]> l ≡ₚ y :: delete k l.
Proof.
  intros Hk. split; [by apply delete_Permutation|].
  apply lookup_lt_Some in Hk. rewrite insert_take_drop, delete_take_drop by done.
  by rewrite Permutation_middle.
Qed.

(** ** Events and the queues they serve *)

(** The event is scheduled exactly when the queue has entries, for the
    earliest of them, which is not in the past. *)
Definition event_min (curTick : Tick) (queue : list Tick) (e : Event) : Prop :=
  match queue with
  | [] => scheduled e = false
  | _ => scheduled e = true ∧ curTick ≤ when e ∧ when e ∈ queue ∧ Forall (λ t, when e ≤ t) queue
  end.

Lemma event_min_nonempty t q e :
  q ≠ [] →
  event_min t q e ↔ scheduled e = true ∧ t ≤ when e ∧ when e ∈ q ∧ Forall (λ x, when e ≤ x) q.
Proof. by destruct q. Qed.

Lemma event_min_perm t q q' e : q ≡ₚ q' → event_min t q e → event_min t q' e.
Proof.
  intros Hp. destruct q as [|x q]; [by apply Permutation_nil_l in Hp as ->|].
  intros He. apply event_min_nonempty.
  { intros ->. by apply Permutation_nil_r in Hp. }
  apply event_min_nonempty in He as (? & ? & Hin & Hall); [|done].
  rewrite <-Hp. done.
Qed.

Lemma event_min_advance t t' q e :
  event_min t q e → (scheduled e = true → t' ≤ when e) → event_min t' q e.
Proof.
  destruct q; [done|]. intros (Hs & _ & Hin & Hall) Ht. split; [done|]. split; [by apply Ht|done].
Qed.

Lemma event_min_scheduled t q e : event_min t q e → q ≠ [] → scheduled e = true.
Proof. intros He Hq. by apply event_min_nonempty in He as (? & _). Qed.

Lemma event_min_all t q e x : event_min t q e → x ∈ q → t ≤ x.
Proof.
  intros He Hx. assert (q ≠ []) as Hq by (intros ->; by apply elem_of_nil in Hx).
  apply event_min_nonempty in He as (_ & Ht & _ & Hall); [|done].
  rewrite Forall_forall in Hall. specialize (Hall x Hx). simpl in Hall. lia.
Qed.

(** ** The scan of [processReadReadyEvent] *)

(** [lo] is the smallest entry, at position [k], and [next] the smallest of
    the others, or [MaxTick] when there is no other. *)
Definition two_smallest (q : list Tick) (k : nat) (lo next : Tick) : Prop :=
  q !! k = Some lo ∧ Forall (λ t, lo ≤ t) q ∧ Forall (λ t, next ≤ t) (delete k q) ∧
  (next ∈ delete k q ∨ next = MaxTick).

Lemma ready_scan_spec q pre k lo next :
  two_smallest pre k lo next → Forall (λ t, t ≤ MaxTick) (pre ++ q) →
  ∃ k' lo' next', ready_scan q (length pre) k lo next = (k', lo', next') ∧
    two_smallest (pre ++ q) k' lo' next'.
Proof.
  revert pre k lo next. induction q as [|t q IH]; intros pre k lo next Hpre Hmax; simpl.
  { rewrite app_nil_r. eauto. }
  pose proof Hpre as (Hk & Hlo & Hnext & Hin).
  assert (k < length pre)%nat as Hlt by (by eapply lookup_lt_Some).
  assert (lo ∈ pre) as Hloin by (by eapply list_elem_of_lookup_2).
  assert (pre ++ t :: q = (pre ++ [t]) ++ q) as Heq by (by rewrite <-app_assoc).
  assert (S (length pre) = length (pre ++ [t])) as Hlen by (rewrite length_app; simpl; lia).
  assert (t ≤ MaxTick) as Htm.
  { rewrite Forall_app, Forall_cons in Hmax. tauto. }
  assert (delete k (pre ++ [t]) = delete k pre ++ [t]) as Hdel.
  { rewrite !delete_take_drop, take_app_le, drop_app_le by lia. by rewrite <-app_assoc. }
  rewrite Heq, Hlen in *. destruct (Z.ltb_spec t lo) as [Htl|Htl].
  - apply IH; [|done]. repeat split.
    + rewrite lookup_app_r by lia. by rewrite Nat.sub_diag.
    + rewrite Forall_app, Forall_singleton. split; [|lia].
      eapply Forall_impl; [exact Hlo|]. simpl. intros. lia.
    + rewrite delete_take_drop, take_app_le, drop_app_ge by lia. rewrite take_ge by lia.
      replace (S (length pre) - length pre)%nat with 1%nat by lia. simpl. rewrite app_nil_r. done.
    + left. rewrite delete_take_drop, take_app_le, drop_app_ge by lia. rewrite take_ge by lia.
      replace (S (length pre) - length pre)%nat with 1%nat by lia. simpl. by rewrite app_nil_r.
  - rewrite (proj2 (Nat.eqb_neq (length pre) k)) by lia. cbn [negb]. rewrite andb_true_r.
    assert (two_smallest (pre ++ [t]) k lo (if t <? next then t else next)) as Hts.
    { repeat split.
      - by rewrite lookup_app_l.
      - rewrite Forall_app, Forall_singleton. split; [done|lia].
      - rewrite Hdel, Forall_app, Forall_singleton. destruct (Z.ltb_spec t next); split; try lia.
        + eapply Forall_impl; [exact Hnext|]. simpl. intros. lia.
        + done.
      - rewrite Hdel. destruct (Z.ltb_spec t next).
        + left. apply elem_of_app. right. by constructor.
        + destruct Hin as [Hin| ->]; [left; apply elem_of_app; by left|]. by right. }
    destruct (Z.ltb_spec t next); by apply IH.
Qed.

Lemma ready_scan_two_smallest x q :
  Forall (λ t, t ≤ MaxTick) (x :: q) →
  ∃ k lo next, ready_scan (x :: q) 0 0 x MaxTick = (k, lo, next) ∧
    two_smallest (x :: q) k lo next.
Proof.
  intros Hmax. cbn [ready_scan]. rewrite Z.ltb_irrefl. cbn [Nat.eqb negb]. rewrite andb_false_r.
  apply (ready_scan_spec q [x] 0 x MaxTick).
  - split; [done|]. rewrite Forall_singleton. split; [lia|]. simpl. by split; [constructor|right].
  - done.
Qed.

(** ** The invariant *)

Section Invariant.
Context (i : Interface) (commandWindow : Z).

Definition timing_ok : Prop :=
  geometry_ok i ∧ 0 < commandWindow ∧ 1 ≤ maxCommandsPerWindow i ∧
  0 ≤ tSEND i ∧ 0 ≤ tBURST i ∧ 0 ≤ tREAD i ∧ 0 ≤ tWRITE i ∧ 0 ≤ tCK i.

Definition loc_ok (l : Location) : Prop :=
  0 ≤ l_rank l < ranksPerChannel i ∧ 0 ≤ l_bank l < banksPerRank i.

Definition rd_pkt (p : MemPacket) : Prop := m_read p = true ∧ loc_ok (m_loc p).
Definition wr_pkt (p : MemPacket) : Prop := m_read p = false ∧ loc_ok (m_loc p).

Definition shape (r : list (list Bank)) : Prop :=
  length r = Z.to_nat (ranksPerChannel i) ∧
  Forall (λ banks : list Bank, length banks = Z.to_nat (banksPerRank i)) r.

Record nvm_inv (curTick : Tick) (rq wq : list MemPacket) (n : NVM) : Prop := {
  ni_shape : shape (ranks n);
  ni_rq : Forall rd_pkt rq;
  ni_wq : Forall wr_pkt wq;
  ni_rlen : Z.of_nat (length rq) < 2 ^ 16;
  ni_wlen : Z.of_nat (length wq) < 2 ^ 32;
  ni_issue : numReadsToIssue n = cnt unissued rq;
  ni_total : numReadsToIssue n + numPendingReads n = Z.of_nat (length rq);
  ni_pending : numPendingReads n = Z.of_nat (length (readReadyQueue n)) + numReadDataReady n;
  ni_ready : 0 ≤ numReadDataReady n;
  ni_pmax : numPendingReads n ≤ maxPendingReads i;
  ni_revent : event_min curTick (readReadyQueue n) (readReadyEvent n);
  ni_rbound : Forall (λ t, t < MaxTick) (readReadyQueue n);
  ni_avail : ∀ t, curTick ≤ t < MaxTick →
    numReadDataReady n + cnt (λ x, x ≤ t) (readReadyQueue n) ≤ cnt (λ p, readyTime p ≤ t) rq;
  ni_wmax : Z.of_nat (length (writeRespQueue n)) ≤ maxPendingWrites i;
  ni_wsorted : Sorted Z.le (writeRespQueue n);
  ni_wevent : event_min curTick (writeRespQueue n) (writeRespondEvent n);
  ni_writes : numWritesQueued n = Z.of_nat (length wq);
}.

(** Packets and banks *)

Lemma shape_lookup r l : shape r → loc_ok l →
  ∃ banks b, r !! Z.to_nat (l_rank l) = Some banks ∧ banks !! Z.to_nat (l_bank l) = Some b.
Proof.
  intros [Hl Hb] [Hr Hk].
  destruct (lookup_lt_is_Some_2 r (Z.to_nat (l_rank l))) as [banks Hbanks]; [lia|].
  rewrite Forall_lookup in Hb. specialize (Hb _ _ Hbanks).
  destruct (lookup_lt_is_Some_2 banks (Z.to_nat (l_bank l))) as [b ?]; [lia|]. eauto.
Qed.

Lemma get_bank_ok n l : shape (ranks n) → loc_ok l → ∃ b, get_bank n l = Ok b.
Proof.
  intros Hs Hl. destruct (shape_lookup _ _ Hs Hl) as (banks & b & H1 & H2).
  exists b. unfold get_bank. by rewrite H1, H2.
Qed.

Lemma shape_alter r k j b : shape r → shape (alter (λ banks : list Bank, <[j := b]> banks) k r).
Proof.
  intros [Hl Hb]. split; [by rewrite length_alter|].
  apply Forall_alter; [done|]. intros banks _ Hbanks. by rewrite length_insert.
Qed.

Lemma shape_imap r (f : nat → Bank → Bank) : shape r → shape (imap (λ k banks, f k <$> banks) r).
Proof.
  intros [Hl Hb]. split; [by rewrite length_imap|].
  apply Forall_lookup. intros k banks Hk. rewrite list_lookup_imap in Hk.
  destruct (r !! k) as [banks0|] eqn:E; simplify_eq/=. rewrite length_fmap.
  rewrite Forall_lookup in Hb. by eapply Hb.
Qed.

Lemma shape_new : geometry_ok i → shape (ranks_new i).
Proof.
  intros (_ & _ & _ & Hb & Hr & _). unfold ranks_new. split.
  - rewrite length_fmap, length_seqZ. done.
  - apply Forall_fmap, Forall_true. intros x. simpl. by rewrite length_fmap, length_seqZ.
Qed.

Lemma unissued_cnt_insert rq k p t :
  rq !! k = Some p → m_read p = true → unissued p → t < MaxTick →
  cnt unissued (<[k := set_ready t p]> rq) = cnt unissued rq - 1.
Proof.
  intros Hk Hr Hu Ht. destruct (insert_perm rq k p (set_ready t p) Hk) as [H1 H2].
  rewrite (cnt_perm _ _ _ H1), (cnt_perm _ _ _ H2), !cnt_cons.
  rewrite (decide_True (P := unissued p)) by done.
  rewrite decide_False; [lia|]. intros [He _]. simpl in He. lia.
Qed.

Hypothesis Htiming : timing_ok.

Lemma verify_rdwr_ok two ticks t :
  0 ≤ t → ∃ t' ticks', verify_rdwr i commandWindow two ticks t = Ok (t', ticks') ∧ t ≤ t'.
Proof.
  destruct Htiming as (_ & Hw & Hmax & _). intros Ht. unfold verify_rdwr. destruct two.
  - destruct (verifyMultiCmd_spec commandWindow ticks t _ (tCK i) Hw Hmax Ht)
      as (t' & b & f & -> & ? & _). eauto.
  - destruct (verifySingleCmd_spec commandWindow ticks t _ Hw Hmax Ht) as (k & Hk & -> & _).
    eexists _, _. split; [reflexivity|]. destruct (Z.eqb_spec k 0); [lia|].
    pose proof (window_bounds commandWindow t Hw Ht). nia.
Qed.

(** ** Preservation *)

Lemma nvm_inv_new t : nvm_inv t [] [] (NVM_new i) ↔
  0 ≤ maxPendingReads i ∧ 0 ≤ maxPendingWrites i.
Proof.
  split.
  - intros Hi. split; [apply (ni_pmax _ _ _ _ Hi)|apply (ni_wmax _ _ _ _ Hi)].
  - intros [Hr Hw]. destruct Htiming as (Hg & _). constructor; simpl; try done.
    by apply shape_new.
Qed.

Lemma nvm_inv_advance t t' rq wq n :
  nvm_inv t rq wq n → t ≤ t' →
  (scheduled (readReadyEvent n) = true → t' ≤ when (readReadyEvent n)) →
  (scheduled (writeRespondEvent n) = true → t' ≤ when (writeRespondEvent n)) →
  nvm_inv t' rq wq n.
Proof.
  intros Hi Ht Hr Hw. destruct Hi. constructor; try done.
  - by eapply event_min_advance.
  - intros x Hx. apply ni_avail0. lia.
  - by eapply event_min_advance.
Qed.

Lemma setupRank_read t rq wq n p :
  nvm_inv t rq wq n → Z.of_nat (length rq) + 1 < 2 ^ 16 → rd_pkt p → unissued p →
  nvm_inv t (rq ++ [p]) wq (setupRank true n).
Proof.
  intros Hi Hlen Hp Hu. destruct Hi. pose proof (cnt_le_length unissued rq).
  pose proof (cnt_nonneg unissued rq).
  assert (u16 (numReadsToIssue n + 1) = numReadsToIssue n + 1) as Hu16.
  { unfold u16. apply Z.mod_small. lia. }
  constructor; simpl; try done.
  - rewrite Forall_app, Forall_singleton. done.
  - rewrite length_app. simpl. lia.
  - rewrite Hu16, cnt_app, cnt_cons, decide_True, cnt_nil by done. lia.
  - rewrite Hu16, length_app. simpl. lia.
  - intros x Hx. rewrite cnt_app. pose proof (cnt_nonneg (λ p, readyTime p ≤ x) [p]).
    specialize (ni_avail0 x Hx). lia.
Qed.

Lemma setupRank_write t rq wq n p :
  nvm_inv t rq wq n → Z.of_nat (length wq) + 1 < 2 ^ 32 → wr_pkt p →
  nvm_inv t rq (wq ++ [p]) (setupRank false n).
Proof.
  intros Hi Hlen Hp. destruct Hi. constructor; simpl; try done.
  - rewrite Forall_app, Forall_singleton. done.
  - rewrite length_app. simpl. lia.
  - rewrite length_app, u32_small; simpl; lia.
Qed.

(** *** Issuing a read *)

Lemma ready_event_ok t n r :
  event_min t (readReadyQueue n) (readReadyEvent n) → t ≤ r →
  ∃ e, ready_event t n r = Ok e ∧ event_min t (readReadyQueue n ++ [r]) e.
Proof.
  intros He Hr. unfold ready_event, schedule, reschedule, assertb, mbind, res_bind.
  rewrite (proj2 (Z.leb_le t r)) by done.
  destruct (readReadyQueue n) as [|x q].
  { simpl in He. rewrite He. simpl. eexists. split; [done|].
    split; [done|]. split; [done|]. split; [constructor|]. by repeat constructor. }
  destruct He as (Hs & Hw & Hin & Hall). rewrite Hs. destruct (Z.ltb_spec r (when (readReadyEvent n))).
  - eexists. split; [done|]. split; [done|]. split; [done|]. cbn [when app].
    split; [rewrite app_comm_cons, elem_of_app; right; by constructor|].
    rewrite app_comm_cons, Forall_app, Forall_singleton. split; [|done].
    eapply Forall_impl; [exact Hall|]. simpl. intros. lia.
  - eexists. split; [done|]. split; [done|]. split; [done|]. cbn [app].
    split; [rewrite app_comm_cons, elem_of_app; by left|].
    rewrite app_comm_cons, Forall_app, Forall_singleton. done.
Qed.

(** How far the media is from having served its reads and writes: each step
    of a request through the media lowers it. *)
Definition media_load (n : NVM) : Z :=
  6 * numReadsToIssue n + 5 * Z.of_nat (length (readReadyQueue n)) + 3 * numReadDataReady n +
  2 * Z.of_nat (length (writeRespQueue n)).

(** The read issued by [chooseRead], from its description in the queue. *)
Lemma chooseRead_ok t ticks rq wq n :
  nvm_inv t rq wq n → 0 ≤ t → readsWaitingToIssue i n = true →
  ∃ ticks' n' k p r, chooseRead i commandWindow t ticks n rq = Ok (ticks', n', <[k := set_ready r p]> rq) ∧
    rq !! k = Some p ∧ t ≤ r ∧ readReadyQueue n' = readReadyQueue n ++ [r] ∧
    writeRespondEvent n' = writeRespondEvent n ∧ media_load n' < media_load n ∧
    (r < MaxTick → nvm_inv t (<[k := set_ready r p]> rq) wq n').
Proof.
  intros Hi Ht Hw. pose proof Hi as []. unfold readsWaitingToIssue in Hw. bool_to_prop.
  pose proof (cnt_nonneg unissued rq). pose proof (cnt_le_length unissued rq).
  assert (0 < cnt unissued rq) as Hpos by lia.
  destruct (list_find unissued rq) as [[k p]|] eqn:Hfind.
  2:{ apply list_find_None in Hfind. apply cnt_pos in Hpos as (p & Hp & Hu).
      rewrite Forall_forall in Hfind. by destruct (Hfind p). }
  pose proof Hfind as Hf. apply list_find_Some in Hf as (Hk & Hu & _).
  assert (rd_pkt p) as [Hrd Hloc] by (eapply (Forall_lookup_1 _ rq); eauto).
  unfold chooseRead. rewrite Hfind. unfold assertb.
  rewrite bool_decide_false by (intros Hz; rewrite Hz in *; lia). cbn [negb].
  rewrite (proj2 (Z.ltb_lt 0 (numReadsToIssue n))) by lia. cbn [mbind res_bind].
  unfold issue_read. cbn [readReadyQueue numPendingReads numReadDataReady nextReadAt].
  match goal with |- context [get_bank ?m _] => set (n1 := m) end.
  destruct (get_bank_ok n1 (m_loc p)) as [b Hb]; [done|done|]. rewrite Hb. cbn [mbind res_bind].
  assert (u16 (numPendingReads n + 1) = numPendingReads n + 1) as Hu1.
  { unfold u16. apply Z.mod_small. lia. }
  assert (u16 (numReadsToIssue n - 1) = numReadsToIssue n - 1) as Hu2.
  { unfold u16. apply Z.mod_small. lia. }
  rewrite Hu1. unfold assertb. rewrite (proj2 (Z.leb_le _ (maxPendingReads i))) by lia. cbn [mbind res_bind].
  destruct (verify_rdwr_ok (twoCycleRdWr i) ticks (Z.max t (nextReadAt n))) as (c & ticks' & -> & Hc); [lia|].
  cbn [mbind res_bind].
  set (b' := read_bank i (l_row (m_loc p)) c b). set (r := Z.max c (actAllowedAt b')).
  destruct (ready_event_ok t n1 r) as (e & -> & He); [done|lia|]. cbn [mbind res_bind].
  eexists ticks', _, k, p, r. split; [reflexivity|]. split; [done|]. split; [lia|].
  split; [done|]. split; [done|]. split.
  { unfold media_load. cbn. rewrite Hu2, length_app. cbn. lia. }
  intros Hr. destruct (insert_perm rq k p (set_ready r p) Hk) as [Hp1 Hp2].
  constructor; cbn [set_bank set_ranks ranks nextReadAt numPendingReads numReadDataReady numReadsToIssue
    numWritesQueued writeRespQueue readReadyQueue writeRespondEvent readReadyEvent n1]; try done.
  - by apply shape_alter.
  - apply Forall_insert; done.
  - by rewrite length_insert.
  - rewrite Hu2, (unissued_cnt_insert rq k p r) by done. lia.
  - rewrite Hu2, length_insert. lia.
  - rewrite length_app. simpl. lia.
  - lia.
  - rewrite Forall_app, Forall_singleton. done.
  - intros x Hx. specialize (ni_avail0 x Hx). rewrite cnt_app, cnt_cons, cnt_nil.
    rewrite (cnt_perm _ _ _ Hp1), cnt_cons in ni_avail0. rewrite (cnt_perm _ _ _ Hp2), cnt_cons.
    cbn [set_ready readyTime]. destruct Hu as [Hu _]. rewrite Hu in ni_avail0.
    rewrite (decide_False (P := MaxTick ≤ x)) in ni_avail0 by lia. case_decide; lia.
Qed.

(** *** Data becoming ready *)

Lemma processReadReadyEvent_ok t rq wq n :
  nvm_inv t rq wq n → scheduled (readReadyEvent n) = true → when (readReadyEvent n) = t →
  ∃ n', processReadReadyEvent t (set_readReadyEvent (fired (readReadyEvent n)) n) = Ok n' ∧
    nvm_inv t rq wq n' ∧ media_load n' = media_load n - 2.
Proof.
  intros Hi Hs Hw. pose proof Hi as [].
  pose proof (cnt_nonneg unissued rq). unfold processReadReadyEvent.
  cbn [set_readReadyEvent readReadyQueue readReadyEvent ranks nextReadAt numPendingReads
    numReadDataReady numReadsToIssue numWritesQueued writeRespQueue writeRespondEvent].
  destruct (readReadyQueue n) as [|x q] eqn:Hq.
  { simpl in ni_revent0. congruence. }
  destruct (ready_scan_two_smallest x q) as (k & lo & next & -> & Hk & Hlo & Hnext & Hin).
  { eapply Forall_impl; [exact ni_rbound0|]. simpl. intros. lia. }
  pose proof ni_revent0 as (_ & _ & Hwin & Hall). rewrite Hw in *.
  assert (lo = t) as ->.
  { rewrite Forall_forall in Hall, Hlo. specialize (Hlo t Hwin).
    specialize (Hall lo). apply list_elem_of_lookup_2 in Hk. specialize (Hall Hk). simpl in *. lia. }
  rewrite Z.eqb_refl. cbn [assertb mbind res_bind].
  pose proof (delete_Permutation (x :: q) k t Hk) as Hperm.
  assert (Forall (λ y, y < MaxTick) (delete k (x :: q))) as Hbd.
  { rewrite Hperm in ni_rbound0. by apply Forall_cons in ni_rbound0 as [_ ?]. }
  assert (Forall (λ y, t ≤ y) (delete k (x :: q))) as Hge.
  { rewrite Hperm in Hlo. by apply Forall_cons in Hlo as [_ ?]. }
  assert (length (x :: q) = S (length (delete k (x :: q)))) as Hlen by (rewrite Hperm at 1; done).
  assert (u16 (numReadDataReady n + 1) = numReadDataReady n + 1) as Hu.
  { unfold u16. apply Z.mod_small. lia. }
  rewrite Hu.
  assert (∃ e, match delete k (x :: q) with
    | [] => Ok (fired (readReadyEvent n))
    | f :: _ => assertb (t <=? f);; assertb (negb (scheduled (fired (readReadyEvent n))));;
        schedule t (fired (readReadyEvent n)) next end = Ok e ∧
    event_min t (delete k (x :: q)) e) as (e & -> & He).
  { destruct (delete k (x :: q)) as [|y d] eqn:Hd; [by eexists|].
    assert (next ∈ y :: d) as Hnin.
    { destruct Hin as [?| ->]; [done|]. apply Forall_cons in Hnext as [Hn _].
      apply Forall_cons in Hbd as [Hb _]. lia. }
    rewrite !Forall_forall in Hge. pose proof (Hge y ltac:(constructor)). pose proof (Hge next Hnin).
    unfold schedule, assertb. rewrite !(proj2 (Z.leb_le _ _)) by done. cbn.
    eexists. split; [done|]. done. }
  cbn [mbind res_bind]. eexists. split; [reflexivity|]. split.
  2:{ unfold media_load. rewrite Hq. cbn [numReadsToIssue readReadyQueue numReadDataReady writeRespQueue]. lia. }
  constructor; cbn [ranks nextReadAt numPendingReads numReadDataReady numReadsToIssue
    numWritesQueued writeRespQueue readReadyQueue writeRespondEvent readReadyEvent]; try done.
  - lia.
  - lia.
  - intros z Hz. specialize (ni_avail0 z Hz). rewrite (cnt_perm _ _ _ Hperm), cnt_cons in ni_avail0.
    rewrite decide_True in ni_avail0 by lia. lia.
Qed.

(** *** Bursts *)

(** The part of [doBurstAccess] common to reads and writes. *)
Lemma doBurstAccess_prefix t ticks n p nb :
  shape (ranks n) → loc_ok (m_loc p) → 0 ≤ t →
  ∃ c ticks', t ≤ c ∧ nb ≤ c ∧
    let n1 := set_ranks (imap (λ r banks, bank_delay i p c r <$> banks) (ranks n)) n in
    let ready := c + tSEND i + tBURST i in
    shape (ranks n1) ∧
    doBurstAccess i commandWindow t ticks n p nb =
      (n ← (if m_read p then burst_read n1 else burst_write i t p ready n1);
       Ok (c, c + tBURST i, set_ready ready p, ticks', n)).
Proof.
  intros Hs Hl Ht. destruct (get_bank_ok n (m_loc p) Hs Hl) as [b Hb].
  unfold doBurstAccess. rewrite Hb. cbn [mbind res_bind].
  destruct (verify_rdwr_ok (negb (m_read p || negb (twoCycleRdWr i))) ticks
    (Z.max (Z.max (col_allowed b p) t) nb)) as (c & ticks' & -> & Hc); [lia|].
  exists c, ticks'. split; [lia|]. split; [lia|]. cbn [mbind res_bind]. split; [|done].
  by apply shape_imap.
Qed.

Lemma burst_read_ok t ticks rq wq n k p nb :
  nvm_inv t rq wq n → rq !! k = Some p → 0 ≤ t < MaxTick → readyTime p ≤ t →
  0 < numReadDataReady n →
  ∃ c ticks' n', t ≤ c ∧ nb ≤ c ∧
    doBurstAccess i commandWindow t ticks n p nb =
      Ok (c, c + tBURST i, set_ready (c + tSEND i + tBURST i) p, ticks', n') ∧
    nvm_inv t (delete k rq) wq n' ∧
    media_load n' = media_load n - 3.
Proof.
  intros Hi Hk Ht Hp Hd. pose proof Hi as [].
  assert (rd_pkt p) as [Hrd Hloc] by (eapply (Forall_lookup_1 _ rq); eauto).
  destruct (doBurstAccess_prefix t ticks n p nb ni_shape0 Hloc ltac:(lia))
    as (c & ticks' & Hc & Hnb & Hs & ->).
  rewrite Hrd. unfold burst_read. cbn [set_ranks ranks nextReadAt numPendingReads numReadDataReady
    numReadsToIssue numWritesQueued writeRespQueue readReadyQueue writeRespondEvent readReadyEvent].
  rewrite (proj2 (Z.eqb_neq (numPendingReads n) 0)), (proj2 (Z.eqb_neq (numReadDataReady n) 0)) by lia.
  cbn [negb assertb mbind res_bind]. eexists c, ticks', _. split; [done|]. split; [done|].
  split; [reflexivity|].
  pose proof (delete_Permutation rq k p Hk) as Hperm.
  assert (length rq = S (length (delete k rq))) as Hlen by (rewrite Hperm at 1; done).
  pose proof (cnt_nonneg unissued rq).
  assert (u16 (numPendingReads n - 1) = numPendingReads n - 1) as Hu1.
  { unfold u16. apply Z.mod_small. lia. }
  assert (u16 (numReadDataReady n - 1) = numReadDataReady n - 1) as Hu2.
  { unfold u16. apply Z.mod_small. lia. }
  split; [|unfold media_load; cbn; lia].
  constructor; cbn [ranks nextReadAt numPendingReads numReadDataReady numReadsToIssue
    numWritesQueued writeRespQueue readReadyQueue writeRespondEvent readReadyEvent]; try done.
  - rewrite Hperm in ni_rq0. by apply Forall_cons in ni_rq0 as [_ ?].
  - lia.
  - rewrite ni_issue0, (cnt_perm _ _ _ Hperm), cnt_cons, decide_False; [lia|].
    intros [Hu _]. lia.
  - lia.
  - lia.
  - lia.
  - lia.
  - intros x Hx. specialize (ni_avail0 x Hx). rewrite (cnt_perm _ _ _ Hperm), cnt_cons in ni_avail0.
    rewrite decide_True in ni_avail0 by lia. lia.
Qed.

(** The completion event of writes, after one completing at [a] is queued. *)
Lemma respond_event_ok t n a :
  event_min t (writeRespQueue n) (writeRespondEvent n) → t ≤ a →
  ∃ e, respond_event t n a = Ok e ∧
    event_min t (merge_sort Z.le (writeRespQueue n ++ [a])) e.
Proof.
  intros He Ha.
  cut (∃ e, respond_event t n a = Ok e ∧ event_min t (writeRespQueue n ++ [a]) e).
  { intros (e & -> & Hm). exists e. split; [done|].
    eapply event_min_perm; [|exact Hm]. symmetry. apply merge_sort_Permutation. }
  unfold respond_event, writeRespQueueEmpty, schedule, reschedule, assertb.
  rewrite (proj2 (Z.leb_le t a)) by done. destruct (writeRespQueue n) as [|x q].
  - simpl in He. rewrite He. cbn. rewrite Z.ltb_irrefl. eexists. split; [done|].
    split; [done|]. split; [done|]. split; [constructor|]. by repeat constructor.
  - destruct He as (Hs & Hw & Hin & Hall). rewrite Hs. cbn [mbind res_bind].
    destruct (Z.ltb_spec a (when (writeRespondEvent n))); [rewrite Hs|]; cbn [mbind res_bind].
    + eexists. split; [done|]. split; [done|]. split; [done|]. cbn [when app].
      split; [rewrite app_comm_cons, elem_of_app; right; by constructor|].
      rewrite app_comm_cons, Forall_app, Forall_singleton. split; [|done].
      eapply Forall_impl; [exact Hall|]. simpl. intros. lia.
    + eexists. split; [done|]. split; [done|]. split; [done|]. cbn [app].
      split; [rewrite app_comm_cons, elem_of_app; by left|].
      rewrite app_comm_cons, Forall_app, Forall_singleton. done.
Qed.

Lemma burst_write_ok t ticks rq wq n k p nb :
  nvm_inv t rq wq n → wq !! k = Some p → 0 ≤ t → writeRespQueueFull i n = false →
  ∃ c ticks' n', t ≤ c ∧ nb ≤ c ∧
    doBurstAccess i commandWindow t ticks n p nb =
      Ok (c, c + tBURST i, set_ready (c + tSEND i + tBURST i) p, ticks', n') ∧
    nvm_inv t rq (delete k wq) n' ∧ media_load n' = media_load n + 2.
Proof.
  intros Hi Hk Ht Hf. pose proof Hi as [].
  assert (wr_pkt p) as [Hrd Hloc] by (eapply (Forall_lookup_1 _ wq); eauto).
  destruct (doBurstAccess_prefix t ticks n p nb ni_shape0 Hloc Ht)
    as (c & ticks' & Hc & Hnb & Hs & ->).
  pose proof (delete_Permutation wq k p Hk) as Hperm.
  assert (length wq = S (length (delete k wq))) as Hlen by (rewrite Hperm at 1; done).
  rewrite Hrd. unfold burst_write. set (n1 := set_ranks _ n) in *.
  assert (writeRespQueueFull i n1 = false) as Hf1 by done.
  rewrite (proj2 (Z.ltb_lt 0 (numWritesQueued n1))) by (cbn; lia).
  destruct (get_bank_ok n1 (m_loc p) Hs Hloc) as [b ->]. rewrite Hf1. cbn [assertb negb mbind res_bind].
  set (a := actAllowedAt (write_bank i p (c + tSEND i + tBURST i) b)).
  assert (t ≤ a) as Ha.
  { destruct Htiming as (_ & _ & _ & ? & ? & ? & ? & ?). unfold a, write_bank.
    destruct (_ && _); cbn [actAllowedAt]; lia. }
  destruct (respond_event_ok t n1 a ltac:(done) Ha) as (e & -> & He). cbn [mbind res_bind].
  eexists c, ticks', _. split; [done|]. split; [done|]. split; [reflexivity|].
  assert (length (merge_sort Z.le (writeRespQueue n1 ++ [a])) = S (length (writeRespQueue n))) as Hml.
  { rewrite (Permutation_length (merge_sort_Permutation Z.le _)), length_app. simpl. lia. }
  split; [|unfold media_load; cbn [set_bank set_ranks n1 numReadsToIssue readReadyQueue numReadDataReady writeRespQueue] in *; lia].
  constructor; cbn [set_bank set_ranks n1 ranks nextReadAt numPendingReads numReadDataReady numReadsToIssue
    numWritesQueued writeRespQueue readReadyQueue writeRespondEvent readReadyEvent]; try done.
  - by apply shape_alter.
  - rewrite Hperm in ni_wq0. by apply Forall_cons in ni_wq0 as [_ ?].
  - lia.
  - unfold writeRespQueueFull in Hf. bool_to_prop. cbn [n1 set_ranks writeRespQueue] in Hml.
    rewrite Hml. lia.
  - apply Sorted_merge_sort. intros ??. lia.
  - rewrite u32_small; lia.
Qed.

(** *** Completed writes *)

Lemma processWriteRespondEvent_ok t rq wq n :
  nvm_inv t rq wq n → scheduled (writeRespondEvent n) = true → when (writeRespondEvent n) = t →
  ∃ n', processWriteRespondEvent t (set_writeRespondEvent (fired (writeRespondEvent n)) n) = Ok n' ∧
    nvm_inv t rq wq n' ∧ media_load n' = media_load n - 2.
Proof.
  intros Hi Hs Hw. pose proof Hi as []. unfold processWriteRespondEvent.
  cbn [set_writeRespondEvent readReadyQueue readReadyEvent ranks nextReadAt numPendingReads
    numReadDataReady numReadsToIssue numWritesQueued writeRespQueue writeRespondEvent].
  destruct (writeRespQueue n) as [|x q] eqn:Hq.
  { simpl in ni_wevent0. congruence. }
  assert (Forall (λ y, t ≤ y) q) as Hge.
  { destruct ni_wevent0 as (_ & _ & _ & Hall). rewrite Hw in Hall. by apply Forall_cons in Hall as [_ ?]. }
  assert (Sorted Z.le q) as Hsq by (by inversion ni_wsorted0).
  assert (∃ e, match q with
    | [] => Ok (fired (writeRespondEvent n))
    | f :: _ => assertb (t <=? f);; assertb (negb (scheduled (fired (writeRespondEvent n))));;
        schedule t (fired (writeRespondEvent n)) f end = Ok e ∧ event_min t q e) as (e & -> & He).
  { destruct q as [|y q]; [by eexists|]. apply Forall_cons in Hge as [Hy Hge].
    unfold schedule, assertb. rewrite (proj2 (Z.leb_le _ _)) by done. cbn.
    eexists. split; [done|]. split; [done|]. split; [done|]. split; [constructor|].
    apply (Sorted_StronglySorted _) in Hsq. inversion_clear Hsq. constructor; [done|].
    by eapply Forall_impl. }
  cbn [mbind res_bind]. eexists. split; [reflexivity|]. split; [|unfold media_load; rewrite Hq; cbn; lia].
  constructor; cbn [ranks nextReadAt numPendingReads numReadDataReady numReadsToIssue
    numWritesQueued writeRespQueue readReadyQueue writeRespondEvent readReadyEvent]; try done.
  simpl in *. lia.
Qed.

End Invariant.

(** ** The FR-FCFS choice *)

Section Choice.
Context (i : Interface) (curTick : Tick) (next : BusState) (n : NVM) (min_col_at : Tick).

Definition col_of (p : MemPacket) : Tick :=
  match get_bank n (m_loc p) with Ok b => col_allowed b p | Err _ => 0 end.

Definition can_burst (p : MemPacket) : Prop := burstReady i curTick next n p = true.
Definition seamless (p : MemPacket) : Prop := can_burst p ∧ col_of p ≤ min_col_at.
#[global] Instance can_burst_dec p : Decision (can_burst p).
Proof. unfold can_burst. apply _. Defined.
#[global] Instance seamless_dec p : Decision (seamless p).
Proof. unfold seamless. apply _. Defined.

(** First ready, first come, first served: the oldest packet that can issue
    without delay, else the oldest that can issue at all. *)
Definition frfcfs_choice (queue : list MemPacket) : option nat :=
  match list_find seamless queue with
  | Some (k, _) => Some k
  | None => fst <$> list_find can_burst queue
  end.

Lemma frfcfs_loop_choice queue idx found sel :
  shape i (ranks n) → Forall (λ p, loc_ok i (m_loc p)) queue →
  ∃ t, frfcfs_loop i curTick next n min_col_at queue idx found sel =
    Ok (match list_find seamless queue with
        | Some (k, _) => Some (idx + k)%nat
        | None => if found then fst sel else
            match list_find can_burst queue with
            | Some (k, _) => Some (idx + k)%nat
            | None => fst sel
            end
        end, t).
Proof.
  intros Hs. revert idx found sel.
  induction queue as [|p queue IH]; intros idx found sel Hq; cbn [frfcfs_loop list_find].
  { destruct sel, found; eauto. }
  apply Forall_cons in Hq as [Hp Hq]. destruct (get_bank_ok i n (m_loc p) Hs Hp) as [b Hb].
  rewrite Hb. cbn [mbind res_bind].
  assert (col_of p = col_allowed b p) as Hcol by (unfold col_of; by rewrite Hb).
  destruct (burstReady i curTick next n p) eqn:Hr.
  - destruct (Z.leb_spec (col_allowed b p) min_col_at).
    + rewrite (decide_True (P := seamless p)) by (split; [done|lia]). rewrite Nat.add_0_r. eauto.
    + rewrite (decide_False (P := seamless p)) by (intros [_ ?]; lia).
      rewrite (decide_True (P := can_burst p)) by done. destruct found; cbn [negb].
      * destruct (IH (S idx) true sel Hq) as [t ->]. exists t. do 2 f_equal.
        destruct (list_find seamless queue) as [[k q]|]; simpl; [f_equal; lia|done].
      * destruct (IH (S idx) true (Some idx, col_allowed b p) Hq) as [t ->]. exists t. do 2 f_equal.
        destruct (list_find seamless queue) as [[k q]|]; simpl; [f_equal; lia|].
        by rewrite Nat.add_0_r.
  - assert (¬ can_burst p) as Hn by (unfold can_burst; congruence).
    rewrite (decide_False (P := seamless p)) by (intros [? _]; done).
    rewrite (decide_False (P := can_burst p)) by done.
    destruct (IH (S idx) found sel Hq) as [t ->]. exists t. do 2 f_equal.
    destruct (list_find seamless queue) as [[k q]|]; simpl; [f_equal; lia|].
    destruct found; [done|]. destruct (list_find can_burst queue) as [[k q]|]; simpl; [f_equal; lia|done].
Qed.

Lemma chooseNextFRFCFS_choice queue :
  shape i (ranks n) → Forall (λ p, loc_ok i (m_loc p)) queue →
  ∃ t, chooseNextFRFCFS i curTick next n queue min_col_at = Ok (frfcfs_choice queue, t).
Proof.
  intros Hs Hq. destruct (frfcfs_loop_choice queue 0 false (None, MaxTick) Hs Hq) as [t Ht].
  exists t. unfold chooseNextFRFCFS. rewrite Ht. do 2 f_equal. unfold frfcfs_choice.
  destruct (list_find seamless queue) as [[k q]|]; [done|].
  by destruct (list_find can_burst queue) as [[k q]|].
Qed.

(** The choice is a packet that can issue, and one is made whenever there is
    such a packet. *)
Lemma frfcfs_choice_Some queue k :
  frfcfs_choice queue = Some k → ∃ p, queue !! k = Some p ∧ can_burst p.
Proof.
  unfold frfcfs_choice. destruct (list_find seamless queue) as [[k' q]|] eqn:E.
  - intros [= ->]. apply list_find_Some in E as (? & [? _] & _). eauto.
  - destruct (list_find can_burst queue) as [[k' q]|] eqn:E'; [|done].
    intros [= ->]. apply list_find_Some in E' as (? & ? & _). eauto.
Qed.

Lemma frfcfs_choice_None queue : frfcfs_choice queue = None → Forall (λ p, ¬ can_burst p) queue.
Proof.
  unfold frfcfs_choice. destruct (list_find seamless queue) as [[k' q]|] eqn:E; [done|].
  destruct (list_find can_burst queue) as [[k' q]|] eqn:E'; [done|]. intros _.
  exact (proj1 (list_find_None _ _) E').
Qed.
End Choice.

(** ** Theorems *)

(** The loop of [chooseNextFRFCFS] implements first-ready,
    first-come-first-served: it selects the oldest packet that can issue
    without waiting for its bank, else the oldest that can issue at all, and
    nothing only when no queued packet can issue. *)
Theorem frfcfs_selects i curTick next n min_col_at queue :
  shape i (ranks n) → Forall (λ p, loc_ok i (m_loc p)) queue →
  ∃ t, chooseNextFRFCFS i curTick next n queue min_col_at =
    Ok (frfcfs_choice i curTick next n min_col_at queue, t) ∧
  (frfcfs_choice i curTick next n min_col_at queue = None →
   Forall (λ p, burstReady i curTick next n p = false) queue).
Proof.
  intros Hs Hq. destruct (chooseNextFRFCFS_choice i curTick next n min_col_at queue Hs Hq) as [t Ht].
  exists t. split; [exact Ht|]. intros Hn. apply frfcfs_choice_None in Hn.
  eapply Forall_impl; [exact Hn|]. unfold can_burst. cbn. intros p. by destruct (burstReady _ _ _ _ p).
Qed.

(** Two banks, the first one busy until tick 50. *)
Definition two_banks : NVM :=
  mkNVM [[mkBank 0 0 50 50 0 0; mkBank 0 1 0 0 0 0]] 0 2 2 0 0 [] [] idle idle.
Definition two_banks_intf : Interface :=
  mkInterface RoRaBaCoCh (mkAddrRange 0 0x10000 [] 0) 64 256 4 1 1 2 128
    1 1 4 1 1 10 20 2 8 8 false 64 64 12.
Definition queued_read (id bank : Z) : MemPacket :=
  mkMemPacket 0 5 (mkPacket id 0 64 true false false true 0 0 0 0) true (mkLocation 0 bank 0 bank)
    0 64 None 0.

Lemma frfcfs_selects_witness :
  ∃ t, chooseNextFRFCFS two_banks_intf 10 READ two_banks [queued_read 1 0; queued_read 2 1] 20 =
    Ok (Some 1%nat, t).
Proof.
  destruct (frfcfs_selects two_banks_intf 10 READ two_banks 20 [queued_read 1 0; queued_read 2 1])
    as (t & Ht & _).
  - split; [reflexivity|]. repeat constructor.
  - repeat constructor; vm_compute; congruence.
  - exists t. rewrite Ht. vm_compute. reflexivity.
Defined.
End DevInv.
