(* ===== verification/MemCtrlQos.v ===== *)
(** * The QoS log of the memory controller

    [logRequest] and [logResponse] keep per-requestor packet counts and
    per-address request times.  [qos_inv] ties them to the packets queued
    (one priority level); under it neither panics. *)

From S2P Require Import Prelude.
From S2P Require Import NvmDevice.
From S2P Require Import NvmDeviceInv.
From S2P Require Import MemCtrl.

Module QosLog.
Export Ctrl DevInv.

Definition of_requestor (id : Z) (m : MemPacket) : Prop := m_requestorId m = id.
Definition of_address (id addr : Z) (m : MemPacket) : Prop := m_requestorId m = id ∧ m_addr m = addr.
#[export] Instance of_requestor_dec id m : Decision (of_requestor id m).
Proof. unfold of_requestor. apply _. Defined.
#[export] Instance of_address_dec id addr m : Decision (of_address id addr m).
Proof. unfold of_address. apply _. Defined.

(** [nr] reads and [nw] writes are queued, [all] lists them. *)
Record qos_inv (nr nw : Z) (all : list MemPacket) (q : Qos) : Prop := {
  qi_len : nr + nw = Z.of_nat (length all);
  qi_bound : 0 ≤ nr ∧ 0 ≤ nw ∧ nr + nw < 2 ^ 64;
  qi_reads : totalReadQueueSize q = nr;
  qi_writes : totalWriteQueueSize q = nw;
  qi_rsizes : readQueueSizes q = [nr];
  qi_wsizes : writeQueueSizes q = [nw];
  qi_known : Forall (λ m, m_requestorId m ∈ requestors q) all;
  qi_prios : ∀ id, id ∈ requestors q →
    packetPriorities q !! id = Some [cnt (of_requestor id) all];
  qi_times : ∀ id addr, Z.of_nat (length (times_of q id addr)) = cnt (of_address id addr) all;
}.

Lemma qos_inv_perm nr nw l k q : l ≡ₚ k → qos_inv nr nw l q → qos_inv nr nw k q.
Proof.
  intros Hp []. constructor; try done.
  - by rewrite <-Hp.
  - by rewrite <-Hp.
  - intros id Hid. rewrite <-(cnt_perm _ _ _ Hp). by apply qi_prios0.
  - intros id addr. rewrite <-(cnt_perm _ _ _ Hp). done.
Qed.

Lemma vec_update_single f x : vec_update f 0 [x] = Ok [f x].
Proof. reflexivity. Qed.

(** A recorded time pushed or popped. *)
Lemma times_of_insert q id addr l id' addr' :
  times_of (set_requestTimes (<[id := <[addr := l]> (default ∅ (requestTimes q !! id))]>
    (requestTimes q)) q) id' addr' =
  if decide (id = id' ∧ addr = addr') then l else times_of q id' addr'.
Proof.
  unfold times_of. simpl. case_decide as Hd.
  - destruct Hd as [<- <-]. rewrite lookup_insert_eq. simpl. by rewrite lookup_insert_eq.
  - destruct (decide (id = id')) as [<-|].
    + rewrite lookup_insert_eq. simpl. rewrite lookup_insert_ne by naive_solver. done.
    + by rewrite lookup_insert_ne.
Qed.

Lemma times_of_delete q id addr id' addr' :
  times_of (set_requestTimes (<[id := delete addr (default ∅ (requestTimes q !! id))]>
    (requestTimes q)) q) id' addr' =
  if decide (id = id' ∧ addr = addr') then [] else times_of q id' addr'.
Proof.
  unfold times_of. simpl. case_decide as Hd.
  - destruct Hd as [<- <-]. rewrite lookup_insert_eq. simpl. by rewrite lookup_delete_eq.
  - destruct (decide (id = id')) as [<-|].
    + rewrite lookup_insert_eq. simpl. rewrite lookup_delete_ne by naive_solver. done.
    + by rewrite lookup_insert_ne.
Qed.

Section Log.
Context (c : Config) (Hprio : numPriorities c = 1).

Lemma addRequestor_inv id nr nw all q :
  qos_inv nr nw all q →
  qos_inv nr nw all (addRequestor c id q) ∧ id ∈ requestors (addRequestor c id q).
Proof.
  intros Hi. pose proof Hi as []. unfold addRequestor. case_bool_decide as Hd; [done|].
  rewrite Hprio. split; [|cbn; apply elem_of_union; left; by apply elem_of_singleton].
  constructor; simpl; try done.
  - eapply Forall_impl; [exact qi_known0|]. simpl. intros ? ?. apply elem_of_union. by right.
  - intros id' Hid'. destruct (decide (id' = id)) as [->|Hne].
    + rewrite lookup_insert_eq. do 2 f_equal. symmetry. unfold cnt.
      destruct (filter (of_requestor id) all) as [|m l] eqn:E; [done|exfalso].
      assert (m ∈ filter (of_requestor id) all) as Hm by (rewrite E; constructor).
      apply list_elem_of_filter in Hm as [Hm Hin]. rewrite Forall_forall in qi_known0.
      specialize (qi_known0 m Hin). unfold of_requestor in Hm. simpl in qi_known0. congruence.
    + rewrite lookup_insert_ne by done. apply qi_prios0.
      apply elem_of_union in Hid' as [Hid'%elem_of_singleton|]; done.
Qed.

(** The queue sizes after [d] entries are added in direction [dir]. *)
Definition moved (dir : BusState) (d nr nw : Z) : Z * Z :=
  match dir with READ => (nr + d, nw) | WRITE => (nr, nw + d) end.

Lemma add_sizes_ok dir d nr nw all q :
  qos_inv nr nw all q → let '(nr', nw') := moved dir d nr nw in
  0 ≤ nr' < 2 ^ 64 → 0 ≤ nw' < 2 ^ 64 →
  ∃ q', add_sizes dir 0 d q = Ok q' ∧ requestors q' = requestors q ∧
    packetPriorities q' = packetPriorities q ∧ requestTimes q' = requestTimes q ∧
    totalReadQueueSize q' = nr' ∧ totalWriteQueueSize q' = nw' ∧
    readQueueSizes q' = [nr'] ∧ writeQueueSizes q' = [nw'].
Proof.
  intros []. destruct dir; cbn [moved]; intros Hr Hw; unfold add_sizes.
  - rewrite qi_rsizes0, vec_update_single. eexists. split; [reflexivity|]. cbn.
    rewrite qi_reads0, u64_small by done. done.
  - rewrite qi_wsizes0, vec_update_single. eexists. split; [reflexivity|]. cbn.
    rewrite qi_writes0, u64_small by done. done.
Qed.

Lemma logRequest_ok t dir m nr nw all q :
  qos_inv nr nw all q → nr + nw + 1 < 2 ^ 64 →
  let '(nr', nw') := moved dir 1 nr nw in
  ∃ q', logRequest c t dir (m_requestorId m) 0 (m_addr m) q = Ok q' ∧
    qos_inv nr' nw' (m :: all) q'.
Proof.
  intros Hi0 Hb. destruct (addRequestor_inv (m_requestorId m) _ _ _ _ Hi0) as [Hi Hid].
  unfold logRequest. set (q0 := addRequestor c (m_requestorId m) q) in *.
  pose proof (add_sizes_ok dir 1 nr nw all q0 Hi) as Ha. pose proof Hi as [].
  destruct (moved dir 1 nr nw) as [nr' nw'] eqn:Hm.
  assert (nr' + nw' = nr + nw + 1 ∧ 0 ≤ nr' ∧ 0 ≤ nw') as (Hsum & Hn1 & Hn2).
  { destruct dir; cbn in Hm; injection Hm as <- <-; lia. }
  destruct Ha as (q1 & -> & Hreq & Hpp & Hrt & Htr & Htw & Hrs & Hws); [lia|lia|].
  cbn [mbind res_bind]. rewrite Hpp, qi_prios0 by done. cbn [default from_option id].
  rewrite vec_update_single. cbn [mbind res_bind].
  pose proof (cnt_le_length (of_requestor (m_requestorId m)) all).
  pose proof (cnt_nonneg (of_requestor (m_requestorId m)) all).
  rewrite u64_small by lia. eexists. split; [reflexivity|].
  constructor; cbn [set_requestTimes set_packetPriorities requestors packetPriorities requestTimes
    readQueueSizes writeQueueSizes totalReadQueueSize totalWriteQueueSize]; try done.
  - rewrite length_cons. lia.
  - lia.
  - constructor; [by rewrite Hreq|]. by rewrite Hreq.
  - intros id Hid'. rewrite cnt_cons. rewrite Hreq in Hid'. destruct (decide (of_requestor id m)) as [Ho|Ho].
    + unfold of_requestor in Ho. subst id. rewrite lookup_insert_eq. do 2 f_equal. lia.
    + rewrite lookup_insert_ne by done. rewrite qi_prios0 by done. done.
  - intros id addr. rewrite cnt_cons, <-qi_times0.
    pose proof (times_of_insert q1 (m_requestorId m) (m_addr m)
      (times_of q1 (m_requestorId m) (m_addr m) ++ [t]) id addr) as Ht.
    unfold times_of in Ht |- *. cbn in Ht |- *. rewrite Ht. unfold of_address. rewrite <-Hrt.
    case_decide as Hd; case_decide as Hd'; [|tauto|tauto|done].
    destruct Hd as [<- <-]. rewrite length_app. cbn. lia.
Qed.

Lemma logResponse_ok dir m nr nw all q :
  qos_inv nr nw (m :: all) q → let '(nr', nw') := moved dir (-1) nr nw in
  0 ≤ nr' → 0 ≤ nw' →
  ∃ q', logResponse dir (m_requestorId m) 0 (m_addr m) q = Ok q' ∧ qos_inv nr' nw' all q'.
Proof.
  intros Hi. pose proof (add_sizes_ok dir (-1) nr nw _ q Hi) as Ha. pose proof Hi as [].
  destruct (moved dir (-1) nr nw) as [nr' nw'] eqn:Hm. intros Hn1 Hn2.
  assert (nr' + nw' = nr + nw - 1 ∧ nr' ≤ nr ∧ nw' ≤ nw) as (Hsum & Hle1 & Hle2).
  { destruct dir; cbn in Hm; injection Hm as <- <-; lia. }
  destruct Ha as (q1 & Hq1 & Hreq & Hpp & Hrt & Htr & Htw & Hrs & Hws); [lia|lia|].
  apply Forall_cons in qi_known0 as [Hk Hall].
  unfold logResponse. rewrite bool_decide_true by done. cbn [negb panic_if mbind res_bind].
  rewrite Hq1. cbn [mbind res_bind]. rewrite Hpp, qi_prios0 by done. cbn [default from_option id].
  rewrite vec_update_single. change ([?x] !! Z.to_nat 0) with (Some x). cbn [mbind res_bind].
  pose proof (cnt_nonneg (of_requestor (m_requestorId m)) all).
  pose proof (cnt_le_length (of_requestor (m_requestorId m)) all).
  rewrite length_cons in qi_len0. rewrite cnt_cons, decide_True by done.
  rewrite (proj2 (Z.eqb_neq _ _)) by lia. cbn [panic_if mbind res_bind].
  rewrite u64_small by lia.
  pose proof (qi_times0 (m_requestorId m) (m_addr m)) as Ht. rewrite cnt_cons, decide_True in Ht by done.
  pose proof (cnt_nonneg (of_address (m_requestorId m) (m_addr m)) all).
  unfold times_of in Ht. rewrite <-Hrt in Ht.
  destruct (default ∅ (requestTimes q1 !! m_requestorId m) !! m_addr m) as [l|] eqn:El;
    [|cbn in Ht; lia]. cbn [mbind res_bind].
  destruct l as [|t0 l]; [cbn in Ht; lia|].
  set (times' := match l with [] => _ | _ => _ end).
  assert (∀ id addr, times_of (set_requestTimes (<[m_requestorId m := times']> (requestTimes q1)) q1) id addr =
    if decide (m_requestorId m = id ∧ m_addr m = addr) then l else times_of q1 id addr) as Htimes.
  { intros id addr. unfold times'. destruct l as [|t1 l'].
    - apply times_of_delete.
    - apply times_of_insert. }
  eexists. split; [reflexivity|].
  constructor; cbn [set_requestTimes set_packetPriorities requestors packetPriorities requestTimes
    readQueueSizes writeQueueSizes totalReadQueueSize totalWriteQueueSize]; try done.
  - lia.
  - lia.
  - by rewrite Hreq.
  - intros id Hid'. rewrite Hreq in Hid'. pose proof (qi_prios0 id Hid') as Hp.
    rewrite cnt_cons in Hp. destruct (decide (of_requestor id m)) as [Ho|Ho].
    + unfold of_requestor in Ho. subst id. rewrite lookup_insert_eq. do 2 f_equal. lia.
    + rewrite lookup_insert_ne by done. rewrite Hp. done.
  - intros id addr. specialize (Htimes id addr). pose proof (qi_times0 id addr) as Hq.
    rewrite cnt_cons in Hq. unfold times_of in Htimes, Hq |- *. cbn in Htimes |- *.
    rewrite Htimes. rewrite <-Hrt in Hq.
    destruct (decide (of_address id addr m)) as [[<- <-]|Hn].
    + rewrite decide_True by done. rewrite El in Hq. cbn in Hq. lia.
    + rewrite decide_False by done. lia.
Qed.
End Log.
End QosLog.
