(* ===== verification/MemCtrlInv.v ===== *)
(** * Invariant of the memory controller

    The queues of the controller against the NVM interface, the QoS log, the
    events and the burst helpers, for one priority level.  Each operation
    that accepts or completes a request keeps it without failing. *)

From stdpp Require Import sorting.
From S2P Require Import Prelude.
From S2P Require Import Intmath.
From S2P Require Import AddrRange.
From S2P Require Import NvmDecode.
From S2P Require Import NvmDevice.
From S2P Require Import NvmDeviceInv.
From S2P Require Import MemCtrl.
From S2P Require Import MemCtrlQos.

Module CtrlInv.
Export QosLog.

(** ** Configurations and requests the theorems are about *)

Record cfg_ok (c : Config) : Prop := {
  co_timing : timing_ok (intf c) (commandWindow c);
  co_burst : ∃ k, 0 ≤ k < 30 ∧ burst_size c = 2 ^ k;
  co_offset : ∀ a, ∃ o, getOffset (range (intf c)) a = Ok o;
  co_prio : numPriorities c = 1;
  co_rbuf : 0 ≤ c_readBufferSize c < 2 ^ 16;
  co_wbuf : 0 ≤ c_writeBufferSize c < 2 ^ 32;
  co_pending : 0 < maxPendingReads (intf c) ∧ 0 < maxPendingWrites (intf c);
  co_thresholds : 0 ≤ writeHighThreshold c ∧ 0 ≤ writeLowThreshold c;
}.

(** A read or write of a few bursts at most, inside the address space. *)
Record pkt_ok (c : Config) (p : Packet) : Prop := {
  po_addr : 0 ≤ p_addr p;
  po_size : 0 < p_size p < 2 ^ 30;
  po_end : p_addr p + p_size p + burst_size c ≤ 2 ^ 64;
  po_range : contains (range (intf c)) (p_addr p) = true;
  po_snoop : p_cacheResponding p = false;
  po_kind : p_isRead p || p_isWrite p = true;
  po_qos : p_qosValue p = 0;
}.

(** ** What the invariant says *)

(** A queued burst. *)
Record mem_ok (c : Config) (m : MemPacket) : Prop := {
  mo_qos : m_qos m = 0;
  mo_size : m_size m ≤ burst_size c;
  mo_range : contains (range (intf c)) (p_addr (m_pkt m)) = true;
}.

Definition burst_of (c : Config) (m : MemPacket) : Z := burstAlign c (m_addr m).

Record ctrl_inv (c : Config) (rq wq : list MemPacket) (s : State) : Prop := {
  ci_now : 0 ≤ now s < MaxTick;
  ci_rq : readQueue (qs s) = [rq];
  ci_wq : writeQueue (qs s) = [wq];
  ci_nvm : nvm_inv (intf c) (now s) rq wq (nvm s);
  ci_qos : qos_inv (Z.of_nat (length rq)) (Z.of_nat (length wq)) (rq ++ wq) (qos s);
  ci_mem : Forall (mem_ok c) (rq ++ wq ++ respQueue (qs s));
  ci_rbuf : Z.of_nat (length rq) + Z.of_nat (length (respQueue (qs s))) ≤ c_readBufferSize c;
  ci_wbuf : Z.of_nat (length wq) ≤ c_writeBufferSize c;
  ci_inwq : isInWriteQueue (qs s) = list_to_set (burst_of c <$> wq);
  ci_nodup : NoDup (burst_of c <$> wq);
  ci_rsorted : Sorted Z.le (readyTime <$> respQueue (qs s));
  ci_revent : event_min (now s) (readyTime <$> respQueue (qs s)) (respondEvent (front s));
  ci_rlast : Forall (λ m, readyTime m ≤ nextBurstAt (bus s) + tSEND (intf c)) (respQueue (qs s));
  ci_next : scheduled (nextReqEvent (front s)) = true → now s ≤ when (nextReqEvent (front s));
  ci_dir : busStateNext (bus s) = WRITE → wq ≠ [];
}.

(** Work that must be woken up for has an event that will do so. *)
Definition has_work (c : Config) (rq wq : list MemPacket) (s : State) : Prop :=
  rq ≠ [] ∨ busStateNext (bus s) = WRITE ∨ writeLowThreshold c < Z.of_nat (length wq).
Definition awake (s : State) : Prop :=
  scheduled (nextReqEvent (front s)) = true ∨ scheduled (readReadyEvent (nvm s)) = true ∨
  scheduled (writeRespondEvent (nvm s)) = true.

(** *** Work left *)

(** What the controller still has to do for the requests it accepted: every
    event it handles lowers [workload].  A read passes through the media to
    the response queue, a write through the media's write buffer, and the bus
    turns from reads to writes at most once without moving a burst. *)
Definition load (s : State) : Z :=
  media_load (nvm s) + Z.of_nat (length (respQueue (qs s))) + 4 * totalWriteQueueSize (qos s) +
  (if is_READ (busStateNext (bus s)) then 1 else 0).
Definition workload (s : State) : Z :=
  load s + (if scheduled (nextReqEvent (front s)) then 1 else 0).

(** *** Split packets *)

(** The system packet and the burst helper of a queued burst. *)
Definition tag (m : MemPacket) : Packet * option Z := (m_pkt m, burstHelper m).
Definition tags (rq : list MemPacket) (s : State) : list (Packet * option Z) :=
  tag <$> (rq ++ respQueue (qs s)).

Definition has_helper (h : Z) (t : Packet * option Z) : Prop := snd t = Some h.
Definition unsplit (t : Packet * option Z) : Prop := snd t = None.
#[export] Instance has_helper_dec h t : Decision (has_helper h t).
Proof. unfold has_helper. apply _. Defined.
#[export] Instance unsplit_dec t : Decision (unsplit t).
Proof. unfold unsplit. apply _. Defined.

(** Bursts of the packet of helper [h] not yet queued or counted. *)
Definition credit (open : option (Z * Z)) (h : Z) : Z :=
  match open with Some (h', k) => if decide (h' = h) then k else 0 | None => 0 end.

(** [hp] gives the packet of each live helper: its serviced bursts and its
    queued bursts add up to its burst count. *)
Record help_inv (hp : gmap Z Packet) (open : option (Z * Z)) (ts : list (Packet * option Z))
    (hs : gmap Z BurstHelper) (next : Z) : Prop := {
  hi_dom : ∀ h, is_Some (hp !! h) ↔ is_Some (hs !! h);
  hi_next : ∀ h b, hs !! h = Some b → h < next;
  hi_count : ∀ h b, hs !! h = Some b →
    burstsServiced b + cnt (has_helper h) ts + credit open h = burstCount b ∧
    0 ≤ burstsServiced b ∧ 0 < cnt (has_helper h) ts ∧ burstCount b < 2 ^ 32;
  hi_tag : ∀ p h, (p, Some h) ∈ ts → hp !! h = Some p;
}.

(** The packets the controller still has to access and answer. *)
Definition owed (hp : gmap Z Packet) (ts : list (Packet * option Z)) : list Packet :=
  (fst <$> filter unsplit ts) ++ (snd <$> map_to_list hp).

Definition accessed (o : list Output) : list Packet :=
  omap (λ x, match x with Access p => Some p | _ => None end) o.
Definition responded (o : list Output) : list Packet :=
  omap (λ x, match x with Response p _ => Some p | _ => None end) o.

(** Every accepted packet is accessed exactly once, or still owed; the
    packets that need a response get it with the access. *)
Record serve_inv (hp : gmap Z Packet) (rq : list MemPacket) (accepted : list Packet) (s : State) :
    Prop := {
  si_help : help_inv hp None (tags rq s) (helpers (qs s)) (next_helper (qs s));
  si_served : accessed (outputs (front s)) ++ owed hp (tags rq s) ≡ₚ accepted;
  si_resp : responded (outputs (front s)) =
    filter (λ p, p_needsResponse p = true) (accessed (outputs (front s)));
}.

(** ** Burst arithmetic *)

Section Arithmetic.
Context (c : Config) (Hc : cfg_ok c).

Lemma burst_pos : 0 < burst_size c < 2 ^ 30.
Proof.
  destruct (co_burst c Hc) as (k & Hk & ->). split; [lia|]. apply Z.pow_lt_mono_r; lia.
Qed.

Lemma burst_end_spec a :
  0 ≤ a → a + burst_size c < 2 ^ 64 → burst_end c a = (a / burst_size c + 1) * burst_size c.
Proof.
  intros Ha Hb. pose proof burst_pos. unfold burst_end. rewrite (u32_small (burst_size c - 1)) by lia.
  destruct (co_burst c Hc) as (k & Hk & Heq). rewrite Heq in *. rewrite lor_ones by lia.
  pose proof (Z.mul_div_le a (2 ^ k) ltac:(lia)).
  pose proof (Z.div_pos a (2 ^ k) ltac:(lia) ltac:(lia)). rewrite u64_small by lia. lia.
Qed.

Lemma burst_bounds a : a / burst_size c * burst_size c ≤ a < (a / burst_size c + 1) * burst_size c.
Proof.
  pose proof burst_pos. pose proof (Z.div_mod a (burst_size c) ltac:(lia)).
  pose proof (Z.mod_pos_bound a (burst_size c) ltac:(lia)). lia.
Qed.

(** The bursts of a packet still to come at address [a]. *)
Definition at_burst (p : Packet) (a r : Z) : Prop :=
  p_addr p ≤ a ∧
  r = (p_addr p + p_size p - 1) / burst_size c - a / burst_size c + 1 ∧
  (0 < r → a < p_addr p + p_size p).

Lemma pkt_count_ok p : pkt_ok c p →
  ∃ n, pkt_count_of c p = Ok n ∧ at_burst p (p_addr p) n ∧ 0 < n < 2 ^ 32.
Proof.
  intros Hp. destruct Hp. pose proof burst_pos as Hb. unfold pkt_count_of.
  rewrite (u32_small (burst_size c - 1)) by lia.
  destruct (co_burst c Hc) as (k & Hk & Heq).
  assert (Z.land (p_addr p) (burst_size c - 1) = p_addr p mod burst_size c) as ->.
  { rewrite Heq. replace (2 ^ k - 1) with (Z.ones k) by (rewrite Z.ones_equiv; lia).
    by rewrite Z.land_ones by lia. }
  pose proof (Z.mod_pos_bound (p_addr p) (burst_size c) ltac:(lia)).
  rewrite (u32_small (p_addr p mod _)) by lia. rewrite (u32_small (_ + p_size p)) by lia.
  set (b := burst_size c) in *. set (o := p_addr p mod b) in *.
  rewrite (u32_small (o + p_size p + b - 1)) by lia. rewrite udiv_ok by lia.
  eexists. split; [reflexivity|].
  replace (o + p_size p + b - 1) with (o + p_size p - 1 + 1 * b) by lia.
  rewrite Z.div_add by lia.
  assert ((p_addr p + p_size p - 1) / b = p_addr p / b + (o + p_size p - 1) / b) as Hd.
  { pose proof (Z.div_mod (p_addr p) b ltac:(lia)) as Hdm. fold o in Hdm.
    replace (p_addr p + p_size p - 1) with (o + p_size p - 1 + p_addr p / b * b) by lia.
    rewrite Z.div_add by lia. lia. }
  pose proof (Z.div_pos (o + p_size p - 1) b ltac:(lia) ltac:(lia)).
  pose proof (Z.div_le_upper_bound (o + p_size p - 1) b (o + p_size p - 1) ltac:(lia) ltac:(nia)).
  unfold at_burst. fold b. lia.
Qed.

(** The part of the packet in the burst of [a], and the step to the next. *)
Lemma chunk_ok p a r : pkt_ok c p → at_burst p a r → 0 < r →
  0 < chunk_size c p a ≤ burst_size c ∧ a + chunk_size c p a ≤ p_addr p + p_size p ∧
  (a + chunk_size c p a - 1) / burst_size c = a / burst_size c ∧ a < 2 ^ 64 - burst_size c ∧
  at_burst p (burst_end c a) (r - 1).
Proof.
  intros Hp (Ha & Hr & Hlt) Hpos. destruct Hp. pose proof burst_pos as Hb.
  specialize (Hlt Hpos). pose proof (burst_bounds a) as Hba.
  pose proof (burst_end_spec a ltac:(lia) ltac:(lia)) as He. unfold chunk_size. rewrite He.
  rewrite (u64_small (p_addr p + p_size p)) by lia.
  set (b := burst_size c) in *. set (q := a / b) in *. set (e := p_addr p + p_size p) in *.
  rewrite u32_small by lia.
  split; [lia|]. split; [lia|]. split; [|split; [lia|]].
  - symmetry. apply (Z.div_unique_pos _ b q (a + (Z.min ((q + 1) * b) e - a) - 1 - b * q)); lia.
  - unfold at_burst. fold b e. split; [lia|]. split; [rewrite Z.div_mul by lia; lia|].
    intros Hr1. pose proof (Z.mul_div_le (e - 1) b ltac:(lia)). nia.
Qed.

Lemma burstAlign_spec a : 0 ≤ a < 2 ^ 64 → burstAlign c a = a / burst_size c * burst_size c.
Proof.
  intros Ha. pose proof burst_pos. unfold burstAlign. rewrite u32_small by lia.
  destruct (co_burst c Hc) as (k & Hk & Heq). rewrite Heq in *.
  rewrite land_not_ones by lia. pose proof (Z.div_mod a (2 ^ k) ltac:(lia)). lia.
Qed.
End Arithmetic.

(** ** Helpers and owed packets *)

Lemma credit_ne h k h' : h ≠ h' → credit (Some (h, k)) h' = 0.
Proof. intros. cbn. by rewrite decide_False. Qed.

Lemma credit_eq h k : credit (Some (h, k)) h = k.
Proof. cbn. by rewrite decide_True. Qed.

Lemma cnt_helper_cons h p o ts :
  cnt (has_helper h) ((p, o) :: ts) = (if decide (o = Some h) then 1 else 0) + cnt (has_helper h) ts.
Proof. rewrite cnt_cons. by unfold has_helper; cbn; repeat case_decide. Qed.

Lemma help_perm hp o ts ts' hs n :
  ts ≡ₚ ts' → help_inv hp o ts hs n → help_inv hp o ts' hs n.
Proof.
  intros Hp []. constructor; try done.
  - intros h b Hb. rewrite <-(cnt_perm _ _ _ Hp). by apply hi_count0.
  - intros p h Hin. apply hi_tag0. by rewrite Hp.
Qed.

Lemma owed_perm hp ts ts' : ts ≡ₚ ts' → owed hp ts ≡ₚ owed hp ts'.
Proof. intros Hp. unfold owed. by rewrite Hp. Qed.

Lemma owed_unsplit hp p ts : owed hp ((p, None) :: ts) = p :: owed hp ts.
Proof. unfold owed. rewrite filter_cons_True by done. done. Qed.

Lemma owed_split hp p h ts : owed hp ((p, Some h) :: ts) = owed hp ts.
Proof. unfold owed. rewrite filter_cons_False by done. done. Qed.

Lemma owed_insert hp h p ts : hp !! h = None → owed (<[h := p]> hp) ts ≡ₚ p :: owed hp ts.
Proof.
  intros Hh. unfold owed. rewrite map_to_list_insert by done. rewrite fmap_cons.
  by rewrite <-Permutation_middle.
Qed.

Lemma help_add_unsplit hp o ts hs n p :
  help_inv hp o ((p, None) :: ts) hs n ↔ help_inv hp o ts hs n.
Proof.
  split; intros [].
  - constructor; [done|done| |].
    + intros h b Hb. specialize (hi_count0 h b Hb). rewrite cnt_helper_cons in hi_count0. done.
    + intros q h Hin. apply hi_tag0. by constructor.
  - constructor; [done|done| |].
    + intros h b Hb. specialize (hi_count0 h b Hb). rewrite cnt_helper_cons. done.
    + intros q h Hin. apply elem_of_cons in Hin as [Hin|Hin]; [by inversion Hin|]. by apply hi_tag0.
Qed.

(** The first queued burst of a split packet makes its helper. *)
Lemma help_open hp ts hs n p k :
  help_inv hp None ts hs n → 1 ≤ k < 2 ^ 32 →
  hp !! n = None ∧
  help_inv (<[n := p]> hp) (Some (n, k - 1)) ((p, Some n) :: ts)
    (<[n := mkBurstHelper k 0]> hs) (n + 1).
Proof.
  intros [] Hk. assert (hs !! n = None) as Hn.
  { destruct (hs !! n) eqn:E; [|done]. specialize (hi_next0 _ _ E). lia. }
  assert (hp !! n = None) as Hpn.
  { destruct (hp !! n) eqn:E; [|done]. destruct (hi_dom0 n) as [Hd _].
    rewrite E, Hn in Hd. destruct Hd; done. }
  split; [done|]. constructor.
  - intros h. destruct (decide (h = n)) as [->|].
    + rewrite !lookup_insert_eq. done.
    + by rewrite !lookup_insert_ne.
  - intros h b Hb. destruct (decide (h = n)) as [->|]; [lia|].
    rewrite lookup_insert_ne in Hb by done. specialize (hi_next0 _ _ Hb). lia.
  - intros h b Hb. rewrite cnt_helper_cons. destruct (decide (h = n)) as [->|].
    + rewrite lookup_insert_eq in Hb. injection Hb as <-. rewrite decide_True, credit_eq by done.
      assert (cnt (has_helper n) ts = 0) as ->; [|cbn [burstsServiced burstCount]; lia].
      destruct (Z.eqb_spec (cnt (has_helper n) ts) 0) as [|Hne]; [done|exfalso].
      pose proof (cnt_nonneg (has_helper n) ts).
      assert (0 < cnt (has_helper n) ts) as Hcp by lia. apply cnt_pos in Hcp as ([q o] & Hin & Ho).
      unfold has_helper in Ho; cbn in Ho; subst o. specialize (hi_tag0 q n Hin). congruence.
    + rewrite lookup_insert_ne in Hb by done. rewrite decide_False by congruence.
      rewrite credit_ne by done. specialize (hi_count0 h b Hb). cbn in hi_count0. lia.
  - intros q h Hin. apply elem_of_cons in Hin as [Hin|Hin].
    + injection Hin as -> ->. by rewrite lookup_insert_eq.
    + specialize (hi_tag0 q h Hin). rewrite lookup_insert_ne; [done|]. intros <-. congruence.
Qed.

Lemma help_more hp h k ts hs n p :
  help_inv hp (Some (h, k)) ts hs n → hp !! h = Some p →
  help_inv hp (Some (h, k - 1)) ((p, Some h) :: ts) hs n.
Proof.
  intros [] Hp. constructor; try done.
  - intros h' b Hb. specialize (hi_count0 h' b Hb). rewrite cnt_helper_cons.
    destruct (decide (h = h')) as [<-|].
    + rewrite credit_eq in *. rewrite decide_True by done. lia.
    + rewrite credit_ne in * by done. rewrite decide_False by congruence. lia.
  - intros q h' Hin. apply elem_of_cons in Hin as [Hin|Hin]; [|by apply hi_tag0].
    by injection Hin as -> ->.
Qed.

(** [burst_helper->burstsServiced = pktsServicedByWrQ]. *)
Lemma help_close hp h k ts hs n pc :
  help_inv hp (Some (h, k)) ts hs n → 0 ≤ k → hs !! h = Some (mkBurstHelper pc 0) →
  help_inv hp None ts (alter (λ b, mkBurstHelper (burstCount b) k) h hs) n.
Proof.
  intros [] Hk Hh. constructor; try done.
  - intros h'. rewrite hi_dom0, lookup_alter. case_decide; [|done]. subst h'. symmetry. apply fmap_is_Some.
  - intros h' b Hb. rewrite lookup_alter_Some in Hb. destruct Hb as [(<- & b0 & Hb & ->)|[_ Hb]]; eauto.
  - intros h' b Hb. rewrite lookup_alter_Some in Hb. destruct Hb as [(<- & b0 & Hb & ->)|[Hne Hb]].
    + specialize (hi_count0 h b0 Hb). rewrite Hh in Hb. injection Hb as <-.
      rewrite credit_eq in hi_count0. cbn in *. lia.
    + specialize (hi_count0 h' b Hb). rewrite credit_ne in hi_count0 by done. cbn. lia.
Qed.

(** A burst of a split packet that is not the last one. *)
Lemma help_serve hp h b ts hs n p :
  help_inv hp None ((p, Some h) :: ts) hs n → hs !! h = Some b →
  burstsServiced b + 1 ≠ burstCount b →
  help_inv hp None ts (<[h := mkBurstHelper (burstCount b) (burstsServiced b + 1)]> hs) n.
Proof.
  intros [] Hb Hne. constructor.
  - intros h'. rewrite hi_dom0. destruct (decide (h' = h)) as [->|].
    + rewrite lookup_insert_eq, Hb. done.
    + by rewrite lookup_insert_ne.
  - intros h' b' Hb'. destruct (decide (h' = h)) as [->|]; [by eapply hi_next0|].
    rewrite lookup_insert_ne in Hb' by done. by eapply hi_next0.
  - intros h' b' Hb'. destruct (decide (h' = h)) as [->|].
    + rewrite lookup_insert_eq in Hb'. injection Hb' as <-. specialize (hi_count0 h b Hb).
      rewrite cnt_helper_cons, decide_True in hi_count0 by done. cbn in *. lia.
    + rewrite lookup_insert_ne in Hb' by done. specialize (hi_count0 h' b' Hb').
      rewrite cnt_helper_cons, decide_False in hi_count0 by congruence. lia.
  - intros q h' Hin. apply hi_tag0. by constructor.
Qed.

(** The last burst of a split packet. *)
Lemma help_last hp h b ts hs n p :
  help_inv hp None ((p, Some h) :: ts) hs n → hs !! h = Some b →
  burstsServiced b + 1 = burstCount b →
  help_inv (delete h hp) None ts (delete h hs) n ∧
  owed hp ((p, Some h) :: ts) ≡ₚ p :: owed (delete h hp) ts.
Proof.
  intros [] Hb He. pose proof (hi_count0 h b Hb) as Hcnt.
  rewrite cnt_helper_cons, decide_True in Hcnt by done. cbn in Hcnt.
  assert (∀ q, (q, Some h) ∉ ts) as Hnone.
  { intros q Hin. pose proof (cnt_elem (has_helper h) ts _ Hin ltac:(done)). lia. }
  split.
  - constructor.
    + intros h'. destruct (decide (h' = h)) as [->|].
      * by rewrite !lookup_delete_eq.
      * by rewrite !lookup_delete_ne.
    + intros h' b' Hb'. apply lookup_delete_Some in Hb' as [_ ?]. eauto.
    + intros h' b' Hb'. apply lookup_delete_Some in Hb' as [Hne Hb'].
      specialize (hi_count0 h' b' Hb'). rewrite cnt_helper_cons, decide_False in hi_count0 by congruence.
      lia.
    + intros q h' Hin. destruct (decide (h' = h)) as [->|]; [by destruct (Hnone q)|].
      rewrite lookup_delete_ne by done. apply hi_tag0. by constructor.
  - rewrite owed_split. rewrite <-(insert_delete_id hp h p) at 1.
    + apply owed_insert. by rewrite lookup_delete_eq.
    + apply hi_tag0. constructor.
Qed.

(** Nothing is owed when no read is queued or waiting for its response. *)
Lemma nothing_owed hp acc s :
  serve_inv hp [] acc s → respQueue (qs s) = [] → owed hp (tags [] s) = [].
Proof.
  intros Hsv Hresp. pose proof (si_help _ _ _ _ Hsv) as Hh. unfold tags in *. rewrite Hresp in *. cbn in *.
  assert (hp = ∅) as ->; [|by unfold owed; rewrite map_to_list_empty].
  apply map_empty. intros h. destruct (hp !! h) eqn:E; [|done]. exfalso.
  assert (is_Some (helpers (qs s) !! h)) as [b Hb] by (apply (hi_dom _ _ _ _ _ Hh); eauto).
  pose proof (hi_count _ _ _ _ _ Hh h b Hb) as (_ & _ & Hpos & _). rewrite cnt_nil in Hpos. lia.
Qed.

End CtrlInv.
