(* ===== verification/MemCtrlOps.v ===== *)
(** * Accepting requests and answering reads

    [recvTimingReq], [processRespondEvent] and the media events keep the
    invariant of the controller and fail no assertion. *)

From stdpp Require Import sorting.
From S2P Require Import Prelude.
From S2P Require Import Intmath.
From S2P Require Import AddrRange.
From S2P Require Import NvmDecode.
From S2P Require Import NvmDevice.
From S2P Require Import NvmDeviceInv.
From S2P Require Import MemCtrl.
From S2P Require Import MemCtrlQos.
From S2P Require Import MemCtrlInv.

Module CtrlOps.
Export CtrlInv.

(** The invariant only looks at these fields. *)
Lemma ctrl_inv_frame c rq wq s s' :
  ctrl_inv c rq wq s → now s' = now s → nvm s' = nvm s → qos s' = qos s →
  busStateNext (bus s') = busStateNext (bus s) → nextBurstAt (bus s') = nextBurstAt (bus s) →
  readQueue (qs s') = readQueue (qs s) → writeQueue (qs s') = writeQueue (qs s) →
  respQueue (qs s') = respQueue (qs s) → isInWriteQueue (qs s') = isInWriteQueue (qs s) →
  nextReqEvent (front s') = nextReqEvent (front s) →
  respondEvent (front s') = respondEvent (front s) →
  ctrl_inv c rq wq s'.
Proof.
  intros [] H1 H2 H3 H4 H5 H6 H7 H8 H9 H10 H11.
  constructor; rewrite ?H1, ?H2, ?H3, ?H4, ?H5, ?H6, ?H7, ?H8, ?H9, ?H10, ?H11; done.
Qed.

Lemma serve_inv_frame hp rq acc s s' :
  serve_inv hp rq acc s → respQueue (qs s') = respQueue (qs s) →
  helpers (qs s') = helpers (qs s) → next_helper (qs s') = next_helper (qs s) →
  accessed (outputs (front s')) = accessed (outputs (front s)) →
  responded (outputs (front s')) = responded (outputs (front s)) →
  serve_inv hp rq acc s'.
Proof.
  intros [] H1 H2 H3 H4 H5. unfold tags in *.
  constructor; unfold tags; rewrite ?H1, ?H2, ?H3, ?H4, ?H5; done.
Qed.

Lemma accessed_app o o' : accessed (o ++ o') = accessed o ++ accessed o'.
Proof. unfold accessed. by rewrite omap_app. Qed.
Lemma responded_app o o' : responded (o ++ o') = responded o ++ responded o'.
Proof. unfold responded. by rewrite omap_app. Qed.

(** Scheduling the next request now. *)
Lemma kick_ok c rq wq s :
  ctrl_inv c rq wq s →
  ∃ e, kick s = Ok (with_front (set_nextReqEvent e (front s)) s) ∧ scheduled e = true ∧
    ctrl_inv c rq wq (with_front (set_nextReqEvent e (front s)) s).
Proof.
  intros Hi. unfold kick. destruct (scheduled (nextReqEvent (front s))) eqn:Hs.
  - exists (nextReqEvent (front s)). split; [by destruct s as [? ? ? ? ? []]|]. split; [done|].
    by eapply ctrl_inv_frame.
  - unfold schedule, assertb. rewrite Z.leb_refl, Hs. cbn [negb mbind res_bind].
    eexists. split; [reflexivity|]. split; [done|]. destruct Hi. constructor; try done.
Qed.

Section Requests.
Context (c : Config) (Hc : cfg_ok c).

(** The storage access and the response of a packet. *)
Lemma accessAndRespond_ok p lat s :
  contains (range (intf c)) (p_addr p) = true →
  ∃ f, accessAndRespond c p lat s = Ok (with_front f s) ∧
    nextReqEvent f = nextReqEvent (front s) ∧ respondEvent f = respondEvent (front s) ∧
    accessed (outputs f) = accessed (outputs (front s)) ++ [p] ∧
    responded (outputs f) =
      responded (outputs (front s)) ++ filter (λ p, p_needsResponse p = true) [p].
Proof.
  intros Hr. unfold accessAndRespond. rewrite Hr. cbn [negb panic_if mbind res_bind].
  eexists. split; [reflexivity|]. destruct (p_needsResponse p) eqn:Hn; cbn.
  - rewrite !accessed_app, !responded_app. cbn. rewrite decide_True by done.
    by rewrite !app_nil_r.
  - rewrite !accessed_app, !responded_app. cbn. rewrite decide_False by congruence. done.
Qed.

Lemma serve_access hp rq acc s f p acc' hp' ts :
  serve_inv hp rq acc s → accessed (outputs f) = accessed (outputs (front s)) ++ [p] →
  responded (outputs f) = responded (outputs (front s)) ++ filter (λ p, p_needsResponse p = true) [p] →
  owed hp (tags rq s) ≡ₚ acc' → owed hp' ts ≡ₚ acc' →
  accessed (outputs f) ++ owed hp' ts ≡ₚ p :: acc ∧
  responded (outputs f) = filter (λ p, p_needsResponse p = true) (accessed (outputs f)).
Proof.
  intros [] Ha Hr H1 H2. rewrite Ha, Hr, si_resp0, filter_app. split; [|done].
  rewrite H2, <-app_assoc, <-si_served0, H1. cbn [app]. by rewrite <-Permutation_middle.
Qed.

(** *** Reads *)

Lemma readQueueFull_false rq wq s n :
  ctrl_inv c rq wq s → 0 ≤ n < 2 ^ 32 →
  readQueueFull c s n = false ↔
  Z.of_nat (length rq) + Z.of_nat (length (respQueue (qs s))) + n ≤ c_readBufferSize c.
Proof.
  intros Hi Hn. destruct Hi. destruct ci_qos0. pose proof (co_rbuf c Hc).
  unfold readQueueFull, read_queue_len. rewrite qi_reads0, u64_small by lia.
  rewrite Z.ltb_ge. done.
Qed.

Lemma enqueue_read_ok p addr size helper rq wq s :
  pkt_ok c p → ctrl_inv c rq wq s → size ≤ burst_size c →
  Z.of_nat (length rq) + Z.of_nat (length (respQueue (qs s))) + 1 ≤ c_readBufferSize c →
  ∃ m q, enqueue_read c p addr size helper s =
      Ok (mkState (now s) (setupRank true (nvm s)) (bus s) q (set_readQueue [rq ++ [m]] (qs s)) (front s)) ∧
    tag m = (p, helper) ∧
    ctrl_inv c (rq ++ [m]) wq
      (mkState (now s) (setupRank true (nvm s)) (bus s) q (set_readQueue [rq ++ [m]] (qs s)) (front s)).
Proof.
  intros Hp Hi Hsz Hlen. pose proof (co_rbuf c Hc). pose proof (co_wbuf c Hc).
  destruct (co_timing c Hc) as (Hg & _). destruct (co_offset c Hc addr) as [o Ho].
  destruct (decodePacket_total (intf c) addr o Hg Ho) as (l & Hl & Hloc).
  unfold enqueue_read. rewrite Hl. cbn [mbind res_bind]. set (m := set_helper _ _).
  pose proof (readQueueFull_false rq wq s 1 Hi ltac:(lia)) as Hf.
  assert (readQueueFull c (with_nvm (setupRank true (nvm s)) s) 1 = false) as -> by (by apply Hf).
  cbn [negb assertb mbind res_bind with_nvm qs].
  assert (p_qosValue p = 0) as Hq by apply Hp.
  assert (m_qos m = 0) as Hmq by done. rewrite (ci_rq _ _ _ _ Hi). unfold push_queue. rewrite Hmq.
  change ([rq] !! Z.to_nat 0) with (Some rq). cbn [mbind res_bind].
  change (<[Z.to_nat 0 := rq ++ [m]]> [rq]) with [rq ++ [m]].
  pose proof (logRequest_ok c (co_prio c Hc) (now s) READ m _ _ _ _ (ci_qos _ _ _ _ Hi) ltac:(pose proof (ci_rbuf _ _ _ _ Hi); pose proof (ci_wbuf _ _ _ _ Hi); lia)) as Hlog.
  cbn [moved] in Hlog. destruct Hlog as (q & Hlog & Hqi).
  cbn [with_qs with_nvm now qos]. rewrite Hq.
  change (logRequest c (now s) READ (p_requestorId p) 0 addr (qos s))
    with (logRequest c (now s) READ (m_requestorId m) 0 (m_addr m) (qos s)).
  rewrite Hlog. cbn [mbind res_bind].
  exists m, q. split; [reflexivity|]. split; [done|].
  pose proof Hi as []. constructor; cbn [now nvm bus qos qs front set_readQueue readQueue writeQueue
    respQueue isInWriteQueue]; try done.
  - apply setupRank_read; [done|lia|by split|by split].
  - rewrite length_app. cbn [length]. rewrite Nat2Z.inj_add. cbn.
    eapply qos_inv_perm; [|exact Hqi]. rewrite <-app_assoc. cbn. by rewrite Permutation_middle.
  - rewrite <-app_assoc. cbn. rewrite <-Permutation_middle. constructor; [|done].
    constructor; [done|done|]. apply Hp.
  - rewrite length_app. cbn [length]. lia.
Qed.

Lemma serviced_cases rq wq s addr size :
  ctrl_inv c rq wq s → serviced_by_writes c s addr size = 0 ∨ serviced_by_writes c s addr size = 1.
Proof.
  intros Hi. unfold serviced_by_writes. rewrite (ci_wq _ _ _ _ Hi). case_bool_decide; [|by left].
  cbn. destruct (existsb _ wq); [by right|by left].
Qed.

(** The helper of the packet while its bursts are queued: [e] of them are,
    [others] is what was owed before. *)
Definition loop_inv (p : Packet) (pc e : Z) (others : list Packet) (helper : option Z)
    (hp : gmap Z Packet) (rq : list MemPacket) (s : State) : Prop :=
  match helper with
  | None =>
      help_inv hp None (tags rq s) (helpers (qs s)) (next_helper (qs s)) ∧
      ((e = 0 ∧ owed hp (tags rq s) ≡ₚ others) ∨
       (e = 1 ∧ pc = 1 ∧ owed hp (tags rq s) ≡ₚ p :: others))
  | Some h =>
      help_inv hp (Some (h, pc - e)) (tags rq s) (helpers (qs s)) (next_helper (qs s)) ∧
      0 < e ∧ hp !! h = Some p ∧ helpers (qs s) !! h = Some (mkBurstHelper pc 0) ∧
      owed hp (tags rq s) ≡ₚ p :: others
  end.

Lemma tags_push rq m s n b q f : 
  tags (rq ++ [m]) (mkState (now s) n b q (set_readQueue [rq ++ [m]] (qs s)) f) ≡ₚ tag m :: tags rq s.
Proof.
  unfold tags. cbn [qs set_readQueue respQueue]. rewrite <-app_assoc. cbn [app].
  rewrite !fmap_app, fmap_cons. by rewrite <-Permutation_middle.
Qed.

(** Queueing one more burst of the packet. *)
Lemma loop_step p pc e others helper hp rq s :
  loop_inv p pc e others helper hp rq s → 0 ≤ e < pc → pc < 2 ^ 32 →
  ∃ helper' s1 hp', get_helper pc helper s = (helper', s1) ∧
    now s1 = now s ∧ nvm s1 = nvm s ∧ bus s1 = bus s ∧ qos s1 = qos s ∧ front s1 = front s ∧
    readQueue (qs s1) = readQueue (qs s) ∧ writeQueue (qs s1) = writeQueue (qs s) ∧
    respQueue (qs s1) = respQueue (qs s) ∧ isInWriteQueue (qs s1) = isInWriteQueue (qs s) ∧
    ∀ m n q, tag m = (p, helper') →
      loop_inv p pc (e + 1) others helper' hp' (rq ++ [m])
        (mkState (now s1) n (bus s1) q (set_readQueue [rq ++ [m]] (qs s1)) (front s1)).
Proof.
  intros Hl He Hpc. destruct helper as [h|].
  - destruct Hl as (Hh & Hpos & Hp & Hb & Ho). exists (Some h), s, hp. split; [done|].
    repeat (split; [done|]). intros m n q Hm. pose proof (tags_push rq m s n (bus s) q (front s)) as Ht.
    split; [|split; [lia|split; [done|split; [done|]]]].
    + eapply help_perm; [symmetry; exact Ht|]. rewrite Hm. cbn.
      replace (pc - (e + 1)) with (pc - e - 1) by lia. by apply help_more.
    + rewrite (owed_perm _ _ _ Ht), Hm, owed_split. done.
  - destruct Hl as (Hh & Ho). destruct Ho as [[-> Ho]|(-> & -> & _)]; [|lia].
    unfold get_helper. destruct (Z.ltb_spec 1 pc).
    + eexists _, _, _. split; [reflexivity|]. repeat (split; [done|]). cbn [qs with_qs now bus front].
      intros m n q Hm.
      destruct (help_open hp (tags rq s) _ _ p pc Hh ltac:(lia)) as [Hn Hh'].
      match goal with |- loop_inv _ _ _ _ _ _ _ ?st => assert (tags (rq ++ [m]) st ≡ₚ tag m :: tags rq s) as Ht end.
      { unfold tags. cbn [qs set_readQueue respQueue]. rewrite <-app_assoc. cbn [app].
        rewrite !fmap_app, fmap_cons. by rewrite <-Permutation_middle. }
      split; [|split; [lia|split; [|split]]].
      * eapply help_perm; [symmetry; exact Ht|]. rewrite Hm. exact Hh'.
      * apply lookup_insert_eq.
      * cbn. apply lookup_insert_eq.
      * rewrite (owed_perm _ _ _ Ht), Hm, owed_split. rewrite owed_insert by done. by rewrite Ho.
    + assert (pc = 1) as -> by lia. exists None, s, hp. split; [done|]. repeat (split; [done|]).
      intros m n q Hm. pose proof (tags_push rq m s n (bus s) q (front s)) as Ht. split.
      * eapply help_perm; [symmetry; exact Ht|]. rewrite Hm. by apply help_add_unsplit.
      * right. split; [done|]. split; [done|].
        rewrite (owed_perm _ _ _ Ht), Hm, owed_unsplit. by rewrite Ho.
Qed.

Lemma read_loop_ok p pc others wq : pkt_ok c p → pc < 2 ^ 32 → ∀ r addr serviced e helper hp rq s,
  at_burst c p addr (Z.of_nat r) → ctrl_inv c rq wq s → loop_inv p pc e others helper hp rq s →
  0 ≤ serviced → 0 ≤ e → serviced + e + Z.of_nat r = pc →
  Z.of_nat (length rq) + Z.of_nat (length (respQueue (qs s))) + Z.of_nat r ≤ c_readBufferSize c →
  ∃ serviced' helper' s' e' hp' rq', read_loop c r pc p addr serviced helper s = Ok (serviced', helper', s') ∧
    ctrl_inv c rq' wq s' ∧ loop_inv p pc e' others helper' hp' rq' s' ∧
    0 ≤ serviced' ∧ e ≤ e' ∧ serviced' + e' = pc ∧ front s' = front s ∧ bus s' = bus s ∧
    now s' = now s ∧ (e' = e → s' = s ∧ rq' = rq).
Proof.
  intros Hp Hpc. induction r as [|r IH]; intros addr serviced e helper hp rq s Hat Hi Hl Hs He Hsum Hbuf.
  { eexists serviced, helper, s, e, hp, rq. cbn [read_loop]. repeat (split; [done || lia|]). done. }
  cbn [read_loop].
  destruct (chunk_ok c Hc p addr _ Hp Hat ltac:(lia)) as (Hch & _ & _ & _ & Hnext).
  replace (Z.of_nat (S r) - 1) with (Z.of_nat r) in Hnext by lia.
  pose proof (burst_pos c Hc). rewrite ceilLog2_log2_up; [|by repeat constructor|lia]. cbn [mbind res_bind].
  destruct (serviced_cases rq wq s addr (chunk_size c p addr) Hi) as [-> | ->]; cbn [Z.ltb Z.compare].
  - destruct (loop_step _ _ _ _ _ _ _ _ Hl ltac:(lia) Hpc) as (helper' & s1 & hp' & -> & Hn & Hv & Hb & Hq & Hfr
      & Hr1 & Hr2 & Hr3 & Hr4 & Hstep).
    assert (ctrl_inv c rq wq s1) as Hi1 by (eapply ctrl_inv_frame; [exact Hi|congruence..]).
    destruct (enqueue_read_ok p addr (chunk_size c p addr) helper' rq wq s1) as (m & q & -> & Hm & Hi2);
      [done|done|lia|rewrite Hr3; lia|]. cbn [mbind res_bind].
    specialize (Hstep m (setupRank true (nvm s1)) q Hm).
    destruct (IH _ serviced (e + 1) _ _ _ _ Hnext Hi2 Hstep) as (sv & h' & s' & e' & hp2 & rq' & -> & ? & ? & ? & ? & ? & Hf & Hbs & Hnw & Hsame);
      [lia|lia|lia|cbn; rewrite length_app, Hr3; cbn; lia|].
    eexists _, _, _, e', hp2, rq'. split; [reflexivity|]. cbn in Hf, Hbs, Hnw.
    repeat (split; [done || lia || congruence|]). lia.
  - rewrite u32_small by lia.
    destruct (IH _ (serviced + 1) e _ _ _ _ Hnext Hi Hl) as (sv & h' & s' & e' & hp2 & rq' & -> & Hrest);
      [lia|lia|lia|lia|]. by eexists _, _, _, e', hp2, rq'.
Qed.

(** A read that fits in the queue is accepted. *)
Lemma addToReadQueue_ok p pc hp acc rq wq s :
  pkt_ok c p → p_isWrite p = false → at_burst c p (p_addr p) pc → 0 < pc < 2 ^ 32 →
  ctrl_inv c rq wq s → serve_inv hp rq acc s →
  Z.of_nat (length rq) + Z.of_nat (length (respQueue (qs s))) + pc ≤ c_readBufferSize c →
  ∃ s' hp' rq', addToReadQueue c p pc s = Ok s' ∧ ctrl_inv c rq' wq s' ∧
    serve_inv hp' rq' (p :: acc) s' ∧ now s' = now s ∧ bus s' = bus s ∧
    (scheduled (nextReqEvent (front s')) = true ∨
     (rq' = rq ∧ nvm s' = nvm s ∧ nextReqEvent (front s') = nextReqEvent (front s))).
Proof.
  intros Hp Hw Hat Hpc Hi Hsv Hbuf. unfold addToReadQueue. rewrite Hw.
  rewrite (proj2 (Z.eqb_neq pc 0)) by lia. cbn [negb assertb mbind res_bind].
  destruct (read_loop_ok p pc (owed hp (tags rq s)) wq Hp ltac:(lia) (Z.to_nat pc) (p_addr p) 0 0 None hp rq s)
    as (sv & helper & s1 & e & hp1 & rq1 & -> & Hi1 & Hl & Hsv0 & He & Hsum & Hf & Hb & Hn & Hsame);
    [by rewrite Z2Nat.id by lia|done|split; [apply Hsv|by left]|lia|lia|lia|lia|].
  cbn [mbind res_bind]. destruct (Z.eqb_spec sv pc) as [->|Hne].
  - destruct Hsame as [-> ->]; [lia|].
    destruct (accessAndRespond_ok p (frontendLatency c) s) as (f & -> & Hf1 & Hf2 & Hf3 & Hf4); [apply Hp|].
    eexists _, hp, rq. split; [reflexivity|]. split; [by eapply ctrl_inv_frame|].
    destruct (serve_access hp rq acc s f p _ hp (tags rq s) Hsv Hf3 Hf4 (Permutation_refl _) (Permutation_refl _)) as [Ha Hr].
    split; [constructor; [apply Hsv|exact Ha|exact Hr]|]. split; [done|]. split; [done|]. by right.
  - set (s2 := match helper with None => s1 | Some h => _ end).
    assert (ctrl_inv c rq1 wq s2 ∧ serve_inv hp1 rq1 (p :: acc) s2 ∧ front s2 = front s1 ∧ bus s2 = bus s1 ∧ now s2 = now s1)
      as (Hi2 & Hsv2 & Hf2 & Hb2 & Hn2).
    { assert (accessed (outputs (front s1)) ++ p :: owed hp (tags rq s) ≡ₚ p :: acc) as Hacc.
      { rewrite Hf, <-Permutation_middle. f_equiv. apply Hsv. }
      assert (responded (outputs (front s1)) = filter (λ p, p_needsResponse p = true) (accessed (outputs (front s1)))) as Hresp.
      { rewrite Hf. apply Hsv. }
      destruct helper as [h|]; unfold s2.
      - destruct Hl as (Hh & Hpos & Hhp & Hhs & Ho). replace (pc - e) with sv in Hh by lia.
        split; [by eapply ctrl_inv_frame|]. split; [|done]. constructor.
        + apply (help_close _ _ _ _ _ _ pc Hh Hsv0 Hhs).
        + change (tags rq1 _) with (tags rq1 s1). by rewrite Ho.
        + exact Hresp.
      - destruct Hl as (Hh & [[-> _]|(-> & -> & Ho)]); [lia|]. split; [done|]. split; [|done].
        constructor; [done|by rewrite Ho|done]. }
    destruct (kick_ok c rq1 wq s2 Hi2) as (ev & -> & Hev & Hi3).
    eexists _, hp1, rq1. split; [reflexivity|]. split; [done|]. split; [by eapply serve_inv_frame|].
    cbn. split; [congruence|]. split; [congruence|]. by left.
Qed.

(** *** Writes *)

Lemma enqueue_write_ok p addr size rq wq s :
  pkt_ok c p → ctrl_inv c rq wq s → size ≤ burst_size c →
  Z.of_nat (length wq) + 1 ≤ c_writeBufferSize c →
  ∃ s' wq', enqueue_write c p addr size s = Ok s' ∧ ctrl_inv c rq wq' s' ∧
    (length wq' ≤ S (length wq))%nat ∧ now s' = now s ∧ bus s' = bus s ∧ front s' = front s ∧
    respQueue (qs s') = respQueue (qs s) ∧ helpers (qs s') = helpers (qs s) ∧
    next_helper (qs s') = next_helper (qs s).
Proof.
  intros Hp Hi Hsz Hlen. pose proof (co_rbuf c Hc). pose proof (co_wbuf c Hc). unfold enqueue_write.
  case_bool_decide as Hin.
  { exists s, wq. do 2 (split; [done|]). split; [lia|]. done. }
  destruct (co_timing c Hc) as (Hg & _). destruct (co_offset c Hc addr) as [o Ho].
  destruct (decodePacket_total (intf c) addr o Hg Ho) as (l & Hl & Hloc).
  rewrite Hl. cbn [mbind res_bind]. set (m := MemPacket_new _ _ _ _ _ _).
  pose proof (ci_qos _ _ _ _ Hi) as Hqi. cbn [with_nvm qos qs].
  rewrite (qi_writes _ _ _ _ Hqi). rewrite (proj2 (Z.ltb_lt _ (c_writeBufferSize c))) by lia.
  cbn [assertb mbind res_bind]. rewrite (ci_wq _ _ _ _ Hi).
  assert (p_qosValue p = 0) as Hq by apply Hp.
  assert (m_qos m = 0) as Hmq by done. unfold push_queue. rewrite Hmq.
  change ([wq] !! Z.to_nat 0) with (Some wq). cbn [mbind res_bind].
  change (<[Z.to_nat 0 := wq ++ [m]]> [wq]) with [wq ++ [m]].
  pose proof (logRequest_ok c (co_prio c Hc) (now s) WRITE m _ _ _ _ Hqi
    ltac:(pose proof (ci_rbuf _ _ _ _ Hi); lia)) as Hlog.
  cbn [moved] in Hlog. destruct Hlog as (q & Hlog & Hqi').
  cbn [with_qs with_nvm now qos]. rewrite Hq.
  change (logRequest c (now s) WRITE (p_requestorId p) 0 addr (qos s))
    with (logRequest c (now s) WRITE (m_requestorId m) 0 (m_addr m) (qos s)).
  rewrite Hlog. cbn [mbind res_bind with_qos qos qs set_isInWriteQueue set_writeQueue isInWriteQueue].
  rewrite (qi_writes _ _ _ _ Hqi').
  rewrite (ci_inwq _ _ _ _ Hi) in Hin |- *.
  assert (burst_of c m ∉ burst_of c <$> wq) as Hnin.
  { intros Hx. apply Hin. by apply elem_of_list_to_set. }
  assert (NoDup (burst_of c <$> wq ++ [m])) as Hnd.
  { rewrite fmap_app. apply NoDup_app. split; [apply Hi|]. split; [|apply NoDup_singleton].
    intros x Hx Hx'. apply list_elem_of_singleton in Hx' as ->. done. }
  assert ({[burstAlign c addr]} ∪ list_to_set (burst_of c <$> wq) =
    (list_to_set (burst_of c <$> wq ++ [m]) : gset Z)) as Hset.
  { rewrite fmap_app, list_to_set_app_L. cbn. rewrite union_empty_r_L. by rewrite union_comm_L. }
  rewrite Hset. cbn [with_qs with_nvm qs set_isInWriteQueue isInWriteQueue].
  rewrite size_list_to_set by done. rewrite length_fmap, length_app. cbn [length].
  rewrite (proj2 (Z.eqb_eq _ _)) by lia. cbn [assertb mbind res_bind].
  eexists _, (wq ++ [m]). split; [reflexivity|]. split; [|rewrite length_app; cbn; split; [lia|done]].
  pose proof Hi as []. constructor; cbn [with_qos with_qs with_nvm now nvm bus qos qs front set_isInWriteQueue
    set_writeQueue readQueue writeQueue respQueue isInWriteQueue]; try done.
  - apply setupRank_write; [done|lia|by split].
  - rewrite length_app. cbn [length]. rewrite Nat2Z.inj_add. cbn.
    eapply qos_inv_perm; [|exact Hqi']. rewrite app_assoc. by rewrite (Permutation_app_comm _ [m]).
  - rewrite <-(app_assoc wq). cbn. rewrite app_assoc, <-Permutation_middle, <-app_assoc.
    constructor; [|done]. constructor; [done|done|]. apply Hp.
  - rewrite length_app. cbn [length]. lia.
  - intros _. destruct wq; done.
Qed.

Lemma write_loop_ok p rq : pkt_ok c p → ∀ r addr wq s,
  at_burst c p addr (Z.of_nat r) → ctrl_inv c rq wq s →
  Z.of_nat (length wq) + Z.of_nat r ≤ c_writeBufferSize c →
  ∃ s' wq', write_loop c r p addr s = Ok s' ∧ ctrl_inv c rq wq' s' ∧
    now s' = now s ∧ bus s' = bus s ∧ front s' = front s ∧
    respQueue (qs s') = respQueue (qs s) ∧ helpers (qs s') = helpers (qs s) ∧
    next_helper (qs s') = next_helper (qs s).
Proof.
  intros Hp. induction r as [|r IH]; intros addr wq s Hat Hi Hbuf.
  { by exists s, wq. }
  cbn [write_loop].
  destruct (chunk_ok c Hc p addr _ Hp Hat ltac:(lia)) as (Hch & _ & _ & _ & Hnext).
  replace (Z.of_nat (S r) - 1) with (Z.of_nat r) in Hnext by lia.
  pose proof (burst_pos c Hc). rewrite ceilLog2_log2_up; [|by repeat constructor|lia]. cbn [mbind res_bind].
  destruct (enqueue_write_ok p addr (chunk_size c p addr) rq wq s) as
    (s1 & wq1 & -> & Hi1 & Hlen & H1 & H2 & H3 & H4 & H5 & H6); [done|done|lia|lia|]. cbn [mbind res_bind].
  destruct (IH _ wq1 s1 Hnext Hi1 ltac:(lia)) as (s' & wq' & -> & Hi' & K1 & K2 & K3 & K4 & K5 & K6).
  exists s', wq'. split; [done|]. split; [done|]. repeat (split; [congruence|]). congruence.
Qed.

Lemma addToWriteQueue_ok p pc hp acc rq wq s :
  pkt_ok c p → p_isWrite p = true → at_burst c p (p_addr p) pc → 0 < pc →
  ctrl_inv c rq wq s → serve_inv hp rq acc s →
  Z.of_nat (length wq) + pc ≤ c_writeBufferSize c →
  ∃ s' wq', addToWriteQueue c p pc s = Ok s' ∧ ctrl_inv c rq wq' s' ∧
    serve_inv hp rq (p :: acc) s' ∧ now s' = now s ∧ bus s' = bus s ∧
    scheduled (nextReqEvent (front s')) = true.
Proof.
  intros Hp Hw Hat Hpc Hi Hsv Hbuf. unfold addToWriteQueue. rewrite Hw. cbn [assertb mbind res_bind].
  destruct (write_loop_ok p rq Hp (Z.to_nat pc) (p_addr p) wq s) as
    (s1 & wq1 & -> & Hi1 & H1 & H2 & H3 & H4 & H5 & H6); [by rewrite Z2Nat.id by lia|done|lia|].
  cbn [mbind res_bind].
  destruct (accessAndRespond_ok p (frontendLatency c) s1) as (f & -> & Hf1 & Hf2 & Hf3 & Hf4); [apply Hp|].
  cbn [mbind res_bind]. assert (ctrl_inv c rq wq1 (with_front f s1)) as Hi2 by (by eapply ctrl_inv_frame).
  destruct (kick_ok c rq wq1 _ Hi2) as (ev & -> & Hev & Hi3).
  eexists _, wq1. split; [reflexivity|]. split; [done|]. cbn. split; [|split; [congruence|by split]].
  rewrite H3 in *. assert (tags rq s1 = tags rq s) as Ht by (unfold tags; by rewrite H4).
  destruct (serve_access hp rq acc s f p _ hp (tags rq s) Hsv Hf3 Hf4 (Permutation_refl _) (Permutation_refl _)) as [Ha Hr].
  constructor; cbn [with_front front qs set_nextReqEvent outputs].
  - change (tags rq _) with (tags rq s1). rewrite Ht, H5, H6. apply Hsv.
  - change (tags rq _) with (tags rq s1). rewrite Ht. exact Ha.
  - exact Hr.
Qed.

(** *** The request port *)

Definition inv (acc : list Packet) (s : State) : Prop :=
  ∃ rq wq hp, ctrl_inv c rq wq s ∧ serve_inv hp rq acc s ∧ (has_work c rq wq s → awake s).

Lemma writeQueueFull_false rq wq s n :
  ctrl_inv c rq wq s → 0 ≤ n < 2 ^ 32 →
  writeQueueFull c s n = false ↔ Z.of_nat (length wq) + n ≤ c_writeBufferSize c.
Proof.
  intros Hi Hn. destruct Hi. destruct ci_qos0. pose proof (co_wbuf c Hc).
  unfold writeQueueFull. rewrite qi_writes0, u64_small by lia. rewrite Z.ltb_ge. done.
Qed.

Lemma recvTimingReq_ok p acc s :
  pkt_ok c p → inv acc s →
  ∃ b s', recvTimingReq c p s = Ok (b, s') ∧ inv (if b then p :: acc else acc) s' ∧ now s' = now s.
Proof.
  intros Hp (rq & wq & hp & Hi & Hsv & Haw). unfold recvTimingReq.
  rewrite (po_snoop _ _ Hp), (po_kind _ _ Hp), (po_range _ _ Hp). cbn [negb panic_if mbind res_bind].
  destruct (pkt_count_ok c Hc p Hp) as (pc & -> & Hat & Hpc). cbn [mbind res_bind].
  unfold qosSchedule. rewrite (po_qos _ _ Hp), (co_prio _ Hc). cbn [Z.ltb Z.compare assertb mbind res_bind].
  pose proof (po_size _ _ Hp). rewrite (proj2 (Z.eqb_neq (p_size p) 0)) by lia.
  set (s0 := with_front (set_prevArrival (now s) (front s)) s).
  assert (ctrl_inv c rq wq s0) as Hi0 by (by eapply ctrl_inv_frame).
  assert (serve_inv hp rq acc s0) as Hsv0 by (by eapply serve_inv_frame).
  destruct (p_isWrite p) eqn:Hw; cbn [negb assertb mbind res_bind].
  - destruct (writeQueueFull c s0 pc) eqn:Hf.
    { eexists false, _. split; [reflexivity|]. split; [|done]. exists rq, wq, hp.
      split; [by eapply ctrl_inv_frame|]. split; [by eapply serve_inv_frame|]. exact Haw. }
    apply (writeQueueFull_false rq wq s0 pc Hi0) in Hf; [|lia].
    destruct (addToWriteQueue_ok p pc hp acc rq wq s0) as (s' & wq' & -> & Hi' & Hsv' & Hn & _ & Hk); try done; [lia|].
    eexists true, s'. split; [reflexivity|]. split; [|done]. exists rq, wq', hp.
    split; [done|]. split; [done|]. intros _. by left.
  - pose proof (po_kind _ _ Hp) as Hk. rewrite Hw, orb_false_r in Hk. rewrite Hk. cbn [assertb mbind res_bind].
    destruct (readQueueFull c s0 pc) eqn:Hf.
    { eexists false, _. split; [reflexivity|]. split; [|done]. exists rq, wq, hp.
      split; [by eapply ctrl_inv_frame|]. split; [by eapply serve_inv_frame|]. exact Haw. }
    apply (readQueueFull_false rq wq s0 pc Hi0) in Hf; [|lia].
    destruct (addToReadQueue_ok p pc hp acc rq wq s0) as (s' & hp' & rq' & -> & Hi' & Hsv' & Hn & Hb & Hor); try done.
    eexists true, s'. split; [reflexivity|]. split; [|done]. exists rq', wq, hp'.
    split; [done|]. split; [done|]. intros Hwork. destruct Hor as [Hs|(-> & Hnv & Hnx)]; [by left|].
    unfold awake. rewrite Hnv, Hnx. apply Haw. unfold has_work in *. change (bus s) with (bus s0). by rewrite <-Hb.
Qed.

(** *** Completed reads *)

Lemma respond_burst_ok m ts hp s :
  contains (range (intf c)) (p_addr (m_pkt m)) = true →
  help_inv hp None (tag m :: ts) (helpers (qs s)) (next_helper (qs s)) →
  ∃ f hs hp', respond_burst c m s = Ok (mkState (now s) (nvm s) (bus s) (qos s) (set_helpers hs (qs s)) f) ∧
    nextReqEvent f = nextReqEvent (front s) ∧ respondEvent f = respondEvent (front s) ∧
    help_inv hp' None ts hs (next_helper (qs s)) ∧
    accessed (outputs f) ++ owed hp' ts ≡ₚ accessed (outputs (front s)) ++ owed hp (tag m :: ts) ∧
    (responded (outputs (front s)) = filter (λ p, p_needsResponse p = true) (accessed (outputs (front s))) →
     responded (outputs f) = filter (λ p, p_needsResponse p = true) (accessed (outputs f))).
Proof.
  intros Hr Hh. unfold respond_burst. set (lat := frontendLatency c + backendLatency c).
  destruct (accessAndRespond_ok (m_pkt m) lat s Hr) as (f & Hacc & Hf1 & Hf2 & Hf3 & Hf4).
  unfold tag in *. destruct (burstHelper m) as [h|] eqn:Hm.
  - pose proof (hi_tag _ _ _ _ _ Hh (m_pkt m) h ltac:(constructor)) as Hhp.
    assert (is_Some (helpers (qs s) !! h)) as [b Hb] by (apply (hi_dom _ _ _ _ _ Hh); eauto).
    rewrite Hb. pose proof (hi_count _ _ _ _ _ Hh h b Hb) as Hcnt. rewrite cnt_helper_cons, decide_True in Hcnt by done.
    pose proof (cnt_nonneg (has_helper h) ts). cbn [credit] in Hcnt. rewrite (u32_small (burstsServiced b + 1)) by lia.
    cbn [burstsServiced burstCount]. destruct (Z.eqb_spec (burstsServiced b + 1) (burstCount b)) as [He|He].
    + rewrite Hacc. cbn [mbind res_bind].
      destruct (help_last hp h b ts _ _ (m_pkt m) Hh Hb He) as [Hh' Ho].
      eexists f, _, (delete h hp). split; [reflexivity|]. repeat (split; [done|]).
      rewrite Hf3, Hf4, filter_app. split; [|by intros ->].
      rewrite Ho, <-app_assoc. done.
    + eexists (front s), _, hp. split; [by destruct s as [? ? ? ? ? ?]|]. repeat (split; [done|]).
      split; [by eapply help_serve|]. split; [|done]. by rewrite owed_split.
  - rewrite Hacc. eexists f, (helpers (qs s)), hp. split; [by destruct s as [? ? ? ? [] ?]|].
    repeat (split; [done|]). split; [by apply help_add_unsplit in Hh|].
    rewrite Hf3, Hf4, filter_app. split; [|by intros ->].
    rewrite owed_unsplit, <-app_assoc. done.
Qed.

(** Front ends that agree on what the invariant reads. *)
Definition same_front (f f' : Front) : Prop :=
  nextReqEvent f' = nextReqEvent f ∧ respondEvent f' = respondEvent f ∧
  accessed (outputs f') = accessed (outputs f) ∧ responded (outputs f') = responded (outputs f).

Lemma emit_silent f o :
  accessed [o] = [] → responded [o] = [] → same_front f (emit o f).
Proof.
  intros Ha Hr. unfold same_front. cbn. rewrite accessed_app, responded_app, Ha, Hr, !app_nil_r. done.
Qed.

Lemma signalDrainDone_front s :
  ∃ f, signalDrainDone s = with_front f s ∧ same_front (front s) f.
Proof.
  unfold signalDrainDone. destruct (drainState (front s)).
  1,3,4: exists (front s); split; [by destruct s|done].
  eexists. split; [reflexivity|]. destruct (emit_silent (set_drainState Drained (front s)) DrainDone) as (?&?&?&?); done.
Qed.

Lemma retry_read_front s : ∃ f, retry_read s = with_front f s ∧ same_front (front s) f.
Proof.
  unfold retry_read. destruct (retryRdReq (front s)); [|exists (front s); split; [by destruct s|done]].
  eexists. split; [reflexivity|]. destruct (emit_silent (set_retryRdReq false (front s)) RetryReq) as (?&?&?&?); done.
Qed.

Lemma processRespondEvent_ok acc s :
  inv acc s → scheduled (respondEvent (front s)) = true → when (respondEvent (front s)) = now s →
  ∃ s', processRespondEvent c (with_front (set_respondEvent (fired (respondEvent (front s))) (front s)) s) = Ok s' ∧
    inv acc s' ∧ now s' = now s ∧ workload s' < workload s.
Proof.
  intros (rq & wq & hp & Hi & Hsv & Haw) Hs Hw. pose proof Hi as []. pose proof Hsv as [].
  unfold processRespondEvent. set (s0 := with_front _ s). change (respQueue (qs s0)) with (respQueue (qs s)).
  destruct (respQueue (qs s)) as [|m queue] eqn:Hq.
  { cbn in ci_revent0. congruence. }
  assert (tags rq s ≡ₚ tag m :: (tag <$> rq ++ queue)) as Ht.
  { unfold tags. rewrite Hq, !fmap_app, fmap_cons. by rewrite <-Permutation_middle. }
  assert (mem_ok c m ∧ Forall (mem_ok c) (rq ++ wq ++ queue)) as [Hm Hmem].
  { rewrite app_assoc, <-Permutation_middle, <-app_assoc in ci_mem0. by apply Forall_cons in ci_mem0. }
  destruct (respond_burst_ok m (tag <$> rq ++ queue) hp s0) as (f & hs & hp' & -> & Hf1 & Hf2 & Hh & Ho & Hr).
  { apply Hm. } { eapply help_perm; [exact Ht|done]. }
  cbn [mbind res_bind]. set (s1 := with_qs _ _).
  assert (Forall (λ t, now s ≤ t) (readyTime <$> queue)) as Hge.
  { destruct ci_revent0 as (_ & _ & _ & Hall). rewrite Hw in Hall. by apply Forall_cons in Hall as [_ ?]. }
  assert (Sorted Z.le (readyTime <$> queue)) as Hsq by (by inversion ci_rsorted0).
  cut (∃ s2 f2, match queue with
    | m' :: _ => assertb (now s1 <=? readyTime m');;
        e ← schedule (now s1) (respondEvent (front s1)) (readyTime m');
        Ok (with_front (set_respondEvent e (front s1)) s1)
    | [] => if bool_decide (drainState (front s1) = Draining) &&
                 (totalWriteQueueSize (qos s1) =? 0) && (totalReadQueueSize (qos s1) =? 0) &&
                 allIntfDrained s1
              then Ok (signalDrainDone s1) else Ok s1 end = Ok s2 ∧
    s2 = with_front f2 s1 ∧ nextReqEvent f2 = nextReqEvent (front s) ∧
    event_min (now s) (readyTime <$> queue) (respondEvent f2) ∧
    accessed (outputs f2) = accessed (outputs f) ∧ responded (outputs f2) = responded (outputs f)).
  { intros (s2 & f2 & -> & -> & Hn2 & He2 & Ha2 & Hr2). cbn [mbind res_bind].
    destruct (retry_read_front (with_front f2 s1)) as (f3 & -> & Hn3 & He3 & Ha3 & Hr3).
    eexists. split; [reflexivity|]. cbn in Hn3, He3, Ha3, Hr3. split; [|split; [done|]].
    2:{ unfold workload, load. cbn. rewrite Hq, Hn3, Hn2. cbn [length]. lia. }
    exists rq, wq, hp'. split; [|split].
    - constructor; cbn; rewrite ?Hn3, ?He3, ?Hn2; try done.
      + rewrite length_cons in ci_rbuf0. lia.
      + by apply Forall_cons in ci_rlast0 as [_ ?].
    - constructor; cbn.
      + exact Hh.
      + rewrite Ha3, Ha2. change (tags rq _) with (tag <$> rq ++ queue). rewrite Ho.
        cbn [s0 with_front front set_respondEvent outputs]. rewrite <-si_served0. by rewrite (owed_perm _ _ _ Ht).
      + rewrite Hr3, Hr2, Ha3, Ha2. by apply Hr.
    - unfold has_work, awake in *. cbn. by rewrite Hn3, Hn2. }
  destruct queue as [|m' queue'].
  - destruct (_ && _).
    + destruct (signalDrainDone_front s1) as (f2 & -> & Hn2 & He2 & Ha2 & Hr2).
      eexists _, f2. split; [reflexivity|]. split; [done|]. cbn in Hn2, He2, Ha2, Hr2.
      rewrite Hn2, He2, Hf1, Hf2, Ha2, Hr2. done.
    + eexists _, f. split; [reflexivity|]. split; [reflexivity|]. rewrite Hf1, Hf2. done.
  - cbn [s1 with_qs now front]. rewrite Hf2. apply Forall_cons in Hge as [Hm' Hge].
    unfold schedule, assertb. rewrite (proj2 (Z.leb_le _ _)) by done. cbn [mbind res_bind s0 with_front
      front set_respondEvent respondEvent fired scheduled negb].
    eexists _, _. split; [reflexivity|]. split; [reflexivity|]. cbn. rewrite Hf1. split; [done|].
    split; [|done]. split; [done|]. split; [done|]. split; [constructor|].
    apply (Sorted_StronglySorted _) in Hsq. inversion_clear Hsq. constructor; [done|].
    by eapply Forall_impl.
Qed.

End Requests.
End CtrlOps.
