(* ===== verification/MemCtrlSched.v ===== *)
(** * The request scheduler keeps the invariant

    [processNextReqEvent]: the bus direction, the reads issued to the media,
    the choice of a packet, the burst, and when the event is scheduled
    again. *)

From stdpp Require Import sorting.
From S2P Require Import Prelude.
From S2P Require Import Intmath.
From S2P Require Import AddrRange.
From S2P Require Import CmdBus.
From S2P Require Import NvmDecode.
From S2P Require Import NvmDevice.
From S2P Require Import NvmDeviceInv.
From S2P Require Import MemCtrl.
From S2P Require Import MemCtrlQos.
From S2P Require Import MemCtrlInv.
From S2P Require Import MemCtrlOps.

Module CtrlSched.
Export CtrlOps.

(** The packets owed and served do not change. *)
Record stepped (rq : list MemPacket) (s : State) (rq' : list MemPacket) (s' : State) : Prop := {
  st_tags : tags rq' s' ≡ₚ tags rq s;
  st_helpers : helpers (qs s') = helpers (qs s);
  st_next : next_helper (qs s') = next_helper (qs s);
  st_acc : accessed (outputs (front s')) = accessed (outputs (front s));
  st_resp : responded (outputs (front s')) = responded (outputs (front s));
  st_now : now s' = now s;
}.

Lemma stepped_refl rq s : stepped rq s rq s.
Proof. by constructor. Qed.

Lemma stepped_trans rq s rq1 s1 rq2 s2 :
  stepped rq s rq1 s1 → stepped rq1 s1 rq2 s2 → stepped rq s rq2 s2.
Proof. intros [] []. constructor; [etrans; eassumption|congruence..]. Qed.

Lemma serve_inv_stepped hp rq acc s rq' s' :
  serve_inv hp rq acc s → stepped rq s rq' s' → serve_inv hp rq' acc s'.
Proof.
  intros [] []. constructor; rewrite ?st_helpers0, ?st_next0, ?st_acc0, ?st_resp0; [|by rewrite (owed_perm _ _ _ st_tags0)|done].
  eapply help_perm; [symmetry; exact st_tags0|done].
Qed.

Section Sched.
Context (c : Config) (Hc : cfg_ok c).

(** ** Issuing reads *)

Lemma qos_inv_set_ready nr nw m l t q :
  qos_inv nr nw (m :: l) q → qos_inv nr nw (set_ready t m :: l) q.
Proof.
  intros []. constructor; try done.
  - apply Forall_cons in qi_known0 as [? ?]. by constructor.
  - intros id Hid. rewrite (qi_prios0 id Hid), !cnt_cons. done.
  - intros id addr. rewrite qi_times0, !cnt_cons. done.
Qed.

Lemma tags_insert (rq : list MemPacket) k m t :
  rq !! k = Some m → tag <$> <[k := set_ready t m]> rq = tag <$> rq.
Proof.
  intros Hk. rewrite list_fmap_insert. apply list_insert_id. by rewrite list_lookup_fmap, Hk.
Qed.

Lemma mem_ok_set_ready t m : mem_ok c m → mem_ok c (set_ready t m).
Proof. intros []. by constructor. Qed.

(** The data of the read issued by this event is ready in time. *)
Definition in_time (s : State) : Prop :=
  match issue_reads c (length (readQueue (qs s))) s with
  | Ok s' => Forall (λ t, t < MaxTick) (readReadyQueue (nvm s'))
  | Err _ => True
  end.

Lemma issue_reads_ok rq wq s :
  ctrl_inv c rq wq s → in_time s →
  ∃ s' rq', issue_reads c (length (readQueue (qs s))) s = Ok s' ∧ ctrl_inv c rq' wq s' ∧
    stepped rq s rq' s' ∧ length rq' = length rq ∧
    busState (bus s') = busState (bus s) ∧ busStateNext (bus s') = busStateNext (bus s) ∧
    front s' = front s ∧ (rq ≠ [] → 0 < numPendingReads (nvm s')) ∧ load s' ≤ load s.
Proof.
  intros Hi Ht. unfold in_time in Ht. rewrite (ci_rq _ _ _ _ Hi) in *. cbn [length issue_reads] in *.
  pose proof (co_pending c Hc) as [Hpr _]. pose proof (ci_nvm _ _ _ _ Hi) as Hn.
  destruct (readsWaitingToIssue (intf c) (nvm s)) eqn:Hw; cbn [mbind res_bind] in *.
  2:{ exists s, rq. split; [done|]. split; [done|]. split; [apply stepped_refl|]. do 4 (split; [done|]).
      split; [|done]. intros Hne. unfold readsWaitingToIssue in Hw. destruct Hn.
      assert (0 < Z.of_nat (length rq)) by (destruct rq; [done|cbn; lia]).
      apply andb_false_iff in Hw as [Hw|Hw]; bool_to_prop; lia. }
  rewrite (ci_rq _ _ _ _ Hi) in *. cbn [lookup list_lookup] in *.
  destruct (chooseRead_ok (intf c) (commandWindow c) (co_timing c Hc) (now s) (burstTicks (bus s)) rq wq (nvm s)
    Hn ltac:(pose proof (ci_now _ _ _ _ Hi); lia) Hw)
    as (ticks & n' & k & m & r & Hch & Hk & Hr & Hq & Hwe & Hld & Hni).
  rewrite Hch in *. cbn [mbind res_bind] in *. cbn [with_qs with_nvm with_bus nvm] in Ht.
  rewrite Hq, Forall_app, Forall_singleton in Ht. destruct Ht as [_ Ht]. specialize (Hni Ht).
  eexists _, (<[k := set_ready r m]> rq). split; [reflexivity|].
  destruct (insert_perm rq k m (set_ready r m) Hk) as [Hp1 Hp2].
  split; [|split; [|split; [by rewrite length_insert|]]].
  - pose proof Hi as []. constructor; cbn [with_qs with_nvm with_bus now nvm bus qos qs front set_readQueue
      readQueue writeQueue respQueue isInWriteQueue set_burstTicks busStateNext nextBurstAt]; try done.
    + rewrite length_insert. eapply qos_inv_perm; [symmetry; rewrite Hp2; reflexivity|].
      apply qos_inv_set_ready. eapply qos_inv_perm; [|exact ci_qos0]. rewrite Hp1 at 1. done.
    + rewrite Hp2. rewrite Hp1 in ci_mem0. cbn in *. apply Forall_cons in ci_mem0 as [Hm ?].
      constructor; [by apply mem_ok_set_ready|done].
    + by rewrite length_insert.
  - constructor; try done. cbn. unfold tags. cbn. by rewrite !fmap_app, tags_insert.
  - do 3 (split; [done|]). split; [|unfold load; cbn; lia]. intros _. pose proof (ni_pending _ _ _ _ _ Hni) as Hp.
    pose proof (ni_ready _ _ _ _ _ Hni). rewrite Hq, length_app in Hp. cbn in *. lia.
Qed.

(** ** Choosing a packet *)

Lemma chooseNext_ok s queue gap :
  shape (intf c) (ranks (nvm s)) → Forall (λ p, loc_ok (intf c) (m_loc p)) queue →
  ∃ r, chooseNext c s queue gap = Ok r ∧
    match r with
    | Some k => ∃ p, queue !! k = Some p ∧ packetReady c s p = true
    | None => Forall (λ p, packetReady c s p = false) queue
    end.
Proof.
  intros Hs Hq. unfold chooseNext. destruct queue as [|p queue]; [by exists None|].
  destruct queue as [|p' queue].
  { destruct (packetReady c s p) eqn:E; eexists; (split; [reflexivity|]); cbn; eauto. }
  set (l := p :: p' :: queue) in *. destruct (memSchedPolicy c).
  - eexists. split; [reflexivity|]. destruct (list_find _ l) as [[k m]|] eqn:E; cbn.
    + apply list_find_Some in E as (? & ? & _). eauto.
    + pose proof (proj1 (list_find_None _ _) E) as Hn. eapply Forall_impl; [exact Hn|]. cbn. intros m.
      by destruct (packetReady c s m).
  - unfold ctrl_chooseNextFRFCFS.
    destruct (chooseNextFRFCFS_choice (intf c) (now s) (busStateNext (bus s)) (nvm s)
      (Z.max (nextBurstAt (bus s) + gap) (now s)) l Hs Hq) as [t ->].
    cbn [mbind res_bind]. eexists. split; [reflexivity|].
    destruct (frfcfs_choice _ _ _ _ _ l) as [k|] eqn:E.
    + by apply frfcfs_choice_Some in E.
    + apply frfcfs_choice_None in E. eapply Forall_impl; [exact E|]. cbn. intros m Hm.
      unfold can_burst in Hm. unfold packetReady. by destruct (burstReady _ _ _ _ _).
Qed.

Lemma choose_prio_single s queue gap :
  shape (intf c) (ranks (nvm s)) → Forall (λ p, loc_ok (intf c) (m_loc p)) queue →
  (∃ k p, choose_prio c s [queue] gap 1 = Ok (Some (0%nat, k, p)) ∧ queue !! k = Some p ∧
     packetReady c s p = true) ∨
  (choose_prio c s [queue] gap 1 = Ok None ∧ Forall (λ p, packetReady c s p = false) queue).
Proof.
  intros Hs Hq. cbn [choose_prio lookup list_lookup].
  destruct (chooseNext_ok s queue gap Hs Hq) as ([k|] & -> & Hr); cbn [mbind res_bind].
  - left. destruct Hr as (p & Hp & Hr). rewrite Hp. eauto.
  - by right.
Qed.

(** ** The end of the handler *)

Lemma finish_request_ok rq wq s :
  ctrl_inv c rq wq s →
  ∃ s', finish_request c s = Ok s' ∧ ctrl_inv c rq wq s' ∧ stepped rq s rq s' ∧
    scheduled (nextReqEvent (front s')) = true ∧ load s' = load s.
Proof.
  intros Hi. unfold finish_request.
  assert (∃ f, (if scheduled (nextReqEvent (front s)) then Ok (front s)
       else e ← schedule (now s) (nextReqEvent (front s)) (Z.max (nextReqTime (bus s)) (now s));
            Ok (set_nextReqEvent e (front s))) = Ok f ∧ scheduled (nextReqEvent f) = true ∧
    now s ≤ when (nextReqEvent f) ∧ respondEvent f = respondEvent (front s) ∧
    outputs f = outputs (front s)) as (f & -> & Hs & Hw & Hr & Ho).
  { destruct (scheduled (nextReqEvent (front s))) eqn:Hs.
    - exists (front s). do 2 (split; [done|]). split; [by apply Hi|done].
    - unfold schedule, assertb. rewrite (proj2 (Z.leb_le _ _)) by lia. rewrite Hs. cbn.
      eexists. split; [reflexivity|]. cbn. do 2 (split; [done || lia|]). done. }
  cbn [mbind res_bind]. set (s1 := with_front f s).
  assert (ctrl_inv c rq wq s1) as Hi1.
  { destruct Hi. constructor; cbn; rewrite ?Hr; try done. }
  assert (stepped rq s rq s1) as Hst by (constructor; cbn; by rewrite ?Ho).
  eexists. split; [reflexivity|]. destruct (_ && _); [|done].
  destruct (emit_silent (set_retryWrReq false (front s1)) RetryReq) as (H1 & H2 & H3 & H4); [done|done|].
  split; [by eapply ctrl_inv_frame|]. split; [|split; [by rewrite <-Hs; cbn|done]].
  eapply stepped_trans; [exact Hst|]. by constructor.
Qed.

(** ** Read bursts *)

(** Ready data belongs to a packet that can be sent. *)
Lemma ready_read_exists rq wq s :
  ctrl_inv c rq wq s → busStateNext (bus s) = READ → 0 < numReadDataReady (nvm s) →
  ∃ p, p ∈ rq ∧ packetReady c s p = true.
Proof.
  intros Hi Hb Hr. pose proof (ci_nvm _ _ _ _ Hi) as Hn. pose proof (ci_now _ _ _ _ Hi) as Ht.
  pose proof (ni_avail _ _ _ _ _ Hn (now s) ltac:(lia)) as Ha.
  pose proof (cnt_nonneg (λ x, x ≤ now s) (readReadyQueue (nvm s))).
  assert (0 < cnt (λ p, readyTime p ≤ now s) rq) as Hpos by lia.
  apply cnt_pos in Hpos as (p & Hp & Hle). exists p. split; [done|].
  unfold packetReady, burstReady. pose proof (ni_rq _ _ _ _ _ Hn) as Hrq. rewrite Forall_forall in Hrq.
  destruct (Hrq p Hp) as [-> _]. rewrite Hb. rewrite (proj2 (Z.leb_le _ _)), (proj2 (Z.ltb_lt _ _)) by done.
  done.
Qed.

(** The burst leaves the read queue for the response queue. *)
Lemma respond_later_ok s m :
  Sorted Z.le (readyTime <$> respQueue (qs s)) →
  event_min (now s) (readyTime <$> respQueue (qs s)) (respondEvent (front s)) →
  Forall (λ x, readyTime x ≤ readyTime m) (respQueue (qs s)) → now s ≤ readyTime m →
  ∃ f, respond_later m s = Ok (with_qs (set_respQueue (respQueue (qs s) ++ [m]) (qs s)) (with_front f s)) ∧
    nextReqEvent f = nextReqEvent (front s) ∧ drainState f = drainState (front s) ∧
    outputs f = outputs (front s) ∧
    event_min (now s) (readyTime <$> respQueue (qs s) ++ [m]) (respondEvent f).
Proof.
  intros Hso He Hall Hm. unfold respond_later. destruct (last (respQueue (qs s))) as [back|] eqn:Hl.
  - assert (back ∈ respQueue (qs s)) as Hin by (by apply last_Some_elem_of).
    rewrite Forall_forall in Hall. specialize (Hall back Hin). simpl in Hall.
    assert (readyTime <$> respQueue (qs s) ≠ []) as Hne.
    { intros Hz. apply fmap_nil_inv in Hz. rewrite Hz in Hl. done. }
    pose proof (event_min_scheduled _ _ _ He Hne) as Hs.
    unfold assertb. rewrite (proj2 (Z.leb_le _ _)) by done. rewrite Hs. cbn [mbind res_bind].
    exists (front s). do 4 (split; [done|]). rewrite fmap_app.
    apply event_min_nonempty in He as (_ & Hw & Hi & Ha); [|done]. apply event_min_nonempty.
    { intros Hz. apply app_nil in Hz as [? _]. done. }
    do 2 (split; [done|]). split; [apply elem_of_app; by left|]. rewrite Forall_app. split; [done|].
    cbn. rewrite Forall_singleton. rewrite Forall_forall in Ha.
    specialize (Ha (readyTime back)). pose proof (list_elem_of_fmap_2 readyTime _ _ Hin) as Hbin.
    specialize (Ha Hbin). cbn in Ha. lia.
  - apply last_None in Hl. rewrite Hl in *. cbn in He. rewrite He. cbn [negb assertb mbind res_bind].
    unfold schedule, assertb. rewrite (proj2 (Z.leb_le _ _)) by done. rewrite He. cbn.
    eexists. split; [reflexivity|]. cbn. do 3 (split; [done|]). split; [done|]. split; [done|].
    split; [constructor|]. by repeat constructor.
Qed.

Lemma sorted_snoc l x : Sorted Z.le l → Forall (λ y, y ≤ x) l → Sorted Z.le (l ++ [x]).
Proof.
  intros Hs Hall. apply StronglySorted_Sorted. apply Sorted_StronglySorted in Hs; [|intros ???; lia].
  induction Hs as [|y l Hs IH Hy]; cbn; [repeat constructor|].
  apply Forall_cons in Hall as [Hyx Hall]. constructor; [by apply IH|].
  rewrite Forall_app, Forall_singleton. done.
Qed.

Lemma do_read_ok switched all rq wq s :
  ctrl_inv c rq wq s → busStateNext (bus s) = READ → 0 < numReadDataReady (nvm s) →
  ∃ s' rq', do_read c switched all s = Ok (Continue s') ∧ ctrl_inv c rq' wq s' ∧ stepped rq s rq' s' ∧
    load s' < load s.
Proof.
  intros Hi Hb Hr. pose proof Hi as []. pose proof ci_nvm0 as Hn. unfold do_read. rewrite ci_rq0.
  pose proof (co_timing c Hc) as (_ & _ & _ & Hts & Htb & _).
  assert (Forall (λ p, loc_ok (intf c) (m_loc p)) rq) as Hloc.
  { eapply Forall_impl; [apply Hn|]. by intros p [_ ?]. }
  cbn [length]. destruct (choose_prio_single s rq (if switched then ctrl_minWriteToReadDataGap c else 0)
    (ni_shape _ _ _ _ _ Hn) Hloc) as [(k & p & -> & Hk & Hp)|[_ Hnone]].
  2:{ destruct (ready_read_exists rq wq s Hi Hb Hr) as (p & Hin & Hp).
      rewrite Forall_forall in Hnone. specialize (Hnone p Hin). cbn in Hnone. congruence. }
  cbn [mbind res_bind].
  assert (m_read p = true ∧ readyTime p ≤ now s) as [Hrd Hle].
  { pose proof (Forall_lookup_1 _ _ _ _ (ni_rq _ _ _ _ _ Hn) Hk) as [Hrd _]. split; [done|].
    unfold packetReady, burstReady in Hp. rewrite Hrd in Hp. cbn in Hp. rewrite orb_false_r in Hp.
    bool_to_prop. done. }
  unfold ctrl_doBurstAccess.
  destruct (burst_read_ok (intf c) (commandWindow c) (co_timing c Hc) (now s)
    (pruneBurstTick (now s) (burstTicks (bus s))) rq wq (nvm s) k p (nextBurstAt (bus s)) Hn Hk ci_now0 Hle Hr)
    as (cmd & ticks & n' & Hcmd & Hnb & -> & Hn' & Hld).
  cbn [mbind res_bind]. set (m := set_ready (cmd + tSEND (intf c) + tBURST (intf c)) p).
  change (m_read m) with (m_read p). rewrite Hrd. set (u := mkBus _ _ _ _ _ _ _).
  pose proof (delete_Permutation rq k p Hk) as Hperm.
  assert (length rq = S (length (delete k rq))) as Hlen by (rewrite Hperm at 1; done).
  assert (mem_ok c p ∧ Forall (mem_ok c) (delete k rq ++ wq ++ respQueue (qs s))) as [Hmp Hmem].
  { rewrite Hperm in ci_mem0. by apply Forall_cons in ci_mem0. }
  cbn [with_nvm with_bus now]. change (m_size m) with (m_size p).
  rewrite (proj2 (Z.leb_le (m_size p) (burst_size c))) by apply Hmp.
  assert (now s ≤ readyTime m) as Hnow by (cbn; lia).
  rewrite (proj2 (Z.leb_le (now s) (readyTime m))) by done. cbn [assertb mbind res_bind].
  change (m_qos m) with (m_qos p). rewrite (mo_qos _ _ Hmp).
  change (qos (with_nvm n' (with_bus u s))) with (qos s).
  pose proof (logResponse_ok READ m (Z.of_nat (length rq)) (Z.of_nat (length wq)) (delete k rq ++ wq) (qos s)) as Hlog.
  cbn [moved] in Hlog. destruct Hlog as (q & -> & Hqi); [|lia|lia|].
  { apply (qos_inv_set_ready _ _ p). eapply qos_inv_perm; [|exact ci_qos0]. rewrite Hperm at 1. done. }
  cbn [mbind res_bind]. set (s1 := mkState (now s) n' u q (qs s) (front s)).
  change (with_qos q (with_nvm n' (with_bus u s))) with s1.
  destruct (respond_later_ok s1 m) as (f & -> & Hf1 & Hf2 & Hf3 & Hev).
  { done. } { done. }
  { cbn. eapply Forall_impl; [exact ci_rlast0|]. cbn. intros x Hx. lia. }
  { done. }
  cbn [mbind res_bind]. set (sw := (_ && _) : bool).
  cbn [with_qs with_front qs set_respQueue readQueue qos]. unfold erase_packet.
  rewrite (mo_qos c m) by (by apply mem_ok_set_ready). change (Z.to_nat 0 =? 0)%nat with true. cbn [mbind res_bind].
  cbn [s1 qs]. rewrite ci_rq0. change (alter (delete k) 0%nat [rq]) with [delete k rq].
  eexists _, (delete k rq). split; [reflexivity|].
  set (s2 := with_qs _ _).
  assert (ctrl_inv c (delete k rq) wq s2) as Hi2.
  { constructor; cbn [s2 s1 u with_qs with_front now nvm bus qos qs front set_readQueue set_respQueue
      readQueue writeQueue respQueue isInWriteQueue busStateNext nextBurstAt]; try done.
    - replace (Z.of_nat (length (delete k rq))) with (Z.of_nat (length rq) + -1) by lia. done.
    - rewrite !app_assoc, Forall_app, Forall_singleton, <-app_assoc.
      split; [done|]. by apply mem_ok_set_ready.
    - rewrite length_app. cbn. lia.
    - rewrite fmap_app. cbn. apply sorted_snoc; [done|]. apply Forall_fmap.
      eapply Forall_impl; [exact ci_rlast0|]. cbn. intros x Hx. lia.
    - rewrite Forall_app, Forall_singleton. split; [|cbn; lia].
      eapply Forall_impl; [exact ci_rlast0|]. cbn. intros x Hx. lia.
    - rewrite Hf1. done. }
  assert (stepped rq s (delete k rq) s2) as Hst.
  { constructor; cbn [s2 s1 with_qs with_front qs set_readQueue set_respQueue helpers next_helper front now];
      rewrite ?Hf3; try done. unfold tags. cbn [s2 s1 with_qs with_front qs set_readQueue set_respQueue respQueue].
    trans (tag <$> (p :: delete k rq) ++ respQueue (qs s)).
    - rewrite !fmap_app, app_assoc. cbn. change (tag m) with (tag p).
      by rewrite (Permutation_app_comm _ [tag p]).
    - f_equiv. by rewrite <-Hperm. }
  assert (load s2 < load s) as Hl2.
  { unfold load. cbn [s2 s1 u with_qs with_front nvm bus qos qs set_readQueue set_respQueue respQueue busStateNext].
    rewrite (qi_writes _ _ _ _ Hqi), (qi_writes _ _ _ _ ci_qos0), length_app. cbn [length]. lia. }
  destruct sw eqn:Hsw; [|done].
  split; [|split; [eapply stepped_trans; [exact Hst|by constructor]|unfold load in *; change (busStateNext (bus s2)) with (busStateNext (bus s)) in Hl2; rewrite Hb in *; cbn in *; lia]].
  destruct Hi2. constructor; try done. cbn. intros _ Hz. unfold sw in Hsw. bool_to_prop.
  pose proof (qi_writes _ _ _ _ Hqi) as Hw0. rewrite Hz in Hw0. pose proof (co_thresholds c Hc).
  cbn in *. lia.
Qed.

(** ** Write bursts *)

(** No write can be sent only when the media's write buffer is full. *)
Lemma no_write_full rq wq s :
  ctrl_inv c rq wq s → busStateNext (bus s) = WRITE →
  Forall (λ p, packetReady c s p = false) wq → writeRespQueueFull (intf c) (nvm s) = true.
Proof.
  intros Hi Hb Hnone. pose proof (ci_dir _ _ _ _ Hi Hb) as Hne. destruct wq as [|p wq]; [done|].
  apply Forall_cons in Hnone as [Hp _]. pose proof (ni_wq _ _ _ _ _ (ci_nvm _ _ _ _ Hi)) as Hwq.
  apply Forall_cons in Hwq as [[Hrd _] _]. unfold packetReady, burstReady in Hp. rewrite Hrd, Hb in Hp.
  cbn in Hp. by destruct (writeRespQueueFull (intf c) (nvm s)).
Qed.

Lemma full_awake rq wq s :
  ctrl_inv c rq wq s → writeRespQueueFull (intf c) (nvm s) = true → awake s.
Proof.
  intros Hi Hf. right. right. pose proof (ci_nvm _ _ _ _ Hi) as Hn. pose proof (co_pending c Hc).
  eapply event_min_scheduled; [apply Hn|]. intros Hz. unfold writeRespQueueFull in Hf.
  rewrite Hz in Hf. cbn in Hf. bool_to_prop. lia.
Qed.

(** The burst number leaves the set with its packet. *)
Lemma burst_set_delete wq k p :
  wq !! k = Some p → NoDup (burst_of c <$> wq) →
  (list_to_set (burst_of c <$> wq) : gset Z) ∖ {[burst_of c p]} = list_to_set (burst_of c <$> delete k wq) ∧
  NoDup (burst_of c <$> delete k wq).
Proof.
  intros Hk Hnd. pose proof (delete_Permutation wq k p Hk) as Hperm.
  assert (burst_of c <$> wq ≡ₚ burst_of c p :: (burst_of c <$> delete k wq)) as Hp by (by rewrite Hperm at 1).
  rewrite Hp in Hnd. apply NoDup_cons in Hnd as [Hnin Hnd]. split; [|done].
  apply leibniz_equiv. rewrite Hp. cbn. intros x. rewrite elem_of_difference, elem_of_union, elem_of_singleton,
    elem_of_list_to_set. split; [tauto|]. intros Hx. split; [tauto|]. by intros ->.
Qed.

Lemma write_branch_ok switched all rq wq s :
  ctrl_inv c rq wq s → busStateNext (bus s) = WRITE →
  (write_branch c switched all s = Ok (Return s) ∧ awake s) ∨
  ∃ s' wq', write_branch c switched all s = Ok (Continue s') ∧ ctrl_inv c rq wq' s' ∧ stepped rq s rq s' ∧
    load s' < load s.
Proof.
  intros Hi Hb. pose proof Hi as []. pose proof ci_nvm0 as Hn. unfold write_branch. rewrite ci_wq0.
  pose proof (co_timing c Hc) as (_ & _ & _ & Hts & Htb & _).
  assert (Forall (λ p, loc_ok (intf c) (m_loc p)) wq) as Hloc.
  { eapply Forall_impl; [apply Hn|]. by intros p [_ ?]. }
  cbn [length]. destruct (choose_prio_single s wq (if switched then ctrl_minReadToWriteDataGap c else 0)
    (ni_shape _ _ _ _ _ Hn) Hloc) as [(k & p & -> & Hk & Hp)|[-> Hnone]]; cbn [mbind res_bind].
  2:{ left. split; [done|]. eapply full_awake; [exact Hi|]. by eapply no_write_full. }
  right.
  assert (m_read p = false ∧ writeRespQueueFull (intf c) (nvm s) = false) as [Hrd Hfull].
  { pose proof (Forall_lookup_1 _ _ _ _ (ni_wq _ _ _ _ _ Hn) Hk) as [Hrd _]. split; [done|].
    unfold packetReady, burstReady in Hp. rewrite Hrd, Hb in Hp. cbn in Hp.
    by destruct (writeRespQueueFull (intf c) (nvm s)). }
  pose proof (delete_Permutation wq k p Hk) as Hperm.
  assert (length wq = S (length (delete k wq))) as Hlen by (rewrite Hperm at 1; done).
  assert (mem_ok c p ∧ Forall (mem_ok c) (rq ++ delete k wq ++ respQueue (qs s))) as [Hmp Hmem].
  { rewrite Hperm in ci_mem0. cbn in ci_mem0. rewrite <-Permutation_middle in ci_mem0.
    by apply Forall_cons in ci_mem0. }
  rewrite (proj2 (Z.leb_le (m_size p) (burst_size c))) by apply Hmp. cbn [assertb mbind res_bind].
  unfold ctrl_doBurstAccess.
  destruct (burst_write_ok (intf c) (commandWindow c) (co_timing c Hc) (now s)
    (pruneBurstTick (now s) (burstTicks (bus s))) rq wq (nvm s) k p (nextBurstAt (bus s)) Hn Hk ltac:(lia) Hfull)
    as (cmd & ticks & n' & Hcmd & Hnb & -> & Hn' & Hld).
  cbn [mbind res_bind]. set (m := set_ready (cmd + tSEND (intf c) + tBURST (intf c)) p).
  set (u := mkBus _ _ _ _ _ _ _).
  change (m_qos m) with (m_qos p). rewrite (mo_qos _ _ Hmp).
  cbn [with_nvm with_bus with_qs qs qos].
  pose proof (logResponse_ok WRITE m (Z.of_nat (length rq)) (Z.of_nat (length wq)) (rq ++ delete k wq) (qos s)) as Hlog.
  cbn [moved] in Hlog. destruct Hlog as (q & -> & Hqi); [|lia|lia|].
  { apply (qos_inv_set_ready _ _ p). eapply qos_inv_perm; [|exact ci_qos0]. rewrite Hperm at 1.
    by rewrite <-Permutation_middle. }
  cbn [mbind res_bind with_qos qs]. unfold erase_packet.
  rewrite (mo_qos c m) by (by apply mem_ok_set_ready). change (Z.to_nat 0 =? 0)%nat with true. cbn [mbind res_bind].
  cbn [with_qs with_nvm with_bus with_qos qs set_isInWriteQueue writeQueue]. rewrite ci_wq0.
  change (alter (delete k) 0%nat [wq]) with [delete k wq]. eexists _, (delete k wq). split; [reflexivity|].
  match goal with |- context [back_to_reads c all ?st] => set (s2 := st) end.
  destruct (burst_set_delete wq k p Hk ci_nodup0) as [Hset Hnd].
  assert (stepped rq s rq s2) as Hst by (by constructor).
  assert (busStateNext (bus s2) = WRITE) as Hb2 by done.
  assert (∀ b, (b = WRITE → delete k wq ≠ []) → ctrl_inv c rq (delete k wq) (with_bus (set_busStateNext b (bus s2)) s2)) as Hi2.
  { intros b Hdir. constructor; cbn [s2 u with_bus with_qs now nvm bus qos qs front set_writeQueue set_isInWriteQueue
      readQueue writeQueue respQueue isInWriteQueue set_busStateNext busStateNext nextBurstAt]; try done.
    - replace (Z.of_nat (length (delete k wq))) with (Z.of_nat (length wq) + -1) by lia. done.
    - lia.
    - rewrite ci_inwq0. exact Hset.
    - eapply Forall_impl; [exact ci_rlast0|]. cbn. intros x Hx. lia. }
  assert (load s2 + 1 < load s) as Hl2.
  { unfold load. change (qos s2) with q. change (nvm s2) with n'.
    change (respQueue (qs s2)) with (respQueue (qs s)). rewrite Hb2, Hb, (qi_writes _ _ _ _ Hqi), (qi_writes _ _ _ _ ci_qos0).
    cbn [is_READ]. lia. }
  destruct (back_to_reads c all s2) eqn:Hback.
  - split; [by apply Hi2|]. split; [eapply stepped_trans; [exact Hst|by constructor]|].
    unfold load in *. rewrite Hb2 in Hl2. cbn in *. lia.
  - split; [|split; [done|lia]]. eapply ctrl_inv_frame; [apply (Hi2 WRITE)|done..]. intros _ Hz.
    unfold back_to_reads in Hback. change (qos s2) with q in Hback. rewrite (qi_writes _ _ _ _ Hqi) in Hback.
    rewrite Hz in Hlen. cbn in Hlen.
    rewrite (proj2 (Z.eqb_eq (Z.of_nat (length wq) + -1) 0)) in Hback by lia. done.
Qed.

(** ** The handler *)

Lemma read_branch_ok switched all rq wq s :
  ctrl_inv c rq wq s → busStateNext (bus s) = READ → (rq = [] ∨ 0 < numReadDataReady (nvm s)) →
  (∃ s', read_branch c switched all s = Ok (Return s') ∧ ctrl_inv c rq wq s' ∧ stepped rq s rq s' ∧
     ¬ has_work c rq wq s' ∧ workload s' = workload s) ∨
  ∃ s' rq', read_branch c switched all s = Ok (Continue s') ∧ ctrl_inv c rq' wq s' ∧ stepped rq s rq' s' ∧
     load s' < load s.
Proof.
  intros Hi Hb Hr. pose proof (ci_qos _ _ _ _ Hi) as Hq. unfold read_branch.
  rewrite (qi_reads _ _ _ _ Hq). destruct (Z.eqb_spec (Z.of_nat (length rq)) 0) as [Hz|Hz].
  2:{ right. apply do_read_ok; [done|done|]. destruct Hr as [->|]; done. }
  assert (rq = []) as -> by (destruct rq; [done|cbn in Hz; lia]).
  rewrite (qi_writes _ _ _ _ Hq). destruct (negb (_ =? 0) && _) eqn:Hsw.
  - right. eexists _, []. split; [reflexivity|]. split; [|split; [by constructor|]].
    2:{ unfold load. rewrite Hb. cbn. lia. }
    destruct Hi. constructor; try done. cbn. intros _ ->. cbn in Hsw. done.
  - left. assert (¬ has_work c [] wq s) as Hnw.
    { intros [?|[?|Hlow]]; [done|congruence|]. pose proof (co_thresholds c Hc).
      apply andb_false_iff in Hsw as [Hsw|Hsw]; bool_to_prop; lia. }
    destruct (bool_decide (drainState (front s) = Draining) && bool_decide (length (respQueue (qs s)) = 0%nat)
      && allIntfDrained s).
    + destruct (signalDrainDone_front s) as (f & -> & Hf1 & Hf2 & Hf3 & Hf4).
      eexists. split; [reflexivity|]. split; [by eapply ctrl_inv_frame|]. split; [by constructor|].
      split; [done|]. unfold workload, load. cbn. by rewrite Hf1.
    + exists s. split; [done|]. split; [done|]. split; [apply stepped_refl|done].
Qed.

Lemma busy_awake rq wq s r a :
  ctrl_inv c rq wq s → (rq ≠ [] → 0 < numPendingReads (nvm s)) → r = (Z.of_nat (length rq) =? 0) →
  isBusy (intf c) (busStateNext (bus s)) (nvm s) r a = true → awake s.
Proof.
  intros Hi Hp -> Hbusy. unfold isBusy in Hbusy. destruct (busStateNext (bus s)); cbn in Hbusy; bool_to_prop.
  - right. left. pose proof (ci_nvm _ _ _ _ Hi) as Hn.
    eapply event_min_scheduled; [apply Hn|]. intros Hz. pose proof (ni_pending _ _ _ _ _ Hn) as Hpe.
    rewrite Hz in Hpe. cbn in Hpe. assert (rq ≠ []) as Hne by (intros ->; cbn in *; lia).
    specialize (Hp Hne). lia.
  - by eapply full_awake.
Qed.

Lemma processNextReqEvent_ok acc s :
  inv c acc s → scheduled (nextReqEvent (front s)) = true → when (nextReqEvent (front s)) = now s →
  let s0 := with_front (set_nextReqEvent (fired (nextReqEvent (front s))) (front s)) s in
  in_time (snd (switch_bus s0)) →
  ∃ s', processNextReqEvent c s0 = Ok s' ∧ inv c acc s' ∧ now s' = now s ∧ workload s' < workload s.
Proof.
  intros (rq & wq & hp & Hi & Hsv & _) Hs Hw s0 Ht.
  assert (ctrl_inv c rq wq s0) as Hi0 by (destruct Hi; constructor; done).
  assert (serve_inv hp rq acc s0) as Hsv0 by (by eapply serve_inv_frame).
  unfold processNextReqEvent. destruct (switch_bus s0) as [sw s1] eqn:Hsb. cbn [snd] in Ht.
  assert (ctrl_inv c rq wq s1 ∧ stepped rq s0 rq s1 ∧ busState (bus s1) = busStateNext (bus s1)) as (Hi1 & Hst1 & Hbs).
  { unfold switch_bus in Hsb. injection Hsb as _ <-. split; [by eapply ctrl_inv_frame|]. split; [by constructor|done]. }
  destruct (issue_reads_ok rq wq s1 Hi1 Ht) as (s2 & rq2 & -> & Hi2 & Hst2 & Hlen & Hb1 & Hb2 & Hf & Hp & Hl2).
  assert (front s1 = front s0 ∧ load s1 = load s) as [Hf0 Hl1] by (unfold switch_bus in Hsb; by injection Hsb as _ <-).
  assert (workload s = load s + 1) as Hwl by (unfold workload; by rewrite Hs).
  assert (workload s2 = load s2) as Hwl2 by (unfold workload; rewrite Hf, Hf0; cbn; lia).
  cbn [mbind res_bind]. pose proof (stepped_trans _ _ _ _ _ _ Hst1 Hst2) as Hst.
  assert (∀ s' rq' wq', ctrl_inv c rq' wq' s' → stepped rq2 s2 rq' s' → (has_work c rq' wq' s' → awake s') →
    workload s' < workload s → inv c acc s' ∧ now s' = now s ∧ workload s' < workload s) as Hdone.
  { intros s' rq' wq' Hi' Hst' Haw' Hle. pose proof (stepped_trans _ _ _ _ _ _ Hst Hst') as Hall.
    split; [|split; [apply Hall|done]]. exists rq', wq', hp. split; [done|]. split; [|done]. by eapply serve_inv_stepped. }
  assert (∀ s' rq' wq', ctrl_inv c rq' wq' s' → stepped rq2 s2 rq' s' → load s' < load s2 →
    ∃ s'', finish_request c s' = Ok s'' ∧ inv c acc s'' ∧ now s'' = now s ∧ workload s'' < workload s) as Hfin.
  { intros s' rq' wq' Hi' Hst' Hle. destruct (finish_request_ok rq' wq' s' Hi') as (s'' & -> & Hi'' & Hst'' & Hk & Hl'').
    exists s''. split; [done|]. eapply Hdone; [exact Hi''|by eapply stepped_trans|intros _; by left|].
    unfold workload at 1. rewrite Hk. lia. }
  rewrite (qi_reads _ _ _ _ (ci_qos _ _ _ _ Hi2)). set (al := _ =? totalWriteQueueSize _).
  assert (rq2 ≠ [] → 0 < numPendingReads (nvm s2)) as Hp2.
  { intros Hne. apply Hp. intros ->. destruct rq2; done. }
  destruct (isBusy _ _ _ _ al) eqn:Hbusy.
  { exists s2. split; [done|]. eapply Hdone; [exact Hi2|apply stepped_refl|intros _|].
    { by eapply busy_awake. } lia. }
  rewrite Hb1, Hbs, <-Hb2. destruct (busStateNext (bus s2)) eqn:Hdir; cbn [is_READ].
  - destruct (read_branch_ok sw al rq2 wq s2 Hi2 Hdir) as [(s' & -> & Hi' & Hst' & Hnw & Hl')|(s' & rq' & -> & Hi' & Hst' & Hl')].
    + unfold isBusy in Hbusy. cbn in Hbusy. destruct rq2 as [|x rq2]; [by left|right].
      rewrite andb_true_r in Hbusy. bool_to_prop. pose proof (ni_ready _ _ _ _ _ (ci_nvm _ _ _ _ Hi2)). lia.
    + cbn [mbind res_bind]. exists s'. split; [done|]. eapply Hdone; [done..|lia].
    + cbn [mbind res_bind]. by eapply Hfin.
  - destruct (write_branch_ok sw al rq2 wq s2 Hi2 Hdir) as [[-> Haw]|(s' & wq' & -> & Hi' & Hst' & Hl')];
      cbn [mbind res_bind].
    + exists s2. split; [done|]. eapply Hdone; [exact Hi2|apply stepped_refl|done|lia].
    + by eapply Hfin.
Qed.

End Sched.
End CtrlSched.
