(* ===== verification/MemCtrlRun.v ===== *)
(** * Runs of the memory controller

    The simulation of a controller as a transition system: time passes up to
    the next scheduled event, due events run their handlers in any order,
    the port delivers requests, and the simulator asks for a drain.  The
    theorems hold of every reachable state. *)

From stdpp Require Import sorting.
From S2P Require Import Prelude.
From S2P Require Import Intmath.
From S2P Require Import AddrRange.
From S2P Require Import CmdBus.
From S2P Require Import NvmDecode.
From S2P Require Import NvmDevice.
From S2P Require Import NvmDeviceInv.
From S2P Require Import MemCtrl.
From S2P Require Import MemCtrlQos.
From S2P Require Import MemCtrlInv.
From S2P Require Import MemCtrlOps.
From S2P Require Import MemCtrlSched.

Module CtrlRun.
Export CtrlSched.

(** ** The transition system *)

Inductive Source := NextReq | Respond | ReadReady | WriteRespond.
#[export] Instance Source_eq_dec : EqDecision Source.
Proof. solve_decision. Defined.

Definition event_of (x : Source) (s : State) : Event :=
  match x with
  | NextReq => nextReqEvent (front s)
  | Respond => respondEvent (front s)
  | ReadReady => readReadyEvent (nvm s)
  | WriteRespond => writeRespondEvent (nvm s)
  end.

(** The event queue clears the flag of the event it runs. *)
Definition clear_event (x : Source) (s : State) : State :=
  let e := fired (event_of x s) in
  match x with
  | NextReq => with_front (set_nextReqEvent e (front s)) s
  | Respond => with_front (set_respondEvent e (front s)) s
  | ReadReady => with_nvm (set_readReadyEvent e (nvm s)) s
  | WriteRespond => with_nvm (set_writeRespondEvent e (nvm s)) s
  end.

Definition handle (c : Config) (x : Source) (s : State) : res State :=
  let s := clear_event x s in
  match x with
  | NextReq => processNextReqEvent c s
  | Respond => processRespondEvent c s
  | ReadReady => read_ready s
  | WriteRespond => write_respond s
  end.

Definition due (x : Source) (s : State) : Prop :=
  scheduled (event_of x s) = true ∧ when (event_of x s) = now s.

(** The read data of the request event stays below [MaxTick]. *)
Definition fits (c : Config) (x : Source) (s : State) : Prop :=
  x = NextReq → in_time c (snd (switch_bus (clear_event NextReq s))).

Definition initial (c : Config) : State := startup c true (MemCtrl_new c).

(** [accepted] lists the requests the port accepted. *)
Inductive reach (c : Config) : list Packet → State → Prop :=
| reach_init : reach c [] (initial c)
| reach_time accepted s t :
    reach c accepted s → now s ≤ t < MaxTick →
    (∀ x, scheduled (event_of x s) = true → t ≤ when (event_of x s)) →
    reach c accepted (with_now t s)
| reach_event accepted s x s' :
    reach c accepted s → due x s → fits c x s → handle c x s = Ok s' → reach c accepted s'
| reach_recv accepted s p b s' :
    reach c accepted s → pkt_ok c p → recvTimingReq c p s = Ok (b, s') →
    reach c (if b then p :: accepted else accepted) s'
| reach_drain accepted s s' :
    reach c accepted s → drain s = Ok s' → reach c accepted s'.

(** ** The invariant holds in every reachable state *)

Section Reach.
Context (c : Config) (Hc : cfg_ok c).

Lemma initial_inv : inv c [] (initial c).
Proof.
  pose proof (co_prio c Hc) as Hp. pose proof (co_pending c Hc) as [H1 H2].
  pose proof (co_rbuf c Hc). pose proof (co_wbuf c Hc). pose proof (co_thresholds c Hc).
  unfold initial, startup, MemCtrl_new. rewrite Hp. change (Z.to_nat 1) with 1%nat. cbn.
  exists [], [], ∅. split; [|split].
  - constructor; cbn; try done; try lia.
    + apply (nvm_inv_new _ _ (co_timing c Hc)). lia.
    + constructor; cbn; try done.
  - constructor; cbn; try done. constructor; try done.
    + intros h. by rewrite !lookup_empty.
    + intros p h Hin. by apply elem_of_nil in Hin.
  - intros [?|[?|?]]; cbn in *; [done|done|lia].
Qed.

Lemma time_inv acc s t :
  inv c acc s → now s ≤ t < MaxTick →
  (∀ x, scheduled (event_of x s) = true → t ≤ when (event_of x s)) → inv c acc (with_now t s).
Proof.
  intros (rq & wq & hp & Hi & Hsv & Haw) Ht He. exists rq, wq, hp. split; [|split].
  - destruct Hi. constructor; cbn; try done; try lia.
    + eapply nvm_inv_advance; [exact ci_nvm0|lia|apply (He ReadReady)|apply (He WriteRespond)].
    + eapply event_min_advance; [exact ci_revent0|]. apply (He Respond).
    + apply (He NextReq).
  - by eapply serve_inv_frame.
  - exact Haw.
Qed.

(** A media event hands over to the scheduler. *)
Lemma media_inv acc s n rq wq hp :
  ctrl_inv c rq wq s → serve_inv hp rq acc s → nvm_inv (intf c) (now s) rq wq n →
  media_load n = media_load (nvm s) - 2 →
  ∃ s', kick (with_nvm n s) = Ok s' ∧ inv c acc s' ∧ now s' = now s ∧ workload s' < workload s.
Proof.
  intros Hi Hsv Hn Hld. assert (ctrl_inv c rq wq (with_nvm n s)) as Hi' by (destruct Hi; by constructor).
  destruct (kick_ok c rq wq _ Hi') as (e & -> & He & Hk). eexists. split; [reflexivity|]. split; [|split; [done|]].
  2:{ unfold workload, load. cbn -[media_load Z.mul Z.add]. rewrite He, Hld.
      destruct (scheduled (nextReqEvent (front s))); lia. }
  exists rq, wq, hp. split; [done|]. split; [by eapply serve_inv_frame|]. intros _. by left.
Qed.

Lemma handle_ok acc s x :
  inv c acc s → due x s → fits c x s → 
  ∃ s', handle c x s = Ok s' ∧ inv c acc s' ∧ now s' = now s ∧ workload s' < workload s.
Proof.
  intros Hinv [Hs Hw] Hf. destruct x; cbn [event_of] in *.
  - apply (processNextReqEvent_ok c Hc acc s Hinv Hs Hw). by apply Hf.
  - apply (processRespondEvent_ok c acc s Hinv Hs Hw).
  - destruct Hinv as (rq & wq & hp & Hi & Hsv & _).
    destruct (processReadReadyEvent_ok (intf c) (now s) rq wq (nvm s) (ci_nvm _ _ _ _ Hi) Hs Hw)
      as (n & Hn & Hni & Hld).
    cbn. unfold read_ready. cbn. rewrite Hn. cbn [mbind res_bind]. by apply (media_inv acc s n rq wq hp).
  - destruct Hinv as (rq & wq & hp & Hi & Hsv & _).
    destruct (processWriteRespondEvent_ok (intf c) (now s) rq wq (nvm s) (ci_nvm _ _ _ _ Hi) Hs Hw)
      as (n & Hn & Hni & Hld).
    cbn. unfold write_respond. cbn. rewrite Hn. cbn [mbind res_bind]. by apply (media_inv acc s n rq wq hp).
Qed.

Lemma drain_ok acc s : inv c acc s → ∃ s', drain s = Ok s' ∧ inv c acc s'.
Proof.
  intros (rq & wq & hp & Hi & Hsv & Haw). unfold drain. destruct (negb _).
  2:{ eexists. split; [reflexivity|]. exists rq, wq, hp. split; [by eapply ctrl_inv_frame|].
      split; [by eapply serve_inv_frame|exact Haw]. }
  destruct (_ && _).
  - destruct (kick_ok c rq wq s Hi) as (e & -> & He & Hk). cbn [mbind res_bind]. eexists. split; [reflexivity|].
    exists rq, wq, hp. split; [by eapply ctrl_inv_frame|]. split; [by eapply serve_inv_frame|].
    intros _. by left.
  - cbn [mbind res_bind]. eexists. split; [reflexivity|]. exists rq, wq, hp. split; [by eapply ctrl_inv_frame|].
    split; [by eapply serve_inv_frame|exact Haw].
Qed.

Lemma reach_inv acc s : reach c acc s → inv c acc s.
Proof.
  induction 1 as [|acc s t _ IH Ht He|acc s x s' _ IH Hd Hf Hh|acc s p b s' _ IH Hp Hr|acc s s' _ IH Hd].
  - apply initial_inv.
  - by apply time_inv.
  - destruct (handle_ok acc s x IH Hd Hf) as (s1 & Hs1 & ? & _). congruence.
  - destruct (recvTimingReq_ok c Hc p acc s Hp IH) as (b1 & s1 & Hs1 & ? & _).
    rewrite Hs1 in Hr. injection Hr as <- <-. done.
  - destruct (drain_ok acc s IH) as (s1 & Hs1 & ?). congruence.
Qed.
End Reach.

(** ** Executing runs *)

Inductive Action := Wait (t : Tick) | Fire (x : Source) | Recv (p : Packet) | Drain.

Definition pkt_okb (c : Config) (p : Packet) : bool :=
  (0 <=? p_addr p) && (0 <? p_size p) && (p_size p <? 2 ^ 30) &&
  (p_addr p + p_size p + burst_size c <=? 2 ^ 64) && contains (range (intf c)) (p_addr p) &&
  negb (p_cacheResponding p) && (p_isRead p || p_isWrite p) && (p_qosValue p =? 0).

Definition dueb (x : Source) (s : State) : bool :=
  scheduled (event_of x s) && (when (event_of x s) =? now s).

Definition in_timeb (c : Config) (s : State) : bool :=
  match issue_reads c (length (readQueue (qs s))) s with
  | Ok s' => forallb (λ t, t <? MaxTick) (readReadyQueue (nvm s'))
  | Err _ => true
  end.

Definition fitsb (c : Config) (x : Source) (s : State) : bool :=
  match x with NextReq => in_timeb c (snd (switch_bus (clear_event NextReq s))) | _ => true end.

Definition quiet_until (t : Tick) (s : State) : bool :=
  forallb (λ x, negb (scheduled (event_of x s)) || (t <=? when (event_of x s)))
    [NextReq; Respond; ReadReady; WriteRespond].

Definition act (c : Config) (a : Action) (accepted : list Packet) (s : State) :
    option (list Packet * State) :=
  match a with
  | Wait t =>
      if (now s <=? t) && (t <? MaxTick) && quiet_until t s
      then Some (accepted, with_now t s) else None
  | Fire x =>
      if dueb x s && fitsb c x s then
        match handle c x s with Ok s' => Some (accepted, s') | Err _ => None end
      else None
  | Recv p =>
      if pkt_okb c p then
        match recvTimingReq c p s with
        | Ok (b, s') => Some (if b then p :: accepted else accepted, s')
        | Err _ => None
        end
      else None
  | Drain => match drain s with Ok s' => Some (accepted, s') | Err _ => None end
  end.

Fixpoint exec (c : Config) (l : list Action) (accepted : list Packet) (s : State) :
    option (list Packet * State) :=
  match l with
  | [] => Some (accepted, s)
  | a :: l => '(accepted, s) ← act c a accepted s; exec c l accepted s
  end.

Lemma pkt_okb_ok c p : pkt_okb c p = true → pkt_ok c p.
Proof.
  unfold pkt_okb. intros H. repeat (apply andb_true_iff in H as [H ?]). bool_to_prop.
  constructor; try done. by apply orb_true_iff.
Qed.

Lemma in_timeb_ok c s : in_timeb c s = true → in_time c s.
Proof.
  unfold in_timeb, in_time. destruct (issue_reads _ _ _); [|done]. intros H.
  apply Forall_forall. intros x Hx. rewrite forallb_forall in H. apply Z.ltb_lt, H.
  by apply list_elem_of_In.
Qed.

Lemma fitsb_ok c x s : fitsb c x s = true → fits c x s.
Proof. unfold fits. intros H ->. by apply in_timeb_ok. Qed.

Lemma quiet_until_ok t s :
  quiet_until t s = true → ∀ x, scheduled (event_of x s) = true → t ≤ when (event_of x s).
Proof.
  unfold quiet_until. rewrite forallb_forall. intros H x Hs.
  specialize (H x ltac:(destruct x; cbn; tauto)). rewrite Hs in H. by apply Z.leb_le in H.
Qed.

Lemma exec_reach c l acc s acc' s' :
  reach c acc s → exec c l acc s = Some (acc', s') → reach c acc' s'.
Proof.
  revert acc s. induction l as [|a l IH]; intros acc s Hr He; cbn in He.
  { by injection He as <- <-. }
  destruct (act c a acc s) as [[acc1 s1]|] eqn:Ha; [|done]. cbn in He.
  eapply IH; [|exact He]. clear He IH. destruct a as [t|x|p|]; cbn [act] in Ha.
  - destruct (_ && _) eqn:Hb; [|done]. injection Ha as <- <-. bool_to_prop.
    apply reach_time; [done|lia|intros y; by apply quiet_until_ok].
  - destruct (_ && _) eqn:Hb; [|done]. destruct (handle c x s) eqn:Hh; [|done]. injection Ha as <- <-.
    bool_to_prop. unfold dueb in *. bool_to_prop. eapply reach_event; [done|by split|by apply fitsb_ok|done].
  - destruct (pkt_okb c p) eqn:Hb; [|done]. destruct (recvTimingReq c p s) as [[b s2]|] eqn:Hq; [|done].
    injection Ha as <- <-. eapply reach_recv; [done|by apply pkt_okb_ok|done].
  - destruct (drain s) eqn:Hd; [|done]. injection Ha as <- <-. by eapply reach_drain.
Qed.

(** ** A small channel *)

Definition sample_intf : Interface :=
  mkInterface RoRaBaCoCh (mkAddrRange 0x30000000 0x50000000 [] 0) 64 256 4 1 1 16 131072
    833 2 3332 5 5 150000 500000 14160 128 64 true 64 128 12.
Definition sample_config (priorities : Z) : Config :=
  mkConfig sample_intf frfcfs 64 128 108 64 16 10000 10000 10000 priorities.

Lemma sample_config_ok : cfg_ok (sample_config 1).
Proof.
  constructor; cbn; try lia; try done.
  - by exists 6.
  - intros a. unfold getOffset. cbn. destruct (negb _); eauto.
Qed.

Definition read_req (id addr size prio : Z) : Packet :=
  mkPacket id addr size true false false true 7 prio 0 0.
Definition write_req (id addr size : Z) : Packet :=
  mkPacket id addr size false true false true 7 0 0 0.

(** A write, a read it serves, a split read and another read, up to the
    point where the first data is ready. *)
Definition sample_run : list Action :=
  [Recv (write_req 1 0x30000010 8); Recv (read_req 2 0x30000010 4 0);
   Recv (read_req 3 0x30000100 200 0); Recv (read_req 4 0x30004000 64 0);
   Fire NextReq; Wait 150000; Fire ReadReady].
Definition sample_end : list Packet * State :=
  default ([], initial (sample_config 1)) (exec (sample_config 1) sample_run [] (initial (sample_config 1))).

Lemma sample_reach : reach (sample_config 1) (fst sample_end) (snd sample_end).
Proof.
  apply (exec_reach (sample_config 1) sample_run [] (initial (sample_config 1))); [constructor|].
  vm_compute. reflexivity.
Qed.

(** ** Theorems *)

(** C3: In every reachable state of a controller with one priority level,
    every well-formed request, every due event (the next request, the read
    response, read data becoming ready, a write completing) and a drain
    request are handled to the end: no assertion or panic of the controller,
    of the NVM interface or of the QoS log can fire. *)
Theorem controller_never_fails c accepted s :
  cfg_ok c → reach c accepted s →
  (∀ p, pkt_ok c p → ∃ b s', recvTimingReq c p s = Ok (b, s')) ∧
  (∀ x, due x s → fits c x s → ∃ s', handle c x s = Ok s') ∧
  (∃ s', drain s = Ok s').
Proof.
  intros Hc Hr. pose proof (reach_inv c Hc _ _ Hr) as Hi. split; [|split].
  - intros p Hp. destruct (recvTimingReq_ok c Hc p accepted s Hp Hi) as (b & s' & ? & _). eauto.
  - intros x Hd Hf. destruct (handle_ok c Hc accepted s x Hi Hd Hf) as (s' & ? & _). eauto.
  - destruct (drain_ok c accepted s Hi) as (s' & ? & _). eauto.
Qed.

Lemma controller_never_fails_witness :
  ∃ s', handle (sample_config 1) NextReq (snd sample_end) = Ok s'.
Proof.
  apply (controller_never_fails (sample_config 1) (fst sample_end) (snd sample_end)).
  - exact sample_config_ok.
  - exact sample_reach.
  - split; vm_compute; reflexivity.
  - apply fitsb_ok. vm_compute. reflexivity.
Defined.

(** C26: In every reachable state the queues are within their buffers (reads
    waiting for their response count against the read buffer), the media's
    read and write limits are respected, the counters of the controller and
    of the interface equal what is queued, no two queued writes are of the
    same burst, and responses leave in the order of their ready times. *)
Theorem controller_bounds c accepted s :
  cfg_ok c → reach c accepted s →
  ∃ rq wq, readQueue (qs s) = [rq] ∧ writeQueue (qs s) = [wq] ∧
    totalReadQueueSize (qos s) = Z.of_nat (length rq) ∧
    totalWriteQueueSize (qos s) = Z.of_nat (length wq) ∧
    Z.of_nat (length rq) + Z.of_nat (length (respQueue (qs s))) ≤ c_readBufferSize c ∧
    Z.of_nat (length wq) ≤ c_writeBufferSize c ∧
    numReadsToIssue (nvm s) + numPendingReads (nvm s) = Z.of_nat (length rq) ∧
    numPendingReads (nvm s) ≤ maxPendingReads (intf c) ∧
    numPendingReads (nvm s) = Z.of_nat (length (readReadyQueue (nvm s))) + numReadDataReady (nvm s) ∧
    numWritesQueued (nvm s) = Z.of_nat (length wq) ∧
    Z.of_nat (length (writeRespQueue (nvm s))) ≤ maxPendingWrites (intf c) ∧
    NoDup (burst_of c <$> wq) ∧ isInWriteQueue (qs s) = list_to_set (burst_of c <$> wq) ∧
    Sorted Z.le (readyTime <$> respQueue (qs s)).
Proof.
  intros Hc Hr. destruct (reach_inv c Hc _ _ Hr) as (rq & wq & hp & Hi & _). exists rq, wq.
  destruct Hi. destruct ci_nvm0, ci_qos0. done.
Qed.

Lemma controller_bounds_witness :
  ∃ rq wq, readQueue (qs (snd sample_end)) = [rq] ∧ writeQueue (qs (snd sample_end)) = [wq] ∧
    Z.of_nat (length rq) + Z.of_nat (length (respQueue (qs (snd sample_end)))) ≤ 64 ∧ length rq = 5%nat.
Proof.
  destruct (controller_bounds (sample_config 1) (fst sample_end) (snd sample_end) sample_config_ok sample_reach)
    as (rq & wq & Hrq & Hwq & _ & _ & Hb & _).
  exists rq, wq. split; [exact Hrq|]. split; [exact Hwq|]. split; [exact Hb|].
  vm_compute in Hrq. injection Hrq as <-. reflexivity.
Defined.

(** C5: Every request the controller accepts is served exactly once.  In a
    reachable state the accesses made so far and the packets still owed are
    together the accepted requests, each as often as it was accepted, split
    reads included; packets that need a response get one with their access
    and no other is sent; when no read is queued or waiting for its response,
    nothing is owed. *)
Theorem requests_served_once c accepted s :
  cfg_ok c → reach c accepted s →
  ∃ owed, accessed (outputs (front s)) ++ owed ≡ₚ accepted ∧
    responded (outputs (front s)) =
      filter (λ p, p_needsResponse p = true) (accessed (outputs (front s))) ∧
    (readQueue (qs s) = [[]] → respQueue (qs s) = [] → owed = []).
Proof.
  intros Hc Hr. destruct (reach_inv c Hc _ _ Hr) as (rq & wq & hp & Hi & Hsv & _).
  exists (owed hp (tags rq s)). split; [apply Hsv|]. split; [apply Hsv|]. intros Hrq Hresp.
  pose proof (ci_rq _ _ _ _ Hi) as Hrq'. rewrite Hrq in Hrq'. injection Hrq' as <-.
  by eapply nothing_owed.
Qed.

Lemma requests_served_once_witness :
  ∃ owed, accessed (outputs (front (snd sample_end))) ++ owed ≡ₚ fst sample_end ∧
    p_id <$> accessed (outputs (front (snd sample_end))) = [1; 2] ∧
    p_id <$> fst sample_end = [4; 3; 2; 1].
Proof.
  destruct (requests_served_once (sample_config 1) (fst sample_end) (snd sample_end)
    sample_config_ok sample_reach) as (l & Hl & _). exists l. split; [exact Hl|].
  split; vm_compute; reflexivity.
Defined.

(** No wake-up is lost.  In every reachable state, if a read is queued,
    the bus is to serve writes, or the writes are above the low threshold,
    then the request event or one of the media events that restart the
    scheduler is scheduled, not in the past; and while reads wait for their
    response the respond event is scheduled for the first of them. *)
Theorem no_lost_wakeup c accepted s :
  cfg_ok c → reach c accepted s →
  (totalReadQueueSize (qos s) ≠ 0 ∨ busStateNext (bus s) = WRITE ∨
     writeLowThreshold c < totalWriteQueueSize (qos s) →
   ∃ x, x ≠ Respond ∧ scheduled (event_of x s) = true ∧ now s ≤ when (event_of x s)) ∧
  (respQueue (qs s) ≠ [] →
   scheduled (respondEvent (front s)) = true ∧ now s ≤ when (respondEvent (front s)) ∧
   ∃ m, head (respQueue (qs s)) = Some m ∧ when (respondEvent (front s)) = readyTime m).
Proof.
  intros Hc Hr. destruct (reach_inv c Hc _ _ Hr) as (rq & wq & hp & Hi & _ & Haw).
  pose proof (ci_nvm _ _ _ _ Hi) as Hn. split.
  - intros Hw. rewrite (qi_reads _ _ _ _ (ci_qos _ _ _ _ Hi)), (qi_writes _ _ _ _ (ci_qos _ _ _ _ Hi)) in Hw.
    assert (awake s) as [Hs|[Hs|Hs]].
    { apply Haw. destruct Hw as [Hw|Hw]; [left; by intros ->|by right]. }
    + exists NextReq. split; [done|]. split; [done|]. by apply (ci_next _ _ _ _ Hi).
    + exists ReadReady. split; [done|]. split; [done|]. pose proof (ni_revent _ _ _ _ _ Hn) as He.
      destruct (readReadyQueue (nvm s)); [cbn in He; congruence|]. apply He.
    + exists WriteRespond. split; [done|]. split; [done|]. pose proof (ni_wevent _ _ _ _ _ Hn) as He.
      destruct (writeRespQueue (nvm s)); [cbn in He; congruence|]. apply He.
  - intros Hne. pose proof (ci_revent _ _ _ _ Hi) as He. pose proof (ci_rsorted _ _ _ _ Hi) as Hso.
    destruct (respQueue (qs s)) as [|m q]; [done|]. cbn in He, Hso.
    destruct He as (Hs & Hle & Hin & Hall). split; [done|]. split; [done|]. exists m. split; [done|].
    apply Forall_cons in Hall as [Hle' _]. apply (Sorted_StronglySorted _) in Hso. inversion Hso as [|? ? _ Hf]; subst.
    apply elem_of_cons in Hin as [->|Hin]; [done|]. rewrite Forall_forall in Hf. specialize (Hf _ Hin). lia.
Qed.

Lemma no_lost_wakeup_witness :
  ∃ x, x ≠ Respond ∧ scheduled (event_of x (snd sample_end)) = true ∧
    now (snd sample_end) ≤ when (event_of x (snd sample_end)).
Proof.
  apply (no_lost_wakeup (sample_config 1) (fst sample_end) (snd sample_end) sample_config_ok sample_reach).
  left. vm_compute. discriminate.
Defined.

(** With two priority levels the controller stops at an assertion: after
    one read of the low priority, the request event asks the interface to
    issue a read from the empty high-priority queue. *)
Theorem two_priorities_assert :
  ∃ s, (r ← recvTimingReq (sample_config 2) (read_req 1 0x30000100 64 0) (initial (sample_config 2));
        Ok (snd r)) = Ok s ∧ due NextReq s ∧ handle (sample_config 2) NextReq s = Err AssertFail.
Proof.
  eexists. split; [vm_compute; reflexivity|]. split; [split; vm_compute; reflexivity|].
  vm_compute. reflexivity.
Qed.

Definition drain_run : list Action := [Recv (write_req 1 0x30000010 8); Fire NextReq; Drain].

(** A drain can hang.  After one write, fewer than the low threshold,
    the scheduler goes idle; the drain request then schedules nothing,
    because it kicks the scheduler only when the write queue is empty: the
    controller is draining, a write is queued, and no event is scheduled. *)
Theorem drain_hangs_with_writes :
  ∃ accepted s, exec (sample_config 1) drain_run [] (initial (sample_config 1)) = Some (accepted, s) ∧
    drainState (front s) = Draining ∧ totalWriteQueueSize (qos s) = 1 ∧
    ∀ x, scheduled (event_of x s) = false.
Proof.
  eexists _, _. split; [vm_compute; reflexivity|]. split; [vm_compute; reflexivity|].
  split; [vm_compute; reflexivity|]. intros []; vm_compute; reflexivity.
Qed.

End CtrlRun.
