(* ===== verification/MemCtrlLive.v ===== *)
(** * The controller finishes its work

    Without new requests the controller handles a bounded number of events,
    and when it stops every request it accepted has been served.  The bound
    is [workload], which every handler lowers. *)

From S2P Require Import Prelude.
From S2P Require Import AddrRange.
From S2P Require Import NvmDecode.
From S2P Require Import NvmDevice.
From S2P Require Import NvmDeviceInv.
From S2P Require Import MemCtrl.
From S2P Require Import MemCtrlQos.
From S2P Require Import MemCtrlInv.
From S2P Require Import MemCtrlOps.
From S2P Require Import MemCtrlSched.
From S2P Require Import MemCtrlRun.

Module CtrlLive.
Export CtrlRun.

(** ** Runs without new requests *)

(** [x] may be the next event to run. *)
Definition earliest (x : Source) (s : State) : Prop :=
  scheduled (event_of x s) = true ∧
  ∀ y, scheduled (event_of y s) = true → when (event_of x s) ≤ when (event_of y s).

(** The controller at the time of its event [x]. *)
Definition at_event (x : Source) (s : State) : State := with_now (when (event_of x s)) s.

Inductive events (c : Config) : nat → State → State → Prop :=
| events_none s : events c 0 s s
| events_one n s x s1 s' :
    earliest x s → when (event_of x s) < MaxTick → fitsb c x (at_event x s) = true →
    handle c x (at_event x s) = Ok s1 → events c n s1 s' → events c (S n) s s'.

(** The next event, or the data it asks for, is beyond the largest tick. *)
Definition at_horizon (c : Config) (s : State) : Prop :=
  ∃ x, earliest x s ∧ (MaxTick ≤ when (event_of x s) ∨ fitsb c x (at_event x s) = false).

(** Every request accepted is served and nothing is scheduled.  Writes below
    the low threshold stay queued; they were answered when accepted. *)
Record all_served (c : Config) (accepted : list Packet) (s : State) : Prop := {
  as_idle x : scheduled (event_of x s) = false;
  as_accessed : accessed (outputs (front s)) ≡ₚ accepted;
  as_responded : responded (outputs (front s)) =
    filter (λ p, p_needsResponse p = true) (accessed (outputs (front s)));
  as_reads : readQueue (qs s) = [[]];
  as_resp : respQueue (qs s) = [];
  as_writes : totalWriteQueueSize (qos s) ≤ writeLowThreshold c;
}.

(** ** Proofs *)

Definition sources : list Source := [NextReq; Respond; ReadReady; WriteRespond].

Lemma in_sources x : x ∈ sources.
Proof. destruct x; repeat constructor. Qed.

Lemma earliest_in (xs : list Source) s :
  Exists (λ x, scheduled (event_of x s) = true) xs →
  ∃ x, x ∈ xs ∧ scheduled (event_of x s) = true ∧
    ∀ y, y ∈ xs → scheduled (event_of y s) = true → when (event_of x s) ≤ when (event_of y s).
Proof.
  induction xs as [|z xs IH]; intros Hex; [by inversion Hex|].
  destruct (decide (Exists (λ x, scheduled (event_of x s) = true) xs)) as [Hex'|Hno].
  - destruct (IH Hex') as (x & Hx & Hs & Hmin).
    destruct (scheduled (event_of z s)) eqn:Hz.
    + destruct (Z.le_gt_cases (when (event_of x s)) (when (event_of z s))).
      * exists x. split; [by right|]. split; [done|]. intros y Hy. apply elem_of_cons in Hy as [->|Hy]; [done|by apply Hmin].
      * exists z. split; [by left|]. split; [done|]. intros y Hy Hys. apply elem_of_cons in Hy as [->|Hy]; [lia|].
        specialize (Hmin y Hy Hys). lia.
    + exists x. split; [by right|]. split; [done|]. intros y Hy Hys. apply elem_of_cons in Hy as [->|Hy]; [congruence|by apply Hmin].
  - apply Exists_cons in Hex as [Hz|?]; [|done]. exists z. split; [by left|]. split; [done|].
    intros y Hy Hys. apply elem_of_cons in Hy as [->|Hy]; [lia|].
    destruct Hno. apply Exists_exists. eauto.
Qed.

Lemma idle_or_earliest s : (∀ x, scheduled (event_of x s) = false) ∨ ∃ x, earliest x s.
Proof.
  destruct (decide (Exists (λ x, scheduled (event_of x s) = true) sources)) as [Hex|Hno].
  - right. destruct (earliest_in sources s Hex) as (x & _ & Hs & Hmin). exists x. split; [done|].
    intros y. apply Hmin, in_sources.
  - left. intros x. destruct (scheduled (event_of x s)) eqn:E; [|done]. destruct Hno.
    apply Exists_exists. exists x. split; [apply in_sources|done].
Qed.

Lemma idle_stops c s s' : (∀ x, scheduled (event_of x s) = false) → events c 1 s s' → False.
Proof.
  intros Hidle He. inversion He as [|n ? x ? ? [Hx _]]; subst. by rewrite Hidle in Hx.
Qed.

Section Live.
Context (c : Config) (Hc : cfg_ok c).

(** A scheduled event is not in the past. *)
Lemma not_past acc s x : inv c acc s → scheduled (event_of x s) = true → now s ≤ when (event_of x s).
Proof.
  intros (rq & wq & hp & Hi & _ & _) Hs. pose proof (ci_nvm _ _ _ _ Hi) as Hn. destruct x; cbn [event_of] in *.
  - by apply (ci_next _ _ _ _ Hi).
  - pose proof (ci_revent _ _ _ _ Hi) as He. destruct (readyTime <$> _); [cbn in He; congruence|apply He].
  - pose proof (ni_revent _ _ _ _ _ Hn) as He. destruct (readReadyQueue _); [cbn in He; congruence|apply He].
  - pose proof (ni_wevent _ _ _ _ _ Hn) as He. destruct (writeRespQueue _); [cbn in He; congruence|apply He].
Qed.

Lemma at_event_reach acc s x :
  reach c acc s → earliest x s → when (event_of x s) < MaxTick →
  reach c acc (at_event x s) ∧ due x (at_event x s) ∧ workload (at_event x s) = workload s.
Proof.
  intros Hr [Hs Hmin] Hb. pose proof (not_past acc s x (reach_inv c Hc _ _ Hr) Hs).
  split; [by apply reach_time|]. split; [|done]. unfold at_event. by destruct x.
Qed.

Lemma workload_nonneg acc s : inv c acc s → 0 ≤ workload s.
Proof.
  intros (rq & wq & hp & Hi & _ & _). destruct Hi, ci_nvm0, ci_qos0. unfold workload, load, media_load.
  pose proof (cnt_nonneg unissued rq). destruct (is_READ _), (scheduled _); lia.
Qed.

Lemma events_reach n acc s s' :
  reach c acc s → events c n s s' → reach c acc s' ∧ Z.of_nat n + workload s' ≤ workload s.
Proof.
  intros Hr He. induction He as [s|n s x s1 s' Hx Hb Hf Hh _ IH]; [split; [done|lia]|].
  destruct (at_event_reach acc s x Hr Hx Hb) as (Hr' & Hd & Hw). apply fitsb_ok in Hf.
  destruct (handle_ok c Hc acc (at_event x s) x (reach_inv c Hc _ _ Hr') Hd Hf) as (s2 & Hs2 & _ & _ & Hlt).
  assert (s2 = s1) as -> by congruence.
  destruct IH as [Hr2 Hle]; [by eapply reach_event|]. split; [done|]. lia.
Qed.

(** An idle controller has served everything. *)
Lemma idle_served acc s : inv c acc s → (∀ x, scheduled (event_of x s) = false) → all_served c acc s.
Proof.
  intros (rq & wq & hp & Hi & Hsv & Haw) Hidle.
  assert (¬ has_work c rq wq s) as Hnw.
  { intros Hw. destruct (Haw Hw) as [H|[H|H]].
    - pose proof (Hidle NextReq) as Hx. cbn in Hx. congruence.
    - pose proof (Hidle ReadReady) as Hx. cbn in Hx. congruence.
    - pose proof (Hidle WriteRespond) as Hx. cbn in Hx. congruence. }
  assert (rq = []) as -> by (destruct rq; [done|destruct Hnw; by left]).
  assert (respQueue (qs s) = []) as Hresp.
  { pose proof (ci_revent _ _ _ _ Hi) as He. destruct (respQueue (qs s)); [done|]. destruct He as [He _].
    pose proof (Hidle Respond) as Hx. cbn in Hx. congruence. }
  constructor; [done| |apply Hsv|apply Hi|done|].
  - rewrite <-(si_served _ _ _ _ Hsv), (nothing_owed hp acc s) by done. by rewrite app_nil_r.
  - rewrite (qi_writes _ _ _ _ (ci_qos _ _ _ _ Hi)). destruct (Z.le_gt_cases (Z.of_nat (length wq)) (writeLowThreshold c)); [done|].
    destruct Hnw. right. by right.
Qed.

End Live.

(** ** Executing runs *)

Definition is_earliest (x : Source) (s : State) : bool :=
  scheduled (event_of x s) &&
  forallb (λ y, negb (scheduled (event_of y s)) || (when (event_of x s) <=? when (event_of y s))) sources.

Lemma is_earliest_ok x s : is_earliest x s = true → earliest x s.
Proof.
  unfold is_earliest. intros H. apply andb_true_iff in H as [Hs Hall]. split; [done|].
  rewrite forallb_forall in Hall. intros y Hy. specialize (Hall y). rewrite Hy in Hall. apply Z.leb_le, Hall.
  apply list_elem_of_In, in_sources.
Qed.

(** Runs the earliest event until none is left, and counts. *)
Fixpoint serve_all (fuel : nat) (c : Config) (s : State) : option (nat * State) :=
  match list_find (λ x, is_earliest x s = true) sources with
  | None => Some (0%nat, s)
  | Some (_, x) =>
      match fuel with
      | O => None
      | S fuel =>
          if (when (event_of x s) <? MaxTick) && fitsb c x (at_event x s) then
            match handle c x (at_event x s) with
            | Ok s1 => '(n, s') ← serve_all fuel c s1; Some (S n, s')
            | Err _ => None
            end
          else None
      end
  end.

Lemma serve_all_events fuel c s n s' : serve_all fuel c s = Some (n, s') → events c n s s'.
Proof.
  revert s n. induction fuel as [|fuel IH]; intros s n Hs; cbn [serve_all] in Hs.
  { destruct (list_find _ _) as [[??]|]; [done|]. injection Hs as <- <-. constructor. }
  destruct (list_find _ _) as [[i x]|] eqn:Hf; [|injection Hs as <- <-; constructor].
  destruct (_ && _) eqn:Hb; [|done]. destruct (handle _ _ _) as [s1|] eqn:Hh; [|done].
  destruct (serve_all fuel c s1) as [[n1 s2]|] eqn:Hr; [|done]. injection Hs as <- <-.
  apply list_find_Some in Hf as (_ & Hx & _). bool_to_prop.
  eapply events_one; [by apply is_earliest_ok|done|done|exact Hh|by apply IH].
Qed.

Definition sample_served : nat * State :=
  default (0%nat, snd sample_end) (serve_all 100 (sample_config 1) (snd sample_end)).

(** ** Theorem *)

(** C18: Every request is served in the end.  From any reachable state, a run
    without new requests has at most [workload] events, and it can be
    continued until every accepted request has been accessed and answered, no
    read is left and no event is scheduled (or until simulated time reaches
    the largest tick).  This holds for every order of simultaneous events. *)
Theorem requests_served_eventually c accepted s n s' :
  cfg_ok c → reach c accepted s → events c n s s' →
  Z.of_nat n ≤ workload s ∧
  ((∃ s'', events c 1 s' s'') ∨ at_horizon c s' ∨ all_served c accepted s').
Proof.
  intros Hc Hr He. destruct (events_reach c Hc n accepted s s' Hr He) as [Hr' Hle].
  pose proof (reach_inv c Hc _ _ Hr') as Hi. pose proof (workload_nonneg c accepted s' Hi). split; [lia|].
  destruct (idle_or_earliest s') as [Hidle|[x Hx]]; [right; right; by apply idle_served|].
  destruct (Z.lt_ge_cases (when (event_of x s')) MaxTick) as [Hb|Hb].
  2:{ right. left. exists x. split; [done|]. by left. }
  destruct (fitsb c x (at_event x s')) eqn:Hf.
  2:{ right. left. exists x. split; [done|]. by right. }
  destruct (at_event_reach c Hc accepted s' x Hr' Hx Hb) as (Hr2 & Hd & _).
  destruct (handle_ok c Hc accepted _ x (reach_inv c Hc _ _ Hr2) Hd (fitsb_ok _ _ _ Hf)) as (s2 & Hs2 & _).
  left. exists s2. eapply events_one; [done..|constructor].
Qed.

Lemma requests_served_eventually_witness :
  events (sample_config 1) (fst sample_served) (snd sample_end) (snd sample_served) ∧
  fst sample_served = 17%nat ∧ 17 ≤ workload (snd sample_end) ∧
  all_served (sample_config 1) (fst sample_end) (snd sample_served).
Proof.
  assert (events (sample_config 1) (fst sample_served) (snd sample_end) (snd sample_served)) as He.
  { apply (serve_all_events 100). vm_compute. reflexivity. }
  assert (∀ x, scheduled (event_of x (snd sample_served)) = false) as Hidle.
  { intros []; vm_compute; reflexivity. }
  split; [exact He|]. split; [vm_compute; reflexivity|].
  destruct (requests_served_eventually (sample_config 1) (fst sample_end) (snd sample_end)
    (fst sample_served) (snd sample_served) sample_config_ok sample_reach He) as [Hn [[s2 H1]|[(x & [Hx _] & _)|H1]]].
  - destruct (idle_stops _ _ _ Hidle H1).
  - exfalso. pose proof (Hidle x) as Hx'. congruence.
  - split; [exact Hn|exact H1].
Defined.

End CtrlLive.
