(* ===== verification/Simulate.v ===== *)
(** * The controller under the main loop of the simulator

    The controller's four events on an event service, next to events of
    other components.  A run of the main loop is a run of the transition
    system of [MemCtrlRun]: events run at their times, in an order the event
    service chooses.  Proved against the interface [EventService]; the queue
    of [sim/eventq.cc] is one. *)

From S2P Require Import Prelude.
From S2P Require Import EventQueue.
From S2P Require Import EventService.
From S2P Require Import NvmDevice.
From S2P Require Import NvmDeviceInv.
From S2P Require Import MemCtrl.
From S2P Require Import MemCtrlInv.
From S2P Require Import MemCtrlOps.
From S2P Require Import MemCtrlRun.
From S2P Require Import MemCtrlLive.

Module Sim.
Export CtrlLive.

(** The event objects of the controller and of its NVM interface. *)
Definition id_of (x : Source) : Z :=
  match x with NextReq => 0 | Respond => 1 | ReadReady => 2 | WriteRespond => 3 end.

#[export] Instance id_of_inj : Inj (=) (=) id_of.
Proof. by intros [] []. Qed.

(** The time of an event, if it is scheduled. *)
Definition slot (e : Event) : option Z := if scheduled e then Some (when e) else None.

Section Simulation.
Context {Q : Type} `{EventServiceLaws Q} (c : Config).

(** Calls of the queue by other components, on their own events. *)
Inductive others : Q → Q → Prop :=
| others_none q : others q q
| others_schedule q e t q1 q2 : (∀ x, e ≠ id_of x) → sv_schedule q e t = Ok q1 → others q1 q2 → others q q2
| others_deschedule q e q1 q2 : (∀ x, e ≠ id_of x) → sv_deschedule q e = Ok q1 → others q1 q2 → others q q2
| others_reschedule q e t q1 q2 : (∀ x, e ≠ id_of x) → sv_reschedule q e t = Ok q1 → others q1 q2 → others q q2.

(** The slots of the controller's events, and the same when the loop has
    taken [x] off. *)
Definition slots (s : State) (x : Source) : option Z := slot (event_of x s).
Definition taken (x : Source) (f : Source → option Z) (y : Source) : option Z :=
  if bool_decide (y = x) then None else f y.

(** The calls by which the code of the controller takes its events from the
    slots [f] to the slots [g]. *)
Definition post_one (x : Source) (o o' : option Z) (q : Q) : res Q :=
  match o, o' with
  | None, None => Ok q
  | None, Some t => sv_schedule q (id_of x) t
  | Some _, None => sv_deschedule q (id_of x)
  | Some t0, Some t => if t0 =? t then Ok q else sv_reschedule q (id_of x) t
  end.
Fixpoint post (xs : list Source) (f g : Source → option Z) (q : Q) : res Q :=
  match xs with
  | [] => Ok q
  | x :: xs => q ← post_one x (f x) (g x) q; post xs f g q
  end.

(** Queue and controller, from the start, when no event of the controller is
    scheduled: the loop runs an event of the controller or of another
    component, or a component calls the controller.  The controller's code
    makes the calls that its step requires, others call for their own
    events. *)
Inductive sim : list Packet → Q → State → Prop :=
| sim_init q m :
    sv_agenda q m → sv_time q = now (initial c) → (∀ x, sv_known q (id_of x) ∧ m !! id_of x = None) →
    sim [] q (initial c)
| sim_own accepted q s x q1 s1 q2 q3 :
    sim accepted q s → sv_next q = Ok (id_of x, true, q1) → sv_time q1 < MaxTick →
    fits c x (with_now (sv_time q1) s) → handle c x (with_now (sv_time q1) s) = Ok s1 →
    post sources (taken x (slots s)) (slots s1) q1 = Ok q2 → others q2 q3 → sim accepted q3 s1
| sim_other accepted q s e q1 q2 :
    sim accepted q s → sv_next q = Ok (e, true, q1) → (∀ x, e ≠ id_of x) → sv_time q1 < MaxTick →
    others q1 q2 → sim accepted q2 (with_now (sv_time q1) s)
| sim_recv accepted q s p b s1 q1 q2 :
    sim accepted q s → pkt_ok c p → recvTimingReq c p s = Ok (b, s1) →
    post sources (slots s) (slots s1) q = Ok q1 → others q1 q2 →
    sim (if b then p :: accepted else accepted) q2 s1
| sim_drain accepted q s s1 q1 q2 :
    sim accepted q s → drain s = Ok s1 → post sources (slots s) (slots s1) q = Ok q1 → others q1 q2 →
    sim accepted q2 s1.

(** The queue holds events of the controller in the slots [f], at time [t]. *)
Definition shows (q : Q) (t : Z) (f : Source → option Z) : Prop :=
  ∃ m, sv_agenda q m ∧ sv_time q = t ∧ ∀ x, sv_known q (id_of x) ∧ m !! id_of x = f x.
(** The queue holds the controller's events as their flags say. *)
Definition mirrors (q : Q) (s : State) : Prop := shows q (now s) (slots s).

(** ** The loop runs the controller's transition system *)

(** The time of the next event passes over no event of the controller. *)
Lemma next_time q s e run q1 :
  mirrors q s → sv_next q = Ok (e, run, q1) →
  run = true ∧ now s ≤ sv_time q1 ∧
  (∀ x, scheduled (event_of x s) = true → sv_time q1 ≤ when (event_of x s)) ∧
  (∀ x, e = id_of x → scheduled (event_of x s) = true ∧ when (event_of x s) = sv_time q1).
Proof.
  intros (m & Hm & Ht & Hx) Hn.
  assert (m ≠ ∅) as Hne. { intros ->. rewrite (sv_next_empty q Hm) in Hn. done. }
  destruct (sv_next_ok q m Hm Hne) as (e' & t & q' & Hn' & He & Hmin & _ & Ht' & _).
  rewrite Hn in Hn'. injection Hn' as -> -> ->. split; [done|]. rewrite Ht'.
  split; [rewrite <-Ht; by eapply sv_not_past|]. split.
  - intros x Hs. destruct (Hx x) as [_ Hl]. apply (Hmin (id_of x)). rewrite Hl. unfold slots, slot. by rewrite Hs.
  - intros x ->. destruct (Hx x) as [_ Hl]. rewrite He in Hl. unfold slots, slot in Hl. destruct (scheduled _); [|done].
    split; [done|]. congruence.
Qed.

(** One event brought to its slot. *)
Lemma post_one_ok q m x o :
  sv_agenda q m → sv_known q (id_of x) → (∀ t, o = Some t → sv_time q ≤ t) →
  ∃ q' m', post_one x (m !! id_of x) o q = Ok q' ∧ sv_agenda q' m' ∧ sv_time q' = sv_time q ∧
    (∀ z, sv_known q z → sv_known q' z) ∧ m' !! id_of x = o ∧ ∀ z, z ≠ id_of x → m' !! z = m !! z.
Proof.
  intros Hm Hk Ho. unfold post_one. destruct (m !! id_of x) as [t0|] eqn:Hy, o as [t|].
  - destruct (Z.eqb_spec t0 t) as [->|_]; [by exists q, m|].
    destruct (sv_reschedule_ok q m (id_of x) t0 t Hm Hy (Ho t eq_refl)) as (q' & Hq & Ha & Ht & Hk').
    exists q', (<[id_of x := t]> m). do 4 (split; [done|]). split; [by rewrite lookup_insert_eq|].
    intros z Hz. by rewrite lookup_insert_ne.
  - destruct (sv_deschedule_ok q m (id_of x) t0 Hm Hy) as (q' & Hq & Ha & Ht & Hk').
    exists q', (delete (id_of x) m). do 4 (split; [done|]). split; [by rewrite lookup_delete_eq|].
    intros z Hz. by rewrite lookup_delete_ne.
  - destruct (sv_schedule_ok q m (id_of x) t Hm Hk Hy (Ho t eq_refl)) as (q' & Hq & Ha & Ht & Hk').
    exists q', (<[id_of x := t]> m). do 4 (split; [done|]). split; [by rewrite lookup_insert_eq|].
    intros z Hz. by rewrite lookup_insert_ne.
  - by exists q, m.
Qed.

Lemma post_calls_ok q t f g xs :
  NoDup xs → shows q t f → (∀ x t', g x = Some t' → t ≤ t') →
  ∃ q', post xs f g q = Ok q' ∧ shows q' t (λ x, if bool_decide (x ∈ xs) then g x else f x).
Proof.
  intros Hnd. revert q f. induction Hnd as [|x xs Hx _ IH]; intros q f (m & Hm & Ht & Hf) Hg.
  { exists q. split; [done|]. exists m. do 2 (split; [done|]). intros x. rewrite bool_decide_eq_false_2 by set_solver. apply Hf. }
  destruct (Hf x) as [Hk Hl]. destruct (post_one_ok q m x (g x) Hm Hk) as (q1 & m1 & Hq1 & Hm1 & Ht1 & Hk1 & Hx1 & Ho1).
  { intros t' Ht'. rewrite Ht. by eapply Hg. }
  rewrite Hl in Hq1. cbn [post]. rewrite Hq1. cbn [mbind res_bind].
  assert (post xs f g q1 = post xs (λ y, if bool_decide (y = x) then g x else f y) g q1) as ->.
  { clear -Hx. revert q1. induction xs as [|y xs IH]; intros q1; [done|]. cbn [post].
    rewrite bool_decide_eq_false_2 by set_solver. destruct (post_one y _ _ q1); [cbn|done]. apply IH. set_solver. }
  destruct (IH q1 (λ y, if bool_decide (y = x) then g x else f y)) as (q2 & Hq2 & m2 & Hm2 & Ht2 & Hf2); [|done|].
  { exists m1. split; [done|]. split; [congruence|]. intros y. split; [apply Hk1, Hf|].
    case_bool_decide as Hyx; [by subst|]. rewrite Ho1; [apply Hf|]. by intros ?%(inj id_of). }
  exists q2. split; [done|]. exists m2. do 2 (split; [done|]). intros y. destruct (Hf2 y) as [? Hy]. split; [done|].
  rewrite Hy. repeat case_bool_decide; try done; set_solver.
Qed.

Lemma others_shows q q' t f : others q q' → shows q t f → shows q' t f.
Proof.
  induction 1 as [q|q e t' q1 q2 He Hq _ IH|q e q1 q2 He Hq _ IH|q e t' q1 q2 He Hq _ IH]; [done|..];
    intros (m & Hm & Ht & Hf); apply IH.
  - destruct (sv_schedule_inv q m e t' q1 Hm Hq) as (Hk & Hn & Hle).
    destruct (sv_schedule_ok q m e t' Hm Hk Hn Hle) as (q1' & Hq' & Hm1 & Ht1 & Hk1). rewrite Hq in Hq'. injection Hq' as <-.
    exists (<[e := t']> m). split; [done|]. split; [congruence|]. intros x. split; [apply Hk1, Hf|].
    rewrite lookup_insert_ne by apply He. apply Hf.
  - destruct (sv_deschedule_inv q m e q1 Hm Hq) as [t0 Hn].
    destruct (sv_deschedule_ok q m e t0 Hm Hn) as (q1' & Hq' & Hm1 & Ht1 & Hk1). rewrite Hq in Hq'. injection Hq' as <-.
    exists (delete e m). split; [done|]. split; [congruence|]. intros x. split; [apply Hk1, Hf|].
    rewrite lookup_delete_ne by apply He. apply Hf.
  - destruct (sv_reschedule_inv q m e t' q1 Hm Hq) as [[t0 Hn] Hle].
    destruct (sv_reschedule_ok q m e t0 t' Hm Hn Hle) as (q1' & Hq' & Hm1 & Ht1 & Hk1). rewrite Hq in Hq'. injection Hq' as <-.
    exists (<[e := t']> m). split; [done|]. split; [congruence|]. intros x. split; [apply Hk1, Hf|].
    rewrite lookup_insert_ne by apply He. apply Hf.
Qed.

(** After the loop has taken an event off. *)
Lemma next_shows q s e q1 :
  mirrors q s → sv_next q = Ok (e, true, q1) →
  (∀ x, e = id_of x → shows q1 (sv_time q1) (taken x (slots s))) ∧
  ((∀ x, e ≠ id_of x) → shows q1 (sv_time q1) (slots s)).
Proof.
  intros (m & Hm & Ht & Hx) Hn. assert (m ≠ ∅) as Hne. { intros ->. rewrite (sv_next_empty q Hm) in Hn. done. }
  destruct (sv_next_ok q m Hm Hne) as (e' & t & q' & Hn' & He & _ & Hm1 & _ & Hk1).
  rewrite Hn in Hn'. injection Hn' as <- <-. split.
  - intros x ->. exists (delete (id_of x) m). do 2 (split; [done|]). intros y. split; [apply Hk1, Hx|].
    unfold taken. case_bool_decide as Hyx; [subst; apply lookup_delete_eq|].
    rewrite lookup_delete_ne; [apply Hx|]. by intros ?%(inj id_of).
  - intros Hne'. exists (delete e m). do 2 (split; [done|]). intros y. split; [apply Hk1, Hx|].
    rewrite lookup_delete_ne by apply Hne'. apply Hx.
Qed.

Context (Hc : cfg_ok c).

(** The calls of a step succeed and leave the queue as the flags say. *)
Lemma post_mirrors acc q t f s :
  shows q t f → inv c acc s → now s = t → ∃ q', post sources f (slots s) q = Ok q' ∧ mirrors q' s.
Proof.
  intros Hs Hi Hn. destruct (post_calls_ok q t f (slots s) sources) as (q' & Hq & m & Hm & Ht & Hf).
  - apply (bool_decide_unpack (NoDup sources)). vm_compute. exact I.
  - done.
  - intros x t' Hx. unfold slots, slot in Hx. destruct (scheduled (event_of x s)) eqn:E; [|done].
    injection Hx as <-. rewrite <-Hn. by eapply not_past.
  - exists q'. split; [done|]. exists m. split; [done|]. split; [by rewrite Hn|]. intros x.
    destruct (Hf x) as [? Hx]. split; [done|]. rewrite Hx. by rewrite bool_decide_eq_true_2 by apply in_sources.
Qed.

Lemma drain_now s s' : drain s = Ok s' → now s' = now s.
Proof.
  unfold drain, kick. intros Hd. destruct (negb _); [|by simplify_eq].
  destruct (_ && _); [|by simplify_eq/=]. destruct (scheduled _); [by simplify_eq/=|].
  destruct (schedule _ _ _); by simplify_eq/=.
Qed.

Lemma sim_ok accepted q s : sim accepted q s → reach c accepted s ∧ mirrors q s.
Proof.
  induction 1 as [q m Hm Ht Hx|acc q s x q1 s1 q2 q3 Hs [IH Hmir] Hn Hb Hf Hh Hp Ho|acc q s e q1 q2 Hs [IH Hmir] Hn He Hb Ho
    |acc q s p b s1 q1 q2 Hs [IH Hmir] Hp Hr Hpo Ho|acc q s s1 q1 q2 Hs [IH Hmir] Hd Hpo Ho].
  - split; [constructor|]. exists m. do 2 (split; [done|]). intros x. destruct (Hx x) as [? ->]. split; [done|]. by destruct x.
  - destruct (next_time q s _ _ q1 Hmir Hn) as (_ & Hle & Hall & Hx). destruct (Hx x eq_refl) as [Hsx Hwx].
    assert (reach c acc (with_now (sv_time q1) s)) as Hr1 by (by apply reach_time).
    assert (due x (with_now (sv_time q1) s)) as Hd by (by destruct x).
    destruct (handle_ok c Hc acc _ x (reach_inv c Hc _ _ Hr1) Hd Hf) as (s1' & Hh' & Hi1 & Hn1 & _).
    rewrite Hh in Hh'. injection Hh' as <-. split; [by eapply reach_event|].
    destruct (next_shows q s _ q1 Hmir Hn) as [Hsh _]. apply (others_shows _ _ _ _ Ho).
    destruct (post_mirrors acc q1 _ _ s1 (Hsh x eq_refl) Hi1 Hn1) as (q2' & Hp' & Hm2). by rewrite Hp in Hp'; injection Hp' as <-.
  - destruct (next_time q s _ _ q1 Hmir Hn) as (_ & Hle & Hall & _). split; [by apply reach_time|].
    apply (others_shows _ _ _ _ Ho). by apply (next_shows q s e q1 Hmir Hn).
  - split; [by eapply reach_recv|]. apply (others_shows _ _ _ _ Ho).
    destruct (recvTimingReq_ok c Hc p acc s Hp (reach_inv c Hc _ _ IH)) as (b' & s1' & Hr' & Hi1 & Hn1).
    rewrite Hr in Hr'. injection Hr' as <- <-.
    destruct (post_mirrors _ q _ _ s1 Hmir Hi1 Hn1) as (q1' & Hp' & Hm2). by rewrite Hpo in Hp'; injection Hp' as <-.
  - split; [by eapply reach_drain|]. apply (others_shows _ _ _ _ Ho).
    destruct (drain_ok c acc s (reach_inv c Hc _ _ IH)) as (s1' & Hd' & Hi1). rewrite Hd in Hd'. injection Hd' as <-.
    destruct (post_mirrors _ q _ _ s1 Hmir Hi1 (drain_now _ _ Hd)) as (q1' & Hp' & Hm2). by rewrite Hpo in Hp'; injection Hp' as <-.
Qed.

(** ** The calls of a handler succeed *)

Lemma recv_follow acc q s p :
  sim acc q s → pkt_ok c p →
  ∃ b s1 q1, recvTimingReq c p s = Ok (b, s1) ∧ post sources (slots s) (slots s1) q = Ok q1 ∧
    sim (if b then p :: acc else acc) q1 s1.
Proof.
  intros Hs Hp. destruct (sim_ok _ _ _ Hs) as [Hr Hm].
  destruct (recvTimingReq_ok c Hc p acc s Hp (reach_inv c Hc _ _ Hr)) as (b & s1 & Hrv & Hi1 & Hn).
  destruct (post_mirrors _ q _ _ s1 Hm Hi1 Hn) as (q1 & Hq & _).
  exists b, s1, q1. do 2 (split; [done|]). eapply sim_recv; [done..|constructor].
Qed.

Lemma next_follow acc q s :
  sim acc q s → ¬ all_served c acc s →
  ∃ e q1, sv_next q = Ok (e, true, q1) ∧
    ∀ x, e = id_of x → sv_time q1 < MaxTick → fits c x (with_now (sv_time q1) s) →
    ∃ s1 q2, handle c x (with_now (sv_time q1) s) = Ok s1 ∧
      post sources (taken x (slots s)) (slots s1) q1 = Ok q2 ∧ sim acc q2 s1 ∧ workload s1 < workload s.
Proof.
  intros Hs Hw. destruct (sim_ok _ _ _ Hs) as [Hr Hmir]. pose proof Hmir as (m & Hm & Ht & Hx). assert (m ≠ ∅) as Hne.
  { intros ->. apply Hw, (idle_served c); [by apply reach_inv|]. intros x. destruct (Hx x) as [_ Hl].
    rewrite lookup_empty in Hl. unfold slots, slot in Hl. by destruct (scheduled _). }
  destruct (sv_next_ok q m Hm Hne) as (e & t & q1 & Hn & _).
  exists e, q1. split; [done|]. intros x -> Hb Hf.
  destruct (next_time q s _ _ q1 Hmir Hn) as (_ & Hle & Hall & Hown). destruct (Hown x eq_refl) as [Hsx Hwx].
  assert (reach c acc (with_now (sv_time q1) s)) as Hr1 by (by apply reach_time).
  assert (due x (with_now (sv_time q1) s)) as Hd by (by destruct x).
  destruct (handle_ok c Hc acc _ x (reach_inv c Hc _ _ Hr1) Hd Hf) as (s1 & Hh & Hi1 & Hn1 & Hlt).
  destruct (next_shows q s _ q1 Hmir Hn) as [Hsh _].
  destruct (post_mirrors acc q1 _ _ s1 (Hsh x eq_refl) Hi1 Hn1) as (q2 & Hq2 & _).
  exists s1, q2. do 2 (split; [done|]). split; [eapply sim_own; [done..|constructor]|done].
Qed.

End Simulation.

#[local] Existing Instances Loop.queue_service Loop.queue_service_laws.

(** ** Theorems *)

(** C29: The main loop over the event queue refines the transition system of
    the controller, for a configuration that satisfies [cfg_ok].  In a run of
    the loop from a queue without events of the controller, in which the
    controller's code makes the calls of the queue that take its events from
    their flags and times before a step to those after it, and other
    components schedule, deschedule and reschedule events of their own only,
    the states of the controller are reachable states, the queue always holds
    the controller's events as they are flagged, and the event the loop takes
    off next is to run, passes over no event of the controller, and is due
    when it is the controller's. *)
Theorem main_loop_refines c accepted (q : EQ.EventQueue) s :
  cfg_ok c → sim c accepted q s → reach c accepted s ∧ mirrors q s ∧
  (∀ e run q1, Loop.doSimLoop_body q = Ok (e, run, q1) →
     run = true ∧ now s ≤ EQ.curTick q1 ∧
     (∀ x, scheduled (event_of x s) = true → EQ.curTick q1 ≤ when (event_of x s)) ∧
     (∀ x, e = id_of x → due x (with_now (EQ.curTick q1) s))).
Proof.
  intros Hc Hs. destruct (sim_ok c Hc _ _ _ Hs) as [Hr Hm]. split; [done|]. split; [done|].
  intros e run q1 Hn. destruct (next_time q s e run q1 Hm Hn) as (Hrun & Hle & Hall & Hx).
  do 3 (split; [done|]). intros x Hex. destruct (Hx x Hex). by destruct x.
Qed.

(** The main loop makes progress.  A request to the controller and the
    handler of each of its events run to the end, and all their calls of the
    event queue succeed, so the run goes on; as long as a request is not
    served the loop finds a next event without failing an assertion, and each
    event of the controller lowers the work left. *)
Theorem main_loop_progress c accepted (q : EQ.EventQueue) s :
  cfg_ok c → sim c accepted q s →
  (∀ p, pkt_ok c p → ∃ b s1 q1, recvTimingReq c p s = Ok (b, s1) ∧ post sources (slots s) (slots s1) q = Ok q1 ∧
     sim c (if b then p :: accepted else accepted) q1 s1) ∧
  (¬ all_served c accepted s →
   ∃ e q1, Loop.doSimLoop_body q = Ok (e, true, q1) ∧
     ∀ x, e = id_of x → EQ.curTick q1 < MaxTick → fits c x (with_now (EQ.curTick q1) s) →
     ∃ s1 q2, handle c x (with_now (EQ.curTick q1) s) = Ok s1 ∧
       post sources (taken x (slots s)) (slots s1) q1 = Ok q2 ∧ sim c accepted q2 s1 ∧ workload s1 < workload s).
Proof. intros Hc Hs. split; [intros p; by apply recv_follow|intros Hn; exact (next_follow c Hc accepted q s Hs Hn)]. Qed.

(** The event queue with the controller's events and one of another
    component, at the start. *)
Definition start_queue : EQ.EventQueue :=
  EQ.mkQueue {[0 := EQ.no_event 0; 1 := EQ.no_event 0; 2 := EQ.no_event 0; 3 := EQ.no_event 0;
               4 := EQ.no_event 0]} None 0.

Lemma start_sim : sim (sample_config 1) [] start_queue (initial (sample_config 1)).
Proof.
  apply (sim_init _ start_queue ∅); [|done|].
  - exists []. split; [|split; [|split; [done|]]].
    + exists []. split; [by repeat constructor|]. split; [done|]. intros x e He. cbn in He.
      repeat (apply lookup_insert_Some in He as [[_ <-]|[_ He]]; [done|]).
      apply lookup_singleton_Some in He as [_ <-]. done.
    + intros x e He. cbn in He.
      repeat (apply lookup_insert_Some in He as [[_ <-]|[_ He]]; [done|]).
      apply lookup_singleton_Some in He as [_ <-]. done.
    + intros x t Hx. by rewrite lookup_empty in Hx.
  - intros x. split; [destruct x; by eexists|done].
Qed.

(** The same after a read is received. *)
Lemma busy_sim :
  ∃ s (q : EQ.EventQueue),
    recvTimingReq (sample_config 1) (read_req 1 0x30000100 64 0) (initial (sample_config 1)) = Ok (true, s) ∧
    sim (sample_config 1) [read_req 1 0x30000100 64 0] q s.
Proof.
  destruct (recv_follow (sample_config 1) sample_config_ok [] start_queue (initial (sample_config 1)) (read_req 1 0x30000100 64 0)
    start_sim) as (b & s & q & Hr & _ & Hs); [apply pkt_okb_ok; vm_compute; reflexivity|].
  assert (b = true) as -> by (vm_compute in Hr; congruence). by exists s, q.
Qed.

Lemma main_loop_refines_witness :
  ∃ s (q : EQ.EventQueue), sim (sample_config 1) [read_req 1 0x30000100 64 0] q s ∧
    reach (sample_config 1) [read_req 1 0x30000100 64 0] s ∧ mirrors q s.
Proof.
  destruct busy_sim as (s & q & _ & Hs). exists s, q. split; [exact Hs|].
  destruct (main_loop_refines (sample_config 1) _ q s sample_config_ok Hs) as (Hr & Hm & _). split; [exact Hr|exact Hm].
Defined.

Lemma main_loop_progress_witness :
  ∃ s (q : EQ.EventQueue) e q1, sim (sample_config 1) [read_req 1 0x30000100 64 0] q s ∧
    Loop.doSimLoop_body q = Ok (e, true, q1).
Proof.
  destruct busy_sim as (s & q & Hr & Hs). exists s, q.
  destruct (main_loop_progress (sample_config 1) _ q s sample_config_ok Hs) as [_ Hnext].
  destruct Hnext as (e & q1 & Hn & _).
  - intros Hall. pose proof (as_reads _ _ _ Hall) as Hq. vm_compute in Hr. injection Hr as <-.
    vm_compute in Hq. discriminate.
  - exists e, q1. split; [exact Hs|exact Hn].
Defined.

End Sim.
