(* ===== verification/SimpleMem.v ===== *)
(** * Simple memory ([mem/simple_mem.cc])

    An abstract memory with a latency and a bandwidth.  The queue of
    responses is a list, the two events are the ticks they are scheduled for.
    The random part of the latency is drawn by the caller of the model; the
    product of the size and the bandwidth, a floating-point number in the
    source, is the function [duration].  While a response is being sent the
    peer may call back with new requests: they are part of its reply. *)

From S2P Require Import Prelude.
From S2P Require Import AddrRange.
From S2P Require Import MemCmd.
From S2P Require Import Packet.
From S2P Require Import PacketQueue.
From S2P Require Import AbstractMem.

Module SMem.
Import MemCmd Pkt AbsMem.

(** ** Definitions *)
Record SimpleMemory := mkMem {
  mem : AbstractMemory;
  host : Host;
  latency : Z;
  latency_var : Z;
  duration : Z → Z;
  packetQueue : list PQ.DeferredPacket;
  isBusy : bool;
  retryReq : bool;
  retryResp : bool;
  releaseEvent : option Z;
  dequeueEvent : option Z;
  drainState : PQ.DrainState }.

Definition SimpleMemory_new (m : AbstractMemory) (h : Host) (lat var : Z) (dur : Z → Z) : SimpleMemory :=
  mkMem m h lat var dur [] false false false None None PQ.Running.

Definition set_mem (m : AbstractMemory) (h : Host) (s : SimpleMemory) : SimpleMemory :=
  mkMem m h (latency s) (latency_var s) (duration s) (packetQueue s) (isBusy s) (retryReq s)
    (retryResp s) (releaseEvent s) (dequeueEvent s) (drainState s).
Definition set_queue (l : list PQ.DeferredPacket) (s : SimpleMemory) : SimpleMemory :=
  mkMem (mem s) (host s) (latency s) (latency_var s) (duration s) l (isBusy s) (retryReq s)
    (retryResp s) (releaseEvent s) (dequeueEvent s) (drainState s).
Definition set_busy (b r : bool) (e : option Z) (s : SimpleMemory) : SimpleMemory :=
  mkMem (mem s) (host s) (latency s) (latency_var s) (duration s) (packetQueue s) b r
    (retryResp s) e (dequeueEvent s) (drainState s).
Definition set_resp (r : bool) (e : option Z) (s : SimpleMemory) : SimpleMemory :=
  mkMem (mem s) (host s) (latency s) (latency_var s) (duration s) (packetQueue s) (isBusy s) (retryReq s)
    r (releaseEvent s) e (drainState s).
Definition set_drain (d : PQ.DrainState) (s : SimpleMemory) : SimpleMemory :=
  mkMem (mem s) (host s) (latency s) (latency_var s) (duration s) (packetQueue s) (isBusy s) (retryReq s)
    (retryResp s) (releaseEvent s) (dequeueEvent s) d.

(** [draw] is what [random_mt.random(0, latency_var)] returns. *)
Definition getLatency (draw : Z) (s : SimpleMemory) : Z :=
  latency s + (if latency_var s =? 0 then 0 else draw).

Definition recvAtomic (draw : Z) (p : Packet) (s : SimpleMemory) : res (Z * Packet * SimpleMemory) :=
  panic_if (cacheResponding p);;
  '(m, h, p, _) ← access (mem s) (host s) p;
  Ok (getLatency draw s, p, set_mem m h s).

Definition recvFunctional (p : Packet) (s : SimpleMemory) : res (Packet * SimpleMemory) :=
  '(h, p) ← functionalAccess (mem s) (host s) p;
  '(_, p, l) ← PQ.satisfy_loop p (packetQueue s);
  Ok (p, set_queue l (set_mem (mem s) h s)).

(** The search from the end, on the reversed list: a response is put behind
    the last one that is not later or that has its address, and never in
    front of the first.  The code decrements [packetQueue.end()] before it knows
    that the list has an element, which is undefined for an empty list; there
    the end of a circular list is taken to precede itself, as in libstdc++, so
    that the search stops at once and the response is put in the list. *)
Fixpoint insert_rev (d : PQ.DeferredPacket) (l : list PQ.DeferredPacket) : list PQ.DeferredPacket :=
  match l with
  | [] => [d]
  | [i] => [d; i]
  | i :: l =>
      if (PQ.tick d <? PQ.tick i) && negb (PQ.matchAddr_pkt (PQ.pkt i) (PQ.pkt d)) then i :: insert_rev d l
      else d :: i :: l
  end.
Definition insert_response (d : PQ.DeferredPacket) (l : list PQ.DeferredPacket) : list PQ.DeferredPacket :=
  rev (insert_rev d (rev l)).

(** [schedule]: an event that is scheduled, or in the past, fails an
    assertion. *)
Definition schedule (now : Z) (e : option Z) (when : Z) : res (option Z) :=
  assertb (now <=? when);; assertb (match e with Some _ => false | None => true end);; Ok (Some when).

(** A request with its delays and the two random numbers it uses. *)
Record incoming := mkIncoming { in_pkt : Packet; in_delay : Z; in_draw1 : Z; in_draw2 : Z }.

Definition recvTimingReq (now : Z) (i : incoming) (s : SimpleMemory) : res (bool * SimpleMemory) :=
  let p := in_pkt i in
  panic_if (cacheResponding p);;
  panic_if (negb (isRead (cmd p) || isWrite (cmd p)));;
  if retryReq s then Ok (false, s)
  else if isBusy s then Ok (false, set_busy true true (releaseEvent s) s)
  else
    let d := duration s (size p) in
    s ← (if d =? 0 then Ok s
         else e ← schedule now (releaseEvent s) (now + d); Ok (set_busy true (retryReq s) e s));
    let needs := needsResponse (cmd p) in
    '(_, p, s) ← recvAtomic (in_draw1 i) p s;
    if needs then
      assertb (isResponse (cmd p));;
      let when_to_send := now + in_delay i + getLatency (in_draw2 i) s in
      let s := set_queue (insert_response (PQ.mkDeferred when_to_send p) (packetQueue s)) s in
      if negb (retryResp s) && match dequeueEvent s with None => true | Some _ => false end then
        match last (packetQueue s) with
        | None => Err Undef
        | Some back => e ← schedule now (dequeueEvent s) (PQ.tick back); Ok (true, set_resp (retryResp s) e s)
        end
      else Ok (true, s)
    else Ok (true, s).

(** Whether the port is told to retry. *)
Definition release (s : SimpleMemory) : res (bool * SimpleMemory) :=
  assertb (isBusy s);;
  Ok (retryReq s, set_busy false false None s).

(** The peer's answer to a response: whether it takes it, and the requests
    it sends in the course of the call, at the same tick. *)
Record reply := mkReply { accepted : bool; during : list incoming }.

(** Requests sent one after the other, with the ones the memory took. *)
Fixpoint requests_in (now : Z) (l : list incoming) (s : SimpleMemory) : res (list Packet * SimpleMemory) :=
  match l with
  | [] => Ok ([], s)
  | i :: l =>
      '(taken, s) ← recvTimingReq now i s;
      '(ps, s) ← requests_in now l s;
      Ok ((if taken : bool then [in_pkt i] else []) ++ ps, s)
  end.

(** [dequeue], with the requests taken meanwhile and the response sent. *)
Definition dequeue (now : Z) (r : reply) (s : SimpleMemory) : res (list Packet * list Packet * SimpleMemory) :=
  match packetQueue s with
  | [] => Err AssertFail
  | d :: _ =>
      '(ps, s) ← requests_in now (during r) s;
      let s := set_resp (negb (accepted r)) (dequeueEvent s) s in
      if accepted r then
        let s := set_queue (tail (packetQueue s)) s in
        match packetQueue s with
        | front :: _ => Ok (ps, [PQ.pkt d], set_resp false (Some (Z.max (PQ.tick front) now)) s)
        | [] => Ok (ps, [PQ.pkt d], match drainState s with PQ.Draining => set_drain PQ.Drained s | _ => s end)
        end
      else Ok (ps, [], s)
  end.

(** The event is no longer scheduled when it runs. *)
Definition process_dequeue (now : Z) (r : reply) (s : SimpleMemory) :
    res (list Packet * list Packet * SimpleMemory) :=
  dequeue now r (set_resp (retryResp s) None s).
Definition recvRespRetry (now : Z) (r : reply) (s : SimpleMemory) :
    res (list Packet * list Packet * SimpleMemory) :=
  assertb (retryResp s);; dequeue now r s.

Definition drain (s : SimpleMemory) : SimpleMemory :=
  set_drain (match packetQueue s with [] => PQ.Drained | _ => PQ.Draining end) s.
(** ** Specification *)

(** The requests one after the other on the memory of the specification, with
    the responses they are due. *)
Fixpoint serve (sp : Spec) (ps : list Packet) : Spec * list Packet :=
  match ps with
  | [] => (sp, [])
  | p :: ps =>
      let '(sp, read, sc) := spec_step sp p (default [] (data p)) in
      let '(sp, l) := serve sp ps in
      (sp, (if needsResponse (cmd p) then [answer p read sc] else []) ++ l)
  end.

(** What the memory is called with: by its port or by its events. *)
Inductive op :=
  | Request (i : incoming)
  | Release
  | Dequeue (r : reply)
  | RespRetry (r : reply)
  | Drain.

Definition exec (now : Z) (o : op) (s : SimpleMemory) : res (list Packet * list Packet * SimpleMemory) :=
  match o with
  | Request i => '(ps, s) ← requests_in now [i] s; Ok (ps, [], s)
  | Release => '(_, s) ← release s; Ok ([], [], s)
  | Dequeue r => process_dequeue now r s
  | RespRetry r => recvRespRetry now r s
  | Drain => Ok ([], [], drain s)
  end.

(** Requests the system may send. *)
Record sendable (s : SimpleMemory) (i : incoming) : Prop := {
  sd_acc : acceptable (mem s) (in_pkt i) (default [] (data (in_pkt i)));
  sd_resp : cacheResponding (in_pkt i) = false;
  sd_rw : isRead (cmd (in_pkt i)) || isWrite (cmd (in_pkt i)) = true;
  sd_delay : 0 ≤ in_delay i;
  sd_draw : 0 ≤ in_draw2 i }.

(** A peer that refuses a response does not send requests while it does. *)
Record replies (s : SimpleMemory) (r : reply) : Prop := {
  rp_ok : Forall (sendable s) (during r);
  rp_refuse : accepted r = false → during r = [] }.

Definition may (now : Z) (o : op) (s : SimpleMemory) : Prop :=
  match o with
  | Request i => sendable s i
  | Release => releaseEvent s = Some now
  | Dequeue r => dequeueEvent s = Some now ∧ replies s r
  | RespRetry r => retryResp s = true ∧ replies s r
  | Drain => True
  end.

(** Time does not pass a scheduled event. *)
Definition not_late (now : Z) (s : SimpleMemory) : Prop :=
  (∀ t, releaseEvent s = Some t → now ≤ t) ∧ (∀ t, dequeueEvent s = Some t → now ≤ t).

(** The states the memory gets to, with the requests it has taken and the
    responses that have left. *)
Inductive reach (s0 : SimpleMemory) : Z → SimpleMemory → list Packet → list Packet → Prop :=
  | reach_new : reach s0 0 s0 [] []
  | reach_step t now o s s' taken sent ps rs :
      reach s0 t s taken sent → t ≤ now → not_late now s → may now o s →
      exec now o s = Ok (ps, rs, s') →
      reach s0 now s' (taken ++ ps) (sent ++ rs).

(** The events that are scheduled. *)
Record events_ok (now : Z) (s : SimpleMemory) : Prop := {
  eo_busy : isBusy s = bool_decide (is_Some (releaseEvent s));
  eo_retry : retryReq s = true → isBusy s = true;
  eo_dequeue : is_Some (dequeueEvent s) ↔ packetQueue s ≠ [] ∧ retryResp s = false;
  eo_waits : retryResp s = true → packetQueue s ≠ [];
  eo_time : not_late now s }.

Definition params_ok (s : SimpleMemory) : Prop := 0 ≤ latency s ∧ ∀ n, 0 ≤ n → 0 ≤ duration s n.

Definition same_address (q p : Packet) : bool := PQ.matchAddr_pkt q p.
Definition to (q : Packet) (l : list Packet) : list Packet := List.filter (same_address q) l.
Definition queued (s : SimpleMemory) : list Packet := PQ.pkt <$> packetQueue s.

(** ** The queue *)

Lemma insert_place d l : ∃ l1 l2, insert_response d l = l1 ++ d :: l2 ∧ l = l1 ++ l2 ∧
  (l ≠ [] → l1 ≠ []) ∧ Forall (λ x, PQ.tick d < PQ.tick x ∧ PQ.matchAddr_pkt (PQ.pkt x) (PQ.pkt d) = false) l2.
Proof.
  unfold insert_response. pose proof (rev_involutive l) as Hl. set (r := rev l) in *. clearbody r. subst l.
  induction r as [|i r IH].
  { exists [], []. split_and!; [done|done|done|constructor]. }
  destruct r as [|j r].
  { exists [i], []. split_and!; [done|done|done|constructor]. }
  cbn [insert_rev]. destruct ((PQ.tick d <? PQ.tick i) && negb _) eqn:Hc.
  - destruct IH as (l1 & l2 & H1 & H2 & H3 & H4). exists l1, (l2 ++ [i]).
    apply andb_true_iff in Hc as [Ht%Z.ltb_lt Hm%negb_true_iff]. cbn [rev] in *. split_and!.
    + etransitivity; [exact (f_equal (.++ [i]) H1)|]. by rewrite <- app_assoc.
    + etransitivity; [exact (f_equal (.++ [i]) H2)|]. by rewrite <- app_assoc.
    + intros _. apply H3. by destruct (rev r).
    + apply Forall_app. by split; [|repeat constructor].
  - exists (rev (i :: j :: r)), []. split_and!; [by cbn [rev]|by rewrite app_nil_r|done|constructor].
Qed.

(** A response does not overtake one to its address. *)
Lemma insert_order q d l : to q (PQ.pkt <$> insert_response d l) = to q ((PQ.pkt <$> l) ++ [PQ.pkt d]).
Proof.
  destruct (insert_place d l) as (l1 & l2 & -> & -> & _ & Hl). unfold to.
  rewrite !fmap_app, !List.filter_app, <- app_assoc. f_equal. cbn [fmap list_fmap].
  cbn [List.filter]. destruct (same_address q (PQ.pkt d)) eqn:Hq;
    [|by rewrite app_nil_r].
  assert (List.filter (same_address q) (PQ.pkt <$> l2) = []) as ->; [|done].
  induction Hl as [|x l2 [_ Hx] _ IH]; [done|]. cbn [fmap list_fmap List.filter].
  destruct (same_address q (PQ.pkt x)) eqn:Hxq; [|done]. exfalso. revert Hq Hxq Hx. clear.
  unfold same_address, PQ.matchAddr_pkt, matchAddr.
  intros [H1%Z.eqb_eq H2%Bool.eqb_prop]%andb_true_iff [H3%Z.eqb_eq H4%Bool.eqb_prop]%andb_true_iff H.
  by rewrite <- H1, <- H2, <- H3, <- H4, Z.eqb_refl, Bool.eqb_reflx in H.
Qed.

(** Nor does it take the place of the first; the last is not sent earlier
    than it would be if it was alone. *)
Lemma insert_head d l : l ≠ [] → head (insert_response d l) = head l.
Proof.
  intros Hl. destruct (insert_place d l) as (l1 & l2 & -> & -> & Hne & _). by destruct l1; [destruct (Hne Hl)|].
Qed.
Lemma insert_length d l : length (insert_response d l) = S (length l).
Proof. destruct (insert_place d l) as (l1 & l2 & -> & -> & _ & _). rewrite !length_app. cbn. lia. Qed.
Lemma insert_last d l : ∃ b, last (insert_response d l) = Some b ∧ PQ.tick d ≤ PQ.tick b.
Proof.
  destruct (insert_place d l) as (l1 & l2 & -> & -> & _ & Hl). rewrite last_app_cons.
  destruct (last l2) as [b|] eqn:Hb.
  - exists b. rewrite last_cons, Hb. split; [done|]. apply last_Some_elem_of in Hb.
    rewrite Forall_forall in Hl. by apply Hl in Hb as [? _]; lia.
  - exists d. rewrite last_cons, Hb. split; [done|lia].
Qed.

(** ** Requests *)

(** What requests leave, where [rs] are the responses they are due. *)
Record received (now : Z) (s : SimpleMemory) (rs : list Packet) (s' : SimpleMemory) : Prop := {
  rc_range : range (mem s') = range (mem s);
  rc_latency : latency s' = latency s;
  rc_duration : duration s' = duration s;
  rc_resp : retryResp s' = retryResp s;
  rc_busy : isBusy s' = bool_decide (is_Some (releaseEvent s'));
  rc_retry : retryReq s' = true → isBusy s' = true;
  rc_release : ∀ t, releaseEvent s' = Some t → releaseEvent s = Some t ∨ now ≤ t;
  rc_order : ∀ q, to q (queued s') = to q (queued s ++ rs);
  rc_head : packetQueue s ≠ [] → head (packetQueue s') = head (packetQueue s);
  rc_length : length (packetQueue s') = (length (packetQueue s) + length rs)%nat;
  rc_dequeue : (dequeueEvent s' = dequeueEvent s ∧ (rs = [] ∨ retryResp s = true ∨ is_Some (dequeueEvent s))) ∨
    (rs ≠ [] ∧ retryResp s = false ∧ ∃ t, dequeueEvent s' = Some t ∧ now ≤ t) }.

Lemma to_app q l1 l2 : to q (l1 ++ l2) = to q l1 ++ to q l2.
Proof. apply List.filter_app. Qed.

Lemma received_nil now s : isBusy s = bool_decide (is_Some (releaseEvent s)) →
  (retryReq s = true → isBusy s = true) → received now s [] s.
Proof. intros H1 H2. split; auto. intros q. by rewrite app_nil_r. Qed.

Lemma received_trans now s1 s2 s3 rs1 rs2 : received now s1 rs1 s2 → received now s2 rs2 s3 →
  received now s1 (rs1 ++ rs2) s3.
Proof.
  intros H1 H2. split; [by rewrite (rc_range _ _ _ _ H2), (rc_range _ _ _ _ H1)
    |by rewrite (rc_latency _ _ _ _ H2), (rc_latency _ _ _ _ H1)
    |by rewrite (rc_duration _ _ _ _ H2), (rc_duration _ _ _ _ H1)
    |by rewrite (rc_resp _ _ _ _ H2), (rc_resp _ _ _ _ H1)
    |apply H2|apply H2| | | | |].
  - intros t [Ht|Ht]%(rc_release _ _ _ _ H2); [by apply (rc_release _ _ _ _ H1)|by right].
  - intros q. by rewrite (rc_order _ _ _ _ H2), to_app, (rc_order _ _ _ _ H1), <- to_app, app_assoc.
  - intros Hne. rewrite (rc_head _ _ _ _ H2), (rc_head _ _ _ _ H1); [done|done|].
    intros He. pose proof (rc_length _ _ _ _ H1) as Hl. rewrite He in Hl. by destruct (packetQueue s1).
  - rewrite (rc_length _ _ _ _ H2), (rc_length _ _ _ _ H1), length_app. lia.
  - pose proof (rc_resp _ _ _ _ H1) as Hr. destruct (rc_dequeue _ _ _ _ H1) as [[He1 Hc1]|(Hn1 & Hr1 & t1 & Ht1 & Hle1)],
      (rc_dequeue _ _ _ _ H2) as [[He2 Hc2]|(Hn2 & Hr2 & t2 & Ht2 & Hle2)].
    + left. split; [congruence|]. rewrite Hr, He1 in Hc2.
      destruct Hc1 as [->|?], Hc2 as [->|?]; auto.
    + right. split; [by destruct rs1|]. split; [congruence|eauto].
    + right. split; [by destruct rs1|]. split; [done|exists t1]. split; [congruence|done].
    + right. split; [by destruct rs1|]. split; [done|eauto].
Qed.

Lemma sendable_keeps now s rs s' i : received now s rs s' → sendable s i → sendable s' i.
Proof.
  intros Hr [Ha ? ? ? ?]. split; try done. destruct Ha. split; try done. by rewrite (rc_range _ _ _ _ Hr).
Qed.
Lemma params_keeps now s rs s' : received now s rs s' → params_ok s → params_ok s'.
Proof. intros Hr [? ?]. split; [by rewrite (rc_latency _ _ _ _ Hr)|by rewrite (rc_duration _ _ _ _ Hr)]. Qed.

(** The part of a request that is done at once. *)
Lemma atomic_access_ok draw p s sp : acceptable (mem s) p (default [] (data p)) → cacheResponding p = false →
  simulates (mem s) (host s) sp →
  let '(sp', read, sc) := spec_step sp p (default [] (data p)) in
  ∃ m h, recvAtomic draw p s = Ok (getLatency draw s, answer p read sc, set_mem m h s) ∧
    simulates m h sp' ∧ range m = range (mem s).
Proof.
  intros Ha Hc Hs. pose proof (access_steps _ _ _ _ _ Ha Hs) as H. destruct (spec_step _ _ _) as [[sp' read] sc].
  destruct H as (m & h & cl & Heq & Hsim & Hr & _). exists m, h. unfold recvAtomic.
  rewrite Hc, Heq. cbn [panic_if assertb negb mbind res_bind]. done.
Qed.

(** The command of the packet that comes back. *)
Lemma answer_response p read sc : isRequest (cmd p) = true → cacheResponding p = false → needsResponse (cmd p) = true →
  isResponse (cmd (answer p read sc)) = true.
Proof.
  intros Hq Hc Hn. unfold answer, ignored. rewrite Hc, Hn.
  rewrite !bool_decide_false by (intros He; by rewrite He in Hn). cbn [negb orb andb set_flags set_cmd cmd].
  revert Hq Hn. by destruct (cmd p).
Qed.

Definition admits (s : SimpleMemory) : bool := negb (retryReq s) && negb (isBusy s).

(** A response put in the queue, and the event it schedules. *)
Definition enqueue (now : Z) (d : PQ.DeferredPacket) (s : SimpleMemory) : res (bool * SimpleMemory) :=
  let s := set_queue (insert_response d (packetQueue s)) s in
  if negb (retryResp s) && match dequeueEvent s with None => true | Some _ => false end then
    match last (packetQueue s) with
    | None => Err Undef
    | Some back => e ← schedule now (dequeueEvent s) (PQ.tick back); Ok (true, set_resp (retryResp s) e s)
    end
  else Ok (true, s).

Lemma enqueue_ok now d s : isBusy s = bool_decide (is_Some (releaseEvent s)) →
  (retryReq s = true → isBusy s = true) → now ≤ PQ.tick d →
  ∃ s', enqueue now d s = Ok (true, s') ∧ mem s' = mem s ∧ host s' = host s ∧ received now s [PQ.pkt d] s'.
Proof.
  intros Hb Hr Ht. unfold enqueue. cbn [packetQueue set_queue retryResp dequeueEvent].
  assert (Hq : ∀ s', packetQueue s' = insert_response d (packetQueue s) →
    (∀ q, to q (queued s') = to q (queued s ++ [PQ.pkt d])) ∧
    (packetQueue s ≠ [] → head (packetQueue s') = head (packetQueue s)) ∧
    length (packetQueue s') = (length (packetQueue s) + length [PQ.pkt d])%nat).
  { intros s' He. unfold queued. rewrite He. split_and!; [intros q; apply insert_order|apply insert_head|].
    rewrite insert_length. cbn. lia. }
  destruct (negb (retryResp s) && _) eqn:Hc.
  - apply andb_true_iff in Hc as [Hrr%negb_true_iff Hn]. destruct (dequeueEvent s) eqn:He; [done|].
    destruct (insert_last d (packetQueue s)) as (b & -> & Hle).
    unfold schedule. rewrite (proj2 (Z.leb_le now (PQ.tick b))) by lia. cbn [assertb mbind res_bind].
    eexists. split; [done|]. split; [done|]. split; [done|].
    split; try done; [by left|by apply Hq|by apply Hq|by apply Hq|].
    right. split; [done|]. split; [done|]. exists (PQ.tick b). split; [done|lia].
  - eexists. split; [done|]. split; [done|]. split; [done|].
    split; try done; [by left|by apply Hq|by apply Hq|by apply Hq|].
    left. split; [done|right]. destruct (retryResp s); [by left|]. right. by destruct (dequeueEvent s).
Qed.

(** The start of a request: the memory is busy until its release. *)
Lemma occupy_ok now d s : 0 ≤ d → isBusy s = bool_decide (is_Some (releaseEvent s)) →
  admits s = true →
  ∃ s', (if d =? 0 then Ok s
         else e ← schedule now (releaseEvent s) (now + d); Ok (set_busy true (retryReq s) e s)) = Ok s' ∧
    mem s' = mem s ∧ host s' = host s ∧ received now s [] s'.
Proof.
  intros Hd Hb [Hr%negb_true_iff Hnb%negb_true_iff]%andb_true_iff. destruct (d =? 0).
  { exists s. split; [done|]. split; [done|]. split; [done|]. apply received_nil; [done|congruence]. }
  rewrite Hnb in Hb. symmetry in Hb. apply bool_decide_eq_false in Hb.
  destruct (releaseEvent s) eqn:He; [by destruct Hb|]. unfold schedule.
  rewrite (proj2 (Z.leb_le now (now + d))) by lia. cbn [assertb mbind res_bind].
  eexists. split; [done|]. split; [done|]. split; [done|]. split; auto; cbn [set_busy releaseEvent].
  - intros t [= <-]. right. lia.
  - intros q. by rewrite app_nil_r.
Qed.

Lemma take_ok now i s sp : sendable s i → params_ok s → simulates (mem s) (host s) sp →
  isBusy s = bool_decide (is_Some (releaseEvent s)) → (retryReq s = true → isBusy s = true) →
  let '(sp', rs) := serve sp (if admits s then [in_pkt i] else []) in
  ∃ s', recvTimingReq now i s = Ok (admits s, s') ∧ simulates (mem s') (host s') sp' ∧ received now s rs s'.
Proof.
  intros [Ha Hc Hrw Hdl Hdr] [Hlat Hdur] Hsim Hb Hr. unfold recvTimingReq, admits. rewrite Hc, Hrw.
  cbn [panic_if assertb negb mbind res_bind].
  destruct (retryReq s) eqn:Hrq; cbn [negb andb serve].
  { exists s. split; [done|]. split; [done|]. apply received_nil; [done|intros _; by apply Hr]. }
  destruct (isBusy s) eqn:Hbz; cbn [negb andb serve].
  { eexists. split; [done|]. split; [done|]. split; auto. intros q. by rewrite app_nil_r. }
  destruct (occupy_ok now (duration s (size (in_pkt i))) s) as (s1 & Ho & Hm1 & Hh1 & Hr1);
    [apply Hdur; rewrite <- (ac_size _ _ _ Ha); lia|by rewrite Hbz|unfold admits; by rewrite Hrq, Hbz|].
  rewrite Hrq in Ho. rewrite Ho. cbn [mbind res_bind].
  pose proof (atomic_access_ok (in_draw1 i) (in_pkt i) s1 sp) as Hat. rewrite Hm1, Hh1 in Hat. specialize (Hat Ha Hc Hsim).
  destruct (spec_step _ _ _) as [[sp' read] sc]. destruct Hat as (m & h & -> & Hs' & Hrange).
  cbn [mbind res_bind]. rewrite app_nil_r.
  assert (Hr2 : received now s [] (set_mem m h s1)).
  { destruct Hr1. by split. }
  destruct (needsResponse (cmd (in_pkt i))) eqn:Hn; [|by eexists].
  rewrite answer_response by (done || apply Ha). cbn [assertb mbind res_bind].
  destruct (enqueue_ok now
    (PQ.mkDeferred (now + in_delay i + getLatency (in_draw2 i) (set_mem m h s1)) (answer (in_pkt i) read sc))
    (set_mem m h s1)) as (s' & Heq & Hm' & Hh' & Hr'); [apply Hr2|apply Hr2| |].
  { cbn [PQ.tick]. unfold getLatency. rewrite (rc_latency _ _ _ _ Hr2). destruct (latency_var _ =? 0); lia. }
  exists s'. split; [exact Heq|]. rewrite Hm', Hh'. split; [done|].
  exact (received_trans _ _ _ _ _ _ Hr2 Hr').
Qed.

Lemma serve_app sp l1 l2 : serve sp (l1 ++ l2) =
  let '(sp, r1) := serve sp l1 in let '(sp, r2) := serve sp l2 in (sp, r1 ++ r2).
Proof.
  revert sp. induction l1 as [|p l1 IH]; intros sp; cbn [app serve]; [by destruct (serve sp l2)|].
  destruct (spec_step _ _ _) as [[sp1 read] sc]. rewrite IH. destruct (serve sp1 l1) as [sp2 r1].
  destruct (serve sp2 l2) as [sp3 r2]. by rewrite app_assoc.
Qed.

Lemma requests_ok now l s sp : Forall (sendable s) l → params_ok s → simulates (mem s) (host s) sp →
  isBusy s = bool_decide (is_Some (releaseEvent s)) → (retryReq s = true → isBusy s = true) →
  ∃ ps s', requests_in now l s = Ok (ps, s') ∧
    let '(sp', rs) := serve sp ps in simulates (mem s') (host s') sp' ∧ received now s rs s'.
Proof.
  revert s sp. induction l as [|i l IH]; intros s sp Hl Hp Hsim Hb Hr.
  { exists [], s. split; [done|]. cbn. split; [done|by apply received_nil]. }
  apply Forall_cons in Hl as [Hi Hl]. cbn [requests_in].
  pose proof (take_ok now i s sp Hi Hp Hsim Hb Hr) as H.
  destruct (serve sp (if admits s then [in_pkt i] else [])) as [sp1 rs1] eqn:Hs1.
  destruct H as (s1 & -> & Hsim1 & Hr1). cbn [mbind res_bind].
  destruct (IH s1 sp1) as (ps & s2 & -> & H2); [|by eapply params_keeps|done|apply Hr1|apply Hr1|].
  { eapply Forall_impl; [exact Hl|]. intros j. by eapply sendable_keeps. }
  eexists _, s2. split; [done|]. rewrite serve_app, Hs1. destruct (serve sp1 ps) as [sp2 rs2].
  destruct H2. split; [done|]. by eapply received_trans.
Qed.

(** ** Responses *)

(** What an operation achieves: the requests taken are served in order on the
    memory, and the responses that were queued or are due are sent or queued
    in order. *)
Definition achieves (now : Z) (s : SimpleMemory) (sp : Spec) (r : res (list Packet * list Packet * SimpleMemory)) : Prop :=
  ∃ ps sent s', r = Ok (ps, sent, s') ∧
    let '(sp', rs) := serve sp ps in
    simulates (mem s') (host s') sp' ∧ params_ok s' ∧ events_ok now s' ∧ range (mem s') = range (mem s) ∧
    ∀ q, to q (sent ++ queued s') = to q (queued s ++ rs).

(** The state in which [dequeue] runs. *)
Record at_dequeue (now : Z) (s : SimpleMemory) : Prop := {
  ad_busy : isBusy s = bool_decide (is_Some (releaseEvent s));
  ad_retry : retryReq s = true → isBusy s = true;
  ad_event : dequeueEvent s = None;
  ad_queue : packetQueue s ≠ [];
  ad_time : ∀ t, releaseEvent s = Some t → now ≤ t }.

Lemma dequeue_ok now r s sp : at_dequeue now s → replies s r → params_ok s → simulates (mem s) (host s) sp →
  achieves now s sp (dequeue now r s).
Proof.
  intros [Hb Hr He Hq Ht] [Hl Href] Hp Hsim. unfold achieves, dequeue.
  destruct (packetQueue s) as [|d l0] eqn:Hpq; [done|].
  destruct (requests_ok now (during r) s sp Hl Hp Hsim Hb Hr) as (ps & s1 & Hin & H).
  rewrite Hin. cbn [mbind res_bind]. destruct (accepted r) eqn:Hacc; cbn [negb].
  2: { rewrite Href in Hin by done. cbn in Hin. injection Hin as <- <-. cbn [serve] in *.
    eexists _, _, _. split; [done|]. split; [done|]. split; [done|]. split; [|split; [done|intros q; by rewrite app_nil_r]].
    split; cbn [set_resp dequeueEvent retryResp packetQueue isBusy retryReq releaseEvent]; try done.
    - rewrite He. split; [by intros []|by intros [_ [=]]].
    - intros _. by rewrite Hpq.
    - split; cbn; [done|]. by rewrite He. }
  destruct (serve sp ps) as [sp1 rs] eqn:Hsv. destruct H as [Hs1 Hr1].
  pose proof (rc_head _ _ _ _ Hr1) as Hh. rewrite Hpq in Hh. specialize (Hh ltac:(done)).
  destruct (packetQueue s1) as [|d1 l1] eqn:Hq1; [done|]. injection Hh as ->. cbn [set_resp packetQueue set_queue tail].
  rewrite Hq1. cbn [tail].
  assert (Hord : ∀ q, to q ([PQ.pkt d] ++ (PQ.pkt <$> l1)) = to q (queued s ++ rs)).
  { intros q. rewrite <- (rc_order _ _ _ _ Hr1). unfold queued. by rewrite Hq1. }
  assert (Hp1 : params_ok s1) by (by eapply params_keeps).
  assert (Ht1 : ∀ t, releaseEvent s1 = Some t → now ≤ t).
  { intros t [Hx|Hx]%(rc_release _ _ _ _ Hr1); [by apply Ht|done]. }
  destruct l1 as [|front l1].
  - eexists _, _, _. split; [done|]. rewrite Hsv.
    assert (Hd : dequeueEvent s1 = None).
    { destruct (rc_dequeue _ _ _ _ Hr1) as [[Hx _]|(Hn & _)]; [congruence|].
      pose proof (rc_length _ _ _ _ Hr1) as Hlen. rewrite Hq1, Hpq in Hlen. cbn in Hlen. destruct rs; [done|cbn in Hlen; lia]. }
    cbn [drainState set_queue set_resp]. 
    destruct (drainState s1); (split; [done|split; [done|split; [|split; [apply Hr1|exact Hord]]]]);
      (split; cbn [set_drain set_queue set_resp dequeueEvent retryResp packetQueue isBusy retryReq releaseEvent];
       [apply Hr1|apply Hr1|rewrite Hd; split; [by intros []|by intros []]|done|split; cbn; [done|by rewrite Hd]]).
  - eexists _, _, _. split; [done|]. rewrite Hsv. split; [done|]. split; [done|]. split; [|split; [apply Hr1|exact Hord]].
    split; cbn [set_queue set_resp dequeueEvent retryResp packetQueue isBusy retryReq releaseEvent];
      [apply Hr1|apply Hr1|done|done|split; cbn; [done|intros t [= <-]; lia]].
Qed.

(** A request from outside. *)
Lemma received_events now s rs s' : received now s rs s' → events_ok now s → events_ok now s'.
Proof.
  intros Hr [Hb Hrt Hd Hw [Ht1 Ht2]]. assert (Hlen := rc_length _ _ _ _ Hr).
  assert (Hne : packetQueue s ≠ [] → packetQueue s' ≠ []).
  { intros Hn He. rewrite He in Hlen. by destruct (packetQueue s). }
  assert (Hre := rc_resp _ _ _ _ Hr). split; [apply Hr|apply Hr| | |split].
  - rewrite Hre. destruct (rc_dequeue _ _ _ _ Hr) as [[-> Hc]|(Hn & Hf & t & -> & _)].
    + rewrite Hd. split; [intros [? ?]; auto|]. intros [Hq Hf]. split; [|done]. destruct Hc as [->|[Hx|Hx]];
        [|congruence|by apply Hd in Hx as []]. intros He. rewrite He in Hlen. by destruct (packetQueue s').
    + split; [|done]. intros _. split; [|done]. intros He. rewrite He in Hlen. destruct rs; [done|cbn in Hlen; lia].
  - rewrite Hre. auto.
  - intros t [Hx|Hx]%(rc_release _ _ _ _ Hr); [by apply Ht1|done].
  - intros t Hx. destruct (rc_dequeue _ _ _ _ Hr) as [[He _]|(_ & _ & t' & He & Hle)]; [apply Ht2|]; congruence.
Qed.

Lemma exec_ok now o s sp : events_ok now s → may now o s → params_ok s → simulates (mem s) (host s) sp →
  achieves now s sp (exec now o s).
Proof.
  intros Hev Hmay Hp Hsim. pose proof Hev as [Hb Hrt Hd Hw Ht]. destruct o as [i| |r|r|]; cbn [may exec] in *.
  - destruct (requests_ok now [i] s sp) as (ps & s' & -> & H); [by constructor|done..|]. cbn [mbind res_bind].
    eexists _, _, _. split; [done|]. destruct (serve sp ps) as [sp' rs]. destruct H as [? Hr].
    split; [done|]. split; [by eapply params_keeps|]. split; [by eapply received_events|]. split; [apply Hr|apply Hr].
  - unfold release. rewrite Hb, Hmay. cbn [assertb mbind res_bind]. rewrite bool_decide_true by done.
    cbn [assertb mbind res_bind]. eexists _, _, _. split; [done|]. cbn [serve]. split; [done|]. split; [done|].
    split; [|split; [done|intros q; by rewrite app_nil_r]]. split; cbn; try done. split; [done|apply Ht].
  - destruct Hmay as [He Hre]. assert (is_Some (dequeueEvent s)) as [Hq Hf]%Hd by (by rewrite He).
    apply (dequeue_ok now r (set_resp (retryResp s) None s) sp); [| |done|done].
    + split; try done. apply Ht.
    + destruct Hre as [Hl Hx]. split; [|done]. eapply Forall_impl; [exact Hl|]. intros i []. by split.
  - destruct Hmay as [He Hre]. unfold recvRespRetry. rewrite He. cbn [assertb mbind res_bind].
    apply dequeue_ok; [|done..]. split; [done|done| |by apply Hw|apply Ht].
    destruct (dequeueEvent s) eqn:Hx; [|done]. destruct (proj1 Hd) as [_ Hf]; [done|congruence].
  - eexists _, _, _. split; [done|]. cbn [serve]. split; [done|]. split; [done|].
    split; [|split; [done|intros q; by rewrite app_nil_r]]. by split.
Qed.

(** What holds of every state the memory gets to. *)
Definition served_so_far (sp : Spec) (t : Z) (s : SimpleMemory) (taken sent : list Packet) : Prop :=
  let '(sp', rs) := serve sp taken in
  simulates (mem s) (host s) sp' ∧ params_ok s ∧ events_ok t s ∧ ∀ q, to q (sent ++ queued s) = to q rs.

Lemma step_served sp t now o s taken sent : served_so_far sp t s taken sent → t ≤ now → not_late now s → may now o s →
  ∃ ps rs s', exec now o s = Ok (ps, rs, s') ∧ served_so_far sp now s' (taken ++ ps) (sent ++ rs).
Proof.
  unfold served_so_far. intros H Ht Hl Hm. destruct (serve sp taken) as [sp1 rs1] eqn:Hs.
  destruct H as (Hsim & Hp & Hev & Hq). destruct (exec_ok now o s sp1) as (ps & rs & s' & He & H);
    [destruct Hev; by split|done..|]. exists ps, rs, s'. split; [done|]. rewrite serve_app, Hs.
  destruct (serve sp1 ps) as [sp2 rs2]. destruct H as (? & ? & ? & _ & Ho). split; [done|]. split; [done|]. split; [done|].
  intros q. by rewrite <- app_assoc, to_app, Ho, <- to_app, app_assoc, to_app, Hq, <- to_app.
Qed.

Lemma reach_served sp s0 t s taken sent : served_so_far sp 0 s0 [] [] → reach s0 t s taken sent →
  served_so_far sp t s taken sent.
Proof.
  intros H0 Hr. induction Hr as [|t now o s s' taken sent ps rs _ IH Ht Hl Hm He]; [done|].
  destruct (step_served sp t now o s taken sent IH Ht Hl Hm) as (ps' & rs' & s1 & He' & H). congruence.
Qed.

Lemma new_served sp m h lat var dur : simulates m h sp → 0 ≤ lat → (∀ n, 0 ≤ n → 0 ≤ dur n) →
  served_so_far sp 0 (SimpleMemory_new m h lat var dur) [] [].
Proof. intros Hs Hl Hd. split; [done|]. split; [done|]. split; [|done]. split; cbn; try done. by split; intros [].  Qed.

(** C10: In timing mode the simple memory serves its requests in the order it
    takes them, whatever the interleaving of requests, retries, refused
    responses and its two events, and with any latencies.  In every state it
    gets to, the memory holds what the requests taken leave one after the
    other; the release event is scheduled exactly while it is busy, so a
    refused request is always retried, and the dequeue event exactly when
    there are responses and none waits for its peer; the responses to any one
    address have left, and are queued, in the order of their requests, none
    lost or doubled; and no call or event it may get from there fails. *)
Theorem simple_memory_serves m h sp lat var dur t s taken sent :
  simulates m h sp → 0 ≤ lat → (∀ n, 0 ≤ n → 0 ≤ dur n) →
  reach (SimpleMemory_new m h lat var dur) t s taken sent →
  let '(sp', rs) := serve sp taken in
  simulates (mem s) (host s) sp' ∧ events_ok t s ∧ (∀ q, to q (sent ++ queued s) = to q rs) ∧
  ∀ now o, t ≤ now → not_late now s → may now o s → ∃ r, exec now o s = Ok r.
Proof.
  intros Hs Hl Hd Hr. pose proof (reach_served sp _ _ _ _ _ (new_served sp m h lat var dur Hs Hl Hd) Hr) as H.
  pose proof (λ now o, step_served sp t now o s taken sent H) as Hstep. unfold served_so_far in H.
  destruct (serve sp taken) as [sp' rs]. destruct H as (? & _ & ? & ?). split_and!; [done..|].
  intros now o Ht Hn Hm. destruct (Hstep now o Ht Hn Hm) as (? & ? & ? & ? & _). eauto.
Qed.

(** ** Witness: a store, a load of the same address that is turned away and
    retried, a refused response, and a request in the course of a response. *)
Definition w_store : incoming := mkIncoming (st 0 64 [1; 2; 3; 4]) 5 0 9.
Definition w_load : incoming :=
  mkIncoming (set_data (Some (replicate 4 0)) (createRead (request_by 1 64 4 0))) 0 0 0.
Definition w_start : SimpleMemory := SimpleMemory_new a_memory ∅ 30 10 (λ n, 2 * n).
Definition w_ops : list (Z * op) :=
  [(10, Request w_store); (12, Request w_load); (18, Release); (18, Request w_load);
   (26, Release); (54, Dequeue (mkReply false [])); (60, RespRetry (mkReply true [w_load]));
   (60, Dequeue (mkReply true [])); (68, Release); (90, Dequeue (mkReply true []))].

Fixpoint run (ops : list (Z * op)) (s : SimpleMemory) : res (list Packet * list Packet * SimpleMemory) :=
  match ops with
  | [] => Ok ([], [], s)
  | (now, o) :: ops =>
      '(ps, rs, s) ← exec now o s;
      '(ps', rs', s) ← run ops s;
      Ok (ps ++ ps', rs ++ rs', s)
  end.

Example w_run : match run w_ops w_start with
  | Ok (ps, rs, s) => length ps = 3%nat ∧ (λ p, (cmd p, data p)) <$> rs =
      [(WriteResp, Some [1; 2; 3; 4]); (ReadResp, Some [1; 2; 3; 4]); (ReadResp, Some [1; 2; 3; 4])] ∧
      packetQueue s = []
  | Err _ => False
  end.
Proof. vm_compute. auto. Qed.

Lemma sendable_w s i : range (mem s) = range a_memory → i = w_store ∨ i = w_load → sendable s i.
Proof. intros Hr [-> | ->]; split; try done; split; try done; by rewrite Hr. Qed.

Definition w_state (n : nat) : SimpleMemory :=
  match run (take n w_ops) w_start with Ok (_, _, s) => s | Err _ => w_start end.
Definition w_taken (n : nat) : list Packet :=
  match run (take n w_ops) w_start with Ok (ps, _, _) => ps | Err _ => [] end.
Definition w_sent (n : nat) : list Packet :=
  match run (take n w_ops) w_start with Ok (_, rs, _) => rs | Err _ => [] end.

Lemma w_step n t now o ps rs : reach w_start t (w_state n) (w_taken n) (w_sent n) → t ≤ now →
  (∀ u, releaseEvent (w_state n) = Some u → now ≤ u) → (∀ u, dequeueEvent (w_state n) = Some u → now ≤ u) →
  may now o (w_state n) → exec now o (w_state n) = Ok (ps, rs, w_state (S n)) →
  w_taken (S n) = w_taken n ++ ps → w_sent (S n) = w_sent n ++ rs →
  reach w_start now (w_state (S n)) (w_taken (S n)) (w_sent (S n)).
Proof. intros Hr Ht H1 H2 Hm He -> ->. eapply reach_step; [exact Hr|done|by split|exact Hm|exact He]. Qed.

Local Ltac early := intros ?; vm_compute; (discriminate || by intros [= <-]).
Local Ltac ran := vm_compute; reflexivity.

Lemma w_reach : reach w_start 60 (w_state 7) (w_taken 7) (w_sent 7).
Proof.
  assert (Hload : ∀ n, range (mem (w_state n)) = range a_memory → sendable (w_state n) w_load)
    by (intros; apply sendable_w; auto).
  eapply (w_step 6 54 60 (RespRetry (mkReply true [w_load]))); [|lia|early|early| |ran|ran|ran].
  2: { split; [done|]. split; [|done]. by apply Forall_singleton, Hload. }
  eapply (w_step 5 26 54 (Dequeue (mkReply false []))); [|lia|early|early| |ran|ran|ran].
  2: { split; [done|]. split; [constructor|done]. }
  eapply (w_step 4 18 26 Release); [|lia|early|early|done|ran|ran|ran].
  eapply (w_step 3 18 18 (Request w_load)); [|lia|early|early|by apply Hload|ran|ran|ran].
  eapply (w_step 2 12 18 Release); [|lia|early|early|done|ran|ran|ran].
  eapply (w_step 1 10 12 (Request w_load)); [|lia|early|early|by apply Hload|ran|ran|ran].
  eapply (w_step 0 0 10 (Request w_store)); [constructor|lia|early|early|apply sendable_w; auto|ran|ran|ran].
Qed.

Lemma simple_memory_serves_witness :
  reach w_start 60 (w_state 7) (w_taken 7) (w_sent 7) ∧
  let '(sp', rs) := serve s_start (w_taken 7) in
  simulates (mem (w_state 7)) (host (w_state 7)) sp' ∧ events_ok 60 (w_state 7) ∧
  (∀ q, to q (w_sent 7 ++ queued (w_state 7)) = to q rs) ∧
  ∀ now o, 60 ≤ now → not_late now (w_state 7) → may now o (w_state 7) → ∃ r, exec now o (w_state 7) = Ok r.
Proof.
  split; [exact w_reach|].
  apply (simple_memory_serves a_memory ∅ s_start 30 10 (λ n, 2 * n)); [exact a_memory_simulates|lia|lia|exact w_reach].
Defined.
End SMem.
