(* ===== verification/SatCounter.v ===== *)
(** * Saturating counters ([base/sat_counter.hh])

    The n-bit counter of the replacement policies and predictors, kept in
    three bytes.  Every arithmetic operation is integer arithmetic clamped
    to the counter's range; the left shift is not, because the byte it is
    computed in loses the carried bits before the range is checked. *)

From S2P Require Import Prelude.

Module Sat.

Record counter := mkCounter { initialVal : Z; maxVal : Z; value : Z }.

(** [maxVal((1 << bits) - 1)]: the shift is of an [int], the result stored in
    a byte; a shift by the width of [int] or more is undefined. *)
Definition SatCounter (bits initial_val : Z) : res counter :=
  if (bits <? 0) || (32 <=? bits) then Err Undef else
  let maxVal := u8 (Z.shiftl 1 bits - 1) in
  fatal_if (8 <? bits);;
  fatal_if (maxVal <? initial_val);;
  Ok (mkCounter initial_val maxVal initial_val).

Definition set_value (c : counter) (v : Z) : counter := mkCounter (initialVal c) (maxVal c) v.

Definition incr (c : counter) : counter :=
  if value c <? maxVal c then set_value c (u8 (value c + 1)) else c.
Definition decr (c : counter) : counter :=
  if 0 <? value c then set_value c (u8 (value c - 1)) else c.

Definition shift_right (c : counter) (shift : Z) : res counter :=
  assertb (0 <=? shift);;
  if 32 <=? shift then Err Undef else Ok (set_value c (u8 (Z.shiftr (value c) shift))).
Definition shift_left (c : counter) (shift : Z) : res counter :=
  assertb (0 <=? shift);;
  if 32 <=? shift then Err Undef else
  let v := u8 (Z.shiftl (value c) shift) in
  Ok (set_value c (if maxVal c <? v then maxVal c else v)).

(** The branches of [+=] and [-=] for a value that is not negative; each
    operator calls the other one on the opposite value otherwise, which the
    smallest [int] does not have. *)
Definition add_pos (c : counter) (v : Z) : counter :=
  if v <=? maxVal c - value c then set_value c (u8 (value c + v)) else set_value c (maxVal c).
Definition sub_pos (c : counter) (v : Z) : counter :=
  if v <? value c then set_value c (u8 (value c - v)) else set_value c 0.
Definition add_assign (c : counter) (v : Z) : res counter :=
  if 0 <=? v then Ok (add_pos c v)
  else if v <=? - 2 ^ 31 then Err Undef else Ok (sub_pos c (- v)).
Definition sub_assign (c : counter) (v : Z) : res counter :=
  if 0 <=? v then Ok (sub_pos c v)
  else if v <=? - 2 ^ 31 then Err Undef else Ok (add_pos c (- v)).

Definition reset (c : counter) : counter := set_value c (initialVal c).
Definition isSaturated (c : counter) : bool := value c =? maxVal c.
(** Returns the difference that was added. *)
Definition saturate (c : counter) : Z * counter :=
  (u8 (maxVal c - value c), set_value c (maxVal c)).

(** ** Range and arithmetic *)
Record wf (c : counter) : Prop := {
  wf_init : 0 ≤ initialVal c ≤ maxVal c;
  wf_value : 0 ≤ value c ≤ maxVal c;
  wf_max : maxVal c < 2 ^ 8 }.

Definition clamp (c : counter) (v : Z) : counter := set_value c (Z.max 0 (Z.min (maxVal c) v)).

Lemma clamp_wf c v : wf c → wf (clamp c v).
Proof. intros [? ? ?]. split; cbn; lia. Qed.

Lemma reset_wf c : wf c → wf (reset c).
Proof. intros [? ? ?]. by split. Qed.

Lemma clamp_value c : wf c → clamp c (value c) = c.
Proof. intros [? ? ?]. destruct c; unfold clamp, set_value; cbn in *. f_equal. lia. Qed.

Lemma SatCounter_ok bits : 0 ≤ bits ≤ 8 → SatCounter bits 0 = Ok (mkCounter 0 (2 ^ bits - 1) 0).
Proof.
  intros Hb. unfold SatCounter. rewrite (proj2 (Z.ltb_ge bits 0)), (proj2 (Z.leb_gt 32 bits)) by lia.
  assert (2 ^ 0 ≤ 2 ^ bits ≤ 2 ^ 8) as Hp by (split; apply Z.pow_le_mono_r; lia).
  cbn [orb]. rewrite Z.shiftl_1_l, u8_small by lia.
  unfold fatal_if. rewrite (proj2 (Z.ltb_ge 8 bits)), (proj2 (Z.ltb_ge _ 0)) by lia. done.
Qed.

Lemma fresh_wf bits : 0 ≤ bits ≤ 8 → wf (mkCounter 0 (2 ^ bits - 1) 0).
Proof.
  intros Hb. assert (2 ^ 0 ≤ 2 ^ bits ≤ 2 ^ 8) as Hp by (split; apply Z.pow_le_mono_r; lia).
  split; cbn; lia.
Qed.

Ltac sat :=
  unfold clamp, set_value; cbn [initialVal maxVal value]; f_equal; rewrite ?u8_small by lia; lia.

Lemma incr_clamp c : wf c → incr c = clamp c (value c + 1).
Proof.
  intros [? ? ?]. destruct c as [i m v]; unfold incr; cbn [initialVal maxVal value] in *.
  case_if; sat.
Qed.

Lemma decr_clamp c : wf c → decr c = clamp c (value c - 1).
Proof.
  intros [? ? ?]. destruct c as [i m v]; unfold decr; cbn [initialVal maxVal value] in *.
  case_if; sat.
Qed.

Lemma add_pos_clamp c v : wf c → 0 ≤ v → add_pos c v = clamp c (value c + v).
Proof.
  intros [? ? ?] Hv. destruct c as [i m x]; unfold add_pos; cbn [initialVal maxVal value] in *.
  case_if; sat.
Qed.

Lemma sub_pos_clamp c v : wf c → 0 ≤ v → sub_pos c v = clamp c (value c - v).
Proof.
  intros [? ? ?] Hv. destruct c as [i m x]; unfold sub_pos; cbn [initialVal maxVal value] in *.
  case_if; sat.
Qed.

Lemma saturate_clamp c : wf c → saturate c = (maxVal c - value c, clamp c (maxVal c)).
Proof.
  intros [? ? ?]. destruct c as [i m x]; unfold saturate, clamp; cbn [initialVal maxVal value] in *.
  rewrite u8_small by lia. do 2 f_equal; lia.
Qed.

(** ** Properties *)

(** Every operation that adds to or subtracts from a counter, with either
    sign, gives the integer result clamped to [0, 2^bits - 1], stays in range,
    and never touches the limit or the initial value. *)
Theorem sat_counter_clamps c v :
  wf c → - 2 ^ 31 < v < 2 ^ 31 →
  add_assign c v = Ok (clamp c (value c + v)) ∧ sub_assign c v = Ok (clamp c (value c - v)) ∧
  incr c = clamp c (value c + 1) ∧ decr c = clamp c (value c - 1) ∧
  saturate c = (maxVal c - value c, clamp c (maxVal c)) ∧
  ∀ x, wf (clamp c x) ∧ maxVal (clamp c x) = maxVal c ∧ initialVal (clamp c x) = initialVal c.
Proof.
  intros Hw Hv. split; [|split; [|split; [|split; [|split]]]].
  - unfold add_assign. repeat case_if; [by rewrite add_pos_clamp|lia|].
    rewrite sub_pos_clamp by (done || lia). do 2 f_equal; lia.
  - unfold sub_assign. repeat case_if; [by rewrite sub_pos_clamp|lia|].
    rewrite add_pos_clamp by (done || lia). do 2 f_equal; lia.
  - by apply incr_clamp.
  - by apply decr_clamp.
  - by apply saturate_clamp.
  - intros x. split; [by apply clamp_wf|done].
Qed.

Lemma sat_counter_clamps_witness :
  add_assign (mkCounter 0 7 5) 100 = Ok (mkCounter 0 7 7) ∧
  sub_assign (mkCounter 0 7 5) 6 = Ok (mkCounter 0 7 0).
Proof.
  split.
  - apply (sat_counter_clamps (mkCounter 0 7 5) 100); [split; cbn; lia|lia].
  - apply (sat_counter_clamps (mkCounter 0 7 5) 6); [split; cbn; lia|lia].
Defined.

(** The left shift saturates only while the shifted value fits a byte: a full
    8-bit counter shifted by one loses its top bit, and a 3-bit counter
    holding 4 becomes 0 when shifted by 6. *)
Example shift_left_wraps :
  shift_left (mkCounter 0 255 128) 1 = Ok (mkCounter 0 255 0) ∧
  shift_left (mkCounter 0 7 4) 6 = Ok (mkCounter 0 7 0) ∧
  shift_left (mkCounter 0 7 4) 1 = Ok (mkCounter 0 7 7).
Proof. repeat split. Qed.
End Sat.
