(* ===== verification/BaseIndexing.v ===== *)
(** * The base of the indexing policies ([mem/cache/tags/indexing_policies/base.cc])
      and set associative indexing ([set_associative.cc])

    The table of entries by set and way, and the split of an address. *)

From S2P Require Import Prelude.
From S2P Require Import Intmath.

Module BaseIdx.

(** ** Data and construction *)

Record params := mkParams { p_size : Z; p_entry_size : Z; p_assoc : Z }.

(** The fields of [BaseIndexingPolicy]; the entry at a set and a way is the
    index of its block in the tag store, [None] while the pointer is null. *)
Record policy := mkPolicy {
  assoc : Z;
  numSets : Z;
  setShift : Z;
  setMask : Z;
  tagShift : Z;
  sets : list (list (option nat)) }.

(** The member initialisers run first: the division, then the two
    [floorLog2], whose assertion comes before the [fatal_if]s. *)
Definition BaseIndexingPolicy (p : params) : res policy :=
  let assoc := u32 (p_assoc p) in
  let d := u32 (p_entry_size p * assoc) in
  if d =? 0 then Err Undef else
  let numSets := u32 (p_size p / d) in
  setShift ← floorLog2 4 (p_entry_size p);
  l ← floorLog2 4 numSets;
  fatal_if (negb (isPowerOf2 numSets));;
  fatal_if (assoc <=? 0);;
  Ok (mkPolicy assoc numSets setShift (numSets - 1) (setShift + l)
        (replicate (Z.to_nat numSets) (replicate (Z.to_nat assoc) None))).

(** [sets[set][way]]; out of range the access is undefined. *)
Definition getEntry (pol : policy) (set way : Z) : res (option nat) :=
  match sets pol !! Z.to_nat set with
  | Some row => match row !! Z.to_nat way with Some e => Ok e | None => Err Undef end
  | None => Err Undef
  end.

(** Returns the policy and the position the entry is told. *)
Definition setEntry (pol : policy) (e : nat) (index : Z) : res (policy * (Z * Z)) :=
  let set := u32 (index / assoc pol) in
  let way := u32 (index mod assoc pol) in
  assertb (set <? numSets pol);;
  Ok (mkPolicy (assoc pol) (numSets pol) (setShift pol) (setMask pol) (tagShift pol)
        (alter (λ row, <[Z.to_nat way := Some e]> row) (Z.to_nat set) (sets pol)), (set, way)).

Definition extractTag (pol : policy) (addr : Z) : Z := Z.shiftr addr (tagShift pol).
End BaseIdx.

(** ** Set associative indexing *)
Module SA.
Import BaseIdx.

Definition extractSet (pol : policy) (addr : Z) : Z :=
  u32 (Z.land (Z.shiftr addr (setShift pol)) (setMask pol)).

(** [entry->getSet() << setShift] is a shift of a 32-bit integer. *)
Definition regenerateAddr (pol : policy) (tag set way : Z) : Z :=
  Z.lor (shl64 tag (tagShift pol)) (u32 (Z.shiftl set (setShift pol))).

Definition getPossibleEntries (pol : policy) (addr : Z) : res (list (option nat)) :=
  match sets pol !! Z.to_nat (extractSet pol addr) with
  | Some row => Ok row
  | None => Err Undef
  end.
End SA.
