(* ===== verification/SkewedAssociative.v ===== *)
(** * Skewed associative indexing ([mem/cache/tags/indexing_policies/skewed_associative.cc])

    The eight skewing functions and their inverses, and the proof that they
    are inverses at every set width. *)

From S2P Require Import Prelude.
From S2P Require Import Intmath.
From S2P Require Import Bitfield.
From S2P Require Import BaseIndexing.

Module Skew.
Import BaseIdx.

Section Functions.
Context (msbShift : Z).

Definition hash (addr : Z) : Z :=
  let lsb := bits_val addr 0 0 in
  let msb := bits_val addr msbShift msbShift in
  let xor_bit := Z.lxor msb lsb in
  insertBits_val (Z.shiftr addr 1) msbShift msbShift xor_bit.

Definition dehash (addr : Z) : Z :=
  let msb := bits_val addr (msbShift - 1) (msbShift - 1) in
  let xor_bit := bits_val addr msbShift msbShift in
  let lsb := Z.lxor msb xor_bit in
  let addr_no_msb := mbits addr (msbShift - 1) 0 in
  insertBits_val (shl64 addr_no_msb 1) 0 0 lsb.

Definition NUM_SKEWING_FUNCTIONS : Z := 8.

Definition skew (addr way : Z) : res Z :=
  addr1 ← bits addr msbShift 0;
  addr2 ← bits addr (2 * (msbShift + 1) - 1) (msbShift + 1);
  addr1 ← match way mod NUM_SKEWING_FUNCTIONS with
          | 0 => Ok (Z.lxor (Z.lxor (hash addr1) (hash addr2)) addr2)
          | 1 => Ok (Z.lxor (Z.lxor (hash addr1) (hash addr2)) addr1)
          | 2 => Ok (Z.lxor (Z.lxor (hash addr1) (dehash addr2)) addr2)
          | 3 => Ok (Z.lxor (Z.lxor (hash addr1) (dehash addr2)) addr1)
          | 4 => Ok (Z.lxor (Z.lxor (dehash addr1) (hash addr2)) addr2)
          | 5 => Ok (Z.lxor (Z.lxor (dehash addr1) (hash addr2)) addr1)
          | 6 => Ok (Z.lxor (Z.lxor (dehash addr1) (dehash addr2)) addr2)
          | 7 => Ok (Z.lxor (Z.lxor (dehash addr1) (dehash addr2)) addr1)
          | _ => Err PanicFail
          end;
  Ok (Nat.iter (Z.to_nat (way / NUM_SKEWING_FUNCTIONS)) hash addr1).

Definition deskew (addr way : Z) : res Z :=
  addr1 ← bits addr msbShift 0;
  addr2 ← bits addr (2 * (msbShift + 1) - 1) (msbShift + 1);
  let addr1 := if NUM_SKEWING_FUNCTIONS <=? way
               then Nat.iter (Z.to_nat (way / NUM_SKEWING_FUNCTIONS)) dehash addr1 else addr1 in
  match way mod 8 with
  | 0 => Ok (dehash (Z.lxor (Z.lxor addr1 (hash addr2)) addr2))
  | 1 => Ok (Nat.iter (Z.to_nat msbShift) hash (Z.lxor addr1 (hash addr2)))
  | 2 => Ok (dehash (Z.lxor (Z.lxor addr1 (dehash addr2)) addr2))
  | 3 => Ok (Nat.iter (Z.to_nat msbShift) hash (Z.lxor addr1 (dehash addr2)))
  | 4 => Ok (hash (Z.lxor (Z.lxor addr1 (hash addr2)) addr2))
  | 5 => Ok (Nat.iter (Z.to_nat (msbShift + 1)) hash (Z.lxor addr1 (hash addr2)))
  | 6 => Ok (hash (Z.lxor (Z.lxor addr1 (dehash addr2)) addr2))
  | 7 => Ok (Nat.iter (Z.to_nat (msbShift + 1)) hash (Z.lxor addr1 (dehash addr2)))
  | _ => Err PanicFail
  end.
End Functions.

(** The constructor: the base policy, [msbShift] and the two checks. *)
Definition SkewedAssociative (p : params) : res (policy * Z) :=
  pol ← BaseIndexingPolicy p;
  l ← floorLog2 4 (numSets pol);
  let msbShift := l - 1 in
  panic_if (64 <? setShift pol + 2 * (msbShift + 1));;
  fatal_if (numSets pol <=? 2);;
  Ok (pol, msbShift).

Definition extractSet (pol : policy) (msbShift addr way : Z) : res Z :=
  s ← skew msbShift (Z.shiftr addr (setShift pol)) way;
  Ok (u32 (Z.land s (setMask pol))).

Definition regenerateAddr (pol : policy) (msbShift tag set way : Z) : res Z :=
  let addr_set := Z.lor (shl64 tag (msbShift + 1)) set in
  d ← deskew msbShift addr_set way;
  Ok (Z.lor (shl64 tag (tagShift pol)) (shl64 (Z.land d (setMask pol)) (setShift pol))).

(** The loop over the ways. *)
Fixpoint getPossibleEntries_loop (pol : policy) (msbShift addr : Z) (n : nat) (way : Z)
    : res (list (option nat)) :=
  match n with
  | O => Ok []
  | S n =>
      set ← extractSet pol msbShift addr way;
      e ← getEntry pol set way;
      entries ← getPossibleEntries_loop pol msbShift addr n (way + 1);
      Ok (e :: entries)
  end.
Definition getPossibleEntries (pol : policy) (msbShift addr : Z) : res (list (option nat)) :=
  getPossibleEntries_loop pol msbShift addr (Z.to_nat (assoc pol)) 0.

(** ** The hash as a linear feedback shift register

    On words of [msbShift + 1] bits [hash] shifts right and feeds the
    exclusive or of both ends into the top; [dehash] is its inverse. *)
Section Lfsr.
Context (m : Z) (Hm : 1 ≤ m < 63).
Local Notation word x := (0 ≤ x < 2 ^ (m + 1)).

Lemma word_u64 x : word x → is_u64 x.
Proof.
  intros Hx. split; [lia|]. apply Z.lt_le_trans with (2 ^ (m + 1)); [lia|].
  apply Z.pow_le_mono_r; lia.
Qed.

Lemma word_bit_above x i : word x → m < i → Z.testbit x i = false.
Proof. intros. apply (testbit_above x (m + 1)); lia. Qed.

Lemma word_by_bits x : 0 ≤ x → (∀ i, m < i → Z.testbit x i = false) → word x.
Proof. intros Hx Hb. split; [done|]. apply bounded_by_bits; [lia|done|]. intros. apply Hb. lia. Qed.

Lemma hash_testbit x i : word x → 0 ≤ i →
  Z.testbit (hash m x) i =
    if i =? m then xorb (Z.testbit x m) (Z.testbit x 0) else Z.testbit x (i + 1).
Proof.
  intros Hx Hi. pose proof (word_u64 x Hx).
  assert (is_u64 (Z.shiftr x 1)) by (pose proof (shiftr_le x 1); unfold is_u64 in *; lia).
  unfold hash. rewrite insertBits_val_testbit by (done || lia). zcmp.
  - rewrite Z.lxor_spec, !bits_val_testbit by lia. subst i.
    replace (m - m) with 0 by lia. zcmp. done.
  - by rewrite Z.shiftr_spec.
  - by rewrite Z.shiftr_spec.
Qed.

Lemma hash_word x : word x → word (hash m x).
Proof.
  intros Hx. apply word_by_bits.
  - apply insertBits_val_range; [lia|lia|].
    pose proof (shiftr_le x 1). pose proof (word_u64 x Hx). unfold is_u64 in *. lia.
  - intros i Hi. rewrite hash_testbit by (done || lia). zcmp.
    apply word_bit_above; [done|lia].
Qed.

Lemma mbits_testbit v first i : 0 ≤ first < 64 → 0 ≤ i →
  Z.testbit (mbits v first 0) i = (i <=? first) && Z.testbit v i.
Proof.
  intros. unfold mbits. autorewrite with zbits. destruct (Z.testbit v i); zcmp; done.
Qed.

Lemma dehash_testbit y i : word y → 0 ≤ i →
  Z.testbit (dehash m y) i =
    if i =? 0 then xorb (Z.testbit y (m - 1)) (Z.testbit y m)
    else (i <=? m) && Z.testbit y (i - 1).
Proof.
  intros Hy Hi. unfold dehash.
  rewrite insertBits_val_testbit by (lia || apply u64_range). zcmp.
  - subst i. rewrite Z.lxor_spec, !bits_val_testbit by lia. zcmp. done.
  - rewrite shl64_testbit, mbits_testbit by lia. zcmp; done.
  - rewrite shl64_testbit, mbits_testbit by lia. zcmp; rewrite ?andb_false_r; done.
Qed.

Lemma dehash_word y : word y → word (dehash m y).
Proof.
  intros Hy. apply word_by_bits.
  - apply insertBits_val_range; [lia|lia|apply u64_range].
  - intros i Hi. rewrite dehash_testbit by (done || lia). zcmp.
Qed.

Lemma lxor_word x y : word x → word y → word (Z.lxor x y).
Proof.
  intros Hx Hy. apply word_by_bits.
  - apply Z.lxor_nonneg. lia.
  - intros i Hi. rewrite Z.lxor_spec, !word_bit_above by done. done.
Qed.

Lemma word_ext x y : word x → word y →
  (∀ i, 0 ≤ i ≤ m → Z.testbit x i = Z.testbit y i) → x = y.
Proof.
  intros Hx Hy H. apply Z.bits_inj'. intros i Hi. destruct (Z.leb_spec i m); [by apply H|].
  by rewrite !word_bit_above.
Qed.
Hint Resolve hash_word dehash_word lxor_word : core.

Lemma dehash_hash x : word x → dehash m (hash m x) = x.
Proof.
  intros Hx. apply word_ext; auto. intros i Hi.
  rewrite dehash_testbit by (auto || lia). zcmp.
  - subst i. rewrite !hash_testbit by (done || lia). zcmp.
    replace (m - 1 + 1) with m by lia. by destruct (Z.testbit x m), (Z.testbit x 0).
  - rewrite hash_testbit by (done || lia). zcmp. f_equal. lia.
Qed.

Lemma hash_dehash y : word y → hash m (dehash m y) = y.
Proof.
  intros Hy. apply word_ext; auto. intros i Hi.
  rewrite hash_testbit by (auto || lia). zcmp.
  - subst i. rewrite !dehash_testbit by (done || lia). zcmp.
    by destruct (Z.testbit y m), (Z.testbit y (m - 1)).
  - rewrite dehash_testbit by (done || lia). zcmp. f_equal. lia.
Qed.

Lemma hash_lxor x y : word x → word y →
  hash m (Z.lxor x y) = Z.lxor (hash m x) (hash m y).
Proof.
  intros Hx Hy. apply word_ext; auto. intros i Hi.
  rewrite Z.lxor_spec, !hash_testbit by (auto || lia). zcmp; rewrite !Z.lxor_spec; [|done].
  by destruct (Z.testbit x m), (Z.testbit x 0), (Z.testbit y m), (Z.testbit y 0).
Qed.

Lemma iter_hash_word k x : word x → word (Nat.iter k (hash m) x).
Proof. intros Hx. induction k; [done|]. by apply hash_word. Qed.
Hint Resolve iter_hash_word : core.

Lemma iter_hash_lxor k x y : word x → word y →
  Nat.iter k (hash m) (Z.lxor x y) = Z.lxor (Nat.iter k (hash m) x) (Nat.iter k (hash m) y).
Proof.
  intros Hx Hy. induction k as [|k IH]; [done|]. rewrite !Nat.iter_succ, IH. by apply hash_lxor; auto.
Qed.

Lemma iter_dehash_hash k x : word x → Nat.iter k (dehash m) (Nat.iter k (hash m) x) = x.
Proof.
  revert x. induction k as [|k IH]; intros x Hx; [done|]. rewrite Nat.iter_succ_r, Nat.iter_succ.
  rewrite dehash_hash by auto. by apply IH.
Qed.

(** Until a fed-back bit arrives, [k] steps shift by [k]. *)
Lemma iter_hash_shift k x i : word x → 0 ≤ i → i + Z.of_nat k ≤ m →
  Z.testbit (Nat.iter k (hash m) x) i = Z.testbit x (i + Z.of_nat k).
Proof.
  intros Hx. revert i. induction k as [|k IH]; intros i Hi Hk.
  - f_equal. lia.
  - rewrite Nat.iter_succ, hash_testbit by auto. zcmp. rewrite IH by lia. f_equal. lia.
Qed.

(** The characteristic equation of the register: [H^(m+1) = H^m + I]. *)
Lemma hash_characteristic x : word x →
  Nat.iter (Z.to_nat (m + 1)) (hash m) x = Z.lxor (Nat.iter (Z.to_nat m) (hash m) x) x.
Proof.
  intros Hx. apply word_ext; auto. intros i Hi. rewrite Z.lxor_spec.
  set (a := Z.to_nat i). set (b := Z.to_nat (m - i)).
  replace (Z.to_nat (m + 1)) with (b + S a)%nat by lia.
  replace (Z.to_nat m) with (b + a)%nat by lia.
  rewrite !Nat.iter_add, !(iter_hash_shift b) by (auto || lia).
  replace (i + Z.of_nat b) with m by lia.
  rewrite Nat.iter_succ, hash_testbit by (auto || lia). zcmp. f_equal.
  rewrite iter_hash_shift by (auto || lia). f_equal. lia.
Qed.

Lemma hash_plus_id_inverse x : word x →
  Nat.iter (Z.to_nat m) (hash m) (Z.lxor (hash m x) x) = x.
Proof.
  intros Hx. rewrite iter_hash_lxor by auto. rewrite <-Nat.iter_succ_r.
  replace (S (Z.to_nat m)) with (Z.to_nat (m + 1)) by lia.
  rewrite hash_characteristic by done.
  rewrite (Z.lxor_comm _ x), Z.lxor_assoc, Z.lxor_nilpotent. apply Z.lxor_0_r.
Qed.

Lemma dehash_plus_id_inverse x : word x →
  Nat.iter (Z.to_nat (m + 1)) (hash m) (Z.lxor (dehash m x) x) = x.
Proof.
  intros Hx. replace (Z.to_nat (m + 1)) with (S (Z.to_nat m)) by lia.
  rewrite Nat.iter_succ_r, hash_lxor by auto. rewrite hash_dehash by done.
  rewrite Z.lxor_comm. by apply hash_plus_id_inverse.
Qed.

Lemma bits_low_word x : word (bits_val x m 0).
Proof. rewrite bits_val_spec by lia. replace (m - 0 + 1) with (m + 1) by lia.
  apply Z.mod_pos_bound. lia.
Qed.

Lemma lxor_cancel_r x y : Z.lxor (Z.lxor x y) y = x.
Proof. rewrite Z.lxor_assoc, Z.lxor_nilpotent. apply Z.lxor_0_r. Qed.

Lemma lxor_cancel_mid x y z : Z.lxor (Z.lxor (Z.lxor x y) z) y = Z.lxor x z.
Proof. rewrite !Z.lxor_assoc, (Z.lxor_comm z y), <-(Z.lxor_assoc y y z), Z.lxor_nilpotent.
  by rewrite Z.lxor_0_l.
Qed.

(** The function of each way on the two words it mixes, and its inverse. *)
Definition skew_word (r a1 a2 : Z) : Z :=
  let f := if r <? 4 then hash m else dehash m in
  let g := if Z.testbit r 1 then dehash m else hash m in
  Z.lxor (Z.lxor (f a1) (g a2)) (if Z.testbit r 0 then a1 else a2).

Lemma skew_word_word r a1 a2 : word a1 → word a2 → word (skew_word r a1 a2).
Proof. intros. unfold skew_word. repeat case_if; auto. Qed.

Lemma mod8_cases way : 0 ≤ way → way mod 8 ∈ [0; 1; 2; 3; 4; 5; 6; 7].
Proof.
  intros. pose proof (Z.mod_pos_bound way 8 ltac:(lia)). generalize dependent (way mod 8).
  intros r Hr. rewrite !elem_of_cons. lia.
Qed.

Lemma skew_eq addr way : 0 ≤ way →
  skew m addr way = Ok (Nat.iter (Z.to_nat (way / 8)) (hash m)
    (skew_word (way mod 8) (bits_val addr m 0) (bits_val addr (2 * (m + 1) - 1) (m + 1)))).
Proof.
  intros Hw. unfold skew, NUM_SKEWING_FUNCTIONS. rewrite !bits_ok by lia.
  unfold mbind, res_bind. pose proof (mod8_cases way Hw) as Hc. generalize dependent (way mod 8).
  intros r Hr. rewrite !elem_of_cons in Hr.
  by destruct Hr as [->|[->|[->|[->|[->|[->|[->|[->|Hr%elem_of_nil]]]]]]]].
Qed.

Lemma unpile s way : 0 ≤ way → word s →
  (if 8 <=? way then Nat.iter (Z.to_nat (way / 8)) (dehash m) (Nat.iter (Z.to_nat (way / 8)) (hash m) s)
   else Nat.iter (Z.to_nat (way / 8)) (hash m) s) = s.
Proof.
  intros Hw Hs. destruct (Z.leb_spec 8 way); [by apply iter_dehash_hash|].
  by rewrite Z.div_small by lia.
Qed.

(** [deskew] undoes [skew] at every way. *)
Lemma deskew_skew addr addr' way :
  0 ≤ way → 2 * (m + 1) ≤ 64 →
  skew m addr way = Ok (bits_val addr' m 0) →
  bits_val addr' (2 * (m + 1) - 1) (m + 1) = bits_val addr (2 * (m + 1) - 1) (m + 1) →
  deskew m addr' way = Ok (bits_val addr m 0).
Proof.
  intros Hw H64 Hs Heq. rewrite skew_eq in Hs by done. injection Hs as Hs.
  unfold deskew, NUM_SKEWING_FUNCTIONS. rewrite !bits_ok by lia. unfold mbind, res_bind.
  rewrite Heq, <-Hs. clear Hs Heq. pose proof (bits_low_word addr) as H1.
  assert (word (bits_val addr (2 * (m + 1) - 1) (m + 1))) as H2.
  { rewrite bits_val_spec by lia. replace (_ - _ + 1) with (m + 1) by lia.
    apply Z.mod_pos_bound. lia. }
  generalize dependent (bits_val addr m 0). intros a1 H1.
  generalize dependent (bits_val addr (2 * (m + 1) - 1) (m + 1)). intros a2 H2.
  rewrite unpile by (auto using skew_word_word).
  pose proof (mod8_cases way Hw) as Hc. generalize dependent (way mod 8).
  intros r Hr. rewrite !elem_of_cons in Hr.
  destruct Hr as [->|[->|[->|[->|[->|[->|[->|[->|Hr%elem_of_nil]]]]]]]]; [..|done];
    unfold skew_word; cbn [Z.ltb Z.compare Pos.compare Pos.compare_cont Z.testbit Pos.testbit
      Z.odd Pos.pred_N Pos.pred_double N.testbit];
    f_equal; rewrite ?lxor_cancel_mid, ?lxor_cancel_r;
    auto using dehash_hash, hash_dehash, hash_plus_id_inverse, dehash_plus_id_inverse.
Qed.
End Lfsr.
End Skew.
