(* ===== verification/CacheIndex.v ===== *)
(** * Cache indexing policies ([mem/cache/tags/indexing_policies/])

    Where a block may live: [BaseIndexingPolicy] splits an address into
    offset, set and tag; [SA] takes the set bits as they are and
    [SkewedAssociative] scrambles them with a different function for every
    way.  The class [Indexing] states what the tag store needs of a policy:
    that an entry's address can be regenerated from the tag it stores and
    the place it sits in.  Both policies are shown to meet it; for the
    skewed one this is the invertibility of its eight skewing functions at
    every set width. *)

From S2P Require Import Prelude.
From S2P Require Import Intmath.
From S2P Require Import Bitfield.
From S2P Require Import BaseIndexing.
From S2P Require Import SkewedAssociative.

Module Idx.
Export BaseIdx.

(** ** Well-formed policies *)

(** What the constructor establishes: [2^k] sets, the mask and the shifts
    that go with them. *)
Record wf (pol : policy) (k : Z) : Prop := {
  wf_k : 0 ≤ k < 32;
  wf_numSets : numSets pol = 2 ^ k;
  wf_setMask : setMask pol = 2 ^ k - 1;
  wf_setShift : 0 ≤ setShift pol < 31;
  wf_tagShift : tagShift pol = setShift pol + k;
  wf_assoc : 0 < assoc pol < 2 ^ 32 }.

(** The pointers of the table when the first [n] entries have been set. *)
Definition table (pol : policy) (n : nat) : list (list (option nat)) :=
  (λ s, (λ w, let e := (s * Z.to_nat (assoc pol) + w)%nat in
              if (e <? n)%nat then Some e else None) <$> seq 0 (Z.to_nat (assoc pol)))
    <$> seq 0 (Z.to_nat (numSets pol)).
Definition numEntries (pol : policy) : nat := Z.to_nat (numSets pol) * Z.to_nat (assoc pol).
Definition filled (pol : policy) : Prop := sets pol = table pol (numEntries pol).

(** The address of the block an address belongs to. *)
Definition blockAddr (pol : policy) (addr : Z) : Z := addr - addr mod 2 ^ setShift pol.

Lemma BaseIndexingPolicy_wf p pol :
  p_entry_size p < 2 ^ 31 → BaseIndexingPolicy p = Ok pol →
  ∃ k, wf pol k ∧ sets pol = table pol 0 ∧ setShift pol = Z.log2 (p_entry_size p).
Proof.
  intros He H. unfold BaseIndexingPolicy in H.
  destruct (Z.eqb_spec (u32 (p_entry_size p * u32 (p_assoc p))) 0) as [|Hd]; [done|].
  apply bind_ok in H as (sh & Hsh & H). apply bind_ok in H as (l & Hl & H).
  set (n := u32 (p_size p / u32 (p_entry_size p * u32 (p_assoc p)))) in *.
  assert (0 < p_entry_size p).
  { unfold floorLog2 in Hsh. inv_ok. bool_to_prop. lia. }
  assert (0 < n) by (unfold floorLog2 in Hl; inv_ok; bool_to_prop; lia).
  pose proof (u32_range (p_size p / u32 (p_entry_size p * u32 (p_assoc p)))) as Hn. fold n in Hn.
  rewrite floorLog2_log2 in Hsh by (lia || by vm_compute; repeat constructor).
  rewrite floorLog2_log2 in Hl by (lia || by vm_compute; repeat constructor).
  inv_ok. bool_to_prop. apply isPowerOf2_spec in Hfa as (k & Hk & Hnk); [|lia].
  rewrite Hnk, Z.log2_pow2 in * by done.
  assert (k < 32) by (apply (Z.pow_lt_mono_r_iff 2); lia).
  exists k. split; [split; cbn; try lia|split; [|done]].
  - split; [apply Z.log2_nonneg|]. apply Z.log2_lt_pow2; lia.
  - pose proof (u32_range (p_assoc p)). lia.
  - unfold table; cbn [numSets assoc sets]. 
    rewrite (const_fmap _ _ (replicate (Z.to_nat (u32 (p_assoc p))) None)).
    + by rewrite length_seq.
    + intros ? s _. rewrite (const_fmap _ _ None); [by rewrite length_seq|done].
Qed.

Lemma floorLog2_pow2 k : 0 ≤ k < 32 → floorLog2 4 (2 ^ k) = Ok k.
Proof.
  intros. rewrite floorLog2_log2; [by rewrite Z.log2_pow2 by lia|by vm_compute; repeat constructor|].
  split; [lia|]. apply Z.pow_lt_mono_r; lia.
Qed.

Lemma table_lookup pol n s w :
  (s < Z.to_nat (numSets pol))%nat → (w < Z.to_nat (assoc pol))%nat →
  table pol n !! s ≫= (.!! w) =
    Some (let e := (s * Z.to_nat (assoc pol) + w)%nat in if (e <? n)%nat then Some e else None).
Proof.
  intros Hs Hw. unfold table. rewrite list_lookup_fmap, lookup_seq_lt by done. cbn.
  by rewrite list_lookup_fmap, lookup_seq_lt by done.
Qed.

Lemma getEntry_filled pol s w :
  filled pol → 0 ≤ s < numSets pol → 0 ≤ w < assoc pol →
  getEntry pol s w = Ok (Some (Z.to_nat (s * assoc pol + w))).
Proof.
  intros Hf Hs Hw.
  pose proof (table_lookup pol (numEntries pol) (Z.to_nat s) (Z.to_nat w)
    ltac:(lia) ltac:(lia)) as Ht.
  rewrite <-Hf in Ht. unfold getEntry. destruct (sets pol !! Z.to_nat s) as [row|]; [|done].
  unfold mbind, option_bind in Ht. cbv beta iota zeta in Ht. rewrite Ht. f_equal. unfold numEntries.
  destruct (Nat.ltb_spec (Z.to_nat s * Z.to_nat (assoc pol) + Z.to_nat w)
              (Z.to_nat (numSets pol) * Z.to_nat (assoc pol))); [|nia].
  by rewrite Z2Nat.inj_add, Z2Nat.inj_mul by nia.
Qed.

Lemma alter_fmap_seq {A} (g : nat → A) (f : A → A) i n : (i < n)%nat →
  alter f i (g <$> seq 0 n) = (λ s, if decide (s = i) then f (g s) else g s) <$> seq 0 n.
Proof.
  intros Hi. apply list_eq. intros s. destruct (decide (s = i)) as [->|Hne].
  - rewrite list_lookup_alter_eq, !list_lookup_fmap, lookup_seq_lt by done. cbn. by rewrite decide_True.
  - rewrite list_lookup_alter_ne by done. rewrite !list_lookup_fmap.
    destruct (seq 0 n !! s) as [x|] eqn:Hx; [|done]. apply lookup_seq in Hx as [-> _]. cbn.
    by rewrite decide_False by done.
Qed.

(** Setting the entries in order fills the table. *)
Lemma setEntry_table pol k n : wf pol k → sets pol = table pol n → (n < numEntries pol)%nat →
  setEntry pol n (Z.of_nat n) =
    Ok (mkPolicy (assoc pol) (numSets pol) (setShift pol) (setMask pol) (tagShift pol)
          (table pol (S n)), (Z.of_nat n / assoc pol, Z.of_nat n mod assoc pol)).
Proof.
  intros Hw Hs Hn. pose proof (wf_assoc _ _ Hw) as Ha. pose proof (wf_k _ _ Hw).
  unfold numEntries in Hn. set (A := assoc pol) in *.
  pose proof (Z.mod_pos_bound (Z.of_nat n) A ltac:(lia)) as Hm.
  pose proof (Z.div_mod (Z.of_nat n) A ltac:(lia)) as Hdm.
  assert (0 ≤ Z.of_nat n / A < numSets pol) as Hd.
  { split; [apply Z.div_pos; lia|]. apply Z.div_lt_upper_bound; nia. }
  assert (numSets pol < 2 ^ 32) by (rewrite (wf_numSets _ _ Hw); apply Z.pow_lt_mono_r; lia).
  unfold setEntry. fold A. rewrite !u32_small by lia.
  rewrite (proj2 (Z.ltb_lt _ _)) by lia. cbn [assertb mbind res_bind].
  f_equal. f_equal. f_equal. rewrite Hs. unfold table. fold A.
  rewrite alter_fmap_seq by lia. apply list_fmap_ext. intros s ? [-> Hsl]%lookup_seq.
  set (Nn := Z.to_nat A) in *. assert (Z.of_nat Nn = A) as HN by lia.
  assert (Z.to_nat (Z.of_nat n / A) * Nn + Z.to_nat (Z.of_nat n mod A) = n)%nat as Hpos by nia.
  cbn [Nat.add]. case_decide as Hc.
  - apply list_eq. intros w. rewrite list_lookup_fmap.
    destruct (decide (w = Z.to_nat (Z.of_nat n mod A))) as [->|Hne].
    + rewrite list_lookup_insert_eq by (rewrite length_fmap, length_seq; lia).
      rewrite lookup_seq_lt by lia. cbn -[Nat.ltb]. subst s.
      rewrite Hpos, (proj2 (Nat.ltb_lt _ _)) by lia. done.
    + rewrite list_lookup_insert_ne by done. rewrite list_lookup_fmap.
      destruct (seq 0 Nn !! w) as [x|] eqn:Hx; [|done]. apply lookup_seq in Hx as [-> Hw'].
      cbn -[Nat.ltb]. f_equal. subst s.
      destruct (Nat.ltb_spec (Z.to_nat (Z.of_nat n / A) * Nn + w) n),
        (Nat.ltb_spec (Z.to_nat (Z.of_nat n / A) * Nn + w) (S n)); try done; lia.
  - apply list_fmap_ext. intros w ? [-> Hw']%lookup_seq. cbn -[Nat.ltb].
    destruct (Nat.ltb_spec (s * Nn + w) n), (Nat.ltb_spec (s * Nn + w) (S n)); try done; [lia|].
    exfalso. apply Hc. nia.
Qed.

(** ** Bits of block addresses *)
Lemma blockAddr_testbit pol k addr i : wf pol k → 0 ≤ addr → 0 ≤ i →
  Z.testbit (blockAddr pol addr) i = (setShift pol <=? i) && Z.testbit addr i.
Proof.
  intros Hw Ha Hi. pose proof (wf_setShift _ _ Hw).
  assert (blockAddr pol addr = Z.shiftl (Z.shiftr addr (setShift pol)) (setShift pol)) as ->.
  { unfold blockAddr. rewrite Z.shiftl_mul_pow2, Z.shiftr_div_pow2 by lia.
    pose proof (Z.div_mod addr (2 ^ setShift pol) ltac:(lia)). lia. }
  rewrite Z.shiftl_spec by done. destruct (Z.leb_spec (setShift pol) i).
  - rewrite Z.shiftr_spec by lia. cbn. f_equal. lia.
  - by rewrite Z.testbit_neg_r by lia.
Qed.

(** Tag bits above, set bits below: the block address. *)
Lemma compose_addr pol k addr x : wf pol k → is_u64 addr →
  (∀ i, 0 ≤ i → Z.testbit x i =
     (setShift pol <=? i) && (i <? tagShift pol) && Z.testbit addr i) →
  Z.lor (shl64 (extractTag pol addr) (tagShift pol)) x = blockAddr pol addr.
Proof.
  intros Hw [Ha Ha'] Hx. pose proof (wf_setShift _ _ Hw). pose proof (wf_tagShift _ _ Hw).
  pose proof (wf_k _ _ Hw).
  apply Z.bits_inj'. intros i Hi. rewrite Z.lor_spec, (blockAddr_testbit pol k) by done.
  rewrite Hx by done. rewrite shl64_testbit by done. unfold extractTag.
  destruct (Z.ltb_spec i (tagShift pol)).
  - rewrite (Z.testbit_neg_r _ (i - _)) by lia. by rewrite andb_false_r, andb_true_r.
  - rewrite Z.shiftr_spec by lia. replace (i - tagShift pol + tagShift pol) with i by lia.
    destruct (Z.ltb_spec i 64); [|by rewrite (testbit_above addr 64), !andb_false_r by lia].
    rewrite andb_false_r, orb_false_r, (proj2 (Z.leb_le _ _)) by lia. done.
Qed.

(** Addresses of one block agree on the bits both policies look at. *)
Lemma blockAddr_shiftr pol k a b : wf pol k → 0 ≤ a → 0 ≤ b →
  blockAddr pol a = blockAddr pol b → Z.shiftr a (setShift pol) = Z.shiftr b (setShift pol).
Proof.
  intros Hw Ha Hb Heq. pose proof (wf_setShift _ _ Hw). apply Z.bits_inj'. intros i Hi.
  rewrite !Z.shiftr_spec by done. pose proof (f_equal (λ x, Z.testbit x (i + setShift pol)) Heq) as H'.
  cbn beta in H'. rewrite !(blockAddr_testbit pol k) in H' by (done || lia).
  rewrite (proj2 (Z.leb_le _ _)) in H' by lia. done.
Qed.

Lemma blockAddr_extractTag pol k a b : wf pol k → 0 ≤ a → 0 ≤ b →
  blockAddr pol a = blockAddr pol b → extractTag pol a = extractTag pol b.
Proof.
  intros Hw Ha Hb Heq. pose proof (wf_k _ _ Hw). pose proof (wf_setShift _ _ Hw).
  unfold extractTag. rewrite (wf_tagShift _ _ Hw), <-!Z.shiftr_shiftr by lia.
  by rewrite (blockAddr_shiftr pol k a b).
Qed.

(** ** What the tag store needs of an indexing policy *)
Definition with_sets (pol : policy) (ss : list (list (option nat))) : policy :=
  mkPolicy (assoc pol) (numSets pol) (setShift pol) (setMask pol) (tagShift pol) ss.

Class Indexing (I : Type) := {
  ix_policy : I → policy;
  ix_with : I → list (list (option nat)) → I;
  ix_possible : I → Z → res (list (option nat));
  ix_regenerate : I → Z → Z → Z → res Z }.

(** The position of the [e]-th entry. *)
Definition posSet (pol : policy) (e : nat) : Z := Z.of_nat e / assoc pol.
Definition posWay (pol : policy) (e : nat) : Z := Z.of_nat e mod assoc pol.

(** The candidates of an address are distinct entries of the table, as many
    as there are ways, the same for all the addresses of a block, and from
    each of them the tag gives the block's address back. *)
Class IndexingOk (I : Type) `{Indexing I} := {
  ix_ok : I → Prop;
  ix_ok_wf : ∀ i, ix_ok i → ∃ k, wf (ix_policy i) k;
  ix_with_policy : ∀ i ss, ix_policy (ix_with i ss) = with_sets (ix_policy i) ss;
  ix_with_ok : ∀ i ss, ix_ok i → ix_ok (ix_with i ss);
  ix_possible_spec : ∀ i a, ix_ok i → filled (ix_policy i) → is_u64 a →
    ∃ es : list nat, ix_possible i a = Ok (Some <$> es) ∧ NoDup es ∧
      length es = Z.to_nat (assoc (ix_policy i)) ∧
      ∀ e, e ∈ es → (e < numEntries (ix_policy i))%nat ∧
        ix_regenerate i (extractTag (ix_policy i) a) (posSet (ix_policy i) e) (posWay (ix_policy i) e)
          = Ok (blockAddr (ix_policy i) a);
  ix_possible_block : ∀ i a b, ix_ok i → is_u64 a → is_u64 b →
    blockAddr (ix_policy i) a = blockAddr (ix_policy i) b → ix_possible i a = ix_possible i b }.

Record sa := mkSa { sa_policy : policy }.
#[export] Instance sa_indexing : Indexing sa := {
  ix_policy := sa_policy;
  ix_with := λ i ss, mkSa (with_sets (sa_policy i) ss);
  ix_possible := λ i, SA.getPossibleEntries (sa_policy i);
  ix_regenerate := λ i tag set way, Ok (SA.regenerateAddr (sa_policy i) tag set way) }.

Record skewed := mkSkewed { sk_policy : policy; sk_msbShift : Z }.
#[export] Instance skewed_indexing : Indexing skewed := {
  ix_policy := sk_policy;
  ix_with := λ i ss, mkSkewed (with_sets (sk_policy i) ss) (sk_msbShift i);
  ix_possible := λ i, Skew.getPossibleEntries (sk_policy i) (sk_msbShift i);
  ix_regenerate := λ i, Skew.regenerateAddr (sk_policy i) (sk_msbShift i) }.

(** ** The set associative policy *)
Lemma entry_position pol s w e : 0 < assoc pol → (w < Z.to_nat (assoc pol))%nat → 0 ≤ s →
  e = (Z.to_nat s * Z.to_nat (assoc pol) + w)%nat → posSet pol e = s ∧ posWay pol e = Z.of_nat w.
Proof.
  intros Ha Hw Hs ->. unfold posSet, posWay.
  replace (Z.of_nat (Z.to_nat s * Z.to_nat (assoc pol) + w)) with (Z.of_nat w + s * assoc pol) by lia.
  rewrite Z.div_add, Z.mod_add, Z.div_small, Z.mod_small by lia. done.
Qed.

Lemma entry_in_table pol s w : 0 ≤ s < numSets pol → (w < Z.to_nat (assoc pol))%nat →
  (Z.to_nat s * Z.to_nat (assoc pol) + w < numEntries pol)%nat.
Proof. intros. unfold numEntries. nia. Qed.

Lemma filled_row pol s : filled pol → 0 ≤ s < numSets pol →
  sets pol !! Z.to_nat s =
    Some (Some <$> ((λ w, Z.to_nat s * Z.to_nat (assoc pol) + w)%nat <$> seq 0 (Z.to_nat (assoc pol)))).
Proof.
  intros Hf Hs. rewrite Hf. unfold table. rewrite list_lookup_fmap, lookup_seq_lt by lia.
  cbn [fmap option_fmap option_map]. f_equal. rewrite <-list_fmap_compose.
  apply list_fmap_ext. intros i w [-> Hw]%lookup_seq. cbn beta zeta iota.
  unfold compose. rewrite (proj2 (Nat.ltb_lt _ _)); [done|]. by apply entry_in_table.
Qed.

Lemma setMask_testbit pol k x i : wf pol k → 0 ≤ i →
  Z.testbit (Z.land x (setMask pol)) i = (i <? k) && Z.testbit x i.
Proof.
  intros Hw Hi. pose proof (wf_k _ _ Hw). rewrite (wf_setMask _ _ Hw).
  replace (2 ^ k - 1) with (Z.ones k) by (rewrite Z.ones_equiv; lia).
  rewrite Z.land_spec, ones_testbit by lia. apply andb_comm.
Qed.

Lemma masked_range pol k x : wf pol k → 0 ≤ Z.land x (setMask pol) < 2 ^ k.
Proof.
  intros Hw. pose proof (wf_k _ _ Hw). rewrite (wf_setMask _ _ Hw).
  replace (2 ^ k - 1) with (Z.ones k) by (rewrite Z.ones_equiv; lia).
  rewrite Z.land_ones by lia. apply Z.mod_pos_bound. lia.
Qed.

Lemma u32_masked pol k x : wf pol k → u32 (Z.land x (setMask pol)) = Z.land x (setMask pol).
Proof.
  intros Hw. pose proof (wf_k _ _ Hw). pose proof (masked_range pol k x Hw). apply u32_small.
  split; [lia|]. apply Z.lt_trans with (2 ^ k); [lia|]. apply Z.pow_lt_mono_r; lia.
Qed.

Module SAFacts.
Lemma extractSet_range pol k a : wf pol k → 0 ≤ SA.extractSet pol a < numSets pol.
Proof.
  intros Hw. unfold SA.extractSet. rewrite (u32_masked pol k), (wf_numSets _ _ Hw) by done.
  by apply masked_range.
Qed.

Lemma regenerate_extract pol k a way : wf pol k → tagShift pol ≤ 32 → is_u64 a →
  SA.regenerateAddr pol (extractTag pol a) (SA.extractSet pol a) way = blockAddr pol a.
Proof.
  intros Hw Ht Ha. pose proof (wf_k _ _ Hw). pose proof (wf_setShift _ _ Hw).
  pose proof (wf_tagShift _ _ Hw) as Hts.
  unfold SA.regenerateAddr, SA.extractSet. rewrite (u32_masked pol k) by done.
  apply (compose_addr pol k); [done|done|]. intros i Hi.
  unfold u32. destruct (Z.ltb_spec i 32).
  - rewrite Z.mod_pow2_bits_low, Z.shiftl_spec by lia. destruct (Z.leb_spec (setShift pol) i).
    + rewrite (setMask_testbit pol k), Z.shiftr_spec by (done || lia).
      replace (i - setShift pol + setShift pol) with i by lia. zcmp; done.
    + by rewrite Z.testbit_neg_r by lia.
  - rewrite Z.mod_pow2_bits_high by lia. rewrite (proj2 (Z.ltb_ge _ _)) by lia.
    by rewrite andb_false_r.
Qed.

Lemma possible pol k a : wf pol k → filled pol →
  SA.getPossibleEntries pol a = Ok (Some <$> ((λ w, Z.to_nat (SA.extractSet pol a) *
    Z.to_nat (assoc pol) + w)%nat <$> seq 0 (Z.to_nat (assoc pol)))).
Proof.
  intros Hw Hf. unfold SA.getPossibleEntries.
  by rewrite filled_row by (eauto using extractSet_range).
Qed.
End SAFacts.

#[export] Program Instance sa_indexing_ok : IndexingOk sa := {
  ix_ok := λ i, ∃ k, wf (sa_policy i) k ∧ tagShift (sa_policy i) ≤ 32 }.
Next Obligation. intros i (k & Hw & _). eauto. Qed.
Next Obligation. done. Qed.
Next Obligation.
  intros i ss (k & Hw & Ht). exists k. split; [|done]. by destruct Hw; split.
Qed.
Next Obligation.
  intros [pol] a (k & Hw & Ht) Hf Ha. cbn in *. pose proof (wf_assoc _ _ Hw).
  pose proof (SAFacts.extractSet_range pol k a Hw) as Hs.
  eexists. split; [by apply (SAFacts.possible pol k)|]. split; [|split].
  - apply NoDup_fmap_2; [intros x y Hxy; lia|apply NoDup_seq].
  - by rewrite length_fmap, length_seq.
  - intros e (w & -> & Hin)%list_elem_of_fmap. apply elem_of_seq in Hin.
    split; [apply entry_in_table; lia|].
    edestruct (entry_position pol (SA.extractSet pol a) w) as [-> ->]; [lia..|done|].
    f_equal. by apply (SAFacts.regenerate_extract pol k).
Qed.
Next Obligation.
  intros [pol] a b (k & Hw & Ht) Ha Hb Heq. cbn in *. unfold SA.getPossibleEntries, SA.extractSet.
  unfold is_u64 in *. by rewrite (blockAddr_shiftr pol k a b) by (done || lia).
Qed.

(** ** The skewed associative policy *)
Module SkewFacts.
Section Skewed.
Context (pol : policy) (k : Z) (Hw : wf pol k) (Hk : 2 ≤ k) (H64 : setShift pol + 2 * k ≤ 64).
Local Notation msb := (k - 1).

Lemma ks : 0 ≤ setShift pol < 31 ∧ tagShift pol = setShift pol + k ∧ k < 32.
Proof. split; [apply Hw|]. split; [apply Hw|]. apply (wf_k _ _ Hw). Qed.

Lemma extractSet_eq a way : 0 ≤ way → is_u64 a →
  ∃ s, Skew.extractSet pol msb a way = Ok s ∧ 0 ≤ s < numSets pol ∧
    Skew.skew msb (Z.shiftr a (setShift pol)) way = Ok s.
Proof.
  intros Hway Ha. pose proof ks as (Hs & Ht & Hk'). unfold Skew.extractSet.
  rewrite Skew.skew_eq by lia. unfold mbind, res_bind. eexists. split; [done|].
  set (s := Nat.iter _ _ _). assert (0 ≤ s < 2 ^ k) as Hss.
  { assert (2 ^ k = 2 ^ (msb + 1)) as -> by (f_equal; lia). apply Skew.iter_hash_word; [lia|].
    apply Skew.skew_word_word; [lia|apply Skew.bits_low_word; lia|].
    rewrite bits_val_spec by lia. replace (2 * (msb + 1) - 1 - (msb + 1) + 1) with (msb + 1) by lia.
    apply Z.mod_pos_bound. lia. }
  rewrite (u32_masked pol k) by done.
  assert (Z.land s (setMask pol) = s) as ->.
  { rewrite (wf_setMask _ _ Hw).
    replace (2 ^ k - 1) with (Z.ones k) by (rewrite Z.ones_equiv; lia).
    rewrite Z.land_ones by lia. by apply Z.mod_small. }
  by rewrite (wf_numSets _ _ Hw).
Qed.

Lemma skew_regenerate a way s : 0 ≤ way → is_u64 a → 0 ≤ s < numSets pol →
  Skew.skew msb (Z.shiftr a (setShift pol)) way = Ok s →
  Skew.regenerateAddr pol msb (extractTag pol a) s way = Ok (blockAddr pol a).
Proof.
  intros Hway Ha Hs Hsk. pose proof ks as (Hsh & Ht & Hk').
  rewrite (wf_numSets _ _ Hw) in Hs. unfold Skew.regenerateAddr.
  replace (msb + 1) with k by lia.
  set (x := Z.lor (shl64 (extractTag pol a) k) s).
  assert (∀ i, 0 ≤ i < k → Z.testbit x i = Z.testbit s i) as Hlow.
  { intros i Hi. subst x. rewrite Z.lor_spec, shl64_testbit by lia.
    rewrite Z.testbit_neg_r by lia. by rewrite andb_false_r. }
  assert (∀ i, k ≤ i < 2 * k → Z.testbit x i = Z.testbit a (i + setShift pol)) as Hhigh.
  { intros i Hi. subst x. rewrite Z.lor_spec, shl64_testbit by lia.
    rewrite (testbit_above s k) by lia. unfold extractTag. rewrite Z.shiftr_spec by lia.
    rewrite orb_false_r, Ht. zcmp. f_equal. lia. }
  erewrite (Skew.deskew_skew msb ltac:(lia) (Z.shiftr a (setShift pol))); [|lia|lia|rewrite Hsk|].
  - unfold mbind, res_bind. f_equal. apply (compose_addr pol k); [done|done|].
    intros i Hi. rewrite shl64_testbit by done. destruct (Z.leb_spec (setShift pol) i).
    + rewrite (setMask_testbit pol k), bits_val_testbit, Z.shiftr_spec by (done || lia).
      replace (i - setShift pol + 0 + setShift pol) with i by lia. zcmp;
        rewrite ?(testbit_above a 64) by (unfold is_u64 in *; lia); done.
    + rewrite Z.testbit_neg_r by lia. by rewrite andb_false_r.
  - f_equal. apply Z.bits_inj'. intros i Hi. rewrite bits_val_testbit by lia.
    rewrite Z.add_0_r. destruct (Z.ltb_spec i k).
    + rewrite Hlow by lia. zcmp. done.
    + rewrite (testbit_above s k) by lia. zcmp.
  - apply Z.bits_inj'. intros i Hi. rewrite !bits_val_testbit by lia.
    destruct (Z.ltb_spec i k); zcmp. rewrite Hhigh, Z.shiftr_spec by lia. done.
Qed.

Lemma possible_loop a n way : filled pol → is_u64 a → 0 ≤ way → way + Z.of_nat n = assoc pol →
  ∃ es : list nat, Skew.getPossibleEntries_loop pol msb a n way = Ok (Some <$> es) ∧ NoDup es ∧
    length es = n ∧
    ∀ e, e ∈ es → (e < numEntries pol)%nat ∧ way ≤ posWay pol e ∧
      Skew.regenerateAddr pol msb (extractTag pol a) (posSet pol e) (posWay pol e)
        = Ok (blockAddr pol a).
Proof.
  intros Hf Ha. pose proof (wf_assoc _ _ Hw). revert way.
  induction n as [|n IH]; intros way Hway Hn; cbn [Skew.getPossibleEntries_loop].
  - exists []. split; [done|]. split; [apply NoDup_nil_2|]. split; [done|].
    by intros ? ?%elem_of_nil.
  - destruct (extractSet_eq a way Hway Ha) as (s & -> & Hs & Hsk).
    destruct (IH (way + 1) ltac:(lia) ltac:(lia)) as (es & Hes & Hnd & Hlen & Hall).
    unfold mbind, res_bind. rewrite getEntry_filled by (done || lia). rewrite Hes.
    set (e0 := Z.to_nat (s * assoc pol + way)).
    assert (e0 = Z.to_nat s * Z.to_nat (assoc pol) + Z.to_nat way)%nat as He0
      by (subst e0; rewrite Z2Nat.inj_add, Z2Nat.inj_mul by nia; done).
    destruct (entry_position pol s (Z.to_nat way) e0) as [Hp1 Hp2]; [lia..|done|].
    rewrite Z2Nat.id in Hp2 by lia.
    exists (e0 :: es). split; [done|]. split; [|split; [cbn; lia|]].
    + constructor; [|done]. intros Hin. destruct (Hall _ Hin) as (_ & Hle & _). lia.
    + intros e [->|Hin]%elem_of_cons; [|destruct (Hall e Hin) as (? & ? & ?); repeat split; auto; lia].
      rewrite Hp1, Hp2. split; [rewrite He0; apply entry_in_table; lia|].
      split; [lia|]. by apply skew_regenerate.
Qed.

Lemma possible_block n a b way : is_u64 a → is_u64 b → blockAddr pol a = blockAddr pol b →
  Skew.getPossibleEntries_loop pol msb a n way = Skew.getPossibleEntries_loop pol msb b n way.
Proof.
  intros Ha Hb Heq. unfold is_u64 in *. revert way.
  induction n as [|n IH]; intros way; [done|]. cbn [Skew.getPossibleEntries_loop].
  unfold Skew.extractSet. rewrite (blockAddr_shiftr pol k a b) by (done || lia). by rewrite IH.
Qed.
End Skewed.
End SkewFacts.

#[export] Program Instance skewed_indexing_ok : IndexingOk skewed := {
  ix_ok := λ i, ∃ k, wf (sk_policy i) k ∧ 2 ≤ k ∧ setShift (sk_policy i) + 2 * k ≤ 64 ∧
                     sk_msbShift i = k - 1 }.
Next Obligation. intros i (k & Hw & _). eauto. Qed.
Next Obligation. done. Qed.
Next Obligation.
  intros i ss (k & Hw & Hr). exists k. split; [|done]. by destruct Hw; split.
Qed.
Next Obligation.
  intros [pol msb] a (k & Hw & Hk & H64 & Hm) Hf Ha. cbn in *. subst msb.
  pose proof (wf_assoc _ _ Hw).
  destruct (SkewFacts.possible_loop pol k Hw Hk H64 a (Z.to_nat (assoc pol)) 0)
    as (es & Hes & Hnd & Hlen & Hall); [done..|lia|].
  exists es. split; [done|]. split; [done|]. split; [done|].
  intros e He. destruct (Hall e He) as (? & _ & ?). done.
Qed.
Next Obligation.
  intros [pol msb] a b (k & Hw & Hk & H64 & Hm) Ha Hb Heq. cbn in *. subst msb.
  by apply (SkewFacts.possible_block pol k).
Qed.

Lemma SkewedAssociative_ok p pol m :
  p_entry_size p < 2 ^ 31 → Skew.SkewedAssociative p = Ok (pol, m) →
  ix_ok (mkSkewed pol m) ∧ sets pol = table pol 0.
Proof.
  intros He H. unfold Skew.SkewedAssociative in H. apply bind_ok in H as (pol' & Hp & H).
  apply BaseIndexingPolicy_wf in Hp as (k & Hw & Hsets & _); [|done].
  rewrite (wf_numSets _ _ Hw), floorLog2_pow2 in H by apply Hw.
  unfold mbind at 1, res_bind at 1 in H. cbv beta iota zeta in H. inv_ok. bool_to_prop.
  split; [|done]. exists k. pose proof (wf_k _ _ Hw). cbn. repeat split; try apply Hw; try lia.
  destruct (Z.leb_spec 2 k); [done|]. assert (k = 0 ∨ k = 1) as [->| ->] by lia; cbn in *; lia.
Qed.

(** ** Properties *)

(** Skewing loses no address bits: for every geometry the constructor
    accepts, every 64-bit address and every way, also above the eight
    distinct functions, the set is in range and the tag, the set and the way
    give the block's address back. *)
Theorem skewed_roundtrip p pol m a way :
  p_entry_size p < 2 ^ 31 → Skew.SkewedAssociative p = Ok (pol, m) → is_u64 a → 0 ≤ way →
  ∃ s, Skew.extractSet pol m a way = Ok s ∧ 0 ≤ s < numSets pol ∧
       Skew.regenerateAddr pol m (extractTag pol a) s way = Ok (blockAddr pol a).
Proof.
  intros He Hc Ha Hway.
  apply SkewedAssociative_ok in Hc as [(k & Hw & Hk & H64 & Hm) _]; [|done]. cbn in *. subst m.
  destruct (SkewFacts.extractSet_eq pol k Hw Hk H64 a way Hway Ha) as (s & Hs & Hr & Hsk).
  exists s. split; [done|]. split; [done|]. by apply SkewFacts.skew_regenerate.
Qed.

Definition example_params : params := mkParams 65536 64 16.
Definition example_skewed : policy * Z :=
  match Skew.SkewedAssociative example_params with
  | Ok r => r
  | Err _ => (mkPolicy 0 0 0 0 0 [], 0)
  end.

Lemma skewed_roundtrip_witness :
  ∃ s, Skew.extractSet example_skewed.1 example_skewed.2 0xdeadbeef 13 = Ok s ∧
       0 ≤ s < numSets example_skewed.1 ∧
       Skew.regenerateAddr example_skewed.1 example_skewed.2
         (extractTag example_skewed.1 0xdeadbeef) s 13 = Ok (blockAddr example_skewed.1 0xdeadbeef).
Proof.
  apply (skewed_roundtrip example_params); [by vm_compute|by vm_compute| |lia].
  split; [by vm_compute|by vm_compute].
Defined.

(** In the set associative policy the address survives exactly when the
    offset and set bits together fit 32 bits: [regenerateAddr] shifts the
    32-bit set number at that width, so a cache with more than 4 GiB per way
    forgets the upper set bits of the blocks it writes back. *)
Theorem setassoc_roundtrip_iff p pol :
  p_entry_size p < 2 ^ 31 → BaseIndexingPolicy p = Ok pol →
  (∀ a way, is_u64 a →
     SA.regenerateAddr pol (extractTag pol a) (SA.extractSet pol a) way = blockAddr pol a)
  ↔ numSets pol * 2 ^ setShift pol ≤ 2 ^ 32.
Proof.
  intros He Hc. apply BaseIndexingPolicy_wf in Hc as (k & Hw & _ & _); [|done].
  pose proof (wf_k _ _ Hw). pose proof (wf_setShift _ _ Hw). pose proof (wf_tagShift _ _ Hw) as Ht.
  assert (numSets pol * 2 ^ setShift pol = 2 ^ tagShift pol) as ->.
  { rewrite (wf_numSets _ _ Hw), Ht, Z.add_comm, Z.pow_add_r by lia. done. }
  rewrite <-(Z.pow_le_mono_r_iff 2) by lia. split.
  - intros Hall. destruct (Z.leb_spec (tagShift pol) 32); [done|exfalso].
    assert (is_u64 (2 ^ 32)) as Hu by (by vm_compute).
    pose proof (f_equal (λ x, Z.testbit x 32) (Hall (2 ^ 32) 0 Hu)) as Hb. cbn beta in Hb.
    rewrite (blockAddr_testbit pol k), pow2_testbit in Hb by (done || lia).
    rewrite (proj2 (Z.leb_le _ _)) in Hb by lia. unfold SA.regenerateAddr in Hb.
    rewrite Z.lor_spec, shl64_testbit in Hb by lia.
    rewrite (Z.testbit_neg_r _ (32 - _)) in Hb by lia. unfold u32 in Hb.
    by rewrite Z.mod_pow2_bits_high in Hb by lia.
  - intros Hle a way Ha. by apply (SAFacts.regenerate_extract pol k).
Qed.

Lemma setassoc_roundtrip_iff_witness :
  ∃ pol, BaseIndexingPolicy example_params = Ok pol ∧
    SA.regenerateAddr pol (extractTag pol 0xdeadbeef) (SA.extractSet pol 0xdeadbeef) 3 =
      blockAddr pol 0xdeadbeef.
Proof.
  exists example_skewed.1.
  assert (BaseIndexingPolicy example_params = Ok example_skewed.1) as Hd by (by vm_compute).
  split; [exact Hd|].
  apply (proj2 (setassoc_roundtrip_iff example_params example_skewed.1 ltac:(by vm_compute) Hd)).
  - by vm_compute.
  - split; by vm_compute.
Defined.
End Idx.
