(* ===== verification/RpBase.v ===== *)
(** * The interface of the replacement policies ([mem/cache/replacement_policies/base.hh])

    The class [ReplacementPolicy] has the operations [BaseReplacementPolicy]
    declares, on the data of all entries; the search for a victim that
    several policies share is here too. *)

From S2P Require Import Prelude.

Module RpBase.

(** What a call sees of the simulator: the current tick and the generator
    [random_mt], whose [random(lo, hi)] lies between its bounds. *)
Record env := mkEnv { curTick : Z; random : Z → Z → Z }.
Definition env_ok (w : env) : Prop := ∀ lo hi, lo ≤ hi → lo ≤ random w lo hi ≤ hi.

(** Entries are numbered in the order [instantiateEntry] makes their data. *)
Class ReplacementPolicy (P : Type) := {
  rp_count : P → nat;
  rp_instantiateEntry : P → res P;
  rp_invalidate : env → P → nat → res P;
  rp_touch : env → P → nat → res P;
  rp_reset : env → P → nat → res P;
  rp_getVictim : env → P → list nat → res (nat * P) }.

(** ** The data behind the entries *)
Definition get {D} (d : list D) (e : nat) : res D :=
  match d !! e with Some x => Ok x | None => Err Undef end.
Definition upd {D} (d : list D) (e : nat) (f : D → D) : res (list D) :=
  x ← get d e; Ok (<[e := f x]> d).

(** "Visit all candidates to find victim": the loop several policies share,
    with the comparison that replaces the current victim. *)
Fixpoint scan {D} (better : D → D → bool) (d : list D) (victim : nat) (cs : list nat) : res nat :=
  match cs with
  | [] => Ok victim
  | c :: cs =>
      dc ← get d c;
      dv ← get d victim;
      scan better d (if better dc dv then c else victim) cs
  end.
Definition scan_all {D} (better : D → D → bool) (d : list D) (cs : list nat) : res nat :=
  match cs with [] => Err AssertFail | c0 :: _ => scan better d c0 cs end.
End RpBase.
