(* ===== verification/LruRP.v ===== *)
(** * Least recently used ([mem/cache/replacement_policies/lru_rp.cc]) *)

From S2P Require Import Prelude.
From S2P Require Import RpBase.

Module LRU.
Import RpBase.

Record data := mkData { lastTouchTick : Z }.
Definition instantiateEntry (d : list data) : list data := d ++ [mkData 0].
Definition invalidate (d : list data) (e : nat) : res (list data) := upd d e (λ _, mkData 0).
Definition touch (w : env) (d : list data) (e : nat) : res (list data) :=
  upd d e (λ _, mkData (curTick w)).
Definition reset (w : env) (d : list data) (e : nat) : res (list data) :=
  upd d e (λ _, mkData (curTick w)).
Definition older (c v : data) : bool := lastTouchTick c <? lastTouchTick v.
Definition getVictim (d : list data) (cs : list nat) : res nat := scan_all older d cs.
End LRU.
