(* ===== verification/MruRP.v ===== *)
(** * Most recently used ([mem/cache/replacement_policies/mru_rp.cc]) *)

From S2P Require Import Prelude.
From S2P Require Import RpBase.

Module MRU.
Import RpBase.

Record data := mkData { lastTouchTick : Z }.
Definition instantiateEntry (d : list data) : list data := d ++ [mkData 0].
Definition invalidate (d : list data) (e : nat) : res (list data) := upd d e (λ _, mkData 0).
Definition touch (w : env) (d : list data) (e : nat) : res (list data) :=
  upd d e (λ _, mkData (curTick w)).
Definition reset (w : env) (d : list data) (e : nat) : res (list data) :=
  upd d e (λ _, mkData (curTick w)).
(** The search stops at an entry that was never used. *)
Fixpoint search (d : list data) (victim : nat) (cs : list nat) : res nat :=
  match cs with
  | [] => Ok victim
  | c :: cs =>
      dc ← get d c;
      if lastTouchTick dc =? 0 then Ok c
      else dv ← get d victim;
           search d (if lastTouchTick dv <? lastTouchTick dc then c else victim) cs
  end.
Definition getVictim (d : list data) (cs : list nat) : res nat :=
  match cs with [] => Err AssertFail | c0 :: _ => search d c0 cs end.
End MRU.
