(* ===== verification/FifoRP.v ===== *)
(** * First in, first out ([mem/cache/replacement_policies/fifo_rp.cc]) *)

From S2P Require Import Prelude.
From S2P Require Import RpBase.

Module FIFO.
Import RpBase.

Record data := mkData { tickInserted : Z }.
Definition instantiateEntry (d : list data) : list data := d ++ [mkData 0].
Definition invalidate (d : list data) (e : nat) : res (list data) := upd d e (λ _, mkData 0).
Definition touch (d : list data) (e : nat) : res (list data) := Ok d.
Definition reset (w : env) (d : list data) (e : nat) : res (list data) :=
  upd d e (λ _, mkData (curTick w)).
Definition older (c v : data) : bool := tickInserted c <? tickInserted v.
Definition getVictim (d : list data) (cs : list nat) : res nat := scan_all older d cs.
End FIFO.
