(* ===== verification/LfuRP.v ===== *)
(** * Least frequently used; the count is an [unsigned] ([mem/cache/replacement_policies/lfu_rp.cc]) *)

From S2P Require Import Prelude.
From S2P Require Import RpBase.

Module LFU.
Import RpBase.

Record data := mkData { refCount : Z }.
Definition instantiateEntry (d : list data) : list data := d ++ [mkData 0].
Definition invalidate (d : list data) (e : nat) : res (list data) := upd d e (λ _, mkData 0).
Definition touch (d : list data) (e : nat) : res (list data) :=
  upd d e (λ x, mkData (u32 (refCount x + 1))).
Definition reset (d : list data) (e : nat) : res (list data) := upd d e (λ _, mkData 1).
Definition rarer (c v : data) : bool := refCount c <? refCount v.
Definition getVictim (d : list data) (cs : list nat) : res nat := scan_all rarer d cs.
End LFU.
