(* ===== verification/BipRP.v ===== *)
(** * Bimodal insertion: LRU whose insertions are mostly at the old end ([mem/cache/replacement_policies/bip_rp.cc]) *)

From S2P Require Import Prelude.
From S2P Require Import LruRP.
From S2P Require Import RpBase.

Module BIP.
Import RpBase.

Record policy := mkPolicy { btp : Z; entries : list LRU.data }.
Definition with_entries (p : policy) (d : list LRU.data) : policy := mkPolicy (btp p) d.
Definition reset (w : env) (p : policy) (e : nat) : res policy :=
  d ← upd (entries p) e (λ _, if random w 1 100 <=? btp p then LRU.mkData (curTick w)
                              else LRU.mkData 1);
  Ok (with_entries p d).
End BIP.
