(* ===== verification/RandomRP.v ===== *)
(** * Random ([mem/cache/replacement_policies/random_rp.cc]) *)

From S2P Require Import Prelude.
From S2P Require Import RpBase.

Module Random.
Import RpBase.

Record data := mkData { valid : bool }.
Definition instantiateEntry (d : list data) : list data := d ++ [mkData false].
Definition invalidate (d : list data) (e : nat) : res (list data) := upd d e (λ _, mkData false).
Definition touch (d : list data) (e : nat) : res (list data) := Ok d.
Definition reset (d : list data) (e : nat) : res (list data) := upd d e (λ _, mkData true).
Fixpoint search (d : list data) (victim : nat) (cs : list nat) : res nat :=
  match cs with
  | [] => Ok victim
  | c :: cs => dc ← get d c; if valid dc then search d victim cs else Ok c
  end.
Definition getVictim (w : env) (d : list data) (cs : list nat) : res nat :=
  assertb (negb (bool_decide (cs = [])));;
  match cs !! Z.to_nat (random w 0 (Z.of_nat (length cs) - 1)) with
  | Some victim => search d victim cs
  | None => Err Undef
  end.
End Random.
