(* ===== verification/SecondChanceRP.v ===== *)
(** * Second chance: FIFO data and a flag ([mem/cache/replacement_policies/second_chance_rp.cc]) *)

From S2P Require Import Prelude.
From S2P Require Import FifoRP.
From S2P Require Import RpBase.

Module SC.
Import RpBase.

Record data := mkData { tickInserted : Z; hasSecondChance : bool }.
Definition fifo (x : data) : FIFO.data := FIFO.mkData (tickInserted x).
Definition instantiateEntry (d : list data) : list data := d ++ [mkData 0 false].
Definition useSecondChance (w : env) (d : list data) (e : nat) : res (list data) :=
  upd d e (λ _, mkData (curTick w) false).
Definition invalidate (d : list data) (e : nat) : res (list data) :=
  upd d e (λ _, mkData 0 false).
Definition touch (d : list data) (e : nat) : res (list data) :=
  upd d e (λ x, mkData (tickInserted x) true).
Definition reset (w : env) (d : list data) (e : nat) : res (list data) :=
  upd d e (λ _, mkData (curTick w) false).
(** "Search for invalid entries, as they have the eviction priority". *)
Fixpoint find_invalid (d : list data) (cs : list nat) : res (option nat) :=
  match cs with
  | [] => Ok None
  | c :: cs =>
      dc ← get d c;
      if (tickInserted dc =? 0) && negb (hasSecondChance dc) then Ok (Some c)
      else find_invalid d cs
  end.
(** The [while (search_victim)] loop, with a bound on its iterations. *)
Fixpoint search (fuel : nat) (w : env) (d : list data) (cs : list nat) : res (nat * list data) :=
  match fuel with
  | O => Err Diverge
  | S fuel =>
      victim ← FIFO.getVictim (fifo <$> d) cs;
      dv ← get d victim;
      if hasSecondChance dv then d' ← useSecondChance w d victim; search fuel w d' cs
      else Ok (victim, d)
  end.
Definition getVictim (w : env) (d : list data) (cs : list nat) : res (nat * list data) :=
  assertb (negb (bool_decide (cs = [])));;
  inv ← find_invalid d cs;
  match inv with
  | Some c => Ok (c, d)
  | None => search (S (length d)) w d cs
  end.
End SC.
