(* ===== verification/WeightedLruRP.v ===== *)
(** * Weighted LRU ([mem/cache/replacement_policies/weighted_lru_rp.cc]) *)

From S2P Require Import Prelude.
From S2P Require Import RpBase.

Module WLRU.
Import RpBase.

Record data := mkData { last_occ_ptr : Z; last_touch_tick : Z }.
Definition instantiateEntry (d : list data) : list data := d ++ [mkData 0 0].
Definition touch (w : env) (d : list data) (e : nat) : res (list data) :=
  upd d e (λ x, mkData (last_occ_ptr x) (curTick w)).
Definition touch_occ (w : env) (d : list data) (e : nat) (occupancy : Z) : res (list data) :=
  upd d e (λ _, mkData occupancy (curTick w)).
Definition reset (w : env) (d : list data) (e : nat) : res (list data) :=
  upd d e (λ x, mkData (last_occ_ptr x) (curTick w)).
Definition invalidate (d : list data) (e : nat) : res (list data) :=
  upd d e (λ x, mkData (last_occ_ptr x) 0).
Definition lighter (c v : data) : bool :=
  if last_occ_ptr c <? last_occ_ptr v then true
  else if last_occ_ptr c =? last_occ_ptr v then last_touch_tick c <? last_touch_tick v
  else false.
Definition getVictim (d : list data) (cs : list nat) : res nat := scan_all lighter d cs.
End WLRU.
