(* ===== verification/BrripRP.v ===== *)
(** * Bimodal re-reference interval prediction ([mem/cache/replacement_policies/brrip_rp.cc]) *)

From S2P Require Import Prelude.
From S2P Require Import SatCounter.
From S2P Require Import RpBase.

Module BRRIP.
Import RpBase.

Record data := mkData { rrpv : Sat.counter; valid : bool }.
Record policy := mkPolicy {
  numRRPVBits : Z; hitPriority : bool; btp : Z; entries : list data }.
Definition with_entries (p : policy) (d : list data) : policy :=
  mkPolicy (numRRPVBits p) (hitPriority p) (btp p) d.
Definition BRRIPRP (num_bits : Z) (hit_priority : bool) (btp : Z) : res policy :=
  fatal_if (u32 num_bits <=? 0);; Ok (mkPolicy (u32 num_bits) hit_priority btp []).
Definition instantiateEntry (p : policy) : res policy :=
  c ← Sat.SatCounter (numRRPVBits p) 0;
  Ok (with_entries p (entries p ++ [mkData c false])).
Definition invalidate (p : policy) (e : nat) : res policy :=
  d ← upd (entries p) e (λ x, mkData (rrpv x) false); Ok (with_entries p d).
Definition touch (p : policy) (e : nat) : res policy :=
  d ← upd (entries p) e (λ x,
        mkData (if hitPriority p then Sat.reset (rrpv x) else Sat.decr (rrpv x)) (valid x));
  Ok (with_entries p d).
Definition reset (w : env) (p : policy) (e : nat) : res policy :=
  d ← upd (entries p) e (λ x,
        let c := (Sat.saturate (rrpv x)).2 in
        mkData (if random w 1 100 <=? btp p then Sat.decr c else c) true);
  Ok (with_entries p d).
(** The first loop: an invalid candidate, or the candidate with the largest
    interval. *)
Fixpoint search (d : list data) (victim : nat) (victim_RRPV : Z) (cs : list nat)
    : res (nat + nat) :=
  match cs with
  | [] => Ok (inr victim)
  | c :: cs =>
      dc ← get d c;
      if negb (valid dc) then Ok (inl c)
      else let candidate_RRPV := Sat.value (rrpv dc) in
           if victim_RRPV <? candidate_RRPV then search d c candidate_RRPV cs
           else search d victim victim_RRPV cs
  end.
(** The second loop: all candidates age by [diff]. *)
Fixpoint age (d : list data) (diff : Z) (cs : list nat) : res (list data) :=
  match cs with
  | [] => Ok d
  | c :: cs =>
      dc ← get d c;
      r ← Sat.add_assign (rrpv dc) diff;
      age (<[c := mkData r (valid dc)]> d) diff cs
  end.
Definition getVictim (p : policy) (cs : list nat) : res (nat * policy) :=
  match cs with
  | [] => Err AssertFail
  | c0 :: _ =>
      d0 ← get (entries p) c0;
      r ← search (entries p) c0 (Sat.value (rrpv d0)) cs;
      match r with
      | inl c => Ok (c, p)
      | inr victim =>
          dv ← get (entries p) victim;
          let '(diff, sat) := Sat.saturate (rrpv dv) in
          let d := <[victim := mkData sat (valid dv)]> (entries p) in
          if 0 <? diff then d ← age d diff cs; Ok (victim, with_entries p d)
          else Ok (victim, with_entries p d)
      end
  end.
End BRRIP.
