(* ===== verification/Replacement.v ===== *)
(** * Cache replacement policies ([mem/cache/replacement_policies/])

    The policies that keep one record per entry (LRU, MRU, FIFO, LFU, BIP,
    BRRIP, random, second chance and weighted LRU) behind the interface
    [ReplacementPolicy], and what they promise.  [PolicyOk] states what the tag store relies on, whatever the policy: the
    updates succeed on an instantiated entry and the victim is one of the
    candidates. *)

From S2P Require Import Prelude.
From S2P Require Import SatCounter.
From S2P Require Import RpBase.
From S2P Require Import LruRP.
From S2P Require Import MruRP.
From S2P Require Import FifoRP.
From S2P Require Import LfuRP.
From S2P Require Import BipRP.
From S2P Require Import RandomRP.
From S2P Require Import SecondChanceRP.
From S2P Require Import WeightedLruRP.
From S2P Require Import BrripRP.

Module Rp.
Export RpBase.

(** ** The policies behind the interface

    A policy whose operations leave the choice of victim without effect on
    its data returns the data unchanged. *)
Definition pure_victim {P} (p : P) (r : res nat) : res (nat * P) := v ← r; Ok (v, p).

#[export] Instance lru_policy : ReplacementPolicy (list LRU.data) := {
  rp_count := length;
  rp_instantiateEntry := λ d, Ok (LRU.instantiateEntry d);
  rp_invalidate := λ _, LRU.invalidate;
  rp_touch := LRU.touch;
  rp_reset := LRU.reset;
  rp_getVictim := λ _ d cs, pure_victim d (LRU.getVictim d cs) }.

#[export] Instance mru_policy : ReplacementPolicy (list MRU.data) := {
  rp_count := length;
  rp_instantiateEntry := λ d, Ok (MRU.instantiateEntry d);
  rp_invalidate := λ _, MRU.invalidate;
  rp_touch := MRU.touch;
  rp_reset := MRU.reset;
  rp_getVictim := λ _ d cs, pure_victim d (MRU.getVictim d cs) }.

#[export] Instance fifo_policy : ReplacementPolicy (list FIFO.data) := {
  rp_count := length;
  rp_instantiateEntry := λ d, Ok (FIFO.instantiateEntry d);
  rp_invalidate := λ _, FIFO.invalidate;
  rp_touch := λ _, FIFO.touch;
  rp_reset := FIFO.reset;
  rp_getVictim := λ _ d cs, pure_victim d (FIFO.getVictim d cs) }.

#[export] Instance lfu_policy : ReplacementPolicy (list LFU.data) := {
  rp_count := length;
  rp_instantiateEntry := λ d, Ok (LFU.instantiateEntry d);
  rp_invalidate := λ _, LFU.invalidate;
  rp_touch := λ _, LFU.touch;
  rp_reset := λ _, LFU.reset;
  rp_getVictim := λ _ d cs, pure_victim d (LFU.getVictim d cs) }.

(** Everything but [reset] is inherited from LRU. *)
#[export] Instance bip_policy : ReplacementPolicy BIP.policy := {
  rp_count := λ p, length (BIP.entries p);
  rp_instantiateEntry := λ p, Ok (BIP.with_entries p (LRU.instantiateEntry (BIP.entries p)));
  rp_invalidate := λ _ p e, BIP.with_entries p <$> LRU.invalidate (BIP.entries p) e;
  rp_touch := λ w p e, BIP.with_entries p <$> LRU.touch w (BIP.entries p) e;
  rp_reset := BIP.reset;
  rp_getVictim := λ _ p cs, pure_victim p (LRU.getVictim (BIP.entries p) cs) }.

#[export] Instance random_policy : ReplacementPolicy (list Random.data) := {
  rp_count := length;
  rp_instantiateEntry := λ d, Ok (Random.instantiateEntry d);
  rp_invalidate := λ _, Random.invalidate;
  rp_touch := λ _, Random.touch;
  rp_reset := λ _, Random.reset;
  rp_getVictim := λ w d cs, pure_victim d (Random.getVictim w d cs) }.

#[export] Instance sc_policy : ReplacementPolicy (list SC.data) := {
  rp_count := length;
  rp_instantiateEntry := λ d, Ok (SC.instantiateEntry d);
  rp_invalidate := λ _, SC.invalidate;
  rp_touch := λ _, SC.touch;
  rp_reset := SC.reset;
  rp_getVictim := SC.getVictim }.

#[export] Instance wlru_policy : ReplacementPolicy (list WLRU.data) := {
  rp_count := length;
  rp_instantiateEntry := λ d, Ok (WLRU.instantiateEntry d);
  rp_invalidate := λ _, WLRU.invalidate;
  rp_touch := WLRU.touch;
  rp_reset := WLRU.reset;
  rp_getVictim := λ _ d cs, pure_victim d (WLRU.getVictim d cs) }.

#[export] Instance brrip_policy : ReplacementPolicy BRRIP.policy := {
  rp_count := λ p, length (BRRIP.entries p);
  rp_instantiateEntry := BRRIP.instantiateEntry;
  rp_invalidate := λ _, BRRIP.invalidate;
  rp_touch := λ _, BRRIP.touch;
  rp_reset := BRRIP.reset;
  rp_getVictim := λ _, BRRIP.getVictim }.

(** What the tag store relies on.  [rp_arity] is the number of candidates a
    policy accepts; it never changes. *)
Class PolicyOk (P : Type) `{ReplacementPolicy P} := {
  rp_ok : P → Prop;
  rp_arity : P → nat → Prop;
  rp_same : P → P → Prop := λ p p', rp_ok p' ∧ ∀ n, rp_arity p n → rp_arity p' n;
  rp_instantiate_ok : ∀ p, rp_ok p →
    ∃ p', rp_instantiateEntry p = Ok p' ∧ rp_same p p' ∧ rp_count p' = S (rp_count p);
  rp_invalidate_ok : ∀ w p e, rp_ok p → (e < rp_count p)%nat →
    ∃ p', rp_invalidate w p e = Ok p' ∧ rp_same p p' ∧ rp_count p' = rp_count p;
  rp_touch_ok : ∀ w p e, rp_ok p → (e < rp_count p)%nat →
    ∃ p', rp_touch w p e = Ok p' ∧ rp_same p p' ∧ rp_count p' = rp_count p;
  rp_reset_ok : ∀ w p e, rp_ok p → (e < rp_count p)%nat →
    ∃ p', rp_reset w p e = Ok p' ∧ rp_same p p' ∧ rp_count p' = rp_count p;
  rp_victim_ok : ∀ w p cs, env_ok w → rp_ok p → cs ≠ [] → rp_arity p (length cs) →
    Forall (λ e, e < rp_count p)%nat cs →
    ∃ v p', rp_getVictim w p cs = Ok (v, p') ∧ v ∈ cs ∧ rp_same p p' ∧ rp_count p' = rp_count p }.

(** ** Helper lemmas *)
Lemma get_ok {D} (d : list D) e : (e < length d)%nat → ∃ x, get d e = Ok x ∧ d !! e = Some x.
Proof. intros H. apply lookup_lt_is_Some in H as [x Hx]. exists x. unfold get. by rewrite Hx. Qed.

Lemma upd_ok {D} (d : list D) e f : (e < length d)%nat →
  ∃ x, d !! e = Some x ∧ upd d e f = Ok (<[e := f x]> d).
Proof. intros H. destruct (get_ok d e H) as (x & Hg & Hx). exists x. unfold upd. by rewrite Hg. Qed.

(** A comparison that the loop can rely on: no candidate replaces itself and
    a candidate that beats the victim beats everyone the victim is not beaten
    by. *)
Class VictimOrder {D} (better : D → D → bool) := {
  so_irrefl : ∀ x, better x x = false;
  so_trans : ∀ x y z, better x y = true → better y z = true → better x z = true;
  so_cotrans : ∀ x y z, better x y = true → better z y = false → better x z = true }.

(** [v] is the first candidate that no candidate beats. *)
Definition first_best {D} (better : D → D → bool) (d : list D) (cs : list nat) (v : nat) : Prop :=
  ∃ l1 l2 x, cs = l1 ++ v :: l2 ∧ d !! v = Some x ∧
    (∀ c y, c ∈ l1 → d !! c = Some y → better x y = true) ∧
    (∀ c y, c ∈ l2 → d !! c = Some y → better y x = false).

(** One more candidate. *)
Lemma first_best_step {D} (better : D → D → bool) `{!VictimOrder better} (d : list D) pre v c x y :
  first_best better d pre v → d !! v = Some x → d !! c = Some y →
  first_best better d (pre ++ [c]) (if better y x then c else v).
Proof.
  intros (l1 & l2 & x' & -> & Hx' & H1 & H2) Hx Hy.
  assert (x' = x) as -> by congruence. destruct (better y x) eqn:Hb.
  - exists (l1 ++ v :: l2), [], y. split; [done|]. split; [done|].
    split; [|by intros ? ? ?%elem_of_nil]. intros c' z Hin Hz.
    apply elem_of_app in Hin as [Hin|[->|Hin]%elem_of_cons].
    + eapply so_trans; [exact Hb|]. by apply (H1 c').
    + by simplify_eq.
    + eapply so_cotrans; [exact Hb|]. by apply (H2 c').
  - exists l1, (l2 ++ [c]), x. split; [by rewrite <-app_assoc|]. split; [done|]. split; [done|].
    intros c' z [Hin| ->%list_elem_of_singleton]%elem_of_app Hz; [by apply (H2 c')|by simplify_eq].
Qed.

Lemma first_best_lookup {D} (better : D → D → bool) (d : list D) cs v :
  first_best better d cs v → ∃ x, d !! v = Some x.
Proof. intros (? & ? & x & _ & Hx & _). eauto. Qed.

Lemma first_best_singleton {D} (better : D → D → bool) (d : list D) c x :
  d !! c = Some x → first_best better d [c] c.
Proof.
  intros Hx. exists [], [], x. split; [done|]. split; [done|].
  by split; intros ? ? ?%elem_of_nil.
Qed.

Lemma scan_spec {D} (better : D → D → bool) `{!VictimOrder better} (d : list D) pre v cs :
  first_best better d pre v → Forall (λ e, e < length d)%nat cs →
  ∃ v', scan better d v cs = Ok v' ∧ first_best better d (pre ++ cs) v'.
Proof.
  revert pre v. induction cs as [|c cs IH]; intros pre v Hpre Hcs; cbn [scan].
  - exists v. by rewrite app_nil_r.
  - apply Forall_cons in Hcs as [Hc Hcs]. destruct (get_ok d c Hc) as (y & -> & Hy).
    destruct (first_best_lookup _ _ _ _ Hpre) as [x Hx].
    unfold get at 1. rewrite Hx. cbn [mbind res_bind]. rewrite cons_middle, app_assoc.
    apply IH; [|done]. by apply first_best_step.
Qed.

Lemma scan_all_spec {D} (better : D → D → bool) `{!VictimOrder better} (d : list D) cs :
  cs ≠ [] → Forall (λ e, e < length d)%nat cs →
  ∃ v, scan_all better d cs = Ok v ∧ first_best better d cs v.
Proof.
  intros Hne Hcs. destruct cs as [|c0 cs]; [done|]. unfold scan_all.
  pose proof Hcs as [Hc0 Hcs']%Forall_cons. destruct (get_ok d c0 Hc0) as (x & Hg & Hx).
  cbn [scan]. rewrite Hg. cbn [mbind res_bind]. rewrite so_irrefl.
  apply (scan_spec better d [c0] c0 cs); [|done]. by eapply first_best_singleton.
Qed.

Lemma first_best_elem {D} (better : D → D → bool) d cs v : first_best better d cs v → v ∈ cs.
Proof. intros (l1 & l2 & x & -> & _). apply elem_of_app. right. by apply elem_of_cons; left. Qed.

(** A strict order that compares integer keys. *)
Lemma key_order {D} (key : D → Z) : VictimOrder (λ x y, key x <? key y).
Proof.
  split.
  - intros x. apply Z.ltb_irrefl.
  - intros x y z. rewrite !Z.ltb_lt. lia.
  - intros x y z. rewrite !Z.ltb_lt, Z.ltb_ge. lia.
Qed.
#[export] Instance lru_order : VictimOrder LRU.older := key_order LRU.lastTouchTick.
#[export] Instance fifo_order : VictimOrder FIFO.older := key_order FIFO.tickInserted.
#[export] Instance lfu_order : VictimOrder LFU.rarer := key_order LFU.refCount.
#[export] Instance wlru_order : VictimOrder WLRU.lighter.
Proof.
  split; unfold WLRU.lighter.
  - intros x. repeat case_if; lia || done.
  - intros x y z. repeat case_if; intros; bool_to_prop; try done; try lia.
  - intros x y z. repeat case_if; intros; bool_to_prop; try done; try lia.
Qed.

(** ** The interface discharged *)
(** An update of one record, behind the interface. *)
Ltac upd_case :=
  match goal with
  | H : (?e < length ?d)%nat |- context [upd ?d ?e ?f] =>
      let x := fresh "x" in let Hx := fresh "Hx" in let Hu := fresh "Hu" in
      destruct (upd_ok d e f H) as (x & Hx & Hu); rewrite Hu;
      eexists; split; [reflexivity|split; [by repeat split|apply length_insert]]
  end.
Ltac add_case := eexists; split; [reflexivity|split; [by repeat split|etransitivity; [apply length_app|cbn; lia]]].
Ltac keep_case := eexists; split; [reflexivity|by repeat split].

Lemma pure_victim_ok {P} (p : P) r v (Q : nat → P → Prop) :
  r = Ok v → Q v p → ∃ v' p', pure_victim p r = Ok (v', p') ∧ Q v' p'.
Proof. intros -> HQ. exists v, p. done. Qed.

#[export] Program Instance lru_ok : PolicyOk (list LRU.data) :=
  { rp_ok := λ _, True; rp_arity := λ _ _, True }.
Next Obligation. intros d _. add_case. Qed.
Next Obligation. intros w d e _ He. cbn in *. unfold LRU.invalidate. upd_case. Qed.
Next Obligation. intros w d e _ He. cbn in *. unfold LRU.touch. upd_case. Qed.
Next Obligation. intros w d e _ He. cbn in *. unfold LRU.reset. upd_case. Qed.
Next Obligation.
  intros w d cs _ _ Hne _ Hcs. destruct (scan_all_spec LRU.older d cs Hne Hcs) as (v & Hv & Hb).
  eapply pure_victim_ok; [exact Hv|]. split; [by eapply first_best_elem|by repeat split].
Qed.

#[export] Program Instance fifo_ok : PolicyOk (list FIFO.data) :=
  { rp_ok := λ _, True; rp_arity := λ _ _, True }.
Next Obligation. intros d _. add_case. Qed.
Next Obligation. intros w d e _ He. cbn in *. unfold FIFO.invalidate. upd_case. Qed.
Next Obligation. intros w d e _ He. keep_case. Qed.
Next Obligation. intros w d e _ He. cbn in *. unfold FIFO.reset. upd_case. Qed.
Next Obligation.
  intros w d cs _ _ Hne _ Hcs. destruct (scan_all_spec FIFO.older d cs Hne Hcs) as (v & Hv & Hb).
  eapply pure_victim_ok; [exact Hv|]. split; [by eapply first_best_elem|by repeat split].
Qed.

#[export] Program Instance lfu_ok : PolicyOk (list LFU.data) :=
  { rp_ok := λ _, True; rp_arity := λ _ _, True }.
Next Obligation. intros d _. add_case. Qed.
Next Obligation. intros w d e _ He. cbn in *. unfold LFU.invalidate. upd_case. Qed.
Next Obligation. intros w d e _ He. cbn in *. unfold LFU.touch. upd_case. Qed.
Next Obligation. intros w d e _ He. cbn in *. unfold LFU.reset. upd_case. Qed.
Next Obligation.
  intros w d cs _ _ Hne _ Hcs. destruct (scan_all_spec LFU.rarer d cs Hne Hcs) as (v & Hv & Hb).
  eapply pure_victim_ok; [exact Hv|]. split; [by eapply first_best_elem|by repeat split].
Qed.

#[export] Program Instance wlru_ok : PolicyOk (list WLRU.data) :=
  { rp_ok := λ _, True; rp_arity := λ _ _, True }.
Next Obligation. intros d _. add_case. Qed.
Next Obligation. intros w d e _ He. cbn in *. unfold WLRU.invalidate. upd_case. Qed.
Next Obligation. intros w d e _ He. cbn in *. unfold WLRU.touch. upd_case. Qed.
Next Obligation. intros w d e _ He. cbn in *. unfold WLRU.reset. upd_case. Qed.
Next Obligation.
  intros w d cs _ _ Hne _ Hcs. destruct (scan_all_spec WLRU.lighter d cs Hne Hcs) as (v & Hv & Hb).
  eapply pure_victim_ok; [exact Hv|]. split; [by eapply first_best_elem|by repeat split].
Qed.

Lemma mru_search_elem d v cs : (v < length d)%nat → Forall (λ e, e < length d)%nat cs →
  ∃ v', MRU.search d v cs = Ok v' ∧ (v' = v ∨ v' ∈ cs).
Proof.
  revert v. induction cs as [|c cs IH]; intros v Hv Hcs; cbn [MRU.search]; [by eauto|].
  apply Forall_cons in Hcs as [Hc Hcs].
  destruct (get_ok d c Hc) as (y & -> & _), (get_ok d v Hv) as (x & Hx & _).
  cbn [mbind res_bind]. case_if; [exists c; split; [done|right; by apply elem_of_cons; left]|].
  rewrite Hx. cbn [mbind res_bind].
  destruct (IH (if MRU.lastTouchTick x <? MRU.lastTouchTick y then c else v)) as (v' & -> & Hin);
    [by case_if|done|]. exists v'. split; [done|]. rewrite elem_of_cons.
  destruct (MRU.lastTouchTick x <? MRU.lastTouchTick y), Hin; auto.
Qed.

#[export] Program Instance mru_ok : PolicyOk (list MRU.data) :=
  { rp_ok := λ _, True; rp_arity := λ _ _, True }.
Next Obligation. intros d _. add_case. Qed.
Next Obligation. intros w d e _ He. cbn in *. unfold MRU.invalidate. upd_case. Qed.
Next Obligation. intros w d e _ He. cbn in *. unfold MRU.touch. upd_case. Qed.
Next Obligation. intros w d e _ He. cbn in *. unfold MRU.reset. upd_case. Qed.
Next Obligation.
  intros w d cs _ _ Hne _ Hcs. destruct cs as [|c0 cs]; [done|].
  destruct (mru_search_elem d c0 (c0 :: cs)) as (v & Hv & Hin);
    [by apply Forall_cons in Hcs as [? _]|done|].
  eapply pure_victim_ok; [exact Hv|]. split; [|by repeat split].
  destruct Hin as [->|]; [by apply elem_of_cons; left|done].
Qed.

Lemma random_search_elem d v cs : Forall (λ e, e < length d)%nat cs →
  ∃ v', Random.search d v cs = Ok v' ∧ (v' = v ∨ v' ∈ cs).
Proof.
  induction cs as [|c cs IH]; intros Hcs; cbn [Random.search]; [by eauto|].
  apply Forall_cons in Hcs as [Hc Hcs]. destruct (get_ok d c Hc) as (y & -> & _).
  cbn [mbind res_bind]. destruct (IH Hcs) as (v' & -> & Hin). setoid_rewrite elem_of_cons.
  case_if; [|by eauto]. exists v'. destruct Hin; auto.
Qed.

#[export] Program Instance random_ok : PolicyOk (list Random.data) :=
  { rp_ok := λ _, True; rp_arity := λ _ _, True }.
Next Obligation. intros d _. add_case. Qed.
Next Obligation. intros w d e _ He. cbn in *. unfold Random.invalidate. upd_case. Qed.
Next Obligation. intros w d e _ He. keep_case. Qed.
Next Obligation. intros w d e _ He. cbn in *. unfold Random.reset. upd_case. Qed.
Next Obligation.
  intros w d cs Hw _ Hne _ Hcs. cbn. unfold Random.getVictim.
  rewrite bool_decide_eq_false_2 by done. cbn [assertb negb mbind res_bind].
  assert (0 < length cs)%nat by (destruct cs; [done|cbn; lia]).
  pose proof (Hw 0 (Z.of_nat (length cs) - 1) ltac:(lia)) as Hr.
  destruct (lookup_lt_is_Some_2 cs (Z.to_nat (random w 0 (Z.of_nat (length cs) - 1))))
    as [v0 Hv0]; [lia|]. rewrite Hv0.
  destruct (random_search_elem d v0 cs Hcs) as (v & Hv & Hin).
  eapply pure_victim_ok; [exact Hv|]. split; [|by repeat split].
  destruct Hin as [->|]; [by eapply list_elem_of_lookup_2|done].
Qed.

#[export] Program Instance bip_ok : PolicyOk BIP.policy :=
  { rp_ok := λ _, True; rp_arity := λ _ _, True }.
Next Obligation.
  intros p _. eexists. split; [reflexivity|split; [by repeat split|]]. cbn.
  unfold LRU.instantiateEntry. rewrite length_app. cbn. lia.
Qed.
Next Obligation. intros w p e _ He. cbn in *. unfold LRU.invalidate. upd_case. Qed.
Next Obligation. intros w p e _ He. cbn in *. unfold LRU.touch. upd_case. Qed.
Next Obligation. intros w p e _ He. cbn in *. unfold BIP.reset. upd_case. Qed.
Next Obligation.
  intros w p cs _ _ Hne _ Hcs.
  destruct (scan_all_spec LRU.older (BIP.entries p) cs Hne Hcs) as (v & Hv & Hb).
  eapply pure_victim_ok; [exact Hv|]. split; [by eapply first_best_elem|by repeat split].
Qed.

(** ** Second chance: the search terminates *)
(** The number of chances left: each turn of the loop uses one. *)
Definition chances (d : list SC.data) : nat :=
  length (filter (λ x, SC.hasSecondChance x = true) d).

Lemma chances_used d v x t :
  d !! v = Some x → SC.hasSecondChance x = true →
  (S (chances (<[v := SC.mkData t false]> d)) = chances d)%nat.
Proof.
  intros Hv Hx. unfold chances. revert v Hv.
  induction d as [|y d IH]; intros [|v] Hv; cbn in Hv; try done.
  - simplify_eq. cbn [insert list_insert]. rewrite !filter_cons.
    rewrite (decide_True (P := SC.hasSecondChance x = true)), decide_False by done. done.
  - change (<[S v := SC.mkData t false]> (y :: d)) with (y :: <[v := SC.mkData t false]> d).
    rewrite !filter_cons. specialize (IH v Hv). case_decide; cbn [length]; lia.
Qed.

Lemma chances_le d : (chances d ≤ length d)%nat.
Proof. apply length_filter. Qed.

(** The state of the loop: every record is the original one, or that of a
    touched candidate, no younger than any untouched one, that has been put
    back at the current tick. *)
Definition requeued (w : env) (d0 : list SC.data) (cs : list nat) (d : list SC.data) : Prop :=
  length d = length d0 ∧
  ∀ c x, d0 !! c = Some x →
    d !! c = Some x ∨
    (c ∈ cs ∧ SC.hasSecondChance x = true ∧ d !! c = Some (SC.mkData (curTick w) false) ∧
     ∀ c' y, c' ∈ cs → d0 !! c' = Some y → SC.hasSecondChance y = false →
       SC.tickInserted x ≤ SC.tickInserted y).

Lemma fifo_lookup (d : list SC.data) c x : d !! c = Some x → (SC.fifo <$> d) !! c = Some (SC.fifo x).
Proof. intros H. by rewrite list_lookup_fmap, H. Qed.

Lemma first_best_fifo d cs v :
  first_best FIFO.older (SC.fifo <$> d) cs v →
  ∃ l1 l2 x, cs = l1 ++ v :: l2 ∧ d !! v = Some x ∧
    (∀ c y, c ∈ l1 → d !! c = Some y → SC.tickInserted x < SC.tickInserted y) ∧
    (∀ c y, c ∈ cs → d !! c = Some y → SC.tickInserted x ≤ SC.tickInserted y).
Proof.
  intros (l1 & l2 & x' & -> & Hx & H1 & H2).
  rewrite list_lookup_fmap in Hx. destruct (d !! v) as [x|] eqn:Hv; [|done]. injection Hx as <-.
  assert (∀ c y, c ∈ l1 → d !! c = Some y → SC.tickInserted x < SC.tickInserted y) as Hl1.
  { intros c y Hc Hy. apply Z.ltb_lt. exact (H1 c _ Hc (fifo_lookup _ _ _ Hy)). }
  exists l1, l2, x. split; [done|]. split; [done|]. split; [done|].
  intros c y [Hc|[->|Hc]%elem_of_cons]%elem_of_app Hy.
  - specialize (Hl1 c y Hc Hy). lia.
  - simplify_eq. lia.
  - apply Z.ltb_ge. exact (H2 c _ Hc (fifo_lookup _ _ _ Hy)).
Qed.

Lemma requeued_step w d0 cs d v x :
  requeued w d0 cs d → first_best FIFO.older (SC.fifo <$> d) cs v → d !! v = Some x →
  SC.hasSecondChance x = true → requeued w d0 cs (<[v := SC.mkData (curTick w) false]> d).
Proof.
  intros [Hlen Hr] (l1 & l2 & x' & Hcs & Hv & _ & Hmin)%first_best_fifo Hx Hch. simplify_eq.
  split; [by rewrite length_insert|]. intros c y Hy. destruct (decide (c = v)) as [->|Hne].
  - rewrite list_lookup_insert_eq by (by eapply lookup_lt_Some).
    destruct (Hr v y Hy) as [Hsame|(? & ? & Hbad & _)]; [|simplify_eq; done]. simplify_eq.
    right. split; [apply elem_of_app; right; by apply elem_of_cons; left|]. split; [done|].
    split; [done|]. intros c' z Hc' Hz Hnz.
    destruct (Hr c' z Hz) as [Hz'|(_ & ? & _)]; [by apply (Hmin c')|congruence].
  - rewrite list_lookup_insert_ne by done. by apply Hr.
Qed.

Lemma sc_search_ok fuel w d0 d cs :
  requeued w d0 cs d → cs ≠ [] → Forall (λ e, e < length d0)%nat cs → (chances d < fuel)%nat →
  ∃ v d' x, SC.search fuel w d cs = Ok (v, d') ∧ requeued w d0 cs d' ∧
    first_best FIFO.older (SC.fifo <$> d') cs v ∧ d' !! v = Some x ∧ SC.hasSecondChance x = false.
Proof.
  revert d. induction fuel as [|fuel IH]; intros d Hr Hne Hcs Hf; [lia|]. cbn [SC.search].
  destruct (scan_all_spec FIFO.older (SC.fifo <$> d) cs Hne) as (v & Hv & Hb).
  { by rewrite length_fmap, (proj1 Hr). }
  unfold FIFO.getVictim. rewrite Hv. cbn [mbind res_bind].
  pose proof (first_best_fifo _ _ _ Hb) as (l1 & l2 & x & Heq & Hx & _).
  unfold get. rewrite Hx. cbn [mbind res_bind]. destruct (SC.hasSecondChance x) eqn:Hch; [|by exists v, d, x].
  unfold SC.useSecondChance, upd, get. rewrite Hx. cbn [mbind res_bind].
  apply IH; [by eapply requeued_step|done|done|].
  pose proof (chances_used d v x (curTick w) Hx Hch). lia.
Qed.

Lemma sc_search_start w d cs : cs ≠ [] → Forall (λ e, e < length d)%nat cs →
  ∃ v d' x, SC.search (S (length d)) w d cs = Ok (v, d') ∧ requeued w d cs d' ∧
    first_best FIFO.older (SC.fifo <$> d') cs v ∧ d' !! v = Some x ∧ SC.hasSecondChance x = false.
Proof.
  intros Hne Hcs. apply sc_search_ok; [|done|done|pose proof (chances_le d); lia].
  split; [done|]. by left.
Qed.

Lemma find_invalid_ok d cs : Forall (λ e, e < length d)%nat cs →
  ∃ r, SC.find_invalid d cs = Ok r ∧ ∀ c, r = Some c → c ∈ cs.
Proof.
  induction cs as [|c cs IH]; intros Hcs; cbn [SC.find_invalid]; [by exists None|].
  apply Forall_cons in Hcs as [Hc Hcs]. destruct (get_ok d c Hc) as (y & -> & _).
  cbn [mbind res_bind]. destruct (IH Hcs) as (r & -> & Hin). setoid_rewrite elem_of_cons.
  case_if; [eexists; split; [done|]; intros ? [= ->]; by left|]. exists r. split; [done|]. auto.
Qed.

#[export] Program Instance sc_ok : PolicyOk (list SC.data) :=
  { rp_ok := λ _, True; rp_arity := λ _ _, True }.
Next Obligation. intros d _. add_case. Qed.
Next Obligation. intros w d e _ He. cbn in *. unfold SC.invalidate. upd_case. Qed.
Next Obligation. intros w d e _ He. cbn in *. unfold SC.touch. upd_case. Qed.
Next Obligation. intros w d e _ He. cbn in *. unfold SC.reset. upd_case. Qed.
Next Obligation.
  intros w d cs _ _ Hne _ Hcs. cbn. unfold SC.getVictim.
  rewrite bool_decide_eq_false_2 by done. cbn [assertb negb mbind res_bind].
  destruct (find_invalid_ok d cs Hcs) as ([c|] & -> & Hin); cbn [mbind res_bind].
  - exists c, d. split; [done|]. split; [by apply Hin|by repeat split].
  - destruct (sc_search_start w d cs Hne Hcs) as (v & d' & x & Hs & [Hlen _] & Hb & _).
    exists v, d'. split; [done|]. split; [by eapply first_best_elem|]. by repeat split.
Qed.

(** ** Re-reference interval prediction *)
Definition brrip_data_ok (bits : Z) (x : BRRIP.data) : Prop :=
  Sat.wf (BRRIP.rrpv x) ∧ Sat.maxVal (BRRIP.rrpv x) = 2 ^ bits - 1.
Definition brrip_ok_inv (p : BRRIP.policy) : Prop :=
  0 < BRRIP.numRRPVBits p ≤ 8 ∧ Forall (brrip_data_ok (BRRIP.numRRPVBits p)) (BRRIP.entries p).

(** [c] is predicted to be used later than [v]. *)
Definition farther (c v : BRRIP.data) : bool :=
  Sat.value (BRRIP.rrpv v) <? Sat.value (BRRIP.rrpv c).
#[export] Instance farther_order : VictimOrder farther.
Proof.
  split; unfold farther.
  - intros x. apply Z.ltb_irrefl.
  - intros x y z. rewrite !Z.ltb_lt. lia.
  - intros x y z. rewrite !Z.ltb_lt, Z.ltb_ge. lia.
Qed.

Lemma brrip_search_spec (d : list BRRIP.data) pre v x cs :
  first_best farther d pre v → d !! v = Some x → Forall (λ e, e < length d)%nat cs →
  ∃ r, BRRIP.search d v (Sat.value (BRRIP.rrpv x)) cs = Ok r ∧
    match r with
    | inl c => c ∈ cs ∧ ∃ y, d !! c = Some y ∧ BRRIP.valid y = false
    | inr v' => first_best farther d (pre ++ cs) v' ∧
                ∀ c y, c ∈ cs → d !! c = Some y → BRRIP.valid y = true
    end.
Proof.
  revert pre v x. induction cs as [|c cs IH]; intros pre v x Hpre Hx Hcs; cbn [BRRIP.search].
  - exists (inr v). rewrite app_nil_r. split; [done|]. by split; [|intros ? ? ?%elem_of_nil].
  - apply Forall_cons in Hcs as [Hc Hcs]. destruct (get_ok d c Hc) as (y & -> & Hy).
    cbn [mbind res_bind]. destruct (BRRIP.valid y) eqn:Hval; cbn [negb].
    2: { exists (inl c). split; [done|]. split; [by apply elem_of_cons; left|eauto]. }
    pose proof (first_best_step farther d pre v c x y Hpre Hx Hy) as Hst. unfold farther in Hst at 2.
    rewrite cons_middle, app_assoc.
    assert (∃ r, (if Sat.value (BRRIP.rrpv x) <? Sat.value (BRRIP.rrpv y)
              then BRRIP.search d c (Sat.value (BRRIP.rrpv y)) cs
              else BRRIP.search d v (Sat.value (BRRIP.rrpv x)) cs) = Ok r ∧
            match r with
            | inl c => c ∈ cs ∧ ∃ y, d !! c = Some y ∧ BRRIP.valid y = false
            | inr v' => first_best farther d ((pre ++ [c]) ++ cs) v' ∧
                        ∀ c y, c ∈ cs → d !! c = Some y → BRRIP.valid y = true
            end) as (r & -> & Hr) by (case_if; by apply (IH (pre ++ [c]))).
    exists r. split; [done|]. destruct r as [c'|v'].
    + destruct Hr as [Hin Hr]. split; [by apply elem_of_cons; right|done].
    + destruct Hr as [Hb Hall]. split; [done|].
      intros c' z [->|Hin]%elem_of_cons Hz; [by simplify_eq|by eapply Hall].
Qed.

Lemma brrip_age_ok bits (d : list BRRIP.data) diff cs :
  0 < bits ≤ 8 → 0 ≤ diff < 2 ^ 31 → Forall (brrip_data_ok bits) d →
  Forall (λ e, e < length d)%nat cs →
  ∃ d', BRRIP.age d diff cs = Ok d' ∧ length d' = length d ∧ Forall (brrip_data_ok bits) d' ∧
    (∀ c, c ∉ cs → d' !! c = d !! c) ∧
    (NoDup cs → ∀ c x, c ∈ cs → d !! c = Some x →
       d' !! c = Some (BRRIP.mkData (Sat.clamp (BRRIP.rrpv x) (Sat.value (BRRIP.rrpv x) + diff))
                         (BRRIP.valid x))).
Proof.
  intros Hb Hd. revert d. induction cs as [|c cs IH]; intros d Hwf Hcs; cbn [BRRIP.age].
  - exists d. split; [done|]. split; [done|]. split; [done|]. split; [done|].
    by intros _ ? ? ?%elem_of_nil.
  - apply Forall_cons in Hcs as [Hc Hcs]. destruct (get_ok d c Hc) as (y & -> & Hy).
    cbn [mbind res_bind]. pose proof (Forall_lookup_1 _ _ _ _ Hwf Hy) as [Hwy Hmy].
    unfold Sat.add_assign. rewrite (proj2 (Z.leb_le 0 diff)) by lia. cbn [mbind res_bind].
    rewrite Sat.add_pos_clamp by (done || lia). set (y' := BRRIP.mkData _ _).
    destruct (IH (<[c := y']> d)) as (d' & -> & Hlen & Hwf' & Hout & Hin).
    { apply Forall_insert; [done|]. split; [by apply Sat.clamp_wf|done]. }
    { by rewrite length_insert. }
    rewrite length_insert in Hlen. exists d'. split; [done|]. split; [done|]. split; [done|]. split.
    + intros c' [Hne Hnin]%not_elem_of_cons. by rewrite Hout, list_lookup_insert_ne by done.
    + intros [Hnin Hnd]%NoDup_cons c' x [->|Hc']%elem_of_cons Hx.
      * rewrite Hout by done. simplify_eq. by apply list_lookup_insert_eq.
      * apply Hin; [done|done|]. rewrite list_lookup_insert_ne; [done|]. by intros ->.
Qed.

Lemma first_best_dup {D} (better : D → D → bool) (d : list D) c cs v :
  first_best better d (c :: c :: cs) v → first_best better d (c :: cs) v.
Proof.
  intros ([|c' l1] & l2 & x & Heq & Hx & H1 & H2); injection Heq as -> Heq.
  - exists [], cs, x. split; [done|]. split; [done|]. split; [by intros ? ? ?%elem_of_nil|].
    intros c y Hc. apply H2. rewrite <-Heq. by apply elem_of_cons; right.
  - exists l1, l2, x. split; [done|]. split; [done|]. split; [|done].
    intros c y Hc. apply H1. by apply elem_of_cons; right.
Qed.

Lemma first_best_farther (d : list BRRIP.data) cs v x c y :
  first_best farther d cs v → d !! v = Some x → c ∈ cs → d !! c = Some y →
  Sat.value (BRRIP.rrpv y) ≤ Sat.value (BRRIP.rrpv x).
Proof.
  intros (l1 & l2 & x' & -> & Hx' & H1 & H2) Hx Hc Hy. assert (x' = x) as -> by congruence.
  apply elem_of_app in Hc as [Hc|[->|Hc]%elem_of_cons].
  - specialize (H1 c y Hc Hy). unfold farther in H1. bool_to_prop. lia.
  - simplify_eq. lia.
  - specialize (H2 c y Hc Hy). unfold farther in H2. bool_to_prop. lia.
Qed.

(** What a choice leaves behind when every candidate is in use: all of them
    aged by what the victim lacked to the longest interval. *)
Definition aged (d d' : list BRRIP.data) (cs : list nat) (diff : Z) : Prop :=
  (∀ c, c ∉ cs → d' !! c = d !! c) ∧
  (NoDup cs → ∀ c y, c ∈ cs → d !! c = Some y →
     d' !! c = Some (BRRIP.mkData (Sat.set_value (BRRIP.rrpv y) (Sat.value (BRRIP.rrpv y) + diff))
                       (BRRIP.valid y))).

Lemma brrip_evict p cs v x :
  brrip_ok_inv p → Forall (λ e, e < length (BRRIP.entries p))%nat cs →
  first_best farther (BRRIP.entries p) cs v → BRRIP.entries p !! v = Some x →
  let '(diff, sat) := Sat.saturate (BRRIP.rrpv x) in
  let d := <[v := BRRIP.mkData sat (BRRIP.valid x)]> (BRRIP.entries p) in
  ∃ d', (if 0 <? diff then BRRIP.age d diff cs else Ok d) = Ok d' ∧
    length d' = length (BRRIP.entries p) ∧
    Forall (brrip_data_ok (BRRIP.numRRPVBits p)) d' ∧
    aged (BRRIP.entries p) d' cs (2 ^ BRRIP.numRRPVBits p - 1 - Sat.value (BRRIP.rrpv x)).
Proof.
  intros [Hbits Hwf] Hcs Hb Hx. pose proof (first_best_elem _ _ _ _ Hb) as Hvin.
  pose proof (Forall_lookup_1 _ _ _ _ Hwf Hx) as [Hwx Hmx].
  rewrite Sat.saturate_clamp by done. rewrite Hmx. cbv beta iota zeta.
  set (diff := 2 ^ _ - 1 - _). set (v' := BRRIP.mkData _ _). set (d := <[v := v']> _).
  assert (Forall (brrip_data_ok (BRRIP.numRRPVBits p)) d) as Hwd.
  { apply Forall_insert; [done|]. split; [by apply Sat.clamp_wf|done]. }
  assert (v < length (BRRIP.entries p))%nat as Hvlt by (by eapply lookup_lt_Some).
  assert (2 ^ BRRIP.numRRPVBits p ≤ 2 ^ 8) by (apply Z.pow_le_mono_r; lia).
  destruct (Sat.wf_value _ Hwx), (Z.ltb_spec 0 diff) as [Hd|Hd].
  - destruct (brrip_age_ok (BRRIP.numRRPVBits p) d diff cs) as (d' & -> & Hlen & Hwd' & Hout & Hin);
      [done|lia|done|unfold d; by rewrite length_insert|].
    exists d'. split; [done|]. split; [by rewrite Hlen; apply length_insert|]. split; [done|]. split.
    + intros c Hc. rewrite Hout by done. apply list_lookup_insert_ne. by intros ->.
    + intros Hnd c y Hc Hy. pose proof (first_best_farther _ _ _ _ _ _ Hb Hx Hc Hy).
      pose proof (Forall_lookup_1 _ _ _ _ Hwf Hy) as [Hwy Hmy]. destruct (Sat.wf_value _ Hwy).
      destruct (decide (c = v)) as [->|Hne].
      * rewrite (Hin Hnd v v' Hc) by (by apply list_lookup_insert_eq). simplify_eq.
        do 2 f_equal. unfold Sat.clamp, Sat.set_value; cbn. f_equal. lia.
      * rewrite (Hin Hnd c y Hc) by (by unfold d; rewrite list_lookup_insert_ne).
        do 2 f_equal. unfold Sat.clamp, Sat.set_value. f_equal. lia.
  - exists d. split; [done|]. split; [apply length_insert|]. split; [done|].
    assert (diff = 0) as Hd0 by lia. split.
    + intros c Hc. apply list_lookup_insert_ne. by intros ->.
    + intros _ c y Hc Hy. destruct (decide (c = v)) as [->|Hne].
      * simplify_eq. unfold d. rewrite list_lookup_insert_eq by done. unfold v', Sat.clamp.
        do 3 f_equal. lia.
      * unfold d. rewrite list_lookup_insert_ne, Hy, Hd0, Z.add_0_r by done.
        by destruct y as [[] ?].
Qed.

Lemma brrip_victim_spec (p : BRRIP.policy) cs :
  brrip_ok_inv p → cs ≠ [] → Forall (λ e, e < length (BRRIP.entries p))%nat cs →
  ∃ v p' x, BRRIP.getVictim p cs = Ok (v, p') ∧ v ∈ cs ∧ brrip_ok_inv p' ∧
    length (BRRIP.entries p') = length (BRRIP.entries p) ∧ BRRIP.entries p !! v = Some x ∧
    ((BRRIP.valid x = false ∧ p' = p) ∨
     ((∀ c y, c ∈ cs → BRRIP.entries p !! c = Some y → BRRIP.valid y = true) ∧
      first_best farther (BRRIP.entries p) cs v ∧
      aged (BRRIP.entries p) (BRRIP.entries p') cs
        (2 ^ BRRIP.numRRPVBits p - 1 - Sat.value (BRRIP.rrpv x)))).
Proof.
  intros Hinv Hne Hcs. destruct cs as [|c0 cs]; [done|]. unfold BRRIP.getVictim.
  pose proof Hcs as [Hc0 _]%Forall_cons. destruct (get_ok _ c0 Hc0) as (x0 & -> & Hx0).
  cbn [mbind res_bind].
  destruct (brrip_search_spec (BRRIP.entries p) [c0] c0 x0 (c0 :: cs)) as ([c|v] & -> & Hr);
    [by eapply first_best_singleton|done|done|..]; cbn [mbind res_bind].
  - destruct Hr as (Hin & y & Hy & Hval). exists c, p, y. by eauto 10.
  - destruct Hr as [Hb%first_best_dup Hall]. destruct (first_best_lookup _ _ _ _ Hb) as [x Hx].
    unfold get at 1. rewrite Hx. cbn [mbind res_bind].
    pose proof (brrip_evict p (c0 :: cs) v x Hinv Hcs Hb Hx) as He.
    destruct (Sat.saturate (BRRIP.rrpv x)) as [diff sat].
    destruct He as (d' & Hd' & Hlen & Hwf & Haged).
    exists v, (BRRIP.with_entries p d'), x. split.
    { destruct (0 <? diff); [by rewrite Hd'|by injection Hd' as <-]. }
    split; [by eapply first_best_elem|]. split; [by destruct Hinv; split|].
    split; [done|]. split; [done|]. by right.
Qed.

Lemma brrip_upd_ok p e f :
  brrip_ok_inv p → (e < length (BRRIP.entries p))%nat →
  (∀ x, brrip_data_ok (BRRIP.numRRPVBits p) x → brrip_data_ok (BRRIP.numRRPVBits p) (f x)) →
  ∃ p', (d ← upd (BRRIP.entries p) e f; Ok (BRRIP.with_entries p d)) = Ok p' ∧
    (brrip_ok_inv p' ∧ ∀ n : nat, True → True) ∧
    length (BRRIP.entries p') = length (BRRIP.entries p).
Proof.
  intros [Hb Hwf] He Hf. destruct (upd_ok (BRRIP.entries p) e f He) as (x & Hx & ->).
  eexists. split; [reflexivity|]. split; [|apply length_insert]. split; [|done]. split; [done|].
  apply Forall_insert; [done|]. apply Hf. by eapply Forall_lookup_1.
Qed.

#[export] Program Instance brrip_ok : PolicyOk BRRIP.policy :=
  { rp_ok := brrip_ok_inv; rp_arity := λ _ _, True }.
Next Obligation.
  intros p [Hb Hwf]. cbn. unfold BRRIP.instantiateEntry.
  rewrite Sat.SatCounter_ok by lia. cbn [mbind res_bind].
  eexists. split; [reflexivity|]. split; [|cbn; rewrite length_app; cbn; lia].
  split; [|done]. split; [done|]. apply Forall_app. split; [done|].
  apply Forall_singleton. split; [apply Sat.fresh_wf; lia|done].
Qed.
Next Obligation.
  intros w p e [Hb Hwf] He. cbn in *. apply (brrip_upd_ok p e (λ x, BRRIP.mkData (BRRIP.rrpv x) false));
    [done|done|done].
Qed.
Next Obligation.
  intros w p e [Hb Hwf] He. cbn in *. eapply (brrip_upd_ok p e); [done|done|].
  intros x [Hw Hm]. split; cbn; destruct (BRRIP.hitPriority p);
    [by apply Sat.reset_wf|rewrite Sat.decr_clamp by done; by apply Sat.clamp_wf|done|
     by rewrite Sat.decr_clamp].
Qed.
Next Obligation.
  intros w p e [Hb Hwf] He. cbn in *. eapply (brrip_upd_ok p e); [done|done|].
  intros x [Hw Hm]. rewrite Sat.saturate_clamp by done. cbn [snd].
  assert (Sat.wf (Sat.clamp (BRRIP.rrpv x) (Sat.maxVal (BRRIP.rrpv x)))) by (by apply Sat.clamp_wf).
  split; cbn; case_if; [rewrite Sat.decr_clamp by done; by apply Sat.clamp_wf|done|
     by rewrite Sat.decr_clamp|done].
Qed.
Next Obligation.
  intros w p cs _ Hok Hne _ Hcs. cbn in *.
  destruct (brrip_victim_spec p cs Hok Hne Hcs) as (v & p' & x & -> & Hin & Hok' & Hlen & _).
  exists v, p'. split; [done|]. split; [done|]. split; [by split|done].
Qed.

(** ** Replacement by history

    The updates a policy has seen, and the position in them of the use (or
    of the insertion) that counts for an entry. *)
Inductive op := Touch | Reset | Invalidate.
Record event := mkEvent { ev_env : env; ev_op : op; ev_entry : nat }.

Definition apply_event `{ReplacementPolicy P} (p : P) (ev : event) : res P :=
  match ev_op ev with
  | Touch => rp_touch (ev_env ev) p (ev_entry ev)
  | Reset => rp_reset (ev_env ev) p (ev_entry ev)
  | Invalidate => rp_invalidate (ev_env ev) p (ev_entry ev)
  end.
Fixpoint replay `{ReplacementPolicy P} (p : P) (tr : list event) : res P :=
  match tr with [] => Ok p | ev :: tr => p' ← apply_event p ev; replay p' tr end.

Inductive effect := Keep | Stamp | Clear.
Definition recency (o : op) : effect := match o with Invalidate => Clear | _ => Stamp end.
Definition insertion (o : op) : effect :=
  match o with Invalidate => Clear | Reset => Stamp | Touch => Keep end.

(** The position of the last stamp of [e] that no later update cleared. *)
Fixpoint track (f : op → effect) (i : nat) (acc : option nat) (tr : list event) (e : nat)
    : option nat :=
  match tr with
  | [] => acc
  | ev :: tr =>
      track f (S i)
        (if decide (e = ev_entry ev)
         then match f (ev_op ev) with Keep => acc | Stamp => Some i | Clear => None end
         else acc) tr e
  end.

(** Each update happens at a positive tick later than those before it. *)
Definition increasing (tr : list event) : Prop :=
  (∀ i ev, tr !! i = Some ev → 0 < curTick (ev_env ev)) ∧
  ∀ i j ev ev', (i < j)%nat → tr !! i = Some ev → tr !! j = Some ev' →
    curTick (ev_env ev) < curTick (ev_env ev').

Definition tick_at (tr : list event) (o : option nat) : Z :=
  match o with
  | None => 0
  | Some i => match tr !! i with Some ev => curTick (ev_env ev) | None => 0 end
  end.

Lemma track_snoc f i acc tr ev e :
  track f i acc (tr ++ [ev]) e =
    if decide (e = ev_entry ev)
    then match f (ev_op ev) with
         | Keep => track f i acc tr e | Stamp => Some (i + length tr)%nat | Clear => None end
    else track f i acc tr e.
Proof.
  revert i acc. induction tr as [|ev' tr IH]; intros i acc; cbn [app track length].
  - case_decide; [|done]. destruct (f (ev_op ev)); try done. by rewrite Nat.add_0_r.
  - rewrite IH. case_decide; [|done]. destruct (f (ev_op ev)); try done. f_equal. lia.
Qed.

Lemma track_bound f tr e i : track f 0 None tr e = Some i → (i < length tr)%nat.
Proof.
  induction tr as [|ev tr IH] using rev_ind; [done|]. rewrite track_snoc, length_app. cbn.
  case_decide; [|intros Ht; specialize (IH Ht); lia].
  destruct (f (ev_op ev)); [intros Ht; specialize (IH Ht); lia|intros [= <-]; lia|done].
Qed.

Lemma replay_snoc `{ReplacementPolicy P} (p : P) tr ev :
  replay p (tr ++ [ev]) = p' ← replay p tr; apply_event p' ev.
Proof.
  revert p. induction tr as [|ev' tr IH]; intros p; cbn [app replay].
  - cbn [mbind res_bind]. by destruct (apply_event p ev).
  - destruct (apply_event p ev'); cbn [mbind res_bind]; [apply IH|done].
Qed.

Section History.
Context {D : Type} `{ReplacementPolicy (list D)} (key : D → Z) (f : op → effect).
Context (step : ∀ (d d' : list D) ev, apply_event d ev = Ok d' →
  length d' = length d ∧ ∀ c x x', d !! c = Some x → d' !! c = Some x' →
    key x' = if decide (c = ev_entry ev)
             then match f (ev_op ev) with
                  | Keep => key x | Stamp => curTick (ev_env ev) | Clear => 0 end
             else key x).

Lemma tick_at_app tr ev o : (∀ i, o = Some i → (i < length tr)%nat) →
  tick_at (tr ++ [ev]) o = tick_at tr o.
Proof. intros Hb. destruct o as [i|]; [|done]. cbn. by rewrite lookup_app_l by (by apply Hb). Qed.

(** The key of an entry is the tick of the event that counts for it. *)
Lemma history_keys (d0 d : list D) tr c x :
  (∀ c x, d0 !! c = Some x → key x = 0) → replay d0 tr = Ok d → d !! c = Some x →
  key x = tick_at tr (track f 0 None tr c).
Proof.
  intros H0. revert d c x. induction tr as [|ev tr IH] using rev_ind; intros d c x Hr Hx.
  - injection Hr as ->. by apply (H0 c).
  - rewrite replay_snoc in Hr. apply bind_ok in Hr as (d1 & Hr & Hap).
    destruct (step d1 d ev Hap) as [Hlen Hkey].
    destruct (lookup_lt_is_Some_2 d1 c) as [x1 Hx1];
      [rewrite <-Hlen; by eapply lookup_lt_Some|].
    rewrite (Hkey c x1 x Hx1 Hx), (IH d1 c x1 Hr Hx1), track_snoc.
    assert (∀ i, track f 0 None tr c = Some i → (i < length tr)%nat) by (apply track_bound).
    case_decide; [|by rewrite tick_at_app].
    destruct (f (ev_op ev)); [by rewrite tick_at_app| |done].
    cbn. by rewrite list_lookup_middle by done.
Qed.

Lemma replay_length (d0 d : list D) tr : replay d0 tr = Ok d → length d = length d0.
Proof.
  revert d0. induction tr as [|ev tr IH]; intros d0 Hr; [by injection Hr as ->|].
  cbn in Hr. apply bind_ok in Hr as (d1 & Hap & Hr). rewrite (IH d1 Hr). by apply (step _ _ ev).
Qed.

(** The smallest key is the earliest event. *)
Lemma key_order_history tr u v :
  increasing tr → tick_at tr (track f 0 None tr u) ≤ tick_at tr (track f 0 None tr v) →
  match track f 0 None tr u with
  | None => True
  | Some i => ∃ j, track f 0 None tr v = Some j ∧ (i ≤ j)%nat
  end.
Proof.
  intros [Hpos Hinc] Hle. destruct (track f 0 None tr u) as [i|] eqn:Hu; [|done].
  destruct (lookup_lt_is_Some_2 tr i (track_bound _ _ _ _ Hu)) as [evi Hi].
  unfold tick_at in Hle. rewrite Hi in Hle. pose proof (Hpos i evi Hi).
  destruct (track f 0 None tr v) as [j|] eqn:Hv; [|lia]. exists j. split; [done|].
  destruct (lookup_lt_is_Some_2 tr j (track_bound _ _ _ _ Hv)) as [evj Hj]. rewrite Hj in Hle.
  destruct (Nat.le_gt_cases i j) as [|Hlt]; [done|]. specialize (Hinc j i evj evi Hlt Hj Hi). lia.
Qed.

Lemma scan_history (better : D → D → bool) `{!VictimOrder better} (d0 d : list D) tr cs :
  (∀ x y, better x y = (key x <? key y)) →
  (∀ c x, d0 !! c = Some x → key x = 0) → replay d0 tr = Ok d → increasing tr →
  cs ≠ [] → Forall (λ e, e < length d0)%nat cs →
  ∃ v, scan_all better d cs = Ok v ∧ v ∈ cs ∧
    ∀ c, c ∈ cs → match track f 0 None tr v with
                  | None => True
                  | Some i => ∃ j, track f 0 None tr c = Some j ∧ (i ≤ j)%nat
                  end.
Proof.
  intros Hbet H0 Hr Hinc Hne Hcs. rewrite <-(replay_length d0 d tr Hr) in Hcs.
  destruct (scan_all_spec better d cs Hne Hcs) as (v & Hv & Hb). exists v. split; [done|].
  split; [by eapply first_best_elem|]. intros c Hc. apply key_order_history; [done|].
  destruct Hb as (l1 & l2 & x & -> & Hx & H1 & H2).
  rewrite Forall_forall in Hcs. destruct (lookup_lt_is_Some_2 d c (Hcs c Hc)) as [y Hy].
  rewrite <-(history_keys d0 d tr v x), <-(history_keys d0 d tr c y) by done.
  apply elem_of_app in Hc as [Hc|[->|Hc]%elem_of_cons].
  - specialize (H1 c y Hc Hy). rewrite Hbet in H1. bool_to_prop. lia.
  - simplify_eq. lia.
  - specialize (H2 c y Hc Hy). rewrite Hbet in H2. bool_to_prop. lia.
Qed.
End History.

Lemma upd_keys {D} (key : D → Z) (d d' : list D) e g k :
  upd d e g = Ok d' → (∀ x, d !! e = Some x → key (g x) = k x) →
  length d' = length d ∧ ∀ c x x', d !! c = Some x → d' !! c = Some x' →
    key x' = if decide (c = e) then k x else key x.
Proof.
  intros Hu Hk. unfold upd in Hu. apply bind_ok in Hu as (y & Hg & Hu). injection Hu as <-.
  unfold get in Hg. destruct (d !! e) as [z|] eqn:Hz; [injection Hg as ->|done].
  split; [apply length_insert|]. intros c x x' Hx Hx'. case_decide as Hc.
  - subst c. rewrite list_lookup_insert_eq in Hx' by (by eapply lookup_lt_Some).
    simplify_eq. by apply Hk.
  - rewrite list_lookup_insert_ne in Hx' by done. congruence.
Qed.

Lemma lru_step (d d' : list LRU.data) ev : apply_event d ev = Ok d' →
  length d' = length d ∧ ∀ c x x', d !! c = Some x → d' !! c = Some x' →
    LRU.lastTouchTick x' = if decide (c = ev_entry ev)
             then match recency (ev_op ev) with
                  | Keep => LRU.lastTouchTick x | Stamp => curTick (ev_env ev) | Clear => 0 end
             else LRU.lastTouchTick x.
Proof.
  destruct ev as [w o e]. unfold apply_event. cbn. destruct o; cbn; intros Hu;
    by apply (upd_keys LRU.lastTouchTick d d' e _ _ Hu).
Qed.

Lemma fifo_step (d d' : list FIFO.data) ev : apply_event d ev = Ok d' →
  length d' = length d ∧ ∀ c x x', d !! c = Some x → d' !! c = Some x' →
    FIFO.tickInserted x' = if decide (c = ev_entry ev)
             then match insertion (ev_op ev) with
                  | Keep => FIFO.tickInserted x | Stamp => curTick (ev_env ev) | Clear => 0 end
             else FIFO.tickInserted x.
Proof.
  destruct ev as [w o e]. unfold apply_event. cbn. destruct o; cbn; intros Hu;
    [|by apply (upd_keys FIFO.tickInserted d d' e _ _ Hu)..].
  injection Hu as ->. split; [done|]. intros c x x' Hx Hx'. simplify_eq. by case_decide.
Qed.

(** ** Properties *)

(** LRU and FIFO are what their names say, for every history of
    insertions, accesses and invalidations at increasing ticks: the victim is
    a candidate that is not in use, or all the candidates are in use and none
    of them was last accessed (LRU) or inserted (FIFO) before it. *)
Theorem evicts_by_history n tr cs :
  increasing tr → cs ≠ [] → Forall (λ e, e < n)%nat cs →
  (∀ d, replay (replicate n (LRU.mkData 0)) tr = Ok d →
     ∃ v, LRU.getVictim d cs = Ok v ∧ v ∈ cs ∧
       ∀ c, c ∈ cs → match track recency 0 None tr v with
                     | None => True
                     | Some i => ∃ j, track recency 0 None tr c = Some j ∧ (i ≤ j)%nat
                     end) ∧
  (∀ d, replay (replicate n (FIFO.mkData 0)) tr = Ok d →
     ∃ v, FIFO.getVictim d cs = Ok v ∧ v ∈ cs ∧
       ∀ c, c ∈ cs → match track insertion 0 None tr v with
                     | None => True
                     | Some i => ∃ j, track insertion 0 None tr c = Some j ∧ (i ≤ j)%nat
                     end).
Proof.
  intros Hinc Hne Hcs. split; intros d Hr.
  - eapply (scan_history LRU.lastTouchTick recency lru_step LRU.older); [done| |exact Hr|done..|].
    + intros c x [-> _]%lookup_replicate. done.
    + by rewrite length_replicate.
  - eapply (scan_history FIFO.tickInserted insertion fifo_step FIFO.older); [done| |exact Hr|done..|].
    + intros c x [-> _]%lookup_replicate. done.
    + by rewrite length_replicate.
Qed.

(** Entries 0 and 1 are inserted at ticks 10 and 20, 0 is used again at 30. *)
Definition example_env (t : Z) : env := mkEnv t (λ lo _, lo).
Definition example_trace : list event :=
  [mkEvent (example_env 10) Reset 0; mkEvent (example_env 20) Reset 1;
   mkEvent (example_env 30) Touch 0].

Lemma evicts_by_history_witness :
  (∃ v, LRU.getVictim [LRU.mkData 30; LRU.mkData 20] [0%nat; 1%nat] = Ok v ∧ v ∈ [0%nat; 1%nat] ∧
     ∀ c, c ∈ [0%nat; 1%nat] → match track recency 0 None example_trace v with
                     | None => True
                     | Some i => ∃ j, track recency 0 None example_trace c = Some j ∧ (i ≤ j)%nat
                     end) ∧
  LRU.getVictim [LRU.mkData 30; LRU.mkData 20] [0%nat; 1%nat] = Ok 1%nat ∧
  FIFO.getVictim [FIFO.mkData 10; FIFO.mkData 20] [0%nat; 1%nat] = Ok 0%nat.
Proof.
  split; [|by vm_compute].
  apply (evicts_by_history 2 example_trace [0%nat; 1%nat]); [|done| |by vm_compute].
  - split.
    + intros [|[|[|i]]] ev Hi; cbn in Hi; simplify_eq; cbn; lia.
    + intros [|[|[|i]]] [|[|[|j]]] ev ev' Hij Hi Hj; cbn in Hi, Hj; simplify_eq; cbn; lia.
  - repeat constructor; lia.
Defined.

(** A record that [invalidate] or [instantiateEntry] leaves. *)
Definition invalid (d : list SC.data) (c : nat) : Prop := d !! c = Some (SC.mkData 0 false).

(** The first invalid candidate, if there is one. *)
Lemma find_invalid_first d cs : Forall (λ e, e < length d)%nat cs →
  (∃ l1 c l2, cs = l1 ++ c :: l2 ∧ SC.find_invalid d cs = Ok (Some c) ∧ invalid d c ∧ ∀ c', c' ∈ l1 → ¬ invalid d c') ∨
  (SC.find_invalid d cs = Ok None ∧ ∀ c, c ∈ cs → ¬ invalid d c).
Proof.
  induction cs as [|c cs IH]; intros Hcs; cbn [SC.find_invalid].
  { right. split; [done|]. intros c Hc. by apply not_elem_of_nil in Hc. }
  apply Forall_cons in Hcs as [Hc Hcs]. destruct (get_ok d c Hc) as (y & -> & Hy). cbn [mbind res_bind].
  assert ((SC.tickInserted y =? 0) && negb (SC.hasSecondChance y) = true ↔ invalid d c) as Hinv.
  { unfold invalid. rewrite Hy, andb_true_iff, Z.eqb_eq, negb_true_iff. destruct y; cbn. naive_solver. }
  destruct (_ && _).
  - left. exists [], c, cs. split; [done|]. split; [done|]. split; [by apply Hinv|]. intros c' Hc'. by apply not_elem_of_nil in Hc'.
  - assert (¬ invalid d c) as Hn by (by intros ?%Hinv). destruct (IH Hcs) as [(l1 & c0 & l2 & -> & Hf & Hi & Hl)|[Hf Hno]].
    + left. exists (c :: l1), c0, l2. split; [done|]. split; [done|]. split; [done|].
      intros c' [->|Hc']%elem_of_cons; auto.
    + right. split; [done|]. intros c' [->|Hc']%elem_of_cons; auto.
Qed.

(** What the search does to the candidates: it leaves the untouched ones
    alone and evicts the oldest of them, or they are all touched. *)
Definition chosen (w : env) (d d' : list SC.data) (cs : list nat) (v : nat) : Prop :=
  (∃ x, d !! v = Some x ∧ SC.hasSecondChance x = false ∧
     ∀ c y, c ∈ cs → d !! c = Some y →
       (SC.hasSecondChance y = false → SC.tickInserted x ≤ SC.tickInserted y ∧ d' !! c = Some y) ∧
       (SC.hasSecondChance y = true → SC.tickInserted y < SC.tickInserted x →
          d' !! c = Some (SC.mkData (curTick w) false)) ∧
       (SC.hasSecondChance y = true → SC.tickInserted x < SC.tickInserted y → d' !! c = Some y))
  ∨ (head cs = Some v ∧
     ∀ c y, c ∈ cs → d !! c = Some y →
       SC.hasSecondChance y = true ∧ d' !! c = Some (SC.mkData (curTick w) false)).

Lemma requeued_chosen w d d' cs v x' : Forall (λ e, e < length d)%nat cs →
  (∀ c x, c ∈ cs → d !! c = Some x → SC.tickInserted x < curTick w) →
  requeued w d cs d' → first_best FIFO.older (SC.fifo <$> d') cs v → d' !! v = Some x' → SC.hasSecondChance x' = false →
  chosen w d d' cs v.
Proof.
  intros Hcs Hold [Hlen Hr] Hb Hx' Hx'f. pose proof (first_best_elem _ _ _ _ Hb) as Hv.
  apply first_best_fifo in Hb as (l1 & l2 & x1 & Heq & Hx1 & Hl1 & Hmin).
  assert (x1 = x') as -> by congruence. clear Hx1. rewrite Forall_forall in Hcs.
  destruct (lookup_lt_is_Some_2 d v (Hcs v Hv)) as [x Hx].
  destruct (Hr v x Hx) as [Hsame|(_ & Hfl & Hreq & _)].
  - left. assert (x' = x) as -> by congruence. exists x. split; [done|]. split; [done|].
    intros c y Hc Hy. destruct (Hr c y Hy) as [Hsy|(_ & Hyf & Hyr & Hyo)].
    + pose proof (Hmin c y Hc Hsy). split; [done|]. split; [lia|done].
    + specialize (Hyo v x Hv Hx Hx'f). split; [by rewrite Hyf|]. split; [done|lia].
  - right. assert (x' = SC.mkData (curTick w) false) as -> by congruence. cbn in *.
    assert (∀ c y, c ∈ cs → d !! c = Some y →
      SC.hasSecondChance y = true ∧ d' !! c = Some (SC.mkData (curTick w) false)) as Hall.
    { intros c y Hc Hy. pose proof (Hold c y Hc Hy).
      destruct (Hr c y Hy) as [Hsy|(_ & Hyf & Hyr & _)]; [|done].
      pose proof (Hmin c y Hc Hsy). lia. }
    split; [|done]. destruct l1 as [|c1 l1]; [by subst cs|].
    assert (c1 ∈ cs) as Hc1 by (subst cs; by apply elem_of_cons; left).
    destruct (lookup_lt_is_Some_2 d c1 (Hcs c1 Hc1)) as [y1 Hy1].
    destruct (Hall c1 y1 Hc1 Hy1) as [_ Hd1].
    specialize (Hl1 c1 _ ltac:(by apply elem_of_cons; left) Hd1). cbn in Hl1. lia.
Qed.

Lemma requeued_others w d d' cs c : requeued w d cs d' → c ∉ cs → d' !! c = d !! c.
Proof.
  intros [Hlen Hr] Hc. destruct (d !! c) as [y|] eqn:Hy; [by destruct (Hr c y Hy) as [|(? & _)]|].
  apply lookup_ge_None in Hy. apply lookup_ge_None. lia.
Qed.



(** When all candidates have been touched the order in which they were
    inserted is lost: entry 1 is the oldest and entry 0 goes. *)
Example second_chance_not_fifo :
  SC.getVictim (example_env 9) [SC.mkData 5 true; SC.mkData 3 true] [0%nat; 1%nat] =
    Ok (0%nat, [SC.mkData 9 false; SC.mkData 9 false]).
Proof. by vm_compute. Qed.

(** Invalidating an entry of the weighted policy clears its tick and not its
    weight: the invalid entry 1 stays while entry 0, in use, is evicted. *)
Example weighted_lru_keeps_invalid :
  WLRU.invalidate [WLRU.mkData 2 70; WLRU.mkData 5 80] 1 = Ok [WLRU.mkData 2 70; WLRU.mkData 5 0] ∧
  WLRU.getVictim [WLRU.mkData 2 70; WLRU.mkData 5 0] [0%nat; 1%nat] = Ok 0%nat.
Proof. by vm_compute. Qed.

(** BRRIP evicts a candidate that holds nothing if there is one and
    leaves the predictions alone; otherwise the first candidate with the
    longest predicted interval, which then saturates, every other candidate
    ageing by the same amount, so that no candidate overtakes another and
    entries that were not candidates do not change. *)
Theorem brrip_victim p cs :
  brrip_ok_inv p → cs ≠ [] → NoDup cs → Forall (λ e, e < length (BRRIP.entries p))%nat cs →
  ∃ v p' x, BRRIP.getVictim p cs = Ok (v, p') ∧ v ∈ cs ∧ BRRIP.entries p !! v = Some x ∧
    ((BRRIP.valid x = false ∧ p' = p) ∨
     ((∀ c y, c ∈ cs → BRRIP.entries p !! c = Some y → BRRIP.valid y = true ∧
         Sat.value (BRRIP.rrpv y) ≤ Sat.value (BRRIP.rrpv x) ∧
         BRRIP.entries p' !! c =
           Some (BRRIP.mkData (Sat.set_value (BRRIP.rrpv y)
             (Sat.value (BRRIP.rrpv y) +
              (2 ^ BRRIP.numRRPVBits p - 1 - Sat.value (BRRIP.rrpv x)))) true)) ∧
      ∀ c, c ∉ cs → BRRIP.entries p' !! c = BRRIP.entries p !! c)).
Proof.
  intros Hok Hne Hnd Hcs.
  destruct (brrip_victim_spec p cs Hok Hne Hcs) as (v & p' & x & Hv & Hin & _ & _ & Hx & Hcase).
  exists v, p', x. split; [done|]. split; [done|]. split; [done|].
  destruct Hcase as [|(Hval & Hb & Hout & Haged)]; [by left|right]. split; [|done].
  intros c y Hc Hy. specialize (Hval c y Hc Hy). split; [done|].
  split; [by eapply first_best_farther|]. by rewrite (Haged Hnd c y Hc Hy), Hval.
Qed.

Lemma brrip_victim_witness :
  ∃ v p' x, BRRIP.getVictim (BRRIP.mkPolicy 2 false 3
      [BRRIP.mkData (Sat.mkCounter 0 3 0) true; BRRIP.mkData (Sat.mkCounter 0 3 2) true])
      [0%nat; 1%nat] = Ok (v, p') ∧ v ∈ [0%nat; 1%nat] ∧
    [BRRIP.mkData (Sat.mkCounter 0 3 0) true; BRRIP.mkData (Sat.mkCounter 0 3 2) true] !! v = Some x.
Proof.
  destruct (brrip_victim (BRRIP.mkPolicy 2 false 3
      [BRRIP.mkData (Sat.mkCounter 0 3 0) true; BRRIP.mkData (Sat.mkCounter 0 3 2) true])
      [0%nat; 1%nat]) as (v & p' & x & Hv & Hin & Hx & _).
  - split; [cbn; lia|]. repeat constructor; cbn; lia.
  - done.
  - repeat constructor; set_solver.
  - repeat constructor; cbn; lia.
  - exists v, p', x. split; [exact Hv|]. split; [exact Hin|exact Hx].
Defined.
End Rp.
