(* ===== verification/TreePLRU.v ===== *)
(** * Tree pseudo-LRU replacement ([mem/cache/replacement_policies/tree_plru_rp.cc])

    A tree of one bit per inner node, kept as an array in breadth first
    order and shared by [numLeaves] consecutive entries.  A touch makes the
    bits on an entry's path point away from it, an invalidation makes them
    point to it, and the victim is found by following the bits. *)

From S2P Require Import Prelude.
From S2P Require Import Intmath.
From S2P Require Import RpBase.
From S2P Require Import Replacement.

Module Plru.

(** ** The array as a tree *)

(** The subtraction is unsigned; the [double] that [std::floor] returns is
    exact for the indices a vector can have. *)
Definition parentIndex (index : Z) : Z := u64 (index - 1) / 2.
Definition leftSubtreeIndex (index : Z) : Z := u64 (2 * index + 1).
Definition rightSubtreeIndex (index : Z) : Z := u64 (2 * index + 2).
Definition isRightSubtree (index : Z) : bool := index mod 2 =? 0.

(** A replacement data: its leaf and the tree it shares. *)
Record data := mkData { index : Z; tree : nat }.
Record policy := mkPolicy {
  numLeaves : Z;
  count : Z;
  trees : list (list bool);
  entries : list data }.

Definition TreePLRURP (num_leaves : Z) : res policy :=
  fatal_if (negb (isPowerOf2 (u64 num_leaves)));; Ok (mkPolicy (u64 num_leaves) 0 [] []).

(** [treeInstance] is the last tree made. *)
Definition instantiateEntry (p : policy) : policy :=
  let ts := if count p mod numLeaves p =? 0
            then trees p ++ [replicate (Z.to_nat (numLeaves p - 1)) false] else trees p in
  mkPolicy (numLeaves p) (u64 (count p + 1)) ts
    (entries p ++ [mkData (count p mod numLeaves p + numLeaves p - 1) (pred (length ts))]).

(** The loop of [touch] and of [invalidate]; [f] gives the bit the parent of
    a right or left child gets.  [at] throws out of range and nothing catches
    the exception.  An index has 64 bits and each turn halves it. *)
Fixpoint climb (f : bool → bool) (fuel : nat) (t : list bool) (tree_index : Z) : res (list bool) :=
  match fuel with
  | O => Err Diverge
  | S fuel =>
      let right := isRightSubtree tree_index in
      let tree_index := parentIndex tree_index in
      if tree_index <? Z.of_nat (length t) then
        let t := <[Z.to_nat tree_index := f right]> t in
        if tree_index =? 0 then Ok t else climb f fuel t tree_index
      else Err PanicFail
  end.

Definition update (f : bool → bool) (p : policy) (e : nat) : res policy :=
  x ← RpBase.get (entries p) e;
  t ← RpBase.get (trees p) (tree x);
  t' ← climb f 64 t (index x);
  Ok (mkPolicy (numLeaves p) (count p) (<[tree x := t']> (trees p)) (entries p)).
Definition invalidate (p : policy) (e : nat) : res policy := update (λ right : bool, right) p e.
Definition touch (p : policy) (e : nat) : res policy := update negb p e.
Definition reset (p : policy) (e : nat) : res policy := touch p e.

(** The search for the victim. *)
Fixpoint descend (fuel : nat) (t : list bool) (tree_index : Z) : res Z :=
  match fuel with
  | O => Err Diverge
  | S fuel =>
      if tree_index <? Z.of_nat (length t) then
        match (t !! Z.to_nat tree_index : option bool) with
        | None => Err PanicFail
        | Some b =>
            descend fuel t (if b then rightSubtreeIndex tree_index else leftSubtreeIndex tree_index)
        end
      else Ok tree_index
  end.
Definition getVictim (p : policy) (cs : list nat) : res nat :=
  match cs with
  | [] => Err AssertFail
  | c0 :: _ =>
      x ← RpBase.get (entries p) c0;
      t ← RpBase.get (trees p) (tree x);
      tree_index ← descend 65 t 0;
      match cs !! Z.to_nat (tree_index - (numLeaves p - 1)) with
      | Some v => Ok v
      | None => Err Undef
      end
  end.

#[export] Instance plru_policy : RpBase.ReplacementPolicy policy := {
  RpBase.rp_count := λ p, length (entries p);
  RpBase.rp_instantiateEntry := λ p, Ok (instantiateEntry p);
  RpBase.rp_invalidate := λ _, invalidate;
  RpBase.rp_touch := λ _, touch;
  RpBase.rp_reset := λ _, reset;
  RpBase.rp_getVictim := λ _ p cs, Rp.pure_victim p (getVictim p cs) }.

(** ** Paths

    With the array counted from one the parent of [h] is [h / 2], and the
    ancestors of a leaf are its quotients by the powers of two. *)
Definition node (t : list bool) (h : Z) : option bool := t !! Z.to_nat (h - 1).

Lemma div_pow2_succ h i : 0 ≤ h → 0 ≤ i → h / 2 ^ (i + 1) = h / 2 / 2 ^ i.
Proof. intros. rewrite Z.div_div by lia. f_equal. rewrite Z.pow_add_r by lia. lia. Qed.

Lemma div_pow2_succ_r h i : 0 ≤ h → 0 ≤ i → h / 2 ^ (i + 1) = h / 2 ^ i / 2.
Proof. intros. rewrite Z.div_div by lia. f_equal. rewrite Z.pow_add_r by lia. lia. Qed.

Lemma level_half h j : 0 ≤ j → 2 ^ (j + 1) ≤ h < 2 ^ (j + 2) → 2 ^ j ≤ h / 2 < 2 ^ (j + 1).
Proof.
  intros Hj Hh. rewrite (Z.pow_add_r 2 j 1), (Z.pow_add_r 2 j 2) in * by lia.
  pose proof (Z.div_mod h 2 ltac:(lia)). pose proof (Z.mod_pos_bound h 2 ltac:(lia)). lia.
Qed.

Lemma level_ancestor h k i : 0 ≤ i ≤ k → 2 ^ k ≤ h < 2 ^ (k + 1) →
  2 ^ (k - i) ≤ h / 2 ^ i < 2 ^ (k - i + 1).
Proof.
  intros Hi Hh. split.
  - apply Z.div_le_lower_bound; [lia|]. rewrite <-Z.pow_add_r by lia.
    replace (i + (k - i)) with k by lia. lia.
  - apply Z.div_lt_upper_bound; [lia|]. rewrite <-Z.pow_add_r by lia.
    replace (i + (k - i + 1)) with (k + 1) by lia. lia.
Qed.

Lemma right_child h : 1 ≤ h → isRightSubtree (h - 1) = Z.testbit h 0.
Proof.
  intros Hh. unfold isRightSubtree. rewrite Z.bit0_odd, Zodd_mod.
  pose proof (Z.div_mod h 2 ltac:(lia)). pose proof (Z.mod_pos_bound h 2 ltac:(lia)).
  pose proof (Z.div_mod (h - 1) 2 ltac:(lia)). pose proof (Z.mod_pos_bound (h - 1) 2 ltac:(lia)).
  apply eq_bool_prop_intro. rewrite !Is_true_true, Z.eqb_eq, <-Zeq_is_eq_bool. lia.
Qed.

Lemma parent_half h : 2 ≤ h < 2 ^ 64 → parentIndex (h - 1) = h / 2 - 1.
Proof.
  intros Hh. unfold parentIndex. rewrite u64_small by lia.
  replace (h - 1 - 1) with (h + (-1) * 2) by lia. rewrite Z.div_add by lia. lia.
Qed.

Lemma node_insert (t : list bool) h b : 1 ≤ h → h - 1 < Z.of_nat (length t) →
  node (<[Z.to_nat (h - 1) := b]> t) h = Some b.
Proof. intros. unfold node. apply list_lookup_insert_eq. lia. Qed.

Lemma node_insert_ne (t : list bool) h h' b : 1 ≤ h → 1 ≤ h' → h ≠ h' →
  node (<[Z.to_nat (h - 1) := b]> t) h' = node t h'.
Proof. intros. unfold node. apply list_lookup_insert_ne. lia. Qed.

(** The loop sets the [j] ancestors of a node at depth [j] and nothing else. *)
Lemma climb_spec f j fuel t h :
  0 ≤ j < 63 → (Z.to_nat j < fuel)%nat → 2 ^ (j + 1) ≤ h < 2 ^ (j + 2) →
  2 ^ (j + 1) - 1 ≤ Z.of_nat (length t) →
  ∃ t', climb f fuel t (h - 1) = Ok t' ∧ length t' = length t ∧
    (∀ i, 1 ≤ i ≤ j + 1 → node t' (h / 2 ^ i) = Some (f (Z.testbit h (i - 1)))) ∧
    (∀ x, 1 ≤ x → (∀ i, 1 ≤ i ≤ j + 1 → x ≠ h / 2 ^ i) → node t' x = node t x).
Proof.
  intros Hj. assert (∃ n, j = Z.of_nat n) as [n ->] by (exists (Z.to_nat j); lia).
  rewrite Nat2Z.id. revert Hj fuel t h.
  induction n as [|n IH]; intros Hj fuel t h Hf Hh Hlen; (destruct fuel as [|fuel]; [lia|]).
  - change (2 ^ (Z.of_nat 0 + 1)) with 2 in *. change (2 ^ (Z.of_nat 0 + 2)) with 4 in *.
    change (Z.of_nat 0 + 1) with 1 in *.
    assert (h / 2 = 1) as Hp by (assert (h = 2 ∨ h = 3) as [->| ->] by lia; done).
    cbn [climb]. rewrite parent_half, Hp by lia. rewrite (proj2 (Z.ltb_lt _ _)) by lia.
    destruct t as [|b t]; [cbn in Hlen; lia|].
    exists (f (isRightSubtree (h - 1)) :: t). split; [done|]. split; [done|]. split.
    + intros i Hi. assert (i = 1) as -> by lia.
      rewrite right_child by lia. change (2 ^ 1) with 2. by rewrite Hp.
    + intros x Hx Hne. specialize (Hne 1 ltac:(lia)). change (2 ^ 1) with 2 in Hne.
      rewrite Hp in Hne. apply (node_insert_ne (b :: t) 1 x (f (isRightSubtree (h - 1)))); lia.
  - replace (Z.of_nat (S n)) with (Z.of_nat n + 1) in * by lia.
    assert (2 ^ (Z.of_nat n + 1 + 2) ≤ 2 ^ 64) as H64 by (apply Z.pow_le_mono_r; lia).
    assert (2 ^ 1 ≤ 2 ^ (Z.of_nat n + 1)) as H2 by (apply Z.pow_le_mono_r; lia).
    assert (2 ^ (Z.of_nat n + 1 + 1) = 2 * 2 ^ (Z.of_nat n + 1)) as Hpow
      by (rewrite Z.pow_add_r by lia; lia).
    assert (2 ^ (Z.of_nat n + 2) = 2 * 2 ^ (Z.of_nat n + 1)) as Hpow'
      by (replace (Z.of_nat n + 2) with (Z.of_nat n + 1 + 1) by lia; done).
    assert (2 ^ (Z.of_nat n + 1) ≤ h / 2 < 2 ^ (Z.of_nat n + 2)) as Hp.
    { pose proof (level_half h (Z.of_nat n + 1) ltac:(lia) Hh) as Hp.
      by replace (Z.of_nat n + 1 + 1) with (Z.of_nat n + 2) in Hp by lia. }
    cbn [climb]. rewrite parent_half by lia.
    rewrite (proj2 (Z.ltb_lt _ _)), (proj2 (Z.eqb_neq _ _)) by lia.
    destruct (IH ltac:(lia) fuel (<[Z.to_nat (h / 2 - 1) := f (isRightSubtree (h - 1))]> t) (h / 2))
      as (t' & Ht' & Hl' & Hin & Hout); [lia|done|rewrite length_insert; lia|].
    rewrite length_insert in Hl'. exists t'. split; [done|]. split; [done|]. split.
    + intros i Hi. destruct (decide (i = 1)) as [->|Hne].
      * change (2 ^ 1) with 2. rewrite Hout.
        -- rewrite right_child by lia. apply node_insert; lia.
        -- lia.
        -- intros i Hi'. pose proof (level_ancestor (h / 2) (Z.of_nat n + 1) i ltac:(lia)) as Hl.
           replace (Z.of_nat n + 1 + 1) with (Z.of_nat n + 2) in Hl by lia. specialize (Hl Hp).
           assert (2 ^ (Z.of_nat n + 1 - i + 1) ≤ 2 ^ (Z.of_nat n + 1)) by (apply Z.pow_le_mono_r; lia).
           lia.
      * replace i with (i - 1 + 1) by lia. rewrite div_pow2_succ, Hin by lia. do 2 f_equal.
        rewrite Z.div2_bits by lia. f_equal. lia.
    + intros x Hx Hne. rewrite Hout; [apply node_insert_ne; [lia|lia|]|done|].
      * intros Heq. apply (Hne 1); [lia|]. change (2 ^ 1) with 2. lia.
      * intros i Hi. rewrite <-div_pow2_succ by lia. apply Hne. lia.
Qed.

(** The bit of the [i]-th ancestor of [h] points to it. *)
Definition points (t : list bool) (h i : Z) : Prop := node t (h / 2 ^ (i + 1)) = Some (Z.testbit h i).
#[export] Instance points_dec t h i : Decision (points t h i).
Proof. unfold points. apply _. Defined.

Section OneTree.
Context (k : Z) (Hk : 0 ≤ k < 63).
Local Notation leaf h := (2 ^ k ≤ h < 2 ^ (k + 1)).

Lemma half_of_succ h b : (2 * h + Z.b2z b) / 2 = h.
Proof. rewrite Z.mul_comm, Z.div_add_l by lia.
  destruct b; [change (Z.b2z true / 2) with 0|change (Z.b2z false / 2) with 0]; lia.
Qed.

Lemma child_eq h (b : bool) : 1 ≤ h → h < 2 ^ 62 →
  (if b then rightSubtreeIndex (h - 1) else leftSubtreeIndex (h - 1)) = 2 * h + Z.b2z b - 1.
Proof.
  intros. unfold rightSubtreeIndex, leftSubtreeIndex. destruct b; rewrite u64_small by lia; cbn; lia.
Qed.

(** Following the bits from a node [n] levels above the leaves ends at a leaf
    below it to which all the bits passed point. *)
Lemma descend_spec (n : nat) fuel t h :
  Z.of_nat n ≤ k → (n < fuel)%nat → Z.of_nat (length t) = 2 ^ k - 1 →
  2 ^ (k - Z.of_nat n) ≤ h < 2 ^ (k - Z.of_nat n + 1) →
  ∃ v, descend fuel t (h - 1) = Ok (v - 1) ∧ leaf v ∧ v / 2 ^ Z.of_nat n = h ∧
    ∀ i, 0 ≤ i < Z.of_nat n → points t v i.
Proof.
  revert fuel h. induction n as [|n IH]; intros fuel h Hn Hf Hlen Hh; (destruct fuel as [|fuel]; [lia|]);
    cbn [descend].
  - rewrite Z.sub_0_r in Hh. rewrite (proj2 (Z.ltb_ge _ _)) by lia.
    exists h. split; [done|]. split; [done|]. split; [apply Z.div_1_r|lia].
  - replace (Z.of_nat (S n)) with (Z.of_nat n + 1) in * by lia.
    set (l := k - (Z.of_nat n + 1)) in *. assert (0 ≤ l) by lia.
    assert (2 ^ 0 ≤ 2 ^ l) by (apply Z.pow_le_mono_r; lia).
    assert (2 ^ (l + 1) ≤ 2 ^ k) by (apply Z.pow_le_mono_r; lia).
    assert (2 ^ k ≤ 2 ^ 62) by (apply Z.pow_le_mono_r; lia).
    rewrite (proj2 (Z.ltb_lt _ _)) by lia.
    destruct (lookup_lt_is_Some_2 t (Z.to_nat (h - 1))) as [b Hb]; [lia|]. rewrite Hb.
    rewrite child_eq by lia.
    destruct (IH fuel (2 * h + Z.b2z b)) as (v & Hv & Hleaf & Hdiv & Hpts); [lia|lia|done| |].
    { replace (k - Z.of_nat n) with (l + 1) by lia. rewrite !(Z.pow_add_r 2 _ 1) in * by lia.
      destruct b; cbn; lia. }
    assert (0 ≤ v) by lia.
    assert (v / 2 ^ (Z.of_nat n + 1) = h) as Hvh
      by (rewrite div_pow2_succ_r, Hdiv by lia; apply half_of_succ).
    exists v. split; [done|]. split; [done|]. split; [done|].
    intros i Hi. destruct (decide (i = Z.of_nat n)) as [->|]; [|apply Hpts; lia].
    unfold points, node. rewrite Hvh, Hb. f_equal.
    rewrite Z.testbit_odd, Z.shiftr_div_pow2, Hdiv by lia.
    rewrite Z.odd_add_mul_2 || (rewrite Z.add_comm, Z.odd_add_mul_2). by destruct b.
Qed.

Lemma ancestor_step h i : 0 ≤ h → 0 ≤ i →
  h / 2 ^ i = 2 * (h / 2 ^ (i + 1)) + Z.b2z (Z.testbit h i).
Proof.
  intros Hh Hi. rewrite div_pow2_succ_r by done.
  rewrite Z.testbit_odd, Z.shiftr_div_pow2 by done.
  rewrite <-Z.div2_div. apply Z.div2_odd.
Qed.

(** Only one leaf has all its ancestors pointing to it. *)
Lemma points_unique t u v : leaf u → leaf v →
  (∀ i, 0 ≤ i < k → points t u i) → (∀ i, 0 ≤ i < k → points t v i) → u = v.
Proof.
  intros Hu Hv Pu Pv. assert (∀ n : nat, Z.of_nat n ≤ k → u / 2 ^ (k - Z.of_nat n) = v / 2 ^ (k - Z.of_nat n)) as H.
  { induction n as [|n IH]; intros Hn.
    - rewrite Z.sub_0_r. pose proof (level_ancestor u k k ltac:(lia) Hu) as H1.
      pose proof (level_ancestor v k k ltac:(lia) Hv) as H2.
      rewrite Z.sub_diag in *. cbn in *. lia.
    - specialize (IH ltac:(lia)). set (i := k - Z.of_nat (S n)) in *.
      replace (k - Z.of_nat n) with (i + 1) in IH by lia.
      rewrite (ancestor_step u i), (ancestor_step v i), IH by lia. do 2 f_equal.
      specialize (Pu i ltac:(lia)). specialize (Pv i ltac:(lia)). unfold points in *.
      rewrite IH in Pu. congruence. }
  specialize (H (Z.to_nat k) ltac:(lia)). rewrite Z2Nat.id, Z.sub_diag in H by lia.
  by rewrite !Z.div_1_r in H.
Qed.

(** The number of ancestors pointing to [h]: it is the victim when this is
    the height of the tree. *)
Definition hits (t : list bool) (h : Z) : nat :=
  length (filter (λ i : nat, points t h (Z.of_nat i)) (seq 0 (Z.to_nat k))).

Lemma filter_length_all {A} (P : A → Prop) `{∀ x, Decision (P x)} (l : list A) :
  (∀ x, x ∈ l → P x) → length (filter P l) = length l.
Proof.
  induction l as [|a l IH]; intros Hall; [done|].
  rewrite filter_cons, decide_True by (apply Hall; by apply elem_of_cons; left).
  cbn. f_equal. apply IH. intros x Hx. apply Hall. by apply elem_of_cons; right.
Qed.

Lemma filter_length_none {A} (P : A → Prop) `{∀ x, Decision (P x)} (l : list A) :
  (∀ x, x ∈ l → ¬ P x) → length (filter P l) = 0%nat.
Proof.
  induction l as [|a l IH]; intros Hall; [done|].
  rewrite filter_cons, decide_False by (apply Hall; by apply elem_of_cons; left).
  apply IH. intros x Hx. apply Hall. by apply elem_of_cons; right.
Qed.

Lemma hits_full t h : (∀ i, 0 ≤ i < k → points t h i) → hits t h = Z.to_nat k.
Proof.
  intros Hall. unfold hits. rewrite filter_length_all; [apply length_seq|].
  intros i Hi%elem_of_seq. apply Hall. lia.
Qed.

Lemma filter_mono {A} (P Q : A → Prop) `{∀ x, Decision (P x), ∀ x, Decision (Q x)} (l : list A) :
  (∀ x, x ∈ l → Q x → P x) → (length (filter Q l) ≤ length (filter P l))%nat.
Proof.
  induction l as [|a l IH]; intros Himp; [done|]. rewrite !filter_cons.
  assert (length (filter Q l) ≤ length (filter P l))%nat as Hl
    by (apply IH; intros x Hx; apply Himp; by apply elem_of_cons; right).
  destruct (decide (Q a)) as [HQ|HQ], (decide (P a)) as [HP|HP]; cbn [length]; try lia.
  destruct HP. apply Himp; [by apply elem_of_cons; left|done].
Qed.

Lemma filter_one_more {A} (P Q : A → Prop) `{∀ x, Decision (P x), ∀ x, Decision (Q x)} (l : list A) :
  NoDup l → (∀ x y, x ∈ l → y ∈ l → Q x → ¬ P x → Q y → ¬ P y → x = y) →
  (length (filter Q l) ≤ S (length (filter P l)))%nat.
Proof.
  induction l as [|a l IH]; intros Hnd Hu; [cbn; lia|]. apply NoDup_cons in Hnd as [Ha Hnd].
  assert (length (filter Q l) ≤ S (length (filter P l)))%nat as Hl
    by (apply IH; [done|]; intros x y Hx Hy; apply Hu; by apply elem_of_cons; right).
  rewrite !filter_cons.
  destruct (decide (Q a)) as [HQ|HQ], (decide (P a)) as [HP|HP]; cbn [length]; try lia.
  apply le_n_S, filter_mono. intros x Hx HQx. destruct (decide (P x)) as [|HPx]; [done|].
  destruct Ha. rewrite (Hu a x) by (done || by apply elem_of_cons; auto). done.
Qed.

(** Ancestors at different depths are different nodes. *)
Lemma same_depth u h i j : leaf u → leaf h → 0 ≤ i ≤ k → 0 ≤ j ≤ k → u / 2 ^ i = h / 2 ^ j → i = j.
Proof.
  intros Hu Hh Hi Hj Heq. pose proof (level_ancestor u k i Hi Hu).
  pose proof (level_ancestor h k j Hj Hh). rewrite Heq in *.
  destruct (Z.lt_trichotomy i j) as [|[|]]; [exfalso|done|exfalso].
  - assert (2 ^ (k - j + 1) ≤ 2 ^ (k - i)) by (apply Z.pow_le_mono_r; lia). lia.
  - assert (2 ^ (k - i + 1) ≤ 2 ^ (k - j)) by (apply Z.pow_le_mono_r; lia). lia.
Qed.

Lemma same_ancestor_up u h i j : 0 ≤ u → 0 ≤ h → 0 ≤ i ≤ j →
  u / 2 ^ i = h / 2 ^ i → u / 2 ^ j = h / 2 ^ j.
Proof.
  intros Hu Hh Hij Heq. replace j with (i + (j - i)) by lia.
  rewrite Z.pow_add_r, <-!Z.div_div by lia. by rewrite Heq.
Qed.

Lemma climb_leaf f t h : 1 ≤ k → leaf h → Z.of_nat (length t) = 2 ^ k - 1 →
  ∃ t', climb f 64 t (h - 1) = Ok t' ∧ length t' = length t ∧
    (∀ i, 0 ≤ i < k → node t' (h / 2 ^ (i + 1)) = Some (f (Z.testbit h i))) ∧
    ∀ u i, leaf u → 0 ≤ i < k → u / 2 ^ (i + 1) ≠ h / 2 ^ (i + 1) →
      node t' (u / 2 ^ (i + 1)) = node t (u / 2 ^ (i + 1)).
Proof.
  intros Hk1 Hh Hlen.
  destruct (climb_spec f (k - 1) 64 t h) as (t' & Ht' & Hl & Hin & Hout); [lia|lia|..].
  { by replace (k - 1 + 1) with k by lia; replace (k - 1 + 2) with (k + 1) by lia. }
  { replace (k - 1 + 1) with k by lia. lia. }
  exists t'. split; [done|]. split; [done|]. split.
  - intros i Hi. rewrite Hin by lia. do 3 f_equal. lia.
  - intros u i Hu Hi Hne. apply Hout.
    + pose proof (level_ancestor u k (i + 1) ltac:(lia) Hu).
      assert (2 ^ 0 ≤ 2 ^ (k - (i + 1))) by (apply Z.pow_le_mono_r; lia). lia.
    + intros j Hj Heq. assert (i + 1 = j) as <- by (apply (same_depth u h); auto; lia). done.
Qed.

(** After a touch no ancestor points to the leaf, and at most one more than
    before to any other leaf: the lowest one they share. *)
Lemma touch_hits t h : 1 ≤ k → leaf h → Z.of_nat (length t) = 2 ^ k - 1 →
  ∃ t', climb negb 64 t (h - 1) = Ok t' ∧ length t' = length t ∧ hits t' h = 0%nat ∧
    ∀ u, leaf u → u ≠ h → (hits t' u ≤ S (hits t u))%nat.
Proof.
  intros Hk1 Hh Hlen. destruct (climb_leaf negb t h Hk1 Hh Hlen) as (t' & Ht' & Hl & Hin & Hout).
  exists t'. split; [done|]. split; [done|]. split.
  - apply filter_length_none. intros i Hi%elem_of_seq Hp. unfold points in Hp.
    rewrite Hin in Hp by lia. injection Hp. by destruct (Z.testbit h _).
  - intros u Hu Hne. apply filter_one_more; [apply NoDup_seq|].
    assert (∀ i : nat, (i < Z.to_nat k)%nat → points t' u (Z.of_nat i) → ¬ points t u (Z.of_nat i) →
      u / 2 ^ (Z.of_nat i + 1) = h / 2 ^ (Z.of_nat i + 1) ∧
      u / 2 ^ Z.of_nat i ≠ h / 2 ^ Z.of_nat i) as Hnew.
    { intros i Hi Hp Hnp. unfold points in *.
      destruct (decide (u / 2 ^ (Z.of_nat i + 1) = h / 2 ^ (Z.of_nat i + 1))) as [Heq|Hd].
      - split; [done|]. rewrite Heq, Hin in Hp by lia. injection Hp as Hp.
        rewrite (ancestor_step u), (ancestor_step h), Heq, <-Hp by lia.
        by destruct (Z.testbit h (Z.of_nat i)); cbn; lia.
      - destruct Hnp. by rewrite <-Hout by (done || lia). }
    intros x y Hx%elem_of_seq Hy%elem_of_seq Qx Px Qy Py.
    destruct (Hnew x ltac:(lia) Qx Px) as [Ex Nx], (Hnew y ltac:(lia) Qy Py) as [Ey Ny].
    destruct (Nat.lt_trichotomy x y) as [|[|]]; [exfalso|done|exfalso].
    + apply Ny. apply (same_ancestor_up u h (Z.of_nat x + 1)); [lia..|done].
    + apply Nx. apply (same_ancestor_up u h (Z.of_nat y + 1)); [lia..|done].
Qed.

(** After an invalidation all the ancestors point to the leaf. *)
Lemma invalidate_points t h : 1 ≤ k → leaf h → Z.of_nat (length t) = 2 ^ k - 1 →
  ∃ t', climb (λ right : bool, right) 64 t (h - 1) = Ok t' ∧ length t' = length t ∧
    ∀ i, 0 ≤ i < k → points t' h i.
Proof.
  intros Hk1 Hh Hlen. destruct (climb_leaf (λ b, b) t h Hk1 Hh Hlen) as (t' & Ht' & Hl & Hin & _).
  exists t'. split; [done|]. split; [done|]. intros i Hi. by apply Hin.
Qed.

(** The search ends at a leaf all of whose ancestors point to it. *)
Lemma victim_points t : Z.of_nat (length t) = 2 ^ k - 1 →
  ∃ v, descend 65 t 0 = Ok (v - 1) ∧ leaf v ∧ ∀ i, 0 ≤ i < k → points t v i.
Proof.
  intros Hlen. destruct (descend_spec (Z.to_nat k) 65 t 1) as (v & Hv & Hleaf & _ & Hp); [lia|lia|done| |].
  - rewrite Z2Nat.id, Z.sub_diag by lia. cbn. lia.
  - exists v. split; [done|]. split; [done|]. intros i Hi. apply Hp. lia.
Qed.
End OneTree.

#[local] Opaque climb descend.

(** ** The policy *)

(** Trees of [2^k] leaves, each but the last one full, and every entry at
    its leaf of its tree. *)
Record ok (p : policy) (k : Z) : Prop := {
  ok_k : 1 ≤ k < 63;
  ok_numLeaves : numLeaves p = 2 ^ k;
  ok_count : count p = u64 (Z.of_nat (length (entries p)));
  ok_trees : (Z.of_nat (length (trees p)) - 1) * 2 ^ k < Z.of_nat (length (entries p)) ≤
             Z.of_nat (length (trees p)) * 2 ^ k;
  ok_tree : Forall (λ t, Z.of_nat (length t) = 2 ^ k - 1) (trees p);
  ok_entry : ∀ e x, entries p !! e = Some x →
    index x = Z.of_nat e mod 2 ^ k + 2 ^ k - 1 ∧ Z.of_nat (tree x) = Z.of_nat e / 2 ^ k }.

Lemma count_mod k n : 0 ≤ k < 63 → u64 n mod 2 ^ k = n mod 2 ^ k.
Proof.
  intros Hk. unfold u64. rewrite <-Znumtheory.Zmod_div_mod; [done|lia|lia|].
  exists (2 ^ (64 - k)). rewrite <-Z.pow_add_r by lia. f_equal. lia.
Qed.

Lemma instantiate_ok p k : ok p k →
  ok (instantiateEntry p) k ∧ length (entries (instantiateEntry p)) = S (length (entries p)).
Proof.
  intros [Hk Hn Hc Ht Htl He]. unfold instantiateEntry. cbn [entries].
  split; [|rewrite length_app; cbn; lia].
  set (L := Z.of_nat (length (entries p))) in *. set (T := Z.of_nat (length (trees p))) in *.
  assert (0 < 2 ^ k) by lia.
  pose proof (Z.div_mod L (2 ^ k) ltac:(lia)) as Hdm. pose proof (Z.mod_pos_bound L (2 ^ k) ltac:(lia)).
  rewrite Hc, Hn, count_mod by lia.
  assert (∃ ts, (if L mod 2 ^ k =? 0 then trees p ++ [replicate (Z.to_nat (2 ^ k - 1)) false]
                 else trees p) = ts ∧ Forall (λ t, Z.of_nat (length t) = 2 ^ k - 1) ts ∧
          Z.of_nat (length ts) = L / 2 ^ k + 1) as (ts & -> & Hts & Hlen).
  { destruct (Z.eqb_spec (L mod 2 ^ k) 0).
    - eexists. split; [done|]. split.
      + apply Forall_app. split; [done|]. apply Forall_singleton. rewrite length_replicate. lia.
      + rewrite length_app. cbn. fold T. assert (T = L / 2 ^ k) by nia. lia.
    - exists (trees p). split; [done|]. split; [done|]. fold T. nia. }
  split; cbn; [done|done| |rewrite length_app; cbn; nia|done|].
  - unfold u64. rewrite Zplus_mod_idemp_l, length_app. f_equal. cbn. lia.
  - intros e x Hx. apply lookup_app_Some in Hx as [Hx|[Hge Hx]]; [by apply He|].
    apply list_lookup_singleton_Some in Hx as [Heq <-]. cbn.
    assert (Z.of_nat e = L) as -> by lia. split; [done|]. lia.
Qed.

Lemma TreePLRURP_ok n p k : 1 ≤ k < 63 → TreePLRURP n = Ok p → u64 n = 2 ^ k → ok p k.
Proof.
  intros Hk H Hn. unfold TreePLRURP in H. inv_ok. split; cbn; [done|done|done|lia|done|].
  intros e x Hx. by rewrite lookup_nil in Hx.
Qed.

(** The leaf of an entry, counted from one, and its tree. *)
Definition place (k : Z) (e : nat) : Z := Z.of_nat e mod 2 ^ k + 2 ^ k.
Definition group (k : Z) (e : nat) : nat := Z.to_nat (Z.of_nat e / 2 ^ k).

Lemma place_leaf k e : 1 ≤ k → 2 ^ k ≤ place k e < 2 ^ (k + 1).
Proof.
  intros. unfold place. rewrite Z.pow_add_r by lia.
  pose proof (Z.mod_pos_bound (Z.of_nat e) (2 ^ k) ltac:(lia)). lia.
Qed.

Lemma entry_tree p k e : ok p k → (e < length (entries p))%nat →
  ∃ x t, entries p !! e = Some x ∧ index x = place k e - 1 ∧ tree x = group k e ∧
    trees p !! group k e = Some t ∧ Z.of_nat (length t) = 2 ^ k - 1.
Proof.
  intros Hok He. destruct (lookup_lt_is_Some_2 _ _ He) as [x Hx].
  destruct (ok_entry _ _ Hok e x Hx) as [Hi Ht]. pose proof (ok_trees _ _ Hok) as Htr.
  pose proof (ok_k _ _ Hok). assert (0 < 2 ^ k) by lia.
  pose proof (Z.div_mod (Z.of_nat e) (2 ^ k) ltac:(lia)).
  pose proof (Z.mod_pos_bound (Z.of_nat e) (2 ^ k) ltac:(lia)).
  assert (tree x = group k e) as Hg by (unfold group; lia).
  destruct (lookup_lt_is_Some_2 (trees p) (group k e)) as [t Htt]; [nia|].
  exists x, t. split; [done|]. split; [unfold place; lia|]. split; [done|]. split; [done|].
  by apply (Forall_lookup_1 _ _ _ _ (ok_tree _ _ Hok) Htt).
Qed.

(** An update rewrites the tree of its entry. *)
Lemma update_eq f p k e t t' : ok p k → (e < length (entries p))%nat →
  trees p !! group k e = Some t → climb f 64 t (place k e - 1) = Ok t' → length t' = length t →
  ∃ p', update f p e = Ok p' ∧ ok p' k ∧ entries p' = entries p ∧
    trees p' = <[group k e := t']> (trees p).
Proof.
  intros Hok He Ht Hc Hl. destruct (entry_tree p k e Hok He) as (x & t0 & Hx & Hi & Hg & Ht0 & Hl0).
  assert (t0 = t) as -> by congruence. unfold update, RpBase.get. rewrite Hx. cbn [mbind res_bind].
  rewrite Hg, Ht. cbn [mbind res_bind]. rewrite Hi, Hc. cbn [mbind res_bind].
  eexists. split; [reflexivity|]. split; [|done].
  destruct Hok as [Hk Hn Hco Htr Htl Hen]. split; cbn; try done.
  - by rewrite length_insert.
  - apply Forall_insert; [done|]. by rewrite Hl.
Qed.

(** How many bits lead to an entry. *)
Definition leads (p : policy) (k : Z) (e : nat) : nat :=
  match trees p !! group k e with Some t => hits k t (place k e) | None => 0 end.

Lemma touch_leads p k e : ok p k → (e < length (entries p))%nat →
  ∃ p', touch p e = Ok p' ∧ ok p' k ∧ entries p' = entries p ∧ leads p' k e = 0%nat ∧
    ∀ u, (u < length (entries p))%nat → u ≠ e → (leads p' k u ≤ S (leads p k u))%nat.
Proof.
  intros Hok He. pose proof (ok_k _ _ Hok) as Hk.
  destruct (entry_tree p k e Hok He) as (x & t & Hx & Hi & Hg & Ht & Hl).
  destruct (touch_hits k ltac:(lia) t (place k e) ltac:(lia) (place_leaf k e ltac:(lia)) Hl)
    as (t' & Hc & Hl' & H0 & Hother).
  destruct (update_eq negb p k e t t' Hok He Ht Hc Hl') as (p' & Hu & Hok' & Hen & Htr).
  assert (group k e < length (trees p))%nat by (by eapply lookup_lt_Some).
  exists p'. split; [done|]. split; [done|]. split; [done|]. split.
  - unfold leads. by rewrite Htr, list_lookup_insert_eq by done.
  - intros u Hu' Hne. unfold leads. rewrite Htr.
    destruct (decide (group k u = group k e)) as [Hgu|Hgu].
    + rewrite Hgu, list_lookup_insert_eq, Ht by done. apply Hother; [apply place_leaf; lia|].
      unfold place, group in *. intros Heq. apply Hne.
      pose proof (Z.div_mod (Z.of_nat u) (2 ^ k) ltac:(lia)).
      pose proof (Z.div_mod (Z.of_nat e) (2 ^ k) ltac:(lia)).
      assert (0 ≤ Z.of_nat u / 2 ^ k) by (apply Z.div_pos; lia).
      assert (0 ≤ Z.of_nat e / 2 ^ k) by (apply Z.div_pos; lia).
      assert (Z.of_nat u / 2 ^ k = Z.of_nat e / 2 ^ k) by lia. nia.
    + rewrite list_lookup_insert_ne by done. destruct (trees p !! group k u); lia.
Qed.

(** The entries of a full tree, in order: the candidates of a set. *)
Definition candidates (k : Z) (g : nat) : list nat := seq (g * Z.to_nat (2 ^ k)) (Z.to_nat (2 ^ k)).

Lemma ok_bind {A B} (a : A) (g : A → res B) : mbind g (Ok a) = g a.
Proof. reflexivity. Qed.

Lemma getVictim_eq p cs c0 x t v w :
  cs !! 0%nat = Some c0 → entries p !! c0 = Some x → trees p !! tree x = Some t →
  descend 65 t 0 = Ok (v - 1) → cs !! Z.to_nat (v - numLeaves p) = Some w → getVictim p cs = Ok w.
Proof.
  intros Hc0 Hx Ht Hd Hw. unfold getVictim. destruct cs as [|c cs]; [done|]. injection Hc0 as ->.
  replace (v - numLeaves p) with (v - 1 - (numLeaves p - 1)) in Hw by lia.
  unfold RpBase.get. rewrite Hx, ok_bind, Ht, ok_bind, Hd, ok_bind, Hw. reflexivity.
Qed.

Lemma candidate_place k g w : 0 ≤ k → (w < Z.to_nat (2 ^ k))%nat →
  group k (g * Z.to_nat (2 ^ k) + w) = g ∧ place k (g * Z.to_nat (2 ^ k) + w) = Z.of_nat w + 2 ^ k.
Proof.
  intros Hk Hw. unfold group, place. assert (0 < 2 ^ k) by lia.
  replace (Z.of_nat (g * Z.to_nat (2 ^ k) + w)) with (Z.of_nat w + Z.of_nat g * 2 ^ k) by lia.
  rewrite Z.div_add, Z.mod_add, Z.div_small, Z.mod_small by lia. split; lia.
Qed.

Lemma candidate_lookup k g w : (w < Z.to_nat (2 ^ k))%nat →
  candidates k g !! w = Some (g * Z.to_nat (2 ^ k) + w)%nat.
Proof. intros. unfold candidates. by apply lookup_seq_lt. Qed.

Lemma victim_of_group p k g : ok p k → (S g * Z.to_nat (2 ^ k) ≤ length (entries p))%nat →
  ∃ v, getVictim p (candidates k g) = Ok v ∧ v ∈ candidates k g ∧ leads p k v = Z.to_nat k ∧
    ∀ t, trees p !! g = Some t → ∀ i, 0 ≤ i < k → points t (place k v) i.
Proof.
  intros Hok Hg. pose proof (ok_k _ _ Hok) as Hk.
  assert (0 < Z.to_nat (2 ^ k))%nat as Hn by lia.
  destruct (candidate_place k g 0 ltac:(lia) Hn) as [Hg0 _]. rewrite Nat.add_0_r in Hg0.
  destruct (entry_tree p k (g * Z.to_nat (2 ^ k)) Hok ltac:(nia)) as (x & t & Hx & Hi & Hgx & Ht & Hl).
  rewrite Hg0 in *. destruct (victim_points k ltac:(lia) t Hl) as (v & Hv & Hleaf & Hp).
  assert (Z.to_nat (v - 2 ^ k) < Z.to_nat (2 ^ k))%nat as Hw.
  { rewrite (Z.pow_add_r 2 k 1) in Hleaf by lia. lia. }
  destruct (candidate_place k g _ ltac:(lia) Hw) as [Hgw Hpw].
  rewrite Z2Nat.id in Hpw by lia. replace (v - 2 ^ k + 2 ^ k) with v in Hpw by lia.
  exists (g * Z.to_nat (2 ^ k) + Z.to_nat (v - 2 ^ k))%nat. split; [|split; [|split]].
  - eapply getVictim_eq; [by apply candidate_lookup|by rewrite Nat.add_0_r|by rewrite Hgx|done|].
    rewrite (ok_numLeaves _ _ Hok). by apply candidate_lookup.
  - eapply list_elem_of_lookup_2. by apply candidate_lookup.
  - unfold leads. rewrite Hgw, Ht, Hpw. by apply hits_full.
  - intros t1 Ht1. assert (t1 = t) as -> by congruence. by rewrite Hpw.
Qed.

Lemma climb_ok f p k e : ok p k → (e < length (entries p))%nat →
  ∃ p', update f p e = Ok p' ∧ ok p' k ∧ entries p' = entries p.
Proof.
  intros Hok He. pose proof (ok_k _ _ Hok) as Hk.
  destruct (entry_tree p k e Hok He) as (x & t & _ & _ & _ & Ht & Hl).
  destruct (climb_leaf k ltac:(lia) f t (place k e) ltac:(lia) (place_leaf k e ltac:(lia)) Hl)
    as (t' & Hc & Hl' & _).
  destruct (update_eq f p k e t t' Hok He Ht Hc Hl') as (p' & Hu & Hok' & Hen & _). eauto.
Qed.

Lemma update_same f p e : (∃ k, ok p k) → (e < length (entries p))%nat →
  ∃ p', update f p e = Ok p' ∧
    ((∃ k, ok p' k) ∧ ∀ n : nat, Z.of_nat n = numLeaves p → Z.of_nat n = numLeaves p') ∧
    length (entries p') = length (entries p).
Proof.
  intros [k Hok] He. destruct (climb_ok f p k e Hok He) as (p' & Hu & Hok' & Hen).
  exists p'. split; [done|]. split; [|by rewrite Hen]. split; [by exists k|].
  intros n. by rewrite (ok_numLeaves _ _ Hok), (ok_numLeaves _ _ Hok').
Qed.

#[export] Program Instance plru_ok : Rp.PolicyOk policy :=
  { RpBase.rp_ok := λ p, ∃ k, ok p k; RpBase.rp_arity := λ p n, Z.of_nat n = numLeaves p }.
Next Obligation.
  intros p [k Hok]. destruct (instantiate_ok p k Hok) as [Hok' Hlen].
  eexists. split; [reflexivity|]. split; [split; [by exists k|done]|done].
Qed.
Next Obligation. intros w p e Hok He. exact (update_same (λ right : bool, right) p e Hok He). Qed.
Next Obligation. intros w p e Hok He. exact (update_same negb p e Hok He). Qed.
Next Obligation. intros w p e Hok He. exact (update_same negb p e Hok He). Qed.
Next Obligation.
  intros w p cs _ [k Hok] Hne Har Hcs. pose proof (ok_k _ _ Hok) as Hk.
  destruct cs as [|c0 cs]; [done|]. pose proof Hcs as [Hc0 _]%Forall_cons.
  destruct (entry_tree p k c0 Hok Hc0) as (x & t & Hx & _ & Hg & Ht & Hl).
  destruct (victim_points k ltac:(lia) t Hl) as (v & Hv & Hleaf & _).
  rewrite (ok_numLeaves _ _ Hok) in Har. rewrite (Z.pow_add_r 2 k 1) in Hleaf by lia.
  destruct (lookup_lt_is_Some_2 (c0 :: cs) (Z.to_nat (v - numLeaves p))) as [u Hu].
  { rewrite (ok_numLeaves _ _ Hok). lia. }
  eapply Rp.pure_victim_ok; [eapply getVictim_eq; [done|done|by rewrite Hg|done|exact Hu]|].
  split; [by eapply list_elem_of_lookup_2|]. split; [split; [by exists k|done]|done].
Qed.

(** ** Properties *)

Fixpoint touches (p : policy) (es : list nat) : res policy :=
  match es with [] => Ok p | e :: es => p' ← touch p e; touches p' es end.

Lemma touches_leads p k e es : ok p k → (e < length (entries p))%nat →
  Forall (λ u, u < length (entries p))%nat es → e ∉ es →
  ∃ p', touches p es = Ok p' ∧ ok p' k ∧ entries p' = entries p ∧
    (leads p' k e ≤ leads p k e + length es)%nat.
Proof.
  revert p. induction es as [|u es IH]; intros p Hok He Hes Hnin; cbn [touches length].
  - exists p. split; [done|]. split; [done|]. split; [done|lia].
  - apply Forall_cons in Hes as [Hu Hes]. apply not_elem_of_cons in Hnin as [Hne Hnin].
    destruct (touch_leads p k u Hok Hu) as (p1 & -> & Hok1 & Hen1 & _ & Hle).
    specialize (Hle e He Hne). rewrite ok_bind, <-Hen1 in *.
    destruct (IH p1 Hok1 He Hes Hnin) as (p' & -> & Hok' & Hen' & Hle').
    exists p'. split; [done|]. split; [done|]. split; [done|lia].
Qed.

(** C24: With [2^k] ways an entry that has just been used survives the next
    [k - 1] uses of other entries, of its own set or of any other: it is not
    the victim of its set before [k] other accesses have been made. *)
Theorem plru_protects p k e es :
  ok p k → (S (group k e) * Z.to_nat (2 ^ k) ≤ length (entries p))%nat →
  (e < length (entries p))%nat → Forall (λ u, u < length (entries p))%nat es → e ∉ es →
  (Z.of_nat (length es) < k) →
  ∃ p1 p2 v, touch p e = Ok p1 ∧ touches p1 es = Ok p2 ∧
    getVictim p2 (candidates k (group k e)) = Ok v ∧ v ∈ candidates k (group k e) ∧ v ≠ e.
Proof.
  intros Hok Hg He Hes Hnin Hlt. destruct (touch_leads p k e Hok He) as (p1 & Ht & Hok1 & Hen1 & H0 & _).
  rewrite <-Hen1 in Hg, He, Hes.
  destruct (touches_leads p1 k e es Hok1 He Hes Hnin) as (p2 & Hts & Hok2 & Hen2 & Hle).
  rewrite <-Hen2 in Hg. destruct (victim_of_group p2 k (group k e) Hok2 Hg) as (v & Hv & Hin & Hlv & _).
  exists p1, p2, v. split; [done|]. split; [done|]. split; [done|]. split; [done|].
  intros ->. lia.
Qed.

Fixpoint create (p : policy) (n : nat) : policy :=
  match n with O => p | S n => create (instantiateEntry p) n end.
Lemma create_ok p k n : ok p k → ok (create p n) k.
Proof.
  revert p. induction n as [|n IH]; intros p Hok; [done|]. cbn. apply IH.
  by apply instantiate_ok.
Qed.
Definition example_plru : policy := create (mkPolicy 4 0 [] []) 8.

Lemma plru_protects_witness :
  ∃ p1 p2 v, touch example_plru 6 = Ok p1 ∧ touches p1 [4%nat] = Ok p2 ∧
    getVictim p2 (candidates 2 (group 2 6)) = Ok v ∧ v ∈ candidates 2 (group 2 6) ∧ v ≠ 6%nat.
Proof.
  apply (plru_protects example_plru 2 6 [4%nat]); [|vm_compute; lia|vm_compute; lia| |set_solver|by vm_compute].
  - apply create_ok. apply (TreePLRURP_ok 4); [lia|by vm_compute|by vm_compute].
  - repeat constructor; vm_compute; lia.
Defined.

(** The bound is tight: in a set of four, two accesses suffice. *)
Example plru_bound_tight :
  (p ← touches (create (mkPolicy 4 0 [] []) 4) [0%nat; 1%nat; 2%nat]; getVictim p [0%nat; 1%nat; 2%nat; 3%nat])
  = Ok 0%nat.
Proof. by vm_compute. Qed.

(** An invalidated entry is the next victim of its set, whatever the
    tree held before. *)
Theorem plru_invalidated_first p k e :
  ok p k → (S (group k e) * Z.to_nat (2 ^ k) ≤ length (entries p))%nat →
  (e < length (entries p))%nat →
  ∃ p', invalidate p e = Ok p' ∧ getVictim p' (candidates k (group k e)) = Ok e.
Proof.
  intros Hok Hg He. pose proof (ok_k _ _ Hok) as Hk.
  destruct (entry_tree p k e Hok He) as (x & t & _ & _ & _ & Ht & Hl).
  destruct (invalidate_points k ltac:(lia) t (place k e) ltac:(lia) (place_leaf k e ltac:(lia)) Hl)
    as (t' & Hc & Hl' & Hp).
  destruct (update_eq _ p k e t t' Hok He Ht Hc Hl') as (p' & Hu & Hok' & Hen & Htr).
  rewrite <-Hen in Hg. destruct (victim_of_group p' k (group k e) Hok' Hg) as (v & Hv & Hin & _ & Hpv).
  assert (trees p' !! group k e = Some t') as Ht'.
  { rewrite Htr. apply list_lookup_insert_eq. by eapply lookup_lt_Some. }
  specialize (Hpv t' Ht').
  pose proof (points_unique k ltac:(lia) t' _ _ (place_leaf k v ltac:(lia)) (place_leaf k e ltac:(lia)) Hpv Hp)
    as Heq.
  exists p'. split; [done|]. rewrite Hv. f_equal.
  apply list_elem_of_lookup in Hin as [i Hi].
  pose proof (lookup_lt_Some _ _ _ Hi) as Hil. unfold candidates in Hil. rewrite length_seq in Hil.
  rewrite candidate_lookup in Hi by done. injection Hi as Hi.
  destruct (candidate_place k (group k e) i ltac:(lia) Hil) as [_ Hpi]. rewrite Hi, Heq in Hpi.
  unfold place, group in *. pose proof (Z.div_mod (Z.of_nat e) (2 ^ k) ltac:(lia)).
  assert (0 ≤ Z.of_nat e / 2 ^ k) by (apply Z.div_pos; lia). nia.
Qed.

Lemma plru_invalidated_first_witness :
  ∃ p', invalidate example_plru 5 = Ok p' ∧ getVictim p' (candidates 2 (group 2 5)) = Ok 5%nat.
Proof.
  apply (plru_invalidated_first example_plru 2 5); [|vm_compute; lia|vm_compute; lia].
  apply create_ok. apply (TreePLRURP_ok 4); [lia|by vm_compute|by vm_compute].
Defined.

(** The constructor accepts trees of one leaf, whose entries have no parent:
    the first use throws out of range. *)
Example plru_single_way :
  ∃ p, TreePLRURP 1 = Ok p ∧ touch (instantiateEntry p) 0 = Err PanicFail.
Proof. eexists. split; [reflexivity|]. by vm_compute. Qed.
End Plru.
