(* ===== verification/CacheBlk.v ===== *)
(** * Cache blocks ([mem/cache/cache_blk.hh], [mem/cache/cache_blk.cc])

    The status bits of a block, its insertion and invalidation, and the list
    of load-locked reservations that decides store conditionals. *)

From S2P Require Import Prelude.
From S2P Require Import MemCmd.
From S2P Require Import Packet.

Module Blk.
Import MemCmd Pkt.

(** ** Blocks *)
Definition BlkValid : Z := 0x01.
Definition BlkWritable : Z := 0x02.
Definition BlkReadable : Z := 0x04.
Definition BlkDirty : Z := 0x08.
Definition BlkHWPrefetched : Z := 0x20.
Definition BlkSecure : Z := 0x40.
Definition BlkCompressed : Z := 0x80.

Record Lock := mkLock { l_contextId : Z; lowAddr : Z; highAddr : Z }.

(** The data lives in the tag store; [_set] and [_way] are those of
    [ReplaceableEntry]. *)
Record CacheBlk := mkBlk {
  task_id : Z;
  tag : Z;
  status : Z;
  whenReady : Z;
  refCount : Z;
  srcRequestorId : Z;
  tickInserted : Z;
  lockList : list Lock;
  _set : Z;
  _way : Z }.

Definition MaxAddr : Z := 2 ^ 64 - 1.
Definition MaxTick : Z := 2 ^ 64 - 1.
Definition UnknownTaskId : Z := 1024.
Definition invldRequestorId : Z := 65535.

Definition isWritable (b : CacheBlk) : bool :=
  let needed_bits := Z.lor BlkWritable BlkValid in Z.land (status b) needed_bits =? needed_bits.
Definition isReadable (b : CacheBlk) : bool :=
  let needed_bits := Z.lor BlkReadable BlkValid in Z.land (status b) needed_bits =? needed_bits.
Definition isValid (b : CacheBlk) : bool := negb (Z.land (status b) BlkValid =? 0).
Definition isDirty (b : CacheBlk) : bool := negb (Z.land (status b) BlkDirty =? 0).
Definition wasPrefetched (b : CacheBlk) : bool := negb (Z.land (status b) BlkHWPrefetched =? 0).
Definition isSecure (b : CacheBlk) : bool := negb (Z.land (status b) BlkSecure =? 0).

Definition invalidate (b : CacheBlk) : CacheBlk :=
  mkBlk UnknownTaskId MaxAddr 0 MaxTick 0 invldRequestorId (tickInserted b) [] (_set b) (_way b).
(** The constructor; [_set] and [_way] are set before they are read. *)
Definition CacheBlk_new : CacheBlk := invalidate (mkBlk 0 0 0 0 0 0 0 [] 0 0).
Definition setPosition (s w : Z) (b : CacheBlk) : CacheBlk :=
  mkBlk (task_id b) (tag b) (status b) (whenReady b) (refCount b) (srcRequestorId b)
    (tickInserted b) (lockList b) s w.
Definition set_status (st : Z) (b : CacheBlk) : CacheBlk :=
  mkBlk (task_id b) (tag b) st (whenReady b) (refCount b) (srcRequestorId b)
    (tickInserted b) (lockList b) (_set b) (_way b).
Definition set_refCount (n : Z) (b : CacheBlk) : CacheBlk :=
  mkBlk (task_id b) (tag b) (status b) (whenReady b) n (srcRequestorId b)
    (tickInserted b) (lockList b) (_set b) (_way b).
Definition set_locks (l : list Lock) (b : CacheBlk) : CacheBlk :=
  mkBlk (task_id b) (tag b) (status b) (whenReady b) (refCount b) (srcRequestorId b)
    (tickInserted b) l (_set b) (_way b).

Definition setValid (b : CacheBlk) : res CacheBlk :=
  assertb (negb (isValid b));; Ok (set_status (Z.lor (status b) BlkValid) b).
Definition setSecure (b : CacheBlk) : CacheBlk := set_status (Z.lor (status b) BlkSecure) b.
Definition getWhenReady (b : CacheBlk) : res Z :=
  assertb (negb (whenReady b =? MaxTick));; Ok (whenReady b).
Definition setWhenReady (tick : Z) (b : CacheBlk) : res CacheBlk :=
  assertb (tickInserted b <=? tick);;
  Ok (mkBlk (task_id b) (tag b) (status b) tick (refCount b) (srcRequestorId b)
        (tickInserted b) (lockList b) (_set b) (_way b)).

Definition insert (now t : Z) (is_secure : bool) (src_requestor_ID task_ID : Z) (b : CacheBlk)
    : res CacheBlk :=
  assertb (status b =? 0);;
  let b := mkBlk task_ID t (status b) (whenReady b) 1 src_requestor_ID now
             (lockList b) (_set b) (_way b) in
  setValid (if is_secure then setSecure b else b).

(** The state letter [print] shows. *)
Inductive moesi := St_M | St_O | St_E | St_S | St_I | St_T.
Definition state_letter (b : CacheBlk) : moesi :=
  match isWritable b, isDirty b, isValid b with
  | true, true, true => St_M
  | false, true, true => St_O
  | true, false, true => St_E
  | false, false, true => St_S
  | false, false, false => St_I
  | _, _, _ => St_T
  end.

(** ** Load locked and store conditional *)
Definition req_high (r : Request) : Z := u64 (req_paddr r + req_size r - 1).
Definition Lock_new (r : Request) : res Lock :=
  c ← contextId r; Ok (mkLock c (req_paddr r) (req_high r)).
Definition matches (l : Lock) (r : Request) : res bool :=
  c ← contextId r;
  Ok ((l_contextId l =? c) && (lowAddr l <=? req_paddr r) && (req_high r <=? highAddr l)).
Definition intersects (l : Lock) (r : Request) : bool :=
  (req_paddr r <=? highAddr l) && (lowAddr l <=? req_high r).

Fixpoint erase_intersecting (r : Request) (ls : list Lock) : list Lock :=
  match ls with
  | [] => []
  | l :: ls => if intersects l r then erase_intersecting r ls else l :: erase_intersecting r ls
  end.
Definition trackLoadLocked (p : Packet) (b : CacheBlk) : res CacheBlk :=
  assertb (isLLSC (cmd p));;
  let ls := erase_intersecting (req p) (lockList b) in
  l ← Lock_new (req p);
  Ok (set_locks (l :: ls) b).

Fixpoint clear_locks (r : Request) (ls : list Lock) : res (list Lock) :=
  match ls with
  | [] => Ok []
  | l :: ls =>
      other ← (if intersects l r then c ← contextId r; Ok (negb (l_contextId l =? c)) else Ok false);
      ls ← clear_locks r ls;
      Ok (if other : bool then ls else l :: ls)
  end.
Definition clearLoadLocks (r : Request) (b : CacheBlk) : res CacheBlk :=
  ls ← clear_locks r (lockList b); Ok (set_locks ls b).

(** The search for a matching lock, which it removes. *)
Fixpoint take_lock (r : Request) (ls : list Lock) : res (bool * list Lock) :=
  match ls with
  | [] => Ok (false, [])
  | l :: ls =>
      m ← matches l r;
      if m : bool then Ok (true, ls)
      else '(success, ls) ← take_lock r ls; Ok (success, l :: ls)
  end.

(** Returns whether the write proceeds, the packet with the extra data of a
    store conditional, and the block. *)
Definition checkWrite (p : Packet) (b : CacheBlk) : res (bool * Packet * CacheBlk) :=
  assertb (isWrite (cmd p));;
  if negb (isLLSC (cmd p)) && bool_decide (length (lockList b) = 0%nat) then Ok (true, p, b)
  else if isLLSC (cmd p) then
    '(success, ls) ← take_lock (req p) (lockList b);
    let p := set_req (setExtraData (if success : bool then 1 else 0) (req p)) p in
    b ← clearLoadLocks (req p) (set_locks ls b);
    Ok (success, p, b)
  else
    b ← clearLoadLocks (req p) b;
    Ok (true, p, b).

(** ** Validity *)
Lemma invalidate_invalid b : isValid (invalidate b) = false.
Proof. done. Qed.

Lemma blk_insert_spec now t sec src task b b' :
  insert now t sec src task b = Ok b' →
  isValid b = false ∧ isValid b' = true ∧ isSecure b' = sec ∧ tag b' = t ∧
  _set b' = _set b ∧ _way b' = _way b ∧ isDirty b' = false ∧ refCount b' = 1.
Proof.
  intros H. unfold insert in H. inv_ok. bool_to_prop.
  unfold setValid in H. inv_ok. unfold isValid. rewrite Has. destruct sec; done.
Qed.

Lemma insert_ok now t sec src task b : status b = 0 →
  ∃ b', insert now t sec src task b = Ok b'.
Proof.
  intros Hs. unfold insert, setValid, isValid. rewrite Hs.
  destruct sec; cbn; rewrite ?Hs; cbn; eauto.
Qed.

(** ** Reservations and the accesses that end them

    The accesses to a block that its reservations see, as the cache issues
    them: a load locked, a store, a store conditional. *)
Definition is_ll (p : Packet) : bool := isRead (cmd p) && isLLSC (cmd p).
Definition access (p : Packet) (b : CacheBlk) : res (bool * CacheBlk) :=
  if is_ll p then b ← trackLoadLocked p b; Ok (true, b)
  else '(ok, _, b) ← checkWrite p b; Ok (ok, b).
Fixpoint accesses (b : CacheBlk) (h : list Packet) : res CacheBlk :=
  match h with [] => Ok b | p :: h => '(_, b) ← access p b; accesses b h end.

(** An access by a hardware context to bytes that do not wrap around. *)
Definition proper (p : Packet) : Prop :=
  (is_ll p = true ∨ isWrite (cmd p) = true) ∧ is_Some (req_contextId (req p)) ∧
  0 ≤ req_paddr (req p) ∧ 1 ≤ req_size (req p) ∧ req_paddr (req p) + req_size (req p) ≤ 2 ^ 64.

Definition ctx (p : Packet) : Z := default 0 (req_contextId (req p)).
Definition lock_of (p : Packet) : Lock := mkLock (ctx p) (req_paddr (req p)) (req_high (req p)).
(** The reservation covers the access; it belongs to the same context. *)
Definition grants (l : Lock) (p : Packet) : bool :=
  (l_contextId l =? ctx p) && (lowAddr l <=? req_paddr (req p)) && (req_high (req p) <=? highAddr l).
(** The accesses after which a reservation no longer holds: a load locked of
    any context to overlapping bytes, a store of another context to
    overlapping bytes, and the store conditional that uses it. *)
Definition ends (p : Packet) (l : Lock) : bool :=
  if is_ll p then intersects l (req p)
  else (intersects l (req p) && negb (l_contextId l =? ctx p)) || (isLLSC (cmd p) && grants l p).
(** Reserved in the course of [h] and not ended since. *)
Definition survives (h : list Packet) (l : Lock) : Prop :=
  ∃ h1 p h2, h = h1 ++ p :: h2 ∧ is_ll p = true ∧ l = lock_of p ∧ ∀ a, a ∈ h2 → ends a l = false.

Lemma survives_snoc h p l :
  survives (h ++ [p]) l ↔ (survives h l ∧ ends p l = false) ∨ (is_ll p = true ∧ l = lock_of p).
Proof.
  split.
  - intros (h1 & q & h2 & Heq & Hq & Hl & Hends). destruct h2 as [|a h2 _] using rev_ind.
    + apply app_inj_tail in Heq as [-> ->]. by right.
    + rewrite app_comm_cons, app_assoc in Heq. apply app_inj_tail in Heq as [-> ->].
      left. split; [|apply Hends; set_solver]. exists h1, q, h2. split; [done|]. split; [done|].
      split; [done|]. intros a' Ha. apply Hends. set_solver.
  - intros [((h1 & q & h2 & -> & Hq & Hl & Hends) & He)|[Hp ->]].
    + exists h1, q, (h2 ++ [p]). split; [by rewrite <-app_assoc|]. split; [done|]. split; [done|].
      intros a [Ha| ->%list_elem_of_singleton]%elem_of_app; auto.
    + exists h, p, []. split; [done|]. split; [done|]. split; [done|]. by intros a ?%elem_of_nil.
Qed.

(** Reservations are disjoint, so at most one covers an access. *)
Record locks_ok (ls : list Lock) : Prop := {
  lo_nodup : NoDup ls;
  lo_order : ∀ l, l ∈ ls → lowAddr l ≤ highAddr l;
  lo_disjoint : ∀ l l', l ∈ ls → l' ∈ ls → l ≠ l' →
    highAddr l < lowAddr l' ∨ highAddr l' < lowAddr l }.

Lemma locks_ok_sub ls ls' : locks_ok ls → NoDup ls' → (∀ l, l ∈ ls' → l ∈ ls) → locks_ok ls'.
Proof. intros [? Ho Hd] Hnd Hsub. split; [done|eauto|eauto]. Qed.

Lemma proper_ctx p : proper p → contextId (req p) = Ok (ctx p).
Proof. intros (_ & [c Hc] & _). unfold contextId, ctx. by rewrite Hc. Qed.

Lemma proper_high p : proper p →
  req_high (req p) = req_paddr (req p) + req_size (req p) - 1 ∧ req_paddr (req p) ≤ req_high (req p).
Proof. intros (_ & _ & ? & ? & ?). unfold req_high. rewrite u64_small; lia. Qed.

Lemma erase_elem r ls l : l ∈ erase_intersecting r ls ↔ l ∈ ls ∧ intersects l r = false.
Proof.
  induction ls as [|x ls IH]; cbn [erase_intersecting]; [set_solver|].
  destruct (intersects x r) eqn:Hx; rewrite ?elem_of_cons, IH; [|naive_solver].
  split; [naive_solver|]. intros [[->|] ?]; [congruence|done].
Qed.

Lemma erase_sublist r ls : erase_intersecting r ls `sublist_of` ls.
Proof.
  induction ls as [|x ls IH]; cbn [erase_intersecting]; [done|].
  destruct (intersects x r); by constructor.
Qed.

Lemma clear_locks_spec p ls : proper p →
  ∃ ls', clear_locks (req p) ls = Ok ls' ∧ ls' `sublist_of` ls ∧
    ∀ l, l ∈ ls' ↔ l ∈ ls ∧ intersects l (req p) && negb (l_contextId l =? ctx p) = false.
Proof.
  intros Hp. induction ls as [|x ls (ls' & Hls & Hsub & Hin)]; cbn [clear_locks].
  - exists []. split; [done|]. split; [done|]. set_solver.
  - rewrite (proper_ctx p Hp), Hls.
    destruct (intersects x (req p)) eqn:Hx; cbn [mbind res_bind].
    + destruct (l_contextId x =? ctx p) eqn:Hc; cbn [negb].
      * exists (x :: ls'). split; [done|]. split; [by constructor|]. intros l.
        rewrite !elem_of_cons, Hin. split; [|naive_solver].
        intros [->|[? ?]]; [rewrite Hx, Hc; naive_solver|naive_solver].
      * exists ls'. split; [done|]. split; [by constructor|]. intros l.
        rewrite elem_of_cons, Hin. split; [naive_solver|].
        intros [[->|] He]; [rewrite Hx, Hc in He; done|done].
    + exists (x :: ls'). split; [done|]. split; [by constructor|]. intros l.
      rewrite !elem_of_cons, Hin. split; [|naive_solver].
      intros [->|[? ?]]; [rewrite Hx; naive_solver|naive_solver].
Qed.

Lemma take_lock_spec p ls : proper p → locks_ok ls →
  ∃ b ls', take_lock (req p) ls = Ok (b, ls') ∧ ls' `sublist_of` ls ∧
    (b = true ↔ ∃ l, l ∈ ls ∧ grants l p = true) ∧
    ∀ l, l ∈ ls' ↔ l ∈ ls ∧ grants l p = false.
Proof.
  intros Hp. pose proof (proper_high p Hp) as [_ Hle].
  induction ls as [|x ls IH]; intros Hok; cbn [take_lock].
  - exists false, []. split; [done|]. split; [done|]. split; [split; [done|set_solver]|set_solver].
  - pose proof (lo_nodup _ Hok) as [Hx Hnd]%NoDup_cons.
    unfold matches. rewrite (proper_ctx p Hp). cbn [mbind res_bind].
    fold (grants x p). destruct (grants x p) eqn:Hg.
    + exists true, ls. split; [done|]. split; [by constructor|]. split.
      { split; [|done]. intros _. exists x. split; [by apply elem_of_cons; left|done]. }
      intros l. split; [|intros [[->|]%elem_of_cons ?]; [congruence|done]].
      intros Hl. split; [by apply elem_of_cons; right|].
      destruct (grants l p) eqn:Hgl; [exfalso|done].
      assert (x ≠ l) as Hne by (by intros ->).
      unfold grants in Hg, Hgl. bool_to_prop.
      destruct (lo_disjoint _ Hok x l); [by apply elem_of_cons; left|by apply elem_of_cons; right|done|lia|lia].
    + destruct IH as (b & ls' & -> & Hsub & Hb & Hin).
      { eapply locks_ok_sub; [exact Hok|done|]. intros. by apply elem_of_cons; right. }
      exists b, (x :: ls'). split; [done|]. split; [by constructor|]. split.
      * rewrite Hb. split; intros (l & Hl & Hgl); exists l; [by split; [apply elem_of_cons; right|]|].
        apply elem_of_cons in Hl as [->|]; [congruence|done].
      * intros l. rewrite !elem_of_cons, Hin. split; [|naive_solver].
        intros [->|[? ?]]; naive_solver.
Qed.

(** What one access does to the reservations. *)
Definition step_locks (p : Packet) (ls ls' : list Lock) : Prop :=
  locks_ok ls' ∧
  ∀ l, l ∈ ls' ↔ (l ∈ ls ∧ ends p l = false) ∨ (is_ll p = true ∧ l = lock_of p).

Lemma track_step p b : proper p → is_ll p = true → locks_ok (lockList b) →
  ∃ b', trackLoadLocked p b = Ok b' ∧ step_locks p (lockList b) (lockList b').
Proof.
  intros Hp Hll Hok. pose proof (proper_high p Hp) as [_ Hle].
  assert (isLLSC (cmd p) = true) as Hc by (by apply andb_true_iff in Hll as [_ ?]).
  unfold trackLoadLocked, Lock_new. rewrite Hc, (proper_ctx p Hp). cbn [assertb mbind res_bind].
  eexists. split; [reflexivity|]. cbn [lockList set_locks]. fold (lock_of p).
  assert (∀ l, l ∈ erase_intersecting (req p) (lockList b) →
    highAddr l < lowAddr (lock_of p) ∨ highAddr (lock_of p) < lowAddr l) as Hdis.
  { intros l [_ Hi]%erase_elem. unfold intersects in Hi. bool_to_prop. cbn. destruct Hi; bool_to_prop; lia. }
  split.
  - split.
    + apply NoDup_cons. split.
      * intros Hin. destruct (Hdis _ Hin); cbn in *; lia.
      * eapply sublist_NoDup; [apply Hok|apply erase_sublist].
    + intros l [->|[Hl _]%erase_elem]%elem_of_cons; [done|by apply Hok].
    + intros l l' [->|Hl]%elem_of_cons [->|Hl']%elem_of_cons Hne; [done| | |].
      * destruct (Hdis l' Hl'); auto.
      * by apply Hdis.
      * apply erase_elem in Hl as [Hl _], Hl' as [Hl' _]. by apply Hok.
  - intros l. rewrite elem_of_cons, erase_elem. unfold ends. rewrite Hll. naive_solver.
Qed.

Lemma proper_setExtraData x p : proper p → proper (set_req (setExtraData x (req p)) p).
Proof. intros Hp. exact Hp. Qed.

Lemma check_step p b : proper p → is_ll p = false → locks_ok (lockList b) →
  ∃ ok p' b', checkWrite p b = Ok (ok, p', b') ∧ step_locks p (lockList b) (lockList b') ∧
    (ok = true ↔ isLLSC (cmd p) = false ∨ ∃ l, l ∈ lockList b ∧ grants l p = true).
Proof.
  intros Hp Hll Hok. assert (isWrite (cmd p) = true) as Hw by (destruct Hp as [[|] _]; [congruence|done]).
  unfold checkWrite, step_locks, ends. rewrite Hw, Hll. cbn [assertb mbind res_bind].
  destruct (isLLSC (cmd p)) eqn:Hc; cbn [negb andb].
  - destruct (take_lock_spec p (lockList b) Hp Hok) as (ok & ls & -> & Hs1 & Hb & Hin1).
    cbn [mbind res_bind]. unfold clearLoadLocks. cbn [lockList set_locks].
    set (p' := set_req _ p).
    destruct (clear_locks_spec p' ls (proper_setExtraData _ p Hp)) as (ls' & -> & Hs2 & Hin2).
    cbn [mbind res_bind]. eexists _, _, _. split; [reflexivity|]. cbn [lockList set_locks].
    change (ctx p') with (ctx p) in Hin2. split; [split|].
    + eapply locks_ok_sub; [exact Hok|eapply sublist_NoDup; [apply Hok|by etrans]|].
      intros l [Hl _]%Hin2. by apply Hin1.
    + intros l. rewrite Hin2, Hin1, orb_false_iff.
      change (intersects l (req p')) with (intersects l (req p)). naive_solver.
    + rewrite Hb. naive_solver.
  - destruct (bool_decide (length (lockList b) = 0%nat)) eqn:Hz; cbn [andb].
    + apply bool_decide_eq_true in Hz. apply nil_length_inv in Hz.
      eexists _, _, _. split; [reflexivity|]. split; [|naive_solver]. split; [done|].
      intros l. rewrite Hz. set_solver.
    + unfold clearLoadLocks.
      destruct (clear_locks_spec p (lockList b) Hp) as (ls' & -> & Hsub & Hin). cbn [mbind res_bind].
      eexists _, _, _. split; [reflexivity|]. cbn [lockList set_locks]. split; [split|naive_solver].
      * eapply locks_ok_sub; [exact Hok|eapply sublist_NoDup; [apply Hok|done]|].
        intros l [Hl _]%Hin. done.
      * intros l. rewrite Hin, orb_false_r. naive_solver.
Qed.

Lemma accesses_snoc b h p : accesses b (h ++ [p]) = b' ← accesses b h; '(_, b'') ← access p b'; Ok b''.
Proof.
  revert b. induction h as [|q h IH]; intros b; cbn [app accesses].
  - cbn [mbind res_bind]. by destruct (access p b) as [[? ?]|].
  - destruct (access q b) as [[? b']|]; cbn [mbind res_bind]; [apply IH|done].
Qed.

(** The reservations of a block are those its history has left. *)
Lemma history_locks b h : lockList b = [] → Forall proper h →
  ∃ b', accesses b h = Ok b' ∧ locks_ok (lockList b') ∧ ∀ l, l ∈ lockList b' ↔ survives h l.
Proof.
  intros Hb. induction h as [|p h IH] using rev_ind; intros Hh.
  - exists b. split; [done|]. rewrite Hb. split; [split; [apply NoDup_nil_2|set_solver..]|].
    intros l. split; [set_solver|]. by intros ([|] & ? & ? & ? & _).
  - apply Forall_app in Hh as [Hh Hp]. apply Forall_cons in Hp as [Hp _]. destruct (IH Hh) as (b1 & H1 & Hok & Hin).
    assert (∃ ok b', access p b1 = Ok (ok, b') ∧ step_locks p (lockList b1) (lockList b'))
      as (ok & b' & Ha & Hok' & Hin').
    { unfold access. destruct (is_ll p) eqn:Hll.
      - destruct (track_step p b1 Hp Hll Hok) as (b' & -> & Hs). eauto.
      - destruct (check_step p b1 Hp Hll Hok) as (ok & p' & b' & -> & Hs & _). eauto. }
    exists b'. rewrite accesses_snoc, H1. cbn [mbind res_bind]. rewrite Ha. split; [done|].
    split; [done|]. intros l. by rewrite Hin', survives_snoc, Hin.
Qed.

(** ** Properties *)

(** C35: over any history of load-locked accesses, stores and store-conditionals to
    a block that had no reservation, each by a hardware context and of at least
    one byte, no access fails, and a further store-conditional succeeds if and
    only if an earlier load-locked access of its context covers its bytes and
    nothing since has ended it: no load-locked access to overlapping bytes by
    anyone, no store of another context to overlapping bytes, and no
    store-conditional that has used it.  Its outcome is what the extra data of the
    request reports. *)
Theorem store_conditional_spec b h p :
  lockList b = [] → Forall proper h → proper p → is_ll p = false → isLLSC (cmd p) = true →
  ∃ b1 ok p' b2, accesses b h = Ok b1 ∧ checkWrite p b1 = Ok (ok, p', b2) ∧
    (ok = true ↔ ∃ l, survives h l ∧ grants l p = true) ∧
    req_extraData (req p') = Some (if ok then 1 else 0).
Proof.
  intros Hb Hh Hp Hll Hsc. destruct (history_locks b h Hb Hh) as (b1 & H1 & Hok & Hin).
  destruct (check_step p b1 Hp Hll Hok) as (ok & p' & b2 & Hc & _ & Hiff).
  exists b1, ok, p', b2. split; [done|]. split; [done|]. split.
  - rewrite Hiff, Hsc. split.
    + intros [|(l & Hl & Hg)]; [done|]. exists l. by rewrite <-Hin.
    + intros (l & Hl & Hg). right. exists l. by rewrite Hin.
  - unfold checkWrite in Hc. rewrite Hsc in Hc. cbn [negb andb] in Hc.
    apply bind_ok in Hc as (_ & _ & Hc). apply bind_ok in Hc as ([s ls] & _ & Hc).
    apply bind_ok in Hc as (b3 & _ & Hc). by injection Hc as <- <- <-.
Qed.

Definition example_access (c : Command) (context a n : Z) : Packet :=
  Packet_new (mkRequest a n 0 (Some context) None [] None) c.

Lemma store_conditional_spec_witness :
  ∃ b1 ok p' b2,
    accesses CacheBlk_new [example_access LoadLockedReq 1 64 8; example_access WriteReq 2 80 8] = Ok b1 ∧
    checkWrite (example_access StoreCondReq 1 64 8) b1 = Ok (ok, p', b2) ∧
    (ok = true ↔ ∃ l, survives [example_access LoadLockedReq 1 64 8; example_access WriteReq 2 80 8] l ∧
       grants l (example_access StoreCondReq 1 64 8) = true) ∧
    req_extraData (req p') = Some (if ok then 1 else 0).
Proof.
  apply (store_conditional_spec CacheBlk_new); [done| | |by vm_compute|by vm_compute].
  - apply Forall_cons. split; [|apply Forall_cons; split; [|apply Forall_nil_2]].
    + split; [by left|]. split; [by eexists|cbn; lia].
    + split; [by right|]. split; [by eexists|cbn; lia].
  - split; [by right|]. split; [by eexists|cbn; lia].
Defined.
End Blk.
