(* ===== verification/CacheTags.v ===== *)
(** * The set associative tag store ([mem/cache/tags/base.cc],
    [mem/cache/tags/base_set_assoc.hh], [mem/cache/tags/base_set_assoc.cc])

    [BaseTags] and [BaseSetAssoc], over any indexing policy and any
    replacement policy that meet their interfaces.  The specification is a
    finite map from block addresses, with their security bit, to the block
    that holds them: every operation refines its counterpart on the map, so
    a block is found exactly where and as long as it was inserted, and no
    address is ever held twice. *)

From S2P Require Import Prelude.
From S2P Require Import Intmath.
From S2P Require Import Packet.
From S2P Require Import BaseIndexing.
From S2P Require Import CacheIndex.
From S2P Require Import RpBase.
From S2P Require Import LruRP.
From S2P Require Import Replacement.
From S2P Require Import CacheBlk.

Module Tags.
Import Idx Rp Blk.

(** ** Data *)
Record config := mkConfig {
  blkSize : Z;
  lookupLatency : Z;
  warmupBound : Z;
  sequentialAccess : bool;
  maxRequestors : Z;
  numBlocks : Z }.

(** The statistics the operations update; [occupancies] by requestor. *)
Record stats := mkStats {
  tagsInUse : Z; tagAccesses : Z; dataAccesses : Z; totalRefs : Z; sampledRefs : Z;
  warmupCycle : Z; occupancies : Z → Z }.

Record tags (I P : Type) := mkTags {
  cfg : config;
  allocAssoc : Z;
  warmedUp : bool;
  st : stats;
  indexing : I;
  replacement : P;
  blks : list CacheBlk;
  dataBlks : list (list Z) }.
Arguments mkTags {I P}.
Arguments cfg {I P}.
Arguments allocAssoc {I P}.
Arguments warmedUp {I P}.
Arguments st {I P}.
Arguments indexing {I P}.
Arguments replacement {I P}.
Arguments blks {I P}.
Arguments dataBlks {I P}.

Definition blkAlign (c : config) (addr : Z) : Z := Z.land addr (not64 (blkSize c - 1)).
Definition extractBlkOffset (c : config) (addr : Z) : Z := Z.land addr (blkSize c - 1).

Section Ops.
Context {I P : Type} `{ixI : Indexing I} `{rpP : ReplacementPolicy P}.

Definition set_blks (bs : list CacheBlk) (t : tags I P) : tags I P :=
  mkTags (cfg t) (allocAssoc t) (warmedUp t) (st t) (indexing t) (replacement t) bs (dataBlks t).
Definition set_repl (p : P) (t : tags I P) : tags I P :=
  mkTags (cfg t) (allocAssoc t) (warmedUp t) (st t) (indexing t) p (blks t) (dataBlks t).
Definition set_stats (s : stats) (t : tags I P) : tags I P :=
  mkTags (cfg t) (allocAssoc t) (warmedUp t) s (indexing t) (replacement t) (blks t) (dataBlks t).
Definition set_dataBlks (d : list (list Z)) (t : tags I P) : tags I P :=
  mkTags (cfg t) (allocAssoc t) (warmedUp t) (st t) (indexing t) (replacement t) (blks t) d.
Definition get_blk (t : tags I P) (e : nat) : res CacheBlk := RpBase.get (blks t) e.
Definition put_blk (e : nat) (b : CacheBlk) (t : tags I P) : tags I P :=
  set_blks (<[e := b]> (blks t)) t.

(** ** Construction *)
(** [BaseTags] and [BaseSetAssoc], the data blocks with what the allocation
    left in them; [warmup] is the product the percentage gives. *)
Definition BaseSetAssoc (size block_size assoc lat warmup maxreq : Z) (seq : bool) (i : I) (p : P)
    (junk : Z → list Z) : res (tags I P) :=
  let n := u32 (size / block_size) in
  if (u32 block_size <? 4) || negb (isPowerOf2 (u32 block_size)) then Err FatalFail else
  Ok (mkTags (mkConfig (u32 block_size) lat warmup seq maxreq n) (u32 assoc) false
        (mkStats 0 0 0 0 0 0 (λ _, 0)) i p
        (replicate (Z.to_nat (size / block_size)) CacheBlk_new)
        (junk <$> seqZ 0 (size / block_size))).

(** The loop of [tagsInit] from block [e] on. *)
Fixpoint tagsInit_loop (n e : nat) (t : tags I P) : res (tags I P) :=
  match n with
  | O => Ok t
  | S n =>
      b ← get_blk t e;
      '(pol, pos) ← setEntry (ix_policy (indexing t)) e (Z.of_nat e);
      p ← rp_instantiateEntry (replacement t);
      tagsInit_loop n (S e)
        (mkTags (cfg t) (allocAssoc t) (warmedUp t) (st t) (ix_with (indexing t) (sets pol)) p
           (<[e := setPosition pos.1 pos.2 b]> (blks t)) (dataBlks t))
  end.
Definition tagsInit (t : tags I P) : res (tags I P) :=
  tagsInit_loop (Z.to_nat (numBlocks (cfg t))) 0 t.

(** ** Lookup *)
Definition findBlockBySetAndWay (t : tags I P) (set way : Z) : res (option nat) :=
  getEntry (ix_policy (indexing t)) (u32 set) (u32 way).

(** The loop of [findBlock]; a null entry would be dereferenced. *)
Fixpoint findBlock_loop (t : tags I P) (tg : Z) (is_secure : bool) (entries : list (option nat))
    : res (option nat) :=
  match entries with
  | [] => Ok None
  | None :: _ => Err Undef
  | Some e :: entries =>
      b ← get_blk t e;
      if (tag b =? tg) && isValid b && Bool.eqb (isSecure b) is_secure then Ok (Some e)
      else findBlock_loop t tg is_secure entries
  end.
Definition findBlock (t : tags I P) (addr : Z) (is_secure : bool) : res (option nat) :=
  let tg := extractTag (ix_policy (indexing t)) addr in
  entries ← ix_possible (indexing t) addr;
  findBlock_loop t tg is_secure entries.

Definition regenerateBlkAddr (t : tags I P) (e : nat) : res Z :=
  b ← get_blk t e; ix_regenerate (indexing t) (tag b) (_set b) (_way b).

(** ** Updates *)
(** Returns the block found and the lookup latency. *)
Definition accessBlock (w : env) (addr : Z) (is_secure : bool) (t : tags I P)
    : res (option nat * Z * tags I P) :=
  blk ← findBlock t addr is_secure;
  let s := st t in
  let d := if sequentialAccess (cfg t) then (if (blk : option nat) then 1 else 0) else allocAssoc t in
  let t := set_stats (mkStats (tagsInUse s) (tagAccesses s + allocAssoc t) (dataAccesses s + d)
                        (totalRefs s) (sampledRefs s) (warmupCycle s) (occupancies s)) t in
  match blk with
  | Some e =>
      b ← get_blk t e;
      let t := put_blk e (set_refCount (u32 (refCount b + 1)) b) t in
      p ← rp_touch w (replacement t) e;
      Ok (Some e, lookupLatency (cfg t), set_repl p t)
  | None => Ok (None, lookupLatency (cfg t), t)
  end.

(** The candidates' pointers are dereferenced by the replacement policy. *)
Fixpoint deref (entries : list (option nat)) : res (list nat) :=
  match entries with
  | [] => Ok []
  | None :: _ => Err Undef
  | Some e :: es => es ← deref es; Ok (e :: es)
  end.
Definition findVictim (w : env) (addr : Z) (t : tags I P) : res (nat * tags I P) :=
  entries ← ix_possible (indexing t) addr;
  cs ← deref entries;
  '(victim, p) ← rp_getVictim w (replacement t) cs;
  Ok (victim, set_repl p t).

(** [BaseTags::insertBlock]. *)
Definition base_insertBlock (w : env) (p : Pkt.Packet) (requestor_id task : Z) (e : nat) (t : tags I P)
    : res (tags I P) :=
  b ← get_blk t e;
  assertb (negb (isValid b));;
  assertb (requestor_id <? maxRequestors (cfg t));;
  let s := st t in
  let occ := λ r, if r =? requestor_id then occupancies s r + 1 else occupancies s r in
  b ← insert (curTick w) (extractTag (ix_policy (indexing t)) (Pkt.addr p)) (Pkt.secure p)
        requestor_id task b;
  let warm := negb (warmedUp t) && (warmupBound (cfg t) <=? tagsInUse s) in
  let s := mkStats (tagsInUse s) (tagAccesses s + 1) (dataAccesses s + 1) (totalRefs s)
             (sampledRefs s) (if warm then curTick w else warmupCycle s) occ in
  Ok (mkTags (cfg t) (allocAssoc t) (warm || warmedUp t) s (indexing t) (replacement t)
        (<[e := b]> (blks t)) (dataBlks t)).
Definition insertBlock (w : env) (p : Pkt.Packet) (requestor_id task : Z) (e : nat) (t : tags I P)
    : res (tags I P) :=
  t ← base_insertBlock w p requestor_id task e t;
  let s := st t in
  let t := set_stats (mkStats (tagsInUse s + 1) (tagAccesses s) (dataAccesses s) (totalRefs s)
                        (sampledRefs s) (warmupCycle s) (occupancies s)) t in
  r ← rp_reset w (replacement t) e;
  Ok (set_repl r t).

(** [BaseTags::invalidate], then the rest of [BaseSetAssoc::invalidate]. *)
Definition invalidateBlk (w : env) (e : nat) (t : tags I P) : res (tags I P) :=
  b ← get_blk t e;
  assertb (isValid b);;
  let s := st t in
  let occ := λ r, if r =? srcRequestorId b then occupancies s r - 1 else occupancies s r in
  let t := put_blk e (invalidate b) t in
  let t := set_stats (mkStats (tagsInUse s - 1) (tagAccesses s) (dataAccesses s)
                        (totalRefs s + refCount b) (sampledRefs s + 1) (warmupCycle s) occ) t in
  r ← rp_invalidate w (replacement t) e;
  Ok (set_repl r t).

Definition setWayAllocationMax (ways : Z) (t : tags I P) : res (tags I P) :=
  fatal_if (ways <? 1);;
  Ok (mkTags (cfg t) ways (warmedUp t) (st t) (indexing t) (replacement t) (blks t) (dataBlks t)).
Definition getWayAllocationMax (t : tags I P) : Z := allocAssoc t.

Definition forEachBlk (visitor : CacheBlk → res CacheBlk) (t : tags I P) : res (tags I P) :=
  bs ← mapM visitor (blks t); Ok (set_blks bs t).
Definition anyBlk (visitor : CacheBlk → bool) (t : tags I P) : bool := existsb visitor (blks t).
End Ops.

(** ** Invariant and abstraction *)
Section Facts.
Context {I P : Type} `{ixI : Indexing I} `{!IndexingOk I} `{rpP : ReplacementPolicy P} `{!PolicyOk P}.
Implicit Types t : tags I P.

Local Notation pol t := (ix_policy (indexing t)).

(** [e] is one of the places of the block of [a]. *)
Definition candidate t (a : Z) (e : nat) : Prop :=
  ∃ es, ix_possible (indexing t) a = Ok (Some <$> es) ∧ e ∈ es.

Record shape t : Prop := {
  sh_ix : ix_ok (indexing t);
  sh_filled : filled (pol t);
  sh_blks : length (blks t) = numEntries (pol t);
  sh_data : length (dataBlks t) = length (blks t);
  sh_repl : rp_ok (replacement t);
  sh_arity : rp_arity (replacement t) (Z.to_nat (assoc (pol t)));
  sh_count : rp_count (replacement t) = length (blks t);
  sh_pos : ∀ e b, blks t !! e = Some b → _set b = posSet (pol t) e ∧ _way b = posWay (pol t) e;
  sh_clear : ∀ e b, blks t !! e = Some b → isValid b = false → status b = 0 }.

(** The map from block addresses to blocks that a tag store stands for. *)
Record holds t (m : gmap (Z * bool) nat) : Prop := {
  ho_sound : ∀ x sec e, m !! (x, sec) = Some e →
    ∃ b a, blks t !! e = Some b ∧ isValid b = true ∧ isSecure b = sec ∧ is_u64 a ∧
      x = blockAddr (pol t) a ∧ tag b = extractTag (pol t) a ∧ candidate t a e;
  ho_complete : ∀ e b, blks t !! e = Some b → isValid b = true →
    ∃ x, m !! (x, isSecure b) = Some e }.

Definition inv t (m : gmap (Z * bool) nat) : Prop := shape t ∧ holds t m.

(** The map without what block [e] holds. *)
Definition without (e : nat) (m : gmap (Z * bool) nat) : gmap (Z * bool) nat :=
  filter (λ kv, kv.2 ≠ e) m.

Lemma without_Some e m k v : without e m !! k = Some v ↔ m !! k = Some v ∧ v ≠ e.
Proof. unfold without. by rewrite map_lookup_filter_Some. Qed.

(** ** The candidates of an address *)
Lemma candidates_of t a : shape t → is_u64 a →
  ∃ es, ix_possible (indexing t) a = Ok (Some <$> es) ∧ NoDup es ∧
    length es = Z.to_nat (assoc (pol t)) ∧ es ≠ [] ∧
    ∀ e, e ∈ es → (e < length (blks t))%nat ∧
      ix_regenerate (indexing t) (extractTag (pol t) a) (posSet (pol t) e) (posWay (pol t) e)
        = Ok (blockAddr (pol t) a).
Proof.
  intros Hsh Ha.
  destruct (ix_possible_spec _ a (sh_ix _ Hsh) (sh_filled _ Hsh) Ha) as (es & Hes & Hnd & Hlen & Hall).
  destruct (ix_ok_wf _ (sh_ix _ Hsh)) as [k Hw]. pose proof (wf_assoc _ _ Hw).
  exists es. rewrite (sh_blks _ Hsh). split; [done|]. split; [done|]. split; [done|]. split; [|done].
  intros ->. cbn in Hlen. lia.
Qed.

Lemma fmap_Some_inj (es es' : list nat) : Some <$> es = Some <$> es' → es = es'.
Proof. apply list_fmap_eq_inj. intros ? ? [= ->]. done. Qed.

(** A place and a tag determine the block address. *)
Lemma candidate_unique t a b e : shape t → is_u64 a → is_u64 b →
  candidate t a e → candidate t b e → extractTag (pol t) a = extractTag (pol t) b →
  blockAddr (pol t) a = blockAddr (pol t) b.
Proof.
  intros Hsh Ha Hb (es & Hes & Hin) (es' & Hes' & Hin') Htag.
  destruct (candidates_of t a Hsh Ha) as (x & Hx & _ & _ & _ & Hax).
  destruct (candidates_of t b Hsh Hb) as (y & Hy & _ & _ & _ & Hby).
  rewrite Hes in Hx. injection Hx as Hx%fmap_Some_inj. subst x.
  rewrite Hes' in Hy. injection Hy as Hy%fmap_Some_inj. subst y.
  destruct (Hax e Hin) as [_ H1]. destruct (Hby e Hin') as [_ H2]. rewrite Htag, H2 in H1.
  by injection H1.
Qed.

(** A block's address is what its entry regenerates. *)
Lemma regenerate_spec t m x sec e : inv t m → m !! (x, sec) = Some e → regenerateBlkAddr t e = Ok x.
Proof.
  intros [Hsh Hh] Hm. destruct (ho_sound _ _ Hh _ _ _ Hm) as (b & a & Hb & _ & _ & Ha & -> & Htag & es & Hes & Hin).
  destruct (candidates_of t a Hsh Ha) as (es' & Hes' & _ & _ & _ & Hall).
  rewrite Hes in Hes'. injection Hes' as <-%fmap_Some_inj. destruct (Hall e Hin) as [_ Hr].
  unfold regenerateBlkAddr, get_blk, RpBase.get. rewrite Hb. cbn [mbind res_bind].
  destruct (sh_pos _ Hsh e b Hb) as [-> ->]. by rewrite Htag.
Qed.

(** Different keys are held by different blocks. *)
Lemma holds_inj t m k1 k2 e : inv t m → m !! k1 = Some e → m !! k2 = Some e → k1 = k2.
Proof.
  intros Hinv H1 H2. destruct k1 as [x1 s1], k2 as [x2 s2].
  pose proof (regenerate_spec t m _ _ _ Hinv H1) as R1.
  pose proof (regenerate_spec t m _ _ _ Hinv H2) as R2.
  destruct (ho_sound _ _ (proj2 Hinv) _ _ _ H1) as (b1 & _ & Hb1 & _ & <- & _).
  destruct (ho_sound _ _ (proj2 Hinv) _ _ _ H2) as (b2 & _ & Hb2 & _ & <- & _).
  congruence.
Qed.

(** ** Lookup *)
Definition hit (b : CacheBlk) (tg : Z) (sec : bool) : bool :=
  (tag b =? tg) && isValid b && Bool.eqb (isSecure b) sec.

Lemma findBlock_loop_spec t tg sec es :
  Forall (λ e, e < length (blks t))%nat es →
  ∃ r, findBlock_loop t tg sec (Some <$> es) = Ok r ∧
    match r with
    | Some e => e ∈ es ∧ ∃ b, blks t !! e = Some b ∧ hit b tg sec = true
    | None => ∀ e b, e ∈ es → blks t !! e = Some b → hit b tg sec = false
    end.
Proof.
  induction es as [|e es IH]; intros Hes; cbn [fmap list_fmap findBlock_loop].
  - exists None. split; [done|]. by intros e b ?%elem_of_nil.
  - apply Forall_cons in Hes as [He Hes]. destruct (get_ok (blks t) e He) as (b & Hg & Hb).
    unfold get_blk. rewrite Hg. cbn [mbind res_bind]. fold (hit b tg sec).
    destruct (hit b tg sec) eqn:Hhit.
    + exists (Some e). split; [done|]. split; [by apply elem_of_cons; left|eauto].
    + destruct (IH Hes) as (r & -> & Hr). exists r. split; [done|]. destruct r as [e'|].
      * destruct Hr as [Hin Hr]. split; [by apply elem_of_cons; right|done].
      * intros e' b' [->|Hin]%elem_of_cons Hb'; [congruence|by eapply Hr].
Qed.

Lemma hit_spec b tg sec : hit b tg sec = true ↔ tag b = tg ∧ isValid b = true ∧ isSecure b = sec.
Proof.
  unfold hit. rewrite !andb_true_iff, Z.eqb_eq, Bool.eqb_true_iff. naive_solver.
Qed.

(** [findBlock] is lookup in the map. *)
Lemma findBlock_spec t m a sec : inv t m → is_u64 a →
  findBlock t a sec = Ok (m !! (blockAddr (pol t) a, sec)).
Proof.
  intros [Hsh Hh] Ha. destruct (candidates_of t a Hsh Ha) as (es & Hes & _ & _ & _ & Hall).
  unfold findBlock. rewrite Hes. cbn [mbind res_bind].
  destruct (findBlock_loop_spec t (extractTag (pol t) a) sec es) as (r & -> & Hr).
  { apply Forall_forall. intros e He. by apply Hall. }
  f_equal. destruct r as [e|].
  - destruct Hr as (Hin & b & Hb & (Htag & Hv & Hs)%hit_spec).
    destruct (ho_complete _ _ Hh e b Hb Hv) as [x Hx]. rewrite Hs in Hx.
    destruct (ho_sound _ _ Hh _ _ _ Hx) as (b' & a' & Hb' & _ & _ & Ha' & -> & Htag' & Hc).
    assert (b' = b) as -> by congruence. rewrite Hx || idtac.
    assert (blockAddr (pol t) a' = blockAddr (pol t) a) as Heq.
    { apply (candidate_unique t a' a e); [done|done|done|done|by exists es|congruence]. }
    by rewrite Heq in Hx.
  - destruct (m !! (blockAddr (pol t) a, sec)) as [e|] eqn:Hm; [exfalso|done].
    destruct (ho_sound _ _ Hh _ _ _ Hm) as (b & a' & Hb & Hv & Hs & Ha' & Heq & Htag & es' & Hes' & Hin).
    destruct (ix_ok_wf _ (sh_ix _ Hsh)) as [k Hw]. unfold is_u64 in *.
    rewrite (ix_possible_block _ a a' (sh_ix _ Hsh)) in Hes by done.
    rewrite Hes in Hes'. injection Hes' as <-%fmap_Some_inj.
    pose proof (Hr e b Hin Hb) as Hn. rewrite (proj2 (hit_spec b _ sec)) in Hn; [done|].
    split; [|done]. rewrite Htag. symmetry. apply (blockAddr_extractTag (pol t) k); [done|lia|lia|done].
Qed.

(** ** Updates *)

Lemma insert_cases {A} (l : list A) e b : (e < length l)%nat → ∀ e1 b1,
  <[e := b]> l !! e1 = Some b1 → (e1 = e ∧ b1 = b) ∨ (e1 ≠ e ∧ l !! e1 = Some b1).
Proof.
  intros He e1 b1 H1. destruct (decide (e1 = e)) as [->|Hne].
  - rewrite list_lookup_insert_eq in H1 by done. left. by injection H1 as ->.
  - rewrite list_lookup_insert_ne in H1 by done. by right.
Qed.

(** Nothing the map depends on changes. *)
Lemma inv_frame t t' m :
  indexing t' = indexing t → blks t' = blks t → length (dataBlks t') = length (dataBlks t) →
  rp_same (replacement t) (replacement t') → rp_count (replacement t') = rp_count (replacement t) →
  inv t m → inv t' m.
Proof.
  intros Hi Hb Hd [Hok Har] Hc [[? ? ? ? ? ? ? ? ?] [Hs Hcm]].
  split; split; unfold candidate in *; rewrite ?Hi, ?Hb, ?Hd, ?Hc in *; auto.
Qed.

(** A block changes without changing place, tag, validity or space. *)
Definition same_tag (b b' : CacheBlk) : Prop :=
  tag b' = tag b ∧ isValid b' = isValid b ∧ isSecure b' = isSecure b ∧
  _set b' = _set b ∧ _way b' = _way b ∧ (isValid b' = false → status b' = 0).

Lemma put_blk_inv t m e b b' :
  inv t m → blks t !! e = Some b → same_tag b b' → inv (put_blk e b' t) m.
Proof.
  intros [[? ? Hbl ? ? ? ? Hpos Hcl] [Hs Hcm]] Hb (Htag & Hv & Hsec & Hse & Hwa & Hcl').
  assert (e < length (blks t))%nat as He by (by eapply lookup_lt_Some).
  pose proof (insert_cases (blks t) e (b') He) as Hcase.
  split; split; unfold candidate; cbn; rewrite ?length_insert; try done.
  - intros e1 b1 [[-> ->]|[_ H1]]%Hcase; [|by apply Hpos].
    rewrite Hse, Hwa. by apply Hpos.
  - intros e1 b1 [[-> ->]|[_ H1]]%Hcase; [done|exact (Hcl e1 b1 H1)].
  - intros x sec e1 H1. destruct (Hs x sec e1 H1) as (b1 & a & Hb1 & ? & ? & ? & ? & ? & ?).
    destruct (decide (e1 = e)) as [->|Hne].
    + assert (b1 = b) as -> by congruence. exists b', a. rewrite list_lookup_insert_eq by done.
      rewrite Hv, Hsec, Htag. done.
    + exists b1, a. rewrite list_lookup_insert_ne by done. done.
  - intros e1 b1 [[-> ->]|[_ H1]]%Hcase Hv1; [|by apply Hcm].
    rewrite Hsec. apply Hcm; [done|congruence].
Qed.

Lemma accessBlock_spec w t m a sec : inv t m → is_u64 a →
  ∃ t', accessBlock w a sec t = Ok (m !! (blockAddr (pol t) a, sec), lookupLatency (cfg t), t') ∧
    inv t' m ∧ cfg t' = cfg t ∧ indexing t' = indexing t ∧ dataBlks t' = dataBlks t ∧
    length (blks t') = length (blks t) ∧
    ∀ e b, blks t !! e = Some b → ∃ n, blks t' !! e = Some (set_refCount n b).
Proof.
  intros Hinv Ha. unfold accessBlock. rewrite (findBlock_spec t m a sec Hinv Ha). cbn [mbind res_bind].
  set (t1 := set_stats _ t).
  assert (inv t1 m) as Hinv1.
  { apply (inv_frame t); try done. split; [apply Hinv|done]. }
  assert (∀ b, set_refCount (refCount b) b = b) as Heta by (by intros []).
  destruct (m !! (blockAddr (pol t) a, sec)) as [e|] eqn:Hm.
  - destruct (ho_sound _ _ (proj2 Hinv) _ _ _ Hm) as (b & _ & Hb & Hv & _).
    unfold get_blk, RpBase.get. change (blks t1) with (blks t). rewrite Hb. cbn [mbind res_bind].
    set (b' := set_refCount (u32 (refCount b + 1)) b).
    assert (e < length (blks t))%nat as He by (by eapply lookup_lt_Some).
    assert (inv (put_blk e b' t1) m) as Hinv2.
    { apply (put_blk_inv t1 m e b); [done|done|]. repeat split. cbn.
      change (isValid b') with (isValid b). congruence. }
    destruct (rp_touch_ok w (replacement (put_blk e b' t1)) e (sh_repl _ (proj1 Hinv2)))
      as (p & -> & Hsame & Hcnt).
    { rewrite (sh_count _ (proj1 Hinv2)). cbn. by rewrite length_insert. }
    cbn [mbind res_bind]. eexists. split; [reflexivity|]. split.
    { by apply (inv_frame (put_blk e b' t1)). }
    cbn. rewrite length_insert. split; [done|]. split; [done|]. split; [done|]. split; [done|].
    intros e1 b1 H1. destruct (decide (e1 = e)) as [->|Hne].
    + rewrite list_lookup_insert_eq by done. assert (b1 = b) as -> by congruence. by eexists.
    + rewrite list_lookup_insert_ne by done. exists (refCount b1). by rewrite Heta.
  - exists t1. split; [done|]. split; [done|]. split; [done|]. split; [done|]. split; [done|].
    split; [done|]. intros e b Hb. exists (refCount b). by rewrite Heta.
Qed.

Lemma deref_Some (es : list nat) : deref (Some <$> es) = Ok es.
Proof. induction es as [|e es IH]; [done|]. cbn [fmap list_fmap deref]. cbn in IH. by rewrite IH. Qed.

Lemma findVictim_spec w t m a : env_ok w → inv t m → is_u64 a →
  ∃ v p, findVictim w a t = Ok (v, set_repl p t) ∧ candidate t a v ∧ (v < length (blks t))%nat ∧
    inv (set_repl p t) m.
Proof.
  intros Hw Hinv Ha. pose proof (proj1 Hinv) as Hsh.
  destruct (candidates_of t a Hsh Ha) as (es & Hes & Hnd & Hlen & Hne & Hall).
  unfold findVictim. rewrite Hes. cbn [mbind res_bind]. rewrite deref_Some. cbn [mbind res_bind].
  destruct (rp_victim_ok w (replacement t) es Hw (sh_repl _ Hsh) Hne) as (v & p & -> & Hin & Hsame & Hc).
  { rewrite Hlen. apply Hsh. }
  { apply Forall_forall. intros e He. rewrite (sh_count _ Hsh). by apply Hall. }
  cbn [mbind res_bind]. exists v, p. split; [done|]. split; [by exists es|].
  split; [by apply Hall|]. by apply (inv_frame t).
Qed.

Lemma invalidateBlk_spec w t m e b : inv t m → blks t !! e = Some b → isValid b = true →
  ∃ t', invalidateBlk w e t = Ok t' ∧ inv t' (without e m) ∧ cfg t' = cfg t ∧
    indexing t' = indexing t ∧ dataBlks t' = dataBlks t ∧
    blks t' = <[e := invalidate b]> (blks t).
Proof.
  intros Hinv Hb Hv. pose proof Hinv as [[? ? Hbl ? Hrp Har Hcount Hpos Hcl] [Hs Hcm]].
  assert (e < length (blks t))%nat as He by (by eapply lookup_lt_Some).
  unfold invalidateBlk, get_blk, RpBase.get. rewrite Hb. cbn [mbind res_bind]. rewrite Hv.
  cbn [assertb mbind res_bind]. set (t1 := set_stats _ _).
  destruct (rp_invalidate_ok w (replacement t1) e Hrp) as (p & -> & [Hok' Har'] & Hc).
  { change (replacement t1) with (replacement t). by rewrite Hcount. }
  cbn [mbind res_bind]. eexists. split; [reflexivity|]. split; [|done].
  change (replacement t1) with (replacement t) in *.
  pose proof (insert_cases (blks t) e (invalidate b) He) as Hcase.
  split; split; unfold candidate; cbn; rewrite ?length_insert; try done.
  - by apply Har'.
  - by rewrite Hc.
  - intros e1 b1 [[-> ->]|[_ H1]]%Hcase; [cbn; by apply Hpos|by apply Hpos].
  - intros e1 b1 [[-> ->]|[_ H1]]%Hcase; [done|exact (Hcl e1 b1 H1)].
  - intros x sec e1 [H1 Hne]%without_Some. destruct (Hs x sec e1 H1) as (b1 & a & Hb1 & Hr).
    exists b1, a. rewrite list_lookup_insert_ne by done. done.
  - intros e1 b1 [[-> ->]|[Hne H1]]%Hcase Hv1; [done|].
    destruct (Hcm e1 b1 H1 Hv1) as [x Hx]. exists x. by apply without_Some.
Qed.

Lemma insertBlock_spec w t m p rid task e b :
  inv t m → is_u64 (Pkt.addr p) → rid < maxRequestors (cfg t) →
  candidate t (Pkt.addr p) e → blks t !! e = Some b → isValid b = false →
  m !! (blockAddr (pol t) (Pkt.addr p), Pkt.secure p) = None →
  ∃ t' b', insertBlock w p rid task e t = Ok t' ∧
    inv t' (<[(blockAddr (pol t) (Pkt.addr p), Pkt.secure p) := e]> m) ∧ cfg t' = cfg t ∧
    indexing t' = indexing t ∧ dataBlks t' = dataBlks t ∧ blks t' = <[e := b']> (blks t) ∧
    insert (curTick w) (extractTag (pol t) (Pkt.addr p)) (Pkt.secure p) rid task b = Ok b'.
Proof.
  intros Hinv Ha Hrid Hcand Hb Hv Hm.
  pose proof Hinv as [[? ? Hbl ? Hrp Har Hcount Hpos Hcl] [Hs Hcm]].
  assert (e < length (blks t))%nat as He by (by eapply lookup_lt_Some).
  destruct (insert_ok (curTick w) (extractTag (pol t) (Pkt.addr p)) (Pkt.secure p) rid task b)
    as [b' Hb']; [by apply (Hcl e)|].
  destruct (blk_insert_spec _ _ _ _ _ _ _ Hb') as (_ & Hv' & Hsec' & Htag' & Hset' & Hway' & _).
  unfold insertBlock, base_insertBlock, get_blk, RpBase.get. rewrite Hb. cbn [mbind res_bind].
  rewrite Hv, (proj2 (Z.ltb_lt _ _)) by done. cbn [assertb negb mbind res_bind]. rewrite Hb'.
  cbn [mbind res_bind]. set (t1 := set_stats _ _).
  destruct (rp_reset_ok w (replacement t1) e Hrp) as (r & -> & [Hok' Har'] & Hc).
  { change (replacement t1) with (replacement t). by rewrite Hcount. }
  cbn [mbind res_bind]. eexists _, b'. split; [reflexivity|]. split; [|done].
  change (replacement t1) with (replacement t) in *.
  pose proof (insert_cases (blks t) e (b') He) as Hcase.
  split; split; unfold candidate; cbn; rewrite ?length_insert; try done.
  - by apply Har'.
  - by rewrite Hc.
  - intros e1 b1 [[-> ->]|[_ H1]]%Hcase; [rewrite Hset', Hway'; by apply Hpos|by apply Hpos].
  - intros e1 b1 [[-> ->]|[_ H1]]%Hcase; [congruence|exact (Hcl e1 b1 H1)].
  - intros x sec e1 [[[= <- <-] <-]|[Hk H1]]%lookup_insert_Some.
    + exists b', (Pkt.addr p). rewrite list_lookup_insert_eq by done. done.
    + destruct (Hs x sec e1 H1) as (b1 & a & Hb1 & Hv1 & Hr). exists b1, a.
      rewrite list_lookup_insert_ne; [done|]. intros <-. congruence.
  - intros e1 b1 [[-> ->]|[Hne H1]]%Hcase Hv1.
    + exists (blockAddr (pol t) (Pkt.addr p)). rewrite Hsec'. apply lookup_insert_eq.
    + destruct (Hcm e1 b1 H1 Hv1) as [x Hx]. exists x. rewrite lookup_insert_ne; [done|].
      intros Heq. injection Heq as <- Hse. rewrite <-Hse in Hx. congruence.
Qed.

(** ** Initialisation *)
(** The first [e] blocks have been linked. *)
Record linked t (e : nat) : Prop := {
  lk_ix : ix_ok (indexing t);
  lk_table : sets (pol t) = table (pol t) e;
  lk_blks : length (blks t) = numEntries (pol t);
  lk_data : length (dataBlks t) = length (blks t);
  lk_repl : rp_ok (replacement t);
  lk_arity : rp_arity (replacement t) (Z.to_nat (assoc (pol t)));
  lk_count : rp_count (replacement t) = e;
  lk_fresh : ∀ i b, blks t !! i = Some b → status b = 0;
  lk_pos : ∀ i b, blks t !! i = Some b → (i < e)%nat →
    _set b = posSet (pol t) i ∧ _way b = posWay (pol t) i }.

Lemma tagsInit_loop_spec n e t : linked t e → (e + n = numEntries (pol t))%nat →
  ∃ t', tagsInit_loop n e t = Ok t' ∧ linked t' (e + n) ∧ cfg t' = cfg t ∧
    dataBlks t' = dataBlks t ∧ ∃ ss, pol t' = with_sets (pol t) ss.
Proof.
  revert e t. induction n as [|n IH]; intros e t Hl Hn; cbn [tagsInit_loop].
  - exists t. rewrite Nat.add_0_r. split; [done|]. split; [done|]. split; [done|]. split; [done|].
    exists (sets (pol t)). by destruct (pol t).
  - destruct Hl as [Hix Htab Hbl Hda Hrp Har Hcnt Hfr Hpos].
    assert (e < length (blks t))%nat as He by lia.
    destruct (get_ok (blks t) e He) as (b & Hg & Hb). unfold get_blk. rewrite Hg. cbn [mbind res_bind].
    destruct (ix_ok_wf _ Hix) as [k Hw].
    rewrite (setEntry_table (pol t) k e) by (done || lia). cbn [mbind res_bind].
    destruct (rp_instantiate_ok (replacement t) Hrp) as (p & -> & [Hok' Har'] & Hc). cbn [mbind res_bind].
    cbn [sets fst snd]. set (t1 := mkTags _ _ _ _ _ _ _ _).
    assert (pol t1 = with_sets (pol t) (table (pol t) (S e))) as Hp1 by (apply ix_with_policy).
    destruct (IH (S e) t1) as (t' & Ht' & Hl' & Hcfg & Hdata & ss & Hss).
    { split; rewrite ?Hp1; try done.
      - by apply ix_with_ok.
      - cbn. by rewrite length_insert.
      - cbn. by rewrite length_insert.
      - by apply Har'.
      - cbn. by rewrite Hc, Hcnt.
      - intros i b1 [[-> ->]|[_ H1]]%(insert_cases _ _ _ He); cbn; [exact (Hfr e b Hb)|exact (Hfr i b1 H1)].
      - intros i b1 [[-> ->]|[Hne H1]]%(insert_cases _ _ _ He) Hi; [done|].
        apply (Hpos i b1 H1). lia. }
    { rewrite Hp1. unfold numEntries in *. cbn. lia. }
    exists t'. split; [done|]. split; [by rewrite <-Nat.add_succ_comm|]. split; [done|]. split; [done|].
    exists ss. by rewrite Hss, Hp1.
Qed.

(** After [tagsInit] the store is well formed and holds nothing. *)
Lemma tagsInit_spec t : linked t 0 → numBlocks (cfg t) = Z.of_nat (numEntries (pol t)) →
  ∃ t', tagsInit t = Ok t' ∧ inv t' ∅ ∧ cfg t' = cfg t ∧ dataBlks t' = dataBlks t ∧
    ∃ ss, pol t' = with_sets (pol t) ss.
Proof.
  intros Hl Hn. unfold tagsInit. rewrite Hn, Nat2Z.id.
  destruct (tagsInit_loop_spec (numEntries (pol t)) 0 t Hl) as (t' & -> & Hl' & Hcfg & Hd & ss & Hss);
    [done|]. exists t'. split; [done|]. split; [|by eauto].
  assert (numEntries (pol t') = numEntries (pol t)) as Hne by (by rewrite Hss).
  destruct Hl' as [Hix Htab Hbl Hda Hrp Har Hcnt Hfr Hpos]. cbn [Nat.add] in *. split; split.
  - done.
  - unfold filled. by rewrite Hne.
  - done.
  - done.
  - done.
  - done.
  - by rewrite Hcnt, Hbl.
  - intros e b Hb. apply (Hpos e b Hb). apply lookup_lt_Some in Hb. lia.
  - intros e b Hb _. exact (Hfr e b Hb).
  - intros x sec e Hm. by rewrite lookup_empty in Hm.
  - intros e b Hb Hv. unfold isValid in Hv. by rewrite (Hfr e b Hb) in Hv.
Qed.
End Facts.

(** ** Properties *)
Section Properties.
Context {I P : Type} `{ixI : Indexing I} `{!IndexingOk I} `{rpP : ReplacementPolicy P} `{!PolicyOk P}.
Implicit Types t : tags I P.

(** A cache built with any of the two indexing policies and any
    replacement policy whose trees or candidate sets match its associativity
    starts, after [tagsInit], as an empty map; a size that is not a whole
    number of sets is what the assertion in [setEntry] catches. *)
Theorem tags_init size block_size assoc_ lat warmup maxreq seq (i : I) (p : P) junk t :
  BaseSetAssoc size block_size assoc_ lat warmup maxreq seq i p junk = Ok t →
  ix_ok i → sets (ix_policy i) = table (ix_policy i) 0 →
  rp_ok p → rp_count p = 0%nat → rp_arity p (Z.to_nat (assoc (ix_policy i))) →
  0 ≤ size / block_size < 2 ^ 32 → size / block_size = Z.of_nat (numEntries (ix_policy i)) →
  ∃ t', tagsInit t = Ok t' ∧ inv t' ∅.
Proof.
  intros Hc Hix Htab Hrp Hcnt Har Hs Hn. unfold BaseSetAssoc in Hc.
  destruct (_ || _); [done|]. injection Hc as <-.
  destruct (tagsInit_spec (mkTags (mkConfig (u32 block_size) lat warmup seq maxreq
      (u32 (size / block_size))) (u32 assoc_) false (mkStats 0 0 0 0 0 0 (λ _, 0)) i p
      (replicate (Z.to_nat (size / block_size)) CacheBlk_new) (junk <$> seqZ 0 (size / block_size))))
    as (t' & Ht' & Hinv & _).
  - split; cbn; try done.
    + rewrite length_replicate. lia.
    + by rewrite length_fmap, length_seqZ, length_replicate.
    + intros e b [-> _]%lookup_replicate. done.
    + lia.
  - cbn. by rewrite u32_small.
  - by exists t'.
Qed.

(** C12: The tag store is a finite map from block addresses to blocks: a
    lookup of any address of a block finds it exactly if the map has it, an
    access changes nothing of the map, the victim for an address is one of
    its places, an invalidation removes what the block held, an insertion of
    an absent block in an invalid place adds it, and the address regenerated
    from a block is its key.  None of the operations' assertions fails. *)
Theorem tags_refine_map t m w :
  inv t m → env_ok w →
  (∀ a sec, is_u64 a → findBlock t a sec = Ok (m !! (blockAddr (ix_policy (indexing t)) a, sec)) ∧
     ∃ lat t', accessBlock w a sec t = Ok (m !! (blockAddr (ix_policy (indexing t)) a, sec), lat, t') ∧
       inv t' m) ∧
  (∀ a, is_u64 a → ∃ v t', findVictim w a t = Ok (v, t') ∧ candidate t a v ∧ inv t' m) ∧
  (∀ e b, blks t !! e = Some b → isValid b = true →
     ∃ t', invalidateBlk w e t = Ok t' ∧ inv t' (without e m)) ∧
  (∀ p rid task e b, is_u64 (Pkt.addr p) → rid < maxRequestors (cfg t) →
     candidate t (Pkt.addr p) e → blks t !! e = Some b → isValid b = false →
     m !! (blockAddr (ix_policy (indexing t)) (Pkt.addr p), Pkt.secure p) = None →
     ∃ t', insertBlock w p rid task e t = Ok t' ∧
       inv t' (<[(blockAddr (ix_policy (indexing t)) (Pkt.addr p), Pkt.secure p) := e]> m)) ∧
  (∀ x sec e, m !! (x, sec) = Some e → regenerateBlkAddr t e = Ok x) ∧
  (∀ k1 k2 e, m !! k1 = Some e → m !! k2 = Some e → k1 = k2).
Proof.
  intros Hinv Hw. split; [|split; [|split; [|split; [|split]]]].
  - intros a sec Ha. split; [by apply findBlock_spec|].
    destruct (accessBlock_spec w t m a sec Hinv Ha) as (t' & Ht' & Hinv' & _). eauto.
  - intros a Ha. destruct (findVictim_spec w t m a Hw Hinv Ha) as (v & p & Hv & Hc & _ & Hi). eauto.
  - intros e b Hb Hv. destruct (invalidateBlk_spec w t m e b Hinv Hb Hv) as (t' & Ht' & Hi & _). eauto.
  - intros p rid task e b Ha Hr Hc Hb Hv Hm.
    destruct (insertBlock_spec w t m p rid task e b Hinv Ha Hr Hc Hb Hv Hm) as (t' & _ & Ht' & Hi & _).
    eauto.
  - intros x sec e Hm. by eapply regenerate_spec.
  - intros k1 k2 e. by apply (holds_inj t m).
Qed.
End Properties.

(** A cache of four sets of two ways with 64-byte blocks. *)
Definition example_sa : sa :=
  mkSa (match BaseIndexingPolicy (mkParams 512 64 2) with Ok p => p | Err _ => mkPolicy 0 0 0 0 0 [] end).
Definition example_tags : tags sa (list LRU.data) :=
  mkTags (mkConfig 64 2 0 false 16 8) 2 false (mkStats 0 0 0 0 0 0 (λ _, 0)) example_sa []
    (replicate 8 CacheBlk_new) ((λ _, replicate 64 0) <$> seqZ 0 8).

Lemma example_sa_ok : ix_ok example_sa ∧ sets (sa_policy example_sa) = table (sa_policy example_sa) 0.
Proof.
  destruct (BaseIndexingPolicy_wf (mkParams 512 64 2) (sa_policy example_sa)) as (k & Hw & Ht & _);
    [by vm_compute|by vm_compute|].
  split; [|done]. exists k. split; [done|]. by vm_compute.
Qed.

Lemma example_linked : linked example_tags 0.
Proof.
  split.
  - apply example_sa_ok.
  - apply example_sa_ok.
  - by vm_compute.
  - by vm_compute.
  - done.
  - done.
  - done.
  - intros e b [-> _]%lookup_replicate. done.
  - lia.
Qed.

Lemma tags_init_witness : ∃ t', tagsInit example_tags = Ok t' ∧ inv t' ∅.
Proof.
  apply (tags_init 512 64 2 2 0 16 false example_sa [] (λ _, replicate 64 0)).
  - by vm_compute.
  - apply example_sa_ok.
  - apply example_sa_ok.
  - done.
  - done.
  - done.
  - split; by vm_compute.
  - by vm_compute.
Defined.

Lemma tags_refine_map_witness :
  ∃ t, tagsInit example_tags = Ok t ∧ findBlock t 0x1234 false = Ok None.
Proof.
  destruct (tagsInit_spec example_tags example_linked ltac:(by vm_compute)) as (t & Ht & Hinv & _).
  exists t. split; [exact Ht|].
  destruct (tags_refine_map t ∅ (Rp.example_env 5)) as [Hfind _];
    [exact Hinv|intros lo hi ?; cbn; lia|].
  destruct (Hfind 0x1234 false) as [Hf _]; [split; by vm_compute|exact Hf].
Defined.
End Tags.
