(* ===== verification/NoncoherentCache.v ===== *)
(** * The non-coherent cache in atomic mode ([mem/cache/noncoherent_cache.cc],
      [mem/cache/base.cc])

    [BaseCache] with the overrides of [NoncoherentCache], over the set
    associative tags, without a compressor and with the queues of the timing
    mode empty, as [recvAtomic] expects them: no search of the miss queue or
    of the write buffer finds an entry.  What is behind the memory-side port
    is any [MemSide]; a non-coherent cache is one itself, so caches can be
    stacked.  Statistics are left out, their assertions are kept. *)

From S2P Require Import Prelude.
From S2P Require Import Clocked.
From S2P Require Import MemCmd.
From S2P Require Import Packet.
From S2P Require Import AbstractMem.
From S2P Require Import SnoopFilter.
From S2P Require Import RpBase.
From S2P Require Import CacheIndex.
From S2P Require Import CacheBlk.
From S2P Require Import CacheTags.

Module NC.
Import MemCmd Pkt RpBase Idx Blk Clk.

(** ** Packets as the cache sees them *)

(** A packet with its delays, and the fields of its request that the packet
    model leaves out. *)
Record CPkt := mkCPkt {
  pkt : Packet;
  requestorId : Z;
  taskId : Z;
  headerDelay : Z;
  payloadDelay : Z }.
Definition with_pkt (p : Packet) (q : CPkt) : CPkt :=
  mkCPkt p (requestorId q) (taskId q) (headerDelay q) (payloadDelay q).

Definition WRITE_THROUGH : Z := 0x10.
Definition SATISFIED : Z := 0x20.
Definition DST_BITS : Z := 0x3000000000.
Definition wbRequestorId : Z := 0.
Definition funcRequestorId : Z := 1.

Definition writeThrough (p : Packet) : bool := isSet (flags p) WRITE_THROUGH.
Definition setWriteThrough (p : Packet) : res Packet :=
  assertb (isWrite (cmd p) && (isEviction (cmd p) || bool_decide (cmd p = WriteClean)));;
  Ok (set_flags (Z.lor (flags p) WRITE_THROUGH) p).
Definition setSatisfied (p : Packet) : res Packet :=
  assertb (isClean (cmd p));;
  assertb (negb (isSet (flags p) SATISFIED));;
  Ok (set_flags (Z.lor (flags p) SATISFIED) p).
Definition setHasSharers (p : Packet) : Packet := set_flags (Z.lor (flags p) HAS_SHARERS) p.
Definition hasRespData (p : Packet) : bool := hasData (responseCommand (cmd p)).
Definition copyError (p from : Packet) : res Packet :=
  assertb (isError (cmd from));; Ok (set_cmd (cmd from) p).
(** The constructor that widens a request to its block. *)
Definition Packet_blk (r : Request) (c : Command) (blkSize : Z) : Packet :=
  mkPacket c r None (Z.land (req_paddr r) (not64 (blkSize - 1))) (isSet (req_flags r) SECURE) blkSize [] 0.

(** The bytes of the packet in the data of its block, and back. *)
Definition block_bytes (p : Packet) (blkSize : Z) (blk_data : list Z) : list Z :=
  take (Z.to_nat (size p)) (drop (Z.to_nat (getOffset p blkSize)) blk_data).
Definition setDataFromBlock (blk_data : list Z) (blkSize : Z) (p : Packet) : res Packet :=
  setData (block_bytes p blkSize blk_data) p.
Definition writeDataToBlock (p : Packet) (blk_data : list Z) (blkSize : Z) : res (list Z) :=
  bytes ← writeData p (block_bytes p blkSize blk_data);
  Ok (splice blk_data (Z.to_nat (getOffset p blkSize)) bytes).

(** ** What is behind the memory-side port *)
Class MemSide (M : Type) := {
  ms_sendAtomic : env → CPkt → M → res (Z * CPkt * M);
  ms_sendFunctional : CPkt → M → res (CPkt * M) }.

(** ** State *)
Inductive Clusivity := mostly_incl | mostly_excl.
#[export] Instance Clusivity_eq_dec : EqDecision Clusivity.
Proof. solve_decision. Defined.

Record config := mkConfig {
  blkSize : Z;
  lookupLatency : Z;
  dataLatency : Z;
  fillLatency : Z;
  sequentialAccess : bool;
  clusivity : Clusivity;
  isReadOnly : bool;
  writebackClean : bool;
  clockPeriod : Z;
  maxRequestors : Z }.

Record cache (I P M : Type) := mkCache {
  conf : config;
  clock : Clocked;
  tags : Tags.tags I P;
  (** The temporary block, its address and its storage. *)
  tempBlock : CacheBlk;
  temp_addr : Z;
  temp_data : list Z;
  tempBlockWriteback : option CPkt;
  (** Whether [writebackTempBlockAtomicEvent] is scheduled. *)
  wb_event : bool;
  missCount : Z;
  below : M }.
Arguments mkCache {I P M}.
Arguments conf {I P M}.
Arguments clock {I P M}.
Arguments tags {I P M}.
Arguments tempBlock {I P M}.
Arguments temp_addr {I P M}.
Arguments temp_data {I P M}.
Arguments tempBlockWriteback {I P M}.
Arguments wb_event {I P M}.
Arguments missCount {I P M}.
Arguments below {I P M}.

(** A pointer to a block: one of the tags, or the temporary one. *)
Inductive blkref := InTags (e : nat) | Temp.
#[export] Instance blkref_eq_dec : EqDecision blkref.
Proof. solve_decision. Defined.

Section Ops.
Context {I P M : Type} `{ixI : Indexing I} `{rpP : ReplacementPolicy P} `{msM : MemSide M}.
Implicit Types c : cache I P M.

Definition set_tags (t : Tags.tags I P) c : cache I P M :=
  mkCache (conf c) (clock c) t (tempBlock c) (temp_addr c) (temp_data c) (tempBlockWriteback c)
    (wb_event c) (missCount c) (below c).
Definition set_temp (b : CacheBlk) (a : Z) (d : list Z) c : cache I P M :=
  mkCache (conf c) (clock c) (tags c) b a d (tempBlockWriteback c) (wb_event c) (missCount c) (below c).
Definition set_pending (o : option CPkt) (ev : bool) c : cache I P M :=
  mkCache (conf c) (clock c) (tags c) (tempBlock c) (temp_addr c) (temp_data c) o ev (missCount c) (below c).
Definition set_clock (k : Clocked) c : cache I P M :=
  mkCache (conf c) k (tags c) (tempBlock c) (temp_addr c) (temp_data c) (tempBlockWriteback c)
    (wb_event c) (missCount c) (below c).
Definition set_missCount (n : Z) c : cache I P M :=
  mkCache (conf c) (clock c) (tags c) (tempBlock c) (temp_addr c) (temp_data c) (tempBlockWriteback c)
    (wb_event c) n (below c).
Definition set_below (m : M) c : cache I P M :=
  mkCache (conf c) (clock c) (tags c) (tempBlock c) (temp_addr c) (temp_data c) (tempBlockWriteback c)
    (wb_event c) (missCount c) m.

(** Through a pointer to a block. *)
Definition blk_at (r : blkref) c : res CacheBlk :=
  match r with InTags e => Tags.get_blk (tags c) e | Temp => Ok (tempBlock c) end.
Definition put_blk (r : blkref) (b : CacheBlk) c : cache I P M :=
  match r with
  | InTags e => set_tags (Tags.put_blk e b (tags c)) c
  | Temp => set_temp b (temp_addr c) (temp_data c) c
  end.
Definition data_at (r : blkref) c : res (list Z) :=
  match r with InTags e => RpBase.get (Tags.dataBlks (tags c)) e | Temp => Ok (temp_data c) end.
Definition put_data (r : blkref) (d : list Z) c : cache I P M :=
  match r with
  | InTags e => set_tags (Tags.set_dataBlks (<[e := d]> (Tags.dataBlks (tags c))) (tags c)) c
  | Temp => set_temp (tempBlock c) (temp_addr c) d c
  end.
Definition or_status (r : blkref) (bits : Z) c : res (cache I P M) :=
  b ← blk_at r c; Ok (put_blk r (set_status (Z.lor (status b) bits) b) c).
Definition and_not_status (r : blkref) (bits : Z) c : res (cache I P M) :=
  b ← blk_at r c; Ok (put_blk r (set_status (Z.land (status b) (Z.lnot bits)) b) c).

(** [TempCacheBlk]. *)
Definition temp_insert (a : Z) (is_secure : bool) c : res (cache I P M) :=
  let b := tempBlock c in
  assertb (status b =? 0);;
  b ← setValid (if is_secure then setSecure b else b);
  Ok (set_temp b a (temp_data c) c).
Definition temp_invalidate c : cache I P M :=
  set_temp (invalidate (tempBlock c)) MaxAddr (temp_data c) c.

Definition regenerateBlkAddr (r : blkref) c : res Z :=
  match r with InTags e => Tags.regenerateBlkAddr (tags c) e | Temp => Ok (temp_addr c) end.
Definition allocOnFill (k : Command) c : bool :=
  bool_decide (clusivity (conf c) = mostly_incl) || bool_decide (k = WriteLineReq) ||
  bool_decide (k = ReadReq) || bool_decide (k = WriteReq) || isPrefetch k || isLLSC k.
Definition incHitCount (q : CPkt) c : res unit := assertb (requestorId q <? maxRequestors (conf c)).
Definition incMissCount (q : CPkt) c : res (cache I P M) :=
  assertb (requestorId q <? maxRequestors (conf c));;
  Ok (if missCount c =? 0 then c else set_missCount (missCount c - 1) c).

(** ** Ports *)
Definition sendAtomic (w : env) (q : CPkt) c : res (Z * CPkt * cache I P M) :=
  '(lat, q, m) ← ms_sendAtomic w q (below c); Ok (lat, q, set_below m c).
Definition sendFunctional (q : CPkt) c : res (CPkt * cache I P M) :=
  '(q, m) ← ms_sendFunctional q (below c); Ok (q, set_below m c).

(** [doWritebacksAtomic]. *)
Fixpoint doWritebacksAtomic (w : env) (writebacks : list CPkt) c : res (cache I P M) :=
  match writebacks with
  | [] => Ok c
  | wb :: writebacks => '(_, _, c) ← sendAtomic w wb c; doWritebacksAtomic w writebacks c
  end.

(** ** Latencies *)
Definition calculateTagOnlyLatency (delay lookup_lat : Z) c : Z :=
  ticksToCycles (clockPeriod (conf c)) delay + lookup_lat.
Definition calculateAccessLatency (w : env) (r : option blkref) (delay lookup_lat : Z) c : res Z :=
  match r with
  | Some r =>
      b ← blk_at r c;
      let cyc := ticksToCycles (clockPeriod (conf c)) in
      let lat := if sequentialAccess (conf c) then cyc delay + lookup_lat + dataLatency (conf c)
                 else cyc delay + Z.max lookup_lat (dataLatency (conf c)) in
      let tick := curTick w + delay in
      when_ready ← getWhenReady b;
      Ok (if (tick <? when_ready) && (lat <? cyc (when_ready - tick)) then lat + cyc (when_ready - tick)
          else lat)
  | None => Ok (calculateTagOnlyLatency delay lookup_lat c)
  end.

(** [blk->setWhenReady(clockEdge(fillLatency) + delay)]. *)
Definition set_ready (w : env) (r : blkref) (delay : Z) c : res (cache I P M) :=
  let '(edge, k) := clockEdge (clockPeriod (conf c)) (curTick w) (fillLatency (conf c)) (clock c) in
  let c := set_clock k c in
  b ← blk_at r c;
  b ← setWhenReady (edge + delay) b;
  Ok (put_blk r b c).

(** ** Eviction *)
Definition invalidateBlock (w : env) (r : blkref) c : res (cache I P M) :=
  match r with
  | InTags e => t ← Tags.invalidateBlk w e (tags c); Ok (set_tags t c)
  | Temp => Ok (temp_invalidate c)
  end.

(** The request of a write-back; new data is overwritten at once. *)
Definition wb_request (a : Z) (b : CacheBlk) c : Request :=
  mkRequest a (blkSize (conf c)) (if isSecure b then SECURE else 0) None None [] None.

(** What [writebackBlk] and [writecleanBlk] do with the block: it is no
    longer writable or dirty, the packet says whether it was not writable,
    and carries the data. *)
Definition hand_over (r : blkref) (b : CacheBlk) (p : Packet) c : res (Packet * cache I P M) :=
  let p := if isWritable b then p else setHasSharers p in
  c ← (if isWritable b then and_not_status r BlkWritable c else Ok c);
  c ← and_not_status r BlkDirty c;
  p ← allocate [] p;
  d ← data_at r c;
  p ← setDataFromBlock d (blkSize (conf c)) p;
  Ok (p, c).

Definition writebackBlk (r : blkref) c : res (CPkt * cache I P M) :=
  b ← blk_at r c;
  assertb (negb (isReadOnly (conf c)) || writebackClean (conf c));;
  assertb (isValid b && (isDirty b || writebackClean (conf c)));;
  a ← regenerateBlkAddr r c;
  let p := Packet_new (wb_request a b c) (if isDirty b then WritebackDirty else WritebackClean) in
  '(p, c) ← hand_over r b p c;
  Ok (mkCPkt p wbRequestorId (task_id b) 0 0, c).

Definition writecleanBlk (r : blkref) (dest : Z) c : res (CPkt * cache I P M) :=
  b ← blk_at r c;
  a ← regenerateBlkAddr r c;
  let rq := wb_request a b c in
  let p := Packet_blk rq WriteClean (blkSize (conf c)) in
  p ← (if dest =? 0 then Ok p
       else setWriteThrough (set_req (mkRequest a (blkSize (conf c)) (Z.lor (req_flags rq) dest)
                                        None None [] None) p));
  '(p, c) ← hand_over r b p c;
  Ok (mkCPkt p wbRequestorId (task_id b) 0 0, c).

(** [NoncoherentCache::evictBlock]. *)
Definition evictBlock (w : env) (r : blkref) c : res (option CPkt * cache I P M) :=
  b ← blk_at r c;
  '(o, c) ← (if isDirty b || writebackClean (conf c)
             then '(q, c) ← writebackBlk r c; Ok (Some q, c) else Ok (None, c));
  c ← invalidateBlock w r c;
  Ok (o, c).

(** [handleEvictions] for the one block [findVictim] hands out, and
    [allocateBlock]: there is no entry in the miss queue to stop them. *)
Definition handleEvictions (w : env) (e : nat) c : res (list CPkt * cache I P M) :=
  b ← blk_at (InTags e) c;
  if isValid b then '(o, c) ← evictBlock w (InTags e) c; Ok (option_list o, c) else Ok ([], c).
Definition allocateBlock (w : env) (q : CPkt) c : res (nat * list CPkt * cache I P M) :=
  '(victim, t) ← Tags.findVictim w (addr (pkt q)) (tags c);
  let c := set_tags t c in
  '(writebacks, c) ← handleEvictions w victim c;
  t ← Tags.insertBlock w (pkt q) (requestorId q) (taskId q) victim (tags c);
  Ok (victim, writebacks, set_tags t c).

(** ** Satisfying a request *)

(** [cmpAndSwap], on the data of the block. *)
Definition cmpAndSwap (p : Packet) (b : CacheBlk) (blk_data : list Z) (blkSize : Z)
    : res (Packet * CacheBlk * list Z) :=
  assertb (isRequest (cmd p));;
  assertb (size p <=? 8);;
  let old := block_bytes p blkSize blk_data in
  overwrite_val ← writeData p (replicate (Z.to_nat (size p)) 0);
  p ← setData old p;
  overwrite_mem ← (if req_isCondSwap (req p) then AbsMem.cond_matches p old else Ok true);
  if overwrite_mem : bool then
    Ok (p, set_status (Z.lor (status b) BlkDirty) b,
        splice blk_data (Z.to_nat (getOffset p blkSize)) overwrite_val)
  else Ok (p, b, blk_data).

(** The branches of [BaseCache::satisfyRequest] that only touch the packet
    and the block. *)
Definition satisfy_on (p : Packet) (b : CacheBlk) (blk_data : list Z) (blkSize : Z)
    : res (Packet * CacheBlk * list Z) :=
  if bool_decide (cmd p = SwapReq) then
    if isAtomicOp p then
      let old := block_bytes p blkSize blk_data in
      p ← setData old p;
      f ← AbsMem.getAtomicOp p;
      Ok (p, set_status (Z.lor (status b) BlkDirty) b,
          splice blk_data (Z.to_nat (getOffset p blkSize)) (f old))
    else cmpAndSwap p b blk_data blkSize
  else if isWrite (cmd p) then
    assertb (isWritable b);;
    '(ok, p, b) ← checkWrite p b;
    d ← (if ok : bool then writeDataToBlock p blk_data blkSize else Ok blk_data);
    Ok (p, set_status (Z.lor (status b) BlkDirty) b, d)
  else if isRead (cmd p) then
    b ← (if isLLSC (cmd p) then trackLoadLocked p b else Ok b);
    assertb (hasRespData p);;
    p ← setDataFromBlock blk_data blkSize p;
    Ok (p, b, blk_data)
  else if isUpgrade (cmd p) then
    assertb (negb (SF.hasSharers p));;
    if isDirty b then
      p ← setCacheResponding p;
      Ok (p, set_status (Z.land (status b) (Z.lnot BlkDirty)) b, blk_data)
    else Ok (p, b, blk_data)
  else Ok (p, set_status (Z.land (status b) (Z.lnot BlkDirty)) b, blk_data).

(** [BaseCache::satisfyRequest]; a null block fails its assertion. *)
Definition base_satisfyRequest (w : env) (q : CPkt) (o : option blkref) c : res (CPkt * cache I P M) :=
  let p := pkt q in
  assertb (isRequest (cmd p));;
  match o with
  | None => Err AssertFail
  | Some r =>
      b ← blk_at r c;
      assertb (isValid b);;
      assertb (getOffset p (blkSize (conf c)) + size p <=? blkSize (conf c));;
      if isRead (cmd p) || isWrite (cmd p) || isUpgrade (cmd p) || isClean (cmd p) then
        d ← data_at r c;
        '(p, b, d) ← satisfy_on p b d (blkSize (conf c));
        Ok (with_pkt p q, put_data r d (put_blk r b c))
      else
        assertb (isInvalidate (cmd p));;
        c ← invalidateBlock w r c;
        Ok (q, c)
  end.
(** [NoncoherentCache::satisfyRequest]. *)
Definition satisfyRequest (w : env) (q : CPkt) (o : option blkref) c : res (CPkt * cache I P M) :=
  assertb (isRead (cmd (pkt q)) || isWrite (cmd (pkt q)));;
  base_satisfyRequest w q o c.

Definition maintainClusivity (w : env) (from_cache : bool) (o : option blkref) c : res (cache I P M) :=
  match o with
  | Some r =>
      if from_cache then
        b ← blk_at r c;
        if isValid b && negb (isDirty b) && bool_decide (clusivity (conf c) = mostly_excl)
        then invalidateBlock w r c else Ok c
      else Ok c
  | None => Ok c
  end.

(** ** Access *)

(** The part the write-backs and [WriteClean] share: the data goes into the
    block, which becomes ready when the payload has arrived. *)
Definition receive_line (w : env) (q : CPkt) (e : nat) (tag_latency : Z) c : res (cache I P M) :=
  assertb (negb (needsResponse (cmd (pkt q))));;
  d ← data_at (InTags e) c;
  d ← writeDataToBlock (pkt q) d (blkSize (conf c));
  let c := put_data (InTags e) d c in
  incHitCount q c;;
  set_ready w (InTags e)
    (headerDelay q + Z.max (cyclesToTicks (clockPeriod (conf c)) tag_latency) (payloadDelay q)) c.

(** The block of a line that arrives: the one found, or a new one. *)
Definition line_block (w : env) (q : CPkt) (o : option nat) c : res (nat * list CPkt * cache I P M) :=
  match o with
  | Some e => Ok (e, [], c)
  | None =>
      '(e, writebacks, c) ← allocateBlock w q c;
      c ← or_status (InTags e) BlkReadable c;
      Ok (e, writebacks, c)
  end.

(** The bits a write-back sets: it may bring dirty data, and the right to
    write. *)
Definition writeback_status (p : Packet) (e : nat) c : res (cache I P M) :=
  c ← (if bool_decide (cmd p = WritebackDirty) then or_status (InTags e) BlkDirty c else Ok c);
  if SF.hasSharers p then Ok c else or_status (InTags e) BlkWritable c.

(** [BaseCache::access]: whether the request is satisfied, the block, the
    latency and the packets to write back. *)
Definition base_access (w : env) (q : CPkt) (lat : Z) c
    : res (bool * option nat * Z * list CPkt * CPkt * cache I P M) :=
  let p := pkt q in
  assertb (isRequest (cmd p));;
  assertb (negb (isReadOnly (conf c) && isWrite (cmd p)));;
  '(o, tag_latency, t) ← Tags.accessBlock w (addr p) (secure p) (tags c);
  let c := set_tags t c in
  let tag_only := calculateTagOnlyLatency (headerDelay q) tag_latency c in
  if SF.req_isCacheMaintenance (req p) then Ok (false, o, tag_only, [], q, c)
  else
    let lat := if isWrite (cmd p) then tag_only else lat in
    if isWriteback (cmd p) then
      assertb (blkSize (conf c) =? size p);;
      '(e, writebacks, c) ← line_block w q o c;
      c ← writeback_status p e c;
      c ← receive_line w q e tag_latency c;
      Ok (true, Some e, lat, writebacks, q, c)
    else if bool_decide (cmd p = CleanEvict) then
      Ok (match o with Some _ => true | None => false end, o, tag_only, [], q, c)
    else if bool_decide (cmd p = WriteClean) then
      assertb (blkSize (conf c) =? size p);;
      if match o with None => writeThrough p | Some _ => false end then Ok (false, None, lat, [], q, c)
      else
        '(e, writebacks, c) ← line_block w q o c;
        c ← (if writeThrough p then Ok c else or_status (InTags e) BlkDirty c);
        c ← receive_line w q e tag_latency c;
        Ok (negb (writeThrough p), Some e, lat, writebacks, q, c)
    else
      ok ← (match o with
            | Some e => b ← blk_at (InTags e) c; Ok (if needsWritable (cmd p) then isWritable b else isReadable b)
            | None => Ok false
            end);
      if ok : bool then
        incHitCount q c;;
        lat ← (if isRead (cmd p)
               then calculateAccessLatency w (InTags <$> o) (headerDelay q) tag_latency c
               else Ok tag_only);
        '(q, c) ← satisfyRequest w q (InTags <$> o) c;
        c ← maintainClusivity w (fromCache (cmd p)) (InTags <$> o) c;
        Ok (true, o, lat, [], q, c)
      else
        c ← incMissCount q c;
        lat ← calculateAccessLatency w (InTags <$> o) (headerDelay q) tag_latency c;
        if match o with None => isLLSC (cmd p) && isWrite (cmd p) | Some _ => false end then
          Ok (true, o, lat, [], with_pkt (set_req (setExtraData 0 (req p)) p) q, c)
        else Ok (false, o, lat, [], q, c).

(** [NoncoherentCache::access]. *)
Definition access (w : env) (q : CPkt) (lat : Z) c
    : res (bool * option nat * Z * list CPkt * CPkt * cache I P M) :=
  '(success, o, lat, writebacks, q', c) ← base_access w q lat c;
  if isWriteback (cmd (pkt q)) || bool_decide (cmd (pkt q) = WriteClean) then
    match o with
    | None => Err AssertFail
    | Some e =>
        b ← blk_at (InTags e) c;
        assertb (isValid b);;
        c ← or_status (InTags e) BlkWritable c;
        Ok (success, o, lat, writebacks, q', c)
    end
  else Ok (success, o, lat, writebacks, q', c).

(** ** Fill *)

(** [handleFill]: the block to fill, new or temporary when there is none... *)
Definition fill_target (w : env) (q : CPkt) (o : option blkref) (alloc : bool) c
    : res (blkref * list CPkt * cache I P M) :=
  let p := pkt q in
  match o with
  | Some r => Ok (r, [], c)
  | None =>
      assertb (hasData (cmd p) || bool_decide (cmd p = InvalidateResp));;
      if alloc then '(e, writebacks, c) ← allocateBlock w q c; Ok (InTags e, writebacks, c)
      else c ← temp_insert (addr p) (secure p) c; Ok (Temp, [], c)
  end.
(** ... and the fill itself. *)
Definition fill_block (w : env) (q : CPkt) (r : blkref) c : res (cache I P M) :=
  let p := pkt q in
  b ← blk_at r c;
  assertb (isValid b);;
  assertb (Bool.eqb (isSecure b) (secure p));;
  a ← regenerateBlkAddr r c;
  assertb (a =? addr p);;
  c ← or_status r BlkReadable c;
  assertb (negb (bool_decide (cmd p = InvalidateResp)) || negb (SF.hasSharers p));;
  c ← (if SF.hasSharers p then Ok c
       else
         c ← or_status r BlkWritable c;
         if cacheResponding p then
           c ← or_status r BlkDirty c; assertb (negb (isReadOnly (conf c)));; Ok c
         else Ok c);
  c ← (if isRead (cmd p) then
         assertb (hasData (cmd p));;
         assertb (size p =? blkSize (conf c));;
         d ← data_at r c;
         d ← writeDataToBlock p d (blkSize (conf c));
         Ok (put_data r d c)
       else Ok c);
  set_ready w r (headerDelay q + payloadDelay q) c.
Definition handleFill (w : env) (q : CPkt) (o : option blkref) (alloc : bool) c
    : res (blkref * list CPkt * cache I P M) :=
  let p := pkt q in
  assertb (isResponse (cmd p));;
  assertb (addr p =? getBlockAddr p (blkSize (conf c)));;
  '(r, writebacks, c) ← fill_target w q o alloc c;
  c ← fill_block w q r c;
  Ok (r, writebacks, c).

(** [NoncoherentCache::createMissPacket]. *)
Definition createMissPacket (cpu_pkt : CPkt) (o : option blkref) c : res CPkt :=
  assertb (needsResponse (cmd (pkt cpu_pkt)));;
  valid ← (match o with Some r => b ← blk_at r c; Ok (isValid b) | None => Ok false end);
  assertb (negb valid);;
  let p := Packet_blk (req (pkt cpu_pkt)) ReadReq (blkSize (conf c)) in
  assertb (addr p =? getBlockAddr p (blkSize (conf c)));;
  p ← allocate [] p;
  Ok (mkCPkt p (requestorId cpu_pkt) (taskId cpu_pkt) 0 0).

(** [NoncoherentCache::handleAtomicReqMiss]. *)
Definition handleAtomicReqMiss (w : env) (q : CPkt) (o : option blkref) c
    : res (Z * CPkt * option blkref * list CPkt * cache I P M) :=
  bus ← createMissPacket q o c;
  '(ticks, bus, c) ← sendAtomic w bus c;
  let latency := ticksToCycles (clockPeriod (conf c)) ticks in
  let bp := pkt bus in
  assertb (isResponse (cmd bp));;
  assertb (isRead (cmd bp));;
  assertb (negb (bool_decide (cmd (pkt q) = UpgradeResp)));;
  assertb (negb (isInvalidate (cmd bp)));;
  assertb (negb (SF.hasSharers bp));;
  '(o, writebacks, c) ←
    (if isError (cmd bp) then Ok (o, [], c)
     else '(r, writebacks, c) ← handleFill w bus o (allocOnFill (cmd bp) c) c; Ok (Some r, writebacks, c));
  '(q, c) ← satisfyRequest w q o c;
  c ← maintainClusivity w true o c;
  p ← (if negb (isWriteback (cmd (pkt q))) && negb (bool_decide (cmd (pkt q) = WriteClean)) then
         assertb (needsResponse (cmd (pkt q)));;
         p ← makeResponse (pkt q);
         if isError (cmd bp) then copyError p bp else Ok p
       else Ok (pkt q));
  Ok (latency, with_pkt p q, o, writebacks, c).

(** ** Atomic accesses *)
Definition writebackTempBlockAtomic (w : env) c : res (cache I P M) :=
  match tempBlockWriteback c with
  | None => Err AssertFail
  | Some q => c ← doWritebacksAtomic w [q] c; Ok (set_pending None (wb_event c) c)
  end.

(** The temporary block is written back after the call. *)
Definition retire_temp (w : env) (o : option blkref) c : res (cache I P M) :=
  if bool_decide (o = Some Temp) && isValid (tempBlock c) then
    c ← (match tempBlockWriteback c with
         | Some _ => writebackTempBlockAtomic w c
         | None =>
             (* scheduling an event that is scheduled fails an assertion *)
             assertb (negb (wb_event c));; Ok (set_pending None true c)
         end);
    '(o, c) ← evictBlock w Temp c;
    Ok (set_pending o (wb_event c) c)
  else Ok c.

(** [BaseCache::recvAtomic]. *)
Definition base_recvAtomic (w : env) (q : CPkt) c : res (Z * CPkt * cache I P M) :=
  let lat := lookupLatency (conf c) in
  '(satisfied, o, lat, writebacks, q, c) ← access w q lat c;
  dirty ← (match o with
           | Some e => b ← blk_at (InTags e) c; Ok (isClean (cmd (pkt q)) && isDirty b)
           | None => Ok false
           end);
  '(writebacks, q, c) ←
    (match o with
     | Some e =>
         if dirty : bool then
           '(wb, c) ← writecleanBlk (InTags e) (Z.land (req_flags (req (pkt q))) DST_BITS) c;
           p ← setSatisfied (pkt q);
           Ok (writebacks ++ [wb], with_pkt p q, c)
         else Ok (writebacks, q, c)
     | None => Ok (writebacks, q, c)
     end);
  c ← doWritebacksAtomic w writebacks c;
  '(lat, q, o, writebacks, c) ←
    (if satisfied : bool then Ok (lat, q, InTags <$> o, [], c)
     else '(l, q, o, writebacks, c) ← handleAtomicReqMiss w q (InTags <$> o) c; Ok (lat + l, q, o, writebacks, c));
  c ← doWritebacksAtomic w writebacks c;
  c ← retire_temp w o c;
  p ← (if needsResponse (cmd (pkt q)) then makeResponse (pkt q) else Ok (pkt q));
  Ok (lat * clockPeriod (conf c), with_pkt p q, c).

(** [NoncoherentCache::recvAtomic]. *)
Definition recvAtomic (w : env) (q : CPkt) c : res (Z * CPkt * cache I P M) :=
  panic_if (cacheResponding (pkt q));;
  panic_if (negb (isRead (cmd (pkt q)) || isWrite (cmd (pkt q))));;
  base_recvAtomic w q c.

(** The event that sends the write-back of the temporary block. *)
Definition run_event (w : env) c : res (cache I P M) :=
  if wb_event c then
    c ← writebackTempBlockAtomic w (set_pending (tempBlockWriteback c) false c); Ok c
  else Ok c.

(** ** Functional accesses, from the CPU side: the only ones a non-coherent
    cache takes.  The block is read or written in passing; only a read that
    all the bytes of a dirty block answer stops here. *)
Definition satisfy_from_block (q : CPkt) c : res (bool * CPkt * cache I P M) :=
  let p := pkt q in
  o ← Tags.findBlock (tags c) (addr p) (secure p);
  match o with
  | None => Ok (false, q, c)
  | Some e =>
      b ← blk_at (InTags e) c;
      if isValid b then
        d ← data_at (InTags e) c;
        '(have_data, p, d') ← trySatisfyFunctional p (getBlockAddr p (blkSize (conf c))) (secure p)
                               (blkSize (conf c)) (Some d);
        Ok (have_data && isDirty b, with_pkt p q, put_data (InTags e) (default d d') c)
      else Ok (false, q, c)
  end.
Definition base_functionalAccess (q : CPkt) c : res (CPkt * cache I P M) :=
  '(done, q, c) ← satisfy_from_block q c;
  if done : bool then p ← makeResponse (pkt q); Ok (with_pkt p q, c) else sendFunctional q c.
Definition functionalAccess (q : CPkt) (from_cpu_side : bool) c : res (CPkt * cache I P M) :=
  panic_if (negb from_cpu_side);; base_functionalAccess q c.

(** ** Writing back and invalidating everything *)
Definition writebackVisitor (e : nat) c : res (cache I P M) :=
  b ← blk_at (InTags e) c;
  if isDirty b then
    assertb (isValid b);;
    a ← regenerateBlkAddr (InTags e) c;
    d ← data_at (InTags e) c;
    let p := set_data (Some d) (Packet_new (wb_request a b c) WriteReq) in
    '(_, c) ← sendFunctional (mkCPkt p funcRequestorId (task_id b) 0 0) c;
    and_not_status (InTags e) BlkDirty c
  else Ok c.
Definition invalidateVisitor (w : env) (e : nat) c : res (cache I P M) :=
  b ← blk_at (InTags e) c;
  if isValid b then assertb (negb (isDirty b));; invalidateBlock w (InTags e) c else Ok c.

(** [forEachBlk], from block [e] on. *)
Fixpoint visit (visitor : nat → cache I P M → res (cache I P M)) (k e : nat) c : res (cache I P M) :=
  match k with
  | O => Ok c
  | S k => c ← visitor e c; visit visitor k (S e) c
  end.
Definition memWriteback c : res (cache I P M) :=
  visit writebackVisitor (length (Tags.blks (tags c))) 0 c.
Definition memInvalidate (w : env) c : res (cache I P M) :=
  visit (invalidateVisitor w) (length (Tags.blks (tags c))) 0 c.
Definition cache_isDirty c : bool := Tags.anyBlk isDirty (tags c).

(** ** The constructor; the storage of the temporary block and its address
    are not initialised. *)
Definition BaseCache (cf : config) (t : Tags.tags I P) (max_miss_count : Z) (junk_addr : Z) (junk : list Z)
    (m : M) : res (cache I P M) :=
  t ← Tags.tagsInit t;
  Ok (mkCache cf Clocked_new t CacheBlk_new junk_addr junk None false max_miss_count m).
End Ops.

(** A cache is a memory side for the one in front of it. *)
#[export] Instance cache_side {I P M : Type} `{Indexing I, ReplacementPolicy P, MemSide M} :
    MemSide (cache I P M) := {|
  ms_sendAtomic := recvAtomic;
  ms_sendFunctional := λ q c, functionalAccess q true c |}.
End NC.
