(* ===== verification/CacheFlat.v ===== *)
(** * Requests on a block and on a flat memory

    What a cache owes its clients is the memory below it: [flat_step] is the
    effect of a request on the bytes of a memory, given the outcome of a
    store-conditional.  Here the part of [satisfyRequest] that works on a
    block is shown to be that step, on the bytes of the block, and the
    reservations it leaves in the block to be those it found, less the ones the
    request ends; a store-conditional succeeds only with one of them. *)

From S2P Require Import Prelude.
From S2P Require Import MemCmd.
From S2P Require Import Packet.
From S2P Require Import AbstractMem.
From S2P Require Import SnoopFilter.
From S2P Require Import CacheBlk.
From S2P Require Import NoncoherentCache.

Module Flat.
Import MemCmd Pkt AbsMem Blk NC.

(** ** The specification *)

(** The bytes after a request and the data it reads; [ok] is the outcome of a
    store-conditional. *)
Definition flat_step (f : Z → Z) (p : Packet) (d : list Z) (ok : bool) : (Z → Z) * option (list Z) :=
  let old := load f (addr p) (Z.to_nat (size p)) in
  if bool_decide (cmd p = SwapReq) then
    (store f (addr p) (swapped p old d) (λ _, true), Some old)
  else if isRead (cmd p) then (f, Some old)
  else if isLLSC (cmd p) && negb ok then (f, None)
  else (store f (addr p) d (enabled p), None).

(** The outcome the packet reports. *)
Definition sc_outcome (p : Packet) (ok : bool) : option bool :=
  if isLLSC (cmd p) && isWrite (cmd p) then Some ok else None.

(** Requests that read or write within a block, and the lines that the caches
    above write back. *)
Definition accesses : list Command :=
  [ReadReq; ReadExReq; ReadCleanReq; ReadSharedReq; LoadLockedReq; SoftPFReq; SoftPFExReq; HardPFReq;
   WriteReq; WriteLineReq; StoreCondReq; SwapReq].
Definition lines : list Command := [WritebackDirty; WritebackClean; WriteClean].

(** A request for the block at [x]. *)
Record request_ok (n x : Z) (p : Packet) (d : list Z) : Prop := {
  rq_cmd : cmd p ∈ accesses;
  rq_block : x = addr p - addr p mod n;
  rq_addr : 0 ≤ addr p;
  rq_size : 0 ≤ size p ∧ addr p mod n + size p ≤ n;
  rq_data : data p = Some d;
  rq_length : Z.of_nat (length d) = size p;
  rq_mask : isMaskedWrite p = true → Z.of_nat (length (req_byteEnable (req p))) = size p;
  rq_context : isWrite (cmd p) || isLLSC (cmd p) = true → proper p;
  rq_atomic : cmd p = SwapReq → isAtomicOp p = true →
    ∃ g, req_atomicOp (req p) = Some g ∧ ∀ l, length (g l) = length l;
  rq_swap : cmd p = SwapReq → isAtomicOp p = false → size p ≤ 8;
  rq_cond : cmd p = SwapReq → req_isCondSwap (req p) = true →
    (size p = 8 ∨ size p = 4) ∧ ∃ v, req_extraData (req p) = Some v }.

(** ** Bytes of a block *)
Lemma load_take_drop f x n off sz : (off + sz ≤ n)%nat →
  take sz (drop off (load f x n)) = load f (x + Z.of_nat off) sz.
Proof.
  intros Hle. apply list_eq. intros i. destruct (decide (i < sz)%nat).
  - rewrite lookup_take_lt, lookup_drop by done. rewrite !load_lookup by lia. do 2 f_equal. lia.
  - rewrite !lookup_ge_None_2; [done|rewrite load_length; lia|].
    rewrite length_take, length_drop, load_length. lia.
Qed.

Lemma splice_load f x n off d : (off + length d ≤ n)%nat →
  splice (load f x n) off d = load (store f (x + Z.of_nat off) d (λ _, true)) x n.
Proof.
  intros Hle. apply list_eq. intros i. rewrite splice_lookup by (rewrite load_length; lia).
  destruct (decide (i < n)%nat) as [Hi|Hi].
  - rewrite !load_lookup by done. unfold store. rewrite byte_at_lookup.
    case_decide as Hk.
    + replace ((x + Z.of_nat off <=? x + Z.of_nat i) &&
        (x + Z.of_nat i <? x + Z.of_nat off + Z.of_nat (length d))) with true by (symmetry; zcmp).
      replace (Z.to_nat (x + Z.of_nat i - (x + Z.of_nat off))) with (i - off)%nat by lia.
      destruct (lookup_lt_is_Some_2 d (i - off)) as [b Hb]; [lia|]. by rewrite Hb.
    + replace ((x + Z.of_nat off <=? x + Z.of_nat i) &&
        (x + Z.of_nat i <? x + Z.of_nat off + Z.of_nat (length d))) with false by (symmetry; zcmp).
      done.
  - rewrite !(lookup_ge_None_2 (load _ _ _)) by (rewrite load_length; lia).
    case_decide; [lia|done].
Qed.

Lemma load_ext f g x n : (∀ y, x ≤ y < x + Z.of_nat n → f y = g y) → load f x n = load g x n.
Proof. intros H. apply load_agree. intros y Hy. apply H. unfold covers in Hy. bool_to_prop. lia. Qed.

Lemma load_same f g x n y : load f x n = load g x n → x ≤ y < x + Z.of_nat n → f y = g y.
Proof.
  intros Heq Hy. apply (f_equal (λ l, l !! Z.to_nat (y - x))) in Heq. rewrite !load_lookup in Heq by lia.
  injection Heq as Heq. by replace (x + Z.of_nat (Z.to_nat (y - x))) with y in Heq by lia.
Qed.

(** A masked write leaves what the enabled bytes make of the old ones. *)
Lemma writeData_store f p d : data p = Some d → Z.of_nat (length d) = size p →
  (isMaskedWrite p = true → Z.of_nat (length (req_byteEnable (req p))) = size p) →
  ∃ new, writeData p (load f (addr p) (Z.to_nat (size p))) = Ok new ∧ length new = length d ∧
    ∀ y, store f (addr p) new (λ _, true) y = store f (addr p) d (enabled p) y.
Proof.
  intros Hd Hlen Hmask. unfold writeData, getConstPtr. rewrite Hd. cbn [mbind res_bind].
  destruct (isMaskedWrite p) eqn:Hm; cbn [negb].
  - specialize (Hmask eq_refl). rewrite (proj2 (Z.eqb_eq _ _)) by done. cbn [assertb mbind res_bind].
    eexists. split; [done|].
    assert (Hl : length (zip_with (λ (be : bool) '(new, old), if be then new else old)
      (req_byteEnable (req p)) (zip d (load f (addr p) (Z.to_nat (size p))))) = length d)
      by (rewrite length_zip_with, length_zip, load_length; lia).
    split; [exact Hl|]. intros y. unfold store, enabled. rewrite Hm, !byte_at_lookup, Hl.
    replace (Z.of_nat (length (req_byteEnable (req p)))) with (Z.of_nat (length d)) by lia.
    destruct ((addr p <=? y) && (y <? addr p + Z.of_nat (length d))) eqn:Hy; [|done]. bool_to_prop.
    rewrite lookup_zip_with.
    destruct (lookup_lt_is_Some_2 d (Z.to_nat (y - addr p))) as [b Hb]; [lia|].
    destruct (lookup_lt_is_Some_2 (req_byteEnable (req p)) (Z.to_nat (y - addr p))) as [e He]; [lia|].
    rewrite Hb, He. cbn [mbind option_bind]. rewrite lookup_zip_with, Hb, load_lookup by lia.
    cbn [mbind option_bind]. replace (addr p + Z.of_nat (Z.to_nat (y - addr p))) with y by lia.
    destruct e; rewrite ?bool_decide_true, ?bool_decide_false by congruence; done.
  - exists d. split; [done|]. split; [done|]. intros y. unfold store, enabled. by rewrite Hm.
Qed.

Lemma store_outside f a d en y : ¬ (a ≤ y < a + Z.of_nat (length d)) → store f a d en y = f y.
Proof.
  intros Hy. unfold store. rewrite byte_at_covers; [done|]. unfold covers. zcmp.
Qed.

(** ** Blocks after a request *)

(** What a request leaves of a block: its identity, its permissions and its
    times; it is dirty at least when it was. *)
Record kept (b b' : CacheBlk) : Prop := {
  kp_tag : tag b' = tag b;
  kp_valid : isValid b' = isValid b;
  kp_secure : isSecure b' = isSecure b;
  kp_readable : isReadable b' = isReadable b;
  kp_writable : isWritable b' = isWritable b;
  kp_dirty : isDirty b' = false → isDirty b = false;
  kp_ready : whenReady b' = whenReady b;
  kp_inserted : tickInserted b' = tickInserted b;
  kp_task : task_id b' = task_id b;
  kp_pos : _set b' = _set b ∧ _way b' = _way b }.

Lemma kept_refl b : kept b b.
Proof. by split. Qed.

Lemma kept_locks ls b : kept b (set_locks ls b).
Proof. by split. Qed.

Lemma kept_trans b1 b2 b3 : kept b1 b2 → kept b2 b3 → kept b1 b3.
Proof. intros [] []. split; try congruence; auto. split; naive_solver congruence. Qed.

(** The bits of the status do not overlap. *)
Lemma status_bit st bits x : Z.land x bits = 0 → Z.land (Z.lor st bits) x = Z.land st x.
Proof. intros H. rewrite Z.land_lor_distr_l, (Z.land_comm bits), H. apply Z.lor_0_r. Qed.

Lemma kept_dirty b : kept b (set_status (Z.lor (status b) BlkDirty) b).
Proof.
  split; try done; unfold isValid, isSecure, isReadable, isWritable, isDirty; cbn [status set_status].
  all: try (by rewrite status_bit).
  intros H%negb_false_iff%Z.eqb_eq. apply negb_false_iff, Z.eqb_eq.
  rewrite Z.land_lor_distr_l in H. by apply Z.lor_eq_0_iff in H as [? ?].
Qed.

Lemma dirty_dirty b : isDirty (set_status (Z.lor (status b) BlkDirty) b) = true.
Proof.
  unfold isDirty. cbn [status set_status]. apply negb_true_iff, Z.eqb_neq.
  rewrite Z.land_lor_distr_l. intros [_ H]%Z.lor_eq_0_iff. done.
Qed.

Lemma checkWrite_ok p b : isWrite (cmd p) = true → is_Some (req_contextId (req p)) →
  ∃ ok ls, checkWrite p b = Ok (ok, returned p None (sc_outcome p ok), set_locks ls b) ∧
    (isLLSC (cmd p) = false → ok = true).
Proof.
  intros Hw [cx Hc].
  assert (Hclear : ∀ v ls, ∃ ls', clear_locks (setExtraData v (req p)) ls = Ok ls' ∧ clear_locks (req p) ls = Ok ls').
  { intros v ls. induction ls as [|l ls (ls' & IH & IH')]; [by exists []|]. cbn [clear_locks].
    rewrite IH, IH'. unfold contextId. cbn [req_contextId setExtraData]. rewrite Hc.
    unfold intersects, req_high. cbn [req_paddr req_size setExtraData].
    case_match; cbn [mbind res_bind]; eauto. }
  assert (Htake : ∀ ls, ∃ ok ls', take_lock (req p) ls = Ok (ok, ls')).
  { induction ls as [|l ls (ok & ls' & IH)]; [eauto|]. cbn [take_lock]. unfold matches, contextId.
    rewrite Hc, IH. cbn [mbind res_bind]. case_match; eauto. }
  unfold checkWrite, sc_outcome. rewrite Hw, andb_true_r. cbn [assertb mbind res_bind].
  destruct (isLLSC (cmd p)); cbn [negb andb].
  - destruct (Htake (lockList b)) as (ok & ls & ->). cbn [mbind res_bind].
    destruct (Hclear (if ok then 1 else 0) ls) as (ls' & Hl & _).
    unfold clearLoadLocks. cbn [lockList set_locks req set_req]. rewrite Hl. cbn [mbind res_bind].
    exists ok, ls'. done.
  - case_bool_decide; [exists true, (lockList b); split; [|done]; by destruct b|].
    destruct (Hclear 0 (lockList b)) as (ls' & _ & Hl). unfold clearLoadLocks. rewrite Hl.
    by exists true, ls'.
Qed.

(** ** The block behaves like the memory *)
Section Block.
Context (n x : Z) (f : Z → Z) (p : Packet) (d : list Z).
Context (Hn : 0 < n) (Hoff : getOffset p n = addr p mod n) (Hp : request_ok n x p d).

Local Notation off := (Z.to_nat (addr p mod n)).
Local Notation sz := (Z.to_nat (size p)).

Lemma block_base : x + Z.of_nat off = addr p.
Proof.
  rewrite (rq_block _ _ _ _ Hp). pose proof (Z.mod_pos_bound (addr p) n Hn). lia.
Qed.
Lemma block_room : (off + sz ≤ Z.to_nat n)%nat.
Proof.
  destruct (rq_size _ _ _ _ Hp). pose proof (Z.mod_pos_bound (addr p) n Hn). lia.
Qed.

Lemma block_bytes_load : block_bytes p n (load f x (Z.to_nat n)) = load f (addr p) sz.
Proof.
  unfold block_bytes. rewrite Hoff, load_take_drop, block_base by apply block_room. done.
Qed.

Lemma splice_block new : length new = sz →
  splice (load f x (Z.to_nat n)) (Z.to_nat (getOffset p n)) new =
  load (store f (addr p) new (λ _, true)) x (Z.to_nat n).
Proof.
  intros Hl. rewrite Hoff, splice_load, block_base by (rewrite Hl; apply block_room). done.
Qed.

(** [satisfy_on] is the step of the flat memory. *)
Definition satisfied (b : CacheBlk) (ok : bool) (b' : CacheBlk) : Prop :=
  let '(f', read) := flat_step f p d ok in
  satisfy_on p b (load f x (Z.to_nat n)) n =
    Ok (returned p read (sc_outcome p ok), b', load f' x (Z.to_nat n)) ∧
  kept b b' ∧ (isDirty b' = false → ∀ y, f' y = f y) ∧ (isWrite (cmd p) = false → isDirty b' = isDirty b).

Lemma satisfy_swap b : cmd p = SwapReq → ∃ ok b', satisfied b ok b'.
Proof.
  intros Hc. exists true. unfold satisfied, flat_step, sc_outcome, satisfy_on.
  rewrite Hc, bool_decide_true, block_bytes_load by done. cbn [isLLSC andb].
  change (testCmdAttrib SwapReq IsLlsc) with false. cbn [andb].
  assert (Hm : isMaskedWrite p = false) by (unfold isMaskedWrite; by rewrite Hc).
  pose proof (rq_data _ _ _ _ Hp) as Hd. pose proof (rq_length _ _ _ _ Hp) as Hlen.
  assert (Hl : length d = sz) by lia. unfold returned, swapped.
  destruct (isAtomicOp p) eqn:Ha.
  { destruct (rq_atomic _ _ _ _ Hp Hc Ha) as (g & Hg & Hgl).
    rewrite (setData_ok p d) by done. unfold getAtomicOp. cbn [mbind res_bind req set_data].
    rewrite Hg. cbn [mbind res_bind]. eexists. split; [|split; [apply kept_dirty|by rewrite dirty_dirty, ?Hc]].
    rewrite <-splice_block by (by rewrite Hgl, load_length). done. }
  unfold cmpAndSwap. rewrite Hc. change (isRequest SwapReq) with true. cbn [assertb mbind res_bind].
  rewrite (proj2 (Z.leb_le _ _)) by (by apply (rq_swap _ _ _ _ Hp)). cbn [assertb mbind res_bind].
  rewrite block_bytes_load. unfold writeData, getConstPtr. rewrite Hd, Hm. cbn [mbind res_bind negb].
  rewrite (setData_ok p d) by done. cbn [mbind res_bind req set_data].
  destruct (req_isCondSwap (req p)) eqn:Hcd; cbn [mbind res_bind].
  - destruct (rq_cond _ _ _ _ Hp Hc Hcd) as (Hsz & v & Hv). unfold cond_matches, getExtraData.
    cbn [size req set_data]. rewrite Hv.
    replace ((size p =? 8) || (size p =? 4)) with true by (symmetry; zcmp; done). cbn [mbind res_bind].
    destruct (bool_decide _) eqn:Hbd.
    + eexists. split; [|split; [apply kept_dirty|by rewrite dirty_dirty, ?Hc]].
      rewrite <-splice_block by done. done.
    + exists b. split; [|split; [apply kept_refl|split; [intros _ y; apply store_load|done]]].
      do 2 f_equal. apply load_ext. intros y _. by rewrite store_load.
  - eexists. split; [|split; [apply kept_dirty|by rewrite dirty_dirty, ?Hc]].
    rewrite <-splice_block by done. done.
Qed.

Lemma satisfy_write b : cmd p ≠ SwapReq → isWrite (cmd p) = true → isRead (cmd p) = false →
  isWritable b = true → ∃ ok b', satisfied b ok b'.
Proof.
  intros Hc Hw Hr Hwb.
  destruct (checkWrite_ok p b Hw) as (ok & ls & Hck & Hok).
  { apply (rq_context _ _ _ _ Hp). by rewrite Hw. }
  exists ok. unfold satisfied, flat_step, satisfy_on. rewrite bool_decide_false, Hw, Hr, Hwb by done.
  cbn [assertb mbind res_bind]. rewrite Hck. cbn [mbind res_bind].
  assert (Hret : ∀ o, block_bytes (returned p None o) n = block_bytes p n ∧
    getOffset (returned p None o) n = getOffset p n ∧
    (∀ l, writeData (returned p None o) l = writeData p l)) by (by intros [[]|]).
  destruct (Hret (sc_outcome p ok)) as (Hbb & Hgo & Hwd).
  destruct ok.
  - rewrite andb_false_r. unfold writeDataToBlock. rewrite Hbb, Hgo, Hwd, block_bytes_load.
    destruct (writeData_store f p d) as (new & Hnew & Hl & Hst); [apply Hp..|].
    rewrite Hnew. cbn [mbind res_bind]. eexists. split; [|split].
    + rewrite splice_block by (rewrite Hl; pose proof (rq_length _ _ _ _ Hp); lia).
      do 2 f_equal. apply load_ext. intros y _. apply Hst.
    + eapply kept_trans; [apply (kept_locks ls)|apply kept_dirty].
    + by rewrite dirty_dirty, ?Hw.
  - destruct (isLLSC (cmd p)); [|by specialize (Hok eq_refl)]. cbn [andb negb mbind res_bind].
    eexists. split; [done|]. split; [|by rewrite ?Hw].
    eapply kept_trans; [apply (kept_locks ls)|apply kept_dirty].
Qed.

Lemma satisfy_read b : isRead (cmd p) = true → isWrite (cmd p) = false → cmd p ≠ SwapReq →
  hasRespData p = true → ∃ ok b', satisfied b ok b'.
Proof.
  intros Hr Hw Hc Hresp. exists true. unfold satisfied, flat_step, sc_outcome, satisfy_on.
  rewrite bool_decide_false, Hw, Hr, andb_false_r by done.
  assert (∃ b', (if isLLSC (cmd p) then trackLoadLocked p b else Ok b) = Ok b' ∧ kept b b' ∧ isDirty b' = isDirty b)
    as (b' & -> & Hk & Hd').
  { destruct (isLLSC (cmd p)) eqn:Hl; [|exists b; by split; [|split; [apply kept_refl|]]].
    destruct (rq_context _ _ _ _ Hp) as (_ & [cx Hcx] & _); [rewrite Hl; by rewrite orb_true_r|].
    unfold trackLoadLocked, Lock_new, contextId. rewrite Hl, Hcx. cbn [assertb mbind res_bind].
    eexists. split; [done|]. by split; [apply kept_locks|]. }
  rewrite Hresp. cbn [assertb mbind res_bind]. unfold setDataFromBlock. rewrite block_bytes_load.
  rewrite (setData_ok p d); [|unfold isMaskedWrite; rewrite bool_decide_false; [done|]|apply Hp].
  2: { intros Heq. by rewrite Heq in Hr. }
  cbn [mbind res_bind]. by exists b'.
Qed.

Lemma satisfy_ok b : isWritable b = true → ∃ ok b', satisfied b ok b'.
Proof.
  intros Hwb. pose proof (rq_cmd _ _ _ _ Hp) as Hin. unfold accesses in Hin.
  destruct (decide (cmd p = SwapReq)) as [|Hs]; [by apply satisfy_swap|].
  destruct (isRead (cmd p)) eqn:Hr.
  - apply satisfy_read; try done.
    + repeat (apply elem_of_cons in Hin as [Hin|Hin]; [by rewrite Hin in Hr, Hs |- *|]). by apply elem_of_nil in Hin.
    + unfold hasRespData.
      repeat (apply elem_of_cons in Hin as [Hin|Hin]; [by rewrite Hin in Hr, Hs |- *|]). by apply elem_of_nil in Hin.
  - apply satisfy_write; try done.
    repeat (apply elem_of_cons in Hin as [Hin|Hin]; [by rewrite Hin in Hr, Hs |- *|]). by apply elem_of_nil in Hin.
Qed.

(** *** Reservations *)

(** The requests the reservations of a block see: swaps and prefetches do not
    look at them. *)
Definition noted (q : Packet) : bool :=
  is_ll q || bool_decide (cmd q ∈ [WriteReq; WriteLineReq; StoreCondReq]).

(** The reservations [ls] before and [ls'] after the request, on a block that
    keeps its identity. *)
Record locks_after (b b' : CacheBlk) : Prop := {
  la_tag : tag b' = tag b ∧ _set b' = _set b ∧ _way b' = _way b ∧ isValid b' = isValid b;
  la_ok : locks_ok (lockList b');
  la_left : ∀ l, l ∈ lockList b' →
    l ∈ lockList b ∧ (noted p = true → ends p l = false) ∨ is_ll p = true ∧ l = lock_of p }.

Lemma locks_dirty b b' : locks_after b b' → locks_after b (set_status (Z.lor (status b') BlkDirty) b').
Proof.
  intros [(H1 & H2 & H3 & H4) Hok Hin]. split; [|done|done]. split_and!; try done.
  rewrite <-H4. unfold isValid. cbn [status set_status]. by rewrite status_bit.
Qed.

Lemma locks_same b : locks_ok (lockList b) → noted p = false → locks_after b b.
Proof. intros Hok Hn'. split; [done|done|]. intros l Hl. left. split; [done|]. by rewrite Hn'. Qed.

Lemma locks_check b ok q b' : isWrite (cmd p) = true → is_ll p = false → locks_ok (lockList b) →
  checkWrite p b = Ok (ok, q, b') →
  locks_after b b' ∧ (isLLSC (cmd p) = true → req_extraData (req q) = Some 1 → ∃ l, l ∈ lockList b ∧ grants l p = true).
Proof.
  intros Hw Hll Hok H.
  assert (Hpr : proper p) by (apply (rq_context _ _ _ _ Hp); by rewrite Hw).
  destruct (checkWrite_ok p b Hw) as (ok1 & ls & H1 & _); [apply Hpr|].
  destruct (check_step p b Hpr Hll Hok) as (ok2 & q2 & b2 & H2 & [Hok' Hin] & Hgr).
  rewrite H in H1, H2. simplify_eq. split; [split; [done|done|]|].
  - intros l [[? ?]|[? ?]]%Hin; [by left|congruence].
  - intros Hsc. unfold sc_outcome. rewrite Hsc, Hw. cbn. intros He.
    destruct ok1; [|done]. destruct (proj1 Hgr eq_refl) as [|]; [congruence|done].
Qed.

Lemma locks_track b b' : isLLSC (cmd p) = true → is_ll p = true → locks_ok (lockList b) →
  trackLoadLocked p b = Ok b' → locks_after b b'.
Proof.
  intros Hc Hll Hok H.
  assert (Hpr : proper p) by (apply (rq_context _ _ _ _ Hp); by rewrite Hc, orb_true_r).
  destruct (track_step p b Hpr Hll Hok) as (b2 & H2 & Hok' & Hin). rewrite H in H2. injection H2 as <-.
  split; [|done|].
  - unfold trackLoadLocked in H. inv_ok. done.
  - intros l [[? ?]|?]%Hin; [by left|by right].
Qed.

Lemma satisfy_locks b bs p' b' bs' : satisfy_on p b bs n = Ok (p', b', bs') → locks_ok (lockList b) →
  locks_after b b' ∧
  (cmd p = StoreCondReq → req_extraData (req p') = Some 1 → ∃ l, l ∈ lockList b ∧ grants l p = true).
Proof.
  intros H Hok. pose proof (rq_cmd _ _ _ _ Hp) as Hin. unfold accesses in Hin. unfold satisfy_on in H.
  case_bool_decide as Hs; [|destruct (isWrite (cmd p)) eqn:Hw; [|destruct (isRead (cmd p)) eqn:Hr]].
  - assert (Hno : noted p = false) by (unfold noted, is_ll; by rewrite Hs). split; [|by rewrite Hs].
    destruct (isAtomicOp p); [|unfold cmpAndSwap in H].
    + inv_ok. by apply locks_dirty, locks_same.
    + inv_ok. destruct a1; inv_ok; [by apply locks_dirty, locks_same|by apply locks_same].
  - assert (Hll : is_ll p = false).
    { unfold is_ll. clear -Hin Hw Hs. repeat (apply elem_of_cons in Hin as [Hin|Hin]; [by rewrite Hin in Hw, Hs |- *|]).
      by apply elem_of_nil in Hin. }
    inv_ok. destruct a as [[ok q] b1]. inv_ok. destruct (locks_check b ok p' b1) as [? Hg]; [done..|].
    split; [by apply locks_dirty|]. intros Hc. rewrite Hc in Hg. by apply Hg.
  - split; [|by intros Hc; rewrite Hc in Hw]. destruct (isLLSC (cmd p)) eqn:Hl.
    + inv_ok. apply (locks_track b b'); [done| |done|done]. unfold is_ll. by rewrite Hr, Hl.
    + cbn [mbind res_bind] in H. inv_ok. apply locks_same; [done|]. unfold noted, is_ll. rewrite Hl, andb_false_r. cbn [orb].
      apply bool_decide_eq_false. intros He. apply not_true_iff_false in Hw. apply Hw.
      repeat (apply elem_of_cons in He as [He|He]; [by rewrite He|]). by apply elem_of_nil in He.
  - exfalso. clear -Hin Hw Hr. repeat (apply elem_of_cons in Hin as [Hin|Hin]; [by rewrite Hin in Hw, Hr|]).
    by apply elem_of_nil in Hin.
Qed.

(** A request changes only the bytes of its block. *)
Lemma flat_outside ok y : ¬ (x ≤ y < x + n) → (flat_step f p d ok).1 y = f y.
Proof.
  intros Hy. pose proof block_base. pose proof block_room. pose proof (Z.mod_pos_bound (addr p) n Hn).
  destruct (rq_size _ _ _ _ Hp). pose proof (rq_length _ _ _ _ Hp).
  unfold flat_step. repeat case_match; cbn [fst]; try done; apply store_outside; [|lia].
  assert (Hc : cmd p = SwapReq) by (by eapply bool_decide_eq_true_1).
  assert (Hl : length (swapped p (load f (addr p) sz) d) = sz); [|rewrite Hl; lia].
  unfold swapped. destruct (isAtomicOp p) eqn:Ha.
  - destruct (rq_atomic _ _ _ _ Hp Hc Ha) as (g & -> & Hg). by rewrite Hg, load_length.
  - repeat case_match; rewrite ?load_length; lia.
Qed.
End Block.
End Flat.
