(* ===== verification/CacheCore.v ===== *)
(** * The invariant of the non-coherent cache

    [MemSideOk] is what a cache needs of the memory below: blocks can be
    fetched and written back, and the memory then holds the bytes written.
    [local] relates a cache to the bytes [f] its clients see: a block that is
    present holds them, all other addresses have them in [h], the contents of
    the memory once the write-backs under way have landed, and a clean block
    agrees with [h].  The lemmas follow the steps a request is made of: a
    block is found, changed, evicted or allocated, write-backs are sent. *)

From S2P Require Import Prelude.
From S2P Require Import Intmath.
From S2P Require Import Clocked.
From S2P Require Import MemCmd.
From S2P Require Import Packet.
From S2P Require Import AbstractMem.
From S2P Require Import SnoopFilter.
From S2P Require Import RpBase.
From S2P Require Import CacheIndex.
From S2P Require Import Replacement.
From S2P Require Import CacheBlk.
From S2P Require Import CacheTags.
From S2P Require Import NoncoherentCache.
From S2P Require Import CacheFlat.

Module Core.
Import MemCmd Pkt AbsMem RpBase Idx Rp Blk Clk NC Flat.

(** ** What a cache needs of the memory side *)

(** Times stay well below the largest tick. *)
Definition time_ok (w : env) : Prop := env_ok w ∧ 0 ≤ curTick w < 2 ^ 62.
Definition delays_ok (q : CPkt) : Prop := 0 ≤ headerDelay q < 2 ^ 32 ∧ 0 ≤ payloadDelay q < 2 ^ 32.

(** A block read, and a block written back. *)
Record is_fetch (n : Z) (sec : bool) (maxreq : Z) (q : CPkt) (x : Z) : Prop := {
  fe_cmd : cmd (pkt q) = ReadReq;
  fe_addr : addr (pkt q) = x;
  fe_size : size (pkt q) = n;
  fe_data : ∃ d, data (pkt q) = Some d ∧ length d = Z.to_nat n;
  fe_secure : secure (pkt q) = sec;
  fe_flags : flags (pkt q) = 0;
  fe_plain : SF.req_isCacheMaintenance (req (pkt q)) = false;
  fe_paddr : is_u64 (req_paddr (req (pkt q))) ∧
    req_paddr (req (pkt q)) - req_paddr (req (pkt q)) mod n = x;
  fe_space : isSet (req_flags (req (pkt q))) SECURE = sec;
  fe_requestor : requestorId q < maxreq;
  fe_delays : delays_ok q }.
Record is_writeback (n : Z) (sec : bool) (maxreq : Z) (q : CPkt) (x : Z) (d : list Z) : Prop := {
  wb_cmd : cmd (pkt q) = WritebackDirty ∨ cmd (pkt q) = WritebackClean;
  wb_addr : addr (pkt q) = x;
  wb_size : size (pkt q) = n;
  wb_data : data (pkt q) = Some d;
  wb_length : length d = Z.to_nat n;
  wb_secure : secure (pkt q) = sec;
  wb_flags : flags (pkt q) = 0;
  wb_plain : SF.req_isCacheMaintenance (req (pkt q)) = false;
  wb_paddr : is_u64 (req_paddr (req (pkt q))) ∧
    req_paddr (req (pkt q)) - req_paddr (req (pkt q)) mod n = x;
  wb_space : isSet (req_flags (req (pkt q))) SECURE = sec;
  wb_fetch : req_isInstFetch (req (pkt q)) = false;
  wb_requestor : requestorId q < maxreq;
  wb_delays : delays_ok q }.

Definition wb_effect (q : CPkt) (x : Z) (d : list Z) (g : Z → Z) : Z → Z :=
  if bool_decide (cmd (pkt q) = WritebackDirty) then store g x d (λ _, true) else g.

(** A functional access within a block. *)
Record is_functional (n : Z) (sec : bool) (q : CPkt) (x : Z) (d : list Z) : Prop := {
  fn_cmd : cmd (pkt q) = ReadReq ∨ cmd (pkt q) = WriteReq;
  fn_addr : is_u64 (addr (pkt q));
  fn_block : x = addr (pkt q) - addr (pkt q) mod n;
  fn_size : 0 < size (pkt q) ∧ addr (pkt q) mod n + size (pkt q) ≤ n;
  fn_data : data (pkt q) = Some d;
  fn_length : Z.of_nat (length d) = size (pkt q);
  fn_mask : isMaskedWrite (pkt q) = false;
  fn_fetch : cmd (pkt q) = WriteReq → req_isInstFetch (req (pkt q)) = false;
  fn_valid : bytesValid (pkt q) = [] ∨ Z.of_nat (length (bytesValid (pkt q))) = size (pkt q);
  fn_quiet : cacheResponding (pkt q) = false;
  fn_secure : secure (pkt q) = sec }.

(** [ms_rep t m f]: at tick [t] the memory [m] holds the bytes [f];
    [ms_block m x]: it has the block at [x].  A clean write-back carries the
    bytes the memory has. *)
Class MemSideOk (M : Type) `{msM : MemSide M} (n : Z) (sec : bool) (maxreq : Z) := {
  ms_rep : Z → M → (Z → Z) → Prop;
  ms_block : M → Z → Prop;
  ms_later : ∀ t t' m f, t ≤ t' → ms_rep t m f → ms_rep t' m f;
  ms_fetch : ∀ w m f q x, time_ok w → ms_rep (curTick w) m f → ms_block m x →
    is_fetch n sec maxreq q x →
    ∃ lat q' m', ms_sendAtomic w q m = Ok (lat, q', m') ∧
      pkt q' = answer (pkt q) (Some (load f x (Z.to_nat n))) None ∧ requestorId q' = requestorId q ∧
      delays_ok q' ∧ ms_rep (curTick w) m' f ∧ ∀ y, ms_block m y → ms_block m' y;
  ms_writeback : ∀ w m f q x d, time_ok w → ms_rep (curTick w) m f → ms_block m x →
    is_writeback n sec maxreq q x d → (cmd (pkt q) = WritebackClean → d = load f x (Z.to_nat n)) →
    ∃ lat q' m', ms_sendAtomic w q m = Ok (lat, q', m') ∧
      ms_rep (curTick w) m' (wb_effect q x d f) ∧ ∀ y, ms_block m y → ms_block m' y;
  ms_functional : ∀ t m f q x d, ms_rep t m f → ms_block m x → is_functional n sec q x d →
    ∃ q' m', ms_sendFunctional q m = Ok (q', m') ∧ ms_rep t m' (flat_step f (pkt q) d true).1 ∧
      isResponse (cmd (pkt q')) = true ∧
      (cmd (pkt q) = ReadReq → data (pkt q') = Some (load f (addr (pkt q)) (Z.to_nat (size (pkt q))))) ∧
      ∀ y, ms_block m y → ms_block m' y }.

Section Core.
Context {I P M : Type} `{ixI : Indexing I} `{!IndexingOk I} `{rpP : ReplacementPolicy P} `{!PolicyOk P}.
Context `{msM : MemSide M} {n : Z} {sec : bool} {maxreq : Z} `{msO : !MemSideOk M n sec maxreq}.
Implicit Types c : cache I P M.
Implicit Types m : gmap (Z * bool) nat.

Local Notation N := (Z.to_nat n).
Local Notation pol c := (ix_policy (Tags.indexing (tags c))).
Local Notation ba y := (y - y mod n).

(** ** Write-backs under way *)

(** Sending [ws] to a memory with bytes [g] leaves the bytes [h]. *)
Fixpoint lands (mem : M) (ws : list CPkt) (g h : Z → Z) : Prop :=
  match ws with
  | [] => ∀ y, g y = h y
  | q :: ws =>
      ∃ x d, is_writeback n sec maxreq q x d ∧ ms_block mem x ∧
        (cmd (pkt q) = WritebackClean → d = load g x N) ∧ lands mem ws (wb_effect q x d g) h
  end.

Lemma wb_effect_ext q x d g g' y : g y = g' y → wb_effect q x d g y = wb_effect q x d g' y.
Proof. intros H. unfold wb_effect. case_bool_decide; [|done]. unfold store. by repeat case_match. Qed.

Lemma lands_snoc mem ws g h h' q x d : lands mem ws g h → is_writeback n sec maxreq q x d →
  ms_block mem x → (cmd (pkt q) = WritebackClean → d = load h x N) →
  (∀ y, h' y = wb_effect q x d h y) → lands mem (ws ++ [q]) g h'.
Proof.
  intros Hl Hq Hx Hc Hh. revert g Hl. induction ws as [|q0 ws IH]; intros g; cbn [lands app].
  - intros Hg. exists x, d. split; [done|]. split; [done|]. split.
    + intros Hcl. rewrite (Hc Hcl). apply load_ext. intros y _. by rewrite Hg.
    + intros y. rewrite Hh. by apply wb_effect_ext.
  - intros (x0 & d0 & Hq0 & Hx0 & Hc0 & Hl). exists x0, d0. eauto.
Qed.

Lemma lands_mono mem mem' ws g h : (∀ y, ms_block mem y → ms_block mem' y) →
  lands mem ws g h → lands mem' ws g h.
Proof.
  intros Hsub. revert g. induction ws as [|q ws IH]; intros g; cbn [lands]; [done|].
  intros (x & d & ? & ? & ? & ?). exists x, d. split_and!; auto.
Qed.

Lemma flush_ok w ws c g h : time_ok w → ms_rep (curTick w) (below c) g → lands (below c) ws g h →
  ∃ mem' g', doWritebacksAtomic w ws c = Ok (set_below mem' c) ∧ ms_rep (curTick w) mem' g' ∧
    (∀ y, g' y = h y) ∧ ∀ y, ms_block (below c) y → ms_block mem' y.
Proof.
  intros Hw. revert c g. induction ws as [|q ws IH]; intros c g Hr; cbn [lands doWritebacksAtomic].
  - intros Hg. exists (below c), g. by destruct c.
  - intros (x & d & Hq & Hx & Hc & Hl). unfold sendAtomic.
    destruct (ms_writeback w (below c) g q x d Hw Hr Hx Hq Hc) as (lat & q' & mem' & -> & Hr' & Hb).
    cbn [mbind res_bind]. destruct (IH (set_below mem' c) _ Hr') as (mem2 & g' & -> & Hr2 & Hg' & Hb2).
    { by eapply lands_mono. }
    exists mem2, g'. cbn [below set_below] in Hb2. split; [done|]. eauto.
Qed.

(** ** The invariant *)
Record conf_ok c : Prop := {
  cf_pos : 0 < n;
  cf_small : n < 2 ^ 32;
  cf_size : blkSize (conf c) = n;
  cf_shift : 2 ^ setShift (pol c) = n;
  cf_period : 0 < clockPeriod (conf c);
  cf_fill : 0 ≤ fillLatency (conf c);
  cf_fill_max : clockPeriod (conf c) * (fillLatency (conf c) + 1) ≤ 2 ^ 61;
  cf_lookup : 0 ≤ Tags.lookupLatency (Tags.cfg (tags c));
  cf_lookup_max : clockPeriod (conf c) * Tags.lookupLatency (Tags.cfg (tags c)) ≤ 2 ^ 61;
  cf_write : isReadOnly (conf c) = false;
  cf_requestors : maxRequestors (conf c) = maxreq;
  cf_tag_requestors : maxreq ≤ Tags.maxRequestors (Tags.cfg (tags c));
  cf_some_requestor : wbRequestorId < maxreq }.

Definition blk_ok (b : CacheBlk) : Prop :=
  isReadable b = true ∧ isWritable b = true ∧ whenReady b ≠ MaxTick.

(** [ex] is a block that has been allocated and not yet filled. *)
Record local (t : Z) c (f h : Z → Z) m (ex : option nat) : Prop := {
  lo_conf : conf_ok c;
  lo_clock : in_step (clockPeriod (conf c)) t (clock c);
  lo_tags : Tags.inv (tags c) m;
  lo_key : ∀ x s e, m !! (x, s) = Some e → s = sec ∧ ms_block (below c) x;
  lo_blk : ∀ x e b, m !! (x, sec) = Some e → Some e ≠ ex → Tags.blks (tags c) !! e = Some b →
    blk_ok b ∧ Tags.dataBlks (tags c) !! e = Some (load f x N) ∧
    (isDirty b = false → load f x N = load h x N);
  lo_inserted : ∀ e b, Tags.blks (tags c) !! e = Some b → tickInserted b ≤ t;
  lo_length : ∀ e d, Tags.dataBlks (tags c) !! e = Some d → length d = N;
  lo_out : ∀ y, (∀ e, m !! (ba y, sec) = Some e → Some e = ex) → f y = h y }.

Definition core (t : Z) c (ws : list CPkt) (f h : Z → Z) m (ex : option nat) : Prop :=
  local t c f h m ex ∧ ∃ g, ms_rep t (below c) g ∧ lands (below c) ws g h.

Lemma conf_tags c c' : conf c' = conf c → Tags.cfg (tags c') = Tags.cfg (tags c) →
  Tags.indexing (tags c') = Tags.indexing (tags c) → conf_ok c → conf_ok c'.
Proof. intros H1 H2 H3 []. by split; rewrite ?H1, ?H2, ?H3. Qed.

Lemma local_later t t' c f h m ex : t ≤ t' → local t c f h m ex → local t' c f h m ex.
Proof.
  intros Ht []. split; try done.
  - by eapply in_step_later.
  - intros e b Hb. etrans; eauto.
Qed.

Lemma local_ext t c f f' h m ex : (∀ y, f' y = f y) → local t c f h m ex → local t c f' h m ex.
Proof.
  intros Hf [? ? ? ? Hb ? ? Ho]. split; try done.
  - intros x e b Hx Hne He. destruct (Hb x e b Hx Hne He) as (? & ? & ?).
    rewrite (load_ext f' f) by (intros; apply Hf). done.
  - intros y Hy. rewrite Hf. by apply Ho.
Qed.

Lemma local_below t c f h m ex mem' : (∀ y, ms_block (below c) y → ms_block mem' y) →
  local t c f h m ex → local t (set_below mem' c) f h m ex.
Proof.
  intros Hb [? ? ? Hk ? ? ? ?]. split; try done.
  - by eapply conf_tags; [..|done].
  - intros x s e Hx. destruct (Hk x s e Hx). split; [done|]. cbn [below set_below]. auto.
Qed.

(** ** Block addresses *)
Lemma ba_spec y : 0 < n → ba y ≤ y < ba y + n ∧ ba y mod n = 0.
Proof.
  intros Hn. pose proof (Z.mod_pos_bound y n Hn). split; [lia|].
  rewrite Zminus_mod_idemp_r. by rewrite Z.sub_diag, Z.mod_0_l by lia.
Qed.

Lemma ba_unique x y : 0 < n → x mod n = 0 → x ≤ y < x + n → ba y = x.
Proof.
  intros Hn Hx Hy. assert (y mod n = y - x); [|lia].
  replace y with ((y - x) + x) at 1 by lia. rewrite Z.add_mod, Hx, Z.add_0_r, Z.mod_mod by lia.
  apply Z.mod_small. lia.
Qed.

Lemma block_policy c a : conf_ok c → blockAddr (pol c) a = ba a.
Proof. intros Hc. unfold blockAddr. by rewrite (cf_shift _ Hc). Qed.

(** A block that is present: its entry, its address. *)
Lemma present t c f h m ex x s e : local t c f h m ex → m !! (x, s) = Some e →
  ∃ b, Tags.blks (tags c) !! e = Some b ∧ isValid b = true ∧ isSecure b = sec ∧ s = sec ∧
    x mod n = 0 ∧ is_u64 x ∧ Tags.regenerateBlkAddr (tags c) e = Ok x ∧
    ∃ d, Tags.dataBlks (tags c) !! e = Some d ∧ length d = N.
Proof.
  intros Hl Hx. destruct (lo_key _ _ _ _ _ _ Hl _ _ _ Hx) as [-> _].
  pose proof (lo_tags _ _ _ _ _ _ Hl) as [Hsh Hho].
  destruct (Tags.ho_sound _ _ Hho _ _ _ Hx) as (b & a & Hb & Hv & Hs & Ha & -> & _).
  pose proof (lo_conf _ _ _ _ _ _ Hl) as Hc. rewrite block_policy in * by done.
  pose proof (ba_spec a (cf_pos _ Hc)) as [? ?]. unfold is_u64 in Ha.
  exists b. split; [done|]. split; [done|]. split; [done|]. split; [done|]. split; [done|].
  split; [pose proof (Z.mod_le a n ltac:(lia) (cf_pos _ Hc)); unfold is_u64; lia|].
  split; [by eapply Tags.regenerate_spec; [exact (lo_tags _ _ _ _ _ _ Hl)|]|].
  destruct (lookup_lt_is_Some_2 (Tags.dataBlks (tags c)) e) as [d Hd].
  { rewrite (Tags.sh_data _ Hsh). by eapply lookup_lt_Some. }
  exists d. split; [done|]. by eapply lo_length.
Qed.

Lemma same_entry t c f h m ex k k' e : local t c f h m ex → m !! k = Some e → m !! k' = Some e → k = k'.
Proof. intros Hl. by apply (Tags.holds_inj (tags c)), Hl. Qed.

(** Different blocks do not share bytes. *)
Lemma block_disjoint t c f h m ex x x' e e' y : local t c f h m ex →
  m !! (x, sec) = Some e → m !! (x', sec) = Some e' → x ≠ x' → x ≤ y < x + n → ¬ (x' ≤ y < x' + n).
Proof.
  intros Hl Hx Hx' Hne Hy Hy'. pose proof (cf_pos _ (lo_conf _ _ _ _ _ _ Hl)) as Hn.
  destruct (present _ _ _ _ _ _ _ _ _ Hl Hx) as (_ & _ & _ & _ & _ & Hm & _).
  destruct (present _ _ _ _ _ _ _ _ _ Hl Hx') as (_ & _ & _ & _ & _ & Hm' & _).
  apply Hne. by rewrite <-(ba_unique x y), (ba_unique x' y).
Qed.

(** ** Changing a block *)

(** The block [r] as [b] with data [d], and the clock [k]. *)
Definition patch (r : blkref) (b : CacheBlk) (d : list Z) (k : Clocked) c : cache I P M :=
  set_clock k (put_data r d (put_blk r b c)).
Definition exists_at (r : blkref) c : Prop :=
  match r with
  | InTags e => (e < length (Tags.blks (tags c)))%nat ∧ (e < length (Tags.dataBlks (tags c)))%nat
  | Temp => True
  end.

Lemma patch_id r b d c : blk_at r c = Ok b → data_at r c = Ok d → patch r b d (clock c) c = c.
Proof.
  unfold blk_at, data_at, patch, Tags.get_blk, RpBase.get. destruct r as [e|].
  - intros Hb Hd. destruct (_ !! e) eqn:E1 in Hb; [|done]. destruct (_ !! e) eqn:E2 in Hd; [|done].
    simplify_eq. destruct c as [? ? [] ? ? ? ? ? ? ?].
    cbn in *. unfold set_clock, put_data, put_blk, set_tags, Tags.put_blk, Tags.set_blks, Tags.set_dataBlks.
    cbn. by rewrite !list_insert_id.
  - intros [= <-] [= <-]. by destruct c.
Qed.

Lemma patch_blk r b d k c : exists_at r c → blk_at r (patch r b d k c) = Ok b.
Proof.
  destruct r as [e|]; [|done]. intros [He _]. unfold blk_at, Tags.get_blk, RpBase.get. cbn.
  by rewrite list_lookup_insert_eq.
Qed.
Lemma patch_data r b d k c : exists_at r c → data_at r (patch r b d k c) = Ok d.
Proof.
  destruct r as [e|]; [|done]. intros [_ He]. unfold data_at, RpBase.get. cbn.
  by rewrite list_lookup_insert_eq.
Qed.
Lemma patch_put_blk r b b' d k c : put_blk r b' (patch r b d k c) = patch r b' d k c.
Proof.
  destruct r as [e|]; [|done].
  unfold patch, set_clock, put_data, put_blk, set_tags, Tags.put_blk, Tags.set_blks, Tags.set_dataBlks. cbn.
  by rewrite list_insert_insert_eq.
Qed.
Lemma patch_put_data r b d d' k c : put_data r d' (patch r b d k c) = patch r b d' k c.
Proof.
  destruct r as [e|]; [|done].
  unfold patch, set_clock, put_data, put_blk, set_tags, Tags.put_blk, Tags.set_blks, Tags.set_dataBlks. cbn.
  by rewrite list_insert_insert_eq.
Qed.
Lemma patch_or_status r bits b d k c : exists_at r c →
  or_status r bits (patch r b d k c) = Ok (patch r (set_status (Z.lor (status b) bits) b) d k c).
Proof. intros He. unfold or_status. rewrite patch_blk by done. cbn [mbind res_bind]. by rewrite patch_put_blk. Qed.
Lemma patch_and_not_status r bits b d k c : exists_at r c →
  and_not_status r bits (patch r b d k c) =
    Ok (patch r (set_status (Z.land (status b) (Z.lnot bits)) b) d k c).
Proof.
  intros He. unfold and_not_status. rewrite patch_blk by done. cbn [mbind res_bind]. by rewrite patch_put_blk.
Qed.
Lemma patch_conf r b d k c : conf (patch r b d k c) = conf c.
Proof. by destruct r. Qed.
Lemma patch_below r b d k c : below (patch r b d k c) = below c.
Proof. by destruct r. Qed.

(** A block holds new bytes [f'], and the memory new bytes [h'], which agree
    with the old ones elsewhere. *)
Lemma local_update_both t c f f' h h' m ex e x b b' d' k :
  local t c f h m ex → m !! (x, sec) = Some e → ex = None ∨ ex = Some e →
  Tags.blks (tags c) !! e = Some b → Tags.same_tag b b' → blk_ok b' → tickInserted b' ≤ t →
  in_step (clockPeriod (conf c)) t k → d' = load f' x N → (∀ y, ¬ (x ≤ y < x + n) → f' y = f y) →
  (∀ y, ¬ (x ≤ y < x + n) → h' y = h y) →
  (isDirty b' = false → load f' x N = load h' x N) →
  local t (patch (InTags e) b' d' k c) f' h' m None.
Proof.
  intros Hl Hx Hex Hb Htag Hok Hins Hk -> Hf Hh Hd.
  destruct (present _ _ _ _ _ _ _ _ _ Hl Hx) as (b0 & Hb0 & _ & _ & _ & Hmod & _ & _ & d0 & Hd0 & _).
  assert (b0 = b) as -> by congruence.
  pose proof (cf_pos _ (lo_conf _ _ _ _ _ _ Hl)) as Hn.
  pose proof (lookup_lt_Some _ _ _ Hb) as He. pose proof (lookup_lt_Some _ _ _ Hd0) as He'.
  split.
  - eapply conf_tags; [..|by apply Hl]; done.
  - done.
  - eapply Tags.inv_frame; [..|by eapply (Tags.put_blk_inv (tags c) m e b b'); [apply Hl|..]]; try done.
    + cbn. by rewrite length_insert.
    + split; [|done]. apply (lo_tags _ _ _ _ _ _ Hl).
  - intros x' s' e' Hx'. by eapply (lo_key _ _ _ _ _ _ Hl).
  - intros x' e' b1 Hx' _ Hb1. destruct (decide (e' = e)) as [->|Hne].
    + assert ((x', sec) = (x, sec)) as [= ->] by (by eapply same_entry).
      cbn in Hb1. rewrite list_lookup_insert_eq in Hb1 by done. simplify_eq. split; [done|].
      split; [|done]. cbn. by rewrite list_lookup_insert_eq.
    + cbn in Hb1. rewrite list_lookup_insert_ne in Hb1 by done.
      destruct (lo_blk _ _ _ _ _ _ Hl x' e' b1 Hx') as (Hok1 & Hd1 & Hc1);
        [by destruct Hex as [->| ->]; [|congruence]|done|].
      assert (Hout : ∀ y, x' ≤ y < x' + n → ¬ (x ≤ y < x + n)).
      { intros y Hy. eapply (block_disjoint _ _ _ _ _ _ x' x e' e y Hl); [done..| |lia]. intros ->. congruence. }
      rewrite (load_ext f' f x'), (load_ext h' h x') by (intros y Hy; (apply Hf || apply Hh); apply Hout; lia).
      split; [done|]. split; [|done]. cbn. by rewrite list_lookup_insert_ne.
  - intros e' b1 Hb1. cbn in Hb1. apply Tags.insert_cases in Hb1 as [[-> ->]|[_ Hb1]]; [done| |done].
    by eapply (lo_inserted _ _ _ _ _ _ Hl).
  - intros e' d1 Hd1. cbn in Hd1. apply Tags.insert_cases in Hd1 as [[-> ->]|[_ Hd1]]; [| |done].
    + apply load_length.
    + by eapply (lo_length _ _ _ _ _ _ Hl).
  - intros y Hy. rewrite Hf, Hh.
    + apply (lo_out _ _ _ _ _ _ Hl). intros e1 He1. by specialize (Hy e1 He1).
    + intros Hin. rewrite (ba_unique x y) in Hy by done. by specialize (Hy e Hx).
    + intros Hin. rewrite (ba_unique x y) in Hy by done. by specialize (Hy e Hx).
Qed.

Lemma local_update t c f f' h m ex e x b b' d' k :
  local t c f h m ex → m !! (x, sec) = Some e → ex = None ∨ ex = Some e →
  Tags.blks (tags c) !! e = Some b → Tags.same_tag b b' → blk_ok b' → tickInserted b' ≤ t →
  in_step (clockPeriod (conf c)) t k → d' = load f' x N → (∀ y, ¬ (x ≤ y < x + n) → f' y = f y) →
  (isDirty b' = false → load f' x N = load h x N) →
  local t (patch (InTags e) b' d' k c) f' h m None.
Proof. intros. by eapply local_update_both. Qed.

(** A block leaves; its bytes are then in [h']. *)
Lemma local_drop t c f h h' m e x b0 t' :
  local t c f h m None → m !! (x, sec) = Some e →
  Tags.inv t' (Tags.without e m) → Tags.cfg t' = Tags.cfg (tags c) →
  Tags.indexing t' = Tags.indexing (tags c) → Tags.dataBlks t' = Tags.dataBlks (tags c) →
  Tags.blks t' = <[e := b0]> (Tags.blks (tags c)) → tickInserted b0 ≤ t →
  (∀ y, x ≤ y < x + n → f y = h' y) → (∀ y, ¬ (x ≤ y < x + n) → h' y = h y) →
  local t (set_tags t' c) f h' (Tags.without e m) None.
Proof.
  intros Hl Hx Hinv Hcfg Hix Hdata Hblks Hins Hin Hout.
  destruct (present _ _ _ _ _ _ _ _ _ Hl Hx) as (b & Hb & _ & _ & _ & Hmod & _).
  pose proof (cf_pos _ (lo_conf _ _ _ _ _ _ Hl)) as Hn. pose proof (lookup_lt_Some _ _ _ Hb) as He.
  split.
  - by eapply conf_tags; [..|apply Hl].
  - apply Hl.
  - done.
  - intros x' s' e' [Hx' _]%Tags.without_Some. by eapply (lo_key _ _ _ _ _ _ Hl).
  - intros x' e' b1 [Hx' Hne]%Tags.without_Some _ Hb1. cbn in Hb1 |- *. rewrite Hblks in Hb1.
    rewrite list_lookup_insert_ne in Hb1 by done. rewrite Hdata.
    destruct (lo_blk _ _ _ _ _ _ Hl x' e' b1 Hx') as (Hok1 & Hd1 & Hc1); [done|done|].
    split; [done|]. split; [done|]. intros Hclean. rewrite (Hc1 Hclean).
    symmetry. apply load_ext. intros y Hy. apply Hout.
    eapply (block_disjoint _ _ _ _ _ _ x' x e' e y Hl); [done..| |lia]. intros ->. congruence.
  - intros e' b1 Hb1. cbn in Hb1. rewrite Hblks in Hb1.
    apply Tags.insert_cases in Hb1 as [[-> ->]|[_ Hb1]]; [done| |done]. by eapply (lo_inserted _ _ _ _ _ _ Hl).
  - intros e' d1 Hd1. cbn in Hd1. rewrite Hdata in Hd1. by eapply (lo_length _ _ _ _ _ _ Hl).
  - intros y Hy. destruct (decide (x ≤ y < x + n)) as [Hyx|Hyx]; [by apply Hin|].
    rewrite Hout by done. apply (lo_out _ _ _ _ _ _ Hl). intros e1 He1.
    destruct (decide (e1 = e)) as [->|]; [|by apply (Hy e1), Tags.without_Some].
    assert ((ba y, sec) = (x, sec)) as [= Hba] by (by eapply same_entry).
    exfalso. apply Hyx. pose proof (ba_spec y Hn). lia.
Qed.

(** A block is allocated in an invalid entry. *)
Lemma local_alloc t c f h m e x b b1 t' :
  local t c f h m None → m !! (x, sec) = None → ms_block (below c) x →
  Tags.blks (tags c) !! e = Some b → isValid b = false →
  Tags.inv t' (<[(x, sec) := e]> m) → Tags.cfg t' = Tags.cfg (tags c) →
  Tags.indexing t' = Tags.indexing (tags c) → Tags.dataBlks t' = Tags.dataBlks (tags c) →
  Tags.blks t' = <[e := b1]> (Tags.blks (tags c)) → tickInserted b1 ≤ t →
  local t (set_tags t' c) f h (<[(x, sec) := e]> m) (Some e).
Proof.
  intros Hl Hx Hblk Hb Hv Hinv Hcfg Hix Hdata Hblks Hins. pose proof (lookup_lt_Some _ _ _ Hb) as He.
  split.
  - by eapply conf_tags; [..|apply Hl].
  - apply Hl.
  - done.
  - intros x' s' e' [[[= <- <-] _]|[_ Hx']]%lookup_insert_Some; [done|]. by eapply (lo_key _ _ _ _ _ _ Hl).
  - intros x' e' b2 [[_ ->]|[_ Hx']]%lookup_insert_Some Hne Hb2; [done|]. cbn in Hb2 |- *.
    rewrite Hblks, list_lookup_insert_ne in Hb2 by congruence. rewrite Hdata.
    by apply (lo_blk _ _ _ _ _ _ Hl x' e' b2).
  - intros e' b2 Hb2. cbn in Hb2. rewrite Hblks in Hb2.
    apply Tags.insert_cases in Hb2 as [[-> ->]|[_ Hb2]]; [done| |done]. by eapply (lo_inserted _ _ _ _ _ _ Hl).
  - intros e' d1 Hd1. cbn in Hd1. rewrite Hdata in Hd1. by eapply (lo_length _ _ _ _ _ _ Hl).
  - intros y Hy. apply (lo_out _ _ _ _ _ _ Hl). intros e1 He1. exfalso.
    destruct (decide (ba y = x)) as [Heq|Hne]; [rewrite Heq in He1; congruence|].
    specialize (Hy e1). rewrite lookup_insert_ne in Hy by congruence. specialize (Hy He1).
    simplify_eq. destruct (present _ _ _ _ _ _ _ _ _ Hl He1) as (b2 & Hb2 & Hv2 & _). congruence.
Qed.
End Core.
End Core.
