(* ===== verification/CacheSteps.v ===== *)
(** * The steps of a request in the non-coherent cache

    Writing a block back, evicting, allocating and filling it, each shown to
    succeed and to keep the relation between the cache, the memory below and
    the bytes the clients see. *)

From S2P Require Import Prelude.
From S2P Require Import Intmath.
From S2P Require Import Clocked.
From S2P Require Import MemCmd.
From S2P Require Import Packet.
From S2P Require Import AbstractMem.
From S2P Require Import SnoopFilter.
From S2P Require Import RpBase.
From S2P Require Import CacheIndex.
From S2P Require Import Replacement.
From S2P Require Import CacheBlk.
From S2P Require Import CacheTags.
From S2P Require Import NoncoherentCache.
From S2P Require Import CacheFlat.
From S2P Require Import CacheCore.

Module Steps.
Import MemCmd Pkt AbsMem RpBase Idx Rp Blk Clk NC Flat Core.

(** ** Status bits *)
Lemma status_keep st bits x : Z.land (Z.lnot bits) x = x → Z.land (Z.land st (Z.lnot bits)) x = Z.land st x.
Proof. intros H. by rewrite <-Z.land_assoc, H. Qed.

Lemma or_bits st bits x : Z.land bits x = x → Z.land (Z.lor st bits) x = x.
Proof.
  intros H. rewrite Z.land_lor_distr_l, H. apply Z.bits_inj'. intros i Hi.
  rewrite Z.lor_spec, Z.land_spec. destruct (Z.testbit st i), (Z.testbit x i); done.
Qed.

(** A valid block that is made readable and writable. *)
Definition opened (b : CacheBlk) : CacheBlk :=
  set_status (Z.lor (Z.lor (status b) BlkReadable) BlkWritable) b.

Lemma valid_bit b : isValid b = true → Z.land (status b) BlkValid = BlkValid.
Proof.
  unfold isValid. intros H%negb_true_iff%Z.eqb_neq. unfold BlkValid in *.
  change 1 with (Z.ones 1) in H |- *. rewrite Z.land_ones in H |- * by lia. change (2 ^ 1) with 2 in *.
  change (Z.ones 1) with 1. pose proof (Z.mod_pos_bound (status b) 2 ltac:(lia)). lia.
Qed.

Lemma opened_spec b : isValid b = true →
  isReadable (opened b) = true ∧ isWritable (opened b) = true ∧ isValid (opened b) = true ∧
  isSecure (opened b) = isSecure b ∧ isDirty (opened b) = isDirty b.
Proof.
  intros Hv%valid_bit. unfold isReadable, isWritable, isValid, isSecure, isDirty, opened. cbn [status set_status].
  set (st := Z.lor (Z.lor (status b) BlkReadable) BlkWritable).
  assert (Z.land st BlkValid = BlkValid) as Hv' by (unfold st; by rewrite !status_bit).
  assert (Z.land st BlkReadable = BlkReadable) as Hr
    by (unfold st; rewrite status_bit by done; by apply or_bits).
  assert (Z.land st BlkWritable = BlkWritable) as Hw by (by apply or_bits).
  rewrite !Z.land_lor_distr_r, Hv', Hr, Hw. unfold st. by rewrite !status_bit by done.
Qed.

(** A block that only gains permissions, or the dirty bit. *)
Record grown (b b' : CacheBlk) : Prop := {
  gr_tag : tag b' = tag b;
  gr_pos : _set b' = _set b ∧ _way b' = _way b;
  gr_inserted : tickInserted b' = tickInserted b;
  gr_valid : isValid b' = isValid b;
  gr_secure : isSecure b' = isSecure b;
  gr_readable : isReadable b = true → isReadable b' = true;
  gr_writable : isWritable b = true → isWritable b' = true;
  gr_dirty : isDirty b' = false → isDirty b = false }.

Lemma grown_refl b : grown b b.
Proof. by split. Qed.
Lemma grown_trans b1 b2 b3 : grown b1 b2 → grown b2 b3 → grown b1 b3.
Proof. intros [] []. split; try congruence; auto. split; naive_solver congruence. Qed.

Lemma keep_bits st bits x : Z.land st x = x → Z.land (Z.lor st bits) x = x.
Proof.
  intros H. rewrite Z.land_lor_distr_l, H. apply Z.bits_inj'. intros i Hi.
  rewrite Z.lor_spec, Z.land_spec. destruct (Z.testbit bits i), (Z.testbit x i); done.
Qed.

Lemma grown_or b bits : Z.land BlkValid bits = 0 → Z.land BlkSecure bits = 0 →
  grown b (set_status (Z.lor (status b) bits) b).
Proof.
  intros Hv Hs. split; try done; unfold isValid, isSecure, isReadable, isWritable, isDirty; cbn [status set_status].
  - by rewrite status_bit.
  - by rewrite status_bit.
  - intros H%Z.eqb_eq. apply Z.eqb_eq. by apply keep_bits.
  - intros H%Z.eqb_eq. apply Z.eqb_eq. by apply keep_bits.
  - intros H%negb_false_iff%Z.eqb_eq. apply negb_false_iff, Z.eqb_eq.
    rewrite Z.land_lor_distr_l in H. by apply Z.lor_eq_0_iff in H as [? ?].
Qed.

Lemma made_readable b : isValid b = true → isReadable (set_status (Z.lor (status b) BlkReadable) b) = true.
Proof.
  intros Hv%valid_bit. unfold isReadable. cbn [status set_status]. apply Z.eqb_eq.
  rewrite Z.land_lor_distr_r, or_bits, status_bit, Hv by done. done.
Qed.
Lemma made_writable b : isValid b = true → isWritable (set_status (Z.lor (status b) BlkWritable) b) = true.
Proof.
  intros Hv%valid_bit. unfold isWritable. cbn [status set_status]. apply Z.eqb_eq.
  rewrite Z.land_lor_distr_r, or_bits, status_bit, Hv by done. done.
Qed.

Definition with_ready (tk : Z) (b : CacheBlk) : CacheBlk :=
  mkBlk (task_id b) (tag b) (status b) tk (refCount b) (srcRequestorId b)
    (tickInserted b) (lockList b) (_set b) (_way b).
Lemma grown_ready tk b : grown b (with_ready tk b).
Proof. by split. Qed.

Lemma grown_same_tag b b' : isValid b = true → grown b b' → Tags.same_tag b b'.
Proof.
  intros Hv Hg. unfold Tags.same_tag. rewrite (gr_tag _ _ Hg), (gr_valid _ _ Hg), (gr_secure _ _ Hg).
  destruct (gr_pos _ _ Hg) as [-> ->]. split_and!; try done. congruence.
Qed.

Section Steps.
Context {I P M : Type} `{ixI : Indexing I} `{!IndexingOk I} `{rpP : ReplacementPolicy P} `{!PolicyOk P}.
Context `{msM : MemSide M} {n : Z} {sec : bool} {maxreq : Z} `{msO : !MemSideOk M n sec maxreq}.
Implicit Types c : cache I P M.
Implicit Types m : gmap (Z * bool) nat.

Local Notation N := (Z.to_nat n).
Local Notation pol c := (ix_policy (Tags.indexing (tags c))).
Local Notation ba y := (y - y mod n).
Local Notation conf_ok := (conf_ok (n:=n) (maxreq:=maxreq)).
Local Notation local := (local (n:=n) (sec:=sec) (maxreq:=maxreq)).
Local Notation core := (core (n:=n) (sec:=sec) (maxreq:=maxreq)).

Lemma shift_nonneg c : conf_ok c → 0 ≤ setShift (pol c).
Proof.
  intros Hc. destruct (decide (0 ≤ setShift (pol c))); [done|].
  pose proof (cf_shift _ Hc) as Hs. rewrite Z.pow_neg_r in Hs by lia. pose proof (cf_pos _ Hc). lia.
Qed.

Lemma offset_mod c p : conf_ok c → getOffset p n = addr p mod n.
Proof.
  intros Hc. pose proof (shift_nonneg c Hc). unfold getOffset. rewrite <-(cf_shift _ Hc).
  rewrite <-Z.land_ones by done. f_equal. rewrite Z.ones_equiv. lia.
Qed.

Lemma align_block c a : conf_ok c → setShift (pol c) ≤ 64 → is_u64 a → Z.land a (not64 (n - 1)) = ba a.
Proof.
  intros Hc Hs Ha. pose proof (shift_nonneg c Hc). rewrite <-(cf_shift _ Hc).
  apply land_not_ones; [lia|done].
Qed.

(** ** Writing a block back *)
Definition handed (b : CacheBlk) : CacheBlk :=
  set_status (Z.land (Z.land (status b) (Z.lnot BlkWritable)) (Z.lnot BlkDirty)) b.

Lemma handed_spec b : isValid (handed b) = isValid b ∧ isSecure (handed b) = isSecure b.
Proof. unfold isValid, isSecure, handed. cbn [status set_status]. by rewrite !status_keep. Qed.

Lemma whole_block c p d : conf_ok c → addr p mod n = 0 → size p = n → length d = N → block_bytes p n d = d.
Proof.
  intros Hc Ha Hs Hl. unfold block_bytes. rewrite (offset_mod c), Ha, Hs by done.
  change (Z.to_nat 0) with 0%nat. rewrite drop_0. apply take_ge. lia.
Qed.

Lemma hand_over_ok r b d p c : conf_ok c → exists_at r c → blk_at r c = Ok b → data_at r c = Ok d →
  isWritable b = true → length d = N → addr p mod n = 0 → size p = n → data p = None →
  hasData (cmd p) = true → isMaskedWrite p = false →
  hand_over r b p c = Ok (set_data (Some d) p, patch r (handed b) d (clock c) c).
Proof.
  intros Hc He Hb Hd Hw Hl Ha Hs Hn Hhas Hm. unfold hand_over. rewrite Hw.
  rewrite <-(patch_id r b d c) at 1 by done. rewrite patch_and_not_status by done. cbn [mbind res_bind].
  rewrite patch_and_not_status by done. cbn [mbind res_bind].
  unfold allocate. rewrite Hhas, Hn. cbn [orb assertb mbind res_bind]. rewrite patch_data by done.
  cbn [mbind res_bind]. rewrite patch_conf, (cf_size _ Hc). unfold setDataFromBlock.
  rewrite (whole_block c) by done. unfold setData, getPtr. cbn [data set_data].
  change (isMaskedWrite (set_data _ p)) with (isMaskedWrite p). rewrite Hm. done.
Qed.

Lemma writeback_ok r b d x c : conf_ok c → exists_at r c → blk_at r c = Ok b → data_at r c = Ok d →
  isValid b = true → isWritable b = true → isSecure b = sec → isDirty b || writebackClean (conf c) = true →
  length d = N → regenerateBlkAddr r c = Ok x → x mod n = 0 → is_u64 x →
  ∃ q, writebackBlk r c = Ok (q, patch r (handed b) d (clock c) c) ∧ is_writeback n sec maxreq q x d ∧
    cmd (pkt q) = if isDirty b then WritebackDirty else WritebackClean.
Proof.
  intros Hc He Hb Hd Hv Hw Hs Hdirty Hl Hx Hmod Hx64. unfold writebackBlk.
  rewrite Hb. cbn [mbind res_bind]. rewrite (cf_write _ Hc). cbn [negb orb assertb mbind res_bind].
  rewrite Hv, Hdirty. cbn [andb assertb mbind res_bind]. rewrite Hx. cbn [mbind res_bind].
  rewrite (hand_over_ok r b d); try done; try (by apply Hc); try (by destruct (isDirty b)).
  cbn [mbind res_bind]. eexists. split; [done|]. split; [|done].
  split; cbn; try done; try apply Hc.
  - destruct (isDirty b); auto.
  - rewrite Hs. by destruct sec.
  - unfold wb_request. rewrite Hs. by destruct sec.
  - split; [done|lia].
  - rewrite Hs. by destruct sec.
  - unfold wb_request. rewrite Hs. by destruct sec.
Qed.

(** ** Evicting a block *)
Lemma exists_entry t c f h m ex x e : local t c f h m ex → m !! (x, sec) = Some e → exists_at (InTags e) c.
Proof.
  intros Hl Hx. destruct (present _ _ _ _ _ _ _ _ _ Hl Hx) as (b & Hb & _ & _ & _ & _ & _ & _ & d & Hd & _).
  split; by eapply lookup_lt_Some.
Qed.

Lemma invalidate_ok w t c f h h' m e x b b1 k d :
  local t c f h m None → m !! (x, sec) = Some e → Tags.blks (tags c) !! e = Some b →
  Tags.same_tag b b1 → tickInserted b1 = tickInserted b → d = load f x N → k = clock c →
  (∀ y, x ≤ y < x + n → f y = h' y) → (∀ y, ¬ (x ≤ y < x + n) → h' y = h y) →
  ∃ t', invalidateBlock w (InTags e) (patch (InTags e) b1 d k c) = Ok (set_tags t' c) ∧
    local t (set_tags t' c) f h' (Tags.without e m) None ∧
    Tags.indexing t' = Tags.indexing (tags c) ∧
    Tags.blks t' = <[e := invalidate b1]> (Tags.blks (tags c)).
Proof.
  intros Hl Hx Hb Htag Hti -> -> Hin Hout.
  destruct (present _ _ _ _ _ _ _ _ _ Hl Hx) as (b0 & Hb0 & Hv & _).
  assert (b0 = b) as -> by congruence. destruct (exists_entry _ _ _ _ _ _ _ _ Hl Hx) as [He He'].
  destruct (lo_blk _ _ _ _ _ _ Hl x e b Hx) as (_ & Hd & _); [done|done|].
  unfold invalidateBlock, patch. cbn [tags set_clock put_data put_blk set_tags].
  assert (Hinv : Tags.inv (Tags.set_dataBlks (<[e := load f x N]> (Tags.dataBlks (tags c)))
    (Tags.put_blk e b1 (tags c))) m).
  { eapply Tags.inv_frame; [..|by eapply (Tags.put_blk_inv (tags c) m e b b1); [apply Hl|..]]; try done.
    - cbn. by rewrite length_insert.
    - split; [|done]. apply (lo_tags _ _ _ _ _ _ Hl). }
  destruct (Tags.invalidateBlk_spec w _ m e b1 Hinv) as (t' & Ht' & Hinv' & Hcfg & Hix & Hdata & Hblks).
  { cbn. by rewrite list_lookup_insert_eq. }
  { destruct Htag as (_ & -> & _). done. }
  cbn in Ht', Hblks. rewrite list_insert_insert_eq in Hblks.
  cbn in Hdata. rewrite (list_insert_id (Tags.dataBlks (tags c))) in Hdata by done.
  cbn. rewrite Ht'. cbn [mbind res_bind]. exists t'. split; [by destruct c|].
  split; [|done]. eapply (local_drop t c f h h' m e x (invalidate b1) t'); try done.
  cbn. rewrite Hti. by eapply (lo_inserted _ _ _ _ _ _ Hl).
Qed.

Lemma same_tag_handed b : isValid b = true → Tags.same_tag b (handed b).
Proof. intros Hv. destruct (handed_spec b) as [H1 H2]. unfold Tags.same_tag. rewrite H1, H2. split_and!; try done. congruence. Qed.

Lemma evict_ok w c ws f h m x e : time_ok w → core (curTick w) c ws f h m None → m !! (x, sec) = Some e →
  ∃ o t' h' b', evictBlock w (InTags e) c = Ok (o, set_tags t' c) ∧
    core (curTick w) (set_tags t' c) (ws ++ option_list o) f h' (Tags.without e m) None ∧
    Tags.indexing t' = Tags.indexing (tags c) ∧ Tags.blks t' !! e = Some b' ∧ isValid b' = false.
Proof.
  intros Hw [Hl (g & Hg & Hlands)] Hx. set (t := curTick w) in *.
  destruct (present _ _ _ _ _ _ _ _ _ Hl Hx) as (b & Hb & Hv & Hs & _ & Hmod & Hx64 & Hre & _).
  destruct (lo_blk _ _ _ _ _ _ Hl x e b Hx) as ((_ & Hwb & _) & Hd & Hclean); [done|done|].
  pose proof (exists_entry _ _ _ _ _ _ _ _ Hl Hx) as He. pose proof (lo_conf _ _ _ _ _ _ Hl) as Hc.
  destruct (lo_key _ _ _ _ _ _ Hl _ _ _ Hx) as [_ Hblk].
  assert (Hba : blk_at (InTags e) c = Ok b) by (unfold blk_at, Tags.get_blk, RpBase.get; by rewrite Hb).
  assert (Hda : data_at (InTags e) c = Ok (load f x N)) by (unfold data_at, RpBase.get; by rewrite Hd).
  assert (Hlen : (e < length (Tags.blks (tags c)))%nat) by apply He.
  assert (Hsame : ∀ y, x ≤ y < x + n → load f x N = load h x N → f y = h y).
  { intros y Hy Heq. eapply load_same; [exact Heq|lia]. }
  assert (Hstore : ∀ y, x ≤ y < x + n → f y = store h x (load f x N) (λ _, true) y).
  { intros y Hy. unfold store. rewrite byte_at_lookup, load_length.
    replace ((x <=? y) && (y <? x + Z.of_nat N)) with true by (symmetry; zcmp).
    rewrite load_lookup by lia. f_equal. lia. }
  unfold evictBlock. rewrite Hba. cbn [mbind res_bind].
  destruct (isDirty b || writebackClean (conf c)) eqn:Hor.
  - destruct (writeback_ok (InTags e) b (load f x N) x c) as (q & -> & Hq & Hcmd); try done.
    { apply load_length. }
    cbn [mbind res_bind].
    set (h' := wb_effect q x (load f x N) h).
    destruct (invalidate_ok w t c f h h' m e x b (handed b) (clock c) (load f x N)) as (t' & -> & Hl' & Hix & Hbs);
      try done.
    { by apply same_tag_handed. }
    { intros y Hy. unfold h', wb_effect. rewrite Hcmd. destruct (isDirty b) eqn:Hdb; cbn.
      - rewrite bool_decide_true by done. by apply Hstore.
      - rewrite bool_decide_false by done. apply Hsame; auto. }
    { intros y Hy. unfold h', wb_effect. case_bool_decide; [|done]. apply store_outside.
      rewrite load_length. pose proof (cf_pos _ Hc). lia. }
    cbn [mbind res_bind option_list]. exists (Some q), t', h', (invalidate (handed b)). split; [done|].
    split; [|split; [done|split; [by rewrite Hbs, list_lookup_insert_eq|done]]].
    split; [done|]. exists g. split; [done|]. cbn [below set_tags]. eapply lands_snoc; try done.
    rewrite Hcmd. destruct (isDirty b) eqn:Hdb; [done|]. auto.
  - apply orb_false_iff in Hor as [Hdb _]. cbn [mbind res_bind].
    destruct (invalidate_ok w t c f h h m e x b b (clock c) (load f x N)) as (t' & Hinv & Hl' & Hix & Hbs); try done.
    { unfold Tags.same_tag. split_and!; try done. congruence. }
    { intros y Hy. apply Hsame; auto. }
    rewrite patch_id in Hinv by done. rewrite Hinv. cbn [mbind res_bind].
    exists None, t', h, (invalidate b). split; [done|]. cbn [option_list]. rewrite app_nil_r.
    split; [|split; [done|split; [by rewrite Hbs, list_lookup_insert_eq|done]]].
    split; [done|]. by exists g.
Qed.

(** ** Allocating a block *)
Lemma core_tags t c ws f h m p : core t c ws f h m None → Tags.inv (Tags.set_repl p (tags c)) m →
  core t (set_tags (Tags.set_repl p (tags c)) c) ws f h m None.
Proof.
  intros [Hl Hm] Hinv. split; [|done]. destruct Hl. split; try done. by eapply conf_tags; [..|done].
Qed.

(** A block that has just been inserted. *)
Definition fresh (t : Z) (b : CacheBlk) : Prop :=
  isValid b = true ∧ isSecure b = sec ∧ isDirty b = false ∧ tickInserted b = t.

Lemma insert_fresh now tg src task b b' : insert now tg sec src task b = Ok b' → fresh now b'.
Proof.
  intros H. destruct (blk_insert_spec _ _ _ _ _ _ _ H) as (_ & Hv & Hs & _ & _ & _ & Hd & _).
  split; [done|]. split; [done|]. split; [done|].
  unfold insert, setValid in H. inv_ok. by destruct sec.
Qed.

Lemma evictions_ok w c ws f h m v b : time_ok w → core (curTick w) c ws f h m None →
  Tags.blks (tags c) !! v = Some b →
  ∃ wbs t' h' m' b', handleEvictions w v c = Ok (wbs, set_tags t' c) ∧
    core (curTick w) (set_tags t' c) (ws ++ wbs) f h' m' None ∧
    Tags.indexing t' = Tags.indexing (tags c) ∧ Tags.blks t' !! v = Some b' ∧ isValid b' = false ∧
    (∀ k, m !! k = None → m' !! k = None).
Proof.
  intros Hw Hc Hb. unfold handleEvictions, blk_at, Tags.get_blk, RpBase.get. rewrite Hb. cbn [mbind res_bind].
  destruct (isValid b) eqn:Hv.
  - pose proof (proj1 Hc) as Hl. destruct (lo_tags _ _ _ _ _ _ Hl) as [_ Hho].
    destruct (Tags.ho_complete _ _ Hho _ _ Hb Hv) as [x Hx].
    destruct (lo_key _ _ _ _ _ _ Hl _ _ _ Hx) as [Hs _]. rewrite Hs in Hx.
    destruct (evict_ok w c ws f h m x v Hw Hc Hx) as (o & t' & h' & b' & -> & Hc' & Hix & Hb' & Hv').
    cbn [mbind res_bind]. exists (option_list o), t', h', (Tags.without v m), b'. split_and!; try done.
    intros k Hk. destruct (Tags.without v m !! k) eqn:E; [|done]. apply Tags.without_Some in E as [E _]. congruence.
  - exists [], (tags c), h, m, b. rewrite app_nil_r. destruct c. by split_and!.
Qed.

Lemma allocate_ok w q c ws f h m x : time_ok w → core (curTick w) c ws f h m None →
  is_u64 (addr (pkt q)) → x = ba (addr (pkt q)) → secure (pkt q) = sec → requestorId q < maxreq →
  ms_block (below c) x → m !! (x, sec) = None →
  ∃ e wbs t' h' m' b, allocateBlock w q c = Ok (e, wbs, set_tags t' c) ∧
    core (curTick w) (set_tags t' c) (ws ++ wbs) f h' m' (Some e) ∧
    m' !! (x, sec) = Some e ∧ Tags.blks t' !! e = Some b ∧ fresh (curTick w) b.
Proof.
  intros Hw Hc Ha Hx Hs Hr Hblk Hm. pose proof (proj1 Hc) as Hl.
  pose proof (lo_conf _ _ _ _ _ _ Hl) as Hcf. unfold allocateBlock.
  destruct (Tags.findVictim_spec w (tags c) m (addr (pkt q)) (proj1 Hw) (lo_tags _ _ _ _ _ _ Hl) Ha)
    as (v & p & -> & Hcand & Hlt & Hinv).
  cbn [mbind res_bind]. pose proof (core_tags _ _ _ _ _ _ p Hc Hinv) as Hc1.
  destruct (lookup_lt_is_Some_2 _ _ Hlt) as [b Hb].
  destruct (evictions_ok w _ ws f h m v b Hw Hc1 Hb) as (wbs & t' & h' & m' & b' & -> & Hc2 & Hix & Hb' & Hv' & Hsub).
  cbn [mbind res_bind]. cbn [tags set_tags] in Hix.
  pose proof (proj1 Hc2) as Hl2. pose proof (lo_conf _ _ _ _ _ _ Hl2) as Hcf2.
  pose proof (block_policy _ (addr (pkt q)) Hcf2) as Hba. cbn [tags set_tags] in Hba.
  destruct (Tags.insertBlock_spec w t' m' (pkt q) (requestorId q) (taskId q) v b')
    as (t2 & b2 & Ht2 & Hinv2 & Hcfg2 & Hix2 & Hd2 & Hb2 & Hins); try done.
  - apply Hl2.
  - pose proof (cf_tag_requestors _ Hcf2) as Hq. cbn [tags set_tags] in Hq. lia.
  - destruct Hcand as (es & Hes & Hin). exists es. by rewrite Hix.
  - rewrite Hba, <-Hx, Hs. by apply Hsub.
  - cbn [tags set_tags]. rewrite Ht2. cbn [mbind res_bind].
    rewrite Hba, <-Hx, Hs in Hinv2.
    exists v, wbs, t2, h', (<[(x, sec) := v]> m'), b2. split; [done|].
    rewrite Hs in Hins. pose proof (insert_fresh _ _ _ _ _ _ Hins) as Hfr.
    assert (Hlen : (v < length (Tags.blks t'))%nat) by (by eapply lookup_lt_Some).
    split; [|split; [by rewrite lookup_insert_eq|split; [by rewrite Hb2, list_lookup_insert_eq|done]]].
    destruct Hc2 as [_ Hmem]. split; [|exact Hmem].
    change (set_tags t2 c) with (set_tags t2 (set_tags t' (set_tags (Tags.set_repl p (tags c)) c))).
    eapply local_alloc; try done; [by apply Hsub|]. destruct Hfr as (_ & _ & _ & ->). lia.
Qed.

(** ** Filling a block *)
Lemma ready_ok w r b d k c delay : conf_ok c → time_ok w → exists_at r c →
  in_step (clockPeriod (conf c)) (curTick w) k → tickInserted b ≤ curTick w → 0 ≤ delay ≤ 2 ^ 62 →
  ∃ tk k', set_ready w r delay (patch r b d k c) = Ok (patch r (with_ready tk b) d k' c) ∧
    tk ≠ MaxTick ∧ in_step (clockPeriod (conf c)) (curTick w) k'.
Proof.
  intros Hc [_ Ht] He Hk Hi Hd. unfold set_ready. rewrite patch_conf.
  change (clock (patch r b d k c)) with k. pose proof (cf_period _ Hc) as Hp.
  rewrite clockEdge_spec by (done || lia). pose proof (edge_bounds (clockPeriod (conf c)) (curTick w)
    (fillLatency (conf c)) Hp ltac:(lia)) as Hed.
  set (k' := update _ _ _). assert (Hset : set_clock k' (patch r b d k c) = patch r b d k' c) by (by destruct r).
  rewrite Hset, patch_blk by done. cbn [mbind res_bind]. unfold setWhenReady.
  pose proof (cf_fill _ Hc). pose proof (cf_fill_max _ Hc).
  rewrite (proj2 (Z.leb_le _ _)) by lia. cbn [assertb mbind res_bind]. rewrite patch_put_blk.
  eexists _, _. split; [done|]. split; [unfold MaxTick; lia|]. apply update_in_step; (done || lia).
Qed.

(** The answer to a block read. *)
Record line_read (f : Z → Z) (x : Z) (q : CPkt) : Prop := {
  lr_cmd : cmd (pkt q) = ReadResp;
  lr_addr : addr (pkt q) = x;
  lr_size : size (pkt q) = n;
  lr_data : data (pkt q) = Some (load f x N);
  lr_secure : secure (pkt q) = sec;
  lr_flags : flags (pkt q) = 0;
  lr_delays : delays_ok q }.

Lemma fetch_answer f x q q' : is_fetch n sec maxreq q x → pkt q' = answer (pkt q) (Some (load f x N)) None →
  delays_ok q' → line_read f x q'.
Proof.
  intros [Hcmd Ha Hs _ Hsec Hfl _ _ _ _ _] Hq Hd. unfold answer, ignored, cacheResponding in Hq.
  rewrite Hcmd, Hfl in Hq. cbn in Hq.
  split; rewrite ?Hq; cbn; done.
Qed.

Lemma first_or_status r bits b d c : exists_at r c → blk_at r c = Ok b → data_at r c = Ok d →
  or_status r bits c = Ok (patch r (set_status (Z.lor (status b) bits) b) d (clock c) c).
Proof. intros He Hb Hd. rewrite <-(patch_id r b d c) at 1 by done. by apply patch_or_status. Qed.

Lemma fill_ok w q r b d0 x f c : conf_ok c → time_ok w → exists_at r c →
  in_step (clockPeriod (conf c)) (curTick w) (clock c) → blk_at r c = Ok b → data_at r c = Ok d0 →
  length d0 = N → isValid b = true → isSecure b = sec → tickInserted b ≤ curTick w →
  regenerateBlkAddr r c = Ok x → x mod n = 0 → line_read f x q →
  ∃ tk k', fill_block w q r c = Ok (patch r (with_ready tk (opened b)) (load f x N) k' c) ∧
    tk ≠ MaxTick ∧ in_step (clockPeriod (conf c)) (curTick w) k'.
Proof.
  intros Hc Hw He Hk Hb Hd Hlen Hv Hs Hi Hre Hmod [Hcmd Ha Hsz Hda Hsec Hfl [Hd1 Hd2]].
  unfold fill_block. rewrite Hb. cbn [mbind res_bind]. rewrite Hv, Hs, Hsec, eqb_reflx.
  cbn [assertb mbind res_bind]. rewrite Hre. cbn [mbind res_bind]. rewrite Ha, Z.eqb_refl.
  cbn [assertb mbind res_bind]. rewrite (first_or_status r BlkReadable b d0) by done.
  cbn [mbind res_bind]. rewrite Hcmd.
  unfold SF.hasSharers, cacheResponding. rewrite Hfl.
  change (isSet 0 HAS_SHARERS) with false. change (isSet 0 CACHE_RESPONDING) with false.
  rewrite bool_decide_false by done. cbn [negb orb assertb mbind res_bind].
  rewrite patch_or_status by done. cbn [mbind res_bind].
  change (isRead ReadResp) with true. change (hasData ReadResp) with true. cbn [assertb mbind res_bind].
  rewrite patch_conf, (cf_size _ Hc), Hsz, Z.eqb_refl. cbn [assertb mbind res_bind].
  rewrite patch_data by done. cbn [mbind res_bind].
  unfold writeDataToBlock, writeData, getConstPtr, isMaskedWrite. rewrite Hda, Hcmd.
  rewrite bool_decide_false by done. cbn [andb negb mbind res_bind].
  rewrite (offset_mod c), Ha, Hmod by done. change (Z.to_nat 0) with 0%nat. unfold splice.
  cbn [take app Nat.add]. rewrite load_length, drop_ge, app_nil_r by lia. rewrite patch_put_data.
  change (set_status (Z.lor (status (set_status (Z.lor (status b) BlkReadable) b)) BlkWritable)
    (set_status (Z.lor (status b) BlkReadable) b)) with (opened b).
  apply ready_ok; try done. lia.
Qed.
End Steps.
End Steps.
