(* ===== verification/CacheRun.v ===== *)
(** * Requests in the non-coherent cache

    Hits, misses and the lines that arrive from the caches above: each handler
    returns, answers as the flat memory does, and keeps the cache in step
    with the bytes its clients see. *)

From S2P Require Import Prelude.
From S2P Require Import Intmath.
From S2P Require Import Clocked.
From S2P Require Import MemCmd.
From S2P Require Import Packet.
From S2P Require Import AbstractMem.
From S2P Require Import SnoopFilter.
From S2P Require Import RpBase.
From S2P Require Import CacheIndex.
From S2P Require Import Replacement.
From S2P Require Import CacheBlk.
From S2P Require Import CacheTags.
From S2P Require Import NoncoherentCache.
From S2P Require Import CacheFlat.
From S2P Require Import CacheCore.
From S2P Require Import CacheSteps.

Module CRun.
Import MemCmd Pkt AbsMem RpBase Idx Rp Blk Clk NC Flat Core Steps.

(** A whole block that a cache above hands down. *)
Record line_ok (n x : Z) (p : Packet) (d : list Z) : Prop := {
  ln_cmd : cmd p ∈ lines;
  ln_addr : addr p = x;
  ln_align : x mod n = 0;
  ln_size : size p = n;
  ln_data : data p = Some d;
  ln_length : length d = Z.to_nat n;
  ln_through : writeThrough p = false }.

(** What every request to the cache has in common. *)
Record client_ok (n : Z) (sec : bool) (maxreq : Z) (q : CPkt) (x : Z) : Prop := {
  cl_addr : is_u64 (addr (pkt q));
  cl_block : x = addr (pkt q) - addr (pkt q) mod n;
  cl_secure : secure (pkt q) = sec;
  cl_quiet : cacheResponding (pkt q) = false;
  cl_plain : SF.req_isCacheMaintenance (req (pkt q)) = false;
  cl_paddr : is_u64 (req_paddr (req (pkt q))) ∧ req_paddr (req (pkt q)) - req_paddr (req (pkt q)) mod n = x;
  cl_space : isSet (req_flags (req (pkt q))) SECURE = sec;
  cl_requestor : requestorId q < maxreq;
  cl_delays : delays_ok q }.

(** The commands, by what the cache does with them. *)
Ltac each_cmd H := repeat (apply elem_of_cons in H as [H|H]; [rewrite H in *; cbn in *|]); [..|by apply elem_of_nil in H].

Lemma access_cmd k : k ∈ accesses →
  isRequest k = true ∧ isRead k || isWrite k = true ∧ isWriteback k = false ∧ k ≠ CleanEvict ∧ k ≠ WriteClean ∧
  needsResponse k = true ∧ isClean k = false ∧ needsResponse (responseCommand k) = false ∧
  isClean (responseCommand k) = false ∧ k ≠ UpgradeResp ∧ k ≠ WritebackClean.
Proof. intros H. each_cmd H; split_and!; done. Qed.

Lemma line_cmd k : k ∈ lines →
  isRequest k = true ∧ isWrite k = true ∧ isRead k = false ∧ isLLSC k = false ∧ needsResponse k = false ∧
  isClean k = false ∧ k ≠ SwapReq ∧ k ≠ CleanEvict ∧ k ≠ WriteReq ∧
  (isWriteback k = true ∧ k ≠ WriteClean ∨ isWriteback k = false ∧ k = WriteClean).
Proof. intros H. each_cmd H; split_and!; try done; auto. Qed.

Section Run.
Context {I P M : Type} `{ixI : Indexing I} `{!IndexingOk I} `{rpP : ReplacementPolicy P} `{!PolicyOk P}.
Context `{msM : MemSide M} {n : Z} {sec : bool} {maxreq : Z} `{msO : !MemSideOk M n sec maxreq}.
Implicit Types c : cache I P M.
Implicit Types m : gmap (Z * bool) nat.

Local Notation N := (Z.to_nat n).
Local Notation ba y := (y - y mod n).
Local Notation conf_ok := (conf_ok (n:=n) (maxreq:=maxreq)).
Local Notation local := (local (n:=n) (sec:=sec) (maxreq:=maxreq)).
Local Notation core := (core (n:=n) (sec:=sec) (maxreq:=maxreq)).
Local Notation client_ok := (client_ok n sec maxreq).

(** ** Lookup *)
Lemma lookup_ok w c ws f h m q x : core (curTick w) c ws f h m None → client_ok q x →
  ∃ t', Tags.accessBlock w (addr (pkt q)) (secure (pkt q)) (tags c) =
      Ok (m !! (x, sec), Tags.lookupLatency (Tags.cfg (tags c)), t') ∧
    core (curTick w) (set_tags t' c) ws f h m None ∧ Tags.cfg t' = Tags.cfg (tags c).
Proof.
  intros [Hl Hm] Hq. pose proof (lo_conf _ _ _ _ _ _ Hl) as Hc.
  destruct (Tags.accessBlock_spec w (tags c) m (addr (pkt q)) (secure (pkt q)) (lo_tags _ _ _ _ _ _ Hl))
    as (t' & Ht' & Hinv & Hcfg & Hix & Hd & Hlen & Hb); [apply Hq|].
  rewrite block_policy, <-(cl_block _ _ _ _ _ Hq), (cl_secure _ _ _ _ _ Hq) in Ht' by done.
  rewrite (cl_secure _ _ _ _ _ Hq). exists t'. split; [done|]. split; [|done]. split; [|done].
  assert (Hback : ∀ e b', Tags.blks t' !! e = Some b' →
    ∃ b k, Tags.blks (tags c) !! e = Some b ∧ b' = set_refCount k b).
  { intros e b' Hb'. destruct (lookup_lt_is_Some_2 (Tags.blks (tags c)) e) as [b Hb0].
    { rewrite <-Hlen. by eapply lookup_lt_Some. }
    destruct (Hb e b Hb0) as [k Hk]. exists b, k. split; [done|congruence]. }
  split.
  - by eapply conf_tags; [..|done].
  - apply Hl.
  - done.
  - apply Hl.
  - intros x' e b' Hx' Hne Hb'. cbn [tags set_tags] in *. destruct (Hback e b' Hb') as (b & k & Hb0 & ->).
    rewrite Hd. by apply (lo_blk _ _ _ _ _ _ Hl x' e b).
  - intros e b' Hb'. destruct (Hback e b' Hb') as (b & k & Hb0 & ->). by apply (lo_inserted _ _ _ _ _ _ Hl e b).
  - cbn. rewrite Hd. apply Hl.
  - apply Hl.
Qed.

(** ** Satisfying a request *)
Lemma patch_clock r b d c : put_data r d (put_blk r b c) = patch r b d (clock c) c.
Proof. unfold patch. by destruct r, c. Qed.

Lemma satisfyRequest_ok w q r b f x d c : conf_ok c → exists_at r c → blk_at r c = Ok b →
  data_at r c = Ok (load f x N) → isValid b = true → isWritable b = true → request_ok n x (pkt q) d →
  ∃ ok b', let '(f', read) := flat_step f (pkt q) d ok in
    satisfyRequest w q (Some r) c =
      Ok (with_pkt (returned (pkt q) read (sc_outcome (pkt q) ok)) q, patch r b' (load f' x N) (clock c) c) ∧
    kept b b' ∧ (isDirty b' = false → ∀ y, f' y = f y) ∧ (isWrite (cmd (pkt q)) = false → isDirty b' = isDirty b).
Proof.
  intros Hc He Hb Hd Hv Hw Hq. pose proof (cf_pos _ Hc) as Hn.
  destruct (satisfy_ok n x f (pkt q) d Hn (offset_mod c (pkt q) Hc) Hq b Hw) as (ok & b' & Hs).
  exists ok, b'. unfold satisfied in Hs. destruct (flat_step f (pkt q) d ok) as [f' read].
  destruct Hs as (Hs & Hk & Hdirty). split; [|done].
  destruct (access_cmd (cmd (pkt q)) (rq_cmd _ _ _ _ Hq)) as (Hreq & Hrw & _).
  unfold satisfyRequest, base_satisfyRequest. rewrite Hrw, Hreq. cbn [assertb mbind res_bind].
  rewrite Hb. cbn [mbind res_bind]. rewrite Hv. cbn [assertb mbind res_bind].
  rewrite (cf_size _ Hc), (offset_mod c) by done. destruct (rq_size _ _ _ _ Hq).
  rewrite (proj2 (Z.leb_le _ _)) by lia. cbn [assertb mbind res_bind]. cbn [orb].
  rewrite Hd. cbn [mbind res_bind]. rewrite Hs. cbn [mbind res_bind]. by rewrite patch_clock.
Qed.

Lemma kept_same_tag b b' : isValid b = true → kept b b' → Tags.same_tag b b'.
Proof.
  intros Hv Hk. unfold Tags.same_tag. rewrite (kp_tag _ _ Hk), (kp_valid _ _ Hk), (kp_secure _ _ Hk).
  destruct (kp_pos _ _ Hk) as [-> ->]. split_and!; try done. congruence.
Qed.

(** What a request leaves alone while it looks for its block. *)
Record frame c c' : Prop := {
  fr_conf : conf c' = conf c;
  fr_temp : tempBlock c' = tempBlock c;
  fr_addr : temp_addr c' = temp_addr c;
  fr_data : temp_data c' = temp_data c;
  fr_pending : tempBlockWriteback c' = tempBlockWriteback c;
  fr_event : wb_event c' = wb_event c;
  fr_blocks : ∀ y, ms_block (below c) y → ms_block (below c') y }.

Lemma frame_refl c : frame c c.
Proof. by split. Qed.
Lemma frame_trans c1 c2 c3 : frame c1 c2 → frame c2 c3 → frame c1 c3.
Proof. intros [] []. split; try congruence. auto. Qed.

(** The block of a request that hits. *)
Lemma hit_block t c f h m x e : local t c f h m None → m !! (x, sec) = Some e →
  ∃ b, blk_at (InTags e) c = Ok b ∧ data_at (InTags e) c = Ok (load f x N) ∧
    Tags.blks (tags c) !! e = Some b ∧ isValid b = true ∧ blk_ok b ∧
    (isDirty b = false → load f x N = load h x N) ∧ tickInserted b ≤ t ∧ exists_at (InTags e) c.
Proof.
  intros Hl Hx. destruct (present _ _ _ _ _ _ _ _ _ Hl Hx) as (b & Hb & Hv & _).
  destruct (lo_blk _ _ _ _ _ _ Hl x e b Hx) as (Hok & Hd & Hcl); [done|done|].
  exists b. unfold blk_at, data_at, Tags.get_blk, RpBase.get. rewrite Hb, Hd. split_and!; try done; try apply Hok.
  - by eapply (lo_inserted _ _ _ _ _ _ Hl).
  - by eapply exists_entry.
Qed.

Lemma hit_ok w c ws f h m q x e d : core (curTick w) c ws f h m None → m !! (x, sec) = Some e →
  request_ok n x (pkt q) d →
  ∃ ok c', let '(f', read) := flat_step f (pkt q) d ok in
    satisfyRequest w q (Some (InTags e)) c = Ok (with_pkt (returned (pkt q) read (sc_outcome (pkt q) ok)) q, c') ∧
    core (curTick w) c' ws f' h m None ∧ frame c c'.
Proof.
  intros [Hl Hm] Hx Hq. destruct (hit_block _ _ _ _ _ _ _ Hl Hx) as (b & Hba & Hda & Hb & Hv & Hok & Hcl & Hti & He).
  pose proof (lo_conf _ _ _ _ _ _ Hl) as Hc.
  destruct (satisfyRequest_ok w q (InTags e) b f x d c Hc He Hba Hda Hv (proj1 (proj2 Hok)) Hq) as (ok & b' & Hs).
  pose proof (flat_outside n x f (pkt q) d (cf_pos _ Hc) Hq ok) as Hout.
  exists ok, (patch (InTags e) b' (load (flat_step f (pkt q) d ok).1 x N) (clock c) c).
  destruct (flat_step f (pkt q) d ok) as [f' read]. cbn [fst] in *. destruct Hs as (Hs & Hk & Hd' & _).
  split; [done|]. split; [|by split]. split; [|done].
  eapply (local_update _ c f f' h m None e x b b'); try done.
  - by left.
  - by apply kept_same_tag.
  - destruct Hok as (H1 & H2 & H3). unfold blk_ok. by rewrite (kp_readable _ _ Hk), (kp_writable _ _ Hk), (kp_ready _ _ Hk).
  - by rewrite (kp_inserted _ _ Hk).
  - apply Hl.
  - intros Hdb. rewrite (load_ext f' f) by (intros; by apply Hd'). apply Hcl. by apply (kp_dirty _ _ Hk).
Qed.

Lemma clusivity_ok w fc c ws f h m x e : core (curTick w) c ws f h m None → m !! (x, sec) = Some e →
  ∃ t' m', maintainClusivity w fc (Some (InTags e)) c = Ok (set_tags t' c) ∧
    core (curTick w) (set_tags t' c) ws f h m' None ∧ ∃ b, blk_at (InTags e) (set_tags t' c) = Ok b.
Proof.
  intros [Hl Hm] Hx. destruct (hit_block _ _ _ _ _ _ _ Hl Hx) as (b & Hba & Hda & Hb & Hv & Hok & Hcl & Hti & He).
  assert (Hsame : ∃ t' m', Ok c = Ok (set_tags t' c) ∧ core (curTick w) (set_tags t' c) ws f h m' None ∧
    ∃ b, blk_at (InTags e) (set_tags t' c) = Ok b).
  { exists (tags c), m. destruct c. split_and!; [done..|by exists b]. }
  unfold maintainClusivity. destruct fc; [|done]. rewrite Hba. cbn [mbind res_bind].
  destruct (isValid b && negb (isDirty b) && _) eqn:E; [|done]. bool_to_prop.
  destruct (invalidate_ok w (curTick w) c f h h m e x b b (clock c) (load f x N)) as (t' & Hi & Hl' & _ & Hbs); try done.
  { unfold Tags.same_tag. split_and!; try done. congruence. }
  { intros y Hy. eapply load_same; [by apply Hcl|lia]. }
  rewrite patch_id in Hi by done. exists t', (Tags.without e m). split; [done|]. split; [by split|].
  eexists. unfold blk_at, Tags.get_blk, RpBase.get. cbn [tags set_tags]. rewrite Hbs, list_lookup_insert_eq by apply He. done.
Qed.

(** ** Access *)

(** A request is satisfied here... *)
Definition served (w : env) (q : CPkt) (d : list Z) (lat : Z) c (f h : Z → Z) : Prop :=
  ∃ ok o lat' c' m', let '(f', read) := flat_step f (pkt q) d ok in
    access w q lat c = Ok (true, o, lat', [], with_pkt (returned (pkt q) read (sc_outcome (pkt q) ok)) q, c') ∧
    core (curTick w) c' [] f' h m' None ∧ frame c c' ∧ ∀ e, o = Some e → ∃ b, blk_at (InTags e) c' = Ok b.
(** ... or its block is missing. *)
Definition missed (w : env) (q : CPkt) (x lat : Z) c (f h : Z → Z) : Prop :=
  ∃ lat' c' m', access w q lat c = Ok (false, None, lat', [], q, c') ∧
    core (curTick w) c' [] f h m' None ∧ m' !! (x, sec) = None ∧ frame c c'.

Lemma core_missCount t c ws f h m ex k : core t c ws f h m ex → core t (set_missCount k c) ws f h m ex.
Proof. intros [[] Hm]. split; [|done]. split; try done. by eapply conf_tags; [..|done]. Qed.

Lemma latency_ok w e b delay lat c : blk_at (InTags e) c = Ok b → whenReady b ≠ MaxTick →
  ∃ l, calculateAccessLatency w (Some (InTags e)) delay lat c = Ok l.
Proof.
  intros Hb Hr. unfold calculateAccessLatency. rewrite Hb. cbn [mbind res_bind]. unfold getWhenReady.
  rewrite (proj2 (Z.eqb_neq _ _) Hr). cbn [negb assertb mbind res_bind]. eauto.
Qed.

Lemma access_ok w q x d lat c f h m : core (curTick w) c [] f h m None → client_ok q x →
  request_ok n x (pkt q) d → served w q d lat c f h ∨ missed w q x lat c f h.
Proof.
  intros Hcore Hq Hp. pose proof (lo_conf _ _ _ _ _ _ (proj1 Hcore)) as Hc.
  destruct (access_cmd _ (rq_cmd _ _ _ _ Hp)) as (Hreq & Hrw & Hwb & Hce & Hwc & _).
  destruct (lookup_ok w c [] f h m q x Hcore Hq) as (t' & Ht' & Hcore' & _).
  unfold served, missed, access, base_access. rewrite Hreq, (cf_write _ Hc), Ht'. cbn [andb negb assertb mbind res_bind].
  rewrite (cl_plain _ _ _ _ _ Hq), Hwb, !bool_decide_false by done. cbn [mbind res_bind orb].
  set (c1 := set_tags t' c) in *. assert (Hfr1 : frame c c1) by (by split).
  pose proof (lo_conf _ _ _ _ _ _ (proj1 Hcore')) as Hc1.
  destruct (m !! (x, sec)) as [e|] eqn:Hx.
  - left. destruct (hit_block _ _ _ _ _ _ _ (proj1 Hcore') Hx) as (b & Hba & _ & Hb & Hv & (Hrd & Hwr & Hrdy) & _).
    rewrite Hba. cbn [mbind res_bind]. rewrite Hrd, Hwr.
    assert ((if needsWritable (cmd (pkt q)) then true else true) = true) as -> by (by destruct (needsWritable _)).
    unfold incHitCount. rewrite (cf_requestors _ Hc1), (proj2 (Z.ltb_lt _ _)) by apply Hq. cbn [assertb mbind res_bind].
    change (InTags <$> Some e) with (Some (InTags e)).
    destruct (latency_ok w e b (headerDelay q) (Tags.lookupLatency (Tags.cfg (tags c))) c1 Hba Hrdy) as [l Hlat].
    rewrite Hlat. destruct (hit_ok w c1 [] f h m q x e d Hcore' Hx Hp) as (ok & c2 & Hs). exists ok.
    destruct (flat_step f (pkt q) d ok) as [f' read]. destruct Hs as (Hs & Hcore2 & Hfr2).
    destruct (clusivity_ok w (fromCache (cmd (pkt q))) c2 [] f' h m x e Hcore2 Hx) as (t3 & m3 & Hcl & Hcore3 & Hb3).
    assert (frame c (set_tags t3 c2)).
    { eapply frame_trans; [exact Hfr1|]. eapply frame_trans; [exact Hfr2|by split]. }
    exists (Some e). destruct (isRead (cmd (pkt q))); cbn [mbind res_bind]; rewrite Hs; cbn [mbind res_bind];
      rewrite Hcl; eexists _, (set_tags t3 c2), m3; (split; [done|]; split_and!; try done; by intros ? [= <-]).
  - unfold incMissCount. rewrite (cf_requestors _ Hc1), (proj2 (Z.ltb_lt _ _)) by apply Hq.
    cbn [assertb mbind res_bind fmap option_fmap option_map calculateAccessLatency].
    set (c2 := if missCount c1 =? 0 then c1 else set_missCount (missCount c1 - 1) c1).
    assert (Hcore2 : core (curTick w) c2 [] f h m None).
    { unfold c2. case_match; [done|by apply core_missCount]. }
    assert (Hfr2 : frame c c2) by (unfold c2; case_match; by split).
    destruct (isLLSC (cmd (pkt q)) && isWrite (cmd (pkt q))) eqn:Hsc.
    + left. exists false, None. eexists _, c2, m. unfold flat_step, sc_outcome. rewrite Hsc.
      apply andb_true_iff in Hsc as [Hll Hw]. rewrite Hll.
      assert (cmd (pkt q) ≠ SwapReq ∧ isRead (cmd (pkt q)) = false) as [Hns Hnr].
      { pose proof (rq_cmd _ _ _ _ Hp) as Hin. clear -Hin Hll Hw. each_cmd Hin; done. }
      rewrite bool_decide_false, Hnr by done. cbn [andb negb]. split; [done|]. by split_and!.
    + right. eexists _, c2, m. by split_and!.
Qed.

(** ** Lines from above *)

(** The block [e] a line goes to, with status [b] and old data [d0]: it was
    present in [c], or has just been allocated there. *)
Record for_line (w : env) (x : Z) (e : nat) (wbs : list CPkt) c (f h : Z → Z) m (ex : option nat)
    (b0 b : CacheBlk) (d0 : list Z) : Prop := {
  fl_core : core (curTick w) c wbs f h m ex;
  fl_ex : ex = None ∨ ex = Some e;
  fl_key : m !! (x, sec) = Some e;
  fl_blk : Tags.blks (tags c) !! e = Some b0;
  fl_grown : grown b0 b;
  fl_valid : isValid b0 = true;
  fl_readable : isReadable b = true;
  fl_inserted : tickInserted b ≤ curTick w;
  fl_data : length d0 = N;
  fl_clean : isDirty b = false → load f x N = load h x N }.

Lemma line_block_ok w q x c f h m : time_ok w → core (curTick w) c [] f h m None → client_ok q x →
  ms_block (below c) x →
  ∃ e wbs c3 h3 m3 ex b0 b d0,
    line_block w q (m !! (x, sec)) c = Ok (e, wbs, patch (InTags e) b d0 (clock c3) c3) ∧
    for_line w x e wbs c3 f h3 m3 ex b0 b d0 ∧ frame c c3.
Proof.
  intros Hw Hcore Hq Hblk. destruct (m !! (x, sec)) as [e|] eqn:Hx; cbn [line_block].
  - destruct (hit_block _ _ _ _ _ _ _ (proj1 Hcore) Hx) as (b & Hba & Hda & Hb & Hv & Hok & Hcl & Hti & He).
    exists e, [], c, h, m, None, b, b, (load f x N). rewrite patch_id by done. split; [done|].
    split; [|by split]. split; try done; try (by left); try apply grown_refl; try apply Hok; apply load_length.
  - destruct (allocate_ok w q c [] f h m x Hw Hcore) as (e & wbs & t' & h' & m' & b & -> & Hcore' & Hx' & Hb & Hfr);
      try (by apply Hq); [done|done|]. cbn [mbind res_bind app] in *.
    destruct (present _ _ _ _ _ _ _ _ _ (proj1 Hcore') Hx') as (b' & Hb' & Hv & _ & _ & Hmod & _ & _ & d0 & Hd0 & Hlen).
    cbn [tags set_tags] in Hb'. assert (b' = b) as -> by congruence.
    pose proof (exists_entry _ _ _ _ _ _ _ _ (proj1 Hcore') Hx') as He.
    rewrite (first_or_status (InTags e) BlkReadable b d0); [|done|..].
    2: { unfold blk_at, Tags.get_blk, RpBase.get. cbn [tags set_tags]. by rewrite Hb. }
    2: { unfold data_at, RpBase.get. by rewrite Hd0. }
    cbn [mbind res_bind]. exists e, wbs, (set_tags t' c), h', m', (Some e), b. eexists _, d0. split; [done|].
    split; [|by split]. destruct Hfr as (_ & _ & _ & Hti).
    split; try done; try (by right); try (by apply grown_or); try (by apply made_readable); try (cbn; lia).
    intros _. apply load_ext. intros y Hy. apply (lo_out _ _ _ _ _ _ (proj1 Hcore')).
    pose proof (cf_pos _ (lo_conf _ _ _ _ _ _ (proj1 Hcore'))). rewrite (ba_unique x y) by (done || lia).
    intros e1 He1. congruence.
Qed.

(** The data of the line goes into the block. *)
Lemma receive_ok w q x d lat c e b d0 : conf_ok c → time_ok w → exists_at (InTags e) c →
  in_step (clockPeriod (conf c)) (curTick w) (clock c) → client_ok q x → line_ok n x (pkt q) d →
  tickInserted b ≤ curTick w → length d0 = N → 0 ≤ lat → clockPeriod (conf c) * lat ≤ 2 ^ 61 →
  ∃ tk k', receive_line w q e lat (patch (InTags e) b d0 (clock c) c) =
      Ok (patch (InTags e) (with_ready tk b) d k' c) ∧
    tk ≠ MaxTick ∧ in_step (clockPeriod (conf c)) (curTick w) k'.
Proof.
  intros Hc Hw He Hk Hq Hp Hti Hlen Hl0 Hl1. destruct (line_cmd _ (ln_cmd _ _ _ _ Hp)) as
    (_ & _ & _ & _ & Hnr & _ & _ & _ & Hnw & _).
  unfold receive_line. rewrite Hnr. cbn [negb assertb mbind res_bind]. rewrite patch_data by done.
  cbn [mbind res_bind]. unfold writeDataToBlock, writeData, getConstPtr, isMaskedWrite.
  rewrite (ln_data _ _ _ _ Hp), bool_decide_false by done. cbn [andb negb mbind res_bind].
  rewrite patch_conf, (cf_size _ Hc), (offset_mod c), (ln_addr _ _ _ _ Hp), (ln_align _ _ _ _ Hp) by done.
  change (Z.to_nat 0) with 0%nat. unfold splice. pose proof (ln_length _ _ _ _ Hp) as Hld.
  cbn [take app Nat.add]. rewrite drop_ge, app_nil_r, patch_put_data by lia. unfold incHitCount.
  rewrite !patch_conf, (cf_requestors _ Hc), (proj2 (Z.ltb_lt _ _)) by apply Hq. cbn [assertb mbind res_bind].
  destruct (cl_delays _ _ _ _ _ Hq). apply (ready_ok (n:=n) (maxreq:=maxreq)); try done. unfold cyclesToTicks. split; [|].
  - apply Z.add_nonneg_nonneg; lia.
  - assert (Z.max (clockPeriod (conf c) * lat) (payloadDelay q) ≤ 2 ^ 61) by lia. lia.
Qed.

(** The bytes after a line has arrived. *)
Lemma line_step f x p d ok : line_ok n x p d → 
  (flat_step f p d ok).2 = None ∧ ∀ y, (flat_step f p d ok).1 y = store f x d (λ _, true) y.
Proof.
  intros Hp. destruct (line_cmd _ (ln_cmd _ _ _ _ Hp)) as (_ & _ & Hr & Hll & _ & _ & Hsw & _ & Hw & _).
  unfold flat_step. rewrite bool_decide_false, Hr, Hll, (ln_addr _ _ _ _ Hp) by done. split; [done|].
  intros y. cbn [andb fst]. unfold store, enabled, isMaskedWrite. by rewrite bool_decide_false by done.
Qed.

Lemma store_block f x d : length d = N → load (store f x d (λ _, true)) x N = d.
Proof.
  intros Hd. apply list_eq. intros i. destruct (decide (i < N)%nat).
  - rewrite load_lookup by done. unfold store. rewrite byte_at_lookup, Hd.
    replace ((x <=? x + Z.of_nat i) && (x + Z.of_nat i <? x + Z.of_nat N)) with true by (symmetry; zcmp).
    replace (Z.to_nat (x + Z.of_nat i - x)) with i by lia.
    destruct (lookup_lt_is_Some_2 d i) as [v ->]; [lia|done].
  - rewrite !lookup_ge_None_2; [done|lia|rewrite load_length; lia].
Qed.

Lemma line_done w x e wbs c f h m ex b0 b d0 b' d k' : for_line w x e wbs c f h m ex b0 b d0 → grown b b' →
  isWritable b' = true → whenReady b' ≠ MaxTick → in_step (clockPeriod (conf c)) (curTick w) k' →
  length d = N → (isDirty b' = false → d = load f x N) →
  core (curTick w) (patch (InTags e) b' d k' c) wbs (store f x d (λ _, true)) h m None.
Proof.
  intros [[Hl Hm] Hex Hx Hb Hg Hv Hr Hti Hlen Hcl] Hg' Hwr Hrdy Hk Hd Hdirty. split; [|done].
  pose proof (cf_pos _ (lo_conf _ _ _ _ _ _ Hl)) as Hn.
  eapply (local_update _ c f _ h m ex e x b0 b'); try done.
  - apply grown_same_tag; [done|by eapply grown_trans].
  - split; [by apply (gr_readable _ _ Hg')|done].
  - by rewrite (gr_inserted _ _ Hg').
  - by rewrite store_block.
  - intros y Hy. apply store_outside. rewrite Hd. lia.
  - intros Hdb. rewrite store_block, (Hdirty Hdb) by done. apply Hcl. by apply (gr_dirty _ _ Hg').
Qed.

(** The status bits that [base_access] sets before the data arrives. *)
Definition line_bits (p : Packet) (b : CacheBlk) : CacheBlk :=
  if isWriteback (cmd p) then
    let b := if bool_decide (cmd p = WritebackDirty) then set_status (Z.lor (status b) BlkDirty) b else b in
    if SF.hasSharers p then b else set_status (Z.lor (status b) BlkWritable) b
  else set_status (Z.lor (status b) BlkDirty) b.

Lemma line_bits_ok p b : cmd p ∈ lines → grown b (line_bits p b) ∧
  (isDirty (line_bits p b) = false → cmd p = WritebackClean).
Proof.
  intros Hin. unfold line_bits.
  assert (Hw : ∀ b, grown b (set_status (Z.lor (status b) BlkWritable) b)) by (intros; by apply grown_or).
  assert (Hd : ∀ b, grown b (set_status (Z.lor (status b) BlkDirty) b)) by (intros; by apply grown_or).
  assert (Hwd : ∀ b, isDirty b = true → isDirty (set_status (Z.lor (status b) BlkWritable) b) = true).
  { intros b1 H. destruct (isDirty (set_status _ b1)) eqn:E; [done|]. apply (gr_dirty _ _ (Hw b1)) in E. congruence. }
  pose proof (grown_refl b). pose proof (dirty_dirty b) as Hdd.
  apply elem_of_cons in Hin as [Hc|[Hc|[Hc|Hc%elem_of_nil]%elem_of_cons]%elem_of_cons]; [..|done]; rewrite Hc.
  - change (isWriteback WritebackDirty) with true. rewrite bool_decide_true by done.
    destruct (SF.hasSharers p); (split; [eauto using grown_trans|]); [by rewrite Hdd|by rewrite Hwd].
  - change (isWriteback WritebackClean) with true. rewrite bool_decide_false by done.
    destruct (SF.hasSharers p); by split.
  - change (isWriteback WriteClean) with false. split; [done|by rewrite Hdd].
Qed.

Lemma writeback_status_ok p e b d k c : exists_at (InTags e) c → isWriteback (cmd p) = true →
  writeback_status p e (patch (InTags e) b d k c) = Ok (patch (InTags e) (line_bits p b) d k c).
Proof.
  intros He Hwb. unfold writeback_status, line_bits. rewrite Hwb.
  destruct (bool_decide _); [rewrite patch_or_status by done|]; cbn [mbind res_bind];
    (destruct (SF.hasSharers p); [done|]); by rewrite patch_or_status.
Qed.

Lemma access_line_ok w q x d lat c f h m : time_ok w → core (curTick w) c [] f h m None → client_ok q x →
  line_ok n x (pkt q) d → ms_block (below c) x → (cmd (pkt q) = WritebackClean → d = load f x N) →
  ∃ e lat' wbs c' h' m', access w q lat c = Ok (true, Some e, lat', wbs, q, c') ∧
    core (curTick w) c' wbs (store f x d (λ _, true)) h' m' None ∧ frame c c' ∧
    ∃ b, blk_at (InTags e) c' = Ok b.
Proof.
  intros Hw Hcore Hq Hp Hblk Hclean. pose proof (lo_conf _ _ _ _ _ _ (proj1 Hcore)) as Hc.
  destruct (line_cmd _ (ln_cmd _ _ _ _ Hp)) as (Hreq & _ & _ & _ & _ & _ & _ & Hce & _ & Hkind).
  destruct (lookup_ok w c [] f h m q x Hcore Hq) as (t' & Ht' & Hcore' & Hcfg).
  set (c1 := set_tags t' c) in *.
  destruct (line_block_ok w q x c1 f h m Hw Hcore' Hq Hblk)
    as (e & wbs & c3 & h3 & m3 & ex & b0 & b & d0 & Hlb & Hfl & Hfr3).
  pose proof (proj1 (fl_core _ _ _ _ _ _ _ _ _ _ _ _ Hfl)) as Hl3. pose proof (lo_conf _ _ _ _ _ _ Hl3) as Hc3.
  pose proof (exists_entry _ _ _ _ _ _ _ _ Hl3 (fl_key _ _ _ _ _ _ _ _ _ _ _ _ Hfl)) as He.
  destruct (line_bits_ok (pkt q) b (ln_cmd _ _ _ _ Hp)) as [Hg Hgd].
  set (b1 := line_bits (pkt q) b) in *.
  assert (Hconf3 : conf c3 = conf c) by (by rewrite (fr_conf _ _ Hfr3)).
  destruct (receive_ok w q x d (Tags.lookupLatency (Tags.cfg (tags c))) c3 e b1 d0) as (tk & k' & Hrec & Htk & Hk');
    try done.
  { apply Hl3. }
  { rewrite (gr_inserted _ _ Hg). apply Hfl. }
  { apply Hfl. }
  { apply (cf_lookup _ Hc). }
  { rewrite Hconf3. apply (cf_lookup_max _ Hc). }
  set (b2 := set_status (Z.lor (status (with_ready tk b1)) BlkWritable) (with_ready tk b1)).
  assert (Hv1 : isValid (with_ready tk b1) = true).
  { change (isValid b1 = true). rewrite (gr_valid _ _ Hg), (gr_valid _ _ (fl_grown _ _ _ _ _ _ _ _ _ _ _ _ Hfl)).
    apply Hfl. }
  assert (Hg2 : grown b b2).
  { eapply grown_trans; [exact Hg|]. eapply grown_trans; [apply (grown_ready tk)|]. by apply grown_or. }
  pose proof (line_done w x e wbs c3 f h3 m3 ex b0 b d0 b2 d k' Hfl Hg2 (made_writable _ Hv1) Htk Hk'
    (ln_length _ _ _ _ Hp)) as Hdone.
  assert (Hacc : ∃ lat', access w q lat c = Ok (true, Some e, lat', wbs, q, patch (InTags e) b2 d k' c3)).
  { unfold access, base_access. rewrite Hreq, (cf_write _ Hc), Ht'. cbn [andb negb assertb mbind res_bind].
    rewrite (cl_plain _ _ _ _ _ Hq). fold c1. rewrite (bool_decide_false (cmd (pkt q) = CleanEvict)) by done.
    change (conf c1) with (conf c).
    rewrite (cf_size _ Hc), (ln_size _ _ _ _ Hp), Z.eqb_refl.
    destruct Hkind as [[Hwb Hwc]|[Hwb Hwc]]; rewrite Hwb.
    - cbn [assertb mbind res_bind orb]. rewrite Hlb. cbn [mbind res_bind].
      rewrite writeback_status_ok by done. fold b1. cbn [mbind res_bind]. rewrite Hrec. cbn [mbind res_bind orb].
      rewrite patch_blk by done. cbn [mbind res_bind]. rewrite Hv1. cbn [assertb mbind res_bind].
      rewrite patch_or_status by done. by eexists.
    - rewrite (bool_decide_true _ Hwc). cbn [assertb mbind res_bind orb].
      rewrite (ln_through _ _ _ _ Hp). assert (match m !! (x, sec) with Some _ => false | None => false end = false)
        as -> by (by case_match).
      rewrite Hlb. cbn [mbind res_bind]. rewrite patch_or_status by done. cbn [mbind res_bind].
      assert (set_status (Z.lor (status b) BlkDirty) b = b1) as -> by (unfold b1, line_bits; by rewrite Hwb).
      rewrite Hrec. cbn [mbind res_bind negb].
      rewrite patch_blk by done. cbn [mbind res_bind]. rewrite Hv1. cbn [assertb mbind res_bind].
      rewrite patch_or_status by done. by eexists. }
  destruct Hacc as [lat' Hacc]. eexists e, lat', wbs, _, h3, m3. split; [exact Hacc|]. split_and!.
  - apply Hdone. intros Hdb. apply Hclean, Hgd. apply (gr_dirty b1 b2); [|done].
    eapply grown_trans; [apply (grown_ready tk)|]. by apply grown_or.
  - eapply frame_trans; [by eapply frame_trans; [|exact Hfr3]; split|]. by split.
  - eexists. by apply patch_blk.
Qed.
End Run.
End CRun.
