(* ===== verification/CacheAtomic.v ===== *)
(** * Atomic accesses through the non-coherent cache

    [recvAtomic] answers every request as the memory below would, and keeps
    the bytes its clients see.  A cache is therefore a memory side itself:
    caches can be put in front of each other. *)

From S2P Require Import Prelude.
From S2P Require Import Intmath.
From S2P Require Import Clocked.
From S2P Require Import MemCmd.
From S2P Require Import Packet.
From S2P Require Import AbstractMem.
From S2P Require Import SnoopFilter.
From S2P Require Import RpBase.
From S2P Require Import CacheIndex.
From S2P Require Import Replacement.
From S2P Require Import CacheBlk.
From S2P Require Import CacheTags.
From S2P Require Import NoncoherentCache.
From S2P Require Import CacheFlat.
From S2P Require Import CacheCore.
From S2P Require Import CacheSteps.
From S2P Require Import CacheRun.

Module Atomic.
Import MemCmd Pkt AbsMem RpBase Idx Rp Blk Clk NC Flat Core Steps CRun.

Section Atomic.
Context {I P M : Type} `{ixI : Indexing I} `{ixO : !IndexingOk I} `{rpP : ReplacementPolicy P} `{rpO : !PolicyOk P}.
Context `{msM : MemSide M} {n : Z} {sec : bool} {maxreq : Z} `{msO : !MemSideOk M n sec maxreq}.
Implicit Types c : cache I P M.
Implicit Types m : gmap (Z * bool) nat.

Local Notation N := (Z.to_nat n).
Local Notation pol c := (ix_policy (Tags.indexing (tags c))).
Local Notation ba y := (y - y mod n).
Local Notation conf_ok := (conf_ok (n:=n) (maxreq:=maxreq)).
Local Notation local := (local (n:=n) (sec:=sec) (maxreq:=maxreq)).
Local Notation core := (core (n:=n) (sec:=sec) (maxreq:=maxreq)).
Local Notation client_ok := (client_ok n sec maxreq).
Local Notation frame := (frame (n:=n) (sec:=sec) (maxreq:=maxreq)).

(** The temporary block is not in use. *)
Definition idle (t : Z) c : Prop :=
  status (tempBlock c) = 0 ∧ tickInserted (tempBlock c) ≤ t ∧ length (temp_data c) = N.

(** The cache and the memory below hold the bytes [f], together with the
    write-back of the temporary block that has not been sent yet. *)
Definition rep (t : Z) c (f : Z → Z) : Prop :=
  ∃ h m, core t c (option_list (tempBlockWriteback c)) f h m None ∧ idle t c ∧
    wb_event c = match tempBlockWriteback c with Some _ => true | None => false end.

(** ** Write-backs *)
Lemma flush_core w c ws f h m : time_ok w → core (curTick w) c ws f h m None →
  ∃ mem', doWritebacksAtomic w ws c = Ok (set_below mem' c) ∧
    core (curTick w) (set_below mem' c) [] f h m None ∧ frame c (set_below mem' c).
Proof.
  intros Hw [Hl (g & Hg & Hlands)]. destruct (flush_ok w ws c g h Hw Hg Hlands) as (mem' & g' & Hf & Hr & Hgh & Hb).
  exists mem'. split; [done|]. split; [|by split]. split; [by apply local_below|]. by exists g'.
Qed.

(** A block that is not cached is in the memory. *)
Lemma uncached t c f h m x y : local t c f h m None → m !! (x, sec) = None → x mod n = 0 →
  x ≤ y < x + n → f y = h y.
Proof.
  intros Hl Hx Hmod Hy. apply (lo_out _ _ _ _ _ _ Hl).
  rewrite (ba_unique x y) by (done || apply (cf_pos _ (lo_conf _ _ _ _ _ _ Hl))). intros e He. congruence.
Qed.

(** ** The block read of a miss *)
Lemma shift_small t c f h m ex : local t c f h m ex → setShift (pol c) ≤ 64.
Proof.
  intros Hl. destruct (ix_ok_wf _ (Tags.sh_ix _ (proj1 (lo_tags _ _ _ _ _ _ Hl)))) as [k Hk].
  pose proof (wf_setShift _ _ Hk). lia.
Qed.

Lemma align_u64 a : 0 < n → is_u64 a → is_u64 (ba a) ∧ ba a mod n = 0.
Proof.
  intros Hn Ha. pose proof (ba_spec a Hn) as [? ?]. split; [|done]. unfold is_u64 in *.
  pose proof (Z.mod_le a n ltac:(lia) Hn). lia.
Qed.

Lemma miss_packet_ok t c f h m q x d : local t c f h m None → client_ok q x → request_ok n x (pkt q) d →
  ∃ bus, createMissPacket q None c = Ok bus ∧ is_fetch n sec maxreq bus x ∧ requestorId bus = requestorId q.
Proof.
  intros Hl Hq Hp. pose proof (lo_conf _ _ _ _ _ _ Hl) as Hc. pose proof (shift_small _ _ _ _ _ _ Hl) as Hs.
  pose proof (cf_pos _ Hc) as Hn. destruct (cl_paddr _ _ _ _ _ Hq) as [Hpa Hpx].
  destruct (align_u64 _ Hn Hpa) as [Hx64 Hmod]. rewrite Hpx in Hx64, Hmod.
  destruct (access_cmd _ (rq_cmd _ _ _ _ Hp)) as (_ & _ & _ & _ & _ & Hnr & _).
  assert (Ha : Z.land (req_paddr (req (pkt q))) (not64 (n - 1)) = x) by (by rewrite (align_block (maxreq:=maxreq) c)).
  assert (Hax : Z.land x (not64 (n - 1)) = x) by (rewrite (align_block (maxreq:=maxreq) c) by done; lia).
  unfold createMissPacket. rewrite Hnr, (cf_size _ Hc). cbn [assertb mbind res_bind negb].
  unfold Packet_blk, getBlockAddr. cbn [addr]. rewrite Ha, Hax, Z.eqb_refl. cbn [assertb mbind res_bind].
  unfold allocate. change (hasData ReadReq || hasData (responseCommand ReadReq)) with true.
  cbn [cmd data assertb mbind res_bind]. change (hasData ReadReq || hasData (responseCommand ReadReq)) with true.
  cbn [assertb mbind res_bind]. eexists. split; [done|]. split; [|done].
  split; cbn; try done; try apply Hq.
  eexists. split; [done|]. rewrite length_take, length_replicate. lia.
Qed.

(** The block arrives. *)
Lemma fetch_ok w q x d c f h m : time_ok w → core (curTick w) c [] f h m None → client_ok q x →
  request_ok n x (pkt q) d → ms_block (below c) x → m !! (x, sec) = None →
  ∃ bus ticks resp mem', createMissPacket q None c = Ok bus ∧
    sendAtomic w bus c = Ok (ticks, resp, set_below mem' c) ∧
    line_read (n:=n) (sec:=sec) f x resp ∧ requestorId resp = requestorId q ∧
    core (curTick w) (set_below mem' c) [] f h m None ∧ frame c (set_below mem' c).
Proof.
  intros Hw Hcore Hq Hp Hblk Hx. destruct Hcore as [Hl (g & Hg & Hgh)]. cbn [lands] in Hgh.
  destruct (miss_packet_ok _ _ _ _ _ _ _ _ Hl Hq Hp) as (bus & Hbus & Hfe & Hrid).
  destruct (ms_fetch w (below c) g bus x Hw Hg Hblk Hfe) as (lat & q' & mem' & Hs & Hans & Hr & Hd & Hg' & Hb).
  exists bus, lat, q', mem'. split; [done|]. unfold sendAtomic. rewrite Hs. cbn [mbind res_bind].
  split; [done|]. split; [|split; [congruence|split; [|by split]]].
  - eapply (fetch_answer (maxreq:=maxreq)); [done| |done]. rewrite Hans. f_equal. f_equal.
    apply load_ext. intros y Hy. rewrite Hgh. symmetry. eapply uncached; try done; [|lia].
    pose proof (align_u64 _ (cf_pos _ (lo_conf _ _ _ _ _ _ Hl)) (cl_addr _ _ _ _ _ Hq)) as [_ Hmod].
    by rewrite <-(cl_block _ _ _ _ _ Hq) in Hmod.
  - split; [by apply local_below|]. exists g. by split.
Qed.

(** ** Filling from below *)
Definition filled_block (tk : Z) (b : CacheBlk) : CacheBlk := with_ready tk (opened b).

Lemma filled_spec tk b : isValid b = true → isValid (filled_block tk b) = true ∧
  isWritable (filled_block tk b) = true ∧ isReadable (filled_block tk b) = true ∧
  isSecure (filled_block tk b) = isSecure b ∧ isDirty (filled_block tk b) = isDirty b ∧
  tickInserted (filled_block tk b) = tickInserted b ∧ whenReady (filled_block tk b) = tk.
Proof. intros Hv. destruct (opened_spec b Hv) as (? & ? & ? & ? & ?). by split_and!. Qed.

(** Into a new block of the tags. *)
Lemma fill_new w resp x c f h m : time_ok w → core (curTick w) c [] f h m None →
  line_read (n:=n) (sec:=sec) f x resp → requestorId resp < maxreq → ms_block (below c) x → is_u64 x →
  x mod n = 0 → m !! (x, sec) = None →
  ∃ e wbs c' h' m', handleFill w resp None true c = Ok (InTags e, wbs, c') ∧
    core (curTick w) c' wbs f h' m' None ∧ m' !! (x, sec) = Some e ∧ frame c c'.
Proof.
  intros Hw Hcore Hlr Hr Hblk Hx64 Hmod Hx. pose proof (lo_conf _ _ _ _ _ _ (proj1 Hcore)) as Hc.
  destruct (allocate_ok w resp c [] f h m x Hw Hcore) as (e & wbs & t' & h' & m' & b & Hal & Hcore' & Hx' & Hb & Hfr);
    try done; try (by rewrite ?(lr_addr _ _ _ Hlr), ?(lr_secure _ _ _ Hlr)).
  { rewrite (lr_addr _ _ _ Hlr). lia. }
  set (c2 := set_tags t' c) in *. pose proof (proj1 Hcore') as Hl2. cbn [app] in Hcore'.
  destruct (present _ _ _ _ _ _ _ _ _ Hl2 Hx') as (b' & Hb' & Hv & Hs & _ & _ & _ & Hre & d0 & Hd0 & Hlen).
  assert (b' = b) as -> by (unfold c2 in Hb'; cbn in Hb'; congruence).
  destruct Hfr as (_ & _ & Hnd & Hti).
  destruct (fill_ok (n:=n) (sec:=sec) (maxreq:=maxreq) w resp (InTags e) b d0 x f c2) as (tk & k' & Hfill & Htk & Hk'); try done.
  { apply Hl2. } { by eapply exists_entry. } { apply Hl2. }
  { unfold blk_at, Tags.get_blk, RpBase.get. by rewrite Hb'. }
  { unfold data_at, RpBase.get. by rewrite Hd0. }
  { lia. }
  destruct (filled_spec tk b Hv) as (Hv' & Hw' & Hr' & Hs' & Hd' & Hti' & Hrdy').
  eexists e, wbs, _, h', m'. split; [|split; [|split; [done|]]].
  - unfold handleFill. rewrite (lr_cmd _ _ _ Hlr), (lr_addr _ _ _ Hlr). change (isResponse ReadResp) with true.
    cbn [assertb mbind res_bind]. unfold getBlockAddr. rewrite (lr_addr _ _ _ Hlr), (cf_size _ Hc).
    rewrite (align_block (maxreq:=maxreq) c) by (done || by eapply shift_small, Hcore).
    rewrite Hmod, Z.sub_0_r, Z.eqb_refl. cbn [assertb mbind res_bind]. unfold fill_target.
    rewrite (lr_cmd _ _ _ Hlr). change (hasData ReadResp) with true. cbn [orb assertb mbind res_bind].
    rewrite Hal. cbn [mbind res_bind]. fold c2. rewrite Hfill. done.
  - split; [|exact (proj2 Hcore')].
    eapply (local_update _ c2 f f h' m' (Some e) e x b (filled_block tk b)); try done.
    + by right.
    + unfold Tags.same_tag. rewrite Hv', Hs', Hv. by split_and!.
    + rewrite Hti'. lia.
    + intros _. apply load_ext. intros y Hy. apply (lo_out _ _ _ _ _ _ Hl2).
      rewrite (ba_unique x y) by (done || lia || apply (cf_pos _ Hc)). intros e1 He1. congruence.
  - by split.
Qed.

(** Into the temporary block. *)
Lemma core_temp t c ws f h m b a d k : core t c ws f h m None → in_step (clockPeriod (conf c)) t k →
  core t (set_clock k (set_temp b a d c)) ws f h m None.
Proof. intros [[] Hm] Hk. split; [|done]. split; try done. by eapply conf_tags; [..|done]. Qed.

Lemma fill_temp w resp x c f h m : time_ok w → core (curTick w) c [] f h m None → idle (curTick w) c →
  line_read (n:=n) (sec:=sec) f x resp → is_u64 x → x mod n = 0 →
  ∃ b k, handleFill w resp None false c = Ok (Temp, [], set_clock k (set_temp b x (load f x N) c)) ∧
    in_step (clockPeriod (conf c)) (curTick w) k ∧
    isValid b = true ∧ isWritable b = true ∧ isSecure b = sec ∧ isDirty b = false ∧ tickInserted b ≤ curTick w.
Proof.
  intros Hw Hcore (Hst & Hti & Hlen) Hlr Hx64 Hmod. pose proof (lo_conf _ _ _ _ _ _ (proj1 Hcore)) as Hc.
  set (b1 := set_status (Z.lor (if sec then BlkSecure else 0) BlkValid) (tempBlock c)).
  assert (Hins : temp_insert x sec c = Ok (set_temp b1 x (temp_data c) c)).
  { unfold temp_insert, setValid. rewrite Hst. cbn [assertb mbind res_bind Z.eqb]. unfold b1.
    destruct sec; cbn; unfold isValid; cbn; rewrite ?Hst; done. }
  set (c2 := set_temp b1 x (temp_data c) c) in *.
  assert (Hb1 : isValid b1 = true ∧ isSecure b1 = sec ∧ isDirty b1 = false) by (unfold b1; by destruct sec).
  destruct Hb1 as (Hv1 & Hs1 & Hd1).
  assert (Hc2 : conf_ok c2) by (by eapply conf_tags; [..|exact Hc]).
  destruct (fill_ok (n:=n) (sec:=sec) (maxreq:=maxreq) w resp Temp b1 (temp_data c) x f c2) as (tk & k' & Hfill & Htk & Hk'); try done.
  { apply (proj1 Hcore). }
  destruct (filled_spec tk b1 Hv1) as (Hv' & Hw' & Hr' & Hs' & Hd' & Hti' & Hrdy').
  exists (filled_block tk b1), k'. split; [|split; [done|]].
  - unfold handleFill. rewrite (lr_cmd _ _ _ Hlr), (lr_addr _ _ _ Hlr). change (isResponse ReadResp) with true.
    cbn [assertb mbind res_bind]. unfold getBlockAddr. rewrite (lr_addr _ _ _ Hlr), (cf_size _ Hc).
    rewrite (align_block (maxreq:=maxreq) c) by (done || by eapply shift_small, Hcore).
    rewrite Hmod, Z.sub_0_r, Z.eqb_refl. cbn [assertb mbind res_bind]. unfold fill_target.
    rewrite (lr_cmd _ _ _ Hlr). change (hasData ReadResp) with true. cbn [orb assertb mbind res_bind].
    rewrite (lr_addr _ _ _ Hlr), (lr_secure _ _ _ Hlr), Hins. cbn [mbind res_bind]. rewrite Hfill. done.
  - rewrite Hs', Hd', Hti'. by split_and!.
Qed.

(** ** Misses *)
Lemma answer_ok p read ok : cmd p ∈ accesses → cacheResponding p = false →
  makeResponse (returned p read (sc_outcome p ok)) = Ok (answer p read (sc_outcome p ok)) ∧
  cmd (answer p read (sc_outcome p ok)) = responseCommand (cmd p) ∧
  cmd (returned p read (sc_outcome p ok)) = cmd p.
Proof.
  intros Hin Hcr. destruct (access_cmd _ Hin) as (Hreq & _ & _ & Hce & _ & Hnr & _ & _ & _ & _ & Hwc).
  assert (Hret : ∀ sc, cmd (returned p read sc) = cmd p ∧ flags (returned p read sc) = flags p)
    by (intros [[]|]; by destruct read).
  destruct (Hret (sc_outcome p ok)) as [Hc Hf]. split; [|split; [|done]].
  - unfold makeResponse, answer, ignored. rewrite Hc, Hf, Hnr, Hreq, Hcr, !bool_decide_false by done. done.
  - unfold answer, ignored. rewrite Hnr, Hcr, !bool_decide_false by done. done.
Qed.

(** The rest of a miss once the block has been filled: the request is
    satisfied from it. *)
Definition after_fill (w : env) (q : CPkt) (l : Z) (r : blkref) (wbs : list CPkt) c
    : res (Z * CPkt * option blkref * list CPkt * cache I P M) :=
  '(q, c) ← satisfyRequest w q (Some r) c;
  c ← maintainClusivity w true (Some r) c;
  p ← makeResponse (pkt q);
  Ok (l, with_pkt p q, Some r, wbs, c).

Lemma miss_prefix w q x d c f h m : time_ok w → core (curTick w) c [] f h m None → client_ok q x →
  request_ok n x (pkt q) d → ms_block (below c) x → m !! (x, sec) = None →
  ∃ l resp mem', line_read (n:=n) (sec:=sec) f x resp ∧ requestorId resp = requestorId q ∧
    core (curTick w) (set_below mem' c) [] f h m None ∧ frame c (set_below mem' c) ∧
    ∀ r wbs c2, handleFill w resp None (bool_decide (clusivity (conf c) = mostly_incl)) (set_below mem' c)
        = Ok (r, wbs, c2) →
      (∀ ok c3 read, satisfyRequest w q (Some r) c2 =
          Ok (with_pkt (returned (pkt q) read (sc_outcome (pkt q) ok)) q, c3) →
        handleAtomicReqMiss w q None c = after_fill w q l r wbs c2).
Proof.
  intros Hw Hcore Hq Hp Hblk Hx.
  destruct (fetch_ok w q x d c f h m Hw Hcore Hq Hp Hblk Hx)
    as (bus & ticks & resp & mem' & Hbus & Hsend & Hlr & Hrid & Hcore' & Hfr).
  destruct (access_cmd _ (rq_cmd _ _ _ _ Hp)) as (_ & _ & Hwb & _ & Hwc & Hnr & _ & _ & _ & Hup & _).
  eexists (ticksToCycles (clockPeriod (conf c)) ticks), resp, mem'. split_and!; try done.
  intros r wbs c2 Hfill ok c3 read Hsat. unfold handleAtomicReqMiss, after_fill. rewrite Hbus. cbn [mbind res_bind].
  rewrite Hsend. cbn [mbind res_bind]. rewrite (lr_cmd _ _ _ Hlr).
  change (isResponse ReadResp) with true. change (isRead ReadResp) with true. change (isInvalidate ReadResp) with false.
  change (isError ReadResp) with false. unfold SF.hasSharers. rewrite (lr_flags _ _ _ Hlr).
  change (isSet 0 HAS_SHARERS) with false. rewrite bool_decide_false by done. cbn [negb assertb mbind res_bind].
  assert (allocOnFill ReadResp (set_below mem' c) = bool_decide (clusivity (conf c) = mostly_incl)) as ->.
  { unfold allocOnFill. cbn. by rewrite !orb_false_r. }
  rewrite Hfill. cbn [mbind res_bind]. rewrite Hsat. cbn [mbind res_bind].
  destruct (maintainClusivity w true (Some r) c3) as [c4|] eqn:Hmc; cbn [mbind res_bind]; [|done].
  destruct (answer_ok (pkt q) read ok (rq_cmd _ _ _ _ Hp) (cl_quiet _ _ _ _ _ Hq)) as (Hmk & _ & Hcmd).
  cbn [pkt with_pkt]. rewrite Hcmd, Hwb, bool_decide_false, Hnr by done. cbn [negb andb assertb mbind res_bind].
  rewrite Hmk. done.
Qed.

Lemma miss_new w q x d c f h m : time_ok w → core (curTick w) c [] f h m None → client_ok q x →
  request_ok n x (pkt q) d → ms_block (below c) x → m !! (x, sec) = None → clusivity (conf c) = mostly_incl →
  ∃ ok l e wbs c' h' m', let '(f', read) := flat_step f (pkt q) d ok in
    handleAtomicReqMiss w q None c =
      Ok (l, with_pkt (answer (pkt q) read (sc_outcome (pkt q) ok)) q, Some (InTags e), wbs, c') ∧
    core (curTick w) c' wbs f' h' m' None ∧ frame c c'.
Proof.
  intros Hw Hcore Hq Hp Hblk Hx Hincl. pose proof (lo_conf _ _ _ _ _ _ (proj1 Hcore)) as Hc.
  destruct (miss_prefix w q x d c f h m Hw Hcore Hq Hp Hblk Hx) as (l & resp & mem' & Hlr & Hrid & Hcore1 & Hfr1 & Hmiss).
  rewrite (bool_decide_true _ Hincl) in Hmiss.
  destruct (align_u64 _ (cf_pos _ Hc) (cl_addr _ _ _ _ _ Hq)) as [Hx64 Hmod].
  rewrite <-(cl_block _ _ _ _ _ Hq) in Hx64, Hmod.
  destruct (fill_new w resp x _ f h m Hw Hcore1 Hlr) as (e & wbs & c2 & h2 & m2 & Hfill & Hcore2 & Hx2 & Hfr2); try done.
  { rewrite Hrid. apply Hq. } { by apply (fr_blocks _ _ Hfr1). }
  destruct (hit_ok w c2 wbs f h2 m2 q x e d Hcore2 Hx2 Hp) as (ok & c3 & Hs).
  exists ok, l, e, wbs. destruct (flat_step f (pkt q) d ok) as [f' read]. destruct Hs as (Hs & Hcore3 & Hfr3).
  destruct (clusivity_ok w true c3 wbs f' h2 m2 x e Hcore3 Hx2) as (t4 & m4 & Hcl & Hcore4 & _).
  exists (set_tags t4 c3), h2, m4. rewrite (Hmiss _ _ _ Hfill ok c3 read Hs). unfold after_fill.
  rewrite Hs. cbn [mbind res_bind]. rewrite Hcl. cbn [mbind res_bind pkt with_pkt].
  destruct (answer_ok (pkt q) read ok (rq_cmd _ _ _ _ Hp) (cl_quiet _ _ _ _ _ Hq)) as (-> & _).
  cbn [mbind res_bind]. split; [done|]. split; [done|].
  eapply frame_trans; [exact Hfr1|]. eapply frame_trans; [exact Hfr2|]. eapply frame_trans; [exact Hfr3|]. by split.
Qed.

(** What a miss through the temporary block leaves there: nothing, or a dirty
    block to be written back. *)
Definition temp_left (t : Z) c (f f' : Z → Z) (x : Z) : Prop :=
  (idle t c ∧ ∀ y, f' y = f y) ∨
  (isValid (tempBlock c) = true ∧ isWritable (tempBlock c) = true ∧ isSecure (tempBlock c) = sec ∧
   isDirty (tempBlock c) = true ∧ tickInserted (tempBlock c) ≤ t ∧ temp_addr c = x ∧
   temp_data c = load f' x N).

Lemma miss_temp w q x d c f h m : time_ok w → core (curTick w) c [] f h m None → idle (curTick w) c →
  client_ok q x → request_ok n x (pkt q) d → ms_block (below c) x → m !! (x, sec) = None →
  clusivity (conf c) = mostly_excl →
  ∃ ok l c', let '(f', read) := flat_step f (pkt q) d ok in
    handleAtomicReqMiss w q None c =
      Ok (l, with_pkt (answer (pkt q) read (sc_outcome (pkt q) ok)) q, Some Temp, [], c') ∧
    core (curTick w) c' [] f h m None ∧ conf c' = conf c ∧
    tempBlockWriteback c' = tempBlockWriteback c ∧ wb_event c' = wb_event c ∧
    (∀ y, ms_block (below c) y → ms_block (below c') y) ∧
    temp_left (curTick w) c' f f' x ∧ (isWrite (cmd (pkt q)) = false → isValid (tempBlock c') = false).
Proof.
  intros Hw Hcore Hidle Hq Hp Hblk Hx Hexcl. pose proof (lo_conf _ _ _ _ _ _ (proj1 Hcore)) as Hc.
  destruct (miss_prefix w q x d c f h m Hw Hcore Hq Hp Hblk Hx) as (l & resp & mem' & Hlr & Hrid & Hcore1 & Hfr1 & Hmiss).
  rewrite bool_decide_false in Hmiss by congruence.
  destruct (align_u64 _ (cf_pos _ Hc) (cl_addr _ _ _ _ _ Hq)) as [Hx64 Hmod].
  rewrite <-(cl_block _ _ _ _ _ Hq) in Hx64, Hmod. set (c1 := set_below mem' c) in *.
  destruct (fill_temp w resp x c1 f h m Hw Hcore1 Hidle Hlr Hx64 Hmod) as (b & k & Hfill & Hk & Hv & Hwr & Hs & Hd & Hti).
  set (c2 := set_clock k (set_temp b x (load f x N) c1)) in *.
  assert (Hc2 : conf_ok c2) by (by eapply conf_tags; [..|exact Hc]).
  destruct (satisfyRequest_ok (n:=n) (maxreq:=maxreq) w q Temp b f x d c2) as (ok & b' & Hsat); try done.
  exists ok, l. destruct (flat_step f (pkt q) d ok) as [f' read]. destruct Hsat as (Hsat & Hkept & Hsame & Hread).
  set (c3 := patch Temp b' (load f' x N) (clock c2) c2) in *.
  assert (Hv' : isValid b' = true) by (by rewrite (kp_valid _ _ Hkept)).
  assert (Hmc : maintainClusivity w true (Some Temp) c3 = Ok (if isDirty b' then c3 else temp_invalidate c3)).
  { unfold maintainClusivity. change (blk_at Temp c3) with (@Ok CacheBlk b'). cbn [mbind res_bind].
    rewrite Hv'. change (conf c3) with (conf c). rewrite (bool_decide_true _ Hexcl).
    by destruct (isDirty b'). }
  rewrite (Hmiss _ _ _ Hfill ok c3 read Hsat). unfold after_fill. rewrite Hsat. cbn [mbind res_bind].
  rewrite Hmc. cbn [mbind res_bind pkt with_pkt].
  destruct (answer_ok (pkt q) read ok (rq_cmd _ _ _ _ Hp) (cl_quiet _ _ _ _ _ Hq)) as (-> & _).
  cbn [mbind res_bind]. eexists. split; [done|].
  assert (Hti' : tickInserted b' ≤ curTick w) by (by rewrite (kp_inserted _ _ Hkept)).
  split_and!.
  - destruct (isDirty b').
    + by apply (core_temp _ c1 _ _ _ _ b' x (load f' x N) k).
    + by apply (core_temp _ c1 _ _ _ _ (invalidate b') MaxAddr (load f' x N) k).
  - by destruct (isDirty b').
  - by destruct (isDirty b').
  - by destruct (isDirty b').
  - intros y Hy. destruct (isDirty b'); by apply (fr_blocks _ _ Hfr1).
  - unfold temp_left. destruct (isDirty b') eqn:Hdb; [right|left].
    + rewrite <-(kp_writable _ _ Hkept) in Hwr. rewrite <-(kp_secure _ _ Hkept) in Hs. by split_and!.
    + split; [|by apply Hsame]. split; [done|]. split; [done|]. apply load_length.
  - intros Hrd. by rewrite (Hread Hrd), Hd.
Qed.

(** ** After a miss *)

(** The write-back of a block that is not in the tags. *)
Lemma core_pending t c f h m x f' q : core t c [] f h m None → m !! (x, sec) = None → ms_block (below c) x →
  is_writeback n sec maxreq q x (load f' x N) → cmd (pkt q) = WritebackDirty → x mod n = 0 →
  (∀ y, ¬ (x ≤ y < x + n) → f' y = f y) →
  core t c [q] f' (store h x (load f' x N) (λ _, true)) m None.
Proof.
  intros [Hl (g & Hg & Hgh)] Hx Hblk Hq Hcmd Hmod Hf. pose proof (cf_pos _ (lo_conf _ _ _ _ _ _ Hl)) as Hn.
  set (h' := store h x (load f' x N) (λ _, true)).
  assert (Hout : ∀ y, ¬ (x ≤ y < x + n) → h' y = h y).
  { intros y Hy. apply store_outside. rewrite load_length. lia. }
  assert (Hin : ∀ y, x ≤ y < x + n → h' y = f' y).
  { intros y Hy. unfold h', store. rewrite byte_at_lookup, load_length.
    replace ((x <=? y) && (y <? x + Z.of_nat N)) with true by (symmetry; zcmp).
    rewrite load_lookup by lia. f_equal. lia. }
  split.
  - destruct Hl as [? ? Htags ? Hb ? ? Ho]. split; try done.
    + intros x' e b Hx' Hne Hb'. destruct (Hb x' e b Hx' Hne Hb') as (Hok & Hd & Hcl).
      assert (Hdis : ∀ y, x' ≤ y < x' + Z.of_nat N → ¬ (x ≤ y < x + n)).
      { intros y Hy Hyx. destruct (present t c f h m None x' sec e) as (_ & _ & _ & _ & _ & Hmod' & _); [by split|done|].
        assert (x' = x) as -> by (rewrite <-(ba_unique (n:=n) x' y), (ba_unique (n:=n) x y); try done; lia). congruence. }
      rewrite (load_ext f' f) by (intros; apply Hf; by apply Hdis).
      rewrite (load_ext h' h) by (intros; apply Hout; by apply Hdis). done.
    + intros y Hy. destruct (decide (x ≤ y < x + n)) as [Hyx|Hyx]; [by rewrite Hin|].
      rewrite Hf, Hout by done. by apply Ho.
  - exists g. split; [done|]. cbn [lands] in *. exists x, (load f' x N). split_and!; try done.
    + by rewrite Hcmd.
    + intros y. unfold wb_effect. rewrite bool_decide_true by done. unfold h', store. case_match; [done|]. apply Hgh.
Qed.

Lemma retire_ok w q x d c f h m ok : time_ok w → core (curTick w) c [] f h m None → m !! (x, sec) = None →
  ms_block (below c) x → x mod n = 0 → is_u64 x → tempBlockWriteback c = None → wb_event c = false →
  request_ok n x (pkt q) d → temp_left (curTick w) c f (flat_step f (pkt q) d ok).1 x →
  ∃ c', retire_temp w (Some Temp) c = Ok c' ∧ rep (curTick w) c' (flat_step f (pkt q) d ok).1 ∧
    conf c' = conf c ∧ below c' = below c ∧ (isValid (tempBlock c) = false → tempBlockWriteback c' = None).
Proof.
  intros Hw Hcore Hx Hblk Hmod Hx64 Hpend Hev Hp Hleft. set (f' := (flat_step f (pkt q) d ok).1) in *.
  unfold retire_temp. rewrite bool_decide_true by done.
  destruct Hleft as [[Hidle Hsame]|(Hv & Hwr & Hs & Hd & Hti & Ha & Hdata)].
  - assert (Hinv : isValid (tempBlock c) = false) by (unfold isValid; by rewrite (proj1 Hidle)).
    rewrite Hinv. exists c. split; [done|]. split; [|done]. exists h, m. rewrite Hpend, Hev. split; [|done].
    destruct Hcore as [Hl Hm]. split; [|done]. by eapply local_ext.
  - rewrite Hv, Hpend, Hev. cbn [andb negb assertb mbind res_bind].
    pose proof (lo_conf _ _ _ _ _ _ (proj1 Hcore)) as Hc. set (c1 := set_pending None true c).
    assert (Hc1 : conf_ok c1) by (by eapply conf_tags; [..|exact Hc]).
    destruct (writeback_ok (n:=n) (sec:=sec) (maxreq:=maxreq) Temp (tempBlock c) (temp_data c) x c1)
      as (q' & Hwb & Hq' & Hcmd); try done.
    { by rewrite Hd. } { rewrite Hdata. apply load_length. } { cbn. by rewrite Ha. }
    unfold evictBlock. change (blk_at Temp c1) with (@Ok CacheBlk (tempBlock c)). cbn [mbind res_bind].
    rewrite Hd. cbn [orb]. rewrite Hwb. cbn [mbind res_bind invalidateBlock]. eexists. split; [done|].
    rewrite Hd in Hcmd. rewrite Hdata in Hq'.
    assert (Hout : ∀ y, ¬ (x ≤ y < x + n) → f' y = f y) by (intros; by eapply flat_outside; [apply (cf_pos _ Hc)|..]).
    pose proof (core_pending _ c f h m x f' q' Hcore Hx Hblk Hq' Hcmd Hmod Hout) as Hcore'.
    split; [|by split_and!; try done; rewrite Hv].
    eexists _, m. split; [|split; [|done]].
    + destruct Hcore' as [[] Hm']. split; [|exact Hm']. split; try done. by eapply conf_tags; [..|done].
    + split; [done|]. split; [done|]. cbn. rewrite Hdata. apply load_length.
Qed.

(** ** [recvAtomic] *)

(** The bytes of the clients change as in a flat memory, which also gives the
    answer. *)
Definition answers (w : env) (q : CPkt) (d : list Z) c (f : Z → Z) (ok : bool) (lat : Z) c' : Prop :=
  let '(f', read) := flat_step f (pkt q) d ok in
  recvAtomic w q c = Ok (lat, with_pkt (answer (pkt q) read (sc_outcome (pkt q) ok)) q, c') ∧
  rep (curTick w) c' f' ∧ conf c' = conf c ∧ (∀ y, ms_block (below c) y → ms_block (below c') y) ∧
  (tempBlockWriteback c' = None ∨
   clusivity (conf c) = mostly_excl ∧ isWrite (cmd (pkt q)) = true ∧ cmd (pkt q) ∈ accesses).

Lemma frame_idle t c c' : frame c c' → idle t c → idle t c'.
Proof. intros Hf. unfold idle. by rewrite (fr_temp _ _ Hf), (fr_data _ _ Hf). Qed.

Lemma rep_of_core t c c0 f h m : core t c [] f h m None → frame c0 c → idle t c0 →
  tempBlockWriteback c0 = None → wb_event c0 = false → rep t c f.
Proof.
  intros Hcore Hf Hi Hp He. exists h, m. rewrite (fr_pending _ _ Hf), (fr_event _ _ Hf), Hp, He.
  split; [done|]. split; [by eapply frame_idle|done].
Qed.

Lemma not_retired w o c : o ≠ Some Temp → retire_temp w o c = Ok c.
Proof. intros Ho. unfold retire_temp. by rewrite bool_decide_false. Qed.

Lemma atomic_served w q x d c f h m : time_ok w → rep (curTick w) c f → tempBlockWriteback c = None →
  client_ok q x → request_ok n x (pkt q) d → idle (curTick w) c → wb_event c = false →
  served (sec:=sec) (n:=n) (maxreq:=maxreq) w q d (lookupLatency (conf c)) c f h →
  ∃ ok lat c', answers w q d c f ok lat c'.
Proof.
  intros Hw Hrep Hpend Hq Hp Hidle Hev (ok & o & lat & c' & m' & Hs). unfold answers.
  destruct (access_cmd _ (rq_cmd _ _ _ _ Hp)) as (_ & Hrw & _ & _ & _ & Hnr & Hcl & _).
  exists ok, (lat * clockPeriod (conf c')), c'. destruct (flat_step f (pkt q) d ok) as [f' read].
  destruct Hs as (Hacc & Hcore & Hfr & Hblk).
  destruct (answer_ok (pkt q) read ok (rq_cmd _ _ _ _ Hp) (cl_quiet _ _ _ _ _ Hq)) as (Hmk & _ & Hcmd).
  split; [|split; [by eapply rep_of_core|split; [apply Hfr|split; [apply Hfr|left; by rewrite (fr_pending _ _ Hfr)]]]].
  unfold recvAtomic. rewrite (cl_quiet _ _ _ _ _ Hq), Hrw. cbn [negb panic_if mbind res_bind].
  unfold base_recvAtomic. rewrite Hacc. cbn [mbind res_bind pkt with_pkt]. rewrite Hcmd, Hcl.
  destruct o as [e|]; [destruct (Hblk e eq_refl) as [b Hb]; rewrite Hb|]; cbn [mbind res_bind andb doWritebacksAtomic];
    (rewrite not_retired by done); cbn [mbind res_bind pkt with_pkt]; rewrite Hcmd, Hnr, Hmk; done.
Qed.

Lemma atomic_missed w q x d c f h : time_ok w → tempBlockWriteback c = None → client_ok q x →
  request_ok n x (pkt q) d → ms_block (below c) x → idle (curTick w) c → wb_event c = false →
  missed (sec:=sec) (n:=n) (maxreq:=maxreq) w q x (lookupLatency (conf c)) c f h →
  ∃ ok lat c', answers w q d c f ok lat c'.
Proof.
  intros Hw Hpend Hq Hp Hblk Hidle Hev (lat & c1 & m1 & Hacc & Hcore & Hx & Hfr1). unfold answers.
  destruct (access_cmd _ (rq_cmd _ _ _ _ Hp)) as (_ & Hrw & _ & _ & _ & _ & Hcl & Hnr' & _).
  pose proof (frame_idle _ _ _ Hfr1 Hidle) as Hidle1.
  assert (Hpend1 : tempBlockWriteback c1 = None) by (by rewrite (fr_pending _ _ Hfr1)).
  assert (Hev1 : wb_event c1 = false) by (by rewrite (fr_event _ _ Hfr1)).
  pose proof (fr_blocks _ _ Hfr1 x Hblk) as Hblk1.
  unfold recvAtomic. rewrite (cl_quiet _ _ _ _ _ Hq), Hrw. cbn [negb panic_if mbind res_bind].
  unfold base_recvAtomic. rewrite Hacc. cbn [mbind res_bind doWritebacksAtomic fmap option_fmap option_map].
  assert (Hansw : ∀ read ok, needsResponse (cmd (answer (pkt q) read (sc_outcome (pkt q) ok))) = false).
  { intros read ok. destruct (answer_ok (pkt q) read ok (rq_cmd _ _ _ _ Hp) (cl_quiet _ _ _ _ _ Hq)) as (_ & -> & _). done. }
  rewrite <-(fr_conf _ _ Hfr1).
  destruct (decide (clusivity (conf c1) = mostly_incl)) as [Hincl|Hexcl].
  - destruct (miss_new w q x d c1 f h m1 Hw Hcore Hq Hp Hblk1 Hx Hincl) as (ok & l & e & wbs & c2 & h2 & m2 & Hm).
    exists ok. destruct (flat_step f (pkt q) d ok) as [f' read]. destruct Hm as (Hm & Hcore2 & Hfr2).
    destruct (flush_core w c2 wbs f' h2 m2 Hw Hcore2) as (mem' & Hfl & Hcore3 & Hfr3).
    pose proof (frame_trans _ _ _ Hfr2 Hfr3) as Hfr23.
    eexists _, (set_below mem' c2). split; [|split; [by eapply (rep_of_core _ _ c1)|split; [apply Hfr23|split; [|left]]]].
    + rewrite Hm. cbn [mbind res_bind]. rewrite Hfl. cbn [mbind res_bind]. rewrite not_retired by done.
      cbn [mbind res_bind pkt with_pkt]. rewrite Hansw. done.
    + intros y Hy. by apply (fr_blocks _ _ Hfr23), (fr_blocks _ _ Hfr1).
    + by rewrite (fr_pending _ _ Hfr23).
  - assert (clusivity (conf c1) = mostly_excl) as Hex by (by destruct (clusivity (conf c1))).
    destruct (miss_temp w q x d c1 f h m1 Hw Hcore Hidle1 Hq Hp Hblk1 Hx Hex) as (ok & l & c2 & Hm).
    exists ok. pose proof (retire_ok w q x d c2 f h m1 ok) as Hret.
    destruct (flat_step f (pkt q) d ok) as [f' read]. cbn [fst] in Hret.
    destruct Hm as (Hm & Hcore2 & Hcf2 & Hp2 & He2 & Hb2 & Hleft & Hread).
    pose proof (align_u64 _ (cf_pos _ (lo_conf _ _ _ _ _ _ (proj1 Hcore))) (cl_addr _ _ _ _ _ Hq)) as [Hx64 Hmod].
    rewrite <-(cl_block _ _ _ _ _ Hq) in Hx64, Hmod.
    destruct Hret as (c3 & Hret & Hrep3 & Hcf3 & Hbl3 & Hq3); try done; try congruence.
    { by apply Hb2. }
    eexists _, c3. split; [|split; [done|split; [congruence|split]]].
    + rewrite Hm. cbn [mbind res_bind doWritebacksAtomic]. rewrite Hret.
      cbn [mbind res_bind pkt with_pkt]. rewrite Hansw. done.
    + intros y Hy. rewrite Hbl3. by apply Hb2, (fr_blocks _ _ Hfr1).
    + destruct (isWrite (cmd (pkt q))) eqn:Hwc; [right; split_and!; [done|done|apply Hp]|left; by apply Hq3, Hread].
Qed.

Lemma rep_ext t c f f' : (∀ y, f' y = f y) → rep t c f → rep t c f'.
Proof.
  intros Hf (h & m & [Hl Hm] & Hr). exists h, m. split; [|done]. split; [by eapply local_ext|done].
Qed.

Lemma atomic_line w q x d c f h m : time_ok w → core (curTick w) c [] f h m None → tempBlockWriteback c = None →
  client_ok q x → line_ok n x (pkt q) d → (cmd (pkt q) = WritebackClean → d = load f x N) →
  ms_block (below c) x → idle (curTick w) c → wb_event c = false →
  ∃ ok lat c', answers w q d c f ok lat c'.
Proof.
  intros Hw Hcore Hpend Hq Hp Hclean Hblk Hidle Hev.
  destruct (access_line_ok w q x d (lookupLatency (conf c)) c f h m Hw Hcore Hq Hp Hblk Hclean)
    as (e & lat & wbs & c1 & h1 & m1 & Hacc & Hcore1 & Hfr1 & b & Hb).
  destruct (flush_core w c1 wbs _ h1 m1 Hw Hcore1) as (mem' & Hfl & Hcore2 & Hfr2).
  destruct (line_cmd _ (ln_cmd _ _ _ _ Hp)) as (_ & Hwr & _ & Hll & Hnr & Hcl & _).
  destruct (line_step f x (pkt q) d true Hp) as [Hread Hstep].
  pose proof (frame_trans _ _ _ Hfr1 Hfr2) as Hfr.
  exists true. eexists _, (set_below mem' c1). unfold answers.
  destruct (flat_step f (pkt q) d true) as [f' read]. cbn [fst snd] in *. subst read.
  assert (Hans : with_pkt (answer (pkt q) None (sc_outcome (pkt q) true)) q = q).
  { unfold answer, sc_outcome. rewrite Hll, Hnr, andb_false_r. cbn [andb returned]. by destruct q. }
  rewrite Hans. split; [|split; [|split; [apply Hfr|split; [apply Hfr|left; by rewrite (fr_pending _ _ Hfr)]]]].
  - unfold recvAtomic. rewrite (cl_quiet _ _ _ _ _ Hq), Hwr, orb_true_r. cbn [negb panic_if mbind res_bind].
    unfold base_recvAtomic. rewrite Hacc. cbn [mbind res_bind]. rewrite Hb. cbn [mbind res_bind]. rewrite Hcl.
    cbn [andb mbind res_bind]. rewrite Hfl. cbn [mbind res_bind doWritebacksAtomic].
    rewrite not_retired by done. cbn [mbind res_bind]. rewrite Hnr. by destruct q.
  - eapply rep_ext; [exact Hstep|]. by eapply (rep_of_core _ _ c).
Qed.

(** A request or a line that clients may send to the cache. *)
Definition sendable (q : CPkt) (x : Z) (d : list Z) (f : Z → Z) : Prop :=
  client_ok q x ∧
  (request_ok n x (pkt q) d ∨
   line_ok n x (pkt q) d ∧ (cmd (pkt q) = WritebackClean → d = load f x N)).

Lemma atomic_ok w q x d c f : time_ok w → rep (curTick w) c f → tempBlockWriteback c = None →
  sendable q x d f → ms_block (below c) x → ∃ ok lat c', answers w q d c f ok lat c'.
Proof.
  intros Hw Hrep Hpend [Hq Hp] Hblk. pose proof Hrep as (h & m & Hcore & Hidle & Hev).
  rewrite Hpend in Hcore, Hev. destruct Hp as [Hp|[Hp Hclean]].
  - destruct (access_ok w q x d (lookupLatency (conf c)) c f h m Hcore Hq Hp).
    + by eapply atomic_served.
    + by eapply atomic_missed.
  - by eapply atomic_line.
Qed.

(** ** The event after an access *)
Lemma event_ok w c f : time_ok w → rep (curTick w) c f →
  ∃ c', run_event w c = Ok c' ∧ rep (curTick w) c' f ∧ tempBlockWriteback c' = None ∧ conf c' = conf c ∧
    ∀ y, ms_block (below c) y → ms_block (below c') y.
Proof.
  intros Hw Hrep. pose proof Hrep as (h & m & Hcore & Hidle & Hev). unfold run_event.
  destruct (tempBlockWriteback c) as [q|] eqn:Hpend; rewrite Hev; [|by exists c].
  cbn [option_list] in Hcore. set (c1 := set_pending (Some q) false c).
  assert (Hcore1 : core (curTick w) c1 [q] f h m None).
  { destruct Hcore as [[] Hm]. split; [|exact Hm]. split; try done. by eapply conf_tags; [..|done]. }
  destruct (flush_core w c1 [q] f h m Hw Hcore1) as (mem' & Hfl & Hcore2 & Hfr2).
  fold c1. unfold writebackTempBlockAtomic. change (tempBlockWriteback c1) with (Some q). cbv beta iota.
  rewrite Hfl.
  cbn [mbind res_bind]. eexists. split; [done|]. split; [|split; [done|split; [done|apply (fr_blocks _ _ Hfr2)]]].
  exists h, m. split; [|done]. destruct Hcore2 as [[] Hm]. split; [|exact Hm]. split; try done.
  by eapply conf_tags; [..|done].
Qed.

(** ** Reservations

    The blocks of the cache hold no reservation that a memory would not: those
    of a block were made by a load locked of the requests so far and no later
    request to the block has ended them. *)
Definition to_block (x : Z) (h : list Packet) : list Packet := filter (λ p, ba (addr p) = x) h.
Definition note (p : Packet) (h : list Packet) : list Packet := if noted p then h ++ [p] else h.
(** A store-conditional has a reservation. *)
Definition reserved (h : list Packet) (p : Packet) : Prop :=
  ∃ l, survives (to_block (ba (addr p)) h) l ∧ grants l p = true.

Definition tag_locks (t : Tags.tags I P) (h : list Packet) : Prop :=
  ∀ e b, Tags.blks t !! e = Some b → lockList b = [] ∨
    isValid b = true ∧ locks_ok (lockList b) ∧
    ∃ x, Tags.regenerateBlkAddr t e = Ok x ∧ ∀ l, l ∈ lockList b → survives (to_block x h) l.
Definition reservations c (h : list Packet) : Prop := tag_locks (tags c) h.

Lemma tag_locks_same t t' h : Tags.indexing t' = Tags.indexing t → Tags.blks t' = Tags.blks t →
  tag_locks t h → tag_locks t' h.
Proof.
  intros Hi Hb H e b. unfold Tags.regenerateBlkAddr, Tags.get_blk. rewrite Hi, Hb. apply H.
Qed.

(** A block loses its reservations, or keeps them with its identity. *)
Lemma tag_locks_put t t' h e b b' : Tags.indexing t' = Tags.indexing t → Tags.blks t' = <[e := b']> (Tags.blks t) →
  Tags.blks t !! e = Some b →
  lockList b' = [] ∨ lockList b' = lockList b ∧ isValid b' = isValid b ∧ tag b' = tag b ∧ _set b' = _set b ∧ _way b' = _way b →
  tag_locks t h → tag_locks t' h.
Proof.
  intros Hi Hbs Hb Hb' H e1 b1. rewrite Hbs. intros Hb1.
  unfold Tags.regenerateBlkAddr, Tags.get_blk, RpBase.get. rewrite Hi, Hbs.
  apply Tags.insert_cases in Hb1 as [[-> ->]|[Hne Hb1]]; [| |by eapply lookup_lt_Some].
  - rewrite list_lookup_insert_eq by (by eapply lookup_lt_Some). cbn [mbind res_bind].
    destruct Hb' as [?|(Hl & Hv & Ht & Hs & Hw)]; [by left|].
    rewrite Hl, Hv, Ht, Hs, Hw. specialize (H e b Hb). unfold Tags.regenerateBlkAddr, Tags.get_blk, RpBase.get in H.
    by rewrite Hb in H.
  - rewrite list_lookup_insert_ne by done. specialize (H e1 b1 Hb1).
    unfold Tags.regenerateBlkAddr, Tags.get_blk, RpBase.get in H. exact H.
Qed.

Lemma get_some {A} (l : list A) k a : RpBase.get l k = Ok a → l !! k = Some a.
Proof. unfold RpBase.get. by destruct (l !! k); intros [= ->]. Qed.

(** What every step but [satisfyRequest] does to the reservations. *)
Definition keeps c c' : Prop := ∀ h, reservations c h → reservations c' h.

Lemma keeps_trans c1 c2 c3 : keeps c1 c2 → keeps c2 c3 → keeps c1 c3.
Proof. unfold keeps. auto. Qed.
Lemma keeps_tags c c' : tags c' = tags c → keeps c c'.
Proof. unfold keeps, reservations. by intros ->. Qed.

Lemma keeps_put r b b' c : blk_at r c = Ok b →
  lockList b' = lockList b ∧ isValid b' = isValid b ∧ tag b' = tag b ∧ _set b' = _set b ∧ _way b' = _way b →
  keeps c (put_blk r b' c).
Proof.
  intros Hb Hs h. destruct r as [e|]; [|done].
  eapply (tag_locks_put (tags c) _ h e b b'); [done|done|by apply get_some|by right].
Qed.
Lemma keeps_data r d c : keeps c (put_data r d c).
Proof. intros h. destruct r; [|done]. by apply tag_locks_same. Qed.

Lemma keeps_or r bits c c' : or_status r bits c = Ok c' → Z.land BlkValid bits = 0 → keeps c c'.
Proof.
  intros H Hbits. unfold or_status in H. inv_ok. eapply keeps_put; [done|]. split_and!; try done.
  unfold isValid. cbn [status set_status]. by rewrite status_bit.
Qed.
Lemma keeps_and_not r bits c c' : and_not_status r bits c = Ok c' → Z.land (Z.lnot bits) BlkValid = BlkValid → keeps c c'.
Proof.
  intros H Hbits. unfold and_not_status in H. inv_ok. eapply keeps_put; [done|]. split_and!; try done.
  unfold isValid. cbn [status set_status]. by rewrite status_keep.
Qed.
Lemma keeps_ready w r delay c c' : set_ready w r delay c = Ok c' → keeps c c'.
Proof.
  unfold set_ready. destruct (clockEdge _ _ _ _) as [edge k]. intros H. inv_ok. unfold setWhenReady in Hm0. inv_ok.
  eapply keeps_trans; [by apply (keeps_tags c (set_clock k c))|]. by eapply keeps_put.
Qed.

Lemma keeps_invalidate w r c c' : invalidateBlock w r c = Ok c' → keeps c c'.
Proof.
  intros H h Hl. destruct r as [e|]; cbn [invalidateBlock] in H; inv_ok; [|done].
  unfold Tags.invalidateBlk in Hm. inv_ok. revert Hl. apply (tag_locks_put _ _ h e a0 (invalidate a0)); try done; [|by left].
  by apply get_some.
Qed.

Lemma keeps_send w q c lat q' c' : sendAtomic w q c = Ok (lat, q', c') → keeps c c'.
Proof. unfold sendAtomic. intros H. inv_ok. destruct a as [[? ?] ?]. inv_ok. by apply keeps_tags. Qed.
Lemma keeps_flush w ws c c' : doWritebacksAtomic w ws c = Ok c' → keeps c c'.
Proof.
  revert c. induction ws as [|q ws IH]; intros c H; cbn [doWritebacksAtomic] in H; [inv_ok; by intros h|].
  inv_ok. destruct a as [[? ?] c1]. eapply keeps_trans; [by eapply keeps_send|by apply IH].
Qed.

Lemma keeps_hand_over r b p c p' c' : hand_over r b p c = Ok (p', c') → keeps c c'.
Proof.
  unfold hand_over. intros H. inv_ok. eapply (keeps_trans _ a); [|by eapply keeps_and_not].
  destruct (isWritable b); [by eapply keeps_and_not|]. inv_ok. by intros h.
Qed.
Lemma keeps_writeback r c q c' : writebackBlk r c = Ok (q, c') → keeps c c'.
Proof.
  unfold writebackBlk. intros H. inv_ok. destruct a1 as [p1 c1]. inv_ok. by eapply keeps_hand_over.
Qed.
Lemma keeps_writeclean r dest c q c' : writecleanBlk r dest c = Ok (q, c') → keeps c c'.
Proof.
  unfold writecleanBlk. intros H. inv_ok. destruct a2 as [p1 c1]. inv_ok. by eapply keeps_hand_over.
Qed.
Lemma keeps_evict w r c o c' : evictBlock w r c = Ok (o, c') → keeps c c'.
Proof.
  unfold evictBlock. intros H. inv_ok. destruct a0 as [o1 c1]. inv_ok.
  eapply (keeps_trans _ c1); [|by eapply keeps_invalidate].
  destruct (isDirty a || writebackClean (conf c)); inv_ok; [|by intros h]. destruct a0 as [q c2]. inv_ok. by eapply keeps_writeback.
Qed.
Lemma keeps_evictions w e c wbs c' : handleEvictions w e c = Ok (wbs, c') → keeps c c'.
Proof.
  unfold handleEvictions. intros H. inv_ok. destruct (isValid a); inv_ok; [|by intros h].
  destruct a0 as [o1 c1]. inv_ok. by eapply keeps_evict.
Qed.

(** A new block has no reservation: what was in its place is invalid. *)
Lemma keeps_insert w p rid task e t t' h : Tags.insertBlock w p rid task e t = Ok t' → tag_locks t h → tag_locks t' h.
Proof.
  unfold Tags.insertBlock. intros (t1 & H1 & H)%bind_ok Hl. inv_ok. unfold Tags.base_insertBlock in H1. inv_ok. bool_to_prop.
  assert (Hnil : lockList a0 = []).
  { destruct (Hl e a0 (get_some _ _ _ Hm0)) as [?|(? & _)]; [done|congruence]. }
  revert Hl. apply (tag_locks_put _ _ h e a0 a1); try done; [by apply get_some|left].
  unfold insert, setValid in Hm3. inv_ok. by destruct (secure p).
Qed.
Lemma keeps_allocate w q c e wbs c' : allocateBlock w q c = Ok (e, wbs, c') → keeps c c'.
Proof.
  unfold allocateBlock. intros ([v t1] & Hm & ([ws c1] & Hm0 & (t2 & Hm1 & H)%bind_ok)%bind_ok)%bind_ok h Hl. inv_ok.
  apply (keeps_insert w (pkt q) (requestorId q) (taskId q) e (tags c1)); [done|].
  eapply keeps_evictions in Hm0. apply Hm0. unfold Tags.findVictim in Hm. inv_ok. destruct a1 as [v1 p1]. inv_ok.
  by apply (tag_locks_same (tags c)).
Qed.

Lemma keeps_clusivity w fc o c c' : maintainClusivity w fc o c = Ok c' → keeps c c'.
Proof.
  unfold maintainClusivity. intros H. destruct o as [r|]; [destruct fc|]; inv_ok; try (by intros h).
  destruct (_ && _); [by eapply keeps_invalidate|]. inv_ok. by intros h.
Qed.

Lemma keeps_fill w q o alloc c r wbs c' : handleFill w q o alloc c = Ok (r, wbs, c') → keeps c c'.
Proof.
  unfold handleFill. intros (? & _ & (? & _ & ([[r1 ws] c1] & Ht & (c2 & Hf & H)%bind_ok)%bind_ok)%bind_ok)%bind_ok.
  simplify_eq. eapply (keeps_trans _ c1).
  - clear Hf. unfold fill_target in Ht. destruct o as [r0|]; [simplify_eq; by intros h|].
    apply bind_ok in Ht as (_ & _ & Ht). destruct alloc.
    + apply bind_ok in Ht as ([[e ws1] c3] & Ht & ?). simplify_eq. by eapply keeps_allocate.
    + apply bind_ok in Ht as (c3 & Ht & ?). simplify_eq. unfold temp_insert in Ht. inv_ok. by apply keeps_tags.
  - clear Ht. unfold fill_block in Hf.
    do 4 (apply bind_ok in Hf as (? & _ & Hf)).
    apply bind_ok in Hf as (? & _ & (c3 & H3 & (? & _ & (c4 & H4 & (c5 & H5 & Hf)%bind_ok)%bind_ok)%bind_ok)%bind_ok).
    eapply (keeps_trans _ c3); [by eapply keeps_or|].
    eapply (keeps_trans _ c4); [|eapply (keeps_trans _ c5); [|by eapply keeps_ready]].
    + destruct (SF.hasSharers (pkt q)); [simplify_eq; by intros h|]. apply bind_ok in H4 as (c6 & H6 & H4).
      eapply (keeps_trans _ c6); [by eapply keeps_or|]. destruct (cacheResponding (pkt q)); [|simplify_eq; by intros h].
      apply bind_ok in H4 as (c7 & H7 & (? & _ & ?)%bind_ok). simplify_eq. by eapply keeps_or.
    + destruct (isRead (cmd (pkt q))); [|simplify_eq; by intros h].
      apply bind_ok in H5 as (? & _ & (? & _ & (? & _ & (? & _ & ?)%bind_ok)%bind_ok)%bind_ok). simplify_eq. apply keeps_data.
Qed.

Lemma keeps_retire w o c c' : retire_temp w o c = Ok c' → keeps c c'.
Proof.
  unfold retire_temp. intros H. destruct (bool_decide _ && _); [|simplify_eq; by intros h].
  apply bind_ok in H as (c1 & H1 & ([o1 c2] & H2 & H)%bind_ok). simplify_eq.
  eapply (keeps_trans _ c1); [|eapply (keeps_trans _ c2); [by eapply keeps_evict|by apply keeps_tags]].
  clear H2. unfold writebackTempBlockAtomic in H1. destruct (tempBlockWriteback c).
  - apply bind_ok in H1 as (c3 & H3 & ?). simplify_eq. eapply keeps_trans; [by eapply keeps_flush|by apply keeps_tags].
  - apply bind_ok in H1 as (? & _ & ?). simplify_eq. by apply keeps_tags.
Qed.
Lemma keeps_run_event w c c' : run_event w c = Ok c' → keeps c c'.
Proof.
  unfold run_event. destruct (wb_event c); intros H; [|simplify_eq; by intros h].
  apply bind_ok in H as (c1 & H1 & ?). simplify_eq. unfold writebackTempBlockAtomic in H1.
  destruct (tempBlockWriteback (set_pending _ _ _)); [|done]. apply bind_ok in H1 as (c3 & H3 & ?). simplify_eq.
  eapply keeps_trans; [by apply (keeps_tags c (set_pending (tempBlockWriteback c) false c))|].
  eapply keeps_trans; [by eapply keeps_flush|by apply keeps_tags].
Qed.

(** The history of a block grows with the requests to it. *)
Lemma to_block_other x p h : ba (addr p) ≠ x → to_block x (note p h) = to_block x h.
Proof.
  intros Hne. unfold to_block, note. destruct (noted p); [|done]. rewrite filter_app, filter_cons_False by done.
  rewrite filter_nil. apply app_nil_r.
Qed.
Lemma to_block_same x p h : ba (addr p) = x → noted p = true → to_block x (note p h) = to_block x h ++ [p].
Proof. intros Hx Hn. unfold to_block, note. rewrite Hn, filter_app, filter_cons_True by done. by rewrite filter_nil. Qed.

(** The other blocks are at other addresses. *)
Lemma note_other t c f h m ex hst p e b : local t c f h m ex → reservations c hst →
  m !! (ba (addr p), sec) ≠ Some e → Tags.blks (tags c) !! e = Some b → lockList b = [] ∨
    isValid b = true ∧ locks_ok (lockList b) ∧
    ∃ x, Tags.regenerateBlkAddr (tags c) e = Ok x ∧ ∀ l, l ∈ lockList b → survives (to_block x (note p hst)) l.
Proof.
  intros Hl Hres Hne Hb. destruct (Hres e b Hb) as [?|(Hv & Hok & x & Hx & Hin)]; [by left|right].
  split; [done|]. split; [done|]. exists x. split; [done|]. rewrite to_block_other; [done|]. intros Heq. apply Hne.
  destruct (Tags.ho_complete _ _ (proj2 (lo_tags _ _ _ _ _ _ Hl)) e b Hb Hv) as [x' Hx'].
  destruct (lo_key _ _ _ _ _ _ Hl _ _ _ Hx') as [Hs _]. rewrite Hs in Hx'.
  pose proof (Tags.regenerate_spec _ _ _ _ _ (lo_tags _ _ _ _ _ _ Hl) Hx') as Hr.
  rewrite Hx in Hr. injection Hr as ->. by rewrite Heq.
Qed.

Lemma reservations_absent t c f h m ex hst p : local t c f h m ex → m !! (ba (addr p), sec) = None →
  reservations c hst → reservations c (note p hst).
Proof. intros Hl Hx Hres e b Hb. eapply note_other; [done|done|congruence|done]. Qed.

(** [satisfyRequest] on a block of the tags. *)
Lemma reservations_satisfy t w q e x d c f h m hst q' c' : local t c f h m None → m !! (x, sec) = Some e →
  x = ba (addr (pkt q)) → request_ok n x (pkt q) d → reservations c hst →
  satisfyRequest w q (Some (InTags e)) c = Ok (q', c') →
  reservations c' (note (pkt q) hst) ∧
  (cmd (pkt q) = StoreCondReq → req_extraData (req (pkt q')) = Some 1 → reserved hst (pkt q)).
Proof.
  intros Hl Hx Hxa Hp Hres (? & _ & H)%bind_ok. unfold base_satisfyRequest in H. apply bind_ok in H as (? & _ & H).
  apply bind_ok in H as (b & Hb & (? & _ & (? & _ & H)%bind_ok)%bind_ok). cbn [blk_at] in Hb. apply get_some in Hb.
  destruct (access_cmd _ (rq_cmd _ _ _ _ Hp)) as (_ & Hrw & _). rewrite Hrw in H. cbn [orb] in H.
  apply bind_ok in H as (d1 & _ & ([[p' b'] d'] & Hs & ?)%bind_ok). simplify_eq.
  rewrite (cf_size _ (lo_conf _ _ _ _ _ _ Hl)) in Hs.
  pose proof (Tags.regenerate_spec _ _ _ _ _ (lo_tags _ _ _ _ _ _ Hl) Hx) as Hre.
  assert (Hb0 : locks_ok (lockList b) ∧ ∀ l, l ∈ lockList b → survives (to_block (ba (addr (pkt q))) hst) l).
  { destruct (Hres e b Hb) as [->|(_ & ? & y1 & Hy1 & ?)].
    - split; [split; [apply NoDup_nil_2|set_solver..]|set_solver].
    - rewrite Hre in Hy1. by injection Hy1 as <-. }
  destruct Hb0 as [Hok Hin]. destruct (satisfy_locks n _ (pkt q) d Hp b d1 p' b' d' Hs Hok) as [[Htag Hok' Hleft] Hsc].
  split.
  - intros e1 b1 Hb1. unfold Tags.regenerateBlkAddr, Tags.get_blk, RpBase.get.
    cbn [tags set_tags put_data put_blk Tags.blks Tags.set_dataBlks Tags.put_blk Tags.set_blks Tags.indexing] in Hb1 |- *.
    apply Tags.insert_cases in Hb1 as [[-> ->]|[Hne Hb1]]; [| |by eapply lookup_lt_Some].
    + rewrite list_lookup_insert_eq by (by eapply lookup_lt_Some). cbn [mbind res_bind].
      destruct Htag as (Ht & Hse & Hw & Hv).
      assert (Hvb : isValid b = true).
      { destruct (present _ _ _ _ _ _ _ _ _ Hl Hx) as (b2 & Hb2 & ? & _). congruence. }
      right. split; [congruence|]. split; [done|].
      exists (ba (addr (pkt q))). split.
      * rewrite Ht, Hse, Hw. unfold Tags.regenerateBlkAddr, Tags.get_blk, RpBase.get in Hre. by rewrite Hb in Hre.
      * intros l Hlk. destruct (noted (pkt q)) eqn:Hno.
        -- rewrite to_block_same by done. apply survives_snoc. destruct (Hleft l Hlk) as [[? ?]|?]; [left|by right]. auto.
        -- unfold note. rewrite Hno. destruct (Hleft l Hlk) as [[? _]|[Hll _]]; [auto|].
           unfold noted in Hno. by rewrite Hll in Hno.
    + rewrite list_lookup_insert_ne by done.
      assert (Hne' : m !! (ba (addr (pkt q)), sec) ≠ Some e1) by congruence.
      exact (note_other _ _ _ _ _ _ hst (pkt q) e1 b1 Hl Hres Hne' Hb1).
  - intros Hc He. destruct (Hsc Hc He) as (l & Hlk & Hg). exists l. auto.
Qed.

(** The requests of [recvAtomic], step by step: the lookup... *)
Lemma reservations_lookup w a se t o l t' h : Tags.accessBlock w a se t = Ok (o, l, t') → tag_locks t h → tag_locks t' h.
Proof.
  unfold Tags.accessBlock. intros (blk & _ & H)%bind_ok. destruct blk as [e|].
  - apply bind_ok in H as (b & Hb & (r & _ & ?)%bind_ok). simplify_eq. apply get_some in Hb.
    by apply (tag_locks_put t _ h e b (set_refCount (u32 (refCount b + 1)) b)); try done; right.
  - simplify_eq. by apply tag_locks_same.
Qed.

(** ... the access, which may find the block... *)
Definition granted (hst : list Packet) (q q' : CPkt) : Prop :=
  cmd (pkt q) = StoreCondReq → req_extraData (req (pkt q')) = Some 1 → reserved hst (pkt q).

Lemma reservations_access w q x d lat c f h m hst sat o lat' wbs q' c' : core (curTick w) c [] f h m None →
  client_ok q x → request_ok n x (pkt q) d → reservations c hst → access w q lat c = Ok (sat, o, lat', wbs, q', c') →
  if sat : bool then reservations c' (note (pkt q) hst) ∧ granted hst q q'
  else reservations c' hst ∧ (o = None → cmd (pkt q) ≠ StoreCondReq).
Proof.
  intros Hcore Hq Hp Hres H. destruct (access_cmd _ (rq_cmd _ _ _ _ Hp)) as (_ & _ & Hwb & Hce & Hwc & _).
  destruct (lookup_ok w c [] f h m q x Hcore Hq) as (t' & Ht' & Hcore' & _). set (c1 := set_tags t' c) in *.
  assert (Hres1 : reservations c1 hst) by (by eapply reservations_lookup).
  unfold access in H. apply bind_ok in H as ([[[[[sat0 o0] lat0] wbs0] q0] c0] & H & Hrest).
  rewrite Hwb, bool_decide_false in Hrest by done. cbn [orb] in Hrest. simplify_eq. unfold base_access in H.
  do 2 (apply bind_ok in H as (? & _ & H)). rewrite Ht' in H. cbn [mbind res_bind] in H. fold c1 in H.
  rewrite (cl_plain _ _ _ _ _ Hq), Hwb, !bool_decide_false in H by done.
  apply bind_ok in H as (ok & Hok & H). destruct ok.
  - apply bind_ok in H as (? & _ & (? & _ & ([q2 c2] & Hs & (c3 & Hc3 & ?)%bind_ok)%bind_ok)%bind_ok). simplify_eq.
    destruct (m !! (x, sec)) as [e|] eqn:Hx; [|done].
    destruct (reservations_satisfy _ w q e x d c1 f h m hst q' c2 (proj1 Hcore') Hx (cl_block _ _ _ _ _ Hq) Hp Hres1 Hs)
      as [Hr2 Hg]. split; [|exact Hg]. by apply (keeps_clusivity _ _ _ _ _ Hc3).
  - apply bind_ok in H as (c2 & Hc2 & (? & _ & H)%bind_ok).
    assert (Ht : tags c2 = tags c1).
    { unfold incMissCount in Hc2. apply bind_ok in Hc2 as (? & _ & [= <-]). by destruct (missCount c =? 0). }
    assert (Hr2 : reservations c2 hst) by (by eapply keeps_tags).
    destruct (m !! (x, sec)) as [e|] eqn:Hx; [simplify_eq; by split|].
    destruct (isLLSC (cmd (pkt q)) && isWrite (cmd (pkt q))) eqn:Hsc; simplify_eq.
    + split; [|by intros _ ?]. unfold reservations. rewrite Ht. eapply (reservations_absent _ c1); [apply Hcore'| |done].
      by rewrite <-(cl_block _ _ _ _ _ Hq).
    + split; [done|]. intros _ Hc. by rewrite Hc in Hsc.
Qed.

(** ... or not. *)
Lemma reservations_miss w q x d c f h m hst l q' o wbs c' : time_ok w → core (curTick w) c [] f h m None →
  client_ok q x → request_ok n x (pkt q) d → ms_block (below c) x → m !! (x, sec) = None → idle (curTick w) c →
  reservations c hst → handleAtomicReqMiss w q None c = Ok (l, q', o, wbs, c') → reservations c' (note (pkt q) hst).
Proof.
  intros Hw Hcore Hq Hp Hblk Hx Hidle Hres H. pose proof (cf_pos _ (lo_conf _ _ _ _ _ _ (proj1 Hcore))) as Hn.
  destruct (fetch_ok w q x d c f h m Hw Hcore Hq Hp Hblk Hx)
    as (bus & ticks & resp & mem' & Hbus & Hsend & Hlr & Hrid & Hcore1 & Hfr).
  destruct (align_u64 _ Hn (cl_addr _ _ _ _ _ Hq)) as [Hx64 Hmod]. rewrite <-(cl_block _ _ _ _ _ Hq) in Hx64, Hmod.
  unfold handleAtomicReqMiss in H. rewrite Hbus in H. cbn [mbind res_bind] in H. rewrite Hsend in H. cbn [mbind res_bind] in H.
  do 5 (apply bind_ok in H as (? & _ & H)). rewrite (lr_cmd _ _ _ Hlr) in H. change (isError ReadResp) with false in H.
  apply bind_ok in H as ([[o1 wbs1] c2] & Hf & ([q3 c3] & Hs & (c4 & H4 & (? & _ & ?)%bind_ok)%bind_ok)%bind_ok). simplify_eq.
  apply bind_ok in Hf as ([[r1 wbs2] c5] & Hf & ?). simplify_eq. set (c1 := set_below mem' c) in *.
  assert (Hres1 : reservations c1 hst) by (by eapply keeps_tags).
  apply (keeps_clusivity _ _ _ _ _ H4). pose proof (keeps_fill _ _ _ _ _ _ _ _ Hf hst Hres1) as Hres2.
  destruct (allocOnFill ReadResp c1) eqn:Hal.
  - destruct (fill_new w resp x c1 f h m Hw Hcore1 Hlr) as (e & wbs3 & c6 & h2 & m2 & Hfill & Hcore2 & Hx2 & _); try done.
    { rewrite Hrid. apply Hq. } { by apply (fr_blocks _ _ Hfr). }
    rewrite Hf in Hfill. simplify_eq.
    by destruct (reservations_satisfy _ w q e x d c6 f h2 m2 hst q3 c3 (proj1 Hcore2) Hx2 (cl_block _ _ _ _ _ Hq) Hp Hres2 Hs).
  - destruct (fill_temp w resp x c1 f h m Hw Hcore1) as (b & k & Hfill & _); try done.
    rewrite Hf in Hfill. simplify_eq. assert (Ht : tags c3 = tags c).
    { apply bind_ok in Hs as (? & _ & Hs). unfold base_satisfyRequest in Hs. apply bind_ok in Hs as (? & _ & Hs).
      do 3 (apply bind_ok in Hs as (? & _ & Hs)). case_match.
      - apply bind_ok in Hs as (? & _ & ([[? ?] ?] & _ & ?)%bind_ok). by simplify_eq.
      - apply bind_ok in Hs as (? & _ & (? & Hi & ?)%bind_ok). cbn in Hi. by simplify_eq. }
    unfold reservations. rewrite Ht. eapply (reservations_absent _ c); [apply Hcore| |done].
    by rewrite <-(cl_block _ _ _ _ _ Hq).
Qed.

(** The last steps of [recvAtomic]. *)
Lemma reservations_last w lat q o wbs c lat' q' c' hst :
  (c1 ← doWritebacksAtomic w wbs c; c2 ← retire_temp w o c1;
   p ← (if needsResponse (cmd (pkt q)) then makeResponse (pkt q) else Ok (pkt q));
   Ok (lat * clockPeriod (conf c2), with_pkt p q, c2)) = Ok (lat', q', c') →
  reservations c hst → reservations c' hst ∧ req (pkt q') = req (pkt q).
Proof.
  intros (c2 & H2 & (c3 & H3 & (p & Hp & ?)%bind_ok)%bind_ok)%bind_ok Hres. simplify_eq. split.
  - by apply (keeps_retire _ _ _ _ H3), (keeps_flush _ _ _ _ H2).
  - destruct (needsResponse (cmd (pkt q))); [|by simplify_eq]. unfold makeResponse in Hp. by inv_ok.
Qed.

Lemma reservations_recv w q x d c f hst lat q' c' : time_ok w → rep (curTick w) c f → tempBlockWriteback c = None →
  client_ok q x → request_ok n x (pkt q) d → ms_block (below c) x → reservations c hst →
  recvAtomic w q c = Ok (lat, q', c') → reservations c' (note (pkt q) hst) ∧ granted hst q q'.
Proof.
  intros Hw (h & m & Hcore & Hidle & Hev) Hpend Hq Hp Hblk Hres H. rewrite Hpend in Hcore, Hev. cbn [option_list] in Hcore.
  destruct (access_cmd _ (rq_cmd _ _ _ _ Hp)) as (_ & _ & _ & _ & _ & _ & Hcl & _).
  unfold recvAtomic in H. do 2 (apply bind_ok in H as (? & _ & H)). unfold base_recvAtomic in H.
  destruct (access_ok w q x d (lookupLatency (conf c)) c f h m Hcore Hq Hp)
    as [(ok & o & lat1 & c1 & m1 & Hs)|(lat1 & c1 & m1 & Hacc & Hcore1 & Hx & Hfr)].
  - destruct (flat_step f (pkt q) d ok) as [f' read]. destruct Hs as (Hacc & _ & _ & Hblk1).
    destruct (reservations_access w q x d _ c f h m hst _ _ _ _ _ _ Hcore Hq Hp Hres Hacc) as [Hr Hg].
    destruct (answer_ok (pkt q) read ok (rq_cmd _ _ _ _ Hp) (cl_quiet _ _ _ _ _ Hq)) as (_ & _ & Hcmd).
    rewrite Hacc in H. cbn [mbind res_bind pkt with_pkt] in H. rewrite Hcmd, Hcl in H.
    set (q1 := with_pkt _ q) in *.
    assert (Hlast : ('(lat, q, o, writebacks, c) ← Ok (lat1, q1, InTags <$> o, [], c1); c ← doWritebacksAtomic w writebacks c;
      c ← retire_temp w o c; p ← (if needsResponse (cmd (pkt q)) then makeResponse (pkt q) else Ok (pkt q));
      Ok (lat * clockPeriod (conf c), with_pkt p q, c)) = Ok (lat, q', c')).
    { destruct o as [e|]; [destruct (Hblk1 e eq_refl) as [b Hb]; rewrite Hb in H|]; exact H. }
    apply (reservations_last w lat1 q1 (InTags <$> o) [] c1 lat q' c' (note (pkt q) hst)) in Hlast as [Hr' Hreq]; [|done].
    split; [done|]. intros Hc. rewrite Hreq. by apply Hg.
  - destruct (reservations_access w q x d _ c f h m hst _ _ _ _ _ _ Hcore Hq Hp Hres Hacc) as [Hr Hns].
    rewrite Hacc in H. cbn [mbind res_bind doWritebacksAtomic fmap option_fmap option_map] in H.
    apply bind_ok in H as ([[[[l2 q2] o2] wbs2] c2] & H2 & H).
    apply bind_ok in H2 as ([[[[l3 q3] o3] wbs3] c3] & H3 & ?). simplify_eq.
    assert (Hr3 : reservations c2 (note (pkt q) hst)).
    { eapply (reservations_miss w q x d c1); try done; [by apply (fr_blocks _ _ Hfr)|by eapply frame_idle]. }
    apply reservations_last with (hst := note (pkt q) hst) in H as [? _]; [|done]. split; [done|]. intros Hc. by destruct Hns.
Qed.

(** Lines from above neither make nor use reservations. *)
Lemma line_noted p : cmd p ∈ lines → noted p = false.
Proof.
  intros Hin. unfold noted, is_ll. unfold lines in Hin.
  repeat (apply elem_of_cons in Hin as [Hin|Hin]; [by rewrite Hin|]). by apply elem_of_nil in Hin.
Qed.

Lemma keeps_line w q o c e wbs c' : line_block w q o c = Ok (e, wbs, c') → keeps c c'.
Proof.
  unfold line_block. destruct o as [e0|]; [intros ?; simplify_eq; by intros h|].
  intros ([[e1 wbs1] c1] & H1 & (c2 & H2 & ?)%bind_ok)%bind_ok. simplify_eq.
  eapply keeps_trans; [by eapply keeps_allocate|by eapply keeps_or].
Qed.
Lemma keeps_receive w q e l c c' : receive_line w q e l c = Ok c' → keeps c c'.
Proof.
  intros (? & _ & (? & _ & (? & _ & (? & _ & H)%bind_ok)%bind_ok)%bind_ok)%bind_ok.
  eapply keeps_trans; [apply keeps_data|by eapply keeps_ready].
Qed.

Lemma keeps_access_line w q x d lat c sat o lat' wbs q' c' : client_ok q x → line_ok n x (pkt q) d →
  access w q lat c = Ok (sat, o, lat', wbs, q', c') → keeps c c'.
Proof.
  intros Hq Hp H. destruct (line_cmd _ (ln_cmd _ _ _ _ Hp)) as (_ & _ & _ & _ & _ & _ & _ & Hce & _ & Hcase).
  unfold access in H. apply bind_ok in H as ([[[[[sat0 o0] lat0] wbs0] q0] c0] & H & Hrest).
  assert (Hor : isWriteback (cmd (pkt q)) || bool_decide (cmd (pkt q) = WriteClean) = true).
  { destruct Hcase as [[-> _]|[_ ->]]; [done|apply orb_true_r]. }
  rewrite Hor in Hrest. eapply (keeps_trans _ c0).
  - clear Hrest. unfold base_access in H. do 2 (apply bind_ok in H as (? & _ & H)).
    apply bind_ok in H as ([[o1 l1] t1] & Ht & H). rewrite (cl_plain _ _ _ _ _ Hq) in H.
    eapply (keeps_trans _ (set_tags t1 c)); [intros hst; by eapply reservations_lookup|].
    rewrite (ln_through _ _ _ _ Hp) in H. destruct Hcase as [[Hwb _]|[Hwb Hwc]]; rewrite Hwb in H.
    + apply bind_ok in H as (? & _ & ([[e wbs1] c2] & H2 & (c3 & H3 & (c4 & H4 & [= <- <- <- <- <- <-])%bind_ok)%bind_ok)%bind_ok).
      eapply (keeps_trans _ c2); [by eapply keeps_line|]. eapply (keeps_trans _ c3); [|by eapply keeps_receive].
      unfold writeback_status in H3. apply bind_ok in H3 as (c5 & H5 & H3). eapply (keeps_trans _ c5).
      * destruct (bool_decide (cmd (pkt q) = WritebackDirty)); [by eapply keeps_or|]. simplify_eq. by intros hst.
      * destruct (SF.hasSharers (pkt q)); [simplify_eq; by intros hst|by eapply keeps_or].
    + rewrite bool_decide_false, bool_decide_true in H by done. apply bind_ok in H as (? & _ & H).
      replace (match o1 with None => false | Some _ => false end) with false in H by (by destruct o1).
      apply bind_ok in H as ([[e wbs1] c2] & H2 & (c3 & H3 & (c4 & H4 & [= <- <- <- <- <- <-])%bind_ok)%bind_ok).
      eapply (keeps_trans _ c2); [by eapply keeps_line|]. eapply (keeps_trans _ c3); [by eapply keeps_or|by eapply keeps_receive].
  - clear H. destruct o0 as [e|]; [|done].
    apply bind_ok in Hrest as (? & _ & (? & _ & (c1 & H1 & [= <- <- <- <- <- <-])%bind_ok)%bind_ok). by eapply keeps_or.
Qed.

Lemma reservations_line w q x d c f hst lat q' c' : time_ok w → rep (curTick w) c f → tempBlockWriteback c = None →
  client_ok q x → line_ok n x (pkt q) d → (cmd (pkt q) = WritebackClean → d = load f x N) → ms_block (below c) x →
  reservations c hst → recvAtomic w q c = Ok (lat, q', c') → reservations c' hst.
Proof.
  intros Hw (h & m & Hcore & Hidle & Hev) Hpend Hq Hp Hclean Hblk Hres H. rewrite Hpend in Hcore, Hev. cbn [option_list] in Hcore.
  unfold recvAtomic in H. do 2 (apply bind_ok in H as (? & _ & H)). unfold base_recvAtomic in H.
  destruct (access_line_ok w q x d (lookupLatency (conf c)) c f h m Hw Hcore Hq Hp Hblk Hclean)
    as (e & lat1 & wbs & c1 & h1 & m1 & Hacc & _ & _ & b & Hb).
  destruct (line_cmd _ (ln_cmd _ _ _ _ Hp)) as (_ & _ & _ & _ & _ & Hcl & _).
  rewrite Hacc in H. cbn [mbind res_bind] in H. rewrite Hb, Hcl in H. cbn [mbind res_bind andb] in H.
  apply bind_ok in H as (c2 & H2 & H). apply reservations_last with (hst := hst) in H as [? _]; [done|].
  apply (keeps_flush _ _ _ _ H2). by eapply keeps_access_line.
Qed.

(** ** A sequence of accesses *)

(** The event runs before the next access. *)
Definition serve (w : env) (q : CPkt) c : res (CPkt * cache I P M) :=
  '(_, q, c) ← recvAtomic w q c; c ← run_event w c; Ok (q, c).
Fixpoint serve_all (qs : list (env * CPkt)) c : res (list Packet * cache I P M) :=
  match qs with
  | [] => Ok ([], c)
  | (w, q) :: qs => '(a, c) ← serve w q c; '(l, c) ← serve_all qs c; Ok (pkt a :: l, c)
  end.

(** The answers of a flat memory with the bytes [f] to requests, after the
    requests [h]: a store-conditional may fail, and succeeds only with a
    reservation. *)
Inductive flat_run : list Packet → (Z → Z) → list (env * CPkt) → list Packet → (Z → Z) → Prop :=
| flat_done h f : flat_run h f [] [] f
| flat_next h f w q d qs ok l f2 :
    data (pkt q) = Some d →
    (cmd (pkt q) = StoreCondReq → ok = true → reserved h (pkt q)) →
    flat_run (note (pkt q) h) (flat_step f (pkt q) d ok).1 qs l f2 →
    flat_run h f ((w, q) :: qs) (answer (pkt q) (flat_step f (pkt q) d ok).2 (sc_outcome (pkt q) ok) :: l) f2.

(** Requests with their times: no earlier than [t], each for a block the
    memory has. *)
Fixpoint acceptable_seq (mem : M) (t : Z) (qs : list (env * CPkt)) : Prop :=
  match qs with
  | [] => True
  | (w, q) :: qs =>
      time_ok w ∧ t ≤ curTick w ∧
      (∃ x d, client_ok q x ∧ ms_block mem x ∧
        (request_ok n x (pkt q) d ∨ line_ok n x (pkt q) d ∧ cmd (pkt q) ≠ WritebackClean)) ∧
      acceptable_seq mem (curTick w) qs
  end.

Lemma acceptable_mono mem mem' t qs : (∀ y, ms_block mem y → ms_block mem' y) →
  acceptable_seq mem t qs → acceptable_seq mem' t qs.
Proof.
  intros Hsub. revert t. induction qs as [|[w q] qs IH]; intros t; [done|].
  cbn [acceptable_seq]. intros (? & ? & (x & d & ? & ? & ?) & ?). split_and!; try done; [by eauto 6|by apply IH].
Qed.

Lemma rep_later t t' c f : t ≤ t' → rep t c f → rep t' c f.
Proof.
  intros Ht (h & m & [Hl (g & Hg & Hgh)] & (Hs & Hti & Hlen) & Hev). exists h, m. split; [|split; [|done]].
  - split; [by eapply local_later|]. exists g. split; [by eapply ms_later|done].
  - split; [done|]. split; [lia|done].
Qed.

Definition noted_all (qs : list (env * CPkt)) (h : list Packet) : list Packet :=
  foldl (λ h q, note (pkt q.2) h) h qs.

Lemma answer_extra p read ok : cmd p = StoreCondReq →
  req_extraData (req (answer p read (sc_outcome p ok))) = Some (if ok then 1 else 0).
Proof. intros Hc. unfold answer, sc_outcome. rewrite Hc. cbn. by case_match. Qed.

(** One access. *)
Lemma recv_reservations w q x d c f hst lat q' c' : time_ok w → rep (curTick w) c f → tempBlockWriteback c = None →
  sendable q x d f → ms_block (below c) x → reservations c hst → recvAtomic w q c = Ok (lat, q', c') →
  reservations c' (note (pkt q) hst) ∧ granted hst q q'.
Proof.
  intros Hw Hr Hp [Hq [Hreq|[Hline Hclean]]] Hb Hres H; [by eapply reservations_recv|].
  unfold note. rewrite line_noted by apply Hline. split; [by eapply reservations_line|].
  intros Hc. pose proof (ln_cmd _ _ _ _ Hline) as Hin. rewrite Hc in Hin. unfold lines in Hin. set_solver.
Qed.

Lemma serve_all_ok qs t c f hst : rep t c f → tempBlockWriteback c = None → reservations c hst → acceptable_seq (below c) t qs →
  ∃ l c' f', serve_all qs c = Ok (l, c') ∧ flat_run hst f qs l f' ∧
    (∃ t', rep t' c' f') ∧ tempBlockWriteback c' = None ∧ reservations c' (noted_all qs hst).
Proof.
  revert t c f hst. induction qs as [|[w q] qs IH]; intros t c f hst Hrep Hpend Hres Hacc; cbn [serve_all].
  - exists [], c, f. split_and!; [done|constructor|by eexists|done|done].
  - destruct Hacc as (Hw & Ht & (x & d & Hq & Hblk & Hp) & Hacc).
    pose proof (rep_later _ _ _ _ Ht Hrep) as Hrep'.
    assert (Hsend : sendable q x d f).
    { split; [done|]. destruct Hp as [Hp|[Hp Hne]]; [by left|right; by split]. }
    destruct (atomic_ok w q x d c f Hw Hrep' Hpend Hsend Hblk) as (ok & lat & c1 & Ha).
    assert (Hd : data (pkt q) = Some d) by (destruct Hp as [Hp|[Hp _]]; apply Hp).
    unfold answers in Ha. pose proof (flat_next hst f w q d qs ok) as Hnext.
    destruct (flat_step f (pkt q) d ok) as [f1 read]. cbn [fst snd] in Hnext.
    destruct Ha as (Hrecv & Hrep1 & _ & Hbl1 & _).
    destruct (recv_reservations w q x d c f hst _ _ _ Hw Hrep' Hpend Hsend Hblk Hres Hrecv) as [Hres1 Hg].
    destruct (event_ok w c1 f1 Hw Hrep1) as (c2 & Hevent & Hrep2 & Hpend2 & _ & Hbl2).
    unfold serve. rewrite Hrecv. cbn [mbind res_bind]. rewrite Hevent. cbn [mbind res_bind].
    destruct (IH _ c2 f1 (note (pkt q) hst) Hrep2 Hpend2) as (l & c3 & f3 & Hall & Hflat & Hrep3 & Hpend3 & Hres3).
    { by apply (keeps_run_event _ _ _ Hevent). }
    { eapply acceptable_mono; [|exact Hacc]. auto. }
    rewrite Hall. cbn [mbind res_bind pkt with_pkt]. eexists _, c3, f3. split_and!; try done. apply Hnext; [done| |done].
    intros Hc ->. apply Hg; [done|]. cbn [pkt with_pkt]. by rewrite answer_extra.
Qed.
End Atomic.
End Atomic.
