(* ===== verification/CacheFunctional.v ===== *)
(** * Functional accesses to the non-coherent cache

    A functional access sees and changes the bytes the clients of the cache
    see, and [memWriteback] with [memInvalidate] move them all to the memory
    below. *)

From S2P Require Import Prelude.
From S2P Require Import Intmath.
From S2P Require Import Clocked.
From S2P Require Import MemCmd.
From S2P Require Import Packet.
From S2P Require Import AbstractMem.
From S2P Require Import SnoopFilter.
From S2P Require Import RpBase.
From S2P Require Import CacheIndex.
From S2P Require Import Replacement.
From S2P Require Import CacheBlk.
From S2P Require Import CacheTags.
From S2P Require Import NoncoherentCache.
From S2P Require Import CacheFlat.
From S2P Require Import CacheCore.
From S2P Require Import CacheSteps.
From S2P Require Import CacheRun.
From S2P Require Import CacheAtomic.

Module Func.
Import MemCmd Pkt AbsMem RpBase Idx Rp Blk Clk NC Flat Core Steps CRun Atomic.

(** ** A packet against the block around it *)
Section Within.
Context (p : Packet) (x : Z) (n : Z) (d o : list Z).
Context (Hn : 0 < n < 2 ^ 32) (Hx : 0 ≤ x ∧ x + n ≤ 2 ^ 64) (Hp : x ≤ addr p ∧ addr p + size p ≤ x + n) (Hs : 0 < size p).
Context (Hd : data p = Some d) (Hl : Z.of_nat (length d) = size p) (Ho : Z.of_nat (length o) = n).
Context (Hv : bytesValid p = [] ∨ Z.of_nat (length (bytesValid p)) = size p) (Hm : isMaskedWrite p = false).

Lemma within_meets : meets p d x o.
Proof. split; try done. split; lia. Qed.

Lemma within_overlap : overlap (addr p) (size p) x n = (0, addr p - x, size p).
Proof. rewrite overlap_spec by (split; lia). f_equal; [f_equal|]; lia. Qed.

Lemma splice_all {A} (l l' : list A) : length l = length l' → splice l 0 l' = l'.
Proof. intros He. unfold splice. rewrite take_0, Nat.add_0_l, drop_ge by lia. by rewrite app_nil_r. Qed.

Lemma tracked_length : Z.of_nat (length (tracked_bytes p)) = size p.
Proof. unfold tracked_bytes. destruct (bytesValid p) eqn:E; [rewrite length_replicate; lia|]. by destruct Hv. Qed.

(** A read takes all its bytes from the block, and is then complete. *)
Lemma read_within : cmd p = ReadReq →
  trySatisfyFunctional p x (secure p) n (Some o) =
    Ok (true, set_valid (replicate (Z.to_nat (size p)) true)
                (set_data (Some (take (Z.to_nat (size p)) (drop (Z.to_nat (addr p - x)) o))) p), Some o).
Proof.
  intros Hc. rewrite <-Ho at 1. rewrite (satisfy_guards p d x o within_meets) by (by rewrite Hc).
  rewrite Ho, within_overlap. rewrite Hc. cbn [isRead]. change (isRead ReadReq) with true. cbv iota.
  unfold getPtr. rewrite Hm, Hd. cbn [negb assertb mbind res_bind]. change (Z.to_nat 0) with 0%nat.
  rewrite !splice_all.
  - f_equal. f_equal. f_equal. induction (Z.to_nat (size p)) as [|k IH]; [done|exact IH].
  - rewrite length_take, length_drop. lia.
  - rewrite length_replicate. pose proof tracked_length. lia.
Qed.

(** A write goes into the block and on to the memory. *)
Lemma write_within : cmd p = WriteReq →
  trySatisfyFunctional p x (secure p) n (Some o) = Ok (false, p, Some (splice o (Z.to_nat (addr p - x)) d)).
Proof.
  intros Hc. rewrite <-Ho at 1. rewrite (satisfy_guards p d x o within_meets) by (by rewrite Hc).
  rewrite Ho, within_overlap. rewrite Hc. change (isRead WriteReq) with false. change (isWrite WriteReq) with true.
  cbv iota. unfold getConstPtr. rewrite Hd. cbn [mbind res_bind]. change (Z.to_nat 0) with 0%nat.
  rewrite drop_0, take_ge by lia. done.
Qed.
End Within.

Section Func.
Context {I P M : Type} `{ixI : Indexing I} `{ixO : !IndexingOk I} `{rpP : ReplacementPolicy P} `{rpO : !PolicyOk P}.
Context `{msM : MemSide M} {n : Z} {sec : bool} {maxreq : Z} `{msO : !MemSideOk M n sec maxreq}.
Implicit Types c : cache I P M.
Implicit Types m : gmap (Z * bool) nat.

Local Notation N := (Z.to_nat n).
Local Notation pol c := (ix_policy (Tags.indexing (tags c))).
Local Notation ba y := (y - y mod n).
Local Notation local := (local (n:=n) (sec:=sec) (maxreq:=maxreq)).
Local Notation core := (core (n:=n) (sec:=sec) (maxreq:=maxreq)).
Local Notation rep := (rep (n:=n) (sec:=sec) (maxreq:=maxreq)).

(** A block ends within the address space. *)
Lemma block_top t c f h m ex x : local t c f h m ex → is_u64 x → x mod n = 0 → x + n ≤ 2 ^ 64.
Proof.
  intros Hl Hx Hmod. pose proof (shift_small _ _ _ _ _ _ Hl) as Hs. pose proof (lo_conf _ _ _ _ _ _ Hl) as Hc.
  pose proof (shift_nonneg c Hc) as H0. pose proof (cf_pos _ Hc) as Hn. rewrite <-(cf_shift _ Hc) in *.
  set (k := setShift (pol c)) in *. replace (2 ^ 64) with (2 ^ k * 2 ^ (64 - k)) by (rewrite <-Z.pow_add_r by lia; f_equal; lia).
  set (T := 2 ^ (64 - k)). apply Z.div_exact in Hmod; [|lia].
  assert (Hx' : x < 2 ^ k * T).
  { unfold is_u64 in Hx. replace (2 ^ k * T) with (2 ^ 64); [lia|]. unfold T. rewrite <-Z.pow_add_r by lia. f_equal. lia. }
  assert (x / 2 ^ k < T) by (apply Z.div_lt_upper_bound; lia). nia.
Qed.

(** ** The bytes after a functional access *)
Definition touched (p : Packet) (d : list Z) (f : Z → Z) : Z → Z :=
  if bool_decide (cmd p = WriteReq) then store f (addr p) d (λ _, true) else f.

Lemma touched_flat q x d f y : is_functional n sec q x d → (flat_step f (pkt q) d true).1 y = touched (pkt q) d f y.
Proof.
  intros Hq. unfold touched, flat_step. destruct (fn_cmd _ _ _ _ _ Hq) as [Hc|Hc]; rewrite Hc; cbn; [done|].
  unfold store, enabled. by rewrite (fn_mask _ _ _ _ _ Hq).
Qed.

Lemma touched_ext p d f g y : f y = g y → touched p d f y = touched p d g y.
Proof. intros H. unfold touched. case_bool_decide; [|done]. unfold store. by destruct (byte_at _ _ _). Qed.

Lemma touched_outside q x d f y : 0 < n → is_functional n sec q x d → ¬ (x ≤ y < x + n) → touched (pkt q) d f y = f y.
Proof.
  intros Hn Hq Hy. unfold touched. case_bool_decide; [|done]. unfold store.
  pose proof (fn_size _ _ _ _ _ Hq). pose proof (fn_block _ _ _ _ _ Hq). pose proof (fn_length _ _ _ _ _ Hq).
  pose proof (Z.mod_pos_bound (addr (pkt q)) n Hn).
  rewrite byte_at_lookup. replace (_ && _) with false; [done|]. symmetry. zcmp.
Qed.

(** Of a block that is not cached only the memory changes. *)
Lemma local_uncached t c f f' h h' m x : local t c f h m None → m !! (x, sec) = None → x mod n = 0 →
  (∀ y, ¬ (x ≤ y < x + n) → f' y = f y) → (∀ y, ¬ (x ≤ y < x + n) → h' y = h y) →
  (∀ y, x ≤ y < x + n → f' y = h' y) → local t c f' h' m None.
Proof.
  intros Hl Hx Hmod Hf Hh Hin. pose proof (cf_pos _ (lo_conf _ _ _ _ _ _ Hl)) as Hn.
  assert (Hblk : ∀ x' e, m !! (x', sec) = Some e → load f' x' N = load f x' N ∧ load h' x' N = load h x' N).
  { intros x' e Hx'. destruct (present _ _ _ _ _ _ _ _ _ Hl Hx') as (_ & _ & _ & _ & _ & Hm' & _).
    assert (Hout : ∀ y, x' ≤ y < x' + n → ¬ (x ≤ y < x + n)).
    { intros y Hy Hy'. rewrite <-(ba_unique x y) in Hx by done. rewrite (ba_unique x' y) in Hx by done. congruence. }
    split; apply load_ext; intros y Hy; (apply Hf || apply Hh); apply Hout; lia. }
  destruct Hl. split; try done.
  - intros x' e b Hx' Hne Hb. destruct (Hblk x' e Hx') as [-> ->]. eauto.
  - intros y Hy. destruct (decide (x ≤ y < x + n)); [by apply Hin|]. rewrite Hf, Hh by done. eauto.
Qed.

(** ** On to the memory *)
Lemma pass_ok t c f h g m q x d : ms_rep t (below c) g → (∀ y, g y = h y) →
  local t c f (touched (pkt q) d h) m None → ms_block (below c) x → is_functional n sec q x d →
  ∃ q' c', sendFunctional q c = Ok (q', c') ∧ core t c' [] f (touched (pkt q) d h) m None ∧
    frame (n:=n) (sec:=sec) (maxreq:=maxreq) c c' ∧ isResponse (cmd (pkt q')) = true ∧
    (cmd (pkt q) = ReadReq → data (pkt q') = Some (load h (addr (pkt q)) (Z.to_nat (size (pkt q))))).
Proof.
  intros Hg Hgh Hl Hblk Hq. destruct (ms_functional t (below c) g q x d Hg Hblk Hq) as (q' & m' & Hs & Hr & Hresp & Hdata & Hb).
  unfold sendFunctional. rewrite Hs. cbn [mbind res_bind]. eexists q', _. split; [done|]. split; [|split; [by split|split; [done|]]].
  - split; [by apply local_below|]. eexists. split; [exact Hr|]. intros y. rewrite (touched_flat q x) by done.
    by apply touched_ext.
  - intros Hc. rewrite (Hdata Hc). f_equal. apply load_ext. auto.
Qed.

(** The packet that goes on after the block has filled it. *)
Lemma filled_functional q x d d' v : is_functional n sec q x d → cmd (pkt q) = ReadReq → length d' = length d →
  Z.of_nat (length v) = size (pkt q) →
  is_functional n sec (with_pkt (set_valid v (set_data (Some d') (pkt q))) q) x d'.
Proof. intros [] Hc Hl Hv. split; try done; cbn; [congruence|by right]. Qed.

(** ** A functional access *)
Lemma find_ok t c f h m q x d : local t c f h m None → is_functional n sec q x d →
  Tags.findBlock (tags c) (addr (pkt q)) (secure (pkt q)) = Ok (m !! (x, sec)).
Proof.
  intros Hl Hq. rewrite (fn_secure _ _ _ _ _ Hq), (fn_block _ _ _ _ _ Hq).
  rewrite <-(block_policy c) by apply Hl. apply Tags.findBlock_spec; [apply Hl|apply Hq].
Qed.

(** What the block that is present makes of a packet. *)
Lemma block_satisfies t c f h m q x d e b : local t c f h m None → is_functional n sec q x d → m !! (x, sec) = Some e →
  Tags.blks (tags c) !! e = Some b →
  satisfy_from_block q c =
    if bool_decide (cmd (pkt q) = WriteReq)
    then Ok (false, q, patch (InTags e) b (load (touched (pkt q) d f) x N) (clock c) c)
    else Ok (isDirty b,
             with_pkt (set_valid (replicate (Z.to_nat (size (pkt q))) true)
               (set_data (Some (load f (addr (pkt q)) (Z.to_nat (size (pkt q))))) (pkt q))) q, c).
Proof.
  intros Hl Hq Hx Hb. unfold satisfy_from_block. rewrite (find_ok _ _ _ _ _ _ _ _ Hl Hq), Hx. cbn [mbind res_bind].
  destruct (present _ _ _ _ _ _ _ _ _ Hl Hx) as (b0 & Hb0 & Hv & _ & _ & Hmod & Hx64 & _).
  assert (b0 = b) as -> by congruence. pose proof (block_top _ _ _ _ _ _ x Hl Hx64 Hmod) as Htop.
  destruct (lo_blk _ _ _ _ _ _ Hl x e b Hx) as (_ & Hd & _); [done|done|].
  pose proof (lo_conf _ _ _ _ _ _ Hl) as Hc. pose proof (cf_pos _ Hc) as Hn. pose proof (cf_small _ Hc) as Hsm.
  assert (Hba : blk_at (InTags e) c = Ok b) by (unfold blk_at, Tags.get_blk, RpBase.get; by rewrite Hb).
  assert (Hda : data_at (InTags e) c = Ok (load f x N)) by (unfold data_at, RpBase.get; by rewrite Hd).
  rewrite Hba. cbn [mbind res_bind]. rewrite Hv, Hda. cbn [mbind res_bind]. rewrite (cf_size _ Hc).
  unfold getBlockAddr. rewrite (align_block c) by (done || apply Hq || by eapply shift_small).
  rewrite <-(fn_block _ _ _ _ _ Hq).
  pose proof (Z.mod_pos_bound (addr (pkt q)) n Hn) as Hb1. destruct Hq as [Hcmd Ha Hxa [Hs1 Hs2] Hdata Hlen Hmask _ Hvalid _ Hsec].
  assert (Hlo : Z.of_nat (length (load f x N)) = n) by (rewrite load_length; lia).
  unfold is_u64 in Hx64. assert (Hput : ∀ d', put_data (InTags e) d' c = patch (InTags e) b d' (clock c) c).
  { intros d'. rewrite <-(patch_id (InTags e) b (load f x N) c) at 1 by done. by rewrite patch_put_data. }
  destruct Hcmd as [Hcmd|Hcmd].
  - rewrite (read_within _ _ _ d) by (done || lia). cbn [mbind res_bind default]. rewrite Hput.
    rewrite (patch_id (InTags e) b) by done. rewrite bool_decide_false by congruence.
    rewrite load_take_drop by lia. by replace (x + Z.of_nat _) with (addr (pkt q)) by lia.
  - rewrite (write_within _ _ _ d) by (done || lia). cbn [mbind res_bind default andb].
    rewrite bool_decide_true by done. rewrite Hput, splice_load by lia. destruct q as [p ? ? ? ?]. cbn [pkt] in *.
    unfold touched. rewrite bool_decide_true by done. by replace (x + Z.of_nat _) with (addr p) by lia.
Qed.

Lemma read_response p : cmd p = ReadReq → ∃ p', makeResponse p = Ok p' ∧ isResponse (cmd p') = true ∧ data p' = data p.
Proof. intros Hc. unfold makeResponse. rewrite Hc. cbn [assertb mbind res_bind]. by eexists. Qed.

(** What a functional access promises. *)
Definition functional_answers (t : Z) (q : CPkt) (d : list Z) c (f : Z → Z) (q' : CPkt) c' : Prop :=
  functionalAccess q true c = Ok (q', c') ∧ rep t c' (flat_step f (pkt q) d true).1 ∧
  tempBlockWriteback c' = None ∧ conf c' = conf c ∧ isResponse (cmd (pkt q')) = true ∧
  (cmd (pkt q) = ReadReq → data (pkt q') = Some (load f (addr (pkt q)) (Z.to_nat (size (pkt q))))) ∧
  ∀ y, ms_block (below c) y → ms_block (below c') y.

Section Access.
Context (t : Z) (c : cache I P M) (f h g : Z → Z) (m : gmap (Z * bool) nat) (q : CPkt) (x : Z) (d : list Z).
Context (Hl : local t c f h m None) (Hg : ms_rep t (below c) g) (Hgh : ∀ y, g y = h y) (Hblk : ms_block (below c) x).
Context (Hidle : idle (n:=n) t c) (Hpend : tempBlockWriteback c = None) (Hev : wb_event c = false).
Context (Hq : is_functional n sec q x d).

Lemma functional_finish q' c' h' : base_functionalAccess q c = Ok (q', c') →
  core t c' [] (touched (pkt q) d f) h' m None → frame (n:=n) (sec:=sec) (maxreq:=maxreq) c c' →
  isResponse (cmd (pkt q')) = true →
  (cmd (pkt q) = ReadReq → data (pkt q') = Some (load f (addr (pkt q)) (Z.to_nat (size (pkt q))))) →
  functional_answers t q d c f q' c'.
Proof.
  intros Hf Hc' Hfr Hr Hd. split; [exact Hf|]. split; [|split_and!; try done; try apply Hfr].
  - eapply rep_ext; [intros y; by eapply touched_flat|]. by eapply (rep_of_core _ _ c).
  - by rewrite (fr_pending _ _ Hfr).
Qed.

Lemma read_agrees : load f x N = load h x N → load h (addr (pkt q)) (Z.to_nat (size (pkt q))) =
  load f (addr (pkt q)) (Z.to_nat (size (pkt q))).
Proof.
  intros He. pose proof (fn_size _ _ _ _ _ Hq). pose proof (fn_block _ _ _ _ _ Hq).
  pose proof (Z.mod_pos_bound (addr (pkt q)) n (cf_pos _ (lo_conf _ _ _ _ _ _ Hl))).
  apply load_ext. intros y Hy. symmetry. apply (load_same f h x N y He). lia.
Qed.

Lemma touched_out f0 y : ¬ (x ≤ y < x + n) → touched (pkt q) d f0 y = f0 y.
Proof. eapply touched_outside; [apply (cf_pos _ (lo_conf _ _ _ _ _ _ Hl))|done]. Qed.

Lemma functional_write e b : m !! (x, sec) = Some e → Tags.blks (tags c) !! e = Some b → cmd (pkt q) = WriteReq →
  ∃ q' c', functional_answers t q d c f q' c'.
Proof.
  intros Hx Hb Hcmd. destruct (present _ _ _ _ _ _ _ _ _ Hl Hx) as (b0 & Hb0 & Hv & _).
  destruct (lo_blk _ _ _ _ _ _ Hl x e b Hx) as (Hok & Hd & Hclean); [done|done|].
  destruct (pass_ok t (patch (InTags e) b (load (touched (pkt q) d f) x N) (clock c) c)
    (touched (pkt q) d f) h g m q x d) as (q' & c' & Hs & Hc' & Hfr & Hr & _); [done|done| |done|done|].
  { eapply (local_update_both t c f _ h); try done;
      [by left|split_and!; (done || congruence)|by eapply lo_inserted|apply Hl|intros; by apply touched_out..|].
    intros Hcl. specialize (Hclean Hcl). apply load_ext. intros y Hy. apply touched_ext. by eapply (load_same f h x N). }
  exists q', c'. eapply functional_finish; [|exact Hc'|by eapply frame_trans; [|exact Hfr]|done|congruence].
  unfold base_functionalAccess. rewrite (block_satisfies _ _ _ _ _ _ _ _ _ _ Hl Hq Hx Hb), bool_decide_true by done. exact Hs.
Qed.

Lemma functional_read e b : m !! (x, sec) = Some e → Tags.blks (tags c) !! e = Some b → cmd (pkt q) = ReadReq →
  ∃ q' c', functional_answers t q d c f q' c'.
Proof.
  intros Hx Hb Hc. destruct (lo_blk _ _ _ _ _ _ Hl x e b Hx) as (Hok & Hd & Hclean); [done|done|].
  assert (Ht : ∀ f0, touched (pkt q) d f0 = f0) by (intros; unfold touched; by rewrite bool_decide_false by congruence).
  pose proof functional_finish as Hfin. unfold base_functionalAccess in Hfin. rewrite Ht in Hfin.
  rewrite (block_satisfies _ _ _ _ _ _ _ _ _ _ Hl Hq Hx Hb), bool_decide_false in Hfin by congruence.
  cbn [mbind res_bind] in Hfin. destruct (isDirty b) eqn:Hdirty.
  - set (p' := set_valid _ _) in *. destruct (read_response p' Hc) as (p2 & Hm2 & Hr2 & Hd2).
    cbn [pkt with_pkt] in Hfin. rewrite Hm2 in Hfin. cbn [mbind res_bind] in Hfin.
    eexists _, c. eapply (Hfin _ _ h); [done|split; [done|by exists g]|apply frame_refl|done|]. intros _. cbn. by rewrite Hd2.
  - set (q1 := with_pkt _ q) in *.
    destruct (pass_ok t c f h g m q1 x (load f (addr (pkt q)) (Z.to_nat (size (pkt q)))))
      as (q' & c' & Hs & Hc' & Hfr & Hr & Hdat); [done|done| |done| |].
    { unfold touched. by rewrite bool_decide_false by (cbn; congruence). }
    { apply (filled_functional q x d); [done|done| |].
      - rewrite load_length. pose proof (fn_length _ _ _ _ _ Hq). lia.
      - rewrite length_replicate. pose proof (fn_size _ _ _ _ _ Hq). lia. }
    exists q', c'. eapply Hfin; [exact Hs|exact Hc'|done|done|]. intros _. rewrite (Hdat Hc). f_equal. by apply read_agrees, Hclean.
Qed.

Lemma functional_uncached : m !! (x, sec) = None → ∃ q' c', functional_answers t q d c f q' c'.
Proof.
  intros Hx. pose proof (ba_spec (addr (pkt q)) (cf_pos _ (lo_conf _ _ _ _ _ _ Hl))) as [_ Hmod].
  rewrite <-(fn_block _ _ _ _ _ Hq) in Hmod.
  assert (Hun : ∀ y, x ≤ y < x + n → f y = h y) by (intros; by eapply uncached).
  destruct (pass_ok t c (touched (pkt q) d f) h g m q x d) as (q' & c' & Hs & Hc' & Hfr & Hr & Hdat); [done|done| |done|done|].
  { eapply (local_uncached t c f _ h); try done; [intros; by apply touched_out..|]. intros y Hy. by apply touched_ext, Hun. }
  exists q', c'. eapply functional_finish; [|exact Hc'|done|done|].
  - unfold base_functionalAccess, satisfy_from_block. by rewrite (find_ok _ _ _ _ _ _ _ _ Hl Hq), Hx.
  - intros Hc. rewrite (Hdat Hc). f_equal. apply read_agrees, load_ext. intros y Hy.
    pose proof (cf_pos _ (lo_conf _ _ _ _ _ _ Hl)). apply Hun. lia.
Qed.
End Access.

Lemma functional_ok t c f q x d : rep t c f → tempBlockWriteback c = None → ms_block (below c) x →
  is_functional n sec q x d → ∃ q' c', functional_answers t q d c f q' c'.
Proof.
  intros (h & m & Hcore & Hidle & Hev) Hpend Hblk Hq. rewrite Hpend in Hcore, Hev. destruct Hcore as [Hl (g & Hg & Hgh)].
  destruct (m !! (x, sec)) as [e|] eqn:Hx; [|by eapply functional_uncached].
  destruct (present _ _ _ _ _ _ _ _ _ Hl Hx) as (b & Hb & _).
  destruct (fn_cmd _ _ _ _ _ Hq); [by eapply functional_read|by eapply functional_write].
Qed.

(** ** [memWriteback] *)
Definition cleaned (b : CacheBlk) : CacheBlk := set_status (Z.land (status b) (Z.lnot BlkDirty)) b.

Lemma cleaned_spec b : isDirty (cleaned b) = false ∧ isValid (cleaned b) = isValid b ∧ isSecure (cleaned b) = isSecure b ∧
  isReadable (cleaned b) = isReadable b ∧ isWritable (cleaned b) = isWritable b.
Proof.
  unfold isDirty, isValid, isSecure, isReadable, isWritable, cleaned. cbn [status set_status].
  split; [|by rewrite !status_keep].
  rewrite <-Z.land_assoc. change (Z.land (Z.lnot BlkDirty) BlkDirty) with 0. by rewrite Z.land_0_r.
Qed.

(** The blocks of [c'] are those of [c], with [e] as [b]. *)
Definition only_block (e : nat) (b : CacheBlk) c c' : Prop :=
  Tags.blks (tags c') = <[e := b]> (Tags.blks (tags c)).

Lemma whole_functional c x b : 0 < n → conf_ok (n:=n) (maxreq:=maxreq) c → x mod n = 0 → is_u64 x → isSecure b = sec →
  ∀ d, length d = N →
  is_functional n sec (mkCPkt (set_data (Some d) (Packet_new (wb_request x b c) WriteReq)) funcRequestorId (task_id b) 0 0) x d.
Proof.
  intros Hn Hc Hmod Hx Hs d Hd. unfold wb_request. rewrite (cf_size _ Hc), Hs.
  split; cbn; rewrite ?Hmod; try done; try lia; [by right|by destruct sec|by left|by destruct sec].
Qed.

Lemma writeback_visit t c f h m e b : core t c [] f h m None → Tags.blks (tags c) !! e = Some b →
  ∃ c' h' b', writebackVisitor e c = Ok c' ∧ core t c' [] f h' m None ∧
    frame (n:=n) (sec:=sec) (maxreq:=maxreq) c c' ∧ only_block e b' c c' ∧ isDirty b' = false.
Proof.
  intros [Hl (g & Hg & Hgh)] Hb. unfold writebackVisitor.
  assert (Hba : blk_at (InTags e) c = Ok b) by (unfold blk_at, Tags.get_blk, RpBase.get; by rewrite Hb).
  rewrite Hba. cbn [mbind res_bind]. destruct (isDirty b) eqn:Hdirty.
  2: { exists c, h, b. split; [done|]. split; [split; [done|by exists g]|]. split; [apply frame_refl|]. split; [|done].
    unfold only_block. by rewrite list_insert_id. }
  pose proof (lo_tags _ _ _ _ _ _ Hl) as [Hsh Hho].
  assert (Hv : isValid b = true).
  { destruct (isValid b) eqn:Hv; [done|]. unfold isDirty in Hdirty. by rewrite (Tags.sh_clear _ Hsh e b Hb Hv) in Hdirty. }
  destruct (Tags.ho_complete _ _ Hho e b Hb Hv) as [x Hx].
  destruct (lo_key _ _ _ _ _ _ Hl _ _ _ Hx) as [Hsec Hblk]. rewrite Hsec in Hx.
  destruct (present _ _ _ _ _ _ _ _ _ Hl Hx) as (_ & _ & _ & _ & _ & Hmod & Hx64 & Hre & _).
  destruct (lo_blk _ _ _ _ _ _ Hl x e b Hx) as (Hok & Hd & _); [done|done|].
  assert (Hda : data_at (InTags e) c = Ok (load f x N)) by (unfold data_at, RpBase.get; by rewrite Hd).
  pose proof (lo_conf _ _ _ _ _ _ Hl) as Hc. pose proof (cf_pos _ Hc) as Hn.
  rewrite Hv. cbn [assertb mbind res_bind regenerateBlkAddr]. rewrite Hre. cbn [mbind res_bind]. rewrite Hda. cbn [mbind res_bind].
  pose proof (whole_functional c x b Hn Hc Hmod Hx64 Hsec _ (load_length f x N)) as Hq. set (q := mkCPkt _ _ _ _ _) in *.
  unfold sendFunctional. destruct (ms_functional t (below c) g q x _ Hg Hblk Hq) as (q' & mem' & -> & Hr & _ & _ & Hbl).
  cbn [mbind res_bind]. set (c1 := set_below mem' c).
  assert (Hl1 : local t c1 f h m None) by (by apply local_below).
  assert (Hcs : and_not_status (InTags e) BlkDirty c1 = Ok (patch (InTags e) (cleaned b) (load f x N) (clock c1) c1)).
  { rewrite <-(patch_id (InTags e) b (load f x N) c1) at 1 by done. exact (patch_and_not_status _ _ _ _ _ _ (exists_entry _ _ _ _ _ _ _ _ Hl1 Hx)). }
  destruct (cleaned_spec b) as (Hcd & Hcv & Hcs' & Hcr & Hcw).
  eexists _, (touched (pkt q) (load f x N) h), (cleaned b). split; [exact Hcs|].
  split; [|split; [by split|split; [done|done]]]. split.
  - eapply (local_update_both t c1 f f h); try done; [by left| | |exact (lo_inserted _ _ _ _ _ _ Hl _ _ Hb)|apply Hl| |].
    + unfold Tags.same_tag. rewrite Hcv, Hcs', Hv. split_and!; (done || congruence).
    + destruct Hok as (? & ? & ?). unfold blk_ok. by rewrite Hcr, Hcw.
    + intros y Hy. by eapply touched_outside.
    + intros _. unfold touched. rewrite bool_decide_true by done. symmetry. apply store_block, load_length.
  - eexists. split; [exact Hr|]. intros y. rewrite (touched_flat q x) by done. by apply touched_ext.
Qed.

(** Nothing is dirty: the memory below has all the bytes. *)
Lemma clean_below t c f h m y : local t c f h m None →
  (∀ e b, Tags.blks (tags c) !! e = Some b → isDirty b = false) → f y = h y.
Proof.
  intros Hl Hclean. destruct (m !! (ba y, sec)) as [e|] eqn:Hm.
  - destruct (present _ _ _ _ _ _ _ _ _ Hl Hm) as (b & Hb & _).
    destruct (lo_blk _ _ _ _ _ _ Hl _ e b Hm) as (_ & _ & Heq); [done|done|].
    apply (load_same f h (ba y) N y (Heq (Hclean e b Hb))).
    pose proof (ba_spec y (cf_pos _ (lo_conf _ _ _ _ _ _ Hl))). lia.
  - apply (lo_out _ _ _ _ _ _ Hl). intros e He. congruence.
Qed.

Lemma writeback_visits t k e c f h m : core t c [] f h m None → (e + k = length (Tags.blks (tags c)))%nat →
  (∀ i b, Tags.blks (tags c) !! i = Some b → (i < e)%nat → isDirty b = false) →
  ∃ c' h', visit writebackVisitor k e c = Ok c' ∧ core t c' [] f h' m None ∧
    frame (n:=n) (sec:=sec) (maxreq:=maxreq) c c' ∧
    ∀ i b, Tags.blks (tags c') !! i = Some b → isDirty b = false.
Proof.
  revert e c h. induction k as [|k IH]; intros e c h Hcore Hlen Hclean; cbn [visit].
  - exists c, h. split; [done|]. split; [done|]. split; [apply frame_refl|].
    intros i b Hb. apply (Hclean i b Hb). apply lookup_lt_Some in Hb. lia.
  - destruct (lookup_lt_is_Some_2 (Tags.blks (tags c)) e) as [b Hb]; [lia|].
    destruct (writeback_visit t c f h m e b Hcore Hb) as (c1 & h1 & b1 & -> & Hcore1 & Hfr1 & Hbl & Hd1).
    cbn [mbind res_bind]. destruct (IH (S e) c1 h1 Hcore1) as (c' & h' & -> & Hcore' & Hfr' & Hall).
    + rewrite Hbl, length_insert. lia.
    + intros i b' Hb' Hi. rewrite Hbl in Hb'.
      apply Tags.insert_cases in Hb' as [[-> ->]|[Hne Hb']]; [done| |by eapply lookup_lt_Some].
      apply (Hclean i b' Hb'). lia.
    + exists c', h'. split; [done|]. split; [done|]. split; [by eapply frame_trans|done].
Qed.

Lemma writeback_all t c f : rep t c f → tempBlockWriteback c = None →
  ∃ c', memWriteback c = Ok c' ∧ rep t c' f ∧ tempBlockWriteback c' = None ∧ cache_isDirty c' = false ∧
    (∃ g, ms_rep t (below c') g ∧ ∀ y, g y = f y) ∧ ∀ y, ms_block (below c) y → ms_block (below c') y.
Proof.
  intros (h & m & Hcore & Hidle & Hev) Hpend. rewrite Hpend in Hcore, Hev.
  destruct (writeback_visits t (length (Tags.blks (tags c))) 0 c f h m Hcore) as (c' & h' & Hv & Hcore' & Hfr & Hcl);
    [done|intros; lia|].
  exists c'. split; [done|]. split; [by eapply (rep_of_core _ _ c)|]. split; [by rewrite (fr_pending _ _ Hfr)|].
  split; [|split; [|apply Hfr]].
  - unfold cache_isDirty, Tags.anyBlk. apply not_true_iff_false. rewrite existsb_exists.
    intros (b & Hb%list_elem_of_In & Hd). apply list_elem_of_lookup in Hb as [i Hi]. by rewrite (Hcl i b Hi) in Hd.
  - destruct Hcore' as [Hl (g & Hg & Hgh)]. exists g. split; [done|]. intros y. cbn [lands] in Hgh. rewrite Hgh.
    symmetry. by eapply clean_below.
Qed.

(** ** [memInvalidate] *)
Lemma invalidate_visit w c f h m e b : core (curTick w) c [] f h m None →
  Tags.blks (tags c) !! e = Some b → isDirty b = false →
  ∃ t' m' b', invalidateVisitor w e c = Ok (set_tags t' c) ∧ core (curTick w) (set_tags t' c) [] f h m' None ∧
    Tags.blks t' = <[e := b']> (Tags.blks (tags c)) ∧ isValid b' = false ∧ isDirty b' = false.
Proof.
  intros [Hl Hm] Hb Hd. unfold invalidateVisitor.
  assert (Hba : blk_at (InTags e) c = Ok b) by (unfold blk_at, Tags.get_blk, RpBase.get; by rewrite Hb).
  rewrite Hba. cbn [mbind res_bind]. destruct (isValid b) eqn:Hv.
  2: { exists (tags c), m, b. rewrite list_insert_id by done. destruct c. by split_and!. }
  rewrite Hd. cbn [negb assertb mbind res_bind].
  destruct (Tags.ho_complete _ _ (proj2 (lo_tags _ _ _ _ _ _ Hl)) e b Hb Hv) as [x Hx].
  destruct (lo_key _ _ _ _ _ _ Hl _ _ _ Hx) as [Hsec _]. rewrite Hsec in Hx.
  destruct (lo_blk _ _ _ _ _ _ Hl x e b Hx) as (_ & Hda & Hclean); [done|done|].
  destruct (invalidate_ok w (curTick w) c f h h m e x b b (clock c) (load f x N)) as (t' & Hi & Hl' & _ & Hbl); try done.
  { split_and!; (done || congruence). }
  { intros y Hy. apply (load_same f h x N y (Hclean Hd)). pose proof (cf_pos _ (lo_conf _ _ _ _ _ _ Hl)). lia. }
  rewrite patch_id in Hi by (done || (unfold data_at, RpBase.get; by rewrite Hda)).
  exists t', (Tags.without e m), (invalidate b). by split_and!.
Qed.

Lemma invalidate_visits w k e c f h m : core (curTick w) c [] f h m None → (e + k = length (Tags.blks (tags c)))%nat →
  (∀ i b, Tags.blks (tags c) !! i = Some b → isDirty b = false ∧ ((i < e)%nat → isValid b = false)) →
  ∃ t' m', visit (invalidateVisitor w) k e c = Ok (set_tags t' c) ∧ core (curTick w) (set_tags t' c) [] f h m' None ∧
    ∀ i b, Tags.blks t' !! i = Some b → isValid b = false.
Proof.
  revert e c m. induction k as [|k IH]; intros e c m Hcore Hlen Hall; cbn [visit].
  - exists (tags c), m. destruct c. split; [done|]. split; [done|].
    intros i b Hb. apply (Hall i b Hb). apply lookup_lt_Some in Hb. lia.
  - destruct (lookup_lt_is_Some_2 (Tags.blks (tags c)) e) as [b Hb]; [lia|].
    destruct (invalidate_visit w c f h m e b Hcore Hb) as (t1 & m1 & b1 & -> & Hcore1 & Hbl & Hv1 & Hd1); [by eapply Hall|].
    cbn [mbind res_bind]. destruct (IH (S e) (set_tags t1 c) m1 Hcore1) as (t' & m' & -> & Hcore' & Hinv).
    + cbn. rewrite Hbl, length_insert. lia.
    + cbn. intros i b' Hb'. rewrite Hbl in Hb'.
      apply Tags.insert_cases in Hb' as [[-> ->]|[Hne Hb']]; [done| |by eapply lookup_lt_Some].
      split; [by eapply Hall|]. intros Hi. apply (Hall i b' Hb'). lia.
    + exists t', m'. by split_and!.
Qed.

Lemma invalidate_all w c f : rep (curTick w) c f → tempBlockWriteback c = None → cache_isDirty c = false →
  ∃ c', memInvalidate w c = Ok c' ∧ rep (curTick w) c' f ∧ below c' = below c ∧ tempBlockWriteback c' = None ∧
    ∀ i b, Tags.blks (tags c') !! i = Some b → isValid b = false.
Proof.
  intros (h & m & Hcore & Hidle & Hev) Hpend Hclean. rewrite Hpend in Hcore, Hev.
  assert (Hall : ∀ i b, Tags.blks (tags c) !! i = Some b → isDirty b = false).
  { intros i b Hb. apply not_true_iff_false. intros Hd. unfold cache_isDirty, Tags.anyBlk in Hclean.
    apply not_true_iff_false in Hclean. apply Hclean, existsb_exists. exists b. split; [|done].
    by eapply list_elem_of_In, list_elem_of_lookup_2. }
  destruct (invalidate_visits w (length (Tags.blks (tags c))) 0 c f h m Hcore) as (t' & m' & Hv & Hcore' & Hinv); [done| |].
  { intros i b Hb. split; [by eapply Hall|lia]. }
  eexists. split; [exact Hv|]. split; [|by split_and!]. exists h, m'. cbn. rewrite Hpend, Hev. by split_and!.
Qed.
End Func.
End Func.
