(* ===== verification/CacheStack.v ===== *)
(** * Memory hierarchies

    What can be behind a non-coherent cache: a simple memory, or another
    non-coherent cache.  Both are memory sides, so the theorems hold for any
    number of caches in front of a memory. *)

From S2P Require Import Prelude.
From S2P Require Import Intmath.
From S2P Require Import AddrRange.
From S2P Require Import Clocked.
From S2P Require Import MemCmd.
From S2P Require Import Packet.
From S2P Require Import PacketQueue.
From S2P Require Import AbstractMem.
From S2P Require Import SimpleMem.
From S2P Require Import SnoopFilter.
From S2P Require Import RpBase.
From S2P Require Import CacheIndex.
From S2P Require Import LruRP.
From S2P Require Import Replacement.
From S2P Require Import CacheBlk.
From S2P Require Import CacheTags.
From S2P Require Import NoncoherentCache.
From S2P Require Import CacheFlat.
From S2P Require Import CacheCore.
From S2P Require Import CacheSteps.
From S2P Require Import CacheRun.
From S2P Require Import CacheAtomic.
From S2P Require Import CacheFunctional.

Module Stack.
Import MemCmd Pkt AbsMem RpBase Idx Rp Blk Clk NC Flat Core Steps CRun Atomic Func.

(** ** A simple memory *)
#[export] Instance memory_side : MemSide SMem.SimpleMemory := {|
  ms_sendAtomic := λ w q s,
    '(lat, p, s) ← SMem.recvAtomic (random w 0 (SMem.latency_var s)) (pkt q) s; Ok (lat, with_pkt p q, s);
  ms_sendFunctional := λ q s, '(p, s) ← SMem.recvFunctional (pkt q) s; Ok (with_pkt p q, s) |}.

(** It holds the bytes [f], and has no responses queued. *)
Definition memory_rep (s : SMem.SimpleMemory) (f : Z → Z) : Prop :=
  SMem.packetQueue s = [] ∧ ∃ r, simulates (SMem.mem s) (SMem.host s) (mkSpec f r).
Definition memory_block (n : Z) (s : SMem.SimpleMemory) (x : Z) : Prop :=
  0 < n ∧ ∀ a k, x ≤ a → 0 < k → a + k ≤ x + n → isSubset (RangeSize a k) (range (SMem.mem s)) = Ok true.

Lemma simulates_ext m h f f' r : (∀ y, f' y = f y) → simulates m h (mkSpec f r) → simulates m h (mkSpec f' r).
Proof.
  intros Hf [Hl Hr (o & Ho & Hb)]. split; [done|done|]. exists o. split; [done|]. intros y. cbn. by rewrite Hf, <-Hb.
Qed.

Lemma memory_keeps n m h s y : range m = range (SMem.mem s) → memory_block n s y → memory_block n (SMem.set_mem m h s) y.
Proof. intros Hr [Hn Hb]. split; [done|]. intros a k. cbn. rewrite Hr. apply Hb. Qed.

(** The packets a cache sends are acceptable to a memory. *)
Lemma fetch_acceptable n sec maxreq s q x : is_fetch n sec maxreq q x → memory_block n s x →
  ∃ d, data (pkt q) = Some d ∧ acceptable (SMem.mem s) (pkt q) d.
Proof.
  intros Hq [Hn Hb]. destruct (fe_data _ _ _ _ _ Hq) as (d & Hd & Hl). exists d. split; [done|].
  pose proof (fe_cmd _ _ _ _ _ Hq) as Hc.
  split; rewrite ?Hc; try done; [|by rewrite Hl, (fe_size _ _ _ _ _ Hq), Z2Nat.id by lia|].
  - unfold getAddrRange. rewrite (fe_addr _ _ _ _ _ Hq), (fe_size _ _ _ _ _ Hq). apply Hb; lia.
  - unfold isMaskedWrite. by rewrite Hc.
Qed.

Lemma writeback_acceptable n sec maxreq s q x d : is_writeback n sec maxreq q x d → memory_block n s x →
  acceptable (SMem.mem s) (pkt q) d.
Proof.
  intros Hq [Hn Hb]. pose proof (wb_cmd _ _ _ _ _ _ Hq) as Hc.
  split; try (by destruct Hc as [Hc|Hc]; rewrite ?Hc).
  - unfold getAddrRange. rewrite (wb_addr _ _ _ _ _ _ Hq), (wb_size _ _ _ _ _ _ Hq). apply Hb; lia.
  - apply Hq.
  - by rewrite (wb_length _ _ _ _ _ _ Hq), (wb_size _ _ _ _ _ _ Hq), Z2Nat.id by lia.
  - unfold isMaskedWrite. by destruct Hc as [Hc|Hc]; rewrite Hc.
  - intros _. apply Hq.
Qed.

Lemma functional_acceptable n sec s q x d : is_functional n sec q x d → memory_block n s x →
  acceptable (SMem.mem s) (pkt q) d.
Proof.
  intros Hq [Hn Hb]. pose proof (fn_cmd _ _ _ _ _ Hq) as Hc. pose proof (fn_size _ _ _ _ _ Hq) as Hs.
  pose proof (fn_block _ _ _ _ _ Hq) as Hx. pose proof (Z.mod_pos_bound (addr (pkt q)) n Hn) as Hm.
  split; try (by destruct Hc as [Hc|Hc]; rewrite ?Hc).
  - apply Hb; lia.
  - apply Hq.
  - apply Hq.
  - by rewrite (fn_mask _ _ _ _ _ Hq).
  - destruct Hc as [Hc|Hc]; rewrite Hc; [done|]. intros _. by apply Hq.
Qed.

Lemma quiet_packet p : flags p = 0 → cacheResponding p = false.
Proof. intros Hf. unfold cacheResponding. by rewrite Hf. Qed.

(** ** Its promises *)
Section Memory.
Context (n : Z) (sec : bool) (maxreq : Z).

Lemma memory_fetch w s f q x : memory_rep s f → memory_block n s x → is_fetch n sec maxreq q x →
  ∃ lat q' s', ms_sendAtomic w q s = Ok (lat, q', s') ∧
    pkt q' = answer (pkt q) (Some (load f x (Z.to_nat n))) None ∧ requestorId q' = requestorId q ∧
    delays_ok q' ∧ memory_rep s' f ∧ ∀ y, memory_block n s y → memory_block n s' y.
Proof.
  intros [Hqu (r & Hs)] Hb Hq. destruct (fetch_acceptable n sec maxreq s q x Hq Hb) as (d & Hd & Ha).
  pose proof (quiet_packet _ (fe_flags _ _ _ _ _ Hq)) as Hcr.
  pose proof (SMem.atomic_access_ok (random w 0 (SMem.latency_var s)) (pkt q) s (mkSpec f r)) as H.
  rewrite Hd in H. specialize (H Ha Hcr Hs). unfold spec_step, ignored in H.
  rewrite Hcr, (fe_cmd _ _ _ _ _ Hq), (fe_addr _ _ _ _ _ Hq), (fe_size _ _ _ _ _ Hq) in H. cbn in H.
  destruct H as (m & h & Heq & Hs' & Hr). unfold ms_sendAtomic, memory_side. rewrite Heq. cbn [mbind res_bind].
  eexists _, _, _. split; [done|]. split; [done|]. split; [done|]. split; [apply Hq|].
  split; [split; [done|by exists r]|]. intros y. by apply memory_keeps.
Qed.

Lemma memory_writeback w s f q x d : memory_rep s f → memory_block n s x → is_writeback n sec maxreq q x d →
  ∃ lat q' s', ms_sendAtomic w q s = Ok (lat, q', s') ∧ memory_rep s' (wb_effect q x d f) ∧
    ∀ y, memory_block n s y → memory_block n s' y.
Proof.
  intros [Hqu (r & Hs)] Hb Hq. pose proof (writeback_acceptable n sec maxreq s q x d Hq Hb) as Ha.
  pose proof (quiet_packet _ (wb_flags _ _ _ _ _ _ Hq)) as Hcr.
  pose proof (SMem.atomic_access_ok (random w 0 (SMem.latency_var s)) (pkt q) s (mkSpec f r)) as H.
  rewrite (wb_data _ _ _ _ _ _ Hq) in H. specialize (H Ha Hcr Hs).
  assert (Hst : ∃ r' read sc, spec_step (mkSpec f r) (pkt q) d =
    (mkSpec (if bool_decide (cmd (pkt q) = WritebackDirty) then store f x d (enabled (pkt q)) else f) r', read, sc)).
  { unfold spec_step, ignored. rewrite Hcr, (wb_addr _ _ _ _ _ _ Hq).
    destruct (wb_cmd _ _ _ _ _ _ Hq) as [-> | ->]; cbn; eauto. }
  destruct Hst as (r' & read & sc & Hst). cbn [default] in H. unfold id in H. rewrite Hst in H.
  destruct H as (m & h & Heq & Hs' & Hr). unfold ms_sendAtomic, memory_side. rewrite Heq. cbn [mbind res_bind].
  eexists _, _, _. split; [done|]. split; [|intros y; by apply memory_keeps].
  split; [done|]. exists r'. eapply simulates_ext; [|exact Hs']. intros y. unfold wb_effect. case_bool_decide; [|done].
  unfold store, enabled, isMaskedWrite. rewrite bool_decide_false; [done|congruence].
Qed.

Lemma memory_functional s f q x d : memory_rep s f → memory_block n s x → is_functional n sec q x d →
  ∃ q' s', ms_sendFunctional q s = Ok (q', s') ∧ memory_rep s' (flat_step f (pkt q) d true).1 ∧
    isResponse (cmd (pkt q')) = true ∧
    (cmd (pkt q) = ReadReq → data (pkt q') = Some (load f (addr (pkt q)) (Z.to_nat (size (pkt q))))) ∧
    ∀ y, memory_block n s y → memory_block n s' y.
Proof.
  intros [Hqu (r & Hs)] Hb Hq. pose proof (functional_acceptable n sec s q x d Hq Hb) as Ha.
  pose proof (fn_quiet _ _ _ _ _ Hq) as Hcr. pose proof (fn_cmd _ _ _ _ _ Hq) as Hc.
  assert (Hig : ignored (pkt q) = false) by (unfold ignored; rewrite Hcr; by destruct Hc as [-> | ->]).
  destruct (functional_matches_access _ _ _ _ _ Ha Hs) as (m' & h' & p' & cl & Hacc & Hfun);
    [done|by destruct Hc as [-> | ->]..|].
  pose proof (access_steps _ _ _ _ _ Ha Hs) as Hst. destruct (access_frame _ _ _ _ _ _ _ Hacc) as [Hm' _].
  assert (Hsp : ∃ r' read, spec_step (mkSpec f r) (pkt q) d = (mkSpec (flat_step f (pkt q) d true).1 r', read, None) ∧
    (cmd (pkt q) = ReadReq → read = Some (load f (addr (pkt q)) (Z.to_nat (size (pkt q)))))).
  { unfold spec_step, flat_step. rewrite Hig. destruct Hc as [Hc|Hc]; rewrite Hc; cbn; eexists _, _; (split; [reflexivity|done]). }
  destruct Hsp as (r' & read & Hsp & Hread). rewrite Hsp, Hacc in Hst.
  destruct Hst as (m2 & h2 & cl2 & [= <- <- -> <-] & Hs' & Hr & _).
  unfold ms_sendFunctional, memory_side, SMem.recvFunctional. rewrite Hfun. cbn [mbind res_bind]. rewrite Hqu.
  cbn [PQ.satisfy_loop mbind res_bind]. eexists _, _. split; [done|]. split; [|split; [|split]].
  - split; [done|]. exists r. cbn. destruct Hs as [Hl Hre _]. destruct Hs' as [_ _ (o & Ho & Hby)].
    split; [done|done|]. exists o. rewrite Hm' in Ho. split; [exact Ho|]. intros y. etransitivity; [exact (Hby y)|]. by rewrite Hm'.
  - cbn [pkt with_pkt]. unfold answer. rewrite Hig. by destruct Hc as [-> | ->].
  - intros Hrd. cbn [pkt with_pkt]. unfold answer, returned. rewrite Hig, Hrd, (Hread Hrd). done.
  - intros y. by apply memory_keeps.
Qed.

#[export] Instance memory_side_ok : MemSideOk SMem.SimpleMemory n sec maxreq := {|
  ms_rep := λ _ s f, memory_rep s f;
  ms_block := memory_block n;
  ms_later := λ _ _ _ _ _ H, H;
  ms_fetch := λ w s f q x _ Hr Hb Hq, memory_fetch w s f q x Hr Hb Hq;
  ms_writeback := λ w s f q x d _ Hr Hb Hq _, memory_writeback w s f q x d Hr Hb Hq;
  ms_functional := λ _ s f q x d Hr Hb Hq, memory_functional s f q x d Hr Hb Hq |}.
End Memory.

(** ** A cache *)
Section Cache.
Context {I P M : Type} `{ixI : Indexing I} `{ixO : !IndexingOk I} `{rpP : ReplacementPolicy P} `{rpO : !PolicyOk P}.
Context `{msM : MemSide M} {n : Z} {sec : bool} {maxreq : Z} `{msO : !MemSideOk M n sec maxreq}.
Implicit Types c : cache I P M.

Local Notation N := (Z.to_nat n).
Local Notation rep := (rep (n:=n) (sec:=sec) (maxreq:=maxreq)).

(** Between two accesses. *)
Definition cache_rep (t : Z) c (f : Z → Z) : Prop := rep t c f ∧ tempBlockWriteback c = None.
Definition cache_block c (x : Z) : Prop := ms_block (below c) x.

Lemma rep_pos t c f : rep t c f → 0 < n.
Proof. intros (h & m & [Hl _] & _). apply (cf_pos _ (lo_conf _ _ _ _ _ _ Hl)). Qed.

Lemma cache_fetch w c f q x : time_ok w → cache_rep (curTick w) c f → cache_block c x → is_fetch n sec maxreq q x →
  ∃ lat q' c', ms_sendAtomic w q c = Ok (lat, q', c') ∧
    pkt q' = answer (pkt q) (Some (load f x N)) None ∧ requestorId q' = requestorId q ∧
    delays_ok q' ∧ cache_rep (curTick w) c' f ∧ ∀ y, cache_block c y → cache_block c' y.
Proof.
  intros Hw [Hr Hp] Hb Hq. pose proof (rep_pos _ _ _ Hr) as Hn.
  destruct (fe_paddr _ _ _ _ _ Hq) as [Hpa Hpx]. destruct (align_u64 _ Hn Hpa) as [Hx64 Hmod]. rewrite Hpx in Hx64, Hmod.
  destruct (fe_data _ _ _ _ _ Hq) as (d & Hd & Hl).
  pose proof (fe_cmd _ _ _ _ _ Hq) as Hc. pose proof (fe_addr _ _ _ _ _ Hq) as Ha. pose proof (fe_size _ _ _ _ _ Hq) as Hs.
  destruct (Atomic.atomic_ok w q x d c f Hw Hr Hp) as (ok & lat & c' & Hans); [|done|].
  { split; [|left].
    - split; try apply Hq; rewrite ?Ha, ?Hmod; [done|lia|apply quiet_packet, Hq].
    - split; rewrite ?Hc, ?Ha, ?Hs, ?Hmod; try done; try lia; [set_solver|unfold is_u64 in Hx64; lia|].
      unfold isMaskedWrite. by rewrite Hc. }
  unfold answers, flat_step, sc_outcome in Hans. rewrite Hc, Ha, Hs in Hans. cbn in Hans.
  destruct Hans as (Hrecv & Hrep & _ & Hbl & Hpend).
  exists lat, (with_pkt (answer (pkt q) (Some (load f x N)) None) q), c'.
  split; [exact Hrecv|]. split; [done|]. split; [done|]. split; [apply Hq|]. split; [|exact Hbl].
  split; [done|]. by destruct Hpend as [?|(_ & ? & _)].
Qed.

Lemma cache_writeback w c f q x d : time_ok w → cache_rep (curTick w) c f → cache_block c x →
  is_writeback n sec maxreq q x d → (cmd (pkt q) = WritebackClean → d = load f x N) →
  ∃ lat q' c', ms_sendAtomic w q c = Ok (lat, q', c') ∧ cache_rep (curTick w) c' (wb_effect q x d f) ∧
    ∀ y, cache_block c y → cache_block c' y.
Proof.
  intros Hw [Hr Hp] Hb Hq Hclean. pose proof (rep_pos _ _ _ Hr) as Hn.
  destruct (wb_paddr _ _ _ _ _ _ Hq) as [Hpa Hpx]. destruct (align_u64 _ Hn Hpa) as [Hx64 Hmod]. rewrite Hpx in Hx64, Hmod.
  pose proof (wb_cmd _ _ _ _ _ _ Hq) as Hc. pose proof (wb_addr _ _ _ _ _ _ Hq) as Ha.
  assert (Hline : line_ok n x (pkt q) d).
  { split; try apply Hq; [destruct Hc as [-> | ->]; set_solver|done|]. unfold writeThrough. by rewrite (wb_flags _ _ _ _ _ _ Hq). }
  destruct (Atomic.atomic_ok w q x d c f Hw Hr Hp) as (ok & lat & c' & Hans); [|done|].
  { split; [|by right]. split; try apply Hq; rewrite ?Ha, ?Hmod; [done|lia|apply quiet_packet, Hq]. }
  unfold answers in Hans. destruct (line_step f x (pkt q) d ok Hline) as [_ Hstep].
  destruct (flat_step f (pkt q) d ok) as [f' read]. destruct Hans as (Hrecv & Hrep & _ & Hbl & Hpend).
  eexists lat, _, c'. split; [exact Hrecv|]. split; [|exact Hbl]. split.
  - eapply rep_ext; [|exact Hrep]. intros y. cbn [fst] in Hstep. rewrite Hstep. unfold wb_effect. case_bool_decide as Hcd; [done|].
    destruct Hc as [Hc|Hc]; [done|]. by rewrite (Hclean Hc), store_load.
  - destruct Hpend as [?|(_ & _ & Hacc)]; [done|]. exfalso. revert Hacc. destruct Hc as [-> | ->]; unfold accesses; set_solver.
Qed.

Lemma cache_functional t c f q x d : cache_rep t c f → cache_block c x → is_functional n sec q x d →
  ∃ q' c', ms_sendFunctional q c = Ok (q', c') ∧ cache_rep t c' (flat_step f (pkt q) d true).1 ∧
    isResponse (cmd (pkt q')) = true ∧
    (cmd (pkt q) = ReadReq → data (pkt q') = Some (load f (addr (pkt q)) (Z.to_nat (size (pkt q))))) ∧
    ∀ y, cache_block c y → cache_block c' y.
Proof.
  intros [Hr Hp] Hb Hq. destruct (functional_ok t c f q x d Hr Hp Hb Hq) as (q' & c' & Hf & Hrep & Hp' & _ & Hre & Hd & Hbl).
  exists q', c'. by split_and!.
Qed.

Lemma cache_later t t' c f : t ≤ t' → cache_rep t c f → cache_rep t' c f.
Proof. intros Ht [Hr Hp]. split; [by eapply rep_later|done]. Qed.

#[export] Instance cache_side_ok : MemSideOk (cache I P M) n sec maxreq := {|
  ms_rep := cache_rep;
  ms_block := cache_block;
  ms_later := cache_later;
  ms_fetch := cache_fetch;
  ms_writeback := cache_writeback;
  ms_functional := cache_functional |}.

(** A cache with nothing in it shows what is in the memory. *)
Lemma empty_rep t c f : conf_ok (n:=n) (maxreq:=maxreq) c → in_step (clockPeriod (conf c)) t (clock c) →
  Tags.inv (tags c) ∅ → Forall (λ b, tickInserted b ≤ t) (Tags.blks (tags c)) →
  Forall (λ d, length d = N) (Tags.dataBlks (tags c)) → idle (n:=n) t c → tempBlockWriteback c = None →
  wb_event c = false → ms_rep t (below c) f → cache_rep t c f.
Proof.
  intros Hc Hk Hinv Hti Hlen Hi Hp He Hm. split; [|done]. exists f, ∅. rewrite Hp, He. split; [|done]. split; [|by exists f].
  rewrite Forall_lookup in Hti. rewrite Forall_lookup in Hlen. by split.
Qed.

(** ** Properties *)

(** C2: A non-coherent cache is transparent in atomic mode.  For any indexing and
    replacement policies, clusivity and memory side, any sequence of reads,
    writes, load-locked and store-conditional accesses, swaps and prefetches
    within a block, and of lines that caches above write back dirty or clean
    ([WritebackDirty], [WriteClean]), for blocks the memory has and with the
    write-back event run after each, returns: every packet comes back with the
    data a flat memory would give it, and the bytes seen afterwards are those a
    flat memory would hold.  A store-conditional succeeds only if an earlier
    load-locked access of its context to the block covers its bytes and since then
    no load-locked access to overlapping bytes, no overlapping store of another
    context (swaps and lines do not count) and no store-conditional that used it
    came; it may also fail, as a reservation is lost with its block.  Writes and
    load-locked accesses come from a context and touch a byte at least. *)
Theorem cache_transparent qs t c f h : rep t c f → tempBlockWriteback c = None →
  reservations (n:=n) c h → acceptable_seq (n:=n) (sec:=sec) (maxreq:=maxreq) (below c) t qs →
  ∃ l c' f', serve_all qs c = Ok (l, c') ∧ flat_run (n:=n) h f qs l f' ∧
    (∃ t', rep t' c' f') ∧ tempBlockWriteback c' = None ∧ reservations (n:=n) c' (noted_all qs h).
Proof. intros. by eapply serve_all_ok. Qed.

(** C22: A functional access of part of a block, to a cache at rest, answers
    and returns the bytes the timed accesses would, whether the block is
    absent, clean or dirty, and a functional write is seen by all later
    accesses, timed or functional. *)
Theorem functional_coherent t c f q x d : rep t c f → tempBlockWriteback c = None → ms_block (below c) x →
  is_functional n sec q x d →
  ∃ q' c', functionalAccess q true c = Ok (q', c') ∧ rep t c' (flat_step f (pkt q) d true).1 ∧
    tempBlockWriteback c' = None ∧ isResponse (cmd (pkt q')) = true ∧
    (cmd (pkt q) = ReadReq → data (pkt q') = Some (load f (addr (pkt q)) (Z.to_nat (size (pkt q))))).
Proof.
  intros Hr Hp Hb Hq. destruct (functional_ok t c f q x d Hr Hp Hb Hq) as (q' & c' & Hf & Hrep & Hp' & _ & Hre & Hd & _).
  exists q', c'. by split_and!.
Qed.

(** C25: [memWriteback] followed by [memInvalidate] empties the cache without
    losing a byte: neither fails, no block is dirty in between, no block is
    valid at the end, and the memory side then holds exactly the bytes the
    clients of the cache saw. *)
Theorem flush_keeps_bytes w c f : rep (curTick w) c f → tempBlockWriteback c = None →
  ∃ c1 c2 g, memWriteback c = Ok c1 ∧ cache_isDirty c1 = false ∧ memInvalidate w c1 = Ok c2 ∧
    rep (curTick w) c2 f ∧ (∀ i b, Tags.blks (tags c2) !! i = Some b → isValid b = false) ∧
    ms_rep (curTick w) (below c2) g ∧ ∀ y, g y = f y.
Proof.
  intros Hr Hp. destruct (writeback_all _ c f Hr Hp) as (c1 & H1 & Hr1 & Hp1 & Hd & (g & Hg & Hgf) & _).
  destruct (invalidate_all w c1 f Hr1 Hp1 Hd) as (c2 & H2 & Hr2 & Hb & _ & Hv).
  exists c1, c2, g. rewrite Hb. by split_and!.
Qed.
End Cache.

(** ** Witnesses: two caches in front of a memory *)
Definition w_memory : SMem.SimpleMemory := SMem.SimpleMemory_new a_memory ∅ 30 0 (λ n, n).
Definition w_conf (cl : Clusivity) : NC.config := NC.mkConfig 64 1 2 2 false cl false false 500 8.

Definition two_levels (c1 c2 : Clusivity) :
    res (cache sa (list LRU.data) (cache sa (list LRU.data) SMem.SimpleMemory)) :=
  l2 ← BaseCache (w_conf c2) Tags.example_tags 0 0 (replicate 64 0) w_memory;
  BaseCache (w_conf c1) Tags.example_tags 0 0 (replicate 64 0) l2.
Definition hierarchy : cache sa (list LRU.data) (cache sa (list LRU.data) SMem.SimpleMemory) :=
  match two_levels mostly_incl mostly_excl with
  | Ok c => c
  | Err _ => mkCache (w_conf mostly_incl) Clocked_new Tags.example_tags CacheBlk_new 0 [] None false 0
      (mkCache (w_conf mostly_excl) Clocked_new Tags.example_tags CacheBlk_new 0 [] None false 0 w_memory)
  end.

(** One level: a new cache over any memory side. *)
Lemma level_rep {M} `{msM : MemSide M} `{msO : !MemSideOk M 64 false 8} cl (m : M) f c :
  BaseCache (w_conf cl) Tags.example_tags 0 0 (replicate 64 0) m = Ok c → ms_rep 0 m f →
  cache_rep (n:=64) (sec:=false) (maxreq:=8) 0 c f ∧ below c = m.
Proof.
  unfold BaseCache. destruct (Tags.tagsInit_spec Tags.example_tags Tags.example_linked ltac:(by vm_compute))
    as (t & Ht & Hinv & Hcfg & Hd & ss & Hss).
  assert (Hti : match Tags.tagsInit Tags.example_tags with
    | Ok t => forallb (λ b, tickInserted b <=? 0) (Tags.blks t) | Err _ => true end = true) by (by vm_compute).
  rewrite Ht in Hti |- *. cbn [mbind res_bind]. intros [= <-] Hm. split; [|reflexivity]. clear Ht.
  assert (Hs : setShift (ix_policy (Tags.indexing t)) = 6) by (rewrite Hss; by vm_compute). clear Hss. cbn in Hs.
  assert (Hcf : Tags.lookupLatency (Tags.cfg t) = 2 ∧ Tags.maxRequestors (Tags.cfg t) = 16) by (by rewrite Hcfg).
  clear Hcfg. destruct Hcf as [Hlat Hreq].
  apply empty_rep; [|split; cbn; lia|exact Hinv| | |by split|reflexivity|reflexivity|exact Hm].
  - split; cbn; rewrite ?Hs, ?Hlat, ?Hreq; (reflexivity || lia || by vm_compute).
  - apply Forall_forall. intros b Hb. rewrite forallb_forall in Hti. apply Z.leb_le, Hti. by apply list_elem_of_In.
  - cbn. rewrite Hd. apply Forall_forall. intros d (? & -> & _)%list_elem_of_fmap. by rewrite length_replicate.
Qed.

Lemma memory_ready : memory_rep w_memory (λ _, 0) ∧ memory_block 64 w_memory 64.
Proof.
  split.
  - split; [done|]. exists ∅. apply a_memory_simulates.
  - split; [lia|]. intros a k Ha Hk Hak. unfold isSubset. cbn.
    rewrite !u64_small by lia. by rewrite !(proj2 (Z.leb_le _ _)) by lia.
Qed.

Lemma hierarchy_rep : rep (n:=64) (sec:=false) (maxreq:=8) 0 hierarchy (λ _, 0) ∧
  tempBlockWriteback hierarchy = None ∧ ms_block (n:=64) (sec:=false) (maxreq:=8) (below hierarchy) 64.
Proof.
  unfold hierarchy, two_levels.
  destruct (BaseCache (w_conf mostly_excl) Tags.example_tags 0 0 (replicate 64 0) w_memory) as [l2|] eqn:H2;
    [|exfalso; by vm_compute in H2].
  destruct (level_rep (msO := memory_side_ok 64 false 8) mostly_excl w_memory (λ _, 0) l2 H2 (proj1 memory_ready)) as [Hr2 Hb2]. cbn [mbind res_bind].
  destruct (BaseCache (w_conf mostly_incl) Tags.example_tags 0 0 (replicate 64 0) l2) as [l1|] eqn:H1.
  - destruct (level_rep (msO := cache_side_ok) mostly_incl l2 (λ _, 0) l1 H1 Hr2) as [[Hr1 Hp1] Hb1]. split; [done|]. split; [done|].
    rewrite Hb1. cbn. unfold cache_block. rewrite Hb2. apply memory_ready.
  - exfalso. revert H1. unfold BaseCache. by vm_compute.
Qed.

Definition w_write : CPkt := mkCPkt (AbsMem.st 0 68 [1; 2; 3; 4]) 1 0 0 0.
Definition w_read : CPkt := mkCPkt (set_data (Some (replicate 4 0)) (createRead (request_by 0 68 4 0))) 1 0 0 0.
Definition at_tick (t : Z) : env := mkEnv t (λ lo _, lo).

Lemma at_tick_ok t : 0 ≤ t < 2 ^ 62 → time_ok (at_tick t).
Proof. intros Ht. split; [|done]. intros lo hi H. cbn. lia. Qed.

(** A write, a load locked, the store conditional that goes with it, a second
    one, and a read. *)
Definition w_ll : CPkt := mkCPkt (set_data (Some (replicate 4 0)) (Packet_new (request_by 0 68 4 0) LoadLockedReq)) 1 0 0 0.
Definition w_sc (v : list Z) : CPkt := mkCPkt (set_data (Some v) (Packet_new (request_by 0 68 4 0) StoreCondReq)) 1 0 0 0.
Definition w_run : list (env * CPkt) :=
  (λ q, (at_tick 10, q)) <$> [w_write; w_ll; w_sc [5; 6; 7; 8]; w_sc [9; 9; 9; 9]; w_read].

Lemma w_clients q : q ∈ w_run.*2 → client_ok 64 false 8 q 64 ∧ ∃ d, request_ok 64 64 (pkt q) d.
Proof.
  intros Hin. split.
  - repeat (apply elem_of_cons in Hin as [->|Hin]; [split; try done; cbn; try lia; split; by vm_compute|]).
    by apply elem_of_nil in Hin.
  - assert (Hd : ∃ d, data (pkt q) = Some d).
    { repeat (apply elem_of_cons in Hin as [->|Hin]; [by eexists|]). by apply elem_of_nil in Hin. }
    destruct Hd as [d Hd]. exists d. revert Hd.
    repeat (apply elem_of_cons in Hin as [->|Hin]; [intros [= <-]; split; try done; try (by vm_compute);
      cbn; unfold accesses; try set_solver; try (intros _; split; [by (left + right)|split; [by eexists|cbn; lia]])|]).
    by apply elem_of_nil in Hin.
Qed.

Lemma w_requests : acceptable_seq (n:=64) (sec:=false) (maxreq:=8) (below hierarchy) 0 w_run.
Proof.
  destruct hierarchy_rep as (_ & _ & Hb). pose proof w_clients as Hc. unfold w_run in *. cbn [fmap list_fmap] in *.
  assert (∀ qs t, t ≤ 10 → (∀ q, q ∈ qs → client_ok 64 false 8 q 64 ∧ ∃ d, request_ok 64 64 (pkt q) d) →
    acceptable_seq (n:=64) (sec:=false) (maxreq:=8) (below hierarchy) t ((λ q, (at_tick 10, q)) <$> qs)) as H.
  { induction qs as [|q qs IH]; intros t Ht Hq; [done|]. cbn [fmap list_fmap acceptable_seq].
    destruct (Hq q ltac:(left)) as [Hcl [d Hd]]. split; [by apply at_tick_ok|]. split; [done|]. split.
    - exists 64, d. split; [done|]. split; [done|]. by left.
    - apply IH; [done|]. intros q' Hq'. apply Hq. by right. }
  apply (H [w_write; w_ll; w_sc [5; 6; 7; 8]; w_sc [9; 9; 9; 9]; w_read]); [lia|exact Hc].
Qed.

Lemma all_clear (bs : list CacheBlk) e b : forallb (λ b, match lockList b with [] => true | _ => false end) bs = true →
  bs !! e = Some b → lockList b = [].
Proof.
  intros Hall Hb. rewrite forallb_forall in Hall. specialize (Hall b). rewrite <-list_elem_of_In in Hall.
  specialize (Hall (list_elem_of_lookup_2 _ _ _ Hb)). by destruct (lockList b).
Qed.

Lemma hierarchy_fresh : reservations (n:=64) hierarchy [].
Proof. intros e b Hb. left. eapply all_clear; [|exact Hb]. by vm_compute. Qed.

Lemma cache_transparent_witness :
  (∃ l c' f', serve_all w_run hierarchy = Ok (l, c') ∧ flat_run (n:=64) [] (λ _, 0) w_run l f' ∧
    (∃ t', rep (n:=64) (sec:=false) (maxreq:=8) t' c' f') ∧ tempBlockWriteback c' = None ∧
    reservations (n:=64) c' (noted_all w_run [])) ∧
  match serve_all w_run hierarchy with
  | Ok (l, _) => data <$> l = [Some [1; 2; 3; 4]; Some [1; 2; 3; 4]; Some [5; 6; 7; 8]; Some [9; 9; 9; 9]; Some [5; 6; 7; 8]] ∧
      (λ p, req_extraData (req p)) <$> l = [None; None; Some 1; Some 0; None]
  | Err _ => False
  end.
Proof.
  split; [|by vm_compute].
  apply (cache_transparent (sec:=false) (n:=64) (maxreq:=8) _ 0);
    [apply hierarchy_rep|apply hierarchy_rep|apply hierarchy_fresh|apply w_requests].
Defined.

Lemma functional_coherent_witness : ∃ q' c',
  functionalAccess w_write true hierarchy = Ok (q', c') ∧
  rep (n:=64) (sec:=false) (maxreq:=8) 0 c' (flat_step (λ _, 0) (pkt w_write) [1; 2; 3; 4] true).1 ∧
  tempBlockWriteback c' = None ∧ isResponse (cmd (pkt q')) = true ∧
  (cmd (pkt w_write) = ReadReq →
   data (pkt q') = Some (load (λ _, 0) (addr (pkt w_write)) (Z.to_nat (size (pkt w_write))))).
Proof.
  apply (functional_coherent (sec:=false) (n:=64) (maxreq:=8) 0 hierarchy (λ _, 0) w_write 64 [1; 2; 3; 4]);
    [apply hierarchy_rep|apply hierarchy_rep|apply hierarchy_rep|].
  split; try done; try (by vm_compute); [by right|by left].
Defined.

Lemma flush_keeps_bytes_witness : ∃ c1 c2 g, memWriteback hierarchy = Ok c1 ∧ cache_isDirty c1 = false ∧
  memInvalidate (at_tick 0) c1 = Ok c2 ∧ rep (n:=64) (sec:=false) (maxreq:=8) 0 c2 (λ _, 0) ∧
  (∀ i b, Tags.blks (tags c2) !! i = Some b → isValid b = false) ∧
  ms_rep (n:=64) (sec:=false) (maxreq:=8) 0 (below c2) g ∧ ∀ y, g y = 0.
Proof. apply (flush_keeps_bytes (sec:=false) (n:=64) (maxreq:=8) (at_tick 0)); apply hierarchy_rep. Defined.

(** ** The write-back that is pending *)

(** C38: There is a run of a mostly exclusive non-coherent cache, empty at the
    start, in which a read returns stale data: a write that misses is answered
    and its data is left in the write-back of the temporary block, which is still
    pending; a read of the same bytes before the write-back event has run is
    answered with the old bytes of the memory, and the same read after the event
    with the bytes written. *)
Theorem pending_writeback_stale :
  ∃ c lat1 q1 c1 lat2 q2 c2 c3 lat3 q3 c4,
    BaseCache (w_conf mostly_excl) Tags.example_tags 0 0 (replicate 64 0) w_memory = Ok c ∧
    recvAtomic (at_tick 10) w_write c = Ok (lat1, q1, c1) ∧ cmd (pkt q1) = WriteResp ∧
    is_Some (tempBlockWriteback c1) ∧
    recvAtomic (at_tick 10) w_read c1 = Ok (lat2, q2, c2) ∧ data (pkt q2) = Some [0; 0; 0; 0] ∧
    run_event (at_tick 10) c1 = Ok c3 ∧
    recvAtomic (at_tick 10) w_read c3 = Ok (lat3, q3, c4) ∧ data (pkt q3) = Some [1; 2; 3; 4].
Proof.
  eexists _, _, _, _, _, _, _, _, _, _, _.
  split; [vm_compute; reflexivity|]. split; [vm_compute; reflexivity|]. split; [reflexivity|].
  split; [eexists; vm_compute; reflexivity|]. split; [vm_compute; reflexivity|]. split; [reflexivity|].
  split; [vm_compute; reflexivity|]. split; [vm_compute; reflexivity|reflexivity].
Qed.
End Stack.
