(* ===== verification/Bridge.v ===== *)
(** * Bridge ([mem/bridge.cc])

    Two queues between a port that takes requests and a port that sends them
    on.  Space for a response is reserved when its request is taken.  The
    events are the ticks they are scheduled for.  While a response is being
    sent the peer may call back with new requests: they are part of its
    reply.  The call that tells a requestor to try again is the last action
    of a handler, so what it sends then is the next request.

    A bridge is also a memory side: caches work across it. *)

From S2P Require Import Prelude.
From S2P Require Import AddrRange.
From S2P Require Import Intmath.
From S2P Require Import Clocked.
From S2P Require Import MemCmd.
From S2P Require Import Packet.
From S2P Require Import AbstractMem.
From S2P Require Import RpBase.
From S2P Require Import NoncoherentCache.
From S2P Require Import CacheFlat.
From S2P Require Import CacheCore.

Module Bridge.
Import MemCmd Pkt RpBase NC.

(** ** Definitions *)
Record DeferredPacket := mkDeferred { tick : Z; dpkt : CPkt }.

Record Bridge := mkBridge {
  clockPeriod : Z;
  clock : Clk.Clocked;
  delay : Z;
  ranges : list AddrRange;
  (** The response port. *)
  resps : list DeferredPacket;
  outstandingResponses : Z;
  retryReq : bool;
  respQueueLimit : Z;
  respEvent : option Z;
  (** The request port. *)
  reqs : list DeferredPacket;
  reqQueueLimit : Z;
  reqEvent : option Z }.

Definition set_clock (k : Clk.Clocked) (b : Bridge) : Bridge :=
  mkBridge (clockPeriod b) k (delay b) (ranges b) (resps b) (outstandingResponses b) (retryReq b)
    (respQueueLimit b) (respEvent b) (reqs b) (reqQueueLimit b) (reqEvent b).
Definition set_reqs (l : list DeferredPacket) (e : option Z) (b : Bridge) : Bridge :=
  mkBridge (clockPeriod b) (clock b) (delay b) (ranges b) (resps b) (outstandingResponses b) (retryReq b)
    (respQueueLimit b) (respEvent b) l (reqQueueLimit b) e.
Definition set_resps (l : list DeferredPacket) (e : option Z) (b : Bridge) : Bridge :=
  mkBridge (clockPeriod b) (clock b) (delay b) (ranges b) l (outstandingResponses b) (retryReq b)
    (respQueueLimit b) e (reqs b) (reqQueueLimit b) (reqEvent b).
Definition set_stall (n : Z) (r : bool) (b : Bridge) : Bridge :=
  mkBridge (clockPeriod b) (clock b) (delay b) (ranges b) (resps b) n r
    (respQueueLimit b) (respEvent b) (reqs b) (reqQueueLimit b) (reqEvent b).

Definition Bridge_new (period delay_ticks req_size resp_size : Z) (rs : list AddrRange) : Bridge :=
  mkBridge period Clk.Clocked_new (Clk.ticksToCycles period delay_ticks) rs [] 0 false resp_size None [] req_size None.

Definition respQueueFull (b : Bridge) : bool := outstandingResponses b =? respQueueLimit b.
Definition reqQueueFull (b : Bridge) : bool := Z.of_nat (length (reqs b)) =? reqQueueLimit b.

(** [schedule]: an event that is scheduled, or in the past, fails an
    assertion. *)
Definition schedule (now : Z) (e : option Z) (when : Z) : res (option Z) :=
  assertb (now <=? when);; assertb (match e with Some _ => false | None => true end);; Ok (Some when).

(** The packet without its delays, and when it may go on. *)
Definition defer (now : Z) (q : CPkt) (b : Bridge) : DeferredPacket * Bridge :=
  let '(e, k) := Clk.clockEdge (clockPeriod b) now (delay b) (clock b) in
  (mkDeferred (e + (headerDelay q + payloadDelay q)) (mkCPkt (pkt q) (requestorId q) (taskId q) 0 0),
   set_clock k b).

Definition schedTimingReq (now : Z) (d : DeferredPacket) (b : Bridge) : res Bridge :=
  e ← (match reqs b with [] => schedule now (reqEvent b) (tick d) | _ => Ok (reqEvent b) end);
  assertb (negb (reqQueueFull b));;
  Ok (set_reqs (reqs b ++ [d]) e b).
Definition schedTimingResp (now : Z) (d : DeferredPacket) (b : Bridge) : res Bridge :=
  e ← (match resps b with [] => schedule now (respEvent b) (tick d) | _ => Ok (respEvent b) end);
  Ok (set_resps (resps b ++ [d]) e b).

Definition recvTimingResp (now : Z) (q : CPkt) (b : Bridge) : res Bridge :=
  let '(d, b) := defer now q b in schedTimingResp now d b.

Definition recvTimingReq (now : Z) (q : CPkt) (b : Bridge) : res (bool * Bridge) :=
  panic_if (cacheResponding (pkt q));;
  if retryReq b then Ok (false, b)
  else if reqQueueFull b then Ok (false, set_stall (outstandingResponses b) true b)
  else
    b ← (if needsResponse (cmd (pkt q)) then
           if respQueueFull b then Ok (set_stall (outstandingResponses b) true b)
           else
             assertb (negb (outstandingResponses b =? respQueueLimit b));;
             Ok (set_stall (outstandingResponses b + 1) false b)
         else Ok b);
    if retryReq b then Ok (false, b)
    else
      let '(d, b) := defer now q b in
      b ← schedTimingReq now d b;
      Ok (true, b).

(** Whether the requestor is told to retry. *)
Definition retryStalledReq (b : Bridge) : bool * Bridge :=
  if retryReq b then (true, set_stall (outstandingResponses b) false b) else (false, b).

(** The event for the next packet of a queue. *)
Definition next_send (now : Z) (l : list DeferredPacket) (e : option Z) (b : Bridge) : res (option Z * Bridge) :=
  match l with
  | [] => Ok (e, b)
  | d :: _ =>
      let '(edge, k) := Clk.clockEdge (clockPeriod b) now 0 (clock b) in
      e ← schedule now e (Z.max (tick d) edge);
      Ok (e, set_clock k b)
  end.

(** Sending a request; [ok] is what the peer answers.  With the request sent
    and whether the requestor is told to retry. *)
Definition trySendReq (now : Z) (ok : bool) (b : Bridge) : res (list DeferredPacket * bool * Bridge) :=
  match reqs b with
  | [] => Err AssertFail
  | d :: l =>
      assertb (tick d <=? now);;
      if ok then
        '(e, b) ← next_send now l (reqEvent b) b;
        let '(r, b) := retryStalledReq (set_reqs l e b) in
        Ok ([d], r, b)
      else Ok ([], false, b)
  end.

(** Requests sent one after the other, with the ones that are taken. *)
Fixpoint requests_in (now : Z) (l : list CPkt) (b : Bridge) : res (list (Z * DeferredPacket) * Bridge) :=
  match l with
  | [] => Ok ([], b)
  | q :: l =>
      '(taken, b') ← recvTimingReq now q b;
      '(ps, b'') ← requests_in now l b';
      Ok ((if taken : bool then [(now, (defer now q b).1)] else []) ++ ps, b'')
  end.

Record reply := mkReply { accepted : bool; during : list CPkt }.

Definition trySendResp (now : Z) (r : reply) (b : Bridge)
    : res (list (Z * DeferredPacket) * list DeferredPacket * bool * Bridge) :=
  match resps b with
  | [] => Err AssertFail
  | d :: _ =>
      assertb (tick d <=? now);;
      '(ps, b) ← requests_in now (during r) b;
      if accepted r then
        let l := tail (resps b) in
        let b := set_resps l (respEvent b) b in
        assertb (negb (outstandingResponses b =? 0));;
        let b := set_stall (outstandingResponses b - 1) (retryReq b) b in
        '(e, b) ← next_send now l (respEvent b) b;
        let b := set_resps l e b in
        if negb (reqQueueFull b) && retryReq b then
          Ok (ps, [d], true, set_stall (outstandingResponses b) false b)
        else Ok (ps, [d], false, b)
      else Ok (ps, [], false, b)
  end.

Definition recvReqRetry (now : Z) (ok : bool) (b : Bridge) := trySendReq now ok b.
Definition recvRespRetry (now : Z) (r : reply) (b : Bridge) := trySendResp now r b.
(** An event is no longer scheduled when it runs. *)
Definition process_req (now : Z) (ok : bool) (b : Bridge) := trySendReq now ok (set_reqs (reqs b) None b).
Definition process_resp (now : Z) (r : reply) (b : Bridge) := trySendResp now r (set_resps (resps b) None b).

(** ** Atomic and functional accesses, with what is below *)

(** [trySatisfyFunctional] against the packets of a queue; a packet that is
    satisfied becomes a response. *)
Fixpoint satisfy_queue (p : Packet) (l : list DeferredPacket) : res (bool * Packet * list DeferredPacket) :=
  match l with
  | [] => Ok (false, p, [])
  | d :: l =>
      '(found, p, o) ← trySatisfyFunctional_pkt p (pkt (dpkt d));
      let d := mkDeferred (tick d) (with_pkt o (dpkt d)) in
      if found : bool then p ← makeResponse p; Ok (true, p, d :: l)
      else '(found, p, l) ← satisfy_queue p l; Ok (found, p, d :: l)
  end.

Definition recvAtomic {M} `{MemSide M} (w : env) (q : CPkt) (s : Bridge * M) : res (Z * CPkt * (Bridge * M)) :=
  panic_if (cacheResponding (pkt q));;
  '(lat, q, m) ← ms_sendAtomic w q s.2;
  Ok (delay s.1 * clockPeriod s.1 + lat, q, (s.1, m)).

Definition recvFunctional {M} `{MemSide M} (q : CPkt) (s : Bridge * M) : res (CPkt * (Bridge * M)) :=
  let b := s.1 in
  '(found, p, l) ← satisfy_queue (pkt q) (resps b);
  let b := set_resps l (respEvent b) b in
  if found : bool then Ok (with_pkt p q, (b, s.2))
  else
    '(found, p, l) ← satisfy_queue p (reqs b);
    let b := set_reqs l (reqEvent b) b in
    if found : bool then Ok (with_pkt p q, (b, s.2))
    else '(q, m) ← ms_sendFunctional (with_pkt p q) s.2; Ok (q, (b, m)).

Definition getAddrRanges (b : Bridge) : list AddrRange := ranges b.

(** ** The bridge between its peers *)
Inductive op :=
  | Request (q : CPkt)
  | Response (q : CPkt)
  | ReqEvent (ok : bool)
  | RespEvent (r : reply)
  | ReqRetry (ok : bool)
  | RespRetry (r : reply).

(** What has happened: the requests taken and sent, the responses that came
    and went back, each with its tick; and whether a peer owes a retry. *)
Record history := mkHistory {
  taken : list (Z * DeferredPacket);
  sent : list (Z * DeferredPacket);
  came : list (Z * DeferredPacket);
  returned : list (Z * DeferredPacket);
  req_refused : bool;
  resp_refused : bool }.
Definition start : history := mkHistory [] [] [] [] false false.

Definition stamp (now : Z) (l : list DeferredPacket) : list (Z * DeferredPacket) := pair now <$> l.

Definition exec (now : Z) (o : op) (h : history) (b : Bridge) : res (history * Bridge) :=
  match o with
  | Request q =>
      '(ps, b) ← requests_in now [q] b;
      Ok (mkHistory (taken h ++ ps) (sent h) (came h) (returned h) (req_refused h) (resp_refused h), b)
  | Response q =>
      let d := (defer now q b).1 in
      b ← recvTimingResp now q b;
      Ok (mkHistory (taken h) (sent h) (came h ++ [(now, d)]) (returned h) (req_refused h) (resp_refused h), b)
  | ReqEvent ok | ReqRetry ok =>
      '(ds, _, b) ← (match o with ReqEvent _ => process_req now ok b | _ => recvReqRetry now ok b end);
      Ok (mkHistory (taken h) (sent h ++ stamp now ds) (came h) (returned h) (negb ok) (resp_refused h), b)
  | RespEvent r | RespRetry r =>
      '(ps, ds, _, b) ← (match o with RespEvent _ => process_resp now r b | _ => recvRespRetry now r b end);
      Ok (mkHistory (taken h ++ ps) (sent h) (came h) (returned h ++ stamp now ds) (req_refused h)
            (negb (accepted r)), b)
  end.

Definition expects (e : Z * DeferredPacket) : bool := needsResponse (cmd (pkt (dpkt e.2))).
Definition expected (l : list (Z * DeferredPacket)) : Z := Z.of_nat (length (List.filter expects l)).

Definition request_fine (q : CPkt) : Prop := cacheResponding (pkt q) = false ∧ 0 ≤ headerDelay q ∧ 0 ≤ payloadDelay q.

(** Peers that keep the protocol: a retry follows a refusal, and a response
    answers a request that was sent and expects one. *)
Definition may (now : Z) (o : op) (h : history) (b : Bridge) : Prop :=
  match o with
  | Request q => request_fine q
  | Response q => 0 ≤ headerDelay q ∧ 0 ≤ payloadDelay q ∧ Z.of_nat (length (came h)) < expected (sent h)
  | ReqEvent _ => reqEvent b = Some now
  | RespEvent r => respEvent b = Some now ∧ Forall request_fine (during r)
  | ReqRetry _ => req_refused h = true
  | RespRetry r => resp_refused h = true ∧ Forall request_fine (during r)
  end.

Definition not_late (now : Z) (b : Bridge) : Prop :=
  (∀ t, reqEvent b = Some t → now ≤ t) ∧ (∀ t, respEvent b = Some t → now ≤ t).

Inductive reach (b0 : Bridge) : Z → history → Bridge → Prop :=
  | reach_new : reach b0 0 start b0
  | reach_step t now o h b h' b' :
      reach b0 t h b → t ≤ now → not_late now b → may now o h b →
      exec now o h b = Ok (h', b') → reach b0 now h' b'.

Definition params_ok (b : Bridge) : Prop :=
  0 < clockPeriod b ∧ 0 ≤ delay b ∧ 0 < reqQueueLimit b ∧ 0 < respQueueLimit b.

(** ** The invariant *)

(** A queue, the event that serves it and the retry it waits for. *)
Record queue_ok (now : Z) (l : list DeferredPacket) (e : option Z) (refused : bool) : Prop := {
  qo_event : is_Some e ↔ l ≠ [] ∧ refused = false;
  qo_refused : refused = true → ∃ d, head l = Some d ∧ tick d ≤ now;
  qo_time : ∀ t, e = Some t → now ≤ t;
  qo_head : ∀ t d, e = Some t → head l = Some d → tick d ≤ t }.

(** The packets that went in, as they wait or have gone. *)
Record flow_ok (latency : Z) (ins outs : list (Z * DeferredPacket)) (l : list DeferredPacket) : Prop := {
  fo_order : snd <$> ins = (snd <$> outs) ++ l;
  fo_in : Forall (λ e, e.1 + latency ≤ tick e.2) ins;
  fo_out : Forall (λ e, tick e.2 ≤ e.1) outs }.

(** All but the events of the queues. *)
Record core (now : Z) (h : history) (b : Bridge) : Prop := {
  in_params : params_ok b;
  in_now : 0 ≤ now;
  in_clock : Clk.in_step (clockPeriod b) now (clock b);
  in_forward : flow_ok (clockPeriod b * delay b) (taken h) (sent h) (reqs b);
  in_back : flow_ok (clockPeriod b * delay b) (came h) (returned h) (resps b);
  in_answers : Z.of_nat (length (came h)) ≤ expected (sent h);
  in_outstanding : outstandingResponses b = expected (taken h) - Z.of_nat (length (returned h));
  in_req_limit : Z.of_nat (length (reqs b)) ≤ reqQueueLimit b;
  in_resp_limit : outstandingResponses b ≤ respQueueLimit b;
  in_retry : retryReq b = true → reqs b ≠ [] ∨ 0 < outstandingResponses b }.

Record inv (now : Z) (h : history) (b : Bridge) : Prop := {
  in_core : core now h b;
  in_reqs : queue_ok now (reqs b) (reqEvent b) (req_refused h);
  in_resps : queue_ok now (resps b) (respEvent b) (resp_refused h) }.

(** ** Queues *)
Lemma queue_append now l e r d : queue_ok now l e r → now ≤ tick d →
  ∃ e', match l with [] => schedule now e (tick d) | _ => Ok e end = Ok e' ∧ queue_ok now (l ++ [d]) e' r.
Proof.
  intros [He Hr Ht Hh] Hd. destruct l as [|d0 l]; cbn [app].
  - assert (r = false) as -> by (destruct r; [by destruct (Hr eq_refl) as (? & [=] & _)|done]).
    destruct e as [t|]; [by destruct (proj1 He)|]. unfold schedule. rewrite (proj2 (Z.leb_le _ _)) by done.
    eexists. split; [done|]. split; try done; [by intros t [= <-]|]. intros t d' [= <-] [= <-]. lia.
  - exists e. split; [done|]. split; [rewrite He; naive_solver|done..].
Qed.

Definition next_event (b : Bridge) (now : Z) (l : list DeferredPacket) : option Z :=
  match l with [] => None | d :: _ => Some (Z.max (tick d) (Clk.edge (clockPeriod b) now 0)) end.

Lemma queue_pop b now l : 0 < clockPeriod b → 0 ≤ now → queue_ok now l (next_event b now l) false.
Proof.
  intros Hp Hn. pose proof (Clk.edge_bounds (clockPeriod b) now 0 Hp Hn). destruct l as [|d l]; cbn.
  - split; try done. split; [by intros []|by intros []].
  - split; try done; [intros t [= <-]; lia|]. intros t d' [= <-] [= <-]. lia.
Qed.

Lemma queue_refuse now d l : tick d ≤ now → queue_ok now (d :: l) None true.
Proof. intros Hd. split; try done; [split; [by intros []|by intros []]|]. intros _. by exists d. Qed.

(** The head of a queue when it is its turn. *)
Lemma queue_turn now l e r : queue_ok now l e r → e = Some now ∨ r = true → ∃ d l', l = d :: l' ∧ tick d ≤ now.
Proof.
  intros [He Hr Ht Hh] [-> | ->].
  - destruct (proj1 He) as [Hne _]; [done|]. destruct l as [|d l]; [done|]. exists d, l. split; [done|]. by apply (Hh now d).
  - destruct (Hr eq_refl) as (d & Hd & ?). destruct l; [done|]. injection Hd as ->. by eexists _, _.
Qed.
Lemma queue_idle now l e : queue_ok now l e true → e = None.
Proof. intros [He _ _ _]. destruct e; [|done]. by destruct (proj1 He). Qed.

Lemma queue_later now now' l e r : queue_ok now l e r → now ≤ now' → (∀ t, e = Some t → now' ≤ t) →
  queue_ok now' l e r.
Proof.
  intros [He Hr Ht Hh] Hn Hl. split; try done. intros Hx. destruct (Hr Hx) as (d & ? & ?). exists d. split; [done|lia].
Qed.

(** ** Counting *)
Lemma expected_app l1 l2 : expected (l1 ++ l2) = expected l1 + expected l2.
Proof. unfold expected. rewrite List.filter_app, length_app. lia. Qed.
Lemma expected_grow l1 l2 : expected l1 ≤ expected (l1 ++ l2).
Proof. rewrite expected_app. unfold expected. lia. Qed.
Lemma expected_snd l1 l2 : snd <$> l1 = snd <$> l2 → expected l1 = expected l2.
Proof.
  unfold expected. revert l2. induction l1 as [|[t1 d1] l1 IH]; intros [|[t2 d2] l2]; try done.
  intros [= -> Heq]. specialize (IH l2 Heq). cbn [List.filter].
  change (expects (t1, d2)) with (expects (t2, d2)). destruct (expects (t2, d2)); cbn [length]; lia.
Qed.
Lemma expected_nonneg l : 0 ≤ expected l.
Proof. unfold expected. lia. Qed.

(** Every request sent was taken. *)
Lemma sent_taken b h lat : flow_ok lat (taken h) (sent h) (reqs b) → expected (sent h) ≤ expected (taken h).
Proof.
  intros [Ho _ _]. rewrite (expected_snd (taken h) (sent h ++ stamp 0 (reqs b))).
  - rewrite expected_app. pose proof (expected_nonneg (stamp 0 (reqs b))). lia.
  - rewrite Ho, fmap_app. f_equal. unfold stamp. rewrite <-list_fmap_compose. symmetry. apply list_fmap_id.
Qed.

(** ** Time stamps *)
Definition deferred (now : Z) (q : CPkt) (b : Bridge) : DeferredPacket :=
  mkDeferred (Clk.edge (clockPeriod b) now (delay b) + (headerDelay q + payloadDelay q))
    (mkCPkt (pkt q) (requestorId q) (taskId q) 0 0).

Lemma defer_eq now q b : 0 < clockPeriod b → 0 ≤ now → Clk.in_step (clockPeriod b) now (clock b) →
  defer now q b = (deferred now q b, set_clock (Clk.update (clockPeriod b) now (clock b)) b).
Proof. intros Hp Hn Hk. unfold defer. by rewrite Clk.clockEdge_spec. Qed.

Lemma deferred_late now q b : 0 < clockPeriod b → 0 ≤ now → 0 ≤ headerDelay q → 0 ≤ payloadDelay q →
  now + clockPeriod b * delay b ≤ tick (deferred now q b).
Proof.
  intros Hp Hn Hh Hpd. pose proof (Clk.edge_bounds (clockPeriod b) now (delay b) Hp Hn). cbn. lia.
Qed.

Lemma flow_in lat ins outs l now d : flow_ok lat ins outs l → now + lat ≤ tick d →
  flow_ok lat (ins ++ [(now, d)]) outs (l ++ [d]).
Proof.
  intros [Ho Hi Hu] Hd. split; [by rewrite fmap_app, Ho, <-app_assoc|apply Forall_app; by split; [|constructor]|done].
Qed.
Lemma flow_out lat ins outs l now d : flow_ok lat ins outs (d :: l) → tick d ≤ now →
  flow_ok lat ins (outs ++ [(now, d)]) l.
Proof.
  intros [Ho Hi Hu] Hd. split; [by rewrite Ho, fmap_app, <-app_assoc|done|apply Forall_app; by split; [|constructor]].
Qed.

(** ** Requests *)
Definition log_taken (ps : list (Z * DeferredPacket)) (h : history) : history :=
  mkHistory (taken h ++ ps) (sent h) (came h) (returned h) (req_refused h) (resp_refused h).
Lemma log_nil h : log_taken [] h = h.
Proof. unfold log_taken. rewrite app_nil_r. by destruct h. Qed.
Lemma log_app ps1 ps2 h : log_taken ps2 (log_taken ps1 h) = log_taken (ps1 ++ ps2) h.
Proof. unfold log_taken. cbn. by rewrite app_assoc. Qed.

(** What requests leave alone. *)
Definition same_back (b b' : Bridge) : Prop :=
  resps b' = resps b ∧ respEvent b' = respEvent b ∧ clockPeriod b' = clockPeriod b ∧ delay b' = delay b.

Lemma core_stall now h b : core now h b → reqs b ≠ [] ∨ 0 < outstandingResponses b →
  core now h (set_stall (outstandingResponses b) true b).
Proof. intros [] Hs. by split. Qed.

(** A request that there is room for. *)
Lemma admit_ok now h b q : core now h b → queue_ok now (reqs b) (reqEvent b) (req_refused h) →
  request_fine q → reqQueueFull b = false → retryReq b = false →
  (needsResponse (cmd (pkt q)) = true → respQueueFull b = false) →
  let b1 := set_stall (outstandingResponses b + (if needsResponse (cmd (pkt q)) then 1 else 0)) false b in
  ∃ b', (let '(d, b) := defer now q b1 in b ← schedTimingReq now d b; Ok (true, b)) = Ok (true, b') ∧
    core now (log_taken [(now, deferred now q b)] h) b' ∧
    queue_ok now (reqs b') (reqEvent b') (req_refused h) ∧ same_back b b'.
Proof.
  intros Hc Hq (_ & Hh & Hp) Hfull Hretry Hresp b1. pose proof (in_params _ _ _ Hc) as (Hper & Hdel & Hrl & Hsl).
  pose proof (in_now _ _ _ Hc) as Hnow. pose proof (in_clock _ _ _ Hc) as Hk.
  rewrite (defer_eq now q b1) by done. change (deferred now q b1) with (deferred now q b).
  pose proof (deferred_late now q b Hper Hnow Hh Hp) as Hlate. set (d := deferred now q b) in *.
  set (k := Clk.update _ _ _). unfold schedTimingReq. cbn [reqs reqEvent set_clock set_stall b1].
  destruct (queue_append now (reqs b) (reqEvent b) (req_refused h) d Hq) as (e & -> & Hq'); [nia|].
  cbn [mbind res_bind]. change (reqQueueFull (set_clock k b1)) with (reqQueueFull b). rewrite Hfull.
  cbn [negb assertb mbind res_bind]. eexists. split; [done|]. split; [|split; [exact Hq'|done]].
  unfold reqQueueFull in Hfull. apply Z.eqb_neq in Hfull. pose proof (in_req_limit _ _ _ Hc).
  pose proof (in_resp_limit _ _ _ Hc). pose proof (in_outstanding _ _ _ Hc).
  split; cbn [log_taken taken sent came returned set_reqs set_clock set_stall reqs resps clockPeriod clock b1
    outstandingResponses retryReq reqQueueLimit respQueueLimit]; try (by apply Hc); try done.
  - by apply (Clk.update_in_step (clockPeriod b)).
  - apply flow_in; [apply Hc|exact Hlate].
  - assert (expected [(now, d)] = if needsResponse (cmd (pkt q)) then 1 else 0) as Hone.
    { unfold expected. cbn [List.filter]. change (expects (now, d)) with (needsResponse (cmd (pkt q))).
      by destruct (needsResponse _). }
    rewrite expected_app, Hone. lia.
  - rewrite length_app. cbn [length]. lia.
  - destruct (needsResponse (cmd (pkt q))); [|lia]. specialize (Hresp eq_refl). unfold respQueueFull in Hresp.
    apply Z.eqb_neq in Hresp. lia.
Qed.

Lemma take_request now h b q : core now h b → queue_ok now (reqs b) (reqEvent b) (req_refused h) → request_fine q →
  ∃ tk b', recvTimingReq now q b = Ok (tk, b') ∧
    core now (log_taken (if tk then [(now, deferred now q b)] else []) h) b' ∧
    queue_ok now (reqs b') (reqEvent b') (req_refused h) ∧ same_back b b'.
Proof.
  intros Hc Hq Hf. pose proof (in_params _ _ _ Hc) as (Hper & Hdel & Hrl & Hsl). unfold recvTimingReq.
  rewrite (proj1 Hf). cbn [panic_if assertb negb mbind res_bind].
  destruct (retryReq b) eqn:Hretry; [exists false, b; by rewrite log_nil|].
  destruct (reqQueueFull b) eqn:Hfull.
  { exists false. eexists. split; [done|]. rewrite log_nil. split; [|done]. apply core_stall; [done|left].
    intros He. unfold reqQueueFull in Hfull. rewrite He in Hfull. apply Z.eqb_eq in Hfull. cbn in Hfull. lia. }
  pose proof (admit_ok now h b q Hc Hq Hf Hfull Hretry) as Hadm. cbv zeta in Hadm.
  destruct (needsResponse (cmd (pkt q))) eqn:Hn.
  - destruct (respQueueFull b) eqn:Hrf; cbn [mbind res_bind retryReq set_stall].
    + exists false. eexists. split; [done|]. rewrite log_nil. split; [|done]. apply core_stall; [done|right].
      unfold respQueueFull in Hrf. apply Z.eqb_eq in Hrf. lia.
    + unfold respQueueFull in Hrf. rewrite Hrf. cbn [negb assertb mbind res_bind retryReq set_stall].
      exists true. by apply Hadm.
  - cbn [mbind res_bind]. rewrite Hretry. exists true. rewrite Z.add_0_r in Hadm.
    assert (set_stall (outstandingResponses b) false b = b) as Hb by (rewrite <-Hretry; by destruct b).
    rewrite Hb in Hadm. by apply Hadm.
Qed.

Lemma take_requests now l h b : core now h b → queue_ok now (reqs b) (reqEvent b) (req_refused h) →
  Forall request_fine l →
  ∃ ps b', requests_in now l b = Ok (ps, b') ∧ core now (log_taken ps h) b' ∧
    queue_ok now (reqs b') (reqEvent b') (req_refused h) ∧ same_back b b'.
Proof.
  revert h b. induction l as [|q l IH]; intros h b Hc Hq Hl; cbn [requests_in].
  { exists [], b. rewrite log_nil. by split_and!. }
  apply Forall_cons in Hl as [Hf Hl]. destruct (take_request now h b q Hc Hq Hf) as (tk & b1 & -> & Hc1 & Hq1 & Hs1).
  cbn [mbind res_bind]. destruct (IH _ b1 Hc1 Hq1 Hl) as (ps & b2 & -> & Hc2 & Hq2 & Hs2). cbn [mbind res_bind].
  eexists _, b2. split; [done|]. rewrite (defer_eq now q b) by apply Hc. cbn [fst]. rewrite <-log_app.
  split; [exact Hc2|]. split; [exact Hq2|]. unfold same_back in *. intuition congruence.
Qed.

(** ** Sending *)
Lemma next_send_ok now l b : 0 < clockPeriod b → 0 ≤ now → Clk.in_step (clockPeriod b) now (clock b) →
  ∃ k, next_send now l None b = Ok (next_event b now l, set_clock k b) ∧ Clk.in_step (clockPeriod b) now k.
Proof.
  intros Hp Hn Hk. destruct l as [|d l]; cbn [next_send next_event].
  - exists (clock b). split; [by destruct b|done].
  - rewrite Clk.clockEdge_spec by done. pose proof (Clk.edge_bounds (clockPeriod b) now 0 Hp Hn).
    unfold schedule. rewrite (proj2 (Z.leb_le _ _)) by lia. cbn [assertb mbind res_bind].
    eexists. split; [done|]. by apply Clk.update_in_step.
Qed.

Definition log_sent (now : Z) (ok : bool) (ds : list DeferredPacket) (h : history) : history :=
  mkHistory (taken h) (sent h ++ stamp now ds) (came h) (returned h) (negb ok) (resp_refused h).

Lemma send_request now ok h b d l : core now h b → reqs b = d :: l → tick d ≤ now → reqEvent b = None →
  ∃ ds r b', trySendReq now ok b = Ok (ds, r, b') ∧ core now (log_sent now ok ds h) b' ∧
    queue_ok now (reqs b') (reqEvent b') (negb ok) ∧ same_back b b'.
Proof.
  intros Hc Hl Hd He. pose proof (in_params _ _ _ Hc) as (Hper & Hdel & Hrl & Hsl). pose proof (in_now _ _ _ Hc) as Hnow.
  unfold trySendReq. rewrite Hl, (proj2 (Z.leb_le _ _)) by done. cbn [assertb mbind res_bind]. destruct ok; cbn [negb].
  - rewrite He. destruct (next_send_ok now l b Hper Hnow (in_clock _ _ _ Hc)) as (k & -> & Hk). cbn [mbind res_bind].
    set (b1 := set_reqs l _ _). assert (Hc1 : ∀ r, core now (log_sent now true [d] h) (set_stall (outstandingResponses b) r b1)
      ∨ r = true).
    { intros [|]; [by right|left]. pose proof (in_forward _ _ _ Hc) as Hfl. rewrite Hl in Hfl.
      pose proof (in_req_limit _ _ _ Hc) as Hlim. rewrite Hl in Hlim. cbn [length] in Hlim.
      split; try (by apply Hc); try done; cbn; [by apply flow_out| |lia].
      exact (Z.le_trans _ _ _ (in_answers _ _ _ Hc) (expected_grow (sent h) (stamp now [d]))). }
    unfold retryStalledReq. destruct (retryReq b1) eqn:Hr; eexists _, _, _; (split; [done|]).
    + destruct (Hc1 false) as [Hx|]; [|done]. split; [exact Hx|]. split; [by apply queue_pop|done].
    + destruct (Hc1 false) as [Hx|]; [|done]. split; [|split; [by apply queue_pop|done]].
      replace b1 with (set_stall (outstandingResponses b) false b1) by (rewrite <-Hr; done). exact Hx.
  - eexists _, _, b. split; [done|]. split; [|split; [|done]].
    + destruct Hc. split; try done; cbn; by rewrite app_nil_r.
    + rewrite He, Hl. by apply queue_refuse.
Qed.

(** A response that came leaves one reservation at least. *)
Lemma reserved now h b d l : core now h b → resps b = d :: l → 0 < outstandingResponses b.
Proof.
  intros Hc Hl. pose proof (sent_taken b h _ (in_forward _ _ _ Hc)). pose proof (in_answers _ _ _ Hc).
  pose proof (in_outstanding _ _ _ Hc). pose proof (f_equal length (fo_order _ _ _ _ (in_back _ _ _ Hc))) as Hlen.
  rewrite Hl, length_app, !length_fmap in Hlen. cbn [length] in Hlen. lia.
Qed.

Definition log_returned (now : Z) (ok : bool) (ds : list DeferredPacket) (h : history) : history :=
  mkHistory (taken h) (sent h) (came h) (returned h ++ stamp now ds) (req_refused h) (negb ok).

(** A response has left, and the requestor is told to retry if there is room. *)
Lemma return_core now h b d l e k : core now h b → resps b = d :: l → tick d ≤ now → Clk.in_step (clockPeriod b) now k →
  let b1 := set_resps l e (set_clock k (set_stall (outstandingResponses b - 1) (retryReq b) (set_resps l (respEvent b) b))) in
  core now (log_returned now true [d] h)
    (if negb (reqQueueFull b1) && retryReq b1 then set_stall (outstandingResponses b1) false b1 else b1).
Proof.
  intros Hc Hl Hd Hk b1. pose proof (reserved now h b d l Hc Hl) as Hpos.
  pose proof (in_back _ _ _ Hc) as Hfl. rewrite Hl in Hfl. pose proof (in_params _ _ _ Hc) as (_ & _ & Hrl & _).
  pose proof (in_outstanding _ _ _ Hc). pose proof (in_resp_limit _ _ _ Hc).
  assert (Hgen : ∀ r, (r = true → reqs b ≠ []) → core now (log_returned now true [d] h) (set_stall (outstandingResponses b1) r b1)).
  { intros r Hr. split; try (by apply Hc); try done; cbn; [by apply flow_out| |lia|by auto].
    rewrite length_app. cbn [length]. lia. }
  destruct (negb (reqQueueFull b1) && retryReq b1) eqn:Hx; [by apply Hgen|].
  change b1 with (set_stall (outstandingResponses b1) (retryReq b1) b1) at 1. apply Hgen. intros Hr.
  rewrite Hr, andb_true_r in Hx. apply negb_false_iff in Hx. unfold reqQueueFull in Hx. apply Z.eqb_eq in Hx.
  cbn in Hx. intros He. rewrite He in Hx. cbn in Hx. lia.
Qed.

Lemma send_response now r h b d l : core now h b → queue_ok now (reqs b) (reqEvent b) (req_refused h) →
  resps b = d :: l → tick d ≤ now → respEvent b = None → Forall request_fine (during r) →
  ∃ ps ds f b', trySendResp now r b = Ok (ps, ds, f, b') ∧
    core now (log_returned now (accepted r) ds (log_taken ps h)) b' ∧
    queue_ok now (reqs b') (reqEvent b') (req_refused h) ∧
    queue_ok now (resps b') (respEvent b') (negb (accepted r)).
Proof.
  intros Hc Hq Hl Hd He Hf. unfold trySendResp. rewrite Hl, (proj2 (Z.leb_le _ _)) by done. cbn [assertb mbind res_bind].
  destruct (take_requests now (during r) h b Hc Hq Hf) as (ps & b1 & -> & Hc1 & Hq1 & Hr1 & He1 & _ & _).
  cbn [mbind res_bind]. rewrite Hl in Hr1. rewrite He in He1.
  destruct (accepted r) eqn:Hacc.
  - pose proof (reserved _ _ _ _ _ Hc1 Hr1) as Hpos. pose proof (in_params _ _ _ Hc1) as (Hper & _).
    pose proof (in_now _ _ _ Hc1) as Hnow. rewrite Hr1. cbn [tail set_resps outstandingResponses].
    rewrite (proj2 (Z.eqb_neq _ _)) by lia. cbn [negb assertb mbind res_bind].
    set (b2 := set_stall _ _ _). change (respEvent b2) with (respEvent b1). rewrite He1.
    destruct (next_send_ok now l b2 Hper Hnow (in_clock _ _ _ Hc1)) as (k & -> & Hk). cbn [mbind res_bind].
    pose proof (return_core now (log_taken ps h) b1 d l (next_event b2 now l) k Hc1 Hr1 Hd Hk) as Hret. cbv zeta in Hret.
    unfold b2 in *. set (b3 := set_resps l _ (set_clock k _)) in *.
    pose proof (queue_pop b1 now l Hper Hnow) as Hpop.
    destruct (negb (reqQueueFull b3) && retryReq b3); eexists _, _, _, _; (split; [done|]); by split_and!.
  - eexists _, _, _, _. split; [done|]. split; [|split; [done|]].
    + destruct Hc1. split; try done; cbn [log_returned returned]; by rewrite app_nil_r.
    + rewrite Hr1, He1. by apply queue_refuse.
Qed.

Lemma receive_response now q h b : core now h b → queue_ok now (resps b) (respEvent b) (resp_refused h) →
  0 ≤ headerDelay q → 0 ≤ payloadDelay q → Z.of_nat (length (came h)) < expected (sent h) →
  ∃ b', recvTimingResp now q b = Ok b' ∧
    core now (mkHistory (taken h) (sent h) (came h ++ [(now, deferred now q b)]) (returned h) (req_refused h) (resp_refused h)) b' ∧
    reqs b' = reqs b ∧ reqEvent b' = reqEvent b ∧ queue_ok now (resps b') (respEvent b') (resp_refused h).
Proof.
  intros Hc Hq Hh Hp Hlt. pose proof (in_params _ _ _ Hc) as (Hper & Hdel & _). pose proof (in_now _ _ _ Hc) as Hnow.
  unfold recvTimingResp. rewrite (defer_eq now q b) by (done || apply Hc).
  pose proof (deferred_late now q b Hper Hnow Hh Hp) as Hlate. set (d := deferred now q b) in *.
  unfold schedTimingResp. cbn [resps respEvent set_clock].
  destruct (queue_append now (resps b) (respEvent b) (resp_refused h) d Hq) as (e & -> & Hq'); [nia|].
  cbn [mbind res_bind]. eexists. split; [done|]. split; [|done].
  split; try (by apply Hc); try done; cbn [came set_resps set_clock resps clock clockPeriod delay].
  - apply Clk.update_in_step; [done|done|apply Hc].
  - apply flow_in; [apply Hc|done].
  - rewrite length_app. cbn [length]. cbn [sent]. lia.
Qed.

(** ** Every step *)
Lemma core_later now now' h b : core now h b → now ≤ now' → core now' h b.
Proof. intros [] Hn. split; try done; [lia|by eapply Clk.in_step_later]. Qed.

Lemma bridge_exec_ok now o h b : inv now h b → may now o h b → ∃ h' b', exec now o h b = Ok (h', b') ∧ inv now h' b'.
Proof.
  intros [Hc Hq Hs] Hm. destruct o as [q|q|ok|r|ok|r]; cbn [exec may] in *.
  - destruct (take_requests now [q] h b Hc Hq) as (ps & b' & -> & Hc' & Hq' & Hr & He & _); [by apply Forall_singleton|].
    cbn [mbind res_bind]. eexists _, _. split; [done|]. split; [exact Hc'|exact Hq'|]. by rewrite Hr, He.
  - destruct Hm as (Hh & Hp & Hlt). destruct (receive_response now q h b Hc Hs Hh Hp Hlt) as (b' & -> & Hc' & Hr & He & Hs').
    cbn [mbind res_bind]. rewrite (defer_eq now q b) by apply Hc. eexists _, _. split; [done|].
    split; [exact Hc'|by rewrite Hr, He|exact Hs'].
  - destruct (queue_turn _ _ _ _ Hq (or_introl Hm)) as (d & l & Hl & Hd).
    destruct (send_request now ok h (set_reqs (reqs b) None b) d l) as (ds & f & b' & Heq & Hc' & Hq' & Hr & He & _); try done.
    { by destruct Hc; split. }
    unfold process_req. rewrite Heq. cbn [mbind res_bind]. eexists _, _. split; [done|].
    split; [exact Hc'|exact Hq'|]. by rewrite Hr, He.
  - destruct Hm as [Hm Hf]. destruct (queue_turn _ _ _ _ Hs (or_introl Hm)) as (d & l & Hl & Hd).
    destruct (send_response now r h (set_resps (resps b) None b) d l) as (ps & ds & f & b' & Heq & Hc' & Hq' & Hs'); try done.
    { by destruct Hc; split. }
    unfold process_resp. rewrite Heq. cbn [mbind res_bind]. eexists _, _. split; [done|]. by split.
  - destruct (queue_turn _ _ _ _ Hq (or_intror Hm)) as (d & l & Hl & Hd). rewrite Hm in Hq.
    destruct (send_request now ok h b d l) as (ds & f & b' & Heq & Hc' & Hq' & Hr & He & _); try done; [by eapply queue_idle|].
    unfold recvReqRetry. rewrite Heq. cbn [mbind res_bind]. eexists _, _. split; [done|].
    split; [exact Hc'|exact Hq'|]. by rewrite Hr, He.
  - destruct Hm as [Hm Hf]. destruct (queue_turn _ _ _ _ Hs (or_intror Hm)) as (d & l & Hl & Hd). rewrite Hm in Hs.
    destruct (send_response now r h b d l) as (ps & ds & f & b' & Heq & Hc' & Hq' & Hs'); try done; [by eapply queue_idle|].
    unfold recvRespRetry. rewrite Heq. cbn [mbind res_bind]. eexists _, _. split; [done|]. by split.
Qed.

Lemma inv_later now now' h b : inv now h b → now ≤ now' → not_late now' b → inv now' h b.
Proof.
  intros [Hc Hq Hs] Hn [Hl1 Hl2]. split; [by eapply core_later|by eapply queue_later|by eapply queue_later].
Qed.

Lemma bridge_reach_inv b0 t h b : inv 0 start b0 → reach b0 t h b → inv t h b.
Proof.
  intros H0 Hr. induction Hr as [|t now o h b h' b' _ IH Ht Hl Hm He]; [done|].
  destruct (bridge_exec_ok now o h b (inv_later _ _ _ _ IH Ht Hl) Hm) as (h1 & b1 & He1 & Hi). congruence.
Qed.

Lemma bridge_new_inv period dly req_size resp_size rs : 0 < period → 0 ≤ dly → 0 < req_size → 0 < resp_size →
  inv 0 start (Bridge_new period dly req_size resp_size rs).
Proof.
  intros Hp Hd Hq Hr. assert (0 ≤ Clk.ticksToCycles period dly) as Hc.
  { unfold Clk.ticksToCycles. pose proof (divCeil_spec dly period Hd Hp).
    destruct (decide (0 ≤ divCeil dly period)); [done|nia]. }
  split.
  - split; try done; cbn; try lia.
  - split; try done. split; [by intros []|by intros []].
  - split; try done. split; [by intros []|by intros []].
Qed.

(** C11: Whatever requests, responses, refusals and retries its peers send, in
    any order, no check of a bridge fails.  Requests leave in the order they
    were taken, and responses in the order they came, none lost or doubled,
    each at least the delay after it arrived; the request queue stays within
    its limit and reservations for responses within theirs, one for each
    request taken whose response has not gone back; each queue with packets
    either has its event scheduled or its peer owes it a retry; and a
    requestor that was turned away is not forgotten: there is a request or a
    response whose departure will tell it to retry. *)
Theorem bridge_safe period dly req_size resp_size rs t h b :
  0 < period → 0 ≤ dly → 0 < req_size → 0 < resp_size →
  reach (Bridge_new period dly req_size resp_size rs) t h b →
  inv t h b ∧ ∀ now o, t ≤ now → not_late now b → may now o h b → ∃ r, exec now o h b = Ok r.
Proof.
  intros Hp Hd Hq Hr Hre. pose proof (bridge_reach_inv _ t h b (bridge_new_inv _ _ _ _ rs Hp Hd Hq Hr) Hre) as Hi. split; [done|].
  intros now o Ht Hl Hm. destruct (bridge_exec_ok now o h b (inv_later _ _ _ _ Hi Ht Hl) Hm) as (h' & b' & He & _). eauto.
Qed.

(** ** A bridge as a memory side *)
#[export] Instance bridge_side {M} `{MemSide M} : MemSide (Bridge * M) := {|
  ms_sendAtomic := recvAtomic;
  ms_sendFunctional := recvFunctional |}.

Section Side.
Context {M : Type} `{msM : MemSide M} {n : Z} {sec : bool} {maxreq : Z} `{msO : !Core.MemSideOk M n sec maxreq}.
Import Core.

Definition side_rep (t : Z) (s : Bridge * M) (f : Z → Z) : Prop :=
  ms_rep t s.2 f ∧ resps s.1 = [] ∧ reqs s.1 = [].
Definition side_block (s : Bridge * M) (x : Z) : Prop := ms_block s.2 x.

Lemma side_later t t' s f : t ≤ t' → side_rep t s f → side_rep t' s f.
Proof. intros Ht [Hr Hq]. split; [by eapply ms_later|done]. Qed.

Lemma side_fetch w s f q x : time_ok w → side_rep (curTick w) s f → side_block s x → is_fetch n sec maxreq q x →
  ∃ lat q' s', ms_sendAtomic w q s = Ok (lat, q', s') ∧
    pkt q' = AbsMem.answer (pkt q) (Some (AbsMem.load f x (Z.to_nat n))) None ∧ requestorId q' = requestorId q ∧
    delays_ok q' ∧ side_rep (curTick w) s' f ∧ ∀ y, side_block s y → side_block s' y.
Proof.
  intros Hw [Hr Hq] Hb Hf. destruct (ms_fetch w s.2 f q x Hw Hr Hb Hf) as (lat & q' & m' & Hs & H1 & H2 & H3 & H4 & H5).
  cbn [ms_sendAtomic bridge_side]. unfold recvAtomic, cacheResponding. rewrite (fe_flags _ _ _ _ _ Hf).
  cbn [panic_if mbind res_bind]. change (isSet 0 CACHE_RESPONDING) with false. cbn [assertb negb mbind res_bind]. rewrite Hs.
  cbn [mbind res_bind]. eexists _, _, _. split; [done|]. by split_and!.
Qed.

Lemma side_writeback w s f q x d : time_ok w → side_rep (curTick w) s f → side_block s x →
  is_writeback n sec maxreq q x d → (cmd (pkt q) = WritebackClean → d = AbsMem.load f x (Z.to_nat n)) →
  ∃ lat q' s', ms_sendAtomic w q s = Ok (lat, q', s') ∧ side_rep (curTick w) s' (wb_effect q x d f) ∧
    ∀ y, side_block s y → side_block s' y.
Proof.
  intros Hw [Hr Hq] Hb Hf Hcl. destruct (ms_writeback w s.2 f q x d Hw Hr Hb Hf Hcl) as (lat & q' & m' & Hs & H1 & H2).
  cbn [ms_sendAtomic bridge_side]. unfold recvAtomic, cacheResponding. rewrite (wb_flags _ _ _ _ _ _ Hf).
  cbn [panic_if mbind res_bind]. change (isSet 0 CACHE_RESPONDING) with false. cbn [assertb negb mbind res_bind]. rewrite Hs.
  cbn [mbind res_bind]. eexists _, _, _. split; [done|]. by split_and!.
Qed.

Lemma side_functional t s f q x d : side_rep t s f → side_block s x → is_functional n sec q x d →
  ∃ q' s', ms_sendFunctional q s = Ok (q', s') ∧ side_rep t s' (Flat.flat_step f (pkt q) d true).1 ∧
    isResponse (cmd (pkt q')) = true ∧
    (cmd (pkt q) = ReadReq → data (pkt q') = Some (AbsMem.load f (addr (pkt q)) (Z.to_nat (size (pkt q))))) ∧
    ∀ y, side_block s y → side_block s' y.
Proof.
  intros (Hr & H1 & H2) Hb Hf. destruct (ms_functional t s.2 f q x d Hr Hb Hf) as (q' & m' & Hs & Hr' & Hre & Hd & Hbl).
  cbn [ms_sendFunctional bridge_side]. unfold recvFunctional. rewrite H1. cbn [satisfy_queue mbind res_bind].
  cbn [reqs set_resps]. rewrite H2. cbn [satisfy_queue mbind res_bind].
  replace (with_pkt (pkt q) q) with q by (by destruct q). rewrite Hs. cbn [mbind res_bind].
  eexists _, _. split; [done|]. by split_and!.
Qed.

#[export] Instance bridge_side_ok : MemSideOk (Bridge * M) n sec maxreq := {|
  ms_rep := side_rep;
  ms_block := side_block;
  ms_later := side_later;
  ms_fetch := side_fetch;
  ms_writeback := side_writeback;
  ms_functional := side_functional |}.
End Side.

(** ** Witness: a request, its way across, and its response. *)
Definition w_request : CPkt := mkCPkt (set_data (Some [0]) (createRead (AbsMem.request_by 0 64 1 0))) 1 0 3 4.
Definition w_response : CPkt := match makeResponse (pkt w_request) with Ok p => with_pkt p w_request | Err _ => w_request end.
Definition w_ops : list (Z * op) :=
  [(5, Request w_request); (1507, ReqEvent false); (1600, ReqRetry true); (1700, Response w_response);
   (3007, RespEvent (mkReply true [w_request]))].
Fixpoint run (ops : list (Z * op)) (h : history) (b : Bridge) : res (history * Bridge) :=
  match ops with
  | [] => Ok (h, b)
  | (now, o) :: ops => '(h, b) ← exec now o h b; run ops h b
  end.
Definition w_bridge : Bridge := Bridge_new 500 1000 1 1 [].
Definition w_at (k : nat) : history * Bridge :=
  match run (take k w_ops) start w_bridge with Ok s => s | Err _ => (start, w_bridge) end.

Local Ltac early := intros ?; vm_compute; (discriminate || by intros [= <-]).

Lemma bridge_w_step k t now o : reach w_bridge t (w_at k).1 (w_at k).2 → t ≤ now →
  (∀ u, reqEvent (w_at k).2 = Some u → now ≤ u) → (∀ u, respEvent (w_at k).2 = Some u → now ≤ u) →
  may now o (w_at k).1 (w_at k).2 → exec now o (w_at k).1 (w_at k).2 = Ok (w_at (S k)) →
  reach w_bridge now (w_at (S k)).1 (w_at (S k)).2.
Proof.
  intros Hr Ht H1 H2 Hm He. eapply reach_step; [exact Hr|done|by split|exact Hm|]. rewrite He. by destruct (w_at (S k)).
Qed.

Lemma bridge_w_reach : reach w_bridge 3007 (w_at 5).1 (w_at 5).2.
Proof.
  assert (Hf : request_fine w_request) by (by split; [|split]).
  eapply (bridge_w_step 4 1700 3007 (RespEvent (mkReply true [w_request]))); [|lia|early|early| |by vm_compute].
  2: { split; [by vm_compute|by apply Forall_singleton]. }
  eapply (bridge_w_step 3 1600 1700 (Response w_response)); [|lia|early|early|by vm_compute|by vm_compute].
  eapply (bridge_w_step 2 1507 1600 (ReqRetry true)); [|lia|early|early|by vm_compute|by vm_compute].
  eapply (bridge_w_step 1 5 1507 (ReqEvent false)); [|lia|early|early|by vm_compute|by vm_compute].
  eapply (bridge_w_step 0 0 5 (Request w_request)); [constructor|lia|early|early|done|by vm_compute].
Qed.

Lemma bridge_safe_witness : reach w_bridge 3007 (w_at 5).1 (w_at 5).2 ∧ inv 3007 (w_at 5).1 (w_at 5).2 ∧
  ∀ now o, 3007 ≤ now → not_late now (w_at 5).2 → may now o (w_at 5).1 (w_at 5).2 →
    ∃ r, exec now o (w_at 5).1 (w_at 5).2 = Ok r.
Proof. split; [exact bridge_w_reach|]. apply (bridge_safe 500 1000 1 1 []); [lia|lia|lia|lia|exact bridge_w_reach]. Defined.
End Bridge.
