(* ===== verification/Mshr.v ===== *)
(** * Miss status holding registers ([mem/cache/mshr.cc], [mem/cache/mshr.hh])

    The requests that wait for a block, in two lists: those the request in
    service answers, and those deferred until after its response.  A packet
    from a cache above carries the register it waits in there, found through
    its sender state: [upstream] is its number.  What this register does to
    those, marking and clearing that their request is pending downstream, is
    returned as a list of calls.  Data of snooped packets is dynamic;
    transactional memory is left out. *)

From S2P Require Import Prelude.
From S2P Require Import MemCmd.
From S2P Require Import Packet.
From S2P Require Import PacketQueue.
From S2P Require Import SnoopFilter.
From S2P Require Import NoncoherentCache.

Module Mshr.
Import MemCmd Pkt.

(** ** Definitions *)
Inductive Source := FromCPU | FromSnoop | FromPrefetcher.
#[export] Instance Source_eq_dec : EqDecision Source.
Proof. solve_decision. Defined.

Record Target := mkTarget {
  t_pkt : Packet;
  t_readyTime : Z;
  t_order : Z;
  source : Source;
  markedPending : bool;
  t_allocOnFill : bool;
  upstream : option nat }.
Definition with_packet (p : Packet) (t : Target) : Target :=
  mkTarget p (t_readyTime t) (t_order t) (source t) (markedPending t) (t_allocOnFill t) (upstream t).
Definition unmarked (t : Target) : Target :=
  mkTarget (t_pkt t) (t_readyTime t) (t_order t) (source t) false (t_allocOnFill t) (upstream t).

(** Calls to the registers of the caches above. *)
Inductive call := MarkPending (m : nat) | ClearPending (m : nat).

Record TargetList := mkTargets {
  items : list Target;
  needsWritable : bool;
  hasUpgrade : bool;
  allocOnFill : bool;
  hasFromCache : bool;
  tl_blkAddr : Z;
  tl_blkSize : Z;
  canMergeWrites : bool;
  writesBitmap : list bool }.

Definition set_items (l : list Target) (t : TargetList) : TargetList :=
  mkTargets l (needsWritable t) (hasUpgrade t) (allocOnFill t) (hasFromCache t) (tl_blkAddr t) (tl_blkSize t)
    (canMergeWrites t) (writesBitmap t).
Definition set_flags (nw up al fc : bool) (t : TargetList) : TargetList :=
  mkTargets (items t) nw up al fc (tl_blkAddr t) (tl_blkSize t) (canMergeWrites t) (writesBitmap t).
Definition set_writes (m : bool) (w : list bool) (t : TargetList) : TargetList :=
  mkTargets (items t) (needsWritable t) (hasUpgrade t) (allocOnFill t) (hasFromCache t) (tl_blkAddr t) (tl_blkSize t) m w.

Definition resetFlags (t : TargetList) : TargetList :=
  set_flags false false false false (set_writes true (replicate (length (writesBitmap t)) false) t).
Definition init (blk_addr blk_size : Z) (t : TargetList) : TargetList :=
  resetFlags (mkTargets (items t) (needsWritable t) (hasUpgrade t) (allocOnFill t) (hasFromCache t) blk_addr blk_size
    (canMergeWrites t) (replicate (Z.to_nat blk_size) false)).
(** [canMergeWrites] and the block are set by [init]. *)
Definition TargetList_new : TargetList := mkTargets [] false false false false 0 0 false [].
Definition isReset (t : TargetList) : bool :=
  negb (needsWritable t) && negb (hasUpgrade t) && negb (allocOnFill t) && negb (hasFromCache t) && canMergeWrites t.
Definition isWholeLineWrite (t : TargetList) : bool := forallb id (writesBitmap t).

Definition STRICT_ORDER : Z := 0x800.
Definition PRIVILEGED : Z := 0x8000.
Definition no_merge_flags : Z :=
  Z.lor (Z.lor (Z.lor (Z.lor (Z.lor (Z.lor SF.UNCACHEABLE STRICT_ORDER) PRIVILEGED) LLSC) MEM_SWAP) MEM_SWAP_COND) SECURE.

(** Filling the bitmap past its end is undefined. *)
Definition updateWriteFlags (p : Packet) (t : TargetList) : res TargetList :=
  if isWholeLineWrite t then Ok t
  else if canMergeWrites t then
    if negb (isWrite (cmd p)) then Ok (set_writes false (writesBitmap t) t)
    else
      let compat_write := negb (isSet (req_flags (req p)) no_merge_flags) in
      let first_write := match items t with [] => true | _ => false end in
      let offset := getOffset p (tl_blkSize t) in
      w ← (if first_write || compat_write then
             if offset + size p <=? Z.of_nat (length (writesBitmap t))
             then Ok (splice (writesBitmap t) (Z.to_nat offset) (replicate (Z.to_nat (size p)) true))
             else Err Undef
           else Ok (writesBitmap t));
      Ok (set_writes compat_write w t)
  else Ok t.

Definition updateFlags (p : Packet) (src : Source) (alloc_on_fill : bool) (t : TargetList) : res TargetList :=
  if bool_decide (src = FromSnoop) then Ok t
  else
    let t := set_flags (needsWritable t || MemCmd.needsWritable (cmd p))
               (hasUpgrade t || isUpgrade (cmd p) || bool_decide (cmd p = StoreCondReq))
               (allocOnFill t || alloc_on_fill) (hasFromCache t) t in
    if bool_decide (src = FromPrefetcher) then Ok t
    else
      updateWriteFlags p
        (set_flags (needsWritable t) (hasUpgrade t) (allocOnFill t) (hasFromCache t || fromCache (cmd p)) t).

Fixpoint populate_loop (l : list Target) (t : TargetList) : res TargetList :=
  match l with
  | [] => Ok t
  | x :: l => t ← updateFlags (t_pkt x) (source x) (t_allocOnFill x) t; populate_loop l t
  end.
Definition populateFlags (t : TargetList) : res TargetList := populate_loop (items t) (resetFlags t).

Definition add (p : Packet) (up : option nat) (ready order : Z) (src : Source) (markPending alloc_on_fill : bool)
    (t : TargetList) : res (TargetList * list call) :=
  t ← updateFlags p src alloc_on_fill t;
  let marked := markPending && match up with Some _ => true | None => false end in
  let calls := match up with Some m => if markPending then [MarkPending m] else [] | None => [] end in
  Ok (set_items (items t ++ [mkTarget p ready order src marked alloc_on_fill up]) t, calls).

Definition hasRespData (p : Packet) : bool := hasData (responseCommand (cmd p)).
Definition replaced (c : Command) : Command :=
  match c with
  | UpgradeReq => ReadExReq
  | SCUpgradeReq => SCUpgradeFailReq
  | StoreCondReq => StoreCondFailReq
  | c => c
  end.
Definition replaceUpgrade (p : Packet) : res Packet :=
  let has_data := hasData (cmd p) || hasRespData p in
  let p := set_cmd (replaced (cmd p)) p in
  if has_data then Ok p
  else
    assertb (negb (hasData (cmd p)));;
    if hasRespData p then allocate [] p else Ok p.
Fixpoint replace_loop (l : list Target) : res (list Target) :=
  match l with
  | [] => Ok []
  | x :: l => p ← replaceUpgrade (t_pkt x); l ← replace_loop l; Ok (with_packet p x :: l)
  end.
Definition replaceUpgrades (t : TargetList) : res TargetList :=
  if negb (hasUpgrade t) then Ok t
  else
    l ← replace_loop (items t);
    Ok (set_flags (needsWritable t) false (allocOnFill t) (hasFromCache t) (set_items l t)).

(** [clearDownstreamPending] on a range of targets. *)
Definition clear_calls (l : list Target) : list call :=
  l ≫= λ x, if markedPending x then match upstream x with Some m => [ClearPending m] | None => [] end else [].
Definition clear_items (l : list Target) : list Target := unmarked <$> l.

(** ** The register *)
Record MSHR := mkMSHR {
  readyTime : Z;
  isUncacheable : bool;
  inService : bool;
  order : Z;
  blkAddr : Z;
  blkSize : Z;
  isSecure : bool;
  downstreamPending : bool;
  pendingModified : bool;
  postInvalidate : bool;
  postDowngrade : bool;
  wasWholeLineWrite : bool;
  isForward : bool;
  targets : TargetList;
  deferredTargets : TargetList }.

Definition MSHR_new : MSHR :=
  mkMSHR 0 false false 0 0 0 false false false false false false false TargetList_new TargetList_new.

Definition set_lists (t d : TargetList) (m : MSHR) : MSHR :=
  mkMSHR (readyTime m) (isUncacheable m) (inService m) (order m) (blkAddr m) (blkSize m) (isSecure m)
    (downstreamPending m) (pendingModified m) (postInvalidate m) (postDowngrade m) (wasWholeLineWrite m) (isForward m) t d.
Definition set_service (s : bool) (m : MSHR) : MSHR :=
  mkMSHR (readyTime m) (isUncacheable m) s (order m) (blkAddr m) (blkSize m) (isSecure m)
    (downstreamPending m) (pendingModified m) (postInvalidate m) (postDowngrade m) (wasWholeLineWrite m) (isForward m)
    (targets m) (deferredTargets m).
Definition set_pending (b : bool) (m : MSHR) : MSHR :=
  mkMSHR (readyTime m) (isUncacheable m) (inService m) (order m) (blkAddr m) (blkSize m) (isSecure m)
    b (pendingModified m) (postInvalidate m) (postDowngrade m) (wasWholeLineWrite m) (isForward m)
    (targets m) (deferredTargets m).
Definition set_post (i d : bool) (m : MSHR) : MSHR :=
  mkMSHR (readyTime m) (isUncacheable m) (inService m) (order m) (blkAddr m) (blkSize m) (isSecure m)
    (downstreamPending m) (pendingModified m) i d (wasWholeLineWrite m) (isForward m) (targets m) (deferredTargets m).
Definition set_order (o rt : Z) (m : MSHR) : MSHR :=
  mkMSHR rt (isUncacheable m) (inService m) o (blkAddr m) (blkSize m) (isSecure m)
    (downstreamPending m) (pendingModified m) (postInvalidate m) (postDowngrade m) (wasWholeLineWrite m) (isForward m)
    (targets m) (deferredTargets m).

Definition getNumTargets (m : MSHR) : nat := (length (items (targets m)) + length (items (deferredTargets m)))%nat.
Definition hasTargets (m : MSHR) : bool := match items (targets m) with [] => false | _ => true end.
Definition front (t : TargetList) : res Target := match items t with x :: _ => Ok x | [] => Err Undef end.
Definition isPendingModified (m : MSHR) : res bool := assertb (inService m);; Ok (pendingModified m).
Definition hasPostInvalidate (m : MSHR) : res bool := assertb (inService m);; Ok (postInvalidate m).
Definition hasPostDowngrade (m : MSHR) : res bool := assertb (inService m);; Ok (postDowngrade m).
Definition matchBlockAddr (a : Z) (is_secure : bool) (m : MSHR) : res bool :=
  assertb (hasTargets m);; Ok ((blkAddr m =? a) && Bool.eqb (isSecure m) is_secure).
Definition matchBlockAddr_pkt (p : Packet) (m : MSHR) : res bool :=
  assertb (hasTargets m);; Ok (Pkt.matchBlockAddr p (blkAddr m) (isSecure m) (blkSize m)).

Definition MSHR_allocate (blk_addr blk_size : Z) (target : Packet) (up : option nat) (when_ready order : Z)
    (alloc_on_fill : bool) (m : MSHR) : res (MSHR * list call) :=
  let src := if bool_decide (cmd target = HardPFReq) then FromPrefetcher else FromCPU in
  let d := init blk_addr blk_size (deferredTargets m) in
  '(t, calls) ← add target up when_ready order src true alloc_on_fill (init blk_addr blk_size (targets m));
  x ← front t;
  assertb (PQ.matchBlockAddr_pkt target (t_pkt x) blk_size);;
  Ok (mkMSHR when_ready (SF.req_isUncacheable (req target)) false order blk_addr blk_size (secure target)
        false (pendingModified m) (postInvalidate m) (postDowngrade m) false false t d, calls).

(** What a register below does to this one. *)
Definition mark_downstream (m : MSHR) : res MSHR :=
  assertb (negb (downstreamPending m));; Ok (set_pending true m).
Definition clearDownstreamPending (m : MSHR) : res (MSHR * list call) :=
  assertb (downstreamPending m);;
  let t := targets m in
  Ok (set_lists (set_items (clear_items (items t)) t) (deferredTargets m) (set_pending false m), clear_calls (items t)).

Definition MSHR_markInService (pending_modified_resp : bool) (m : MSHR) : res (MSHR * list call) :=
  assertb (negb (inService m));;
  let t := targets m in
  let '(t', calls) := if downstreamPending m then (t, []) else (set_items (clear_items (items t)) t, clear_calls (items t)) in
  Ok (mkMSHR (readyTime m) (isUncacheable m) true (order m) (blkAddr m) (blkSize m) (isSecure m)
        (downstreamPending m) (needsWritable t || pending_modified_resp) false false
        (isWholeLineWrite t) (isForward m) t' (deferredTargets m), calls).

Definition MSHR_deallocate (m : MSHR) : res MSHR :=
  assertb (match items (targets m) with [] => true | _ => false end);;
  assertb (isReset (deferredTargets m));;
  Ok (set_service false (set_lists (resetFlags (targets m)) (deferredTargets m) m)).

(** Whether a new target is deferred; the conditions are evaluated left to
    right. *)
Definition must_defer (p : Packet) (m : MSHR) : res bool :=
  x ← front (targets m);
  if SF.req_isCacheMaintenance (req p) || SF.req_isCacheMaintenance (req (t_pkt x)) ||
     match items (deferredTargets m) with [] => false | _ => true end then Ok true
  else if inService m then
    inv ← hasPostInvalidate m;
    if inv : bool then Ok true
    else if MemCmd.needsWritable (cmd p) then
      pm ← isPendingModified m;
      if negb pm then Ok true else dg ← hasPostDowngrade m; Ok (dg || isForward m)
    else Ok false
  else Ok false.

Definition allocateTarget (p : Packet) (up : option nat) (whenReady order : Z) (alloc_on_fill : bool) (m : MSHR)
    : res (MSHR * list call) :=
  assertb (negb (bool_decide (cmd p = HardPFReq)));;
  defer ← must_defer p m;
  if defer : bool then
    p ← (if inService m then inv ← hasPostInvalidate m; if inv : bool then replaceUpgrade p else Ok p else Ok p);
    '(d, calls) ← add p up whenReady order FromCPU true alloc_on_fill (deferredTargets m);
    Ok (set_lists (targets m) d m, calls)
  else
    '(t, calls) ← add p up whenReady order FromCPU (negb (inService m)) alloc_on_fill (targets m);
    Ok (set_lists t (deferredTargets m) m, calls).

Definition RESPONDER_HAD_WRITABLE : Z := 0x4.
Definition setResponderHadWritable (p : Packet) : res Packet :=
  assertb (cacheResponding p);;
  assertb (negb (isSet (flags p) RESPONDER_HAD_WRITABLE));;
  Ok (Pkt.set_flags (Z.lor (flags p) RESPONDER_HAD_WRITABLE) p).
(** The copy with cleared flags and data of its own. *)
Definition Packet_copy (p : Packet) : res Packet :=
  allocate [] (mkPacket (cmd p) (req p) None (addr p) (secure p) (size p) (bytesValid p) 0).

(** What a snoop leaves on the packet. *)
Definition mark_snoop (will_respond : bool) (p : Packet) (m : MSHR) : res Packet :=
  if will_respond then p ← setCacheResponding p; setResponderHadWritable p
  else
    pm ← isPendingModified m;
    if pm && isClean (cmd p) then NC.setSatisfied p else Ok p.

(** The result, the register, and the snooped packet with what the snoop
    leaves on it. *)
Definition save_snoop (now : Z) (p : Packet) (up : option nat) (order : Z) (will_respond : bool) (m : MSHR)
    : res (MSHR * Packet * list call) :=
  cp ← (if will_respond then Packet_copy p else Ok (NC.Packet_blk (req p) (cmd p) (blkSize m)));
  p' ← mark_snoop will_respond p m;
  '(t, calls) ← add cp (if will_respond then up else None) now order FromSnoop
                 (downstreamPending m && needsWritable (targets m)) false (targets m);
  let m := set_lists t (deferredTargets m) m in
  Ok (if MemCmd.needsWritable (cmd p') || isInvalidate (cmd p') then set_post true (postDowngrade m) m else m, p', calls).

Definition handleSnoop (now : Z) (p : Packet) (up : option nat) (order : Z) (m : MSHR)
    : res (bool * MSHR * Packet * list call) :=
  panic_if (negb (Bool.eqb (MemCmd.needsWritable (cmd p)) (isInvalidate (cmd p))) &&
            negb (SF.req_isCacheMaintenance (req p)));;
  let invalidating := MemCmd.needsWritable (cmd p) || req_isCacheInvalidate (req p) in
  if negb (inService m) || (PQ.isExpressSnoop p && downstreamPending m) then
    m ← (if invalidating then
           t ← replaceUpgrades (targets m); d ← replaceUpgrades (deferredTargets m); Ok (set_lists t d m)
         else Ok m);
    Ok (false, m, p, [])
  else
    m ← (if invalidating then d ← replaceUpgrades (deferredTargets m); Ok (set_lists (targets m) d m) else Ok m);
    x ← front (targets m);
    inv ← hasPostInvalidate m;
    if inv || req_isCacheInvalidate (req (t_pkt x)) then Ok (true, m, p, [])
    else
      pm ← isPendingModified m;
      let will_respond := pm && needsResponse (cmd p) && negb (isClean (cmd p)) in
      '(m, p, calls) ← (if pm || isInvalidate (cmd p) then save_snoop now p up order will_respond m else Ok (m, p, []));
      if negb (MemCmd.needsWritable (cmd p)) && negb (SF.req_isUncacheable (req p))
      then Ok (will_respond, set_post (postInvalidate m) true m, NC.setHasSharers p, calls)
      else Ok (will_respond, m, p, calls).

(** The targets a response serves: all of them, or after an invalidation the
    first and the snoops. *)
Fixpoint split_snoops (l : list Target) : res (list Target * list Target) :=
  match l with
  | [] => Ok ([], [])
  | x :: l =>
      '(ready, keep) ← split_snoops l;
      if bool_decide (source x = FromCPU) then Ok (ready, x :: keep)
      else assertb (bool_decide (source x = FromSnoop));; Ok (x :: ready, keep)
  end.
Definition extractServiceableTargets (p : Packet) (m : MSHR) : res (TargetList * MSHR) :=
  let fresh := init (blkAddr m) (blkSize m) TargetList_new in
  '(ready, t) ←
    (if bool_decide (cmd p = ReadRespWithInvalidate) then
       match items (targets m) with
       | [] => Err Undef
       | x :: l =>
           assertb (bool_decide (source x = FromCPU) || bool_decide (source x = FromPrefetcher));;
           '(r, k) ← split_snoops l;
           ready ← populateFlags (set_items (x :: r) fresh);
           Ok (ready, set_items k (targets m))
       end
     else Ok (targets m, fresh));
  t ← populateFlags t;
  Ok (ready, set_lists t (deferredTargets m) m).

Definition maintenance (x : Target) : bool := SF.req_isCacheMaintenance (req (t_pkt x)).
(** The longest prefix without, and the rest. *)
Fixpoint span {A} (f : A → bool) (l : list A) : list A * list A :=
  match l with
  | [] => ([], [])
  | x :: l' => if f x then ([], l) else let '(a, b) := span f l' in (x :: a, b)
  end.
(** What is promoted, and what stays deferred. *)
Definition promoted (t d : list Target) : list Target * list Target :=
  match span maintenance d with
  | ([], x :: rest) => match t with [] => ([x], rest) | _ => ([], d) end
  | (l, rest) => (l, rest)
  end.
Definition empty (t : TargetList) : bool := match items t with [] => true | _ => false end.
Definition promoteDeferredTargets (now : Z) (m : MSHR) : res (bool * MSHR) :=
  let t := targets m in
  let d := deferredTargets m in
  if empty t && empty d then Ok (false, m)
  else
    let '(p, rest) := promoted (items t) (items d) in
    d ← populateFlags (set_items rest d);
    t ← populateFlags (set_items (items t ++ p) t);
    x ← front t;
    Ok (true, set_order (t_order x) (Z.max now (t_readyTime x)) (set_lists t d m)).

(** The prefix that satisfies a predicate with an assertion in it. *)
Fixpoint span_while (f : Target → res bool) (l : list Target) : res (list Target * list Target) :=
  match l with
  | [] => Ok ([], [])
  | x :: l' =>
      ok ← f x;
      if ok : bool then '(a, b) ← span_while f l'; Ok (x :: a, b) else Ok ([], l)
  end.
Definition promoteIf (pred : Target → res bool) (m : MSHR) : res (MSHR * list call) :=
  assertb (negb (downstreamPending m));;
  '(moved, rest) ← span_while pred (items (deferredTargets m));
  d ← populateFlags (set_items rest (deferredTargets m));
  Ok (set_lists (set_items (items (targets m) ++ clear_items moved) (targets m)) d m, clear_calls moved).
Definition promoteReadable (m : MSHR) : res (MSHR * list call) :=
  match items (deferredTargets m) with
  | [] => Ok (m, [])
  | _ =>
      inv ← hasPostInvalidate m;
      if inv : bool then Ok (m, [])
      else promoteIf (λ x, assertb (bool_decide (source x = FromCPU));;
                       Ok (negb (req_isCacheInvalidate (req (t_pkt x))) && negb (MemCmd.needsWritable (cmd (t_pkt x))))) m
  end.
Definition promoteWritable (m : MSHR) : res (MSHR * list call) :=
  x ← front (deferredTargets m);
  if needsWritable (deferredTargets m) then
    inv ← hasPostInvalidate m;
    post ← (if inv : bool then Ok true else hasPostDowngrade m);
    if negb post && negb (req_isCacheInvalidate (req (t_pkt x))) then
      assertb (negb (needsWritable (targets m)));;
      let t := targets m in
      promoteIf (λ x, assertb (bool_decide (source x = FromCPU));; Ok (negb (req_isCacheInvalidate (req (t_pkt x)))))
        (set_lists (set_flags true (hasUpgrade t) (allocOnFill t) (hasFromCache t) t) (deferredTargets m) m)
    else Ok (m, [])
  else Ok (m, []).

Definition popTarget (m : MSHR) : res MSHR :=
  match items (targets m) with
  | [] => Err Undef
  | _ :: l => Ok (set_lists (set_items l (targets m)) (deferredTargets m) m)
  end.
Definition MSHR_delay (now delay_ticks : Z) (m : MSHR) : res MSHR :=
  assertb (readyTime m <=? now);; Ok (set_order (order m) (now + delay_ticks) m).

(** Functional accesses look at every target. *)
Fixpoint satisfy_targets (p : Packet) (l : list Target) : res (bool * Packet * list Target) :=
  match l with
  | [] => Ok (false, p, [])
  | x :: l =>
      '(found, p, o) ← trySatisfyFunctional_pkt p (t_pkt x);
      let x := with_packet o x in
      if found : bool then Ok (true, p, x :: l)
      else '(found, p, l) ← satisfy_targets p l; Ok (found, p, x :: l)
  end.
Definition MSHR_trySatisfyFunctional (p : Packet) (m : MSHR) : res (bool * Packet * MSHR) :=
  if isPrint (cmd p) then Ok (false, p, m)
  else
    '(found, p, l) ← satisfy_targets p (items (targets m));
    let m := set_lists (set_items l (targets m)) (deferredTargets m) m in
    if found : bool then Ok (true, p, m)
    else
      '(found, p, l) ← satisfy_targets p (items (deferredTargets m));
      Ok (found, p, set_lists (targets m) (set_items l (deferredTargets m)) m).

(** ** The life of a register

    What happens to a register in use: targets arrive, its request is sent,
    the registers below mark and clear it, snoops pass, and the response is
    served in the order of [BaseCache::recvTimingResp]: deferred targets are
    promoted, targets are taken out, and the rest are promoted and asked for
    again, or the register is freed. *)
Inductive event :=
  | Arrive (p : Packet) (up : option nat) (whenReady order : Z) (alloc_on_fill : bool)
  | Issue (pending_modified_resp : bool)
  | Marked
  | Cleared
  | Snoop (now : Z) (p : Packet) (up : option nat) (order : Z)
  | Readable
  | Writable
  | Respond (now : Z) (p : Packet).

(** [MSHRQueue::markPending] on the register. *)
Definition markPending (m : MSHR) : res MSHR := assertb (inService m);; Ok (set_service false m).
Definition respond (now : Z) (p : Packet) (m : MSHR) : res (list Target * bool * MSHR) :=
  '(ready, m) ← extractServiceableTargets p m;
  '(again, m) ← promoteDeferredTargets now m;
  if again : bool then m ← markPending m; Ok (items ready, false, m)
  else m ← MSHR_deallocate m; Ok (items ready, true, m).

(** The targets served, whether the register was freed, and the register. *)
Definition step (e : event) (m : MSHR) : res (list Target * bool * MSHR) :=
  match e with
  | Arrive p up w o al => '(m, _) ← allocateTarget p up w o al m; Ok ([], false, m)
  | Issue pm => '(m, _) ← MSHR_markInService pm m; Ok ([], false, m)
  | Marked => m ← mark_downstream m; Ok ([], false, m)
  | Cleared => '(m, _) ← clearDownstreamPending m; Ok ([], false, m)
  | Snoop now p up o => '(_, m, _, _) ← handleSnoop now p up o m; Ok ([], false, m)
  | Readable => '(m, _) ← promoteReadable m; Ok ([], false, m)
  | Writable => '(m, _) ← promoteWritable m; Ok ([], false, m)
  | Respond now p => respond now p m
  end.
Fixpoint run (l : list event) (m : MSHR) : res (list Target * bool * MSHR) :=
  match l with
  | [] => Ok ([], false, m)
  | e :: l =>
      '(out, freed, m) ← step e m;
      if freed : bool then Ok (out, true, m)
      else '(out', freed, m) ← run l m; Ok (out ++ out', freed, m)
  end.

(** ** Invariant *)

(** A request, with data only where its command or its response has some. *)
Definition data_ok (p : Packet) : Prop :=
  isRequest (cmd p) = true ∧ (hasData (cmd p) || hasRespData p = false → data p = None).
(** A packet that may become a target of a register for blocks of [n] bytes. *)
Record fits (n : Z) (p : Packet) : Prop := {
  fi_size : 0 ≤ size p;
  fi_block : getOffset p n + size p ≤ n;
  fi_data : data_ok p }.

Definition real (x : Target) : bool := negb (bool_decide (source x = FromSnoop)).
Definition upgrades (c : Command) : bool := isUpgrade c || bool_decide (c = StoreCondReq).
Definition exists_in (f : Target → bool) (l : list Target) : bool := existsb (λ x, real x && f x) l.
Definition wants (x : Target) : bool := MemCmd.needsWritable (cmd (t_pkt x)).

(** The flags of a list say what its targets are. *)
Record faithful (t : TargetList) : Prop := {
  fa_writable : needsWritable t = exists_in wants (items t);
  fa_upgrade : hasUpgrade t = exists_in (λ x, upgrades (cmd (t_pkt x))) (items t);
  fa_alloc : allocOnFill t = exists_in t_allocOnFill (items t) }.
Definition settled (t : TargetList) : Prop := items t = [] → isReset t = true.

Definition target_ok (n : Z) (x : Target) : Prop := data_ok (t_pkt x) ∧ (real x = true → fits n (t_pkt x)).
Definition shape (n : Z) (t : TargetList) : Prop := tl_blkSize t = n ∧ Z.of_nat (length (writesBitmap t)) = n.
Definition list_ok (n : Z) (t : TargetList) : Prop := shape n t ∧ Forall (target_ok n) (items t).

(** The first target is a request of the cache's own, the others are requests
    or snoops, and no snoop is deferred. *)
Definition led (l : list Target) : Prop :=
  match l with
  | [] => False
  | x :: l => real x = true ∧ Forall (λ x, source x ≠ FromPrefetcher) l
  end.
Record wf (n : Z) (m : MSHR) : Prop := {
  wf_size : blkSize m = n;
  wf_targets : list_ok n (targets m);
  wf_deferred : list_ok n (deferredTargets m);
  wf_led : led (items (targets m));
  wf_cpu : Forall (λ x, source x = FromCPU) (items (deferredTargets m));
  wf_flags : faithful (deferredTargets m);
  wf_settled : settled (deferredTargets m);
  wf_pending : inService m = false → faithful (targets m) }.

(** What may happen to a register. *)
Definition can (n : Z) (e : event) (m : MSHR) : Prop :=
  match e with
  | Arrive p _ _ _ _ => fits n p ∧ cmd p ≠ HardPFReq
  | Issue _ => inService m = false
  | Marked => downstreamPending m = false
  | Cleared => downstreamPending m = true
  | Snoop _ p _ _ =>
      isRequest (cmd p) = true ∧ cacheResponding p = false ∧ isSet (flags p) RESPONDER_HAD_WRITABLE = false ∧
      isSet (flags p) NC.SATISFIED = false ∧
      (MemCmd.needsWritable (cmd p) = isInvalidate (cmd p) ∨ SF.req_isCacheMaintenance (req p) = true)
  | Readable | Writable => inService m = true ∧ downstreamPending m = false
  | Respond _ _ => inService m = true
  end.
Fixpoint admissible (n : Z) (l : list event) (m : MSHR) : Prop :=
  match l with
  | [] => True
  | e :: l =>
      can n e m ∧
      match step e m with
      | Ok (_, true, _) => l = []
      | Ok (_, false, m) => admissible n l m
      | Err _ => True
      end
  end.

(** The two ways in which [promoteWritable] fails, neither of which its caller
    excludes: no target is deferred, or a target that waits for the response
    and a deferred one both need the block writable. *)
Definition blocked (m : MSHR) : Prop :=
  (items (deferredTargets m) = [] ∧ promoteWritable m = Err Undef) ∨
  (needsWritable (targets m) = true ∧ needsWritable (deferredTargets m) = true ∧ promoteWritable m = Err AssertFail).

(** The requests in a list of targets, by their order of arrival, and those
    that wait. *)
Definition orders (l : list Target) : list Z := t_order <$> filter (λ x, real x = true) l.
Definition waiting (m : MSHR) : list Z := orders (items (targets m)) ++ orders (items (deferredTargets m)).
Definition arrivals (l : list event) : list Z := l ≫= λ e, match e with Arrive _ _ _ o _ => [o] | _ => [] end.

Fixpoint responses (l : list event) : nat :=
  match l with
  | [] => 0
  | Respond _ _ :: l => S (responses l)
  | _ :: l => responses l
  end.

(** ** Flags *)
Lemma update_writes_ok n p t : shape n t → fits n p → 0 < n →
  ∃ m w, updateWriteFlags p t = Ok (set_writes m w t) ∧ length w = length (writesBitmap t).
Proof.
  intros [Hs Hl] Hp Hn. pose proof (fi_block _ _ Hp) as Hb. pose proof (fi_size _ _ Hp) as Hsz.
  unfold updateWriteFlags.
  assert (Hsame : Ok t = Ok (set_writes (canMergeWrites t) (writesBitmap t) t)) by (by destruct t).
  destruct (isWholeLineWrite t); [by eexists _, _|]. destruct (canMergeWrites t) eqn:Hm; [|by eexists _, _].
  destruct (isWrite (cmd p)); cbn [negb]; [|by eexists _, _]. rewrite Hs.
  destruct (_ || _); [|by eexists _, _]. rewrite (proj2 (Z.leb_le _ _)) by lia. cbn [mbind res_bind].
  eexists _, _. split; [done|]. unfold splice.
  assert (0 ≤ getOffset p n) by (unfold getOffset; apply Z.land_nonneg; right; lia).
  rewrite !length_app, length_take, length_replicate, length_drop. lia.
Qed.

Lemma update_flags_ok n p src al t : shape n t → (src ≠ FromSnoop → fits n p) → 0 < n →
  ∃ t', updateFlags p src al t = Ok t' ∧ shape n t' ∧ items t' = items t ∧
    let r := negb (bool_decide (src = FromSnoop)) in
    needsWritable t' = needsWritable t || (r && MemCmd.needsWritable (cmd p)) ∧
    hasUpgrade t' = hasUpgrade t || (r && upgrades (cmd p)) ∧
    allocOnFill t' = allocOnFill t || (r && al).
Proof.
  intros Hs Hp Hn. unfold updateFlags, upgrades. destruct src; cbn [bool_decide decide Source_eq_dec negb andb].
  - set (t1 := set_flags _ _ _ _ t). destruct (update_writes_ok n p (set_flags (needsWritable t1) (hasUpgrade t1)
      (allocOnFill t1) (hasFromCache t1 || fromCache (cmd p)) t1)) as (m & w & -> & Hl); [done|by apply Hp|done|].
    eexists. split; [done|]. destruct Hs as [Hs1 Hs2]. split; [split; [done|]|]; cbn in *; [lia|].
    rewrite bool_decide_false by done. cbn [negb andb]. rewrite orb_assoc. by split_and!.
  - exists t. rewrite bool_decide_true by done. cbn [negb andb]. rewrite !orb_false_r. by split_and!.
  - eexists. split; [done|]. split; [done|]. cbn.
    rewrite bool_decide_false by done. cbn [negb andb]. rewrite orb_assoc. by split_and!.
Qed.

Lemma populate_loop_ok n l t : shape n t → Forall (target_ok n) l → 0 < n →
  ∃ t', populate_loop l t = Ok t' ∧ shape n t' ∧ items t' = items t ∧
    needsWritable t' = needsWritable t || exists_in wants l ∧
    hasUpgrade t' = hasUpgrade t || exists_in (λ x, upgrades (cmd (t_pkt x))) l ∧
    allocOnFill t' = allocOnFill t || exists_in t_allocOnFill l ∧ (l = [] → t' = t).
Proof.
  intros Hs Hl Hn. revert t Hs. induction Hl as [|x l [_ Hx] _ IH]; intros t Hs; cbn [populate_loop].
  { exists t. cbn. rewrite !orb_false_r. by split_and!. }
  destruct (update_flags_ok n (t_pkt x) (source x) (t_allocOnFill x) t Hs) as (t1 & -> & Hs1 & Hi1 & Hw & Hu & Ha); [|done|].
  { intros Hne. apply Hx. unfold real. by rewrite bool_decide_false. }
  cbn [mbind res_bind]. destruct (IH t1 Hs1) as (t2 & -> & Hs2 & Hi2 & Hw2 & Hu2 & Ha2 & _).
  exists t2. split; [done|]. split; [done|]. split; [congruence|].
  rewrite Hw2, Hu2, Ha2, Hw, Hu, Ha. unfold exists_in, wants, real. cbn [existsb]. rewrite !orb_assoc. by split_and!.
Qed.

Lemma populate_ok n t : list_ok n t → 0 < n →
  ∃ t', populateFlags t = Ok t' ∧ list_ok n t' ∧ items t' = items t ∧ faithful t' ∧ settled t'.
Proof.
  intros [[Hs Hb] Hl] Hn. unfold populateFlags. destruct (populate_loop_ok n (items t) (resetFlags t)) as
    (t' & -> & Hs' & Hi & Hw & Hu & Ha & He); [|done|done|].
  { split; [done|]. cbn. by rewrite length_replicate. }
  exists t'. split; [done|]. cbn in Hi. split; [split; [done|by rewrite Hi]|]. split; [done|].
  split; [split; by rewrite Hi|]. intros Hn'. rewrite He by congruence. done.
Qed.

Lemma add_ok n p up rt o src mk al t : list_ok n t → data_ok p → (src ≠ FromSnoop → fits n p) → 0 < n →
  ∃ t' calls x, add p up rt o src mk al t = Ok (t', calls) ∧ list_ok n t' ∧ items t' = items t ++ [x] ∧
    source x = src ∧ t_order x = o ∧ t_pkt x = p ∧ (faithful t → faithful t').
Proof.
  intros [Hs Hl] Hd Hp Hn. unfold add.
  destruct (update_flags_ok n p src al t Hs) as (t1 & -> & Hs1 & Hi & Hw & Hu & Ha); [done|done|].
  cbn [mbind res_bind]. eexists _, _, _. split; [done|].
  split; [|split; [cbn; by rewrite Hi|split; [done|split; [done|split; [done|]]]]].
  - split; [done|]. cbn. rewrite Hi. apply Forall_app. split; [done|]. constructor; [|constructor]. split; [done|].
    unfold real. cbn. intros Hr. apply Hp. intros ->. done.
  - intros [Aw Au Aa]. cbn in Hw, Hu, Ha.
    split; cbn [items set_items needsWritable hasUpgrade allocOnFill]; unfold exists_in, wants in *;
      rewrite ?Hi, ?existsb_app; cbn [existsb]; rewrite ?orb_false_r; unfold real; cbn [source t_pkt t_allocOnFill];
      [by rewrite Hw, Aw|by rewrite Hu, Au|by rewrite Ha, Aa].
Qed.

(** ** Targets rewritten in place *)
Definition same (x y : Target) : Prop := source y = source x ∧ t_order y = t_order x ∧ t_allocOnFill y = t_allocOnFill x.

Lemma orders_app l l' : orders (l ++ l') = orders l ++ orders l'.
Proof. unfold orders. by rewrite filter_app, fmap_app. Qed.
Lemma same_real x y : same x y → real y = real x.
Proof. unfold real. by intros [-> _]. Qed.
Lemma same_orders l l' : Forall2 same l l' → orders l' = orders l.
Proof.
  induction 1 as [|x y l l' Hxy _ IH]; [done|]. unfold orders in *. rewrite !filter_cons, (same_real x y Hxy).
  destruct Hxy as (_ & Ho & _). destruct (decide _); csimpl; congruence.
Qed.
Lemma same_led l l' : Forall2 same l l' → led l → led l'.
Proof.
  intros [|x y k k' Hxy Hk]; [done|]. cbn. intros [Hx Hl]. split; [by rewrite (same_real x y)|].
  induction Hk as [|a b k k' Hab _ IH]; [constructor|]. inversion Hl; subst. constructor; [|by apply IH].
  destruct Hab as [-> _]. done.
Qed.
Lemma same_cpu l l' : Forall2 same l l' → Forall (λ x, source x = FromCPU) l → Forall (λ x, source x = FromCPU) l'.
Proof. induction 1 as [|x y l l' [Hxy _] _ IH]; intros Hl; inversion Hl; subst; constructor; [congruence|by apply IH]. Qed.
Lemma same_alloc l l' : Forall2 same l l' → exists_in t_allocOnFill l' = exists_in t_allocOnFill l.
Proof.
  unfold exists_in. induction 1 as [|x y l l' Hxy _ IH]; [done|]. cbn. rewrite (same_real x y Hxy), IH.
  by destruct Hxy as (_ & _ & ->).
Qed.
Lemma led_app l l' : led l → Forall (λ x, source x ≠ FromPrefetcher) l' → led (l ++ l').
Proof. destruct l; [done|]. intros [? ?] ?. split; [done|]. by apply Forall_app. Qed.
Lemma cpu_plain l : Forall (λ x, source x = FromCPU) l → Forall (λ x, source x ≠ FromPrefetcher) l.
Proof. intros H. apply (Forall_impl _ _ _ H). by intros x ->. Qed.
Lemma cpu_led l : Forall (λ x, source x = FromCPU) l → l ≠ [] → led l.
Proof. intros [|x k Hx Hk]; [done|]. intros _. split; [unfold real; by rewrite Hx|by apply cpu_plain]. Qed.

Lemma same_refl l : Forall2 same l l.
Proof. induction l; constructor; done. Qed.
Lemma clear_same l : Forall2 same l (clear_items l).
Proof. induction l; constructor; done. Qed.
Lemma clear_ok n l : Forall (target_ok n) l → Forall (target_ok n) (clear_items l).
Proof. induction 1; constructor; done. Qed.
Lemma clear_exists f l : (∀ x, f (unmarked x) = f x) → exists_in f (clear_items l) = exists_in f l.
Proof. intros Hf. unfold exists_in, clear_items. induction l as [|x l IH]; [done|]. csimpl. by rewrite IH, Hf. Qed.
Lemma clear_faithful t : faithful t → faithful (set_items (clear_items (items t)) t).
Proof. intros [Hw Hu Ha]. split; cbn; [rewrite Hw|rewrite Hu|rewrite Ha]; symmetry; by apply clear_exists. Qed.

Lemma replaced_facts c : isRequest c = true →
  isRequest (replaced c) = true ∧
  MemCmd.needsWritable (replaced c) = MemCmd.needsWritable c ∧ upgrades (replaced c) = false ∧
  (hasData c || hasData (responseCommand c) = false → hasData (replaced c) = false) ∧
  (hasData c || hasData (responseCommand c) = true →
   hasData (replaced c) || hasData (responseCommand (replaced c)) = true).
Proof. destruct c; vm_compute; intros H; try discriminate H; auto 6. Qed.

Lemma replaceUpgrade_ok p : data_ok p →
  ∃ p', replaceUpgrade p = Ok p' ∧ data_ok p' ∧ cmd p' = replaced (cmd p) ∧ (∀ n, fits n p → fits n p').
Proof.
  intros [Hreq Hd]. destruct (replaced_facts (cmd p) Hreq) as (Hreq' & _ & _ & Hno & Hyes).
  unfold replaceUpgrade, hasRespData in *.
  assert (Hfits : ∀ q, size q = size p → addr q = addr p → data_ok q → ∀ n, fits n p → fits n q).
  { intros q Hs Ha Hq n [? Hb ?]. split; [lia| |done]. unfold getOffset in *. rewrite Ha. lia. }
  destruct (_ || _) eqn:Hdata.
  - eexists. split; [done|]. assert (data_ok (set_cmd (replaced (cmd p)) p)).
    { split; [done|]. intros Hx. unfold hasRespData in Hx. cbn in Hx. rewrite (Hyes eq_refl) in Hx. done. }
    split; [done|]. split; [done|]. by apply Hfits.
  - cbn. rewrite (Hno eq_refl). cbn. destruct (hasData (responseCommand (replaced (cmd p)))) eqn:Hr.
    + unfold allocate. cbn [cmd set_cmd]. rewrite Hr, orb_true_r. cbn. rewrite (Hd eq_refl). cbn.
      eexists. split; [done|]. assert (∀ v, data_ok (set_data v (set_cmd (replaced (cmd p)) p))).
      { intros v. split; [done|]. intros Hx. unfold hasRespData in Hx. cbn in Hx. rewrite Hr, orb_true_r in Hx. done. }
      split; [done|]. split; [done|]. by apply Hfits.
    + eexists. split; [done|].
      assert (data_ok (set_cmd (replaced (cmd p)) p)) by (split; [done|intros _; by apply Hd]).
      split; [done|]. split; [done|]. by apply Hfits.
Qed.

Lemma replace_loop_ok n l : Forall (target_ok n) l →
  ∃ l', replace_loop l = Ok l' ∧ Forall (target_ok n) l' ∧ Forall2 same l l' ∧
    exists_in wants l' = exists_in wants l ∧ exists_in (λ x, upgrades (cmd (t_pkt x))) l' = false.
Proof.
  induction 1 as [|x l [Hd Hf] _ IH]; [by exists []|]. cbn [replace_loop].
  destruct (replaceUpgrade_ok (t_pkt x) Hd) as (p & -> & Hp & Hc & Hfit). destruct IH as (l' & -> & Hl & Hs & Hw & Hu).
  destruct (replaced_facts (cmd (t_pkt x))) as (_ & Hw' & Hu' & _); [apply Hd|].
  cbn [mbind res_bind]. eexists. split; [done|]. split; [constructor; [split; [done|]|done]|].
  { intros Hr. apply Hfit, Hf. done. }
  split; [by constructor|]. unfold exists_in, wants in *. cbn [existsb]. rewrite Hw, Hu. cbn. rewrite Hc, Hw', Hu', andb_false_r. done.
Qed.

Lemma replaceUpgrades_ok n t : list_ok n t →
  ∃ t', replaceUpgrades t = Ok t' ∧ list_ok n t' ∧ Forall2 same (items t) (items t') ∧
    (faithful t → faithful t') ∧ (settled t → settled t').
Proof.
  intros [Hs Hl]. unfold replaceUpgrades. destruct (hasUpgrade t) eqn:Hup; cbn [negb].
  2: { exists t. split; [done|]. split; [done|]. split; [apply same_refl|done]. }
  destruct (replace_loop_ok n _ Hl) as (l & -> & Hl' & Hsame & Hw & Hu). cbn [mbind res_bind]. eexists. split; [done|].
  split; [done|]. split; [done|]. split.
  - intros [Aw Au Aa]. split; cbn [items set_items set_flags needsWritable hasUpgrade allocOnFill];
      [by rewrite Hw|by rewrite Hu|by rewrite (same_alloc _ _ Hsame)].
  - intros He Hn. cbn in Hn. rewrite Hn in Hsame. inversion Hsame as [Hnil|]. symmetry in Hnil. specialize (He Hnil).
    unfold isReset in He. rewrite Hup in He. destruct (needsWritable t); done.
Qed.

(** ** Every event *)

Lemma must_defer_ok n p m : wf n m → ∃ b, must_defer p m = Ok b ∧ (b = false → items (deferredTargets m) = []).
Proof.
  intros Hw. pose proof (wf_led _ _ Hw) as Hl. unfold must_defer, front. destruct (items (targets m)) as [|x l]; [done|].
  cbn [mbind res_bind]. destruct (items (deferredTargets m)); [|rewrite orb_true_r; by eexists].
  destruct (_ || _ || _); [by eexists|].
  unfold hasPostInvalidate, isPendingModified, hasPostDowngrade. destruct (inService m); [|by eexists]. cbn.
  destruct (postInvalidate m), (MemCmd.needsWritable (cmd p)), (pendingModified m); cbn; by eexists.
Qed.

Lemma orders_snoc l x : real x = true → orders (l ++ [x]) = orders l ++ [t_order x].
Proof. intros Hx. rewrite orders_app. unfold orders at 2. by rewrite filter_cons_True. Qed.
Lemma orders_snoop l x : source x = FromSnoop → orders (l ++ [x]) = orders l.
Proof.
  intros Hx. rewrite orders_app. unfold orders at 2, real. rewrite filter_cons_False by (by rewrite Hx).
  by rewrite app_nil_r.
Qed.

Lemma defer_ok n p up w o al m : 0 < n → wf n m → fits n p →
  ∃ d calls, add p up w o FromCPU true al (deferredTargets m) = Ok (d, calls) ∧
    wf n (set_lists (targets m) d m) ∧ waiting (set_lists (targets m) d m) = waiting m ++ [o].
Proof.
  intros Hn [Hs Ht Hd Hl Hcpu Hf Hset Hpen] Hp.
  destruct (add_ok n p up w o FromCPU true al (deferredTargets m)) as
    (d & calls & x & -> & Hd' & Hi & Hx & Ho & _ & Hf'); [done|apply Hp|done|done|].
  eexists _, _. split; [done|]. split.
  - split; cbn; try done; [|by apply Hf'|].
    + rewrite Hi. apply Forall_app. by split; [|constructor].
    + intros He. rewrite Hi in He. by destruct (items (deferredTargets m)).
  - unfold waiting. cbn. by rewrite Hi, orders_snoc, app_assoc, Ho by (unfold real; by rewrite Hx).
Qed.
Lemma append_ok n p up w o mk al m : 0 < n → wf n m → fits n p → items (deferredTargets m) = [] →
  ∃ t calls, add p up w o FromCPU mk al (targets m) = Ok (t, calls) ∧
    wf n (set_lists t (deferredTargets m) m) ∧ waiting (set_lists t (deferredTargets m) m) = waiting m ++ [o].
Proof.
  intros Hn [Hs Ht Hd Hl Hcpu Hf Hset Hpen] Hp He.
  destruct (add_ok n p up w o FromCPU mk al (targets m)) as
    (t & calls & x & -> & Ht' & Hi & Hx & Ho & _ & Hf'); [done|apply Hp|done|done|].
  eexists _, _. split; [done|]. split.
  - split; cbn; try done; [|by intros; apply Hf', Hpen].
    rewrite Hi. apply led_app; [done|]. constructor; [congruence|constructor].
  - unfold waiting. cbn. by rewrite He, Hi, orders_snoc, !app_nil_r, Ho by (unfold real; by rewrite Hx).
Qed.

Lemma arrive_ok n p up w o al m : 0 < n → wf n m → fits n p → cmd p ≠ HardPFReq →
  ∃ m' calls, allocateTarget p up w o al m = Ok (m', calls) ∧ wf n m' ∧ waiting m' = waiting m ++ [o].
Proof.
  intros Hn Hw Hp Hc. destruct (must_defer_ok n p m Hw) as (b & Hb & Hempty).
  unfold allocateTarget. rewrite bool_decide_false by done. cbn [negb assertb mbind res_bind]. rewrite Hb. cbn [mbind res_bind].
  destruct b.
  - assert (∃ q, (if inService m then inv ← hasPostInvalidate m; if inv : bool then replaceUpgrade p else Ok p else Ok p)
      = Ok q ∧ fits n q) as (q & -> & Hq).
    { unfold hasPostInvalidate. destruct (inService m); [|by exists p]. cbn. destruct (postInvalidate m); [|by exists p].
      destruct (replaceUpgrade_ok p) as (q & -> & _ & _ & Hq); [apply Hp|]. exists q. auto. }
    cbn [mbind res_bind]. destruct (defer_ok n q up w o al m) as (d & calls & -> & ? & ?); [done..|]. by eexists _, _.
  - destruct (append_ok n p up w o (negb (inService m)) al m) as (t & calls & -> & ? & ?); [auto..|]. by eexists _, _.
Qed.

(** Targets rewritten in place keep the register well-formed. *)
Lemma rewrite_ok n m m' : wf n m → blkSize m' = n → list_ok n (targets m') → list_ok n (deferredTargets m') →
  Forall2 same (items (targets m)) (items (targets m')) →
  Forall2 same (items (deferredTargets m)) (items (deferredTargets m')) →
  faithful (deferredTargets m') → settled (deferredTargets m') → (inService m' = false → faithful (targets m')) →
  wf n m' ∧ waiting m' = waiting m.
Proof.
  intros [Hs Ht Hd Hl Hcpu Hf Hset Hpen] ??? St Sd ???. split.
  - split; try done; [by apply (same_led _ _ St)|by apply (same_cpu _ _ Sd)].
  - unfold waiting. by rewrite (same_orders _ _ St), (same_orders _ _ Sd).
Qed.

Lemma mshr_issue_ok n pm m : wf n m → inService m = false →
  ∃ m' calls, MSHR_markInService pm m = Ok (m', calls) ∧ wf n m' ∧ waiting m' = waiting m.
Proof.
  intros Hw Hs. unfold MSHR_markInService. rewrite Hs. cbn [negb assertb mbind res_bind].
  destruct Hw as [? [Ht Ht'] ? ? ? ? ? ?] eqn:Hwf. clear Hwf.
  destruct (downstreamPending m); eexists _, _; (split; [done|]); apply (rewrite_ok n m); cbn; try done; try apply same_refl.
  - split; [done|]. by apply clear_ok.
  - apply clear_same.
Qed.

Lemma cleared_ok n m : wf n m → downstreamPending m = true →
  ∃ m' calls, clearDownstreamPending m = Ok (m', calls) ∧ wf n m' ∧ waiting m' = waiting m.
Proof.
  intros Hw Hs. unfold clearDownstreamPending. rewrite Hs. cbn [assertb mbind res_bind].
  destruct Hw as [? [Ht Ht'] ? ? ? ? ? Hp] eqn:Hwf. clear Hwf.
  eexists _, _; (split; [done|]); apply (rewrite_ok n m); cbn; try done; try apply same_refl.
  - split; [done|]. by apply clear_ok.
  - apply clear_same.
  - intros Hser. by apply clear_faithful, Hp.
Qed.

Lemma replace_deferred n m : wf n m →
  ∃ d, replaceUpgrades (deferredTargets m) = Ok d ∧ wf n (set_lists (targets m) d m) ∧
    waiting (set_lists (targets m) d m) = waiting m.
Proof.
  intros Hw. destruct (replaceUpgrades_ok n (deferredTargets m)) as (d & -> & ? & ? & ? & ?); [apply Hw|].
  exists d. split; [done|]. destruct Hw eqn:Hwf. apply (rewrite_ok n m); cbn; auto. apply same_refl.
Qed.
Lemma replace_targets n m : wf n m →
  ∃ t, replaceUpgrades (targets m) = Ok t ∧ wf n (set_lists t (deferredTargets m) m) ∧
    waiting (set_lists t (deferredTargets m) m) = waiting m.
Proof.
  intros Hw. destruct (replaceUpgrades_ok n (targets m)) as (t & -> & ? & ? & ? & ?); [apply Hw|].
  exists t. split; [done|]. destruct Hw eqn:Hwf. apply (rewrite_ok n m); cbn; auto. apply same_refl.
Qed.

(** A snoop that is queued as a target. *)
Lemma snoop_target n p up o mk t now m : 0 < n → wf n m → inService m = true → data_ok p → t = targets m →
  ∃ t' calls, add p up now o FromSnoop mk false t = Ok (t', calls) ∧
    wf n (set_lists t' (deferredTargets m) m) ∧ waiting (set_lists t' (deferredTargets m) m) = waiting m.
Proof.
  intros Hn [Hs Ht Hd Hl Hcpu Hf Hset Hpen] Hser Hp ->.
  destruct (add_ok n p up now o FromSnoop mk false (targets m)) as
    (t & calls & x & -> & Ht' & Hi & Hx & Ho & _ & Hf'); [done|done|done|done|].
  eexists _, _. split; [done|]. split.
  - split; cbn; try done; [|congruence]. rewrite Hi. apply led_app; [done|]. constructor; [congruence|constructor].
  - unfold waiting. cbn. by rewrite Hi, orders_snoop.
Qed.

Lemma post_ok n i d m : wf n m → wf n (set_post i d m) ∧ waiting (set_post i d m) = waiting m.
Proof. intros []. by split. Qed.
Lemma copy_ok p : isRequest (cmd p) = true → ∃ q, Packet_copy p = Ok q ∧ data_ok q.
Proof.
  intros Hr. unfold Packet_copy, allocate, data_ok, hasRespData. cbn [cmd data size].
  destruct (hasData (cmd p) || hasData (responseCommand (cmd p))) eqn:Hd; cbn; eexists; (split; [done|]); cbn; [|done].
  split; [done|]. by rewrite Hd.
Qed.
Lemma had_writable_ok p : isRequest (cmd p) = true → cacheResponding p = false →
  isSet (flags p) RESPONDER_HAD_WRITABLE = false →
  ∃ q, (q ← setCacheResponding p; setResponderHadWritable q) = Ok q ∧ cmd q = cmd p ∧ req q = req p.
Proof.
  intros Hr Hc Hh. unfold setCacheResponding. rewrite Hr, Hc. cbn [negb assertb mbind res_bind].
  unfold setResponderHadWritable, cacheResponding, isSet in *. cbn [flags Pkt.set_flags].
  rewrite !Z.land_lor_distr_l, Z.land_diag. apply negb_false_iff, Z.eqb_eq in Hh, Hc. rewrite Hh, Hc. cbn. by eexists.
Qed.

Lemma save_snoop_ok n now p up o wr m : 0 < n → wf n m → can n (Snoop now p up o) m → inService m = true →
  ∃ m' p' calls, save_snoop now p up o wr m = Ok (m', p', calls) ∧ wf n m' ∧ waiting m' = waiting m ∧
    cmd p' = cmd p ∧ req p' = req p.
Proof.
  intros Hn Hw (Hr & Hc & Hh & Hsat & _) Hs. unfold save_snoop.
  assert (∃ cp, (if wr then Packet_copy p else Ok (NC.Packet_blk (req p) (cmd p) (blkSize m))) = Ok cp ∧ data_ok cp)
    as (cp & -> & Hcp). { destruct wr; [by apply copy_ok|]. by eexists. }
  cbn [mbind res_bind].
  assert (∃ p', mark_snoop wr p m = Ok p' ∧ cmd p' = cmd p ∧ req p' = req p) as (p' & -> & Hcmd & Hreq).
  { unfold mark_snoop. destruct wr; [by apply had_writable_ok|]. unfold isPendingModified. rewrite Hs. cbn.
    destruct (pendingModified m && isClean (cmd p)) eqn:Hb; [|by exists p]. apply andb_prop in Hb as [_ Hb].
    unfold NC.setSatisfied. rewrite Hb, Hsat. cbn. by eexists. }
  cbn [mbind res_bind].
  destruct (snoop_target n cp (if wr then up else None) o (downstreamPending m && needsWritable (targets m)) (targets m) now m)
    as (t & calls & -> & Hw' & Hwait); [done..|]. cbn [mbind res_bind].
  eexists _, _, _. split; [done|]. destruct (_ || _); [|done].
  destruct (post_ok n true (postDowngrade (set_lists t (deferredTargets m) m)) _ Hw') as [? Hx]. split; [done|].
  by rewrite Hx.
Qed.

Lemma snoop_before_ok n b m : wf n m →
  ∃ m', (if b : bool then t ← replaceUpgrades (targets m); d ← replaceUpgrades (deferredTargets m); Ok (set_lists t d m)
         else Ok m) = Ok m' ∧ wf n m' ∧ waiting m' = waiting m.
Proof.
  intros Hw. destruct b; [|by exists m]. destruct (replace_targets n m Hw) as (t & -> & Hw' & He).
  destruct (replace_deferred n _ Hw') as (d & Hd & Hw2 & He2). cbn [deferredTargets set_lists] in Hd. cbn [mbind res_bind].
  rewrite Hd. cbn [mbind res_bind]. eexists. split; [done|]. split; [exact Hw2|]. rewrite <-He, <-He2. done.
Qed.

Lemma mshr_snoop_ok n now p up o m : 0 < n → wf n m → can n (Snoop now p up o) m →
  ∃ r m' p' calls, handleSnoop now p up o m = Ok (r, m', p', calls) ∧ wf n m' ∧ waiting m' = waiting m.
Proof.
  intros Hn Hw Hcan. pose proof Hcan as (_ & _ & _ & _ & Hkind). unfold handleSnoop.
  replace (_ && negb (SF.req_isCacheMaintenance (req p))) with false
    by (destruct Hkind as [->| ->]; [by rewrite eqb_reflx|by rewrite andb_false_r]).
  cbn [panic_if mbind res_bind]. destruct (negb (inService m) || _) eqn:Hb.
  { match goal with |- context [if ?b then t ← _; _ else Ok m] => destruct (snoop_before_ok n b m Hw) as (m' & -> & ? & ?) end.
    by eexists _, _, _, _. }
  apply orb_false_iff in Hb as [Hs _]. apply negb_false_iff in Hs.
  assert (∃ m1, (if MemCmd.needsWritable (cmd p) || req_isCacheInvalidate (req p)
    then d ← replaceUpgrades (deferredTargets m); Ok (set_lists (targets m) d m) else Ok m) = Ok m1 ∧ wf n m1 ∧
    waiting m1 = waiting m ∧ inService m1 = true) as (m1 & -> & Hw1 & He1 & Hs1).
  { destruct (_ || _); [|by exists m]. destruct (replace_deferred n m Hw) as (d & -> & ? & ?). by eexists. }
  cbn [mbind res_bind]. pose proof (wf_led _ _ Hw1) as Hled. unfold front.
  destruct (items (targets m1)) as [|x l]; [done|]. cbn [mbind res_bind]. unfold hasPostInvalidate, isPendingModified.
  rewrite Hs1. cbn [assertb mbind res_bind]. destruct (_ || _); [by eexists _, _, _, _|].
  match goal with |- context [save_snoop now p up o ?wr m1] => set (will := wr) end.
  assert (∃ m2 p2 calls, (if pendingModified m1 || isInvalidate (cmd p) then save_snoop now p up o will m1 else Ok (m1, p, []))
    = Ok (m2, p2, calls) ∧ wf n m2 ∧ waiting m2 = waiting m) as (m2 & p2 & calls & -> & Hw2 & He2).
  { destruct (_ || _); [|by eexists _, _, _].
    destruct (save_snoop_ok n now p up o will m1) as (m2 & p2 & calls & -> & ? & He2 & _); [done..|].
    eexists _, _, _. by rewrite He2. }
  clearbody will. cbn [mbind res_bind]. destruct (negb (MemCmd.needsWritable (cmd p2)) && _); [|by eexists _, _, _, _].
  eexists _, _, _, _. split; [done|]. destruct (post_ok n (postInvalidate m2) true m2 Hw2) as [? ->]. done.
Qed.

(** ** Promotion *)
Lemma span_while_ok f l : Forall (λ x, source x = FromCPU) l → (∀ x, source x = FromCPU → ∃ b, f x = Ok b) →
  ∃ a b, span_while f l = Ok (a, b) ∧ l = a ++ b.
Proof.
  intros Hl Hf. induction Hl as [|x l Hx _ (a & b & IH & Hab)]; [by exists [], []|]. cbn [span_while].
  destruct (Hf x Hx) as ([] & ->); cbn [mbind res_bind]; [|by eexists [], _].
  rewrite IH. cbn. eexists (x :: a), b. by rewrite Hab.
Qed.
Lemma promoteIf_ok n pred m : 0 < n → wf n m → inService m = true → downstreamPending m = false →
  (∀ x, source x = FromCPU → ∃ b, pred x = Ok b) →
  ∃ m' calls, promoteIf pred m = Ok (m', calls) ∧ wf n m' ∧ waiting m' = waiting m.
Proof.
  intros Hn [Hs [Ht Ht'] [Hd Hd'] Hl Hcpu Hf Hset Hpen] Hser Hdown Hpred. unfold promoteIf. rewrite Hdown.
  cbn [negb assertb mbind res_bind]. destruct (span_while_ok pred _ Hcpu Hpred) as (a & b & -> & Hab). rewrite Hab in Hcpu, Hd'.
  apply Forall_app in Hcpu as [Ha Hb], Hd' as [Ha' Hb']. cbn [mbind res_bind].
  destruct (populate_ok n (set_items b (deferredTargets m))) as (d & -> & Hdok & Hi & Hfa & Hse); [by split|done|].
  cbn [mbind res_bind]. eexists _, _. split; [done|]. cbn in Hi. split.
  - split; cbn; try done; [| |by rewrite Hi|congruence].
    + split; [done|]. cbn. apply Forall_app. split; [done|]. by apply clear_ok.
    + apply led_app; [done|]. apply cpu_plain, (same_cpu a); [apply clear_same|done].
  - unfold waiting. cbn [targets deferredTargets set_lists items set_items].
    by rewrite Hi, Hab, !orders_app, (same_orders _ _ (clear_same a)), app_assoc.
Qed.
Lemma readable_ok n m : 0 < n → wf n m → inService m = true → downstreamPending m = false →
  ∃ m' calls, promoteReadable m = Ok (m', calls) ∧ wf n m' ∧ waiting m' = waiting m.
Proof.
  intros Hn Hw Hs Hd. unfold promoteReadable, hasPostInvalidate. destruct (items (deferredTargets m)); [by eexists _, _|].
  rewrite Hs. cbn [assertb mbind res_bind]. destruct (postInvalidate m); [by eexists _, _|].
  apply promoteIf_ok; try done. intros x ->. by eexists.
Qed.
Lemma writable_ok n m : 0 < n → wf n m → can n Writable m →
  (∃ m' calls, promoteWritable m = Ok (m', calls) ∧ wf n m' ∧ waiting m' = waiting m) ∨ blocked m.
Proof.
  intros Hn Hw (Hs & Hd). unfold blocked, promoteWritable, front, hasPostInvalidate, hasPostDowngrade.
  destruct (items (deferredTargets m)) as [|x l] eqn:Hi; [by right; left|]. cbn [mbind res_bind].
  destruct (needsWritable (deferredTargets m)); [|left; by eexists _, _]. rewrite Hs. cbn [assertb mbind res_bind].
  assert (∃ b, (if postInvalidate m then Ok true else Ok (postDowngrade m)) = Ok b) as (b & ->)
    by (destruct (postInvalidate m); by eexists).
  cbn [mbind res_bind]. destruct (_ && _); [|left; by eexists _, _].
  destruct (needsWritable (targets m)) eqn:Hnw; [by right; right|left]. cbn [negb assertb mbind res_bind].
  match goal with |- context [promoteIf _ ?m1] => change (waiting m) with (waiting m1) end.
  apply promoteIf_ok; try done; [|intros y ->; by eexists]. destruct Hw. split; cbn; try done. congruence.
Qed.

Lemma orders_cons x l : orders (x :: l) = if real x then t_order x :: orders l else orders l.
Proof. unfold orders. rewrite filter_cons. by destruct (real x). Qed.

Lemma split_snoops_ok l : Forall (λ x, source x ≠ FromPrefetcher) l →
  ∃ r k, split_snoops l = Ok (r, k) ∧ orders r = [] ∧ orders k = orders l ∧ Forall (λ x, source x = FromCPU) k ∧
    ∀ P : Target → Prop, Forall P l → Forall P r ∧ Forall P k.
Proof.
  induction 1 as [|x l Hx _ (r & k & IH & Hr & Hk & Hcpu & HP)]; [by exists [], []|]. cbn [split_snoops]. rewrite IH.
  cbn [mbind res_bind]. destruct (decide (source x = FromCPU)) as [Hs|Hs].
  - rewrite bool_decide_true by done. eexists _, _. split; [done|]. split; [done|]. split.
    { rewrite !orders_cons, Hk. done. }
    split; [by constructor|]. intros P HPl. inversion HPl; subst. destruct (HP P); [done|]. split; [done|by constructor].
  - rewrite bool_decide_false by done. assert (source x = FromSnoop) as Hsn by (by destruct (source x)). rewrite Hsn.
    cbn [bool_decide decide Source_eq_dec assertb]. eexists _, _. split; [done|]. split.
    { rewrite orders_cons. unfold real. by rewrite Hsn. }
    split; [rewrite orders_cons; unfold real; by rewrite Hsn|]. split; [done|].
    intros P HPl. inversion HPl; subst. destruct (HP P); [done|]. split; [by constructor|done].
Qed.

(** ** The response *)

(** Between the targets served and the next request. *)
Record between (n : Z) (m : MSHR) : Prop := {
  bt_size : blkSize m = n;
  bt_targets : list_ok n (targets m);
  bt_cpu : Forall (λ x, source x = FromCPU) (items (targets m));
  bt_deferred : list_ok n (deferredTargets m);
  bt_cpu' : Forall (λ x, source x = FromCPU) (items (deferredTargets m));
  bt_settled : settled (deferredTargets m) }.

Lemma fresh_ok n a : 0 < n → shape n (init a n TargetList_new).
Proof. intros Hn. split; [done|]. cbn. rewrite !length_replicate. lia. Qed.

Lemma extract_ok n p m : 0 < n → wf n m → inService m = true →
  ∃ ready m', extractServiceableTargets p m = Ok (ready, m') ∧ between n m' ∧ inService m' = true ∧
    waiting m = orders (items ready) ++ waiting m' ∧ orders (items ready) ≠ [].
Proof.
  intros Hn [Hs [Ht Ht'] Hd Hl Hcpu Hf Hset Hpen] Hser. unfold extractServiceableTargets. rewrite Hs.
  pose proof (fresh_ok n (blkAddr m) Hn) as Hfresh. destruct (bool_decide _).
  - destruct (items (targets m)) as [|x l] eqn:Hi; [done|]. destruct Hl as [Hx Hl].
    replace (_ || _) with true by (unfold real in Hx; by destruct (source x)). cbn [assertb mbind res_bind].
    destruct (split_snoops_ok l Hl) as (r & k & -> & Hr & Hk & Hkcpu & HP). cbn [mbind res_bind].
    inversion Ht' as [|? ? Hxok Hlok]; subst. destruct (HP _ Hlok) as [Hrok Hkok].
    destruct (populate_ok (blkSize m) (set_items (x :: r) (init (blkAddr m) (blkSize m) TargetList_new)))
      as (ready & -> & _ & Hri & _); [split; [done|by constructor]|done|]. cbn [mbind res_bind].
    destruct (populate_ok (blkSize m) (set_items k (targets m))) as (t & -> & Htok & Hti & _); [by split|done|].
    cbn [mbind res_bind]. eexists _, _. split; [done|]. cbn in Hri, Hti. split; [split; cbn; try done; by rewrite Hti|]. split; [done|].
    unfold waiting. cbn. by rewrite Hi, Hri, Hti, !orders_cons, Hx, Hr, Hk.
  - cbn [mbind res_bind].
    destruct (populate_ok n (init (blkAddr m) n TargetList_new)) as (t & -> & Htok & Hti & _); [by split; [|constructor]|done|].
    cbn [mbind res_bind]. eexists _, _. split; [done|]. cbn in Hti. split; [split; cbn; try done; by rewrite Hti|]. split; [done|].
    unfold waiting. cbn. rewrite Hti. split; [done|]. destruct (items (targets m)) as [|x l]; [done|].
    rewrite orders_cons. by destruct Hl as [-> _].
Qed.

Lemma span_app {A} (f : A → bool) l : l = (span f l).1 ++ (span f l).2.
Proof. induction l as [|x l IH]; [done|]. cbn. destruct (f x); [done|]. destruct (span f l). cbn in *. by rewrite <-IH. Qed.

(** What is promoted is a first part of the deferred targets, not empty when
    no target is left. *)
Lemma promoted_ok t d : d = (promoted t d).1 ++ (promoted t d).2 ∧ (t ++ d ≠ [] → t ++ (promoted t d).1 ≠ []).
Proof.
  pose proof (span_app maintenance d) as Hs. unfold promoted. destruct (span maintenance d) as [[|x l] [|y r]]; cbn in *; subst.
  - by rewrite app_nil_r.
  - destruct t; [done|]. by rewrite app_nil_r.
  - rewrite app_nil_r. split; [done|]. by destruct t.
  - split; [done|]. by destruct t.
Qed.

Lemma promoteDeferred_ok n now m : 0 < n → between n m →
  (items (targets m) = [] ∧ items (deferredTargets m) = [] ∧ promoteDeferredTargets now m = Ok (false, m)) ∨
  ∃ m', promoteDeferredTargets now m = Ok (true, m') ∧ inService m' = inService m ∧ wf n (set_service false m') ∧
    waiting (set_service false m') = waiting m.
Proof.
  intros Hn [Hs [Ht Ht'] Hcpu [Hd Hd'] Hcpu' Hset]. unfold promoteDeferredTargets.
  destruct (empty (targets m) && empty (deferredTargets m)) eqn:He.
  { left. unfold empty in He. by destruct (items (targets m)), (items (deferredTargets m)). }
  right. destruct (promoted_ok (items (targets m)) (items (deferredTargets m))) as [Happ Hne].
  destruct (promoted _ _) as [p rest]. cbn [fst snd] in Happ, Hne. rewrite Happ in Hd', Hcpu'.
  apply Forall_app in Hd' as [Hp Hr], Hcpu' as [Hpc Hrc].
  destruct (populate_ok n (set_items rest (deferredTargets m))) as (d & -> & Hdok & Hdi & Hdf & Hds); [by split|done|].
  cbn [mbind res_bind]. cbn in Hdi.
  destruct (populate_ok n (set_items (items (targets m) ++ p) (targets m))) as (t & -> & Htok & Hti & Htf & _);
    [split; [done|by apply Forall_app]|done|]. cbn [mbind res_bind]. cbn in Hti.
  assert (items t ≠ []) as Htn.
  { rewrite Hti. apply Hne. unfold empty in He. by destruct (items (targets m)), (items (deferredTargets m)). }
  unfold front. destruct (items t) as [|x l] eqn:Hx; [done|]. cbn [mbind res_bind]. eexists. split; [done|]. split; [done|].
  split; [split; cbn; try done|].
  - rewrite Hx. apply cpu_led; [rewrite Hti; by apply Forall_app|done].
  - by rewrite Hdi.
  - unfold waiting. cbn. rewrite Hx, Hti, Hdi, Happ, !orders_app, app_assoc. done.
Qed.

Lemma mshr_deallocate_ok n m : between n m → items (targets m) = [] → items (deferredTargets m) = [] →
  ∃ m', MSHR_deallocate m = Ok m' ∧ items (targets m') = [] ∧ items (deferredTargets m') = [].
Proof.
  intros Hb Ht Hd. unfold MSHR_deallocate. rewrite Ht, (bt_settled _ _ Hb Hd). cbn [assertb mbind res_bind]. by eexists.
Qed.

Lemma mshr_respond_ok n now p m : 0 < n → wf n m → inService m = true →
  ∃ out freed m', respond now p m = Ok (out, freed, m') ∧ waiting m = orders out ++ waiting m' ∧ orders out ≠ [] ∧
    if freed : bool then waiting m' = [] else wf n m'.
Proof.
  intros Hn Hw Hs. unfold respond. destruct (extract_ok n p m Hn Hw Hs) as (ready & m1 & -> & Hb & Hs1 & He & Hsome).
  cbn [mbind res_bind].
  destruct (promoteDeferred_ok n now m1 Hn Hb) as [(Ht & Hd & ->)|(m2 & -> & Hser & Hw2 & He2)]; cbn [mbind res_bind].
  - destruct (mshr_deallocate_ok n m1 Hb Ht Hd) as (m2 & -> & Ht2 & Hd2). cbn [mbind res_bind]. eexists _, _, _. split; [done|].
    rewrite He. unfold waiting. by rewrite Ht, Hd, Ht2, Hd2.
  - unfold markPending. rewrite Hser, Hs1. cbn [assertb mbind res_bind]. eexists _, _, _. split; [done|]. by rewrite He, He2.
Qed.

Lemma step_ok n e m : 0 < n → wf n m → can n e m → ¬ (e = Writable ∧ blocked m) →
  ∃ out freed m', step e m = Ok (out, freed, m') ∧ waiting m ++ arrivals [e] = orders out ++ waiting m' ∧
    (responses [e] ≤ length (orders out))%nat ∧ if freed : bool then waiting m' = [] else wf n m'.
Proof.
  intros Hn Hw Hc Hb. destruct e; cbn [step arrivals mbind list_bind app]; rewrite ?app_nil_r.
  - destruct Hc as [Hp Hc]. edestruct arrive_ok as (m' & calls & -> & ? & Hx); [done..|]. cbn. eexists _, _, _. by split_and!; [|rewrite Hx|lia|].
  - edestruct mshr_issue_ok as (m' & calls & -> & ? & Hx); [done..|]. cbn. eexists _, _, _. by split_and!; [|rewrite Hx|lia|].
  - unfold mark_downstream. cbn in Hc. rewrite Hc. cbn. eexists _, _, _. split; [done|]. split; [done|]. split; [cbn; lia|]. by destruct Hw.
  - edestruct cleared_ok as (m' & calls & -> & ? & Hx); [done..|]. cbn. eexists _, _, _. by split_and!; [|rewrite Hx|lia|].
  - edestruct mshr_snoop_ok as (r & m' & p' & calls & -> & ? & Hx); [done..|]. cbn. eexists _, _, _. by split_and!; [|rewrite Hx|lia|].
  - destruct Hc. edestruct readable_ok as (m' & calls & -> & ? & Hx); [done..|]. cbn. eexists _, _, _. by split_and!; [|rewrite Hx|lia|].
  - edestruct writable_ok as [(m' & calls & -> & ? & Hx)|?]; [done..| |by destruct Hb]. cbn. eexists _, _, _. by split_and!; [|rewrite Hx|lia|].
  - edestruct mshr_respond_ok as (out & freed & m' & -> & ? & Hsome & ?); [done..|]. eexists _, _, _. split_and!; try done.
    destruct (orders out); [done|]. cbn. lia.
Qed.

(** A run stops early only where [promoteWritable] fails. *)
Definition stops (l : list event) (m : MSHR) : Prop := l = [] ∨ (∃ l', l = Writable :: l') ∧ blocked m.
Lemma blocked_dec e m : (e = Writable ∧ blocked m) ∨ ¬ (e = Writable ∧ blocked m).
Proof.
  destruct e; try (right; by intros [? _]). unfold blocked.
  destruct (items (deferredTargets m)), (promoteWritable m) as [|[]], (needsWritable (targets m)),
    (needsWritable (deferredTargets m)); (by left; split; [|left]) || (by left; split; [|right]) || (right; naive_solver).
Qed.

Lemma run_ok n l m : 0 < n → wf n m → admissible n l m →
  ∃ l1 l2 out freed m', l = l1 ++ l2 ∧ run l1 m = Ok (out, freed, m') ∧
    waiting m ++ arrivals l1 = orders out ++ waiting m' ∧ (responses l1 ≤ length (orders out))%nat ∧
    (if freed : bool then waiting m' = [] ∧ l2 = [] else wf n m' ∧ stops l2 m').
Proof.
  intros Hn. revert m. induction l as [|e l IH]; intros m Hw Ha.
  { exists [], [], [], false, m. cbn. rewrite app_nil_r. split_and!; auto. by left. }
  destruct Ha as [Hc Ha]. destruct (blocked_dec e m) as [[-> Hb]|Hb].
  { exists [], (Writable :: l), [], false, m. cbn. rewrite app_nil_r. split_and!; auto. right. split; [by eexists|done]. }
  destruct (step_ok n e m Hn Hw Hc Hb) as (out & freed & m1 & Hst & He & Hr & Hf).
  rewrite Hst in Ha. destruct freed.
  - subst l. exists [e], [], out, true, m1. cbn [run app]. rewrite Hst. by split_and!.
  - destruct (IH m1 Hf Ha) as (l1 & l2 & out' & freed & m2 & -> & Hrun & He' & Hr' & Hf').
    exists (e :: l1), l2, (out ++ out'), freed, m2. cbn [run]. rewrite Hst. cbn [mbind res_bind]. rewrite Hrun. cbn [mbind res_bind].
    split; [done|]. split; [done|]. split; [|split; [|done]].
    + change (e :: l1) with ([e] ++ l1). unfold arrivals. rewrite bind_app. fold (arrivals [e]) (arrivals l1).
      by rewrite app_assoc, He, <-app_assoc, He', orders_app, app_assoc.
    + rewrite orders_app, length_app. destruct e; cbn in *; lia.
Qed.

Lemma mshr_allocate_ok n a p up t o al m : 0 < n → fits n p → items (targets m) = [] → items (deferredTargets m) = [] →
  ∃ m' calls, MSHR_allocate a n p up t o al m = Ok (m', calls) ∧ wf n m' ∧ waiting m' = [o].
Proof.
  intros Hn Hp Ht Hd. unfold MSHR_allocate. set (src := if bool_decide _ then _ else _).
  assert (src ≠ FromSnoop) as Hsrc by (unfold src; by case_bool_decide).
  assert (∀ k, shape n (init a n k)) as Hshape. { intros k. split; [done|]. cbn. rewrite !length_replicate. lia. }
  destruct (add_ok n p up t o src true al (init a n (targets m))) as (t' & calls & x & Hadd & Htok & Hi & Hx & Ho & Hpkt & Hf).
  { split; [done|]. cbn. rewrite Ht. constructor. } { apply Hp. } { done. } { done. }
  rewrite Hadd. cbn [mbind res_bind]. unfold front. cbn in Hi. rewrite Ht in Hi. rewrite Hi. cbn [app mbind res_bind].
  assert (real x = true) as Hreal by (unfold real; rewrite Hx; by rewrite bool_decide_false).
  unfold PQ.matchBlockAddr_pkt, Pkt.matchBlockAddr. rewrite Hpkt, Z.eqb_refl, eqb_reflx. cbn [andb assertb mbind res_bind].
  eexists _, _. split; [done|]. split; [split; cbn; try done|].
  - split; [apply Hshape|]. cbn. rewrite Hd. constructor.
  - rewrite Hi. by split.
  - rewrite Hd. constructor.
  - split; cbn; by rewrite Hd.
  - intros _. apply Hf. split; cbn; by rewrite Ht.
  - unfold waiting. cbn. rewrite Hi, Hd. cbn [app]. rewrite orders_cons, Hreal, Ho. done.
Qed.

(** ** For the queue of registers *)
Definition quiet (e : event) : bool := match e with Issue _ | Respond _ _ => false | _ => true end.

(** A call that returned, taken apart down to its conditions. *)
Local Ltac inv_call :=
  repeat (inv_ok; match goal with
  | H : (match ?p with (_, _) => _ end) = Ok _ |- _ => destruct p
  | H : (if ?b then _ else _) = Ok _ |- _ => destruct b eqn:?
  | H : (match items ?t with [] => _ | _ :: _ => _ end) = Ok _ |- _ => destruct (items t)
  end); inv_ok.

Lemma promoteIf_service f m m' c : promoteIf f m = Ok (m', c) → inService m' = inService m.
Proof. unfold promoteIf. intros Hp. inv_call. done. Qed.
Lemma save_service now p up o w m m' p' c : save_snoop now p up o w m = Ok (m', p', c) → inService m' = inService m.
Proof. unfold save_snoop. intros Hp. inv_call; by destruct (_ || _). Qed.
Lemma snoop_service now p up o m r m' p' c : handleSnoop now p up o m = Ok (r, m', p', c) → inService m' = inService m.
Proof. unfold handleSnoop. intros Hs. inv_call; repeat match goal with H : save_snoop _ _ _ _ _ _ = Ok _ |- _ => apply save_service in H end; try done. Qed.
Lemma step_service e m out f m' : quiet e = true → step e m = Ok (out, f, m') → f = false ∧ inService m' = inService m.
Proof.
  intros Hq. destruct e; cbn [step]; try done; intros Hs; inv_call; (split; [done|]).
  - unfold allocateTarget in *. inv_call; done.
  - unfold mark_downstream in *. inv_call; done.
  - unfold clearDownstreamPending in *. inv_call; done.
  - by eapply snoop_service.
  - unfold promoteReadable in *. inv_call; try done. by eapply promoteIf_service.
  - unfold promoteWritable in *. inv_call; try done; by eapply promoteIf_service in Hm.
Qed.

(** C8: The requests that wait in a miss status holding register are served
    once each and in their order of arrival.  Take any life of a register that starts with
    [MSHR::allocate] and follows the protocol: targets are requests within
    the block and only the first may be a prefetch, a request is sent when none
    is in service, promotions and responses come while one is, marks and
    clears alternate and a promotion finds the mark cleared, snoops are fresh
    requests.  It runs to its end without failing an assertion, or up to a call
    of [promoteWritable] that fails: with nothing deferred, since it reads the
    first deferred target, or with both a waiting and a deferred target that
    need the block writable.  Up to there the orders that arrived are those served
    followed by those that still wait, every response serves at least one, a
    freed register has none left, and while its request is not sent the
    register asks for a writable block exactly when a target needs one. *)
Theorem mshr_serves_in_order n a p up t o al m l : 0 < n → fits n p →
  items (targets m) = [] → items (deferredTargets m) = [] →
  (∀ m0 calls, MSHR_allocate a n p up t o al m = Ok (m0, calls) → admissible n l m0) →
  ∃ m0 calls l1 l2 out freed m', MSHR_allocate a n p up t o al m = Ok (m0, calls) ∧
    l = l1 ++ l2 ∧ run l1 m0 = Ok (out, freed, m') ∧
    (l2 = [] ∨ freed = false ∧ (∃ l3, l2 = Writable :: l3) ∧ blocked m') ∧
    o :: arrivals l1 = orders out ++ waiting m' ∧ (responses l1 ≤ length (orders out))%nat ∧
    (freed = true → waiting m' = []) ∧
    (freed = false → inService m' = false → needsWritable (targets m') = exists_in wants (items (targets m'))).
Proof.
  intros Hn Hp Ht Hd Hl. destruct (mshr_allocate_ok n a p up t o al m Hn Hp Ht Hd) as (m0 & calls & Ha & Hw & He).
  destruct (run_ok n l m0 Hn Hw (Hl _ _ Ha)) as (l1 & l2 & out & freed & m' & -> & Hr & Ho & Hresp & Hf).
  exists m0, calls, l1, l2, out, freed, m'. do 3 (split; [done|]). rewrite He in Ho. destruct freed.
  - destruct Hf. split; [by left|]. done.
  - destruct Hf as [Hf [->|[Hx Hb]]]; (split; [auto|]); (do 2 (split; [done|])); (split; [done|]); intros _ Hs;
      by apply fa_writable, (wf_pending _ _ Hf).
Qed.

(** A read miss; a write and a clean of the same block are deferred; another
    cache asks for the block; the read is answered, then the write, then the
    clean with a read behind it. *)
Definition w_req (f : Z) : Request := mkRequest 0x1008 8 f None None [] None.
Definition w_pkt (c : Command) (f : Z) (d : option (list Z)) : Packet := mkPacket c (w_req f) d 0x1008 false 8 [] 0.
Definition w_read : Packet := w_pkt ReadReq 0 None.
Definition w_write : Packet := w_pkt WriteReq 0 (Some (replicate 8 7)).
Definition w_clean : Packet := w_pkt CleanSharedReq CLEAN None.
Definition w_events : list event :=
  [Issue false; Arrive w_write (Some 3%nat) 10 1 true; Arrive w_clean None 11 2 false;
   Snoop 12 (w_pkt ReadExReq 0 None) None 3; Marked; Cleared; Arrive w_read None 13 4 true;
   Respond 20 (w_pkt ReadResp 0 None); Issue false; Respond 30 (w_pkt ReadExResp 0 None); Issue false;
   Readable; Respond 40 (w_pkt CleanSharedResp 0 None)].
Lemma mshr_serves_in_order_witness :
  ∃ m0 calls out m', MSHR_allocate 0x1000 64 w_read None 5 0 true MSHR_new = Ok (m0, calls) ∧
    run w_events m0 = Ok (out, true, m') ∧ orders out = [0; 1; 2; 4].
Proof.
  destruct (mshr_serves_in_order 64 0x1000 w_read None 5 0 true MSHR_new w_events) as
    (m0 & calls & l1 & l2 & out & freed & m' & Ha & Hl & Hr & Hs & _); [lia| |done|done| |].
  - split; [done|done|]. by split.
  - intros m0 calls Ha. vm_compute in Ha. injection Ha as <- <-. vm_compute.
    repeat (split || discriminate || done || left).
  - assert (l2 = []) as ->.
    { destruct Hs as [?|(_ & (l3 & ->) & _)]; [done|]. exfalso.
      assert (Writable ∈ w_events) as Hin by (rewrite Hl; set_solver). unfold w_events in Hin. set_solver. }
    rewrite app_nil_r in Hl. subst l1. vm_compute in Ha. injection Ha as <- <-. vm_compute in Hr. injection Hr as <- <- <-.
    eexists _, _, _, _. split; [vm_compute; reflexivity|]. split; [vm_compute; reflexivity|]. by vm_compute.
Defined.

(** A clean between two writes of a block that is being fetched: the writable
    response fails the assertion of [promoteWritable]. *)
Example writable_fill_asserts :
  ∃ m0 calls m', MSHR_allocate 0x1000 64 w_write None 5 0 true MSHR_new = Ok (m0, calls) ∧
    run [Issue false; Arrive w_clean None 10 1 false; Arrive w_write None 11 2 true] m0 = Ok ([], false, m') ∧
    promoteWritable m' = Err AssertFail.
Proof. eexists _, _, _. split; [vm_compute; reflexivity|]. split; [vm_compute; reflexivity|]. by vm_compute. Qed.
(** With nothing deferred it reads the first of no targets. *)
Example writable_fill_reads_empty :
  ∃ m0 calls m', MSHR_allocate 0x1000 64 w_write None 5 0 true MSHR_new = Ok (m0, calls) ∧
    run [Issue false] m0 = Ok ([], false, m') ∧ promoteWritable m' = Err Undef.
Proof. eexists _, _, _. split; [vm_compute; reflexivity|]. split; [vm_compute; reflexivity|]. by vm_compute. Qed.
End Mshr.
