(* ===== verification/CacheQueue.v ===== *)
(** * Queues of miss registers and of writes ([mem/cache/queue.hh],
      [mshr_queue.cc], [write_queue.cc], [write_queue_entry.cc])

    A pool of entries that are free or allocated; the allocated ones whose
    request is not sent stand in a second list, the next to send in front.
    A pointer to an entry is its index in the vector [entries], and an
    iterator kept in an entry is the place of its index in the list.  What
    the queue asks of its entries is the class [QueueEntry], with the miss
    registers of [Mshr] and the entries of the write queue as instances.
    Labels for printing and the signal that draining is done are left out. *)

From S2P Require Import Prelude.
From S2P Require Import MemCmd.
From S2P Require Import Packet.
From S2P Require Import PacketQueue.
From S2P Require Import SnoopFilter.
From S2P Require Import Mshr.

(** What a queue uses of an entry. *)
Class QueueEntry (E : Type) := {
  qe_new : E;
  qe_readyTime : E → Z;
  qe_inService : E → bool;
  qe_isUncacheable : E → bool;
  qe_blkAddr : E → Z;
  qe_isSecure : E → bool;
  qe_getNumTargets : E → nat;
  qe_matchBlockAddr : Z → bool → E → res bool;
  qe_matchBlockAddr_pkt : Pkt.Packet → E → res bool;
  qe_trySatisfyFunctional : Pkt.Packet → E → res (bool * Pkt.Packet * E);
  qe_deallocate : E → res E }.

Module CQ.
Import MemCmd Pkt.

(** ** Definitions *)
Record Queue (E : Type) := mkQueue {
  numEntries : Z;
  numReserve : Z;
  entries : list E;
  allocatedList : list nat;
  readyList : list nat;
  freeList : list nat;
  _numInService : Z;
  allocated : Z }.
Arguments mkQueue {E} _ _ _ _ _ _ _ _.
Arguments numEntries {E} _.
Arguments numReserve {E} _.
Arguments entries {E} _.
Arguments allocatedList {E} _.
Arguments readyList {E} _.
Arguments freeList {E} _.
Arguments _numInService {E} _.
Arguments allocated {E} _.

(** Erasing the node an iterator points to. *)
Fixpoint erase (i : nat) (l : list nat) : list nat :=
  match l with
  | [] => []
  | j :: l => if decide (j = i) then l else j :: erase i l
  end.
(** The list with the index before the first one that satisfies the
    condition, if there is one. *)
Fixpoint insert_before (f : nat → bool) (i : nat) (l : list nat) : option (list nat) :=
  match l with
  | [] => None
  | j :: l => if f j then Some (i :: j :: l) else l ← insert_before f i l; Some (j :: l)
  end.

Section queue.
Context {E : Type} `{QueueEntry E}.

Definition entry (q : Queue E) (i : nat) : E := nth i (entries q) qe_new.
Definition set_entry (i : nat) (e : E) (q : Queue E) : Queue E :=
  mkQueue (numEntries q) (numReserve q) (<[i := e]> (entries q)) (allocatedList q) (readyList q) (freeList q)
    (_numInService q) (allocated q).
Definition set_ready (l : list nat) (q : Queue E) : Queue E :=
  mkQueue (numEntries q) (numReserve q) (entries q) (allocatedList q) l (freeList q) (_numInService q) (allocated q).
Definition set_service (k : Z) (q : Queue E) : Queue E :=
  mkQueue (numEntries q) (numReserve q) (entries q) (allocatedList q) (readyList q) (freeList q) k (allocated q).
Definition set_alloc (a f : list nat) (k : Z) (q : Queue E) : Queue E :=
  mkQueue (numEntries q) (numReserve q) (entries q) a (readyList q) f (_numInService q) k.

Definition Queue_new (num_entries reserve : Z) : Queue E :=
  let n := Z.to_nat (num_entries + reserve) in
  mkQueue (num_entries + reserve) reserve (replicate n qe_new) [] [] (seq 0 n) 0 0.

Definition isEmpty (q : Queue E) : bool := allocated q =? 0.
Definition isFull (q : Queue E) : bool := numEntries q - numReserve q <=? allocated q.
Definition drained (q : Queue E) : bool := allocated q =? 0.

Definition addToReadyList (i : nat) (q : Queue E) : res (Queue E) :=
  let t := qe_readyTime (entry q i) in
  let at_end := Ok (set_ready (readyList q ++ [i]) q) in
  match last (readyList q) with
  | None => at_end
  | Some j =>
      if qe_readyTime (entry q j) <=? t then at_end
      else
        match insert_before (λ j, t <? qe_readyTime (entry q j)) i (readyList q) with
        | Some l => Ok (set_ready l q)
        | None => Err PanicFail
        end
  end.

Fixpoint find_match (q : Queue E) (blk_addr : Z) (is_secure ignore_uncacheable : bool) (l : list nat) : res (option nat) :=
  match l with
  | [] => Ok None
  | i :: l =>
      let e := entry q i in
      found ← (if ignore_uncacheable && qe_isUncacheable e then Ok false else qe_matchBlockAddr blk_addr is_secure e);
      if found : bool then Ok (Some i) else find_match q blk_addr is_secure ignore_uncacheable l
  end.
Definition findMatch (blk_addr : Z) (is_secure ignore_uncacheable : bool) (q : Queue E) : res (option nat) :=
  find_match q blk_addr is_secure ignore_uncacheable (allocatedList q).

Fixpoint satisfy_list (p : Packet) (l : list nat) (q : Queue E) : res (bool * Packet * Queue E) :=
  match l with
  | [] => Ok (false, p, q)
  | i :: l =>
      m ← qe_matchBlockAddr_pkt p (entry q i);
      if m : bool then
        '(found, p, e) ← qe_trySatisfyFunctional p (entry q i);
        let q := set_entry i e q in
        if found : bool then Ok (true, p, q) else satisfy_list p l q
      else satisfy_list p l q
  end.
Definition trySatisfyFunctional (p : Packet) (q : Queue E) : res (bool * Packet * Queue E) :=
  satisfy_list p (allocatedList q) q.

(** [conflictAddr]: the entry of the other queue is asked for the address of
    the one that waits. *)
Fixpoint find_pending {F} `{QueueEntry F} (q : Queue E) (other : F) (l : list nat) : res (option nat) :=
  match l with
  | [] => Ok None
  | i :: l =>
      let e := entry q i in
      assertb (match qe_getNumTargets e with O => false | _ => true end);;
      found ← qe_matchBlockAddr (qe_blkAddr e) (qe_isSecure e) other;
      if found : bool then Ok (Some i) else find_pending q other l
  end.
Definition findPending {F} `{QueueEntry F} (other : F) (q : Queue E) : res (option nat) :=
  find_pending q other (readyList q).

Definition getNext (now : Z) (q : Queue E) : option nat :=
  match readyList q with
  | [] => None
  | i :: _ => if now <? qe_readyTime (entry q i) then None else Some i
  end.
Definition MaxTick : Z := 2 ^ 64 - 1.
Definition nextReadyTime (q : Queue E) : Z :=
  match readyList q with [] => MaxTick | i :: _ => qe_readyTime (entry q i) end.

Definition deallocate (i : nat) (q : Queue E) : res (Queue E) :=
  let q := set_alloc (erase i (allocatedList q)) (i :: freeList q) (allocated q - 1) q in
  let q := if qe_inService (entry q i) then set_service (_numInService q - 1) q
           else set_ready (erase i (readyList q)) q in
  e ← qe_deallocate (entry q i);
  Ok (set_entry i e q).

(** The part of [allocate] the two queues share: the front of the free list
    is taken for a new entry. *)
Definition allocate_with (alloc : E → res E) (q : Queue E) : res (nat * Queue E) :=
  match freeList q with
  | [] => Err AssertFail
  | i :: free =>
      assertb (match qe_getNumTargets (entry q i) with O => true | _ => false end);;
      let q := set_alloc (allocatedList q) free (allocated q) q in
      e ← alloc (entry q i);
      let q := set_alloc (allocatedList q ++ [i]) (freeList q) (allocated q) (set_entry i e q) in
      q ← addToReadyList i q;
      Ok (i, set_alloc (allocatedList q) (freeList q) (allocated q + 1) q)
  end.
End queue.

(** ** The write queue *)
Record WriteTarget := mkWriteTarget { wt_pkt : Packet; wt_readyTime : Z; wt_order : Z }.
Record WriteQueueEntry := mkWriteEntry {
  w_readyTime : Z;
  w_isUncacheable : bool;
  w_inService : bool;
  w_order : Z;
  w_blkAddr : Z;
  w_blkSize : Z;
  w_isSecure : bool;
  w_targets : list WriteTarget }.
Definition WriteQueueEntry_new : WriteQueueEntry := mkWriteEntry 0 false false 0 0 0 false [].
Definition set_targets (l : list WriteTarget) (e : WriteQueueEntry) : WriteQueueEntry :=
  mkWriteEntry (w_readyTime e) (w_isUncacheable e) (w_inService e) (w_order e) (w_blkAddr e) (w_blkSize e) (w_isSecure e) l.
Definition w_hasTargets (e : WriteQueueEntry) : bool := match w_targets e with [] => false | _ => true end.

Definition WriteQueueEntry_allocate (blk_addr blk_size : Z) (target : Packet) (when_ready order : Z) (e : WriteQueueEntry)
    : res WriteQueueEntry :=
  let unc := SF.req_isUncacheable (req target) in
  panic_if (negb unc && w_hasTargets e);;
  panic_if (negb ((isWrite (cmd target) && unc) || (isEviction (cmd target) && negb unc) ||
                  bool_decide (cmd target = WriteClean)));;
  let l := w_targets e ++ [mkWriteTarget target when_ready order] in
  match l with
  | [] => Err Undef
  | x :: _ =>
      assertb (PQ.matchBlockAddr_pkt target (wt_pkt x) blk_size);;
      Ok (mkWriteEntry when_ready unc false order blk_addr blk_size (secure target) l)
  end.
Definition WriteQueueEntry_deallocate (e : WriteQueueEntry) : res WriteQueueEntry :=
  assertb (negb (w_hasTargets e));;
  Ok (mkWriteEntry (w_readyTime e) (w_isUncacheable e) false (w_order e) (w_blkAddr e) (w_blkSize e) (w_isSecure e)
        (w_targets e)).
Definition WriteQueueEntry_popTarget (e : WriteQueueEntry) : res WriteQueueEntry :=
  match w_targets e with [] => Err Undef | _ :: l => Ok (set_targets l e) end.

Fixpoint satisfy_writes (p : Packet) (l : list WriteTarget) : res (bool * Packet * list WriteTarget) :=
  match l with
  | [] => Ok (false, p, [])
  | x :: l =>
      '(found, p, o) ← trySatisfyFunctional_pkt p (wt_pkt x);
      let x := mkWriteTarget o (wt_readyTime x) (wt_order x) in
      if found : bool then Ok (true, p, x :: l)
      else '(found, p, l) ← satisfy_writes p l; Ok (found, p, x :: l)
  end.
Definition WriteQueueEntry_trySatisfyFunctional (p : Packet) (e : WriteQueueEntry) : res (bool * Packet * WriteQueueEntry) :=
  if isPrint (cmd p) then Ok (false, p, e)
  else '(found, p, l) ← satisfy_writes p (w_targets e); Ok (found, p, set_targets l e).
Definition WriteQueueEntry_matchBlockAddr (a : Z) (is_secure : bool) (e : WriteQueueEntry) : res bool :=
  assertb (w_hasTargets e);; Ok ((w_blkAddr e =? a) && Bool.eqb (w_isSecure e) is_secure).
Definition WriteQueueEntry_matchBlockAddr_pkt (p : Packet) (e : WriteQueueEntry) : res bool :=
  assertb (w_hasTargets e);; Ok (Pkt.matchBlockAddr p (w_blkAddr e) (w_isSecure e) (w_blkSize e)).

#[export] Instance write_entry : QueueEntry WriteQueueEntry := {
  qe_new := WriteQueueEntry_new;
  qe_readyTime := w_readyTime;
  qe_inService := w_inService;
  qe_isUncacheable := w_isUncacheable;
  qe_blkAddr := w_blkAddr;
  qe_isSecure := w_isSecure;
  qe_getNumTargets e := length (w_targets e);
  qe_matchBlockAddr := WriteQueueEntry_matchBlockAddr;
  qe_matchBlockAddr_pkt := WriteQueueEntry_matchBlockAddr_pkt;
  qe_trySatisfyFunctional := WriteQueueEntry_trySatisfyFunctional;
  qe_deallocate := WriteQueueEntry_deallocate }.

Definition WriteQueue_allocate (blk_addr blk_size : Z) (p : Packet) (when_ready order : Z) (q : Queue WriteQueueEntry)
    : res (nat * Queue WriteQueueEntry) :=
  allocate_with (WriteQueueEntry_allocate blk_addr blk_size p when_ready order) q.
Definition WriteQueue_markInService (i : nat) (q : Queue WriteQueueEntry) : res (Queue WriteQueueEntry) :=
  e ← WriteQueueEntry_popTarget (entry q i);
  deallocate i (set_entry i e q).

(** ** The queue of miss registers *)
#[export] Instance mshr_entry : QueueEntry Mshr.MSHR := {
  qe_new := Mshr.MSHR_new;
  qe_readyTime := Mshr.readyTime;
  qe_inService := Mshr.inService;
  qe_isUncacheable := Mshr.isUncacheable;
  qe_blkAddr := Mshr.blkAddr;
  qe_isSecure := Mshr.isSecure;
  qe_getNumTargets := Mshr.getNumTargets;
  qe_matchBlockAddr := Mshr.matchBlockAddr;
  qe_matchBlockAddr_pkt := Mshr.matchBlockAddr_pkt;
  qe_trySatisfyFunctional := Mshr.MSHR_trySatisfyFunctional;
  qe_deallocate := Mshr.MSHR_deallocate }.
Notation MSHRs := (Queue Mshr.MSHR).
Record MSHRQueue := mkMSHRQueue { mshrs : MSHRs; demandReserve : Z }.

Definition MSHRQueue_new (num_entries reserve demand_reserve : Z) : MSHRQueue :=
  mkMSHRQueue (Queue_new num_entries reserve) demand_reserve.
Definition havePending (q : MSHRs) : bool := match readyList q with [] => false | _ => true end.
Definition canPrefetch (q : MSHRQueue) : bool :=
  allocated (mshrs q) <? numEntries (mshrs q) - (numReserve (mshrs q) + 1 + demandReserve q).

(** With the calls to the registers of the caches above. *)
Definition MSHRQueue_allocate (blk_addr blk_size : Z) (p : Packet) (up : option nat) (when_ready order : Z)
    (alloc_on_fill : bool) (q : MSHRs) : res (nat * MSHRs) :=
  allocate_with (λ m, '(m, _) ← Mshr.MSHR_allocate blk_addr blk_size p up when_ready order alloc_on_fill m; Ok m) q.
Definition moveToFront (i : nat) (q : MSHRs) : res MSHRs :=
  if Mshr.inService (entry q i) then Ok q
  else
    assertb (bool_decide (i ∈ readyList q));;
    Ok (set_ready (i :: erase i (readyList q)) q).

(** The search for the new place starts at the register itself; splicing a
    node in front of itself changes nothing. *)
Fixpoint from (i : nat) (l : list nat) : list nat :=
  match l with [] => [] | j :: l' => if decide (j = i) then l else from i l' end.
Fixpoint find_if (f : nat → bool) (l : list nat) : option nat :=
  match l with [] => None | j :: l => if f j then Some j else find_if f l end.
Fixpoint place_before (i j : nat) (l : list nat) : list nat :=
  match l with [] => [] | k :: l => if decide (k = j) then i :: k :: l else k :: place_before i j l end.
Definition splice_before (i : nat) (it : option nat) (l : list nat) : list nat :=
  match it with
  | None => erase i l ++ [i]
  | Some j => if decide (j = i) then l else place_before i j (erase i l)
  end.
Definition delay (now : Z) (i : nat) (delay_ticks : Z) (q : MSHRs) : res MSHRs :=
  m ← Mshr.MSHR_delay now delay_ticks (entry q i);
  let q := set_entry i m q in
  let it := find_if (λ j, Mshr.readyTime (entry q j) <=? Mshr.readyTime m) (from i (readyList q)) in
  Ok (set_ready (splice_before i it (readyList q)) q).

Definition markInService (i : nat) (pending_modified_resp : bool) (q : MSHRs) : res MSHRs :=
  '(m, _) ← Mshr.MSHR_markInService pending_modified_resp (entry q i);
  let q := set_entry i m q in
  Ok (set_service (_numInService q + 1) (set_ready (erase i (readyList q)) q)).
Definition markPending (i : nat) (q : MSHRs) : res MSHRs :=
  m ← Mshr.markPending (entry q i);
  let q := set_entry i m q in
  addToReadyList i (set_service (_numInService q - 1) q).
Definition forceDeallocateTarget (now : Z) (i : nat) (q : MSHRs) : res (bool * MSHRs) :=
  let was_full := isFull q in
  assertb (Mshr.hasTargets (entry q i));;
  m ← Mshr.popTarget (entry q i);
  q ← (if Mshr.hasTargets m then Ok (set_entry i m q)
       else
         '(again, m) ← Mshr.promoteDeferredTargets now m;
         if again : bool then Ok (set_entry i m q) else deallocate i (set_entry i m q));
  Ok (was_full && negb (isFull q), q).

(** What [BaseCache::recvTimingResp] does with the register of a response. *)
Definition respond (now : Z) (i : nat) (p : Packet) (q : MSHRs) : res (list Mshr.Target * MSHRs) :=
  '(ready, m) ← Mshr.extractServiceableTargets p (entry q i);
  '(again, m) ← Mshr.promoteDeferredTargets now m;
  q ← (if again : bool then markPending i (set_entry i m q) else deallocate i (set_entry i m q));
  Ok (Mshr.items ready, q).

(** ** Invariant *)
Lemma elem_erase i j l : NoDup l → j ∈ erase i l ↔ j ∈ l ∧ j ≠ i.
Proof.
  induction 1 as [|k l Hk _ IH]; cbn [erase]; [set_solver|]. case_decide; [subst; set_solver|].
  rewrite !elem_of_cons, IH. naive_solver.
Qed.
Lemma nodup_erase i l : NoDup l → NoDup (erase i l).
Proof.
  induction 1 as [|k l Hk Hl IH]; cbn [erase]; [constructor|]. case_decide; [done|]. constructor; [|done].
  rewrite elem_erase by done. naive_solver.
Qed.
Lemma length_erase i l : i ∈ l → S (length (erase i l)) = length l.
Proof.
  induction l as [|k l IH]; [by intros []%not_elem_of_nil|]. cbn [erase]. rewrite elem_of_cons. case_decide; [done|].
  intros [?|?]; [congruence|]. cbn. by rewrite <-IH.
Qed.
Lemma insert_before_perm f i l l' : insert_before f i l = Some l' → l' ≡ₚ i :: l.
Proof.
  revert l'. induction l as [|j l IH]; intros l'; cbn [insert_before]; [done|]. destruct (f j); [by intros [= <-]|].
  intros (k & Hk & [= <-])%bind_Some. rewrite (IH k Hk). constructor.
Qed.
Lemma insert_before_some f i l : existsb f l = true → ∃ l', insert_before f i l = Some l'.
Proof.
  induction l as [|j l IH]; cbn; [done|]. destruct (f j); [by eexists|]. intros (l' & ->)%IH. by eexists.
Qed.

Section invariant.
Context {E : Type} `{QueueEntry E} (used idle : E → Prop).

Record inv (q : Queue E) : Prop := {
  v_size : Z.of_nat (length (entries q)) = numEntries q;
  v_nodup : NoDup (freeList q ++ allocatedList q);
  v_all : ∀ i, i ∈ freeList q ++ allocatedList q ↔ (i < length (entries q))%nat;
  v_count : allocated q = Z.of_nat (length (allocatedList q));
  v_nodup' : NoDup (readyList q);
  v_ready : ∀ i, i ∈ readyList q ↔ i ∈ allocatedList q ∧ qe_inService (entry q i) = false;
  v_service : _numInService q = allocated q - Z.of_nat (length (readyList q));
  v_used : ∀ i, i ∈ allocatedList q → used (entry q i);
  v_free : ∀ i, i ∈ freeList q → idle (entry q i) }.

Lemma entry_set i e q j : (i < length (entries q))%nat → entry (set_entry i e q) j = if decide (j = i) then e else entry q j.
Proof.
  intros Hi. unfold entry. cbn. case_decide as Hj; [subst j|].
  - apply nth_lookup_Some. by apply list_lookup_insert_eq.
  - by rewrite !nth_lookup, list_lookup_insert_ne.
Qed.

(** The panic at the end of the search is never reached. *)
Lemma add_ready_ok i q : ∃ l, addToReadyList i q = Ok (set_ready l q) ∧ l ≡ₚ i :: readyList q.
Proof.
  unfold addToReadyList. assert (Hend : readyList q ++ [i] ≡ₚ i :: readyList q) by (by rewrite Permutation_app_comm).
  destruct (last (readyList q)) as [j|] eqn:Hl; [|by eexists]. destruct (_ <=? _) eqn:Hle; [by eexists|].
  edestruct (insert_before_some (λ j, qe_readyTime (entry q i) <? qe_readyTime (entry q j)) i (readyList q)) as (l & Hins).
  { apply existsb_exists. exists j. apply last_Some in Hl as (l' & ->). split; [apply in_or_app; right; by left|].
    apply Z.ltb_lt. apply Z.leb_gt in Hle. done. }
  rewrite Hins. eexists. split; [done|]. by apply insert_before_perm in Hins.
Qed.

Lemma used_below q i : inv q → i ∈ allocatedList q → (i < length (entries q))%nat ∧ i ∉ freeList q.
Proof.
  intros Hq Hi. split; [apply (v_all _ Hq); set_solver|]. intros Hf. pose proof (v_nodup _ Hq) as Hn.
  apply NoDup_app in Hn as (_ & Hn & _). by apply (Hn i).
Qed.

Lemma update_ok i e q : inv q → i ∈ allocatedList q → used e → qe_inService e = qe_inService (entry q i) →
  inv (set_entry i e q).
Proof.
  intros Hq Hi He Hs. destruct (used_below q i Hq Hi) as [Hlt Hf]. destruct Hq.
  split; cbn [numEntries entries allocatedList readyList freeList _numInService allocated set_entry];
    rewrite ?length_insert; try done.
  - intros j. rewrite entry_set by done. rewrite v_ready0. case_decide; [subst; by rewrite Hs|done].
  - intros j Hj. rewrite entry_set by done. case_decide; auto.
  - intros j Hj. rewrite entry_set by done. case_decide; [subst; done|auto].
Qed.

Lemma new_ok n r : 0 ≤ n + r → idle qe_new → inv (Queue_new n r).
Proof.
  intros Hn Hi. unfold Queue_new. split; cbn; rewrite ?length_replicate, ?app_nil_r; try done.
  - lia.
  - apply NoDup_seq.
  - intros i. rewrite elem_of_seq. lia.
  - constructor.
  - intros i. split; [by intros []%not_elem_of_nil|]. by intros [[]%not_elem_of_nil _].
  - by intros i []%not_elem_of_nil.
  - intros i _. unfold entry. cbn. rewrite nth_lookup.
    destruct (replicate _ _ !! i) eqn:Hx; [|done]. by apply lookup_replicate in Hx as [-> _].
Qed.

(** The entries of a queue in which one was changed. *)
Local Ltac entry_cases i e q :=
  let j := fresh "j" in intros j ?; change (entry _ j) with (entry (set_entry i e q) j);
  rewrite entry_set by done; case_decide; [by subst|by auto].

(** An entry whose request is sent leaves the ready list. *)
Lemma sent_ok i e q : inv q → i ∈ readyList q → used e → qe_inService e = true →
  inv (set_service (_numInService q + 1) (set_ready (erase i (readyList q)) (set_entry i e q))).
Proof.
  intros Hq Hr He Hs. pose proof (proj1 (v_ready _ Hq i) Hr) as [Hi _].
  destruct (used_below q i Hq Hi) as [Hlt Hf]. destruct Hq.
  split; cbn [numEntries entries allocatedList readyList freeList _numInService allocated set_entry set_service set_ready];
    rewrite ?length_insert; try done.
  - by apply nodup_erase.
  - intros j. change (entry _ j) with (entry (set_entry i e q) j). rewrite entry_set, elem_erase, v_ready0 by done.
    case_decide; naive_solver congruence.
  - pose proof (length_erase _ _ Hr). lia.
  - entry_cases i e q.
  - entry_cases i e q.
Qed.

(** An entry to send again is put back. *)
Lemma again_ok i e q l : inv q → i ∈ allocatedList q → qe_inService (entry q i) = true → used e → qe_inService e = false →
  l ≡ₚ i :: readyList q → inv (set_ready l (set_service (_numInService q - 1) (set_entry i e q))).
Proof.
  intros Hq Hi Hs He Hs' Hl. destruct (used_below q i Hq Hi) as [Hlt Hf]. destruct Hq.
  assert (i ∉ readyList q) by (rewrite v_ready0; intros [_ ?]; congruence).
  split; cbn [numEntries entries allocatedList readyList freeList _numInService allocated set_entry set_service set_ready];
    rewrite ?length_insert; try done.
  - rewrite Hl. by constructor.
  - intros j. change (entry _ j) with (entry (set_entry i e q) j). rewrite entry_set, Hl, elem_of_cons, v_ready0 by done.
    case_decide; naive_solver.
  - rewrite Hl. cbn. lia.
  - entry_cases i e q.
  - entry_cases i e q.
Qed.

Lemma queue_deallocate_ok i e e' q : inv q → i ∈ allocatedList q → qe_inService e = qe_inService (entry q i) →
  qe_deallocate e = Ok e' → idle e' → ∃ q', deallocate i (set_entry i e q) = Ok q' ∧ inv q'.
Proof.
  intros Hq Hi Hs Hd He. destruct (used_below q i Hq Hi) as [Hlt Hf]. unfold deallocate.
  set (ready := if qe_inService e then readyList q else erase i (readyList q)).
  set (served := if qe_inService e then _numInService q - 1 else _numInService q).
  set (q' := mkQueue (numEntries q) (numReserve q) (<[i := e']> (<[i := e]> (entries q))) (erase i (allocatedList q))
    ready (i :: freeList q) served (allocated q - 1)).
  exists q'. split.
  { assert (∀ q1, entries q1 = <[i := e]> (entries q) → entry q1 i = e) as Hent.
    { intros q1 Hq1. unfold entry. rewrite Hq1. apply nth_lookup_Some. by apply list_lookup_insert_eq. }
    rewrite (Hent (set_alloc _ _ _ _)) by done. unfold q', ready, served.
    destruct (qe_inService e); rewrite Hent, Hd by done; done. }
  assert (∀ j, entry q' j = if decide (j = i) then e' else entry q j) as Hent.
  { intros j. change (entry q' j) with (entry (set_entry i e' (set_entry i e q)) j).
    rewrite !entry_set by (cbn; rewrite ?length_insert; done). by case_decide. }
  destruct Hq. apply NoDup_app in v_nodup0 as (Hn1 & Hn2 & Hn3).
  split; cbn [numEntries entries allocatedList readyList freeList _numInService allocated q']; rewrite ?length_insert; try done.
  - constructor; [rewrite elem_of_app, elem_erase by done; naive_solver|]. apply NoDup_app. split; [done|].
    split; [|by apply nodup_erase]. intros j Hj. rewrite elem_erase by done. naive_solver.
  - intros j. rewrite <-v_all0. cbn [app]. rewrite elem_of_cons, !elem_of_app, elem_erase by done.
    destruct (decide (j = i)); naive_solver.
  - pose proof (length_erase _ _ Hi). lia.
  - unfold ready. destruct (qe_inService e); [done|by apply nodup_erase].
  - intros j. rewrite Hent, elem_erase by done. unfold ready.
    destruct (qe_inService e) eqn:Hser; rewrite ?elem_erase, v_ready0 by done; case_decide; naive_solver congruence.
  - unfold served, ready. destruct (qe_inService e) eqn:Hser; [lia|].
    assert (i ∈ readyList q) as Hir by (apply v_ready0; split; congruence). pose proof (length_erase _ _ Hir). lia.
  - intros j. rewrite Hent, elem_erase by done. intros [? ?]. rewrite decide_False by done. auto.
  - intros j. rewrite Hent, elem_of_cons. case_decide; naive_solver.
Qed.

(** While an entry is free, one can be allocated. *)
Lemma free_entry q : inv q → allocated q < numEntries q → freeList q ≠ [].
Proof.
  intros [Hs Hn Ha Hc _ _ _ _ _] Hlt Hnil. rewrite Hnil in *. cbn [app] in *.
  assert (seq 0 (length (entries q)) ⊆+ allocatedList q) as Hsub%submseteq_length.
  { apply NoDup_submseteq; [apply NoDup_seq|]. intros i Hi. apply Ha. apply elem_of_seq in Hi. lia. }
  rewrite length_seq in Hsub. lia.
Qed.

Lemma taken_ok i e q free l : inv q → freeList q = i :: free → used e → qe_inService e = false → l ≡ₚ i :: readyList q →
  inv (mkQueue (numEntries q) (numReserve q) (<[i := e]> (entries q)) (allocatedList q ++ [i]) l free (_numInService q)
    (allocated q + 1)).
Proof.
  intros [Hsz Hn Ha Hc Hn' Hr Hsv Hu Hf] Hfree He Hs Hl. rewrite Hfree in *.
  assert (i < length (entries q))%nat as Hlt by (apply Ha; by left).
  apply NoDup_app in Hn as (Hn1 & Hn2 & Hn3). apply NoDup_cons in Hn1 as [Hi1 Hn1].
  assert (i ∉ allocatedList q) as Hia by (apply Hn2; by left). assert (i ∉ readyList q) as Hir by (by rewrite Hr; intros [? _]).
  split; cbn [numEntries entries allocatedList readyList freeList _numInService allocated]; rewrite ?length_insert; try done.
  - apply NoDup_app. split; [done|]. split.
    + intros j Hj. rewrite elem_of_app, list_elem_of_singleton. intros [?|?]; [|by subst]. apply (Hn2 j); [by right|done].
    + apply NoDup_app. split; [done|]. split; [|apply NoDup_singleton]. intros j Hj ->%list_elem_of_singleton. done.
  - intros j. rewrite <-Ha. cbn [app]. rewrite elem_of_cons, !elem_of_app, list_elem_of_singleton. naive_solver.
  - rewrite length_app, Hc. cbn. lia.
  - rewrite Hl. by constructor.
  - intros j. change (entry _ j) with (entry (set_entry i e q) j).
    rewrite entry_set, Hl, elem_of_cons, elem_of_app, list_elem_of_singleton, Hr by done. case_decide; naive_solver.
  - rewrite Hl. cbn. lia.
  - intros j. change (entry _ j) with (entry (set_entry i e q) j).
    rewrite entry_set, elem_of_app, list_elem_of_singleton by done. case_decide; naive_solver.
  - intros j Hj. change (entry _ j) with (entry (set_entry i e q) j). rewrite entry_set by done.
    rewrite decide_False by (by intros ->). apply Hf. by right.
Qed.

Lemma allocate_with_ok alloc q : inv q → allocated q < numEntries q → (∀ e, idle e → qe_getNumTargets e = O) →
  (∀ e, idle e → ∃ e', alloc e = Ok e' ∧ used e' ∧ qe_inService e' = false) →
  ∃ i q', allocate_with alloc q = Ok (i, q') ∧ inv q'.
Proof.
  intros Hq Hlt Hidle Halloc. pose proof (free_entry q Hq Hlt) as Hne. unfold allocate_with.
  destruct (freeList q) as [|i free] eqn:Hf; [done|]. assert (idle (entry q i)) as Hi by (apply (v_free _ Hq); rewrite Hf; by left).
  rewrite (Hidle _ Hi). cbn [assertb mbind res_bind]. change (entry (set_alloc _ _ _ q) i) with (entry q i).
  destruct (Halloc _ Hi) as (e & -> & He & Hs). cbn [mbind res_bind].
  match goal with |- context [addToReadyList i ?q1] => destruct (add_ready_ok i q1) as (l & -> & Hl) end.
  cbn [mbind res_bind]. eexists _, _. split; [done|]. exact (taken_ok i e q free l Hq Hf He Hs Hl).
Qed.
End invariant.

(** ** The registers in use *)
Definition free_register (m : Mshr.MSHR) : Prop :=
  Mshr.items (Mshr.targets m) = [] ∧ Mshr.items (Mshr.deferredTargets m) = [].
Notation ok n := (inv (Mshr.wf n) free_register).

(** What the cache does with the queue; [QEvent] is what happens to a
    register beside sending its request and the response. *)
Inductive op :=
  | QAllocate (blk_addr : Z) (p : Packet) (up : option nat) (when_ready order : Z) (alloc_on_fill : bool)
  | QEvent (i : nat) (e : Mshr.event)
  | QFront (i : nat)
  | QDelay (now : Z) (i : nat) (delay_ticks : Z)
  | QIssue (i : nat) (pending_modified_resp : bool)
  | QRespond (now : Z) (i : nat) (p : Packet)
  | QForce (now : Z) (i : nat).
Definition exec (n : Z) (o : op) (q : MSHRs) : res MSHRs :=
  match o with
  | QAllocate a p up t o al => '(_, q) ← MSHRQueue_allocate a n p up t o al q; Ok q
  | QEvent i e => '(_, _, m) ← Mshr.step e (entry q i); Ok (set_entry i m q)
  | QFront i => moveToFront i q
  | QDelay now i d => delay now i d q
  | QIssue i pm => markInService i pm q
  | QRespond now i p => '(_, q) ← respond now i p q; Ok q
  | QForce now i => '(_, q) ← forceDeallocateTarget now i q; Ok q
  end.
Fixpoint exec_all (n : Z) (l : list op) (q : MSHRs) : res MSHRs :=
  match l with [] => Ok q | o :: l => q ← exec n o q; exec_all n l q end.

(** When it may: an entry is left, the register is in the queue and in the
    right state, and a squashed prefetch is alone in its register. *)
Definition can (n : Z) (o : op) (q : MSHRs) : Prop :=
  match o with
  | QAllocate _ p _ _ _ _ => Mshr.fits n p ∧ allocated q < numEntries q
  | QEvent i e => i ∈ allocatedList q ∧ Mshr.quiet e = true ∧ Mshr.can n e (entry q i)
  | QFront i => i ∈ allocatedList q
  | QDelay now i _ => i ∈ readyList q ∧ Mshr.readyTime (entry q i) ≤ now
  | QIssue i _ => i ∈ readyList q
  | QRespond _ i _ => i ∈ allocatedList q ∧ Mshr.inService (entry q i) = true
  | QForce _ i => i ∈ readyList q ∧ length (Mshr.items (Mshr.targets (entry q i))) = 1%nat
  end.
Fixpoint admissible (n : Z) (l : list op) (q : MSHRs) : Prop :=
  match l with
  | [] => True
  | o :: l => can n o q ∧ match exec n o q with Ok q => admissible n l q | Err _ => True end
  end.

Lemma queue_event_ok n i e q : 0 < n → ok n q → i ∈ allocatedList q → Mshr.quiet e = true → Mshr.can n e (entry q i) →
  ¬ (e = Mshr.Writable ∧ Mshr.blocked (entry q i)) →
  ∃ q', exec n (QEvent i e) q = Ok q' ∧ ok n q'.
Proof.
  intros Hn Hq Hi Hquiet Hc Hb. cbn [exec].
  destruct (Mshr.step_ok n e (entry q i) Hn (v_used _ _ _ Hq i Hi) Hc Hb) as (out & f & m & Hst & _ & _ & Hw). rewrite Hst.
  destruct (Mshr.step_service _ _ _ _ _ Hquiet Hst) as [-> Hs]. cbn [mbind res_bind]. eexists. split; [done|].
  by apply update_ok.
Qed.

Lemma front_ok n i q : ok n q → i ∈ allocatedList q → ∃ q', moveToFront i q = Ok q' ∧ ok n q'.
Proof.
  intros Hq Hi. unfold moveToFront. destruct (Mshr.inService (entry q i)) eqn:Hs; [by eexists|].
  assert (i ∈ readyList q) as Hr by (by apply (v_ready _ _ _ Hq)). rewrite bool_decide_true by done.
  cbn [assertb mbind res_bind]. eexists. split; [done|]. pose proof (length_erase _ _ Hr). destruct Hq.
  split; cbn [numEntries entries allocatedList readyList freeList _numInService allocated set_ready length]; try done; [| |lia].
  - constructor; [|by apply nodup_erase]. rewrite elem_erase by done. naive_solver.
  - intros j. change (entry _ j) with (entry q j). rewrite elem_of_cons, elem_erase, v_ready0 by done.
    destruct (decide (j = i)); naive_solver.
Qed.

(** A delayed register keeps its place. *)
Lemma from_head i l : i ∈ l → ∃ l', from i l = i :: l'.
Proof.
  induction l as [|j l IH]; [by intros []%not_elem_of_nil|]. rewrite elem_of_cons. cbn [from].
  case_decide; [subst; by eexists|]. intros [?|?]; [congruence|auto].
Qed.
Lemma delay_entry now i d q : i ∈ readyList q → (i < length (entries q))%nat → Mshr.readyTime (entry q i) ≤ now →
  delay now i d q = Ok (set_entry i (Mshr.set_order (Mshr.order (entry q i)) (now + d) (entry q i)) q).
Proof.
  intros Hr Hlt Ht. unfold delay, Mshr.MSHR_delay. rewrite (proj2 (Z.leb_le _ _) Ht). cbn [assertb mbind res_bind].
  destruct (from_head i (readyList q) Hr) as (l' & Hl). cbn [readyList set_entry]. rewrite Hl. cbn [find_if].
  rewrite entry_set, decide_True by done. rewrite Z.leb_refl. unfold splice_before. rewrite decide_True by done.
  by destruct q.
Qed.
Lemma delay_ok n now i d q : ok n q → can n (QDelay now i d) q → ∃ q', delay now i d q = Ok q' ∧ ok n q'.
Proof.
  intros Hq [Hr Ht]. pose proof (proj1 (v_ready _ _ _ Hq i) Hr) as [Hi _].
  rewrite delay_entry by (try done; by apply (used_below _ _ q i Hq)). eexists. split; [done|]. apply update_ok; try done.
  destruct (v_used _ _ _ Hq i Hi). by split.
Qed.

Lemma queue_issue_ok n i pm q : ok n q → i ∈ readyList q → ∃ q', markInService i pm q = Ok q' ∧ ok n q'.
Proof.
  intros Hq Hr. pose proof (proj1 (v_ready _ _ _ Hq i) Hr) as [Hi Hs]. unfold markInService.
  destruct (Mshr.mshr_issue_ok n pm (entry q i)) as (m & calls & Hm & Hw & _); [by apply (v_used _ _ _ Hq)|done|].
  rewrite Hm. cbn [mbind res_bind]. eexists. split; [done|].
  apply (sent_ok (Mshr.wf n) free_register i m q); try done. cbn.
  unfold Mshr.MSHR_markInService in Hm. destruct (Mshr.downstreamPending _); inv_ok; done.
Qed.

(** The end of a register's response: it waits again, or it is freed. *)
Lemma done_ok n now i m q : 0 < n → ok n q → i ∈ allocatedList q → Mshr.between n m →
  Mshr.inService m = Mshr.inService (entry q i) →
  ∃ again m', Mshr.promoteDeferredTargets now m = Ok (again, m') ∧
    if again : bool then Mshr.wf n (Mshr.set_service false m') ∧ Mshr.inService m' = Mshr.inService (entry q i)
    else ∃ q', deallocate i (set_entry i m' q) = Ok q' ∧ ok n q'.
Proof.
  intros Hn Hq Hi Hb Hs. destruct (Mshr.promoteDeferred_ok n now m Hn Hb) as [(Ht & Hd & ->)|(m' & -> & Hs' & Hw & _)].
  - exists false, m. split; [done|]. destruct (Mshr.mshr_deallocate_ok n m Hb Ht Hd) as (m' & Hm & ? & ?).
    by apply (queue_deallocate_ok (Mshr.wf n) free_register i m m' q).
  - exists true, m'. split; [done|]. split; [done|congruence].
Qed.

Lemma queue_respond_ok n now i p q : 0 < n → ok n q → i ∈ allocatedList q → Mshr.inService (entry q i) = true →
  ∃ out q', respond now i p q = Ok (out, q') ∧ ok n q'.
Proof.
  intros Hn Hq Hi Hs. unfold respond.
  destruct (Mshr.extract_ok n p (entry q i) Hn (v_used _ _ _ Hq i Hi) Hs) as (ready & m & -> & Hb & Hs' & _).
  cbn [mbind res_bind]. destruct (done_ok n now i m q Hn Hq Hi Hb) as (again & m' & -> & Hend); [congruence|].
  cbn [mbind res_bind]. destruct again.
  - destruct Hend as [Hw Hser]. destruct (used_below _ _ q i Hq Hi) as [Hlt _]. unfold markPending.
    rewrite entry_set, decide_True by done. unfold Mshr.markPending. rewrite Hser, Hs. cbn [assertb mbind res_bind].
    match goal with |- context [addToReadyList i ?q1] => destruct (add_ready_ok i q1) as (l & -> & Hl) end.
    cbn [mbind res_bind]. eexists _, _. split; [done|].
    replace (set_entry i (Mshr.set_service false m') (set_entry i m' q)) with (set_entry i (Mshr.set_service false m') q).
    + by apply (again_ok (Mshr.wf n) free_register i (Mshr.set_service false m') q).
    + unfold set_entry. cbn. by rewrite list_insert_insert_eq.
  - destruct Hend as (q' & -> & ?). cbn [mbind res_bind]. by eexists _, _.
Qed.

Lemma force_ok n now i q : 0 < n → ok n q → can n (QForce now i) q →
  ∃ r q', forceDeallocateTarget now i q = Ok (r, q') ∧ ok n q'.
Proof.
  intros Hn Hq [Hr Hone]. pose proof (proj1 (v_ready _ _ _ Hq i) Hr) as [Hi Hs]. unfold forceDeallocateTarget.
  unfold Mshr.hasTargets, Mshr.popTarget. destruct (Mshr.items (Mshr.targets (entry q i))) as [|x [|]] eqn:Hitems; try done.
  cbn [assertb mbind res_bind]. set (m := Mshr.set_lists _ _ _).
  assert (Mshr.between n m) as Hb.
  { destruct (v_used _ _ _ Hq i Hi) as [? [? _] ? ? ? ? ? ?]. split; try done; constructor; done || constructor. }
  cbn [Mshr.targets Mshr.set_lists Mshr.items Mshr.set_items m].
  destruct (done_ok n now i m q Hn Hq Hi Hb) as (again & m' & -> & Hend); [done|]. cbn [mbind res_bind]. destruct again.
  - destruct Hend as [Hw Hser]. cbn [mbind res_bind]. eexists _, _. split; [done|]. cbn in Hs.
    apply update_ok; try done. rewrite Hs in Hser. by destruct m'; cbn in Hser; subst.
  - destruct Hend as (q' & -> & ?). cbn [mbind res_bind]. by eexists _, _.
Qed.

(** The next operation calls [promoteWritable] where it fails. *)
Definition stuck (l : list op) (q : MSHRs) : Prop :=
  ∃ i l', l = QEvent i Mshr.Writable :: l' ∧ Mshr.blocked (entry q i).
Lemma stuck_dec o l q : stuck (o :: l) q ∨ ∀ i e, o = QEvent i e → ¬ (e = Mshr.Writable ∧ Mshr.blocked (entry q i)).
Proof.
  destruct o as [|i e| | | | |]; try (right; by intros ? ? [=]).
  destruct (Mshr.blocked_dec e (entry q i)) as [[-> Hb]|Hb]; [left; by eexists _, _|right; by intros ? ? [= <- <-]].
Qed.

Lemma queue_exec_ok n o q : 0 < n → ok n q → can n o q →
  (∀ i e, o = QEvent i e → ¬ (e = Mshr.Writable ∧ Mshr.blocked (entry q i))) → ∃ q', exec n o q = Ok q' ∧ ok n q'.
Proof.
  intros Hn Hq Hc Hb. destruct o; cbn [exec].
  - destruct Hc as [Hp Hlt]. unfold MSHRQueue_allocate.
    match goal with |- context [allocate_with ?f q] =>
      destruct (allocate_with_ok (Mshr.wf n) free_register f q) as (i & q' & -> & ?); [done|done| | |] end.
    + intros m [Ht Hd]. cbn. unfold Mshr.getNumTargets. by rewrite Ht, Hd.
    + intros m [Ht Hd].
      edestruct (Mshr.mshr_allocate_ok n) as (m' & calls & Ha & Hw & _); [exact Hn|exact Hp|exact Ht|exact Hd|].
      rewrite Ha. cbn [mbind res_bind]. eexists. split; [done|]. split; [done|].
      unfold Mshr.MSHR_allocate in Ha. inv_ok. by destruct a; inv_ok.
    + cbn [mbind res_bind]. by eexists.
  - destruct Hc as (Hi & Hquiet & He). apply (queue_event_ok n i e q); auto.
  - by apply front_ok.
  - by apply delay_ok.
  - by apply queue_issue_ok.
  - destruct Hc as [Hi Hs]. destruct (queue_respond_ok n now i p q Hn Hq Hi Hs) as (out & q' & -> & ?). by eexists.
  - destruct (force_ok n now i q Hn Hq Hc) as (r & q' & -> & ?). by eexists.
Qed.
Definition is_writable (o : op) : bool := match o with QEvent _ Mshr.Writable => true | _ => false end.
Lemma exec_all_ok n l q : 0 < n → ok n q → admissible n l q →
  ∃ l1 l2 q', l = l1 ++ l2 ∧ exec_all n l1 q = Ok q' ∧ ok n q' ∧ (l2 = [] ∨ stuck l2 q').
Proof.
  intros Hn. revert q. induction l as [|o l IH]; intros q Hq; [exists [], [], q; auto|]. intros [Hc Hl].
  destruct (stuck_dec o l q) as [Hs|Hs]; [exists [], (o :: l), q; auto|].
  destruct (queue_exec_ok n o q Hn Hq Hc Hs) as (q' & He & Hq'). rewrite He in Hl.
  destruct (IH q' Hq' Hl) as (l1 & l2 & q2 & -> & Hr & H2 & Hend). exists (o :: l1), l2, q2. cbn [exec_all]. by rewrite He.
Qed.

Lemma exec_all_end n l q : 0 < n → ok n q → admissible n l q → existsb is_writable l = false →
  ∃ q', exec_all n l q = Ok q' ∧ ok n q'.
Proof.
  intros Hn Hq Hl Hw. destruct (exec_all_ok n l q Hn Hq Hl) as (l1 & l2 & q' & -> & He & Hq' & [->|(i & l3 & -> & _)]).
  - exists q'. by rewrite app_nil_r.
  - rewrite existsb_app in Hw. cbn in Hw. by rewrite orb_true_r in Hw.
Qed.

(** What a lookup looks for. *)
Definition matches (q : MSHRs) (a : Z) (s u : bool) (i : nat) : Prop :=
  Mshr.blkAddr (entry q i) = a ∧ Mshr.isSecure (entry q i) = s ∧ (u = true → Mshr.isUncacheable (entry q i) = false).

(** No entry a lookup visits is without targets. *)
Lemma find_match_ok n q a s u l : (∀ i, i ∈ l → Mshr.wf n (entry q i)) →
  ∃ r, find_match q a s u l = Ok r ∧ (∀ i, r = Some i → i ∈ l ∧ matches q a s u i) ∧
    (r = None → ∀ i, i ∈ l → ¬ matches q a s u i).
Proof.
  induction l as [|j l IH]; intros Hl. { eexists. split; [done|]. split; [done|]. intros _ i Hi. by apply not_elem_of_nil in Hi. }
  cbn [find_match]. destruct IH as (r & Hr & Hf & Hno). { intros i Hi. apply Hl. by right. }
  assert (∃ b, (if u && qe_isUncacheable (entry q j) then Ok false else qe_matchBlockAddr a s (entry q j)) = Ok b ∧
    (b = true ↔ matches q a s u j)) as (b & -> & Hb).
  { unfold matches. cbn. unfold Mshr.matchBlockAddr, Mshr.hasTargets.
    pose proof (Mshr.wf_led _ _ (Hl j ltac:(by left))) as Hled. destruct (Mshr.items _); [done|]. cbn [assertb mbind res_bind].
    destruct (u && Mshr.isUncacheable (entry q j)) eqn:Hu; eexists; (split; [done|]).
    - apply andb_prop in Hu as [-> ->]. naive_solver.
    - rewrite andb_true_iff, Z.eqb_eq, eqb_true_iff. destruct u, (Mshr.isUncacheable (entry q j)); naive_solver. }
  cbn [mbind res_bind]. destruct b.
  - eexists. split; [done|]. split; [|done]. intros i [= <-]. split; [by left|by apply Hb].
  - exists r. split; [done|]. split; [intros i Hi; destruct (Hf i Hi); split; [by right|done]|].
    intros Hn i [->|Hi]%elem_of_cons; [by intros ?%Hb|by apply Hno].
Qed.

(** The lists of the queue, its counters and its registers agree. *)
Record consistent (q : MSHRs) : Prop := {
  cs_lists : freeList q ++ allocatedList q ≡ₚ seq 0 (Z.to_nat (numEntries q));
  cs_once : NoDup (readyList q);
  cs_ready i : i ∈ readyList q ↔ i ∈ allocatedList q ∧ Mshr.inService (entry q i) = false;
  cs_allocated : allocated q = Z.of_nat (length (allocatedList q));
  cs_sent : _numInService q = allocated q - Z.of_nat (length (readyList q));
  cs_free i : i ∈ freeList q → Mshr.getNumTargets (entry q i) = O;
  cs_used i : i ∈ allocatedList q → Mshr.hasTargets (entry q i) = true }.
Lemma ok_consistent n q : ok n q → consistent q.
Proof.
  intros []. split; try done.
  - apply NoDup_Permutation; [done|apply NoDup_seq|]. intros i. rewrite v_all0, elem_of_seq. lia.
  - intros i Hi. destruct (v_free0 i Hi) as [Ht Hd]. unfold Mshr.getNumTargets. by rewrite Ht, Hd.
  - intros i Hi. pose proof (Mshr.wf_led _ _ (v_used0 i Hi)) as Hled. unfold Mshr.hasTargets. by destruct (Mshr.items _).
Qed.

(** ** The writes in use *)
Definition one_write (n : Z) (e : WriteQueueEntry) : Prop :=
  w_inService e = false ∧ ∃ x, w_targets e = [x].
Definition no_write (e : WriteQueueEntry) : Prop := w_targets e = [].
(** A write the cache may queue: uncacheable, evicted, or cleaned. *)
Definition queueable (p : Packet) : bool :=
  let unc := SF.req_isUncacheable (req p) in
  (isWrite (cmd p) && unc) || (isEviction (cmd p) && negb unc) || bool_decide (cmd p = WriteClean).

Lemma write_allocate_ok n a p t o q : inv (one_write n) no_write q → allocated q < numEntries q → queueable p = true →
  ∃ i q', WriteQueue_allocate a n p t o q = Ok (i, q') ∧ inv (one_write n) no_write q'.
Proof.
  intros Hq Hlt Hp. unfold WriteQueue_allocate. apply allocate_with_ok; try done.
  - intros e He. cbn. by rewrite He.
  - intros e He. unfold WriteQueueEntry_allocate, w_hasTargets. unfold no_write in He. rewrite He, andb_false_r. unfold queueable in Hp. rewrite Hp.
    cbn [negb panic_if mbind res_bind app wt_pkt]. unfold PQ.matchBlockAddr_pkt, Pkt.matchBlockAddr.
    rewrite Z.eqb_refl, eqb_reflx. cbn [andb assertb mbind res_bind]. eexists. split; [done|]. split; [|done].
    split; [done|]. by eexists.
Qed.
(** A write leaves the queue when it is sent. *)
Lemma write_sent_ok n i q : inv (one_write n) no_write q → i ∈ readyList q →
  ∃ q', WriteQueue_markInService i q = Ok q' ∧ inv (one_write n) no_write q'.
Proof.
  intros Hq Hr. pose proof (proj1 (v_ready _ _ _ Hq i) Hr) as [Hi _]. destruct (v_used _ _ _ Hq i Hi) as [Hs (x & Hx)].
  unfold WriteQueue_markInService, WriteQueueEntry_popTarget. rewrite Hx. cbn [mbind res_bind].
  eapply (queue_deallocate_ok (one_write n)); [done|done|done|done|done].
Qed.

(** C16: The lists of the queue of miss registers stay consistent.  Take any
    sequence of allocations, events of the registers, moves, delays, sends,
    responses and squashed prefetches that the cache may perform: a register
    is allocated when one is left, only ready registers are sent and delayed,
    only those in service are answered, each register sees the events of its
    protocol, and a squashed prefetch is alone in its register.  It runs to
    its end without failing an assertion, or up to a call of [promoteWritable]
    on a register where that fails.  Up to there every entry is on exactly one of the
    free and the allocated list, the ready list holds exactly the allocated
    registers whose request is not in service, the two counters count them,
    allocated registers have targets and free ones none; and a lookup by
    block address returns an allocated register of that block, passing over
    uncacheable ones when told to, if and only if there is one. *)
Theorem mshr_queue_consistent n num_entries reserve l : 0 < n → 0 ≤ num_entries + reserve →
  admissible n l (Queue_new num_entries reserve) →
  ∃ l1 l2 q, l = l1 ++ l2 ∧ exec_all n l1 (Queue_new num_entries reserve) = Ok q ∧
    (l2 = [] ∨ ∃ i l3, l2 = QEvent i Mshr.Writable :: l3 ∧ Mshr.blocked (entry q i)) ∧ consistent q ∧
    ∀ a s u, ∃ r, findMatch a s u q = Ok r ∧ (∀ i, r = Some i → i ∈ allocatedList q ∧ matches q a s u i) ∧
      (r = None → ∀ i, i ∈ allocatedList q → ¬ matches q a s u i).
Proof.
  intros Hn Hsz Hl. destruct (exec_all_ok n l (Queue_new num_entries reserve)) as (l1 & l2 & q & -> & He & Hq & Hs); [done| |done|].
  { by apply new_ok. }
  exists l1, l2, q. do 3 (split; [done|]). split; [by apply (ok_consistent n)|].
  intros a s u. apply (find_match_ok n). exact (v_used _ _ _ Hq).
Qed.

(** Two registers: a read and a write miss; the read is delayed and moved to
    the front, sent, gets a second target, and is answered; the write is sent
    and a prefetch squashed. *)
Definition w_ops : list op :=
  [QAllocate 0x1000 Mshr.w_read None 5 0 true; QAllocate 0x1000 (Mshr.w_pkt HardPFReq 0 None) None 6 1 true;
   QDelay 7 0 10; QFront 1; QFront 0; QIssue 0 false; QEvent 0 (Mshr.Arrive Mshr.w_write None 8 2 true);
   QRespond 20 0 (Mshr.w_pkt ReadResp 0 None); QForce 21 1; QIssue 0 false].
Lemma mshr_queue_consistent_witness :
  ∃ q, exec_all 64 w_ops (Queue_new 2 1) = Ok q ∧ consistent q.
Proof.
  destruct (mshr_queue_consistent 64 2 1 w_ops) as (l1 & l2 & q & Hl & Hq & Hs & Hc & _); [lia|lia| |].
  - vm_compute. repeat (split || discriminate || done || left || right || constructor).
  - assert (l2 = []) as ->.
    { destruct Hs as [?|(i & l3 & -> & _)]; [done|]. exfalso.
      assert (QEvent i Mshr.Writable ∈ w_ops) as Hin by (rewrite Hl; set_solver). unfold w_ops in Hin. set_solver. }
    rewrite app_nil_r in Hl. subst l1. exists q. split; [exact Hq|exact Hc].
Defined.

(** C39: A delayed register blocks the queue.  [MSHRQueue::delay] is documented
    to move the registers that are ready earlier before the delayed one, but
    its search starts at the register itself and stops there: the ready list
    is unchanged, and while the first register is delayed the queue offers no
    register at all, whichever others are ready. *)
Theorem delay_blocks_queue n now i d l q : inv (Mshr.wf n) free_register q → readyList q = i :: l →
  Mshr.readyTime (entry q i) ≤ now → 0 < d →
  ∃ q', delay now i d q = Ok q' ∧ readyList q' = readyList q ∧
    (∀ j, j ≠ i → entry q' j = entry q j) ∧ ∀ t, now ≤ t < now + d → getNext t q' = None.
Proof.
  intros Hq Hl Ht Hd. assert (i ∈ readyList q) as Hr by (rewrite Hl; by left).
  pose proof (proj1 (v_ready _ _ _ Hq i) Hr) as [Hi _]. destruct (used_below _ _ q i Hq Hi) as [Hlt _].
  eexists. rewrite delay_entry by done. split; [done|]. split; [done|].
  split; [intros j Hj; by rewrite entry_set, decide_False by done|].
  intros t Htt. unfold getNext. cbn [readyList set_entry]. rewrite Hl, entry_set, decide_True by done. cbn.
  by rewrite (proj2 (Z.ltb_lt _ _)) by lia.
Qed.

Definition w_two : list op :=
  [QAllocate 0x1000 Mshr.w_read None 5 0 true; QAllocate 0x2000 Mshr.w_read None 6 1 true].
Definition w_queue : MSHRs := match exec_all 64 w_two (Queue_new 2 1) with Ok q => q | Err _ => Queue_new 0 0 end.
Lemma w_queue_ok : inv (Mshr.wf 64) free_register w_queue.
Proof.
  destruct (exec_all_end 64 w_two (Queue_new 2 1)) as (q & Hq & Hok); [lia|by apply new_ok| |done|].
  - vm_compute. repeat (split || discriminate || constructor).
  - unfold w_queue. rewrite Hq. exact Hok.
Qed.
Lemma delay_blocks_queue_witness :
  readyList w_queue = [0; 1]%nat ∧ Mshr.readyTime (entry w_queue 1) = 6 ∧
  ∃ q', delay 10 0 100 w_queue = Ok q' ∧ entry q' 1 = entry w_queue 1 ∧ getNext 50 q' = None.
Proof.
  split; [by vm_compute|]. split; [by vm_compute|].
  destruct (delay_blocks_queue 64 10 0 100 [1%nat] w_queue w_queue_ok) as (q' & Hq & _ & He & Hn);
    [by vm_compute|by vm_compute|lia|].
  exists q'. split; [exact Hq|]. split; [apply He; lia|apply Hn; lia].
Defined.
End CQ.
