(* ===== verification/FaLru.v ===== *)
(** * Fully associative tags with LRU replacement ([mem/cache/tags/fa_lru.cc],
      [mem/cache/tags/fa_lru.hh])

    The blocks are linked through pointers in the order of their last use,
    and found through a hash table.  Along the list the tags keep the
    boundaries of smaller caches, to count hits for all of them at once.  A
    pointer to a block is its index in [blks]; dereferencing a null pointer
    is undefined.  The data of the blocks is that of their index. *)

From S2P Require Import Prelude.
From S2P Require Import Intmath.
From S2P Require Import Bitfield.
From S2P Require Import Packet.
From S2P Require Import RpBase.
From S2P Require Import CacheBlk.
From S2P Require Import CacheTags.

Module FA.
Import RpBase Blk.

(** ** Data *)
Record FALRUBlk := mkFALRUBlk { fblk : CacheBlk; prev : option nat; next : option nat; inCachesMask : Z }.
Definition FALRUBlk_new : FALRUBlk := mkFALRUBlk CacheBlk_new None None 0.
Definition set_fblk (c : CacheBlk) (b : FALRUBlk) : FALRUBlk := mkFALRUBlk c (prev b) (next b) (inCachesMask b).
Definition set_prev (p : option nat) (b : FALRUBlk) : FALRUBlk := mkFALRUBlk (fblk b) p (next b) (inCachesMask b).
Definition set_next (p : option nat) (b : FALRUBlk) : FALRUBlk := mkFALRUBlk (fblk b) (prev b) p (inCachesMask b).
Definition set_mask (m : Z) (b : FALRUBlk) : FALRUBlk := mkFALRUBlk (fblk b) (prev b) (next b) m.

Record CacheTracking := mkTracking {
  ct_blkSize : Z;
  minTrackedSize : Z;
  numTrackedCaches : nat;
  inAllCachesMask : Z;
  boundaries : list (option nat);
  hits : list Z;
  misses : list Z;
  accesses : Z }.
Definition set_boundaries (l : list (option nat)) (c : CacheTracking) : CacheTracking :=
  mkTracking (ct_blkSize c) (minTrackedSize c) (numTrackedCaches c) (inAllCachesMask c) l (hits c) (misses c) (accesses c).

Record FALRU := mkFALRU {
  cfg : Tags.config;
  warmedUp : bool;
  st : Tags.stats;
  blks : list FALRUBlk;
  head : nat;
  tail : nat;
  tagHash : gmap (Z * bool) nat;
  cacheTracking : CacheTracking }.
Definition set_blks (l : list FALRUBlk) (t : FALRU) : FALRU :=
  mkFALRU (cfg t) (warmedUp t) (st t) l (head t) (tail t) (tagHash t) (cacheTracking t).
Definition set_ends (h l : nat) (t : FALRU) : FALRU :=
  mkFALRU (cfg t) (warmedUp t) (st t) (blks t) h l (tagHash t) (cacheTracking t).
Definition set_hash (m : gmap (Z * bool) nat) (t : FALRU) : FALRU :=
  mkFALRU (cfg t) (warmedUp t) (st t) (blks t) (head t) (tail t) m (cacheTracking t).
Definition set_tracking (c : CacheTracking) (t : FALRU) : FALRU :=
  mkFALRU (cfg t) (warmedUp t) (st t) (blks t) (head t) (tail t) (tagHash t) c.
Definition set_stats (w : bool) (s : Tags.stats) (t : FALRU) : FALRU :=
  mkFALRU (cfg t) w s (blks t) (head t) (tail t) (tagHash t) (cacheTracking t).
Definition set_inUse (k : Z) (t : FALRU) : FALRU :=
  let s := st t in
  set_stats (warmedUp t) (Tags.mkStats k (Tags.tagAccesses s) (Tags.dataAccesses s) (Tags.totalRefs s)
    (Tags.sampledRefs s) (Tags.warmupCycle s) (Tags.occupancies s)) t.

(** Through a pointer. *)
Definition deref (p : option nat) : res nat := match p with Some y => Ok y | None => Err Undef end.

(** ** Tracking *)
Definition CacheTracking_new (min_size max_size block_size : Z) : res CacheTracking :=
  n ← (if min_size <? max_size then a ← floorLog2 4 max_size; b ← floorLog2 4 min_size; Ok (a - b) else Ok 0);
  fatal_if (32 <? n);;
  let k := Z.to_nat n in
  let z := replicate (k + 1) 0 in
  Ok (mkTracking block_size min_size k (u32 (mask n)) (replicate k None) z z 0).

Definition bit (i : nat) : Z := u32 (Z.shiftl 1 (Z.of_nat i)).
Definition clear (m c : Z) : Z := Z.land m (u32 (Z.lnot c)).

(** The walk of [init] from a block on. *)
Fixpoint init_loop (fuel : nat) (blk : option nat) (tail : nat) (curr_size tracked_cache_size in_caches_mask : Z) (j : nat)
    (c : CacheTracking) (bs : list FALRUBlk) : res (CacheTracking * list FALRUBlk) :=
  match fuel, blk with
  | _, None => Ok (c, bs)
  | O, Some _ => Err Diverge
  | S fuel, Some y =>
      b ← get bs y;
      let bs := <[y := set_mask in_caches_mask b]> bs in
      let curr_size := u32 (curr_size + ct_blkSize c) in
      if (curr_size =? tracked_cache_size) && negb (bool_decide (y = tail)) then
        l ← upd (boundaries c) j (λ _, Some y);
        init_loop fuel (next b) tail curr_size (u32 (Z.shiftl tracked_cache_size 1)) (clear in_caches_mask (bit j)) (S j)
          (set_boundaries l c) bs
      else init_loop fuel (next b) tail curr_size tracked_cache_size in_caches_mask j c bs
  end.
Definition CacheTracking_init (head tail : nat) (c : CacheTracking) (bs : list FALRUBlk)
    : res (CacheTracking * list FALRUBlk) :=
  let blk := match numTrackedCaches c with O => None | _ => Some head end in
  init_loop (length bs) blk tail 0 (minTrackedSize c) (inAllCachesMask c) 0 c bs.

(** The walk of [check], which the code compiles in for debugging only. *)
Fixpoint check_loop (fuel : nat) (blk : option nat) (tail : nat) (curr_size tracked_cache_size in_caches_mask : Z) (j : nat)
    (c : CacheTracking) (bs : list FALRUBlk) : res unit :=
  match fuel, blk with
  | _, None => Ok ()
  | O, Some _ => Err Diverge
  | S fuel, Some y =>
      b ← get bs y;
      panic_if (negb (inCachesMask b =? in_caches_mask));;
      let curr_size := u32 (curr_size + ct_blkSize c) in
      if (curr_size =? tracked_cache_size) && negb (bool_decide (y = tail)) then
        x ← get (boundaries c) j;
        panic_if (negb (bool_decide (x = Some y)));;
        check_loop fuel (next b) tail curr_size (u32 (Z.shiftl tracked_cache_size 1)) (clear in_caches_mask (bit j)) (S j) c bs
      else check_loop fuel (next b) tail curr_size tracked_cache_size in_caches_mask j c bs
  end.
Definition check (head tail : nat) (c : CacheTracking) (bs : list FALRUBlk) : res unit :=
  check_loop (length bs) (Some head) tail 0 (minTrackedSize c) (inAllCachesMask c) 0 c bs.

(** The loops of [moveBlockToHead] and [moveBlockToTail] over the caches from
    the [i]-th on. *)
Fixpoint to_head_loop (n i : nat) (blk : nat) (update_caches_mask : Z) (l : list (option nat)) (bs : list FALRUBlk)
    : res (list (option nat) * list FALRUBlk) :=
  match n with
  | O => Ok (l, bs)
  | S n =>
      x ← get l i;
      if negb (Z.land (bit i) update_caches_mask =? 0) then
        y ← deref x;
        b ← get bs y;
        to_head_loop n (S i) blk update_caches_mask (<[i := prev b]> l)
          (<[y := set_mask (clear (inCachesMask b) (bit i)) b]> bs)
      else if bool_decide (x = Some blk) then
        b ← get bs blk;
        to_head_loop n (S i) blk update_caches_mask (<[i := prev b]> l) bs
      else to_head_loop n (S i) blk update_caches_mask l bs
  end.
Definition moveBlockToHead (blk : nat) (c : CacheTracking) (bs : list FALRUBlk) : res (CacheTracking * list FALRUBlk) :=
  b ← get bs blk;
  let update_caches_mask := Z.lxor (inAllCachesMask c) (inCachesMask b) in
  '(l, bs) ← to_head_loop (numTrackedCaches c) 0 blk update_caches_mask (boundaries c) bs;
  bs ← upd bs blk (set_mask (inAllCachesMask c));
  Ok (set_boundaries l c, bs).

Fixpoint to_tail_loop (n i : nat) (blk : nat) (update_caches_mask : Z) (l : list (option nat)) (bs : list FALRUBlk)
    : res (list (option nat) * list FALRUBlk) :=
  match n with
  | O => Ok (l, bs)
  | S n =>
      if negb (Z.land (bit i) update_caches_mask =? 0) then
        x ← get l i;
        y ← deref x;
        b ← get bs y;
        p ← (if bool_decide (next b = Some blk) then b ← get bs blk; Ok (next b) else Ok (next b));
        y ← deref p;
        bs ← upd bs y (λ b, set_mask (Z.lor (inCachesMask b) (bit i)) b);
        to_tail_loop n (S i) blk update_caches_mask (<[i := p]> l) bs
      else to_tail_loop n (S i) blk update_caches_mask l bs
  end.
Definition moveBlockToTail (blk : nat) (c : CacheTracking) (bs : list FALRUBlk) : res (CacheTracking * list FALRUBlk) :=
  b ← get bs blk;
  '(l, bs) ← to_tail_loop (numTrackedCaches c) 0 blk (inCachesMask b) (boundaries c) bs;
  bs ← upd bs blk (set_mask 0);
  Ok (set_boundaries l c, bs).

(** One more hit or miss in the [i]-th cache. *)
Definition count (i : nat) (l : list Z) : list Z := alter (λ k, k + 1) i l.
Fixpoint record_loop (n i : nat) (b : option FALRUBlk) (c : CacheTracking) : CacheTracking :=
  match n with
  | O => c
  | S n =>
      let fits := match b with Some b => negb (Z.land (bit i) (inCachesMask b) =? 0) | None => false end in
      record_loop n (S i) b
        (mkTracking (ct_blkSize c) (minTrackedSize c) (numTrackedCaches c) (inAllCachesMask c) (boundaries c)
           (if fits then count i (hits c) else hits c) (if fits then misses c else count i (misses c)) (accesses c))
  end.
Definition recordAccess (b : option FALRUBlk) (c : CacheTracking) : CacheTracking :=
  let c := record_loop (numTrackedCaches c) 0 b c in
  let n := numTrackedCaches c in
  let hit := match b with Some b => isValid (fblk b) | None => false end in
  mkTracking (ct_blkSize c) (minTrackedSize c) n (inAllCachesMask c) (boundaries c)
    (if hit then count n (hits c) else hits c) (if hit then misses c else count n (misses c)) (accesses c + 1).

(** ** The tags *)
Definition FALRU_new (size block_size min_tracked lat warmup maxreq : Z) (seq : bool) : res FALRU :=
  (if block_size =? 0 then Err Undef else Ok ());;
  c ← CacheTracking_new (u32 min_tracked) (u32 size) (u32 block_size);
  fatal_if (negb (isPowerOf2 (u32 block_size)));;
  fatal_if (negb (isPowerOf2 (u32 size)));;
  let n := u32 (size / block_size) in
  Ok (mkFALRU (Tags.mkConfig (u32 block_size) lat warmup seq maxreq n) false (Tags.mkStats 0 0 0 0 0 0 (λ _, 0))
        (replicate (Z.to_nat n) FALRUBlk_new) 0 0 ∅ c).

(** The blocks linked in their order; with fewer than two the code writes
    past the array. *)
Definition link (n i : nat) (b : FALRUBlk) : FALRUBlk :=
  mkFALRUBlk (setPosition 0 (Z.of_nat i) (fblk b)) (match i with O => None | S k => Some k end)
    (if bool_decide (S i = n) then None else Some (S i)) (inCachesMask b).
Definition tagsInit (t : FALRU) : res FALRU :=
  let n := length (blks t) in
  if (n <? 2)%nat then Err Undef
  else
    let bs := imap (link n) (blks t) in
    let t := set_ends 0 (n - 1) t in
    '(c, bs) ← CacheTracking_init (head t) (tail t) (cacheTracking t) bs;
    Ok (set_tracking c (set_blks bs t)).

Definition extractTag (t : FALRU) (addr : Z) : Z := Tags.blkAlign (cfg t) addr.
Definition regenerateBlkAddr (t : FALRU) (e : nat) : res Z := b ← get (blks t) e; Ok (tag (fblk b)).

Definition findBlock (t : FALRU) (addr : Z) (is_secure : bool) : res (option nat) :=
  let tg := extractTag t addr in
  match tagHash t !! (tg, is_secure) with
  | None => Ok None
  | Some e =>
      b ← get (blks t) e;
      (if isValid (fblk b) then
         assertb (tag (fblk b) =? tg);; assertb (Bool.eqb (isSecure (fblk b)) is_secure)
       else Ok ());;
      Ok (Some e)
  end.
Definition findBlockBySetAndWay (t : FALRU) (set way : Z) : res nat :=
  assertb (set =? 0);;
  if (0 <=? way) && (way <? Z.of_nat (length (blks t))) then Ok (Z.to_nat way) else Err Undef.

(** Taking a block out of the chain, when it is not at the end to keep. *)
Definition unlink_inner (b : FALRUBlk) (bs : list FALRUBlk) : res (list FALRUBlk) :=
  p ← deref (prev b);
  bs ← upd bs p (set_next (next b));
  n ← deref (next b);
  upd bs n (set_prev (prev b)).
Definition moveToHead (e : nat) (t : FALRU) : res FALRU :=
  if bool_decide (e = head t) then Ok t
  else
    '(c, bs) ← moveBlockToHead e (cacheTracking t) (blks t);
    let t := set_tracking c (set_blks bs t) in
    b ← get (blks t) e;
    t ← (if bool_decide (e = tail t) then
           assertb (bool_decide (next b = None));;
           p ← deref (prev b);
           bs ← upd (blks t) p (set_next None);
           Ok (set_ends (head t) p (set_blks bs t))
         else bs ← unlink_inner b (blks t); Ok (set_blks bs t));
    bs ← upd (blks t) e (λ b, set_prev None (set_next (Some (head t)) b));
    bs ← upd bs (head t) (set_prev (Some e));
    Ok (set_ends e (tail t) (set_blks bs t)).
Definition moveToTail (e : nat) (t : FALRU) : res FALRU :=
  if bool_decide (e = tail t) then Ok t
  else
    '(c, bs) ← moveBlockToTail e (cacheTracking t) (blks t);
    let t := set_tracking c (set_blks bs t) in
    b ← get (blks t) e;
    t ← (if bool_decide (e = head t) then
           assertb (bool_decide (prev b = None));;
           n ← deref (next b);
           bs ← upd (blks t) n (set_prev None);
           Ok (set_ends n (tail t) (set_blks bs t))
         else bs ← unlink_inner b (blks t); Ok (set_blks bs t));
    bs ← upd (blks t) e (λ b, set_next None (set_prev (Some (tail t)) b));
    bs ← upd bs (tail t) (set_next (Some e));
    Ok (set_ends (head t) e (set_blks bs t)).

(** The block found, the mask of the caches that had it, and the latency. *)
Definition accessBlock (addr : Z) (is_secure : bool) (t : FALRU) : res (option nat * Z * Z * FALRU) :=
  blk ← findBlock t addr is_secure;
  '(m, t) ← match blk with
            | Some e =>
                b ← get (blks t) e;
                if isValid (fblk b) then t ← moveToHead e t; Ok (inCachesMask b, t) else Ok (0, t)
            | None => Ok (0, t)
            end;
  b ← match blk with Some e => b ← get (blks t) e; Ok (Some b) | None => Ok None end;
  let t := set_tracking (recordAccess b (cacheTracking t)) t in
  Ok (blk, m, Tags.lookupLatency (cfg t), t).

Definition findVictim (t : FALRU) : nat := tail t.

(** [BaseTags::insertBlock] and [BaseTags::invalidate] on these blocks. *)
Definition base_insertBlock (w : env) (p : Pkt.Packet) (requestor_id task : Z) (e : nat) (t : FALRU) : res FALRU :=
  b ← get (blks t) e;
  assertb (negb (isValid (fblk b)));;
  assertb (requestor_id <? Tags.maxRequestors (cfg t));;
  let s := st t in
  let occ := λ r, if r =? requestor_id then Tags.occupancies s r + 1 else Tags.occupancies s r in
  c ← insert (curTick w) (extractTag t (Pkt.addr p)) (Pkt.secure p) requestor_id task (fblk b);
  let warm := negb (warmedUp t) && (Tags.warmupBound (cfg t) <=? Tags.tagsInUse s) in
  let s := Tags.mkStats (Tags.tagsInUse s) (Tags.tagAccesses s + 1) (Tags.dataAccesses s + 1) (Tags.totalRefs s)
             (Tags.sampledRefs s) (if warm then curTick w else Tags.warmupCycle s) occ in
  Ok (set_stats (warm || warmedUp t) s (set_blks (<[e := set_fblk c b]> (blks t)) t)).
Definition base_invalidate (e : nat) (t : FALRU) : res FALRU :=
  b ← get (blks t) e;
  assertb (isValid (fblk b));;
  let s := st t in
  let r := srcRequestorId (fblk b) in
  let occ := λ x, if x =? r then Tags.occupancies s x - 1 else Tags.occupancies s x in
  let s := Tags.mkStats (Tags.tagsInUse s) (Tags.tagAccesses s) (Tags.dataAccesses s)
             (Tags.totalRefs s + refCount (fblk b)) (Tags.sampledRefs s + 1) (Tags.warmupCycle s) occ in
  Ok (set_stats (warmedUp t) s (set_blks (<[e := set_fblk (Blk.invalidate (fblk b)) b]> (blks t)) t)).

Definition insertBlock (w : env) (p : Pkt.Packet) (requestor_id task : Z) (e : nat) (t : FALRU) : res FALRU :=
  b ← get (blks t) e;
  assertb (inCachesMask b =? 0);;
  t ← base_insertBlock w p requestor_id task e t;
  let t := set_inUse (Tags.tagsInUse (st t) + 1) t in
  t ← moveToHead e t;
  b ← get (blks t) e;
  Ok (set_hash (<[(tag (fblk b), isSecure (fblk b)) := e]> (tagHash t)) t).
Definition invalidate (e : nat) (t : FALRU) : res FALRU :=
  b ← get (blks t) e;
  let k := (tag (fblk b), isSecure (fblk b)) in
  assertb (bool_decide (is_Some (tagHash t !! k)));;
  let t := set_hash (delete k (tagHash t)) t in
  t ← base_invalidate e t;
  moveToTail e (set_inUse (Tags.tagsInUse (st t) - 1) t).

Definition forEachBlk (visitor : CacheBlk → res CacheBlk) (t : FALRU) : res FALRU :=
  bs ← mapM (λ b, c ← visitor (fblk b); Ok (set_fblk c b)) (blks t); Ok (set_blks bs t).
Definition anyBlk (visitor : CacheBlk → bool) (t : FALRU) : bool := existsb (λ b, visitor (fblk b)) (blks t).
End FA.
