(* ===== verification/FaLruRun.v ===== *)
(** * Fully associative tags refine an LRU list

    The blocks linked through their pointers form a list, the boundaries and
    masks describe its first parts, and moving a block to either end keeps
    both (Module [FAL]); the tags then stand for an LRU list of block
    addresses (Module [FAR]). *)

From S2P Require Import Prelude.
From S2P Require Import Intmath.
From S2P Require Import Bitfield.
From S2P Require Import Packet.
From S2P Require Import RpBase.
From S2P Require Import CacheBlk.
From S2P Require Import CacheTags.
From S2P Require Import FaLru.

Module FAL.
Import RpBase Blk FA.

(** ** Linked segments *)
Definition links (bs : list FALRUBlk) (y : nat) : option (option nat * option nat) :=
  (λ b, (prev b, next b)) <$> bs !! y.
Definition masks (bs : list FALRUBlk) (y : nat) : option Z := inCachesMask <$> bs !! y.
Definition cores (bs : list FALRUBlk) (y : nat) : option CacheBlk := fblk <$> bs !! y.

Definition first_or (n : option nat) (l : list nat) : option nat := match l with [] => n | y :: _ => Some y end.
Definition last_or (p : option nat) (l : list nat) : option nat := match last l with Some y => Some y | None => p end.

(** The blocks of [l] in a chain that comes from [p] and goes on to [n]. *)
Fixpoint seg (bs : list FALRUBlk) (p : option nat) (l : list nat) (n : option nat) : Prop :=
  match l with
  | [] => True
  | x :: l => links bs x = Some (p, first_or n l) ∧ seg bs (Some x) l n
  end.

Lemma seg_app bs p l1 l2 n : seg bs p (l1 ++ l2) n ↔ seg bs p l1 (first_or n l2) ∧ seg bs (last_or p l1) l2 n.
Proof.
  revert p. induction l1 as [|x l1 IH]; intros p; cbn [app seg]; [naive_solver|]. rewrite IH.
  assert (last_or p (x :: l1) = last_or (Some x) l1) as ->.
  { unfold last_or. rewrite last_cons. by destruct (last l1). }
  assert (first_or n (l1 ++ l2) = first_or (first_or n l2) l1) as -> by (by destruct l1). naive_solver.
Qed.
Lemma seg_ext bs bs' p l n : (∀ y, y ∈ l → links bs' y = links bs y) → seg bs p l n → seg bs' p l n.
Proof.
  revert p. induction l as [|x l IH]; intros p He; cbn; [done|]. intros [Hx Hl]. split.
  - rewrite He by set_solver. done.
  - apply IH; [|done]. intros y Hy. apply He. set_solver.
Qed.
Lemma seg_lookup bs p l n j y : seg bs p l n → l !! j = Some y →
  links bs y = Some (match j with O => p | S i => l !! i end, match l !! S j with Some z => Some z | None => n end).
Proof.
  revert p j. induction l as [|x l IH]; intros p j; cbn [seg]; [done|]. intros [Hx Hl] Hj. destruct j as [|j]; cbn in Hj.
  - injection Hj as ->. rewrite Hx. by destruct l.
  - rewrite (IH _ _ Hl Hj). destruct j; [|done]. cbn. by destruct l.
Qed.

(** An update through a pointer. *)
Lemma fa_upd_ok bs y (f : FALRUBlk → FALRUBlk) b : bs !! y = Some b → upd bs y f = Ok (<[y := f b]> bs).
Proof. intros Hb. unfold upd, get. by rewrite Hb. Qed.
Lemma links_Some bs y pn : links bs y = Some pn → ∃ b, bs !! y = Some b ∧ prev b = pn.1 ∧ next b = pn.2.
Proof. unfold links. intros (b & Hb & ->)%fmap_Some. by exists b. Qed.
Lemma links_insert bs y b z : is_Some (bs !! y) →
  links (<[y := b]> bs) z = if decide (z = y) then Some (prev b, next b) else links bs z.
Proof.
  intros [? Hb%lookup_lt_Some]. unfold links. case_decide; [subst; by rewrite list_lookup_insert_eq|].
  by rewrite list_lookup_insert_ne by done.
Qed.

(** What an update of pointers leaves alone. *)
Definition relinked (bs bs' : list FALRUBlk) : Prop :=
  length bs' = length bs ∧ (∀ y, masks bs' y = masks bs y) ∧ (∀ y, cores bs' y = cores bs y).
Lemma relinked_refl bs : relinked bs bs.
Proof. done. Qed.
Lemma relinked_trans a b c : relinked a b → relinked b c → relinked a c.
Proof. intros (? & H1 & H2) (? & H3 & H4). split_and!; [congruence|intros; by rewrite H3|intros; by rewrite H4]. Qed.
Lemma relinked_insert bs y b b' : bs !! y = Some b → inCachesMask b' = inCachesMask b → fblk b' = fblk b →
  relinked bs (<[y := b']> bs).
Proof.
  intros Hb Hm Hc. pose proof (lookup_lt_Some _ _ _ Hb). split; [by rewrite length_insert|].
  split; intros z; unfold masks, cores; (destruct (decide (z = y)); [subst; rewrite list_lookup_insert_eq, Hb by done; cbn; congruence|
    by rewrite list_lookup_insert_ne]).
Qed.

(** The last and the first pointer of a segment. *)
Lemma set_last bs p l y n n' : NoDup (l ++ [y]) → seg bs p (l ++ [y]) n →
  ∃ bs', upd bs y (set_next n') = Ok bs' ∧ seg bs' p (l ++ [y]) n' ∧ relinked bs bs' ∧
    ∀ z, z ≠ y → links bs' z = links bs z.
Proof.
  intros Hd [Hl Hy]%seg_app. cbn in Hl, Hy. destruct Hy as [Hy _]. destruct (links_Some _ _ _ Hy) as (b & Hb & Hp & Hn).
  rewrite (fa_upd_ok _ _ _ _ Hb). eexists. split; [done|]. apply NoDup_app in Hd as (_ & Hd & _).
  split; [|split; [by apply (relinked_insert _ _ b)|intros z Hz; rewrite links_insert by done; by rewrite decide_False]].
  apply seg_app. split.
  - apply (seg_ext bs); [|done]. intros z Hz. rewrite links_insert by done. rewrite decide_False; [done|].
    intros ->. apply (Hd y Hz). set_solver.
  - cbn. split; [|done]. rewrite links_insert, decide_True by done. cbn. by rewrite Hp.
Qed.
Lemma set_first bs p y l n p' : NoDup (y :: l) → seg bs p (y :: l) n →
  ∃ bs', upd bs y (set_prev p') = Ok bs' ∧ seg bs' p' (y :: l) n ∧ relinked bs bs' ∧
    ∀ z, z ≠ y → links bs' z = links bs z.
Proof.
  intros [Hny _]%NoDup_cons [Hy Hl]. destruct (links_Some _ _ _ Hy) as (b & Hb & Hp & Hn).
  rewrite (fa_upd_ok _ _ _ _ Hb). eexists. split; [done|].
  split; [|split; [by apply (relinked_insert _ _ b)|intros z Hz; rewrite links_insert by done; by rewrite decide_False]].
  cbn [seg]. rewrite links_insert, decide_True by done. cbn. split; [by rewrite Hn|].
  apply (seg_ext bs); [|done]. intros z Hz. rewrite links_insert by done. rewrite decide_False; [done|]. by intros ->.
Qed.

Lemma relinked_some bs bs' y : relinked bs bs' → is_Some (bs !! y) → is_Some (bs' !! y).
Proof. intros (Hl & _) Hy%lookup_lt_is_Some. apply lookup_lt_is_Some. by rewrite Hl. Qed.

(** A block taken out of the middle of the chain. *)
Lemma unlink_ok bs l1 p x n l2 : NoDup ((l1 ++ [p]) ++ x :: n :: l2) → seg bs None ((l1 ++ [p]) ++ x :: n :: l2) None →
  ∃ b bs', bs !! x = Some b ∧ unlink_inner b bs = Ok bs' ∧ seg bs' None ((l1 ++ [p]) ++ n :: l2) None ∧ relinked bs bs'.
Proof.
  intros Hd Hs. apply seg_app in Hs as [H1 [Hx H2]]. cbn [first_or] in H1, Hx.
  assert (last_or None (l1 ++ [p]) = Some p) as Hlast by (unfold last_or; by rewrite last_snoc). rewrite Hlast in Hx.
  destruct (links_Some _ _ _ Hx) as (b & Hb & Hp & Hn). cbn in Hp, Hn. exists b. unfold unlink_inner. rewrite Hp, Hn. cbn.
  apply NoDup_app in Hd as (Hd1 & Hd12 & Hd2). apply NoDup_cons in Hd2 as [_ Hd2].
  destruct (set_last bs None l1 p (Some x) (Some n) Hd1 H1) as (bs1 & -> & Hs1 & Hr1 & He1). cbn [mbind res_bind].
  assert (seg bs1 (Some x) (n :: l2) None) as H2'.
  { apply (seg_ext bs); [|done]. intros y Hy. apply He1. intros ->. apply (Hd12 p); set_solver. }
  destruct (set_first bs1 (Some x) n l2 None (Some p) Hd2 H2') as (bs2 & -> & Hs2 & Hr2 & He2).
  exists bs2. split; [done|]. split; [done|]. split; [|by apply (relinked_trans _ bs1)].
  apply seg_app. rewrite Hlast. split; [|done]. apply (seg_ext bs1); [|done]. intros y Hy. apply He2. intros ->.
  apply (Hd12 n Hy). set_solver.
Qed.

(** A block put in front, or at the end. *)
Lemma push_front bs x h l : NoDup (x :: h :: l) → is_Some (bs !! x) → seg bs None (h :: l) None →
  ∃ bs1 bs2, upd bs x (λ b, set_prev None (set_next (Some h) b)) = Ok bs1 ∧ upd bs1 h (set_prev (Some x)) = Ok bs2 ∧
    seg bs2 None (x :: h :: l) None ∧ relinked bs bs2.
Proof.
  intros [Hx Hd]%NoDup_cons [b Hb] Hs. rewrite (fa_upd_ok _ _ _ _ Hb). eexists _. set (bs1 := <[x := _]> bs).
  assert (relinked bs bs1) as Hr by (by apply (relinked_insert _ _ b)).
  assert (seg bs1 None (h :: l) None) as Hs1.
  { apply (seg_ext bs); [|done]. intros y Hy. unfold bs1. rewrite links_insert by done. by rewrite decide_False by (by intros ->). }
  destruct (set_first bs1 None h l None (Some x) Hd Hs1) as (bs2 & -> & Hs2 & Hr2 & He2). exists bs2.
  split; [done|]. split; [done|]. split; [|by apply (relinked_trans _ bs1)]. cbn [seg first_or]. split; [|done].
  rewrite He2 by set_solver. unfold bs1. by rewrite links_insert, decide_True by done.
Qed.
Lemma push_back bs x l t : NoDup ((l ++ [t]) ++ [x]) → is_Some (bs !! x) → seg bs None (l ++ [t]) None →
  ∃ bs1 bs2, upd bs x (λ b, set_next None (set_prev (Some t) b)) = Ok bs1 ∧ upd bs1 t (set_next (Some x)) = Ok bs2 ∧
    seg bs2 None ((l ++ [t]) ++ [x]) None ∧ relinked bs bs2.
Proof.
  intros (Hd & Hx & _)%NoDup_app [b Hb] Hs. rewrite (fa_upd_ok _ _ _ _ Hb). eexists _. set (bs1 := <[x := _]> bs).
  assert (relinked bs bs1) as Hr by (by apply (relinked_insert _ _ b)).
  assert (x ∉ l ++ [t]) as Hnx by (intros Hin; apply (Hx x Hin); set_solver).
  assert (seg bs1 None (l ++ [t]) None) as Hs1.
  { apply (seg_ext bs); [|done]. intros y Hy. unfold bs1. rewrite links_insert by done. by rewrite decide_False by (by intros ->). }
  destruct (set_last bs1 None l t None (Some x) Hd Hs1) as (bs2 & -> & Hs2 & Hr2 & He2). exists bs2.
  split; [done|]. split; [done|]. split; [|by apply (relinked_trans _ bs1)]. apply seg_app. split; [done|].
  cbn [seg first_or]. split; [|done]. unfold last_or. rewrite last_snoc, He2 by set_solver. unfold bs1.
  by rewrite links_insert, decide_True by done.
Qed.
Lemma seg_prefix bs l x : seg bs None (l ++ [x]) None → NoDup (l ++ [x]) →
  match last l with
  | None => True
  | Some p => ∃ b bs', bs !! x = Some b ∧ next b = None ∧ prev b = Some p ∧ upd bs p (set_next None) = Ok bs' ∧
      seg bs' None l None ∧ relinked bs bs'
  end.
Proof.
  intros Hs Hd. destruct (last l) as [p|] eqn:Hl; [|done]. apply last_Some in Hl as (l0 & ->).
  apply seg_app in Hs as [H1 [Hx _]]. cbn in H1, Hx. unfold last_or in Hx. rewrite last_snoc in Hx.
  destruct (links_Some _ _ _ Hx) as (b & Hb & Hp & Hn). apply NoDup_app in Hd as (Hd & _ & _).
  destruct (set_last bs None l0 p (Some x) None Hd H1) as (bs' & Hu & Hs' & Hr & _). by exists b, bs'.
Qed.
Lemma seg_suffix bs x h l : seg bs None (x :: h :: l) None → NoDup (x :: h :: l) →
  ∃ b bs', bs !! x = Some b ∧ prev b = None ∧ next b = Some h ∧ upd bs h (set_prev None) = Ok bs' ∧
    seg bs' None (h :: l) None ∧ relinked bs bs'.
Proof.
  intros [Hx Hs] [_ Hd]%NoDup_cons. destruct (links_Some _ _ _ Hx) as (b & Hb & Hp & Hn).
  destruct (set_first bs (Some x) h l None None Hd Hs) as (bs' & Hu & Hs' & Hr & _). by exists b, bs'.
Qed.

(** ** Masks *)
Lemma bit_pow i : (i < 32)%nat → bit i = 2 ^ Z.of_nat i.
Proof.
  intros Hi. unfold bit, u32. rewrite Z.shiftl_1_l. apply Z.mod_small. split; [apply Z.pow_nonneg; lia|].
  apply Z.pow_lt_mono_r; lia.
Qed.
Lemma bit_test i m : (i < 32)%nat → negb (Z.land (bit i) m =? 0) = Z.testbit m (Z.of_nat i).
Proof.
  intros Hi. rewrite bit_pow by done. destruct (Z.testbit m (Z.of_nat i)) eqn:Ht.
  - apply negb_true_iff, Z.eqb_neq. intros He. apply (f_equal (λ z, Z.testbit z (Z.of_nat i))) in He.
    by rewrite Z.land_spec, Z.pow2_bits_true, Ht, Z.bits_0 in He by lia.
  - apply negb_false_iff, Z.eqb_eq. apply Z.bits_inj'. intros j Hj. rewrite Z.land_spec, Z.pow2_bits_eqb, Z.bits_0 by lia.
    destruct (Z.eqb_spec (Z.of_nat i) j); [subst; by rewrite Ht|done].
Qed.
Lemma clear_test i j m : (i < 32)%nat → (j < 32)%nat →
  Z.testbit (clear m (bit i)) (Z.of_nat j) = Z.testbit m (Z.of_nat j) && negb (bool_decide (j = i)).
Proof.
  intros Hi Hj. unfold clear, u32. rewrite bit_pow, Z.land_spec, Z.mod_pow2_bits_low, Z.lnot_spec, Z.pow2_bits_eqb by lia.
  f_equal. f_equal. case_bool_decide; [subst; by rewrite Z.eqb_refl|]. apply Z.eqb_neq. lia.
Qed.
Lemma clear_high i j m : (32 ≤ j)%nat → Z.testbit (clear m (bit i)) (Z.of_nat j) = false.
Proof. intros Hj. unfold clear, u32. rewrite Z.land_spec, Z.mod_pow2_bits_high, andb_false_r by lia. done. Qed.
Lemma clear_nonneg i m : 0 ≤ m → 0 ≤ clear m (bit i).
Proof. intros Hm. unfold clear. apply Z.land_nonneg. by left. Qed.
Lemma set_test i j m : (i < 32)%nat →
  Z.testbit (Z.lor m (bit i)) (Z.of_nat j) = Z.testbit m (Z.of_nat j) || bool_decide (j = i).
Proof.
  intros Hi. rewrite bit_pow, Z.lor_spec, Z.pow2_bits_eqb by lia. f_equal.
  case_bool_decide; [subst; by rewrite Z.eqb_refl|]. apply Z.eqb_neq. lia.
Qed.
Lemma mask_test n j : (n ≤ 32)%nat → Z.testbit (u32 (Bitfield.mask (Z.of_nat n))) (Z.of_nat j) = bool_decide (j < n)%nat.
Proof.
  intros Hn. unfold Bitfield.mask. rewrite (proj2 (Z.leb_gt _ _)) by lia. unfold u64, u32.
  rewrite Z.shiftl_1_l, Z.sub_1_r, <-Z.ones_equiv. rewrite (Z.mod_small (Z.ones _)).
  2: { rewrite Z.ones_equiv. assert (2 ^ Z.of_nat n ≤ 2 ^ 32) by (apply Z.pow_le_mono_r; lia). lia. }
  destruct (decide (j < 32)%nat).
  - rewrite Z.mod_pow2_bits_low by lia. case_bool_decide; [by apply Z.ones_spec_low; lia|apply Z.ones_spec_high; lia].
  - rewrite Z.mod_pow2_bits_high by lia. rewrite bool_decide_false by lia. done.
Qed.
(** Masks with the same bits are equal. *)
Lemma same_bits m m' : 0 ≤ m → 0 ≤ m' → (∀ j : nat, Z.testbit m (Z.of_nat j) = Z.testbit m' (Z.of_nat j)) → m = m'.
Proof. intros _ _ Hb. apply Z.bits_inj'. intros j Hj. specialize (Hb (Z.to_nat j)). by rewrite Z2Nat.id in Hb. Qed.

(** ** First parts of the list *)
Lemma elem_take (L : list nat) c z : z ∈ take c L ↔ ∃ j, (j < c)%nat ∧ L !! j = Some z.
Proof.
  rewrite list_elem_of_lookup. split.
  - intros (j & Hj). rewrite lookup_take in Hj. case_decide; [|done]. eauto.
  - intros (j & Hj & Hl). exists j. by rewrite lookup_take_lt.
Qed.

Lemma take_cons_pos (x : nat) l c : (0 < c)%nat → take c (x :: l) = x :: take (c - 1) l.
Proof. destruct c; [lia|]. intros _. cbn. by rewrite Nat.sub_0_r. Qed.

(** A block moved to the front, or to the end. *)
Lemma front_out (L l1 l2 : list nat) x c : L = l1 ++ x :: l2 → NoDup L → x ∉ take c L → (2 ≤ c)%nat →
  ∃ y, L !! (c - 1)%nat = Some y ∧ y ≠ x ∧ (x :: l1 ++ l2) !! (c - 1)%nat = L !! (c - 2)%nat ∧
    ∀ z, z ∈ take c (x :: l1 ++ l2) ↔ z = x ∨ (z ∈ take c L ∧ z ≠ y).
Proof.
  intros -> Hd Hx Hc. assert (c ≤ length l1)%nat as Hlt.
  { destruct (decide (c ≤ length l1)%nat); [done|]. exfalso. apply Hx. apply elem_take. exists (length l1).
    split; [lia|]. by rewrite list_lookup_middle. }
  destruct (lookup_lt_is_Some_2 l1 (c - 1)) as [y Hy]; [lia|]. exists y.
  assert ((l1 ++ x :: l2) !! (c - 1)%nat = Some y) as HLy by (by apply lookup_app_l_Some).
  assert (y ≠ x) as Hne. { intros ->. apply Hx, elem_take. exists (c - 1)%nat. split; [lia|done]. }
  split; [done|]. split; [done|]. rewrite lookup_cons_ne_0, !lookup_app_l by lia.
  split; [f_equal; lia|]. intros z. rewrite take_cons_pos, elem_of_cons, !take_app_le by lia.
  assert (take c l1 = take (c - 1) l1 ++ [y]) as Ht by (replace c with (S (c - 1)) at 1 by lia; by apply take_S_r).
  rewrite Ht. assert (NoDup (take (c - 1) l1 ++ [y])) as (_ & Hd' & _)%NoDup_app.
  { rewrite <-Ht. apply NoDup_app in Hd as (Hd & _). rewrite <-(take_drop c l1) in Hd. by apply NoDup_app in Hd as (? & _). }
  rewrite elem_of_app, list_elem_of_singleton. split; [|naive_solver].
  intros [->|Hz]; [by left|right]. split; [by left|]. intros ->. apply (Hd' y Hz). set_solver.
Qed.
Lemma front_in (L l1 l2 : list nat) x c : L = l1 ++ x :: l2 → NoDup L → l1 ≠ [] → x ∈ take c L →
  (∀ z, z ∈ take c (x :: l1 ++ l2) ↔ z ∈ take c L) ∧
  (L !! (c - 1)%nat = Some x → (x :: l1 ++ l2) !! (c - 1)%nat = L !! (c - 2)%nat) ∧
  (L !! (c - 1)%nat ≠ Some x → (x :: l1 ++ l2) !! (c - 1)%nat = L !! (c - 1)%nat).
Proof.
  intros -> Hd Hne (j & Hj & Hl)%elem_take. assert (j = length l1) as ->.
  { eapply NoDup_lookup; [done|done|]. by rewrite list_lookup_middle. }
  assert (0 < length l1)%nat by (destruct l1; [done|cbn; lia]). split_and!.
  - intros z. rewrite take_cons_pos, !take_app, take_ge, (take_ge l1) by lia.
    replace (c - length l1)%nat with (S (c - 1 - length l1)) by lia. cbn [take]. set_solver.
  - intros Hx. assert (c - 1 = length l1)%nat as Hc. { eapply NoDup_lookup; [done|done|]. by rewrite list_lookup_middle. }
    rewrite lookup_cons_ne_0, !lookup_app_l by lia. f_equal. lia.
  - intros Hx. assert (c - 1 ≠ length l1)%nat. { intros Hc. apply Hx. by rewrite list_lookup_middle. }
    rewrite lookup_cons_ne_0, !lookup_app_r by lia. rewrite lookup_cons_ne_0 by lia. f_equal. lia.
Qed.
Lemma back_in (L l1 l2 : list nat) x c : L = l1 ++ x :: l2 → NoDup L → x ∈ take c L → (c < length L)%nat →
  ∃ y, L !! c = Some y ∧ y ≠ x ∧ (l1 ++ l2 ++ [x]) !! (c - 1)%nat = Some y ∧
    ∀ z, z ≠ x → z ∈ take c (l1 ++ l2 ++ [x]) ↔ z ∈ take c L ∨ z = y.
Proof.
  intros -> Hd (j & Hj & Hl)%elem_take Hc. assert (j = length l1) as ->.
  { eapply NoDup_lookup; [done|done|]. by rewrite list_lookup_middle. }
  rewrite length_app in Hc. cbn in Hc. destruct (lookup_lt_is_Some_2 l2 (c - 1 - length l1)) as [y Hy]; [lia|]. exists y.
  assert ((l1 ++ x :: l2) !! c = Some y) as HLy. { rewrite lookup_app_r, lookup_cons_ne_0 by lia. rewrite <-Hy. f_equal. lia. }
  split; [done|]. split.
  { intros ->. assert (c = length l1); [|lia]. eapply NoDup_lookup; [done|done|]. by rewrite list_lookup_middle. }
  split; [by rewrite lookup_app_r, lookup_app_l by lia|]. intros z Hz.
  rewrite !take_app, (take_ge l1) by lia. replace (c - length l1)%nat with (S (c - 1 - length l1)) by lia.
  rewrite (take_S_r _ _ _ Hy). replace (S (c - 1 - length l1) - length l2)%nat with 0%nat by lia. cbn [take]. set_solver.
Qed.
Lemma back_out (L l1 l2 : list nat) x c : L = l1 ++ x :: l2 → x ∉ take c L →
  take c (l1 ++ l2 ++ [x]) = take c L ∧ ∀ j, (j < c)%nat → (l1 ++ l2 ++ [x]) !! j = L !! j.
Proof.
  intros -> Hx. assert (c ≤ length l1)%nat as Hlt.
  { destruct (decide (c ≤ length l1)%nat); [done|]. exfalso. apply Hx. apply elem_take. exists (length l1).
    split; [lia|]. by rewrite list_lookup_middle. }
  rewrite !take_app_le by lia. split; [done|]. intros j Hj. by rewrite !lookup_app_l by lia.
Qed.

(** ** Boundaries *)
Definition remasked (bs bs' : list FALRUBlk) : Prop :=
  length bs' = length bs ∧ (∀ y, links bs' y = links bs y) ∧ (∀ y, cores bs' y = cores bs y).
Lemma remasked_trans a b c : remasked a b → remasked b c → remasked a c.
Proof. intros (? & H1 & H2) (? & H3 & H4). split_and!; [congruence|intros; by rewrite H3|intros; by rewrite H4]. Qed.
Lemma remasked_insert bs y b m : bs !! y = Some b → remasked bs (<[y := set_mask m b]> bs).
Proof.
  intros Hb. pose proof (lookup_lt_Some _ _ _ Hb). split; [by rewrite length_insert|].
  split; intros z; unfold links, cores; (destruct (decide (z = y)); [subst; rewrite list_lookup_insert_eq, Hb by done; done|
    by rewrite list_lookup_insert_ne]).
Qed.
Lemma masks_insert bs y b m z : bs !! y = Some b →
  masks (<[y := set_mask m b]> bs) z = if decide (z = y) then Some m else masks bs z.
Proof.
  intros Hb%lookup_lt_Some. unfold masks. case_decide; [subst; by rewrite list_lookup_insert_eq|].
  by rewrite list_lookup_insert_ne by done.
Qed.
Lemma get_links bs y pn : links bs y = Some pn → ∃ b, get bs y = Ok b ∧ bs !! y = Some b ∧ prev b = pn.1 ∧ next b = pn.2.
Proof. intros (b & Hb & ?)%links_Some. exists b. unfold get. by rewrite Hb. Qed.

Section tracking.
Context (num : nat) (k : nat → nat) (Hnum : (num ≤ 32)%nat).

(** Bit [i] of the mask of a block tells whether it is among the first [k i]. *)
Definition shows (L : nat → list nat) (z : nat) (m : Z) : Prop :=
  0 ≤ m ∧ ∀ i : nat, Z.testbit m (Z.of_nat i) = bool_decide ((i < num)%nat ∧ z ∈ take (k i) (L i)).
Record tracked (L : list nat) (bnd : list (option nat)) (bs : list FALRUBlk) : Prop := {
  tr_len : length bnd = num;
  tr_bnd : ∀ i, (i < num)%nat → bnd !! i = Some (L !! (k i - 1)%nat);
  tr_mask : ∀ z m, z ∈ L → masks bs z = Some m → shows (λ _, L) z m }.

(** Half way: the caches before the [i]-th are those of the new list. *)
Definition upto (i : nat) (L' L : list nat) (j : nat) : list nat := if (j <? i)%nat then L' else L.
Record half (x i : nat) (L' L : list nat) (bnd : list (option nat)) (bs0 bs : list FALRUBlk) : Prop := {
  ha_same : remasked bs0 bs;
  ha_len : length bnd = num;
  ha_bnd : ∀ j, (j < num)%nat → bnd !! j = Some (upto i L' L j !! (k j - 1)%nat);
  ha_mask : ∀ z m, z ≠ x → z ∈ L → masks bs z = Some m → shows (upto i L' L) z m;
  ha_own : masks bs x = masks bs0 x }.

Lemma upto_at i L' L j : j ≠ i → upto (S i) L' L j = upto i L' L j.
Proof. intros Hj. unfold upto. destruct (Nat.ltb_spec j (S i)), (Nat.ltb_spec j i); lia || done. Qed.
Lemma upto_new i L' L : upto (S i) L' L i = L'.
Proof. unfold upto. by rewrite (proj2 (Nat.ltb_lt i (S i))) by lia. Qed.
Lemma upto_old i L' L : upto i L' L i = L.
Proof. unfold upto. by rewrite Nat.ltb_irrefl. Qed.

(** One more cache done: its boundary, and the bit of each block. *)
Lemma half_step x i L' L bnd bs0 bs bnd' bs' : half x i L' L bnd bs0 bs → (i < num)%nat → remasked bs bs' →
  length bnd' = num → bnd' !! i = Some (L' !! (k i - 1)%nat) → (∀ j, j ≠ i → bnd' !! j = bnd !! j) →
  masks bs' x = masks bs x →
  (∀ z m', z ≠ x → z ∈ L → masks bs' z = Some m' → ∃ m, masks bs z = Some m ∧ 0 ≤ m' ∧
     (∀ j : nat, (j < 32)%nat → j ≠ i → Z.testbit m' (Z.of_nat j) = Z.testbit m (Z.of_nat j)) ∧
     (∀ j : nat, (32 ≤ j)%nat → Z.testbit m' (Z.of_nat j) = true → Z.testbit m (Z.of_nat j) = true) ∧
     Z.testbit m' (Z.of_nat i) = bool_decide (z ∈ take (k i) L')) →
  half x (S i) L' L bnd' bs0 bs'.
Proof.
  intros [Hs Hl Hb Hm Ho] Hi Hr Hl' Hbi Hbj Ho' Hm'. split; [by apply (remasked_trans _ bs)|done| | |congruence].
  - intros j Hj. destruct (decide (j = i)) as [->|Hne]; [by rewrite upto_new|]. by rewrite Hbj, upto_at, Hb by done.
  - intros z m' Hz HzL Hmz. destruct (Hm' z m' Hz HzL Hmz) as (m & Hmm & H0 & Hlow & Hhigh & Hat).
    destruct (Hm z m Hz HzL Hmm) as [_ Hbits]. split; [done|]. intros j. destruct (decide (j = i)) as [->|Hne].
    { rewrite Hat, upto_new. apply bool_decide_ext. naive_solver. }
    rewrite upto_at, <-Hbits by done. destruct (decide (j < 32)%nat); [by apply Hlow|].
    destruct (Z.testbit m (Z.of_nat j)) eqn:Hm2; [|destruct (Z.testbit m' (Z.of_nat j)) eqn:Hm3; [|done]].
    + specialize (Hbits j). rewrite Hm2 in Hbits. symmetry in Hbits. apply bool_decide_eq_true in Hbits. lia.
    + rewrite Hhigh in Hm2 by (done || lia). done.
Qed.

(** A step that changes no mask. *)
Lemma half_keep x i L' L bnd bs0 bs bnd' : half x i L' L bnd bs0 bs → (i < num)%nat →
  length bnd' = num → bnd' !! i = Some (L' !! (k i - 1)%nat) → (∀ j, j ≠ i → bnd' !! j = bnd !! j) →
  (∀ z, z ≠ x → z ∈ take (k i) L' ↔ z ∈ take (k i) L) → half x (S i) L' L bnd' bs0 bs.
Proof.
  intros Hh Hi Hl' Hbi Hbj Hset. apply (half_step x i L' L bnd bs0 bs); try done.
  intros z m Hz HzL Hm. exists m. destruct (ha_mask _ _ _ _ _ _ _ Hh z m Hz HzL Hm) as [H0 Hbits].
  split; [done|]. split; [done|]. split; [done|]. split; [done|].
  rewrite Hbits, upto_old. apply bool_decide_ext. rewrite Hset by done. naive_solver.
Qed.

Section move.
Context (L l1 l2 : list nat) (x : nat) (HL : L = l1 ++ x :: l2) (Hd : NoDup L)
  (Hk : ∀ i, (i < num)%nat → (2 ≤ k i < length L)%nat).

Lemma half_links i L' bnd bs0 bs j y : half x i L' L bnd bs0 bs → seg bs0 None L None → L !! j = Some y →
  ∃ b, get bs y = Ok b ∧ bs !! y = Some b ∧ prev b = match j with O => None | S j => L !! j end ∧ next b = L !! S j.
Proof.
  intros Hh Hs Hj. pose proof (seg_lookup _ _ _ _ _ _ Hs Hj) as Hy.
  rewrite <-(proj1 (proj2 (ha_same _ _ _ _ _ _ _ Hh))) in Hy. destruct (get_links _ _ _ Hy) as (b & ? & ? & Hp & Hn).
  exists b. split_and!; try done. rewrite Hn. cbn. by destruct (L !! S j).
Qed.

Lemma to_head_step upd_mask i bnd bs0 bs n : seg bs0 None L None → l1 ≠ [] → (i < num)%nat →
  Z.testbit upd_mask (Z.of_nat i) = negb (bool_decide (x ∈ take (k i) L)) →
  half x i (x :: l1 ++ l2) L bnd bs0 bs →
  ∃ bnd' bs', to_head_loop (S n) i x upd_mask bnd bs = to_head_loop n (S i) x upd_mask bnd' bs' ∧
    half x (S i) (x :: l1 ++ l2) L bnd' bs0 bs'.
Proof.
  intros Hs Hne Hi Hbit Hh. destruct (Hk i Hi) as [Hk2 Hkl]. cbn [to_head_loop].
  pose proof (ha_bnd _ _ _ _ _ _ _ Hh i Hi) as Hb. rewrite upto_old in Hb. pose proof (ha_len _ _ _ _ _ _ _ Hh) as Hlen.
  assert (get bnd i = Ok (L !! (k i - 1)%nat)) as -> by (unfold get; by rewrite Hb). cbn [mbind res_bind].
  rewrite bit_test, Hbit by lia.
  case_bool_decide as Hx; cbn [negb].
  - destruct (front_in L l1 l2 x (k i) HL Hd Hne Hx) as (Hset & Hat & Hnot). case_bool_decide as Hbx.
    + destruct (half_links i _ bnd bs0 bs (k i - 1) x Hh Hs Hbx) as (b & -> & Hbb & Hp & _). cbn [mbind res_bind].
      eexists _, _. split; [done|]. apply (half_keep x i _ L bnd bs0 bs); try done.
      * by rewrite length_insert.
      * rewrite list_lookup_insert_eq by lia. rewrite (Hat Hbx), Hp. destruct (k i) as [|[|c]]; [lia..|]. cbn. by rewrite Nat.sub_0_r.
      * intros j Hj. by rewrite list_lookup_insert_ne.
    + eexists _, _. split; [done|]. apply (half_keep x i _ L bnd bs0 bs); try done. by rewrite Hnot, <-Hb.
  - destruct (front_out L l1 l2 x (k i) HL Hd Hx Hk2) as (y & HLy & Hyx & Hat & Hset). rewrite HLy. cbn [deref mbind res_bind].
    destruct (half_links i _ bnd bs0 bs (k i - 1) y Hh Hs HLy) as (b & -> & Hbb & Hp & _). cbn [mbind res_bind].
    eexists _, _. split; [done|]. apply (half_step x i _ L bnd bs0 bs); try done.
    + by apply remasked_insert.
    + by rewrite length_insert.
    + rewrite list_lookup_insert_eq by lia. rewrite Hat, Hp. destruct (k i) as [|[|c]]; [lia..|]. cbn. by rewrite Nat.sub_0_r.
    + intros j Hj. by rewrite list_lookup_insert_ne.
    + rewrite (masks_insert _ _ _ _ _ Hbb). by rewrite decide_False.
    + intros z m' Hz HzL. rewrite (masks_insert _ _ _ _ _ Hbb). case_decide as Hzy.
      * intros [= <-]. subst z. exists (inCachesMask b). assert (masks bs y = Some (inCachesMask b)) as Hmy by (unfold masks; by rewrite Hbb).
        destruct (ha_mask _ _ _ _ _ _ _ Hh y _ Hz HzL Hmy) as [H0 _]. split; [done|]. split; [by apply clear_nonneg|].
        split; [intros j Hj Hji; rewrite clear_test, bool_decide_false, andb_true_r by (done || lia); done|].
        split; [intros j Hj; by rewrite clear_high by lia|]. rewrite clear_test, bool_decide_true, andb_false_r by (done || lia).
        symmetry. apply bool_decide_eq_false. rewrite Hset. naive_solver.
      * intros Hm. exists m'. destruct (ha_mask _ _ _ _ _ _ _ Hh z m' Hz HzL Hm) as [H0 Hbits]. split_and!; try done.
        rewrite Hbits, upto_old. apply bool_decide_ext. rewrite Hset. naive_solver.
Qed.

Lemma half_start L' bnd bs : tracked L bnd bs → half x 0 L' L bnd bs bs.
Proof.
  intros [Hl Hb Hm]. split; try done. intros z m _ HzL Hz. apply (Hm z m HzL Hz).
Qed.
Lemma half_end L' bnd bs0 bs m bs' : half x num L' L bnd bs0 bs → (∀ z, z ∈ L' → z ∈ L) → (m : option Z) = masks bs' x →
  (∀ v, m = Some v → shows (λ _, L') x v) → remasked bs bs' → (∀ z, z ≠ x → masks bs' z = masks bs z) → tracked L' bnd bs'.
Proof.
  intros [Hs Hl Hb Hm Ho] Hin Hmx Hx Hr He. split; [done| |].
  - intros i Hi. rewrite Hb by done. unfold upto. by rewrite (proj2 (Nat.ltb_lt i num)).
  - intros z v HzL Hz. destruct (decide (z = x)) as [->|Hne]; [apply Hx; congruence|]. rewrite He in Hz by done.
    destruct (Hm z v Hne (Hin z HzL) Hz) as [H0 Hbits]. split; [done|]. intros i. rewrite Hbits.
    apply bool_decide_ext. unfold upto. destruct (Nat.ltb_spec i num); [done|]. naive_solver lia.
Qed.

Lemma to_head_loop_ok upd_mask n i bnd bs0 bs : seg bs0 None L None → l1 ≠ [] → (i + n = num)%nat →
  (∀ j, (j < num)%nat → Z.testbit upd_mask (Z.of_nat j) = negb (bool_decide (x ∈ take (k j) L))) →
  half x i (x :: l1 ++ l2) L bnd bs0 bs →
  ∃ bnd' bs', to_head_loop n i x upd_mask bnd bs = Ok (bnd', bs') ∧ half x num (x :: l1 ++ l2) L bnd' bs0 bs'.
Proof.
  intros Hs Hne Hin Hbit. revert i bnd bs Hin. induction n as [|n IH]; intros i bnd bs Hin Hh.
  { eexists _, _. split; [done|]. by replace num with i by lia. }
  destruct (to_head_step upd_mask i bnd bs0 bs n Hs Hne ltac:(lia) (Hbit i ltac:(lia)) Hh) as (bnd' & bs' & -> & Hh').
  apply IH; [lia|done].
Qed.

Lemma moveBlockToHead_ok c bs : seg bs None L None → l1 ≠ [] → numTrackedCaches c = num →
  inAllCachesMask c = u32 (Bitfield.mask (Z.of_nat num)) → tracked L (boundaries c) bs →
  ∃ l bs', moveBlockToHead x c bs = Ok (set_boundaries l c, bs') ∧ tracked (x :: l1 ++ l2) l bs' ∧ remasked bs bs'.
Proof.
  intros Hs Hne Hn Hall Ht. unfold moveBlockToHead.
  assert (L !! length l1 = Some x) as HLx by (rewrite HL; by apply list_lookup_middle).
  assert (x ∈ L) as HxL by (by eapply list_elem_of_lookup_2).
  destruct (get_links _ _ _ (seg_lookup _ _ _ _ _ _ Hs HLx)) as (b & -> & Hb & _). cbn [mbind res_bind].
  destruct (tr_mask _ _ _ Ht x (inCachesMask b) HxL) as [H0 Hbits]; [unfold masks; by rewrite Hb|].
  destruct (to_head_loop_ok (Z.lxor (inAllCachesMask c) (inCachesMask b)) num 0 (boundaries c) bs bs) as (l & bs1 & Hloop & Hh);
    [done|done|lia| |by apply half_start|].
  { intros j Hj. rewrite Z.lxor_spec, Hall, mask_test, Hbits, bool_decide_true by done.
    rewrite (bool_decide_ext _ (x ∈ take (k j) L)) by naive_solver. by case_bool_decide. }
  rewrite Hn, Hloop. cbn [mbind res_bind]. pose proof (ha_same _ _ _ _ _ _ _ Hh) as (Hlen & Hlinks & Hcores).
  assert (is_Some (bs1 !! x)) as [b1 Hb1].
  { apply lookup_lt_is_Some. rewrite Hlen. by apply lookup_lt_Some in Hb. }
  rewrite (fa_upd_ok _ _ _ _ Hb1). cbn [mbind res_bind]. eexists _, _. split; [done|].
  split; [|apply (remasked_trans _ bs1); [done|by apply remasked_insert]].
  apply (half_end _ l bs bs1 (Some (inAllCachesMask c))); try done.
  - intros z Hz. rewrite HL. set_solver.
  - rewrite (masks_insert _ _ _ _ _ Hb1). by rewrite decide_True.
  - intros v [= <-]. split; [rewrite Hall; unfold u32; apply Z.mod_pos_bound; lia|]. intros i. rewrite Hall, mask_test by done.
    apply bool_decide_ext. split; [|naive_solver]. intros Hi. split; [done|]. destruct (Hk i Hi). rewrite take_cons_pos by lia. by left.
  - by apply remasked_insert.
  - intros z Hz. rewrite (masks_insert _ _ _ _ _ Hb1). by rewrite decide_False.
Qed.

Lemma to_tail_step upd_mask i bnd bs0 bs n : seg bs0 None L None → (i < num)%nat →
  Z.testbit upd_mask (Z.of_nat i) = bool_decide (x ∈ take (k i) L) →
  half x i (l1 ++ l2 ++ [x]) L bnd bs0 bs →
  ∃ bnd' bs', to_tail_loop (S n) i x upd_mask bnd bs = to_tail_loop n (S i) x upd_mask bnd' bs' ∧
    half x (S i) (l1 ++ l2 ++ [x]) L bnd' bs0 bs'.
Proof.
  intros Hs Hi Hbit Hh. destruct (Hk i Hi) as [Hk2 Hkl]. cbn [to_tail_loop]. rewrite bit_test, Hbit by lia.
  pose proof (ha_bnd _ _ _ _ _ _ _ Hh i Hi) as Hb. rewrite upto_old in Hb. pose proof (ha_len _ _ _ _ _ _ _ Hh) as Hlen.
  case_bool_decide as Hx.
  - destruct (back_in L l1 l2 x (k i) HL Hd Hx Hkl) as (y & HLy & Hyx & Hat & Hset).
    assert (get bnd i = Ok (L !! (k i - 1)%nat)) as -> by (unfold get; by rewrite Hb). cbn [mbind res_bind].
    destruct (lookup_lt_is_Some_2 L (k i - 1)) as [a Ha]; [lia|]. rewrite Ha. cbn [deref mbind res_bind].
    destruct (half_links i _ bnd bs0 bs (k i - 1) a Hh Hs Ha) as (ba & -> & _ & _ & Hna). cbn [mbind res_bind].
    replace (S (k i - 1)) with (k i) in Hna by lia. rewrite Hna, HLy. rewrite bool_decide_false by congruence.
    cbn [deref mbind res_bind]. destruct (half_links i _ bnd bs0 bs (k i) y Hh Hs HLy) as (b & _ & Hbb & _).
    rewrite (fa_upd_ok _ _ _ _ Hbb). cbn [mbind res_bind]. eexists _, _. split; [done|].
    apply (half_step x i _ L bnd bs0 bs); try done.
    + by apply remasked_insert.
    + by rewrite length_insert.
    + rewrite list_lookup_insert_eq by lia. by rewrite Hat.
    + intros j Hj. by rewrite list_lookup_insert_ne.
    + rewrite (masks_insert _ _ _ _ _ Hbb). by rewrite decide_False.
    + intros z m' Hz HzL. rewrite (masks_insert _ _ _ _ _ Hbb). case_decide as Hzy.
      * intros [= <-]. subst z. exists (inCachesMask b). assert (masks bs y = Some (inCachesMask b)) as Hmy by (unfold masks; by rewrite Hbb).
        destruct (ha_mask _ _ _ _ _ _ _ Hh y _ Hz HzL Hmy) as [H0 _]. split; [done|].
        split; [apply Z.lor_nonneg; split; [done|rewrite bit_pow by lia; apply Z.pow_nonneg; lia]|].
        split; [intros j Hj Hji; rewrite set_test, bool_decide_false, orb_false_r by (done || lia); done|].
        split; [intros j Hj; rewrite set_test, bool_decide_false, orb_false_r by lia; done|].
        rewrite set_test, bool_decide_true, orb_true_r by (done || lia). symmetry. apply bool_decide_eq_true. rewrite Hset by done. by right.
      * intros Hm. exists m'. destruct (ha_mask _ _ _ _ _ _ _ Hh z m' Hz HzL Hm) as [H0 Hbits]. split_and!; try done.
        rewrite Hbits, upto_old. apply bool_decide_ext. rewrite Hset by done. naive_solver.
  - destruct (back_out L l1 l2 x (k i) HL Hx) as [Htake Hlook]. eexists _, _. split; [done|].
    apply (half_keep x i _ L bnd bs0 bs); try done; [rewrite Hlook by lia; done|]. intros z _. by rewrite Htake.
Qed.

Lemma to_tail_loop_ok upd_mask n i bnd bs0 bs : seg bs0 None L None → (i + n = num)%nat →
  (∀ j, (j < num)%nat → Z.testbit upd_mask (Z.of_nat j) = bool_decide (x ∈ take (k j) L)) →
  half x i (l1 ++ l2 ++ [x]) L bnd bs0 bs →
  ∃ bnd' bs', to_tail_loop n i x upd_mask bnd bs = Ok (bnd', bs') ∧ half x num (l1 ++ l2 ++ [x]) L bnd' bs0 bs'.
Proof.
  intros Hs Hin Hbit. revert i bnd bs Hin. induction n as [|n IH]; intros i bnd bs Hin Hh.
  { eexists _, _. split; [done|]. by replace num with i by lia. }
  destruct (to_tail_step upd_mask i bnd bs0 bs n Hs ltac:(lia) (Hbit i ltac:(lia)) Hh) as (bnd' & bs' & -> & Hh').
  apply IH; [lia|done].
Qed.

Lemma moveBlockToTail_ok c bs : seg bs None L None → numTrackedCaches c = num → tracked L (boundaries c) bs →
  ∃ l bs', moveBlockToTail x c bs = Ok (set_boundaries l c, bs') ∧ tracked (l1 ++ l2 ++ [x]) l bs' ∧ remasked bs bs'.
Proof.
  intros Hs Hn Ht. unfold moveBlockToTail.
  assert (L !! length l1 = Some x) as HLx by (rewrite HL; by apply list_lookup_middle).
  assert (x ∈ L) as HxL by (by eapply list_elem_of_lookup_2).
  destruct (get_links _ _ _ (seg_lookup _ _ _ _ _ _ Hs HLx)) as (b & -> & Hb & _). cbn [mbind res_bind].
  destruct (tr_mask _ _ _ Ht x (inCachesMask b) HxL) as [H0 Hbits]; [unfold masks; by rewrite Hb|].
  destruct (to_tail_loop_ok (inCachesMask b) num 0 (boundaries c) bs bs) as (l & bs1 & Hloop & Hh);
    [done|lia| |by apply half_start|].
  { intros j Hj. rewrite Hbits. apply bool_decide_ext. naive_solver. }
  rewrite Hn, Hloop. cbn [mbind res_bind]. pose proof (ha_same _ _ _ _ _ _ _ Hh) as (Hlen & Hlinks & Hcores).
  assert (is_Some (bs1 !! x)) as [b1 Hb1].
  { apply lookup_lt_is_Some. rewrite Hlen. by apply lookup_lt_Some in Hb. }
  rewrite (fa_upd_ok _ _ _ _ Hb1). cbn [mbind res_bind]. eexists _, _. split; [done|].
  split; [|apply (remasked_trans _ bs1); [done|by apply remasked_insert]].
  apply (half_end _ l bs bs1 (Some 0)); try done.
  - intros z Hz. rewrite HL. set_solver.
  - rewrite (masks_insert _ _ _ _ _ Hb1). by rewrite decide_True.
  - intros v [= <-]. split; [done|]. intros i. rewrite Z.testbit_0_l. symmetry. apply bool_decide_eq_false. intros [Hi Hin].
    destruct (Hk i Hi) as [_ Hlt]. apply elem_take in Hin as (j & Hj & Hjx). rewrite HL, length_app in Hlt. cbn in Hlt.
    assert (j = (length l1 + length l2)%nat); [|lia]. eapply (NoDup_lookup (l1 ++ l2 ++ [x])); [|done|].
    + rewrite HL in Hd. rewrite app_assoc, Permutation_app_comm. cbn. by rewrite Permutation_middle.
    + rewrite app_assoc, lookup_app_r by (rewrite length_app; lia). by rewrite length_app, Nat.sub_diag.
  - by apply remasked_insert.
  - intros z Hz. rewrite (masks_insert _ _ _ _ _ Hb1). by rewrite decide_False.
Qed.
End move.
End tracking.
(** ** The walk of [init] and [check]

    The boundary of the [i]-th cache comes after [T i] blocks. *)
Section walk.
Context (num : nat) (T : nat → nat) (Hnum : (num ≤ 32)%nat) (bz : Z) (L : list nat).
Context (HT1 : ∀ i, (0 < T i)%nat) (HT : ∀ i, T (S i) = (2 * T i)%nat) (HTN : ∀ i, (i < num)%nat → (T i < length L)%nat)
  (HTn : (length L ≤ T num)%nat) (Hbz : 0 < bz) (Hmax : bz * Z.of_nat (T num) < 2 ^ 32) (Hd : NoDup L).

Lemma T_mono i j : (i ≤ j)%nat → (T i ≤ T j)%nat.
Proof. induction 1; [done|]. rewrite HT. lia. Qed.

(** At the [p]-th block, with [j] boundaries behind. *)
Record at_place (p j : nat) (curr tracked_size mask : Z) : Prop := {
  ap_curr : curr = bz * Z.of_nat p;
  ap_size : tracked_size = bz * Z.of_nat (T j);
  ap_j : (j ≤ num)%nat;
  ap_past : ∀ i, (i < j)%nat → (T i ≤ p)%nat;
  ap_next : (p < length L)%nat → (p < T j)%nat;
  ap_end : p = length L → j = num;
  ap_nonneg : 0 ≤ mask;
  ap_mask : ∀ i : nat, Z.testbit mask (Z.of_nat i) = bool_decide (j ≤ i < num)%nat }.

Lemma place_start : (0 < length L)%nat → at_place 0 0 0 (bz * Z.of_nat (T 0)) (u32 (Bitfield.mask (Z.of_nat num))).
Proof.
  intros HL. split; try done; try lia.
  - unfold u32. apply Z.mod_pos_bound. lia.
  - intros i. rewrite mask_test by done. apply bool_decide_ext. lia.
Qed.

Lemma seg_here bs l y l' : seg bs None (l ++ y :: l') None →
  ∃ b, get bs y = Ok b ∧ bs !! y = Some b ∧ next b = first_or None l'.
Proof. intros [_ [Hy _]]%seg_app. destruct (get_links _ _ _ Hy) as (b & ? & ? & _ & ?). by exists b. Qed.

(** Whether the code finds a boundary here. *)
Lemma place_test p j curr ts m y tail : at_place p j curr ts m → L !! p = Some y → last L = Some tail →
  u32 (curr + bz) = bz * Z.of_nat (S p) ∧
  (u32 (curr + bz) =? ts) && negb (bool_decide (y = tail)) = bool_decide (S p = T j ∧ (j < num)%nat).
Proof.
  intros Hp Hy Ht. pose proof (lookup_lt_Some _ _ _ Hy) as Hlt. pose proof (ap_j _ _ _ _ _ Hp) as Hj.
  assert (u32 (curr + bz) = bz * Z.of_nat (S p)) as Hu.
  { rewrite (ap_curr _ _ _ _ _ Hp). unfold u32. rewrite Z.mod_small; nia. }
  split; [done|]. rewrite Hu, (ap_size _ _ _ _ _ Hp). rewrite last_lookup in Ht.
  assert (y = tail ↔ S p = length L) as Hyt.
  { split; intros He; [subst y; enough (p = pred (length L)) by lia; by eapply NoDup_lookup|]. replace (pred (length L)) with p in Ht by lia. congruence. }
  pose proof (T_mono j num Hj). destruct (Z.eqb_spec (bz * Z.of_nat (S p)) (bz * Z.of_nat (T j))) as [He|He]; cbn [andb].
  - assert (S p = T j) as Hpj by nia. destruct (decide (j < num)%nat) as [Hjn|Hjn].
    + pose proof (HTN j Hjn). rewrite (bool_decide_false (y = tail)) by lia. symmetry. by apply bool_decide_true.
    + assert (j = num) as -> by lia. rewrite (bool_decide_true (y = tail)) by lia. symmetry. apply bool_decide_false. lia.
  - symmetry. apply bool_decide_false. intros [Hpj _]. apply He. by rewrite Hpj.
Qed.

(** The next block, with and without a boundary. *)
Lemma place_boundary p j curr ts m : at_place p j curr ts m → (p < length L)%nat → S p = T j → (j < num)%nat →
  at_place (S p) (S j) (bz * Z.of_nat (S p)) (u32 (Z.shiftl ts 1)) (clear m (bit j)).
Proof.
  intros [Hc Hs Hj Hpast Hnext Hend H0 Hm] Hp HpT Hjn. pose proof (T_mono (S j) num Hjn) as Hmon.
  pose proof (HTN j Hjn). split; try done; try lia.
  - rewrite Hs, Z.shiftl_mul_pow2 by lia. rewrite HT. unfold u32. rewrite HT in Hmon. rewrite Z.mod_small; nia.
  - intros i Hi. destruct (decide (i = j)) as [->|]; [lia|]. specialize (Hpast i). lia.
  - intros _. rewrite HT. lia.
  - by apply clear_nonneg.
  - intros i. destruct (decide (i < 32)%nat); [rewrite clear_test, Hm by lia|rewrite clear_high by lia].
    + destruct (decide (i = j)) as [->|]; [rewrite (bool_decide_true (j = j)), andb_false_r by done; symmetry; apply bool_decide_false; lia|].
      rewrite (bool_decide_false (i = j)), andb_true_r by done. apply bool_decide_ext. lia.
    + symmetry. apply bool_decide_false. lia.
Qed.
Lemma place_plain p j curr ts m : at_place p j curr ts m → (p < length L)%nat → ¬ (S p = T j ∧ (j < num)%nat) →
  at_place (S p) j (bz * Z.of_nat (S p)) ts m.
Proof.
  intros [Hc Hs Hj Hpast Hnext Hend H0 Hm] Hp Hno. specialize (Hnext Hp). split; try done.
  - intros i Hi. specialize (Hpast i Hi). lia.
  - intros HpL. destruct (decide (j = num)) as [->|]; [lia|]. lia.
  - intros HpL. destruct (decide (j = num)) as [->|]; [done|]. pose proof (HTN j ltac:(lia)). lia.
Qed.
(** The mask the code expects at a block shows where it is. *)
Lemma place_shows p j curr ts m y : at_place p j curr ts m → L !! p = Some y → shows num T (λ _, L) y m.
Proof.
  intros Hp Hy. split; [apply Hp|]. intros i. rewrite (ap_mask _ _ _ _ _ Hp). apply bool_decide_ext.
  pose proof (ap_next _ _ _ _ _ Hp (lookup_lt_Some _ _ _ Hy)) as Hnext. rewrite elem_take. split.
  - intros [Hji Hi]. split; [done|]. exists p. split; [|done]. pose proof (T_mono j i Hji). lia.
  - intros [Hi (q & Hq & HLq)]. split; [|done]. assert (q = p) as -> by (by eapply NoDup_lookup).
    destruct (decide (j ≤ i)%nat); [done|]. pose proof (ap_past _ _ _ _ _ Hp i ltac:(lia)). lia.
Qed.

Lemma check_walk c bs tail done rest p j curr ts m fuel : tracked num T L (boundaries c) bs → ct_blkSize c = bz →
  seg bs None L None → last L = Some tail → L = done ++ rest → p = length done → at_place p j curr ts m →
  (length rest ≤ fuel)%nat → check_loop fuel (first_or None rest) tail curr ts m j c bs = Ok ().
Proof.
  intros Htr Hbs Hs Htail. revert done p j curr ts m fuel. induction rest as [|y rest IH]; intros done p j curr ts m fuel HL Hpd Hp Hf.
  { by destruct fuel. }
  destruct fuel as [|fuel]; [cbn in Hf; lia|]. cbn [check_loop first_or].
  assert (L !! p = Some y) as Hy by (rewrite HL, Hpd; by apply list_lookup_middle).
  destruct (seg_here _ done y rest ltac:(by rewrite <-HL)) as (b & -> & Hb & Hn). cbn [mbind res_bind].
  assert (inCachesMask b = m) as Hmb.
  { destruct (tr_mask _ _ _ _ _ Htr y (inCachesMask b)) as [H1 H2]; [by eapply list_elem_of_lookup_2|unfold masks; by rewrite Hb|].
    destruct (place_shows _ _ _ _ _ _ Hp Hy) as [H3 H4]. apply same_bits; try done. intros i. by rewrite H2, H4. }
  rewrite Hmb, Z.eqb_refl, Hbs. cbn [negb panic_if mbind res_bind].
  destruct (place_test _ _ _ _ _ _ _ Hp Hy Htail) as [Hu ->]. rewrite Hu, Hn.
  assert (L = (done ++ [y]) ++ rest) as HL' by (by rewrite <-app_assoc).
  assert (S p = length (done ++ [y])) as Hpd' by (rewrite length_app; cbn; lia). cbn in Hf.
  pose proof (lookup_lt_Some _ _ _ Hy) as Hlt. case_bool_decide as Hbd.
  - destruct Hbd as [HpT Hjn]. pose proof (tr_bnd _ _ _ _ _ Htr j Hjn) as Hbnd. unfold get. rewrite Hbnd. cbn [mbind res_bind].
    replace (T j - 1)%nat with p by lia. rewrite Hy, bool_decide_true by done. cbn [negb panic_if mbind res_bind].
    apply (IH (done ++ [y]) (S p)); [done|done|by apply (place_boundary _ _ curr)|lia].
  - apply (IH (done ++ [y]) (S p)); [done|done|by apply (place_plain _ _ curr)|lia].
Qed.

Lemma init_walk tail done rest p j curr ts m fuel c bs : ct_blkSize c = bz → length (boundaries c) = num →
  (∀ i, (i < j)%nat → boundaries c !! i = Some (L !! (T i - 1)%nat)) →
  (∀ z v, z ∈ done → masks bs z = Some v → shows num T (λ _, L) z v) →
  seg bs None L None → last L = Some tail → L = done ++ rest → p = length done → at_place p j curr ts m →
  (length rest ≤ fuel)%nat →
  ∃ l bs', init_loop fuel (first_or None rest) tail curr ts m j c bs = Ok (set_boundaries l c, bs') ∧
    remasked bs bs' ∧ tracked num T L l bs'.
Proof.
  revert done p j curr ts m fuel c bs.
  induction rest as [|y rest IH]; intros done p j curr ts m fuel c bs Hbs Hlen Hbnd Hmask Hs Htail HL Hpd Hp Hf.
  { exists (boundaries c), bs. split; [destruct fuel; by destruct c|]. split; [done|]. rewrite app_nil_r in HL. subst done.
    assert (j = num) as -> by (by apply (ap_end _ _ _ _ _ Hp)). by split. }
  destruct fuel as [|fuel]; [cbn in Hf; lia|]. cbn [init_loop first_or].
  assert (L !! p = Some y) as Hy by (rewrite HL, Hpd; by apply list_lookup_middle).
  destruct (seg_here _ done y rest ltac:(by rewrite <-HL)) as (b & -> & Hb & Hn). cbn [mbind res_bind]. rewrite Hbs.
  destruct (place_test _ _ _ _ _ _ _ Hp Hy Htail) as [Hu ->]. rewrite Hu, Hn.
  assert (L = (done ++ [y]) ++ rest) as HL' by (by rewrite <-app_assoc).
  assert (S p = length (done ++ [y])) as Hpd' by (rewrite length_app; cbn; lia). cbn in Hf.
  pose proof (lookup_lt_Some _ _ _ Hy) as Hlt. set (bs1 := <[y := set_mask m b]> bs).
  assert (remasked bs bs1) as Hr by (by apply remasked_insert).
  assert (seg bs1 None L None) as Hs1 by (apply (seg_ext bs); [intros z _; apply Hr|done]).
  assert (∀ z v, z ∈ done ++ [y] → masks bs1 z = Some v → shows num T (λ _, L) z v) as Hm1.
  { intros z v Hz. unfold bs1. rewrite (masks_insert _ _ _ _ _ Hb). case_decide as Hzy.
    - intros [= <-]. subst z. by apply (place_shows p j curr ts).
    - apply Hmask. set_solver. }
  case_bool_decide as Hbd.
  - destruct Hbd as [HpT Hjn]. destruct (lookup_lt_is_Some_2 (boundaries c) j) as [o Ho]; [lia|].
    unfold upd at 1, get. rewrite Ho. cbn [mbind res_bind].
    destruct (IH (done ++ [y]) (S p) (S j) (bz * Z.of_nat (S p)) (u32 (Z.shiftl ts 1)) (clear m (bit j)) fuel
      (set_boundaries (<[j := Some y]> (boundaries c)) c) bs1) as (l & bs' & -> & Hr' & Ht'); try done.
    + cbn. by rewrite length_insert.
    + intros i Hi. cbn. destruct (decide (i = j)) as [->|]; [|rewrite list_lookup_insert_ne by done; apply Hbnd; lia].
      rewrite list_lookup_insert_eq by lia. by replace (T j - 1)%nat with p by lia; rewrite Hy.
    + by apply (place_boundary _ _ curr).
    + lia.
    + eexists _, _. split; [done|]. split; [by apply (remasked_trans _ bs1)|done].
  - destruct (IH (done ++ [y]) (S p) j (bz * Z.of_nat (S p)) ts m fuel c bs1) as (l & bs' & -> & Hr' & Ht'); try done.
    + by apply (place_plain _ _ curr).
    + lia.
    + eexists _, _. split; [done|]. split; [by apply (remasked_trans _ bs1)|done].
Qed.
End walk.

(** The chain [tagsInit] makes. *)
Lemma link_links n y : (y < n)%nat →
  links (imap (link n) (replicate n FALRUBlk_new)) y =
    Some (match y with O => None | S z => Some z end, if bool_decide (S y = n) then None else Some (S y)).
Proof. intros Hy. unfold links. by rewrite list_lookup_imap, lookup_replicate_2. Qed.
Lemma link_seg n j m : (j + m = n)%nat →
  seg (imap (link n) (replicate n FALRUBlk_new)) (match j with O => None | S z => Some z end) (seq j m) None.
Proof.
  revert j. induction m as [|m IH]; intros j Hj; cbn [seq seg]; [done|]. split; [|apply (IH (S j)); lia].
  rewrite link_links by lia. do 2 f_equal. destruct m; cbn; [by rewrite bool_decide_true by lia|]. by rewrite bool_decide_false by lia.
Qed.
End FAL.

Module FAR.
Import RpBase Blk FA FAL.

(** ** Specification

    An LRU list of block addresses with their security bit, and the same
    operations on it. *)
Notation key := (Z * bool)%type.
Definition lru_drop (x : key) (ks : list key) : list key := filter (λ y, y ≠ x) ks.
Definition lru_touch (x : key) (ks : list key) : list key := if decide (x ∈ ks) then x :: lru_drop x ks else ks.
Definition lru_fill (n : nat) (x : key) (ks : list key) : list key := x :: take (n - 1) ks.

(** What a cache does with its tags: it accesses a block, fills a block that
    it did not find, over the victim, and drops a block. *)
Inductive op :=
  | Access (addr : Z) (is_secure : bool)
  | Fill (w : env) (p : Pkt.Packet) (requestor_id task : Z)
  | Drop (addr : Z) (is_secure : bool).
Definition fill (w : env) (p : Pkt.Packet) (requestor_id task : Z) (t : FALRU) : res FALRU :=
  let v := findVictim t in
  b ← get (blks t) v;
  t ← (if isValid (fblk b) then invalidate v t else Ok t);
  insertBlock w p requestor_id task v t.
Definition exec (o : op) (t : FALRU) : res FALRU :=
  match o with
  | Access a sec => '(_, _, _, t) ← accessBlock a sec t; Ok t
  | Fill w p r task => fill w p r task t
  | Drop a sec => blk ← findBlock t a sec; match blk with Some e => invalidate e t | None => Ok t end
  end.
Fixpoint exec_all (l : list op) (t : FALRU) : res FALRU :=
  match l with [] => Ok t | o :: l => t ← exec o t; exec_all l t end.
Definition spec (n : nat) (c : Tags.config) (o : op) (ks : list key) : list key :=
  match o with
  | Access a sec => lru_touch (Tags.blkAlign c a, sec) ks
  | Fill _ p _ _ => lru_fill n (Tags.blkAlign c (Pkt.addr p), Pkt.secure p) ks
  | Drop a sec => lru_drop (Tags.blkAlign c a, sec) ks
  end.
Definition can (o : op) (t : FALRU) : Prop :=
  match o with
  | Fill _ p r _ => findBlock t (Pkt.addr p) (Pkt.secure p) = Ok None ∧ r < Tags.maxRequestors (cfg t)
  | _ => True
  end.
Fixpoint admissible (l : list op) (t : FALRU) : Prop :=
  match l with
  | [] => True
  | o :: l => can o t ∧ match exec o t with Ok t => admissible l t | Err _ => True end
  end.

Section run.
Context (num : nat) (k : nat → nat) (Hnum : (num ≤ 32)%nat) (bz ms : Z).

(** ** The chain *)
Record chain (t : FALRU) (L : list nat) : Prop := {
  ch_nodup : NoDup L;
  ch_all : ∀ y, y ∈ L ↔ (y < length (blks t))%nat;
  ch_fit : ∀ i, (i < num)%nat → (2 ≤ k i < length L)%nat;
  ch_seg : seg (blks t) None L None;
  ch_head : L !! 0%nat = Some (head t);
  ch_tail : last L = Some (tail t);
  ch_num : numTrackedCaches (cacheTracking t) = num;
  ch_mask : inAllCachesMask (cacheTracking t) = u32 (Bitfield.mask (Z.of_nat num));
  ch_geo : ct_blkSize (cacheTracking t) = bz ∧ minTrackedSize (cacheTracking t) = ms;
  ch_tracked : tracked num k L (boundaries (cacheTracking t)) (blks t) }.

(** What moving a block leaves alone. *)
Record moved (t t' : FALRU) : Prop := {
  mv_cfg : cfg t' = cfg t;
  mv_st : st t' = st t;
  mv_hash : tagHash t' = tagHash t;
  mv_cores : ∀ y, cores (blks t') y = cores (blks t) y;
  mv_counts : ∃ l, cacheTracking t' = set_boundaries l (cacheTracking t) }.
Lemma moved_refl t : moved t t.
Proof. split; try done. exists (boundaries (cacheTracking t)). by destruct (cacheTracking t). Qed.

Lemma tracked_relinked L l bs bs' : tracked num k L l bs → relinked bs bs' → tracked num k L l bs'.
Proof. intros [Hl Hb Hm] (_ & He & _). split; try done. intros z m HzL Hz. apply Hm; [done|]. by rewrite <-He. Qed.

(** The end of a move: the chain in its new order. *)
Lemma chain_moved t L L' c' bs1 bs' h l t' : chain t L → L' ≡ₚ L →
  remasked (blks t) bs1 → relinked bs1 bs' → seg bs' None L' None →
  tracked num k L' c' bs1 → L' !! 0%nat = Some h → last L' = Some l →
  t' = mkFALRU (cfg t) (warmedUp t) (st t) bs' h l (tagHash t) (set_boundaries c' (cacheTracking t)) →
  chain t' L' ∧ moved t t'.
Proof.
  intros Ht HLL Hr (Hl2 & Hm2 & Hc2) Hs Htr Hh Hl ->. destruct Hr as (Hl1 & _ & Hc1). split.
  - destruct Ht. split; cbn; try done.
    + by rewrite HLL.
    + intros y. by rewrite HLL, ch_all0, Hl2, Hl1.
    + intros i Hi. rewrite HLL. auto.
    + by apply (tracked_relinked _ _ bs1).
  - split; try done; cbn; [|by eexists]. intros y. by rewrite Hc2, Hc1.
Qed.

(** ** Moving a block *)
Lemma moveToHead_ok t l1 x l2 : chain t (l1 ++ x :: l2) →
  ∃ t', moveToHead x t = Ok t' ∧ chain t' (x :: l1 ++ l2) ∧ moved t t'.
Proof.
  intros Ht. pose proof (ch_nodup _ _ Ht) as Hd. unfold moveToHead. case_bool_decide as Hx.
  { exists t. split; [done|]. split; [|apply moved_refl]. destruct l1 as [|h l1]; [done|].
    pose proof (ch_head _ _ Ht) as Hh. cbn in Hh. injection Hh as Hh. subst h x. apply NoDup_cons in Hd as [Hd _]. set_solver. }
  assert (l1 ≠ []) as Hne. { intros ->. pose proof (ch_head _ _ Ht) as Hh. cbn in Hh. congruence. }
  destruct (moveBlockToHead_ok num k Hnum _ l1 l2 x eq_refl Hd (ch_fit _ _ Ht) (cacheTracking t) (blks t)) as (c & bs & -> & Htr & Hr);
    [apply Ht|done|apply Ht|apply Ht|apply Ht|]. cbn [mbind res_bind].
  assert (seg bs None (l1 ++ x :: l2) None) as Hs by (apply (seg_ext (blks t)); [intros y _; apply Hr|apply Ht]).
  assert (x :: l1 ++ l2 ≡ₚ l1 ++ x :: l2) as Hperm by apply Permutation_middle.
  assert (NoDup (x :: l1 ++ l2)) as Hd' by (by rewrite Hperm).
  destruct l1 as [|h l1']; [done|]. pose proof (ch_head _ _ Ht) as Hh. cbn in Hh. injection Hh as Hh.
  pose proof (ch_tail _ _ Ht) as Htail. cbn [blks set_tracking set_blks tail head].
  destruct l2 as [|n l2].
  - rewrite last_snoc in Htail. injection Htail as Htail. rewrite bool_decide_true by done.
    pose proof (seg_prefix bs (h :: l1') x Hs Hd) as Hpre. destruct (last (h :: l1')) as [p|] eqn:Hlast; [|by apply last_None in Hlast].
    destruct Hpre as (b & bs1 & Hb & Hn & Hp & Hu & Hs1 & Hr1). unfold get. rewrite Hb. cbn [mbind res_bind].
    rewrite Hn, bool_decide_true, Hp by done. cbn [assertb deref mbind res_bind]. rewrite Hu. cbn [mbind res_bind blks set_ends set_blks set_tracking head tail].
    rewrite app_nil_r in *. destruct (push_front bs1 x h l1') as (bs2 & bs3 & Hu2 & Hu3 & Hs3 & Hr3); [done|by apply (relinked_some bs)|done|].
    rewrite <-Hh, Hu2. cbn [mbind res_bind]. rewrite Hu3. cbn [mbind res_bind]. eexists. split; [done|].
    apply (chain_moved t _ _ c bs bs3 x p _ Ht); try done; try (by apply (relinked_trans _ bs1)); by rewrite last_cons, Hlast.
  - assert (x ≠ tail t) as Hxt.
    { intros Hxt. rewrite last_app_cons, last_cons_cons in Htail. apply last_Some in Htail as (l' & Hl').
      apply NoDup_app in Hd as (_ & _ & Hd). apply NoDup_cons in Hd as [Hd _]. apply Hd. rewrite Hl', <-Hxt. set_solver. }
    rewrite bool_decide_false by done. destruct (exists_last Hne) as (l0 & p & Hl0).
    destruct (unlink_ok bs l0 p x n l2) as (b & bs1 & Hb & Hu & Hs1 & Hr1); [by rewrite <-Hl0|by rewrite <-Hl0|].
    unfold get. rewrite Hb. cbn [mbind res_bind]. rewrite Hu. cbn [mbind res_bind blks set_ends set_blks set_tracking head tail]. rewrite <-Hl0 in Hs1.
    destruct (push_front bs1 x h (l1' ++ n :: l2)) as (bs2 & bs3 & Hu2 & Hu3 & Hs3 & Hr3); [done|by apply (relinked_some bs)|done|].
    rewrite <-Hh, Hu2. cbn [mbind res_bind]. rewrite Hu3. cbn [mbind res_bind]. eexists. split; [done|].
    apply (chain_moved t _ _ c bs bs3 x (tail t) _ Ht); try done; try (by apply (relinked_trans _ bs1)).
    rewrite last_app_cons, last_cons_cons in Htail. rewrite app_comm_cons, last_app_cons. done.
Qed.

Lemma moveToTail_ok t l1 x l2 : chain t (l1 ++ x :: l2) →
  ∃ t', moveToTail x t = Ok t' ∧ chain t' (l1 ++ l2 ++ [x]) ∧ moved t t'.
Proof.
  intros Ht. pose proof (ch_nodup _ _ Ht) as Hd. pose proof (ch_tail _ _ Ht) as Htail. unfold moveToTail. case_bool_decide as Hx.
  { exists t. split; [done|]. split; [|apply moved_refl]. destruct l2 as [|n l2]; [done|]. rewrite last_app_cons, last_cons_cons in Htail.
    apply last_Some in Htail as (l' & Hl'). apply NoDup_app in Hd as (_ & _ & Hd). apply NoDup_cons in Hd as [Hd _]. destruct Hd.
    rewrite Hl', <-Hx. set_solver. }
  assert (l2 ≠ []) as Hne. { intros ->. rewrite last_snoc in Htail. congruence. }
  destruct (moveBlockToTail_ok num k Hnum _ l1 l2 x eq_refl Hd (ch_fit _ _ Ht) (cacheTracking t) (blks t)) as (c & bs & -> & Htr & Hr);
    [apply Ht|apply Ht|apply Ht|]. cbn [mbind res_bind].
  assert (seg bs None (l1 ++ x :: l2) None) as Hs by (apply (seg_ext (blks t)); [intros y _; apply Hr|apply Ht]).
  assert (l1 ++ l2 ++ [x] ≡ₚ l1 ++ x :: l2) as Hperm by (by rewrite (Permutation_app_comm l2)).
  assert (NoDup (l1 ++ l2 ++ [x])) as Hd' by (by rewrite Hperm). rewrite app_assoc in Hd', Hperm, Htr |- *.
  destruct (exists_last Hne) as (l0 & q & Hl0). rewrite Hl0 in Htail. rewrite app_comm_cons, app_assoc, last_snoc in Htail. injection Htail as Htail.
  assert (l1 ++ l2 = (l1 ++ l0) ++ [q]) as Hq by (by rewrite Hl0, app_assoc). rewrite Hq in Hd', Hperm, Htr |- *.
  pose proof (ch_head _ _ Ht) as Hh. cbn [blks set_tracking set_blks tail head].
  destruct l2 as [|n l2]; [done|]. destruct l1 as [|h l1].
  - cbn in Hh. injection Hh as Hh. rewrite bool_decide_true by done.
    destruct (seg_suffix bs x n l2 Hs Hd) as (b & bs1 & Hb & Hp & Hn & Hu & Hs1 & Hr1). unfold get. rewrite Hb. cbn [mbind res_bind].
    rewrite Hp, bool_decide_true, Hn by done. cbn [assertb deref mbind res_bind]. rewrite Hu.
    cbn [mbind res_bind blks set_ends set_blks set_tracking head tail]. change (n :: l2) with ([] ++ n :: l2) in Hs1. rewrite Hq in Hs1.
    destruct (push_back bs1 x ([] ++ l0) q) as (bs2 & bs3 & Hu2 & Hu3 & Hs3 & Hr3); [done|by apply (relinked_some bs)|done|].
    rewrite <-Htail, Hu2. cbn [mbind res_bind]. rewrite Hu3. cbn [mbind res_bind]. eexists. split; [done|].
    apply (chain_moved t _ _ c bs bs3 n x _ Ht); try done; try (by apply (relinked_trans _ bs1)); [|by rewrite last_snoc].
    rewrite <-Hq. done.
  - cbn in Hh. injection Hh as Hh. rewrite bool_decide_false by (intros Hxh; apply NoDup_cons in Hd as [Hd _]; set_solver).
    destruct (exists_last (l := h :: l1) ltac:(done)) as (lp & p & Hlp).
    destruct (unlink_ok bs lp p x n l2) as (b & bs1 & Hb & Hu & Hs1 & Hr1); [by rewrite <-Hlp|by rewrite <-Hlp|].
    unfold get. rewrite Hb. cbn [mbind res_bind]. rewrite Hu. cbn [mbind res_bind blks set_ends set_blks set_tracking head tail].
    rewrite <-Hlp, Hq in Hs1.
    destruct (push_back bs1 x ((h :: l1) ++ l0) q) as (bs2 & bs3 & Hu2 & Hu3 & Hs3 & Hr3); [done|by apply (relinked_some bs)|done|].
    rewrite <-Htail, Hu2. cbn [mbind res_bind]. rewrite Hu3. cbn [mbind res_bind]. eexists. split; [done|].
    apply (chain_moved t _ _ c bs bs3 (head t) x _ Ht); try done; try (by apply (relinked_trans _ bs1)); [|by rewrite last_snoc].
    cbn. by rewrite Hh.
Qed.

(** ** Contents *)
Definition holds_key (c : CacheBlk) (o : option key) : Prop :=
  match o with
  | Some x => isValid c = true ∧ (tag c, isSecure c) = x
  | None => isValid c = false ∧ status c = 0
  end.
(** The keys of valid blocks come first. *)
Definition pad (n : nat) (ks : list key) : list (option key) := (Some <$> ks) ++ replicate (n - length ks) None.

(** The blocks with what they hold, from the one used last to the one used
    first, and the keys of the LRU list they stand for. *)
Record inv (t : FALRU) (P : list (nat * option key)) (ks : list key) : Prop := {
  in_chain : chain t (P.*1);
  in_cores : ∀ y o, (y, o) ∈ P → ∃ c, cores (blks t) y = Some c ∧ holds_key c o;
  in_hash : ∀ x y, tagHash t !! x = Some y ↔ (y, Some x) ∈ P;
  in_order : P.*2 = pad (length P) ks;
  in_nodup : NoDup ks }.

Lemma pad_split n o1 x o2 ks : o1 ++ Some x :: o2 = pad n ks →
  ∃ k1 k2, ks = k1 ++ x :: k2 ∧ o1 = Some <$> k1 ∧ o2 = (Some <$> k2) ++ replicate (n - length ks) None.
Proof.
  clear. unfold pad. generalize (n - length ks)%nat as m. intros m. revert ks. induction o1 as [|o o1 IH]; intros ks; cbn [app].
  - destruct ks as [|x' ks]; cbn; [by destruct m|]. intros [= -> ->]. by exists [], ks.
  - destruct ks as [|x' ks]; cbn [fmap list_fmap app].
    + intros He. exfalso. assert (Some x ∈ replicate m (None : option key)) as Hin by (rewrite <-He; set_solver).
      apply elem_of_replicate in Hin as [? _]. done.
    + intros [= -> He]. destruct (IH ks He) as (k1 & k2 & -> & -> & ->). by exists (x' :: k1), k2.
Qed.
Lemma pad_keys n ks x : Some x ∈ pad n ks ↔ x ∈ ks.
Proof.
  unfold pad. rewrite elem_of_app, list_elem_of_fmap, elem_of_replicate. split; [|eauto].
  intros [(y & [= ->] & Hy)|[? _]]; done.
Qed.

Lemma inv_length t P ks : inv t P ks → (length ks ≤ length P)%nat.
Proof.
  intros Hi. pose proof (f_equal length (in_order _ _ _ Hi)) as He. unfold pad in He.
  rewrite length_app, !length_fmap, length_replicate in He. lia.
Qed.
Lemma inv_key t P ks x : inv t P ks → x ∈ ks → ∃ y, (y, Some x) ∈ P.
Proof.
  intros Hi Hx. apply (pad_keys (length P)) in Hx. rewrite <-(in_order _ _ _ Hi) in Hx.
  apply list_elem_of_fmap in Hx as ([y o] & Ho & Hy). cbn in Ho. subst o. by exists y.
Qed.
Lemma inv_held t P ks x y : inv t P ks → (y, Some x) ∈ P → x ∈ ks.
Proof.
  intros Hi Hy. apply (pad_keys (length P)). rewrite <-(in_order _ _ _ Hi). apply list_elem_of_fmap. by exists (y, Some x).
Qed.

Lemma findBlock_ok t P ks a sec : inv t P ks →
  ∃ r, findBlock t a sec = Ok r ∧
    match r with
    | Some y => (y, Some (extractTag t a, sec)) ∈ P
    | None => (extractTag t a, sec) ∉ ks
    end.
Proof.
  intros Hi. unfold findBlock. destruct (tagHash t !! (extractTag t a, sec)) as [y|] eqn:Hh.
  - apply (in_hash _ _ _ Hi) in Hh. destruct (in_cores _ _ _ Hi _ _ Hh) as (c & Hc & Hv & Ht).
    apply fmap_Some in Hc as (b & Hb & ->). unfold get. rewrite Hb. cbn [mbind res_bind]. rewrite Hv.
    injection Ht as -> ->. rewrite Z.eqb_refl, eqb_reflx. cbn [assertb mbind res_bind]. by eexists.
  - eexists. split; [done|]. intros Hx. destruct (inv_key _ _ _ _ Hi Hx) as (y & Hy). apply (in_hash _ _ _ Hi) in Hy. congruence.
Qed.

(** A block moved along the chain with what it holds. *)
Lemma inv_moved t t' P P' ks ks' : inv t P ks → chain t' (P'.*1) → moved t t' → P' ≡ₚ P → P'.*2 = pad (length P') ks' →
  NoDup ks' → inv t' P' ks'.
Proof.
  intros [Hc Hco Hh Ho Hn] Hc' Hm HP Hp Hn'. split; try done.
  - intros y o Hy. rewrite HP in Hy. rewrite (mv_cores _ _ Hm). auto.
  - intros x y. by rewrite (mv_hash _ _ Hm), HP.
Qed.

(** ** Accesses *)
Lemma drop_absent x ks : x ∉ ks → lru_drop x ks = ks.
Proof.
  unfold lru_drop. induction ks as [|y l IH]; intros Hl; [done|]. rewrite filter_cons_True by (intros ->; set_solver).
  f_equal. apply IH. set_solver.
Qed.
Lemma drop_middle k1 x k2 : NoDup (k1 ++ x :: k2) → lru_drop x (k1 ++ x :: k2) = k1 ++ k2.
Proof.
  intros (_ & Hx & [Hx2 _]%NoDup_cons)%NoDup_app. unfold lru_drop. rewrite filter_app, filter_cons_False by (by intros []).
  fold (lru_drop x k1) (lru_drop x k2). rewrite !drop_absent; [done|done|]. intros Hin. apply (Hx x Hin). set_solver.
Qed.
Lemma pad_touch n o1 x o2 ks : o1 ++ Some x :: o2 = pad n ks → NoDup ks →
  Some x :: o1 ++ o2 = pad n (lru_touch x ks) ∧ NoDup (lru_touch x ks).
Proof.
  intros Ho Hn. destruct (pad_split _ _ _ _ _ Ho) as (k1 & k2 & -> & -> & ->). unfold lru_touch.
  rewrite decide_True by set_solver. rewrite drop_middle by done. split; [|by rewrite Permutation_middle].
  unfold pad. cbn [fmap list_fmap app]. rewrite fmap_app, <-app_assoc. do 4 f_equal. rewrite length_app. cbn. rewrite length_app. lia.
Qed.
Lemma pad_drop n o1 x o2 ks : o1 ++ Some x :: o2 = pad n ks → NoDup ks → (length ks ≤ n)%nat →
  o1 ++ o2 ++ [None] = pad n (lru_drop x ks) ∧ NoDup (lru_drop x ks).
Proof.
  intros Ho Hn Hl. destruct (pad_split _ _ _ _ _ Ho) as (k1 & k2 & -> & -> & ->). split; [|by apply NoDup_filter].
  rewrite drop_middle by done. unfold pad. rewrite fmap_app, <-!app_assoc. do 2 f_equal.
  change [None] with (replicate 1 (None : option key)). rewrite <-replicate_add. f_equal. rewrite !length_app in *. cbn in *. lia.
Qed.
Lemma pad_last n o1 ks : o1 ++ [None] = pad (length (o1 ++ [None])) ks → n = length o1 → (length ks ≤ n)%nat ∧ o1 = pad n ks.
Proof.
  intros Ho ->. rewrite length_app in Ho. cbn in Ho. unfold pad in *. pose proof (f_equal length Ho) as Hl.
  rewrite !length_app, length_fmap, length_replicate in Hl. cbn in Hl.
  destruct (decide (length ks ≤ length o1)%nat) as [Hle|Hgt].
  - split; [done|]. replace (length o1 + 1 - length ks)%nat with ((length o1 - length ks) + 1)%nat in Ho by lia.
    rewrite replicate_add, app_assoc in Ho. by apply app_inj_tail in Ho as [? _].
  - replace (length o1 + 1 - length ks)%nat with 0%nat in Ho by lia. rewrite app_nil_r in Ho.
    assert (None ∈ (Some <$> ks : list (option key))) as (? & ? & _)%list_elem_of_fmap by (rewrite <-Ho; set_solver). done.
Qed.
(** A block stands once in the chain. *)
Lemma alone (P1 P2 : list (nat * option key)) y o0 o : NoDup ((P1 ++ (y, o0) :: P2).*1) → (y, o) ∉ P1 ++ P2.
Proof.
  rewrite fmap_app. cbn. intros (_ & Hx1 & [Hx2 _]%NoDup_cons)%NoDup_app. rewrite elem_of_app. intros [Hz|Hz].
  - apply (Hx1 y); [apply list_elem_of_fmap; by exists (y, o)|by left].
  - apply Hx2. apply list_elem_of_fmap. by exists (y, o).
Qed.

Lemma record_loop_other n i b c : ∃ h m, record_loop n i b c =
  mkTracking (ct_blkSize c) (minTrackedSize c) (numTrackedCaches c) (inAllCachesMask c) (boundaries c) h m (accesses c).
Proof.
  revert i c. induction n as [|n IH]; intros i c; cbn [record_loop]; [destruct c; by eexists _, _|].
  match goal with |- context [record_loop n (S i) b ?c1] => destruct (IH (S i) c1) as (h & m & ->) end. by eexists _, _.
Qed.
Lemma recordAccess_other b c : ∃ h m, recordAccess b c =
  mkTracking (ct_blkSize c) (minTrackedSize c) (numTrackedCaches c) (inAllCachesMask c) (boundaries c) h m (accesses c + 1).
Proof. unfold recordAccess. destruct (record_loop_other (numTrackedCaches c) 0 b c) as (h & m & ->). cbn. by eexists _, _. Qed.
Lemma inv_record t P ks b : inv t P ks → inv (set_tracking (recordAccess b (cacheTracking t)) t) P ks.
Proof.
  intros [Hc ? ? ? ?]. destruct (recordAccess_other b (cacheTracking t)) as (h & m & He). rewrite He. split; try done.
  destruct Hc. by split.
Qed.

(** Every cache has counted the same. *)
Definition even (t : FALRU) : Prop :=
  ∃ h m, hits (cacheTracking t) = replicate (S num) h ∧ misses (cacheTracking t) = replicate (S num) m.
Lemma moved_even t t' : moved t t' → even t → even t'.
Proof. intros Hm (h & m & Hh & Hmi). destruct (mv_counts _ _ Hm) as (l & Hc). exists h, m. by rewrite Hc. Qed.

Lemma count_next i n h : count i (replicate i (h + 1) ++ replicate (S n) h) = replicate (S i) (h + 1) ++ replicate n h.
Proof.
  induction i as [|i IH]; [done|]. change (replicate (S i) (h + 1) ++ replicate (S n) h) with (h + 1 :: replicate i (h + 1) ++ replicate (S n) h).
  change (count (S i) (h + 1 :: replicate i (h + 1) ++ replicate (S n) h)) with (h + 1 :: count i (replicate i (h + 1) ++ replicate (S n) h)). rewrite IH. done.
Qed.
(** A block that fits everywhere, or nowhere, is counted everywhere. *)
Definition fits_as (b : option FALRUBlk) (f : bool) : Prop :=
  match b with
  | Some b => ∀ i, (i < num)%nat → negb (Z.land (bit i) (inCachesMask b) =? 0) = f
  | None => f = false
  end.
Lemma record_loop_even b f n i c h m : fits_as b f → (i + n = num)%nat →
  hits c = (if f then replicate i (h + 1) ++ replicate (S n) h else replicate (S num) h) →
  misses c = (if f then replicate (S num) m else replicate i (m + 1) ++ replicate (S n) m) →
  hits (record_loop n i b c) = (if f then replicate num (h + 1) ++ [h] else replicate (S num) h) ∧
  misses (record_loop n i b c) = (if f then replicate (S num) m else replicate num (m + 1) ++ [m]).
Proof.
  intros Hb. revert i c. induction n as [|n IH]; intros i c Hin Hh Hm; cbn [record_loop].
  { replace num with i by lia. destruct f; split; try done; rewrite ?Hh, ?Hm; f_equal; f_equal; lia. }
  assert (match b with Some b => negb (Z.land (bit i) (inCachesMask b) =? 0) | None => false end = f) as ->.
  { destruct b; [apply Hb; lia|done]. }
  apply IH; [lia| |]; cbn [hits misses]; destruct f; rewrite ?Hh, ?Hm; try done; by apply count_next.
Qed.
Lemma record_even b c f h m : fits_as b f → match b with Some b => isValid (fblk b) | None => false end = f →
  numTrackedCaches c = num → hits c = replicate (S num) h → misses c = replicate (S num) m →
  hits (recordAccess b c) = replicate (S num) (if f then h + 1 else h) ∧
  misses (recordAccess b c) = replicate (S num) (if f then m else m + 1).
Proof.
  intros Hb Hv Hn Hh Hm. destruct (record_loop_even b f num 0 c h m Hb eq_refl) as [H1 H2];
    [destruct f; by rewrite Hh|destruct f; by rewrite Hm|]. unfold recordAccess. rewrite Hn.
  assert (numTrackedCaches (record_loop num 0 b c) = num) as Hn'.
  { destruct (record_loop_other num 0 b c) as (? & ? & ->). done. }
  cbn [hits misses]. rewrite Hv, Hn', H1, H2. assert (∀ v, count num (replicate num (v + 1) ++ [v]) = replicate (S num) (v + 1)) as Hc.
  { intros v. rewrite (count_next num 0 v : count num (replicate num (v + 1) ++ [v]) = _). by rewrite app_nil_r. }
  destruct f; rewrite ?Hc; done.
Qed.

Lemma elem_take_at {A} (l : list A) c p z : NoDup l → l !! p = Some z → z ∈ take c l ↔ (p < c)%nat.
Proof.
  intros Hd Hp. rewrite list_elem_of_lookup. split.
  - intros (q & Hq). rewrite lookup_take in Hq. case_decide; [|done]. by rewrite (NoDup_lookup l p q z Hd Hp Hq).
  - intros Hlt. exists p. by rewrite lookup_take_lt.
Qed.

Lemma fa_hit_ok t P1 y x P2 ks : inv t (P1 ++ (y, Some x) :: P2) ks →
  ∃ b t', blks t !! y = Some b ∧ isValid (fblk b) = true ∧ moveToHead y t = Ok t' ∧
    inv t' ((y, Some x) :: P1 ++ P2) (lru_touch x ks) ∧ moved t t' ∧
    ∀ i, (i < num)%nat → Z.testbit (inCachesMask b) (Z.of_nat i) = bool_decide (x ∈ take (k i) ks).
Proof.
  intros Hi. pose proof (in_chain _ _ _ Hi) as Hc. pose proof (in_nodup _ _ _ Hi) as Hn.
  destruct (in_cores _ _ _ Hi y (Some x)) as (c & (b & Hb & ->)%fmap_Some & Hv & _); [set_solver|].
  pose proof (in_order _ _ _ Hi) as Ho. rewrite fmap_app in Hc. rewrite fmap_app in Ho. cbn [fmap list_fmap fst snd] in Hc, Ho.
  destruct (moveToHead_ok t _ _ _ Hc) as (t' & Hm & Hc' & Hmv). exists b, t'. split; [done|]. split; [done|]. split; [done|].
  split; [|split; [done|]].
  - destruct (pad_touch _ _ _ _ _ Ho Hn) as [Ho' Hn']. apply (inv_moved t t' (P1 ++ (y, Some x) :: P2) _ ks); try done.
    + cbn. by rewrite fmap_app.
    + apply Permutation_middle.
    + cbn [fmap list_fmap snd]. rewrite fmap_app. etransitivity; [exact Ho'|]. f_equal. cbn. rewrite !length_app. cbn. lia.
  - intros i Hlt. destruct (tr_mask _ _ _ _ _ (ch_tracked _ _ Hc) y (inCachesMask b)) as [_ Hbits];
      [set_solver|unfold masks; by rewrite Hb|]. rewrite Hbits. apply bool_decide_ext.
    destruct (pad_split _ _ _ _ _ Ho) as (k1 & k2 & Hks & Hk1 & _).
    rewrite (elem_take_at _ (k i) (length (P1.*1)) y (ch_nodup _ _ Hc)) by (by apply list_lookup_middle).
    rewrite (elem_take_at ks (k i) (length k1) x Hn) by (rewrite Hks; by apply list_lookup_middle).
    assert (length (P1.*1) = length k1) as ->; [|naive_solver]. rewrite length_fmap, <-(length_fmap snd P1), Hk1. by rewrite length_fmap.
Qed.

(** The first block fits in every cache. *)
Lemma head_fits t y l b : chain t (y :: l) → blks t !! y = Some b → fits_as (Some b) true.
Proof.
  intros Hc Hb i Hi. pose proof (ch_fit _ _ Hc i Hi). rewrite bit_test by lia.
  destruct (tr_mask _ _ _ _ _ (ch_tracked _ _ Hc) y (inCachesMask b)) as [_ ->]; [set_solver|unfold masks; by rewrite Hb|].
  apply bool_decide_true. split; [done|]. rewrite take_cons_pos by lia. by left.
Qed.

Lemma fa_access_ok t P ks a sec : inv t P ks →
  ∃ blk m t' P', accessBlock a sec t = Ok (blk, m, Tags.lookupLatency (cfg t), t') ∧ cfg t' = cfg t ∧
    inv t' P' (lru_touch (extractTag t a, sec) ks) ∧ length P' = length P ∧ (even t → even t') ∧
    (blk = None ↔ (extractTag t a, sec) ∉ ks) ∧
    ∀ i, (i < num)%nat → Z.testbit m (Z.of_nat i) = bool_decide ((extractTag t a, sec) ∈ take (k i) ks).
Proof.
  intros Hi. unfold accessBlock. set (x := (extractTag t a, sec)).
  destruct (findBlock_ok t P ks a sec Hi) as (r & -> & Hr). cbn [mbind res_bind]. fold x in Hr. destruct r as [y|].
  - pose proof (inv_held _ _ _ _ _ Hi Hr) as Hx. apply list_elem_of_split in Hr as (P1 & P2 & ->).
    destruct (fa_hit_ok t P1 y x P2 ks Hi) as (b & t' & Hb & Hv & Hm & Hi' & Hmv & Hbits). assert (get (blks t) y = Ok b) as -> by (unfold get; by rewrite Hb).
    cbn [mbind res_bind]. rewrite Hv, Hm. cbn [mbind res_bind].
    destruct (in_cores _ _ _ Hi' y (Some x)) as (c & (b' & Hb' & ->)%fmap_Some & Hc'); [set_solver|].
    unfold get. rewrite Hb'. cbn [mbind res_bind]. eexists _, _, _, _. split; [cbn [cfg set_tracking]; by rewrite (mv_cfg _ _ Hmv)|].
    split; [apply Hmv|]. split; [by apply inv_record|]. split; [cbn; rewrite !length_app; cbn; lia|]. split; [|by split; [split; [done|intros []]|]].
    intros (h & mi & Hh & Hmi)%(moved_even t t' Hmv). exists (h + 1), mi.
    destruct (record_even (Some b') (cacheTracking t') true h mi) as [H1 H2]; try done; [|by destruct Hc'|apply (in_chain _ _ _ Hi')].
    by apply (head_fits t' y (P1 ++ P2).*1); [apply Hi'|].
  - cbn [mbind res_bind]. eexists _, _, _, P. split; [done|]. split; [done|]. split.
    { unfold lru_touch. rewrite decide_False by done. by apply inv_record. }
    split; [done|]. split.
    { intros (h & mi & Hh & Hmi). exists h, (mi + 1). by apply (record_even None (cacheTracking t) false h mi); [..|apply (in_chain _ _ _ Hi)| |]. }
    split; [done|]. intros i _. rewrite Z.testbit_0_l. symmetry. apply bool_decide_eq_false.
    intros Hin. apply Hr. by eapply subseteq_take.
Qed.

(** ** Insertion and invalidation *)

(** A step that changes what a block holds, not the chain. *)
Lemma chain_ext t t' L : chain t L → length (blks t') = length (blks t) → (∀ y, links (blks t') y = links (blks t) y) →
  (∀ y, masks (blks t') y = masks (blks t) y) → head t' = head t → tail t' = tail t → cacheTracking t' = cacheTracking t →
  chain t' L.
Proof.
  intros [] Hl Hli Hm Hh Ht Hc. split; rewrite ?Hh, ?Ht, ?Hc, ?Hl; try done.
  - apply (seg_ext (blks t)); [intros y _; apply Hli|done].
  - destruct ch_tracked0 as [? ? Htm]. split; try done. intros z m Hz. rewrite Hm. auto.
Qed.
Lemma core_insert bs e b c y : bs !! e = Some b →
  links (<[e := set_fblk c b]> bs) y = links bs y ∧ masks (<[e := set_fblk c b]> bs) y = masks bs y ∧
  cores (<[e := set_fblk c b]> bs) y = if decide (y = e) then Some c else cores bs y.
Proof.
  intros Hb. pose proof (lookup_lt_Some _ _ _ Hb). unfold links, masks, cores.
  destruct (decide (y = e)) as [->|]; [by rewrite list_lookup_insert_eq, Hb|by rewrite list_lookup_insert_ne].
Qed.

Lemma drop_ok t P1 y x P2 ks : inv t (P1 ++ (y, Some x) :: P2) ks →
  ∃ t', invalidate y t = Ok t' ∧ inv t' (P1 ++ P2 ++ [(y, None)]) (lru_drop x ks) ∧ cfg t' = cfg t ∧ (even t → even t').
Proof.
  intros Hi. pose proof (in_chain _ _ _ Hi) as Hc. pose proof (ch_nodup _ _ Hc) as HnL. set (P := P1 ++ (y, Some x) :: P2) in *.
  assert ((y, Some x) ∈ P) as HyP by (unfold P; set_solver). pose proof (alone P1 P2 y (Some x)) as Halone.
  destruct (in_cores _ _ _ Hi _ _ HyP) as (c & (b & Hb & ->)%fmap_Some & Hv & Hkey).
  pose proof (proj2 (in_hash _ _ _ Hi x y) HyP) as Hh. pose proof (inv_length _ _ _ Hi) as Hlen.
  unfold invalidate, base_invalidate. cbn [blks set_hash]. unfold get. rewrite Hb. cbn [mbind res_bind].
  rewrite Hkey, Hh, bool_decide_true by (by eexists). cbn [assertb mbind res_bind blks set_hash].
  rewrite Hv. cbn [assertb mbind res_bind]. match goal with |- context [moveToTail y ?t1] => set (t1' := t1) end.
  assert (chain t1' (P1.*1 ++ y :: P2.*1)) as Hc1.
  { apply (chain_ext t); try done; cbn; [unfold P in Hc; by rewrite fmap_app in Hc|by rewrite length_insert|..]; intros z; by apply core_insert. }
  destruct (moveToTail_ok t1' _ _ _ Hc1) as (t' & Hm & Hc' & Hmv). rewrite Hm. exists t'. split; [done|].
  split; [|split; [by rewrite (mv_cfg _ _ Hmv)|exact (moved_even t1' t' Hmv)]].
  assert (P1.*2 ++ Some x :: P2.*2 = pad (length P) ks) as Ho by (rewrite <-(in_order _ _ _ Hi); unfold P; by rewrite fmap_app).
  destruct (pad_drop _ _ _ _ _ Ho (in_nodup _ _ _ Hi) Hlen) as [Ho' Hn']. split; [by rewrite !fmap_app| | | |done].
  - intros z o Hz. rewrite (mv_cores _ _ Hmv). cbn. rewrite (proj2 (proj2 (core_insert _ _ _ _ _ Hb))).
    case_decide as Hzy; [subst z; eexists; split; [done|]|apply (in_cores _ _ _ Hi); unfold P; set_solver].
    rewrite app_assoc, elem_of_app, list_elem_of_singleton in Hz. destruct Hz as [Hz|[= ->]]; [|done]. by destruct (Halone o HnL).
  - intros x' z. rewrite (mv_hash _ _ Hmv). cbn. rewrite lookup_delete_Some, (in_hash _ _ _ Hi).
    rewrite app_assoc, elem_of_app, list_elem_of_singleton. split; [unfold P; set_solver|]. intros [Hz|[=]].
    assert ((z, Some x') ∈ P) as HzP by (unfold P; set_solver). split; [|done]. intros <-.
    pose proof (proj2 (in_hash _ _ _ Hi x z) HzP) as Hzx. rewrite Hh in Hzx. injection Hzx as <-. by apply (Halone (Some x) HnL).
  - rewrite !fmap_app. etransitivity; [exact Ho'|]. f_equal. unfold P. rewrite !length_app. cbn. lia.
Qed.

(** The block at the end fits in no smaller cache. *)
Lemma tail_mask t L l y b : chain t L → L = l ++ [y] → blks t !! y = Some b → inCachesMask b = 0.
Proof.
  intros Hc HL Hb. assert (L !! length l = Some y) as Hy by (rewrite HL; by apply list_lookup_middle).
  destruct (tr_mask _ _ _ _ _ (ch_tracked _ _ Hc) y (inCachesMask b)) as [H0 Hbits];
    [by eapply list_elem_of_lookup_2|unfold masks; by rewrite Hb|].
  apply same_bits; try done. intros i. rewrite Hbits, Z.testbit_0_l. apply bool_decide_false.
  rewrite (elem_take_at _ _ _ _ (ch_nodup _ _ Hc) Hy). intros [Hi Hlt]. pose proof (ch_fit _ _ Hc i Hi) as [_ Hf].
  rewrite HL, length_app in Hf. cbn in Hf. lia.
Qed.
Lemma inserted now tg sec src task c : status c = 0 →
  ∃ c', insert now tg sec src task c = Ok c' ∧ holds_key c' (Some (tg, sec)).
Proof.
  intros Hs. unfold insert, setValid, setSecure, isValid. rewrite Hs. destruct sec; cbn; rewrite ?Hs; cbn; eexists; (split; [done|]); done.
Qed.

Lemma insert_block_ok w p r task t P0 v ks : inv t (P0 ++ [(v, None)]) ks → (extractTag t (Pkt.addr p), Pkt.secure p) ∉ ks →
  r < Tags.maxRequestors (cfg t) →
  ∃ t', insertBlock w p r task v t = Ok t' ∧
    inv t' ((v, Some (extractTag t (Pkt.addr p), Pkt.secure p)) :: P0) ((extractTag t (Pkt.addr p), Pkt.secure p) :: ks) ∧
    cfg t' = cfg t ∧ (even t → even t').
Proof.
  intros Hi Hx Hr. set (x := (extractTag t (Pkt.addr p), Pkt.secure p)) in *. pose proof (in_chain _ _ _ Hi) as Hc.
  destruct (in_cores _ _ _ Hi v None) as (c & (b & Hb & ->)%fmap_Some & Hv & Hst); [set_solver|].
  rewrite fmap_app in Hc. pose proof (ch_nodup _ _ Hc) as HnL. cbn [fmap list_fmap fst] in Hc, HnL.
  unfold insertBlock. assert (get (blks t) v = Ok b) as Hg by (unfold get; by rewrite Hb). rewrite Hg. cbn [mbind res_bind].
  rewrite (tail_mask t _ (P0.*1) v b Hc eq_refl Hb). cbn [Z.eqb assertb mbind res_bind]. unfold base_insertBlock. rewrite Hg.
  cbn [mbind res_bind]. rewrite Hv, (proj2 (Z.ltb_lt _ _) Hr). cbn [negb assertb mbind res_bind].
  destruct (inserted (curTick w) (extractTag t (Pkt.addr p)) (Pkt.secure p) r task (fblk b) Hst) as (c' & -> & Hc').
  cbn [mbind res_bind]. match goal with |- context [moveToHead v ?t1] => set (t1' := t1) end.
  assert (chain t1' (P0.*1 ++ v :: [])) as Hc1.
  { apply (chain_ext t); try done; cbn; [by rewrite length_insert|..]; intros z; by apply core_insert. }
  destruct (moveToHead_ok t1' _ _ _ Hc1) as (t' & Hm & Hch & Hmv). rewrite Hm. cbn [mbind res_bind].
  assert (cores (blks t') v = Some c') as (b' & Hb' & Hbc)%fmap_Some.
  { rewrite (mv_cores _ _ Hmv). cbn. rewrite (proj2 (proj2 (core_insert _ _ _ _ _ Hb))). by rewrite decide_True. }
  assert (get (blks t') v = Ok b') as -> by (unfold get; by rewrite Hb'). cbn [mbind res_bind].
  destruct Hc' as [Hv' Hkey]. rewrite <-Hbc, Hkey. fold x. eexists. split; [done|]. split; [|split; [cbn [cfg set_hash]; by rewrite (mv_cfg _ _ Hmv)|exact (moved_even t1' t' Hmv)]].
  assert (∀ o, (v, o) ∉ P0) as Halone. { intros o Ho. apply (alone P0 [] v None o); [by rewrite fmap_app|]. by rewrite app_nil_r. }
  split.
  - rewrite app_nil_r in Hch. cbn [fmap list_fmap fst]. destruct Hch. by split.
  - intros z o Hz. cbn [blks set_hash]. rewrite (mv_cores _ _ Hmv). cbn. rewrite (proj2 (proj2 (core_insert _ _ _ _ _ Hb))).
    apply elem_of_cons in Hz as [[= -> ->]|Hz]; [rewrite decide_True by done; by exists c'|].
    rewrite decide_False by (intros ->; by apply (Halone o)). apply (in_cores _ _ _ Hi). set_solver.
  - intros x' z. cbn [tagHash set_hash]. rewrite (mv_hash _ _ Hmv). cbn. rewrite lookup_insert_Some, (in_hash _ _ _ Hi), elem_of_app,
      list_elem_of_singleton, elem_of_cons. split; [naive_solver|]. intros [[= -> ->]|Hz]; [by left|right]. split; [|by left].
    intros <-. apply Hx. apply (inv_held _ _ _ _ z Hi). set_solver.
  - pose proof (in_order _ _ _ Hi) as Ho. rewrite fmap_app in Ho. cbn [fmap list_fmap snd] in Ho |- *.
    destruct (pad_last (length P0) (P0.*2) ks) as [Hle ->]; [|by rewrite length_fmap|done].
    replace (length (P0.*2 ++ [None])) with (length (P0 ++ [(v, None : option key)])) by (by rewrite !length_app, length_fmap). exact Ho.
  - constructor; [done|apply Hi].
Qed.

Lemma fa_fill_ok w p r task t P ks : inv t P ks → can (Fill w p r task) t →
  ∃ t' P', fill w p r task t = Ok t' ∧
    inv t' P' (lru_fill (length P) (extractTag t (Pkt.addr p), Pkt.secure p) ks) ∧ length P' = length P ∧ cfg t' = cfg t ∧ (even t → even t').
Proof.
  intros Hi [Hf Hr]. destruct (findBlock_ok t P ks (Pkt.addr p) (Pkt.secure p) Hi) as (o' & Ho' & Hx).
  rewrite Hf in Ho'. injection Ho' as <-. set (x := (extractTag t (Pkt.addr p), Pkt.secure p)) in *.
  unfold fill, findVictim. pose proof (ch_tail _ _ (in_chain _ _ _ Hi)) as Ht. rewrite fmap_last in Ht.
  apply fmap_Some in Ht as ([v o] & HP & ->). apply last_Some in HP as (P0 & ->). cbn [fst].
  destruct (in_cores _ _ _ Hi v o) as (c & (b & Hb & ->)%fmap_Some & Hc); [set_solver|].
  assert (get (blks t) v = Ok b) as -> by (unfold get; by rewrite Hb). cbn [mbind res_bind].
  assert (length (P0 ++ [(v, o)]) - 1 = length P0)%nat as Hlen by (rewrite length_app; cbn; lia).
  pose proof (in_order _ _ _ Hi) as Ho. rewrite fmap_app in Ho. cbn [fmap list_fmap snd] in Ho.
  assert (∃ t1, (if isValid (fblk b) then invalidate v t else Ok t) = Ok t1 ∧
    inv t1 (P0 ++ [(v, None)]) (take (length P0) ks) ∧ cfg t1 = cfg t ∧ (even t → even t1)) as (t1 & -> & Hi1 & Hcfg & Hev).
  { destruct o as [x0|].
    - destruct Hc as [-> _]. destruct (drop_ok t P0 v x0 [] ks Hi) as (t1 & -> & Hi1 & ?). exists t1. split; [done|]. split; [|done].
      destruct (pad_split _ _ _ _ _ Ho) as (k1 & k2 & -> & Hk1 & Hk2). symmetry in Hk2. apply app_eq_nil in Hk2 as [Hk2 _].
      apply fmap_nil_inv in Hk2. subst k2. rewrite drop_middle, app_nil_r in Hi1 by apply Hi. cbn [app] in Hi1.
      rewrite <-(length_fmap snd P0), Hk1, length_fmap, take_app_length. done.
    - destruct Hc as [-> _]. exists t. split; [done|]. split; [|done].
      destruct (pad_last (length P0) (P0.*2) ks) as [Hle _]; [|by rewrite length_fmap|by rewrite take_ge].
      replace (length (P0.*2 ++ [None])) with (length (P0 ++ [(v, None : option key)])) by (by rewrite !length_app, length_fmap). exact Ho. }
  cbn [mbind res_bind]. assert (extractTag t1 (Pkt.addr p) = extractTag t (Pkt.addr p)) as He by (unfold extractTag; by rewrite Hcfg).
  destruct (insert_block_ok w p r task t1 P0 v (take (length P0) ks) Hi1) as (t' & -> & Hi' & Hcfg' & Hev').
  - rewrite He. fold x. intros Hin. apply Hx. by eapply subseteq_take.
  - by rewrite Hcfg.
  - rewrite He in Hi'. fold x in Hi'. eexists _, _. split; [done|]. split; [unfold lru_fill; rewrite Hlen; exact Hi'|].
    split; [rewrite length_app; cbn; lia|]. split; [congruence|auto].
Qed.

Lemma fa_step t P ks o : inv t P ks → can o t →
  ∃ t' P', exec o t = Ok t' ∧ inv t' P' (spec (length P) (cfg t) o ks) ∧ length P' = length P ∧ cfg t' = cfg t ∧ (even t → even t').
Proof.
  intros Hi Hc. destruct o as [a sec|w p r task|a sec]; cbn [exec spec].
  - destruct (fa_access_ok t P ks a sec Hi) as (blk & m & t' & P' & -> & ? & ? & ? & ? & _). cbn [mbind res_bind]. by exists t', P'.
  - by apply fa_fill_ok.
  - destruct (findBlock_ok t P ks a sec Hi) as (blk & -> & Hr). cbn [mbind res_bind]. destruct blk as [y|].
    + apply list_elem_of_split in Hr as (P1 & P2 & ->). destruct (drop_ok _ _ _ _ _ _ Hi) as (t' & -> & ? & ? & ?).
      eexists _, _. split; [done|]. split; [done|]. split; [rewrite !length_app; cbn; lia|done].
    + exists t, P. split; [done|]. split; [|done]. fold (extractTag t a). by rewrite drop_absent.
Qed.

Lemma fa_run l t P ks : inv t P ks → admissible l t →
  ∃ t' P', exec_all l t = Ok t' ∧ inv t' P' (foldl (λ ks o, spec (length P) (cfg t) o ks) ks l) ∧
    length P' = length P ∧ cfg t' = cfg t ∧ (even t → even t').
Proof.
  revert t P ks. induction l as [|o l IH]; intros t P ks Hi Ha; [by exists t, P|]. destruct Ha as [Hc Ha].
  destruct (fa_step t P ks o Hi Hc) as (t1 & P1 & He & Hi1 & Hl1 & Hc1 & Hv1). cbn [exec_all foldl]. rewrite He in Ha |- *.
  cbn [mbind res_bind]. destruct (IH t1 P1 _ Hi1 Ha) as (t2 & P2 & -> & Hi2 & ? & ? & Hv2). exists t2, P2.
  split; [done|]. rewrite Hl1, Hc1 in Hi2. split; [done|]. split; [congruence|]. split; [congruence|auto].
Qed.

(** ** The start *)
Context (HT1 : ∀ i, (0 < k i)%nat) (HT : ∀ i, k (S i) = (2 * k i)%nat) (Hbz : 0 < bz) (Hms : ms = bz * Z.of_nat (k 0))
  (Hmax : bz * Z.of_nat (k num) < 2 ^ 32).

Lemma check_ok t L : chain t L → (length L ≤ k num)%nat → check (head t) (tail t) (cacheTracking t) (blks t) = Ok ().
Proof.
  intros Hc HL. unfold check. pose proof (ch_head _ _ Hc) as Hh. destruct (ch_geo _ _ Hc) as [Hb Hm].
  assert (Some (head t) = first_or None L) as -> by (destruct L; [done|cbn in *; congruence]).
  assert (0 < length L)%nat by (destruct L; [done|cbn; lia]).
  rewrite Hm, Hms, (ch_mask _ _ Hc).
  apply (check_walk num k Hnum bz L HT (λ i Hi, proj2 (ch_fit _ _ Hc i Hi)) HL Hbz Hmax (ch_nodup _ _ Hc) _ _ _ [] L 0 0);
    try done; try apply Hc.
  - by apply place_start.
  - rewrite <-(length_seq (length (blks t)) 0). apply submseteq_length, NoDup_submseteq; [apply Hc|].
    intros y Hy%(ch_all _ _ Hc). apply elem_of_seq. lia.
Qed.

Lemma init_tracking_ok c n : (2 ≤ n)%nat → (∀ i, (i < num)%nat → (2 ≤ k i < n)%nat) → (n ≤ k num)%nat →
  ct_blkSize c = bz → minTrackedSize c = ms → numTrackedCaches c = num →
  inAllCachesMask c = u32 (Bitfield.mask (Z.of_nat num)) → boundaries c = replicate num None →
  let bs := imap (link n) (replicate n FALRUBlk_new) in
  ∃ l bs', CacheTracking_init 0 (n - 1) c bs = Ok (set_boundaries l c, bs') ∧ remasked bs bs' ∧ tracked num k (seq 0 n) l bs'.
Proof.
  intros Hn Hfit Hkn Hb Hm Hnc Hall Hbd bs. unfold CacheTracking_init. rewrite Hm, Hall, Hnc.
  assert (length bs = n) as Hlbs by (unfold bs; by rewrite length_imap, length_replicate). destruct num as [|num'] eqn:Hnn.
  - exists (boundaries c), bs. split; [destruct (length bs); by destruct c|]. split; [done|].
    split; [by rewrite Hbd|intros i Hi; lia|].
    intros z m _ (b & Hbz' & ->)%fmap_Some. unfold bs in Hbz'. rewrite list_lookup_imap in Hbz'.
    apply fmap_Some in Hbz' as (b0 & [-> _]%lookup_replicate & ->). split; [done|]. intros i. rewrite Z.testbit_0_l.
    symmetry. apply bool_decide_false. lia.
  - rewrite <-Hnn in *. destruct (init_walk num k Hnum bz (seq 0 n) HT1 HT) with (tail := (n - 1)%nat) (done := @nil nat) (rest := seq 0 n)
      (p := 0%nat) (j := 0%nat) (curr := 0) (ts := ms) (m := u32 (Bitfield.mask (Z.of_nat num))) (fuel := length bs)
      (c := c) (bs := bs) as (l & bs' & Hw & ? & ?); try done.
    + intros i Hi. rewrite length_seq. by apply Hfit.
    + by rewrite length_seq.
    + apply NoDup_seq.
    + by rewrite Hbd, length_replicate.
    + intros i Hi. lia.
    + by intros z v []%not_elem_of_nil.
    + by apply (link_seg n 0 n).
    + rewrite last_lookup, length_seq, lookup_seq. lia.
    + rewrite Hms. apply place_start; try done; rewrite length_seq; lia.
    + by rewrite length_seq, Hlbs.
    + exists l, bs'. split; [|done]. rewrite <-Hw. f_equal. destruct n; [lia|done].
Qed.

Lemma tagsInit_ok t n : blks t = replicate n FALRUBlk_new → (2 ≤ n)%nat → tagHash t = ∅ →
  (∀ i, (i < num)%nat → (2 ≤ k i < n)%nat) → (n ≤ k num)%nat →
  ct_blkSize (cacheTracking t) = bz → minTrackedSize (cacheTracking t) = ms → numTrackedCaches (cacheTracking t) = num →
  inAllCachesMask (cacheTracking t) = u32 (Bitfield.mask (Z.of_nat num)) →
  boundaries (cacheTracking t) = replicate num None →
  ∃ t', tagsInit t = Ok t' ∧ inv t' ((λ y, (y, None)) <$> seq 0 n) [] ∧ cfg t' = cfg t ∧
    ∃ l, cacheTracking t' = set_boundaries l (cacheTracking t).
Proof.
  intros Hb Hn Hhash Hfit Hkn Hc1 Hc2 Hc3 Hc4 Hc5. unfold tagsInit. rewrite Hb, length_replicate.
  rewrite (proj2 (Nat.ltb_ge _ _)) by lia.
  destruct (init_tracking_ok (cacheTracking t) n) as (l & bs' & Hinit & (Hlr & Hli & Hco) & Htr); try done.
  cbn [head tail set_ends cacheTracking]. rewrite Hinit. cbn [mbind res_bind]. eexists. split; [done|].
  split; [|split; [done|by exists l]]. rewrite length_imap, length_replicate in Hlr. split; cbn.
  - rewrite <-list_fmap_compose. rewrite list_fmap_id. split; cbn; try done.
    + apply NoDup_seq.
    + intros y. rewrite elem_of_seq, Hlr. lia.
    + intros i Hi. rewrite length_seq. by apply Hfit.
    + eapply (seg_ext (imap (link n) (replicate n FALRUBlk_new))); [intros; apply Hli|by apply (link_seg n 0 n)].
    + destruct n; [lia|done].
    + rewrite last_lookup, length_seq, lookup_seq. lia.
  - intros y o (z & [= -> ->] & Hz%elem_of_seq)%list_elem_of_fmap. rewrite Hco. unfold cores.
    rewrite list_lookup_imap, lookup_replicate_2 by lia. cbn. by eexists.
  - intros x y. rewrite Hhash, lookup_empty. split; [done|]. by intros (z & [=] & _)%list_elem_of_fmap.
  - unfold pad. cbn. rewrite Nat.sub_0_r, length_fmap, length_seq. rewrite <-list_fmap_compose.
    clear. generalize 0%nat. induction n as [|n IH]; intros j; cbn; [done|]. f_equal. apply IH.
  - constructor.
Qed.
End run.

(** ** Caches whose sizes are powers of two

    [2 ^ s] bytes in a block, [2 ^ n] in the cache and [2 ^ m], two blocks or
    more, in the smallest cache tracked. *)
Section sizes.
Context (s n m : nat) (Hsn : (s < n)%nat) (Hn : (n ≤ 31)%nat) (Hsm : (s < m)%nat) (Hm : (m ≤ 31)%nat).
Context (lat warmup maxreq : Z) (sequential : bool).

Definition tags : res FALRU :=
  t ← FALRU_new (2 ^ Z.of_nat n) (2 ^ Z.of_nat s) (2 ^ Z.of_nat m) lat warmup maxreq sequential; tagsInit t.
Definition capacity : nat := 2 ^ (n - s).
(** The blocks in the [i]-th cache tracked. *)
Definition tracked_blocks (i : nat) : nat := 2 ^ (m - s + i).

Lemma pow_u32 x : (x ≤ 31)%nat → u32 (2 ^ Z.of_nat x) = 2 ^ Z.of_nat x.
Proof. intros Hx. unfold u32. apply Z.mod_small. split; [apply Z.pow_nonneg; lia|]. apply Z.pow_lt_mono_r; lia. Qed.
Lemma log_u32 x : (x ≤ 31)%nat → floorLog2 4 (2 ^ Z.of_nat x) = Ok (Z.of_nat x).
Proof.
  intros Hx. rewrite floorLog2_log2; [by rewrite Z.log2_pow2 by lia|set_solver|].
  split; [apply Z.pow_pos_nonneg; lia|]. apply Z.pow_lt_mono_r; lia.
Qed.
Lemma pow_nat x : Z.of_nat (2 ^ x) = 2 ^ Z.of_nat x.
Proof. apply Nat2Z.inj_pow. Qed.

Lemma tracking_new : ∃ c, CacheTracking_new (2 ^ Z.of_nat m) (2 ^ Z.of_nat n) (2 ^ Z.of_nat s) = Ok c ∧
  ct_blkSize c = 2 ^ Z.of_nat s ∧ minTrackedSize c = 2 ^ Z.of_nat m ∧ numTrackedCaches c = (n - m)%nat ∧
  inAllCachesMask c = u32 (Bitfield.mask (Z.of_nat (n - m))) ∧ boundaries c = replicate (n - m) None ∧
  hits c = replicate (S (n - m)) 0 ∧ misses c = replicate (S (n - m)) 0.
Proof.
  unfold CacheTracking_new. assert (∃ k, (if 2 ^ Z.of_nat m <? 2 ^ Z.of_nat n then a ← floorLog2 4 (2 ^ Z.of_nat n);
    b ← floorLog2 4 (2 ^ Z.of_nat m); Ok (a - b) else Ok 0) = Ok k ∧ k = Z.of_nat (n - m)) as (k & -> & ->).
  { destruct (Z.ltb_spec (2 ^ Z.of_nat m) (2 ^ Z.of_nat n)) as [Hlt|Hge].
    - apply Z.pow_lt_mono_r_iff in Hlt; [|lia..]. rewrite !log_u32 by lia. cbn. eexists. split; [done|]. lia.
    - eexists. split; [done|]. assert (¬ m < n)%nat; [|lia]. intros Hmn. assert (2 ^ Z.of_nat m < 2 ^ Z.of_nat n); [|lia].
      apply Z.pow_lt_mono_r; lia. }
  cbn [mbind res_bind]. unfold fatal_if. rewrite (proj2 (Z.ltb_ge _ _)) by lia. cbn [mbind res_bind].
  rewrite Nat2Z.id. eexists. split; [done|]. cbn. by rewrite Nat.add_1_r.
Qed.

Lemma tags_ok : ∃ t, tags = Ok t ∧ Tags.maxRequestors (cfg t) = maxreq ∧ even (n - m) t ∧
  inv (n - m) tracked_blocks (2 ^ Z.of_nat s) (2 ^ Z.of_nat m) t ((λ y, (y, None)) <$> seq 0 capacity) [].
Proof.
  unfold tags, FALRU_new. rewrite (proj2 (Z.eqb_neq _ _)) by (apply Z.pow_nonzero; lia). cbn [mbind res_bind]. rewrite !pow_u32 by lia. destruct tracking_new as (c & -> & H1 & H2 & H3 & H4 & H5 & H6 & H7).
  cbn [mbind res_bind]. rewrite !isPowerOf2_pow2 by lia. cbn [negb fatal_if mbind res_bind].
  assert (2 ^ Z.of_nat n / 2 ^ Z.of_nat s = 2 ^ Z.of_nat (n - s)) as Hdiv by (rewrite <-Z.pow_sub_r by lia; f_equal; lia).
  assert (Z.to_nat (u32 (2 ^ Z.of_nat n / 2 ^ Z.of_nat s)) = capacity) as Hcap.
  { rewrite Hdiv, pow_u32 by lia. unfold capacity. rewrite <-pow_nat. by rewrite Nat2Z.id. }
  rewrite Hcap. assert (∀ i, (i < n - m)%nat → (2 ≤ tracked_blocks i < capacity)%nat) as Hfit.
  { intros i Hi. unfold tracked_blocks, capacity. split; [|apply Nat.pow_lt_mono_r; lia].
    change 2%nat with (2 ^ 1)%nat at 1. apply Nat.pow_le_mono_r; lia. }
  match goal with |- context [tagsInit ?t0] => destruct (tagsInit_ok (n - m) tracked_blocks) with (bz := 2 ^ Z.of_nat s)
    (ms := 2 ^ Z.of_nat m) (t := t0) (n := capacity) as (t & -> & Hi & Hcfg & l & Hct) end; try done; try lia.
  - intros i. unfold tracked_blocks. by apply Nat.neq_0_lt_0, Nat.pow_nonzero.
  - intros i. unfold tracked_blocks. rewrite Nat.add_succ_r. done.
  - unfold tracked_blocks. rewrite pow_nat, <-Z.pow_add_r by lia. f_equal. lia.
  - unfold tracked_blocks. rewrite pow_nat, <-Z.pow_add_r by lia. apply Z.pow_lt_mono_r; lia.
  - unfold capacity. change 2%nat with (2 ^ 1)%nat at 1. apply Nat.pow_le_mono_r; lia.
  - unfold capacity, tracked_blocks. apply Nat.pow_le_mono_r; lia.
  - exists t. split; [done|]. split; [by rewrite Hcfg|]. split; [|done]. exists 0, 0. by rewrite Hct.
Qed.
End sizes.

(** The victim, when it is valid, holds the last key. *)
Lemma victim_last num k bz ms t P ks b : inv num k bz ms t P ks → blks t !! findVictim t = Some b → isValid (fblk b) = true →
  last ks = Some (tag (fblk b), isSecure (fblk b)).
Proof.
  intros Hi Hb Hv. unfold findVictim in Hb. pose proof (ch_tail _ _ _ _ _ _ (in_chain _ _ _ _ _ _ _ Hi)) as Ht. rewrite fmap_last in Ht.
  apply fmap_Some in Ht as ([v o] & HP & Htv). cbn in Htv. rewrite Htv in Hb. apply last_Some in HP as (P0 & ->).
  destruct (in_cores _ _ _ _ _ _ _ Hi v o) as (c & Hc & Ho); [set_solver|]. unfold cores in Hc. rewrite Hb in Hc.
  injection Hc as <-. destruct o as [x|]; [|destruct Ho; congruence]. destruct Ho as [_ ->].
  pose proof (in_order _ _ _ _ _ _ _ Hi) as Hord. rewrite fmap_app in Hord. cbn [fmap list_fmap snd] in Hord.
  destruct (pad_split _ _ _ _ _ Hord) as (k1 & k2 & -> & _ & Hk2). symmetry in Hk2. apply app_eq_nil in Hk2 as [Hk2 _].
  apply fmap_nil_inv in Hk2. subst k2. by rewrite last_snoc.
Qed.

(** C17: The fully associative tags are an LRU list.  Built for any power of two
    sizes with at least two blocks in the smallest cache tracked, and after
    any sequence of accesses, fills of blocks not found and invalidations,
    no assertion of [fa_lru.cc] having failed and the consistency check of
    its debug mode passing, the chain of pointers and the hash table stand
    for the list of block addresses those operations make of an LRU list of
    that capacity: an access finds exactly the blocks on it, the victim is
    free or the last, and the mask an access returns tells for every
    smaller cache whether the block was among the first that it holds. *)
Theorem fa_lru_refines s n m lat warmup maxreq sequential l :
  (s < n)%nat → (n ≤ 31)%nat → (s < m)%nat → (m ≤ 31)%nat →
  (∀ t, tags s n m lat warmup maxreq sequential = Ok t → admissible l t) →
  ∃ t0 t, tags s n m lat warmup maxreq sequential = Ok t0 ∧ exec_all l t0 = Ok t ∧
    check (head t) (tail t) (cacheTracking t) (blks t) = Ok () ∧
    let ks := foldl (λ ks o, spec (capacity s n) (cfg t0) o ks) [] l in
    (∀ b, blks t !! findVictim t = Some b → isValid (fblk b) = true → last ks = Some (tag (fblk b), isSecure (fblk b))) ∧
    ∀ a sec, let x := (Tags.blkAlign (cfg t0) a, sec) in
      ∃ blk mask lat' t', accessBlock a sec t = Ok (blk, mask, lat', t') ∧ (blk = None ↔ x ∉ ks) ∧
        ∀ i, (i < n - m)%nat → Z.testbit mask (Z.of_nat i) = bool_decide (x ∈ take (tracked_blocks s m i) ks).
Proof.
  intros Hsn Hn Hsm Hm Hl. destruct (tags_ok s n m Hsn Hn Hsm Hm lat warmup maxreq sequential) as (t0 & Ht0 & _ & _ & Hi).
  destruct (fa_run (n - m) (tracked_blocks s m) ltac:(lia) _ _ l t0 _ _ Hi (Hl t0 Ht0)) as (t & P & He & Hi' & Hlen & Hcfg & _).
  rewrite length_fmap, length_seq in Hi', Hlen. exists t0, t. split; [done|]. split; [done|]. split; [|split].
  - apply (check_ok (n - m) (tracked_blocks s m) ltac:(lia) (2 ^ Z.of_nat s) (2 ^ Z.of_nat m)) with (L := P.*1); try apply Hi'.
    + intros i. unfold tracked_blocks. by apply Nat.neq_0_lt_0, Nat.pow_nonzero.
    + intros i. unfold tracked_blocks. by rewrite Nat.add_succ_r.
    + apply Z.pow_pos_nonneg; lia.
    + unfold tracked_blocks. rewrite pow_nat, <-Z.pow_add_r by lia. f_equal. lia.
    + unfold tracked_blocks. rewrite pow_nat, <-Z.pow_add_r by lia. apply Z.pow_lt_mono_r; lia.
    + rewrite length_fmap, Hlen. unfold capacity, tracked_blocks. apply Nat.pow_le_mono_r; lia.
  - intros b. by apply (victim_last _ _ _ _ _ _ _ _ Hi').
  - intros a sec x. destruct (fa_access_ok (n - m) _ ltac:(lia) _ _ t P _ a sec Hi') as (blk & mk & t' & P' & Ha & _ & _ & _ & _ & Hb & Hk).
    unfold extractTag in Hb, Hk. rewrite Hcfg in Hb, Hk. by eexists _, _, _, _.
Qed.

(** C40: The statistics of the smaller caches are those of the cache itself.
    [accessBlock] moves the block it finds to the front, which makes it
    fit in every cache, before it records the access: after any run every
    tracked cache has counted exactly the hits and misses of the whole
    cache, whatever its size. *)
Theorem tracked_caches_count_alike s n m lat warmup maxreq sequential l :
  (s < n)%nat → (n ≤ 31)%nat → (s < m)%nat → (m ≤ 31)%nat →
  (∀ t, tags s n m lat warmup maxreq sequential = Ok t → admissible l t) →
  ∃ t0 t, tags s n m lat warmup maxreq sequential = Ok t0 ∧ exec_all l t0 = Ok t ∧
    ∀ i, (i ≤ n - m)%nat → hits (cacheTracking t) !! i = hits (cacheTracking t) !! (n - m)%nat ∧
      misses (cacheTracking t) !! i = misses (cacheTracking t) !! (n - m)%nat.
Proof.
  intros Hsn Hn Hsm Hm Hl. destruct (tags_ok s n m Hsn Hn Hsm Hm lat warmup maxreq sequential) as (t0 & Ht0 & _ & Hev & Hi).
  destruct (fa_run (n - m) (tracked_blocks s m) ltac:(lia) _ _ l t0 _ _ Hi (Hl t0 Ht0)) as (t & P & He & _ & _ & _ & Hv).
  exists t0, t. split; [done|]. split; [done|]. destruct (Hv Hev) as (h & mi & -> & ->). intros i Hi'.
  rewrite !lookup_replicate_2 by lia. done.
Qed.

(** Three blocks in turn: each access after the first three hits, also in
    the cache of two blocks, which can never have the block. *)
Definition w_env : env := mkEnv 5 (λ lo _, lo).
Definition w_pkt (a : Z) : Pkt.Packet :=
  Pkt.mkPacket MemCmd.MemCmd.ReadReq (Pkt.mkRequest a 8 0 None None [] None) None a false 8 [] 0.
Definition w_fill (a : Z) : op := Fill w_env (w_pkt a) 0 0.
Definition w_ops : list op :=
  [Access 0 false; w_fill 0; Access 64 false; w_fill 64; Access 128 false; w_fill 128;
   Access 8 false; Access 64 false; Access 128 false; Drop 64 false; Access 0 false].
Lemma w_admissible t : tags 6 9 7 1 0 4 false = Ok t → admissible w_ops t.
Proof. intros Ht. vm_compute in Ht. injection Ht as <-. vm_compute. repeat (split || discriminate || done). Qed.
Lemma w_list t : tags 6 9 7 1 0 4 false = Ok t → foldl (λ ks o, spec (capacity 6 9) (cfg t) o ks) [] w_ops = [(0, false); (128, false)].
Proof. intros Ht. vm_compute in Ht. injection Ht as <-. by vm_compute. Qed.
Lemma fa_lru_refines_witness :
  ∃ t0 t blk mask lat' t', tags 6 9 7 1 0 4 false = Ok t0 ∧ exec_all w_ops t0 = Ok t ∧
    check (head t) (tail t) (cacheTracking t) (blks t) = Ok () ∧ accessBlock 128 false t = Ok (blk, mask, lat', t') ∧
    foldl (λ ks o, spec (capacity 6 9) (cfg t0) o ks) [] w_ops = [(0, false); (128, false)] ∧ Z.testbit mask 0 = true.
Proof.
  destruct (fa_lru_refines 6 9 7 1 0 4 false w_ops) as (t0 & t & H0 & Ht & Hc & _ & Ha); [lia|lia|lia|lia|exact w_admissible|].
  destruct (Ha 128 false) as (blk & mask & lat' & t' & Hac & _ & Hb). exists t0, t, blk, mask, lat', t'.
  split; [exact H0|]. split; [exact Ht|]. split; [exact Hc|]. split; [exact Hac|]. split; [exact (w_list t0 H0)|].
  etransitivity; [apply (Hb 0%nat); lia|]. cbv zeta. rewrite (w_list t0 H0). apply bool_decide_eq_true_2.
  vm_compute in H0. injection H0 as <-. vm_compute. right. left.
Defined.
Lemma tracked_caches_count_alike_witness :
  ∃ t0 t, tags 6 9 7 1 0 4 false = Ok t0 ∧ exec_all w_ops t0 = Ok t ∧
    hits (cacheTracking t) !! 0%nat = hits (cacheTracking t) !! 2%nat.
Proof.
  destruct (tracked_caches_count_alike 6 9 7 1 0 4 false w_ops) as (t0 & t & H0 & Ht & Hall); [lia|lia|lia|lia|exact w_admissible|].
  exists t0, t. split; [exact H0|]. split; [exact Ht|]. apply (Hall 0%nat). lia.
Defined.
(** When the smallest cache tracked has a single block, its boundary is lost
    with the first fill and the second follows a null pointer. *)
Example single_block_tracking_fails :
  ∃ t0, tags 6 9 6 1 0 4 false = Ok t0 ∧ exec_all [w_fill 0; w_fill 64] t0 = Err Undef.
Proof. eexists. split; [vm_compute; reflexivity|]. by vm_compute. Qed.
End FAR.
